(* ===== verification/_CoqProject ===== *)
-Q . S2P
Prelude.v
Range.v
IntervalTree.v
Print.v
RiscvTables.v
RiscvDecode.v
RiscvEncode.v
RiscvDisas.v
Snippet.v
ChunkList.v
GSTable.v
Chunk.v
Mutator.v
MutatorProofs.v
Layout.v
Sandbox.v
Archive.v
RegBits.v
Dwarf.v
DwarfProofs.v
UnionFind.v
Symbols.v
Graph.v
GraphProofs.v
ControlFlow.v
ControlFlowProofs.v
SccProofs.v
Dominance.v
DominanceProofs.v
GraphTheorems.v
Link.v
Linked.v
LinkedProofs.v
PromoteJumps.v
PromoteJumpsProofs.v
Deferred.v
SymbolTable.v
GnuHash.v
GnuHashProofs.v
Sections.v
SectionsProofs.v
NonReturn.v
NonReturnProofs.v
Call.v
Debloat.v
DebloatProofs.v
DataRegion.v
DataRegionProofs.v
Assembly.v
ReachingDef.v
ReachingDefProofs.v
ReorderPush.v
ReorderPushProofs.v
