(* ===== verification/Prelude.v ===== *)
(** * Egalito: a verification development of the binary recompiler

    Egalito (src/src) parses an ELF program into a hierarchy of chunks (program,
    modules, functions, blocks, instructions, and beside them the regions, sections
    and variables of data), connects them by links, lets passes analyse and change
    the hierarchy, and generates code or a new ELF file again.  The development models
    the parts below as executable functions and proves what makes them correct:
    containers and geometry of addresses (util, chunk, transform), decoding of machine
    code and of debugging tables (disasm, dwarf), graphs of control flow and calls
    (analysis) with passes that use them (pass), instructions that follow their targets
    (instr), the parts of an output file (generate), and C code that runs inside the
    transformed program (cminus, snippet, app/*/inject).
    Paths are relative to src/src unless they begin with app/.

    ** Conventions

    Machine integers are elements of [Z]; every operation that can wrap in the
    source wraps here ([wrap], [swrap] and [u64] of this file).  An operation that
    can fail returns [res], whose error says what goes wrong: an [assert], a
    [throw], an access out of bounds, a null pointer, undefined behaviour.
    Objects that are shared by pointers live in an explicit heap, and code that
    changes them is in a state monad over it.  Library and kernel code that is not
    part of the repository (the addresses [mmap] returns, say) is an argument of the
    definitions that use it.  Where a component reads other parts of the program only
    through accessors, it gets a view of them: a record of what the accessors return.

    ** Files, in dependency order

    Containers, addresses and the tree of chunks:
    - Prelude: faults, results, fixed-width integers, bit lemmas, shared tactics.
    - Range: util/range.{h,cpp}; half-open ranges of addresses, with wrap-around.
    - IntervalTree: util/intervaltree.{h,cpp}; the tree that keeps free and
      claimed ranges.  [wf] is its invariant; add, remove, subtract, complement,
      union, splitAt and the searches are specified by the multiset of ranges the
      tree holds, or by the points it covers.
    - ChunkList: chunk/chunklist.h, util/iter.h; a vector with an address map and
      a name map; refinement of a list with two indices of it, which insertions at an
      index do not reach.
    - GSTable: chunk/gstable.{h,cpp}; indices of indirect branch targets.
    - Chunk: chunk/chunk.{h,cpp}, position.{h,cpp}, size.{h,cpp} and the chunk
      classes; the heap of chunks and positions, and how addresses are computed.
    - Mutator, MutatorProofs: operation/mutator.{h,cpp}, cursor.{h,cpp}; every
      operation of the mutator, and that insertions and removals keep the
      pointers, the sizes and the offsets of the tree consistent.
    - Layout: the position update of the mutator's destructor, which leaves a
      layout without gaps at every level.
    - Sandbox: transform/sandbox.{h,cpp}, slot.h and the address assignment of
      transform/generator.cpp; the generator is proved correct against the class
      [SandboxLaws], which both allocators satisfy.
    - Archive: archive/{stream,flatchunk,chunktypes,archive,writer,reader}.* and
      archive/operations.h; writing and reading back an archive.
    - UnionFind: elf/unionfind.{h,cpp}; [join] and [find] against the class [EdgeLaws],
      which states what the virtual [setEdge] promises.
    - Symbols: elf/symbol.{h,cpp}; symbols, their lists and maps, the alias finder (an
      instance of the union-find interface), and the construction of the lists from the
      tables of an ELF file.
    - DataRegion, DataRegionProofs: chunk/dataregion.{h,cpp}, pass/clearspatial.cpp and
      the move of regions in conductor/setup.cpp; [section_ok], [region_ok] and [list_ok]
      are the invariants, over the address maps of ChunkList.

    Code and tables in bytes:
    - RiscvTables, RiscvDecode, RiscvEncode, RiscvDisas: disasm/riscv-disas.{h,cpp};
      tables and enumerations, opcode and operand decoding, an encoder as
      reference and the round trip, decompression, pseudo-instructions, and the
      walk over a buffer of code.
    - RegBits: disasm/aarch64-regbits.{h,cpp}; register fields of AArch64 words, against a
      table of instruction classes of the architecture.
    - Dwarf, DwarfProofs: dwarf/{cursor,state,entry,parser}.* and defines.h; the reader
      of .eh_frame, with its stack of register rules and its expression evaluator, and
      its correctness against the encodings and the rule table of the DWARF standard.
    - Link: chunk/link.{h,cpp}; the kinds of links, their scopes and target addresses.
    - Linked, LinkedProofs: instr/linked-aarch64.{h,cpp}, instr/linked-x86_64.{h,cpp};
      the immediates and displacements that are written again when a target has moved,
      against the decoding of the architecture manuals.

    Graphs and passes:
    - Graph, GraphProofs: analysis/graph.h and walker.{h,cpp}; the depth-first walk, the
      preorder and postorder objects, reachability and strongly connected components;
      GraphProofs has the invariant of the walk, SccProofs that of the components.
    - ControlFlow, ControlFlowProofs: analysis/controlflow.{h,cpp}; the nodes and links
      of the control flow graph of a function.
    - Dominance, DominanceProofs: analysis/dominance.{h,cpp}; the iteration on immediate
      dominators, and the lists of dominators and postdominators.
    - GraphTheorems: the orders, components and dominators over every graph.
    - PromoteJumps, PromoteJumpsProofs: pass/promotejumps.{h,cpp}; short jumps whose
      target is out of reach become long ones, until nothing changes; the opcodes are compared
      with a table of the architecture.
    - NonReturn, NonReturnProofs: pass/nonreturn.{h,cpp} and the search of
      analysis/usedefutil.h; functions that do not return.  The definitions that the
      use-def analysis lists for a register are a parameter.
    - Call, Debloat, DebloatProofs: analysis/call.{h,cpp} and pass/debloat.{h,cpp}; the call
      graph, the functions that are used, and the removal of the others.
    - Assembly: instr/register.{h,cpp} and assembly.{h,cpp} on x86-64; the physical numbers
      of registers, and the mode of the operands of an instruction.
    - ReachingDef, ReachingDefProofs: analysis/reachingdef.{h,cpp}; which instructions of a
      block must stay in order, and the orders that remain.  A table of reads and writes is
      the specification of the handlers.
    - ReorderPush, ReorderPushProofs: pass/reorderpush.{h,cpp}; blocks of the chunk tree get
      their instructions in a random one of these orders.

    The output file:
    - Deferred: generate/deferred.h, integerdeferred.{h,cpp}; values that are written once
      the layout is known, and their lists and maps.
    - SymbolTable: the symbol tables of generate/concretedeferred.{h,cpp}.
    - GnuHash, GnuHashProofs: [MakeDynsymHash] of generate/concrete.cpp, with the lookup of
      the dynamic linker as the reference.
    - Sections, SectionsProofs: generate/section.{h,cpp}, sectionlist.{h,cpp}, the headers,
      segments and paddings of concretedeferred, and the operations of concrete.cpp that
      pad, number and write the sections.

    Code in the transformed program:
    - Print: cminus/print.c; [vfprintf] and [vsnprintf] against a reference
      renderer of format strings and the positional notation of numbers, including the
      bounds of the output array.
    - Snippet: snippet/logfunction.c, util/explicit_bzero.c,
      app/sandbox/inject/sandbox.c, app/cet/inject/cet.c,
      app/coverage/inject/shmem.c; the write-xor-execute filter over
      sequences of system calls, the function log as a bounded array of events.

    ** What the theorems show

    - The tree of chunks: [insertion_keeps_tree], [remove_keeps_tree] (pointers, sizes and
      offsets), [updatePositions_contiguous] (the layout), [chunklist_refines_list] (a
      simulation by lists), [chunklist_lookup].
    - Addresses: the [interval_tree_*] theorems; [assign_functions_correct] (slots of different
      functions are disjoint and inside the sandbox); [gstable_offset_roundtrip].
    - Data: [data_link_correct] (a link to data is evaluated to the address it was made for),
      [create_variable_correct], [regions_move] (sections, variables and links follow).
    - Symbols: [aliases_by_address] and, below it, [unionfind_partition] (an equivalence
      closure).
    - Decoding: [rv_decode_inverts_encode], [rv_disasm_buffer_walk], [replaceRegister_correct],
      [eh_frame_parsed], [cfa_rules_correct] (the rule table of DWARF), [leb128_correct]; the
      lemmas [rv_operands_layout] and [rvc_operands_layout] compare the extractors with the
      fields of the ISA manual.
    - Linked instructions: [linked_aarch64_correct], [linked_x86_correct]: what is written is
      decoded to the target, and no other bit changes.
    - Graphs: [scc_order_correct], [dominators_correct], [postdominators_entry],
      [reverse_postorder_correct], [isReachable_correct], [cfg_correct].
    - Passes: [promote_jumps_correct] and [promote_jumps_terminates]; [nonreturn_sound] (a
      marked function has no return that is reached);
      [debloat_used] (exactly what the roots reach is kept); [reaching_def_sound] (every order
      the analysis allows executes as the block does) and [reorder_push_correct].
    - The output file: [gnu_hash_lookup], [symbol_table_correct], [elf_file_written],
      [segment_mapped], [section_table_indices].
    - Archives: [archive_roundtrip], [archive_truncated].
    - The code that runs in the program: [vfprintf_renders], [vsnprintf_renders],
      [sandbox_no_exec_after_write], [log_dump_prints_events].
    - Defects: theorems such as [interval_tree_add_empty_diverges], [ldst_misread],
      [archive_confuses_types], [sandbox_munmap_clears_other_page], [debloat_removal_undefined]
      and [stale_address_map], and examples of the Examples modules; the manifest lists
      them as findings.

    ** Conditions

    Where the code is right only on a part of its inputs, the theorem says on which, and a
    counterexample shows why it does not hold for the rest:
    - [vfprintf_renders]: no negative numbers ([vfprintf_negative]); widths and flags are
      not in the rendering ([vfprintf_ignores_width]).
    - [promote_jumps_correct]: no JCXZ, JECXZ and JRCXZ ([jrcxz_loses_opcode]).
    - [linked_aarch64_correct] is an equivalence with [preserved]; [ldr_literal_backward],
      [ldrb_upper_half] and [str_quad] are targets for which it fails.
    - [gnu_hash_lookup] is about the symbols that are hashed, some undefined ones among them
      ([undefined_hashed]).
    - [symbol_table_correct] counts the additions of keys that are there already
      ([duplicate_plt]).
    - [nonreturn_sound]: no conditional jumps to functions ([conditional_jump_marked]), and no
      constant other than 0 among the definitions at a call of error() that returns
      ([error_rbp], [error_ambiguous]).
    - [reaching_def_sound] and [reorder_push_correct]: instructions that the analysis handles
      ([pop_rsp_fails], [segment_register_fails]), and machines that do no more than it believes
      ([pop_to_memory_not_ordered]).
    - [sandbox_no_exec_after_write] is about entries of the array of the sandbox, which pages
      share ([sandbox_munmap_clears_other_page]).
    - [cfa_rules_correct]: general registers only ([vector_register_out_of_bounds]), numbers below
      2^31 ([leb128_correct]), set_loc with augmentation data ([set_loc_not_read]).
    - [chunklist_lookup]: [findAllContaining] looks at five neighbours only, and [findAllWithin]
      leaves out a child at the start of the range.
    - [replaceRegister_correct]: the classes of [isa]; for others the fields are wrong
      ([ldst_misread], [fields_missed], [fields_made_up]).

    ** Fuel

    Recursions that are not structural take fuel, and the theorems show that the
    fuel the definitions choose is enough.  An insertion in the interval tree takes
    two more than the number of bits of an address, since a child covers at most half of
    its parent (the other operations are structural); the walk up the chunk tree takes the
    number of chunks of the heap and the evaluation of a position the number of positions,
    since a path without a cycle visits each at most once; the disassembly of a buffer takes
    its length, since each step consumes at least two bytes; number printing takes
    the number of digits of the type; the .eh_frame parser takes the
    number of bytes of the memory, since an entry and an instruction have at least one;
    [UnionFind::find] takes the count plus one.  A depth-first walk takes the number of nodes
    plus one, since a node is entered once; the meeting of two dominator chains twice that
    number plus one, since each step goes up in the order; the passes over the dominators its
    square plus two, since a pass that is not the last moves a dominator up.  The search of the
    closure of a block of n instructions takes 2^(n+1) steps (counted in binary), since each step
    replaces an instruction of the queue by earlier ones, and the sum of 2^index over the queue
    gets smaller; the visit of its groups takes n plus one.  The rounds of
    the jump promotion are the number of short jumps plus one, since each but the last promotes
    one; those of the nonreturn pass the number of functions plus two; an array of pointers is read in a
    number of steps that is an eighth of its size plus two; the content of a section, which may lie
    inside others, takes the number of sections plus one; the lookup of the dynamic linker
    the length of the table.  [OutOfFuel] is an error of its own, so a
    theorem that says [Ok] also says that the fuel was enough.

    ** Not modelled

    Code that is a thin wrapper of a library outside the repository's own sources (capstone,
    keystone, distorm3 under dep/), the reading of ELF files through casts of mapped
    memory (relocations, dynamic and version sections), the run-time loader and the
    break and signal code (assembly and system calls), the logging macros, and the
    command line tools.  The use-def and data flow analyses and the search for jump tables
    are visitors over the operands that capstone returns, and the instruction semantics
    (instr/) beside the linked instructions keeps their handles; most passes build new
    instructions from assembly text with keystone.  Of the chunk classes, the ones that only hold
    fields (PLT entries, jump tables, markers, vtables) and the serializers of the hierarchy
    are left out. *)

From stdpp Require Export base tactics list numbers gmap strings sorting.
From Stdlib Require Export ZArith Lia.

#[global] Open Scope Z_scope.

(** ** Faults and results *)

(** Why an operation of the program does not return normally. *)
Inductive fault : Type :=
| AssertFail            (* a C [assert] whose condition is false *)
| Throw (msg : string)  (* a C++ [throw] *)
| OutOfBounds           (* an access outside an array, a vector or a buffer *)
| NullDeref             (* a member access through a null pointer *)
| Undefined             (* another undefined behaviour of the language *)
| Aborted               (* a call of [std::abort] *)
| OutOfFuel.            (* the model's recursion bound is exhausted *)

Inductive res (A : Type) : Type :=
| Ok (a : A)
| Err (e : fault).
Arguments Ok {A} a.
Arguments Err {A} e.

#[export] Instance fault_eq_dec : EqDecision fault.
Proof. solve_decision. Defined.
#[export] Instance res_eq_dec {A} `{EqDecision A} : EqDecision (res A).
Proof. solve_decision. Defined.

#[export] Instance res_ret : MRet res := fun A => @Ok A.
#[export] Instance res_bind : MBind res := fun A B f m =>
  match m with Ok a => f a | Err e => Err e end.
#[export] Instance res_fmap : FMap res := fun A B f m =>
  match m with Ok a => Ok (f a) | Err e => Err e end.

(** [assert(b)] *)
Definition cassert (b : bool) : res unit := if b then Ok tt else Err AssertFail.

Lemma bind_Ok {A B} (m : res A) (f : A -> res B) b :
  (m ≫= f) = Ok b <-> exists a, m = Ok a /\ f a = Ok b.
Proof. destruct m; cbn; naive_solver. Qed.

(** ** Machine integers *)

(** The value of [x] in an unsigned type of [w] bits. *)
Definition wrap (w x : Z) : Z := x mod 2 ^ w.

(** The value of [x] in a signed (two's complement) type of [w] bits. *)
Definition swrap (w x : Z) : Z := (x + 2 ^ (w - 1)) mod 2 ^ w - 2 ^ (w - 1).

Abbreviation u8 := (wrap 8).
Abbreviation u16 := (wrap 16).
Abbreviation u32 := (wrap 32).
Abbreviation u64 := (wrap 64).

(** [address_t] and [size_t] are [uint64_t] (src/types.h). *)
Definition is_u (w x : Z) : Prop := 0 <= x < 2 ^ w.
Abbreviation is_u64 := (is_u 64).

Definition add64 (a b : Z) : Z := u64 (a + b).
Definition sub64 (a b : Z) : Z := u64 (a - b).

Lemma wrap_range w x : 0 <= w -> 0 <= wrap w x < 2 ^ w.
Proof. intros. apply Z.mod_pos_bound. apply Z.pow_pos_nonneg; lia. Qed.

Lemma wrap_small w x : 0 <= x < 2 ^ w -> wrap w x = x.
Proof. apply Z.mod_small. Qed.

Lemma add64_small a b : 0 <= a + b < 2 ^ 64 -> add64 a b = a + b.
Proof. apply wrap_small. Qed.

Lemma sub64_small a b : 0 <= a - b < 2 ^ 64 -> sub64 a b = a - b.
Proof. apply wrap_small. Qed.

Lemma testbit_high w x i : 0 <= w -> 0 <= x < 2 ^ w -> w <= i -> Z.testbit x i = false.
Proof.
  intros Hw Hx Hi. rewrite <- (Z.mod_small x (2 ^ w)) by done. apply Z.mod_pow2_bits_high. lia.
Qed.

Lemma bits_small w x : 0 <= w -> (forall i, w <= i -> Z.testbit x i = false) -> 0 <= x -> x < 2 ^ w.
Proof.
  intros Hw Hb Hx. destruct (Z.lt_ge_cases x (2 ^ w)) as [|Hge]; [done|].
  assert (0 < x) by (pose proof (Z.pow_pos_nonneg 2 w); lia).
  pose proof (Z.log2_le_mono _ _ Hge) as Hl. rewrite Z.log2_pow2 in Hl by lia.
  specialize (Hb (Z.log2 x) Hl). rewrite Z.bit_log2 in Hb by lia. done.
Qed.

Lemma testbit_wrap w x i : 0 <= w -> Z.testbit (wrap w x) i = (i <? w) && Z.testbit x i.
Proof. intros. unfold wrap. by apply Z.testbit_mod_pow2. Qed.

Lemma lor_range w a b : 0 <= a < 2 ^ w -> 0 <= b < 2 ^ w -> 0 <= w -> 0 <= Z.lor a b < 2 ^ w.
Proof.
  intros Ha Hb Hw. assert (0 <= Z.lor a b) by (apply Z.lor_nonneg; lia). split; [done|].
  apply bits_small; [done| |done]. intros i Hi. by rewrite Z.lor_spec, !(testbit_high w) by lia.
Qed.

Lemma wrap_mod w n x : 0 <= n <= w -> wrap w x mod 2 ^ n = x mod 2 ^ n.
Proof.
  intros. apply Z.bits_inj'; intros i Hi. rewrite !Z.testbit_mod_pow2, testbit_wrap by lia.
  destruct (Z.ltb_spec i n); [|done]. by rewrite (proj2 (Z.ltb_lt _ _)) by lia.
Qed.

(** ** Bytes, characters and buffers *)

(** The character codes of a string literal. *)
Definition chars (s : string) : list Z :=
  map (fun c => Z.of_N (Ascii.N_of_ascii c)) (String.list_ascii_of_string s).

(** Checked accesses to an array. *)
Definition load {A} (buf : list A) (i : Z) : res A :=
  if i <? 0 then Err OutOfBounds
  else match buf !! Z.to_nat i with Some b => Ok b | None => Err OutOfBounds end.
Definition store {A} (buf : list A) (i : Z) (b : A) : res (list A) :=
  if (i <? 0) || (Z.of_nat (length buf) <=? i) then Err OutOfBounds
  else Ok (<[Z.to_nat i := b]> buf).

(** Integers are stored as the machine does, least significant byte first. *)
Fixpoint le_bytes (n : nat) (v : Z) : list Z :=
  match n with O => [] | S n => v mod 256 :: le_bytes n (v / 256) end.
Fixpoint le_value (l : list Z) : Z :=
  match l with [] => 0 | b :: l => b + 256 * le_value l end.

(** A [switch] whose cases all break: the first case with the value, or the
    default. *)
Fixpoint switch {A} (v : Z) (cases : list (Z * A)) (default : A) : A :=
  match cases with
  | [] => default
  | (k, a) :: cases => if v =? k then a else switch v cases default
  end.

Lemma switch_forall {A} (P : A -> Prop) v cases d :
  P d -> Forall (fun c => P c.2) cases -> P (switch v cases d).
Proof.
  intros Hd Hc. induction Hc as [|[k a] cases Ha _ IH]; cbn; [done|]. by destruct (v =? k).
Qed.

Lemma load_lookup {A} (l : list A) i x : load l i = Ok x <-> 0 <= i /\ l !! Z.to_nat i = Some x.
Proof.
  unfold load. destruct (Z.ltb_spec i 0); [split; [done|lia]|].
  destruct (l !! Z.to_nat i); split; intros; destruct_and?; simplify_eq; auto.
Qed.

Lemma store_app {A} (l1 : list A) x l2 b :
  store (l1 ++ x :: l2) (Z.of_nat (length l1)) b = Ok (l1 ++ b :: l2).
Proof.
  unfold store. rewrite length_app. cbn [length].
  rewrite (proj2 (Z.ltb_ge _ _)), (proj2 (Z.leb_gt _ _)) by lia. cbn [orb].
  rewrite Nat2Z.id, insert_app_r_alt, Nat.sub_diag by lia. done.
Qed.

Lemma load_app {A} (l1 : list A) x l2 :
  load (l1 ++ x :: l2) (Z.of_nat (length l1)) = Ok x.
Proof.
  unfold load. rewrite (proj2 (Z.ltb_ge _ _)) by lia.
  by rewrite Nat2Z.id, list_lookup_middle.
Qed.

(** ** Automation *)

Create HintDb egalito.
Create Rewrite HintDb egalito.
#[export] Hint Resolve wrap_small add64_small sub64_small : egalito.

(** Turns boolean comparisons on [Z] found in the context into linear facts. *)
Ltac zbool :=
  repeat match goal with
  | H : (_ && _)%bool = true |- _ => apply andb_true_iff in H as [??]
  | H : (_ || _)%bool = false |- _ => apply orb_false_iff in H as [??]
  | H : negb _ = true |- _ => apply negb_true_iff in H
  | H : negb _ = false |- _ => apply negb_false_iff in H
  | H : (_ <=? _) = true |- _ => apply Z.leb_le in H
  | H : (_ <=? _) = false |- _ => apply Z.leb_gt in H
  | H : (_ <? _) = true |- _ => apply Z.ltb_lt in H
  | H : (_ <? _) = false |- _ => apply Z.ltb_ge in H
  | H : (_ =? _) = true |- _ => apply Z.eqb_eq in H
  | H : (_ =? _) = false |- _ => apply Z.eqb_neq in H
  end.

(** Splits on the boolean tests of the goal. *)
Ltac case_if :=
  match goal with
  | |- context [if ?b then _ else _] => let E := fresh "E" in destruct b eqn:E
  end.

(** [lia] with division and remainder by constants. *)
Ltac zdiv := Z.div_mod_to_equations; lia.

(** Case analysis on a membership in a concrete list. *)
Ltac members H :=
  cbn in H; repeat (apply elem_of_cons in H as [->|H]); try (by apply elem_of_nil in H).

(** ** Integers in memory *)

Lemma le_bytes_length n v : length (le_bytes n v) = n.
Proof. revert v. induction n; intros; cbn; [done|]. by rewrite IHn. Qed.

Lemma le_value_bytes n v : 0 <= v < 256 ^ Z.of_nat n -> le_value (le_bytes n v) = v.
Proof.
  revert v. induction n as [|n IH]; intros v Hv; [cbn in *; lia|].
  cbn [le_bytes le_value]. rewrite Nat2Z.inj_succ, Z.pow_succ_r in Hv by lia.
  rewrite IH by zdiv. pose proof (Z.div_mod v 256). lia.
Qed.

Lemma le_value_mod n v : le_value (le_bytes n v) = v mod 256 ^ Z.of_nat n.
Proof.
  revert v. induction n as [|n IH]; intros v; [by rewrite Z.mod_1_r|].
  cbn [le_bytes le_value]. rewrite IH, Nat2Z.inj_succ, Z.pow_succ_r by lia.
  rewrite Z.rem_mul_r; lia.
Qed.

(** A signed value is determined by its bits. *)
Lemma swrap_mod w v : 0 < w -> - 2 ^ (w - 1) <= v < 2 ^ (w - 1) -> swrap w (v mod 2 ^ w) = v.
Proof.
  intros Hw Hv. unfold swrap. rewrite Zplus_mod_idemp_l.
  assert (E : 2 ^ w = 2 * 2 ^ (w - 1)) by (rewrite <- Z.pow_succ_r by lia; f_equal; lia).
  rewrite Z.mod_small; lia.
Qed.
