(* ===== verification/Range.v ===== *)
(** * Address ranges: src/util/range.h and src/util/range.cpp

    A [Range] is a start address and a size, both 64-bit unsigned; its end
    wraps around as the C++ sum does.  The overloads of the class that differ
    in the type of the operand ([address_t] or [Range]) carry the suffixes
    [_point] and [_range] here. *)

From S2P Require Import Prelude.

Record Range := mkRange { _start : Z; _size : Z }.

#[export] Instance Range_eq_dec : EqDecision Range.
Proof. solve_decision. Defined.

Module Range.

Definition empty : Range := mkRange 0 0.
Definition getStart (r : Range) : Z := _start r.
Definition getEnd (r : Range) : Z := add64 (_start r) (_size r).
Definition getSize (r : Range) : Z := _size r.

Definition contains_point (r : Range) (point : Z) : bool :=
  (_start r <=? point) && (point <? getEnd r).
Definition contains_range (r other : Range) : bool :=
  (_start r <=? _start other) && (getEnd other <=? getEnd r).
Definition overlaps_point (r : Range) (point : Z) : bool :=
  contains_point r point.
Definition overlaps_range (r other : Range) : bool :=
  negb ((getEnd r <=? _start other) || (getEnd other <=? _start r)).

Definition endsWith (r : Range) (point : Z) : bool := getEnd r =? point.

Definition lt_point (r : Range) (point : Z) : bool :=
  add64 (_start r) (_size r) <=? point.
Definition lt_range (r other : Range) : bool :=
  if _start r <? _start other then true
  else if _start r =? _start other then
    if getEnd r <? getEnd other then true else false
  else false.
Definition eqb (r other : Range) : bool :=
  (_start r =? _start other) && (_size r =? _size other).
Definition neqb (r other : Range) : bool :=
  negb (_start r =? _start other) || negb (_size r =? _size other).
Definition point_lt (point : Z) (r : Range) : bool := point <? getStart r.

Definition fromPoint (point : Z) : Range := mkRange point 1.
Definition fromEndpoints (start end_ : Z) : res Range :=
  cassert (start <=? end_);; Ok (mkRange start (sub64 end_ start)).

(** A range whose end does not wrap around. *)
Definition ok (r : Range) : Prop :=
  0 <= _start r /\ 0 <= _size r /\ _start r + _size r < 2 ^ 64.

(** The set of addresses of a range. *)
Definition covers (r : Range) (p : Z) : Prop :=
  _start r <= p < _start r + _size r.

#[export] Instance ok_dec r : Decision (ok r).
Proof. unfold ok. apply _. Defined.
#[export] Instance covers_dec r p : Decision (covers r p).
Proof. unfold covers. apply _. Defined.

Lemma getEnd_ok r : ok r -> getEnd r = _start r + _size r.
Proof. intros (?&?&?). apply add64_small. lia. Qed.

Lemma contains_point_spec r p :
  ok r -> contains_point r p = true <-> covers r p.
Proof.
  intros Hr. unfold contains_point, covers. rewrite getEnd_ok by done.
  rewrite andb_true_iff, Z.leb_le, Z.ltb_lt. lia.
Qed.

Lemma contains_range_spec r o :
  ok r -> ok o -> contains_range r o = true <->
  _start r <= _start o /\ _start o + _size o <= _start r + _size r.
Proof.
  intros. unfold contains_range. rewrite !getEnd_ok by done.
  rewrite andb_true_iff, !Z.leb_le. lia.
Qed.

Lemma lt_point_spec r p : ok r -> lt_point r p = true <-> _start r + _size r <= p.
Proof. intros Hr. unfold lt_point. rewrite <- getEnd_ok by done. apply Z.leb_le. Qed.

Lemma eqb_spec r o : eqb r o = true <-> r = o.
Proof.
  destruct r, o; unfold eqb; cbn. rewrite andb_true_iff, !Z.eqb_eq.
  split; [intros [-> ->]; done | by inversion 1].
Qed.

Lemma neqb_negb r o : neqb r o = negb (eqb r o).
Proof. unfold neqb, eqb. by rewrite negb_andb. Qed.

Lemma lt_range_spec r o :
  ok r -> ok o -> lt_range r o = true <->
  _start r < _start o \/ (_start r = _start o /\ _size r < _size o).
Proof.
  intros. unfold lt_range. rewrite !getEnd_ok by done.
  repeat case_if; zbool; split; intros; lia || done.
Qed.

(** [overlaps] on two non-empty ranges is having an address in common. *)
Lemma overlaps_range_spec r o :
  ok r -> ok o -> 0 < _size r -> 0 < _size o ->
  overlaps_range r o = true <-> exists p, covers r p /\ covers o p.
Proof.
  intros Hr Ho ??. unfold overlaps_range, covers.
  rewrite !getEnd_ok by done. rewrite negb_true_iff, orb_false_iff, !Z.leb_gt.
  split.
  - intros. exists (Z.max (_start r) (_start o)). lia.
  - intros (p&?&?). lia.
Qed.

Lemma fromEndpoints_ok s e :
  0 <= s <= e -> e < 2 ^ 64 -> fromEndpoints s e = Ok (mkRange s (e - s)).
Proof.
  intros. unfold fromEndpoints. rewrite sub64_small by lia.
  replace (s <=? e) with true by (symmetry; apply Z.leb_le; lia). done.
Qed.

Lemma fromEndpoints_assert s e : e < s -> fromEndpoints s e = Err AssertFail.
Proof.
  intros. unfold fromEndpoints.
  by replace (s <=? e) with false by (symmetry; apply Z.leb_gt; lia).
Qed.

End Range.

#[export] Hint Rewrite Range.getEnd_ok using done : egalito.
