(* ===== verification/IntervalTree.v ===== *)
(** * The interval tree: src/util/intervaltree.h and src/util/intervaltree.cpp

    A node covers [totalRange]; ranges that contain its midpoint are kept in
    the node, sorted by start in [overlapStart] and by descending end in
    [overlapEnd]; the other ranges go into the [lower] or [higher] child.
    [Null] is the null child pointer. *)

From S2P Require Import Prelude.
From S2P Require Import Range.

Import Range.

Inductive IntervalTreeNode : Type :=
| Null
| Node (totalRange : Range) (midpoint : Z) (lower higher : IntervalTreeNode)
       (overlapStart overlapEnd : list Range).

#[export] Instance IntervalTreeNode_eq_dec : EqDecision IntervalTreeNode.
Proof. solve_decision. Defined.

(** The constructor [IntervalTreeNode(Range totalRange)]. *)
Definition newNode (totalRange : Range) : IntervalTreeNode :=
  Node totalRange (add64 (getStart totalRange) (getSize totalRange / 2))
    Null Null [] [].

Definition getTotalRange (t : IntervalTreeNode) : res Range :=
  match t with Null => Err NullDeref | Node tr _ _ _ _ _ => Ok tr end.

(** The comparator of the sort of [overlapEnd] (a lambda of [add]). *)
Definition end_order (a b : Range) : bool :=
  if getEnd b <? getEnd a then true
  else if getEnd b =? getEnd a then
    if getStart b <? getStart a then true else false
  else false.

(** [std::sort] with the comparator [lt]: the list is sorted already up to the
    element appended last, and the order is total, so that insertion computes
    the only sorted permutation (lemma [std_sort_unique]). *)
Fixpoint std_insert (lt : Range -> Range -> bool) (x : Range) (l : list Range)
  : list Range :=
  match l with
  | [] => [x]
  | y :: l' => if lt y x then y :: std_insert lt x l' else x :: y :: l'
  end.
Definition std_sort (lt : Range -> Range -> bool) (l : list Range) : list Range :=
  foldr (std_insert lt) [] l.

(** [IntervalTreeNode::add]: the fuel bounds the depth of the recursion, which
    descends into children it creates. *)
Fixpoint node_add (fuel : nat) (range : Range) (t : IntervalTreeNode)
  : res (bool * IntervalTreeNode) :=
  match fuel with
  | O => Err OutOfFuel
  | S fuel =>
    match t with
    | Null => Err NullDeref
    | Node tr mid lo hi os oe =>
      if negb (contains_range tr range) then Ok (false, t)
      else if lt_point range mid then
        lo1 ← match lo with
              | Null => r ← fromEndpoints (getStart tr) mid; Ok (newNode r)
              | _ => Ok lo
              end;
        '(b, lo2) ← node_add fuel range lo1;
        Ok (b, Node tr mid lo2 hi os oe)
      else if contains_point range mid then
        Ok (true, Node tr mid lo hi (std_sort lt_range (os ++ [range]))
                    (std_sort end_order (oe ++ [range])))
      else
        hi1 ← match hi with
              | Null => r ← fromEndpoints mid (getEnd tr); Ok (newNode r)
              | _ => Ok hi
              end;
        '(b, hi2) ← node_add fuel range hi1;
        Ok (b, Node tr mid lo hi2 os oe)
    end
  end.

(** [std::find] followed by [erase]: the list and whether an element went. *)
Fixpoint find_erase (x : Range) (l : list Range) : bool * list Range :=
  match l with
  | [] => (false, [])
  | y :: l' => if eqb y x then (true, l')
               else let '(b, l'') := find_erase x l' in (b, y :: l'')
  end.

(** [IntervalTreeNode::remove] *)
Fixpoint node_remove (range : Range) (t : IntervalTreeNode)
  : res (bool * IntervalTreeNode) :=
  match t with
  | Null => Err NullDeref
  | Node tr mid lo hi os oe =>
    if lt_point range mid then
      match lo with
      | Null => Ok (false, t)
      | _ => '(b, lo') ← node_remove range lo; Ok (b, Node tr mid lo' hi os oe)
      end
    else if point_lt mid range then
      match hi with
      | Null => Ok (false, t)
      | _ => '(b, hi') ← node_remove range hi; Ok (b, Node tr mid lo hi' os oe)
      end
    else
      let '(removed1, os') := find_erase range os in
      let '(removed2, oe') := find_erase range oe in
      cassert ((removed1 && removed2) || (negb removed1 && negb removed2));;
      Ok (removed1 && removed2, Node tr mid lo hi os' oe')
  end.

(** The two scans of [findOverlapping(address_t)], with their [break]s. *)
Fixpoint scan_start (point : Z) (l : list Range) : list Range :=
  match l with
  | [] => []
  | r :: l' => (if contains_point r point then [r] else []) ++
               (if point_lt point r then [] else scan_start point l')
  end.
Fixpoint scan_end (point : Z) (l : list Range) : list Range :=
  match l with
  | [] => []
  | r :: l' => (if contains_point r point then [r] else []) ++
               (if lt_point r point then [] else scan_end point l')
  end.

(** [IntervalTreeNode::findOverlapping(address_t)]: the ranges appended to
    [found], in order. *)
Fixpoint node_findOverlapping_point (point : Z) (t : IntervalTreeNode)
  : list Range :=
  match t with
  | Null => []
  | Node tr mid lo hi os oe =>
    (if point <? mid
     then node_findOverlapping_point point lo ++ scan_start point os else []) ++
    (if mid <=? point
     then scan_end point oe ++ node_findOverlapping_point point hi else [])
  end.

(** [IntervalTreeNode::findOverlapping(Range)] *)
Fixpoint node_findOverlapping_range (range : Range) (t : IntervalTreeNode)
  : list Range :=
  match t with
  | Null => []
  | Node tr mid lo hi os oe =>
    let searchHigher := if lt_point range mid then false else true in
    let searchLower :=
      if point_lt mid range || (mid =? getStart range) then false else true in
    (if searchLower then node_findOverlapping_range range lo else []) ++
    filter (fun r => overlaps_range r range = true) os ++
    (if searchHigher then node_findOverlapping_range range hi else [])
  end.

(** The linear searches of the bound functions: the first element that
    satisfies the test. *)
Fixpoint find_first (f : Range -> bool) (l : list Range) : option Range :=
  match l with
  | [] => None
  | r :: l' => if f r then Some r else find_first f l'
  end.

(** [a], and if it found nothing [b] (the cascade of early returns). *)
Definition or_else (a b : option Range) : option Range :=
  match a with Some r => Some r | None => b end.

(** [findLowerBound] and [findLowerBoundOrOverlapping] differ in the test. *)
Fixpoint node_lower_search (test : Range -> bool) (point : Z)
    (t : IntervalTreeNode) : option Range :=
  match t with
  | Null => None
  | Node tr mid lo hi os oe =>
    or_else (if mid <=? point then node_lower_search test point hi else None)
      (or_else (find_first test (reverse oe))
         (node_lower_search test point lo))
  end.
Definition node_findLowerBound (point : Z) (t : IntervalTreeNode) :=
  node_lower_search (fun r => lt_point r point) point t.
Definition node_findLowerBoundOrOverlapping (point : Z) (t : IntervalTreeNode) :=
  node_lower_search (fun r => lt_point r point || contains_point r point) point t.

(** [findUpperBound] and [findUpperBoundOrOverlapping] differ in the test. *)
Fixpoint node_upper_search (test : Range -> bool) (point : Z)
    (t : IntervalTreeNode) : option Range :=
  match t with
  | Null => None
  | Node tr mid lo hi os oe =>
    or_else (if point <? mid then node_upper_search test point lo else None)
      (or_else (find_first test os) (node_upper_search test point hi))
  end.
Definition node_findUpperBound (point : Z) (t : IntervalTreeNode) :=
  node_upper_search (fun r => point_lt point r) point t.
Definition node_findUpperBoundOrOverlapping (point : Z) (t : IntervalTreeNode) :=
  node_upper_search (fun r => point_lt point r || contains_point r point) point t.

(** [inStartOrderTraversal]: the ranges in the order the callback gets them. *)
Fixpoint inStartOrder (t : IntervalTreeNode) : list Range :=
  match t with
  | Null => []
  | Node _ _ lo hi os _ => inStartOrder lo ++ os ++ inStartOrder hi
  end.

(** ** class IntervalTree: the root pointer *)

Module IntervalTree.

(** Depth bound of [add]: the size of a node's range is at least halved,
    rounded up, at each level, and sizes are below 2^64 (lemma
    [node_add_total]). *)
Definition depth : nat := 66.

Definition new (totalRange : Range) : IntervalTreeNode := newNode totalRange.
Definition add (range : Range) (tree : IntervalTreeNode) :=
  node_add depth range tree.
Definition remove (range : Range) (tree : IntervalTreeNode) :=
  node_remove range tree.
Definition findOverlapping_point (point : Z) (tree : IntervalTreeNode) :=
  node_findOverlapping_point point tree.
Definition findOverlapping_range (range : Range) (tree : IntervalTreeNode) :=
  node_findOverlapping_range range tree.
Definition findLowerBound (point : Z) (tree : IntervalTreeNode) :=
  node_findLowerBound point tree.
Definition findLowerBoundOrOverlapping (point : Z) (tree : IntervalTreeNode) :=
  node_findLowerBoundOrOverlapping point tree.
Definition findUpperBound (point : Z) (tree : IntervalTreeNode) :=
  node_findUpperBound point tree.
Definition findUpperBoundOrOverlapping (point : Z) (tree : IntervalTreeNode) :=
  node_findUpperBoundOrOverlapping point tree.
Definition getAllData (tree : IntervalTreeNode) : list Range := inStartOrder tree.

(** [add(Range::fromEndpoints(a, b))], the result dropped *)
Definition add_endpoints (a b : Z) (tree : IntervalTreeNode)
  : res IntervalTreeNode :=
  r ← fromEndpoints a b; '(_, t) ← add r tree; Ok t.

Definition splitAt (point : Z) (tree : IntervalTreeNode)
  : res (bool * IntervalTreeNode) :=
  tr ← getTotalRange tree;
  if negb (contains_point tr point) then Ok (false, tree)
  else
    match findOverlapping_point point tree with
    | [r] =>
      if negb (point =? getStart r) && negb (point =? getEnd r) then
        '(_, t1) ← remove r tree;
        t2 ← add_endpoints (getStart r) point t1;
        t3 ← add_endpoints point (getEnd r) t2;
        Ok (true, t3)
      else Ok (true, tree)
    | _ => Ok (false, tree)
    end.

(** The common loop of [subtract] and [subtractWithAddendum]: what is kept of
    [r] lies below [cutStart] and above [cutEnd]. *)
Definition subtract_step (cutStart cutEnd : Z) (tree : IntervalTreeNode)
    (r : Range) : res IntervalTreeNode :=
  '(_, t1) ← remove r tree;
  t2 ← (if getStart r <? cutStart
        then add_endpoints (getStart r) cutStart t1 else Ok t1);
  (if cutEnd <? getEnd r then add_endpoints cutEnd (getEnd r) t2 else Ok t2).
Fixpoint subtract_loop (cutStart cutEnd : Z) (l : list Range)
    (tree : IntervalTreeNode) : res IntervalTreeNode :=
  match l with
  | [] => Ok tree
  | r :: l' =>
    t ← subtract_step cutStart cutEnd tree r;
    subtract_loop cutStart cutEnd l' t
  end.
Definition subtract (range : Range) (tree : IntervalTreeNode)
  : res IntervalTreeNode :=
  subtract_loop (getStart range) (getEnd range)
    (findOverlapping_range range tree) tree.
Definition subtractWithAddendum (range addendum : Range)
    (tree : IntervalTreeNode) : res IntervalTreeNode :=
  subtract_loop (getStart range) (getEnd addendum)
    (findOverlapping_range range tree) tree.

(** The callback of [complement], folded over the traversal: the new tree and
    [lastPoint]. *)
Fixpoint complement_loop (l : list Range) (lastPoint : Z)
    (newTree : IntervalTreeNode) : res (Z * IntervalTreeNode) :=
  match l with
  | [] => Ok (lastPoint, newTree)
  | r :: l' =>
    let end_ := getStart r in
    t ← (if lastPoint <? end_ then add_endpoints lastPoint end_ newTree
         else Ok newTree);
    complement_loop l' (Z.max lastPoint (getEnd r)) t
  end.
Definition complement (tree : IntervalTreeNode) : res IntervalTreeNode :=
  bounds ← getTotalRange tree;
  '(lastPoint, t) ← complement_loop (inStartOrder tree) (getStart bounds)
                      (new bounds);
  if lastPoint <? getEnd bounds
  then add_endpoints lastPoint (getEnd bounds) t else Ok t.

Fixpoint union_loop (l : list Range) (tree : IntervalTreeNode)
  : res IntervalTreeNode :=
  match l with
  | [] => Ok tree
  | r :: l' => '(_, t) ← add r tree; union_loop l' t
  end.
Definition unionWith (otherTree tree : IntervalTreeNode)
  : res IntervalTreeNode := union_loop (inStartOrder otherTree) tree.

End IntervalTree.


(** ** Sorting *)

Definition start_le (a b : Range) : Prop :=
  _start a < _start b \/ (_start a = _start b /\ _size a <= _size b).
Definition end_le (a b : Range) : Prop :=
  _start b + _size b < _start a + _size a \/
  (_start b + _size b = _start a + _size a /\ _start b <= _start a).

#[export] Instance start_le_trans : Transitive start_le.
Proof. intros ???; unfold start_le; lia. Qed.
#[export] Instance end_le_trans : Transitive end_le.
Proof. intros ???; unfold end_le; lia. Qed.

Section sorting.
Context (lt : Range -> Range -> bool) (le : Range -> Range -> Prop) `{!Transitive le}.
Context (lt_le : forall a b, ok a -> ok b -> lt a b = true -> le a b).
Context (nlt_le : forall a b, ok a -> ok b -> lt a b = false -> le b a).

Lemma std_insert_perm x l : std_insert lt x l ≡ₚ x :: l.
Proof using. induction l; cbn; [done|]. case_if; [|done]. rewrite IHl. constructor. Qed.

Lemma std_sort_perm l : std_sort lt l ≡ₚ l.
Proof using. induction l; cbn; [done|]. rewrite std_insert_perm. by f_equiv. Qed.

Lemma std_insert_sorted x l :
  ok x -> Forall ok l -> StronglySorted le l -> StronglySorted le (std_insert lt x l).
Proof using All.
  intros Hx Hl. induction l as [|y l IH]; cbn; intros Hs; [by repeat constructor|].
  inversion Hl; subst. inversion Hs as [|?? Hs' Hy]; subst. case_if.
  - constructor; [by apply IH|]. rewrite std_insert_perm. constructor; auto.
  - constructor; [done|]. assert (le x y) by auto. constructor; [done|].
    eapply Forall_impl; [exact Hy|]. intros; by etransitivity.
Qed.

Lemma std_sort_sorted l : Forall ok l -> StronglySorted le (std_sort lt l).
Proof using All.
  induction 1; cbn; [constructor|]. apply std_insert_sorted; auto.
  change (foldr _ _ l) with (std_sort lt l). by rewrite std_sort_perm.
Qed.
End sorting.

Lemma start_sort_sorted l : Forall ok l -> StronglySorted start_le (std_sort lt_range l).
Proof.
  intros. apply std_sort_sorted; [apply _| | |done]; intros a b Ha Hb Hlt.
  - apply lt_range_spec in Hlt; auto. unfold start_le. lia.
  - unfold lt_range in Hlt. rewrite !getEnd_ok in Hlt by done. unfold start_le.
    repeat case_match; zbool; try done; lia.
Qed.

(** The sort has one result only: any permutation of the input that is sorted
    for the comparator is the list that [std_sort] computes. *)
Lemma std_sort_unique l l' :
  Forall ok l -> l' ≡ₚ l -> StronglySorted start_le l' -> l' = std_sort lt_range l.
Proof.
  intros Hl Hp Hs. eapply (StronglySorted_unique_strong start_le);
    [|done|by apply start_sort_sorted|by rewrite Hp, std_sort_perm].
  intros [] [] _ _; unfold start_le; cbn. intros. f_equal; lia.
Qed.

Lemma end_sort_sorted l : Forall ok l -> StronglySorted end_le (std_sort end_order l).
Proof.
  intros. apply std_sort_sorted; [apply _| | |done]; intros a b Ha Hb;
    unfold end_order; rewrite !getEnd_ok by done; unfold end_le, getStart;
    repeat case_if; zbool; try done; lia.
Qed.

(** ** The invariant *)

(** A non-empty range inside [R]. *)
Definition inside (R r : Range) : Prop :=
  ok r /\ 0 < _size r /\ _start R <= _start r /\
  _start r + _size r <= _start R + _size R.

Definition below (mid : Z) (r : Range) : Prop := _start r + _size r <= mid.
Definition across (mid : Z) (r : Range) : Prop :=
  _start r <= mid < _start r + _size r.
Definition above (mid : Z) (r : Range) : Prop := mid < _start r.

Definition half (R : Range) : Z := _size R / 2.
Definition lowerRange (R : Range) : Range := mkRange (_start R) (half R).
Definition higherRange (R : Range) : Range :=
  mkRange (_start R + half R) (_size R - half R).

#[global] Arguments half : simpl never.

Fixpoint wf (R : Range) (t : IntervalTreeNode) : Prop :=
  match t with
  | Null => True
  | Node tr mid lo hi os oe =>
    tr = R /\ ok R /\ mid = _start R + half R /\
    wf (lowerRange R) lo /\ wf (higherRange R) hi /\
    Forall (below mid) (inStartOrder lo) /\
    Forall (above mid) (inStartOrder hi) /\
    Forall (across mid) os /\ Forall (inside R) os /\
    oe ≡ₚ os /\ StronglySorted start_le os /\ StronglySorted end_le oe
  end.

Lemma half_bounds R : ok R -> 0 <= half R <= _size R /\ 2 * half R <= _size R <= 2 * half R + 1.
Proof. intros (?&?&?). unfold half. zdiv. Qed.

Lemma lowerRange_ok R : ok R -> ok (lowerRange R).
Proof. intros HR. pose proof (half_bounds R HR). unfold ok in *; cbn; lia. Qed.
Lemma higherRange_ok R : ok R -> ok (higherRange R).
Proof. intros HR. pose proof (half_bounds R HR). unfold ok in *; cbn; lia. Qed.

Lemma inside_contains R r :
  ok R -> ok r -> 0 < _size r -> contains_range R r = true <-> inside R r.
Proof. intros. rewrite contains_range_spec by done. unfold inside. tauto. Qed.

Lemma newNode_eq R : ok R -> newNode R = Node R (_start R + half R) Null Null [] [].
Proof.
  intros HR. unfold newNode, getStart, getSize. f_equal.
  apply add64_small. pose proof (half_bounds R HR). unfold ok in HR. fold (half R). lia.
Qed.

Lemma wf_newNode R : ok R -> wf R (newNode R).
Proof.
  intros HR. rewrite newNode_eq by done. cbn.
  split_and!; try apply HR; done || constructor.
Qed.

Lemma wf_inside R t : wf R t -> Forall (inside R) (inStartOrder t).
Proof.
  revert R. induction t as [|tr mid lo IHlo hi IHhi os oe]; intros R; cbn; [done|].
  intros (->&HR&->&Hlo&Hhi&_&_&_&Hos&_). pose proof (half_bounds R HR).
  rewrite !Forall_app. split_and!; [|done|].
  - eapply Forall_impl; [exact (IHlo _ Hlo)|]. intros r (?&?&?&?); cbn in *; unfold inside; split_and!; done || lia.
  - eapply Forall_impl; [exact (IHhi _ Hhi)|]. intros r (?&?&?&?); cbn in *; unfold inside; split_and!; done || lia.
Qed.

Lemma wf_ok R t : wf R t -> Forall ok (inStartOrder t).
Proof. intros H%wf_inside. eapply Forall_impl; [exact H|]. by intros r [? _]. Qed.

(** ** Disjoint contents *)

Definition disj (a b : Range) : Prop :=
  _start a + _size a <= _start b \/ _start b + _size b <= _start a.
Definition before (a b : Range) : Prop := _start a + _size a <= _start b.

Fixpoint pairwise_disjoint (l : list Range) : Prop :=
  match l with
  | [] => True
  | r :: l' => Forall (disj r) l' /\ pairwise_disjoint l'
  end.

#[export] Instance pairwise_disjoint_proper :
  Proper ((≡ₚ) ==> iff) pairwise_disjoint.
Proof.
  intros l l' Hp. induction Hp as [|x l l' Hp IH|x y l|]; cbn; [done| | |tauto].
  - by rewrite IH, Hp.
  - rewrite !Forall_cons. unfold disj. intuition lia.
Qed.

Lemma pairwise_disjoint_app l1 l2 :
  pairwise_disjoint (l1 ++ l2) <->
  pairwise_disjoint l1 /\ pairwise_disjoint l2 /\
  Forall (fun a => Forall (disj a) l2) l1.
Proof.
  induction l1 as [|x l1 IH]; cbn; [rewrite Forall_nil; tauto|].
  rewrite Forall_app, Forall_cons, IH. tauto.
Qed.

Lemma disjoint_across_single mid l :
  Forall (across mid) l -> pairwise_disjoint l -> (length l <= 1)%nat.
Proof.
  destruct l as [|a [|b l]]; cbn; [lia|lia|].
  rewrite !Forall_cons. unfold across, disj. intros; exfalso; intuition lia.
Qed.

(** With disjoint contents the traversal goes up: each range ends before the
    next one starts. *)
Lemma wf_disjoint_sorted R t :
  wf R t -> pairwise_disjoint (inStartOrder t) ->
  StronglySorted before (inStartOrder t).
Proof.
  revert R. induction t as [|tr mid lo IHlo hi IHhi os oe]; intros R; cbn; [constructor|].
  intros (->&HR&->&Hlo&Hhi&Hb&Ha&Hc&Hos&_&_).
  rewrite !pairwise_disjoint_app. intros (Dlo&(Dos&Dhi&Doh)&Dl).
  pose proof (wf_inside _ _ Hlo) as Ilo. pose proof (wf_inside _ _ Hhi) as Ihi.
  pose proof (disjoint_across_single _ _ Hc Dos) as Hlen.
  rewrite Forall_forall in Hb, Ha, Hc, Hos, Doh, Dl, Ilo, Ihi.
  rewrite !StronglySorted_app. split_and!.
  - intros x y Hx Hy. specialize (Dl x Hx). rewrite Forall_forall in Dl.
    specialize (Dl y Hy). specialize (Hb x Hx). specialize (Ilo x Hx).
    apply elem_of_app in Hy as [Hy|Hy];
      [specialize (Hc y Hy)|specialize (Ha y Hy)];
      unfold disj, before, below, across, above, inside in *; lia.
  - eauto.
  - intros x y Hx Hy. specialize (Doh x Hx). rewrite Forall_forall in Doh.
    specialize (Doh y Hy). specialize (Hc x Hx). specialize (Ha y Hy).
    specialize (Ihi y Hy).
    unfold disj, before, across, above, inside in *. lia.
  - destruct os as [|a [|b l]]; cbn in Hlen; [constructor|repeat constructor|lia].
  - eauto.
Qed.

(** ** add *)

Lemma lt_point_below r mid : ok r -> lt_point r mid = true <-> below mid r.
Proof. apply lt_point_spec. Qed.
Lemma contains_across r mid : ok r -> contains_point r mid = true <-> across mid r.
Proof. apply contains_point_spec. Qed.

(** One of the three tests of [add] holds, by position. *)
Lemma position_cases r mid :
  ok r -> 0 < _size r ->
  (below mid r /\ lt_point r mid = true) \/
  (across mid r /\ lt_point r mid = false /\ contains_point r mid = true) \/
  (above mid r /\ lt_point r mid = false /\ contains_point r mid = false).
Proof.
  intros Hr Hs. pose proof (lt_point_below r mid Hr) as H1.
  pose proof (contains_across r mid Hr) as H2.
  destruct (lt_point r mid), (contains_point r mid);
    unfold below, across, above in *; intuition (lia || congruence).
Qed.

(** Storing a range in the node whose midpoint it contains. *)
Lemma wf_store R mid lo hi os oe r :
  wf R (Node R mid lo hi os oe) -> inside R r -> across mid r ->
  wf R (Node R mid lo hi (std_sort lt_range (os ++ [r]))
          (std_sort end_order (oe ++ [r]))).
Proof.
  intros (_&HR&->&Hlo&Hhi&Hb&Ha&Hc&Hos&Hp&Hs&He) Hr Hm.
  assert (Forall (inside R) (os ++ [r])) as Hi by (apply Forall_app; auto).
  assert (Forall ok (os ++ [r])) as Hok
    by (eapply Forall_impl; [exact Hi|]; by intros ? [? _]).
  cbn. split_and!; try done; try apply HR.
  - rewrite std_sort_perm. apply Forall_app; auto.
  - by rewrite std_sort_perm.
  - by rewrite !std_sort_perm, Hp.
  - by apply start_sort_sorted.
  - apply end_sort_sorted. by rewrite Hp.
Qed.

(** A child, created when it is missing. *)
Definition child_or_new (R : Range) (t : IntervalTreeNode) : IntervalTreeNode :=
  match t with Null => newNode R | _ => t end.

Lemma child_or_new_spec R t :
  ok R -> wf R t ->
  wf R (child_or_new R t) /\ child_or_new R t <> Null /\
  inStartOrder (child_or_new R t) = inStartOrder t.
Proof.
  destruct t; [|done]. intros. split; [by apply wf_newNode|done].
Qed.

Lemma lower_new R lo :
  ok R ->
  match lo with
  | Null => r ← fromEndpoints (getStart R) (_start R + half R); Ok (newNode r)
  | _ => Ok lo
  end = Ok (child_or_new (lowerRange R) lo).
Proof.
  intros HR. destruct lo; [|done]. pose proof (half_bounds R HR).
  unfold ok in HR. unfold getStart. rewrite fromEndpoints_ok by lia.
  cbn. do 2 f_equal. unfold lowerRange. f_equal. lia.
Qed.

Lemma higher_new R hi :
  ok R ->
  match hi with
  | Null => r ← fromEndpoints (_start R + half R) (getEnd R); Ok (newNode r)
  | _ => Ok hi
  end = Ok (child_or_new (higherRange R) hi).
Proof.
  intros HR. destruct hi; [|done]. pose proof (half_bounds R HR).
  rewrite getEnd_ok by done. unfold ok in HR. rewrite fromEndpoints_ok by lia.
  cbn. do 2 f_equal. unfold higherRange. f_equal. lia.
Qed.

(** [add] on a non-empty range inside the node returns [true], keeps the
    invariant and adds the range; a fuel of [1 + log2 size] is enough. *)
Lemma node_add_total n R t r :
  t <> Null -> wf R t -> inside R r -> _size R <= 2 ^ Z.of_nat n ->
  exists t', node_add (S n) r t = Ok (true, t') /\ wf R t' /\ t' <> Null /\
             inStartOrder t' ≡ₚ r :: inStartOrder t.
Proof.
  revert R t. induction n as [n IH] using lt_wf_ind. intros R t Ht Hwf Hr Hn.
  destruct t as [|tr mid lo hi os oe]; [done|].
  pose proof Hwf as (->&HR&->&Hlo&Hhi&Hb&Ha&Hc&Hos&Hp&Hs&He).
  pose proof (half_bounds R HR) as Hh. pose proof Hr as (Hok&Hsz&Hr1&Hr2).
  assert (contains_range R r = true) as Hcr by (by apply inside_contains).
  cbn [node_add]. rewrite Hcr. cbn [negb].
  destruct (position_cases r (_start R + half R) Hok Hsz)
    as [[Hpos ->]|[(Hpos&->&->)|(Hpos&->&->)]].
  - unfold below in Hpos. destruct n as [|n]; [change (2 ^ Z.of_nat 0) with 1 in Hn; lia|].
    rewrite Nat2Z.inj_succ, Z.pow_succ_r in Hn by lia. rewrite lower_new by done. cbn [mbind res_bind].
    destruct (child_or_new_spec _ _ (lowerRange_ok R HR) Hlo) as (W&N&E).
    destruct (IH n ltac:(lia) (lowerRange R) _ N W) as (t'&Hadd&W'&N'&P);
      [unfold inside; cbn; split_and!; done || lia|cbn; lia|].
    rewrite Hadd. cbn. eexists; split_and!; [done| |done|].
    + cbn. split_and!; try done; try apply HR. rewrite P, E. by constructor.
    + cbn. by rewrite P, E.
  - eexists; split_and!; [done|by apply wf_store|done|]. cbn.
    rewrite std_sort_perm. solve_Permutation.
  - unfold above in Hpos. destruct n as [|n]; [change (2 ^ Z.of_nat 0) with 1 in Hn; lia|].
    rewrite Nat2Z.inj_succ, Z.pow_succ_r in Hn by lia. rewrite higher_new by done. cbn [mbind res_bind].
    destruct (child_or_new_spec _ _ (higherRange_ok R HR) Hhi) as (W&N&E).
    destruct (IH n ltac:(lia) (higherRange R) _ N W) as (t'&Hadd&W'&N'&P);
      [unfold inside; cbn; split_and!; done || lia|cbn; lia|].
    rewrite Hadd. cbn. eexists; split_and!; [done| |done|].
    + cbn. split_and!; try done; try apply HR. rewrite P, E. by constructor.
    + cbn. rewrite P, E. solve_Permutation.
Qed.

(** ** remove *)

Lemma find_erase_spec x l :
  if decide (x ∈ l)
  then exists l1 l2, l = l1 ++ x :: l2 /\ find_erase x l = (true, l1 ++ l2)
  else find_erase x l = (false, l).
Proof.
  induction l as [|y l IH]; cbn; [by rewrite decide_False by apply not_elem_of_nil|].
  destruct (eqb y x) eqn:E.
  - apply eqb_spec in E as ->. rewrite decide_True by left. by exists [], l.
  - assert (y <> x) by (intros ->; by rewrite (proj2 (eqb_spec x x) eq_refl) in E).
    repeat case_decide.
    + destruct IH as (l1&l2&->&->). by exists (y :: l1), l2.
    + exfalso. set_solver.
    + exfalso. set_solver.
    + by rewrite IH.
Qed.

Lemma StronglySorted_delete {A} (Rel : A -> A -> Prop) l1 x l2 :
  StronglySorted Rel (l1 ++ x :: l2) -> StronglySorted Rel (l1 ++ l2).
Proof.
  rewrite !StronglySorted_app. intros (H1&H2&H3). inversion H3; subst.
  split_and!; [|done|done]. intros. apply H1; [done|by right].
Qed.

(** Taking out of a node a range stored there. *)
Lemma wf_unstore R mid lo hi os1 os2 oe1 oe2 r :
  wf R (Node R mid lo hi (os1 ++ r :: os2) (oe1 ++ r :: oe2)) ->
  wf R (Node R mid lo hi (os1 ++ os2) (oe1 ++ oe2)).
Proof.
  intros (_&HR&->&Hlo&Hhi&Hb&Ha&Hc&Hos&Hp&Hs&He). cbn.
  rewrite <- !Permutation_middle in *.
  apply Permutation_cons_inv in Hp.
  rewrite !Forall_cons in *. split_and!; try tauto; try apply HR.
  all: by eapply StronglySorted_delete.
Qed.

(** Where a stored range is, by its position relative to the midpoint. *)
Lemma wf_locate R tr mid lo hi os oe r :
  wf R (Node tr mid lo hi os oe) -> 0 < _size r ->
  (below mid r -> r ∈ inStartOrder lo ++ os ++ inStartOrder hi <-> r ∈ inStartOrder lo) /\
  (across mid r -> r ∈ inStartOrder lo ++ os ++ inStartOrder hi <-> r ∈ os) /\
  (above mid r -> r ∈ inStartOrder lo ++ os ++ inStartOrder hi <-> r ∈ inStartOrder hi).
Proof.
  intros (_&_&_&_&_&Hb&Ha&Hc&_) Hsz. rewrite !elem_of_app, !Forall_forall in *.
  specialize (Hb r). specialize (Ha r). specialize (Hc r).
  unfold below, across, above in *. split_and!; intros; intuition lia.
Qed.

(** [remove] finds the range exactly when it is stored; it never fails its
    assertion that the two lists of a node agree. *)
Lemma node_remove_total R t r :
  t <> Null -> wf R t -> ok r -> 0 < _size r ->
  if decide (r ∈ inStartOrder t)
  then exists t', node_remove r t = Ok (true, t') /\ wf R t' /\ t' <> Null /\
                  inStartOrder t ≡ₚ r :: inStartOrder t'
  else node_remove r t = Ok (false, t).
Proof.
  revert R. induction t as [|tr mid lo IHlo hi IHhi os oe]; intros R; [done|].
  intros _ Hwf Hok Hsz. destruct (wf_locate _ _ _ _ _ _ _ r Hwf Hsz) as (Llo&Lc&Lhi).
  pose proof Hwf as (->&HR&->&Hlo&Hhi&Hb&Ha&Hc&Hos&Hp&Hs&He).
  cbn [node_remove inStartOrder]. unfold point_lt, getStart.
  destruct (position_cases r (_start R + half R) Hok Hsz)
    as [[Hpos ->]|[(Hpos&->&_)|(Hpos&->&_)]].
  - rewrite (decide_ext _ _ _ _ (Llo Hpos)).
    destruct (decide (lo = Null)) as [->|Hnl]; [rewrite decide_False by set_solver; done|].
    specialize (IHlo _ Hnl Hlo Hok Hsz).
    destruct (decide (r ∈ inStartOrder lo)).
    + destruct IHlo as (t'&E&W&N&P). exists (Node R (_start R + half R) t' hi os oe).
      destruct lo; [done|]. rewrite E. split_and!; [done| |done|cbn; by rewrite P].
      cbn. split_and!; try done; try apply HR. rewrite P in Hb. by inversion Hb.
    + destruct lo; [done|]. by rewrite IHlo.
  - rewrite (decide_ext _ _ _ _ (Lc Hpos)).
    replace (_ <? _) with false by (symmetry; apply Z.ltb_ge; unfold across in Hpos; lia).
    pose proof (find_erase_spec r os) as H1. pose proof (find_erase_spec r oe) as H2.
    rewrite (decide_ext (r ∈ oe) (r ∈ os)) in H2 by (by rewrite Hp).
    destruct (decide (r ∈ os)); [|by rewrite H1, H2].
    destruct H1 as (l1&l2&->&->), H2 as (l3&l4&->&->).
    eexists; split_and!; [done|by eapply wf_unstore|done|cbn; solve_Permutation].
  - rewrite (decide_ext _ _ _ _ (Lhi Hpos)).
    replace (_ <? _) with true by (symmetry; apply Z.ltb_lt; unfold above in Hpos; lia).
    destruct (decide (hi = Null)) as [->|Hnl]; [rewrite decide_False by set_solver; done|].
    specialize (IHhi _ Hnl Hhi Hok Hsz).
    destruct (decide (r ∈ inStartOrder hi)).
    + destruct IHhi as (t'&E&W&N&P). exists (Node R (_start R + half R) lo t' os oe).
      destruct hi; [done|]. rewrite E.
      split_and!; [done| |done|cbn; rewrite P; solve_Permutation].
      cbn. split_and!; try done; try apply HR. rewrite P in Ha. by inversion Ha.
    + destruct hi; [done|]. by rewrite IHhi.
Qed.

(** ** Queries *)

Lemma filter_none {A} (P : A -> Prop) `{!forall x, Decision (P x)} l :
  Forall (fun x => ~ P x) l -> filter P l = [].
Proof. induction 1; [done|]. by rewrite filter_cons_False. Qed.

Abbreviation holds_point point := (fun r => contains_point r point = true).
Abbreviation holds_range range := (fun r => overlaps_range r range = true).

Lemma scan_start_spec point l :
  Forall ok l -> StronglySorted start_le l -> scan_start point l = filter (holds_point point) l.
Proof.
  intros Hok Hs. induction Hs as [|r l Hs IH Hr]; [done|].
  inversion Hok; subst. cbn [scan_start]. unfold point_lt, getStart.
  rewrite filter_cons. destruct (Z.ltb_spec point (_start r)).
  - rewrite app_nil_r, (filter_none _ l); [by repeat case_match|].
    rewrite Forall_forall in *. intros x Hx. specialize (Hr x Hx).
    rewrite contains_point_spec by auto. unfold start_le, covers in *. lia.
  - rewrite IH by done. by repeat case_match.
Qed.

Lemma scan_end_spec point l :
  Forall ok l -> StronglySorted end_le l -> scan_end point l = filter (holds_point point) l.
Proof.
  intros Hok Hs. induction Hs as [|r l Hs IH Hr]; [done|].
  inversion Hok; subst. cbn [scan_end].
  rewrite filter_cons. destruct (lt_point r point) eqn:E.
  - apply lt_point_spec in E; [|done].
    rewrite app_nil_r, (filter_none _ l); [by repeat case_match|].
    rewrite Forall_forall in *. intros x Hx. specialize (Hr x Hx).
    rewrite contains_point_spec by auto. unfold end_le, covers in *. lia.
  - rewrite IH by done. by repeat case_match.
Qed.

Lemma node_findOverlapping_point_spec R t point :
  wf R t -> node_findOverlapping_point point t ≡ₚ filter (holds_point point) (inStartOrder t).
Proof.
  revert R. induction t as [|tr mid lo IHlo hi IHhi os oe]; intros R; [done|].
  intros Hwf. pose proof (wf_ok _ _ Hwf) as Hok. cbn [inStartOrder] in Hok.
  rewrite !Forall_app in Hok. destruct Hok as (Klo&Kos&Khi).
  destruct Hwf as (->&HR&->&Hlo&Hhi&Hb&Ha&Hc&_&Hp&Hs&He).
  cbn [node_findOverlapping_point inStartOrder]. rewrite !filter_app.
  rewrite Forall_forall in *.
  destruct (Z.ltb_spec point (_start R + half R)), (Z.leb_spec (_start R + half R) point); try lia.
  - rewrite app_nil_r, (IHlo _ Hlo), (filter_none _ (inStartOrder hi)), app_nil_r.
    { rewrite scan_start_spec; [done|by apply Forall_forall|done]. }
    apply Forall_forall. intros x Hx. specialize (Ha x Hx).
    rewrite contains_point_spec by auto. unfold above, covers in *. lia.
  - rewrite (IHhi _ Hhi), (filter_none _ (inStartOrder lo)), scan_end_spec.
    + cbn. by rewrite Hp.
    + rewrite Hp. by apply Forall_forall.
    + done.
    + apply Forall_forall. intros x Hx. specialize (Hb x Hx).
      rewrite contains_point_spec by auto. unfold below, covers in *. lia.
Qed.

Lemma node_findOverlapping_range_spec R t range :
  wf R t -> ok range ->
  node_findOverlapping_range range t = filter (holds_range range) (inStartOrder t).
Proof.
  revert R. induction t as [|tr mid lo IHlo hi IHhi os oe]; intros R; [done|].
  intros Hwf Hr. pose proof (wf_ok _ _ Hwf) as Hok. cbn [inStartOrder] in Hok.
  rewrite !Forall_app in Hok. destruct Hok as (Klo&Kos&Khi).
  destruct Hwf as (->&HR&->&Hlo&Hhi&Hb&Ha&Hc&_&Hp&Hs&He).
  cbn [node_findOverlapping_range inStartOrder]. rewrite !filter_app.
  rewrite (IHlo _ Hlo Hr), (IHhi _ Hhi Hr). unfold point_lt, getStart.
  rewrite Forall_forall in *. f_equal; [|f_equal].
  - destruct (_ || _) eqn:E; [|done]. symmetry. apply filter_none, Forall_forall.
    intros x Hx. specialize (Hb x Hx). unfold overlaps_range, below in *.
    rewrite !getEnd_ok by auto. rewrite negb_true_iff, orb_false_iff, !Z.leb_gt.
    apply orb_true_iff in E as [E|E]; zbool; lia.
  - destruct (lt_point range _) eqn:E; [|done]. symmetry. apply filter_none, Forall_forall.
    apply lt_point_spec in E; [|done].
    intros x Hx. specialize (Ha x Hx). unfold overlaps_range, above in *.
    rewrite !getEnd_ok by auto. rewrite negb_true_iff, orb_false_iff, !Z.leb_gt. lia.
Qed.

Lemma find_first_app f l1 l2 :
  find_first f (l1 ++ l2) = or_else (find_first f l1) (find_first f l2).
Proof. induction l1 as [|r l1 IH]; cbn; [done|]. by destruct (f r). Qed.

Lemma find_first_none f l : Forall (fun r => f r = false) l -> find_first f l = None.
Proof. induction 1 as [|r l Hr _ IH]; cbn; [done|]. by rewrite Hr. Qed.

Lemma or_else_assoc a b c : or_else (or_else a b) c = or_else a (or_else b c).
Proof. by destruct a. Qed.

(** The upper-bound searches return the first range of the traversal that
    passes the test, whatever the tree stores. *)
Lemma node_upper_search_spec R t test point :
  wf R t -> (forall r, inside R r -> test r = true -> point < _start r + _size r) ->
  node_upper_search test point t = find_first test (inStartOrder t).
Proof.
  revert R. induction t as [|tr mid lo IHlo hi IHhi os oe]; intros R; [done|].
  intros Hwf Ht. pose proof (wf_inside _ _ Hwf) as Hin. cbn [inStartOrder] in Hin.
  rewrite !Forall_app in Hin. destruct Hin as (Klo&_).
  destruct Hwf as (->&HR&->&Hlo&Hhi&Hb&_).
  pose proof (half_bounds R HR). cbn [node_upper_search inStartOrder].
  rewrite !find_first_app, (IHhi _ Hhi).
  2:{ intros r (?&?&?&?). apply Ht. cbn in *. unfold inside. split_and!; done || lia. }
  f_equal. destruct (Z.ltb_spec point (_start R + half R)).
  - apply (IHlo _ Hlo). intros r (?&?&?&?). apply Ht. cbn in *.
    unfold inside. split_and!; done || lia.
  - symmetry. apply find_first_none. rewrite Forall_forall in *. intros x Hx.
    specialize (Hb x Hx). specialize (Ht x (Klo x Hx)). unfold below in Hb.
    destruct (test x); [|done]. specialize (Ht eq_refl). lia.
Qed.

(** With disjoint contents the lower-bound searches return the last one. *)
Lemma node_lower_search_spec R t test point :
  wf R t -> pairwise_disjoint (inStartOrder t) ->
  (forall r, inside R r -> test r = true -> _start r <= point) ->
  node_lower_search test point t = find_first test (reverse (inStartOrder t)).
Proof.
  revert R. induction t as [|tr mid lo IHlo hi IHhi os oe]; intros R; [done|].
  intros Hwf Hd Ht. pose proof (wf_inside _ _ Hwf) as Hin. cbn [inStartOrder] in *.
  rewrite !Forall_app in Hin. destruct Hin as (_&_&Khi).
  destruct Hwf as (->&HR&->&Hlo&Hhi&_&Ha&Hc&_&Hp&_).
  rewrite !pairwise_disjoint_app in Hd. destruct Hd as (Dlo&(Dos&Dhi&_)&_).
  pose proof (half_bounds R HR). cbn [node_lower_search].
  rewrite !reverse_app, !find_first_app, or_else_assoc, (IHlo _ Hlo Dlo).
  2:{ intros r (?&?&?&?). apply Ht. cbn in *. unfold inside. split_and!; done || lia. }
  assert (oe = os) as ->.
  { pose proof (disjoint_across_single _ _ Hc Dos).
    destruct os as [|a [|b os]]; cbn in *; [by apply Permutation_nil_r in Hp| |lia].
    by apply Permutation_singleton_r in Hp. }
  f_equal. destruct (Z.leb_spec (_start R + half R) point).
  - apply (IHhi _ Hhi Dhi). intros r (?&?&?&?). apply Ht. cbn in *.
    unfold inside. split_and!; done || lia.
  - symmetry. apply find_first_none. rewrite Forall_forall in *. intros x Hx.
    rewrite elem_of_reverse in Hx.
    specialize (Ha x Hx). specialize (Ht x (Khi x Hx)). unfold above in Ha.
    destruct (test x); [|done]. specialize (Ht eq_refl). lia.
Qed.

(** ** The operations of the class, on a well-formed root *)

Definition root (R : Range) (t : IntervalTreeNode) : Prop := t <> Null /\ wf R t.
Definition covered (l : list Range) (p : Z) : Prop := Exists (fun r => covers r p) l.

#[export] Instance covered_proper : Proper ((≡ₚ) ==> (=) ==> iff) covered.
Proof. intros l l' Hp p ? <-. unfold covered. by rewrite Hp. Qed.

Lemma covered_app l1 l2 p : covered (l1 ++ l2) p <-> covered l1 p \/ covered l2 p.
Proof. apply Exists_app. Qed.
Lemma covered_cons r l p : covered (r :: l) p <-> covers r p \/ covered l p.
Proof. apply Exists_cons. Qed.
Lemma covered_nil p : covered [] p <-> False.
Proof. apply Exists_nil. Qed.
#[export] Hint Rewrite covered_app covered_cons covered_nil : egalito.

Lemma root_ok R t : root R t -> ok R.
Proof. intros [Hn Hw]. destruct t; [done|]. apply Hw. Qed.

Lemma root_total R t : root R t -> getTotalRange t = Ok R.
Proof. intros [Hn Hw]. destruct t; [done|]. destruct Hw as [-> _]. done. Qed.

Lemma root_new R : ok R -> root R (newNode R).
Proof. intros HR. split; [done|by apply wf_newNode]. Qed.

Lemma tree_add_inside R t r :
  root R t -> inside R r ->
  exists t', IntervalTree.add r t = Ok (true, t') /\ root R t' /\
             inStartOrder t' ≡ₚ r :: inStartOrder t.
Proof.
  intros Hroot Hr. pose proof (root_ok _ _ Hroot) as HR. destruct Hroot as [Hn Hw].
  destruct (node_add_total 65 R t r Hn Hw Hr) as (t'&?&?&?&?).
  - unfold ok in HR. change (2 ^ Z.of_nat 65) with (2 * 2 ^ 64). lia.
  - unfold IntervalTree.add, IntervalTree.depth. by exists t'.
Qed.

Lemma node_add_outside n R t r :
  root R t -> contains_range R r = false -> node_add (S n) r t = Ok (false, t).
Proof.
  intros [Hn Hw] Hc. destruct t; [done|].
  destruct Hw as (->&_). cbn [node_add]. by rewrite Hc.
Qed.

Lemma tree_add_outside R t r :
  root R t -> contains_range R r = false -> IntervalTree.add r t = Ok (false, t).
Proof. unfold IntervalTree.add, IntervalTree.depth. apply node_add_outside. Qed.

(** From here on [add] is used through the two lemmas above. *)
#[local] Opaque IntervalTree.add.

Lemma add_endpoints_inside R t a b :
  root R t -> _start R <= a < b -> b <= _start R + _size R ->
  exists t', IntervalTree.add_endpoints a b t = Ok t' /\ root R t' /\
             inStartOrder t' ≡ₚ mkRange a (b - a) :: inStartOrder t.
Proof.
  intros Hroot Ha Hb. pose proof (root_ok _ _ Hroot) as HR. unfold ok in HR.
  destruct (tree_add_inside R t (mkRange a (b - a)) Hroot) as (t'&E&?&?);
    [unfold inside, ok; cbn; lia|]. exists t'. split; [|done].
  apply bind_Ok. exists (mkRange a (b - a)). split; [apply fromEndpoints_ok; lia|].
  apply bind_Ok. exists (true, t'). split; [exact E|reflexivity].
Qed.

Lemma tree_remove_stored R t r rest :
  root R t -> inside R r -> inStartOrder t ≡ₚ r :: rest ->
  exists t', IntervalTree.remove r t = Ok (true, t') /\ root R t' /\
             inStartOrder t' ≡ₚ rest.
Proof.
  intros [Hn Hw] (Hok&Hsz&_) Hp. pose proof (node_remove_total R t r Hn Hw Hok Hsz) as H.
  rewrite decide_True in H by (rewrite Hp; by left). destruct H as (t'&?&?&?&Hp').
  exists t'. split_and!; [done|done|]. rewrite Hp' in Hp. by apply Permutation_cons_inv in Hp.
Qed.

(** *** subtract *)

(** What [subtract] keeps of a range it cuts between [cs] and [ce]. *)
Definition pieces (cs ce : Z) (r : Range) : list Range :=
  (if _start r <? cs then [mkRange (_start r) (cs - _start r)] else []) ++
  (if ce <? _start r + _size r then [mkRange ce (_start r + _size r - ce)] else []).

Lemma subtract_step_spec R t r cs ce rest :
  root R t -> inside R r -> inStartOrder t ≡ₚ r :: rest ->
  cs <= _start r + _size r -> _start r <= ce ->
  exists t', IntervalTree.subtract_step cs ce t r = Ok t' /\ root R t' /\
             inStartOrder t' ≡ₚ pieces cs ce r ++ rest.
Proof.
  intros Hroot Hr Hp Hcs Hce. pose proof Hr as (Hok&Hsz&Hr1&Hr2).
  destruct (tree_remove_stored _ _ _ _ Hroot Hr Hp) as (t1&E1&Hroot1&P1).
  unfold IntervalTree.subtract_step, pieces. rewrite E1. cbn [mbind res_bind].
  rewrite getEnd_ok by done. unfold getStart.
  assert (exists t2, (if _start r <? cs
     then IntervalTree.add_endpoints (_start r) cs t1 else Ok t1) = Ok t2 /\ root R t2 /\
    inStartOrder t2 ≡ₚ (if _start r <? cs then [mkRange (_start r) (cs - _start r)] else []) ++ rest)
    as (t2&->&Hroot2&P2).
  { destruct (Z.ltb_spec (_start r) cs); [|by exists t1].
    destruct (add_endpoints_inside R t1 (_start r) cs) as (t2&?&?&P); [done|lia|lia|].
    exists t2. by rewrite P, P1. }
  cbn [mbind res_bind]. destruct (Z.ltb_spec ce (_start r + _size r)).
  - destruct (add_endpoints_inside R t2 ce (_start r + _size r)) as (t3&->&?&P); [done|lia|lia|].
    exists t3. split_and!; [done|done|]. rewrite P, P2. solve_Permutation.
  - exists t2. rewrite app_nil_r. done.
Qed.

Lemma subtract_loop_spec R cs ce l t rest :
  root R t -> Forall (inside R) l -> inStartOrder t ≡ₚ l ++ rest ->
  Forall (fun r => cs <= _start r + _size r /\ _start r <= ce) l ->
  exists t', IntervalTree.subtract_loop cs ce l t = Ok t' /\ root R t' /\
             inStartOrder t' ≡ₚ (l ≫= pieces cs ce) ++ rest.
Proof.
  revert t rest. induction l as [|r l IH]; intros t rest Hroot Hl Hp Hc; [by exists t|].
  inversion Hl; inversion Hc as [|?? [??]]; subst. cbn [IntervalTree.subtract_loop].
  destruct (subtract_step_spec R t r cs ce (l ++ rest)) as (t1&->&Hroot1&P1); try done.
  destruct (IH t1 (pieces cs ce r ++ rest)) as (t2&E&Hroot2&P2); [done|done| |done|].
  - rewrite P1. solve_Permutation.
  - exists t2. split_and!; [done|done|]. rewrite P2. cbn. solve_Permutation.
Qed.

Lemma pieces_covers cs ce r p :
  cs <= _start r + _size r -> _start r <= ce -> cs <= ce ->
  covered (pieces cs ce r) p <-> covers r p /\ ~ (cs <= p < ce).
Proof.
  intros. unfold pieces, covered, covers.
  destruct (Z.ltb_spec (_start r) cs), (Z.ltb_spec ce (_start r + _size r)); cbn;
    rewrite ?Exists_cons, ?Exists_nil; cbn; lia.
Qed.

(** What a subtraction that cuts up to [ce] leaves in the tree. *)
Lemma subtract_general R t range ce :
  root R t -> ok range -> getEnd range <= ce ->
  exists t', IntervalTree.subtract_loop (getStart range) ce
               (IntervalTree.findOverlapping_range range t) t = Ok t' /\ root R t' /\
    inStartOrder t' ≡ₚ
      (filter (holds_range range) (inStartOrder t) ≫= pieces (_start range) ce) ++
      filter (fun r => overlaps_range r range ≠ true) (inStartOrder t).
Proof.
  intros Hroot Hok Hce. pose proof (wf_inside _ _ (proj2 Hroot)) as Hin.
  unfold IntervalTree.findOverlapping_range.
  rewrite (node_findOverlapping_range_spec R) by (done || apply Hroot).
  apply subtract_loop_spec; [done| | |].
  - apply Forall_forall. intros r [_ Hr]%list_elem_of_filter. by eapply Forall_forall in Hin.
  - symmetry. apply filter_app_complement.
  - apply Forall_forall. intros r [Ho Hr]%list_elem_of_filter. rewrite Forall_forall in Hin.
    destruct (Hin r Hr) as (?&?&_). unfold overlaps_range in Ho.
    rewrite getEnd_ok in Hce by done. unfold getStart in *.
    rewrite !getEnd_ok in Ho by done. rewrite negb_true_iff, orb_false_iff, !Z.leb_gt in Ho. lia.
Qed.

(** *** complement *)

Lemma complement_loop_spec R l lp t :
  root R t -> _start R <= lp <= _start R + _size R ->
  Forall (inside R) l -> StronglySorted before l -> Forall (fun r => lp <= _start r) l ->
  exists lp' t', IntervalTree.complement_loop l lp t = Ok (lp', t') /\ root R t' /\
    lp <= lp' <= _start R + _size R /\ Forall (fun r => _start r + _size r <= lp') l /\
    (forall p, covered (inStartOrder t') p <->
       covered (inStartOrder t) p \/ (lp <= p < lp' /\ ~ covered l p)).
Proof.
  revert lp t. induction l as [|r l IH]; intros lp t Hroot Hlp Hin Hs Hge.
  { exists lp, t. split_and!; try done; try lia. intros p. intuition lia. }
  inversion Hin as [|?? Hr Hin']; inversion Hs as [|?? Hs' Hb]; inversion Hge; subst.
  pose proof Hr as (Hok&Hsz&Hr1&Hr2). unfold before in Hb.
  assert (exists t1, (if lp <? _start r then IntervalTree.add_endpoints lp (_start r) t
                      else Ok t) = Ok t1 /\ root R t1 /\
     forall p, covered (inStartOrder t1) p <-> covered (inStartOrder t) p \/ lp <= p < _start r)
    as (t1&E1&Hroot1&C1).
  { destruct (Z.ltb_spec lp (_start r)).
    - destruct (add_endpoints_inside R t lp (_start r)) as (t1&?&?&P); [done|lia|lia|].
      exists t1. split_and!; [done|done|]. intros p. rewrite P, covered_cons.
      unfold covers at 1; cbn. intuition lia.
    - exists t. split_and!; [done|done|]. intros; intuition lia. }
  destruct (IH (_start r + _size r) t1) as (lp'&t2&E2&Hroot2&Hlp2&Hle&C2); [done|lia|done|done|done|].
  exists lp', t2. split_and!; [|done|lia|lia| |].
  - apply bind_Ok. exists t1. split; [exact E1|].
    rewrite getEnd_ok, Z.max_r by (done || lia). exact E2.
  - constructor; [lia|done].
  - intros p. rewrite C2, C1, covered_cons. unfold covers at 1.
    assert (covered l p -> _start r + _size r <= p) as Hl.
    { intros (x&Hx&Hp)%Exists_exists. rewrite Forall_forall in Hb. specialize (Hb x Hx).
      unfold covers in Hp. lia. }
    destruct (decide (_start r + _size r <= p)); intuition lia.
Qed.

(** *** unionWith *)

Lemma union_loop_spec R l t :
  root R t -> Forall (fun r => ok r /\ 0 < _size r) l ->
  exists t', IntervalTree.union_loop l t = Ok t' /\ root R t' /\
    inStartOrder t' ≡ₚ filter (fun r => contains_range R r = true) l ++ inStartOrder t.
Proof.
  revert t. induction l as [|r l IH]; intros t Hroot Hl; [by exists t|].
  inversion Hl as [|?? [Hok Hsz] Hl']; subst. pose proof (root_ok _ _ Hroot) as HR.
  assert (exists b t1, IntervalTree.add r t = Ok (b, t1) /\ root R t1 /\
    inStartOrder t1 ≡ₚ (if contains_range R r then [r] else []) ++ inStartOrder t)
    as (b&t1&E1&Hroot1&P1).
  { destruct (contains_range R r) eqn:E.
    - destruct (tree_add_inside R t r Hroot) as (t1&?&?&?); [by apply inside_contains|]. eauto.
    - exists false, t. split_and!; [by eapply tree_add_outside|done|done]. }
  destruct (IH t1 Hroot1 Hl') as (t2&E2&Hroot2&P2).
  exists t2. split_and!; [|done|].
  - apply bind_Ok. exists (b, t1). split; [exact E1|exact E2].
  - rewrite P2, P1, filter_cons. destruct (contains_range R r); cbn; solve_Permutation.
Qed.

(** *** The empty range *)

(** [add] of an empty range that lies inside the tree recurses for ever: no
    fuel is enough, since every node sends it to a child that contains it. *)
Lemma node_add_empty_range fuel R t p :
  root R t -> _start R <= p <= _start R + _size R ->
  node_add fuel (mkRange p 0) t = Err OutOfFuel.
Proof.
  revert R t. induction fuel as [|fuel IH]; intros R t Hroot Hp; [done|].
  pose proof (root_ok _ _ Hroot) as HR. pose proof (half_bounds R HR) as Hh.
  destruct Hroot as [Hn Hw]. destruct t as [|tr mid lo hi os oe]; [done|].
  destruct Hw as (->&_&->&Hlo&Hhi&_).
  assert (ok (mkRange p 0)) as Hok by (unfold ok in *; cbn; lia).
  cbn [node_add]. rewrite (proj2 (contains_range_spec R (mkRange p 0) HR Hok)) by (cbn; lia).
  cbn [negb]. destruct (lt_point (mkRange p 0) (_start R + half R)) eqn:E.
  - apply lt_point_spec in E; [|done]. cbn in E. rewrite lower_new by done. cbn [mbind res_bind].
    destruct (child_or_new_spec _ _ (lowerRange_ok R HR) Hlo) as (W&N&_).
    by rewrite (IH (lowerRange R)) by (first [by split | cbn; lia]).
  - assert (~ lt_point (mkRange p 0) (_start R + half R) = true) as H by congruence.
    rewrite lt_point_spec in H by done. cbn in H.
    destruct (contains_point (mkRange p 0) (_start R + half R)) eqn:E2.
    { apply contains_point_spec in E2; [|done]. unfold covers in E2; cbn in E2. lia. }
    rewrite higher_new by done. cbn [mbind res_bind].
    destruct (child_or_new_spec _ _ (higherRange_ok R HR) Hhi) as (W&N&_).
    by rewrite (IH (higherRange R)) by (first [by split | cbn; lia]).
Qed.

(** ** Sample trees for the witnesses *)

Definition sample_bounds : Range := mkRange 0 64.
Definition sample_tree : IntervalTreeNode :=
  Eval vm_compute in
    match (t1 ← IntervalTree.add (mkRange 16 14) (newNode sample_bounds);
           t2 ← IntervalTree.add (mkRange 32 14) t1.2;
           t3 ← IntervalTree.add (mkRange 48 14) t2.2; Ok t3.2) with
    | Ok t => t | Err _ => Null end.
(** A tree with overlapping ranges: [8,12) lies inside [2,40). *)
Definition overlapping_tree : IntervalTreeNode :=
  Eval vm_compute in
    match (t1 ← IntervalTree.add (mkRange 2 38) (newNode sample_bounds);
           t2 ← IntervalTree.add (mkRange 8 4) t1.2; Ok t2.2) with
    | Ok t => t | Err _ => Null end.

Ltac prove_root :=
  split; [done|]; cbn; unfold ok, across, below, above, inside, before, start_le, end_le, half;
  cbn; repeat first [lia | split | constructor]; try (vm_compute; congruence).
Lemma sample_tree_root : root sample_bounds sample_tree.
Proof. prove_root. Qed.
Lemma overlapping_tree_root : root sample_bounds overlapping_tree.
Proof. prove_root. Qed.
Lemma sample_tree_disjoint : pairwise_disjoint (inStartOrder sample_tree).
Proof. cbn. unfold disj. repeat constructor; cbn; lia. Qed.

(** ** Properties *)

(** C3: [add] of a non-empty range returns whether the range lies inside the
    tree, keeps the invariant, and stores the range exactly in that case: the
    tree refines the bag of its ranges. *)
Theorem interval_tree_add_correct R t r :
  root R t -> ok r -> 0 < _size r ->
  exists t', IntervalTree.add r t = Ok (contains_range R r, t') /\ root R t' /\
    inStartOrder t' ≡ₚ (if contains_range R r then [r] else []) ++ inStartOrder t.
Proof.
  intros Hroot Hok Hsz. pose proof (root_ok _ _ Hroot).
  destruct (contains_range R r) eqn:E.
  - destruct (tree_add_inside R t r Hroot) as (t'&?&?&?); [by apply inside_contains|eauto].
  - exists t. split_and!; [by eapply tree_add_outside|done|done].
Qed.

Lemma interval_tree_add_correct_witness :
  exists t', IntervalTree.add (mkRange 30 2) sample_tree = Ok (true, t') /\
    root sample_bounds t' /\ inStartOrder t' ≡ₚ [mkRange 30 2] ++ inStartOrder sample_tree.
Proof.
  exact (interval_tree_add_correct sample_bounds sample_tree (mkRange 30 2)
    sample_tree_root ltac:(vm_compute; intuition congruence) ltac:(reflexivity)).
Defined.

(** [remove] returns whether the range is stored, takes out exactly one
    occurrence of it, keeps the invariant, and never fails its assertion that
    the two sorted lists of a node hold the same ranges. *)
Theorem interval_tree_remove_correct R t r :
  root R t -> ok r -> 0 < _size r ->
  exists t', IntervalTree.remove r t = Ok (bool_decide (r ∈ inStartOrder t), t') /\ root R t' /\
    inStartOrder t ≡ₚ (if decide (r ∈ inStartOrder t) then [r] else []) ++ inStartOrder t'.
Proof.
  intros [Hn Hw] Hok Hsz. pose proof (node_remove_total R t r Hn Hw Hok Hsz) as H.
  destruct (decide (r ∈ inStartOrder t)).
  - destruct H as (t'&E&?&?&?). exists t'. rewrite bool_decide_true by done. done.
  - exists t. rewrite bool_decide_false by done. done.
Qed.

Lemma interval_tree_remove_correct_witness :
  exists t', IntervalTree.remove (mkRange 32 14) sample_tree =
      Ok (bool_decide (mkRange 32 14 ∈ inStartOrder sample_tree), t') /\
    root sample_bounds t' /\
    inStartOrder sample_tree ≡ₚ
      (if decide (mkRange 32 14 ∈ inStartOrder sample_tree) then [mkRange 32 14] else [])
      ++ inStartOrder t'.
Proof.
  exact (interval_tree_remove_correct sample_bounds sample_tree (mkRange 32 14)
    sample_tree_root ltac:(vm_compute; intuition congruence) ltac:(reflexivity)).
Defined.

(** the two overlap queries return exactly the stored ranges that contain
    the point, and those that overlap the range (in traversal order). *)
Theorem interval_tree_find_overlapping R t point range :
  root R t -> ok range ->
  IntervalTree.findOverlapping_point point t ≡ₚ
    filter (fun r => contains_point r point = true) (inStartOrder t) /\
  IntervalTree.findOverlapping_range range t =
    filter (fun r => overlaps_range r range = true) (inStartOrder t).
Proof.
  intros [_ Hw] Hok. split.
  - by apply (node_findOverlapping_point_spec R).
  - by apply (node_findOverlapping_range_spec R).
Qed.

Lemma interval_tree_find_overlapping_witness :
  IntervalTree.findOverlapping_point 9 overlapping_tree ≡ₚ
    filter (fun r => contains_point r 9 = true) (inStartOrder overlapping_tree) /\
  IntervalTree.findOverlapping_range (mkRange 11 20) overlapping_tree =
    filter (fun r => overlaps_range r (mkRange 11 20) = true) (inStartOrder overlapping_tree).
Proof.
  exact (interval_tree_find_overlapping sample_bounds overlapping_tree 9 (mkRange 11 20)
    overlapping_tree_root ltac:(vm_compute; intuition congruence)).
Defined.

Lemma covered_bind_pieces cs ce l p :
  cs <= ce -> Forall (fun r => cs <= _start r + _size r /\ _start r <= ce) l ->
  covered (l ≫= pieces cs ce) p <-> covered l p /\ ~ (cs <= p < ce).
Proof.
  intros Hc. induction 1 as [|r l [??] _ IH]; cbn; [rewrite covered_nil; tauto|].
  rewrite covered_app, covered_cons, IH, pieces_covers by done. tauto.
Qed.

(** [subtract] always returns, keeps the invariant, and leaves covered
    exactly the addresses that were covered and are outside the range. *)
Theorem interval_tree_subtract_correct R t range :
  root R t -> ok range ->
  exists t', IntervalTree.subtract range t = Ok t' /\ root R t' /\
    forall p, covered (inStartOrder t') p <-> covered (inStartOrder t) p /\ ~ covers range p.
Proof.
  intros Hroot Hok. pose proof (wf_inside _ _ (proj2 Hroot)) as Hin.
  destruct (subtract_general R t range (getEnd range)) as (t'&E&Hroot'&P); [done|done|lia|].
  exists t'. split_and!; [done|done|]. intros p. rewrite P.
  rewrite getEnd_ok in * by done. unfold ok in Hok. rewrite Forall_forall in Hin.
  rewrite covered_app, covered_bind_pieces by
    (lia || apply Forall_forall; intros r [Ho Hr]%list_elem_of_filter;
     destruct (Hin r Hr) as (?&?&_); unfold overlaps_range in Ho;
     rewrite !getEnd_ok, negb_true_iff, orb_false_iff, !Z.leb_gt in Ho by done; lia).
  rewrite <- (filter_app_complement (holds_range range) (inStartOrder t)) at 3.
  rewrite covered_app. fold (covers range p).
  assert (covered (filter (fun r => overlaps_range r range ≠ true) (inStartOrder t)) p ->
          ~ covers range p) as Hn; [|tauto].
  intros (r&[Ho Hr]%list_elem_of_filter&Hp)%Exists_exists Hc.
  destruct (Hin r Hr) as (Hrok&Hsz&_). apply Ho. unfold covers in *.
  apply overlaps_range_spec; try done; [lia|exists p; unfold covers; lia].
Qed.

Lemma interval_tree_subtract_correct_witness :
  exists t', IntervalTree.subtract (mkRange 20 20) sample_tree = Ok t' /\
    root sample_bounds t' /\
    forall p, covered (inStartOrder t') p <->
              covered (inStartOrder sample_tree) p /\ ~ covers (mkRange 20 20) p.
Proof.
  exact (interval_tree_subtract_correct sample_bounds sample_tree (mkRange 20 20)
    sample_tree_root ltac:(vm_compute; intuition congruence)).
Defined.

(** when the stored ranges are disjoint, [complement] returns a tree over
    the same bounds that covers exactly the addresses of the bounds that the
    tree does not cover. *)
Theorem interval_tree_complement_correct R t :
  root R t -> pairwise_disjoint (inStartOrder t) ->
  exists t', IntervalTree.complement t = Ok t' /\ root R t' /\
    forall p, covered (inStartOrder t') p <-> covers R p /\ ~ covered (inStartOrder t) p.
Proof.
  intros Hroot Hd. pose proof (root_ok _ _ Hroot) as HR. pose proof (wf_inside _ _ (proj2 Hroot)) as Hin.
  destruct (complement_loop_spec R (inStartOrder t) (_start R) (newNode R))
    as (lp&t1&E1&Hroot1&Hlp&Hle&C1);
    [by apply root_new|unfold ok in HR; lia|done|by eapply wf_disjoint_sorted, Hd; apply Hroot| |].
  { eapply Forall_impl; [exact Hin|]. intros r (_&_&?&_). done. }
  assert (forall p, covered (inStartOrder t) p -> p < lp) as Hlt.
  { intros p (r&Hr&Hp)%Exists_exists. rewrite Forall_forall in Hle. specialize (Hle r Hr).
    unfold covers in Hp. lia. }
  rewrite newNode_eq in C1 by done. cbn [inStartOrder app] in C1.
  assert (exists t', (if lp <? getEnd R then IntervalTree.add_endpoints lp (getEnd R) t1
    else Ok t1) = Ok t' /\ root R t' /\ forall p, covered (inStartOrder t') p <->
    covered (inStartOrder t1) p \/ lp <= p < _start R + _size R) as (t'&E2&Hroot2&C2).
  { rewrite getEnd_ok by done. destruct (Z.ltb_spec lp (_start R + _size R)).
    - destruct (add_endpoints_inside R t1 lp (_start R + _size R)) as (t2&?&?&P); [done|lia|lia|].
      exists t2. split_and!; [done|done|]. intros p. rewrite P, covered_cons.
      unfold covers at 1; cbn. intuition lia.
    - exists t1. split_and!; [done|done|]. intros; intuition lia. }
  exists t'. split_and!; [|done|].
  - apply bind_Ok. exists R. split; [by apply root_total|].
    apply bind_Ok. exists (lp, t1). split; [exact E1|exact E2].
  - intros p. rewrite C2, C1, covered_nil. specialize (Hlt p). unfold covers at 1.
    destruct (decide (p < lp)); intuition lia.
Qed.

Lemma interval_tree_complement_correct_witness :
  exists t', IntervalTree.complement sample_tree = Ok t' /\ root sample_bounds t' /\
    forall p, covered (inStartOrder t') p <->
              covers sample_bounds p /\ ~ covered (inStartOrder sample_tree) p.
Proof.
  exact (interval_tree_complement_correct sample_bounds sample_tree
    sample_tree_root sample_tree_disjoint).
Defined.

(** the hypothesis of disjointness is needed: with [8,12) inside [2,40) the
    traversal called "in start order" yields [8,12) first, and [complement]
    returns a tree that covers address 4, which the tree covers too. *)
Theorem interval_tree_complement_overlap :
  root sample_bounds overlapping_tree /\
  IntervalTree.getAllData overlapping_tree = [mkRange 8 4; mkRange 2 38] /\
  exists t', IntervalTree.complement overlapping_tree = Ok t' /\
    covered (inStartOrder t') 4 /\ covered (inStartOrder overlapping_tree) 4.
Proof.
  split; [exact overlapping_tree_root|]. split; [reflexivity|].
  eexists. split; [vm_compute; reflexivity|].
  split; apply Exists_exists.
  - exists (mkRange 0 8). split; [vm_compute; set_solver|unfold covers; cbn; lia].
  - exists (mkRange 2 38). split; [vm_compute; set_solver|unfold covers; cbn; lia].
Qed.

(** [add] of an empty range that lies inside the tree does not terminate:
    no recursion depth is enough. *)
Theorem interval_tree_add_empty_diverges R t p fuel :
  root R t -> _start R <= p <= _start R + _size R ->
  node_add fuel (mkRange p 0) t = Err OutOfFuel.
Proof. apply node_add_empty_range. Qed.

Lemma interval_tree_add_empty_diverges_witness :
  node_add 1000 (mkRange 20 0) sample_tree = Err OutOfFuel.
Proof.
  exact (interval_tree_add_empty_diverges sample_bounds sample_tree 20 1000
    sample_tree_root ltac:(cbn; lia)).
Defined.

Lemma find_first_sorted (Rel : Range -> Range -> Prop) f l :
  StronglySorted Rel l ->
  match find_first f l with
  | Some r => r ∈ l /\ f r = true /\ forall r', r' ∈ l -> f r' = true -> r' = r \/ Rel r r'
  | None => forall r', r' ∈ l -> f r' = false
  end.
Proof.
  induction 1 as [|r l Hs IH Hr]; cbn; [intros ? []%elem_of_nil|].
  destruct (f r) eqn:E.
  - split_and!; [by left|done|]. intros r' [->|Hr']%elem_of_cons Hf; [by left|].
    right. by eapply Forall_forall in Hr.
  - destruct (find_first f l) as [r0|].
    + destruct IH as (?&?&H). split_and!; [by right|done|].
      intros r' [->|Hr']%elem_of_cons Hf; [congruence|auto].
    + intros r' [->|Hr']%elem_of_cons; auto.
Qed.

Lemma StronglySorted_reverse {A} (Rel : A -> A -> Prop) l :
  StronglySorted Rel l -> StronglySorted (flip Rel) (reverse l).
Proof.
  induction 1 as [|x l Hs IH Hx]; [constructor|].
  rewrite reverse_cons. apply StronglySorted_app. split_and!; [|done|constructor; constructor].
  intros a b Ha ->%list_elem_of_singleton. rewrite elem_of_reverse in Ha.
  rewrite Forall_forall in Hx. by apply Hx.
Qed.

(** when the stored ranges are disjoint, [findUpperBound] returns the
    closest range that starts after the point and [findLowerBound] the closest
    one that ends at or before it; they fail only when there is none. *)
Theorem interval_tree_bounds_correct R t point :
  root R t -> pairwise_disjoint (inStartOrder t) ->
  match IntervalTree.findUpperBound point t with
  | Some r => r ∈ inStartOrder t /\ point < _start r /\
      forall r', r' ∈ inStartOrder t -> point < _start r' -> r' = r \/ before r r'
  | None => forall r', r' ∈ inStartOrder t -> _start r' <= point
  end /\
  match IntervalTree.findLowerBound point t with
  | Some r => r ∈ inStartOrder t /\ _start r + _size r <= point /\
      forall r', r' ∈ inStartOrder t -> _start r' + _size r' <= point -> r' = r \/ before r' r
  | None => forall r', r' ∈ inStartOrder t -> point < _start r' + _size r'
  end.
Proof.
  intros [_ Hw] Hd. pose proof (wf_ok _ _ Hw) as Hok. rewrite Forall_forall in Hok.
  pose proof (wf_disjoint_sorted _ _ Hw Hd) as Hs. split.
  - unfold IntervalTree.findUpperBound, node_findUpperBound.
    rewrite (node_upper_search_spec R t) by
      (done || (intros r (?&?&_); unfold point_lt, getStart; intros ?%Z.ltb_lt; lia)).
    pose proof (find_first_sorted before (point_lt point) _ Hs) as H.
    destruct (find_first (point_lt point) (inStartOrder t)) as [r|]; unfold point_lt, getStart in H.
    + destruct H as (?&?%Z.ltb_lt&H). split_and!; [done|done|].
      intros r' Hr' Hlt. apply H; [done|by apply Z.ltb_lt].
    + intros r' Hr'. apply Z.ltb_ge. auto.
  - unfold IntervalTree.findLowerBound, node_findLowerBound.
    rewrite (node_lower_search_spec R t) by
      (done || (intros r (?&?&_) ?%lt_point_spec; [lia|done])).
    pose proof (find_first_sorted _ (fun r => lt_point r point) _ (StronglySorted_reverse _ _ Hs)) as H.
    destruct (find_first (fun r => lt_point r point) (reverse (inStartOrder t))) as [r|].
    + destruct H as (Hr&Hl&H). rewrite elem_of_reverse in Hr. apply lt_point_spec in Hl; [|auto].
      split_and!; [done|done|]. intros r' Hr' Hle. apply H; [by apply elem_of_reverse|].
      apply lt_point_spec; auto.
    + intros r' Hr'. specialize (H r' ltac:(by apply elem_of_reverse)).
      destruct (decide (point < _start r' + _size r')) as [|Hn]; [done|].
      exfalso. rewrite (proj2 (lt_point_spec r' point (Hok _ Hr'))) in H by lia. done.
Qed.

Lemma interval_tree_bounds_correct_witness :
  IntervalTree.findUpperBound 20 sample_tree = Some (mkRange 32 14) /\
  IntervalTree.findLowerBound 47 sample_tree = Some (mkRange 32 14) /\
  (forall r', r' ∈ inStartOrder sample_tree -> _start r' + _size r' <= 47 ->
     r' = mkRange 32 14 \/ before r' (mkRange 32 14)).
Proof.
  split; [reflexivity|]. split; [reflexivity|].
  exact (proj2 (proj2 (proj2 (interval_tree_bounds_correct sample_bounds sample_tree 47
    sample_tree_root sample_tree_disjoint)))).
Defined.

Lemma disjoint_filter_point l p :
  Forall ok l -> pairwise_disjoint l -> (length (filter (holds_point p) l) <= 1)%nat.
Proof.
  intros Hok Hd. pose proof (filter_app_complement (holds_point p) l) as Hp.
  rewrite <- Hp in Hd. apply pairwise_disjoint_app in Hd as (Hd&_).
  apply (disjoint_across_single p); [|done].
  apply Forall_forall. intros r [Hc Hr]%list_elem_of_filter. rewrite Forall_forall in Hok.
  by apply contains_across; auto.
Qed.

(** The answer of the point query on disjoint contents. *)
Lemma found_at R t p :
  root R t -> pairwise_disjoint (inStartOrder t) ->
  (IntervalTree.findOverlapping_point p t = [] /\ ~ covered (inStartOrder t) p) \/
  (exists r rest, IntervalTree.findOverlapping_point p t = [r] /\ inside R r /\
     inStartOrder t ≡ₚ r :: rest /\ covers r p /\ Forall (fun x => ~ covers x p) rest).
Proof.
  intros [_ Hw] Hd. pose proof (wf_ok _ _ Hw) as Hok. pose proof (wf_inside _ _ Hw) as Hin.
  pose proof (disjoint_filter_point _ p Hok Hd) as Hlen.
  pose proof (node_findOverlapping_point_spec R t p Hw) as HF.
  pose proof (filter_app_complement (holds_point p) (inStartOrder t)) as HC.
  rewrite Forall_forall in Hok, Hin. unfold IntervalTree.findOverlapping_point.
  destruct (filter (holds_point p) (inStartOrder t)) as [|r [|]] eqn:EF; [left|right|cbn in Hlen; lia].
  - split; [by apply Permutation_nil_r in HF|]. intros (r&Hr&Hc)%Exists_exists.
    apply (not_elem_of_nil r). rewrite <- EF. apply list_elem_of_filter.
    split; [by apply contains_point_spec; auto|done].
  - assert (r ∈ filter (holds_point p) (inStartOrder t)) as [Hc Hr]%list_elem_of_filter
      by (rewrite EF; by left).
    exists r, (filter (fun x => contains_point x p ≠ true) (inStartOrder t)).
    split_and!; [by apply Permutation_singleton_r in HF|by apply Hin|by symmetry| |].
    + by apply contains_point_spec; auto.
    + apply Forall_forall. intros x [Hn Hx]%list_elem_of_filter Hcx.
      apply Hn. apply contains_point_spec; auto.
Qed.

(** The three updates of [splitAt]. *)
Lemma split_two R t r rest p :
  root R t -> inside R r -> inStartOrder t ≡ₚ r :: rest ->
  _start r < p < _start r + _size r ->
  exists t', ('(_, t1) ← IntervalTree.remove r t;
              t2 ← IntervalTree.add_endpoints (_start r) p t1;
              t3 ← IntervalTree.add_endpoints p (_start r + _size r) t2;
              Ok (true, t3)) = Ok (true, t') /\ root R t' /\
    inStartOrder t' ≡ₚ mkRange p (_start r + _size r - p) :: mkRange (_start r) (p - _start r) :: rest.
Proof.
  intros Hroot Hir HC Hp. pose proof Hir as (Hrok&Hsz&Hr1&Hr2).
  destruct (tree_remove_stored R t r rest Hroot Hir HC) as (t1&E1&Hroot1&P1).
  destruct (add_endpoints_inside R t1 (_start r) p Hroot1) as (t2&E2&Hroot2&P2); [lia|lia|].
  destruct (add_endpoints_inside R t2 p (_start r + _size r) Hroot2) as (t3&E3&Hroot3&P3); [lia|lia|].
  exists t3. split_and!; [|done|by rewrite P3, P2, P1].
  apply bind_Ok. exists (true, t1). split; [done|]. apply bind_Ok. exists t2. split; [done|].
  apply bind_Ok. exists t3. done.
Qed.

(** when the stored ranges are disjoint, [splitAt] at an address of the
    tree returns whether the address is covered, leaves the covered addresses
    as they are, and afterwards the ranges are disjoint and none has the
    address in its interior. *)
Theorem interval_tree_split_correct R t point :
  root R t -> pairwise_disjoint (inStartOrder t) -> covers R point ->
  exists b t', IntervalTree.splitAt point t = Ok (b, t') /\ root R t' /\
    (b = true <-> covered (inStartOrder t) point) /\
    (forall p, covered (inStartOrder t') p <-> covered (inStartOrder t) p) /\
    pairwise_disjoint (inStartOrder t') /\
    Forall (fun r => covers r point -> _start r = point) (inStartOrder t').
Proof.
  intros Hroot Hd Hp. pose proof (root_ok _ _ Hroot) as HR.
  unfold IntervalTree.splitAt. rewrite (root_total R t Hroot). cbn [mbind res_bind].
  rewrite (proj2 (contains_point_spec R point HR) Hp). cbn [negb].
  destruct (found_at R t point Hroot Hd) as [(->&Hn)|(r&rest&->&Hir&HC&Hcr&Hrest)].
  { exists false, t. split_and!; try done. apply Forall_forall. intros r Hr Hc.
    destruct Hn. apply Exists_exists. eauto. }
  pose proof Hir as (Hrok&Hsz&_). rewrite getEnd_ok by done. unfold getStart.
  assert (covered (inStartOrder t) point) as Hcov by (rewrite HC; by left).
  assert (Forall (fun r => covers r point -> _start r = point) rest) as Hrest'
    by (eapply Forall_impl; [exact Hrest|]; intros x Hx Hc; by destruct (Hx Hc)).
  unfold covers in Hcr. destruct (Z.eqb_spec point (_start r)) as [->|Hne]; cbn [negb andb].
  { exists true, t. split_and!; try done. rewrite HC. by constructor. }
  destruct (Z.eqb_spec point (_start r + _size r)); [lia|]. cbn [negb].
  destruct (split_two R t r rest point Hroot Hir HC) as (t'&E&Hroot'&P); [lia|].
  exists true, t'. rewrite HC in Hd. cbn in Hd. destruct Hd as (Hd1&Hd2).
  split_and!; [exact E|done|done| | |].
  - intros p. rewrite P, HC, !covered_cons. unfold covers; cbn.
    destruct (decide (p < point)); intuition lia.
  - rewrite P. cbn. rewrite Forall_cons. rewrite Forall_forall in Hd1.
    split_and!; [unfold disj; cbn; lia| | |done]; apply Forall_forall; intros x Hx;
      specialize (Hd1 x Hx); unfold disj in *; cbn; lia.
  - rewrite P, !Forall_cons. unfold covers; cbn. split_and!; [done|lia|done].
Qed.

Lemma interval_tree_split_correct_witness :
  exists b t', IntervalTree.splitAt 40 sample_tree = Ok (b, t') /\ root sample_bounds t' /\
    (b = true <-> covered (inStartOrder sample_tree) 40) /\
    (forall p, covered (inStartOrder t') p <-> covered (inStartOrder sample_tree) p) /\
    pairwise_disjoint (inStartOrder t') /\
    Forall (fun r => covers r 40 -> _start r = 40) (inStartOrder t').
Proof.
  exact (interval_tree_split_correct sample_bounds sample_tree 40 sample_tree_root
    sample_tree_disjoint ltac:(unfold covers; cbn; lia)).
Defined.

(** [unionWith] adds to the tree every range of the other tree that lies
    inside its bounds, and nothing else. *)
Theorem interval_tree_union_correct R R' t other :
  root R t -> root R' other ->
  exists t', IntervalTree.unionWith other t = Ok t' /\ root R t' /\
    inStartOrder t' ≡ₚ
      filter (fun r => contains_range R r = true) (inStartOrder other) ++ inStartOrder t.
Proof.
  intros Hroot [_ Hw]. apply union_loop_spec; [done|].
  eapply Forall_impl; [exact (wf_inside _ _ Hw)|]. by intros r (?&?&_).
Qed.

Lemma interval_tree_union_correct_witness :
  exists t', IntervalTree.unionWith overlapping_tree sample_tree = Ok t' /\
    root sample_bounds t' /\
    inStartOrder t' ≡ₚ
      filter (fun r => contains_range sample_bounds r = true) (inStartOrder overlapping_tree)
      ++ inStartOrder sample_tree.
Proof.
  exact (interval_tree_union_correct sample_bounds sample_bounds sample_tree overlapping_tree
    sample_tree_root overlapping_tree_root).
Defined.
