(* ===== verification/Print.v ===== *)
(** * Formatted output without a C library: src/cminus/print.c

    [vfprintf] issues a sequence of [write] system calls, modelled as the list
    of (stream, bytes) it writes.  [vsnprintf] stores into the caller's array,
    modelled with checked stores.  A C string is the list of its characters,
    the terminator left out; reading past the terminator is a fault.  The
    variadic arguments are tagged with the type they are passed at. *)

From S2P Require Import Prelude.

Definition write_call : Type := Z * list Z.

(** ** Numbers *)

Definition hex_char (digit : Z) : Z :=
  if digit <=? 9 then digit + 48 else (digit - 10) + 97.

(** The loop of [write_hex] and [hex_to_string]: [acc] is the part of the
    buffer written so far, from index [i] to its end. *)
Fixpoint hex_loop (fuel : nat) (number shift i : Z) (acc : list Z)
  : res (list Z) :=
  match fuel with
  | O => Err OutOfFuel
  | S fuel =>
    let digit := Z.land (Z.shiftr number shift) 15 in
    if i <=? 0 then Err OutOfBounds
    else
      let acc := hex_char digit :: acc in
      let shift := shift + 4 in
      if (shift =? 32) && (Z.shiftr number shift =? 0) then Ok acc
      else if shift =? 64 then Ok acc
      else hex_loop fuel number shift (i - 1) acc
  end.
Definition hex_buffer (number : Z) : res (list Z) := hex_loop 17 number 0 18 [].

(** The loop of [write_decimal] and [decimal_to_string]. *)
Fixpoint decimal_loop (fuel : nat) (number i : Z) (acc : list Z)
  : res (list Z) :=
  match fuel with
  | O => Err OutOfFuel
  | S fuel =>
    if i <=? 0 then Err OutOfBounds
    else
      let acc := (number mod 10 + 48) :: acc in
      let number := number / 10 in
      if number =? 0 then Ok acc else decimal_loop fuel number (i - 1) acc
  end.
Definition decimal_buffer (number : Z) : res (list Z) := decimal_loop 21 number 20 [].

(** ** Writing to a stream *)

Definition write_char (stream c : Z) : write_call := (stream, [u8 c]).

Definition write_string (stream : Z) (message : option (list Z)) : write_call :=
  match message with
  | None => (stream, chars "(null)")
  | Some m => (stream, m)
  end.

Definition write_hex (stream number : Z) : res write_call :=
  buffer ← hex_buffer number; Ok (stream, buffer).
Definition write_decimal (stream number : Z) : res write_call :=
  buffer ← decimal_buffer number; Ok (stream, buffer).

(** ** Storing into an array *)

Definition dest : Type := list Z * Z.   (* the array and the index of [s] *)

(** [*s++ = b] *)
Definition put (d : dest) (b : Z) : res dest :=
  buf ← store d.1 d.2 b; Ok (buf, d.2 + 1).

(** [_strcpy]: the characters, then the terminator; [s] itself stays. *)
Fixpoint strcpy_loop (d : dest) (src : list Z) : res dest :=
  match src with
  | [] => put d 0
  | c :: src' => d' ← put d c; strcpy_loop d' src'
  end.
Definition _strcpy (d : dest) (src : list Z) : res dest :=
  d' ← strcpy_loop d src; Ok (d'.1, d.2).

Definition decimal_to_string (number : Z) (d : dest) : res dest :=
  buffer ← decimal_buffer number; _strcpy d buffer.
Definition hex_to_string (number : Z) (d : dest) : res dest :=
  buffer ← hex_buffer number; _strcpy d buffer.

(** [while( *s) s++] *)
Fixpoint seek_end (fuel : nat) (d : dest) : res dest :=
  match fuel with
  | O => Err OutOfFuel
  | S fuel =>
    c ← load d.1 d.2;
    if c =? 0 then Ok d else seek_end fuel (d.1, d.2 + 1)
  end.
Definition to_terminator (d : dest) : res dest := seek_end (S (length d.1)) d.

(** ** Variadic arguments *)

Inductive varg : Type :=
| VInt (bits : Z)               (* int or unsigned, as 32 bits *)
| VLong (bits : Z)              (* long, unsigned long or void *, as 64 bits *)
| VStr (s : option (list Z)).   (* const char *, null or a string *)

Definition va_int (args : list varg) : res (Z * list varg) :=
  match args with VInt b :: r => Ok (swrap 32 b, r) | _ => Err Undefined end.
Definition va_unsigned (args : list varg) : res (Z * list varg) :=
  match args with VInt b :: r => Ok (u32 b, r) | _ => Err Undefined end.
Definition va_long (args : list varg) : res (Z * list varg) :=
  match args with VLong b :: r => Ok (swrap 64 b, r) | _ => Err Undefined end.
Definition va_ulong (args : list varg) : res (Z * list varg) :=
  match args with VLong b :: r => Ok (u64 b, r) | _ => Err Undefined end.
Definition va_str (args : list varg) : res (option (list Z) * list varg) :=
  match args with VStr s :: r => Ok (s, r) | _ => Err Undefined end.

(** ** The format *)

Inductive conv : Type :=
| CvC | CvS | CvD | CvU | CvX | CvP | CvLD | CvLU | CvLX | CvNone.

#[global] Instance conv_eq_dec : EqDecision conv.
Proof. solve_decision. Defined.

Definition is_flag (c : Z) : bool := ((48 <=? c) && (c <=? 57)) || (c =? 45).

(** [while(( *begin >= '0' && *begin <= '9') || *begin == '-') begin++] *)
Fixpoint skip_flags (b : list Z) : list Z :=
  match b with
  | c :: b' => if is_flag c then skip_flags b' else b
  | [] => []
  end.

(** The [switch]es on [*begin] and [*++begin]: the case taken and [begin]. *)
Definition switch_conv (b : list Z) : conv * list Z :=
  match b with
  | 99 :: _ => (CvC, b)
  | 115 :: _ => (CvS, b)
  | 100 :: _ => (CvD, b)
  | 117 :: _ => (CvU, b)
  | 120 :: _ => (CvX, b)
  | 112 :: _ => (CvP, b)
  | 108 :: b' =>
    match b' with
    | 100 :: _ => (CvLD, b')
    | 117 :: _ => (CvLU, b')
    | 120 :: _ => (CvLX, b')
    | _ => (CvNone, b')
    end
  | _ => (CvNone, b)
  end.

(** [while( *p && *p != '%') p++]: the run of literal text and the rest. *)
Fixpoint literal_run (b : list Z) : list Z * list Z :=
  match b with
  | [] => ([], [])
  | c :: b' => if c =? 37 then ([], b)
               else let '(run, rest) := literal_run b' in (c :: run, rest)
  end.

(** ** vfprintf *)

Definition fprint_conv (stream : Z) (c : conv) (args : list varg)
  : res (list write_call * list varg) :=
  match c with
  | CvC => '(x, args) ← va_int args; Ok ([write_char stream x], args)
  | CvS => '(s, args) ← va_str args; Ok ([write_string stream s], args)
  | CvD => '(x, args) ← va_int args;
           w ← write_decimal stream (u64 x); Ok ([w], args)
  | CvU => '(x, args) ← va_unsigned args;
           w ← write_decimal stream x; Ok ([w], args)
  | CvX => '(x, args) ← va_unsigned args; w ← write_hex stream x; Ok ([w], args)
  | CvP => '(x, args) ← va_ulong args; w ← write_hex stream x; Ok ([w], args)
  | CvLD => '(x, args) ← va_long args;
            w ← write_decimal stream (u64 x); Ok ([w], args)
  | CvLU => '(x, args) ← va_ulong args;
            w ← write_decimal stream x; Ok ([w], args)
  | CvLX => '(x, args) ← va_ulong args; w ← write_hex stream x; Ok ([w], args)
  | CvNone => Ok ([], args)
  end.

Fixpoint vfprintf_loop (fuel : nat) (stream : Z) (begin : list Z)
    (args : list varg) : res (list write_call) :=
  match fuel with
  | O => Err OutOfFuel
  | S fuel =>
    match begin with
    | [] => Ok []
    | c :: begin' =>
      if c =? 37 then
        let '(cv, b) := switch_conv (skip_flags begin') in
        '(ws, args) ← fprint_conv stream cv args;
        match b with
        | [] => Err OutOfBounds
        | _ :: b' => rest ← vfprintf_loop fuel stream b' args; Ok (ws ++ rest)
        end
      else
        let '(run, b) := literal_run begin in
        rest ← vfprintf_loop fuel stream b args; Ok ((stream, run) :: rest)
    end
  end.
Definition vfprintf (stream : Z) (format : list Z) (args : list varg)
  : res (list write_call) := vfprintf_loop (S (length format)) stream format args.

Definition STDOUT_FILENO : Z := 1.
Definition printf (format : list Z) (args : list varg) :=
  vfprintf STDOUT_FILENO format args.
Definition fprintf (stream : Z) (format : list Z) (args : list varg) :=
  vfprintf stream format args.
Definition puts (s : option (list Z)) : list write_call :=
  [write_string STDOUT_FILENO s; write_char STDOUT_FILENO 10].

(** ** vsnprintf *)

Definition sprint_conv (c : conv) (d : dest) (args : list varg)
  : res (dest * list varg) :=
  match c with
  | CvC => '(x, args) ← va_int args; d ← put d (u8 x); Ok (d, args)
  | CvS => '(s, args) ← va_str args;
           match s with
           | None => Err NullDeref
           | Some src => d' ← _strcpy d src; d' ← to_terminator d'; Ok (d', args)
           end
  | CvD => '(x, args) ← va_int args;
           d ← decimal_to_string (u64 x) d; d ← to_terminator d; Ok (d, args)
  | CvU => '(x, args) ← va_unsigned args;
           d ← decimal_to_string x d; d ← to_terminator d; Ok (d, args)
  | CvX => '(x, args) ← va_unsigned args;
           d ← hex_to_string x d; d ← to_terminator d; Ok (d, args)
  | CvP => '(x, args) ← va_ulong args;
           d ← hex_to_string x d; d ← to_terminator d; Ok (d, args)
  | CvLD => '(x, args) ← va_int args;
            d ← decimal_to_string (u64 x) d; d ← to_terminator d; Ok (d, args)
  | CvLU => '(x, args) ← va_ulong args;
            d ← decimal_to_string x d; d ← to_terminator d; Ok (d, args)
  | CvLX => '(x, args) ← va_ulong args;
            d ← hex_to_string x d; d ← to_terminator d; Ok (d, args)
  | CvNone => Ok (d, args)
  end.

(** [while( *p && *p != '%') *s++ = *p++] *)
Fixpoint put_all (d : dest) (l : list Z) : res dest :=
  match l with [] => Ok d | c :: l' => d' ← put d c; put_all d' l' end.

Fixpoint vsnprintf_loop (fuel : nat) (d : dest) (begin : list Z)
    (args : list varg) : res dest :=
  match fuel with
  | O => Err OutOfFuel
  | S fuel =>
    match begin with
    | [] => Ok d
    | c :: begin' =>
      if c =? 37 then
        let '(cv, b) := switch_conv (skip_flags begin') in
        '(d, args) ← sprint_conv cv d args;
        match b with
        | [] => Err OutOfBounds
        | _ :: b' => vsnprintf_loop fuel d b' args
        end
      else
        let '(run, b) := literal_run begin in
        d ← put_all d run; vsnprintf_loop fuel d b args
    end
  end.
(** The result is the array after the call; [size] is not looked at. *)
Definition vsnprintf (s : list Z) (size : Z) (format : list Z)
    (args : list varg) : res (list Z) :=
  d ← vsnprintf_loop (S (length format)) (s, 0) format args; Ok d.1.
Definition sprintf (s : list Z) (format : list Z) (args : list varg) :=
  vsnprintf s (u64 (-1)) format args.
Definition snprintf (s : list Z) (size : Z) (format : list Z) (args : list varg) :=
  vsnprintf s size format args.

(** ** Numbers: what the digits mean *)

#[global] Arguments decimal_buffer : simpl never.
#[global] Arguments hex_buffer : simpl never.

Definition dec_value (ds : list Z) : Z := foldl (fun a c => 10 * a + (c - 48)) 0 ds.
Definition hex_digit (c : Z) : Z := if c <=? 57 then c - 48 else c - 87.
Definition hex_value (ds : list Z) : Z := foldl (fun a c => 16 * a + hex_digit c) 0 ds.
Definition is_dec (c : Z) : Prop := 48 <= c <= 57.
Definition is_hex (c : Z) : Prop := 48 <= c <= 57 \/ 97 <= c <= 102.

Lemma dec_value_snoc ds c : dec_value (ds ++ [c]) = 10 * dec_value ds + (c - 48).
Proof. unfold dec_value. by rewrite foldl_app. Qed.

Lemma foldl_base_shift (b : Z) (g : Z -> Z) l a :
  foldl (fun a c => b * a + g c) a l =
  a * b ^ Z.of_nat (length l) + foldl (fun a c => b * a + g c) 0 l.
Proof.
  revert a. induction l as [|c l IH]; intros a; cbn [foldl length]; [lia|].
  rewrite (IH (b * a + g c)), (IH (b * 0 + g c)), Nat2Z.inj_succ, Z.pow_succ_r by lia. ring.
Qed.

Lemma hex_value_cons c ds :
  hex_value (c :: ds) = hex_digit c * 16 ^ Z.of_nat (length ds) + hex_value ds.
Proof. unfold hex_value. cbn [foldl]. rewrite foldl_base_shift. lia. Qed.

Lemma decimal_loop_spec k fuel n i acc :
  0 <= n < 10 ^ Z.of_nat (S k) -> (k < fuel)%nat -> Z.of_nat k < i ->
  exists ds, decimal_loop fuel n i acc = Ok (ds ++ acc) /\ dec_value ds = n /\
    Forall is_dec ds /\ (1 <= length ds <= S k)%nat /\ (0 < n -> head ds <> Some 48).
Proof.
  revert fuel n i acc. induction k as [|k IH]; intros fuel n i acc Hn Hf Hi;
    (destruct fuel as [|fuel]; [lia|]); cbn [decimal_loop];
    rewrite (proj2 (Z.leb_gt i 0)) by lia; destruct (Z.eqb_spec (n / 10) 0) as [E|E].
  1, 3: exists [n mod 10 + 48]; unfold is_dec; cbn; split_and!;
    [done|zdiv|repeat constructor; zdiv|lia|lia|intros Hp [= Hh]; zdiv].
  - change (10 ^ Z.of_nat 1) with 10 in Hn. zdiv.
  - rewrite Nat2Z.inj_succ, Z.pow_succ_r in Hn by lia.
    destruct (IH fuel (n / 10) (i - 1) ((n mod 10 + 48) :: acc)) as (ds&->&Hv&Hd&Hl&Hh);
      [zdiv|lia|lia|].
    exists (ds ++ [n mod 10 + 48]). rewrite <- app_assoc, dec_value_snoc, Hv, length_app.
    split_and!; [done|zdiv|apply Forall_app; split; [done|]|cbn; lia|cbn; lia|].
    + constructor; [unfold is_dec; zdiv|done].
    + intros _. destruct ds; [cbn in Hl; lia|]. cbn in *. apply Hh. zdiv.
Qed.

Lemma hex_char_digit d : 0 <= d <= 15 -> hex_digit (hex_char d) = d /\ is_hex (hex_char d).
Proof.
  intros. unfold hex_digit, hex_char, is_hex.
  destruct (Z.leb_spec d 9); case_if; zbool; lia.
Qed.

(** The next hexadecimal digit extends the low bits read so far. *)
Lemma hex_step n j :
  0 <= n -> 0 <= j ->
  Z.land (Z.shiftr n (4 * j)) 15 * 16 ^ j + n mod 2 ^ (4 * j) = n mod 2 ^ (4 * (j + 1)).
Proof.
  intros Hn Hj. change 15 with (Z.ones 4). rewrite Z.land_ones, Z.shiftr_div_pow2 by lia.
  replace (4 * (j + 1)) with (4 * j + 4) by lia. rewrite Z.pow_add_r by lia.
  rewrite (Z.rem_mul_r n) by (apply Z.pow_nonzero || apply Z.pow_pos_nonneg; lia).
  change 16 with (2 ^ 4). rewrite <- Z.pow_mul_r by lia. change (2 ^ 4) with 16. lia.
Qed.

Lemma hex_extend n acc :
  0 <= n -> let j := Z.of_nat (length acc) in
  hex_value acc = n mod 2 ^ (4 * j) -> Forall is_hex acc ->
  let ds := hex_char (Z.land (Z.shiftr n (4 * j)) 15) :: acc in
  hex_value ds = n mod 2 ^ (4 * (j + 1)) /\ Forall is_hex ds.
Proof.
  intros Hn j Hv Hh.
  assert (0 <= Z.land (Z.shiftr n (4 * j)) 15 <= 15) as Hd.
  { change 15 with (Z.ones 4) at 1 2. rewrite Z.land_ones by lia. change (2 ^ 4) with 16. zdiv. }
  destruct (hex_char_digit _ Hd) as [Hc1 Hc2]. split; [|by constructor].
  rewrite hex_value_cons, Hc1, Hv. apply hex_step; lia.
Qed.

Definition hex_length (n : Z) : nat := if n <? 2 ^ 32 then 8 else 16.

Lemma hex_loop_spec m fuel n acc :
  0 <= n < 2 ^ 64 -> (m < fuel)%nat -> (length acc + m = 15)%nat ->
  let j := Z.of_nat (length acc) in
  hex_value acc = n mod 2 ^ (4 * j) -> Forall is_hex acc -> (n < 2 ^ 32 -> j < 8) ->
  exists ds, hex_loop fuel n (4 * j) (18 - j) acc = Ok ds /\ hex_value ds = n /\
    Forall is_hex ds /\ length ds = hex_length n.
Proof.
  intros Hn. revert fuel acc. induction m as [|m IH]; intros fuel acc Hf Hl j Hv Hh Hj;
    (destruct fuel as [|fuel]; [lia|]); cbn [hex_loop];
    rewrite (proj2 (Z.leb_gt _ 0)) by lia;
    destruct (hex_extend n acc ltac:(lia) Hv Hh) as [Hv' Hh']; fold j in Hv', Hh' |- *;
    replace (4 * j + 4) with (4 * (j + 1)) by lia;
    set (ds := hex_char _ :: acc) in *;
    assert (length ds = S (length acc)) as Hld by done.
  - replace (4 * (j + 1)) with 64 in * by lia. cbn [Z.eqb Pos.eqb andb].
    exists ds. split_and!; [done|rewrite Hv'; apply Z.mod_small; lia|done|].
    unfold hex_length. destruct (Z.ltb_spec n (2 ^ 32)); lia.
  - rewrite (proj2 (Z.eqb_neq (4 * (j + 1)) 64)) by lia.
    destruct ((4 * (j + 1) =? 32) && (Z.shiftr n (4 * (j + 1)) =? 0)) eqn:E.
    + zbool. assert (length acc = 7%nat) by lia. replace (4 * (j + 1)) with 32 in *.
      match goal with H : Z.shiftr _ _ = 0 |- _ => rewrite Z.shiftr_div_pow2 in H by lia;
        apply Z.div_small_iff in H; [|lia] end.
      exists ds. split_and!; [done|rewrite Hv'; apply Z.mod_small; lia|done|].
      unfold hex_length. rewrite (proj2 (Z.ltb_lt _ _)); lia.
    + specialize (IH fuel ds ltac:(lia) ltac:(lia)). rewrite Hld, Nat2Z.inj_succ in IH. fold j in IH.
      replace (Z.succ j) with (j + 1) in IH by lia.
      replace (18 - j - 1) with (18 - (j + 1)) by lia. apply IH; [done|done|].
      intros Hs. specialize (Hj Hs). destruct (Z.eqb_spec (4 * (j + 1)) 32) as [E1|E1]; [|lia].
      cbn [andb] in E. rewrite E1, Z.shiftr_div_pow2, Z.div_small in E by lia. done.
Qed.

Lemma hex_buffer_spec n :
  is_u64 n -> exists ds, hex_buffer n = Ok ds /\ hex_value ds = n /\
    Forall is_hex ds /\ length ds = hex_length n.
Proof.
  intros Hn. unfold is_u in Hn.
  apply (hex_loop_spec 15 17 n []); [done|lia|done| |constructor|cbn; lia].
  change (2 ^ _) with 1. by rewrite Z.mod_1_r.
Qed.

Lemma decimal_buffer_spec n :
  is_u64 n -> exists ds, decimal_buffer n = Ok ds /\ dec_value ds = n /\
    Forall is_dec ds /\ (1 <= length ds <= 20)%nat /\ (0 < n -> head ds <> Some 48).
Proof.
  intros Hn. unfold is_u in Hn. destruct (decimal_loop_spec 19 21 n 20 []) as (ds&E&H);
    [change (Z.of_nat 20) with 20; lia|lia|lia|].
  exists ds. by rewrite app_nil_r in E.
Qed.

(** ** Formats as text and directives *)

Inductive item : Type :=
| Lit (text : list Z)
| Dir (flags : list Z) (c : conv).

Definition conv_text (c : conv) : list Z :=
  match c with
  | CvC => chars "c" | CvS => chars "s" | CvD => chars "d" | CvU => chars "u"
  | CvX => chars "x" | CvP => chars "p" | CvLD => chars "ld"
  | CvLU => chars "lu" | CvLX => chars "lx" | CvNone => []
  end.
Definition item_text (it : item) : list Z :=
  match it with Lit t => t | Dir f c => 37 :: f ++ conv_text c end.
Definition format_text (items : list item) : list Z := items ≫= item_text.

Definition item_ok (it : item) : Prop :=
  match it with
  | Lit t => t <> [] /\ Forall (fun c => c <> 37) t
  | Dir f c => Forall (fun c => is_flag c = true) f /\ c <> CvNone
  end.

(** A literal is followed by a directive or by the end of the format. *)
Fixpoint format_ok (items : list item) : Prop :=
  match items with
  | [] => True
  | it :: rest => item_ok it /\ format_ok rest /\
                  match it, rest with Lit _, Lit _ :: _ => False | _, _ => True end
  end.

(** The reference: the [k] digits of [n] to the base [b], the highest first. *)
Definition positional (b : Z) (k : nat) (n : Z) : list Z := (fun i => n / b ^ Z.of_nat i mod b) <$> reverse (seq 0 k).
(** As many decimal digits as there are powers of ten up to the number; eight hexadecimal digits,
    or sixteen. *)
Definition dec_width (n : Z) : nat := S (length (filter (fun i => 10 ^ Z.of_nat i <= n) (seq 1 19))).
Definition dec (n : Z) : list Z := Z.add 48 <$> positional 10 (dec_width n) n.
Definition hex_chars : list Z := chars "0123456789abcdef".
Definition hex (n : Z) : list Z := (fun d => hex_chars !!! Z.to_nat d) <$> positional 16 (hex_length n) n.
Definition signed_dec (n : Z) : list Z := if n <? 0 then 45 :: dec (- n) else dec n.

#[global] Arguments dec : simpl never.
#[global] Arguments hex : simpl never.
#[global] Arguments signed_dec : simpl never.

(** What a directive prints.  [sn] tells [vsnprintf] from [vfprintf]: the former
    takes an [int] for ["%ld"] and has no text for a null string. *)
Definition render_conv (sn : bool) (c : conv) (args : list varg)
  : option (list Z * list varg) :=
  match c, args with
  | CvC, VInt b :: r => Some ([u8 (swrap 32 b)], r)
  | CvS, VStr (Some t) :: r => Some (t, r)
  | CvS, VStr None :: r => if sn then None else Some (chars "(null)", r)
  | CvD, VInt b :: r => Some (signed_dec (swrap 32 b), r)
  | CvU, VInt b :: r => Some (dec (u32 b), r)
  | CvX, VInt b :: r => Some (hex (u32 b), r)
  | CvP, VLong b :: r => Some (hex (u64 b), r)
  | CvLD, VInt b :: r => if sn then Some (signed_dec (swrap 32 b), r) else None
  | CvLD, VLong b :: r => if sn then None else Some (signed_dec (swrap 64 b), r)
  | CvLU, VLong b :: r => Some (dec (u64 b), r)
  | CvLX, VLong b :: r => Some (hex (u64 b), r)
  | _, _ => None
  end.
Fixpoint render (sn : bool) (items : list item) (args : list varg) : option (list Z) :=
  match items with
  | [] => Some []
  | Lit t :: rest => out ← render sn rest args; Some (t ++ out)
  | Dir _ c :: rest =>
    '(t, args) ← render_conv sn c args; out ← render sn rest args; Some (t ++ out)
  end.

(** The arguments of signed directives are not negative. *)
Definition signed_ok (c : conv) (a : varg) : Prop :=
  match c, a with
  | CvD, VInt b | CvLD, VInt b => 0 <= swrap 32 b
  | CvLD, VLong b => 0 <= swrap 64 b
  | _, _ => True
  end.
Fixpoint nonnegative (items : list item) (args : list varg) : Prop :=
  match items, args with
  | Lit _ :: items, _ => nonnegative items args
  | Dir _ c :: items, a :: args => signed_ok c a /\ nonnegative items args
  | _, _ => True
  end.

Lemma positional_S b k n : 0 < b -> 0 <= n -> positional b (S k) n = positional b k (n / b) ++ [n mod b].
Proof.
  intros Hb Hn. unfold positional. cbn [seq]. rewrite reverse_cons, fmap_app. cbn. rewrite Z.div_1_r. f_equal.
  rewrite <- seq_shift, <- fmap_reverse, <- list_fmap_compose. apply list_fmap_ext. intros i x _. cbn.
  rewrite Z.div_div by lia. by rewrite <- Z.pow_succ_r, Nat2Z.inj_succ by lia.
Qed.
(** Digits are determined by their number and the value. *)
Lemma positional_unique b (g : Z -> Z) ds : 0 < b -> Forall (fun c => 0 <= g c < b) ds ->
  g <$> ds = positional b (length ds) (foldl (fun a c => b * a + g c) 0 ds) /\ 0 <= foldl (fun a c => b * a + g c) 0 ds < b ^ Z.of_nat (length ds).
Proof.
  intros Hb. induction ds as [|c ds IH] using rev_ind; intros Hd; [split; [done|cbn; lia]|].
  apply Forall_app in Hd as [Hd [Hc _]%Forall_cons]. destruct (IH Hd) as [E Hv]. rewrite foldl_app, fmap_app, length_app. cbn [foldl length].
  set (v := foldl _ 0 ds) in *. assert (0 <= b * v + g c) by nia.
  rewrite Nat.add_1_r, positional_S, Nat2Z.inj_succ, Z.pow_succ_r by lia. split; [|set (B := b ^ _) in *; nia].
  rewrite (Z.mul_comm b v), Z.div_add_l, Z.div_small, Z.add_0_r, E by lia. cbn. do 2 f_equal.
  rewrite Z.add_comm, Z.mod_add, Z.mod_small; lia.
Qed.
Lemma length_filter_seq (P : nat -> Prop) `{!forall i, Decision (P i)} start len m : (m <= len)%nat ->
  (forall i, (start <= i < start + len)%nat -> P i <-> (i < start + m)%nat) -> length (filter P (seq start len)) = m.
Proof.
  revert start m. induction len as [|len IH]; intros start m Hm HP; [cbn; lia|]. cbn [seq]. rewrite filter_cons.
  destruct m as [|m].
  - rewrite decide_False by (rewrite HP; lia). apply IH; [lia|]. intros i Hi. rewrite HP; lia.
  - rewrite decide_True by (apply HP; lia). cbn. f_equal. apply IH; [lia|]. intros i Hi. rewrite HP; lia.
Qed.
Lemma dec_width_spec n m : (m <= 19)%nat -> 10 ^ Z.of_nat m <= n < 10 ^ Z.of_nat (S m) -> dec_width n = S m.
Proof.
  intros Hm Hn. unfold dec_width. f_equal. apply length_filter_seq; [done|]. intros i Hi.
  assert (forall i j, (i <= j)%nat -> 10 ^ Z.of_nat i <= 10 ^ Z.of_nat j) as Hmono by (intros; apply Z.pow_le_mono_r; lia).
  split; intros H; [|specialize (Hmono i m ltac:(lia)); lia].
  destruct (decide (i < 1 + m)%nat) as [|Hge]; [done|]. specialize (Hmono (S m) i ltac:(lia)). lia.
Qed.

Lemma u64_is_u64 x : is_u64 (u64 x).
Proof. apply wrap_range. lia. Qed.
Lemma u32_is_u64 x : is_u64 (u32 x).
Proof. pose proof (wrap_range 32 x ltac:(lia)). unfold is_u. lia. Qed.

Lemma dec_spec n : is_u64 n -> decimal_buffer n = Ok (dec n) /\ dec_value (dec n) = n /\
  Forall is_dec (dec n).
Proof.
  intros Hn. destruct (Z.eqb_spec n 0) as [->|Hne]; [vm_compute; split_and!; [done|done|by repeat constructor]|].
  destruct (decimal_buffer_spec n Hn) as (ds&E&Hv&Hd&Hl&Hh). unfold is_u in Hn.
  destruct (positional_unique 10 (fun c => c - 48) ds) as [Hp Hr]; [lia|eapply Forall_impl; [exact Hd|unfold is_dec; lia]|].
  fold (dec_value ds) in Hp, Hr. rewrite Hv in Hp, Hr. destruct ds as [|c ds]; [cbn in Hl; lia|].
  assert (dec_width n = length (c :: ds)) as Hw.
  { cbn [length] in Hl. apply (dec_width_spec n (length ds)); [lia|]. split; [|exact (proj2 Hr)].
    inversion Hd as [|?? Hc Hd']; subst. unfold is_dec in Hc. unfold dec_value in *. cbn [foldl] in *.
    rewrite foldl_base_shift in Hn |- *.
    destruct (positional_unique 10 (fun c => c - 48) ds) as [_ Hr']; [lia|eapply Forall_impl; [exact Hd'|unfold is_dec; lia]|].
    assert (c <> 48) by (intros ->; by apply Hh; [lia|]). nia. }
  assert (dec n = c :: ds) as ->; [|by rewrite E].
  unfold dec. rewrite Hw, <- Hp, <- list_fmap_compose. rewrite <- (list_fmap_id (c :: ds)) at 2.
  apply list_fmap_ext. intros i x _. cbn. lia.
Qed.
Lemma hex_char_inv c : is_hex c -> hex_chars !!! Z.to_nat (hex_digit c) = c /\ 0 <= hex_digit c < 16.
Proof.
  intros Hc. unfold is_hex in Hc.
  assert (c = 48 \/ c = 49 \/ c = 50 \/ c = 51 \/ c = 52 \/ c = 53 \/ c = 54 \/ c = 55 \/ c = 56 \/ c = 57 \/
          c = 97 \/ c = 98 \/ c = 99 \/ c = 100 \/ c = 101 \/ c = 102) as H by lia.
  repeat (destruct H as [-> | H]; [vm_compute; done|]). subst c. vm_compute. done.
Qed.
Lemma hex_spec n : is_u64 n -> hex_buffer n = Ok (hex n) /\ hex_value (hex n) = n /\
  Forall is_hex (hex n).
Proof.
  intros Hn. destruct (hex_buffer_spec n Hn) as (ds&E&Hv&Hd&Hl).
  destruct (positional_unique 16 hex_digit ds) as [Hp _]; [lia|eapply Forall_impl; [exact Hd|]; intros; by apply hex_char_inv|].
  fold (hex_value ds) in Hp. rewrite Hv, Hl in Hp. assert (hex n = ds) as ->; [|by rewrite E].
  unfold hex. rewrite <- Hp, <- list_fmap_compose. rewrite <- (list_fmap_id ds) at 2. apply list_fmap_ext. intros i x Hx. cbn.
  apply hex_char_inv. by apply (Forall_lookup_1 _ _ _ _ Hd Hx).
Qed.
(** A number that is not negative is printed with its sign, as the unsigned one. *)
Lemma signed_spec w x : 0 < w <= 64 -> 0 <= swrap w x -> u64 (swrap w x) = swrap w x /\ signed_dec (swrap w x) = dec (u64 (swrap w x)).
Proof.
  intros Hw Hx. assert (u64 (swrap w x) = swrap w x) as E.
  { apply wrap_small. unfold swrap in *. pose proof (Z.mod_pos_bound (x + 2 ^ (w - 1)) (2 ^ w) ltac:(lia)).
    assert (2 ^ w <= 2 ^ 64) by (apply Z.pow_le_mono_r; lia). assert (0 < 2 ^ (w - 1)) by lia. lia. }
  split; [done|]. rewrite E. unfold signed_dec. by rewrite (proj2 (Z.ltb_ge _ _)).
Qed.

Lemma skip_flags_app f b :
  Forall (fun c => is_flag c = true) f -> skip_flags (f ++ b) = skip_flags b.
Proof. induction 1 as [|c f Hc _ IH]; cbn; [done|]. by rewrite Hc. Qed.

(** The scanner recognises a directive and stops at its last character. *)
Lemma scan_directive f c rest :
  Forall (fun c => is_flag c = true) f -> c <> CvNone ->
  exists last, switch_conv (skip_flags (f ++ conv_text c ++ rest)) = (c, last :: rest).
Proof.
  intros Hf Hc. rewrite skip_flags_app by done. destruct c; cbn; eauto. done.
Qed.

Lemma literal_run_app t rest :
  Forall (fun c => c <> 37) t -> (rest = [] \/ head rest = Some 37) ->
  literal_run (t ++ rest) = (t, rest).
Proof.
  intros Ht Hr. induction Ht as [|c t Hc _ IH]; cbn.
  - destruct Hr as [->|Hr]; [done|]. destruct rest; [done|]. cbn in Hr. by simplify_eq.
  - by rewrite (proj2 (Z.eqb_neq _ _) Hc), IH.
Qed.

Lemma format_next items :
  format_ok items -> match items with Lit _ :: _ => False | _ => True end ->
  format_text items = [] \/ head (format_text items) = Some 37.
Proof. destruct items as [|[t|f c] items]; cbn; auto. done. Qed.

Ltac signed_text H :=
  let E := fresh in
  first [pose proof (proj2 (signed_spec 32 _ ltac:(lia) H)) as E | pose proof (proj2 (signed_spec 64 _ ltac:(lia) H)) as E];
  repeat match goal with H' : context [signed_dec _] |- _ => lazymatch H' with E => fail | _ => rewrite E in H' end end; rewrite ?E; clear E.
Lemma render_conv_args sn c args t args' : render_conv sn c args = Some (t, args') -> exists a, args = a :: args'.
Proof. destruct c, args as [|[b|b|[s|]] args], sn; cbn; intros; simplify_eq; by eexists. Qed.
Lemma fprint_conv_render stream c args t args' :
  render_conv false c args = Some (t, args') -> (forall a r, args = a :: r -> signed_ok c a) ->
  fprint_conv stream c args = Ok ([(stream, t)], args').
Proof.
  intros Hr Hs. destruct args as [|a args]; [by destruct c|]. specialize (Hs a args eq_refl). revert Hr Hs.
  destruct c, a as [b|b|[s|]]; cbn; intros Hr Hs; simplify_eq; try done;
    unfold write_decimal, write_hex; try signed_text Hs;
    rewrite ?(proj1 (dec_spec _ (u64_is_u64 _))), ?(proj1 (hex_spec _ (u64_is_u64 _))),
      ?(proj1 (dec_spec _ (u32_is_u64 _))), ?(proj1 (hex_spec _ (u32_is_u64 _))); done.
Qed.

Lemma vfprintf_loop_render stream items args out fuel :
  format_ok items -> render false items args = Some out -> nonnegative items args ->
  (length (format_text items) < fuel)%nat ->
  exists ws, vfprintf_loop fuel stream (format_text items) args = Ok ws /\
    concat (map snd ws) = out /\ Forall (fun w => w.1 = stream) ws.
Proof.
  revert args out fuel. induction items as [|it items IH]; intros args out fuel Hok Hr Hng Hf;
    (destruct fuel as [|fuel]; [lia|]).
  { cbn in *. simplify_eq. by exists []. }
  destruct Hok as (Hit&Hok&Hadj). destruct it as [t|f c].
  - destruct Hit as [Hne Ht]. cbn in Hr. apply bind_Some in Hr as (o&Hr&[= <-]).
    change (format_text (Lit t :: items)) with (t ++ format_text items) in *.
    destruct (IH args o fuel Hok Hr Hng) as (ws&E&Hc&Hs).
    { rewrite length_app in Hf. destruct t; [done|]. cbn in Hf. lia. }
    exists ((stream, t) :: ws). split_and!; [|by cbn; rewrite Hc|by constructor].
    pose proof (literal_run_app t (format_text items) Ht) as Hl.
    destruct t as [|x t]; [done|]. inversion Ht as [|?? Hx]; subst.
    cbn [vfprintf_loop app]. rewrite (proj2 (Z.eqb_neq _ _) Hx).
    change (x :: t ++ format_text items) with ((x :: t) ++ format_text items).
    rewrite Hl by (apply format_next; [done|by destruct items as [|[]]]).
    cbn beta iota. by rewrite E.
  - destruct Hit as [Hfl Hc]. cbn in Hr. apply bind_Some in Hr as ([t args']&Hrc&Hr).
    apply bind_Some in Hr as (o&Hr&[= <-]).
    replace (format_text (Dir f c :: items))
      with (37 :: f ++ conv_text c ++ format_text items) in *
      by (unfold format_text; cbn; by rewrite <- app_assoc).
    destruct (scan_directive f c (format_text items) Hfl Hc) as [last Hsc].
    destruct (render_conv_args _ _ _ _ _ Hrc) as [a ->]. destruct Hng as [Hsa Hng].
    destruct (IH args' o fuel Hok Hr Hng) as (ws&E&Hcc&Hs).
    { cbn in Hf. rewrite !length_app in Hf. lia. }
    exists ((stream, t) :: ws). split_and!; [|by cbn; rewrite Hcc|by constructor].
    cbn [vfprintf_loop]. change (37 =? 37) with true. cbn iota. rewrite Hsc.
    rewrite (fprint_conv_render _ _ _ _ _ Hrc) by (by intros ? ? [= -> ->]). cbn [mbind res_bind]. by rewrite E.
Qed.

(** ** Storing text *)

(** The destination with the text [pre] stored and [rest] of the array left. *)
Definition at_text (pre rest : list Z) : dest := (pre ++ rest, Z.of_nat (length pre)).

Lemma put_at pre x rest b : put (at_text pre (x :: rest)) b = Ok (at_text (pre ++ [b]) rest).
Proof.
  unfold put, at_text. cbn [fst snd]. rewrite store_app. cbn [mbind res_bind].
  rewrite length_app, <- app_assoc. cbn. do 2 f_equal. lia.
Qed.

Lemma put_all_at t pre rest :
  (length t <= length rest)%nat ->
  put_all (at_text pre rest) t = Ok (at_text (pre ++ t) (drop (length t) rest)).
Proof.
  revert pre rest. induction t as [|c t IH]; intros pre rest Hl; cbn [put_all].
  { by rewrite app_nil_r. }
  destruct rest as [|x rest]; cbn in Hl; [lia|]. rewrite put_at. cbn [mbind res_bind].
  rewrite IH by lia. by rewrite <- app_assoc.
Qed.

Lemma strcpy_at src pre rest :
  (length src < length rest)%nat ->
  strcpy_loop (at_text pre rest) src =
    Ok (at_text (pre ++ src ++ [0]) (drop (S (length src)) rest)).
Proof.
  revert pre rest. induction src as [|c src IH]; intros pre rest Hl; cbn [strcpy_loop];
    (destruct rest as [|x rest]; cbn in Hl; [lia|]); rewrite put_at; [done|].
  cbn [mbind res_bind]. rewrite IH by lia. rewrite <- !app_assoc. done.
Qed.

Lemma seek_end_at src fuel pre rest :
  Forall (fun c => c <> 0) src -> (length src < fuel)%nat ->
  seek_end fuel (pre ++ src ++ 0 :: rest, Z.of_nat (length pre)) =
    Ok (at_text (pre ++ src) (0 :: rest)).
Proof.
  intros Hs. revert fuel pre. induction Hs as [|c src Hc Hs IH]; intros fuel pre Hf;
    (destruct fuel as [|fuel]; [cbn in Hf; lia|]); cbn [seek_end fst snd app];
    rewrite load_app; cbn [mbind res_bind].
  - unfold at_text. by rewrite app_nil_r.
  - rewrite (proj2 (Z.eqb_neq _ _) Hc). cbn in Hf. specialize (IH fuel (pre ++ [c])).
    rewrite length_app in IH. cbn [length] in IH. rewrite <- !app_assoc in IH. cbn [app] in IH.
    replace (Z.of_nat (length pre + 1)) with (Z.of_nat (length pre) + 1) in IH by lia.
    apply IH. lia.
Qed.

(** [_strcpy] followed by the loop that finds the terminator. *)
Lemma copy_and_seek src pre rest :
  Forall (fun c => c <> 0) src -> (length src < length rest)%nat ->
  (d ← _strcpy (at_text pre rest) src; to_terminator d) =
    Ok (at_text (pre ++ src) (0 :: drop (S (length src)) rest)).
Proof.
  intros Hs Hl. unfold _strcpy. rewrite strcpy_at by done. cbn [mbind res_bind].
  unfold to_terminator. cbn [at_text fst snd]. rewrite <- !app_assoc. cbn [app].
  apply seek_end_at; [done|]. rewrite !length_app. cbn. lia.
Qed.

Definition arg_ok (a : varg) : Prop :=
  match a with VStr (Some t) => Forall (fun c => c <> 0) t | _ => True end.

Lemma dec_nonzero n : is_u64 n -> Forall (fun c => c <> 0) (dec n).
Proof.
  intros (_&_&H)%dec_spec. eapply Forall_impl; [exact H|]. unfold is_dec. intros. lia.
Qed.
Lemma hex_nonzero n : is_u64 n -> Forall (fun c => c <> 0) (hex n).
Proof.
  intros (_&_&H)%hex_spec. eapply Forall_impl; [exact H|]. unfold is_hex. intros. lia.
Qed.

(** Every conversion stores its text; all but ["%c"] leave a terminator. *)
Lemma number_at (b : res (list Z)) ds pre rest (args' : list varg) :
  b = Ok ds -> Forall (fun c => c <> 0) ds -> (length ds < length rest)%nat ->
  (d ← (buffer ← b; _strcpy (at_text pre rest) buffer); d ← to_terminator d; Ok (d, args')) =
    Ok (at_text (pre ++ ds) (0 :: drop (S (length ds)) rest), args').
Proof.
  intros -> Hn Hl. cbn [mbind res_bind]. pose proof (copy_and_seek ds pre rest Hn Hl) as H.
  apply bind_Ok in H as (d&->&H). cbn [mbind res_bind]. by rewrite H.
Qed.

Lemma sprint_conv_render c args t args' pre rest :
  render_conv true c args = Some (t, args') -> (forall a r, args = a :: r -> signed_ok c a) -> Forall arg_ok args ->
  (length t < length rest)%nat ->
  Forall arg_ok args' /\ exists rest',
    sprint_conv c (at_text pre rest) args = Ok (at_text (pre ++ t) rest', args') /\
    (length t + length rest' = length rest)%nat.
Proof.
  intros Hr Hs Hok Hl. destruct args as [|a args]; [by destruct c|]. specialize (Hs a args eq_refl).
  inversion Hok as [|?? Ha Hok']; subst.
  assert (args' = args) as -> by (destruct c, a as [|?|[|]]; cbn in Hr; by simplify_eq).
  split; [done|]. destruct (decide (c = CvC)) as [->|Hc].
  - destruct a; cbn in Hr; simplify_eq. destruct rest as [|x rest]; [cbn in Hl; lia|].
    exists rest. cbn [sprint_conv va_int mbind res_bind]. rewrite put_at. done.
  - exists (0 :: drop (S (length t)) rest). split; [|cbn; rewrite length_drop; lia].
    destruct c, a as [b|b|[s|]]; cbn in Hr; simplify_eq;
      cbn [sprint_conv va_int va_unsigned va_ulong va_str mbind res_bind];
      unfold decimal_to_string, hex_to_string; cbn in Hs; try signed_text Hs.
    1: match goal with |- context [_strcpy _ ?x] =>
         pose proof (copy_and_seek x pre rest Ha Hl) as H end;
       apply bind_Ok in H as (d&->&H); cbn [mbind res_bind]; by rewrite H.
    all: apply number_at; [apply dec_spec || apply hex_spec
                          |apply dec_nonzero || apply hex_nonzero|done];
      apply u64_is_u64 || apply u32_is_u64.
Qed.

Lemma vsnprintf_loop_render items args out fuel pre rest :
  format_ok items -> render true items args = Some out -> nonnegative items args -> Forall arg_ok args ->
  (length (format_text items) < fuel)%nat -> (length out < length rest)%nat ->
  exists rest', vsnprintf_loop fuel (at_text pre rest) (format_text items) args =
      Ok (at_text (pre ++ out) rest') /\ (length out + length rest' = length rest)%nat.
Proof.
  revert args out fuel pre rest.
  induction items as [|it items IH]; intros args out fuel pre rest Hok Hr Hng Ha Hf Hl;
    (destruct fuel as [|fuel]; [lia|]).
  { cbn in *. simplify_eq. exists rest. by rewrite app_nil_r. }
  destruct Hok as (Hit&Hok&Hadj). destruct it as [t|f c].
  - destruct Hit as [Hne Ht]. cbn in Hr. apply bind_Some in Hr as (o&Hr&[= <-]).
    change (format_text (Lit t :: items)) with (t ++ format_text items) in *.
    rewrite length_app in Hl, Hf |- *.
    destruct (IH args o fuel (pre ++ t) (drop (length t) rest) Hok Hr Hng Ha) as (rest'&E&Hlen).
    { destruct t; [done|]. cbn in Hf. lia. }
    { rewrite length_drop. lia. }
    exists rest'. rewrite length_drop in Hlen. rewrite app_assoc. split; [|lia].
    pose proof (literal_run_app t (format_text items) Ht) as Hlit.
    destruct t as [|x t]; [done|]. inversion Ht as [|?? Hx]; subst.
    cbn [vsnprintf_loop app]. rewrite (proj2 (Z.eqb_neq _ _) Hx).
    change (x :: t ++ format_text items) with ((x :: t) ++ format_text items).
    rewrite Hlit by (apply format_next; [done|by destruct items as [|[]]]).
    cbn beta iota. rewrite put_all_at by lia. cbn [mbind res_bind]. by rewrite E.
  - destruct Hit as [Hfl Hc]. cbn in Hr. apply bind_Some in Hr as ([t args']&Hrc&Hr).
    apply bind_Some in Hr as (o&Hr&[= <-]). rewrite length_app in Hl |- *.
    replace (format_text (Dir f c :: items))
      with (37 :: f ++ conv_text c ++ format_text items) in *
      by (unfold format_text; cbn; by rewrite <- app_assoc).
    destruct (scan_directive f c (format_text items) Hfl Hc) as [last Hsc].
    destruct (render_conv_args _ _ _ _ _ Hrc) as [a ->]. destruct Hng as [Hsa Hng].
    destruct (sprint_conv_render c (a :: args') t args' pre rest Hrc) as (Ha'&r&E1&Hl1); [by intros ? ? [= -> ->]|done|lia|].
    destruct (IH args' o fuel (pre ++ t) r Hok Hr Hng Ha') as (rest'&E&Hlen).
    { cbn in Hf. rewrite !length_app in Hf. lia. }
    { lia. }
    exists rest'. rewrite (app_assoc pre). split; [|lia].
    cbn [vsnprintf_loop]. change (37 =? 37) with true. cbn iota. rewrite Hsc.
    rewrite E1. cbn [mbind res_bind]. by rewrite E.
Qed.

(** ** Properties *)

(** [write_decimal] and [write_hex] print every [unsigned long]: the digits
    fit the local buffer, they are digits of the base, their value is the
    number; a decimal has no leading zero and a hexadecimal number is padded to
    eight digits, or to sixteen when it does not fit in 32 bits. *)
Theorem print_numbers_correct (stream n : Z) :
  is_u64 n ->
  (exists ds, write_decimal stream n = Ok (stream, ds) /\ dec_value ds = n /\
     Forall is_dec ds /\ (1 <= length ds <= 20)%nat /\ (0 < n -> head ds <> Some 48)) /\
  (exists ds, write_hex stream n = Ok (stream, ds) /\ hex_value ds = n /\
     Forall is_hex ds /\ length ds = hex_length n).
Proof.
  intros Hn. split.
  - destruct (decimal_buffer_spec n Hn) as (ds&E&H). exists ds. unfold write_decimal. by rewrite E.
  - destruct (hex_buffer_spec n Hn) as (ds&E&H). exists ds. unfold write_hex. by rewrite E.
Qed.

Lemma print_numbers_correct_witness :
  is_u64 48879 /\ exists ds, write_hex 1 48879 = Ok (1, ds) /\ hex_value ds = 48879 /\
    Forall is_hex ds /\ length ds = hex_length 48879.
Proof.
  assert (is_u64 48879) as H by (unfold is_u; lia).
  split; [exact H|]. apply (print_numbers_correct 1 48879 H).
Defined.

(** C6: [vfprintf] prints the format: for every sequence of literal text and
    directives whose arguments have the types the directives ask for and are not negative where
    the directive is signed, the bytes it writes to the stream, in order, are the literal text and
    the rendering of the arguments, and every write goes to that stream.  The digits of the
    rendering are those of the positional notation: decimals as [printf] prints them, hexadecimal
    numbers with eight digits or, when they need more, sixteen.  Flags and widths are skipped. *)
Theorem vfprintf_renders (stream : Z) (items : list item) (args : list varg) (out : list Z) :
  format_ok items -> nonnegative items args -> render false items args = Some out ->
  exists ws, vfprintf stream (format_text items) args = Ok ws /\
    concat (map snd ws) = out /\ Forall (fun w => w.1 = stream) ws.
Proof. intros Hok Hn Hr. apply vfprintf_loop_render; [done|done|done|lia]. Qed.

(** A negative number is printed as the unsigned number of 64 bits, where the rendering has a sign. *)
Theorem vfprintf_negative : vfprintf 1 (chars "%d") [VInt (-1)] = Ok [(1, chars "18446744073709551615")] /\
  render false [Dir [] CvD] [VInt (-1)] = Some (chars "-1").
Proof. vm_compute. done. Qed.
(** A width has no effect. *)
Theorem vfprintf_ignores_width : vfprintf 1 (chars "%5d|") [VInt 7] = vfprintf 1 (chars "%d|") [VInt 7].
Proof. vm_compute. done. Qed.

Definition sample_format : list item :=
  [Lit (chars "pc "); Dir (chars "-16") CvLX; Lit (chars " in "); Dir [] CvS; Dir [] CvD].

Lemma vfprintf_renders_witness :
  exists ws, vfprintf 2 (chars "pc %-16lx in %s%d") [VLong 4198400; VStr (Some (chars "main")); VInt 7]
      = Ok ws /\
    concat (map snd ws) = chars "pc 00401000 in main7" /\ Forall (fun w => w.1 = 2) ws.
Proof.
  apply (vfprintf_renders 2 sample_format).
  - repeat split; repeat constructor; done.
  - vm_compute. by split_and!.
  - vm_compute. reflexivity.
Defined.

(** [vsnprintf] stores the rendering of the format at the front of the
    array whenever the array has room for it and one byte more, without an
    access out of range and without changing the length of the array. *)
Theorem vsnprintf_renders (s : list Z) (size : Z) (items : list item) (args : list varg)
    (out : list Z) :
  format_ok items -> nonnegative items args -> render true items args = Some out -> Forall arg_ok args ->
  (length out < length s)%nat ->
  exists rest, vsnprintf s size (format_text items) args = Ok (out ++ rest) /\
    (length (out ++ rest) = length s)%nat.
Proof.
  intros Hok Hn Hr Ha Hl.
  destruct (vsnprintf_loop_render items args out (S (length (format_text items))) [] s
              Hok Hr Hn Ha ltac:(lia) Hl) as (rest&E&Hlen).
  exists rest. unfold vsnprintf. change (s, 0) with (at_text [] s). rewrite E.
  split; [done|]. rewrite length_app. lia.
Qed.

Lemma vsnprintf_renders_witness :
  exists rest, vsnprintf (repeat 1 32) 32 (chars "pc %-16lx in %s%d")
      [VLong 4198400; VStr (Some (chars "main")); VInt 7] =
      Ok (chars "pc 00401000 in main7" ++ rest) /\
    (length (chars "pc 00401000 in main7" ++ rest) = length (repeat 1 32))%nat.
Proof.
  apply (vsnprintf_renders (repeat 1 32) 32 sample_format).
  - repeat split; repeat constructor; done.
  - vm_compute. by split_and!.
  - vm_compute. reflexivity.
  - repeat constructor; cbn; try done; repeat constructor; done.
  - vm_compute. lia.
Defined.

(** [snprintf] does not honour [size]: literal text is stored in full
    whatever [size] is, and the byte after it keeps its old value, so that the
    result is not terminated. *)
Theorem snprintf_ignores_size (s t : list Z) (size : Z) :
  t <> [] -> Forall (fun c => c <> 37) t -> (length t <= length s)%nat ->
  snprintf s size t [] = Ok (t ++ drop (length t) s).
Proof.
  intros Hne Ht Hl. unfold snprintf, vsnprintf.
  pose proof (literal_run_app t [] Ht (or_introl eq_refl)) as Hlit. rewrite app_nil_r in Hlit.
  destruct t as [|x t]; [done|]. inversion Ht as [|?? Hx]; subst.
  cbn [vsnprintf_loop length]. rewrite (proj2 (Z.eqb_neq _ _) Hx), Hlit. cbn beta iota.
  change (s, 0) with (at_text [] s). rewrite put_all_at by done. done.
Qed.

Lemma snprintf_ignores_size_witness :
  snprintf (repeat 1 8) 2 (chars "abcdef") [] = Ok (chars "abcdef" ++ [1; 1]).
Proof.
  apply (snprintf_ignores_size (repeat 1 8) (chars "abcdef") 2);
    [done|repeat constructor; done|vm_compute; lia].
Defined.

(** A format whose last character is a percent sign, alone or followed by
    flags, makes [vfprintf] step over the terminator and read past the end of
    the format. *)
Theorem vfprintf_trailing_percent (stream : Z) (flags : list Z) (args : list varg) :
  Forall (fun c => is_flag c = true) flags ->
  vfprintf stream (37 :: flags) args = Err OutOfBounds.
Proof.
  intros Hf. unfold vfprintf. cbn [vfprintf_loop length]. change (37 =? 37) with true.
  cbn iota. pose proof (skip_flags_app flags [] Hf) as E. rewrite app_nil_r in E.
  by rewrite E.
Qed.

Lemma vfprintf_trailing_percent_witness :
  vfprintf 1 (chars "%10") [] = Err OutOfBounds.
Proof. apply (vfprintf_trailing_percent 1 (chars "10")). repeat constructor. Defined.
