(* ===== verification/RiscvTables.v ===== *)
(** * The RISC-V tables: src/disasm/riscv-disas.h and the data of riscv-disas.cpp

    The enumerations, the structures and the constant tables of the RISC-V
    disassembler.  The tables keep their terminators ([rvc_end], the entry with
    a null constraint list) and are indexed by the number of an opcode, as the
    code indexes them, so that the alignment of tables and enumerations is a
    theorem and not an assumption. *)

From S2P Require Import Prelude.

(** ** Enumerations *)

Inductive rv_isa : Type :=
  | rv32 | rv64 | rv128.

Inductive rv_rm : Type :=
  | rv_rm_rne | rv_rm_rtz | rv_rm_rdn | rv_rm_rup | rv_rm_rmm | rv_rm_dyn.

(** The values of the enumerators. *)
Definition rv_rm_num (x : rv_rm) : Z :=
  match x with
  | rv_rm_rne => 0 | rv_rm_rtz => 1 | rv_rm_rdn => 2 | rv_rm_rup => 3 | rv_rm_rmm => 4
  | rv_rm_dyn => 7
  end.

Inductive rv_fence : Type :=
  | rv_fence_i | rv_fence_o | rv_fence_r | rv_fence_w.

(** The values of the enumerators. *)
Definition rv_fence_num (x : rv_fence) : Z :=
  match x with
  | rv_fence_i => 8 | rv_fence_o => 4 | rv_fence_r => 2 | rv_fence_w => 1
  end.

Inductive rv_reg : Type :=
  | rv_ireg_zero | rv_ireg_ra | rv_ireg_sp | rv_ireg_gp | rv_ireg_tp | rv_ireg_t0
  | rv_ireg_t1 | rv_ireg_t2 | rv_ireg_s0 | rv_ireg_s1 | rv_ireg_a0 | rv_ireg_a1
  | rv_ireg_a2 | rv_ireg_a3 | rv_ireg_a4 | rv_ireg_a5 | rv_ireg_a6 | rv_ireg_a7
  | rv_ireg_s2 | rv_ireg_s3 | rv_ireg_s4 | rv_ireg_s5 | rv_ireg_s6 | rv_ireg_s7
  | rv_ireg_s8 | rv_ireg_s9 | rv_ireg_s10 | rv_ireg_s11 | rv_ireg_t3 | rv_ireg_t4
  | rv_ireg_t5 | rv_ireg_t6 | rv_freg_ft0 | rv_freg_ft1 | rv_freg_ft2 | rv_freg_ft3
  | rv_freg_ft4 | rv_freg_ft5 | rv_freg_ft6 | rv_freg_ft7 | rv_freg_fs0 | rv_freg_fs1
  | rv_freg_fa0 | rv_freg_fa1 | rv_freg_fa2 | rv_freg_fa3 | rv_freg_fa4 | rv_freg_fa5
  | rv_freg_fa6 | rv_freg_fa7 | rv_freg_fs2 | rv_freg_fs3 | rv_freg_fs4 | rv_freg_fs5
  | rv_freg_fs6 | rv_freg_fs7 | rv_freg_fs8 | rv_freg_fs9 | rv_freg_fs10 | rv_freg_fs11
  | rv_freg_ft8 | rv_freg_ft9 | rv_freg_ft10 | rv_freg_ft11 | rv_reg_ending
  | rv_reg_invalid.

(** The values of the enumerators. *)
Definition rv_reg_num (x : rv_reg) : Z :=
  match x with
  | rv_ireg_zero => 0 | rv_ireg_ra => 1 | rv_ireg_sp => 2 | rv_ireg_gp => 3
  | rv_ireg_tp => 4 | rv_ireg_t0 => 5 | rv_ireg_t1 => 6 | rv_ireg_t2 => 7 | rv_ireg_s0 => 8
  | rv_ireg_s1 => 9 | rv_ireg_a0 => 10 | rv_ireg_a1 => 11 | rv_ireg_a2 => 12
  | rv_ireg_a3 => 13 | rv_ireg_a4 => 14 | rv_ireg_a5 => 15 | rv_ireg_a6 => 16
  | rv_ireg_a7 => 17 | rv_ireg_s2 => 18 | rv_ireg_s3 => 19 | rv_ireg_s4 => 20
  | rv_ireg_s5 => 21 | rv_ireg_s6 => 22 | rv_ireg_s7 => 23 | rv_ireg_s8 => 24
  | rv_ireg_s9 => 25 | rv_ireg_s10 => 26 | rv_ireg_s11 => 27 | rv_ireg_t3 => 28
  | rv_ireg_t4 => 29 | rv_ireg_t5 => 30 | rv_ireg_t6 => 31 | rv_freg_ft0 => 128
  | rv_freg_ft1 => 129 | rv_freg_ft2 => 130 | rv_freg_ft3 => 131 | rv_freg_ft4 => 132
  | rv_freg_ft5 => 133 | rv_freg_ft6 => 134 | rv_freg_ft7 => 135 | rv_freg_fs0 => 136
  | rv_freg_fs1 => 137 | rv_freg_fa0 => 138 | rv_freg_fa1 => 139 | rv_freg_fa2 => 140
  | rv_freg_fa3 => 141 | rv_freg_fa4 => 142 | rv_freg_fa5 => 143 | rv_freg_fa6 => 144
  | rv_freg_fa7 => 145 | rv_freg_fs2 => 146 | rv_freg_fs3 => 147 | rv_freg_fs4 => 148
  | rv_freg_fs5 => 149 | rv_freg_fs6 => 150 | rv_freg_fs7 => 151 | rv_freg_fs8 => 152
  | rv_freg_fs9 => 153 | rv_freg_fs10 => 154 | rv_freg_fs11 => 155 | rv_freg_ft8 => 156
  | rv_freg_ft9 => 157 | rv_freg_ft10 => 158 | rv_freg_ft11 => 159 | rv_reg_ending => 160
  | rv_reg_invalid => (-1)
  end.

Definition rv_freg_base : Z := 128.

Definition rv_regs : list rv_reg :=
  [rv_ireg_zero; rv_ireg_ra; rv_ireg_sp; rv_ireg_gp; rv_ireg_tp; rv_ireg_t0; rv_ireg_t1;
  rv_ireg_t2; rv_ireg_s0; rv_ireg_s1; rv_ireg_a0; rv_ireg_a1; rv_ireg_a2; rv_ireg_a3;
  rv_ireg_a4; rv_ireg_a5; rv_ireg_a6; rv_ireg_a7; rv_ireg_s2; rv_ireg_s3; rv_ireg_s4;
  rv_ireg_s5; rv_ireg_s6; rv_ireg_s7; rv_ireg_s8; rv_ireg_s9; rv_ireg_s10; rv_ireg_s11;
  rv_ireg_t3; rv_ireg_t4; rv_ireg_t5; rv_ireg_t6; rv_freg_ft0; rv_freg_ft1; rv_freg_ft2;
  rv_freg_ft3; rv_freg_ft4; rv_freg_ft5; rv_freg_ft6; rv_freg_ft7; rv_freg_fs0;
  rv_freg_fs1; rv_freg_fa0; rv_freg_fa1; rv_freg_fa2; rv_freg_fa3; rv_freg_fa4;
  rv_freg_fa5; rv_freg_fa6; rv_freg_fa7; rv_freg_fs2; rv_freg_fs3; rv_freg_fs4;
  rv_freg_fs5; rv_freg_fs6; rv_freg_fs7; rv_freg_fs8; rv_freg_fs9; rv_freg_fs10;
  rv_freg_fs11; rv_freg_ft8; rv_freg_ft9; rv_freg_ft10; rv_freg_ft11; rv_reg_ending;
  rv_reg_invalid].

Inductive rvc_constraint : Type :=
  | rvc_end | rvc_rd_eq_ra | rvc_rd_eq_x0 | rvc_rs1_eq_x0 | rvc_rs2_eq_x0 | rvc_rs2_eq_rs1
  | rvc_rs1_eq_ra | rvc_imm_eq_zero | rvc_imm_eq_n1 | rvc_imm_eq_p1 | rvc_csr_eq_0x001
  | rvc_csr_eq_0x002 | rvc_csr_eq_0x003 | rvc_csr_eq_0xc00 | rvc_csr_eq_0xc01
  | rvc_csr_eq_0xc02 | rvc_csr_eq_0xc80 | rvc_csr_eq_0xc81 | rvc_csr_eq_0xc82.

Inductive rv_codec : Type :=
  | rv_codec_illegal | rv_codec_none | rv_codec_u | rv_codec_uj | rv_codec_i
  | rv_codec_i_sh5 | rv_codec_i_sh6 | rv_codec_i_sh7 | rv_codec_i_csr | rv_codec_s
  | rv_codec_sb | rv_codec_r | rv_codec_r_m | rv_codec_r4_m | rv_codec_r_a | rv_codec_r_l
  | rv_codec_r_f | rv_codec_cb | rv_codec_cb_imm | rv_codec_cb_sh5 | rv_codec_cb_sh6
  | rv_codec_ci | rv_codec_ci_sh5 | rv_codec_ci_sh6 | rv_codec_ci_16sp | rv_codec_ci_lwsp
  | rv_codec_ci_ldsp | rv_codec_ci_lqsp | rv_codec_ci_li | rv_codec_ci_lui
  | rv_codec_ci_none | rv_codec_ciw_4spn | rv_codec_cj | rv_codec_cj_jal | rv_codec_cl_lw
  | rv_codec_cl_ld | rv_codec_cl_lq | rv_codec_cr | rv_codec_cr_mv | rv_codec_cr_jalr
  | rv_codec_cr_jr | rv_codec_cs | rv_codec_cs_sw | rv_codec_cs_sd | rv_codec_cs_sq
  | rv_codec_css_swsp | rv_codec_css_sdsp | rv_codec_css_sqsp.

Inductive rv_op : Type :=
  | rv_op_illegal | rv_op_lui | rv_op_auipc | rv_op_jal | rv_op_jalr | rv_op_beq
  | rv_op_bne | rv_op_blt | rv_op_bge | rv_op_bltu | rv_op_bgeu | rv_op_lb | rv_op_lh
  | rv_op_lw | rv_op_lbu | rv_op_lhu | rv_op_sb | rv_op_sh | rv_op_sw | rv_op_addi
  | rv_op_slti | rv_op_sltiu | rv_op_xori | rv_op_ori | rv_op_andi | rv_op_slli
  | rv_op_srli | rv_op_srai | rv_op_add | rv_op_sub | rv_op_sll | rv_op_slt | rv_op_sltu
  | rv_op_xor | rv_op_srl | rv_op_sra | rv_op_or | rv_op_and | rv_op_fence | rv_op_fence_i
  | rv_op_lwu | rv_op_ld | rv_op_sd | rv_op_addiw | rv_op_slliw | rv_op_srliw | rv_op_sraiw
  | rv_op_addw | rv_op_subw | rv_op_sllw | rv_op_srlw | rv_op_sraw | rv_op_ldu | rv_op_lq
  | rv_op_sq | rv_op_addid | rv_op_sllid | rv_op_srlid | rv_op_sraid | rv_op_addd
  | rv_op_subd | rv_op_slld | rv_op_srld | rv_op_srad | rv_op_mul | rv_op_mulh
  | rv_op_mulhsu | rv_op_mulhu | rv_op_div | rv_op_divu | rv_op_rem | rv_op_remu
  | rv_op_mulw | rv_op_divw | rv_op_divuw | rv_op_remw | rv_op_remuw | rv_op_muld
  | rv_op_divd | rv_op_divud | rv_op_remd | rv_op_remud | rv_op_lr_w | rv_op_sc_w
  | rv_op_amoswap_w | rv_op_amoadd_w | rv_op_amoxor_w | rv_op_amoor_w | rv_op_amoand_w
  | rv_op_amomin_w | rv_op_amomax_w | rv_op_amominu_w | rv_op_amomaxu_w | rv_op_lr_d
  | rv_op_sc_d | rv_op_amoswap_d | rv_op_amoadd_d | rv_op_amoxor_d | rv_op_amoor_d
  | rv_op_amoand_d | rv_op_amomin_d | rv_op_amomax_d | rv_op_amominu_d | rv_op_amomaxu_d
  | rv_op_lr_q | rv_op_sc_q | rv_op_amoswap_q | rv_op_amoadd_q | rv_op_amoxor_q
  | rv_op_amoor_q | rv_op_amoand_q | rv_op_amomin_q | rv_op_amomax_q | rv_op_amominu_q
  | rv_op_amomaxu_q | rv_op_ecall | rv_op_ebreak | rv_op_uret | rv_op_sret | rv_op_hret
  | rv_op_mret | rv_op_dret | rv_op_sfence_vm | rv_op_sfence_vma | rv_op_wfi | rv_op_csrrw
  | rv_op_csrrs | rv_op_csrrc | rv_op_csrrwi | rv_op_csrrsi | rv_op_csrrci | rv_op_flw
  | rv_op_fsw | rv_op_fmadd_s | rv_op_fmsub_s | rv_op_fnmsub_s | rv_op_fnmadd_s
  | rv_op_fadd_s | rv_op_fsub_s | rv_op_fmul_s | rv_op_fdiv_s | rv_op_fsgnj_s
  | rv_op_fsgnjn_s | rv_op_fsgnjx_s | rv_op_fmin_s | rv_op_fmax_s | rv_op_fsqrt_s
  | rv_op_fle_s | rv_op_flt_s | rv_op_feq_s | rv_op_fcvt_w_s | rv_op_fcvt_wu_s
  | rv_op_fcvt_s_w | rv_op_fcvt_s_wu | rv_op_fmv_x_s | rv_op_fclass_s | rv_op_fmv_s_x
  | rv_op_fcvt_l_s | rv_op_fcvt_lu_s | rv_op_fcvt_s_l | rv_op_fcvt_s_lu | rv_op_fld
  | rv_op_fsd | rv_op_fmadd_d | rv_op_fmsub_d | rv_op_fnmsub_d | rv_op_fnmadd_d
  | rv_op_fadd_d | rv_op_fsub_d | rv_op_fmul_d | rv_op_fdiv_d | rv_op_fsgnj_d
  | rv_op_fsgnjn_d | rv_op_fsgnjx_d | rv_op_fmin_d | rv_op_fmax_d | rv_op_fcvt_s_d
  | rv_op_fcvt_d_s | rv_op_fsqrt_d | rv_op_fle_d | rv_op_flt_d | rv_op_feq_d
  | rv_op_fcvt_w_d | rv_op_fcvt_wu_d | rv_op_fcvt_d_w | rv_op_fcvt_d_wu | rv_op_fclass_d
  | rv_op_fcvt_l_d | rv_op_fcvt_lu_d | rv_op_fmv_x_d | rv_op_fcvt_d_l | rv_op_fcvt_d_lu
  | rv_op_fmv_d_x | rv_op_flq | rv_op_fsq | rv_op_fmadd_q | rv_op_fmsub_q | rv_op_fnmsub_q
  | rv_op_fnmadd_q | rv_op_fadd_q | rv_op_fsub_q | rv_op_fmul_q | rv_op_fdiv_q
  | rv_op_fsgnj_q | rv_op_fsgnjn_q | rv_op_fsgnjx_q | rv_op_fmin_q | rv_op_fmax_q
  | rv_op_fcvt_s_q | rv_op_fcvt_q_s | rv_op_fcvt_d_q | rv_op_fcvt_q_d | rv_op_fsqrt_q
  | rv_op_fle_q | rv_op_flt_q | rv_op_feq_q | rv_op_fcvt_w_q | rv_op_fcvt_wu_q
  | rv_op_fcvt_q_w | rv_op_fcvt_q_wu | rv_op_fclass_q | rv_op_fcvt_l_q | rv_op_fcvt_lu_q
  | rv_op_fcvt_q_l | rv_op_fcvt_q_lu | rv_op_fmv_x_q | rv_op_fmv_q_x | rv_op_c_addi4spn
  | rv_op_c_fld | rv_op_c_lw | rv_op_c_flw | rv_op_c_fsd | rv_op_c_sw | rv_op_c_fsw
  | rv_op_c_nop | rv_op_c_addi | rv_op_c_jal | rv_op_c_li | rv_op_c_addi16sp | rv_op_c_lui
  | rv_op_c_srli | rv_op_c_srai | rv_op_c_andi | rv_op_c_sub | rv_op_c_xor | rv_op_c_or
  | rv_op_c_and | rv_op_c_subw | rv_op_c_addw | rv_op_c_j | rv_op_c_beqz | rv_op_c_bnez
  | rv_op_c_slli | rv_op_c_fldsp | rv_op_c_lwsp | rv_op_c_flwsp | rv_op_c_jr | rv_op_c_mv
  | rv_op_c_ebreak | rv_op_c_jalr | rv_op_c_add | rv_op_c_fsdsp | rv_op_c_swsp
  | rv_op_c_fswsp | rv_op_c_ld | rv_op_c_sd | rv_op_c_addiw | rv_op_c_ldsp | rv_op_c_sdsp
  | rv_op_c_lq | rv_op_c_sq | rv_op_c_lqsp | rv_op_c_sqsp | rv_op_nop | rv_op_mv
  | rv_op_not | rv_op_neg | rv_op_negw | rv_op_sext_w | rv_op_seqz | rv_op_snez
  | rv_op_sltz | rv_op_sgtz | rv_op_fmv_s | rv_op_fabs_s | rv_op_fneg_s | rv_op_fmv_d
  | rv_op_fabs_d | rv_op_fneg_d | rv_op_fmv_q | rv_op_fabs_q | rv_op_fneg_q | rv_op_beqz
  | rv_op_bnez | rv_op_blez | rv_op_bgez | rv_op_bltz | rv_op_bgtz | rv_op_ble | rv_op_bleu
  | rv_op_bgt | rv_op_bgtu | rv_op_j | rv_op_ret | rv_op_jr | rv_op_rdcycle | rv_op_rdtime
  | rv_op_rdinstret | rv_op_rdcycleh | rv_op_rdtimeh | rv_op_rdinstreth | rv_op_frcsr
  | rv_op_frrm | rv_op_frflags | rv_op_fscsr | rv_op_fsrm | rv_op_fsflags | rv_op_fsrmi
  | rv_op_fsflagsi.

(** The values of the enumerators. *)
Definition rv_op_num (x : rv_op) : Z :=
  match x with
  | rv_op_illegal => 0 | rv_op_lui => 1 | rv_op_auipc => 2 | rv_op_jal => 3
  | rv_op_jalr => 4 | rv_op_beq => 5 | rv_op_bne => 6 | rv_op_blt => 7 | rv_op_bge => 8
  | rv_op_bltu => 9 | rv_op_bgeu => 10 | rv_op_lb => 11 | rv_op_lh => 12 | rv_op_lw => 13
  | rv_op_lbu => 14 | rv_op_lhu => 15 | rv_op_sb => 16 | rv_op_sh => 17 | rv_op_sw => 18
  | rv_op_addi => 19 | rv_op_slti => 20 | rv_op_sltiu => 21 | rv_op_xori => 22
  | rv_op_ori => 23 | rv_op_andi => 24 | rv_op_slli => 25 | rv_op_srli => 26
  | rv_op_srai => 27 | rv_op_add => 28 | rv_op_sub => 29 | rv_op_sll => 30
  | rv_op_slt => 31 | rv_op_sltu => 32 | rv_op_xor => 33 | rv_op_srl => 34
  | rv_op_sra => 35 | rv_op_or => 36 | rv_op_and => 37 | rv_op_fence => 38
  | rv_op_fence_i => 39 | rv_op_lwu => 40 | rv_op_ld => 41 | rv_op_sd => 42
  | rv_op_addiw => 43 | rv_op_slliw => 44 | rv_op_srliw => 45 | rv_op_sraiw => 46
  | rv_op_addw => 47 | rv_op_subw => 48 | rv_op_sllw => 49 | rv_op_srlw => 50
  | rv_op_sraw => 51 | rv_op_ldu => 52 | rv_op_lq => 53 | rv_op_sq => 54
  | rv_op_addid => 55 | rv_op_sllid => 56 | rv_op_srlid => 57 | rv_op_sraid => 58
  | rv_op_addd => 59 | rv_op_subd => 60 | rv_op_slld => 61 | rv_op_srld => 62
  | rv_op_srad => 63 | rv_op_mul => 64 | rv_op_mulh => 65 | rv_op_mulhsu => 66
  | rv_op_mulhu => 67 | rv_op_div => 68 | rv_op_divu => 69 | rv_op_rem => 70
  | rv_op_remu => 71 | rv_op_mulw => 72 | rv_op_divw => 73 | rv_op_divuw => 74
  | rv_op_remw => 75 | rv_op_remuw => 76 | rv_op_muld => 77 | rv_op_divd => 78
  | rv_op_divud => 79 | rv_op_remd => 80 | rv_op_remud => 81 | rv_op_lr_w => 82
  | rv_op_sc_w => 83 | rv_op_amoswap_w => 84 | rv_op_amoadd_w => 85 | rv_op_amoxor_w => 86
  | rv_op_amoor_w => 87 | rv_op_amoand_w => 88 | rv_op_amomin_w => 89
  | rv_op_amomax_w => 90 | rv_op_amominu_w => 91 | rv_op_amomaxu_w => 92 | rv_op_lr_d => 93
  | rv_op_sc_d => 94 | rv_op_amoswap_d => 95 | rv_op_amoadd_d => 96 | rv_op_amoxor_d => 97
  | rv_op_amoor_d => 98 | rv_op_amoand_d => 99 | rv_op_amomin_d => 100
  | rv_op_amomax_d => 101 | rv_op_amominu_d => 102 | rv_op_amomaxu_d => 103
  | rv_op_lr_q => 104 | rv_op_sc_q => 105 | rv_op_amoswap_q => 106 | rv_op_amoadd_q => 107
  | rv_op_amoxor_q => 108 | rv_op_amoor_q => 109 | rv_op_amoand_q => 110
  | rv_op_amomin_q => 111 | rv_op_amomax_q => 112 | rv_op_amominu_q => 113
  | rv_op_amomaxu_q => 114 | rv_op_ecall => 115 | rv_op_ebreak => 116 | rv_op_uret => 117
  | rv_op_sret => 118 | rv_op_hret => 119 | rv_op_mret => 120 | rv_op_dret => 121
  | rv_op_sfence_vm => 122 | rv_op_sfence_vma => 123 | rv_op_wfi => 124
  | rv_op_csrrw => 125 | rv_op_csrrs => 126 | rv_op_csrrc => 127 | rv_op_csrrwi => 128
  | rv_op_csrrsi => 129 | rv_op_csrrci => 130 | rv_op_flw => 131 | rv_op_fsw => 132
  | rv_op_fmadd_s => 133 | rv_op_fmsub_s => 134 | rv_op_fnmsub_s => 135
  | rv_op_fnmadd_s => 136 | rv_op_fadd_s => 137 | rv_op_fsub_s => 138 | rv_op_fmul_s => 139
  | rv_op_fdiv_s => 140 | rv_op_fsgnj_s => 141 | rv_op_fsgnjn_s => 142
  | rv_op_fsgnjx_s => 143 | rv_op_fmin_s => 144 | rv_op_fmax_s => 145
  | rv_op_fsqrt_s => 146 | rv_op_fle_s => 147 | rv_op_flt_s => 148 | rv_op_feq_s => 149
  | rv_op_fcvt_w_s => 150 | rv_op_fcvt_wu_s => 151 | rv_op_fcvt_s_w => 152
  | rv_op_fcvt_s_wu => 153 | rv_op_fmv_x_s => 154 | rv_op_fclass_s => 155
  | rv_op_fmv_s_x => 156 | rv_op_fcvt_l_s => 157 | rv_op_fcvt_lu_s => 158
  | rv_op_fcvt_s_l => 159 | rv_op_fcvt_s_lu => 160 | rv_op_fld => 161 | rv_op_fsd => 162
  | rv_op_fmadd_d => 163 | rv_op_fmsub_d => 164 | rv_op_fnmsub_d => 165
  | rv_op_fnmadd_d => 166 | rv_op_fadd_d => 167 | rv_op_fsub_d => 168 | rv_op_fmul_d => 169
  | rv_op_fdiv_d => 170 | rv_op_fsgnj_d => 171 | rv_op_fsgnjn_d => 172
  | rv_op_fsgnjx_d => 173 | rv_op_fmin_d => 174 | rv_op_fmax_d => 175
  | rv_op_fcvt_s_d => 176 | rv_op_fcvt_d_s => 177 | rv_op_fsqrt_d => 178
  | rv_op_fle_d => 179 | rv_op_flt_d => 180 | rv_op_feq_d => 181 | rv_op_fcvt_w_d => 182
  | rv_op_fcvt_wu_d => 183 | rv_op_fcvt_d_w => 184 | rv_op_fcvt_d_wu => 185
  | rv_op_fclass_d => 186 | rv_op_fcvt_l_d => 187 | rv_op_fcvt_lu_d => 188
  | rv_op_fmv_x_d => 189 | rv_op_fcvt_d_l => 190 | rv_op_fcvt_d_lu => 191
  | rv_op_fmv_d_x => 192 | rv_op_flq => 193 | rv_op_fsq => 194 | rv_op_fmadd_q => 195
  | rv_op_fmsub_q => 196 | rv_op_fnmsub_q => 197 | rv_op_fnmadd_q => 198
  | rv_op_fadd_q => 199 | rv_op_fsub_q => 200 | rv_op_fmul_q => 201 | rv_op_fdiv_q => 202
  | rv_op_fsgnj_q => 203 | rv_op_fsgnjn_q => 204 | rv_op_fsgnjx_q => 205
  | rv_op_fmin_q => 206 | rv_op_fmax_q => 207 | rv_op_fcvt_s_q => 208
  | rv_op_fcvt_q_s => 209 | rv_op_fcvt_d_q => 210 | rv_op_fcvt_q_d => 211
  | rv_op_fsqrt_q => 212 | rv_op_fle_q => 213 | rv_op_flt_q => 214 | rv_op_feq_q => 215
  | rv_op_fcvt_w_q => 216 | rv_op_fcvt_wu_q => 217 | rv_op_fcvt_q_w => 218
  | rv_op_fcvt_q_wu => 219 | rv_op_fclass_q => 220 | rv_op_fcvt_l_q => 221
  | rv_op_fcvt_lu_q => 222 | rv_op_fcvt_q_l => 223 | rv_op_fcvt_q_lu => 224
  | rv_op_fmv_x_q => 225 | rv_op_fmv_q_x => 226 | rv_op_c_addi4spn => 227
  | rv_op_c_fld => 228 | rv_op_c_lw => 229 | rv_op_c_flw => 230 | rv_op_c_fsd => 231
  | rv_op_c_sw => 232 | rv_op_c_fsw => 233 | rv_op_c_nop => 234 | rv_op_c_addi => 235
  | rv_op_c_jal => 236 | rv_op_c_li => 237 | rv_op_c_addi16sp => 238 | rv_op_c_lui => 239
  | rv_op_c_srli => 240 | rv_op_c_srai => 241 | rv_op_c_andi => 242 | rv_op_c_sub => 243
  | rv_op_c_xor => 244 | rv_op_c_or => 245 | rv_op_c_and => 246 | rv_op_c_subw => 247
  | rv_op_c_addw => 248 | rv_op_c_j => 249 | rv_op_c_beqz => 250 | rv_op_c_bnez => 251
  | rv_op_c_slli => 252 | rv_op_c_fldsp => 253 | rv_op_c_lwsp => 254 | rv_op_c_flwsp => 255
  | rv_op_c_jr => 256 | rv_op_c_mv => 257 | rv_op_c_ebreak => 258 | rv_op_c_jalr => 259
  | rv_op_c_add => 260 | rv_op_c_fsdsp => 261 | rv_op_c_swsp => 262 | rv_op_c_fswsp => 263
  | rv_op_c_ld => 264 | rv_op_c_sd => 265 | rv_op_c_addiw => 266 | rv_op_c_ldsp => 267
  | rv_op_c_sdsp => 268 | rv_op_c_lq => 269 | rv_op_c_sq => 270 | rv_op_c_lqsp => 271
  | rv_op_c_sqsp => 272 | rv_op_nop => 273 | rv_op_mv => 274 | rv_op_not => 275
  | rv_op_neg => 276 | rv_op_negw => 277 | rv_op_sext_w => 278 | rv_op_seqz => 279
  | rv_op_snez => 280 | rv_op_sltz => 281 | rv_op_sgtz => 282 | rv_op_fmv_s => 283
  | rv_op_fabs_s => 284 | rv_op_fneg_s => 285 | rv_op_fmv_d => 286 | rv_op_fabs_d => 287
  | rv_op_fneg_d => 288 | rv_op_fmv_q => 289 | rv_op_fabs_q => 290 | rv_op_fneg_q => 291
  | rv_op_beqz => 292 | rv_op_bnez => 293 | rv_op_blez => 294 | rv_op_bgez => 295
  | rv_op_bltz => 296 | rv_op_bgtz => 297 | rv_op_ble => 298 | rv_op_bleu => 299
  | rv_op_bgt => 300 | rv_op_bgtu => 301 | rv_op_j => 302 | rv_op_ret => 303
  | rv_op_jr => 304 | rv_op_rdcycle => 305 | rv_op_rdtime => 306 | rv_op_rdinstret => 307
  | rv_op_rdcycleh => 308 | rv_op_rdtimeh => 309 | rv_op_rdinstreth => 310
  | rv_op_frcsr => 311 | rv_op_frrm => 312 | rv_op_frflags => 313 | rv_op_fscsr => 314
  | rv_op_fsrm => 315 | rv_op_fsflags => 316 | rv_op_fsrmi => 317 | rv_op_fsflagsi => 318
  end.

Definition rv_ops : list rv_op :=
  [rv_op_illegal; rv_op_lui; rv_op_auipc; rv_op_jal; rv_op_jalr; rv_op_beq; rv_op_bne;
  rv_op_blt; rv_op_bge; rv_op_bltu; rv_op_bgeu; rv_op_lb; rv_op_lh; rv_op_lw; rv_op_lbu;
  rv_op_lhu; rv_op_sb; rv_op_sh; rv_op_sw; rv_op_addi; rv_op_slti; rv_op_sltiu; rv_op_xori;
  rv_op_ori; rv_op_andi; rv_op_slli; rv_op_srli; rv_op_srai; rv_op_add; rv_op_sub;
  rv_op_sll; rv_op_slt; rv_op_sltu; rv_op_xor; rv_op_srl; rv_op_sra; rv_op_or; rv_op_and;
  rv_op_fence; rv_op_fence_i; rv_op_lwu; rv_op_ld; rv_op_sd; rv_op_addiw; rv_op_slliw;
  rv_op_srliw; rv_op_sraiw; rv_op_addw; rv_op_subw; rv_op_sllw; rv_op_srlw; rv_op_sraw;
  rv_op_ldu; rv_op_lq; rv_op_sq; rv_op_addid; rv_op_sllid; rv_op_srlid; rv_op_sraid;
  rv_op_addd; rv_op_subd; rv_op_slld; rv_op_srld; rv_op_srad; rv_op_mul; rv_op_mulh;
  rv_op_mulhsu; rv_op_mulhu; rv_op_div; rv_op_divu; rv_op_rem; rv_op_remu; rv_op_mulw;
  rv_op_divw; rv_op_divuw; rv_op_remw; rv_op_remuw; rv_op_muld; rv_op_divd; rv_op_divud;
  rv_op_remd; rv_op_remud; rv_op_lr_w; rv_op_sc_w; rv_op_amoswap_w; rv_op_amoadd_w;
  rv_op_amoxor_w; rv_op_amoor_w; rv_op_amoand_w; rv_op_amomin_w; rv_op_amomax_w;
  rv_op_amominu_w; rv_op_amomaxu_w; rv_op_lr_d; rv_op_sc_d; rv_op_amoswap_d;
  rv_op_amoadd_d; rv_op_amoxor_d; rv_op_amoor_d; rv_op_amoand_d; rv_op_amomin_d;
  rv_op_amomax_d; rv_op_amominu_d; rv_op_amomaxu_d; rv_op_lr_q; rv_op_sc_q;
  rv_op_amoswap_q; rv_op_amoadd_q; rv_op_amoxor_q; rv_op_amoor_q; rv_op_amoand_q;
  rv_op_amomin_q; rv_op_amomax_q; rv_op_amominu_q; rv_op_amomaxu_q; rv_op_ecall;
  rv_op_ebreak; rv_op_uret; rv_op_sret; rv_op_hret; rv_op_mret; rv_op_dret;
  rv_op_sfence_vm; rv_op_sfence_vma; rv_op_wfi; rv_op_csrrw; rv_op_csrrs; rv_op_csrrc;
  rv_op_csrrwi; rv_op_csrrsi; rv_op_csrrci; rv_op_flw; rv_op_fsw; rv_op_fmadd_s;
  rv_op_fmsub_s; rv_op_fnmsub_s; rv_op_fnmadd_s; rv_op_fadd_s; rv_op_fsub_s; rv_op_fmul_s;
  rv_op_fdiv_s; rv_op_fsgnj_s; rv_op_fsgnjn_s; rv_op_fsgnjx_s; rv_op_fmin_s; rv_op_fmax_s;
  rv_op_fsqrt_s; rv_op_fle_s; rv_op_flt_s; rv_op_feq_s; rv_op_fcvt_w_s; rv_op_fcvt_wu_s;
  rv_op_fcvt_s_w; rv_op_fcvt_s_wu; rv_op_fmv_x_s; rv_op_fclass_s; rv_op_fmv_s_x;
  rv_op_fcvt_l_s; rv_op_fcvt_lu_s; rv_op_fcvt_s_l; rv_op_fcvt_s_lu; rv_op_fld; rv_op_fsd;
  rv_op_fmadd_d; rv_op_fmsub_d; rv_op_fnmsub_d; rv_op_fnmadd_d; rv_op_fadd_d; rv_op_fsub_d;
  rv_op_fmul_d; rv_op_fdiv_d; rv_op_fsgnj_d; rv_op_fsgnjn_d; rv_op_fsgnjx_d; rv_op_fmin_d;
  rv_op_fmax_d; rv_op_fcvt_s_d; rv_op_fcvt_d_s; rv_op_fsqrt_d; rv_op_fle_d; rv_op_flt_d;
  rv_op_feq_d; rv_op_fcvt_w_d; rv_op_fcvt_wu_d; rv_op_fcvt_d_w; rv_op_fcvt_d_wu;
  rv_op_fclass_d; rv_op_fcvt_l_d; rv_op_fcvt_lu_d; rv_op_fmv_x_d; rv_op_fcvt_d_l;
  rv_op_fcvt_d_lu; rv_op_fmv_d_x; rv_op_flq; rv_op_fsq; rv_op_fmadd_q; rv_op_fmsub_q;
  rv_op_fnmsub_q; rv_op_fnmadd_q; rv_op_fadd_q; rv_op_fsub_q; rv_op_fmul_q; rv_op_fdiv_q;
  rv_op_fsgnj_q; rv_op_fsgnjn_q; rv_op_fsgnjx_q; rv_op_fmin_q; rv_op_fmax_q;
  rv_op_fcvt_s_q; rv_op_fcvt_q_s; rv_op_fcvt_d_q; rv_op_fcvt_q_d; rv_op_fsqrt_q;
  rv_op_fle_q; rv_op_flt_q; rv_op_feq_q; rv_op_fcvt_w_q; rv_op_fcvt_wu_q; rv_op_fcvt_q_w;
  rv_op_fcvt_q_wu; rv_op_fclass_q; rv_op_fcvt_l_q; rv_op_fcvt_lu_q; rv_op_fcvt_q_l;
  rv_op_fcvt_q_lu; rv_op_fmv_x_q; rv_op_fmv_q_x; rv_op_c_addi4spn; rv_op_c_fld; rv_op_c_lw;
  rv_op_c_flw; rv_op_c_fsd; rv_op_c_sw; rv_op_c_fsw; rv_op_c_nop; rv_op_c_addi;
  rv_op_c_jal; rv_op_c_li; rv_op_c_addi16sp; rv_op_c_lui; rv_op_c_srli; rv_op_c_srai;
  rv_op_c_andi; rv_op_c_sub; rv_op_c_xor; rv_op_c_or; rv_op_c_and; rv_op_c_subw;
  rv_op_c_addw; rv_op_c_j; rv_op_c_beqz; rv_op_c_bnez; rv_op_c_slli; rv_op_c_fldsp;
  rv_op_c_lwsp; rv_op_c_flwsp; rv_op_c_jr; rv_op_c_mv; rv_op_c_ebreak; rv_op_c_jalr;
  rv_op_c_add; rv_op_c_fsdsp; rv_op_c_swsp; rv_op_c_fswsp; rv_op_c_ld; rv_op_c_sd;
  rv_op_c_addiw; rv_op_c_ldsp; rv_op_c_sdsp; rv_op_c_lq; rv_op_c_sq; rv_op_c_lqsp;
  rv_op_c_sqsp; rv_op_nop; rv_op_mv; rv_op_not; rv_op_neg; rv_op_negw; rv_op_sext_w;
  rv_op_seqz; rv_op_snez; rv_op_sltz; rv_op_sgtz; rv_op_fmv_s; rv_op_fabs_s; rv_op_fneg_s;
  rv_op_fmv_d; rv_op_fabs_d; rv_op_fneg_d; rv_op_fmv_q; rv_op_fabs_q; rv_op_fneg_q;
  rv_op_beqz; rv_op_bnez; rv_op_blez; rv_op_bgez; rv_op_bltz; rv_op_bgtz; rv_op_ble;
  rv_op_bleu; rv_op_bgt; rv_op_bgtu; rv_op_j; rv_op_ret; rv_op_jr; rv_op_rdcycle;
  rv_op_rdtime; rv_op_rdinstret; rv_op_rdcycleh; rv_op_rdtimeh; rv_op_rdinstreth;
  rv_op_frcsr; rv_op_frrm; rv_op_frflags; rv_op_fscsr; rv_op_fsrm; rv_op_fsflags;
  rv_op_fsrmi; rv_op_fsflagsi].

(** ** Structures *)

Record rv_comp_data : Type := mk_rv_comp_data {
  comp_op : rv_op;
  constraints : option (list rvc_constraint)
}.

Definition rvcd_imm_nz : Z := 1.
Definition rvcd_imm_nz_hint : Z := 2.

Record rv_opcode_data : Type := mk_rv_opcode_data {
  od_name : string;
  od_codec : rv_codec;
  od_format : list Z;
  od_pseudo : option (list rv_comp_data);
  decomp_rv32 : rv_op;
  decomp_rv64 : rv_op;
  decomp_rv128 : rv_op;
  decomp_data : Z
}.

Record rv_decode : Type := mk_rv_decode {
  dec_pc : Z; dec_inst : Z; dec_imm : Z; dec_op : rv_op; dec_codec : rv_codec;
  dec_rd : Z; dec_rs1 : Z; dec_rs2 : Z; dec_rs3 : Z; dec_rm : Z;
  dec_pred : Z; dec_succ : Z; dec_aq : Z; dec_rl : Z
}.

(** The tagged union: the enumerators of [type] with the member they select. *)
Inductive rv_oper : Type :=
| rv_oper_reg (reg : rv_reg)
| rv_oper_imm (imm : Z)
| rv_oper_mem (basereg : rv_reg) (disp : Z).

Record rv_instr : Type := mk_rv_instr {
  instr_ip : Z; instr_inst : Z; instr_len : Z; instr_codec : rv_codec; instr_op : rv_op;
  instr_op_name : option string; instr_oper_count : Z; instr_oper : list rv_oper;
  instr_width : Z; instr_pred : Z; instr_succ : Z; instr_rm : Z; instr_aq : Z; instr_rl : Z
}.

(** ** Register names *)

Definition rv_ireg_name_sym : list string :=
  ["zero"; "ra"; "sp"; "gp"; "tp"; "t0"; "t1"; "t2"; "s0"; "s1"; "a0"; "a1"; "a2"; "a3";
   "a4"; "a5"; "a6"; "a7"; "s2"; "s3"; "s4"; "s5"; "s6"; "s7"; "s8"; "s9"; "s10"; "s11";
   "t3"; "t4"; "t5"; "t6"]%string.

Definition rv_freg_name_sym : list string :=
  ["ft0"; "ft1"; "ft2"; "ft3"; "ft4"; "ft5"; "ft6"; "ft7"; "fs0"; "fs1"; "fa0"; "fa1";
   "fa2"; "fa3"; "fa4"; "fa5"; "fa6"; "fa7"; "fs2"; "fs3"; "fs4"; "fs5"; "fs6"; "fs7";
   "fs8"; "fs9"; "fs10"; "fs11"; "ft8"; "ft9"; "ft10"; "ft11"]%string.

Definition rv_reg_sym (reg : rv_reg) : res string :=
  if rv_reg_num reg =? rv_reg_num rv_reg_invalid then Ok "invalid"%string
  else if rv_reg_num reg <? rv_freg_base
  then load rv_ireg_name_sym (rv_reg_num reg)
  else load rv_ireg_name_sym (rv_reg_num reg - rv_freg_base).

(** ** Instruction formats *)

(** The format characters before and after the tab. *)
Definition tabbed (s t : string) : list Z := chars s ++ 9 :: chars t.

Definition rv_fmt_none : list Z := tabbed "O" "".
Definition rv_fmt_rs1 : list Z := tabbed "O" "1".
Definition rv_fmt_offset : list Z := tabbed "O" "o".
Definition rv_fmt_pred_succ : list Z := tabbed "O" "p,s".
Definition rv_fmt_rs1_rs2 : list Z := tabbed "O" "1,2".
Definition rv_fmt_rd_imm : list Z := tabbed "O" "0,i".
Definition rv_fmt_rd_offset : list Z := tabbed "O" "0,o".
Definition rv_fmt_rd_rs1_rs2 : list Z := tabbed "O" "0,1,2".
Definition rv_fmt_frd_rs1 : list Z := tabbed "O" "3,1".
Definition rv_fmt_rd_frs1 : list Z := tabbed "O" "0,4".
Definition rv_fmt_rd_frs1_frs2 : list Z := tabbed "O" "0,4,5".
Definition rv_fmt_frd_frs1_frs2 : list Z := tabbed "O" "3,4,5".
Definition rv_fmt_rm_frd_frs1 : list Z := tabbed "O" "r,3,4".
Definition rv_fmt_rm_frd_rs1 : list Z := tabbed "O" "r,3,1".
Definition rv_fmt_rm_rd_frs1 : list Z := tabbed "O" "r,0,4".
Definition rv_fmt_rm_frd_frs1_frs2 : list Z := tabbed "O" "r,3,4,5".
Definition rv_fmt_rm_frd_frs1_frs2_frs3 : list Z := tabbed "O" "r,3,4,5,6".
Definition rv_fmt_rd_rs1_imm : list Z := tabbed "O" "0,1,i".
Definition rv_fmt_rd_rs1_offset : list Z := tabbed "O" "0,1,i".
Definition rv_fmt_rd_offset_rs1 : list Z := tabbed "O" "0,I".
Definition rv_fmt_frd_offset_rs1 : list Z := tabbed "O" "3,I".
Definition rv_fmt_rd_csr_rs1 : list Z := tabbed "O" "0,c,1".
Definition rv_fmt_rd_csr_zimm : list Z := tabbed "O" "0,c,7".
Definition rv_fmt_rs2_offset_rs1 : list Z := tabbed "O" "2,I".
Definition rv_fmt_frs2_offset_rs1 : list Z := tabbed "O" "5,I".
Definition rv_fmt_rs1_rs2_offset : list Z := tabbed "O" "1,2,o".
Definition rv_fmt_rs2_rs1_offset : list Z := tabbed "O" "2,1,o".
Definition rv_fmt_aqrl_rd_rs2_rs1 : list Z := tabbed "OAR" "0,2,!".
Definition rv_fmt_aqrl_rd_rs1 : list Z := tabbed "OAR" "0,!".
Definition rv_fmt_rd : list Z := tabbed "O" "0".
Definition rv_fmt_rd_zimm : list Z := tabbed "O" "0,7".
Definition rv_fmt_rd_rs1 : list Z := tabbed "O" "0,1".
Definition rv_fmt_rd_rs2 : list Z := tabbed "O" "0,2".
Definition rv_fmt_rs1_offset : list Z := tabbed "O" "1,o".
Definition rv_fmt_rs2_offset : list Z := tabbed "O" "2,o".

(** ** Pseudo-instruction constraints *)

Definition rvcc_jal : list rvc_constraint := [rvc_rd_eq_ra; rvc_end].
Definition rvcc_jalr : list rvc_constraint := [rvc_rd_eq_ra; rvc_imm_eq_zero; rvc_end].
Definition rvcc_nop : list rvc_constraint := [rvc_rd_eq_x0; rvc_rs1_eq_x0; rvc_imm_eq_zero; rvc_end].
Definition rvcc_mv : list rvc_constraint := [rvc_imm_eq_zero; rvc_end].
Definition rvcc_not : list rvc_constraint := [rvc_imm_eq_n1; rvc_end].
Definition rvcc_neg : list rvc_constraint := [rvc_rs1_eq_x0; rvc_end].
Definition rvcc_negw : list rvc_constraint := [rvc_rs1_eq_x0; rvc_end].
Definition rvcc_sext_w : list rvc_constraint := [rvc_imm_eq_zero; rvc_end].
Definition rvcc_seqz : list rvc_constraint := [rvc_imm_eq_p1; rvc_end].
Definition rvcc_snez : list rvc_constraint := [rvc_rs1_eq_x0; rvc_end].
Definition rvcc_sltz : list rvc_constraint := [rvc_rs2_eq_x0; rvc_end].
Definition rvcc_sgtz : list rvc_constraint := [rvc_rs1_eq_x0; rvc_end].
Definition rvcc_fmv_s : list rvc_constraint := [rvc_rs2_eq_rs1; rvc_end].
Definition rvcc_fabs_s : list rvc_constraint := [rvc_rs2_eq_rs1; rvc_end].
Definition rvcc_fneg_s : list rvc_constraint := [rvc_rs2_eq_rs1; rvc_end].
Definition rvcc_fmv_d : list rvc_constraint := [rvc_rs2_eq_rs1; rvc_end].
Definition rvcc_fabs_d : list rvc_constraint := [rvc_rs2_eq_rs1; rvc_end].
Definition rvcc_fneg_d : list rvc_constraint := [rvc_rs2_eq_rs1; rvc_end].
Definition rvcc_fmv_q : list rvc_constraint := [rvc_rs2_eq_rs1; rvc_end].
Definition rvcc_fabs_q : list rvc_constraint := [rvc_rs2_eq_rs1; rvc_end].
Definition rvcc_fneg_q : list rvc_constraint := [rvc_rs2_eq_rs1; rvc_end].
Definition rvcc_beqz : list rvc_constraint := [rvc_rs2_eq_x0; rvc_end].
Definition rvcc_bnez : list rvc_constraint := [rvc_rs2_eq_x0; rvc_end].
Definition rvcc_blez : list rvc_constraint := [rvc_rs1_eq_x0; rvc_end].
Definition rvcc_bgez : list rvc_constraint := [rvc_rs2_eq_x0; rvc_end].
Definition rvcc_bltz : list rvc_constraint := [rvc_rs2_eq_x0; rvc_end].
Definition rvcc_bgtz : list rvc_constraint := [rvc_rs1_eq_x0; rvc_end].
Definition rvcc_ble : list rvc_constraint := [rvc_end].
Definition rvcc_bleu : list rvc_constraint := [rvc_end].
Definition rvcc_bgt : list rvc_constraint := [rvc_end].
Definition rvcc_bgtu : list rvc_constraint := [rvc_end].
Definition rvcc_j : list rvc_constraint := [rvc_rd_eq_x0; rvc_end].
Definition rvcc_ret : list rvc_constraint := [rvc_rd_eq_x0; rvc_rs1_eq_ra; rvc_end].
Definition rvcc_jr : list rvc_constraint := [rvc_rd_eq_x0; rvc_imm_eq_zero; rvc_end].
Definition rvcc_rdcycle : list rvc_constraint := [rvc_rs1_eq_x0; rvc_csr_eq_0xc00; rvc_end].
Definition rvcc_rdtime : list rvc_constraint := [rvc_rs1_eq_x0; rvc_csr_eq_0xc01; rvc_end].
Definition rvcc_rdinstret : list rvc_constraint := [rvc_rs1_eq_x0; rvc_csr_eq_0xc02; rvc_end].
Definition rvcc_rdcycleh : list rvc_constraint := [rvc_rs1_eq_x0; rvc_csr_eq_0xc80; rvc_end].
Definition rvcc_rdtimeh : list rvc_constraint := [rvc_rs1_eq_x0; rvc_csr_eq_0xc81; rvc_end].
Definition rvcc_rdinstreth : list rvc_constraint := [rvc_rs1_eq_x0; rvc_csr_eq_0xc82; rvc_end].
Definition rvcc_frcsr : list rvc_constraint := [rvc_rs1_eq_x0; rvc_csr_eq_0x003; rvc_end].
Definition rvcc_frrm : list rvc_constraint := [rvc_rs1_eq_x0; rvc_csr_eq_0x002; rvc_end].
Definition rvcc_frflags : list rvc_constraint := [rvc_rs1_eq_x0; rvc_csr_eq_0x001; rvc_end].
Definition rvcc_fscsr : list rvc_constraint := [rvc_csr_eq_0x003; rvc_end].
Definition rvcc_fsrm : list rvc_constraint := [rvc_csr_eq_0x002; rvc_end].
Definition rvcc_fsflags : list rvc_constraint := [rvc_csr_eq_0x001; rvc_end].
Definition rvcc_fsrmi : list rvc_constraint := [rvc_csr_eq_0x002; rvc_end].
Definition rvcc_fsflagsi : list rvc_constraint := [rvc_csr_eq_0x001; rvc_end].

(** ** Pseudo-instruction metadata *)

Definition rvcp_jal : list rv_comp_data :=
  [mk_rv_comp_data rv_op_j (Some rvcc_j);
   mk_rv_comp_data rv_op_jal (Some rvcc_jal);
   mk_rv_comp_data rv_op_illegal None].
Definition rvcp_jalr : list rv_comp_data :=
  [mk_rv_comp_data rv_op_ret (Some rvcc_ret);
   mk_rv_comp_data rv_op_jr (Some rvcc_jr);
   mk_rv_comp_data rv_op_jalr (Some rvcc_jalr);
   mk_rv_comp_data rv_op_illegal None].
Definition rvcp_beq : list rv_comp_data :=
  [mk_rv_comp_data rv_op_beqz (Some rvcc_beqz);
   mk_rv_comp_data rv_op_illegal None].
Definition rvcp_bne : list rv_comp_data :=
  [mk_rv_comp_data rv_op_bnez (Some rvcc_bnez);
   mk_rv_comp_data rv_op_illegal None].
Definition rvcp_blt : list rv_comp_data :=
  [mk_rv_comp_data rv_op_bltz (Some rvcc_bltz);
   mk_rv_comp_data rv_op_bgtz (Some rvcc_bgtz);
   mk_rv_comp_data rv_op_bgt (Some rvcc_bgt);
   mk_rv_comp_data rv_op_illegal None].
Definition rvcp_bge : list rv_comp_data :=
  [mk_rv_comp_data rv_op_blez (Some rvcc_blez);
   mk_rv_comp_data rv_op_bgez (Some rvcc_bgez);
   mk_rv_comp_data rv_op_ble (Some rvcc_ble);
   mk_rv_comp_data rv_op_illegal None].
Definition rvcp_bltu : list rv_comp_data :=
  [mk_rv_comp_data rv_op_bgtu (Some rvcc_bgtu);
   mk_rv_comp_data rv_op_illegal None].
Definition rvcp_bgeu : list rv_comp_data :=
  [mk_rv_comp_data rv_op_bleu (Some rvcc_bleu);
   mk_rv_comp_data rv_op_illegal None].
Definition rvcp_addi : list rv_comp_data :=
  [mk_rv_comp_data rv_op_nop (Some rvcc_nop);
   mk_rv_comp_data rv_op_mv (Some rvcc_mv);
   mk_rv_comp_data rv_op_illegal None].
Definition rvcp_sltiu : list rv_comp_data :=
  [mk_rv_comp_data rv_op_seqz (Some rvcc_seqz);
   mk_rv_comp_data rv_op_illegal None].
Definition rvcp_xori : list rv_comp_data :=
  [mk_rv_comp_data rv_op_not (Some rvcc_not);
   mk_rv_comp_data rv_op_illegal None].
Definition rvcp_sub : list rv_comp_data :=
  [mk_rv_comp_data rv_op_neg (Some rvcc_neg);
   mk_rv_comp_data rv_op_illegal None].
Definition rvcp_slt : list rv_comp_data :=
  [mk_rv_comp_data rv_op_sltz (Some rvcc_sltz);
   mk_rv_comp_data rv_op_sgtz (Some rvcc_sgtz);
   mk_rv_comp_data rv_op_illegal None].
Definition rvcp_sltu : list rv_comp_data :=
  [mk_rv_comp_data rv_op_snez (Some rvcc_snez);
   mk_rv_comp_data rv_op_illegal None].
Definition rvcp_addiw : list rv_comp_data :=
  [mk_rv_comp_data rv_op_sext_w (Some rvcc_sext_w);
   mk_rv_comp_data rv_op_illegal None].
Definition rvcp_subw : list rv_comp_data :=
  [mk_rv_comp_data rv_op_negw (Some rvcc_negw);
   mk_rv_comp_data rv_op_illegal None].
Definition rvcp_csrrw : list rv_comp_data :=
  [mk_rv_comp_data rv_op_fscsr (Some rvcc_fscsr);
   mk_rv_comp_data rv_op_fsrm (Some rvcc_fsrm);
   mk_rv_comp_data rv_op_fsflags (Some rvcc_fsflags);
   mk_rv_comp_data rv_op_illegal None].
Definition rvcp_csrrs : list rv_comp_data :=
  [mk_rv_comp_data rv_op_rdcycle (Some rvcc_rdcycle);
   mk_rv_comp_data rv_op_rdtime (Some rvcc_rdtime);
   mk_rv_comp_data rv_op_rdinstret (Some rvcc_rdinstret);
   mk_rv_comp_data rv_op_rdcycleh (Some rvcc_rdcycleh);
   mk_rv_comp_data rv_op_rdtimeh (Some rvcc_rdtimeh);
   mk_rv_comp_data rv_op_rdinstreth (Some rvcc_rdinstreth);
   mk_rv_comp_data rv_op_frcsr (Some rvcc_frcsr);
   mk_rv_comp_data rv_op_frrm (Some rvcc_frrm);
   mk_rv_comp_data rv_op_frflags (Some rvcc_frflags);
   mk_rv_comp_data rv_op_illegal None].
Definition rvcp_csrrwi : list rv_comp_data :=
  [mk_rv_comp_data rv_op_fsrmi (Some rvcc_fsrmi);
   mk_rv_comp_data rv_op_fsflagsi (Some rvcc_fsflagsi);
   mk_rv_comp_data rv_op_illegal None].
Definition rvcp_fsgnj_s : list rv_comp_data :=
  [mk_rv_comp_data rv_op_fmv_s (Some rvcc_fmv_s);
   mk_rv_comp_data rv_op_illegal None].
Definition rvcp_fsgnjn_s : list rv_comp_data :=
  [mk_rv_comp_data rv_op_fneg_s (Some rvcc_fneg_s);
   mk_rv_comp_data rv_op_illegal None].
Definition rvcp_fsgnjx_s : list rv_comp_data :=
  [mk_rv_comp_data rv_op_fabs_s (Some rvcc_fabs_s);
   mk_rv_comp_data rv_op_illegal None].
Definition rvcp_fsgnj_d : list rv_comp_data :=
  [mk_rv_comp_data rv_op_fmv_d (Some rvcc_fmv_d);
   mk_rv_comp_data rv_op_illegal None].
Definition rvcp_fsgnjn_d : list rv_comp_data :=
  [mk_rv_comp_data rv_op_fneg_d (Some rvcc_fneg_d);
   mk_rv_comp_data rv_op_illegal None].
Definition rvcp_fsgnjx_d : list rv_comp_data :=
  [mk_rv_comp_data rv_op_fabs_d (Some rvcc_fabs_d);
   mk_rv_comp_data rv_op_illegal None].
Definition rvcp_fsgnj_q : list rv_comp_data :=
  [mk_rv_comp_data rv_op_fmv_q (Some rvcc_fmv_q);
   mk_rv_comp_data rv_op_illegal None].
Definition rvcp_fsgnjn_q : list rv_comp_data :=
  [mk_rv_comp_data rv_op_fneg_q (Some rvcc_fneg_q);
   mk_rv_comp_data rv_op_illegal None].
Definition rvcp_fsgnjx_q : list rv_comp_data :=
  [mk_rv_comp_data rv_op_fabs_q (Some rvcc_fabs_q);
   mk_rv_comp_data rv_op_illegal None].

(** ** Instruction metadata *)

Definition opcode_data_int : list rv_opcode_data :=
  [mk_rv_opcode_data "illegal" rv_codec_illegal rv_fmt_none None rv_op_illegal rv_op_illegal rv_op_illegal 0;
   mk_rv_opcode_data "lui" rv_codec_u rv_fmt_rd_imm None rv_op_illegal rv_op_illegal rv_op_illegal 0;
   mk_rv_opcode_data "auipc" rv_codec_u rv_fmt_rd_offset None rv_op_illegal rv_op_illegal rv_op_illegal 0;
   mk_rv_opcode_data "jal" rv_codec_uj rv_fmt_rd_offset (Some rvcp_jal) rv_op_illegal rv_op_illegal rv_op_illegal 0;
   mk_rv_opcode_data "jalr" rv_codec_i rv_fmt_rd_rs1_offset (Some rvcp_jalr) rv_op_illegal rv_op_illegal rv_op_illegal 0;
   mk_rv_opcode_data "beq" rv_codec_sb rv_fmt_rs1_rs2_offset (Some rvcp_beq) rv_op_illegal rv_op_illegal rv_op_illegal 0;
   mk_rv_opcode_data "bne" rv_codec_sb rv_fmt_rs1_rs2_offset (Some rvcp_bne) rv_op_illegal rv_op_illegal rv_op_illegal 0;
   mk_rv_opcode_data "blt" rv_codec_sb rv_fmt_rs1_rs2_offset (Some rvcp_blt) rv_op_illegal rv_op_illegal rv_op_illegal 0;
   mk_rv_opcode_data "bge" rv_codec_sb rv_fmt_rs1_rs2_offset (Some rvcp_bge) rv_op_illegal rv_op_illegal rv_op_illegal 0;
   mk_rv_opcode_data "bltu" rv_codec_sb rv_fmt_rs1_rs2_offset (Some rvcp_bltu) rv_op_illegal rv_op_illegal rv_op_illegal 0;
   mk_rv_opcode_data "bgeu" rv_codec_sb rv_fmt_rs1_rs2_offset (Some rvcp_bgeu) rv_op_illegal rv_op_illegal rv_op_illegal 0;
   mk_rv_opcode_data "lb" rv_codec_i rv_fmt_rd_offset_rs1 None rv_op_illegal rv_op_illegal rv_op_illegal 0;
   mk_rv_opcode_data "lh" rv_codec_i rv_fmt_rd_offset_rs1 None rv_op_illegal rv_op_illegal rv_op_illegal 0;
   mk_rv_opcode_data "lw" rv_codec_i rv_fmt_rd_offset_rs1 None rv_op_illegal rv_op_illegal rv_op_illegal 0;
   mk_rv_opcode_data "lbu" rv_codec_i rv_fmt_rd_offset_rs1 None rv_op_illegal rv_op_illegal rv_op_illegal 0;
   mk_rv_opcode_data "lhu" rv_codec_i rv_fmt_rd_offset_rs1 None rv_op_illegal rv_op_illegal rv_op_illegal 0;
   mk_rv_opcode_data "sb" rv_codec_s rv_fmt_rs2_offset_rs1 None rv_op_illegal rv_op_illegal rv_op_illegal 0;
   mk_rv_opcode_data "sh" rv_codec_s rv_fmt_rs2_offset_rs1 None rv_op_illegal rv_op_illegal rv_op_illegal 0;
   mk_rv_opcode_data "sw" rv_codec_s rv_fmt_rs2_offset_rs1 None rv_op_illegal rv_op_illegal rv_op_illegal 0;
   mk_rv_opcode_data "addi" rv_codec_i rv_fmt_rd_rs1_imm (Some rvcp_addi) rv_op_illegal rv_op_illegal rv_op_illegal 0;
   mk_rv_opcode_data "slti" rv_codec_i rv_fmt_rd_rs1_imm None rv_op_illegal rv_op_illegal rv_op_illegal 0;
   mk_rv_opcode_data "sltiu" rv_codec_i rv_fmt_rd_rs1_imm (Some rvcp_sltiu) rv_op_illegal rv_op_illegal rv_op_illegal 0;
   mk_rv_opcode_data "xori" rv_codec_i rv_fmt_rd_rs1_imm (Some rvcp_xori) rv_op_illegal rv_op_illegal rv_op_illegal 0;
   mk_rv_opcode_data "ori" rv_codec_i rv_fmt_rd_rs1_imm None rv_op_illegal rv_op_illegal rv_op_illegal 0;
   mk_rv_opcode_data "andi" rv_codec_i rv_fmt_rd_rs1_imm None rv_op_illegal rv_op_illegal rv_op_illegal 0;
   mk_rv_opcode_data "slli" rv_codec_i_sh7 rv_fmt_rd_rs1_imm None rv_op_illegal rv_op_illegal rv_op_illegal 0;
   mk_rv_opcode_data "srli" rv_codec_i_sh7 rv_fmt_rd_rs1_imm None rv_op_illegal rv_op_illegal rv_op_illegal 0;
   mk_rv_opcode_data "srai" rv_codec_i_sh7 rv_fmt_rd_rs1_imm None rv_op_illegal rv_op_illegal rv_op_illegal 0;
   mk_rv_opcode_data "add" rv_codec_r rv_fmt_rd_rs1_rs2 None rv_op_illegal rv_op_illegal rv_op_illegal 0;
   mk_rv_opcode_data "sub" rv_codec_r rv_fmt_rd_rs1_rs2 (Some rvcp_sub) rv_op_illegal rv_op_illegal rv_op_illegal 0;
   mk_rv_opcode_data "sll" rv_codec_r rv_fmt_rd_rs1_rs2 None rv_op_illegal rv_op_illegal rv_op_illegal 0;
   mk_rv_opcode_data "slt" rv_codec_r rv_fmt_rd_rs1_rs2 (Some rvcp_slt) rv_op_illegal rv_op_illegal rv_op_illegal 0;
   mk_rv_opcode_data "sltu" rv_codec_r rv_fmt_rd_rs1_rs2 (Some rvcp_sltu) rv_op_illegal rv_op_illegal rv_op_illegal 0;
   mk_rv_opcode_data "xor" rv_codec_r rv_fmt_rd_rs1_rs2 None rv_op_illegal rv_op_illegal rv_op_illegal 0;
   mk_rv_opcode_data "srl" rv_codec_r rv_fmt_rd_rs1_rs2 None rv_op_illegal rv_op_illegal rv_op_illegal 0;
   mk_rv_opcode_data "sra" rv_codec_r rv_fmt_rd_rs1_rs2 None rv_op_illegal rv_op_illegal rv_op_illegal 0;
   mk_rv_opcode_data "or" rv_codec_r rv_fmt_rd_rs1_rs2 None rv_op_illegal rv_op_illegal rv_op_illegal 0;
   mk_rv_opcode_data "and" rv_codec_r rv_fmt_rd_rs1_rs2 None rv_op_illegal rv_op_illegal rv_op_illegal 0;
   mk_rv_opcode_data "fence" rv_codec_r_f rv_fmt_pred_succ None rv_op_illegal rv_op_illegal rv_op_illegal 0;
   mk_rv_opcode_data "fence.i" rv_codec_none rv_fmt_none None rv_op_illegal rv_op_illegal rv_op_illegal 0;
   mk_rv_opcode_data "lwu" rv_codec_i rv_fmt_rd_offset_rs1 None rv_op_illegal rv_op_illegal rv_op_illegal 0;
   mk_rv_opcode_data "ld" rv_codec_i rv_fmt_rd_offset_rs1 None rv_op_illegal rv_op_illegal rv_op_illegal 0;
   mk_rv_opcode_data "sd" rv_codec_s rv_fmt_rs2_offset_rs1 None rv_op_illegal rv_op_illegal rv_op_illegal 0;
   mk_rv_opcode_data "addiw" rv_codec_i rv_fmt_rd_rs1_imm (Some rvcp_addiw) rv_op_illegal rv_op_illegal rv_op_illegal 0;
   mk_rv_opcode_data "slliw" rv_codec_i_sh5 rv_fmt_rd_rs1_imm None rv_op_illegal rv_op_illegal rv_op_illegal 0;
   mk_rv_opcode_data "srliw" rv_codec_i_sh5 rv_fmt_rd_rs1_imm None rv_op_illegal rv_op_illegal rv_op_illegal 0;
   mk_rv_opcode_data "sraiw" rv_codec_i_sh5 rv_fmt_rd_rs1_imm None rv_op_illegal rv_op_illegal rv_op_illegal 0;
   mk_rv_opcode_data "addw" rv_codec_r rv_fmt_rd_rs1_rs2 None rv_op_illegal rv_op_illegal rv_op_illegal 0;
   mk_rv_opcode_data "subw" rv_codec_r rv_fmt_rd_rs1_rs2 (Some rvcp_subw) rv_op_illegal rv_op_illegal rv_op_illegal 0;
   mk_rv_opcode_data "sllw" rv_codec_r rv_fmt_rd_rs1_rs2 None rv_op_illegal rv_op_illegal rv_op_illegal 0;
   mk_rv_opcode_data "srlw" rv_codec_r rv_fmt_rd_rs1_rs2 None rv_op_illegal rv_op_illegal rv_op_illegal 0;
   mk_rv_opcode_data "sraw" rv_codec_r rv_fmt_rd_rs1_rs2 None rv_op_illegal rv_op_illegal rv_op_illegal 0;
   mk_rv_opcode_data "ldu" rv_codec_i rv_fmt_rd_offset_rs1 None rv_op_illegal rv_op_illegal rv_op_illegal 0;
   mk_rv_opcode_data "lq" rv_codec_i rv_fmt_rd_offset_rs1 None rv_op_illegal rv_op_illegal rv_op_illegal 0;
   mk_rv_opcode_data "sq" rv_codec_s rv_fmt_rs2_offset_rs1 None rv_op_illegal rv_op_illegal rv_op_illegal 0;
   mk_rv_opcode_data "addid" rv_codec_i rv_fmt_rd_rs1_imm None rv_op_illegal rv_op_illegal rv_op_illegal 0;
   mk_rv_opcode_data "sllid" rv_codec_i_sh6 rv_fmt_rd_rs1_imm None rv_op_illegal rv_op_illegal rv_op_illegal 0;
   mk_rv_opcode_data "srlid" rv_codec_i_sh6 rv_fmt_rd_rs1_imm None rv_op_illegal rv_op_illegal rv_op_illegal 0;
   mk_rv_opcode_data "sraid" rv_codec_i_sh6 rv_fmt_rd_rs1_imm None rv_op_illegal rv_op_illegal rv_op_illegal 0;
   mk_rv_opcode_data "addd" rv_codec_r rv_fmt_rd_rs1_rs2 None rv_op_illegal rv_op_illegal rv_op_illegal 0;
   mk_rv_opcode_data "subd" rv_codec_r rv_fmt_rd_rs1_rs2 None rv_op_illegal rv_op_illegal rv_op_illegal 0;
   mk_rv_opcode_data "slld" rv_codec_r rv_fmt_rd_rs1_rs2 None rv_op_illegal rv_op_illegal rv_op_illegal 0;
   mk_rv_opcode_data "srld" rv_codec_r rv_fmt_rd_rs1_rs2 None rv_op_illegal rv_op_illegal rv_op_illegal 0;
   mk_rv_opcode_data "srad" rv_codec_r rv_fmt_rd_rs1_rs2 None rv_op_illegal rv_op_illegal rv_op_illegal 0;
   mk_rv_opcode_data "mul" rv_codec_r rv_fmt_rd_rs1_rs2 None rv_op_illegal rv_op_illegal rv_op_illegal 0;
   mk_rv_opcode_data "mulh" rv_codec_r rv_fmt_rd_rs1_rs2 None rv_op_illegal rv_op_illegal rv_op_illegal 0;
   mk_rv_opcode_data "mulhsu" rv_codec_r rv_fmt_rd_rs1_rs2 None rv_op_illegal rv_op_illegal rv_op_illegal 0;
   mk_rv_opcode_data "mulhu" rv_codec_r rv_fmt_rd_rs1_rs2 None rv_op_illegal rv_op_illegal rv_op_illegal 0;
   mk_rv_opcode_data "div" rv_codec_r rv_fmt_rd_rs1_rs2 None rv_op_illegal rv_op_illegal rv_op_illegal 0;
   mk_rv_opcode_data "divu" rv_codec_r rv_fmt_rd_rs1_rs2 None rv_op_illegal rv_op_illegal rv_op_illegal 0;
   mk_rv_opcode_data "rem" rv_codec_r rv_fmt_rd_rs1_rs2 None rv_op_illegal rv_op_illegal rv_op_illegal 0;
   mk_rv_opcode_data "remu" rv_codec_r rv_fmt_rd_rs1_rs2 None rv_op_illegal rv_op_illegal rv_op_illegal 0;
   mk_rv_opcode_data "mulw" rv_codec_r rv_fmt_rd_rs1_rs2 None rv_op_illegal rv_op_illegal rv_op_illegal 0;
   mk_rv_opcode_data "divw" rv_codec_r rv_fmt_rd_rs1_rs2 None rv_op_illegal rv_op_illegal rv_op_illegal 0;
   mk_rv_opcode_data "divuw" rv_codec_r rv_fmt_rd_rs1_rs2 None rv_op_illegal rv_op_illegal rv_op_illegal 0;
   mk_rv_opcode_data "remw" rv_codec_r rv_fmt_rd_rs1_rs2 None rv_op_illegal rv_op_illegal rv_op_illegal 0;
   mk_rv_opcode_data "remuw" rv_codec_r rv_fmt_rd_rs1_rs2 None rv_op_illegal rv_op_illegal rv_op_illegal 0;
   mk_rv_opcode_data "muld" rv_codec_r rv_fmt_rd_rs1_rs2 None rv_op_illegal rv_op_illegal rv_op_illegal 0;
   mk_rv_opcode_data "divd" rv_codec_r rv_fmt_rd_rs1_rs2 None rv_op_illegal rv_op_illegal rv_op_illegal 0;
   mk_rv_opcode_data "divud" rv_codec_r rv_fmt_rd_rs1_rs2 None rv_op_illegal rv_op_illegal rv_op_illegal 0;
   mk_rv_opcode_data "remd" rv_codec_r rv_fmt_rd_rs1_rs2 None rv_op_illegal rv_op_illegal rv_op_illegal 0;
   mk_rv_opcode_data "remud" rv_codec_r rv_fmt_rd_rs1_rs2 None rv_op_illegal rv_op_illegal rv_op_illegal 0;
   mk_rv_opcode_data "lr.w" rv_codec_r_l rv_fmt_aqrl_rd_rs1 None rv_op_illegal rv_op_illegal rv_op_illegal 0;
   mk_rv_opcode_data "sc.w" rv_codec_r_a rv_fmt_aqrl_rd_rs2_rs1 None rv_op_illegal rv_op_illegal rv_op_illegal 0;
   mk_rv_opcode_data "amoswap.w" rv_codec_r_a rv_fmt_aqrl_rd_rs2_rs1 None rv_op_illegal rv_op_illegal rv_op_illegal 0;
   mk_rv_opcode_data "amoadd.w" rv_codec_r_a rv_fmt_aqrl_rd_rs2_rs1 None rv_op_illegal rv_op_illegal rv_op_illegal 0;
   mk_rv_opcode_data "amoxor.w" rv_codec_r_a rv_fmt_aqrl_rd_rs2_rs1 None rv_op_illegal rv_op_illegal rv_op_illegal 0;
   mk_rv_opcode_data "amoor.w" rv_codec_r_a rv_fmt_aqrl_rd_rs2_rs1 None rv_op_illegal rv_op_illegal rv_op_illegal 0;
   mk_rv_opcode_data "amoand.w" rv_codec_r_a rv_fmt_aqrl_rd_rs2_rs1 None rv_op_illegal rv_op_illegal rv_op_illegal 0;
   mk_rv_opcode_data "amomin.w" rv_codec_r_a rv_fmt_aqrl_rd_rs2_rs1 None rv_op_illegal rv_op_illegal rv_op_illegal 0;
   mk_rv_opcode_data "amomax.w" rv_codec_r_a rv_fmt_aqrl_rd_rs2_rs1 None rv_op_illegal rv_op_illegal rv_op_illegal 0;
   mk_rv_opcode_data "amominu.w" rv_codec_r_a rv_fmt_aqrl_rd_rs2_rs1 None rv_op_illegal rv_op_illegal rv_op_illegal 0;
   mk_rv_opcode_data "amomaxu.w" rv_codec_r_a rv_fmt_aqrl_rd_rs2_rs1 None rv_op_illegal rv_op_illegal rv_op_illegal 0;
   mk_rv_opcode_data "lr.d" rv_codec_r_l rv_fmt_aqrl_rd_rs1 None rv_op_illegal rv_op_illegal rv_op_illegal 0;
   mk_rv_opcode_data "sc.d" rv_codec_r_a rv_fmt_aqrl_rd_rs2_rs1 None rv_op_illegal rv_op_illegal rv_op_illegal 0;
   mk_rv_opcode_data "amoswap.d" rv_codec_r_a rv_fmt_aqrl_rd_rs2_rs1 None rv_op_illegal rv_op_illegal rv_op_illegal 0;
   mk_rv_opcode_data "amoadd.d" rv_codec_r_a rv_fmt_aqrl_rd_rs2_rs1 None rv_op_illegal rv_op_illegal rv_op_illegal 0;
   mk_rv_opcode_data "amoxor.d" rv_codec_r_a rv_fmt_aqrl_rd_rs2_rs1 None rv_op_illegal rv_op_illegal rv_op_illegal 0;
   mk_rv_opcode_data "amoor.d" rv_codec_r_a rv_fmt_aqrl_rd_rs2_rs1 None rv_op_illegal rv_op_illegal rv_op_illegal 0;
   mk_rv_opcode_data "amoand.d" rv_codec_r_a rv_fmt_aqrl_rd_rs2_rs1 None rv_op_illegal rv_op_illegal rv_op_illegal 0;
   mk_rv_opcode_data "amomin.d" rv_codec_r_a rv_fmt_aqrl_rd_rs2_rs1 None rv_op_illegal rv_op_illegal rv_op_illegal 0;
   mk_rv_opcode_data "amomax.d" rv_codec_r_a rv_fmt_aqrl_rd_rs2_rs1 None rv_op_illegal rv_op_illegal rv_op_illegal 0;
   mk_rv_opcode_data "amominu.d" rv_codec_r_a rv_fmt_aqrl_rd_rs2_rs1 None rv_op_illegal rv_op_illegal rv_op_illegal 0;
   mk_rv_opcode_data "amomaxu.d" rv_codec_r_a rv_fmt_aqrl_rd_rs2_rs1 None rv_op_illegal rv_op_illegal rv_op_illegal 0;
   mk_rv_opcode_data "lr.q" rv_codec_r_l rv_fmt_aqrl_rd_rs1 None rv_op_illegal rv_op_illegal rv_op_illegal 0;
   mk_rv_opcode_data "sc.q" rv_codec_r_a rv_fmt_aqrl_rd_rs2_rs1 None rv_op_illegal rv_op_illegal rv_op_illegal 0;
   mk_rv_opcode_data "amoswap.q" rv_codec_r_a rv_fmt_aqrl_rd_rs2_rs1 None rv_op_illegal rv_op_illegal rv_op_illegal 0;
   mk_rv_opcode_data "amoadd.q" rv_codec_r_a rv_fmt_aqrl_rd_rs2_rs1 None rv_op_illegal rv_op_illegal rv_op_illegal 0;
   mk_rv_opcode_data "amoxor.q" rv_codec_r_a rv_fmt_aqrl_rd_rs2_rs1 None rv_op_illegal rv_op_illegal rv_op_illegal 0;
   mk_rv_opcode_data "amoor.q" rv_codec_r_a rv_fmt_aqrl_rd_rs2_rs1 None rv_op_illegal rv_op_illegal rv_op_illegal 0;
   mk_rv_opcode_data "amoand.q" rv_codec_r_a rv_fmt_aqrl_rd_rs2_rs1 None rv_op_illegal rv_op_illegal rv_op_illegal 0;
   mk_rv_opcode_data "amomin.q" rv_codec_r_a rv_fmt_aqrl_rd_rs2_rs1 None rv_op_illegal rv_op_illegal rv_op_illegal 0;
   mk_rv_opcode_data "amomax.q" rv_codec_r_a rv_fmt_aqrl_rd_rs2_rs1 None rv_op_illegal rv_op_illegal rv_op_illegal 0;
   mk_rv_opcode_data "amominu.q" rv_codec_r_a rv_fmt_aqrl_rd_rs2_rs1 None rv_op_illegal rv_op_illegal rv_op_illegal 0;
   mk_rv_opcode_data "amomaxu.q" rv_codec_r_a rv_fmt_aqrl_rd_rs2_rs1 None rv_op_illegal rv_op_illegal rv_op_illegal 0;
   mk_rv_opcode_data "ecall" rv_codec_none rv_fmt_none None rv_op_illegal rv_op_illegal rv_op_illegal 0;
   mk_rv_opcode_data "ebreak" rv_codec_none rv_fmt_none None rv_op_illegal rv_op_illegal rv_op_illegal 0;
   mk_rv_opcode_data "uret" rv_codec_none rv_fmt_none None rv_op_illegal rv_op_illegal rv_op_illegal 0;
   mk_rv_opcode_data "sret" rv_codec_none rv_fmt_none None rv_op_illegal rv_op_illegal rv_op_illegal 0;
   mk_rv_opcode_data "hret" rv_codec_none rv_fmt_none None rv_op_illegal rv_op_illegal rv_op_illegal 0;
   mk_rv_opcode_data "mret" rv_codec_none rv_fmt_none None rv_op_illegal rv_op_illegal rv_op_illegal 0;
   mk_rv_opcode_data "dret" rv_codec_none rv_fmt_none None rv_op_illegal rv_op_illegal rv_op_illegal 0;
   mk_rv_opcode_data "sfence.vm" rv_codec_r rv_fmt_rs1 None rv_op_illegal rv_op_illegal rv_op_illegal 0;
   mk_rv_opcode_data "sfence.vma" rv_codec_r rv_fmt_rs1_rs2 None rv_op_illegal rv_op_illegal rv_op_illegal 0;
   mk_rv_opcode_data "wfi" rv_codec_none rv_fmt_none None rv_op_illegal rv_op_illegal rv_op_illegal 0;
   mk_rv_opcode_data "csrrw" rv_codec_i_csr rv_fmt_rd_csr_rs1 (Some rvcp_csrrw) rv_op_illegal rv_op_illegal rv_op_illegal 0;
   mk_rv_opcode_data "csrrs" rv_codec_i_csr rv_fmt_rd_csr_rs1 (Some rvcp_csrrs) rv_op_illegal rv_op_illegal rv_op_illegal 0;
   mk_rv_opcode_data "csrrc" rv_codec_i_csr rv_fmt_rd_csr_rs1 None rv_op_illegal rv_op_illegal rv_op_illegal 0;
   mk_rv_opcode_data "csrrwi" rv_codec_i_csr rv_fmt_rd_csr_zimm (Some rvcp_csrrwi) rv_op_illegal rv_op_illegal rv_op_illegal 0;
   mk_rv_opcode_data "csrrsi" rv_codec_i_csr rv_fmt_rd_csr_zimm None rv_op_illegal rv_op_illegal rv_op_illegal 0;
   mk_rv_opcode_data "csrrci" rv_codec_i_csr rv_fmt_rd_csr_zimm None rv_op_illegal rv_op_illegal rv_op_illegal 0]%string.

Definition opcode_data_fp : list rv_opcode_data :=
  [mk_rv_opcode_data "flw" rv_codec_i rv_fmt_frd_offset_rs1 None rv_op_illegal rv_op_illegal rv_op_illegal 0;
   mk_rv_opcode_data "fsw" rv_codec_s rv_fmt_frs2_offset_rs1 None rv_op_illegal rv_op_illegal rv_op_illegal 0;
   mk_rv_opcode_data "fmadd.s" rv_codec_r4_m rv_fmt_rm_frd_frs1_frs2_frs3 None rv_op_illegal rv_op_illegal rv_op_illegal 0;
   mk_rv_opcode_data "fmsub.s" rv_codec_r4_m rv_fmt_rm_frd_frs1_frs2_frs3 None rv_op_illegal rv_op_illegal rv_op_illegal 0;
   mk_rv_opcode_data "fnmsub.s" rv_codec_r4_m rv_fmt_rm_frd_frs1_frs2_frs3 None rv_op_illegal rv_op_illegal rv_op_illegal 0;
   mk_rv_opcode_data "fnmadd.s" rv_codec_r4_m rv_fmt_rm_frd_frs1_frs2_frs3 None rv_op_illegal rv_op_illegal rv_op_illegal 0;
   mk_rv_opcode_data "fadd.s" rv_codec_r_m rv_fmt_rm_frd_frs1_frs2 None rv_op_illegal rv_op_illegal rv_op_illegal 0;
   mk_rv_opcode_data "fsub.s" rv_codec_r_m rv_fmt_rm_frd_frs1_frs2 None rv_op_illegal rv_op_illegal rv_op_illegal 0;
   mk_rv_opcode_data "fmul.s" rv_codec_r_m rv_fmt_rm_frd_frs1_frs2 None rv_op_illegal rv_op_illegal rv_op_illegal 0;
   mk_rv_opcode_data "fdiv.s" rv_codec_r_m rv_fmt_rm_frd_frs1_frs2 None rv_op_illegal rv_op_illegal rv_op_illegal 0;
   mk_rv_opcode_data "fsgnj.s" rv_codec_r rv_fmt_frd_frs1_frs2 (Some rvcp_fsgnj_s) rv_op_illegal rv_op_illegal rv_op_illegal 0;
   mk_rv_opcode_data "fsgnjn.s" rv_codec_r rv_fmt_frd_frs1_frs2 (Some rvcp_fsgnjn_s) rv_op_illegal rv_op_illegal rv_op_illegal 0;
   mk_rv_opcode_data "fsgnjx.s" rv_codec_r rv_fmt_frd_frs1_frs2 (Some rvcp_fsgnjx_s) rv_op_illegal rv_op_illegal rv_op_illegal 0;
   mk_rv_opcode_data "fmin.s" rv_codec_r rv_fmt_frd_frs1_frs2 None rv_op_illegal rv_op_illegal rv_op_illegal 0;
   mk_rv_opcode_data "fmax.s" rv_codec_r rv_fmt_frd_frs1_frs2 None rv_op_illegal rv_op_illegal rv_op_illegal 0;
   mk_rv_opcode_data "fsqrt.s" rv_codec_r_m rv_fmt_rm_frd_frs1 None rv_op_illegal rv_op_illegal rv_op_illegal 0;
   mk_rv_opcode_data "fle.s" rv_codec_r rv_fmt_rd_frs1_frs2 None rv_op_illegal rv_op_illegal rv_op_illegal 0;
   mk_rv_opcode_data "flt.s" rv_codec_r rv_fmt_rd_frs1_frs2 None rv_op_illegal rv_op_illegal rv_op_illegal 0;
   mk_rv_opcode_data "feq.s" rv_codec_r rv_fmt_rd_frs1_frs2 None rv_op_illegal rv_op_illegal rv_op_illegal 0;
   mk_rv_opcode_data "fcvt.w.s" rv_codec_r_m rv_fmt_rm_rd_frs1 None rv_op_illegal rv_op_illegal rv_op_illegal 0;
   mk_rv_opcode_data "fcvt.wu.s" rv_codec_r_m rv_fmt_rm_rd_frs1 None rv_op_illegal rv_op_illegal rv_op_illegal 0;
   mk_rv_opcode_data "fcvt.s.w" rv_codec_r_m rv_fmt_rm_frd_rs1 None rv_op_illegal rv_op_illegal rv_op_illegal 0;
   mk_rv_opcode_data "fcvt.s.wu" rv_codec_r_m rv_fmt_rm_frd_rs1 None rv_op_illegal rv_op_illegal rv_op_illegal 0;
   mk_rv_opcode_data "fmv.x.s" rv_codec_r rv_fmt_rd_frs1 None rv_op_illegal rv_op_illegal rv_op_illegal 0;
   mk_rv_opcode_data "fclass.s" rv_codec_r rv_fmt_rd_frs1 None rv_op_illegal rv_op_illegal rv_op_illegal 0;
   mk_rv_opcode_data "fmv.s.x" rv_codec_r rv_fmt_frd_rs1 None rv_op_illegal rv_op_illegal rv_op_illegal 0;
   mk_rv_opcode_data "fcvt.l.s" rv_codec_r_m rv_fmt_rm_rd_frs1 None rv_op_illegal rv_op_illegal rv_op_illegal 0;
   mk_rv_opcode_data "fcvt.lu.s" rv_codec_r_m rv_fmt_rm_rd_frs1 None rv_op_illegal rv_op_illegal rv_op_illegal 0;
   mk_rv_opcode_data "fcvt.s.l" rv_codec_r_m rv_fmt_rm_frd_rs1 None rv_op_illegal rv_op_illegal rv_op_illegal 0;
   mk_rv_opcode_data "fcvt.s.lu" rv_codec_r_m rv_fmt_rm_frd_rs1 None rv_op_illegal rv_op_illegal rv_op_illegal 0;
   mk_rv_opcode_data "fld" rv_codec_i rv_fmt_frd_offset_rs1 None rv_op_illegal rv_op_illegal rv_op_illegal 0;
   mk_rv_opcode_data "fsd" rv_codec_s rv_fmt_frs2_offset_rs1 None rv_op_illegal rv_op_illegal rv_op_illegal 0;
   mk_rv_opcode_data "fmadd.d" rv_codec_r4_m rv_fmt_rm_frd_frs1_frs2_frs3 None rv_op_illegal rv_op_illegal rv_op_illegal 0;
   mk_rv_opcode_data "fmsub.d" rv_codec_r4_m rv_fmt_rm_frd_frs1_frs2_frs3 None rv_op_illegal rv_op_illegal rv_op_illegal 0;
   mk_rv_opcode_data "fnmsub.d" rv_codec_r4_m rv_fmt_rm_frd_frs1_frs2_frs3 None rv_op_illegal rv_op_illegal rv_op_illegal 0;
   mk_rv_opcode_data "fnmadd.d" rv_codec_r4_m rv_fmt_rm_frd_frs1_frs2_frs3 None rv_op_illegal rv_op_illegal rv_op_illegal 0;
   mk_rv_opcode_data "fadd.d" rv_codec_r_m rv_fmt_rm_frd_frs1_frs2 None rv_op_illegal rv_op_illegal rv_op_illegal 0;
   mk_rv_opcode_data "fsub.d" rv_codec_r_m rv_fmt_rm_frd_frs1_frs2 None rv_op_illegal rv_op_illegal rv_op_illegal 0;
   mk_rv_opcode_data "fmul.d" rv_codec_r_m rv_fmt_rm_frd_frs1_frs2 None rv_op_illegal rv_op_illegal rv_op_illegal 0;
   mk_rv_opcode_data "fdiv.d" rv_codec_r_m rv_fmt_rm_frd_frs1_frs2 None rv_op_illegal rv_op_illegal rv_op_illegal 0;
   mk_rv_opcode_data "fsgnj.d" rv_codec_r rv_fmt_frd_frs1_frs2 (Some rvcp_fsgnj_d) rv_op_illegal rv_op_illegal rv_op_illegal 0;
   mk_rv_opcode_data "fsgnjn.d" rv_codec_r rv_fmt_frd_frs1_frs2 (Some rvcp_fsgnjn_d) rv_op_illegal rv_op_illegal rv_op_illegal 0;
   mk_rv_opcode_data "fsgnjx.d" rv_codec_r rv_fmt_frd_frs1_frs2 (Some rvcp_fsgnjx_d) rv_op_illegal rv_op_illegal rv_op_illegal 0;
   mk_rv_opcode_data "fmin.d" rv_codec_r rv_fmt_frd_frs1_frs2 None rv_op_illegal rv_op_illegal rv_op_illegal 0;
   mk_rv_opcode_data "fmax.d" rv_codec_r rv_fmt_frd_frs1_frs2 None rv_op_illegal rv_op_illegal rv_op_illegal 0;
   mk_rv_opcode_data "fcvt.s.d" rv_codec_r_m rv_fmt_rm_frd_frs1 None rv_op_illegal rv_op_illegal rv_op_illegal 0;
   mk_rv_opcode_data "fcvt.d.s" rv_codec_r_m rv_fmt_rm_frd_frs1 None rv_op_illegal rv_op_illegal rv_op_illegal 0;
   mk_rv_opcode_data "fsqrt.d" rv_codec_r_m rv_fmt_rm_frd_frs1 None rv_op_illegal rv_op_illegal rv_op_illegal 0;
   mk_rv_opcode_data "fle.d" rv_codec_r rv_fmt_rd_frs1_frs2 None rv_op_illegal rv_op_illegal rv_op_illegal 0;
   mk_rv_opcode_data "flt.d" rv_codec_r rv_fmt_rd_frs1_frs2 None rv_op_illegal rv_op_illegal rv_op_illegal 0;
   mk_rv_opcode_data "feq.d" rv_codec_r rv_fmt_rd_frs1_frs2 None rv_op_illegal rv_op_illegal rv_op_illegal 0;
   mk_rv_opcode_data "fcvt.w.d" rv_codec_r_m rv_fmt_rm_rd_frs1 None rv_op_illegal rv_op_illegal rv_op_illegal 0;
   mk_rv_opcode_data "fcvt.wu.d" rv_codec_r_m rv_fmt_rm_rd_frs1 None rv_op_illegal rv_op_illegal rv_op_illegal 0;
   mk_rv_opcode_data "fcvt.d.w" rv_codec_r_m rv_fmt_rm_frd_rs1 None rv_op_illegal rv_op_illegal rv_op_illegal 0;
   mk_rv_opcode_data "fcvt.d.wu" rv_codec_r_m rv_fmt_rm_frd_rs1 None rv_op_illegal rv_op_illegal rv_op_illegal 0;
   mk_rv_opcode_data "fclass.d" rv_codec_r rv_fmt_rd_frs1 None rv_op_illegal rv_op_illegal rv_op_illegal 0;
   mk_rv_opcode_data "fcvt.l.d" rv_codec_r_m rv_fmt_rm_rd_frs1 None rv_op_illegal rv_op_illegal rv_op_illegal 0;
   mk_rv_opcode_data "fcvt.lu.d" rv_codec_r_m rv_fmt_rm_rd_frs1 None rv_op_illegal rv_op_illegal rv_op_illegal 0;
   mk_rv_opcode_data "fmv.x.d" rv_codec_r rv_fmt_rd_frs1 None rv_op_illegal rv_op_illegal rv_op_illegal 0;
   mk_rv_opcode_data "fcvt.d.l" rv_codec_r_m rv_fmt_rm_frd_rs1 None rv_op_illegal rv_op_illegal rv_op_illegal 0;
   mk_rv_opcode_data "fcvt.d.lu" rv_codec_r_m rv_fmt_rm_frd_rs1 None rv_op_illegal rv_op_illegal rv_op_illegal 0;
   mk_rv_opcode_data "fmv.d.x" rv_codec_r rv_fmt_frd_rs1 None rv_op_illegal rv_op_illegal rv_op_illegal 0;
   mk_rv_opcode_data "flq" rv_codec_i rv_fmt_frd_offset_rs1 None rv_op_illegal rv_op_illegal rv_op_illegal 0;
   mk_rv_opcode_data "fsq" rv_codec_s rv_fmt_frs2_offset_rs1 None rv_op_illegal rv_op_illegal rv_op_illegal 0;
   mk_rv_opcode_data "fmadd.q" rv_codec_r4_m rv_fmt_rm_frd_frs1_frs2_frs3 None rv_op_illegal rv_op_illegal rv_op_illegal 0;
   mk_rv_opcode_data "fmsub.q" rv_codec_r4_m rv_fmt_rm_frd_frs1_frs2_frs3 None rv_op_illegal rv_op_illegal rv_op_illegal 0;
   mk_rv_opcode_data "fnmsub.q" rv_codec_r4_m rv_fmt_rm_frd_frs1_frs2_frs3 None rv_op_illegal rv_op_illegal rv_op_illegal 0;
   mk_rv_opcode_data "fnmadd.q" rv_codec_r4_m rv_fmt_rm_frd_frs1_frs2_frs3 None rv_op_illegal rv_op_illegal rv_op_illegal 0;
   mk_rv_opcode_data "fadd.q" rv_codec_r_m rv_fmt_rm_frd_frs1_frs2 None rv_op_illegal rv_op_illegal rv_op_illegal 0;
   mk_rv_opcode_data "fsub.q" rv_codec_r_m rv_fmt_rm_frd_frs1_frs2 None rv_op_illegal rv_op_illegal rv_op_illegal 0;
   mk_rv_opcode_data "fmul.q" rv_codec_r_m rv_fmt_rm_frd_frs1_frs2 None rv_op_illegal rv_op_illegal rv_op_illegal 0;
   mk_rv_opcode_data "fdiv.q" rv_codec_r_m rv_fmt_rm_frd_frs1_frs2 None rv_op_illegal rv_op_illegal rv_op_illegal 0;
   mk_rv_opcode_data "fsgnj.q" rv_codec_r rv_fmt_frd_frs1_frs2 (Some rvcp_fsgnj_q) rv_op_illegal rv_op_illegal rv_op_illegal 0;
   mk_rv_opcode_data "fsgnjn.q" rv_codec_r rv_fmt_frd_frs1_frs2 (Some rvcp_fsgnjn_q) rv_op_illegal rv_op_illegal rv_op_illegal 0;
   mk_rv_opcode_data "fsgnjx.q" rv_codec_r rv_fmt_frd_frs1_frs2 (Some rvcp_fsgnjx_q) rv_op_illegal rv_op_illegal rv_op_illegal 0;
   mk_rv_opcode_data "fmin.q" rv_codec_r rv_fmt_frd_frs1_frs2 None rv_op_illegal rv_op_illegal rv_op_illegal 0;
   mk_rv_opcode_data "fmax.q" rv_codec_r rv_fmt_frd_frs1_frs2 None rv_op_illegal rv_op_illegal rv_op_illegal 0;
   mk_rv_opcode_data "fcvt.s.q" rv_codec_r_m rv_fmt_rm_frd_frs1 None rv_op_illegal rv_op_illegal rv_op_illegal 0;
   mk_rv_opcode_data "fcvt.q.s" rv_codec_r_m rv_fmt_rm_frd_frs1 None rv_op_illegal rv_op_illegal rv_op_illegal 0;
   mk_rv_opcode_data "fcvt.d.q" rv_codec_r_m rv_fmt_rm_frd_frs1 None rv_op_illegal rv_op_illegal rv_op_illegal 0;
   mk_rv_opcode_data "fcvt.q.d" rv_codec_r_m rv_fmt_rm_frd_frs1 None rv_op_illegal rv_op_illegal rv_op_illegal 0;
   mk_rv_opcode_data "fsqrt.q" rv_codec_r_m rv_fmt_rm_frd_frs1 None rv_op_illegal rv_op_illegal rv_op_illegal 0;
   mk_rv_opcode_data "fle.q" rv_codec_r rv_fmt_rd_frs1_frs2 None rv_op_illegal rv_op_illegal rv_op_illegal 0;
   mk_rv_opcode_data "flt.q" rv_codec_r rv_fmt_rd_frs1_frs2 None rv_op_illegal rv_op_illegal rv_op_illegal 0;
   mk_rv_opcode_data "feq.q" rv_codec_r rv_fmt_rd_frs1_frs2 None rv_op_illegal rv_op_illegal rv_op_illegal 0;
   mk_rv_opcode_data "fcvt.w.q" rv_codec_r_m rv_fmt_rm_rd_frs1 None rv_op_illegal rv_op_illegal rv_op_illegal 0;
   mk_rv_opcode_data "fcvt.wu.q" rv_codec_r_m rv_fmt_rm_rd_frs1 None rv_op_illegal rv_op_illegal rv_op_illegal 0;
   mk_rv_opcode_data "fcvt.q.w" rv_codec_r_m rv_fmt_rm_frd_rs1 None rv_op_illegal rv_op_illegal rv_op_illegal 0;
   mk_rv_opcode_data "fcvt.q.wu" rv_codec_r_m rv_fmt_rm_frd_rs1 None rv_op_illegal rv_op_illegal rv_op_illegal 0;
   mk_rv_opcode_data "fclass.q" rv_codec_r rv_fmt_rd_frs1 None rv_op_illegal rv_op_illegal rv_op_illegal 0;
   mk_rv_opcode_data "fcvt.l.q" rv_codec_r_m rv_fmt_rm_rd_frs1 None rv_op_illegal rv_op_illegal rv_op_illegal 0;
   mk_rv_opcode_data "fcvt.lu.q" rv_codec_r_m rv_fmt_rm_rd_frs1 None rv_op_illegal rv_op_illegal rv_op_illegal 0;
   mk_rv_opcode_data "fcvt.q.l" rv_codec_r_m rv_fmt_rm_frd_rs1 None rv_op_illegal rv_op_illegal rv_op_illegal 0;
   mk_rv_opcode_data "fcvt.q.lu" rv_codec_r_m rv_fmt_rm_frd_rs1 None rv_op_illegal rv_op_illegal rv_op_illegal 0;
   mk_rv_opcode_data "fmv.x.q" rv_codec_r rv_fmt_rd_frs1 None rv_op_illegal rv_op_illegal rv_op_illegal 0;
   mk_rv_opcode_data "fmv.q.x" rv_codec_r rv_fmt_frd_rs1 None rv_op_illegal rv_op_illegal rv_op_illegal 0]%string.

Definition opcode_data_rvc : list rv_opcode_data :=
  [mk_rv_opcode_data "c.addi4spn" rv_codec_ciw_4spn rv_fmt_rd_rs1_imm None rv_op_addi rv_op_addi rv_op_addi rvcd_imm_nz;
   mk_rv_opcode_data "c.fld" rv_codec_cl_ld rv_fmt_frd_offset_rs1 None rv_op_fld rv_op_fld rv_op_illegal 0;
   mk_rv_opcode_data "c.lw" rv_codec_cl_lw rv_fmt_rd_offset_rs1 None rv_op_lw rv_op_lw rv_op_lw 0;
   mk_rv_opcode_data "c.flw" rv_codec_cl_lw rv_fmt_frd_offset_rs1 None rv_op_flw rv_op_illegal rv_op_illegal 0;
   mk_rv_opcode_data "c.fsd" rv_codec_cs_sd rv_fmt_frs2_offset_rs1 None rv_op_fsd rv_op_fsd rv_op_illegal 0;
   mk_rv_opcode_data "c.sw" rv_codec_cs_sw rv_fmt_rs2_offset_rs1 None rv_op_sw rv_op_sw rv_op_sw 0;
   mk_rv_opcode_data "c.fsw" rv_codec_cs_sw rv_fmt_frs2_offset_rs1 None rv_op_fsw rv_op_illegal rv_op_illegal 0;
   mk_rv_opcode_data "c.nop" rv_codec_ci_none rv_fmt_none None rv_op_addi rv_op_addi rv_op_addi 0;
   mk_rv_opcode_data "c.addi" rv_codec_ci rv_fmt_rd_rs1_imm None rv_op_addi rv_op_addi rv_op_addi rvcd_imm_nz_hint;
   mk_rv_opcode_data "c.jal" rv_codec_cj_jal rv_fmt_rd_offset None rv_op_jal rv_op_illegal rv_op_illegal 0;
   mk_rv_opcode_data "c.li" rv_codec_ci_li rv_fmt_rd_rs1_imm None rv_op_addi rv_op_addi rv_op_addi 0;
   mk_rv_opcode_data "c.addi16sp" rv_codec_ci_16sp rv_fmt_rd_rs1_imm None rv_op_addi rv_op_addi rv_op_addi rvcd_imm_nz;
   mk_rv_opcode_data "c.lui" rv_codec_ci_lui rv_fmt_rd_imm None rv_op_lui rv_op_lui rv_op_lui rvcd_imm_nz;
   mk_rv_opcode_data "c.srli" rv_codec_cb_sh6 rv_fmt_rd_rs1_imm None rv_op_srli rv_op_srli rv_op_srli rvcd_imm_nz;
   mk_rv_opcode_data "c.srai" rv_codec_cb_sh6 rv_fmt_rd_rs1_imm None rv_op_srai rv_op_srai rv_op_srai rvcd_imm_nz;
   mk_rv_opcode_data "c.andi" rv_codec_cb_imm rv_fmt_rd_rs1_imm None rv_op_andi rv_op_andi rv_op_andi rvcd_imm_nz;
   mk_rv_opcode_data "c.sub" rv_codec_cs rv_fmt_rd_rs1_rs2 None rv_op_sub rv_op_sub rv_op_sub 0;
   mk_rv_opcode_data "c.xor" rv_codec_cs rv_fmt_rd_rs1_rs2 None rv_op_xor rv_op_xor rv_op_xor 0;
   mk_rv_opcode_data "c.or" rv_codec_cs rv_fmt_rd_rs1_rs2 None rv_op_or rv_op_or rv_op_or 0;
   mk_rv_opcode_data "c.and" rv_codec_cs rv_fmt_rd_rs1_rs2 None rv_op_and rv_op_and rv_op_and 0;
   mk_rv_opcode_data "c.subw" rv_codec_cs rv_fmt_rd_rs1_rs2 None rv_op_subw rv_op_subw rv_op_subw 0;
   mk_rv_opcode_data "c.addw" rv_codec_cs rv_fmt_rd_rs1_rs2 None rv_op_addw rv_op_addw rv_op_addw 0;
   mk_rv_opcode_data "c.j" rv_codec_cj rv_fmt_rd_offset None rv_op_jal rv_op_jal rv_op_jal 0;
   mk_rv_opcode_data "c.beqz" rv_codec_cb rv_fmt_rs1_rs2_offset None rv_op_beq rv_op_beq rv_op_beq 0;
   mk_rv_opcode_data "c.bnez" rv_codec_cb rv_fmt_rs1_rs2_offset None rv_op_bne rv_op_bne rv_op_bne 0;
   mk_rv_opcode_data "c.slli" rv_codec_ci_sh6 rv_fmt_rd_rs1_imm None rv_op_slli rv_op_slli rv_op_slli rvcd_imm_nz;
   mk_rv_opcode_data "c.fldsp" rv_codec_ci_ldsp rv_fmt_frd_offset_rs1 None rv_op_fld rv_op_fld rv_op_fld 0;
   mk_rv_opcode_data "c.lwsp" rv_codec_ci_lwsp rv_fmt_rd_offset_rs1 None rv_op_lw rv_op_lw rv_op_lw 0;
   mk_rv_opcode_data "c.flwsp" rv_codec_ci_lwsp rv_fmt_frd_offset_rs1 None rv_op_flw rv_op_illegal rv_op_illegal 0;
   mk_rv_opcode_data "c.jr" rv_codec_cr_jr rv_fmt_rd_rs1_offset None rv_op_jalr rv_op_jalr rv_op_jalr 0;
   mk_rv_opcode_data "c.mv" rv_codec_cr_mv rv_fmt_rd_rs1_rs2 None rv_op_addi rv_op_addi rv_op_addi 0;
   mk_rv_opcode_data "c.ebreak" rv_codec_ci_none rv_fmt_none None rv_op_ebreak rv_op_ebreak rv_op_ebreak 0;
   mk_rv_opcode_data "c.jalr" rv_codec_cr_jalr rv_fmt_rd_rs1_offset None rv_op_jalr rv_op_jalr rv_op_jalr 0;
   mk_rv_opcode_data "c.add" rv_codec_cr rv_fmt_rd_rs1_rs2 None rv_op_add rv_op_add rv_op_add 0;
   mk_rv_opcode_data "c.fsdsp" rv_codec_css_sdsp rv_fmt_frs2_offset_rs1 None rv_op_fsd rv_op_fsd rv_op_fsd 0;
   mk_rv_opcode_data "c.swsp" rv_codec_css_swsp rv_fmt_rs2_offset_rs1 None rv_op_sw rv_op_sw rv_op_sw 0;
   mk_rv_opcode_data "c.fswsp" rv_codec_css_swsp rv_fmt_frs2_offset_rs1 None rv_op_fsw rv_op_illegal rv_op_illegal 0;
   mk_rv_opcode_data "c.ld" rv_codec_cl_ld rv_fmt_rd_offset_rs1 None rv_op_illegal rv_op_ld rv_op_ld 0;
   mk_rv_opcode_data "c.sd" rv_codec_cs_sd rv_fmt_rs2_offset_rs1 None rv_op_illegal rv_op_sd rv_op_sd 0;
   mk_rv_opcode_data "c.addiw" rv_codec_ci rv_fmt_rd_rs1_imm None rv_op_illegal rv_op_addiw rv_op_addiw 0;
   mk_rv_opcode_data "c.ldsp" rv_codec_ci_ldsp rv_fmt_rd_offset_rs1 None rv_op_illegal rv_op_ld rv_op_ld 0;
   mk_rv_opcode_data "c.sdsp" rv_codec_css_sdsp rv_fmt_rs2_offset_rs1 None rv_op_illegal rv_op_sd rv_op_sd 0;
   mk_rv_opcode_data "c.lq" rv_codec_cl_lq rv_fmt_rd_offset_rs1 None rv_op_illegal rv_op_illegal rv_op_lq 0;
   mk_rv_opcode_data "c.sq" rv_codec_cs_sq rv_fmt_rs2_offset_rs1 None rv_op_illegal rv_op_illegal rv_op_sq 0;
   mk_rv_opcode_data "c.lqsp" rv_codec_ci_lqsp rv_fmt_rd_offset_rs1 None rv_op_illegal rv_op_illegal rv_op_lq 0;
   mk_rv_opcode_data "c.sqsp" rv_codec_css_sqsp rv_fmt_rs2_offset_rs1 None rv_op_illegal rv_op_illegal rv_op_sq 0]%string.

Definition opcode_data_pseudo : list rv_opcode_data :=
  [mk_rv_opcode_data "nop" rv_codec_i rv_fmt_none None rv_op_illegal rv_op_illegal rv_op_illegal 0;
   mk_rv_opcode_data "mv" rv_codec_i rv_fmt_rd_rs1 None rv_op_illegal rv_op_illegal rv_op_illegal 0;
   mk_rv_opcode_data "not" rv_codec_i rv_fmt_rd_rs1 None rv_op_illegal rv_op_illegal rv_op_illegal 0;
   mk_rv_opcode_data "neg" rv_codec_r rv_fmt_rd_rs2 None rv_op_illegal rv_op_illegal rv_op_illegal 0;
   mk_rv_opcode_data "negw" rv_codec_r rv_fmt_rd_rs2 None rv_op_illegal rv_op_illegal rv_op_illegal 0;
   mk_rv_opcode_data "sext.w" rv_codec_i rv_fmt_rd_rs1 None rv_op_illegal rv_op_illegal rv_op_illegal 0;
   mk_rv_opcode_data "seqz" rv_codec_i rv_fmt_rd_rs1 None rv_op_illegal rv_op_illegal rv_op_illegal 0;
   mk_rv_opcode_data "snez" rv_codec_r rv_fmt_rd_rs2 None rv_op_illegal rv_op_illegal rv_op_illegal 0;
   mk_rv_opcode_data "sltz" rv_codec_r rv_fmt_rd_rs1 None rv_op_illegal rv_op_illegal rv_op_illegal 0;
   mk_rv_opcode_data "sgtz" rv_codec_r rv_fmt_rd_rs2 None rv_op_illegal rv_op_illegal rv_op_illegal 0;
   mk_rv_opcode_data "fmv.s" rv_codec_r rv_fmt_rd_rs1 None rv_op_illegal rv_op_illegal rv_op_illegal 0;
   mk_rv_opcode_data "fabs.s" rv_codec_r rv_fmt_rd_rs1 None rv_op_illegal rv_op_illegal rv_op_illegal 0;
   mk_rv_opcode_data "fneg.s" rv_codec_r rv_fmt_rd_rs1 None rv_op_illegal rv_op_illegal rv_op_illegal 0;
   mk_rv_opcode_data "fmv.d" rv_codec_r rv_fmt_rd_rs1 None rv_op_illegal rv_op_illegal rv_op_illegal 0;
   mk_rv_opcode_data "fabs.d" rv_codec_r rv_fmt_rd_rs1 None rv_op_illegal rv_op_illegal rv_op_illegal 0;
   mk_rv_opcode_data "fneg.d" rv_codec_r rv_fmt_rd_rs1 None rv_op_illegal rv_op_illegal rv_op_illegal 0;
   mk_rv_opcode_data "fmv.q" rv_codec_r rv_fmt_rd_rs1 None rv_op_illegal rv_op_illegal rv_op_illegal 0;
   mk_rv_opcode_data "fabs.q" rv_codec_r rv_fmt_rd_rs1 None rv_op_illegal rv_op_illegal rv_op_illegal 0;
   mk_rv_opcode_data "fneg.q" rv_codec_r rv_fmt_rd_rs1 None rv_op_illegal rv_op_illegal rv_op_illegal 0;
   mk_rv_opcode_data "beqz" rv_codec_sb rv_fmt_rs1_offset None rv_op_illegal rv_op_illegal rv_op_illegal 0;
   mk_rv_opcode_data "bnez" rv_codec_sb rv_fmt_rs1_offset None rv_op_illegal rv_op_illegal rv_op_illegal 0;
   mk_rv_opcode_data "blez" rv_codec_sb rv_fmt_rs2_offset None rv_op_illegal rv_op_illegal rv_op_illegal 0;
   mk_rv_opcode_data "bgez" rv_codec_sb rv_fmt_rs1_offset None rv_op_illegal rv_op_illegal rv_op_illegal 0;
   mk_rv_opcode_data "bltz" rv_codec_sb rv_fmt_rs1_offset None rv_op_illegal rv_op_illegal rv_op_illegal 0;
   mk_rv_opcode_data "bgtz" rv_codec_sb rv_fmt_rs2_offset None rv_op_illegal rv_op_illegal rv_op_illegal 0;
   mk_rv_opcode_data "ble" rv_codec_sb rv_fmt_rs2_rs1_offset None rv_op_illegal rv_op_illegal rv_op_illegal 0;
   mk_rv_opcode_data "bleu" rv_codec_sb rv_fmt_rs2_rs1_offset None rv_op_illegal rv_op_illegal rv_op_illegal 0;
   mk_rv_opcode_data "bgt" rv_codec_sb rv_fmt_rs2_rs1_offset None rv_op_illegal rv_op_illegal rv_op_illegal 0;
   mk_rv_opcode_data "bgtu" rv_codec_sb rv_fmt_rs2_rs1_offset None rv_op_illegal rv_op_illegal rv_op_illegal 0;
   mk_rv_opcode_data "j" rv_codec_uj rv_fmt_offset None rv_op_illegal rv_op_illegal rv_op_illegal 0;
   mk_rv_opcode_data "ret" rv_codec_i rv_fmt_none None rv_op_illegal rv_op_illegal rv_op_illegal 0;
   mk_rv_opcode_data "jr" rv_codec_i rv_fmt_rs1 None rv_op_illegal rv_op_illegal rv_op_illegal 0;
   mk_rv_opcode_data "rdcycle" rv_codec_i_csr rv_fmt_rd None rv_op_illegal rv_op_illegal rv_op_illegal 0;
   mk_rv_opcode_data "rdtime" rv_codec_i_csr rv_fmt_rd None rv_op_illegal rv_op_illegal rv_op_illegal 0;
   mk_rv_opcode_data "rdinstret" rv_codec_i_csr rv_fmt_rd None rv_op_illegal rv_op_illegal rv_op_illegal 0;
   mk_rv_opcode_data "rdcycleh" rv_codec_i_csr rv_fmt_rd None rv_op_illegal rv_op_illegal rv_op_illegal 0;
   mk_rv_opcode_data "rdtimeh" rv_codec_i_csr rv_fmt_rd None rv_op_illegal rv_op_illegal rv_op_illegal 0;
   mk_rv_opcode_data "rdinstreth" rv_codec_i_csr rv_fmt_rd None rv_op_illegal rv_op_illegal rv_op_illegal 0;
   mk_rv_opcode_data "frcsr" rv_codec_i_csr rv_fmt_rd None rv_op_illegal rv_op_illegal rv_op_illegal 0;
   mk_rv_opcode_data "frrm" rv_codec_i_csr rv_fmt_rd None rv_op_illegal rv_op_illegal rv_op_illegal 0;
   mk_rv_opcode_data "frflags" rv_codec_i_csr rv_fmt_rd None rv_op_illegal rv_op_illegal rv_op_illegal 0;
   mk_rv_opcode_data "fscsr" rv_codec_i_csr rv_fmt_rd_rs1 None rv_op_illegal rv_op_illegal rv_op_illegal 0;
   mk_rv_opcode_data "fsrm" rv_codec_i_csr rv_fmt_rd_rs1 None rv_op_illegal rv_op_illegal rv_op_illegal 0;
   mk_rv_opcode_data "fsflags" rv_codec_i_csr rv_fmt_rd_rs1 None rv_op_illegal rv_op_illegal rv_op_illegal 0;
   mk_rv_opcode_data "fsrmi" rv_codec_i_csr rv_fmt_rd_zimm None rv_op_illegal rv_op_illegal rv_op_illegal 0;
   mk_rv_opcode_data "fsflagsi" rv_codec_i_csr rv_fmt_rd_zimm None rv_op_illegal rv_op_illegal rv_op_illegal 0]%string.

Definition opcode_data : list rv_opcode_data :=
  opcode_data_int ++ opcode_data_fp ++ opcode_data_rvc ++ opcode_data_pseudo.

(** ** Names of the control and status registers *)

Definition csr_names_low : list (Z * string) :=
  [(0, "ustatus"); (1, "fflags"); (2, "frm"); (3, "fcsr"); (4, "uie"); (5, "utvec");
   (64, "uscratch"); (65, "uepc"); (66, "ucause"); (67, "utval"); (68, "uip");
   (256, "sstatus"); (258, "sedeleg"); (259, "sideleg"); (260, "sie"); (261, "stvec");
   (262, "scounteren"); (320, "sscratch"); (321, "sepc"); (322, "scause"); (323, "stval");
   (324, "sip"); (384, "satp"); (512, "hstatus"); (514, "hedeleg"); (515, "hideleg");
   (516, "hie"); (517, "htvec"); (576, "hscratch"); (577, "hepc"); (578, "hcause");
   (579, "hbadaddr"); (580, "hip"); (768, "mstatus"); (769, "misa"); (770, "medeleg");
   (771, "mideleg"); (772, "mie"); (773, "mtvec"); (774, "mcounteren");
   (800, "mucounteren"); (801, "mscounteren"); (802, "mhcounteren"); (803, "mhpmevent3");
   (804, "mhpmevent4"); (805, "mhpmevent5"); (806, "mhpmevent6"); (807, "mhpmevent7");
   (808, "mhpmevent8"); (809, "mhpmevent9"); (810, "mhpmevent10"); (811, "mhpmevent11");
   (812, "mhpmevent12"); (813, "mhpmevent13"); (814, "mhpmevent14"); (815, "mhpmevent15");
   (816, "mhpmevent16"); (817, "mhpmevent17"); (818, "mhpmevent18"); (819, "mhpmevent19");
   (820, "mhpmevent20"); (821, "mhpmevent21"); (822, "mhpmevent22"); (823, "mhpmevent23");
   (824, "mhpmevent24"); (825, "mhpmevent25"); (826, "mhpmevent26"); (827, "mhpmevent27");
   (828, "mhpmevent28"); (829, "mhpmevent29"); (830, "mhpmevent30"); (831, "mhpmevent31");
   (832, "mscratch"); (833, "mepc"); (834, "mcause"); (835, "mtval"); (836, "mip");
   (896, "mbase"); (897, "mbound"); (898, "mibase"); (899, "mibound"); (900, "mdbase");
   (901, "mdbound"); (928, "pmpcfg0"); (929, "pmpcfg1"); (930, "pmpcfg2");
   (931, "pmpcfg3"); (944, "pmpaddr0"); (945, "pmpaddr1"); (946, "pmpaddr2");
   (947, "pmpaddr3"); (948, "pmpaddr4"); (949, "pmpaddr5"); (950, "pmpaddr6");
   (951, "pmpaddr7"); (952, "pmpaddr8"); (953, "pmpaddr9"); (954, "pmpaddr10");
   (955, "pmpaddr11"); (956, "pmpaddr12"); (957, "pmpaddr14"); (958, "pmpaddr13");
   (959, "pmpaddr15"); (1920, "mtohost"); (1921, "mfromhost"); (1922, "mreset");
   (1923, "mipi"); (1924, "miobase"); (1952, "tselect"); (1953, "tdata1");
   (1954, "tdata2"); (1955, "tdata3"); (1968, "dcsr"); (1969, "dpc"); (1970, "dscratch")]%string.

Definition csr_names_high : list (Z * string) :=
  [(2816, "mcycle"); (2817, "mtime"); (2818, "minstret"); (2819, "mhpmcounter3");
   (2820, "mhpmcounter4"); (2821, "mhpmcounter5"); (2822, "mhpmcounter6");
   (2823, "mhpmcounter7"); (2824, "mhpmcounter8"); (2825, "mhpmcounter9");
   (2826, "mhpmcounter10"); (2827, "mhpmcounter11"); (2828, "mhpmcounter12");
   (2829, "mhpmcounter13"); (2830, "mhpmcounter14"); (2831, "mhpmcounter15");
   (2832, "mhpmcounter16"); (2833, "mhpmcounter17"); (2834, "mhpmcounter18");
   (2835, "mhpmcounter19"); (2836, "mhpmcounter20"); (2837, "mhpmcounter21");
   (2838, "mhpmcounter22"); (2839, "mhpmcounter23"); (2840, "mhpmcounter24");
   (2841, "mhpmcounter25"); (2842, "mhpmcounter26"); (2843, "mhpmcounter27");
   (2844, "mhpmcounter28"); (2845, "mhpmcounter29"); (2846, "mhpmcounter30");
   (2847, "mhpmcounter31"); (2944, "mcycleh"); (2945, "mtimeh"); (2946, "minstreth");
   (2947, "mhpmcounter3h"); (2948, "mhpmcounter4h"); (2949, "mhpmcounter5h");
   (2950, "mhpmcounter6h"); (2951, "mhpmcounter7h"); (2952, "mhpmcounter8h");
   (2953, "mhpmcounter9h"); (2954, "mhpmcounter10h"); (2955, "mhpmcounter11h");
   (2956, "mhpmcounter12h"); (2957, "mhpmcounter13h"); (2958, "mhpmcounter14h");
   (2959, "mhpmcounter15h"); (2960, "mhpmcounter16h"); (2961, "mhpmcounter17h");
   (2962, "mhpmcounter18h"); (2963, "mhpmcounter19h"); (2964, "mhpmcounter20h");
   (2965, "mhpmcounter21h"); (2966, "mhpmcounter22h"); (2967, "mhpmcounter23h");
   (2968, "mhpmcounter24h"); (2969, "mhpmcounter25h"); (2970, "mhpmcounter26h");
   (2971, "mhpmcounter27h"); (2972, "mhpmcounter28h"); (2973, "mhpmcounter29h");
   (2974, "mhpmcounter30h"); (2975, "mhpmcounter31h"); (3072, "cycle"); (3073, "time");
   (3074, "instret"); (3200, "cycleh"); (3201, "timeh"); (3202, "instreth");
   (3328, "scycle"); (3329, "stime"); (3330, "sinstret"); (3456, "scycleh");
   (3457, "stimeh"); (3458, "sinstreth"); (3584, "hcycle"); (3585, "htime");
   (3586, "hinstret"); (3712, "hcycleh"); (3713, "htimeh"); (3714, "hinstreth");
   (3857, "mvendorid"); (3858, "marchid"); (3859, "mimpid"); (3860, "mhartid")]%string.

(** [None] is the null pointer of the default case. *)
Definition csr_name (csrno : Z) : option string :=
  switch csrno (map (fun c => (c.1, Some c.2)) (csr_names_low ++ csr_names_high)) None.
