(* ===== verification/RiscvDecode.v ===== *)
(** * The RISC-V decoder: decode_inst_opcode and decode_inst_operands

    Translation of the opcode switches and of the operand extractors of
    src/disasm/riscv-disas.cpp.  An instruction word is a 64-bit number; the
    extractors shift it left and right as unsigned or signed 64-bit numbers and
    truncate the result to the type they return. *)

From S2P Require Import Prelude RiscvTables.

(** ** Opcodes *)

(** [(inst >> shift) & mask] *)
Definition bits (inst shift mask : Z) : Z := Z.land (Z.shiftr inst shift) mask.
#[global] Arguments bits : simpl never.

Definition rv_isa_eqb (a b : rv_isa) : bool :=
  match a, b with rv32, rv32 | rv64, rv64 | rv128, rv128 => true | _, _ => false end.
Definition if_isa (isa i : rv_isa) (a b : rv_op) : rv_op := if rv_isa_eqb isa i then a else b.

Definition decode_c0 (inst : Z) (isa : rv_isa) : rv_op :=
  switch (bits inst 13 7)
    [(0, rv_op_c_addi4spn); (1, if_isa isa rv128 rv_op_c_lq rv_op_c_fld); (2, rv_op_c_lw);
     (3, if_isa isa rv32 rv_op_c_flw rv_op_c_ld);
     (5, if_isa isa rv128 rv_op_c_sq rv_op_c_fsd); (6, rv_op_c_sw);
     (7, if_isa isa rv32 rv_op_c_fsw rv_op_c_sd)]
    rv_op_illegal.

Definition decode_c1 (inst : Z) (isa : rv_isa) : rv_op :=
  switch (bits inst 13 7)
    [(0, switch (bits inst 2 2047) [(0, rv_op_c_nop)] rv_op_c_addi);
     (1, if_isa isa rv32 rv_op_c_jal rv_op_c_addiw); (2, rv_op_c_li);
     (3, switch (bits inst 7 31) [(2, rv_op_c_addi16sp)] rv_op_c_lui);
     (4, switch (bits inst 10 3)
        [(0, rv_op_c_srli); (1, rv_op_c_srai); (2, rv_op_c_andi);
         (3, switch (Z.lor (bits inst 10 4) (bits inst 5 3))
            [(0, rv_op_c_sub); (1, rv_op_c_xor); (2, rv_op_c_or); (3, rv_op_c_and);
             (4, rv_op_c_subw); (5, rv_op_c_addw)]
            rv_op_illegal)]
        rv_op_illegal);
     (5, rv_op_c_j); (6, rv_op_c_beqz); (7, rv_op_c_bnez)]
    rv_op_illegal.

Definition decode_c2 (inst : Z) (isa : rv_isa) : rv_op :=
  switch (bits inst 13 7)
    [(0, rv_op_c_slli); (1, if_isa isa rv128 rv_op_c_lqsp rv_op_c_fldsp); (2, rv_op_c_lwsp);
     (3, if_isa isa rv32 rv_op_c_flwsp rv_op_c_ldsp);
     (4, switch (bits inst 12 1)
        [(0, switch (bits inst 2 31) [(0, rv_op_c_jr)] rv_op_c_mv);
         (1, switch (bits inst 2 31)
            [(0, switch (bits inst 7 31) [(0, rv_op_c_ebreak)] rv_op_c_jalr)]
            rv_op_c_add)]
        rv_op_illegal);
     (5, if_isa isa rv128 rv_op_c_sqsp rv_op_c_fsdsp); (6, rv_op_c_swsp);
     (7, if_isa isa rv32 rv_op_c_fswsp rv_op_c_sdsp)]
    rv_op_illegal.

Definition decode_load (inst : Z) : rv_op :=
  switch (bits inst 12 7)
    [(0, rv_op_lb); (1, rv_op_lh); (2, rv_op_lw); (3, rv_op_ld); (4, rv_op_lbu);
     (5, rv_op_lhu); (6, rv_op_lwu); (7, rv_op_ldu)]
    rv_op_illegal.

Definition decode_load_fp (inst : Z) : rv_op :=
  switch (bits inst 12 7)
    [(2, rv_op_flw); (3, rv_op_fld); (4, rv_op_flq)]
    rv_op_illegal.

Definition decode_misc_mem (inst : Z) : rv_op :=
  switch (bits inst 12 7)
    [(0, rv_op_fence); (1, rv_op_fence_i); (2, rv_op_lq)]
    rv_op_illegal.

Definition decode_op_imm (inst : Z) : rv_op :=
  switch (bits inst 12 7)
    [(0, rv_op_addi); (1, switch (bits inst 27 31) [(0, rv_op_slli)] rv_op_illegal);
     (2, rv_op_slti); (3, rv_op_sltiu); (4, rv_op_xori);
     (5, switch (bits inst 27 31)
        [(0, rv_op_srli); (8, rv_op_srai)]
        rv_op_illegal);
     (6, rv_op_ori); (7, rv_op_andi)]
    rv_op_illegal.

Definition decode_op_imm_32 (inst : Z) : rv_op :=
  switch (bits inst 12 7)
    [(0, rv_op_addiw); (1, switch (bits inst 25 127) [(0, rv_op_slliw)] rv_op_illegal);
     (5, switch (bits inst 25 127)
        [(0, rv_op_srliw); (32, rv_op_sraiw)]
        rv_op_illegal)]
    rv_op_illegal.

Definition decode_store (inst : Z) : rv_op :=
  switch (bits inst 12 7)
    [(0, rv_op_sb); (1, rv_op_sh); (2, rv_op_sw); (3, rv_op_sd); (4, rv_op_sq)]
    rv_op_illegal.

Definition decode_store_fp (inst : Z) : rv_op :=
  switch (bits inst 12 7)
    [(2, rv_op_fsw); (3, rv_op_fsd); (4, rv_op_fsq)]
    rv_op_illegal.

Definition decode_amo (inst : Z) : rv_op :=
  switch (Z.lor (bits inst 24 248) (bits inst 12 7))
    [(2, rv_op_amoadd_w); (3, rv_op_amoadd_d); (4, rv_op_amoadd_q); (10, rv_op_amoswap_w);
     (11, rv_op_amoswap_d); (12, rv_op_amoswap_q);
     (18, switch (bits inst 20 31) [(0, rv_op_lr_w)] rv_op_illegal);
     (19, switch (bits inst 20 31) [(0, rv_op_lr_d)] rv_op_illegal);
     (20, switch (bits inst 20 31) [(0, rv_op_lr_q)] rv_op_illegal); (26, rv_op_sc_w);
     (27, rv_op_sc_d); (28, rv_op_sc_q); (34, rv_op_amoxor_w); (35, rv_op_amoxor_d);
     (36, rv_op_amoxor_q); (66, rv_op_amoor_w); (67, rv_op_amoor_d); (68, rv_op_amoor_q);
     (98, rv_op_amoand_w); (99, rv_op_amoand_d); (100, rv_op_amoand_q);
     (130, rv_op_amomin_w); (131, rv_op_amomin_d); (132, rv_op_amomin_q);
     (162, rv_op_amomax_w); (163, rv_op_amomax_d); (164, rv_op_amomax_q);
     (194, rv_op_amominu_w); (195, rv_op_amominu_d); (196, rv_op_amominu_q);
     (226, rv_op_amomaxu_w); (227, rv_op_amomaxu_d); (228, rv_op_amomaxu_q)]
    rv_op_illegal.

Definition decode_op (inst : Z) : rv_op :=
  switch (Z.lor (bits inst 22 1016) (bits inst 12 7))
    [(0, rv_op_add); (1, rv_op_sll); (2, rv_op_slt); (3, rv_op_sltu); (4, rv_op_xor);
     (5, rv_op_srl); (6, rv_op_or); (7, rv_op_and); (8, rv_op_mul); (9, rv_op_mulh);
     (10, rv_op_mulhsu); (11, rv_op_mulhu); (12, rv_op_div); (13, rv_op_divu);
     (14, rv_op_rem); (15, rv_op_remu); (256, rv_op_sub); (261, rv_op_sra)]
    rv_op_illegal.

Definition decode_op_32 (inst : Z) : rv_op :=
  switch (Z.lor (bits inst 22 1016) (bits inst 12 7))
    [(0, rv_op_addw); (1, rv_op_sllw); (5, rv_op_srlw); (8, rv_op_mulw); (12, rv_op_divw);
     (13, rv_op_divuw); (14, rv_op_remw); (15, rv_op_remuw); (256, rv_op_subw);
     (261, rv_op_sraw)]
    rv_op_illegal.

Definition decode_madd (inst : Z) : rv_op :=
  switch (bits inst 25 3)
    [(0, rv_op_fmadd_s); (1, rv_op_fmadd_d); (3, rv_op_fmadd_q)]
    rv_op_illegal.

Definition decode_msub (inst : Z) : rv_op :=
  switch (bits inst 25 3)
    [(0, rv_op_fmsub_s); (1, rv_op_fmsub_d); (3, rv_op_fmsub_q)]
    rv_op_illegal.

Definition decode_nmsub (inst : Z) : rv_op :=
  switch (bits inst 25 3)
    [(0, rv_op_fnmsub_s); (1, rv_op_fnmsub_d); (3, rv_op_fnmsub_q)]
    rv_op_illegal.

Definition decode_nmadd (inst : Z) : rv_op :=
  switch (bits inst 25 3)
    [(0, rv_op_fnmadd_s); (1, rv_op_fnmadd_d); (3, rv_op_fnmadd_q)]
    rv_op_illegal.

Definition op_fp_cases_arith (inst : Z) : list (Z * rv_op) :=
  [(0, rv_op_fadd_s); (1, rv_op_fadd_d); (3, rv_op_fadd_q); (4, rv_op_fsub_s);
   (5, rv_op_fsub_d); (7, rv_op_fsub_q); (8, rv_op_fmul_s); (9, rv_op_fmul_d);
   (11, rv_op_fmul_q); (12, rv_op_fdiv_s); (13, rv_op_fdiv_d); (15, rv_op_fdiv_q);
   (16, switch (bits inst 12 7)
      [(0, rv_op_fsgnj_s); (1, rv_op_fsgnjn_s); (2, rv_op_fsgnjx_s)]
      rv_op_illegal);
   (17, switch (bits inst 12 7)
      [(0, rv_op_fsgnj_d); (1, rv_op_fsgnjn_d); (2, rv_op_fsgnjx_d)]
      rv_op_illegal);
   (19, switch (bits inst 12 7)
      [(0, rv_op_fsgnj_q); (1, rv_op_fsgnjn_q); (2, rv_op_fsgnjx_q)]
      rv_op_illegal);
   (20, switch (bits inst 12 7)
      [(0, rv_op_fmin_s); (1, rv_op_fmax_s)]
      rv_op_illegal);
   (21, switch (bits inst 12 7)
      [(0, rv_op_fmin_d); (1, rv_op_fmax_d)]
      rv_op_illegal);
   (23, switch (bits inst 12 7)
      [(0, rv_op_fmin_q); (1, rv_op_fmax_q)]
      rv_op_illegal);
   (32, switch (bits inst 20 31)
      [(1, rv_op_fcvt_s_d); (3, rv_op_fcvt_s_q)]
      rv_op_illegal);
   (33, switch (bits inst 20 31)
      [(0, rv_op_fcvt_d_s); (3, rv_op_fcvt_d_q)]
      rv_op_illegal);
   (35, switch (bits inst 20 31)
      [(0, rv_op_fcvt_q_s); (1, rv_op_fcvt_q_d)]
      rv_op_illegal);
   (44, switch (bits inst 20 31) [(0, rv_op_fsqrt_s)] rv_op_illegal);
   (45, switch (bits inst 20 31) [(0, rv_op_fsqrt_d)] rv_op_illegal);
   (47, switch (bits inst 20 31) [(0, rv_op_fsqrt_q)] rv_op_illegal)].

Definition op_fp_cases_conv (inst : Z) : list (Z * rv_op) :=
  [(80, switch (bits inst 12 7)
      [(0, rv_op_fle_s); (1, rv_op_flt_s); (2, rv_op_feq_s)]
      rv_op_illegal);
   (81, switch (bits inst 12 7)
      [(0, rv_op_fle_d); (1, rv_op_flt_d); (2, rv_op_feq_d)]
      rv_op_illegal);
   (83, switch (bits inst 12 7)
      [(0, rv_op_fle_q); (1, rv_op_flt_q); (2, rv_op_feq_q)]
      rv_op_illegal);
   (96, switch (bits inst 20 31)
      [(0, rv_op_fcvt_w_s); (1, rv_op_fcvt_wu_s); (2, rv_op_fcvt_l_s); (3, rv_op_fcvt_lu_s)]
      rv_op_illegal);
   (97, switch (bits inst 20 31)
      [(0, rv_op_fcvt_w_d); (1, rv_op_fcvt_wu_d); (2, rv_op_fcvt_l_d); (3, rv_op_fcvt_lu_d)]
      rv_op_illegal);
   (99, switch (bits inst 20 31)
      [(0, rv_op_fcvt_w_q); (1, rv_op_fcvt_wu_q); (2, rv_op_fcvt_l_q); (3, rv_op_fcvt_lu_q)]
      rv_op_illegal);
   (104, switch (bits inst 20 31)
      [(0, rv_op_fcvt_s_w); (1, rv_op_fcvt_s_wu); (2, rv_op_fcvt_s_l); (3, rv_op_fcvt_s_lu)]
      rv_op_illegal);
   (105, switch (bits inst 20 31)
      [(0, rv_op_fcvt_d_w); (1, rv_op_fcvt_d_wu); (2, rv_op_fcvt_d_l); (3, rv_op_fcvt_d_lu)]
      rv_op_illegal);
   (107, switch (bits inst 20 31)
      [(0, rv_op_fcvt_q_w); (1, rv_op_fcvt_q_wu); (2, rv_op_fcvt_q_l); (3, rv_op_fcvt_q_lu)]
      rv_op_illegal);
   (112, switch (Z.lor (bits inst 17 248) (bits inst 12 7))
      [(0, rv_op_fmv_x_s); (1, rv_op_fclass_s)]
      rv_op_illegal);
   (113, switch (Z.lor (bits inst 17 248) (bits inst 12 7))
      [(0, rv_op_fmv_x_d); (1, rv_op_fclass_d)]
      rv_op_illegal);
   (115, switch (Z.lor (bits inst 17 248) (bits inst 12 7))
      [(0, rv_op_fmv_x_q); (1, rv_op_fclass_q)]
      rv_op_illegal);
   (120, switch (Z.lor (bits inst 17 248) (bits inst 12 7)) [(0, rv_op_fmv_s_x)] rv_op_illegal);
   (121, switch (Z.lor (bits inst 17 248) (bits inst 12 7)) [(0, rv_op_fmv_d_x)] rv_op_illegal);
   (123, switch (Z.lor (bits inst 17 248) (bits inst 12 7)) [(0, rv_op_fmv_q_x)] rv_op_illegal)].

Definition decode_op_fp (inst : Z) : rv_op :=
  switch (bits inst 25 127) (op_fp_cases_arith inst ++ op_fp_cases_conv inst) rv_op_illegal.

Definition decode_op_imm_64 (inst : Z) : rv_op :=
  switch (bits inst 12 7)
    [(0, rv_op_addid); (1, switch (bits inst 26 63) [(0, rv_op_sllid)] rv_op_illegal);
     (5, switch (bits inst 26 63)
        [(0, rv_op_srlid); (16, rv_op_sraid)]
        rv_op_illegal)]
    rv_op_illegal.

Definition decode_branch (inst : Z) : rv_op :=
  switch (bits inst 12 7)
    [(0, rv_op_beq); (1, rv_op_bne); (4, rv_op_blt); (5, rv_op_bge); (6, rv_op_bltu);
     (7, rv_op_bgeu)]
    rv_op_illegal.

Definition decode_jalr (inst : Z) : rv_op :=
  switch (bits inst 12 7) [(0, rv_op_jalr)] rv_op_illegal.

Definition decode_system (inst : Z) : rv_op :=
  switch (bits inst 12 7)
    [(0, switch (Z.lor (bits inst 20 4064) (bits inst 7 31))
        [(0, switch (bits inst 15 1023)
            [(0, rv_op_ecall); (32, rv_op_ebreak); (64, rv_op_uret)]
            rv_op_illegal);
         (256, switch (bits inst 20 31)
            [(2, switch (bits inst 15 31) [(0, rv_op_sret)] rv_op_illegal);
             (4, rv_op_sfence_vm);
             (5, switch (bits inst 15 31) [(0, rv_op_wfi)] rv_op_illegal)]
            rv_op_illegal);
         (288, rv_op_sfence_vma);
         (512, switch (bits inst 15 1023) [(64, rv_op_hret)] rv_op_illegal);
         (768, switch (bits inst 15 1023) [(64, rv_op_mret)] rv_op_illegal);
         (1952, switch (bits inst 15 1023) [(576, rv_op_dret)] rv_op_illegal)]
        rv_op_illegal);
     (1, rv_op_csrrw); (2, rv_op_csrrs); (3, rv_op_csrrc); (5, rv_op_csrrwi);
     (6, rv_op_csrrsi); (7, rv_op_csrrci)]
    rv_op_illegal.

Definition decode_op_64 (inst : Z) : rv_op :=
  switch (Z.lor (bits inst 22 1016) (bits inst 12 7))
    [(0, rv_op_addd); (1, rv_op_slld); (5, rv_op_srld); (8, rv_op_muld); (12, rv_op_divd);
     (13, rv_op_divud); (14, rv_op_remd); (15, rv_op_remud); (256, rv_op_subd);
     (261, rv_op_srad)]
    rv_op_illegal.

(** Two low bits 11: a 32-bit instruction. *)
Definition decode_c3 (inst : Z) : rv_op :=
  switch (bits inst 2 31)
    [(0, decode_load inst); (1, decode_load_fp inst); (3, decode_misc_mem inst);
     (4, decode_op_imm inst); (5, rv_op_auipc); (6, decode_op_imm_32 inst);
     (8, decode_store inst); (9, decode_store_fp inst); (11, decode_amo inst);
     (12, decode_op inst); (13, rv_op_lui); (14, decode_op_32 inst); (16, decode_madd inst);
     (17, decode_msub inst); (18, decode_nmsub inst); (19, decode_nmadd inst);
     (20, decode_op_fp inst); (22, decode_op_imm_64 inst); (24, decode_branch inst);
     (25, decode_jalr inst); (27, rv_op_jal); (28, decode_system inst);
     (30, decode_op_64 inst)]
  rv_op_illegal.

Definition decode_opcode (inst : Z) (isa : rv_isa) : rv_op :=
  switch (bits inst 0 3)
    [(0, decode_c0 inst isa); (1, decode_c1 inst isa); (2, decode_c2 inst isa);
     (3, decode_c3 inst)]
    rv_op_illegal.

Definition set_op (dec : rv_decode) (op : rv_op) : rv_decode :=
  mk_rv_decode (dec_pc dec) (dec_inst dec) (dec_imm dec) op (dec_codec dec) (dec_rd dec)
    (dec_rs1 dec) (dec_rs2 dec) (dec_rs3 dec) (dec_rm dec) (dec_pred dec) (dec_succ dec)
    (dec_aq dec) (dec_rl dec).
Definition set_codec (dec : rv_decode) (codec : rv_codec) : rv_decode :=
  mk_rv_decode (dec_pc dec) (dec_inst dec) (dec_imm dec) (dec_op dec) codec (dec_rd dec)
    (dec_rs1 dec) (dec_rs2 dec) (dec_rs3 dec) (dec_rm dec) (dec_pred dec) (dec_succ dec)
    (dec_aq dec) (dec_rl dec).

Definition decode_inst_opcode (dec : rv_decode) (isa : rv_isa) : rv_decode :=
  set_op dec (decode_opcode (dec_inst dec) isa).

#[global] Arguments decode_opcode : simpl never.

(** ** Operand extractors *)

(** [(inst << a) >> b], on [uint64_t] and on [int64_t]. *)
Definition ufield (inst a b : Z) : Z := Z.shiftr (u64 (Z.shiftl inst a)) b.
Definition sfield (inst a b : Z) : Z := Z.shiftr (swrap 64 (Z.shiftl (swrap 64 inst) a)) b.
(** [x << n] on the same types. *)
Definition ushl (x n : Z) : Z := u64 (Z.shiftl x n).
Definition sshl (x n : Z) : Z := swrap 64 (Z.shiftl x n).

Definition operand_rd (inst : Z) : Z :=
  u32 (ufield inst 52 59).
Definition operand_rs1 (inst : Z) : Z :=
  u32 (ufield inst 44 59).
Definition operand_rs2 (inst : Z) : Z :=
  u32 (ufield inst 39 59).
Definition operand_rs3 (inst : Z) : Z :=
  u32 (ufield inst 32 59).
Definition operand_aq (inst : Z) : Z :=
  u32 (ufield inst 37 63).
Definition operand_rl (inst : Z) : Z :=
  u32 (ufield inst 38 63).
Definition operand_pred (inst : Z) : Z :=
  u32 (ufield inst 36 60).
Definition operand_succ (inst : Z) : Z :=
  u32 (ufield inst 40 60).
Definition operand_rm (inst : Z) : Z :=
  u32 (ufield inst 49 61).
Definition operand_shamt5 (inst : Z) : Z :=
  u32 (ufield inst 39 59).
Definition operand_shamt6 (inst : Z) : Z :=
  u32 (ufield inst 38 58).
Definition operand_shamt7 (inst : Z) : Z :=
  u32 (ufield inst 37 57).
Definition operand_crdq (inst : Z) : Z :=
  u32 (ufield inst 59 61).
Definition operand_crs1q (inst : Z) : Z :=
  u32 (ufield inst 54 61).
Definition operand_crs1rdq (inst : Z) : Z :=
  u32 (ufield inst 54 61).
Definition operand_crs2q (inst : Z) : Z :=
  u32 (ufield inst 59 61).
Definition operand_crd (inst : Z) : Z :=
  u32 (ufield inst 52 59).
Definition operand_crs1 (inst : Z) : Z :=
  u32 (ufield inst 52 59).
Definition operand_crs1rd (inst : Z) : Z :=
  u32 (ufield inst 52 59).
Definition operand_crs2 (inst : Z) : Z :=
  u32 (ufield inst 57 59).
Definition operand_cimmsh5 (inst : Z) : Z :=
  u32 (ufield inst 57 59).
Definition operand_csr12 (inst : Z) : Z :=
  u32 (ufield inst 32 52).
Definition operand_imm12 (inst : Z) : Z :=
  swrap 32 (sfield inst 32 52).
Definition operand_imm20 (inst : Z) : Z :=
  swrap 32 (sshl (sfield inst 32 44) 12).
Definition operand_jimm20 (inst : Z) : Z :=
  swrap 32 (Z.lor (Z.lor (Z.lor (u64 (sshl (sfield inst 32 63) 20))
    (ushl (ufield inst 33 54) 1))
    (ushl (ufield inst 43 63) 11))
    (ushl (ufield inst 44 56) 12)).
Definition operand_simm12 (inst : Z) : Z :=
  swrap 32 (Z.lor (u64 (sshl (sfield inst 32 57) 5))
    (ufield inst 52 59)).
Definition operand_sbimm12 (inst : Z) : Z :=
  swrap 32 (Z.lor (Z.lor (Z.lor (u64 (sshl (sfield inst 32 63) 12))
    (ushl (ufield inst 33 58) 5))
    (ushl (ufield inst 52 60) 1))
    (ushl (ufield inst 56 63) 11)).
Definition operand_cimmsh6 (inst : Z) : Z :=
  u32 (Z.lor (ushl (ufield inst 51 63) 5)
    (ufield inst 57 59)).
Definition operand_cimmi (inst : Z) : Z :=
  swrap 32 (Z.lor (u64 (sshl (sfield inst 51 63) 5))
    (ufield inst 57 59)).
Definition operand_cimmui (inst : Z) : Z :=
  swrap 32 (Z.lor (u64 (sshl (sfield inst 51 63) 17))
    (ushl (ufield inst 57 59) 12)).
Definition operand_cimmlwsp (inst : Z) : Z :=
  u32 (Z.lor (Z.lor (ushl (ufield inst 51 63) 5)
    (ushl (ufield inst 57 61) 2))
    (ushl (ufield inst 60 62) 6)).
Definition operand_cimmldsp (inst : Z) : Z :=
  u32 (Z.lor (Z.lor (ushl (ufield inst 51 63) 5)
    (ushl (ufield inst 57 62) 3))
    (ushl (ufield inst 59 61) 6)).
Definition operand_cimmlqsp (inst : Z) : Z :=
  u32 (Z.lor (Z.lor (ushl (ufield inst 51 63) 5)
    (ushl (ufield inst 57 63) 4))
    (ushl (ufield inst 58 60) 6)).
Definition operand_cimm16sp (inst : Z) : Z :=
  swrap 32 (Z.lor (Z.lor (Z.lor (Z.lor (u64 (sshl (sfield inst 51 63) 9))
    (ushl (ufield inst 57 63) 4))
    (ushl (ufield inst 58 63) 6))
    (ushl (ufield inst 59 62) 7))
    (ushl (ufield inst 61 63) 5)).
Definition operand_cimmj (inst : Z) : Z :=
  swrap 32 (Z.lor (Z.lor (Z.lor (Z.lor (Z.lor (Z.lor (Z.lor (u64 (sshl (sfield inst 51 63) 11))
    (ushl (ufield inst 52 63) 4))
    (ushl (ufield inst 53 62) 8))
    (ushl (ufield inst 55 63) 10))
    (ushl (ufield inst 56 63) 6))
    (ushl (ufield inst 57 63) 7))
    (ushl (ufield inst 58 61) 1))
    (ushl (ufield inst 61 63) 5)).
Definition operand_cimmb (inst : Z) : Z :=
  swrap 32 (Z.lor (Z.lor (Z.lor (Z.lor (u64 (sshl (sfield inst 51 63) 8))
    (ushl (ufield inst 52 62) 3))
    (ushl (ufield inst 57 62) 6))
    (ushl (ufield inst 59 62) 1))
    (ushl (ufield inst 61 63) 5)).
Definition operand_cimmswsp (inst : Z) : Z :=
  u32 (Z.lor (ushl (ufield inst 51 60) 2)
    (ushl (ufield inst 55 62) 6)).
Definition operand_cimmsdsp (inst : Z) : Z :=
  u32 (Z.lor (ushl (ufield inst 51 61) 3)
    (ushl (ufield inst 54 61) 6)).
Definition operand_cimmsqsp (inst : Z) : Z :=
  u32 (Z.lor (ushl (ufield inst 51 62) 4)
    (ushl (ufield inst 53 60) 6)).
Definition operand_cimm4spn (inst : Z) : Z :=
  u32 (Z.lor (Z.lor (Z.lor (ushl (ufield inst 51 62) 4)
    (ushl (ufield inst 53 60) 6))
    (ushl (ufield inst 57 63) 2))
    (ushl (ufield inst 58 63) 3)).
Definition operand_cimmw (inst : Z) : Z :=
  u32 (Z.lor (Z.lor (ushl (ufield inst 51 61) 3)
    (ushl (ufield inst 57 63) 2))
    (ushl (ufield inst 58 63) 6)).
Definition operand_cimmd (inst : Z) : Z :=
  u32 (Z.lor (ushl (ufield inst 51 61) 3)
    (ushl (ufield inst 57 62) 6)).
Definition operand_cimmq (inst : Z) : Z :=
  u32 (Z.lor (Z.lor (ushl (ufield inst 51 62) 4)
    (ushl (ufield inst 53 63) 8))
    (ushl (ufield inst 57 62) 6)).

(** ** Operands *)

(** The assignments every case makes; the fields are [uint8_t] and [int32_t]. *)
Definition set_operands (dec : rv_decode) (rd rs1 rs2 imm : Z) : rv_decode :=
  mk_rv_decode (dec_pc dec) (dec_inst dec) (swrap 32 imm) (dec_op dec) (dec_codec dec) (u8 rd)
    (u8 rs1) (u8 rs2) (dec_rs3 dec) (dec_rm dec) (dec_pred dec) (dec_succ dec)
    (dec_aq dec) (dec_rl dec).
Definition set_rm (dec : rv_decode) (rm : Z) : rv_decode :=
  mk_rv_decode (dec_pc dec) (dec_inst dec) (dec_imm dec) (dec_op dec) (dec_codec dec) (dec_rd dec)
    (dec_rs1 dec) (dec_rs2 dec) (dec_rs3 dec) (u8 rm) (dec_pred dec) (dec_succ dec)
    (dec_aq dec) (dec_rl dec).
Definition set_rs3 (dec : rv_decode) (rs3 : Z) : rv_decode :=
  mk_rv_decode (dec_pc dec) (dec_inst dec) (dec_imm dec) (dec_op dec) (dec_codec dec) (dec_rd dec)
    (dec_rs1 dec) (dec_rs2 dec) (u8 rs3) (dec_rm dec) (dec_pred dec) (dec_succ dec)
    (dec_aq dec) (dec_rl dec).
Definition set_aqrl (dec : rv_decode) (aq rl : Z) : rv_decode :=
  mk_rv_decode (dec_pc dec) (dec_inst dec) (dec_imm dec) (dec_op dec) (dec_codec dec) (dec_rd dec)
    (dec_rs1 dec) (dec_rs2 dec) (dec_rs3 dec) (dec_rm dec) (dec_pred dec) (dec_succ dec)
    (u8 aq) (u8 rl).
Definition set_pred_succ (dec : rv_decode) (pred succ : Z) : rv_decode :=
  mk_rv_decode (dec_pc dec) (dec_inst dec) (dec_imm dec) (dec_op dec) (dec_codec dec) (dec_rd dec)
    (dec_rs1 dec) (dec_rs2 dec) (dec_rs3 dec) (dec_rm dec) (u8 pred) (u8 succ)
    (dec_aq dec) (dec_rl dec).

Definition x_zero : Z := rv_reg_num rv_ireg_zero.
Definition x_ra : Z := rv_reg_num rv_ireg_ra.
Definition x_sp : Z := rv_reg_num rv_ireg_sp.

Definition decode_operands_base (dec : rv_decode) : option rv_decode :=
  let inst := dec_inst dec in
  match dec_codec dec with
  | rv_codec_none =>
    Some (set_operands dec x_zero x_zero x_zero 0)
  | rv_codec_u =>
    Some (set_operands dec (operand_rd inst) x_zero x_zero (operand_imm20 inst))
  | rv_codec_uj =>
    Some (set_operands dec (operand_rd inst) x_zero x_zero (operand_jimm20 inst))
  | rv_codec_i =>
    Some (set_operands dec (operand_rd inst) (operand_rs1 inst) x_zero (operand_imm12 inst))
  | rv_codec_i_sh5 =>
    Some (set_operands dec (operand_rd inst) (operand_rs1 inst) x_zero (operand_shamt5 inst))
  | rv_codec_i_sh6 =>
    Some (set_operands dec (operand_rd inst) (operand_rs1 inst) x_zero (operand_shamt6 inst))
  | rv_codec_i_sh7 =>
    Some (set_operands dec (operand_rd inst) (operand_rs1 inst) x_zero (operand_shamt7 inst))
  | rv_codec_i_csr =>
    Some (set_operands dec (operand_rd inst) (operand_rs1 inst) x_zero (operand_csr12 inst))
  | rv_codec_s =>
    Some (set_operands dec x_zero (operand_rs1 inst) (operand_rs2 inst) (operand_simm12 inst))
  | rv_codec_sb =>
    Some (set_operands dec x_zero (operand_rs1 inst) (operand_rs2 inst) (operand_sbimm12 inst))
  | rv_codec_r =>
    Some (set_operands dec (operand_rd inst) (operand_rs1 inst) (operand_rs2 inst) 0)
  | rv_codec_r_m =>
    Some (set_rm (set_operands dec (operand_rd inst) (operand_rs1 inst) (operand_rs2 inst) 0)
      (operand_rm inst))
  | rv_codec_r4_m =>
    Some (set_rm (set_rs3
      (set_operands dec (operand_rd inst) (operand_rs1 inst) (operand_rs2 inst) 0) (operand_rs3 inst))
      (operand_rm inst))
  | rv_codec_r_a =>
    Some (set_aqrl (set_operands dec (operand_rd inst) (operand_rs1 inst) (operand_rs2 inst) 0)
      (operand_aq inst) (operand_rl inst))
  | rv_codec_r_l =>
    Some (set_aqrl (set_operands dec (operand_rd inst) (operand_rs1 inst) x_zero 0)
      (operand_aq inst) (operand_rl inst))
  | rv_codec_r_f =>
    Some (set_pred_succ (set_operands dec x_zero x_zero x_zero 0)
      (operand_pred inst) (operand_succ inst))
  | _ => None
  end.

Definition decode_operands_ci (dec : rv_decode) : option rv_decode :=
  let inst := dec_inst dec in
  match dec_codec dec with
  | rv_codec_cb =>
    Some (set_operands dec x_zero (operand_crs1q inst + 8) x_zero (operand_cimmb inst))
  | rv_codec_cb_imm =>
    Some (set_operands dec (operand_crs1rdq inst + 8) (operand_crs1rdq inst + 8) x_zero
      (operand_cimmi inst))
  | rv_codec_cb_sh5 =>
    Some (set_operands dec (operand_crs1rdq inst + 8) (operand_crs1rdq inst + 8) x_zero
      (operand_cimmsh5 inst))
  | rv_codec_cb_sh6 =>
    Some (set_operands dec (operand_crs1rdq inst + 8) (operand_crs1rdq inst + 8) x_zero
      (operand_cimmsh6 inst))
  | rv_codec_ci =>
    Some (set_operands dec (operand_crs1rd inst) (operand_crs1rd inst) x_zero
      (operand_cimmi inst))
  | rv_codec_ci_sh5 =>
    Some (set_operands dec (operand_crs1rd inst) (operand_crs1rd inst) x_zero
      (operand_cimmsh5 inst))
  | rv_codec_ci_sh6 =>
    Some (set_operands dec (operand_crs1rd inst) (operand_crs1rd inst) x_zero
      (operand_cimmsh6 inst))
  | rv_codec_ci_16sp =>
    Some (set_operands dec x_sp x_sp x_zero (operand_cimm16sp inst))
  | rv_codec_ci_lwsp =>
    Some (set_operands dec (operand_crd inst) x_sp x_zero (operand_cimmlwsp inst))
  | rv_codec_ci_ldsp =>
    Some (set_operands dec (operand_crd inst) x_sp x_zero (operand_cimmldsp inst))
  | rv_codec_ci_lqsp =>
    Some (set_operands dec (operand_crd inst) x_sp x_zero (operand_cimmlqsp inst))
  | rv_codec_ci_li =>
    Some (set_operands dec (operand_crd inst) x_zero x_zero (operand_cimmi inst))
  | rv_codec_ci_lui =>
    Some (set_operands dec (operand_crd inst) x_zero x_zero (operand_cimmui inst))
  | rv_codec_ci_none =>
    Some (set_operands dec x_zero x_zero x_zero 0)
  | _ => None
  end.

Definition decode_operands_c (dec : rv_decode) : option rv_decode :=
  let inst := dec_inst dec in
  match dec_codec dec with
  | rv_codec_ciw_4spn =>
    Some (set_operands dec (operand_crdq inst + 8) x_sp x_zero (operand_cimm4spn inst))
  | rv_codec_cj =>
    Some (set_operands dec x_zero x_zero x_zero (operand_cimmj inst))
  | rv_codec_cj_jal =>
    Some (set_operands dec x_ra x_zero x_zero (operand_cimmj inst))
  | rv_codec_cl_lw =>
    Some (set_operands dec (operand_crdq inst + 8) (operand_crs1q inst + 8) x_zero
      (operand_cimmw inst))
  | rv_codec_cl_ld =>
    Some (set_operands dec (operand_crdq inst + 8) (operand_crs1q inst + 8) x_zero
      (operand_cimmd inst))
  | rv_codec_cl_lq =>
    Some (set_operands dec (operand_crdq inst + 8) (operand_crs1q inst + 8) x_zero
      (operand_cimmq inst))
  | rv_codec_cr =>
    Some (set_operands dec (operand_crs1rd inst) (operand_crs1rd inst) (operand_crs2 inst) 0)
  | rv_codec_cr_mv =>
    Some (set_operands dec (operand_crd inst) (operand_crs2 inst) x_zero 0)
  | rv_codec_cr_jalr =>
    Some (set_operands dec x_ra (operand_crs1 inst) x_zero 0)
  | rv_codec_cr_jr =>
    Some (set_operands dec x_zero (operand_crs1 inst) x_zero 0)
  | rv_codec_cs =>
    Some (set_operands dec (operand_crs1rdq inst + 8) (operand_crs1rdq inst + 8)
      (operand_crs2q inst + 8) 0)
  | rv_codec_cs_sw =>
    Some (set_operands dec x_zero (operand_crs1q inst + 8) (operand_crs2q inst + 8)
      (operand_cimmw inst))
  | rv_codec_cs_sd =>
    Some (set_operands dec x_zero (operand_crs1q inst + 8) (operand_crs2q inst + 8)
      (operand_cimmd inst))
  | rv_codec_cs_sq =>
    Some (set_operands dec x_zero (operand_crs1q inst + 8) (operand_crs2q inst + 8)
      (operand_cimmq inst))
  | rv_codec_css_swsp =>
    Some (set_operands dec x_zero x_sp (operand_crs2 inst) (operand_cimmswsp inst))
  | rv_codec_css_sdsp =>
    Some (set_operands dec x_zero x_sp (operand_crs2 inst) (operand_cimmsdsp inst))
  | rv_codec_css_sqsp =>
    Some (set_operands dec x_zero x_sp (operand_crs2 inst) (operand_cimmsqsp inst))
  | _ => None
  end.

(** [opcode_data[op]] *)
Definition opcode_at (op : rv_op) : res rv_opcode_data := load opcode_data (rv_op_num op).
#[global] Arguments opcode_at : simpl never.

Definition decode_inst_operands (dec : rv_decode) : res rv_decode :=
  data ← opcode_at (dec_op dec);
  let dec := set_codec dec (od_codec data) in
  Ok (default dec (union (decode_operands_base dec)
                     (union (decode_operands_ci dec) (decode_operands_c dec)))).

(** The cleared structure with [pc] and [inst] set. *)
Definition dec_at (pc inst : Z) : rv_decode :=
  mk_rv_decode pc inst 0 rv_op_illegal rv_codec_illegal 0 0 0 0 0 0 0 0 0.

(** ** The bits of the extractors *)

Lemma testbit_sign v n i :
  0 <= n <= i -> - 2 ^ n <= v < 2 ^ n -> Z.testbit v i = (v <? 0).
Proof.
  intros Hi Hv. rewrite Z.testbit_eqb by lia.
  assert (2 ^ n <= 2 ^ i) by (apply Z.pow_le_mono_r; lia).
  destruct (Z.ltb_spec v 0).
  - replace (v / 2 ^ i) with (-1); [done|]. apply (Z.div_unique _ _ _ (v + 2 ^ i)); lia.
  - rewrite Z.div_small by lia. done.
Qed.

Lemma testbit_swrap w x i :
  0 < w -> Z.testbit (swrap w x) i = Z.testbit x (if i <? w then i else w - 1).
Proof.
  intros Hw.
  assert (forall j, j < w -> Z.testbit (swrap w x) j = Z.testbit x j) as Hlow.
  { intros j Hj. destruct (Z.leb_spec 0 j); [|by rewrite !Z.testbit_neg_r by lia].
    rewrite <- (Z.mod_pow2_bits_low (swrap w x) w), <- (Z.mod_pow2_bits_low x w) by lia.
    f_equal. unfold swrap. rewrite Zminus_mod_idemp_l. f_equal. lia. }
  destruct (Z.ltb_spec i w) as [Hi|Hi]; [by apply Hlow|].
  rewrite <- Hlow by lia.
  assert (2 ^ w = 2 * 2 ^ (w - 1)) as Hp by (rewrite <- Z.pow_succ_r by lia; f_equal; lia).
  pose proof (Z.pow_pos_nonneg 2 (w - 1) ltac:(lia) ltac:(lia)).
  pose proof (Z.mod_pos_bound (x + 2 ^ (w - 1)) (2 ^ w) ltac:(lia)).
  rewrite !(testbit_sign (swrap w x) (w - 1)); [done|..]; unfold swrap; lia.
Qed.

Lemma testbit_shiftl x n i : 0 <= i -> Z.testbit (Z.shiftl x n) i = Z.testbit x (i - n).
Proof. apply Z.shiftl_spec. Qed.

Lemma testbit_ushl x n i : 0 <= i -> Z.testbit (ushl x n) i = (i <? 64) && Z.testbit x (i - n).
Proof. intros. unfold ushl. by rewrite testbit_wrap, testbit_shiftl by lia. Qed.

Lemma testbit_sshl x n i :
  0 <= i -> Z.testbit (sshl x n) i = Z.testbit x ((if i <? 64 then i else 63) - n).
Proof.
  intros. unfold sshl. rewrite testbit_swrap, testbit_shiftl; [done| |lia].
  destruct (Z.ltb_spec i 64); lia.
Qed.

Lemma testbit_ufield inst a b i :
  0 <= b -> Z.testbit (ufield inst a b) i =
    (0 <=? i) && ((i + b <? 64) && Z.testbit inst (i + b - a)).
Proof.
  intros. unfold ufield. destruct (Z.leb_spec 0 i); [|by rewrite Z.testbit_neg_r].
  by rewrite Z.shiftr_spec, testbit_wrap, testbit_shiftl by lia.
Qed.

Lemma testbit_sfield inst a b i :
  0 <= a -> 0 <= b -> Z.testbit (sfield inst a b) i =
    (0 <=? i) && Z.testbit inst ((if i + b <? 64 then i + b else 63) - a).
Proof.
  intros. unfold sfield. destruct (Z.leb_spec 0 i); [|by rewrite Z.testbit_neg_r].
  rewrite Z.shiftr_spec, testbit_swrap, testbit_shiftl, testbit_swrap by
    (destruct (Z.ltb_spec (i + b) 64); lia). cbn [andb].
  f_equal. destruct (Z.ltb_spec (i + b) 64), (Z.ltb_spec (i + b - a) 64); try lia.
  all: rewrite (proj2 (Z.ltb_lt _ _)) by lia; lia.
Qed.

(** ** The layout of the operands

    An operand is put together from bits [hi..lo] of the instruction, each run
    placed at bit [dst]: the tables of the instruction formats of the ISA. *)

Definition slice (inst hi lo : Z) : Z := (inst / 2 ^ lo) mod 2 ^ (hi - lo + 1).
Definition assemble (inst : Z) (runs : list (Z * Z * Z)) : Z :=
  foldr (fun '(dst, hi, lo) acc => Z.lor (Z.shiftl (slice inst hi lo) dst) acc) 0 runs.

Lemma testbit_slice inst hi lo i :
  0 <= lo <= hi -> Z.testbit (slice inst hi lo) i =
    (0 <=? i) && ((i <? hi - lo + 1) && Z.testbit inst (i + lo)).
Proof.
  intros. unfold slice. destruct (Z.leb_spec 0 i); [|by rewrite Z.testbit_neg_r].
  rewrite Z.testbit_mod_pow2, Z.div_pow2_bits by lia. done.
Qed.

Lemma slice_range inst hi lo : 0 <= lo <= hi -> 0 <= slice inst hi lo < 2 ^ (hi - lo + 1).
Proof. intros. apply Z.mod_pos_bound, Z.pow_pos_nonneg; lia. Qed.

(** Two 32-bit results are equal when their 32 low bits are. *)
Lemma wrap_ext w a b :
  0 <= w -> (forall i, 0 <= i < w -> Z.testbit a i = Z.testbit b i) -> wrap w a = wrap w b.
Proof.
  intros Hw H. apply Z.bits_inj'. intros i Hi. rewrite !testbit_wrap by done.
  destruct (Z.ltb_spec i w); [|done]. apply H. lia.
Qed.
Lemma swrap_ext w a b :
  0 < w -> (forall i, 0 <= i < w -> Z.testbit a i = Z.testbit b i) -> swrap w a = swrap w b.
Proof.
  intros Hw H. apply Z.bits_inj'. intros i Hi. rewrite !testbit_swrap by done.
  apply H. destruct (Z.ltb_spec i w); lia.
Qed.

Lemma bits_forall w (P : Z -> Prop) :
  Forall P (seqZ 0 w) -> forall i, 0 <= i < w -> P i.
Proof. intros H i Hi. eapply Forall_forall; [exact H|]. apply elem_of_seqZ. lia. Qed.

Definition run_fits (w : Z) (r : Z * Z * Z) : Prop :=
  let '(dst, hi, lo) := r in 0 <= dst /\ 0 <= lo <= hi /\ dst + (hi - lo + 1) <= w.

Lemma assemble_range w inst runs :
  0 <= w -> Forall (run_fits w) runs -> 0 <= assemble inst runs < 2 ^ w.
Proof.
  intros Hw. induction 1 as [|[[dst hi] lo] runs (Hd&Hl&Hf) _ IH]; cbn.
  { pose proof (Z.pow_pos_nonneg 2 w). lia. }
  apply lor_range; [|done|done].
  pose proof (slice_range inst hi lo Hl) as Hs. rewrite Z.shiftl_mul_pow2 by done.
  assert (2 ^ (hi - lo + 1) * 2 ^ dst <= 2 ^ w)
    by (rewrite <- Z.pow_add_r by lia; apply Z.pow_le_mono_r; lia).
  pose proof (Z.pow_pos_nonneg 2 dst ltac:(lia) Hd). nia.
Qed.

(** The bits of a number, as a function that only looks at bits of the
    instruction; the instances follow the shape of the extractors. *)
Class HasBits (x : Z) (g : Z -> bool) : Prop :=
  has_bits : forall i, 0 <= i -> Z.testbit x i = g i.

#[export] Instance bits_inst inst : HasBits inst (Z.testbit inst) | 10.
Proof. done. Qed.
#[export] Instance bits_zero : HasBits 0 (fun _ => false).
Proof. intros i _. apply Z.bits_0. Qed.
#[export] Instance bits_lor x y g h :
  HasBits x g -> HasBits y h -> HasBits (Z.lor x y) (fun i => g i || h i).
Proof. intros Hx Hy i Hi. by rewrite Z.lor_spec, Hx, Hy. Qed.
#[export] Instance bits_u64 x g : HasBits x g -> HasBits (u64 x) (fun i => (i <? 64) && g i).
Proof. intros Hx i Hi. by rewrite testbit_wrap, Hx by lia. Qed.
#[export] Instance bits_shiftl x n g :
  HasBits x g -> HasBits (Z.shiftl x n) (fun i => (0 <=? i - n) && g (i - n)).
Proof.
  intros Hx i Hi. rewrite testbit_shiftl by done.
  destruct (Z.leb_spec 0 (i - n)); [by rewrite Hx|by rewrite Z.testbit_neg_r].
Qed.
#[export] Instance bits_ushl x n g :
  HasBits x g -> HasBits (ushl x n) (fun i => (i <? 64) && ((0 <=? i - n) && g (i - n))).
Proof. intros Hx. by apply bits_u64, bits_shiftl. Qed.
#[export] Instance bits_sshl x n g :
  HasBits x g -> HasBits (sshl x n)
    (fun i => let j := (if i <? 64 then i else 63) - n in (0 <=? j) && g j).
Proof.
  intros Hx i Hi. rewrite testbit_sshl by done. cbn zeta.
  destruct (Z.leb_spec 0 ((if i <? 64 then i else 63) - n)); [by rewrite Hx|by rewrite Z.testbit_neg_r].
Qed.
#[export] Instance bits_ufield inst a b :
  TCEq (0 <=? b) true ->
  HasBits (ufield inst a b) (fun i => (i + b <? 64) && Z.testbit inst (i + b - a)).
Proof.
  intros Hb%TCEq_eq i Hi. zbool. rewrite testbit_ufield by done.
  by rewrite (proj2 (Z.leb_le 0 i) Hi).
Qed.
#[export] Instance bits_sfield inst a b :
  TCEq ((0 <=? a) && (0 <=? b)) true ->
  HasBits (sfield inst a b) (fun i => Z.testbit inst ((if i + b <? 64 then i + b else 63) - a)).
Proof.
  intros Hb%TCEq_eq i Hi. zbool. rewrite testbit_sfield by done.
  by rewrite (proj2 (Z.leb_le 0 i) Hi).
Qed.
#[export] Instance bits_slice inst hi lo g :
  TCEq ((0 <=? lo) && (lo <=? hi)) true -> HasBits inst g ->
  HasBits (slice inst hi lo) (fun i => (i <? hi - lo + 1) && g (i + lo)).
Proof.
  intros Hb%TCEq_eq Hg i Hi. zbool. rewrite testbit_slice by done.
  rewrite (proj2 (Z.leb_le 0 i) Hi), (Hg (i + lo)) by lia. done.
Qed.
#[export] Instance bits_assemble inst dst hi lo runs g h :
  HasBits (Z.shiftl (slice inst hi lo) dst) g -> HasBits (assemble inst runs) h ->
  HasBits (assemble inst ((dst, hi, lo) :: runs)) (fun i => g i || h i).
Proof. apply bits_lor. Qed.
#[export] Instance bits_assemble_nil inst : HasBits (assemble inst []) (fun _ => false).
Proof. apply bits_zero. Qed.

Fixpoint agree (g h : Z -> bool) (l : list Z) : Prop :=
  match l with [] => True | i :: l => g i = h i /\ agree g h l end.

Lemma agree_bits w g h : agree g h (seqZ 0 w) -> forall i, 0 <= i < w -> g i = h i.
Proof.
  intros H. apply bits_forall. revert H. induction (seqZ 0 w) as [|j l IH]; [done|].
  intros [Hj H]. constructor; auto.
Qed.

Lemma unsigned_layout a inst runs g h :
  HasBits a g -> HasBits (assemble inst runs) h -> Forall (run_fits 32) runs ->
  agree g h (seqZ 0 32) -> u32 a = assemble inst runs.
Proof.
  intros Hg Hh Hr Hb. rewrite <- (wrap_small 32 (assemble inst runs)) by by apply assemble_range.
  apply wrap_ext; [lia|]. intros i Hi. rewrite Hg, Hh by lia. exact (agree_bits 32 _ _ Hb i Hi).
Qed.

Lemma signed_layout n a inst runs g h :
  HasBits a g -> HasBits (assemble inst runs) h -> 0 < n <= 32 ->
  agree g (fun i => h (if i <? n then i else n - 1)) (seqZ 0 32) ->
  swrap 32 a = swrap n (assemble inst runs).
Proof.
  intros Hg Hh Hn Hb. apply Z.bits_inj'. intros i Hi. rewrite !testbit_swrap by lia.
  rewrite Hg, Hh by (destruct (Z.ltb_spec i 32), (Z.ltb_spec i n); lia).
  rewrite (agree_bits 32 _ _ Hb) by (destruct (Z.ltb_spec i 32); lia).
  destruct (Z.ltb_spec i 32); [done|]. f_equal.
  rewrite (proj2 (Z.ltb_ge i n)) by lia. destruct (Z.ltb_spec (32 - 1) n); lia.
Qed.

(** Compares the 32 bits of an extractor with those of its layout. *)
Ltac same_bits inst :=
  generalize (Z.testbit inst); intros f; vm_compute; split_and?; try exact I; try reflexivity;
  repeat match goal with |- context [f ?k] => destruct (f k) end; reflexivity.
Ltac layout inst :=
  match goal with |- ?op _ = _ => unfold op end;
  lazymatch goal with
  | |- _ = swrap _ _ => eapply signed_layout; [apply _|apply _|lia|same_bits inst]
  | |- _ = assemble _ _ =>
    eapply unsigned_layout; [apply _|apply _|repeat constructor; lia|same_bits inst]
  end.

Lemma operand_rd_layout inst :
  operand_rd inst = assemble inst [(0, 11, 7)].
Proof. layout inst. Qed.
Lemma operand_rs1_layout inst :
  operand_rs1 inst = assemble inst [(0, 19, 15)].
Proof. layout inst. Qed.
Lemma operand_rs2_layout inst :
  operand_rs2 inst = assemble inst [(0, 24, 20)].
Proof. layout inst. Qed.
Lemma operand_rs3_layout inst :
  operand_rs3 inst = assemble inst [(0, 31, 27)].
Proof. layout inst. Qed.
Lemma operand_aq_layout inst :
  operand_aq inst = assemble inst [(0, 26, 26)].
Proof. layout inst. Qed.
Lemma operand_rl_layout inst :
  operand_rl inst = assemble inst [(0, 25, 25)].
Proof. layout inst. Qed.
Lemma operand_pred_layout inst :
  operand_pred inst = assemble inst [(0, 27, 24)].
Proof. layout inst. Qed.
Lemma operand_succ_layout inst :
  operand_succ inst = assemble inst [(0, 23, 20)].
Proof. layout inst. Qed.
Lemma operand_rm_layout inst :
  operand_rm inst = assemble inst [(0, 14, 12)].
Proof. layout inst. Qed.
Lemma operand_shamt5_layout inst :
  operand_shamt5 inst = assemble inst [(0, 24, 20)].
Proof. layout inst. Qed.
Lemma operand_shamt6_layout inst :
  operand_shamt6 inst = assemble inst [(0, 25, 20)].
Proof. layout inst. Qed.
Lemma operand_shamt7_layout inst :
  operand_shamt7 inst = assemble inst [(0, 26, 20)].
Proof. layout inst. Qed.
Lemma operand_csr12_layout inst :
  operand_csr12 inst = assemble inst [(0, 31, 20)].
Proof. layout inst. Qed.
Lemma operand_imm12_layout inst :
  operand_imm12 inst = swrap 12 (assemble inst [(0, 31, 20)]).
Proof. layout inst. Qed.
Lemma operand_imm20_layout inst :
  operand_imm20 inst = swrap 32 (assemble inst [(12, 31, 12)]).
Proof. layout inst. Qed.
Lemma operand_jimm20_layout inst :
  operand_jimm20 inst = swrap 21 (assemble inst [(20, 31, 31); (1, 30, 21); (11, 20, 20); (12, 19, 12)]).
Proof. layout inst. Qed.
Lemma operand_simm12_layout inst :
  operand_simm12 inst = swrap 12 (assemble inst [(5, 31, 25); (0, 11, 7)]).
Proof. layout inst. Qed.
Lemma operand_sbimm12_layout inst :
  operand_sbimm12 inst = swrap 13 (assemble inst [(12, 31, 31); (5, 30, 25); (1, 11, 8); (11, 7, 7)]).
Proof. layout inst. Qed.

(** The operand extractors of the 32-bit formats read the fields of the
    ISA: registers, shift amounts, fence sets, rounding mode, CSR number, and
    the I, S, B, U and J immediates with their scattered bits put back in place
    and their sign extended. *)
Theorem rv_operands_layout (inst : Z) :
  operand_rd inst = assemble inst [(0, 11, 7)] /\
  operand_rs1 inst = assemble inst [(0, 19, 15)] /\
  operand_rs2 inst = assemble inst [(0, 24, 20)] /\
  operand_rs3 inst = assemble inst [(0, 31, 27)] /\
  operand_aq inst = assemble inst [(0, 26, 26)] /\
  operand_rl inst = assemble inst [(0, 25, 25)] /\
  operand_pred inst = assemble inst [(0, 27, 24)] /\
  operand_succ inst = assemble inst [(0, 23, 20)] /\
  operand_rm inst = assemble inst [(0, 14, 12)] /\
  operand_shamt5 inst = assemble inst [(0, 24, 20)] /\
  operand_shamt6 inst = assemble inst [(0, 25, 20)] /\
  operand_shamt7 inst = assemble inst [(0, 26, 20)] /\
  operand_csr12 inst = assemble inst [(0, 31, 20)] /\
  operand_imm12 inst = swrap 12 (assemble inst [(0, 31, 20)]) /\
  operand_imm20 inst = swrap 32 (assemble inst [(12, 31, 12)]) /\
  operand_jimm20 inst = swrap 21 (assemble inst [(20, 31, 31); (1, 30, 21); (11, 20, 20); (12, 19, 12)]) /\
  operand_simm12 inst = swrap 12 (assemble inst [(5, 31, 25); (0, 11, 7)]) /\
  operand_sbimm12 inst = swrap 13 (assemble inst [(12, 31, 31); (5, 30, 25); (1, 11, 8); (11, 7, 7)]).
Proof. split_and!; layout inst. Qed.

(** The operand extractors of the compressed formats read the fields of the
    ISA: registers, shift amounts, and the scattered immediates of the CI, CSS,
    CIW, CL, CS, CB and CJ formats. *)
Theorem rvc_operands_layout (inst : Z) :
  operand_crdq inst = assemble inst [(0, 4, 2)] /\
  operand_crs1q inst = assemble inst [(0, 9, 7)] /\
  operand_crs1rdq inst = assemble inst [(0, 9, 7)] /\
  operand_crs2q inst = assemble inst [(0, 4, 2)] /\
  operand_crd inst = assemble inst [(0, 11, 7)] /\
  operand_crs1 inst = assemble inst [(0, 11, 7)] /\
  operand_crs1rd inst = assemble inst [(0, 11, 7)] /\
  operand_crs2 inst = assemble inst [(0, 6, 2)] /\
  operand_cimmsh5 inst = assemble inst [(0, 6, 2)] /\
  operand_cimmsh6 inst = assemble inst [(5, 12, 12); (0, 6, 2)] /\
  operand_cimmi inst = swrap 6 (assemble inst [(5, 12, 12); (0, 6, 2)]) /\
  operand_cimmui inst = swrap 18 (assemble inst [(17, 12, 12); (12, 6, 2)]) /\
  operand_cimmlwsp inst = assemble inst [(5, 12, 12); (2, 6, 4); (6, 3, 2)] /\
  operand_cimmldsp inst = assemble inst [(5, 12, 12); (3, 6, 5); (6, 4, 2)] /\
  operand_cimmlqsp inst = assemble inst [(5, 12, 12); (4, 6, 6); (6, 5, 2)] /\
  operand_cimm16sp inst = swrap 10 (assemble inst [(9, 12, 12); (4, 6, 6); (6, 5, 5); (7, 4, 3); (5, 2, 2)]) /\
  operand_cimmj inst = swrap 12 (assemble inst [(11, 12, 12); (4, 11, 11); (8, 10, 9); (10, 8, 8); (6, 7, 7); (7, 6, 6); (1, 5, 3); (5, 2, 2)]) /\
  operand_cimmb inst = swrap 9 (assemble inst [(8, 12, 12); (3, 11, 10); (6, 6, 5); (1, 4, 3); (5, 2, 2)]) /\
  operand_cimmswsp inst = assemble inst [(2, 12, 9); (6, 8, 7)] /\
  operand_cimmsdsp inst = assemble inst [(3, 12, 10); (6, 9, 7)] /\
  operand_cimmsqsp inst = assemble inst [(4, 12, 11); (6, 10, 7)] /\
  operand_cimm4spn inst = assemble inst [(4, 12, 11); (6, 10, 7); (2, 6, 6); (3, 5, 5)] /\
  operand_cimmw inst = assemble inst [(3, 12, 10); (2, 6, 6); (6, 5, 5)] /\
  operand_cimmd inst = assemble inst [(3, 12, 10); (6, 6, 5)] /\
  operand_cimmq inst = assemble inst [(4, 12, 11); (8, 10, 10); (6, 6, 5)].
Proof. split_and!; layout inst. Qed.
