(* ===== verification/RiscvEncode.v ===== *)
(** * Encoding and decoding of the base instructions

    A reference encoder for the base formats of the ISA (R, I, S, B, U, J and
    the immediate shifts), with the major opcode and the function fields of the
    integer instructions, and the theorem that the decoder of
    src/disasm/riscv-disas.cpp inverts it. *)

From S2P Require Import Prelude RiscvTables RiscvDecode.

(** ** Fields of a sum *)

Lemma slice_high k a b hi lo :
  0 <= k <= lo -> 0 <= a < 2 ^ k -> slice (a + 2 ^ k * b) hi lo = slice b (hi - k) (lo - k).
Proof.
  intros Hk Ha. unfold slice. f_equal; [|f_equal; lia].
  replace (2 ^ lo) with (2 ^ k * 2 ^ (lo - k)) by (rewrite <- Z.pow_add_r by lia; f_equal; lia).
  rewrite <- Z.div_div by (try apply Z.pow_nonzero; try apply Z.pow_pos_nonneg; lia).
  f_equal. rewrite Z.mul_comm, Z.div_add, Z.div_small by lia. lia.
Qed.

Lemma slice_low k a b hi lo :
  0 <= lo <= hi -> hi < k -> slice (a + 2 ^ k * b) hi lo = slice a hi lo.
Proof.
  intros Hl Hk. apply Z.bits_inj'. intros i Hi. rewrite !testbit_slice by done.
  destruct (Z.ltb_spec i (hi - lo + 1)); [|by rewrite !andb_false_r]. do 2 f_equal.
  rewrite <- (Z.mod_pow2_bits_low (a + _) k), <- (Z.mod_pow2_bits_low a k) by lia. f_equal.
  rewrite Z.mul_comm. apply Z.mod_add, Z.pow_nonzero; lia.
Qed.

Lemma slice_all n a : 0 <= a < 2 ^ (n + 1) -> slice a n 0 = a.
Proof. intros. unfold slice. rewrite Z.div_1_r, Z.sub_0_r. by apply Z.mod_small. Qed.

Lemma bits_slice_eq inst sh n :
  0 <= sh -> 0 < n -> bits inst sh (Z.ones n) = slice inst (sh + n - 1) sh.
Proof.
  intros. unfold bits, slice. rewrite Z.land_ones, Z.shiftr_div_pow2 by lia.
  do 2 f_equal. lia.
Qed.

Lemma bits_shifted inst sh n m :
  0 <= sh -> 0 < n -> 0 <= m ->
  bits inst sh (Z.shiftl (Z.ones n) m) = Z.shiftl (slice inst (sh + m + n - 1) (sh + m)) m.
Proof.
  intros. rewrite <- bits_slice_eq by lia. unfold bits.
  rewrite Z.shiftl_land. apply Z.bits_inj'. intros i Hi. rewrite !Z.land_spec.
  rewrite !Z.shiftl_spec, !Z.shiftr_spec by lia.
  destruct (Z.ltb_spec i m).
  - rewrite (Z.testbit_neg_r (Z.ones n)) by lia. by rewrite !andb_false_r.
  - rewrite Z.shiftr_spec by lia. do 2 f_equal. lia.
Qed.

(** ** Words built from fields *)

(** [a] in the [k] low bits and [b] above. *)
Definition join (k a b : Z) : Z := a + 2 ^ k * b.

Class Fits (a k : Z) : Prop := fits : 0 <= a < 2 ^ k.

#[export] Instance fits_const a k : TCEq ((0 <=? a) && (a <? 2 ^ k)) true -> Fits a k.
Proof. intros H%TCEq_eq. unfold Fits. zbool. lia. Qed.
#[export] Instance fits_slice inst hi lo k :
  TCEq ((0 <=? lo) && ((lo <=? hi) && (hi - lo + 1 <=? k))) true -> Fits (slice inst hi lo) k.
Proof.
  intros H%TCEq_eq. zbool. unfold Fits. pose proof (slice_range inst hi lo ltac:(lia)).
  assert (2 ^ (hi - lo + 1) <= 2 ^ k) by (apply Z.pow_le_mono_r; lia). lia.
Qed.
#[export] Instance fits_join k n a b :
  TCEq ((0 <=? k) && (k <=? n)) true -> Fits a k -> Fits b (n - k) -> Fits (join k a b) n.
Proof.
  intros H%TCEq_eq Ha Hb. zbool. unfold Fits, join in *.
  replace (2 ^ n) with (2 ^ k * 2 ^ (n - k)) by (rewrite <- Z.pow_add_r by lia; f_equal; lia).
  nia.
Qed.

Lemma testbit_join k a b i :
  0 <= k -> 0 <= a < 2 ^ k -> 0 <= i ->
  Z.testbit (join k a b) i = if i <? k then Z.testbit a i else Z.testbit b (i - k).
Proof.
  intros Hk Ha Hi. unfold join. destruct (Z.ltb_spec i k).
  - rewrite <- (Z.mod_pow2_bits_low (a + _) k), <- (Z.mod_pow2_bits_low a k) by lia. f_equal.
    rewrite Z.mul_comm. apply Z.mod_add, Z.pow_nonzero; lia.
  - replace i with (i - k + k) at 1 by lia. rewrite <- Z.div_pow2_bits by lia.
    rewrite Z.mul_comm, Z.div_add, Z.div_small by lia. done.
Qed.

#[export] Instance bits_join k a b g h :
  TCEq (0 <=? k) true -> Fits a k -> HasBits a g -> HasBits b h ->
  HasBits (join k a b) (fun i => if i <? k then g i else h (i - k)).
Proof.
  intros Hk%TCEq_eq Ha Hg Hh i Hi. zbool. rewrite testbit_join by done.
  destruct (Z.ltb_spec i k); [by rewrite Hg|rewrite Hh by lia; done].
Qed.

Lemma slice_join_high k a b hi lo :
  0 <= k <= lo -> Fits a k -> slice (join k a b) hi lo = slice b (hi - k) (lo - k).
Proof. intros. by apply slice_high. Qed.
Lemma slice_join_low k a b hi lo :
  0 <= lo <= hi -> hi < k -> slice (join k a b) hi lo = slice a hi lo.
Proof. intros. by apply slice_low. Qed.

(** The six fields of a 32-bit instruction. *)
Definition word (opcode rd funct3 rs1 rs2 funct7 : Z) : Z :=
  join 7 opcode (join 5 rd (join 3 funct3 (join 5 rs1 (join 5 rs2 funct7)))).

Inductive rv_format : Type :=
| FmtR (funct3 funct7 : Z)
| FmtI (funct3 : Z)
| FmtShift7 (funct3 funct5 : Z)      (* a 7-bit shift amount *)
| FmtShift5 (funct3 funct7 : Z)      (* a 5-bit shift amount *)
| FmtS (funct3 : Z)
| FmtB (funct3 : Z)
| FmtU
| FmtJ.

Definition encode (opcode : Z) (f : rv_format) (rd rs1 rs2 imm : Z) : Z :=
  match f with
  | FmtR f3 f7 => word opcode rd f3 rs1 rs2 f7
  | FmtI f3 => word opcode rd f3 rs1 (slice imm 4 0) (slice imm 11 5)
  | FmtShift7 f3 f5 => word opcode rd f3 rs1 (slice imm 4 0) (join 2 (slice imm 6 5) f5)
  | FmtShift5 f3 f7 => word opcode rd f3 rs1 (slice imm 4 0) f7
  | FmtS f3 => word opcode (slice imm 4 0) f3 rs1 rs2 (slice imm 11 5)
  | FmtB f3 => word opcode (join 1 (slice imm 11 11) (slice imm 4 1)) f3 rs1 rs2
                 (join 6 (slice imm 10 5) (slice imm 12 12))
  | FmtU => word opcode rd (slice imm 14 12) (slice imm 19 15) (slice imm 24 20) (slice imm 31 25)
  | FmtJ => word opcode rd (slice imm 14 12) (slice imm 19 15)
              (join 1 (slice imm 11 11) (slice imm 4 1))
              (join 6 (slice imm 10 5) (slice imm 20 20))
  end.

(** The operands a format has room for; the others are zero. *)
Definition operands_ok (f : rv_format) (rd rs1 rs2 imm : Z) : Prop :=
  Fits rd 5 /\ Fits rs1 5 /\ Fits rs2 5 /\
  match f with
  | FmtR _ _ => imm = 0
  | FmtI _ => rs2 = 0 /\ - 2 ^ 11 <= imm < 2 ^ 11
  | FmtShift7 _ _ => rs2 = 0 /\ Fits imm 7
  | FmtShift5 _ _ => rs2 = 0 /\ Fits imm 5
  | FmtS _ => rd = 0 /\ - 2 ^ 11 <= imm < 2 ^ 11
  | FmtB _ => rd = 0 /\ - 2 ^ 12 <= imm < 2 ^ 12 /\ imm mod 2 = 0
  | FmtU => rs1 = 0 /\ rs2 = 0 /\ - 2 ^ 31 <= imm < 2 ^ 31 /\ imm mod 2 ^ 12 = 0
  | FmtJ => rs1 = 0 /\ rs2 = 0 /\ - 2 ^ 20 <= imm < 2 ^ 20 /\ imm mod 2 = 0
  end.

(** The integer instructions: operation, major opcode and format. *)
Definition rv_base : list (rv_op * Z * rv_format) :=
  [(rv_op_lui, 55, FmtU); (rv_op_auipc, 23, FmtU); (rv_op_jal, 111, FmtJ);
   (rv_op_jalr, 103, FmtI 0); (rv_op_beq, 99, FmtB 0); (rv_op_bne, 99, FmtB 1);
   (rv_op_blt, 99, FmtB 4); (rv_op_bge, 99, FmtB 5); (rv_op_bltu, 99, FmtB 6);
   (rv_op_bgeu, 99, FmtB 7); (rv_op_lb, 3, FmtI 0); (rv_op_lh, 3, FmtI 1);
   (rv_op_lw, 3, FmtI 2); (rv_op_lbu, 3, FmtI 4); (rv_op_lhu, 3, FmtI 5);
   (rv_op_lwu, 3, FmtI 6); (rv_op_ld, 3, FmtI 3); (rv_op_sb, 35, FmtS 0);
   (rv_op_sh, 35, FmtS 1); (rv_op_sw, 35, FmtS 2); (rv_op_sd, 35, FmtS 3);
   (rv_op_addi, 19, FmtI 0); (rv_op_slti, 19, FmtI 2); (rv_op_sltiu, 19, FmtI 3);
   (rv_op_xori, 19, FmtI 4); (rv_op_ori, 19, FmtI 6); (rv_op_andi, 19, FmtI 7);
   (rv_op_slli, 19, FmtShift7 1 0); (rv_op_srli, 19, FmtShift7 5 0);
   (rv_op_srai, 19, FmtShift7 5 8); (rv_op_add, 51, FmtR 0 0); (rv_op_sub, 51, FmtR 0 32);
   (rv_op_sll, 51, FmtR 1 0); (rv_op_slt, 51, FmtR 2 0); (rv_op_sltu, 51, FmtR 3 0);
   (rv_op_xor, 51, FmtR 4 0); (rv_op_srl, 51, FmtR 5 0); (rv_op_sra, 51, FmtR 5 32);
   (rv_op_or, 51, FmtR 6 0); (rv_op_and, 51, FmtR 7 0); (rv_op_addiw, 27, FmtI 0);
   (rv_op_slliw, 27, FmtShift5 1 0); (rv_op_srliw, 27, FmtShift5 5 0);
   (rv_op_sraiw, 27, FmtShift5 5 32); (rv_op_addw, 59, FmtR 0 0); (rv_op_subw, 59, FmtR 0 32);
   (rv_op_sllw, 59, FmtR 1 0); (rv_op_srlw, 59, FmtR 5 0); (rv_op_sraw, 59, FmtR 5 32);
   (rv_op_mul, 51, FmtR 0 1); (rv_op_mulh, 51, FmtR 1 1); (rv_op_mulhsu, 51, FmtR 2 1);
   (rv_op_mulhu, 51, FmtR 3 1); (rv_op_div, 51, FmtR 4 1); (rv_op_divu, 51, FmtR 5 1);
   (rv_op_rem, 51, FmtR 6 1); (rv_op_remu, 51, FmtR 7 1); (rv_op_mulw, 59, FmtR 0 1);
   (rv_op_divw, 59, FmtR 4 1); (rv_op_divuw, 59, FmtR 5 1); (rv_op_remw, 59, FmtR 6 1);
   (rv_op_remuw, 59, FmtR 7 1)].

Definition fmt_codec (f : rv_format) : rv_codec :=
  match f with
  | FmtR _ _ => rv_codec_r | FmtI _ => rv_codec_i | FmtShift7 _ _ => rv_codec_i_sh7
  | FmtShift5 _ _ => rv_codec_i_sh5 | FmtS _ => rv_codec_s | FmtB _ => rv_codec_sb
  | FmtU => rv_codec_u | FmtJ => rv_codec_uj
  end.

(** ** The fields of a word *)

Section word.
Context (opc rd f3 rs1 rs2 f7 : Z).
Context `{!Fits opc 7, !Fits rd 5, !Fits f3 3, !Fits rs1 5, !Fits rs2 5, !Fits f7 7}.
#[local] Abbreviation w := (word opc rd f3 rs1 rs2 f7).

Lemma word_opcode hi lo : 0 <= lo <= hi -> hi < 7 -> slice w hi lo = slice opc hi lo.
Proof. intros. unfold word. by rewrite slice_join_low. Qed.
Lemma word_rd : slice w 11 7 = rd.
Proof.
  unfold word. rewrite slice_join_high, slice_join_low by (lia || done).
  by apply (slice_all 4).
Qed.
Lemma word_f3 : slice w 14 12 = f3.
Proof.
  unfold word. rewrite !slice_join_high, slice_join_low by (lia || done).
  by apply (slice_all 2).
Qed.
Lemma word_rs1 : slice w 19 15 = rs1.
Proof.
  unfold word. rewrite !slice_join_high, slice_join_low by (lia || done).
  by apply (slice_all 4).
Qed.
Lemma word_rs2 : slice w 24 20 = rs2.
Proof.
  unfold word. rewrite !slice_join_high, slice_join_low by (lia || done).
  by apply (slice_all 4).
Qed.
Lemma word_f7 hi lo : 25 <= lo -> slice w hi lo = slice f7 (hi - 25) (lo - 25).
Proof. intros. unfold word. rewrite !slice_join_high by (lia || done). f_equal; lia. Qed.
End word.

(** The fields the opcode switches look at. *)
Lemma word_switches opc rd f3 rs1 rs2 f7 :
  Fits opc 7 -> Fits rd 5 -> Fits f3 3 -> Fits rs1 5 -> Fits rs2 5 -> Fits f7 7 ->
  let w := word opc rd f3 rs1 rs2 f7 in
  bits w 0 3 = slice opc 1 0 /\ bits w 2 31 = slice opc 6 2 /\ bits w 12 7 = f3 /\
  bits w 25 127 = f7 /\ bits w 27 31 = slice f7 6 2 /\ bits w 22 1016 = Z.shiftl f7 3.
Proof.
  intros ?????? w.
  change 1016 with (Z.shiftl (Z.ones 7) 3). rewrite bits_shifted by lia.
  change 3 with (Z.ones 2) at 1. change 31 with (Z.ones 5). change 7 with (Z.ones 3) at 1.
  change 127 with (Z.ones 7). rewrite !bits_slice_eq by lia. cbn [Z.add Z.sub Z.pos_sub].
  unfold w. split_and!.
  - by apply word_opcode.
  - by apply word_opcode.
  - by apply word_f3.
  - rewrite word_f7 by (lia || done). by apply (slice_all 6).
  - by rewrite word_f7 by (lia || done).
  - f_equal. rewrite word_f7 by (lia || done). by apply (slice_all 6).
Qed.

(** Evaluates the opcode switches on a word with known function fields. *)
Ltac decode_word :=
  intros; cbn [encode];
  lazymatch goal with |- context [word ?opc ?rd ?f3 ?rs1 ?rs2 ?f7] =>
    let H := fresh in
    pose proof (word_switches opc rd f3 rs1 rs2 f7 _ _ _ _ _ _) as H; cbn zeta in H;
    generalize dependent (word opc rd f3 rs1 rs2 f7); intros w (E0&E2&E12&E25&E27&E22);
    rewrite ?(slice_join_high 2) in E27 by (lia || apply _);
    unfold decode_opcode, decode_c3, decode_load, decode_op_imm, decode_op_imm_32,
      decode_store, decode_op, decode_op_32, decode_branch, decode_jalr;
    rewrite ?E0, ?E2, ?E12, ?E25, ?E27, ?E22; reflexivity
  end.

Lemma decode_opcode_encode isa rd rs1 rs2 imm :
  Fits rd 5 -> Fits rs1 5 -> Fits rs2 5 ->
  Forall (fun '(op, opc, f) => decode_opcode (encode opc f rd rs1 rs2 imm) isa = op) rv_base.
Proof. intros. unfold rv_base. repeat (apply Forall_cons; split); [decode_word..|]. constructor. Qed.

(** ** Operands *)

Lemma swrap_id w x : 0 < w -> - 2 ^ (w - 1) <= x < 2 ^ (w - 1) -> swrap w x = x.
Proof.
  intros Hw Hx. unfold swrap.
  assert (2 ^ w = 2 * 2 ^ (w - 1)) by (rewrite <- Z.pow_succ_r by lia; f_equal; lia).
  rewrite Z.mod_small; lia.
Qed.

Lemma signed_roundtrip n a imm g :
  0 < n -> - 2 ^ (n - 1) <= imm < 2 ^ (n - 1) -> HasBits a g ->
  agree g (Z.testbit imm) (seqZ 0 n) -> swrap n a = imm.
Proof.
  intros Hn Hi Hg Ha. rewrite <- (swrap_id n imm) by done. apply swrap_ext; [done|].
  intros i Hr. rewrite Hg by lia. exact (agree_bits n _ _ Ha i Hr).
Qed.

Lemma unsigned_roundtrip n a imm g :
  0 <= n -> Fits imm n -> Fits a n -> HasBits a g ->
  agree g (Z.testbit imm) (seqZ 0 n) -> a = imm.
Proof.
  intros Hn Hi Hf Hg Ha. rewrite <- (wrap_small n a), <- (wrap_small n imm) by done.
  apply wrap_ext; [done|]. intros i Hr. rewrite Hg by lia. exact (agree_bits n _ _ Ha i Hr).
Qed.

Lemma low_bits_zero k imm i : imm mod 2 ^ k = 0 -> 0 <= i < k -> Z.testbit imm i = false.
Proof.
  intros Hm Hi. rewrite <- (Z.mod_pow2_bits_low imm k) by lia. rewrite Hm. apply Z.bits_0.
Qed.

Lemma reg_field (op : Z -> Z) w hi lo r :
  op w = assemble w [(0, hi, lo)] -> slice w hi lo = r -> Fits r 5 -> u8 (op w) = r.
Proof.
  intros -> E Hf. cbn [assemble foldr]. rewrite Z.shiftl_0_r, Z.lor_0_r, E.
  apply wrap_small. unfold Fits in Hf. lia.
Qed.

Lemma signed_operand (op : Z -> Z) n w runs imm g :
  op w = swrap n (assemble w runs) -> HasBits (assemble w runs) g ->
  0 < n <= 32 -> - 2 ^ (n - 1) <= imm < 2 ^ (n - 1) ->
  agree g (Z.testbit imm) (seqZ 0 n) -> swrap 32 (op w) = imm.
Proof.
  intros -> Hg Hn Hi Ha. rewrite (signed_roundtrip n _ imm g) by (done || lia).
  apply swrap_id; [lia|].
  assert (2 ^ (n - 1) <= 2 ^ (32 - 1)) by (apply Z.pow_le_mono_r; lia). lia.
Qed.

Lemma unsigned_operand (op : Z -> Z) n w runs imm g :
  op w = assemble w runs -> HasBits (assemble w runs) g -> Forall (run_fits n) runs ->
  0 <= n <= 31 -> Fits imm n -> agree g (Z.testbit imm) (seqZ 0 n) -> swrap 32 (op w) = imm.
Proof.
  intros -> Hg Hf Hn Hi Ha.
  rewrite (unsigned_roundtrip n (assemble w runs) imm g); [|lia|done|by apply assemble_range; [lia|]|done|done].
  apply swrap_id; [lia|].
  assert (2 ^ n <= 2 ^ (32 - 1)) by (apply Z.pow_le_mono_r; lia). unfold Fits in Hi. lia.
Qed.

(** Compares the bits put back together with the immediate; [zeros] are the low
    bits of the immediate that are known to be zero. *)
Ltac imm_bits imm zeros :=
  let Hz := fresh in
  assert (agree (Z.testbit imm) (fun _ => false) (seqZ 0 zeros)) as Hz
    by (let l := eval vm_compute in (seqZ 0 zeros) in change (seqZ 0 zeros) with l;
        cbn [agree]; split_and?; try exact I; apply (low_bits_zero zeros); (done || lia));
  revert Hz; generalize (Z.testbit imm); intros f; vm_compute; intros Hz;
  destruct_and?; split_and?; try exact I; try congruence;
  repeat match goal with |- context [f ?k] => destruct (f k) end; congruence.

Section immediates.
Context (opc rd rs1 rs2 imm : Z).
Context `{!Fits opc 7, !Fits rd 5, !Fits rs1 5, !Fits rs2 5}.

Lemma imm_I f3 : Fits f3 3 -> - 2 ^ 11 <= imm < 2 ^ 11 ->
  swrap 32 (operand_imm12 (encode opc (FmtI f3) rd rs1 rs2 imm)) = imm.
Proof.
  intros. eapply signed_operand; [apply operand_imm12_layout|apply _|lia|lia|].
  imm_bits imm 0.
Qed.
Lemma imm_S f3 : Fits f3 3 -> - 2 ^ 11 <= imm < 2 ^ 11 ->
  swrap 32 (operand_simm12 (encode opc (FmtS f3) rd rs1 rs2 imm)) = imm.
Proof.
  intros. eapply signed_operand; [apply operand_simm12_layout|apply _|lia|lia|].
  imm_bits imm 0.
Qed.
Lemma imm_B f3 : Fits f3 3 -> - 2 ^ 12 <= imm < 2 ^ 12 -> imm mod 2 ^ 1 = 0 ->
  swrap 32 (operand_sbimm12 (encode opc (FmtB f3) rd rs1 rs2 imm)) = imm.
Proof.
  intros. eapply signed_operand; [apply operand_sbimm12_layout|apply _|lia|lia|].
  imm_bits imm 1.
Qed.
Lemma imm_U : - 2 ^ 31 <= imm < 2 ^ 31 -> imm mod 2 ^ 12 = 0 ->
  swrap 32 (operand_imm20 (encode opc FmtU rd rs1 rs2 imm)) = imm.
Proof.
  intros. eapply signed_operand; [apply operand_imm20_layout|apply _|lia|lia|].
  imm_bits imm 12.
Qed.
Lemma imm_J : - 2 ^ 20 <= imm < 2 ^ 20 -> imm mod 2 ^ 1 = 0 ->
  swrap 32 (operand_jimm20 (encode opc FmtJ rd rs1 rs2 imm)) = imm.
Proof.
  intros. eapply signed_operand; [apply operand_jimm20_layout|apply _|lia|lia|].
  imm_bits imm 1.
Qed.
Lemma imm_Shift7 f3 f5 : Fits f3 3 -> Fits f5 5 -> Fits imm 7 ->
  swrap 32 (operand_shamt7 (encode opc (FmtShift7 f3 f5) rd rs1 rs2 imm)) = imm.
Proof.
  intros. eapply unsigned_operand;
    [apply operand_shamt7_layout|apply _|by repeat constructor|lia|done|].
  imm_bits imm 0.
Qed.
Lemma imm_Shift5 f3 f7 : Fits f3 3 -> Fits f7 7 -> Fits imm 5 ->
  swrap 32 (operand_shamt5 (encode opc (FmtShift5 f3 f7) rd rs1 rs2 imm)) = imm.
Proof.
  intros. eapply unsigned_operand;
    [apply operand_shamt5_layout|apply _|by repeat constructor|lia|done|].
  imm_bits imm 0.
Qed.
End immediates.

Definition fmt_fits (f : rv_format) : Prop :=
  match f with
  | FmtR f3 f7 | FmtShift5 f3 f7 => Fits f3 3 /\ Fits f7 7
  | FmtShift7 f3 f5 => Fits f3 3 /\ Fits f5 5
  | FmtI f3 | FmtS f3 | FmtB f3 => Fits f3 3
  | FmtU | FmtJ => True
  end.

Lemma rv_base_ok :
  Forall (fun '(op, opc, f) => Fits opc 7 /\ fmt_fits f /\
            od_codec <$> opcode_at op = Ok (fmt_codec f)) rv_base.
Proof.
  unfold rv_base. repeat (apply Forall_cons; split);
    [(cbn [fmt_fits fmt_codec]; unfold Fits; split_and!; try lia; vm_compute; reflexivity)..|constructor].
Qed.

(** The operands read from an encoded word are those it was encoded from. *)
Lemma decode_operands_encode dec opc f rd rs1 rs2 imm :
  Fits opc 7 -> fmt_fits f -> operands_ok f rd rs1 rs2 imm ->
  dec_inst dec = encode opc f rd rs1 rs2 imm -> dec_codec dec = fmt_codec f ->
  exists dec', decode_operands_base dec = Some dec' /\ dec_op dec' = dec_op dec /\
    dec_codec dec' = fmt_codec f /\
    dec_rd dec' = rd /\ dec_rs1 dec' = rs1 /\ dec_rs2 dec' = rs2 /\ dec_imm dec' = imm.
Proof.
  intros Ho Hf (Hrd&Hrs1&Hrs2&Hok) Hi Hc. unfold decode_operands_base. rewrite Hc, Hi.
  destruct f; cbn [fmt_codec fmt_fits] in *; destruct_and?; simplify_eq;
    (eexists; split; [reflexivity|]); cbn [set_operands dec_op dec_codec dec_rd dec_rs1 dec_rs2 dec_imm];
    split_and!; try done.
  all: lazymatch goal with
    | |- u8 (operand_rd ?w) = _ =>
      apply (reg_field operand_rd w 11 7); [apply operand_rd_layout|apply word_rd; apply _|done]
    | |- u8 (operand_rs1 ?w) = _ =>
      apply (reg_field operand_rs1 w 19 15); [apply operand_rs1_layout|apply word_rs1; apply _|done]
    | |- u8 (operand_rs2 ?w) = _ =>
      apply (reg_field operand_rs2 w 24 20); [apply operand_rs2_layout|apply word_rs2; apply _|done]
    | _ => idtac
    end.
  - by apply imm_I.
  - by apply imm_Shift7.
  - by apply imm_Shift5.
  - by apply imm_S.
  - by apply imm_B.
  - by apply imm_U.
  - by apply imm_J.
Qed.

(** C4: Decoding inverts encoding: for every integer instruction of the base ISA
    (and of the multiplication extension) and for all operands its format has
    room for, the opcode switches recognise the encoded word, on every ISA
    width, and the operand extractors return the operands it was encoded from. *)
Theorem rv_decode_inverts_encode isa dec op opc f rd rs1 rs2 imm :
  (op, opc, f) ∈ rv_base -> operands_ok f rd rs1 rs2 imm ->
  dec_inst dec = encode opc f rd rs1 rs2 imm ->
  exists dec', decode_inst_operands (decode_inst_opcode dec isa) = Ok dec' /\
    dec_op dec' = op /\ dec_codec dec' = fmt_codec f /\
    dec_rd dec' = rd /\ dec_rs1 dec' = rs1 /\ dec_rs2 dec' = rs2 /\ dec_imm dec' = imm.
Proof.
  intros Hin Hok Hi. pose proof Hok as (Hrd&Hrs1&Hrs2&_).
  pose proof (proj1 (Forall_forall _ _) (decode_opcode_encode isa rd rs1 rs2 imm Hrd Hrs1 Hrs2)
                _ Hin) as Hd; cbn beta iota in Hd.
  pose proof (proj1 (Forall_forall _ _) rv_base_ok _ Hin) as (Ho&Hf&Hc).
  unfold decode_inst_opcode, decode_inst_operands. cbn [set_op dec_op]. rewrite Hi, Hd.
  destruct (opcode_at op) as [data|]; cbn in Hc; [|done]. injection Hc as Hc.
  cbn [mbind res_bind].
  destruct (decode_operands_encode (set_codec (set_op dec op) (od_codec data)) opc f rd rs1 rs2 imm)
    as (dec'&->&H1&H2); [done..|].
  exists dec'. split; [|done]. by destruct (decode_operands_ci _), (decode_operands_c _).
Qed.

Lemma rv_decode_inverts_encode_witness :
  exists dec', decode_inst_operands (decode_inst_opcode
                 (dec_at 4096 (encode 99 (FmtB 4) 0 10 11 (-20))) rv64) = Ok dec' /\
    dec_op dec' = rv_op_blt /\ dec_codec dec' = rv_codec_sb /\
    dec_rd dec' = 0 /\ dec_rs1 dec' = 10 /\ dec_rs2 dec' = 11 /\ dec_imm dec' = -20.
Proof.
  apply (rv_decode_inverts_encode rv64 _ rv_op_blt 99 (FmtB 4)).
  - unfold rv_base. repeat constructor.
  - repeat split; try (vm_compute; congruence).
  - reflexivity.
Defined.
