(* ===== verification/RiscvDisas.v ===== *)
(** * The RISC-V disassembler: from bytes to instructions

    The rest of src/disasm/riscv-disas.cpp: pseudo-instruction constraints,
    decompression, the textual form ([rv_disasm_inst]), the structured form
    ([rv_disasm_instr]) and the walk over a buffer ([rv_disasm_buffer]).  The
    diagnostics printed on an invalid encoding are left out; the assertion that
    follows the second one is a fault. *)

From S2P Require Import Prelude RiscvTables RiscvDecode RiscvEncode.

(** ** Constraints *)

(** One constraint of the switch. *)
Definition check_constraint (dec : rv_decode) (c : rvc_constraint) : bool :=
  let imm := dec_imm dec in
  let rd := dec_rd dec in let rs1 := dec_rs1 dec in let rs2 := dec_rs2 dec in
  match c with
  | rvc_rd_eq_ra => rd =? 1
  | rvc_rd_eq_x0 => rd =? 0
  | rvc_rs1_eq_x0 => rs1 =? 0
  | rvc_rs2_eq_x0 => rs2 =? 0
  | rvc_rs2_eq_rs1 => rs2 =? rs1
  | rvc_rs1_eq_ra => rs1 =? 1
  | rvc_imm_eq_zero => imm =? 0
  | rvc_imm_eq_n1 => imm =? -1
  | rvc_imm_eq_p1 => imm =? 1
  | rvc_csr_eq_0x001 => imm =? 0x001
  | rvc_csr_eq_0x002 => imm =? 0x002
  | rvc_csr_eq_0x003 => imm =? 0x003
  | rvc_csr_eq_0xc00 => imm =? 0xc00
  | rvc_csr_eq_0xc01 => imm =? 0xc01
  | rvc_csr_eq_0xc02 => imm =? 0xc02
  | rvc_csr_eq_0xc80 => imm =? 0xc80
  | rvc_csr_eq_0xc81 => imm =? 0xc81
  | rvc_csr_eq_0xc82 => imm =? 0xc82
  | rvc_end => true
  end.

(** The loop up to [rvc_end]; a list without it is read past its end. *)
Fixpoint check_constraints (dec : rv_decode) (cs : list rvc_constraint) : res bool :=
  match cs with
  | [] => Err OutOfBounds
  | rvc_end :: _ => Ok true
  | c :: cs => if check_constraint dec c then check_constraints dec cs else Ok false
  end.

(** ** Instruction length *)

Definition rv_inst_length (inst : Z) : Z :=
  if negb (Z.land inst 3 =? 3) then 2
  else if negb (Z.land inst 28 =? 28) then 4
  else if Z.land inst 63 =? 31 then 6
  else if Z.land inst 127 =? 63 then 8
  else 0.

(** ** Lifting to pseudo-instructions *)

Fixpoint lift_loop (dec : rv_decode) (comp_data : list rv_comp_data) : res rv_decode :=
  match comp_data with
  | [] => Err OutOfBounds
  | cd :: rest =>
    match constraints cd with
    | None => Ok dec
    | Some cs =>
      b ← check_constraints dec cs;
      if (b : bool) then
        data ← opcode_at (comp_op cd);
        Ok (set_codec (set_op dec (comp_op cd)) (od_codec data))
      else lift_loop dec rest
    end
  end.
Definition decode_inst_lift_pseudo (dec : rv_decode) : res rv_decode :=
  data ← opcode_at (dec_op dec);
  match od_pseudo data with
  | None => Ok dec
  | Some comp_data => lift_loop dec comp_data
  end.

(** ** Decompression *)

Definition rv_op_eqb (a b : rv_op) : bool := rv_op_num a =? rv_op_num b.

(** The common body of the three functions; [decomp] selects the column. *)
Definition decompress_inst (decomp : rv_opcode_data -> rv_op) (dec : rv_decode)
  : res rv_decode :=
  data ← opcode_at (dec_op dec);
  let decomp_op := decomp data in
  if rv_op_eqb decomp_op rv_op_illegal then Ok dec
  else if negb (Z.land (decomp_data data) rvcd_imm_nz =? 0) && (dec_imm dec =? 0)
  then Ok (set_op dec rv_op_illegal)
  else data' ← opcode_at decomp_op;
       Ok (set_codec (set_op dec decomp_op) (od_codec data')).
Definition decompress_inst_rv32 := decompress_inst decomp_rv32.
Definition decompress_inst_rv64 := decompress_inst decomp_rv64.
Definition decompress_inst_rv128 := decompress_inst decomp_rv128.

(** The steps both entry points share. *)
Definition decode_steps (isa : rv_isa) (dec : rv_decode) : res rv_decode :=
  let dec := decode_inst_opcode dec isa in
  dec ← decode_inst_operands dec;
  dec ← match isa with
        | rv32 => decompress_inst_rv32 dec
        | rv64 => decompress_inst_rv64 dec
        | rv128 => decompress_inst_rv128 dec
        end;
  decode_inst_lift_pseudo dec.

(** ** The textual form *)

(** [strncat(s1, s2, n - l1)] on a buffer of [n] bytes that holds [s1]. *)
Definition append (s1 s2 : list Z) (n : Z) : res (list Z) :=
  let l1 := Z.of_nat (length s1) in
  if 0 <? sub64 (sub64 n l1) 1 then
    let s := s1 ++ take (Z.to_nat (sub64 n l1)) s2 in
    if Z.of_nat (length s) + 1 <=? n then Ok s else Err OutOfBounds
  else Ok s1.

(** The digits of a number as [printf] writes them. *)
Fixpoint digits_loop (fuel : nat) (base n : Z) (acc : list Z) : list Z :=
  match fuel with
  | O => acc
  | S fuel =>
    let d := n mod base in
    let acc := (if d <=? 9 then d + 48 else d + 87) :: acc in
    if n / base =? 0 then acc else digits_loop fuel base (n / base) acc
  end.
Definition fmt_x (width : nat) (n : Z) : list Z :=
  let ds := digits_loop 64 16 n [] in repeat 48 (width - length ds) ++ ds.
Definition fmt_d (n : Z) : list Z :=
  if n <? 0 then 45 :: digits_loop 64 10 (- n) [] else digits_loop 64 10 n [].

(** [snprintf(buf, buflen, ...)]: the text, cut to fit with its terminator. *)
Definition print_into (buflen : Z) (text : list Z) : res (list Z) :=
  if buflen <=? 0 then Err Undefined else Ok (take (Z.to_nat (buflen - 1)) text).

(** [while (strlen(buf) < tab) append(buf, " ", buflen)] *)
Fixpoint pad_loop (fuel : nat) (buf : list Z) (tab buflen : Z) : res (list Z) :=
  match fuel with
  | O => Err OutOfFuel
  | S fuel =>
    if Z.of_nat (length buf) <? tab then
      buf ← append buf [32] buflen; pad_loop fuel buf tab buflen
    else Ok buf
  end.
Definition pad_to (buf : list Z) (tab buflen : Z) : res (list Z) :=
  pad_loop (S (Z.to_nat tab)) buf tab buflen.

Definition rm_name (rm : Z) : list Z :=
  chars (switch rm
    [(rv_rm_num rv_rm_rne, "rne"); (rv_rm_num rv_rm_rtz, "rtz"); (rv_rm_num rv_rm_rdn, "rdn");
     (rv_rm_num rv_rm_rup, "rup"); (rv_rm_num rv_rm_rmm, "rmm"); (rv_rm_num rv_rm_dyn, "dyn")]
    "inv")%string.

(** The cases ['p'] and ['s']. *)
Definition append_fence (buf : list Z) (set buflen : Z) : res (list Z) :=
  let flag f c buf :=
    if negb (Z.land set (rv_fence_num f) =? 0) then append buf (chars c) buflen else Ok buf in
  buf ← flag rv_fence_i "i"%string buf;
  buf ← flag rv_fence_o "o"%string buf;
  buf ← flag rv_fence_r "r"%string buf;
  flag rv_fence_w "w"%string buf.

Definition append_reg (names : list string) (buf : list Z) (r buflen : Z) : res (list Z) :=
  name ← load names r; append buf (chars name) buflen.

(** One character of the format, by its code. *)
Definition format_char (buflen tab : Z) (dec : rv_decode) (data : rv_opcode_data)
    (buf : list Z) (c : Z) : res (list Z) :=
  match c with
  | 79 (* O *) => append buf (chars (od_name data)) buflen
  | 40 (* ( *) => append buf [40] buflen
  | 44 (* , *) => append buf [44] buflen
  | 41 (* ) *) => append buf [41] buflen
  | 48 (* 0 *) => append_reg rv_ireg_name_sym buf (dec_rd dec) buflen
  | 49 (* 1 *) => append_reg rv_ireg_name_sym buf (dec_rs1 dec) buflen
  | 50 (* 2 *) => append_reg rv_ireg_name_sym buf (dec_rs2 dec) buflen
  | 51 (* 3 *) => append_reg rv_freg_name_sym buf (dec_rd dec) buflen
  | 52 (* 4 *) => append_reg rv_freg_name_sym buf (dec_rs1 dec) buflen
  | 53 (* 5 *) => append_reg rv_freg_name_sym buf (dec_rs2 dec) buflen
  | 54 (* 6 *) => append_reg rv_freg_name_sym buf (dec_rs3 dec) buflen
  | 55 (* 7 *) => append buf (fmt_d (dec_rs1 dec)) buflen
  | 105 (* i *) => append buf (fmt_d (dec_imm dec)) buflen
  | 111 (* o *) =>
    buf ← append buf (fmt_d (dec_imm dec)) buflen;
    buf ← pad_to buf (tab * 2) buflen;
    append buf (chars "# 0x" ++ fmt_x 0 (add64 (dec_pc dec) (u64 (dec_imm dec)))) buflen
  | 99 (* c *) =>
    let csr := Z.land (dec_imm dec) 0xfff in
    match csr_name csr with
    | Some name => append buf (chars name) buflen
    | None => append buf (chars "0x" ++ fmt_x 3 csr) buflen
    end
  | 114 (* r *) => append buf (rm_name (dec_rm dec)) buflen
  | 112 (* p *) => append_fence buf (dec_pred dec) buflen
  | 115 (* s *) => append_fence buf (dec_succ dec) buflen
  | 9 (* tab *) => pad_to buf tab buflen
  | 65 (* A *) => if dec_aq dec =? 0 then Ok buf else append buf (chars ".aq") buflen
  | 82 (* R *) => if dec_rl dec =? 0 then Ok buf else append buf (chars ".rl") buflen
  | _ => Ok buf
  end.
Fixpoint format_loop (buflen tab : Z) (dec : rv_decode) (data : rv_opcode_data)
    (buf fmt : list Z) : res (list Z) :=
  match fmt with
  | [] => Ok buf
  | c :: fmt =>
    buf ← format_char buflen tab dec data buf c; format_loop buflen tab dec data buf fmt
  end.

(** [INST_FMT_2] to [INST_FMT_8]: the digits and the blanks after them. *)
Definition inst_prefix (inst : Z) : list Z :=
  let '(width, blanks) :=
    switch (rv_inst_length inst) [(2, (4, 14)%nat); (4, (8, 10)%nat); (6, (12, 6)%nat)] (16, 2)%nat in
  fmt_x width inst ++ repeat 32 blanks.
Definition format_inst (buflen tab : Z) (dec : rv_decode) : res (list Z) :=
  buf ← print_into buflen (inst_prefix (dec_inst dec));
  data ← opcode_at (dec_op dec);
  format_loop buflen tab dec data buf (od_format data).

Definition rv_disasm_inst (buflen : Z) (isa : rv_isa) (pc inst : Z) : res (list Z) :=
  dec ← decode_steps isa (dec_at pc inst); format_inst buflen 32 dec.

(** ** The structured form *)

(** [(rv_reg)r] for a value of the enumeration. *)
Definition rv_reg_cast (r : Z) : res rv_reg :=
  match find (fun x => rv_reg_num x =? r) rv_regs with
  | Some x => Ok x
  | None => Err Undefined
  end.

(** The cleared structure. *)
Definition instr_zero : rv_instr :=
  mk_rv_instr 0 0 0 rv_codec_illegal rv_op_illegal None 0
    (repeat (rv_oper_reg rv_ireg_zero) 8) 0 0 0 0 0 0.

(** The fields [extract_inst] assigns, the operands apart. *)
Definition set_head (i : rv_instr) (ip : Z) (codec : rv_codec) (op : rv_op) : rv_instr :=
  mk_rv_instr ip (instr_inst i) (instr_len i) codec op (instr_op_name i)
    (instr_oper_count i) (instr_oper i) (instr_width i) (instr_pred i) (instr_succ i)
    (instr_rm i) (instr_aq i) (instr_rl i).
Definition set_op_name (i : rv_instr) (n : string) : rv_instr :=
  mk_rv_instr (instr_ip i) (instr_inst i) (instr_len i) (instr_codec i) (instr_op i) (Some n)
    (instr_oper_count i) (instr_oper i) (instr_width i) (instr_pred i) (instr_succ i)
    (instr_rm i) (instr_aq i) (instr_rl i).
Definition set_flags (i : rv_instr) (pred succ rm aq rl : Z) : rv_instr :=
  mk_rv_instr (instr_ip i) (instr_inst i) (instr_len i) (instr_codec i) (instr_op i)
    (instr_op_name i) (instr_oper_count i) (instr_oper i) (instr_width i) pred succ rm aq rl.
Definition set_word (i : rv_instr) (inst len : Z) : rv_instr :=
  mk_rv_instr (instr_ip i) inst len (instr_codec i) (instr_op i) (instr_op_name i)
    (instr_oper_count i) (instr_oper i) (instr_width i) (instr_pred i) (instr_succ i)
    (instr_rm i) (instr_aq i) (instr_rl i).

(** [oper[oper_count] = o; oper_count++] *)
Definition add_oper (i : rv_instr) (o : rv_oper) : res rv_instr :=
  os ← store (instr_oper i) (instr_oper_count i) o;
  Ok (mk_rv_instr (instr_ip i) (instr_inst i) (instr_len i) (instr_codec i) (instr_op i)
        (instr_op_name i) (u8 (instr_oper_count i + 1)) os (instr_width i) (instr_pred i)
        (instr_succ i) (instr_rm i) (instr_aq i) (instr_rl i)).
Definition add_reg (i : rv_instr) (r : Z) : res rv_instr :=
  reg ← rv_reg_cast r; add_oper i (rv_oper_reg reg).
Definition add_mem (i : rv_instr) (r disp : Z) : res rv_instr :=
  reg ← rv_reg_cast r; add_oper i (rv_oper_mem reg disp).

Definition extract_char (dec : rv_decode) (data : rv_opcode_data) (i : rv_instr) (c : Z)
  : res rv_instr :=
  match c with
  | 79 (* O *) => Ok (set_op_name i (od_name data))
  | 48 (* 0 *) => add_reg i (dec_rd dec)
  | 49 (* 1 *) => add_reg i (dec_rs1 dec)
  | 50 (* 2 *) => add_reg i (dec_rs2 dec)
  | 51 (* 3 *) => add_reg i (rv_freg_base + dec_rd dec)
  | 52 (* 4 *) => add_reg i (dec_rs1 dec + rv_freg_base)
  | 53 (* 5 *) => add_reg i (dec_rs2 dec + rv_freg_base)
  | 54 (* 6 *) => add_reg i (dec_rs3 dec + rv_freg_base)
  | 55 (* 7 *) => add_oper i (rv_oper_imm (dec_rs1 dec))
  | 105 (* i *) => add_oper i (rv_oper_imm (dec_imm dec))
  | 111 (* o *) => add_oper i (rv_oper_imm (dec_imm dec))
  | 99 (* c *) => add_oper i (rv_oper_imm (Z.land (dec_imm dec) 0xfff))
  | 114 (* r *) => Ok (set_flags i (instr_pred i) (instr_succ i) (dec_rm dec) (instr_aq i) (instr_rl i))
  | 112 (* p *) => Ok (set_flags i (dec_pred dec) (instr_succ i) (instr_rm i) (instr_aq i) (instr_rl i))
  | 115 (* s *) => Ok (set_flags i (instr_pred i) (dec_succ dec) (instr_rm i) (instr_aq i) (instr_rl i))
  | 65 (* A *) => Ok (set_flags i (instr_pred i) (instr_succ i) (instr_rm i) 1 (instr_rl i))
  | 82 (* R *) => Ok (set_flags i (instr_pred i) (instr_succ i) (instr_rm i) (instr_aq i) 1)
  | 33 (* ! *) => add_mem i (dec_rs1 dec) 0
  | 73 (* I *) => add_mem i (dec_rs1 dec) (dec_imm dec)
  | _ => Ok i
  end.
Fixpoint extract_loop (dec : rv_decode) (data : rv_opcode_data) (i : rv_instr) (fmt : list Z)
  : res rv_instr :=
  match fmt with
  | [] => Ok i
  | c :: fmt => i ← extract_char dec data i c; extract_loop dec data i fmt
  end.
Definition extract_inst (i : rv_instr) (dec : rv_decode) : res rv_instr :=
  let i := set_head i (dec_pc dec) (dec_codec dec) (dec_op dec) in
  data ← opcode_at (dec_op dec);
  extract_loop dec data i (od_format data).

(** The [uint16_t] at [code + off], little-endian. *)
Definition parcel (code : list Z) (off : Z) : res Z :=
  lo ← load code off; hi ← load code (off + 1); Ok (lo + 256 * hi).

(** The result is the returned length and the structure left in [instr]. *)
Definition rv_disasm_instr (instr : rv_instr) (isa : rv_isa) (ip : Z) (code : list Z)
    (code_size : Z) : res (Z * rv_instr) :=
  if code_size <? 2 then Ok (0, instr)
  else
    first ← parcel code 0;
    if first =? 0 then Ok (0, instr_zero)
    else
      let len := u8 (rv_inst_length first) in
      inst ← (if len =? 2 then Ok first
              else if (len =? 4) && (4 <=? code_size) then
                second ← parcel code 2; Ok (Z.lor first (u32 (Z.shiftl second 16)))
              else Err AssertFail);
      dec ← decode_steps isa (dec_at ip inst);
      i ← extract_inst (set_word instr_zero 0 len) dec;
      Ok (len, set_word i (dec_inst dec) len).

(** [instr] is what the local variable [next] holds before the call. *)
Fixpoint disasm_loop (fuel : nat) (next : rv_instr) (isa : rv_isa) (ip : Z) (code : list Z)
    (code_size off : Z) : res (list rv_instr) :=
  match fuel with
  | O => Err OutOfFuel
  | S fuel =>
    if off <? code_size then
      '(next_size, next) ← rv_disasm_instr next isa (add64 ip off) (drop (Z.to_nat off) code)
                             (code_size - off);
      if next_size =? 0 then Ok []
      else rest ← disasm_loop fuel next isa ip code code_size (off + next_size);
           Ok (next :: rest)
    else Ok []
  end.
Definition rv_disasm_buffer (isa : rv_isa) (ip : Z) (code : list Z) (code_size : Z)
  : res (list rv_instr) :=
  disasm_loop (S (Z.to_nat code_size)) instr_zero isa ip code code_size 0.

(** ** The tables *)

#[global] Arguments opcode_data : simpl never.
#[global] Arguments rv_ops : simpl never.
#[global] Arguments rv_op_num : simpl never.

Lemma rv_ops_lookup op : rv_ops !! Z.to_nat (rv_op_num op) = Some op.
Proof. destruct op; reflexivity. Qed.

Lemma rv_ops_all op : op ∈ rv_ops.
Proof. eapply list_elem_of_lookup_2, rv_ops_lookup. Qed.

(** A decidable property of all rows, checked by evaluation. *)
Lemma opcode_at_forall (P : rv_op -> rv_opcode_data -> bool) :
  forallb (fun op => match opcode_at op with Ok d => P op d | Err _ => false end) rv_ops = true ->
  forall op, exists d, opcode_at op = Ok d /\ P op d = true.
Proof.
  rewrite forallb_forall. intros H op.
  specialize (H op ltac:(apply list_elem_of_In, rv_ops_all)).
  destruct (opcode_at op) as [d|]; [by exists d|done].
Qed.

Lemma rv_op_eqb_eq a b : rv_op_eqb a b = true <-> a = b.
Proof.
  unfold rv_op_eqb. rewrite Z.eqb_eq. split; [|by intros ->]. intros E.
  pose proof (rv_ops_lookup a) as Ha. rewrite E, rv_ops_lookup in Ha. by simplify_eq.
Qed.
#[global] Instance rv_op_eq_dec : EqDecision rv_op.
Proof.
  intros a b. destruct (rv_op_eqb a b) eqn:E; [left; by apply rv_op_eqb_eq|right].
  intros ->. by rewrite (proj2 (rv_op_eqb_eq b b)) in E.
Defined.

(** The enumerators without their prefix, underscores written as dots. *)
Definition enumerator (op : rv_op) : string :=
  match op with
  | rv_op_illegal => "illegal" | rv_op_lui => "lui" | rv_op_auipc => "auipc"
  | rv_op_jal => "jal" | rv_op_jalr => "jalr" | rv_op_beq => "beq" | rv_op_bne => "bne"
  | rv_op_blt => "blt" | rv_op_bge => "bge" | rv_op_bltu => "bltu" | rv_op_bgeu => "bgeu"
  | rv_op_lb => "lb" | rv_op_lh => "lh" | rv_op_lw => "lw" | rv_op_lbu => "lbu"
  | rv_op_lhu => "lhu" | rv_op_sb => "sb" | rv_op_sh => "sh" | rv_op_sw => "sw"
  | rv_op_addi => "addi" | rv_op_slti => "slti" | rv_op_sltiu => "sltiu"
  | rv_op_xori => "xori" | rv_op_ori => "ori" | rv_op_andi => "andi" | rv_op_slli => "slli"
  | rv_op_srli => "srli" | rv_op_srai => "srai" | rv_op_add => "add" | rv_op_sub => "sub"
  | rv_op_sll => "sll" | rv_op_slt => "slt" | rv_op_sltu => "sltu" | rv_op_xor => "xor"
  | rv_op_srl => "srl" | rv_op_sra => "sra" | rv_op_or => "or" | rv_op_and => "and"
  | rv_op_fence => "fence" | rv_op_fence_i => "fence.i" | rv_op_lwu => "lwu"
  | rv_op_ld => "ld" | rv_op_sd => "sd" | rv_op_addiw => "addiw" | rv_op_slliw => "slliw"
  | rv_op_srliw => "srliw" | rv_op_sraiw => "sraiw" | rv_op_addw => "addw"
  | rv_op_subw => "subw" | rv_op_sllw => "sllw" | rv_op_srlw => "srlw"
  | rv_op_sraw => "sraw" | rv_op_ldu => "ldu" | rv_op_lq => "lq" | rv_op_sq => "sq"
  | rv_op_addid => "addid" | rv_op_sllid => "sllid" | rv_op_srlid => "srlid"
  | rv_op_sraid => "sraid" | rv_op_addd => "addd" | rv_op_subd => "subd"
  | rv_op_slld => "slld" | rv_op_srld => "srld" | rv_op_srad => "srad" | rv_op_mul => "mul"
  | rv_op_mulh => "mulh" | rv_op_mulhsu => "mulhsu" | rv_op_mulhu => "mulhu"
  | rv_op_div => "div" | rv_op_divu => "divu" | rv_op_rem => "rem" | rv_op_remu => "remu"
  | rv_op_mulw => "mulw" | rv_op_divw => "divw" | rv_op_divuw => "divuw"
  | rv_op_remw => "remw" | rv_op_remuw => "remuw" | rv_op_muld => "muld"
  | rv_op_divd => "divd" | rv_op_divud => "divud" | rv_op_remd => "remd"
  | rv_op_remud => "remud" | rv_op_lr_w => "lr.w" | rv_op_sc_w => "sc.w"
  | rv_op_amoswap_w => "amoswap.w" | rv_op_amoadd_w => "amoadd.w"
  | rv_op_amoxor_w => "amoxor.w" | rv_op_amoor_w => "amoor.w"
  | rv_op_amoand_w => "amoand.w" | rv_op_amomin_w => "amomin.w"
  | rv_op_amomax_w => "amomax.w" | rv_op_amominu_w => "amominu.w"
  | rv_op_amomaxu_w => "amomaxu.w" | rv_op_lr_d => "lr.d" | rv_op_sc_d => "sc.d"
  | rv_op_amoswap_d => "amoswap.d" | rv_op_amoadd_d => "amoadd.d"
  | rv_op_amoxor_d => "amoxor.d" | rv_op_amoor_d => "amoor.d"
  | rv_op_amoand_d => "amoand.d" | rv_op_amomin_d => "amomin.d"
  | rv_op_amomax_d => "amomax.d" | rv_op_amominu_d => "amominu.d"
  | rv_op_amomaxu_d => "amomaxu.d" | rv_op_lr_q => "lr.q" | rv_op_sc_q => "sc.q"
  | rv_op_amoswap_q => "amoswap.q" | rv_op_amoadd_q => "amoadd.q"
  | rv_op_amoxor_q => "amoxor.q" | rv_op_amoor_q => "amoor.q"
  | rv_op_amoand_q => "amoand.q" | rv_op_amomin_q => "amomin.q"
  | rv_op_amomax_q => "amomax.q" | rv_op_amominu_q => "amominu.q"
  | rv_op_amomaxu_q => "amomaxu.q" | rv_op_ecall => "ecall" | rv_op_ebreak => "ebreak"
  | rv_op_uret => "uret" | rv_op_sret => "sret" | rv_op_hret => "hret"
  | rv_op_mret => "mret" | rv_op_dret => "dret" | rv_op_sfence_vm => "sfence.vm"
  | rv_op_sfence_vma => "sfence.vma" | rv_op_wfi => "wfi" | rv_op_csrrw => "csrrw"
  | rv_op_csrrs => "csrrs" | rv_op_csrrc => "csrrc" | rv_op_csrrwi => "csrrwi"
  | rv_op_csrrsi => "csrrsi" | rv_op_csrrci => "csrrci" | rv_op_flw => "flw"
  | rv_op_fsw => "fsw" | rv_op_fmadd_s => "fmadd.s" | rv_op_fmsub_s => "fmsub.s"
  | rv_op_fnmsub_s => "fnmsub.s" | rv_op_fnmadd_s => "fnmadd.s" | rv_op_fadd_s => "fadd.s"
  | rv_op_fsub_s => "fsub.s" | rv_op_fmul_s => "fmul.s" | rv_op_fdiv_s => "fdiv.s"
  | rv_op_fsgnj_s => "fsgnj.s" | rv_op_fsgnjn_s => "fsgnjn.s"
  | rv_op_fsgnjx_s => "fsgnjx.s" | rv_op_fmin_s => "fmin.s" | rv_op_fmax_s => "fmax.s"
  | rv_op_fsqrt_s => "fsqrt.s" | rv_op_fle_s => "fle.s" | rv_op_flt_s => "flt.s"
  | rv_op_feq_s => "feq.s" | rv_op_fcvt_w_s => "fcvt.w.s" | rv_op_fcvt_wu_s => "fcvt.wu.s"
  | rv_op_fcvt_s_w => "fcvt.s.w" | rv_op_fcvt_s_wu => "fcvt.s.wu"
  | rv_op_fmv_x_s => "fmv.x.s" | rv_op_fclass_s => "fclass.s" | rv_op_fmv_s_x => "fmv.s.x"
  | rv_op_fcvt_l_s => "fcvt.l.s" | rv_op_fcvt_lu_s => "fcvt.lu.s"
  | rv_op_fcvt_s_l => "fcvt.s.l" | rv_op_fcvt_s_lu => "fcvt.s.lu" | rv_op_fld => "fld"
  | rv_op_fsd => "fsd" | rv_op_fmadd_d => "fmadd.d" | rv_op_fmsub_d => "fmsub.d"
  | rv_op_fnmsub_d => "fnmsub.d" | rv_op_fnmadd_d => "fnmadd.d" | rv_op_fadd_d => "fadd.d"
  | rv_op_fsub_d => "fsub.d" | rv_op_fmul_d => "fmul.d" | rv_op_fdiv_d => "fdiv.d"
  | rv_op_fsgnj_d => "fsgnj.d" | rv_op_fsgnjn_d => "fsgnjn.d"
  | rv_op_fsgnjx_d => "fsgnjx.d" | rv_op_fmin_d => "fmin.d" | rv_op_fmax_d => "fmax.d"
  | rv_op_fcvt_s_d => "fcvt.s.d" | rv_op_fcvt_d_s => "fcvt.d.s"
  | rv_op_fsqrt_d => "fsqrt.d" | rv_op_fle_d => "fle.d" | rv_op_flt_d => "flt.d"
  | rv_op_feq_d => "feq.d" | rv_op_fcvt_w_d => "fcvt.w.d" | rv_op_fcvt_wu_d => "fcvt.wu.d"
  | rv_op_fcvt_d_w => "fcvt.d.w" | rv_op_fcvt_d_wu => "fcvt.d.wu"
  | rv_op_fclass_d => "fclass.d" | rv_op_fcvt_l_d => "fcvt.l.d"
  | rv_op_fcvt_lu_d => "fcvt.lu.d" | rv_op_fmv_x_d => "fmv.x.d"
  | rv_op_fcvt_d_l => "fcvt.d.l" | rv_op_fcvt_d_lu => "fcvt.d.lu"
  | rv_op_fmv_d_x => "fmv.d.x" | rv_op_flq => "flq" | rv_op_fsq => "fsq"
  | rv_op_fmadd_q => "fmadd.q" | rv_op_fmsub_q => "fmsub.q" | rv_op_fnmsub_q => "fnmsub.q"
  | rv_op_fnmadd_q => "fnmadd.q" | rv_op_fadd_q => "fadd.q" | rv_op_fsub_q => "fsub.q"
  | rv_op_fmul_q => "fmul.q" | rv_op_fdiv_q => "fdiv.q" | rv_op_fsgnj_q => "fsgnj.q"
  | rv_op_fsgnjn_q => "fsgnjn.q" | rv_op_fsgnjx_q => "fsgnjx.q" | rv_op_fmin_q => "fmin.q"
  | rv_op_fmax_q => "fmax.q" | rv_op_fcvt_s_q => "fcvt.s.q" | rv_op_fcvt_q_s => "fcvt.q.s"
  | rv_op_fcvt_d_q => "fcvt.d.q" | rv_op_fcvt_q_d => "fcvt.q.d"
  | rv_op_fsqrt_q => "fsqrt.q" | rv_op_fle_q => "fle.q" | rv_op_flt_q => "flt.q"
  | rv_op_feq_q => "feq.q" | rv_op_fcvt_w_q => "fcvt.w.q" | rv_op_fcvt_wu_q => "fcvt.wu.q"
  | rv_op_fcvt_q_w => "fcvt.q.w" | rv_op_fcvt_q_wu => "fcvt.q.wu"
  | rv_op_fclass_q => "fclass.q" | rv_op_fcvt_l_q => "fcvt.l.q"
  | rv_op_fcvt_lu_q => "fcvt.lu.q" | rv_op_fcvt_q_l => "fcvt.q.l"
  | rv_op_fcvt_q_lu => "fcvt.q.lu" | rv_op_fmv_x_q => "fmv.x.q"
  | rv_op_fmv_q_x => "fmv.q.x" | rv_op_c_addi4spn => "c.addi4spn" | rv_op_c_fld => "c.fld"
  | rv_op_c_lw => "c.lw" | rv_op_c_flw => "c.flw" | rv_op_c_fsd => "c.fsd"
  | rv_op_c_sw => "c.sw" | rv_op_c_fsw => "c.fsw" | rv_op_c_nop => "c.nop"
  | rv_op_c_addi => "c.addi" | rv_op_c_jal => "c.jal" | rv_op_c_li => "c.li"
  | rv_op_c_addi16sp => "c.addi16sp" | rv_op_c_lui => "c.lui" | rv_op_c_srli => "c.srli"
  | rv_op_c_srai => "c.srai" | rv_op_c_andi => "c.andi" | rv_op_c_sub => "c.sub"
  | rv_op_c_xor => "c.xor" | rv_op_c_or => "c.or" | rv_op_c_and => "c.and"
  | rv_op_c_subw => "c.subw" | rv_op_c_addw => "c.addw" | rv_op_c_j => "c.j"
  | rv_op_c_beqz => "c.beqz" | rv_op_c_bnez => "c.bnez" | rv_op_c_slli => "c.slli"
  | rv_op_c_fldsp => "c.fldsp" | rv_op_c_lwsp => "c.lwsp" | rv_op_c_flwsp => "c.flwsp"
  | rv_op_c_jr => "c.jr" | rv_op_c_mv => "c.mv" | rv_op_c_ebreak => "c.ebreak"
  | rv_op_c_jalr => "c.jalr" | rv_op_c_add => "c.add" | rv_op_c_fsdsp => "c.fsdsp"
  | rv_op_c_swsp => "c.swsp" | rv_op_c_fswsp => "c.fswsp" | rv_op_c_ld => "c.ld"
  | rv_op_c_sd => "c.sd" | rv_op_c_addiw => "c.addiw" | rv_op_c_ldsp => "c.ldsp"
  | rv_op_c_sdsp => "c.sdsp" | rv_op_c_lq => "c.lq" | rv_op_c_sq => "c.sq"
  | rv_op_c_lqsp => "c.lqsp" | rv_op_c_sqsp => "c.sqsp" | rv_op_nop => "nop"
  | rv_op_mv => "mv" | rv_op_not => "not" | rv_op_neg => "neg" | rv_op_negw => "negw"
  | rv_op_sext_w => "sext.w" | rv_op_seqz => "seqz" | rv_op_snez => "snez"
  | rv_op_sltz => "sltz" | rv_op_sgtz => "sgtz" | rv_op_fmv_s => "fmv.s"
  | rv_op_fabs_s => "fabs.s" | rv_op_fneg_s => "fneg.s" | rv_op_fmv_d => "fmv.d"
  | rv_op_fabs_d => "fabs.d" | rv_op_fneg_d => "fneg.d" | rv_op_fmv_q => "fmv.q"
  | rv_op_fabs_q => "fabs.q" | rv_op_fneg_q => "fneg.q" | rv_op_beqz => "beqz"
  | rv_op_bnez => "bnez" | rv_op_blez => "blez" | rv_op_bgez => "bgez"
  | rv_op_bltz => "bltz" | rv_op_bgtz => "bgtz" | rv_op_ble => "ble" | rv_op_bleu => "bleu"
  | rv_op_bgt => "bgt" | rv_op_bgtu => "bgtu" | rv_op_j => "j" | rv_op_ret => "ret"
  | rv_op_jr => "jr" | rv_op_rdcycle => "rdcycle" | rv_op_rdtime => "rdtime"
  | rv_op_rdinstret => "rdinstret" | rv_op_rdcycleh => "rdcycleh"
  | rv_op_rdtimeh => "rdtimeh" | rv_op_rdinstreth => "rdinstreth" | rv_op_frcsr => "frcsr"
  | rv_op_frrm => "frrm" | rv_op_frflags => "frflags" | rv_op_fscsr => "fscsr"
  | rv_op_fsrm => "fsrm" | rv_op_fsflags => "fsflags" | rv_op_fsrmi => "fsrmi"
  | rv_op_fsflagsi => "fsflagsi"
  end%string.

(** ** Bounds of the operands *)

Definition reg_ok (r : Z) : Prop := 0 <= r < 32.
Definition regs_ok (dec : rv_decode) : Prop :=
  reg_ok (dec_rd dec) /\ reg_ok (dec_rs1 dec) /\ reg_ok (dec_rs2 dec) /\ reg_ok (dec_rs3 dec).

Lemma u8_reg x : reg_ok x -> reg_ok (u8 x).
Proof. unfold reg_ok. intros. rewrite wrap_small; lia. Qed.

Create HintDb rvreg.
Ltac reg_range l := rewrite l; apply (assemble_range 5); [lia|by repeat constructor].
Lemma operand_rd_reg inst : reg_ok (operand_rd inst).
Proof. reg_range operand_rd_layout. Qed.
Lemma operand_rs1_reg inst : reg_ok (operand_rs1 inst).
Proof. reg_range operand_rs1_layout. Qed.
Lemma operand_rs2_reg inst : reg_ok (operand_rs2 inst).
Proof. reg_range operand_rs2_layout. Qed.
Lemma operand_rs3_reg inst : reg_ok (operand_rs3 inst).
Proof. reg_range operand_rs3_layout. Qed.

Lemma field_reg op inst hi lo :
  op inst = assemble inst [(0, hi, lo)] -> 0 <= lo <= hi -> hi - lo + 1 <= 5 -> reg_ok (op inst).
Proof. intros -> ??. apply (assemble_range 5); [lia|]. repeat constructor; cbn; lia. Qed.
Lemma field_reg8 op inst hi lo :
  op inst = assemble inst [(0, hi, lo)] -> 0 <= lo <= hi -> hi - lo + 1 <= 3 -> reg_ok (op inst + 8).
Proof.
  intros -> ??. unfold reg_ok. assert (0 <= assemble inst [(0, hi, lo)] < 2 ^ 3); [|lia].
  apply assemble_range; [lia|]. repeat constructor; cbn; lia.
Qed.
Lemma operand_crd_reg inst : reg_ok (operand_crd inst).
Proof. apply (field_reg _ _ 11 7); [layout inst|lia..]. Qed.
Lemma operand_crs1_reg inst : reg_ok (operand_crs1 inst).
Proof. apply (field_reg _ _ 11 7); [layout inst|lia..]. Qed.
Lemma operand_crs1rd_reg inst : reg_ok (operand_crs1rd inst).
Proof. apply (field_reg _ _ 11 7); [layout inst|lia..]. Qed.
Lemma operand_crs2_reg inst : reg_ok (operand_crs2 inst).
Proof. apply (field_reg _ _ 6 2); [layout inst|lia..]. Qed.
Lemma operand_crdq_reg inst : reg_ok (operand_crdq inst + 8).
Proof. apply (field_reg8 _ _ 4 2); [layout inst|lia..]. Qed.
Lemma operand_crs1q_reg inst : reg_ok (operand_crs1q inst + 8).
Proof. apply (field_reg8 _ _ 9 7); [layout inst|lia..]. Qed.
Lemma operand_crs1rdq_reg inst : reg_ok (operand_crs1rdq inst + 8).
Proof. apply (field_reg8 _ _ 9 7); [layout inst|lia..]. Qed.
Lemma operand_crs2q_reg inst : reg_ok (operand_crs2q inst + 8).
Proof. apply (field_reg8 _ _ 4 2); [layout inst|lia..]. Qed.
Lemma const_reg_ok : reg_ok x_zero /\ reg_ok x_ra /\ reg_ok x_sp /\ reg_ok 0.
Proof. unfold reg_ok; cbn; lia. Qed.
#[export] Hint Resolve u8_reg operand_rd_reg operand_rs1_reg operand_rs2_reg operand_rs3_reg
  operand_crd_reg operand_crs1_reg operand_crs1rd_reg operand_crs2_reg operand_crdq_reg
  operand_crs1q_reg operand_crs1rdq_reg operand_crs2q_reg : rvreg.
#[export] Hint Extern 1 (reg_ok _) => apply const_reg_ok : rvreg.

Lemma decode_operands_regs dec dec' :
  reg_ok (dec_rs3 dec) ->
  decode_operands_base dec ∪ (decode_operands_ci dec ∪ decode_operands_c dec) = Some dec' ->
  regs_ok dec' /\ dec_op dec' = dec_op dec /\ dec_pc dec' = dec_pc dec /\
  dec_inst dec' = dec_inst dec /\ dec_codec dec' = dec_codec dec.
Proof.
  intros H3 H. unfold decode_operands_base, decode_operands_ci, decode_operands_c in H.
  destruct (dec_codec dec) eqn:Hc; cbn in H; simplify_eq; unfold regs_ok; cbn;
    split_and!; auto with rvreg; apply u8_reg; auto with rvreg.
Qed.

Lemma decode_inst_operands_ok dec :
  regs_ok dec ->
  exists dec', decode_inst_operands dec = Ok dec' /\ regs_ok dec' /\ dec_op dec' = dec_op dec /\
    dec_pc dec' = dec_pc dec /\ dec_inst dec' = dec_inst dec.
Proof.
  intros Hr. unfold decode_inst_operands.
  destruct (opcode_at_forall (fun _ _ => true) eq_refl (dec_op dec)) as (data&->&_).
  cbn [mbind res_bind]. eexists; split; [reflexivity|].
  destruct (_ ∪ _) as [dec'|] eqn:E; [|done]. cbn [default].
  apply decode_operands_regs in E as (?&?&?&?&?); [done|apply Hr].
Qed.

(** ** Lifting and decompression change the operation only *)

Definition same_operands (d d' : rv_decode) : Prop :=
  set_codec (set_op d' (dec_op d)) (dec_codec d) = d.

Lemma same_operands_fields d d' :
  same_operands d d' ->
  dec_pc d' = dec_pc d /\ dec_inst d' = dec_inst d /\ dec_imm d' = dec_imm d /\
  dec_rd d' = dec_rd d /\ dec_rs1 d' = dec_rs1 d /\ dec_rs2 d' = dec_rs2 d /\
  dec_rs3 d' = dec_rs3 d /\ dec_rm d' = dec_rm d /\ dec_pred d' = dec_pred d /\
  dec_succ d' = dec_succ d /\ dec_aq d' = dec_aq d /\ dec_rl d' = dec_rl d.
Proof. unfold same_operands. intros <-. cbn. split_and!; done. Qed.

#[global] Instance same_operands_preorder : PreOrder same_operands.
Proof.
  split.
  - intros []. done.
  - intros d1 d2 d3. unfold same_operands. intros E1 E2.
    assert (forall o c, set_codec (set_op d2 o) c = set_codec (set_op d3 o) c) as H
      by (intros; by rewrite <- E2 at 1).
    by rewrite <- H.
Qed.

Lemma same_operands_set d op codec : same_operands d (set_codec (set_op d op) codec).
Proof. by destruct d. Qed.
Lemma same_operands_op d op : same_operands d (set_op d op).
Proof. by destruct d. Qed.
Lemma same_operands_regs d d' : same_operands d d' -> regs_ok d -> regs_ok d'.
Proof.
  intros (_&_&_&E1&E2&E3&E4&_)%same_operands_fields. unfold regs_ok. by rewrite E1, E2, E3, E4.
Qed.
#[export] Hint Resolve same_operands_set same_operands_op : egalito.

Definition is_end (c : rvc_constraint) : bool := match c with rvc_end => true | _ => false end.
Fixpoint before_end (cs : list rvc_constraint) : list rvc_constraint :=
  match cs with [] => [] | c :: cs => if is_end c then [] else c :: before_end cs end.

Lemma check_constraints_spec dec cs :
  existsb is_end cs = true ->
  check_constraints dec cs = Ok (forallb (check_constraint dec) (before_end cs)).
Proof.
  induction cs as [|c cs IH]; [done|]. intros He.
  destruct c; cbn [existsb is_end orb before_end check_constraints forallb] in *;
    [done|rewrite (IH He); by destruct (check_constraint dec _)..].
Qed.

Definition matches (dec : rv_decode) (cd : rv_comp_data) : bool :=
  match constraints cd with
  | Some cs => forallb (check_constraint dec) (before_end cs)
  | None => false
  end.
Fixpoint before_null (l : list rv_comp_data) : list rv_comp_data :=
  match l with
  | [] => []
  | cd :: l => match constraints cd with None => [] | Some _ => cd :: before_null l end
  end.
(** A list of candidates ends with a null entry, its constraints with [rvc_end]. *)
Fixpoint pseudo_ok (l : list rv_comp_data) : bool :=
  match l with
  | [] => false
  | cd :: l => match constraints cd with None => true
               | Some cs => existsb is_end cs && pseudo_ok l end
  end.

Lemma lift_loop_spec dec l :
  pseudo_ok l = true ->
  exists dec', lift_loop dec l = Ok dec' /\ same_operands dec dec' /\
    match find (matches dec) (before_null l) with
    | None => dec' = dec
    | Some cd => dec_op dec' = comp_op cd /\
        exists data, opcode_at (comp_op cd) = Ok data /\ dec_codec dec' = od_codec data
    end.
Proof.
  induction l as [|cd l IH]; [done|]. cbn [pseudo_ok lift_loop before_null]. intros H.
  destruct (constraints cd) as [cs|] eqn:Ec; [|exists dec; by split_and!]. zbool.
  rewrite check_constraints_spec by done. cbn [mbind res_bind find].
  unfold matches at 1. rewrite Ec. destruct (forallb _ _) eqn:Em; [|by apply IH].
  destruct (opcode_at_forall (fun _ _ => true) eq_refl (comp_op cd)) as (data&E&_).
  rewrite E. cbn [mbind res_bind]. eexists; split; [reflexivity|].
  split; [apply same_operands_set|]. cbn. eauto.
Qed.

Lemma pseudo_table_ok op :
  exists data, opcode_at op = Ok data /\
    match od_pseudo data with Some l => pseudo_ok l | None => true end = true.
Proof.
  exact (opcode_at_forall
    (fun _ data => match od_pseudo data with Some l => pseudo_ok l | None => true end) eq_refl op).
Qed.

Lemma lift_pseudo_ok dec :
  exists dec', decode_inst_lift_pseudo dec = Ok dec' /\ same_operands dec dec'.
Proof.
  unfold decode_inst_lift_pseudo. destruct (pseudo_table_ok (dec_op dec)) as (data&->&Hp).
  cbn [mbind res_bind]. destruct (od_pseudo data) as [l|]; [|exists dec; by split].
  destruct (lift_loop_spec dec l Hp) as (dec'&->&Hs&_). by exists dec'.
Qed.

Lemma decompress_ok decomp dec :
  exists dec', decompress_inst decomp dec = Ok dec' /\ same_operands dec dec'.
Proof.
  unfold decompress_inst.
  destruct (opcode_at_forall (fun _ _ => true) eq_refl (dec_op dec)) as (data&->&_).
  cbn [mbind res_bind]. destruct (rv_op_eqb _ _); [exists dec; by split|].
  destruct (_ && _); [eauto with egalito|].
  destruct (opcode_at_forall (fun _ _ => true) eq_refl (decomp data)) as (data'&->&_).
  cbn [mbind res_bind]. eauto with egalito.
Qed.

Lemma decode_steps_ok isa pc inst :
  exists dec, decode_steps isa (dec_at pc inst) = Ok dec /\ regs_ok dec /\
    dec_pc dec = pc /\ dec_inst dec = inst.
Proof.
  unfold decode_steps.
  destruct (decode_inst_operands_ok (decode_inst_opcode (dec_at pc inst) isa))
    as (d1&->&Hr1&_&Hp1&Hi1).
  { unfold regs_ok, reg_ok. cbn. lia. }
  cbn [mbind res_bind]. cbn in Hp1, Hi1.
  assert (exists d2, match isa with rv32 => decompress_inst_rv32 d1 | rv64 => decompress_inst_rv64 d1
            | rv128 => decompress_inst_rv128 d1 end = Ok d2 /\ same_operands d1 d2) as (d2&->&H2)
    by (destruct isa; apply decompress_ok).
  cbn [mbind res_bind]. destruct (lift_pseudo_ok d2) as (d3&->&H3).
  assert (same_operands d1 d3) as Hs by (by etrans).
  exists d3. split_and!; [done|by eapply same_operands_regs|..];
    apply same_operands_fields in Hs; destruct_and!; congruence.
Qed.

(** ** Extraction stays inside the operand array *)

Lemma rv_reg_cast_ok r :
  reg_ok r \/ reg_ok (r - rv_freg_base) -> exists x, rv_reg_cast r = Ok x /\ rv_reg_num x = r.
Proof.
  intros Hr.
  assert (forallb (fun r => match rv_reg_cast r with Ok x => rv_reg_num x =? r | Err _ => false end)
            (seqZ 0 32 ++ seqZ rv_freg_base 32) = true) as H by reflexivity.
  rewrite forallb_forall in H. specialize (H r).
  destruct (rv_reg_cast r) as [x|].
  - exists x. split; [done|]. apply Z.eqb_eq, H, list_elem_of_In.
    rewrite elem_of_app, !elem_of_seqZ. unfold reg_ok, rv_freg_base in *. lia.
  - assert (false = true); [|done]. apply H, list_elem_of_In.
    rewrite elem_of_app, !elem_of_seqZ. unfold reg_ok, rv_freg_base in *. lia.
Qed.

(** A register of the enumeration, integer or floating point. *)
Definition oper_ok (o : rv_oper) : Prop :=
  match o with
  | rv_oper_reg x => reg_ok (rv_reg_num x) \/ reg_ok (rv_reg_num x - rv_freg_base)
  | rv_oper_mem x _ => reg_ok (rv_reg_num x)
  | rv_oper_imm _ => True
  end.
Definition opers_ok (i : rv_instr) : Prop :=
  length (instr_oper i) = 8%nat /\ 0 <= instr_oper_count i <= 8 /\ Forall oper_ok (instr_oper i).

(** The fields the operand cases leave alone. *)
Definition same_head (i i' : rv_instr) : Prop :=
  instr_ip i' = instr_ip i /\ instr_inst i' = instr_inst i /\ instr_len i' = instr_len i /\
  instr_codec i' = instr_codec i /\ instr_op i' = instr_op i /\ instr_width i' = instr_width i.

Definition is_operand (c : Z) : bool := bool_decide (c ∈ chars "01234567ioc!I").
Definition alphabet : list Z := 9 :: chars "O,01234567iocrpsAR!I".
Definition operands (fmt : list Z) : nat := length (filter (fun c => is_operand c = true) fmt).

Lemma add_oper_ok i o :
  opers_ok i -> instr_oper_count i < 8 -> oper_ok o ->
  exists i', add_oper i o = Ok i' /\ opers_ok i' /\ same_head i i' /\
    instr_oper_count i' = instr_oper_count i + 1.
Proof.
  intros (Hl&Hc&Hf) Hlt Ho. unfold add_oper, store. rewrite Hl.
  rewrite (proj2 (Z.ltb_ge _ _)), (proj2 (Z.leb_gt _ _)) by lia. cbn [orb mbind res_bind].
  eexists; split; [reflexivity|]. unfold opers_ok, same_head. cbn.
  rewrite length_insert, wrap_small by lia. split_and!; try done; try lia.
  by apply Forall_insert.
Qed.

Lemma add_reg_ok i r :
  opers_ok i -> instr_oper_count i < 8 -> reg_ok r \/ reg_ok (r - rv_freg_base) ->
  exists i', add_reg i r = Ok i' /\ opers_ok i' /\ same_head i i' /\
    instr_oper_count i' = instr_oper_count i + 1.
Proof.
  intros Hi Hc Hr. destruct (rv_reg_cast_ok r Hr) as (x&E&Hx). unfold add_reg. rewrite E.
  cbn [mbind res_bind]. apply add_oper_ok; [done|done|]. cbn. by rewrite Hx.
Qed.

Lemma add_mem_ok i r disp :
  opers_ok i -> instr_oper_count i < 8 -> reg_ok r ->
  exists i', add_mem i r disp = Ok i' /\ opers_ok i' /\ same_head i i' /\
    instr_oper_count i' = instr_oper_count i + 1.
Proof.
  intros Hi Hc Hr. destruct (rv_reg_cast_ok r (or_introl Hr)) as (x&E&Hx). unfold add_mem.
  rewrite E. cbn [mbind res_bind]. apply add_oper_ok; [done|done|]. cbn. by rewrite Hx.
Qed.

Lemma extract_char_ok dec data i c :
  regs_ok dec -> opers_ok i -> c ∈ alphabet ->
  (is_operand c = true -> instr_oper_count i < 8) ->
  exists i', extract_char dec data i c = Ok i' /\ opers_ok i' /\ same_head i i' /\
    instr_oper_count i' = instr_oper_count i + (if is_operand c then 1 else 0).
Proof.
  intros (H0&H1&H2&H3) Hi Hc Ho.
  repeat (apply elem_of_cons in Hc as [->|Hc]); [..|by apply not_elem_of_nil in Hc];
    cbn in Ho |- *; rewrite ?Z.add_0_r;
    first [ eexists; split; [reflexivity|]; by split_and!
          | specialize (Ho eq_refl); first
            [ by apply add_mem_ok
            | by apply add_oper_ok
            | apply add_reg_ok; [done|done|]; auto; right; unfold rv_freg_base, reg_ok in *; lia ] ].
Qed.

Lemma extract_loop_ok dec data fmt i :
  regs_ok dec -> opers_ok i -> Forall (fun c => c ∈ alphabet) fmt ->
  instr_oper_count i + Z.of_nat (operands fmt) <= 8 ->
  exists i', extract_loop dec data i fmt = Ok i' /\ opers_ok i' /\ same_head i i' /\
    instr_oper_count i' = instr_oper_count i + Z.of_nat (operands fmt).
Proof.
  intros Hr Hi Hf. revert i Hi. induction Hf as [|c fmt Hc _ IH]; intros i Hi Hn.
  { exists i. cbn. split_and!; try done; lia. }
  unfold operands in *. rewrite filter_cons in *. cbn [extract_loop].
  destruct (extract_char_ok dec data i c Hr Hi Hc) as (i1&->&Hi1&Hs1&Hn1).
  { intros E. rewrite decide_True in Hn by done. cbn [length] in Hn. lia. }
  cbn [mbind res_bind].
  destruct (IH i1 Hi1) as (i2&->&Hi2&Hs2&Hn2).
  { destruct (is_operand c) eqn:E; [rewrite decide_True in Hn by done; cbn [length] in Hn|
      rewrite decide_False in Hn by done]; lia. }
  exists i2. split_and!; [done|done|..].
  - unfold same_head in *. destruct_and!. split_and!; etrans; eauto.
  - rewrite Hn2, Hn1. destruct (is_operand c) eqn:E;
      [rewrite decide_True by done; cbn [length]|rewrite decide_False by done]; lia.
Qed.

Lemma format_table_ok op :
  exists data, opcode_at op = Ok data /\
    (forallb (fun c => bool_decide (c ∈ alphabet)) (od_format data) &&
     (operands (od_format data) <=? 4)%nat) = true.
Proof.
  exact (opcode_at_forall (fun _ data =>
    forallb (fun c => bool_decide (c ∈ alphabet)) (od_format data) &&
    (operands (od_format data) <=? 4)%nat) eq_refl op).
Qed.

Lemma extract_inst_ok dec i :
  regs_ok dec -> opers_ok i -> instr_oper_count i = 0 ->
  exists i', extract_inst i dec = Ok i' /\ opers_ok i' /\ instr_oper_count i' <= 4 /\
    instr_ip i' = dec_pc dec /\ instr_op i' = dec_op dec /\ instr_codec i' = dec_codec dec.
Proof.
  intros Hr Hi H0. unfold extract_inst.
  destruct (format_table_ok (dec_op dec)) as (data&->&Hf). zbool. cbn [mbind res_bind].
  match goal with H : _ = true |- _ => rewrite forallb_forall in H end.
  assert (operands (od_format data) <= 4)%nat by by apply Nat.leb_le.
  destruct (extract_loop_ok dec data (od_format data)
    (set_head i (dec_pc dec) (dec_codec dec) (dec_op dec))) as (i'&->&Hi'&Hs&Hn).
  - done.
  - exact Hi.
  - apply Forall_forall. intros c Hc. eapply bool_decide_eq_true_1.
    match goal with H : forall _, _ |- _ => apply H end. by apply list_elem_of_In.
  - cbn. lia.
  - exists i'. unfold same_head in Hs. cbn in Hs, Hn. destruct_and!. split_and!; try done. lia.
Qed.

(** ** The walk over a buffer *)

(** The bytes of a word, least significant first. *)
Definition bytes_of (n : nat) (w : Z) : list Z :=
  map (fun k => slice w (8 * Z.of_nat k + 7) (8 * Z.of_nat k)) (seq 0 n).

(** [i] is the instruction at the front of [code], whose address is [ip]. *)
Definition instr_at (isa : rv_isa) (ip : Z) (code : list Z) (i : rv_instr) : Prop :=
  instr_ip i = u64 ip /\
  (instr_len i = 2 \/ instr_len i = 4) /\ instr_len i = rv_inst_length (instr_inst i) /\
  instr_inst i <> 0 /\
  take (Z.to_nat (instr_len i)) code = bytes_of (Z.to_nat (instr_len i)) (instr_inst i) /\
  (exists dec, decode_steps isa (dec_at (u64 ip) (instr_inst i)) = Ok dec /\
     instr_op i = dec_op dec /\ instr_codec i = dec_codec dec) /\
  opers_ok i /\ instr_oper_count i <= 4.

Definition first_parcel (code : list Z) : option Z :=
  match code with lo :: hi :: _ => Some (lo + 256 * hi) | _ => None end.

(** What the walk does on [code] at [ip]. *)
Inductive walk (isa : rv_isa) : Z -> list Z -> res (list rv_instr) -> Prop :=
| walk_end ip code : first_parcel code = None -> walk isa ip code (Ok [])
| walk_zero ip code : first_parcel code = Some 0 -> walk isa ip code (Ok [])
| walk_stuck ip code p :
    first_parcel code = Some p -> p <> 0 -> rv_inst_length p <> 2 ->
    rv_inst_length p <> 4 \/ (length code < 4)%nat -> walk isa ip code (Err AssertFail)
| walk_step ip code i r :
    instr_at isa ip code i ->
    walk isa (ip + instr_len i) (drop (Z.to_nat (instr_len i)) code) r ->
    walk isa ip code (l ← r; Ok (i :: l)).

Definition is_byte (b : Z) : Prop := 0 <= b < 256.

Lemma parcel_at code k :
  parcel code (Z.of_nat k) =
    match first_parcel (drop k code) with Some p => Ok p | None => Err OutOfBounds end.
Proof.
  unfold parcel, load.
  rewrite (proj2 (Z.ltb_ge _ _)), (proj2 (Z.ltb_ge _ _)) by lia.
  rewrite Nat2Z.id. replace (Z.to_nat (Z.of_nat k + 1)) with (S k) by lia.
  rewrite <- (Nat.add_0_r k) at 1. rewrite <- lookup_drop.
  replace (S k) with (k + 1)%nat by lia. rewrite <- lookup_drop.
  by destruct (drop k code) as [|lo [|hi rest]].
Qed.

Lemma length_low inst inst' :
  Z.land inst 127 = Z.land inst' 127 -> rv_inst_length inst = rv_inst_length inst'.
Proof.
  intros E. unfold rv_inst_length.
  assert (forall m, Z.land 127 m = m -> Z.land inst m = Z.land inst' m) as H.
  { intros m Hm. rewrite <- Hm, !Z.land_assoc, E. done. }
  rewrite !(H 3), !(H 28), !(H 63), E by done. done.
Qed.

Lemma word32 lo hi :
  0 <= lo < 65536 -> 0 <= hi < 65536 -> Z.lor lo (u32 (Z.shiftl hi 16)) = join 16 lo hi.
Proof.
  intros Hlo Hhi. apply Z.bits_inj'. intros i Hi.
  rewrite testbit_join, Z.lor_spec, testbit_wrap, Z.shiftl_spec by (lia || done).
  destruct (Z.ltb_spec i 16).
  - rewrite (Z.testbit_neg_r hi) by lia. by rewrite andb_false_r, orb_false_r.
  - rewrite (testbit_sign lo 16) by lia. rewrite (proj2 (Z.ltb_ge lo 0)) by lia. cbn [orb].
    destruct (Z.ltb_spec i 32); [done|].
    rewrite (testbit_sign hi 16) by lia. by rewrite (proj2 (Z.ltb_ge hi 0)) by lia.
Qed.

Lemma rv_inst_length_cases inst : rv_inst_length inst ∈ [2; 4; 6; 8; 0].
Proof.
  unfold rv_inst_length. repeat (destruct (_ =? _); cbn [negb]); set_solver.
Qed.
Lemma rv_inst_length_u8 inst : u8 (rv_inst_length inst) = rv_inst_length inst.
Proof.
  apply wrap_small. pose proof (rv_inst_length_cases inst) as H.
  repeat (apply elem_of_cons in H as [->|H]; [lia|]). by apply not_elem_of_nil in H.
Qed.

Lemma bytes_2 lo hi : is_byte lo -> is_byte hi -> bytes_of 2 (join 8 lo hi) = [lo; hi].
Proof.
  unfold is_byte. intros. cbn [bytes_of map seq]. f_equal; [|f_equal].
  - rewrite slice_join_low by lia. apply (slice_all 7). lia.
  - rewrite slice_join_high by (lia || unfold Fits; lia). apply (slice_all 7). lia.
Qed.
Lemma bytes_4 a b c d :
  is_byte a -> is_byte b -> is_byte c -> is_byte d ->
  bytes_of 4 (join 16 (join 8 a b) (join 8 c d)) = [a; b; c; d].
Proof.
  unfold is_byte. intros.
  assert (Fits a 8 /\ Fits b 8 /\ Fits c 8) as (?&?&?) by (unfold Fits; lia).
  assert (Fits (join 8 a b) 16) by (unfold Fits, join in *; lia).
  cbn [bytes_of map seq]. repeat f_equal.
  - rewrite (slice_join_low 16), slice_join_low by lia. apply (slice_all 7). lia.
  - rewrite (slice_join_low 16), slice_join_high by (lia || done). apply (slice_all 7). lia.
  - rewrite (slice_join_high 16), slice_join_low by (lia || done). apply (slice_all 7). lia.
  - rewrite (slice_join_high 16), slice_join_high by (lia || done). apply (slice_all 7). lia.
Qed.

Lemma finish_instr isa ip inst len code :
  (len = 2 \/ len = 4) -> len = rv_inst_length inst -> inst <> 0 ->
  take (Z.to_nat len) code = bytes_of (Z.to_nat len) inst ->
  exists i, (dec ← decode_steps isa (dec_at (u64 ip) inst);
             i ← extract_inst (set_word instr_zero 0 len) dec;
             Ok (len, set_word i (dec_inst dec) len)) = Ok (instr_len i, i) /\
    instr_at isa ip code i.
Proof.
  intros Hlen Hl Hne Ht. destruct (decode_steps_ok isa (u64 ip) inst) as (dec&E&Hr&Hp&Hi).
  rewrite E. cbn [mbind res_bind].
  destruct (extract_inst_ok dec (set_word instr_zero 0 len)) as (i&->&Ho&Hc&Hip&Hop&Hco).
  { done. } { unfold opers_ok. cbn. split_and!; [done|lia|lia|]. repeat constructor; cbn; lia. }
  { done. }
  cbn [mbind res_bind]. rewrite Hi. exists (set_word i inst len). split; [done|].
  unfold instr_at. cbn. rewrite Hip, Hp. split_and!; try done. by exists dec.
Qed.

Lemma first_parcel_bytes code p :
  Forall is_byte code -> first_parcel code = Some p ->
  exists lo hi rest, code = lo :: hi :: rest /\ p = join 8 lo hi /\ is_byte lo /\ is_byte hi /\
    0 <= p < 65536.
Proof.
  intros Hb Hp. destruct code as [|lo [|hi rest]]; [done..|]. cbn in Hp. simplify_eq.
  inversion Hb as [|?? Hlo Hb']; inversion Hb' as [|?? Hhi _]; subst.
  exists lo, hi, rest. unfold join, is_byte in *. split_and!; done || lia.
Qed.

Lemma disasm_instr_step isa ip code next :
  Forall is_byte code ->
  let r := rv_disasm_instr next isa (u64 ip) code (Z.of_nat (length code)) in
  match first_parcel code with
  | None => r = Ok (0, next)
  | Some p =>
    if p =? 0 then r = Ok (0, instr_zero)
    else if (rv_inst_length p =? 2) || ((rv_inst_length p =? 4) && (4 <=? length code)%nat)
    then exists i, r = Ok (instr_len i, i) /\ instr_at isa ip code i
    else r = Err AssertFail
  end.
Proof.
  intros Hb r. subst r. unfold rv_disasm_instr. pose proof (parcel_at code 0) as Hp0.
  pose proof (parcel_at code 2) as Hp2. change (Z.of_nat 0) with 0 in Hp0.
  change (Z.of_nat 2) with 2 in Hp2. rewrite drop_0 in Hp0. rewrite Hp0, Hp2. clear Hp0 Hp2.
  destruct (first_parcel code) as [p|] eqn:Ep.
  2: { destruct code as [|? [|? ?]]; done. }
  destruct (first_parcel_bytes code p Hb Ep) as (lo&hi&rest&->&Ejoin&Hlo&Hhi&Hp).
  rewrite (proj2 (Z.ltb_ge _ 2)) by (cbn; lia). cbn [mbind res_bind].
  destruct (Z.eqb_spec p 0) as [|Hne]; [done|]. rewrite rv_inst_length_u8.
  destruct (Z.eqb_spec (rv_inst_length p) 2) as [E2|_]; cbn [orb].
  { cbn [mbind res_bind]. rewrite E2. apply finish_instr; [by left|done|done|].
    cbn. rewrite Ejoin. symmetry. by apply bytes_2. }
  destruct (Z.eqb_spec (rv_inst_length p) 4) as [E4|_]; cbn [andb]; [|done].
  replace (4 <=? Z.of_nat (length (lo :: hi :: rest))) with (4 <=? length (lo :: hi :: rest))%nat
    by (destruct (Nat.leb_spec 4 (length (lo :: hi :: rest))); symmetry; zbool; lia).
  destruct (Nat.leb_spec 4 (length (lo :: hi :: rest))) as [Hl|]; [|done].
  cbn [drop]. destruct rest as [|lo2 [|hi2 rest]]; [cbn in Hl; lia..|]. rewrite drop_0. cbn [first_parcel].
  destruct (first_parcel_bytes (lo2 :: hi2 :: rest) (lo2 + 256 * hi2)) as (a&b&?&[= <- <- <-]&Ej&?&?&Hq).
  { by do 2 apply Forall_cons_1 in Hb as [_ Hb]. } { done. }
  cbn [mbind res_bind]. rewrite word32 by done. rewrite E4.
  apply finish_instr; [by right|..].
  - rewrite <- E4. apply length_low. rewrite !(Z.land_ones _ 7) by lia.
    pose proof (slice_low 16 p (lo2 + 256 * hi2) 6 0 ltac:(lia) ltac:(lia)) as Es.
    unfold slice in Es. rewrite !Z.div_1_r in Es. symmetry. exact Es.
  - unfold join. lia.
  - rewrite Ejoin, Ej. symmetry. by apply bytes_4.
Qed.

Lemma disasm_loop_walk isa ip code fuel next (off : nat) :
  Forall is_byte code -> (length code - off < fuel)%nat ->
  walk isa (ip + Z.of_nat off) (drop off code)
    (disasm_loop fuel next isa ip code (Z.of_nat (length code)) (Z.of_nat off)).
Proof.
  intros Hb. revert next off. induction fuel as [|fuel IH]; intros next off Hf; [lia|].
  cbn [disasm_loop]. destruct (Z.ltb_spec (Z.of_nat off) (Z.of_nat (length code))) as [Hlt|].
  2: { apply walk_end. by rewrite drop_ge by lia. }
  pose proof (disasm_instr_step isa (ip + Z.of_nat off) (drop off code) next
                (Forall_drop _ _ _ Hb)) as Hs. cbn zeta in Hs.
  unfold add64. rewrite Nat2Z.id.
  replace (Z.of_nat (length code) - Z.of_nat off) with (Z.of_nat (length (drop off code)))
    by (rewrite length_drop; lia).
  destruct (first_parcel (drop off code)) as [p|] eqn:Ep.
  2: { rewrite Hs. by apply walk_end. }
  destruct (Z.eqb_spec p 0) as [->|Hne].
  { rewrite Hs. by apply walk_zero. }
  destruct ((rv_inst_length p =? 2) || _) eqn:El.
  - destruct Hs as (i&->&Hi). pose proof Hi as (_&Hlen&_). cbn [mbind res_bind].
    rewrite (proj2 (Z.eqb_neq _ _)) by lia. apply walk_step; [done|].
    replace (Z.of_nat off + instr_len i) with (Z.of_nat (off + Z.to_nat (instr_len i))) by lia.
    rewrite drop_drop.
    replace (ip + Z.of_nat off + instr_len i)
      with (ip + Z.of_nat (off + Z.to_nat (instr_len i))) by lia.
    apply IH. lia.
  - rewrite Hs. apply orb_false_iff in El as [E2 E4]. apply Z.eqb_neq in E2.
    apply (walk_stuck _ _ _ p); [done..|]. apply andb_false_iff in E4 as [E4|E4].
    + left. by apply Z.eqb_neq.
    + right. by apply Nat.leb_gt.
Qed.

(** C5: [rv_disasm_buffer] terminates on every buffer and walks it front to back:
    each instruction it returns lies right after the previous one, has length 2
    or 4, is the little-endian word found there, is decoded as the decoding
    steps say, and has at most four operands, all valid registers; the walk
    ends where fewer than two bytes are left or where the first 16 bits are
    zero, and fails only by the assertion, at a parcel that starts an
    instruction longer than 32 bits or one cut off by the end of the buffer. *)
Theorem rv_disasm_buffer_walk (isa : rv_isa) (ip : Z) (code : list Z) :
  Forall is_byte code ->
  walk isa ip code (rv_disasm_buffer isa ip code (Z.of_nat (length code))).
Proof.
  intros Hb. pose proof (disasm_loop_walk isa ip code (S (length code)) instr_zero 0 Hb) as H.
  rewrite Z.add_0_r, drop_0 in H. unfold rv_disasm_buffer. rewrite Nat2Z.id. apply H. lia.
Qed.

Lemma rv_disasm_buffer_walk_witness :
  walk rv64 4096 [130; 128; 3; 37; 129; 0; 0; 0]
    (rv_disasm_buffer rv64 4096 [130; 128; 3; 37; 129; 0; 0; 0] 8).
Proof.
  apply (rv_disasm_buffer_walk rv64 4096 [130; 128; 3; 37; 129; 0; 0; 0]).
  repeat constructor; lia.
Defined.

(** ** Decompression leaves no compressed operation *)

Definition is_compressed (op : rv_op) : bool :=
  (rv_op_num rv_op_c_addi4spn <=? rv_op_num op) && (rv_op_num op <=? rv_op_num rv_op_c_sqsp).
Definition decomp_of (isa : rv_isa) : rv_opcode_data -> rv_op :=
  match isa with rv32 => decomp_rv32 | rv64 => decomp_rv64 | rv128 => decomp_rv128 end.

(** An operation has an uncompressed expansion exactly when it is compressed. *)
Definition expands (isa : rv_isa) (op : rv_op) : bool :=
  match opcode_at op with
  | Err _ => false
  | Ok data =>
    if is_compressed op
    then negb (rv_op_eqb (decomp_of isa data) rv_op_illegal) &&
         negb (is_compressed (decomp_of isa data))
    else rv_op_eqb (decomp_of isa data) rv_op_illegal
  end.

(** Descends into the switches; every leaf is evaluated. *)
Ltac all_leaves P :=
  lazymatch goal with
  | |- _ (switch _ _ _) = true => apply (switch_forall P); all_leaves P
  | |- Forall _ (_ ++ _) => apply Forall_app; split; all_leaves P
  | |- Forall _ (_ :: _) => apply Forall_cons; split; cbn beta; cbn [snd]; all_leaves P
  | |- Forall _ [] => constructor
  | |- _ => vm_compute; reflexivity
  end.

Lemma decode_c3_expands isa inst : expands isa (decode_c3 inst) = true.
Proof.
  unfold decode_c3, decode_load, decode_load_fp, decode_misc_mem, decode_op_imm, decode_op_imm_32,
    decode_store, decode_store_fp, decode_amo, decode_op, decode_op_32, decode_madd, decode_msub,
    decode_nmsub, decode_nmadd, decode_op_fp, op_fp_cases_arith, op_fp_cases_conv,
    decode_op_imm_64, decode_branch, decode_jalr, decode_system, decode_op_64.
  destruct isa; match goal with |- expands ?isa _ = _ =>
    all_leaves (fun op => expands isa op = true) end.
Qed.

Lemma decode_opcode_expands isa inst : expands isa (decode_opcode inst isa) = true.
Proof.
  unfold decode_opcode. apply (switch_forall (fun op => expands isa op = true)).
  { by destruct isa. }
  repeat (apply Forall_cons; split; cbn beta; cbn [snd]); [..|constructor].
  4: apply decode_c3_expands.
  all: unfold decode_c0, decode_c1, decode_c2; destruct isa;
    match goal with |- expands ?isa _ = _ => all_leaves (fun op => expands isa op = true) end.
Qed.

Lemma rv_op_neqb a b : rv_op_eqb a b = false <-> a <> b.
Proof. rewrite <- not_true_iff_false, rv_op_eqb_eq. done. Qed.

(** Decompression is complete: for every instruction word and on every ISA
    width, the operation left after decompression is not a compressed one, and
    an uncompressed operation is left as it is. *)
Theorem rv_decompress_complete (isa : rv_isa) (pc inst : Z) :
  exists dec dec',
    decode_inst_operands (decode_inst_opcode (dec_at pc inst) isa) = Ok dec /\
    decompress_inst (decomp_of isa) dec = Ok dec' /\ same_operands dec dec' /\
    is_compressed (dec_op dec') = false /\
    (is_compressed (dec_op dec) = false -> dec' = dec).
Proof.
  destruct (decode_inst_operands_ok (decode_inst_opcode (dec_at pc inst) isa))
    as (dec&E&_&Hop&_).
  { unfold regs_ok, reg_ok. cbn. lia. }
  exists dec. destruct (decompress_ok (decomp_of isa) dec) as (dec'&E'&Hs).
  exists dec'. split_and!; [done|done|done|..]; unfold decompress_inst in E';
    pose proof (decode_opcode_expands isa inst) as He;
    change (decode_opcode inst isa) with (dec_op (decode_inst_opcode (dec_at pc inst) isa)) in He;
    rewrite <- Hop in He; unfold expands in He;
    destruct (opcode_at (dec_op dec)) as [data|]; try done; cbn [mbind res_bind] in E'.
  - destruct (is_compressed (dec_op dec)) eqn:Ec.
    + apply andb_true_iff in He as [H1 H2]. apply negb_true_iff in H1, H2. rewrite H1 in E'.
      destruct (_ && _) in E'; [by simplify_eq|].
      destruct (opcode_at (decomp_of isa data)); [|done]. cbn in E'. by simplify_eq.
    + rewrite He in E'. by simplify_eq.
  - intros Ec. rewrite Ec in He. rewrite He in E'. by simplify_eq.
Qed.

(** The table of instructions is aligned with the enumeration of operations:
    the row at the index of an enumerator carries its name; its format needs at
    most four operands, all of its letters known to [extract_inst]; the
    candidates for pseudo-instructions are properly terminated; and no row
    expands a compressed operation to another compressed one. *)
Theorem opcode_table_aligned (op : rv_op) :
  exists data, opcode_data !! Z.to_nat (rv_op_num op) = Some data /\
    od_name data = enumerator op /\
    (operands (od_format data) <= 4)%nat /\ Forall (fun c => c ∈ alphabet) (od_format data) /\
    match od_pseudo data with Some l => pseudo_ok l = true | None => True end /\
    forall isa, is_compressed (decomp_of isa data) = false.
Proof.
  destruct (opcode_at_forall (fun op data =>
    (String.eqb (od_name data) (enumerator op)) &&
    forallb (fun isa => negb (is_compressed (decomp_of isa data))) [rv32; rv64; rv128]) eq_refl op)
    as (data&E&H).
  destruct (format_table_ok op) as (data2&E2&H2). destruct (pseudo_table_ok op) as (data3&E3&H3).
  rewrite E in E2, E3. injection E2 as <-. injection E3 as <-.
  apply andb_true_iff in H as [H4 H5], H2 as [H6 H7].
  exists data. split_and!.
  - apply load_lookup in E as [_ E]. exact E.
  - by apply String.eqb_eq.
  - by apply Nat.leb_le.
  - apply Forall_forall. intros c Hc. rewrite forallb_forall in H6.
    apply list_elem_of_In, H6 in Hc. by apply bool_decide_eq_true_1 in Hc.
  - by destruct (od_pseudo data).
  - intros isa. cbn in H5. repeat (apply andb_true_iff in H5 as [? H5]).
    by destruct isa; apply negb_true_iff.
Qed.

(** Lifting to pseudo-instructions picks the first candidate of the row whose
    constraints all hold, takes its operation and codec, and changes no operand;
    without such a candidate it changes nothing. *)
Theorem rv_lift_pseudo_first_match (dec : rv_decode) :
  exists data dec', opcode_at (dec_op dec) = Ok data /\
    decode_inst_lift_pseudo dec = Ok dec' /\ same_operands dec dec' /\
    match find (matches dec) (before_null (default [] (od_pseudo data))) with
    | None => dec' = dec
    | Some cd => dec_op dec' = comp_op cd /\
        exists data', opcode_at (comp_op cd) = Ok data' /\ dec_codec dec' = od_codec data'
    end.
Proof.
  destruct (pseudo_table_ok (dec_op dec)) as (data&E&Hp). exists data.
  unfold decode_inst_lift_pseudo. rewrite E. cbn [mbind res_bind].
  destruct (od_pseudo data) as [l|]; cbn [default].
  - destruct (lift_loop_spec dec l Hp) as (dec'&->&Hs&Hm). by exists dec'.
  - exists dec. by split_and!.
Qed.

(** ** Divergences *)

(** [rv_reg_sym] names a floating-point register after the integer register
    of the same index: it looks the name up in the wrong table. *)
Theorem rv_reg_sym_float_names (r : rv_reg) :
  reg_ok (rv_reg_num r - rv_freg_base) ->
  rv_reg_sym r = load rv_ireg_name_sym (rv_reg_num r - rv_freg_base) /\
  rv_reg_sym r <> load rv_freg_name_sym (rv_reg_num r - rv_freg_base).
Proof.
  intros Hr. unfold reg_ok, rv_freg_base in Hr.
  destruct r; cbn [rv_reg_num] in Hr; try lia; vm_compute; split; congruence.
Qed.

Lemma rv_reg_sym_float_names_witness :
  rv_reg_sym rv_freg_fa0 = load rv_ireg_name_sym 10 /\
  rv_reg_sym rv_freg_fa0 <> load rv_freg_name_sym 10.
Proof. apply (rv_reg_sym_float_names rv_freg_fa0). vm_compute. split; congruence. Defined.

(** The textual form loses memory operands: two loads of the same operation
    into the same register, with the same instruction word printed, have the
    same text whatever their base register and displacement are, since the
    format letter of a memory operand is not a case of [format_inst]. *)
Theorem format_inst_drops_memory (buflen tab : Z) (dec : rv_decode) (data : rv_opcode_data)
    (rs1 rs2 imm : Z) :
  opcode_at (dec_op dec) = Ok data -> od_format data = rv_fmt_rd_offset_rs1 ->
  format_inst buflen tab (set_operands dec (dec_rd dec) rs1 rs2 imm) =
  format_inst buflen tab (set_operands dec (dec_rd dec) (dec_rs1 dec) (dec_rs2 dec) (dec_imm dec)).
Proof.
  intros E Hf. unfold format_inst. cbn [set_operands dec_op dec_inst].
  rewrite E. destruct (print_into _ _); cbn [mbind res_bind]; [|done]. by rewrite Hf.
Qed.

Lemma format_inst_drops_memory_witness :
  let dec := set_op (dec_at 0 0x00812503) rv_op_lw in
  format_inst 128 32 (set_operands dec 0 2 0 8) = format_inst 128 32 (set_operands dec 0 0 0 0).
Proof.
  intros dec.
  apply (format_inst_drops_memory 128 32 dec
    (mk_rv_opcode_data "lw" rv_codec_i rv_fmt_rd_offset_rs1 None rv_op_illegal rv_op_illegal
       rv_op_illegal 0) 2 0 8); reflexivity.
Defined.

(** [append] writes one byte past the buffer when the text to append does not
    fit: the length given to [strncat] leaves no room for the terminator. *)
Theorem append_overflows (s1 s2 : list Z) (n : Z) :
  Z.of_nat (length s1) + 1 < n < 2 ^ 64 -> n - Z.of_nat (length s1) <= Z.of_nat (length s2) ->
  append s1 s2 n = Err OutOfBounds.
Proof.
  intros Hn Hl. unfold append. rewrite (sub64_small n) by lia.
  rewrite (sub64_small _ 1) by lia.
  rewrite (proj2 (Z.ltb_lt 0 _)) by lia. rewrite length_app, length_take.
  by rewrite (proj2 (Z.leb_gt _ _)) by lia.
Qed.

Lemma append_overflows_witness : append (chars "lw a0") (chars ",sp") 8 = Err OutOfBounds.
Proof.
  apply (append_overflows (chars "lw a0") (chars ",sp") 8);
    [vm_compute; split; congruence|vm_compute; congruence].
Defined.

Lemma add_oper_flags i o i' :
  add_oper i o = Ok i' -> instr_aq i' = instr_aq i /\ instr_rl i' = instr_rl i.
Proof. unfold add_oper. intros (os&_&[= <-])%bind_Ok. done. Qed.
Lemma add_reg_flags i r i' :
  add_reg i r = Ok i' -> instr_aq i' = instr_aq i /\ instr_rl i' = instr_rl i.
Proof. unfold add_reg. intros (x&_&H)%bind_Ok. by eapply add_oper_flags. Qed.
Lemma add_mem_flags i r d i' :
  add_mem i r d = Ok i' -> instr_aq i' = instr_aq i /\ instr_rl i' = instr_rl i.
Proof. unfold add_mem. intros (x&_&H)%bind_Ok. by eapply add_oper_flags. Qed.

Lemma extract_char_flags dec data i c i' :
  c ∈ alphabet -> extract_char dec data i c = Ok i' ->
  instr_aq i' = (if c =? 65 then 1 else instr_aq i) /\
  instr_rl i' = (if c =? 82 then 1 else instr_rl i).
Proof.
  intros Hc. repeat (apply elem_of_cons in Hc as [->|Hc]); [..|by apply not_elem_of_nil in Hc];
    cbn; first [ intros [= <-]; done | apply add_oper_flags | apply add_reg_flags | apply add_mem_flags ].
Qed.

Lemma extract_loop_flags dec data fmt i i' :
  Forall (fun c => c ∈ alphabet) fmt -> extract_loop dec data i fmt = Ok i' ->
  instr_aq i' = (if bool_decide (65 ∈ fmt) then 1 else instr_aq i) /\
  instr_rl i' = (if bool_decide (82 ∈ fmt) then 1 else instr_rl i).
Proof.
  intros Hf. revert i. induction Hf as [|c fmt Hc Hf IH]; intros i.
  { cbn. intros [= <-]. done. }
  cbn [extract_loop]. intros (i1&E1&E2)%bind_Ok.
  apply extract_char_flags in E1 as [Ha1 Hr1]; [|done]. apply IH in E2 as [Ha2 Hr2].
  rewrite Ha2, Hr2, Ha1, Hr1. split.
  - destruct (Z.eqb_spec c 65); repeat case_bool_decide; set_solver.
  - destruct (Z.eqb_spec c 82); repeat case_bool_decide; set_solver.
Qed.

(** [extract_inst] marks every atomic instruction as acquire and release,
    whatever the bits of the instruction say. *)
Theorem extract_inst_always_aqrl (dec : rv_decode) (i : rv_instr) (data : rv_opcode_data) :
  opcode_at (dec_op dec) = Ok data ->
  od_format data = rv_fmt_aqrl_rd_rs2_rs1 \/ od_format data = rv_fmt_aqrl_rd_rs1 ->
  regs_ok dec -> opers_ok i -> instr_oper_count i = 0 ->
  exists i', extract_inst i dec = Ok i' /\ instr_aq i' = 1 /\ instr_rl i' = 1.
Proof.
  intros E Hf Hr Hi H0. destruct (extract_inst_ok dec i Hr Hi H0) as (i'&Ei&_).
  exists i'. split; [done|]. unfold extract_inst in Ei. rewrite E in Ei. cbn [mbind res_bind] in Ei.
  apply extract_loop_flags in Ei.
  - by destruct Hf as [Hf|Hf]; rewrite Hf in Ei.
  - destruct Hf as [-> | ->]; apply Forall_forall; intros c Hc; revert c Hc;
      apply Forall_forall; vm_compute; repeat constructor; set_solver.
Qed.

Lemma extract_inst_always_aqrl_witness :
  exists i', extract_inst instr_zero (set_op (dec_at 0 0x00a5202f) rv_op_amoadd_w) = Ok i' /\
    instr_aq i' = 1 /\ instr_rl i' = 1.
Proof.
  apply (extract_inst_always_aqrl _ _
    (mk_rv_opcode_data "amoadd.w" rv_codec_r_a rv_fmt_aqrl_rd_rs2_rs1 None rv_op_illegal
       rv_op_illegal rv_op_illegal 0)).
  - reflexivity.
  - left. reflexivity.
  - repeat split; vm_compute; congruence.
  - split; [reflexivity|]. split; [vm_compute; split; congruence|].
    cbn [instr_oper instr_zero repeat].
    repeat (apply List.Forall_cons; [left; vm_compute; split; congruence|]). constructor.
  - reflexivity.
Defined.

(** [ret] is printed for any jump through the return address register: the
    constraint on the displacement is missing, so that a jump to [4(ra)] and one
    to [0(ra)] yield the same operation without operands. *)
Theorem ret_ignores_displacement (dec : rv_decode) :
  dec_op dec = rv_op_jalr -> dec_rd dec = 0 -> dec_rs1 dec = 1 ->
  exists dec', decode_inst_lift_pseudo dec = Ok dec' /\ dec_op dec' = rv_op_ret /\
    dec_imm dec' = dec_imm dec.
Proof.
  intros Ho Hd Hs. destruct dec as [pc inst imm op codec rd rs1 rs2 rs3 rm p s a r].
  cbn in Ho, Hd, Hs. subst. eexists. split; [vm_compute; reflexivity|done].
Qed.

Lemma ret_ignores_displacement_witness :
  exists dec', decode_inst_lift_pseudo (set_operands (set_op (dec_at 0 0x00408067) rv_op_jalr) 0 1 0 4)
      = Ok dec' /\ dec_op dec' = rv_op_ret /\ dec_imm dec' = 4.
Proof.
  apply (ret_ignores_displacement
    (set_operands (set_op (dec_at 0 0x00408067) rv_op_jalr) 0 1 0 4)); reflexivity.
Defined.
