(* ===== verification/Snippet.v ===== *)
(** * Code injected into the transformed program

    The C files that Egalito links into its output: the function log
    (src/snippet/logfunction.c), [explicit_bzero] (src/util/explicit_bzero.c),
    the write-xor-execute sandbox (app/sandbox/inject/sandbox.c), the shadow
    stacks (app/cet/inject/cet.c) and the shared-memory set-up of the coverage
    tool (app/coverage/inject/shmem.c).  System calls are arguments: the
    address [mmap] returns, the outcome of [shmat]. *)

From S2P Require Import Prelude Print.

(** ** The function log *)
Module LogFunction.

Definition LOG_MAX : Z := 128.

(** An entry of [logbuf]. *)
Record entry := mkEntry { dir : Z; address : Z }.

(** The static state: the array and [log_i]. *)
Record state := mkState { logbuf : list entry; log_i : Z }.
Definition initial : state := mkState (repeat (mkEntry 0 0) (Z.to_nat LOG_MAX)) 0.

Definition egalito_log_function_info (addr d : Z) (s : state) : res state :=
  if log_i s <? LOG_MAX then
    buf ← store (logbuf s) (log_i s) (mkEntry d addr);
    Ok (mkState buf (log_i s + 1))
  else Ok s.
Definition egalito_log_function_entry (addr : Z) (s : state) : res state :=
  egalito_log_function_info (sub64 addr 12) 1 s.
Definition egalito_log_function_exit (addr : Z) (s : state) : res state :=
  egalito_log_function_info (add64 addr 4) (-1) s.

(** The first loop of [egalito_long_to_buf]: digits from the lowest on; [p] is
    the index of the next character. *)
Fixpoint digit_loop (fuel : nat) (buf : list Z) (p num : Z) : res (list Z * Z) :=
  match fuel with
  | O => Err OutOfFuel
  | S fuel =>
    if 0 <? num then
      let rem := Z.land num 15 in
      buf ← store buf p (if 9 <? rem then (rem - 10) + 97 else rem + 48);
      digit_loop fuel buf (p + 1) (Z.shiftr num 4)
    else Ok (buf, p)
  end.
(** The second loop: reverses the characters from [b] to [p]. *)
Fixpoint swap_loop (fuel : nat) (buf : list Z) (b p : Z) : res (list Z) :=
  match fuel with
  | O => Err OutOfFuel
  | S fuel =>
    if b <? p then
      tmp ← load buf p; c ← load buf b;
      buf ← store buf p c; buf ← store buf b tmp;
      swap_loop fuel buf (b + 1) (p - 1)
    else Ok buf
  end.
(** [base] is the index in the array that [buf] points to. *)
Definition egalito_long_to_buf (buf : list Z) (base num : Z) : res (list Z * Z) :=
  if num =? 0 then buf ← store buf base 48; Ok (buf, 1)
  else
    '(buf, p) ← digit_loop 17 buf base num;
    buf ← swap_loop 17 buf base (p - 1);
    Ok (buf, p - base).

(** What [puts] prints: the characters up to the terminator. *)
Fixpoint c_string (l : list Z) : list Z :=
  match l with
  | [] => []
  | c :: l => if c =? 0 then [] else c :: c_string l
  end.

(** The body of the loop of [egalito_dump_logs]: the array after it and the
    line given to [puts]. *)
Definition dump_entry (s : state) (buf : list Z) (i : Z) : res (list Z * list Z) :=
  e ← load (logbuf s) i;
  '(buf, pos) ← egalito_long_to_buf buf 0 i;
  buf ← store buf pos 32;
  buf ← store buf (pos + 1) (if 0 <? dir e then 62 else 60);
  buf ← store buf (pos + 2) 32;
  '(buf, n) ← egalito_long_to_buf buf (pos + 3) (address e);
  buf ← store buf (pos + 3 + n) 0;
  Ok (buf, c_string buf).
Fixpoint dump_loop (fuel : nat) (s : state) (buf : list Z) (i : Z) : res (list (list Z)) :=
  match fuel with
  | O => Err OutOfFuel
  | S fuel =>
    if i <? log_i s then
      '(buf, line) ← dump_entry s buf i;
      rest ← dump_loop fuel s buf (i + 1);
      Ok (line :: rest)
    else Ok []
  end.
(** [buf] is the uninitialised local array of 32 characters. *)
Definition egalito_dump_logs (s : state) (buf : list Z) : res (list (list Z)) :=
  dump_loop (S (Z.to_nat (log_i s))) s buf 0.

End LogFunction.

(** ** explicit_bzero *)

(** [while(n--) *p++ = 0], from index [p]. *)
Fixpoint bzero_loop (n : nat) (s : list Z) (p : Z) : res (list Z) :=
  match n with
  | O => Ok s
  | S n => s ← store s p 0; bzero_loop n s (p + 1)
  end.
Definition explicit_bzero (s : list Z) (n : Z) : res (list Z) := bzero_loop (Z.to_nat n) s 0.

(** ** The sandbox *)
Module SandboxInject.

Definition PERM_SIZE : Z := 119221.
Definition PROT_READ : Z := 1.
Definition PROT_WRITE : Z := 2.
Definition PROT_EXEC : Z := 4.

(** The array behind the GS base; the base is null before the constructor ran.
    Only the bytes that were written are in the map, the others are zero. *)
Abbreviation perm_array := (gmap Z Z).
Record state := mkState { gs : option perm_array }.
Definition initial : state := mkState None.

Definition perm_at (perm : perm_array) (address : Z) : Z := default 0 (perm !! (address mod PERM_SIZE)).

(** The constructor: [mmap] returns zero-filled memory. *)
Definition allocate_perm (s : state) : state := mkState (Some ∅).
Definition get_perm (s : state) : option perm_array := gs s.

(** What a handler does: the value it returns with the new state, or the exit
    of the process. *)
Inductive outcome :=
| Return (value : Z) (s : state)
| Exit (status : Z).

Definition has (prot bit : Z) : bool := negb (Z.land prot bit =? 0).

(** The condition of the two checking loops. *)
Definition violates (perm : perm_array) (address prot : Z) : bool :=
  (has (perm_at perm address) PROT_WRITE && has prot PROT_EXEC)
  || (has prot PROT_WRITE && has prot PROT_EXEC).

(** The loop over the pages; [None] is the exit. *)
Fixpoint check_loop (fuel : nat) (perm : perm_array) (addr i len prot : Z)
  : res (option perm_array) :=
  match fuel with
  | O => Err OutOfFuel
  | S fuel =>
    if i <? len then
      let address := add64 addr i in
      if violates perm address prot then Ok None
      else check_loop fuel
             (<[address mod PERM_SIZE := u8 (Z.lor (perm_at perm address) (u8 prot))]> perm)
             addr (add64 i 4096) len prot
    else Ok (Some perm)
  end.
Definition pages (len : Z) : nat := Z.to_nat ((len + 4095) / 4096).
Definition check_pages (perm : perm_array) (addr len prot : Z) : res (option perm_array) :=
  check_loop (S (pages len)) perm addr 0 len prot.

(** mmap; [addr2] is what the system call returns, which the handler also stores
    over the system call number in the caller's frame. *)
Definition egalito_sandbox_syscall_9 (s : state) (addr2 length prot : Z) : res outcome :=
  match get_perm s with
  | None => Ok (Return 1 s)
  | Some perm =>
    r ← check_pages perm addr2 length prot;
    Ok (match r with None => Exit 10 | Some perm => Return 0 (mkState (Some perm)) end)
  end.
(** mprotect *)
Definition egalito_sandbox_syscall_10 (s : state) (addr len prot : Z) : res outcome :=
  match get_perm s with
  | None => Ok (Return 1 s)
  | Some perm =>
    r ← check_pages perm addr len prot;
    Ok (match r with None => Exit 10 | Some perm => Return 1 (mkState (Some perm)) end)
  end.
(** munmap *)
Fixpoint clear_loop (fuel : nat) (perm : perm_array) (addr i len : Z) : res perm_array :=
  match fuel with
  | O => Err OutOfFuel
  | S fuel =>
    if i <? len then
      clear_loop fuel (<[(add64 addr i) mod PERM_SIZE := 0]> perm) addr (add64 i 4096) len
    else Ok perm
  end.
Definition egalito_sandbox_syscall_11 (s : state) (addr len : Z) : res outcome :=
  match get_perm s with
  | None => Ok (Return 1 s)
  | Some perm =>
    perm ← clear_loop (S (pages len)) perm addr 0 len;
    Ok (Return 1 (mkState (Some perm)))
  end.

End SandboxInject.

(** ** Shadow stacks *)
Module Cet.

Definition SHADOW_STACK_SIZE : Z := 10 * 1024 * 1024.

(** The GS base and the words and bytes written. *)
Record state := mkState { gs_base : Z; words : gmap Z Z; bytes : gmap Z Z }.

(** [memory] is the address [mmap] returned. *)
Definition egalito_allocate_shadow_stack_gs (memory : Z) (s : state) : state :=
  mkState memory (<[memory := 2 * 8]> (words s)) (bytes s).
Definition get_gs (s : state) : Z := gs_base s.

(** The address of the fixed mapping, from that of a local variable. *)
Definition dummyStackAddr (stackVar : Z) : Z :=
  sub64 (sub64 (Z.land stackVar (u64 (Z.lnot 0xfff))) 0x1000) (2 * SHADOW_STACK_SIZE).
Definition egalito_allocate_shadow_stack_const (stackVar : Z) (s : state) : state :=
  let memory := dummyStackAddr stackVar in
  mkState (gs_base s) (words s) (<[memory := 0]> (bytes s)).

End Cet.

(** ** Shared memory of the coverage tool *)
Module Shmem.

Definition EGALITO_MAP_BASE : Z := 0x50000000.

(** A pointer into a block of bytes is the rest of the block from there on. *)
Definition deref (p : list Z) : res Z :=
  match p with [] => Err OutOfBounds | c :: _ => Ok c end.

(** The loop, with the pointers and [n] where it stops. *)
Fixpoint strncmp_loop (one two : list Z) (n : Z) : res (list Z * list Z * Z) :=
  match one with
  | [] => Err OutOfBounds
  | a :: one' =>
    if a =? 0 then Ok (one, two, n)
    else
      b ← deref two;
      if (a =? b) && negb (n =? 0) then strncmp_loop one' (tail two) (n - 1)
      else Ok (one, two, n)
  end.
(** The characters are compared as [char], a signed type. *)
Definition strncmp (one two : list Z) (n : Z) : res Z :=
  '(one, two, n) ← strncmp_loop one two n;
  if n =? 0 then Ok 0
  else
    a ← deref one; b ← deref two;
    Ok (if swrap 8 a <? swrap 8 b then -1 else if swrap 8 b <? swrap 8 a then 1 else 0).

(** The condition on the digits; the characters are signed. *)
Definition digit_test (c : Z) : bool := (48 <=? swrap 8 c) || (swrap 8 c <=? 57).

(** Arithmetic on [long]; an overflow is undefined. *)
Definition long_ok (x : Z) : bool := (- 2 ^ 63 <=? x) && (x <? 2 ^ 63).
Fixpoint strtol_loop (p : list Z) (value : Z) : res Z :=
  match p with
  | [] => Err OutOfBounds
  | c :: p' =>
    if negb (c =? 0) && digit_test c then
      let v10 := value * 10 in
      let v := v10 + (swrap 8 c - 48) in
      if long_ok v10 && long_ok v then strtol_loop p' v else Err Undefined
    else Ok value
  end.
Definition strtol (nptr : list Z) : res Z := strtol_loop nptr 0.

(** [while( *env++) {}]: the rest after the terminator. *)
Fixpoint skip_string (env : list Z) : res (list Z) :=
  match env with
  | [] => Err OutOfBounds
  | c :: env => if c =? 0 then Ok env else skip_string env
  end.

(** The text [write_string] writes. *)
Fixpoint text_of (p : list Z) : list Z :=
  match p with [] => [] | c :: p => if c =? 0 then [] else c :: text_of p end.

Inductive outcome :=
| Mapped (id : Z) (word : Z * Z) (output : list (list Z))   (* the word stored, and its address *)
| Exited (status : Z) (output : list (list Z)).

(** [shmat id] is the address the system call returns, [-1] on failure. *)
Section shmat.
Variable shmat : Z -> Z.

Fixpoint map_shmem_loop (fuel : nat) (env : list Z) : res outcome :=
  match fuel with
  | O => Err OutOfFuel
  | S fuel =>
    c ← deref env;
    if c =? 0 then
      Ok (Exited (-2) [chars "Usage: set __AFL_SHM_ID to existing shmem id" ++ [10]])
    else
      r ← strncmp env (chars "__AFL_SHM_ID" ++ [0]) 12;
      if r =? 0 then
        let out := [chars "Parsing "; text_of env; [10]] in
        v ← strtol (drop 13 env);
        let id := swrap 32 v in
        if shmat id =? -1 then Ok (Exited (-1) out)
        else Ok (Mapped id (shmat id, 0xdeadbeef) (out ++ [chars "Map successful!" ++ [10]]))
      else env ← skip_string env; map_shmem_loop fuel env
  end.
Definition map_shmem (env : list Z) : res outcome := map_shmem_loop (S (length env)) env.

(** [envp0] is the block that starts at the first environment string. *)
Definition find_env (envp0 : list Z) : res (list Z) := skip_string envp0.
(** The page mapped: its address and length. *)
Definition map_control_page : Z * Z := (EGALITO_MAP_BASE - 0x1000, 0x1000).
(** The control page is mapped when [map_shmem] returns, that is, unless it ended
    the process. *)
Definition egalito_allocate_afl_shm (envp0 : list Z) : res (outcome * option (Z * Z)) :=
  p ← find_env envp0;
  o ← map_shmem p;
  Ok (o, match o with Mapped _ _ _ => Some map_control_page | Exited _ _ => None end).
End shmat.

End Shmem.

(** ** The sandbox enforces write-xor-execute *)
Module SandboxProofs.
Import SandboxInject.

Inductive request :=
| Mmap (addr2 len prot : Z)
| Mprotect (addr len prot : Z)
| Munmap (addr len : Z).

Definition handle (s : state) (r : request) : res outcome :=
  match r with
  | Mmap a l p => egalito_sandbox_syscall_9 s a l p
  | Mprotect a l p => egalito_sandbox_syscall_10 s a l p
  | Munmap a l => egalito_sandbox_syscall_11 s a l
  end.
(** The requests of a process, in order; [None] when the sandbox ended it. *)
Fixpoint run (s : state) (rs : list request) : res (option state) :=
  match rs with
  | [] => Ok (Some s)
  | r :: rs =>
    o ← handle s r;
    match o with Exit _ => Ok None | Return _ s => run s rs end
  end.

Definition req_addr (r : request) : Z := match r with Mmap a _ _ | Mprotect a _ _ | Munmap a _ => a end.
Definition req_len (r : request) : Z := match r with Mmap _ l _ | Mprotect _ l _ | Munmap _ l => l end.
(** The protection that the request asks for; none when it unmaps *)
Definition req_prot (r : request) : Z := match r with Mmap _ _ p | Mprotect _ _ p => p | Munmap _ _ => 0 end.
Definition unmaps (r : request) : bool := match r with Munmap _ _ => true | _ => false end.
(** [x] is the index of a page of the request in the array. *)
Definition touched (addr len x : Z) : Prop := exists k, 0 <= k /\ 4096 * k < len /\ x = (add64 addr (4096 * k)) mod PERM_SIZE.
Definition touches (r : request) (x : Z) : Prop := touched (req_addr r) (req_len r) x.
Definition len_ok (r : request) : Prop := 0 <= req_len r <= 2 ^ 64 - 4096.

(** What the sandbox is for, by array entries.  After the requests [rs] a page of the entry [x] has been made writable and
    none has been unmapped since. *)
Definition written (rs : list request) (x : Z) : Prop :=
  exists i r, rs !! i = Some r /\ touches r x /\ has (req_prot r) PROT_WRITE = true /\
    forall k u, (i < k)%nat -> rs !! k = Some u -> unmaps u = true -> ~ touches u x.
(** A request to make pages executable one of which is writable by this request or has been made so before *)
Definition violation (rs : list request) (r : request) : Prop :=
  exists x, touches r x /\ has (req_prot r) PROT_EXEC = true /\ (has (req_prot r) PROT_WRITE = true \/ written rs x).

Definition slot (perm : perm_array) (x : Z) : Z := default 0 (perm !! x).

Lemma has_bit p k : 0 <= k -> has p (2 ^ k) = Z.testbit p k.
Proof.
  intros Hk. unfold has. destruct (Z.testbit p k) eqn:E.
  - apply negb_true_iff, Z.eqb_neq. intros H0.
    assert (Z.testbit (Z.land p (2 ^ k)) k = false) as H by (rewrite H0; apply Z.bits_0).
    rewrite Z.land_spec, E, Z.pow2_bits_true in H by done. done.
  - apply negb_false_iff, Z.eqb_eq, Z.bits_inj'. intros i Hi.
    rewrite Z.land_spec, Z.bits_0, Z.pow2_bits_eqb by done.
    destruct (Z.eqb_spec k i) as [<-|]; [by rewrite E|by rewrite andb_false_r].
Qed.
Lemma has_write p : has p PROT_WRITE = Z.testbit p 1.
Proof. exact (has_bit p 1 ltac:(lia)). Qed.

Lemma write_or a b :
  has (u8 (Z.lor a (u8 b))) PROT_WRITE = has a PROT_WRITE || has b PROT_WRITE.
Proof.
  rewrite !has_write. unfold wrap. rewrite !Z.testbit_mod_pow2, Z.lor_spec, Z.testbit_mod_pow2 by lia.
  done.
Qed.

Lemma slot_insert (perm : perm_array) x v y :
  slot (<[x := v]> perm) y = if bool_decide (x = y) then v else slot perm y.
Proof.
  unfold slot. rewrite lookup_insert. by repeat (case_decide || case_bool_decide).
Qed.

Definition writable (perm : perm_array) (x : Z) : bool := has (slot perm x) PROT_WRITE.

(** *** The loops *)

(** The pages from [i] on *)
Definition from (addr i len x : Z) : Prop := exists k, i <= 4096 * k /\ 4096 * k < len /\ x = (add64 addr (4096 * k)) mod PERM_SIZE.
Lemma from_touched addr len x : from addr 0 len x <-> touched addr len x.
Proof. split; intros (k&?&?&->); exists k; (split; [lia|done]). Qed.
Lemma from_step addr i len x : i mod 4096 = 0 -> i < len ->
  from addr i len x <-> x = (add64 addr i) mod PERM_SIZE \/ from addr (i + 4096) len x.
Proof.
  intros Hm Hl. assert (i = 4096 * (i / 4096)) as Ei by zdiv. split.
  - intros (k&?&?&->). destruct (Z.eq_dec (4096 * k) i) as [->|]; [by left|]. right. exists k. split; [lia|done].
  - intros [->|(k&?&?&->)]; [exists (i / 4096); rewrite <- Ei; split; [lia|done]|exists k; split; [lia|done]].
Qed.
Lemma from_end addr i len x : len <= i -> ~ from addr i len x.
Proof. intros Hl (k&?&?&_). lia. Qed.

(** The checking loop ends the process exactly if some page violates the rule, and otherwise records what is
    made writable. *)
Definition checked (perm : perm_array) (prot : Z) (P : Z -> Prop) (r : option perm_array) : Prop :=
  match r with
  | None => exists x, P x /\ has prot PROT_EXEC = true /\ (has prot PROT_WRITE = true \/ writable perm x = true)
  | Some perm' => (forall x, P x -> has prot PROT_EXEC = true -> has prot PROT_WRITE = false /\ writable perm x = false) /\
      forall x, writable perm' x = true <-> writable perm x = true \/ (P x /\ has prot PROT_WRITE = true)
  end.
Lemma violates_spec perm address prot : violates perm address prot =
  has prot PROT_EXEC && (has prot PROT_WRITE || writable perm (address mod PERM_SIZE)).
Proof.
  unfold violates. change (perm_at perm address) with (slot perm (address mod PERM_SIZE)). fold (writable perm (address mod PERM_SIZE)).
  by destruct (writable _ _), (has prot PROT_EXEC), (has prot PROT_WRITE).
Qed.
Lemma writable_record perm address prot y :
  writable (<[address mod PERM_SIZE := u8 (Z.lor (perm_at perm address) (u8 prot))]> perm) y =
  writable perm y || (bool_decide (address mod PERM_SIZE = y) && has prot PROT_WRITE).
Proof.
  unfold writable. rewrite slot_insert. case_bool_decide as E; [|by rewrite orb_false_r].
  rewrite write_or. by rewrite <- E.
Qed.

Lemma check_loop_spec fuel perm addr i len prot :
  0 <= i -> i mod 4096 = 0 -> len <= 2 ^ 64 - 4096 -> (0 < fuel)%nat ->
  len - i <= 4096 * (Z.of_nat fuel - 1) ->
  exists r, check_loop fuel perm addr i len prot = Ok r /\ checked perm prot (from addr i len) r.
Proof.
  revert perm i. induction fuel as [|fuel IH]; intros perm i Hi Hm Hlen H0 Hf; [lia|].
  cbn [check_loop]. destruct (Z.ltb_spec i len) as [Hlt|Hge].
  2: { exists (Some perm). split; [done|]. split; [by intros x ?%from_end|]. intros x. split; [by left|].
       intros [?|[?%from_end _]]; done. }
  pose proof (fun x => from_step addr i len x Hm Hlt) as Hstep. rewrite violates_spec.
  destruct (has prot PROT_EXEC && _) eqn:Ev.
  - apply andb_true_iff in Ev as [He Hw%orb_true_iff]. exists None. split; [done|].
    exists ((add64 addr i) mod PERM_SIZE). split; [apply Hstep; by left|done].
  - rewrite (add64_small i 4096) by lia.
    match goal with |- context [check_loop fuel ?p _ _ _ _] => set (perm1 := p) end.
    assert (Hrec : forall y, writable perm1 y = writable perm y || (bool_decide ((add64 addr i) mod PERM_SIZE = y) && has prot PROT_WRITE))
      by (intros y; apply writable_record).
    destruct (IH perm1 (i + 4096)) as (r&->&Hr); [lia|zdiv|done|lia|lia|]. exists r. split; [done|].
    destruct r as [perm'|]; cbn [checked] in *.
    + destruct Hr as [H1 H2]. split.
      * intros x [->|Hx]%Hstep He; [by rewrite He in Ev; cbn in Ev; apply orb_false_iff in Ev|].
        destruct (H1 x Hx He) as [Hw Hx1]. rewrite Hrec in Hx1. apply orb_false_iff in Hx1 as [? _]. done.
      * intros x. rewrite H2, Hrec, Hstep, orb_true_iff, andb_true_iff, bool_decide_eq_true. naive_solver.
    + destruct Hr as (x&Hx&He&Hw). exists x. split; [apply Hstep; by right|]. split; [done|]. destruct Hw as [?|Hw]; [by left|].
      rewrite Hrec in Hw. apply orb_true_iff in Hw as [?|[_ ?]%andb_true_iff]; auto.
Qed.
Lemma clear_loop_spec fuel perm addr i len :
  0 <= i -> i mod 4096 = 0 -> len <= 2 ^ 64 - 4096 -> (0 < fuel)%nat ->
  len - i <= 4096 * (Z.of_nat fuel - 1) ->
  exists perm', clear_loop fuel perm addr i len = Ok perm' /\
    forall x, writable perm' x = true <-> writable perm x = true /\ ~ from addr i len x.
Proof.
  revert perm i. induction fuel as [|fuel IH]; intros perm i Hi Hm Hlen H0 Hf; [lia|].
  cbn [clear_loop]. destruct (Z.ltb_spec i len) as [Hlt|Hge].
  2: { exists perm. split; [done|]. intros x. split; [|by intros []]. intros Hx. split; [done|]. by apply from_end. }
  rewrite (add64_small i 4096) by lia. destruct (IH (<[add64 addr i mod PERM_SIZE := 0]> perm) (i + 4096)) as (perm'&->&Hx); [lia|zdiv|done|lia|lia|].
  exists perm'. split; [done|]. intros x. rewrite Hx, (from_step addr i len x Hm Hlt). unfold writable. rewrite slot_insert.
  case_bool_decide as E; [split; [by intros []|intros [_ []]; by left]|].
  split; [intros [? H]; split; [done|]; intros [->|?]; [done|by apply H]|intros [? H]; split; [done|]; intros ?; apply H; by right].
Qed.
Lemma pages_enough len : 0 <= len -> len - 0 <= 4096 * (Z.of_nat (S (pages len)) - 1).
Proof. intros Hl. unfold pages. rewrite Nat2Z.inj_succ, Z2Nat.id by (apply Z.div_pos; lia). zdiv. Qed.

(** *** Requests *)
Definition answered (perm : perm_array) (r : request) (o : outcome) : Prop :=
  match o with
  | Exit n => n = 10 /\ exists x, touches r x /\ has (req_prot r) PROT_EXEC = true /\ (has (req_prot r) PROT_WRITE = true \/ writable perm x = true)
  | Return _ s => exists perm', s = mkState (Some perm') /\
      (forall x, touches r x -> has (req_prot r) PROT_EXEC = true -> has (req_prot r) PROT_WRITE = false /\ writable perm x = false) /\
      forall x, writable perm' x = true <->
        (writable perm x = true /\ (unmaps r = true -> ~ touches r x)) \/ (touches r x /\ has (req_prot r) PROT_WRITE = true)
  end.
Lemma handle_spec perm r : len_ok r -> exists o, handle (mkState (Some perm)) r = Ok o /\ answered perm r o.
Proof.
  intros Hl. destruct (unmaps r) eqn:Hu.
  - destruct r as [| |a l]; try done. cbn [handle].
    destruct (clear_loop_spec (S (pages l)) perm a 0 l) as (perm'&E&Hx); [lia|done|apply Hl|lia|apply pages_enough; apply Hl|].
    unfold egalito_sandbox_syscall_11. cbn [get_perm gs]. rewrite E. cbn [mbind res_bind]. eexists. split; [done|].
    exists perm'. split; [done|]. split; [done|]. intros x. rewrite Hx, from_touched. unfold touches. cbn [req_addr req_len req_prot].
    split; [intros [? ?]; by left|intros [[? H]|[_ H]]; [by split; [|apply H]|done]].
  - destruct (check_loop_spec (S (pages (req_len r))) perm (req_addr r) 0 (req_len r) (req_prot r)) as (o&E&Ho);
      [lia|done|apply Hl|lia|apply pages_enough; apply Hl|].
    assert (exists v, handle (mkState (Some perm)) r = Ok (match o with None => Exit 10 | Some perm => Return v (mkState (Some perm)) end)) as [v Eh].
    { destruct r; [exists 0|exists 1|done]; cbn [handle req_addr req_len req_prot] in *;
        unfold egalito_sandbox_syscall_9, egalito_sandbox_syscall_10, check_pages; cbn [get_perm gs]; rewrite E; done. }
    rewrite Eh. eexists. split; [done|]. destruct o as [perm'|]; cbn [answered checked] in *.
    + exists perm'. split; [done|]. destruct Ho as [H1 H2]. split; [intros x Hx; apply H1; by apply from_touched|].
      intros x. rewrite H2, from_touched, Hu. unfold touches. naive_solver.
    + split; [done|]. destruct Ho as (x&Hx%from_touched&Ho). by exists x.
Qed.

(** The writes that a request adds and takes away *)
Lemma written_snoc rs r x : written (rs ++ [r]) x <->
  (written rs x /\ (unmaps r = true -> ~ touches r x)) \/ (touches r x /\ has (req_prot r) PROT_WRITE = true).
Proof.
  split.
  - intros (i&q&Hq&Ht&Hw&Hk). apply lookup_app_Some in Hq as [Hq|[Hi Hq]].
    + left. pose proof (lookup_lt_Some _ _ _ Hq) as Hlt. split.
      * exists i, q. split; [done|]. split; [done|]. split; [done|]. intros k u Hik Hu. apply (Hk k); [done|].
        by apply lookup_app_l_Some.
      * intros Hu. apply (Hk (length rs)); [lia| |done]. by apply list_lookup_middle.
    + apply list_lookup_singleton_Some in Hq as [_ ->]. by right.
  - intros [[(i&q&Hq&Ht&Hw&Hk) Hu]|[Ht Hw]].
    + exists i, q. split; [by apply lookup_app_l_Some|]. split; [done|]. split; [done|]. intros k u Hik Hku.
      apply lookup_app_Some in Hku as [Hku|[_ [_ ->]%list_lookup_singleton_Some]]; [by apply (Hk k)|done].
    + exists (length rs), r. split; [by apply list_lookup_middle|]. split; [done|]. split; [done|]. intros k u Hk Hu.
      apply lookup_lt_Some in Hu. rewrite length_app in Hu. cbn in Hu. lia.
Qed.

(** The record of a run that has had the requests [old] *)
Lemma run_spec rs : forall old perm, Forall len_ok rs -> (forall x, writable perm x = true <-> written old x) ->
  exists o, run (mkState (Some perm)) rs = Ok o /\
    (o = None <-> exists j r, rs !! j = Some r /\ violation (old ++ take j rs) r).
Proof.
  induction rs as [|r rs IH]; intros old perm Hl Hp; cbn [run].
  { exists (Some (mkState (Some perm))). split; [done|]. split; [done|]. by intros (j&q&Hq&_). }
  apply Forall_cons in Hl as [Hr Hl]. destruct (handle_spec perm r Hr) as (o&->&Ho). cbn [mbind res_bind].
  destruct o as [v s|n]; cbn [answered] in Ho.
  - destruct Ho as (perm'&->&Hno&Hw). destruct (IH (old ++ [r]) perm' Hl) as (o&->&Hrun).
    { intros x. rewrite Hw, written_snoc. by rewrite Hp. }
    exists o. split; [done|]. rewrite Hrun. split.
    + intros (j&q&Hq&Hv). exists (S j), q. split; [done|]. cbn [take]. by rewrite cons_middle, app_assoc.
    + intros ([|j]&q&Hq&Hv).
      * injection Hq as ->. destruct Hv as (x&Hx&He&Hv). destruct (Hno x Hx He) as [Hf1 Hf2].
        destruct Hv as [?|Hv]; [congruence|]. cbn [take] in Hv. rewrite app_nil_r in Hv. apply Hp in Hv. congruence.
      * exists j, q. split; [done|]. cbn [take] in Hv. by rewrite cons_middle, app_assoc in Hv.
  - destruct Ho as (_&x&Hx&He&Hv). exists None. split; [done|]. split; [|done]. intros _. exists 0%nat, r. split; [done|].
    exists x. split; [done|]. split; [done|]. cbn [take]. rewrite app_nil_r. destruct Hv as [?|?%Hp]; auto.
Qed.

(** C28: The sandbox enforces write-xor-execute over time, by the entries of its array: every sequence of
    [mmap], [mprotect] and [munmap] requests is answered (the loops terminate), and the process is ended
    exactly if a request makes a page executable and also writable, or makes a page executable whose entry
    belongs to a page that an earlier request made writable, with no page of that entry unmapped in between. *)
Theorem sandbox_no_exec_after_write (rs : list request) :
  Forall len_ok rs ->
  exists o, run (allocate_perm initial) rs = Ok o /\
    (o = None <-> exists j r, rs !! j = Some r /\ violation (take j rs) r).
Proof.
  intros Hl. apply (run_spec rs [] ∅ Hl). intros x. split; [done|]. by intros (i&r&Hi&_).
Qed.

(** A page that is made writable and then, before and after it is unmapped, executable *)
Definition requests : list request := [Mmap 8192 8192 (PROT_READ + PROT_EXEC); Mprotect 8192 4096 PROT_WRITE; Munmap 8192 4096; Mmap 8192 4096 PROT_EXEC].
Lemma sandbox_no_exec_after_write_witness :
  (exists s, run (allocate_perm initial) requests = Ok (Some s)) /\
  run (allocate_perm initial) [Mprotect 8192 4096 PROT_WRITE; Mprotect 8192 4096 PROT_EXEC] = Ok None /\
  exists o, run (allocate_perm initial) requests = Ok o /\
    (o = None <-> exists j r, requests !! j = Some r /\ violation (take j requests) r).
Proof.
  split; [eexists; vm_compute; reflexivity|]. split; [vm_compute; reflexivity|].
  apply (sandbox_no_exec_after_write requests). repeat constructor; cbn; lia.
Defined.

(** [munmap] defeats the record: pages 4096 * 119221 bytes apart share an entry
    of the array, so that a process may write a page, unmap the other one, and
    then make the first page executable. *)
Theorem sandbox_munmap_clears_other_page (addr : Z) :
  0 <= addr < 2 ^ 63 ->
  let other := addr + 4096 * PERM_SIZE in
  exists s1 s2 s3,
    egalito_sandbox_syscall_10 (allocate_perm initial) addr 4096 PROT_WRITE = Ok (Return 1 s1) /\
    egalito_sandbox_syscall_11 s1 other 4096 = Ok (Return 1 s2) /\
    egalito_sandbox_syscall_10 s2 addr 4096 PROT_EXEC = Ok (Return 1 s3).
Proof.
  intros Ha other. unfold egalito_sandbox_syscall_10, egalito_sandbox_syscall_11, check_pages.
  change (S (pages 4096)) with 2%nat. change (allocate_perm initial) with (mkState (Some ∅)).
  cbn [get_perm gs check_loop clear_loop].
  change (0 <? 4096) with true. change (add64 0 4096) with 4096. change (4096 <? 4096) with false.
  cbn iota. rewrite !add64_small by (unfold other, PERM_SIZE; lia). rewrite !Z.add_0_r.
  replace (other mod PERM_SIZE) with (addr mod PERM_SIZE)
    by (unfold other; rewrite Z.mod_add by done; done).
  assert (forall perm : perm_array, violates perm addr PROT_WRITE = false) as Hw.
  { intros perm. unfold violates. by rewrite andb_false_r. }
  rewrite Hw. cbn [mbind res_bind]. eexists _, _, _. split; [reflexivity|].
  cbn [get_perm gs mbind res_bind]. split; [reflexivity|]. cbn [get_perm gs mbind res_bind].
  unfold violates, perm_at. rewrite lookup_insert_eq. cbn. reflexivity.
Qed.

Lemma sandbox_munmap_clears_other_page_witness :
  exists s1 s2 s3,
    egalito_sandbox_syscall_10 (allocate_perm initial) 4096 4096 PROT_WRITE = Ok (Return 1 s1) /\
    egalito_sandbox_syscall_11 s1 (4096 + 4096 * PERM_SIZE) 4096 = Ok (Return 1 s2) /\
    egalito_sandbox_syscall_10 s2 4096 4096 PROT_EXEC = Ok (Return 1 s3).
Proof. apply (sandbox_munmap_clears_other_page 4096). lia. Defined.

End SandboxProofs.

(** ** The function log prints what was logged *)
Module LogProofs.
Import LogFunction.

Lemma hex_value_snoc ds c : hex_value (ds ++ [c]) = 16 * hex_value ds + hex_digit c.
Proof. unfold hex_value. by rewrite foldl_app. Qed.

(** The digits of [num], lowest first. *)
Lemma digit_loop_spec k fuel num pre rest :
  0 <= num < 16 ^ Z.of_nat k -> (k < fuel)%nat -> (k <= length rest)%nat ->
  exists ds, digit_loop fuel (pre ++ rest) (Z.of_nat (length pre)) num =
      Ok (pre ++ ds ++ drop (length ds) rest, Z.of_nat (length pre + length ds)) /\
    hex_value (reverse ds) = num /\ Forall is_hex ds /\ (length ds <= k)%nat /\
    (0 < num -> ds <> []).
Proof.
  revert fuel num pre rest. induction k as [|k IH]; intros fuel num pre rest Hn Hf Hl;
    (destruct fuel as [|fuel]; [lia|]); cbn [digit_loop].
  { exists []. change (16 ^ Z.of_nat 0) with 1 in Hn. assert (num = 0) as -> by lia. cbn.
    rewrite Nat.add_0_r. split_and!; try done; constructor. }
  destruct (Z.ltb_spec 0 num) as [Hp|Hz].
  2: { exists []. assert (num = 0) as -> by lia. cbn. rewrite Nat.add_0_r.
       split_and!; try done; try lia; constructor. }
  destruct rest as [|x rest]; [cbn in Hl; lia|]. rewrite store_app. cbn [mbind res_bind].
  set (c := if 9 <? Z.land num 15 then _ else _).
  assert (is_hex c /\ hex_digit c = num mod 16) as [Hc Hd].
  { subst c. change 15 with (Z.ones 4). rewrite Z.land_ones by lia. change (2 ^ 4) with 16.
    unfold is_hex, hex_digit. destruct (Z.ltb_spec 9 (num mod 16)); case_if; zbool; zdiv. }
  rewrite Nat2Z.inj_succ, Z.pow_succ_r in Hn by lia. rewrite Z.shiftr_div_pow2 by lia.
  change (2 ^ 4) with 16. cbn in Hl.
  destruct (IH fuel (num / 16) (pre ++ [c]) rest) as (ds&E&Hv&Hh&Hlen&_); [zdiv|lia|lia|].
  exists (c :: ds). rewrite length_app in E. cbn [length] in E.
  replace (Z.of_nat (length pre) + 1) with (Z.of_nat (length pre + 1)) by lia.
  rewrite <- app_assoc in E. cbn [app] in E. rewrite E. split_and!.
  - rewrite <- app_assoc. cbn. do 2 f_equal. lia.
  - rewrite reverse_cons, hex_value_snoc, Hv, Hd. zdiv.
  - by constructor.
  - cbn. lia.
  - done.
Qed.

(** The second loop reverses a segment in place. *)
Lemma swap_loop_spec n l fuel pre post :
  (length l <= n)%nat -> (length l < 2 * fuel)%nat ->
  swap_loop fuel (pre ++ l ++ post) (Z.of_nat (length pre))
    (Z.of_nat (length pre + length l) - 1) = Ok (pre ++ reverse l ++ post).
Proof.
  revert l fuel pre post. induction n as [|n IH]; intros l fuel pre post Hn Hf;
    (destruct fuel as [|fuel]; [lia|]); cbn [swap_loop].
  { destruct l; [|cbn in Hn; lia]. cbn. by rewrite (proj2 (Z.ltb_ge _ _)) by lia. }
  destruct l as [|x l]; [cbn; by rewrite (proj2 (Z.ltb_ge _ _)) by lia|].
  destruct l as [|y' l' _] using rev_ind; [cbn; by rewrite (proj2 (Z.ltb_ge _ _)) by lia|].
  cbn [length] in *. rewrite length_app in *. cbn [length] in *.
  rewrite (proj2 (Z.ltb_lt _ _)) by lia.
  replace (pre ++ (x :: l' ++ [y']) ++ post) with ((pre ++ x :: l') ++ y' :: post)
    by (rewrite <- !app_assoc; cbn; by rewrite <- app_assoc).
  replace (Z.of_nat (length pre + S (length l' + 1)) - 1) with (Z.of_nat (length (pre ++ x :: l')))
    by (rewrite length_app; cbn; lia).
  rewrite load_app. cbn [mbind res_bind]. rewrite <- app_assoc. cbn [app]. rewrite load_app.
  cbn [mbind res_bind].
  change (pre ++ x :: l' ++ y' :: post) with (pre ++ (x :: l') ++ y' :: post).
  rewrite app_assoc, store_app. cbn [mbind res_bind]. rewrite <- app_assoc. cbn [app].
  rewrite store_app. cbn [mbind res_bind].
  specialize (IH l' fuel (pre ++ [y']) (x :: post)). rewrite length_app in IH. cbn [length] in IH.
  rewrite <- !app_assoc in IH. cbn [app] in IH.
  replace (Z.of_nat (length pre) + 1) with (Z.of_nat (length pre + 1)) by lia.
  replace (Z.of_nat (length (pre ++ x :: l')) - 1)
    with (Z.of_nat (length pre + 1 + length l') - 1) by (rewrite length_app; cbn; lia).
  rewrite IH by lia. rewrite reverse_cons, reverse_snoc. cbn. by rewrite <- !app_assoc.
Qed.

Lemma long_to_buf_spec k num pre rest :
  0 <= num < 16 ^ Z.of_nat k -> (1 <= k <= 16)%nat -> (k <= length rest)%nat ->
  exists ds, egalito_long_to_buf (pre ++ rest) (Z.of_nat (length pre)) num =
      Ok (pre ++ ds ++ drop (length ds) rest, Z.of_nat (length ds)) /\
    hex_value ds = num /\ Forall is_hex ds /\ (1 <= length ds <= k)%nat.
Proof.
  intros Hn Hk Hl. unfold egalito_long_to_buf.
  destruct (Z.eqb_spec num 0) as [->|Hne].
  { destruct rest as [|x rest]; [cbn in Hl; lia|]. rewrite store_app. exists [48]. cbn.
    split_and!; try done; try lia; repeat constructor; unfold is_hex; lia. }
  destruct (digit_loop_spec k 17 num pre rest) as (ds&->&Hv&Hh&Hlen&Hnil); [done|lia|lia|].
  cbn [mbind res_bind]. rewrite (swap_loop_spec 16) by lia. cbn [mbind res_bind].
  exists (reverse ds). rewrite length_reverse. split_and!.
  - do 2 f_equal. lia.
  - done.
  - by rewrite Forall_reverse.
  - destruct ds; [|cbn; lia]. exfalso. by apply Hnil; [lia|].
  - lia.
Qed.

Lemma c_string_app t rest :
  Forall (fun c => c <> 0) t -> c_string (t ++ 0 :: rest) = t.
Proof.
  induction 1 as [|c t Hc _ IH]; cbn; [done|]. by rewrite (proj2 (Z.eqb_neq _ _) Hc), IH.
Qed.

Lemma hex_nonzero_chars ds : Forall is_hex ds -> Forall (fun c => c <> 0) ds.
Proof. intros H. eapply Forall_impl; [exact H|]. unfold is_hex. intros. lia. Qed.

(** A line of the dump: the index, the direction, the address. *)
Definition line_of (i : Z) (e : entry) (line : list Z) : Prop :=
  exists d1 d2, line = d1 ++ [32; if 0 <? dir e then 62 else 60; 32] ++ d2 /\
    hex_value d1 = i /\ Forall is_hex d1 /\ hex_value d2 = address e /\ Forall is_hex d2.

Lemma put_at_end {A} (pre : list A) rest x n :
  n = Z.of_nat (length pre) -> rest <> [] ->
  store (pre ++ rest) n x = Ok ((pre ++ [x]) ++ drop 1 rest).
Proof.
  intros -> Hr. destruct rest as [|y rest]; [done|]. rewrite store_app. cbn.
  by rewrite <- app_assoc, drop_0.
Qed.

Lemma dump_entry_spec s buf i e :
  load (logbuf s) i = Ok e -> length buf = 32%nat -> 0 <= i < 256 -> is_u64 (address e) ->
  exists buf' line, dump_entry s buf i = Ok (buf', line) /\ length buf' = 32%nat /\ line_of i e line.
Proof.
  intros He Hb Hi Ha. unfold dump_entry. rewrite He. cbn [mbind res_bind].
  destruct (long_to_buf_spec 2 i [] buf) as (d1&E1&Hv1&Hh1&Hl1); [done|lia|lia|].
  cbn [app length] in E1. change (Z.of_nat 0) with 0 in E1. rewrite E1. cbn [mbind res_bind].
  set (c := if 0 <? dir e then 62 else 60).
  assert (forall n, (n < 32)%nat -> drop n buf <> []) as Hd.
  { intros n Hn E. apply (f_equal length) in E. rewrite length_drop in E. cbn in E. lia. }
  rewrite put_at_end, drop_drop by (done || apply Hd; lia). cbn [mbind res_bind].
  rewrite put_at_end, drop_drop by (rewrite ?length_app; cbn; (lia || apply Hd; lia)).
  cbn [mbind res_bind].
  rewrite put_at_end, drop_drop by (rewrite ?length_app; cbn; (lia || apply Hd; lia)).
  cbn [mbind res_bind].
  set (pre := ((d1 ++ [32]) ++ [c]) ++ [32]).
  assert (length pre = length d1 + 3)%nat as Hpre by (unfold pre; rewrite !length_app; cbn; lia).
  replace (Z.of_nat (length d1) + 3) with (Z.of_nat (length pre)) by lia.
  destruct (long_to_buf_spec 16 (address e) pre (drop (length d1 + 1 + 1 + 1) buf))
    as (d2&E2&Hv2&Hh2&Hl2).
  { unfold is_u in Ha. change (16 ^ Z.of_nat 16) with (2 ^ 64). lia. } { lia. }
  { rewrite length_drop. lia. }
  rewrite E2. cbn [mbind res_bind]. rewrite app_assoc, drop_drop.
  rewrite put_at_end by (rewrite ?length_app; lia || apply Hd; lia). cbn [mbind res_bind].
  eexists _, _. split; [reflexivity|]. split.
  { rewrite !length_app, !length_drop. cbn. lia. }
  exists d1, d2. split_and!; try done. rewrite <- app_assoc. cbn [app].
  rewrite c_string_app.
  - unfold pre. by rewrite <- !app_assoc.
  - apply Forall_app; split; [|by apply hex_nonzero_chars]. unfold pre.
    repeat (apply Forall_app; split); [by apply hex_nonzero_chars|..]; repeat constructor; try done.
    subst c. by destruct (0 <? dir e).
Qed.

(** What is logged: the array has room, and its addresses are 64 bits wide. *)
Definition log_ok (s : state) (es : list entry) : Prop :=
  length (logbuf s) = 128%nat /\ log_i s = Z.of_nat (length es) /\ (length es <= 128)%nat /\
  (exists rest, logbuf s = es ++ rest) /\ Forall (fun e => is_u64 (address e)) es.

Lemma dump_loop_spec s done_ todo fuel buf :
  log_ok s (done_ ++ todo) -> length buf = 32%nat -> (length todo < fuel)%nat ->
  exists lines, dump_loop fuel s buf (Z.of_nat (length done_)) = Ok lines /\
    Forall2 (fun '(i, e) line => line_of (Z.of_nat i) e line)
      (zip (seq (length done_) (length todo)) todo) lines.
Proof.
  revert done_ fuel buf. induction todo as [|e todo IH]; intros done_ fuel buf Hok Hb Hf;
    (destruct fuel as [|fuel]; [lia|]); cbn [dump_loop];
    pose proof Hok as (Hlen&Hi&Hle&(rest&Hr)&Ha); rewrite Hi, length_app.
  { cbn [length]. rewrite (proj2 (Z.ltb_ge _ _)) by lia. exists []. split; [done|constructor]. }
  cbn [length] in *. rewrite length_app in Hle. cbn [length] in Hle.
  rewrite (proj2 (Z.ltb_lt _ _)) by lia.
  destruct (dump_entry_spec s buf (Z.of_nat (length done_)) e) as (buf'&line&->&Hb'&Hline).
  { rewrite Hr, <- app_assoc. apply load_app. } { done. } { lia. }
  { apply Forall_app in Ha as [_ Ha]. by inversion Ha. }
  cbn [mbind res_bind].
  destruct (IH (done_ ++ [e]) fuel buf') as (lines&E&H2).
  { by rewrite <- app_assoc. } { done. } { lia. }
  rewrite length_app in E, H2. cbn [length] in E, H2.
  replace (Z.of_nat (length done_) + 1) with (Z.of_nat (length done_ + 1)) by lia. rewrite E.
  exists (line :: lines). split; [done|]. cbn [seq zip_with]. constructor; [done|].
  by rewrite Nat.add_1_r in H2.
Qed.

(** Calls of the two hooks. *)
Inductive call := Entered (addr : Z) | Exited (addr : Z).
Definition event (c : call) : entry :=
  match c with Entered a => mkEntry 1 (sub64 a 12) | Exited a => mkEntry (-1) (add64 a 4) end.
Definition do_call (s : state) (c : call) : res state :=
  match c with
  | Entered a => egalito_log_function_entry a s
  | Exited a => egalito_log_function_exit a s
  end.
Fixpoint do_calls (s : state) (cs : list call) : res state :=
  match cs with [] => Ok s | c :: cs => s ← do_call s c; do_calls s cs end.

Lemma do_call_spec s es c :
  log_ok s es -> exists s', do_call s c = Ok s' /\ log_ok s' (take 128 (es ++ [event c])).
Proof.
  intros (Hlen&Hi&Hle&(rest&Hr)&Ha).
  assert (do_call s c = egalito_log_function_info (address (event c)) (dir (event c)) s) as ->
    by by destruct c.
  unfold egalito_log_function_info, LOG_MAX. rewrite Hi.
  destruct (Z.ltb_spec (Z.of_nat (length es)) 128).
  - destruct rest as [|x rest].
    { apply (f_equal length) in Hr. rewrite app_nil_r in Hr. lia. }
    rewrite Hr, store_app. cbn [mbind res_bind]. eexists. split; [reflexivity|].
    rewrite take_ge by (rewrite length_app; cbn; lia).
    replace (mkEntry (dir (event c)) (address (event c))) with (event c) by by destruct c.
    unfold log_ok. cbn. rewrite <- Hlen, Hr, !length_app. cbn. split_and!; try lia.
    + exists rest. by rewrite <- app_assoc.
    + apply Forall_app. split; [done|]. constructor; [|constructor].
      destruct c; apply wrap_range; lia.
  - exists s. split; [done|]. assert (length es = 128%nat) as E by lia.
    rewrite take_app_length' by done. unfold log_ok. eauto 10.
Qed.

Lemma do_calls_spec s es cs :
  log_ok s es -> exists s', do_calls s cs = Ok s' /\ log_ok s' (take 128 (es ++ map event cs)).
Proof.
  revert s es. induction cs as [|c cs IH]; intros s es Hok; cbn [do_calls map].
  { exists s. split; [done|]. rewrite app_nil_r, take_ge; [done|]. apply Hok. }
  destruct (do_call_spec s es c Hok) as (s1&->&H1). cbn [mbind res_bind].
  destruct (IH s1 _ H1) as (s2&->&H2). exists s2. split; [done|].
  destruct Hok as (_&_&Hle&_). destruct (decide (length es = 128%nat)) as [E|].
  - rewrite (take_app_length' es [event c]) in H2 by done.
    rewrite !take_app_length' in * by done. done.
  - rewrite (take_ge (es ++ [event c])) in H2 by (rewrite length_app; cbn; lia).
    by rewrite <- app_assoc in H2.
Qed.

(** After any sequence of function entries and exits, the dump stays inside
    its local buffer, terminates, and prints one line per logged event, in
    order, for the first 128 events: the index, the direction and the adjusted
    address, both numbers in hexadecimal. *)
Theorem log_dump_prints_events (cs : list call) (buf : list Z) :
  length buf = 32%nat ->
  exists s lines, do_calls initial cs = Ok s /\ egalito_dump_logs s buf = Ok lines /\
    let es := take 128 (map event cs) in
    length lines = length es /\
    forall i e, es !! i = Some e -> exists line, lines !! i = Some line /\ line_of (Z.of_nat i) e line.
Proof.
  intros Hb. destruct (do_calls_spec initial [] cs) as (s&E&Hok).
  { unfold log_ok. split_and!; [done|done|cbn; lia|by eexists|constructor]. }
  exists s. cbn [app] in Hok. set (es := take 128 (map event cs)) in *.
  destruct (dump_loop_spec s [] es (S (length es)) buf) as (lines&El&H2); [done|done|lia|].
  exists lines. split; [done|]. split.
  { unfold egalito_dump_logs. destruct Hok as (_&->&_). by rewrite Nat2Z.id. }
  cbn zeta. assert (length (zip (seq 0 (length es)) es) = length es) as Hz
    by (rewrite length_zip_with, length_seq; lia).
  cbn [length] in H2. split; [apply Forall2_length in H2; lia|].
  intros i e Hie. assert (zip (seq 0 (length es)) es !! i = Some (i, e)) as Hzi.
  { apply lookup_zip_with_Some. exists i, e. split_and!; [done| |done].
    apply lookup_seq. split; [lia|]. by apply lookup_lt_Some in Hie. }
  destruct (Forall2_lookup_l _ _ _ _ _ H2 Hzi) as (line&?&?). by exists line.
Qed.

Lemma log_dump_prints_events_witness :
  exists s lines, do_calls initial [Entered 4198964; Exited 4198964] = Ok s /\
    egalito_dump_logs s (repeat 7 32) = Ok lines /\
    let es := take 128 (map event [Entered 4198964; Exited 4198964]) in
    length lines = length es /\
    forall i e, es !! i = Some e -> exists line, lines !! i = Some line /\ line_of (Z.of_nat i) e line.
Proof. apply (log_dump_prints_events [Entered 4198964; Exited 4198964] (repeat 7 32)). reflexivity. Defined.

End LogProofs.

(** ** explicit_bzero clears its argument *)

Lemma bzero_loop_spec n pre s :
  (n <= length s)%nat ->
  bzero_loop n (pre ++ s) (Z.of_nat (length pre)) = Ok (pre ++ replicate n 0 ++ drop n s).
Proof.
  revert pre s. induction n as [|n IH]; intros pre s Hn; cbn [bzero_loop]; [done|].
  destruct s as [|x s]; cbn in Hn; [lia|]. rewrite store_app. cbn [mbind res_bind].
  specialize (IH (pre ++ [0]) s). rewrite length_app, <- !app_assoc in IH. cbn in IH.
  replace (Z.of_nat (length pre) + 1) with (Z.of_nat (length pre + 1)) by lia.
  rewrite IH by lia. done.
Qed.

Lemma explicit_bzero_clears (s : list Z) (n : nat) :
  (n <= length s)%nat ->
  explicit_bzero s (Z.of_nat n) = Ok (replicate n 0 ++ drop n s).
Proof. intros Hn. unfold explicit_bzero. rewrite Nat2Z.id. exact (bzero_loop_spec n [] s Hn). Qed.

(** ** The fixed shadow stack lies below the stack page *)

Lemma shadow_stack_below (stackVar : Z) :
  2 * Cet.SHADOW_STACK_SIZE + 0x2000 <= stackVar < 2 ^ 64 ->
  let a := Cet.dummyStackAddr stackVar in
  a mod 0x1000 = 0 /\ 0 <= a /\ a + Cet.SHADOW_STACK_SIZE < stackVar - 0x1000.
Proof.
  unfold Cet.dummyStackAddr, Cet.SHADOW_STACK_SIZE. intros Hs.
  assert (Z.land stackVar (u64 (Z.lnot 4095)) = stackVar - stackVar mod 4096) as ->.
  { change (u64 (Z.lnot 4095)) with (Z.ldiff (Z.ones 64) (Z.ones 12)).
    transitivity (Z.ldiff stackVar (Z.ones 12)).
    - apply Z.bits_inj'. intros i Hi. rewrite Z.land_spec, !Z.ldiff_spec.
      destruct (Z.ltb_spec i 64).
      + by rewrite (Z.ones_spec_low 64) by lia.
      + assert (Z.testbit stackVar i = false) as ->; [|done].
        assert (2 ^ 64 <= 2 ^ i) by (apply Z.pow_le_mono_r; lia).
        rewrite Z.testbit_eqb by lia. by rewrite Z.div_small by lia.
    - rewrite Z.ldiff_ones_r, Z.shiftl_mul_pow2, Z.shiftr_div_pow2 by lia.
      change (2 ^ 12) with 4096. zdiv. }
  rewrite (sub64_small (_ - _)) by zdiv. rewrite sub64_small by zdiv. cbn zeta. split_and!; zdiv.
Qed.

(** ** The coverage tool finds its variable *)
Module ShmemProofs.
Import Shmem.

Definition text_ok (t : list Z) : Prop := Forall (fun c => 0 < c < 128) t.
(** The environment block: terminated strings, then an empty one. *)
Definition strings (strs : list (list Z)) : list Z := concat (map (fun t => t ++ [0]) strs).
Definition block (strs : list (list Z)) : list Z := strings strs ++ [0].

Lemma swrap8_small c : 0 <= c < 128 -> swrap 8 c = c.
Proof. intros. unfold swrap. change (2 ^ (8 - 1)) with 128. change (2 ^ 8) with 256. zdiv. Qed.

(** [strncmp] with the length of a pattern tells whether it is a prefix. *)
Lemma strncmp_prefix pat t rest :
  text_ok pat -> text_ok t ->
  exists r, strncmp (t ++ 0 :: rest) (pat ++ [0]) (Z.of_nat (length pat)) = Ok r /\
    (r = 0 <-> take (length pat) t = pat).
Proof.
  intros Hp. revert t. induction Hp as [|b pat Hb Hp IH]; intros t Ht.
  { unfold strncmp. exists 0. split; [|done]. destruct Ht as [|a t Ha Ht]; cbn [app strncmp_loop length].
    - done.
    - rewrite (proj2 (Z.eqb_neq a 0)) by lia. cbn [deref mbind res_bind].
      by rewrite (proj2 (Z.eqb_neq a 0)) by lia. }
  destruct Ht as [|a t Ha Ht]; unfold strncmp; cbn [app strncmp_loop].
  - change (0 =? 0) with true. cbn [mbind res_bind deref].
    rewrite (proj2 (Z.eqb_neq (Z.of_nat (length (b :: pat))) 0)) by (cbn; lia).
    rewrite !swrap8_small by lia. rewrite (proj2 (Z.ltb_lt 0 b)) by lia. by exists (-1).
  - rewrite (proj2 (Z.eqb_neq a 0)) by lia. cbn [deref mbind res_bind].
    rewrite (proj2 (Z.eqb_neq (Z.of_nat (length (b :: pat))) 0)) by (cbn; lia). cbn [negb tail].
    rewrite andb_true_r. destruct (Z.eqb_spec a b) as [<-|Hne].
    + destruct (IH t Ht) as (r&E&Hr). exists r.
      replace (Z.of_nat (length (a :: pat)) - 1) with (Z.of_nat (length pat)) by (cbn; lia).
      split; [exact E|]. rewrite Hr. cbn. split; [by intros ->|by intros [= ->]].
    + cbn [deref mbind res_bind].
      rewrite (proj2 (Z.eqb_neq (Z.of_nat (length (b :: pat))) 0)) by (cbn; lia).
      rewrite !swrap8_small by lia. eexists. split; [reflexivity|].
      destruct (Z.ltb_spec a b), (Z.ltb_spec b a); try lia; (split; [done|]); cbn; congruence.
Qed.

Lemma skip_string_text t rest : text_ok t -> skip_string (t ++ 0 :: rest) = Ok rest.
Proof.
  induction 1 as [|c t Hc _ IH]; cbn; [done|]. by rewrite (proj2 (Z.eqb_neq c 0)) by lia.
Qed.

Lemma digits_grow ds w :
  Forall is_dec ds -> 0 <= w -> w <= foldl (fun a c => 10 * a + (c - 48)) w ds.
Proof.
  intros Hd. revert w. induction Hd as [|d ds Hdd _ IH]; intros w Hw; cbn; [lia|].
  unfold is_dec in Hdd. specialize (IH (10 * w + (d - 48)) ltac:(lia)). lia.
Qed.

Lemma strtol_loop_digits ds rest v :
  Forall is_dec ds -> 0 <= v -> foldl (fun a c => 10 * a + (c - 48)) v ds < 2 ^ 63 ->
  strtol_loop (ds ++ 0 :: rest) v = Ok (foldl (fun a c => 10 * a + (c - 48)) v ds).
Proof.
  intros Hd. revert v. induction Hd as [|c ds Hc Hd IH]; intros v Hv Hlt;
    cbn [app strtol_loop foldl] in *; [done|].
  unfold is_dec in Hc. pose proof (digits_grow ds (10 * v + (c - 48)) Hd ltac:(lia)).
  rewrite (proj2 (Z.eqb_neq c 0)) by lia. unfold digit_test. rewrite swrap8_small by lia.
  rewrite (proj2 (Z.leb_le 48 c)) by lia. cbn [negb andb orb].
  unfold long_ok. rewrite !(proj2 (Z.leb_le _ _)), !(proj2 (Z.ltb_lt _ _)) by lia. cbn [andb].
  rewrite (Z.mul_comm v). by apply IH; [lia|].
Qed.

Definition name : list Z := chars "__AFL_SHM_ID".
Definition is_shm (t : list Z) : Prop := take 12 t = name.

(** Strings that are not the variable are skipped. *)
Lemma map_shmem_skip shmat others rest fuel :
  Forall (fun t => text_ok t /\ t <> [] /\ ~ is_shm t) others ->
  (length others <= fuel)%nat ->
  map_shmem_loop shmat fuel (strings others ++ rest) =
  map_shmem_loop shmat (fuel - length others) rest.
Proof.
  intros Ho. revert fuel. induction Ho as [|t others (Ht&Hne&Hn) _ IH]; intros fuel Hf.
  { cbn. by rewrite Nat.sub_0_r. }
  change (strings (t :: others)) with ((t ++ [0]) ++ strings others).
  cbn [length] in *. destruct fuel as [|fuel]; [lia|]. cbn [map_shmem_loop].
  rewrite <- !app_assoc. cbn [app].
  destruct (strncmp_prefix name t (strings others ++ rest)) as (r&E&Hr);
    [repeat constructor|done|].
  change (Z.of_nat (length name)) with 12 in E. change (length name) with 12%nat in Hr.
  unfold name in E. rewrite E. destruct t as [|c t]; [done|]. inversion Ht; subst.
  cbn [deref app mbind res_bind]. rewrite (proj2 (Z.eqb_neq c 0)) by lia.
  rewrite (proj2 (Z.eqb_neq r 0)) by (intros ->; by apply Hn, Hr).
  change (c :: t ++ 0 :: strings others ++ rest) with ((c :: t) ++ 0 :: strings others ++ rest).
  rewrite (skip_string_text (c :: t)) by done. cbn [mbind res_bind]. rewrite IH by lia. done.
Qed.

(** The coverage tool walks the environment block and attaches the shared
    memory segment whose decimal number follows the first variable named
    [__AFL_SHM_ID], and marks its first word; it ends the process with status -1 when the segment cannot
    be attached, and with status -2 when there is no such variable. *)
Theorem map_shmem_finds_variable (shmat : Z -> Z) (others : list (list Z)) :
  Forall (fun t => text_ok t /\ t <> [] /\ ~ is_shm t) others ->
  (exists out, map_shmem shmat (block others) = Ok (Exited (-2) out)) /\
  forall ds strs, Forall is_dec ds -> dec_value ds < 2 ^ 31 ->
    exists out, map_shmem shmat (block (others ++ (name ++ 61 :: ds) :: strs)) =
      Ok (if shmat (dec_value ds) =? -1 then Exited (-1) out
          else Mapped (dec_value ds) (shmat (dec_value ds), 0xdeadbeef) out).
Proof.
  intros Ho.
  assert (forall rest, (length others <= length (strings others ++ rest))%nat)
    as Hlen.
  { intros rest. rewrite length_app. clear -Ho. unfold strings.
    induction Ho as [|t others _ _ IH]; cbn; [lia|].
    rewrite !length_app in *. cbn. lia. }
  split.
  - unfold map_shmem, block. rewrite map_shmem_skip by (done || pose proof (Hlen [0]); lia).
    pose proof (Hlen [0]). rewrite Nat.sub_succ_l by done. cbn [map_shmem_loop deref mbind res_bind].
    by eexists.
  - intros ds strs Hd Hv. unfold map_shmem, block.
    set (tail_ := strings strs ++ [0]).
    assert (strings (others ++ (name ++ 61 :: ds) :: strs) ++ [0] =
            strings others ++ (name ++ 61 :: ds) ++ 0 :: tail_) as ->.
    { unfold strings, tail_. rewrite map_app, concat_app. cbn [map concat].
      by rewrite <- !app_assoc. }
    set (env := (name ++ 61 :: ds) ++ 0 :: tail_).
    rewrite map_shmem_skip by (done || pose proof (Hlen env); lia).
    rewrite Nat.sub_succ_l by apply Hlen. cbn [map_shmem_loop].
    assert (text_ok (name ++ 61 :: ds)) as Ht.
    { apply Forall_app; split; [repeat constructor|]. constructor; [lia|].
      eapply Forall_impl; [exact Hd|]. unfold is_dec. intros. lia. }
    destruct (strncmp_prefix name (name ++ 61 :: ds) tail_) as (r&E&Hr); [repeat constructor|done|].
    change (Z.of_nat (length name)) with 12 in E. unfold name in E at 2. fold env in E. rewrite E.
    rewrite (proj2 Hr) by by rewrite take_app_length. cbn [mbind res_bind deref env name app chars].
    change (drop 13 env) with (ds ++ 0 :: tail_). unfold strtol.
    rewrite strtol_loop_digits by (done || unfold dec_value in Hv; lia). cbn [mbind res_bind].
    change (foldl _ 0 ds) with (dec_value ds).
    assert (0 <= dec_value ds) by (apply (digits_grow ds 0 Hd); lia).
    replace (swrap 32 (dec_value ds)) with (dec_value ds)
      by (unfold swrap; change (2 ^ (32 - 1)) with (2 ^ 31); rewrite Z.mod_small; lia).
    destruct (shmat (dec_value ds) =? -1); eexists; reflexivity.
Qed.

Lemma map_shmem_finds_variable_witness :
  (exists out, map_shmem (fun _ => 0x50000000) (block [chars "HOME=/"]) = Ok (Exited (-2) out)) /\
  forall ds strs, Forall is_dec ds -> dec_value ds < 2 ^ 31 ->
    exists out, map_shmem (fun _ => 0x50000000) (block ([chars "HOME=/"] ++ (name ++ 61 :: ds) :: strs)) =
      Ok (if 0x50000000 =? -1 then Exited (-1) out else Mapped (dec_value ds) (0x50000000, 0xdeadbeef) out).
Proof.
  apply (map_shmem_finds_variable (fun _ => 0x50000000) [chars "HOME=/"]).
  constructor; [|constructor]. split; [repeat constructor|]. split; [discriminate|].
  intros H. vm_compute in H. discriminate.
Defined.

(** [strtol] does not stop at the first character that is not a digit: its
    condition holds of every character. *)
Lemma strtol_reads_past_digits : strtol (chars "12x" ++ [0]) = Ok (12 * 10 + (120 - 48)).
Proof. reflexivity. Qed.
Lemma digit_test_always c : digit_test c = true.
Proof. unfold digit_test. destruct (Z.leb_spec 48 (swrap 8 c)); [done|]. apply Z.leb_le. lia. Qed.

(** The first environment string is skipped: a block whose only variable is the
    one looked for ends the process. *)
Lemma find_env_skips_first shmat :
  exists out, egalito_allocate_afl_shm shmat (block [chars "__AFL_SHM_ID=7"]) = Ok (Exited (-2) out, None).
Proof. eexists. reflexivity. Qed.
End ShmemProofs.
