(* ===== verification/ChunkList.v ===== *)
(** * Lists of chunks: src/chunk/chunklist.h and src/util/iter.h

    The children of a chunk are kept in three ways: as a vector (iterable), as
    a map from addresses (spatial) and as a map from names (named); the two maps
    are built on demand and then kept up to date.  A chunk is a pointer; what
    the list asks of it (its address, its range, its name, whether it has the
    element type) is the interface [ChunkView], since it depends on the rest of
    the chunk hierarchy at the time of the call. *)

From S2P Require Import Prelude Range.

(** ** Iterators *)
Module Iter.

Section iter.
Context {A : Type}.

(** [STLIterator]: a position in a container. *)
Record STLIterator := mkIterator { it : Z }.
Definition get (container : list A) (i : STLIterator) : res A := load container (it i).
Definition increment (i : STLIterator) : STLIterator := mkIterator (it i + 1).
Definition equals (i other : STLIterator) : bool := it i =? it other.

(** [STLIteratorGenerator] and [Iterable]. *)
Definition begin_ (container : list A) : STLIterator := mkIterator 0.
Definition end_ (container : list A) : STLIterator := mkIterator (Z.of_nat (length container)).

(** [for(auto x : iterable) ...]: the elements visited. *)
Fixpoint for_each (fuel : nat) (container : list A) (i : STLIterator) : res (list A) :=
  match fuel with
  | O => Err OutOfFuel
  | S fuel =>
    if equals i (end_ container) then Ok []
    else x ← get container i; rest ← for_each fuel container (increment i); Ok (x :: rest)
  end.
Definition visit (container : list A) : res (list A) :=
  for_each (S (length container)) container (begin_ container).

Lemma for_each_suffix pre rest fuel :
  (length rest < fuel)%nat ->
  for_each fuel (pre ++ rest) (mkIterator (Z.of_nat (length pre))) = Ok rest.
Proof.
  revert pre fuel. induction rest as [|x rest IH]; intros pre fuel Hf;
    (destruct fuel as [|fuel]; [lia|]); cbn [for_each]; unfold equals, end_; cbn [it];
    rewrite length_app.
  - cbn. by rewrite (proj2 (Z.eqb_eq _ _)) by lia.
  - cbn [length] in *. rewrite (proj2 (Z.eqb_neq _ _)) by lia.
    unfold get. cbn [it]. rewrite load_app. cbn [mbind res_bind]. unfold increment. cbn [it].
    specialize (IH (pre ++ [x]) fuel). rewrite length_app, <- app_assoc in IH. cbn in IH.
    replace (Z.of_nat (length pre) + 1) with (Z.of_nat (length pre + 1)) by lia.
    by rewrite IH by lia.
Qed.

(** A loop over an iterable visits every element once, in order. *)
Lemma visit_all container : visit container = Ok container.
Proof. apply (for_each_suffix [] container). lia. Qed.
End iter.

End Iter.

(** ** std::map with ordered keys *)
Module OrderedMap.
Section ordered_map.
Context {V : Type}.

Fixpoint insert (k : Z) (v : V) (m : list (Z * V)) : list (Z * V) :=
  match m with
  | [] => [(k, v)]
  | (k', v') :: m' =>
    if k <? k' then (k, v) :: m else if k =? k' then (k, v) :: m' else (k', v') :: insert k v m'
  end.
Fixpoint erase (k : Z) (m : list (Z * V)) : list (Z * V) :=
  match m with
  | [] => []
  | (k', v') :: m' => if k =? k' then m' else (k', v') :: erase k m'
  end.
Fixpoint find (k : Z) (m : list (Z * V)) : option V :=
  match m with
  | [] => None
  | (k', v') :: m' => if k =? k' then Some v' else find k m'
  end.
(** The entries before and from [upper_bound(k)] on. *)
Fixpoint upper_bound (k : Z) (m : list (Z * V)) : list (Z * V) * list (Z * V) :=
  match m with
  | [] => ([], [])
  | (k', v') :: m' =>
    if k <? k' then ([], m)
    else let '(before, after) := upper_bound k m' in ((k', v') :: before, after)
  end.

(** Keys increase. *)
Definition sorted (m : list (Z * V)) : Prop := StronglySorted (fun a b => a.1 < b.1) m.

Lemma insert_elem k v m e :
  sorted m -> e ∈ insert k v m <-> e = (k, v) \/ (e ∈ m /\ e.1 <> k).
Proof.
  induction 1 as [|[k' v'] m Hs IH Hf]; cbn; [set_solver|].
  assert (forall e, e ∈ m -> k' < e.1) as Hlt by (by apply Forall_forall).
  destruct (Z.ltb_spec k k').
  - rewrite !elem_of_cons. split; [|naive_solver]. intros [->|[->|He]]; [by left|right; split; [by left|cbn; lia]|].
    right. specialize (Hlt _ He). split; [by right|lia].
  - destruct (Z.eqb_spec k k') as [->|].
    + rewrite !elem_of_cons. split; [intros [->|He]; [by left|]|].
      * right. specialize (Hlt _ He). split; [by right|lia].
      * intros [->|[[->|He] Hne]]; [by left|done|by right].
    + rewrite !elem_of_cons, IH. split; [|naive_solver].
      intros [->|[->|[He Hne]]]; [right; cbn; split; [by left|lia]|by left|naive_solver].
Qed.

Lemma insert_sorted_map k v m : sorted m -> sorted (insert k v m).
Proof.
  induction 1 as [|[k' v'] m Hs IH Hf]; cbn; [by repeat constructor|].
  assert (forall e, e ∈ m -> k' < e.1) as Hlt by (by apply Forall_forall).
  destruct (Z.ltb_spec k k').
  - constructor; [by constructor|]. constructor; [done|]. apply Forall_forall.
    intros e He. specialize (Hlt _ He). cbn. lia.
  - destruct (Z.eqb_spec k k') as [->|]; [by constructor|]. constructor; [done|].
    apply Forall_forall. intros e He%insert_elem; [|done]. destruct He as [->|[He _]]; cbn; [lia|].
    by apply Hlt.
Qed.

Lemma erase_elem k m e : sorted m -> e ∈ erase k m <-> e ∈ m /\ e.1 <> k.
Proof.
  induction 1 as [|[k' v'] m Hs IH Hf]; cbn; [set_solver|].
  assert (forall e, e ∈ m -> k' < e.1) as Hlt by (by apply Forall_forall).
  destruct (Z.eqb_spec k k') as [->|].
  - rewrite elem_of_cons. split; [intros He; specialize (Hlt _ He); split; [by right|lia]|].
    intros [[->|He] Hne]; done.
  - rewrite !elem_of_cons, IH. split; [|naive_solver].
    intros [->|[He Hne]]; [split; [by left|cbn; lia]|naive_solver].
Qed.

Lemma erase_sorted k m : sorted m -> sorted (erase k m).
Proof.
  induction 1 as [|[k' v'] m Hs IH Hf]; cbn; [constructor|].
  destruct (k =? k'); [done|]. constructor; [done|]. apply Forall_forall.
  intros e [He _]%erase_elem; [|done]. by eapply Forall_forall in Hf.
Qed.

Lemma find_elem k m v : sorted m -> find k m = Some v <-> (k, v) ∈ m.
Proof.
  induction 1 as [|[k' v'] m Hs IH Hf]; cbn; [set_solver|].
  assert (forall e, e ∈ m -> k' < e.1) as Hlt by (by apply Forall_forall).
  rewrite elem_of_cons. destruct (Z.eqb_spec k k') as [->|Hne].
  - split; [intros [= ->]; by left|]. intros [[= ->]|He]; [done|]. specialize (Hlt _ He). cbn in Hlt. lia.
  - rewrite IH. split; [by right|]. intros [[= -> ->]|He]; done.
Qed.

Lemma upper_bound_split k m before after :
  sorted m -> upper_bound k m = (before, after) ->
  m = before ++ after /\ Forall (fun e => e.1 <= k) before /\ Forall (fun e => k < e.1) after.
Proof.
  intros Hs. revert before after.
  induction Hs as [|[k' v'] m Hs IH Hf]; cbn; intros before after E; [by simplify_eq|].
  destruct (Z.ltb_spec k k').
  - simplify_eq. split_and!; [done|constructor|]. constructor; [done|].
    eapply Forall_impl; [exact Hf|]. cbn. lia.
  - destruct (upper_bound k m) as [b a]. simplify_eq.
    destruct (IH b after eq_refl) as (->&?&?). split_and!; [done|by constructor|done].
Qed.
End ordered_map.
End OrderedMap.

(** ** What a list asks of a chunk *)

(** A pointer to a chunk; the null pointer is [None] of an option. *)
Abbreviation ptr := Z.

Class ChunkView := {
  v_address : ptr -> res Z;      (* getAddress() *)
  v_range : ptr -> res Range;    (* getRange() *)
  v_name : ptr -> string;        (* getName() *)
  v_cast : ptr -> bool           (* dynamic_cast<ChildType *> succeeds *)
}.

(** ** The vector of children *)
Module IterableChunkList.

Abbreviation childList := (list ptr).

Definition add (l : childList) (child : ptr) : childList := l ++ [child].

Definition npos : Z := u64 (-1).
Fixpoint index_loop (l : childList) (child : ptr) (i : Z) : Z :=
  match l with
  | [] => npos
  | c :: l => if child =? c then i else index_loop l child (i + 1)
  end.
Definition indexOf (l : childList) (child : ptr) : Z := index_loop l child 0.

(** [childList.erase(begin + i)] *)
Definition erase_at (l : childList) (i : nat) : childList := take i l ++ drop (S i) l.
Definition remove (l : childList) (child : ptr) : childList :=
  let i := indexOf l child in
  if i =? npos then l else erase_at l (Z.to_nat i).

(** [pop_back] of an empty vector is undefined. *)
Definition removeLast (l : childList) : res childList :=
  match l with [] => Err Undefined | _ => Ok (take (pred (length l)) l) end.

Definition get (l : childList) (index : Z) : res ptr := load l index.
Definition getLast (l : childList) : option ptr := last l.
Definition insertAt (l : childList) (index : Z) (child : ptr) : res childList :=
  if (index <? 0) || (Z.of_nat (length l) <? index) then Err Undefined
  else Ok (take (Z.to_nat index) l ++ child :: drop (Z.to_nat index) l).
Definition getCount (l : childList) : Z := Z.of_nat (length l).

End IterableChunkList.

(** ** The map from addresses *)
Module SpatialChunkList.

Abbreviation spaceMap := (list (Z * ptr)).

Section view.
Context (V : ChunkView).

Definition add (m : spaceMap) (child : ptr) : res spaceMap :=
  a ← v_address child; Ok (OrderedMap.insert a child m).
Definition remove (m : spaceMap) (child : ptr) : res spaceMap :=
  a ← v_address child; Ok (OrderedMap.erase a m).

Definition find (m : spaceMap) (address : Z) : option ptr := OrderedMap.find address m.

Definition findContaining (m : spaceMap) (address : Z) : res (option ptr) :=
  let '(before, _) := OrderedMap.upper_bound address m in
  match last before with
  | None => Ok None
  | Some (_, c) =>
    r ← v_range c; Ok (if Range.contains_point r address then Some c else None)
  end.

(** The loop looks at the five entries before the upper bound at most. *)
Fixpoint containing_loop (i : nat) (before : list (Z * ptr)) (address : Z) : res (list ptr) :=
  match i, before with
  | S i, (_, c) :: before =>
    r ← v_range c;
    rest ← containing_loop i before address;
    Ok (if Range.contains_point r address then c :: rest else rest)
  | _, _ => Ok []
  end.
Definition findAllContaining (m : spaceMap) (address : Z) : res (list ptr) :=
  let '(before, _) := OrderedMap.upper_bound address m in
  containing_loop 5 (reverse before) address.

Fixpoint within_loop (after : list (Z * ptr)) (range : Range) : res (list ptr) :=
  match after with
  | [] => Ok []
  | (_, chunk) :: after =>
    r ← v_range chunk;
    if Range.contains_range range r then
      rest ← within_loop after range; Ok (chunk :: rest)
    else Ok []
  end.
Definition findAllWithin (m : spaceMap) (range : Range) : res (list ptr) :=
  let '(_, after) := OrderedMap.upper_bound (Range.getStart range) m in
  within_loop after range.
End view.

End SpatialChunkList.

(** ** The map from names *)
Module NamedChunkList.

Abbreviation nameMap := (gmap string ptr).
Section view.
Context (V : ChunkView).
Definition add (m : nameMap) (child : ptr) : nameMap := <[v_name child := child]> m.
Definition remove (m : nameMap) (child : ptr) : nameMap := delete (v_name child) m.
Definition find (m : nameMap) (name : string) : option ptr := m !! name.
End view.

End NamedChunkList.

(** ** The list with its three aspects *)
Record ChunkListImpl := mkChunkList {
  iterable : IterableChunkList.childList;
  spatial : option SpatialChunkList.spaceMap;
  named : option NamedChunkList.nameMap
}.

Module ChunkList.
Section view.
Context (V : ChunkView).

Definition empty : ChunkListImpl := mkChunkList [] None None.

(** [if(spatial) spatial->op(child)], and the same for [named]. *)
Definition on_spatial (op : SpatialChunkList.spaceMap -> res SpatialChunkList.spaceMap)
    (s : option SpatialChunkList.spaceMap) : res (option SpatialChunkList.spaceMap) :=
  match s with None => Ok None | Some m => m ← op m; Ok (Some m) end.

Definition add (l : ChunkListImpl) (child : ptr) : res ChunkListImpl :=
  s ← on_spatial (fun m => SpatialChunkList.add V m child) (spatial l);
  Ok (mkChunkList (IterableChunkList.add (iterable l) child) s
        ((fun m => NamedChunkList.add V m child) <$> named l)).
Definition remove (l : ChunkListImpl) (child : ptr) : res ChunkListImpl :=
  s ← on_spatial (fun m => SpatialChunkList.remove V m child) (spatial l);
  Ok (mkChunkList (IterableChunkList.remove (iterable l) child) s
        ((fun m => NamedChunkList.remove V m child) <$> named l)).
Definition removeLast (l : ChunkListImpl) : res ChunkListImpl :=
  match IterableChunkList.getLast (iterable l) with
  | None => Ok l
  | Some last =>
    i ← IterableChunkList.removeLast (iterable l);
    s ← on_spatial (fun m => SpatialChunkList.remove V m last) (spatial l);
    Ok (mkChunkList i s ((fun m => NamedChunkList.remove V m last) <$> named l))
  end.

Fixpoint add_all (m : SpatialChunkList.spaceMap) (l : list ptr) : res SpatialChunkList.spaceMap :=
  match l with [] => Ok m | c :: l => m ← SpatialChunkList.add V m c; add_all m l end.
Definition createSpatial (l : ChunkListImpl) : res ChunkListImpl :=
  m ← add_all [] (iterable l); Ok (mkChunkList (iterable l) (Some m) (named l)).
Definition createNamed (l : ChunkListImpl) : ChunkListImpl :=
  mkChunkList (iterable l) (spatial l) (Some (foldl (NamedChunkList.add V) ∅ (iterable l))).
Definition clearSpatial (l : ChunkListImpl) : ChunkListImpl :=
  mkChunkList (iterable l) None (named l).
Definition clearNamed (l : ChunkListImpl) : ChunkListImpl :=
  mkChunkList (iterable l) (spatial l) None.

(** The maps, created when they are absent; the list is updated. *)
Definition getSpatial (l : ChunkListImpl) : res (SpatialChunkList.spaceMap * ChunkListImpl) :=
  l ← (match spatial l with Some _ => Ok l | None => createSpatial l end);
  match spatial l with Some m => Ok (m, l) | None => Err NullDeref end.
Definition getNamed (l : ChunkListImpl) : NamedChunkList.nameMap * ChunkListImpl :=
  let l := match named l with Some _ => l | None => createNamed l end in
  (default ∅ (named l), l).

(** The generic interface: a chunk of another type is ignored. *)
Definition genericAdd (l : ChunkListImpl) (child : ptr) : res ChunkListImpl :=
  if v_cast child then add l child else Ok l.
Definition genericRemove (l : ChunkListImpl) (child : ptr) : res ChunkListImpl :=
  if v_cast child then remove l child else Ok l.
Definition genericRemoveLast (l : ChunkListImpl) : res ChunkListImpl := removeLast l.
Definition genericGetLast (l : ChunkListImpl) : option ptr := IterableChunkList.getLast (iterable l).
Definition genericGetAt (l : ChunkListImpl) (index : Z) : res ptr :=
  IterableChunkList.get (iterable l) index.
Definition genericFind (l : ChunkListImpl) (name : string) : option ptr * ChunkListImpl :=
  let '(m, l) := getNamed l in (NamedChunkList.find m name, l).
Definition genericInsertAt (l : ChunkListImpl) (index : Z) (child : ptr) : res ChunkListImpl :=
  if v_cast child then
    i ← IterableChunkList.insertAt (iterable l) index child;
    Ok (mkChunkList i (spatial l) (named l))
  else Ok l.
Definition genericIndexOf (l : ChunkListImpl) (child : ptr) : Z :=
  if v_cast child then IterableChunkList.indexOf (iterable l) child else IterableChunkList.npos.
Definition genericGetSize (l : ChunkListImpl) : Z := IterableChunkList.getCount (iterable l).
Definition genericIterable (l : ChunkListImpl) : res (list ptr) := Iter.visit (iterable l).
End view.
End ChunkList.

(** ** Lemmas on the vector *)

Lemma index_loop_spec l child i :
  0 <= i -> i + Z.of_nat (length l) < IterableChunkList.npos ->
  let r := IterableChunkList.index_loop l child i in
  (child ∉ l /\ r = IterableChunkList.npos) \/
  (exists pre post, l = pre ++ child :: post /\ child ∉ pre /\ r = i + Z.of_nat (length pre)).
Proof.
  revert i. induction l as [|c l IH]; intros i Hi Hn; cbn [IterableChunkList.index_loop].
  { left. split; [apply not_elem_of_nil|done]. }
  destruct (Z.eqb_spec child c) as [->|Hne].
  { right. exists [], l. cbn. split_and!; [done|apply not_elem_of_nil|lia]. }
  cbn [length] in Hn. destruct (IH (i + 1)) as [[Hc Hr]|(pre&post&->&Hc&Hr)]; [lia|lia|..].
  - left. split; [set_solver|done].
  - right. exists (c :: pre), post. split_and!; [done|set_solver|]. cbn [length]. lia.
Qed.

(** A vector whose size is less than [npos], as every vector's is. *)
Definition size_ok (l : list ptr) : Prop := Z.of_nat (length l) < IterableChunkList.npos.

Lemma indexOf_spec l child :
  size_ok l ->
  (child ∉ l /\ IterableChunkList.indexOf l child = IterableChunkList.npos) \/
  (exists pre post, l = pre ++ child :: post /\ child ∉ pre /\
     IterableChunkList.indexOf l child = Z.of_nat (length pre)).
Proof. intros Hs. apply (index_loop_spec l child 0); [lia|exact Hs]. Qed.

(** [remove] takes out the first occurrence. *)
Lemma remove_spec l child :
  size_ok l ->
  (child ∉ l /\ IterableChunkList.remove l child = l) \/
  (exists pre post, l = pre ++ child :: post /\ child ∉ pre /\
     IterableChunkList.remove l child = pre ++ post).
Proof.
  intros Hs. unfold IterableChunkList.remove.
  destruct (indexOf_spec l child Hs) as [[Hc ->]|(pre&post&->&Hc&->)].
  - left. by rewrite Z.eqb_refl.
  - right. exists pre, post. split_and!; [done|done|].
    unfold size_ok in Hs. rewrite length_app in Hs. cbn in Hs.
    rewrite (proj2 (Z.eqb_neq _ _)) by lia. unfold IterableChunkList.erase_at. rewrite Nat2Z.id.
    rewrite take_app_length. f_equal.
    replace (S (length pre)) with (length pre + 1)%nat by lia. by rewrite drop_app_add.
Qed.

(** ** Coherence of the three aspects *)

Section coherence.
Context (V : ChunkView).

(** The chunks of a list have addresses and names of their own. *)
Record children_ok (cs : list ptr) : Prop := {
  ok_size : size_ok cs;
  ok_nodup : NoDup cs;
  ok_address : forall c, c ∈ cs -> exists a, v_address c = Ok a;
  ok_address_inj : forall c c' a, c ∈ cs -> c' ∈ cs -> v_address c = Ok a -> v_address c' = Ok a -> c = c';
  ok_name_inj : forall c c', c ∈ cs -> c' ∈ cs -> v_name c = v_name c' -> c = c' }.

(** The abstract contents: both maps index exactly the children. *)
Definition spatial_ok (cs : list ptr) (m : SpatialChunkList.spaceMap) : Prop :=
  OrderedMap.sorted m /\ forall a c, (a, c) ∈ m <-> c ∈ cs /\ v_address c = Ok a.
Definition named_ok (cs : list ptr) (m : NamedChunkList.nameMap) : Prop :=
  forall n c, m !! n = Some c <-> c ∈ cs /\ v_name c = n.
Definition coherent (l : ChunkListImpl) : Prop :=
  match spatial l with None => True | Some m => spatial_ok (iterable l) m end /\
  match named l with None => True | Some m => named_ok (iterable l) m end.

(** What the address map needs *)
Record addressed (cs : list ptr) : Prop := {
  ad_address : forall c, c ∈ cs -> exists a, v_address c = Ok a;
  ad_inj : forall c c' a, c ∈ cs -> c' ∈ cs -> v_address c = Ok a -> v_address c' = Ok a -> c = c' }.
Lemma children_addressed cs : children_ok cs -> addressed cs.
Proof. intros []. by split. Qed.
Lemma addressed_sub cs cs' : cs' ⊆ cs -> addressed cs -> addressed cs'.
Proof. intros Hin [H1 H2]. split; eauto. Qed.

Lemma children_ok_sub cs cs' : cs' `sublist_of` cs -> children_ok cs -> children_ok cs'.
Proof.
  intros Hsub [H1 H2 H3 H4 H5].
  assert (forall c, c ∈ cs' -> c ∈ cs) as Hin by (intros; eapply elem_of_submseteq;
    [done|by apply sublist_submseteq]).
  split; [|by eapply sublist_NoDup|eauto..].
  unfold size_ok in *. pose proof (sublist_length _ _ Hsub). lia.
Qed.

Lemma spatial_add_ok cs c m :
  addressed (cs ++ [c]) -> spatial_ok cs m ->
  exists m', SpatialChunkList.add V m c = Ok m' /\ spatial_ok (cs ++ [c]) m'.
Proof.
  intros Hok [Hs Hm]. destruct (ad_address _ Hok c) as [a Ha]; [set_solver|].
  unfold SpatialChunkList.add. rewrite Ha. cbn [mbind res_bind]. eexists; split; [done|].
  split; [by apply OrderedMap.insert_sorted_map|].
  intros a' c'. rewrite OrderedMap.insert_elem, Hm by done. rewrite elem_of_app, list_elem_of_singleton.
  split.
  - intros [[= -> ->]|[[Hc' Ha'] _]]; auto.
  - intros [[Hc'| ->] Ha']; [|left; rewrite Ha in Ha'; by injection Ha' as ->].
    destruct (decide (a' = a)) as [->|]; [|by right].
    left. f_equal. eapply (ad_inj _ Hok); [set_solver..|done|done].
Qed.

Lemma named_add_ok cs c m :
  children_ok (cs ++ [c]) -> named_ok cs m -> named_ok (cs ++ [c]) (NamedChunkList.add V m c).
Proof.
  intros Hok Hm n c'. unfold NamedChunkList.add. rewrite lookup_insert_Some, (Hm n c').
  rewrite elem_of_app, list_elem_of_singleton. split.
  - intros [[<- <-]|[Hne [Hc' Hn]]]; auto.
  - intros [[Hc'| ->] Hn]; [|by left].
    destruct (decide (v_name c = n)) as [E|]; [|by right].
    left. split; [done|]. eapply (ok_name_inj _ Hok); [set_solver..|congruence].
Qed.

(** Building a map from the whole list. *)
Lemma add_all_ok cs m cs' :
  addressed (cs ++ cs') -> spatial_ok cs m ->
  exists m', ChunkList.add_all V m cs' = Ok m' /\ spatial_ok (cs ++ cs') m'.
Proof.
  revert cs m. induction cs' as [|c cs' IH]; intros cs m Hok Hm; cbn [ChunkList.add_all].
  { rewrite app_nil_r. eauto. }
  destruct (spatial_add_ok cs c m) as (m'&->&Hm'); [|done|].
  { eapply addressed_sub; [|done]. set_solver. }
  cbn [mbind res_bind]. rewrite (cons_middle c cs cs'), app_assoc in *. by apply IH.
Qed.

Lemma names_ok cs m cs' :
  children_ok (cs ++ cs') -> named_ok cs m ->
  named_ok (cs ++ cs') (foldl (NamedChunkList.add V) m cs').
Proof.
  revert cs m. induction cs' as [|c cs' IH]; intros cs m Hok Hm; cbn [foldl].
  { by rewrite app_nil_r. }
  rewrite (cons_middle c cs cs'), app_assoc in *. apply IH; [done|]. apply named_add_ok; [|done].
  eapply children_ok_sub; [|done]. by apply sublist_inserts_r.
Qed.

Lemma spatial_ok_nil : spatial_ok [] [].
Proof. split; [constructor|set_solver]. Qed.
Lemma named_ok_nil : named_ok [] ∅.
Proof. intros n c. rewrite lookup_empty. set_solver. Qed.

Lemma getSpatial_addressed l :
  addressed (iterable l) -> match spatial l with None => True | Some m => spatial_ok (iterable l) m end ->
  exists m l', ChunkList.getSpatial V l = Ok (m, l') /\ spatial_ok (iterable l) m /\
    l' = mkChunkList (iterable l) (Some m) (named l).
Proof.
  intros Hok Hs. unfold ChunkList.getSpatial, ChunkList.createSpatial. destruct l as [cs [m|] n]; cbn in *; [eauto|].
  destruct (add_all_ok [] [] cs Hok spatial_ok_nil) as (m&->&Hm). cbn [mbind res_bind]. eauto.
Qed.

Lemma getSpatial_ok l :
  children_ok (iterable l) -> coherent l ->
  exists m l', ChunkList.getSpatial V l = Ok (m, l') /\ spatial_ok (iterable l) m /\
    l' = mkChunkList (iterable l) (Some m) (named l).
Proof. intros Hok [Hs _]. by apply getSpatial_addressed; [apply children_addressed|]. Qed.

Lemma getNamed_ok l :
  children_ok (iterable l) -> coherent l ->
  exists m, ChunkList.getNamed V l = (m, mkChunkList (iterable l) (spatial l) (Some m)) /\
    named_ok (iterable l) m.
Proof.
  intros Hok [Hs Hn]. unfold ChunkList.getNamed, ChunkList.createNamed. destruct l as [cs s [m|]]; cbn in *; [eauto|].
  eexists. split; [done|]. by apply (names_ok [] ∅ cs Hok named_ok_nil).
Qed.

(** ** The operations against plain lists *)

Inductive op :=
| OpAdd (child : ptr) | OpRemove (child : ptr) | OpRemoveLast | OpInsertAt (index : Z) (child : ptr)
| OpSpatial | OpNamed | OpClearSpatial | OpClearNamed | OpFind (name : string).

Definition run_op (l : ChunkListImpl) (o : op) : res ChunkListImpl :=
  match o with
  | OpAdd c => ChunkList.genericAdd V l c
  | OpRemove c => ChunkList.genericRemove V l c
  | OpRemoveLast => ChunkList.genericRemoveLast V l
  | OpInsertAt i c => ChunkList.genericInsertAt V l i c
  | OpSpatial => r ← ChunkList.getSpatial V l; Ok r.2
  | OpNamed => Ok (ChunkList.getNamed V l).2
  | OpClearSpatial => Ok (ChunkList.clearSpatial l)
  | OpClearNamed => Ok (ChunkList.clearNamed l)
  | OpFind n => Ok (ChunkList.genericFind V l n).2
  end.
Fixpoint run_ops (l : ChunkListImpl) (os : list op) : res ChunkListImpl :=
  match os with [] => Ok l | o :: os => l ← run_op l o; run_ops l os end.

(** The abstract contents: the children in order and, for each map that exists, the children that it knows. *)
Record Contents := mkContents { children : list ptr; by_address : option (list ptr); by_name : option (list ptr) }.

Definition without (c : ptr) (cs : list ptr) : list ptr := filter (fun x => x <> c) cs.
(** What the operations do: an addition reaches the maps that exist, an insertion at an index does not. *)
Definition spec_op (a : Contents) (o : op) : Contents :=
  match o with
  | OpAdd c => if v_cast c then mkContents (children a ++ [c]) ((fun l => l ++ [c]) <$> by_address a) ((fun l => l ++ [c]) <$> by_name a) else a
  | OpRemove c => if v_cast c then mkContents (without c (children a)) (without c <$> by_address a) (without c <$> by_name a) else a
  | OpRemoveLast =>
    match last (children a) with
    | None => a
    | Some c => mkContents (take (pred (length (children a))) (children a)) (without c <$> by_address a) (without c <$> by_name a)
    end
  | OpInsertAt i c => if v_cast c then
      mkContents (take (Z.to_nat i) (children a) ++ c :: drop (Z.to_nat i) (children a)) (by_address a) (by_name a) else a
  | OpSpatial => mkContents (children a) (Some (default (children a) (by_address a))) (by_name a)
  | OpNamed | OpFind _ => mkContents (children a) (by_address a) (Some (default (children a) (by_name a)))
  | OpClearSpatial => mkContents (children a) None (by_name a)
  | OpClearNamed => mkContents (children a) (by_address a) None
  end.
(** An added chunk is new to the list, a removed one is in it, and an index is at most the size. *)
Definition op_ok (a : Contents) (o : op) : Prop :=
  match o with
  | OpAdd c => v_cast c = true -> children_ok (children a ++ [c])
  | OpRemove c => v_cast c = true -> c ∈ children a
  | OpInsertAt i c => v_cast c = true -> 0 <= i <= Z.of_nat (length (children a)) /\
      children_ok (take (Z.to_nat i) (children a) ++ c :: drop (Z.to_nat i) (children a))
  | _ => True
  end.
Fixpoint ops_ok (a : Contents) (os : list op) : Prop :=
  match os with [] => True | o :: os => op_ok a o /\ ops_ok (spec_op a o) os end.

Definition map_ok {M} (ok : list ptr -> M -> Prop) (cs : list ptr) (known : option (list ptr)) (m : option M) : Prop :=
  match known, m with
  | None, None => True
  | Some l, Some m => l ⊆ cs /\ ok l m
  | _, _ => False
  end.
Record represents (a : Contents) (l : ChunkListImpl) : Prop := {
  rep_ok : children_ok (children a);
  rep_children : iterable l = children a;
  rep_spatial : map_ok spatial_ok (children a) (by_address a) (spatial l);
  rep_named : map_ok named_ok (children a) (by_name a) (named l) }.

(** *** The maps *)
Lemma elem_without c x cs : x ∈ without c cs <-> x ∈ cs /\ x <> c.
Proof. unfold without. rewrite list_elem_of_filter. tauto. Qed.
Lemma without_all c l : c ∉ l -> without c l = l.
Proof.
  unfold without. induction l as [|x l IH]; [done|]. intros Hc. rewrite filter_cons.
  destruct (decide (x <> c)); [f_equal; apply IH; set_solver|set_solver].
Qed.
Lemma map_ok_mono {M} (ok : list ptr -> M -> Prop) cs cs' k m : cs ⊆ cs' -> map_ok ok cs k m -> map_ok ok cs' k m.
Proof. intros Hsub. destruct k, m; cbn; try done. intros [? ?]. split; [set_solver|done]. Qed.
Lemma spatial_without cs l c m : addressed cs -> c ∈ cs -> l ⊆ cs -> spatial_ok l m ->
  exists m', SpatialChunkList.remove V m c = Ok m' /\ spatial_ok (without c l) m'.
Proof.
  intros Hok Hc Hl [Hs Hm]. destruct (ad_address _ Hok c Hc) as [a Ha].
  unfold SpatialChunkList.remove. rewrite Ha. cbn [mbind res_bind]. eexists; split; [done|].
  split; [by apply OrderedMap.erase_sorted|]. intros a' x. rewrite OrderedMap.erase_elem, Hm, elem_without by done. cbn.
  split; [intros [[Hx Hax] Hne]; split; [split; [done|]|done]; congruence|].
  intros [[Hx Hne] Hax]. split; [done|]. intros ->. apply Hne. eapply (ad_inj _ Hok); [by apply Hl|done|done|done].
Qed.
Lemma named_without cs l c m : children_ok cs -> c ∈ cs -> l ⊆ cs -> named_ok l m ->
  named_ok (without c l) (NamedChunkList.remove V m c).
Proof.
  intros Hok Hc Hl Hm n x. unfold NamedChunkList.remove. rewrite lookup_delete_Some, (Hm n x), elem_without.
  split; [intros [Hne [Hx Hn]]; split; [split; [done|]|done]; congruence|].
  intros [[Hx Hne] Hn]. split; [|done]. intros E. apply Hne. eapply (ok_name_inj _ Hok); [by apply Hl|done|congruence].
Qed.
Lemma named_snoc cs l c m : children_ok (cs ++ [c]) -> l ⊆ cs -> named_ok l m -> named_ok (l ++ [c]) (NamedChunkList.add V m c).
Proof.
  intros Hok Hl Hm n x. unfold NamedChunkList.add. rewrite lookup_insert_Some, (Hm n x), elem_of_app, list_elem_of_singleton. split.
  - intros [[<- <-]|[Hne [Hx Hn]]]; auto.
  - intros [[Hx| ->] Hn]; [|by left]. destruct (decide (v_name c = n)) as [E|]; [|by right].
    left. split; [done|]. eapply (ok_name_inj _ Hok); [set_solver..|congruence].
Qed.

(** A map that exists is changed as the list of what it knows. *)
Lemma on_spatial_map cs cs' k op f s : map_ok spatial_ok cs k s ->
  (forall l m, l ⊆ cs -> spatial_ok l m -> f l ⊆ cs' /\ exists m', op m = Ok m' /\ spatial_ok (f l) m') ->
  exists s', ChunkList.on_spatial op s = Ok s' /\ map_ok spatial_ok cs' (f <$> k) s'.
Proof.
  intros Hs Hop. destruct k as [l|], s as [m|]; try done; [|by exists None]. destruct Hs as [Hl Hm].
  destruct (Hop l m Hl Hm) as (Hf&m'&E&Hm'). cbn [ChunkList.on_spatial]. rewrite E. by exists (Some m').
Qed.
Lemma on_named_map cs cs' k (op : NamedChunkList.nameMap -> NamedChunkList.nameMap) f s : map_ok named_ok cs k s ->
  (forall l m, l ⊆ cs -> named_ok l m -> f l ⊆ cs' /\ named_ok (f l) (op m)) -> map_ok named_ok cs' (f <$> k) (op <$> s).
Proof. intros Hs Hop. destruct k as [l|], s as [m|]; try done. destruct Hs. by apply Hop. Qed.

(** *** The operations *)
Lemma add_refines a l c : represents a l -> op_ok a (OpAdd c) ->
  exists l', run_op l (OpAdd c) = Ok l' /\ represents (spec_op a (OpAdd c)) l'.
Proof.
  intros [Hok Hi Hs Hn] Ho. cbn [run_op spec_op]. unfold ChunkList.genericAdd, ChunkList.add. destruct (v_cast c) eqn:Hc; [|by exists l].
  specialize (Ho Hc). destruct (on_spatial_map _ (children a ++ [c]) _ (fun m => SpatialChunkList.add V m c) (fun l => l ++ [c]) _ Hs) as (s'&->&Hs').
  { intros k m Hk Hm. split; [set_solver|]. apply spatial_add_ok; [|done].
    eapply addressed_sub; [|by apply children_addressed]. set_solver. }
  cbn [mbind res_bind]. eexists. split; [done|]. split; cbn [children by_address by_name iterable spatial named]; [done|by rewrite Hi|done|].
  apply (on_named_map (children a) _ _ (fun m => NamedChunkList.add V m c) (fun l => l ++ [c])); [done|]. intros k m Hk Hm. split; [set_solver|by eapply named_snoc].
Qed.
(** [remove] and [removeLast] take one child out of the list and of both maps. *)
Lemma take_out a l c cs : represents a l -> c ∈ children a -> cs `sublist_of` children a -> cs ≡ₚ without c (children a) ->
  exists s', ChunkList.on_spatial (fun m => SpatialChunkList.remove V m c) (spatial l) = Ok s' /\
    represents (mkContents cs (without c <$> by_address a) (without c <$> by_name a))
      (mkChunkList cs s' ((fun m => NamedChunkList.remove V m c) <$> named l)).
Proof.
  intros [Hok Hi Hs Hn] Hc Hsub Hcs.
  assert (Hw : forall k, k ⊆ children a -> without c k ⊆ cs).
  { intros k Hk x [Hx Hne]%elem_without. rewrite Hcs. apply elem_without. split; [by apply Hk|done]. }
  destruct (on_spatial_map _ cs _ (fun m => SpatialChunkList.remove V m c) (without c) _ Hs) as (s'&->&Hs').
  { intros k m Hk Hm. split; [by apply Hw|]. by eapply spatial_without; [apply children_addressed| | |]. }
  exists s'. split; [done|]. split; [by eapply children_ok_sub|done|done|].
  apply (on_named_map (children a) _ _ (fun m => NamedChunkList.remove V m c) (without c)); [done|].
  intros k m Hk Hm. split; [by apply Hw|by eapply named_without].
Qed.
Lemma remove_refines a l c : represents a l -> op_ok a (OpRemove c) ->
  exists l', run_op l (OpRemove c) = Ok l' /\ represents (spec_op a (OpRemove c)) l'.
Proof.
  intros Hr Ho. cbn [run_op spec_op]. unfold ChunkList.genericRemove, ChunkList.remove. destruct (v_cast c) eqn:Hc; [|by exists l].
  specialize (Ho Hc). rewrite (rep_children _ _ Hr).
  destruct (remove_spec (children a) c) as [[? _]|(pre&post&E&Hpre&->)]; [apply Hr|done|].
  assert (without c (children a) = pre ++ post) as Ew.
  { pose proof (ok_nodup _ (rep_ok _ _ Hr)) as Hnd. rewrite E in *. apply NoDup_app in Hnd as (_&_&Hnd). apply NoDup_cons in Hnd as [Hpost _].
    unfold without. rewrite filter_app, filter_cons, decide_False by tauto. fold (without c pre) (without c post). by rewrite !without_all. }
  destruct (take_out a l c (pre ++ post) Hr Ho) as (s'&->&Hr'); [|by rewrite Ew|].
  { rewrite E. apply sublist_app; [done|]. by apply sublist_cons. }
  cbn [mbind res_bind]. rewrite Ew. by eexists.
Qed.
Lemma removeLast_refines a l : represents a l ->
  exists l', run_op l OpRemoveLast = Ok l' /\ represents (spec_op a OpRemoveLast) l'.
Proof.
  intros Hr. cbn [run_op spec_op]. unfold ChunkList.genericRemoveLast, ChunkList.removeLast. rewrite (rep_children _ _ Hr).
  unfold IterableChunkList.getLast. destruct (last (children a)) as [x|] eqn:E; [|by exists l].
  apply last_Some in E as [cs E].
  assert (ET : take (pred (length (children a))) (children a) = cs).
  { rewrite E, length_app. cbn. replace (pred _) with (length cs) by lia. apply take_app_length. }
  assert (IterableChunkList.removeLast (children a) = Ok cs) as ->.
  { unfold IterableChunkList.removeLast. rewrite ET, E. by destruct cs. }
  rewrite ET. pose proof (ok_nodup _ (rep_ok _ _ Hr)) as Hnd. rewrite E in Hnd. apply NoDup_app in Hnd as (_&Hd&_).
  destruct (take_out a l x cs Hr) as (s'&->&Hr'); [rewrite E; set_solver|rewrite E; by apply sublist_inserts_r| |].
  { rewrite E. unfold without. rewrite filter_app, filter_cons, decide_False by tauto. cbn. rewrite app_nil_r. fold (without x cs).
    rewrite without_all; [done|]. intros Hx. apply (Hd x Hx). set_solver. }
  cbn [mbind res_bind]. by eexists.
Qed.
Lemma insertAt_refines a l i c : represents a l -> op_ok a (OpInsertAt i c) ->
  exists l', run_op l (OpInsertAt i c) = Ok l' /\ represents (spec_op a (OpInsertAt i c)) l'.
Proof.
  intros [Hok Hi Hs Hn] Ho. cbn [run_op spec_op]. unfold ChunkList.genericInsertAt, IterableChunkList.insertAt.
  destruct (v_cast c) eqn:Hc; [|by exists l]. destruct (Ho Hc) as [Hindex Hok']. rewrite Hi.
  rewrite (proj2 (Z.ltb_ge _ _)), (proj2 (Z.ltb_ge _ _)) by lia. cbn [orb mbind res_bind]. eexists. split; [done|].
  assert (children a ⊆ take (Z.to_nat i) (children a) ++ c :: drop (Z.to_nat i) (children a)) as Hsub.
  { intros x Hx. rewrite <- (take_drop (Z.to_nat i) (children a)) in Hx. set_solver. }
  split; [done|done|by eapply map_ok_mono|by eapply map_ok_mono].
Qed.
Lemma maps_refine a l o : represents a l -> o ∈ [OpSpatial; OpNamed; OpClearSpatial; OpClearNamed] \/ (exists n, o = OpFind n) ->
  exists l', run_op l o = Ok l' /\ represents (spec_op a o) l'.
Proof.
  intros [Hok Hi Hs Hn] Ho.
  assert (Hname : represents (mkContents (children a) (by_address a) (Some (default (children a) (by_name a)))) (ChunkList.getNamed V l).2).
  { unfold ChunkList.getNamed, ChunkList.createNamed. destruct (by_name a) as [k|], (named l) as [m|] eqn:E; try done; cbn [snd].
    - split; [done|done|done|]. cbn. by rewrite E.
    - split; [done|done|done|]. cbn. split; [done|]. rewrite Hi. by apply (names_ok [] ∅ (children a) Hok named_ok_nil). }
  assert (Hspace : exists r, ChunkList.getSpatial V l = Ok r /\ represents (mkContents (children a) (Some (default (children a) (by_address a))) (by_name a)) r.2).
  { unfold ChunkList.getSpatial, ChunkList.createSpatial. destruct (by_address a) as [k|], (spatial l) as [m|] eqn:E; try done; cbn [mbind res_bind].
    - rewrite E. eexists. split; [done|]. split; [done|done| |done]. cbn. by rewrite E.
    - rewrite Hi. destruct (add_all_ok [] [] (children a) (children_addressed _ Hok) spatial_ok_nil) as (m&->&Hm). cbn [mbind res_bind spatial].
      eexists. split; [done|]. split; [done|done|by cbn|done]. }
  destruct Ho as [Ho|[n ->]]; [|by eexists].
  repeat (apply elem_of_cons in Ho as [->|Ho]); [..|by apply elem_of_nil in Ho]; cbn [run_op spec_op].
  - destruct Hspace as (r&->&Hr). by eexists.
  - by eexists.
  - eexists. split; [done|]. by split.
  - eexists. split; [done|]. by split.
Qed.

(** *** Coherent lists *)

(** Every map that exists knows every child. *)
Definition full (a : Contents) : Prop :=
  (forall k, by_address a = Some k -> children a ⊆ k) /\ (forall k, by_name a = Some k -> children a ⊆ k).
Definition inserts (o : op) : bool := match o with OpInsertAt _ _ => true | _ => false end.
Lemma full_op a o : NoDup (children a) -> full a -> inserts o = false -> full (spec_op a o).
Proof.
  assert (Hsnoc : forall (c : ptr) k cs, (forall l, k = Some l -> cs ⊆ l) -> forall l, ((fun l => l ++ [c]) <$> k) = Some l -> cs ++ [c] ⊆ l).
  { intros c k cs Hk l (l0&E&->)%fmap_Some. specialize (Hk l0 E). set_solver. }
  assert (Hwithout : forall (c : ptr) k cs cs', (forall x, x ∈ cs' -> x ∈ without c cs) -> (forall l, k = Some l -> cs ⊆ l) ->
    forall l, (without c <$> k) = Some l -> cs' ⊆ l).
  { intros c k cs cs' Hcs Hk l (l0&E&->)%fmap_Some x [Hx Hne]%Hcs%elem_without. apply elem_without. split; [by apply (Hk l0)|done]. }
  assert (Hdefault : forall k (cs : list ptr), (forall l, k = Some l -> cs ⊆ l) -> forall l, Some (default cs k) = Some l -> cs ⊆ l).
  { intros k cs Hk l [= <-]. destruct k; [by apply Hk|done]. }
  intros Hnd [H1 H2] Hi. destruct o; cbn [spec_op]; try done; try (split; cbn; by eauto).
  - destruct (v_cast child); [|done]. split; cbn; eauto.
  - destruct (v_cast child); [|done]. split; cbn; eapply Hwithout; eauto.
  - destruct (last (children a)) as [c|] eqn:E; [|done]. apply last_Some in E as [cs E].
    assert (Hcs : forall x, x ∈ take (pred (length (children a))) (children a) -> x ∈ without c (children a)).
    { rewrite E, length_app. cbn. replace (pred _) with (length cs) by lia. rewrite take_app_length. intros x Hx.
      apply elem_without. split; [set_solver|]. intros ->. rewrite E in Hnd. apply NoDup_app in Hnd as (_&Hd&_). apply (Hd c Hx). set_solver. }
    split; cbn; eapply Hwithout; eauto.
Qed.
Lemma full_coherent a l : represents a l -> full a -> coherent l.
Proof.
  intros [_ Hi Hs Hn] [H1 H2]. unfold coherent. rewrite Hi. split.
  - destruct (by_address a) as [k|], (spatial l) as [m|]; try done. destruct Hs as [Hk [Hso Hm]]. specialize (H1 k eq_refl).
    split; [done|]. intros x c. rewrite Hm. split; intros [? ?]; split; auto.
  - destruct (by_name a) as [k|], (named l) as [m|]; try done. destruct Hn as [Hk Hm]. specialize (H2 k eq_refl).
    intros x c. rewrite (Hm x c). split; intros [? ?]; split; auto.
Qed.
Lemma run_op_refines a l o : represents a l -> op_ok a o -> exists l', run_op l o = Ok l' /\ represents (spec_op a o) l'.
Proof.
  intros Hr Ho. destruct o; [by apply add_refines|by apply remove_refines|by apply removeLast_refines|by apply insertAt_refines|..].
  all: apply maps_refine; [done|]; first [left; set_solver|right; by eexists].
Qed.


(** The chunks of a list occupy disjoint non-empty ranges that start at their
    addresses. *)
Record ranges_ok (cs : list ptr) : Prop := {
  ok_range : forall c, c ∈ cs -> exists r, v_range c = Ok r /\ v_address c = Ok (_start r) /\
    Range.ok r /\ 0 < _size r;
  ok_disjoint : forall c c' r r' p, c ∈ cs -> c' ∈ cs -> v_range c = Ok r -> v_range c' = Ok r' ->
    Range.covers r p -> Range.covers r' p -> c = c' }.

Definition covered_by (c : ptr) (p : Z) : Prop := exists r, v_range c = Ok r /\ Range.covers r p.

(** An entry of the map is a child whose range starts at the key. *)
Lemma spatial_entry cs m a c :
  ranges_ok cs -> spatial_ok cs m -> (a, c) ∈ m ->
  c ∈ cs /\ exists r, v_range c = Ok r /\ _start r = a /\ Range.ok r /\ 0 < _size r.
Proof.
  intros Hr [_ Hm] Hin. apply Hm in Hin as [Hc Ha]. split; [done|].
  destruct (ok_range _ Hr c Hc) as (r&?&Ha'&?&?). exists r. split_and!; [done|congruence|done|done].
Qed.

(** Of two children, the one at the lower address ends before the other starts. *)
Lemma ends_before cs c c' r r' :
  ranges_ok cs -> c ∈ cs -> c' ∈ cs -> v_range c = Ok r -> v_range c' = Ok r' ->
  _start r < _start r' -> _start r + _size r <= _start r'.
Proof.
  intros Hr Hc Hc' Er Er' Hlt.
  destruct (ok_range _ Hr c' Hc') as (r1&E1&_&_&Hp). rewrite Er' in E1. injection E1 as <-.
  destruct (decide (_start r + _size r <= _start r')); [done|].
  assert (c = c') as <-.
  { eapply (ok_disjoint _ Hr c c' r r' (_start r')); try done; unfold Range.covers; lia. }
  rewrite Er in Er'. injection Er' as <-. lia.
Qed.

(** The child that covers an address is the last one that starts at it or before. *)
Lemma covering_is_last cs m p before after c :
  ranges_ok cs -> spatial_ok cs m -> OrderedMap.upper_bound p m = (before, after) ->
  c ∈ cs -> covered_by c p -> exists a, last before = Some (a, c).
Proof.
  intros Hr Hm E Hc (r&Er&Hcov). destruct (OrderedMap.upper_bound_split p m before after) as (->&Hb&Ha);
    [apply Hm|done|].
  destruct (ok_range _ Hr c Hc) as (r1&E1&Hadr&Hok&Hpos). rewrite Er in E1. injection E1 as <-.
  assert ((_start r, c) ∈ before ++ after) as Hin by (by apply Hm).
  assert (_start r <= p < _start r + _size r) as Hp by exact Hcov.
  apply elem_of_app in Hin as [Hin|Hin]; [|apply (proj1 (Forall_forall _ _) Ha) in Hin; cbn in Hin; lia].
  destruct before as [|[a' c'] before _] using rev_ind; [set_solver|].
  rewrite last_snoc. apply elem_of_app in Hin as [Hin|Hin%list_elem_of_singleton]; [|simplify_eq; eauto].
  destruct (spatial_entry cs _ a' c' Hr Hm) as (Hc'&r'&Er'&<-&_&_); [set_solver|].
  assert (_start r < _start r') as Hlt.
  { destruct Hm as [Hs _]. apply StronglySorted_app_1_l in Hs.
    apply StronglySorted_app_1_elem_of with (x1 := (_start r, c)) (x2 := (_start r', c')) in Hs;
      [done|done|set_solver]. }
  pose proof (ends_before cs c c' r r' Hr Hc Hc' Er Er' Hlt).
  apply Forall_app in Hb as [_ Hb]. apply Forall_inv in Hb. cbn in Hb. lia.
Qed.

Lemma findContaining_spec cs m p :
  ranges_ok cs -> spatial_ok cs m ->
  exists o, SpatialChunkList.findContaining V m p = Ok o /\
    forall c, o = Some c <-> c ∈ cs /\ covered_by c p.
Proof.
  intros Hr Hm. unfold SpatialChunkList.findContaining.
  destruct (OrderedMap.upper_bound p m) as [before after] eqn:E.
  pose proof (covering_is_last cs m p before after) as Hlast.
  destruct (last before) as [[a c0]|] eqn:El.
  - apply last_Some in El as [pre ->].
    destruct (OrderedMap.upper_bound_split p m _ after ltac:(apply Hm) E) as (->&_&_).
    destruct (spatial_entry cs _ a c0 Hr Hm) as (Hc0&r&Er&Hst&Hok&Hpos); [set_solver|].
    rewrite Er. cbn [mbind res_bind]. eexists. split; [done|]. intros c. split.
    + case_if; [|done]. intros [= <-]. split; [done|]. exists r. split; [done|].
      by apply Range.contains_point_spec.
    + intros [Hc Hcov]. destruct (Hlast c Hr Hm E Hc Hcov) as [a' [= -> ->]].
      destruct Hcov as (r'&Er'&Hcov). rewrite Er in Er'. injection Er' as <-.
      apply Range.contains_point_spec in Hcov; [|done]. by rewrite Hcov.
  - eexists. split; [done|]. intros c. split; [done|]. intros [Hc Hcov].
    by destruct (Hlast c Hr Hm E Hc Hcov) as [a' ?].
Qed.

(** The scan from the upper bound stops at the first child that ends outside. *)
Lemma within_loop_spec cs range after :
  Range.ok range -> ranges_ok cs ->
  StronglySorted (fun a b => a.1 < b.1) after ->
  (forall a c, (a, c) ∈ after -> c ∈ cs /\ (exists r, v_range c = Ok r /\ _start r = a) /\ _start range < a) ->
  exists found, SpatialChunkList.within_loop V after range = Ok found /\
    forall c, c ∈ found <-> c ∈ after.*2 /\ exists r, v_range c = Ok r /\ Range.contains_range range r = true.
Proof.
  intros Hrange Hr Hs. induction Hs as [|[a c0] after Hs IH Hf]; intros Hent; cbn [SpatialChunkList.within_loop].
  { exists []. split; [done|]. set_solver. }
  destruct (Hent a c0) as (Hc0&(r0&Er0&Hst0)&Hlt0); [left|]. rewrite Er0. cbn [mbind res_bind].
  destruct (ok_range _ Hr c0 Hc0) as (r0'&E0&_&Hok0&_). rewrite Er0 in E0. injection E0 as <-.
  destruct IH as (found&Ef&Hfound); [intros; apply Hent; by right|].
  destruct (Range.contains_range range r0) eqn:Hcon.
  - rewrite Ef. cbn [mbind res_bind]. eexists. split; [done|]. intros c. cbn. rewrite !elem_of_cons, Hfound.
    split; [|naive_solver]. intros [->|[? ?]]; [|naive_solver]. split; [by left|eauto].
  - exists []. split; [done|]. intros c. split; [set_solver|]. intros [Hin (r&Er&Hc)]. exfalso.
    cbn in Hin. apply elem_of_cons in Hin as [->|Hin]; [rewrite Er0 in Er; injection Er as <-; congruence|].
    apply list_elem_of_fmap in Hin as ([a' c']&->&Hin). cbn in Er.
    destruct (Hent a' c') as (Hc'&(r'&Er'&Hst')&_); [by right|]. rewrite Er in Er'. injection Er' as <-.
    destruct (ok_range _ Hr c' Hc') as (r'&E'&_&Hok'&Hpos'). rewrite Er in E'. injection E' as <-.
    apply (proj1 (Forall_forall _ _) Hf) in Hin. cbn in Hin.
    pose proof (ends_before cs c0 c' r0 r Hr Hc0 Hc' Er0 Er ltac:(lia)).
    apply (Range.contains_range_spec range r Hrange Hok') in Hc as [Hc1 Hc2].
    apply not_true_iff_false in Hcon. apply Hcon, Range.contains_range_spec; [done|done|]. lia.
Qed.

Lemma findAllWithin_spec cs m range :
  Range.ok range -> ranges_ok cs -> spatial_ok cs m ->
  exists found, SpatialChunkList.findAllWithin V m range = Ok found /\
    forall c, c ∈ found <-> c ∈ cs /\ exists r, v_range c = Ok r /\ _start range < _start r /\
      Range.contains_range range r = true.
Proof.
  intros Hrange Hr Hm. unfold SpatialChunkList.findAllWithin, Range.getStart.
  destruct (OrderedMap.upper_bound (_start range) m) as [before after] eqn:E.
  destruct (OrderedMap.upper_bound_split _ m before after ltac:(apply Hm) E) as (->&Hb&Ha).
  destruct (within_loop_spec cs range after Hrange Hr) as (found&->&Hfound).
  { destruct Hm as [Hs _]. by apply StronglySorted_app_1_r in Hs. }
  { intros a c Hin. destruct (spatial_entry cs _ a c Hr Hm) as (Hc&r&Er&Hst&_&_); [set_solver|].
    apply (proj1 (Forall_forall _ _) Ha) in Hin. eauto. }
  exists found. split; [done|]. intros c. rewrite Hfound. split.
  - intros [Hin (r&Er&Hc)]. apply list_elem_of_fmap in Hin as ([a c']&->&Hin). cbn in *.
    destruct (spatial_entry cs _ a c' Hr Hm) as (Hc'&r'&Er'&Hst&_&_); [set_solver|].
    rewrite Er in Er'. injection Er' as <-. apply (proj1 (Forall_forall _ _) Ha) in Hin. cbn in Hin.
    split; [done|]. exists r. split_and!; [done|lia|done].
  - intros [Hc (r&Er&Hlt&Hcon)]. split; [|eauto].
    destruct (ok_range _ Hr c Hc) as (r1&E1&Hadr&_&_). rewrite Er in E1. injection E1 as <-.
    assert ((_start r, c) ∈ before ++ after) as Hin by (by apply Hm).
    apply elem_of_app in Hin as [Hin|Hin];
      [apply (proj1 (Forall_forall _ _) Hb) in Hin; cbn in Hin; lia|].
    apply list_elem_of_fmap. by exists (_start r, c).
Qed.

(** *** Chunks that may overlap *)

(** Every chunk has a range that starts at its address. *)
Definition ranged (cs : list ptr) : Prop :=
  forall c, c ∈ cs -> exists r, v_range c = Ok r /\ v_address c = Ok (_start r) /\ Range.ok r.
(** The number of children that start after [lo], at [hi] at most *)
Definition starts (lo hi : Z) (c : ptr) : bool := match v_address c with Ok a => bool_decide (lo < a <= hi) | Err _ => false end.
Definition starting (cs : list ptr) (lo hi : Z) : nat := length (filter (fun c => starts lo hi c = true) cs).

Lemma starting_app cs cs' lo hi : starting (cs ++ cs') lo hi = (starting cs lo hi + starting cs' lo hi)%nat.
Proof. unfold starting. by rewrite filter_app, length_app. Qed.
Lemma starting_all cs lo hi : Forall (fun c => starts lo hi c = true) cs -> starting cs lo hi = length cs.
Proof. unfold starting. induction 1; [done|]. rewrite filter_cons_True by done. cbn. by f_equal. Qed.
Lemma starting_none cs lo hi : Forall (fun c => starts lo hi c = false) cs -> starting cs lo hi = 0%nat.
Proof. unfold starting. induction 1; [done|]. rewrite filter_cons_False by congruence. done. Qed.
Lemma spatial_perm cs m : NoDup cs -> addressed cs -> spatial_ok cs m -> m.*2 ≡ₚ cs.
Proof.
  intros Hnd Had [Hs Hm]. apply NoDup_Permutation; [|done|].
  - assert (Hsub : forall e, e ∈ m -> v_address e.2 = Ok e.1) by (intros [a c] He; by apply Hm in He as [_ ?]).
    clear Hm. induction Hs as [|[a c] m Hs IH Hf]; [constructor|]. cbn. constructor; [|apply IH; intros e He; apply Hsub; by right].
    intros ([a' c']&->&Hin)%list_elem_of_fmap. pose proof (Hsub (a, c') ltac:(left)) as E1. pose proof (Hsub (a', c') ltac:(by right)) as E2.
    cbn in E1, E2. apply (proj1 (Forall_forall _ _) Hf) in Hin. cbn in Hin. assert (a = a') by congruence. lia.
  - intros c. rewrite list_elem_of_fmap. split.
    + intros ([a c']&->&Hin). by apply Hm in Hin as [? _].
    + intros Hc. destruct (ad_address _ Had c Hc) as [a Ha]. exists (a, c). split; [done|]. by apply Hm.
Qed.
(** The entries between one of the map and the upper bound of [p] are the children that start there. *)
Lemma starting_between cs pre a c post after p : NoDup cs -> addressed cs -> spatial_ok cs ((pre ++ (a, c) :: post) ++ after) ->
  Forall (fun e => e.1 <= p) (pre ++ (a, c) :: post) -> Forall (fun e => p < e.1) after -> starting cs a p = length post.
Proof.
  intros Hnd Had Hm Hb Hf. pose proof (spatial_perm cs _ Hnd Had Hm) as HP.
  assert (Hkey : forall e, e ∈ (pre ++ (a, c) :: post) ++ after -> starts a p e.2 = bool_decide (a < e.1 <= p)).
  { intros [k x] He. destruct Hm as [_ Hm]. apply Hm in He as [_ Hx]. cbn. unfold starts. by rewrite Hx. }
  assert (Hsorted : Forall (fun e => e.1 < a) pre /\ Forall (fun e => a < e.1) post).
  { destruct Hm as [Hs _]. apply StronglySorted_app_1_l in Hs. split; apply Forall_forall; intros e He.
    - apply StronglySorted_app_1_elem_of with (x1 := e) (x2 := (a, c)) in Hs; [done|done|left].
    - apply StronglySorted_app_1_r in Hs. apply StronglySorted_inv in Hs as [_ Hs]. by apply (proj1 (Forall_forall _ _) Hs e). }
  destruct Hsorted as [Hpre Hpost]. apply Forall_app in Hb as [_ Hb]. apply Forall_cons in Hb as [_ Hb].
  assert (starting cs a p = starting (((pre ++ (a, c) :: post) ++ after).*2) a p) as ->.
  { unfold starting. by rewrite HP. }
  rewrite !fmap_app, fmap_cons, !starting_app.
  rewrite (starting_none pre.*2), (starting_none after.*2).
  - change ((a, c).2 :: post.*2) with ([c] ++ post.*2). rewrite starting_app, (starting_none [c]), starting_all, length_fmap.
    + lia.
    + apply Forall_fmap, Forall_forall. intros e He. cbn. rewrite Hkey by set_solver. apply bool_decide_eq_true_2.
      split; [by apply (proj1 (Forall_forall _ _) Hpost e)|by apply (proj1 (Forall_forall _ _) Hb e)].
    + apply Forall_singleton. change c with ((a, c).2). rewrite Hkey by set_solver. apply bool_decide_eq_false_2. cbn. lia.
  - apply Forall_fmap, Forall_forall. intros e He. cbn. rewrite Hkey by set_solver. apply bool_decide_eq_false_2.
    apply (proj1 (Forall_forall _ _) Hf) in He. lia.
  - apply Forall_fmap, Forall_forall. intros e He. cbn. rewrite Hkey by set_solver. apply bool_decide_eq_false_2.
    apply (proj1 (Forall_forall _ _) Hpre) in He. lia.
Qed.
Lemma containing_loop_spec n l p : (forall e, e ∈ l -> exists r, v_range e.2 = Ok r /\ Range.ok r) ->
  exists found, SpatialChunkList.containing_loop V n l p = Ok found /\ forall c, c ∈ found <-> c ∈ (take n l).*2 /\ covered_by c p.
Proof.
  revert l. induction n as [|n IH]; intros l Hl; [exists []; split; [by destruct l|]; intros c; cbn; split; [by intros ?%elem_of_nil|by intros [?%elem_of_nil _]]|].
  destruct l as [|[a x] l]; [exists []; split; [done|]; intros c; cbn; split; [by intros ?%elem_of_nil|by intros [?%elem_of_nil _]]|].
  cbn [SpatialChunkList.containing_loop]. destruct (Hl (a, x) ltac:(left)) as (r&Er&Hr). cbn in Er. rewrite Er. cbn [mbind res_bind].
  destruct (IH l) as (found&->&Hf); [intros e He; apply Hl; by right|]. cbn [mbind res_bind take fmap list_fmap snd].
  pose proof (Range.contains_point_spec r p Hr) as Hc. eexists. split; [done|]. intros c. destruct (Range.contains_point r p).
  - rewrite !elem_of_cons, Hf. split; [intros [->|[? ?]]; [|by split; [right|]]|intros [[->|?] ?]; auto].
    split; [by left|]. exists r. split; [done|by apply Hc].
  - rewrite Hf, elem_of_cons. split; [intros [? ?]; auto|]. intros [[->|?] Hcov]; [|done]. exfalso.
    destruct Hcov as (r'&Er'&Hcov). rewrite Er in Er'. injection Er' as <-. by apply Hc in Hcov.
Qed.
Lemma findAllContaining_spec cs m p : NoDup cs -> addressed cs -> ranged cs -> spatial_ok cs m ->
  exists found, SpatialChunkList.findAllContaining V m p = Ok found /\
    forall c, c ∈ found <-> c ∈ cs /\ covered_by c p /\ exists a, v_address c = Ok a /\ (starting cs a p < 5)%nat.
Proof.
  intros Hnd Had Hr Hm. unfold SpatialChunkList.findAllContaining.
  destruct (OrderedMap.upper_bound p m) as [before after] eqn:E.
  destruct (OrderedMap.upper_bound_split p m before after ltac:(apply Hm) E) as (->&Hb&Ha).
  assert (Hent : forall e, e ∈ before -> e.2 ∈ cs /\ v_address e.2 = Ok e.1) by (intros [a c] He; apply Hm; set_solver).
  destruct (containing_loop_spec 5 (reverse before) p) as (found&->&Hf).
  { intros e He. rewrite elem_of_reverse in He. destruct (Hent e He) as [Hc _]. destruct (Hr _ Hc) as (r&?&_&?). eauto. }
  exists found. split; [done|]. intros c. rewrite Hf. split.
  - intros [([a x]&->&Hx)%list_elem_of_fmap Hcov]. apply list_elem_of_lookup in Hx as [i Hi]. apply lookup_take_Some in Hi as [Hi Hlt].
    apply reverse_lookup_Some in Hi as [Hi Hlen]. pose proof (list_elem_of_lookup_2 _ _ _ Hi) as Hin. destruct (Hent _ Hin) as [Hc Hadr].
    split; [done|]. split; [done|]. exists a. split; [done|].
    rewrite <- (take_drop_middle _ _ _ Hi) in Hm, Hb. rewrite (starting_between cs _ a x _ after p Hnd Had Hm Hb Ha), length_drop. lia.
  - intros (Hc&Hcov&a&Hadr&Hn). split; [|done]. destruct Hcov as (r&Er&Hcov). destruct (Hr c Hc) as (r'&Er'&Hadr'&_).
    assert (r' = r) as -> by congruence. assert (a = _start r) as -> by congruence.
    assert ((_start r, c) ∈ before ++ after) as [Hin|Hin]%elem_of_app by (by apply Hm);
      [|apply (proj1 (Forall_forall _ _) Ha) in Hin; cbn in Hin; unfold Range.covers in Hcov; lia].
    apply list_elem_of_lookup in Hin as [i Hi]. pose proof (lookup_lt_Some _ _ _ Hi) as Hlt.
    rewrite <- (take_drop_middle _ _ _ Hi) in Hm, Hb. rewrite (starting_between cs _ _ c _ after p Hnd Had Hm Hb Ha), length_drop in Hn.
    apply list_elem_of_fmap. exists (_start r, c). split; [done|]. apply list_elem_of_lookup. exists (length before - S i)%nat.
    apply lookup_take_Some. split; [|lia]. apply reverse_lookup_Some. split; [|lia].
    by replace (length before - S (length before - S i))%nat with i by lia.
Qed.

(** C35: lookups in a coherent list are exact: through the address map (created if absent) [find] returns the child at an
    address, and [findAllContaining] the children whose ranges hold an address and after whose start fewer than five
    children start up to the address (the code looks at five).  If the chunks have disjoint ranges, [findContaining] returns the child whose
    range holds an address and nothing
    when none does, and [findAllWithin] the children inside a range that start
    strictly after its start.  By name, [genericFind] returns the child of that
    name. *)
Theorem chunklist_lookup l :
  children_ok (iterable l) -> coherent l -> ranged (iterable l) ->
  (exists m l', ChunkList.getSpatial V l = Ok (m, l') /\ iterable l' = iterable l /\
    (forall a c, SpatialChunkList.find m a = Some c <-> c ∈ iterable l /\ v_address c = Ok a) /\
    (forall p, exists found, SpatialChunkList.findAllContaining V m p = Ok found /\
       forall c, c ∈ found <-> c ∈ iterable l /\ covered_by c p /\ exists a, v_address c = Ok a /\ (starting (iterable l) a p < 5)%nat) /\
    (ranges_ok (iterable l) ->
       (forall p, exists o, SpatialChunkList.findContaining V m p = Ok o /\
          forall c, o = Some c <-> c ∈ iterable l /\ covered_by c p) /\
       (forall range, Range.ok range -> exists found, SpatialChunkList.findAllWithin V m range = Ok found /\
          forall c, c ∈ found <-> c ∈ iterable l /\ exists r, v_range c = Ok r /\
            _start range < _start r /\ Range.contains_range range r = true))) /\
  (forall n c, (ChunkList.genericFind V l n).1 = Some c <-> c ∈ iterable l /\ v_name c = n).
Proof.
  intros Hok Hco Hr. split.
  - destruct (getSpatial_ok l Hok Hco) as (m&l'&->&Hm& ->). exists m. eexists. split_and!; [done|done| | |].
    + intros a c. unfold SpatialChunkList.find. rewrite OrderedMap.find_elem by apply Hm. apply Hm.
    + intros p. apply findAllContaining_spec; [apply Hok|by apply children_addressed|done|done].
    + intros Hd. split; [intros p; by apply findContaining_spec|]. intros range Hrange. by apply findAllWithin_spec.
  - intros n c. destruct (getNamed_ok l Hok Hco) as (m&E&Hm).
    unfold ChunkList.genericFind, NamedChunkList.find. rewrite E. cbn. apply Hm.
Qed.

(** a chunk inserted in the middle of a list is missing from the address map:
    [genericInsertAt] updates the vector alone, so after it a list whose map
    exists no longer finds the child at its address, although the child is in
    the list. *)
Theorem insertAt_leaves_map_stale l m index child a :
  children_ok (child :: iterable l) -> coherent l -> spatial l = Some m ->
  v_cast child = true -> v_address child = Ok a -> 0 <= index <= Z.of_nat (length (iterable l)) ->
  exists l', ChunkList.genericInsertAt V l index child = Ok l' /\ child ∈ iterable l' /\
    ChunkList.getSpatial V l' = Ok (m, l') /\ SpatialChunkList.find m a = None.
Proof.
  intros Hok [Hs _] E Hc Ha Hi. rewrite E in Hs. unfold ChunkList.genericInsertAt, IterableChunkList.insertAt.
  rewrite Hc. rewrite (proj2 (Z.ltb_ge _ _)), (proj2 (Z.ltb_ge _ _)) by lia. cbn [orb mbind res_bind].
  eexists. split_and!; [done|set_solver| |].
  - unfold ChunkList.getSpatial. cbn [spatial]. by rewrite E.
  - destruct (SpatialChunkList.find m a) as [c|] eqn:F; [|done].
    apply OrderedMap.find_elem in F; [|apply Hs]. apply Hs in F as [Hin Hca].
    pose proof (ok_nodup _ Hok) as Hnd. apply NoDup_cons in Hnd as [Hnin _].
    assert (c = child) as ->; [|done]. eapply (ok_address_inj _ Hok); [by right|by left|done|done].
Qed.
End coherence.

(** ** Concrete lists *)
Module ChunkListExamples.

(** Chunks of 16 bytes at 16 times their pointer. *)
#[export] Instance toy : ChunkView := {|
  v_address c := Ok (16 * c);
  v_range c := Ok (mkRange (16 * c) 16);
  v_name c := if c =? 1 then "one" else if c =? 2 then "two" else "three";
  v_cast c := true
|}.

Lemma toy_children cs :
  NoDup cs -> Forall (fun c => c = 1 \/ c = 2 \/ c = 3) cs -> size_ok cs -> children_ok toy cs.
Proof.
  intros Hnd Hf Hs. rewrite Forall_forall in Hf. split; [done|done|by eexists|..].
  - intros c c' a _ _ E E'. cbn in E, E'. injection E as <-. injection E' as ?. lia.
  - intros c c' Hc%Hf Hc'%Hf. destruct Hc as [->|[->| ->]], Hc' as [->|[->| ->]]; done.
Qed.
Lemma toy_ranges cs : Forall (fun c => 0 <= c < 100) cs -> ranges_ok toy cs.
Proof.
  intros Hf. rewrite Forall_forall in Hf. split.
  - intros c Hc%Hf. eexists. split_and!; [done|done| |done]. unfold Range.ok; cbn; lia.
  - intros c c' r r' p _ _ E E'. cbn in E, E'. injection E as <-. injection E' as <-.
    unfold Range.covers; cbn. lia.
Qed.

Ltac toy_solve :=
  lazymatch goal with
  | |- children_ok _ _ => apply toy_children; cbn;
      [lazymatch goal with |- ?P => apply (bool_decide_unpack P); vm_compute; reflexivity end
      |repeat first [apply List.Forall_nil | apply List.Forall_cons; [lia|]]
      |vm_compute; reflexivity]
  end.

Definition operations : list op := [OpAdd 2; OpSpatial; OpAdd 1; OpFind "one"; OpAdd 3; OpRemove 1; OpRemoveLast; OpInsertAt 0 3; OpClearNamed].
Definition nothing : Contents := mkContents [] None None.

Lemma coherent_none cs : coherent toy (mkChunkList cs None None).
Proof. done. Qed.

Lemma chunklist_lookup_witness :
  exists m l', ChunkList.getSpatial toy (mkChunkList [3; 1] None None) = Ok (m, l') /\
    SpatialChunkList.findContaining toy m 20 = Ok (Some 1) /\
    exists found, SpatialChunkList.findAllContaining toy m 20 = Ok found /\ 1 ∈ found.
Proof.
  destruct (chunklist_lookup toy (mkChunkList [3; 1] None None)) as [(m&l'&E&_&_&Ha&Hd) _].
  - toy_solve.
  - done.
  - intros c Hc. destruct (ok_range toy [3; 1] (toy_ranges [3; 1] ltac:(repeat constructor; lia)) c Hc) as (r&?&?&?&_). by exists r.
  - exists m, l'. split; [exact E|]. destruct Hd as [Hc _]; [apply toy_ranges; repeat constructor; lia|].
    assert (Hcov : covered_by toy 1 20) by (exists (mkRange 16 16); split; [done|]; unfold Range.covers; cbn; lia).
    destruct (Hc 20) as (o&Ho&Hs). destruct (Ha 20) as (found&Hf&Hin). split.
    + rewrite Ho. f_equal. apply Hs. split; [set_solver|done].
    + exists found. split; [done|]. apply Hin. split; [set_solver|]. split; [done|]. exists 16. split; [done|].
      apply Nat.ltb_lt. vm_compute. reflexivity.
Defined.

Lemma insertAt_leaves_map_stale_witness :
  exists l', ChunkList.genericInsertAt toy (mkChunkList [1] (Some [(16, 1)]) None) 0 2 = Ok l' /\
    2 ∈ iterable l' /\ ChunkList.getSpatial toy l' = Ok ([(16, 1)], l') /\
    SpatialChunkList.find [(16, 1)] 32 = None.
Proof.
  apply (insertAt_leaves_map_stale toy (mkChunkList [1] (Some [(16, 1)]) None)); try done.
  - toy_solve.
  - split; [|done]. split; [repeat constructor|]. intros a c. cbn. split.
    + intros H%list_elem_of_singleton. injection H as -> ->. split; [set_solver|done].
    + intros [->%list_elem_of_singleton [= <-]]. set_solver.
Defined.
End ChunkListExamples.
