(* ===== verification/GSTable.v ===== *)
(** * The jump table of the JIT shuffling mode: src/chunk/gstable.h and gstable.cpp

    The table gives every code chunk that can be a branch target an index; an
    indirect branch goes through the table at [index * 8] bytes.  The entries
    are objects (pointers here), listed in a chunk list in the order of their
    creation and indexed by their target. *)

From S2P Require Import Prelude ChunkList.

Record GSTableEntry := mkEntry {
  target : ptr;
  index : Z;                  (* uint32_t *)
  otherTarget : option ptr
}.

Record GSTable := mkGSTable {
  entries : gmap ptr GSTableEntry;     (* the entry objects *)
  fresh_entry : ptr;                   (* the next pointer [new] returns *)
  children : ChunkListImpl;
  entryMap : gmap ptr ptr;             (* target to entry *)
  tableAddress : Z;
  signalTableAddress : Z;
  reserved : Z                         (* size_t *)
}.

Module GSTableEntry.
Definition ENTRY_SIZE : Z := 8.
Definition getTarget (e : GSTableEntry) : ptr := target e.
Definition getIndex (e : GSTableEntry) : Z := index e.
Definition getOffset (e : GSTableEntry) : Z := u32 (index e * ENTRY_SIZE).
Definition setOtherTarget (e : GSTableEntry) (other : option ptr) : GSTableEntry :=
  mkEntry (target e) (index e) other.
End GSTableEntry.

Module GSTable.
Section view.
Context (V : ChunkView).

Definition empty : GSTable := mkGSTable ∅ 1 ChunkList.empty ∅ 0 0 0.

Definition nextIndex (t : GSTable) : Z := u32 (Z.of_nat (size (entryMap t))).
Definition reserving (t : GSTable) : bool := reserved t =? 0.

Definition finishReservation (t : GSTable) : res GSTable :=
  cassert (reserving t);;
  Ok (mkGSTable (entries t) (fresh_entry t) (children t) (entryMap t) (tableAddress t)
        (signalTableAddress t) (nextIndex t)).
Definition getJITStartIndex (t : GSTable) : Z := u32 (reserved t).

Definition getEntryFor (t : GSTable) (tg : ptr) : option ptr := entryMap t !! tg.

Definition makeEntryFor (t : GSTable) (tg : ptr) : res (ptr * GSTable) :=
  match getEntryFor t tg with
  | Some e => Ok (e, t)
  | None =>
    let e := fresh_entry t in
    let es := <[e := mkEntry tg (nextIndex t) None]> (entries t) in
    cs ← ChunkList.add V (children t) e;
    Ok (e, mkGSTable es (e + 1) cs (<[tg := e]> (entryMap t)) (tableAddress t)
             (signalTableAddress t) (reserved t))
  end.
Definition makeReservedEntryFor (t : GSTable) (tg : ptr) : res (ptr * GSTable) :=
  cassert (reserving t);; makeEntryFor t tg.
Definition makeJITEntryFor (t : GSTable) (tg : ptr) : res (ptr * GSTable) := makeEntryFor t tg.

Definition offsetToIndex (offset : Z) : Z := offset / GSTableEntry.ENTRY_SIZE.
Definition getAtIndex (t : GSTable) (i : Z) : res (option ptr) :=
  if IterableChunkList.getCount (iterable (children t)) <=? i then Ok None
  else e ← IterableChunkList.get (iterable (children t)) i; Ok (Some e).

Definition setTableAddress (t : GSTable) (a : Z) : GSTable :=
  mkGSTable (entries t) (fresh_entry t) (children t) (entryMap t) a (signalTableAddress t) (reserved t).
Definition setSignalTableAddress (t : GSTable) (a : Z) : GSTable :=
  mkGSTable (entries t) (fresh_entry t) (children t) (entryMap t) (tableAddress t) a (reserved t).

(** ** The invariant *)

(** The i-th entry has index i and is the entry of its target. *)
Record gs_ok (t : GSTable) : Prop := {
  gs_lazy : spatial (children t) = None;
  gs_size : length (iterable (children t)) = size (entryMap t);
  gs_nth : forall i e, iterable (children t) !! i = Some e ->
    exists tg o, entries t !! e = Some (mkEntry tg (Z.of_nat i) o) /\ entryMap t !! tg = Some e;
  gs_entry : forall tg e, entryMap t !! tg = Some e ->
    exists i, iterable (children t) !! i = Some e /\
      exists o, entries t !! e = Some (mkEntry tg (Z.of_nat i) o);
  gs_fresh : forall e, is_Some (entries t !! e) -> e < fresh_entry t }.

Lemma empty_ok : gs_ok empty.
Proof. split; try done. by intros e [? ?]. Qed.

Lemma makeEntryFor_existing t tg e : entryMap t !! tg = Some e -> makeEntryFor t tg = Ok (e, t).
Proof. intros E. unfold makeEntryFor, getEntryFor. by rewrite E. Qed.

Lemma makeEntryFor_new t tg :
  gs_ok t -> Z.of_nat (size (entryMap t)) < 2 ^ 32 -> entryMap t !! tg = None ->
  exists t', makeEntryFor t tg = Ok (fresh_entry t, t') /\ gs_ok t' /\
    entryMap t' = <[tg := fresh_entry t]> (entryMap t) /\ reserved t' = reserved t.
Proof.
  intros [Hl Hs Hn He Hf] Hsz E. unfold makeEntryFor, getEntryFor, ChunkList.add. rewrite E, Hl.
  cbn [ChunkList.on_spatial mbind res_bind]. eexists. split_and!; [done| |done|done].
  unfold nextIndex. rewrite (wrap_small 32) by lia.
  assert (entries t !! fresh_entry t = None) as Hnew.
  { destruct (entries t !! fresh_entry t) eqn:Ee; [|done].
    assert (fresh_entry t < fresh_entry t); [apply Hf; eauto|lia]. }
  assert (forall e x, entries t !! e = Some x -> <[fresh_entry t := mkEntry tg (Z.of_nat (size (entryMap t))) None]>
    (entries t) !! e = Some x) as Hold.
  { intros e x Ee. rewrite lookup_insert_ne; [done|]. intros <-. by rewrite Hnew in Ee. }
  split; cbn; unfold IterableChunkList.add.
  - done.
  - rewrite length_app, map_size_insert_None by done. cbn. lia.
  - intros i e [Hi|[Hi Hi']]%lookup_app_Some.
    + destruct (Hn i e Hi) as (tg'&o&Ee&Et). exists tg', o. split; [by apply Hold|].
      rewrite lookup_insert_ne; [done|]. intros <-. by rewrite E in Et.
    + apply list_lookup_singleton_Some in Hi' as [Hi' <-]. exists tg, None.
      rewrite !lookup_insert_eq. split; [|done]. do 3 f_equal. lia.
  - intros tg' e. rewrite lookup_insert_Some. intros [[<- <-]|[Hne Et]].
    + exists (length (iterable (children t))). rewrite lookup_app_r, Nat.sub_diag by lia. split; [done|].
      exists None. rewrite lookup_insert_eq. do 3 f_equal. lia.
    + destruct (He tg' e Et) as (i&Hi&o&Ee). exists i. rewrite lookup_app_l by (by eapply lookup_lt_Some).
      split; [done|]. exists o. by apply Hold.
  - intros e He'. destruct (decide (e = fresh_entry t)) as [->|]; [lia|].
    rewrite lookup_insert_ne in He' by done. apply Hf in He'. lia.
Qed.

(** ** Sequences of requests *)

Inductive request := Reserve (tg : ptr) | Jit (tg : ptr).
Definition request_target (r : request) : ptr := match r with Reserve tg | Jit tg => tg end.
Definition serve (t : GSTable) (r : request) : res (ptr * GSTable) :=
  match r with Reserve tg => makeReservedEntryFor t tg | Jit tg => makeJITEntryFor t tg end.
Fixpoint serve_all (t : GSTable) (rs : list request) : res GSTable :=
  match rs with [] => Ok t | r :: rs => p ← serve t r; serve_all p.2 rs end.

Lemma serve_ok t r p t' :
  gs_ok t -> Z.of_nat (size (entryMap t)) < 2 ^ 32 -> serve t r = Ok (p, t') ->
  gs_ok t' /\ entryMap t ⊆ entryMap t' /\ entryMap t' !! request_target r = Some p /\
  (size (entryMap t') <= S (size (entryMap t)))%nat.
Proof.
  intros Hok Hs Hr.
  assert (makeEntryFor t (request_target r) = Ok (p, t')) as E.
  { destruct r as [tg|tg]; cbn in Hr; [|done]. unfold makeReservedEntryFor in Hr.
    destruct (reserving t); [done|discriminate Hr]. }
  destruct (entryMap t !! request_target r) as [e|] eqn:Ee.
  - rewrite (makeEntryFor_existing _ _ _ Ee) in E. injection E as -> ->. split_and!; [done|done|done|lia].
  - destruct (makeEntryFor_new t _ Hok Hs Ee) as (t1&E1&Hok1&Em&_). rewrite E in E1. injection E1 as -> ->.
    rewrite Em. split_and!; [done|by apply insert_subseteq|apply lookup_insert_eq|].
    by rewrite map_size_insert_None.
Qed.

Lemma serve_all_ok t rs t' :
  gs_ok t -> Z.of_nat (size (entryMap t) + length rs) <= 2 ^ 32 -> serve_all t rs = Ok t' ->
  gs_ok t' /\ entryMap t ⊆ entryMap t' /\ (forall r, r ∈ rs -> is_Some (entryMap t' !! request_target r)) /\
  (size (entryMap t') <= size (entryMap t) + length rs)%nat.
Proof.
  revert t. induction rs as [|r rs IH]; intros t Hok Hs; cbn [serve_all].
  { intros [= <-]. split_and!; [done|done|set_solver|cbn; lia]. }
  intros [[p t1] [E1 E2]]%bind_Ok. cbn [length] in *.
  destruct (serve_ok t r p t1 Hok ltac:(lia) E1) as (Hok1&Hsub&Hr&Hs1).
  destruct (IH t1 Hok1 ltac:(lia) E2) as (Hok'&Hsub'&Hrs&Hs'). split_and!; [done|by etrans| |lia].
  intros r' [->|Hin]%elem_of_cons; [|by apply Hrs]. eexists. by eapply lookup_weaken.
Qed.

(** the jump table is addressable by what the generated code uses.  After
    any accepted sequence of reserved and JIT requests, from the empty table and
    within the 2^29 entries whose byte offsets fit 32 bits, every requested
    target has an entry of its own, and converting that entry's byte offset back
    to an index and reading the table there gives the same entry. *)
Theorem gstable_offset_roundtrip rs t :
  serve_all empty rs = Ok t -> Z.of_nat (length rs) <= 2 ^ 29 ->
  forall r, r ∈ rs -> exists p e,
    getEntryFor t (request_target r) = Some p /\ entries t !! p = Some e /\
    GSTableEntry.getTarget e = request_target r /\
    getAtIndex t (offsetToIndex (GSTableEntry.getOffset e)) = Ok (Some p).
Proof.
  intros E Hlen r Hr. destruct (serve_all_ok empty rs t empty_ok) as (Hok&_&Hall&Hs);
    change (size (entryMap empty)) with 0%nat in *; [lia|done|].
  destruct (Hall r Hr) as [p Hp]. destruct (gs_entry _ Hok _ _ Hp) as (i&Hi&o&He).
  exists p, (mkEntry (request_target r) (Z.of_nat i) o). split_and!; [done|done|done|].
  pose proof (lookup_lt_Some _ _ _ Hi) as Hlt. rewrite (gs_size _ Hok) in Hlt.
  unfold getAtIndex, offsetToIndex, GSTableEntry.getOffset, GSTableEntry.ENTRY_SIZE. cbn [index].
  rewrite (wrap_small 32), Z.div_mul by lia.
  unfold IterableChunkList.getCount. rewrite (gs_size _ Hok), (proj2 (Z.leb_gt _ _)) by lia.
  unfold IterableChunkList.get, load. rewrite (proj2 (Z.ltb_ge _ _)), Nat2Z.id, Hi by lia. done.
Qed.

(** ending the reservation phase of an empty table does not end it: the
    table still counts as reserving, so a later reserved request is accepted,
    and the phase can be ended a second time. *)
Theorem finishReservation_empty_no_effect :
  exists t, finishReservation empty = Ok t /\ reserving t = true /\ finishReservation t = Ok t.
Proof. eexists. split; [reflexivity|]. by split. Qed.
End view.

Lemma gstable_offset_roundtrip_witness :
  exists t, serve_all ChunkListExamples.toy empty [Reserve 70; Jit 90; Jit 70] = Ok t /\
    exists p e, getEntryFor t 90 = Some p /\ entries t !! p = Some e /\ GSTableEntry.getTarget e = 90 /\
      getAtIndex t (offsetToIndex (GSTableEntry.getOffset e)) = Ok (Some p).
Proof.
  eexists. split; [reflexivity|].
  apply (gstable_offset_roundtrip ChunkListExamples.toy [Reserve 70; Jit 90; Jit 70] _ eq_refl
           ltac:(cbn; lia) (Jit 90)). set_solver.
Defined.
End GSTable.
