(* ===== verification/Chunk.v ===== *)
(** * The chunk hierarchy: src/chunk/chunk.h, chunk.cpp, position.h, position.cpp,
      size.h, size.cpp, block.h, function.h, module.h and src/instr/instr.h

    A program is a tree of chunks (module, function list, functions, blocks,
    instructions) with parent and sibling pointers, and every addressable chunk
    owns a [Position] object that says how its address is computed.  All objects
    live in a heap and refer to each other by pointers, as in the source, so
    that aliasing, null pointers and the use of deleted objects are visible; the
    operations are functions of a state and error monad over the heap. *)

From stdpp Require Import pretty.
From S2P Require Import Prelude Range ChunkList GSTable.

(** ** Objects *)

(** The concrete classes of the code hierarchy. *)
Inductive ChunkType := TModule | TFunctionList | TFunction | TBlock | TInstruction.
Inductive PositionIndex := POSITION_OLD | POSITION_JIT_GS.

(** src/transform/slot.h *)
Record Slot := mkSlot { slot_address : Z; slot_size : Z }.

(** The position classes, and the decorator templates around them. *)
Inductive PositionBase :=
| AbsolutePosition (address : Z)
| OffsetPosition (chunk : option ptr) (offset : Z)
| AbsoluteOffsetPosition (chunk : option ptr) (offset : Z)
| SubsequentPosition (afterThis : option ptr)
| SlotPosition (slot : Slot).
Inductive Decoration :=
| Undecorated
| CachedPositionDecorator (cache : Z)
| TrackedPositionDecorator (generation : Z)
| GenerationalPositionDecorator (authority : option ptr) (cache : Z) (generation : Z).
Record Position := mkPosition { pbase : PositionBase; deco : Decoration }.

(** An instruction's semantic object: its size, and the instruction it belongs
    to when it is a [LinkedInstructionBase] or a [ControlFlowInstructionBase]. *)
Record Semantic := mkSemantic {
  sem_size : Z;
  sem_instruction : option (option ptr);
  sem_source : option (option ptr)
}.

Record Chunk := mkChunk {
  ctype : ChunkType;
  parent : option ptr;
  prev : option ptr;
  next : option ptr;
  positionIndex : PositionIndex;
  position : option ptr;         (* the position, or a function's original one *)
  slotPosition : option ptr;     (* a function's assigned position *)
  csize : Z;                     (* ComputedSize *)
  childList : ChunkListImpl;
  semantic : option ptr;
  cname : string
}.

Inductive Mode :=
| MODE_GENERATION_OFFSET | MODE_GENERATION_SUBSEQUENT
| MODE_CACHED_OFFSET | MODE_CACHED_SUBSEQUENT
| MODE_OFFSET | MODE_SUBSEQUENT.

#[export] Instance ChunkType_eq_dec : EqDecision ChunkType.
Proof. solve_decision. Defined.
#[export] Instance Mode_eq_dec : EqDecision Mode.
Proof. solve_decision. Defined.

Record Heap := mkHeap {
  chunks : gmap ptr Chunk;
  positions : gmap ptr Position;
  semantics : gmap ptr Semantic;
  mode : Mode;                   (* PositionFactory::instance *)
  gsTable : option GSTable;      (* EgalitoTLS::getGSTable() *)
  addrTable : list Z;            (* EgalitoTLS::getJITAddressTable() *)
  fresh : ptr                    (* the next pointer [new] returns *)
}.

(** ** The monad *)

Definition M (A : Type) : Type := Heap -> res (A * Heap).
#[export] Instance M_ret : MRet M := fun A a h => Ok (a, h).
#[export] Instance M_bind : MBind M := fun A B f m h =>
  match m h with Ok (a, h) => f a h | Err e => Err e end.

Definition fail {A} (e : fault) : M A := fun _ => Err e.
Definition getHeap : M Heap := fun h => Ok (h, h).
Definition lift {A} (r : res A) : M A := fun h => match r with Ok a => Ok (a, h) | Err e => Err e end.

(** Dereferencing a pointer that may be null. *)
Definition deref (p : option ptr) : M ptr := match p with Some p => mret p | None => fail NullDeref end.

(** Reading and writing objects; a deleted object is undefined behaviour. *)
Definition chunk_at (c : ptr) : M Chunk := fun h =>
  match chunks h !! c with Some x => Ok (x, h) | None => Err Undefined end.
Definition position_at (p : ptr) : M Position := fun h =>
  match positions h !! p with Some x => Ok (x, h) | None => Err Undefined end.
Definition semantic_at (s : ptr) : M Semantic := fun h =>
  match semantics h !! s with Some x => Ok (x, h) | None => Err Undefined end.
Definition put_chunk (c : ptr) (x : Chunk) : M unit := fun h =>
  Ok (tt, mkHeap (<[c := x]> (chunks h)) (positions h) (semantics h) (mode h) (gsTable h) (addrTable h) (fresh h)).
Definition put_position (p : ptr) (x : Position) : M unit := fun h =>
  Ok (tt, mkHeap (chunks h) (<[p := x]> (positions h)) (semantics h) (mode h) (gsTable h) (addrTable h) (fresh h)).
Definition put_semantic (s : ptr) (x : Semantic) : M unit := fun h =>
  Ok (tt, mkHeap (chunks h) (positions h) (<[s := x]> (semantics h)) (mode h) (gsTable h) (addrTable h) (fresh h)).
Definition put_addrTable (t : list Z) : M unit := fun h =>
  Ok (tt, mkHeap (chunks h) (positions h) (semantics h) (mode h) (gsTable h) t (fresh h)).

Definition new_chunk (x : Chunk) : M ptr := fun h =>
  Ok (fresh h, mkHeap (<[fresh h := x]> (chunks h)) (positions h) (semantics h) (mode h) (gsTable h)
                 (addrTable h) (fresh h + 1)).
Definition new_position (x : Position) : M ptr := fun h =>
  Ok (fresh h, mkHeap (chunks h) (<[fresh h := x]> (positions h)) (semantics h) (mode h) (gsTable h)
                 (addrTable h) (fresh h + 1)).
(** [delete position]: nothing for null; deleting twice is undefined. *)
Definition delete_position (p : option ptr) : M unit := fun h =>
  match p with
  | None => Ok (tt, h)
  | Some p =>
    match positions h !! p with
    | None => Err Undefined
    | Some _ => Ok (tt, mkHeap (chunks h) (delete p (positions h)) (semantics h) (mode h) (gsTable h)
                          (addrTable h) (fresh h))
    end
  end.

(** ** Fields *)

Definition with_parent (x : Chunk) v := mkChunk (ctype x) v (prev x) (next x) (positionIndex x)
  (position x) (slotPosition x) (csize x) (childList x) (semantic x) (cname x).
Definition with_prev (x : Chunk) v := mkChunk (ctype x) (parent x) v (next x) (positionIndex x)
  (position x) (slotPosition x) (csize x) (childList x) (semantic x) (cname x).
Definition with_next (x : Chunk) v := mkChunk (ctype x) (parent x) (prev x) v (positionIndex x)
  (position x) (slotPosition x) (csize x) (childList x) (semantic x) (cname x).
Definition with_positionIndex (x : Chunk) v := mkChunk (ctype x) (parent x) (prev x) (next x) v
  (position x) (slotPosition x) (csize x) (childList x) (semantic x) (cname x).
Definition with_position (x : Chunk) v := mkChunk (ctype x) (parent x) (prev x) (next x) (positionIndex x)
  v (slotPosition x) (csize x) (childList x) (semantic x) (cname x).
Definition with_slotPosition (x : Chunk) v := mkChunk (ctype x) (parent x) (prev x) (next x) (positionIndex x)
  (position x) v (csize x) (childList x) (semantic x) (cname x).
Definition with_csize (x : Chunk) v := mkChunk (ctype x) (parent x) (prev x) (next x) (positionIndex x)
  (position x) (slotPosition x) v (childList x) (semantic x) (cname x).
Definition with_childList (x : Chunk) v := mkChunk (ctype x) (parent x) (prev x) (next x) (positionIndex x)
  (position x) (slotPosition x) (csize x) v (semantic x) (cname x).
Definition with_semantic (x : Chunk) v := mkChunk (ctype x) (parent x) (prev x) (next x) (positionIndex x)
  (position x) (slotPosition x) (csize x) (childList x) v (cname x).
Definition modify (c : ptr) (f : Chunk -> Chunk) : M unit := x ← chunk_at c; put_chunk c (f x).

(** ** Chunk operations that do not need an address *)
Module ChunkImpl.

Definition getParent (c : ptr) : M (option ptr) := x ← chunk_at c; mret (parent x).
Definition setParent (c : ptr) (v : option ptr) : M unit := modify c (fun x => with_parent x v).
Definition getPreviousSibling (c : ptr) : M (option ptr) := x ← chunk_at c; mret (prev x).
Definition setPreviousSibling (c : ptr) (v : option ptr) : M unit := modify c (fun x => with_prev x v).
Definition getNextSibling (c : ptr) : M (option ptr) := x ← chunk_at c; mret (next x).
Definition setNextSibling (c : ptr) (v : option ptr) : M unit := modify c (fun x => with_next x v).

Definition has_children (t : ChunkType) : bool := match t with TInstruction => false | _ => true end.
Definition getChildren (c : ptr) : M (option ChunkListImpl) :=
  x ← chunk_at c; mret (if has_children (ctype x) then Some (childList x) else None).

(** [ChunkSinglePositionDecorator], [ChunkDoublePositionDecorator] (functions)
    and the default of [ChunkImpl] (function lists). *)
Definition position_of (x : Chunk) : option ptr :=
  match ctype x with
  | TFunctionList => None
  | TFunction => match slotPosition x with Some p => Some p | None => position x end
  | _ => position x
  end.
Definition getPosition (c : ptr) : M (option ptr) := x ← chunk_at c; mret (position_of x).

Definition is_slot (x : Position) : bool := match pbase x with SlotPosition _ => true | _ => false end.
Definition setPosition (c : ptr) (p : option ptr) : M unit :=
  x ← chunk_at c;
  match ctype x with
  | TFunctionList => fail (Throw "Operation not supported: ChunkImpl::setPosition (use ChunkSinglePositionDecorator)")
  | TFunction =>
    match position x with
    | None => put_chunk c (with_position x p)
    | Some _ =>
      (* dynamic_cast<SlotPosition *> *)
      match p with
      | None => put_chunk c (with_slotPosition x None)
      | Some q => y ← position_at q; put_chunk c (with_slotPosition x (if is_slot y then p else None))
      end
    end
  | _ => put_chunk c (with_position x p)
  end.

Definition setPositionIndex (c : ptr) (index : PositionIndex) : M unit :=
  modify c (fun x => with_positionIndex x index).
(** Only functions distinguish an original and an assigned position. *)
Definition getOriginalPosition (c : ptr) : M (option ptr) :=
  x ← chunk_at c; mret (match ctype x with TFunction => position x | _ => None end).
Definition getAssignedPosition (c : ptr) : M (option ptr) :=
  x ← chunk_at c; mret (match ctype x with TFunction => slotPosition x | _ => position_of x end).
(** [setOriginalPosition] and [setAssignedPosition], which only functions have. *)
Definition setOriginalPosition (c : ptr) (p : option ptr) : M unit := modify c (fun x => with_position x p).
Definition setAssignedPosition (c : ptr) (p : option ptr) : M unit := modify c (fun x => with_slotPosition x p).

(** [ComputedSize], the instruction's semantic, or 0. *)
Definition getSize (c : ptr) : M Z :=
  x ← chunk_at c;
  match ctype x with
  | TInstruction => s ← deref (semantic x); y ← semantic_at s; mret (sem_size y)
  | TFunctionList => mret 0
  | _ => mret (csize x)
  end.
Definition adjustBy (size add : Z) : res Z :=
  cassert (0 <=? swrap 64 (u64 (size + add)));; Ok (u64 (size + add)).
Definition addToSize (c : ptr) (add : Z) : M unit :=
  x ← chunk_at c;
  match ctype x with
  | TInstruction => fail (Throw "Operation not supported: ChunkImpl::addToSize")
  | TFunctionList | TModule => mret tt
  | TFunction | TBlock => s ← lift (adjustBy (csize x) add); put_chunk c (with_csize x s)
  end.
Definition setSize (c : ptr) (size : Z) : M unit :=
  x ← chunk_at c;
  match ctype x with
  | TInstruction => fail (Throw "Operation not supported: ChunkImpl::setSize")
  | TFunctionList | TModule => mret tt
  | TFunction | TBlock => put_chunk c (with_csize x size)
  end.
Definition isModule (c : ptr) : M bool := x ← chunk_at c; mret (bool_decide (ctype x = TModule)).
End ChunkImpl.
Import ChunkImpl.

(** ** Positions *)
Module Position.

Definition isAuthority (p : ptr) : M bool :=
  x ← position_at p;
  mret match deco x, pbase x with
       | GenerationalPositionDecorator _ _ _, _ => false
       | _, AbsolutePosition _ => true
       | _, _ => false
       end.
(** [dynamic_cast<AbsolutePosition *>] and [dynamic_cast<SubsequentPosition *>]
    of a pointer that may be null. *)
Definition isAbsolute (p : option ptr) : M bool :=
  match p with
  | None => mret false
  | Some p => x ← position_at p; mret match pbase x with AbsolutePosition _ => true | _ => false end
  end.
Definition setAfterThis_if (p : option ptr) (afterThis : ptr) : M unit :=
  match p with
  | None => mret tt
  | Some p =>
    x ← position_at p;
    match pbase x with
    | SubsequentPosition _ => put_position p (mkPosition (SubsequentPosition (Some afterThis)) (deco x))
    | _ => mret tt
    end
  end.

(** Generations are [int]s: going past the largest one is undefined. *)
Definition INT_MAX : Z := 2 ^ 31 - 1.
Definition succ_int (g : Z) : M Z := if g <? INT_MAX then mret (g + 1) else fail Undefined.

Definition generation_of (x : Position) : Z :=
  match deco x with
  | TrackedPositionDecorator g | GenerationalPositionDecorator _ _ g => g
  | _ => 0
  end.
Definition getGeneration (p : ptr) : M Z := x ← position_at p; mret (generation_of x).
Definition setGeneration (p : ptr) (g : Z) : M unit :=
  x ← position_at p;
  match deco x with
  | TrackedPositionDecorator _ => put_position p (mkPosition (pbase x) (TrackedPositionDecorator g))
  | GenerationalPositionDecorator a c _ =>
    put_position p (mkPosition (pbase x) (GenerationalPositionDecorator a c g))
  | _ => mret tt
  end.
Definition incrementGeneration (p : ptr) : M unit :=
  x ← position_at p;
  match deco x with
  | TrackedPositionDecorator g | GenerationalPositionDecorator _ _ g =>
    g ← succ_int g; setGeneration p g
  | _ => mret tt
  end.
Definition getAuthorityGeneration (a : ptr) : M Z := p ← getPosition a; p ← deref p; getGeneration p.

Definition set_cache (p : ptr) (v : Z) : M unit :=
  x ← position_at p;
  match deco x with
  | CachedPositionDecorator _ => put_position p (mkPosition (pbase x) (CachedPositionDecorator v))
  | GenerationalPositionDecorator a _ g =>
    put_position p (mkPosition (pbase x) (GenerationalPositionDecorator a v g))
  | _ => mret tt
  end.
Definition setOffset (p : ptr) (offset : Z) : M unit :=
  x ← position_at p;
  match pbase x with
  | OffsetPosition c _ => put_position p (mkPosition (OffsetPosition c offset) (deco x))
  | AbsoluteOffsetPosition c _ => put_position p (mkPosition (AbsoluteOffsetPosition c offset) (deco x))
  | _ => mret tt
  end.

Section open_recursion.
(** The calls of [Position::get] on other positions. *)
Context (get : ptr -> M Z).

(** [PositionManager::getAddress] *)
Definition address (c : ptr) : M Z :=
  x ← chunk_at c;
  match positionIndex x with
  | POSITION_OLD => p ← deref (position_of x); get p
  | POSITION_JIT_GS =>
    h ← getHeap;
    match gsTable h with
    | None => fail NullDeref
    | Some t =>
      e ← deref (GSTable.getEntryFor t c);
      match entries t !! e with
      | None => fail Undefined
      | Some e => lift (load (addrTable h) (GSTableEntry.getIndex e))
      end
    end
  end.

(** The [get] and [recalculate] methods of the undecorated classes. *)
Definition base_get (p : ptr) : M Z :=
  x ← position_at p;
  match pbase x with
  | AbsolutePosition a => mret a
  | OffsetPosition None _ => mret 0
  | OffsetPosition (Some c) offset =>
    q ← getParent c;
    match q with None => mret 0 | Some q => a ← address q; mret (add64 a offset) end
  | AbsoluteOffsetPosition None _ => mret 0
  | AbsoluteOffsetPosition (Some c) offset =>
    q ← getParent c;
    match q with
    | None => mret 0
    | Some q => r ← getPosition q; r ← deref r; a ← get r; mret (add64 a offset)
    end
  | SubsequentPosition afterThis =>
    c ← deref afterThis;
    q ← getPosition c; q ← deref q; a ← get q;
    s ← getSize c; mret (add64 a s)
  | SlotPosition s => mret (slot_address s)
  end.
Definition base_recalculate (p : ptr) : M unit :=
  x ← position_at p;
  match pbase x with
  | OffsetPosition c _ =>
    c ← deref c;
    q ← getParent c;
    match q with
    | None => setOffset p 0
    | Some q =>
      s ← getPreviousSibling c;
      match s with
      | None => setOffset p 0
      | Some s =>
        a ← address s; b ← address q; n ← getSize s;
        setOffset p (add64 (sub64 a b) n)
      end
    end
  | _ => mret tt
  end.
(** [recalculate] of the decorators. *)
Definition recalculate_with (p : ptr) : M unit :=
  base_recalculate p;;
  x ← position_at p;
  match deco x with
  | CachedPositionDecorator _ | GenerationalPositionDecorator _ _ _ => v ← base_get p; set_cache p v
  | _ => mret tt
  end.
End open_recursion.

Definition cache_of (x : Position) : Z :=
  match deco x with CachedPositionDecorator c | GenerationalPositionDecorator _ c _ => c | _ => 0 end.

(** [Position::get].  The fuel bounds the chain of positions a position depends on. *)
Fixpoint get_fuel (fuel : nat) (p : ptr) : M Z :=
  match fuel with
  | O => fail OutOfFuel
  | S fuel =>
    x ← position_at p;
    match deco x with
    | Undecorated | TrackedPositionDecorator _ => base_get (get_fuel fuel) p
    | CachedPositionDecorator c => mret c
    | GenerationalPositionDecorator None c _ => mret c
    | GenerationalPositionDecorator (Some a) c g =>
      ag ← getAuthorityGeneration a;
      if g =? ag then mret c
      else
        recalculate_with (get_fuel fuel) p;;
        ag ← getAuthorityGeneration a;
        setGeneration p ag;;
        x ← position_at p; mret (cache_of x)
    end
  end.

(** Every position of a chain of dependencies is another object. *)
Definition with_fuel {A} (f : nat -> M A) : M A := fun h => f (S (size (positions h))) h.

Definition get (p : ptr) : M Z := with_fuel (fun fuel => get_fuel fuel p).
Definition recalculate (p : ptr) : M unit := with_fuel (fun fuel => recalculate_with (get_fuel fuel) p).

Definition base_set (p : ptr) (value : Z) : M unit :=
  x ← position_at p;
  match pbase x with
  | AbsolutePosition _ =>
    put_position p (mkPosition (AbsolutePosition value) (deco x));;
    g ← getGeneration p; g ← succ_int g; setGeneration p g
  | OffsetPosition c _ =>
    c ← (match c with Some c => mret c | None => fail AssertFail end);
    q ← getParent c;
    match q with
    | None => fail AssertFail
    | Some q => a ← with_fuel (fun fuel => address (get_fuel fuel) q); setOffset p (sub64 value a)
    end
  | AbsoluteOffsetPosition c _ =>
    c ← (match c with Some c => mret c | None => fail AssertFail end);
    q ← getParent c;
    match q with
    | None => fail AssertFail
    | Some q => r ← getPosition q; r ← deref r; a ← get r; setOffset p (sub64 value a)
    end
  | SubsequentPosition _ => fail (Throw "Can't set position of a SubsequentPosition")
  | SlotPosition s => put_position p (mkPosition (SlotPosition (mkSlot value (slot_size s))) (deco x))
  end.
Definition set (p : ptr) (value : Z) : M unit :=
  x ← position_at p;
  match deco x with
  | GenerationalPositionDecorator a _ g =>
    match a with
    | Some a =>
      ag ← getAuthorityGeneration a;
      g ← succ_int g; ag ← succ_int ag;
      q ← getPosition a; q ← deref q;
      setGeneration q (Z.max g ag);; setGeneration p (Z.max g ag)
    | None => g ← succ_int g; setGeneration p g
    end;;
    set_cache p value;; base_set p value
  | _ => base_set p value
  end.

(** [SlotPosition::set(Slot)] *)
Definition set_slot (p : ptr) (slot : Slot) : M unit :=
  x ← position_at p;
  match pbase x with
  | SlotPosition _ => put_position p (mkPosition (SlotPosition slot) (deco x))
  | _ => fail Undefined
  end.

(** [getDependency], [findAuthority] and [updateAuthority]. *)
Definition getDependency (x : Position) : M (option ptr) :=
  match pbase x with
  | OffsetPosition c _ => c ← deref c; getParent c
  | SubsequentPosition c => mret c
  | _ => mret None
  end.
Fixpoint findAuthority_fuel (fuel : nat) (p : ptr) : M (option ptr) :=
  match fuel with
  | O => fail OutOfFuel
  | S fuel =>
    x ← position_at p;
    match deco x with
    | GenerationalPositionDecorator a _ g =>
      keep ← (match a with Some a => ag ← getAuthorityGeneration a; mret (g =? ag) | None => mret false end);
      if keep : bool then mret a
      else
        d ← getDependency x;
        match d with
        | None => mret None
        | Some d =>
          q ← getPosition d; q ← deref q;
          r ← findAuthority_fuel fuel q;
          mret (match r with Some r => Some r | None => Some d end)
        end
    | _ => mret None
    end
  end.
Definition findAuthority (p : ptr) : M (option ptr) := with_fuel (fun fuel => findAuthority_fuel fuel p).
Definition updateAuthority (p : ptr) : M unit :=
  x ← position_at p;
  match deco x with
  | GenerationalPositionDecorator _ c g =>
    a ← findAuthority p;
    put_position p (mkPosition (pbase x) (GenerationalPositionDecorator a c g))
  | _ => mret tt
  end.
End Position.

(** ** Addresses *)
Module PositionManager.
Definition getAddress (c : ptr) : M Z :=
  Position.with_fuel (fun fuel => Position.address (Position.get_fuel fuel) c).
Definition setAddress (c : ptr) (a : Z) : M unit :=
  x ← chunk_at c;
  match positionIndex x with
  | POSITION_OLD => p ← deref (position_of x); Position.set p a
  | POSITION_JIT_GS =>
    h ← getHeap;
    match gsTable h with
    | None => fail NullDeref
    | Some t =>
      e ← deref (GSTable.getEntryFor t c);
      match entries t !! e with
      | None => fail Undefined
      | Some e => t ← lift (store (addrTable h) (GSTableEntry.getIndex e) a); put_addrTable t
      end
    end
  end.
End PositionManager.
Definition getAddress (c : ptr) : M Z := PositionManager.getAddress c.
Definition getRange (c : ptr) : M Range := a ← getAddress c; s ← getSize c; mret (mkRange a s).

(** ** Names *)

(** The digits an ostream writes for an unsigned number. *)
Definition hex_digit (d : Z) : Ascii.ascii :=
  match String.get (Z.to_nat d) "0123456789abcdef" with Some c => c | None => Ascii.ascii_of_nat 63 end.
Fixpoint hex_loop (fuel : nat) (n : Z) (acc : string) : string :=
  match fuel with
  | O => acc
  | S fuel =>
    let acc := String.String (hex_digit (n mod 16)) acc in
    if n / 16 =? 0 then acc else hex_loop fuel (n / 16) acc
  end.
Definition hex (n : Z) : string := hex_loop 16 n "".
Definition dec (n : Z) : string := pretty (Z.to_N n).

Fixpoint getName_fuel (fuel : nat) (c : ptr) : M string :=
  match fuel with
  | O => fail OutOfFuel
  | S fuel =>
    x ← chunk_at c;
    match ctype x with
    | TModule | TFunction => mret (cname x)
    | TFunctionList => mret "functionlist"
    | TBlock =>
      match parent x with
      | None => mret "bb-anonymous"
      | Some q =>
        n ← getName_fuel fuel q;
        a ← getAddress c; b ← getAddress q;
        mret ((if bool_decide (n = "???") then "" else n +:+ "/") +:+ "bb+" +:+ dec (sub64 a b))
      end
    | TInstruction =>
      match position x with
      | None => mret "i/???"
      | Some _ => a ← getAddress c; mret ("i/0x" +:+ hex a)
      end
    end
  end.
Definition getName (c : ptr) : M string := fun h => getName_fuel (S (size (chunks h))) c h.

(** ** Child lists *)

(** The element type of the list of a chunk. *)
Definition child_type_ok (owner child : ChunkType) : bool :=
  match owner, child with
  | TModule, _ | TFunctionList, TFunction | TFunction, TBlock | TBlock, TInstruction => true
  | _, _ => false
  end.
Definition heap_view (owner : ChunkType) (h : Heap) : ChunkView := {|
  v_address c := match getAddress c h with Ok (a, _) => Ok a | Err e => Err e end;
  v_range c := match getRange c h with Ok (r, _) => Ok r | Err e => Err e end;
  v_name c := match getName c h with Ok (n, _) => n | Err _ => "" end;
  v_cast c := match chunks h !! c with Some x => child_type_ok owner (ctype x) | None => false end
|}.

(** The keys of the maps are computed by calls on the child, which may refresh
    the caches of positions. *)
Definition touch (l : ChunkListImpl) (child : ptr) : M unit :=
  match spatial l with Some _ => getAddress child;; mret tt | None => mret tt end;;
  match named l with Some _ => getName child;; mret tt | None => mret tt end.

(** [c->getChildren()->op(...)] *)
Definition children_at (c : ptr) : M ChunkListImpl :=
  l ← getChildren c; match l with Some l => mret l | None => fail NullDeref end.
Definition update_children (c child : ptr)
    (op : ChunkView -> ChunkListImpl -> res ChunkListImpl) : M unit :=
  x ← chunk_at c; l ← children_at c; h ← getHeap;
  (if v_cast (ChunkView := heap_view (ctype x) h) child then touch l child else mret tt);;
  h ← getHeap; l ← lift (op (heap_view (ctype x) h) l);
  x ← chunk_at c; put_chunk c (with_childList x l).

Definition genericAdd (c child : ptr) : M unit :=
  update_children c child (fun V l => ChunkList.genericAdd V l child).
Definition genericRemove (c child : ptr) : M unit :=
  update_children c child (fun V l => ChunkList.genericRemove V l child).
Definition genericInsertAt (c : ptr) (index : Z) (child : ptr) : M unit :=
  x ← chunk_at c; l ← children_at c; h ← getHeap;
  l ← lift (ChunkList.genericInsertAt (heap_view (ctype x) h) l index child);
  x ← chunk_at c; put_chunk c (with_childList x l).
Definition genericGetLast (c : ptr) : M (option ptr) :=
  l ← children_at c; mret (ChunkList.genericGetLast l).
Definition genericRemoveLast (c : ptr) : M unit :=
  l ← genericGetLast c;
  match l with
  | None => mret tt
  | Some child => update_children c child (fun V l => ChunkList.genericRemoveLast V l)
  end.
Definition genericGetAt (c : ptr) (index : Z) : M ptr :=
  l ← children_at c; lift (ChunkList.genericGetAt l index).
Definition genericIndexOf (c child : ptr) : M Z :=
  x ← chunk_at c; l ← children_at c; h ← getHeap;
  mret (ChunkList.genericIndexOf (heap_view (ctype x) h) l child).
Definition genericGetSize (c : ptr) : M Z := l ← children_at c; mret (ChunkList.genericGetSize l).

(** ** Creating positions *)
Module PositionFactory.

Definition needsGenerationTracking (m : Mode) : bool :=
  match m with MODE_GENERATION_OFFSET | MODE_GENERATION_SUBSEQUENT => true | _ => false end.
Definition needsUpdatePasses (m : Mode) : bool :=
  match m with MODE_CACHED_OFFSET | MODE_CACHED_SUBSEQUENT | MODE_OFFSET => true | _ => false end.
Definition needsSpecialCaseFirst (m : Mode) : bool :=
  match m with
  | MODE_SUBSEQUENT | MODE_CACHED_SUBSEQUENT | MODE_GENERATION_SUBSEQUENT => true
  | _ => false
  end.

(** The constructors of the decorators; the cache is computed by [recalculate]. *)
Definition new_cached (b : PositionBase) : M ptr :=
  p ← new_position (mkPosition b (CachedPositionDecorator 0)); Position.recalculate p;; mret p.
Definition new_generational (b : PositionBase) : M ptr :=
  p ← new_position (mkPosition b (GenerationalPositionDecorator None 0 0));
  Position.updateAuthority p;; Position.recalculate p;; mret p.

Definition makeAbsolutePosition (address : Z) : M ptr :=
  h ← getHeap;
  if needsGenerationTracking (mode h)
  then new_position (mkPosition (AbsolutePosition address) (TrackedPositionDecorator 0))
  else new_position (mkPosition (AbsolutePosition address) Undecorated).

Definition makePosition (previous : option ptr) (chunk : ptr) (offset : Z) : M ptr :=
  h ← getHeap;
  match previous with
  | None =>
    if needsGenerationTracking (mode h) then
      p ← new_generational (OffsetPosition (Some chunk) 0); Position.setOffset p offset;; mret p
    else new_position (mkPosition (OffsetPosition (Some chunk) offset) Undecorated)
  | Some previous =>
    match mode h with
    | MODE_GENERATION_OFFSET =>
      p ← new_generational (OffsetPosition (Some chunk) 0); Position.setOffset p offset;; mret p
    | MODE_GENERATION_SUBSEQUENT => new_generational (SubsequentPosition (Some previous))
    | MODE_CACHED_OFFSET =>
      p ← new_cached (OffsetPosition (Some chunk) 0);
      Position.setOffset p offset;; Position.recalculate p;; mret p
    | MODE_CACHED_SUBSEQUENT => new_cached (SubsequentPosition (Some previous))
    | MODE_OFFSET => new_position (mkPosition (OffsetPosition (Some chunk) offset) Undecorated)
    | MODE_SUBSEQUENT => new_position (mkPosition (SubsequentPosition (Some previous)) Undecorated)
    end
  end.
End PositionFactory.
