(* ===== verification/Mutator.v ===== *)
(** * Changing the hierarchy: src/operation/mutator.h, mutator.cpp, cursor.h, cursor.cpp

    [ChunkMutator] adds, removes and moves the children of a chunk.  It keeps
    parent and sibling pointers, the sizes of the ancestors and the positions of
    the chunks consistent; positions are brought up to date by its destructor. *)

From S2P Require Import Prelude ChunkList GSTable Chunk.
Import ChunkImpl.

(** ** Cursors *)
Module ChunkCursor.
(** The list is that of the chunk [list]. *)
Record ChunkCursor := mkCursor { list : ptr; index : Z }.

Definition at_index (parent : ptr) (index : Z) : ChunkCursor := mkCursor parent index.
Definition of_chunk (chunk : option ptr) : M ChunkCursor :=
  match chunk with
  | None => fail AssertFail
  | Some chunk =>
    q ← getParent chunk; q ← deref q; l ← getChildren q;
    match l with
    | None => fail AssertFail
    | Some _ => i ← genericIndexOf q chunk; mret (mkCursor q i)
    end
  end.
Definition of_child (parent chunk : ptr) : M ChunkCursor :=
  l ← getChildren parent;
  match l with
  | None => fail AssertFail
  | Some _ =>
    i ← genericIndexOf parent chunk;
    lift (cassert (negb (i =? IterableChunkList.npos)));; mret (mkCursor parent i)
  end.
Definition get (k : ChunkCursor) : M (option ptr) :=
  n ← genericGetSize (list k);
  if index k <? n then c ← genericGetAt (list k) (index k); mret (Some c) else mret None.
Definition prev (k : ChunkCursor) : bool * ChunkCursor :=
  if 0 <? index k then (true, mkCursor (list k) (index k - 1)) else (false, k).
Definition isEnd (k : ChunkCursor) : M bool :=
  n ← genericGetSize (list k); mret (n <=? index k).
Definition next (k : ChunkCursor) : M (bool * ChunkCursor) :=
  e ← isEnd k; mret (if e : bool then (false, k) else (true, mkCursor (list k) (index k + 1))).
Definition makeBegin (parent : ptr) : ChunkCursor := at_index parent 0.
Definition makeEnd (parent : ptr) : M ChunkCursor :=
  n ← genericGetSize parent; mret (at_index parent n).
End ChunkCursor.

(** ** The mutator *)
Record ChunkMutator := mkMutator { chunk : ptr; allowUpdates : bool }.

Module ChunkMutator.

(** [for(Chunk *c = start; c; c = c->getParent())]; the body says whether to go on. *)
Fixpoint ancestors_fuel (fuel : nat) (c : option ptr) (body : ptr -> M bool) : M unit :=
  match c with
  | None => mret tt
  | Some c =>
    match fuel with
    | O => fail OutOfFuel
    | S fuel =>
      go ← body c;
      if go : bool then q ← getParent c; ancestors_fuel fuel q body else mret tt
    end
  end.
Definition ancestors (c : ptr) (body : ptr -> M bool) : M unit := fun h =>
  ancestors_fuel (S (size (chunks h))) (Some c) body h.
(** A loop over a vector of pointers. *)
Fixpoint for_each (l : list ptr) (body : ptr -> M unit) : M unit :=
  match l with [] => mret tt | c :: l => body c;; for_each l body end.

(** *** Updates of positions *)
Fixpoint updateAuthorityHelper_fuel (fuel : nat) (root : ptr) : M unit :=
  match fuel with
  | O => fail OutOfFuel
  | S fuel =>
    p ← getPosition root; p ← deref p;
    Position.updateAuthority p;;
    l ← getChildren root;
    match l with
    | None => mret tt
    | Some l => for_each (iterable l) (updateAuthorityHelper_fuel fuel)
    end
  end.
Definition updateAuthorityHelper (root : ptr) : M unit := fun h =>
  updateAuthorityHelper_fuel (S (size (chunks h))) root h.

Fixpoint updatePositionHelper_fuel (fuel : nat) (root : ptr) : M unit :=
  match fuel with
  | O => fail OutOfFuel
  | S fuel =>
    p ← getPosition root;
    match p with
    | None => mret tt
    | Some p =>
      Position.recalculate p;;
      l ← getChildren root;
      match l with
      | None => mret tt
      | Some l => for_each (iterable l) (updatePositionHelper_fuel fuel)
      end
    end
  end.
Definition updatePositionHelper (root : ptr) : M unit := fun h =>
  updatePositionHelper_fuel (S (size (chunks h))) root h.

(** The largest generation from a chunk up to the first absolute position. *)
Fixpoint max_generation_fuel (fuel : nat) (c : option ptr) (gen : Z) : M Z :=
  match c with
  | None => mret gen
  | Some c =>
    match fuel with
    | O => fail OutOfFuel
    | S fuel =>
      p ← getPosition c; q ← deref p;
      g ← Position.getGeneration q;
      abs ← Position.isAbsolute p;
      if abs : bool then mret (Z.max gen g)
      else c ← getParent c; max_generation_fuel fuel c (Z.max gen g)
    end
  end.
Fixpoint set_generations_fuel (fuel : nat) (c : option ptr) (gen : Z) : M unit :=
  match c with
  | None => mret tt
  | Some c =>
    match fuel with
    | O => fail OutOfFuel
    | S fuel =>
      p ← getPosition c; q ← deref p;
      Position.setGeneration q gen;;
      abs ← Position.isAbsolute p;
      if abs : bool then mret tt
      else gen ← Position.succ_int gen; c ← getParent c; set_generations_fuel fuel c gen
    end
  end.
Definition updateGenerationCounts (child : ptr) : M unit :=
  h ← getHeap;
  if PositionFactory.needsGenerationTracking (mode h) then
    let fuel := S (size (chunks h)) in
    gen ← max_generation_fuel fuel (Some child) 0;
    gen ← Position.succ_int gen;
    set_generations_fuel fuel (Some child) gen;;
    updateAuthorityHelper child
  else mret tt.

(** [c && !dynamic_cast<Module *>(c)] in front of a body. *)
Definition up_to_module (body : ptr -> M unit) (c : ptr) : M bool :=
  m ← isModule c; if m : bool then mret false else body c;; mret true.

Definition updateSizesAndAuthorities (m : ChunkMutator) (child : ptr) : M unit :=
  ancestors (chunk m) (up_to_module (fun c => s ← getSize child; addToSize c (swrap 64 s)));;
  updateGenerationCounts child.

Definition updatePositions (m : ChunkMutator) : M unit :=
  if allowUpdates m then
    h ← getHeap;
    if PositionFactory.needsUpdatePasses (mode h) then
      ancestors (chunk m) (fun c =>
        p ← getPosition c; abs ← Position.isAbsolute p;
        (if abs : bool then updatePositionHelper c else mret tt);; mret true)
    else mret tt
  else mret tt.

(** [ChunkMutator(c, allow).body]: a temporary, destroyed at the end. *)
Definition temporary (m : ChunkMutator) (body : ChunkMutator -> M unit) : M unit :=
  body m;; updatePositions m.

(** *** Sibling pointers *)
Definition setPreviousSibling (c : ptr) (prev : option ptr) : M unit :=
  ChunkImpl.setPreviousSibling c prev;;
  match prev with
  | None => mret tt
  | Some q => p ← getPosition c; Position.setAfterThis_if p q
  end.
Definition setNextSibling (c : ptr) (next : option ptr) : M unit :=
  ChunkImpl.setNextSibling c next;;
  match next with
  | None => mret tt
  | Some n => p ← getPosition n; Position.setAfterThis_if p c
  end.

(** *** Adding children *)
Definition makePositionFor (m : ChunkMutator) (child : ptr) : M unit :=
  k ← ChunkCursor.of_child (chunk m) child;
  let '(moved, k) := ChunkCursor.prev k in
  pos ← (if moved : bool then
           q ← ChunkCursor.get k; q ← deref q;
           a ← getAddress q; b ← getAddress (chunk m);
           PositionFactory.makePosition (Some q) child (sub64 a b)
         else PositionFactory.makePosition None child 0);
  p ← getPosition child;
  (match p with Some _ => delete_position p | None => mret tt end);;
  setPosition child (Some pos).
(** [if(!child->getPosition()) makePositionFor(child)] *)
Definition ensurePosition (m : ChunkMutator) (child : ptr) : M unit :=
  p ← getPosition child;
  match p with None => makePositionFor m child | Some _ => mret tt end.

Definition append (m : ChunkMutator) (child : ptr) : M unit :=
  prev ← genericGetLast (chunk m);
  match prev with
  | Some q => setPreviousSibling child (Some q);; setNextSibling q (Some child)
  | None => ChunkImpl.setPreviousSibling child None;; ChunkImpl.setNextSibling child None
  end;;
  setParent child (Some (chunk m));;
  genericAdd (chunk m) child;;
  ensurePosition m child;;
  updateSizesAndAuthorities m child.

(** The end of [insertAfter]: the first child of the next sibling gets a new
    position. *)
Definition renewNextPosition (newChunk : ptr) : M unit :=
  n ← getNextSibling newChunk;
  match n with
  | None => mret tt
  | Some n =>
    l ← getChildren n;
    match l with
    | None => mret tt
    | Some l =>
      if 0 <? ChunkList.genericGetSize l then
        nextChild ← lift (ChunkList.genericGetAt l 0);
        p ← getPosition nextChild;
        delete_position p;;
        setPosition nextChild None;;
        temporary (mkMutator n false) (fun m => makePositionFor m nextChild)
      else mret tt
    end
  end.

Definition insertAfter (m : ChunkMutator) (insertPoint : option ptr) (newChunk : ptr) : M unit :=
  setPreviousSibling newChunk insertPoint;;
  match insertPoint with
  | Some i =>
    n ← getNextSibling i;
    (match n with Some n => setPreviousSibling n (Some newChunk) | None => mret tt end);;
    setNextSibling newChunk n;;
    setNextSibling i (Some newChunk)
  | None => ChunkImpl.setNextSibling newChunk None
  end;;
  index ← (match insertPoint with
           | Some i => k ← genericIndexOf (chunk m) i; mret (add64 k 1)
           | None => mret 0
           end);
  genericInsertAt (chunk m) index newChunk;;
  setParent newChunk (Some (chunk m));;
  ensurePosition m newChunk;;
  updateSizesAndAuthorities m newChunk;;
  renewNextPosition newChunk.

Definition insertBefore (m : ChunkMutator) (insertPoint : option ptr) (newChunk : ptr) : M unit :=
  match insertPoint with
  | None => append m newChunk
  | Some i =>
    q ← getPreviousSibling i;
    (match q with Some q => setNextSibling q (Some newChunk) | None => mret tt end);;
    setNextSibling newChunk (Some i);;
    setPreviousSibling newChunk q;;
    setPreviousSibling i (Some newChunk);;
    index ← genericIndexOf (chunk m) i;
    genericInsertAt (chunk m) index newChunk;;
    setParent newChunk (Some (chunk m));;
    ensurePosition m newChunk;;
    h ← getHeap;
    q ← getPreviousSibling newChunk;
    (if PositionFactory.needsSpecialCaseFirst (mode h) && negb (bool_decide (is_Some q)) then
       p ← getPosition i;
       delete_position p;;
       s ← getSize newChunk;
       pos ← PositionFactory.makePosition (Some newChunk) i s;
       setPosition i (Some pos)
     else mret tt);;
    updateSizesAndAuthorities m newChunk
  end.

Definition prepend (m : ChunkMutator) (child : ptr) : M unit :=
  n ← genericGetSize (chunk m);
  if n =? 0 then append m child
  else c ← genericGetAt (chunk m) 0; insertBefore m (Some c) child.

(** [getSemantic], [setSemantic], and the back pointers of linked semantics. *)
Definition getSemantic (i : ptr) : M (option ptr) := x ← chunk_at i; mret (semantic x).
Definition setSemantic (i : ptr) (s : option ptr) : M unit := modify i (fun x => with_semantic x s).
Definition relink (sem : option ptr) (i : ptr) : M unit :=
  match sem with
  | None => mret tt
  | Some s =>
    x ← semantic_at s;
    put_semantic s (mkSemantic (sem_size x)
      (match sem_instruction x with Some _ => Some (Some i) | None => None end)
      (match sem_source x with Some _ => Some (Some i) | None => None end))
  end.
Definition insertBeforeJumpTo (m : ChunkMutator) (insertPoint : option ptr) (newChunk : ptr) : M unit :=
  match insertPoint with
  | None => insertBefore m None newChunk
  | Some i =>
    insertAfter m (Some i) newChunk;;
    sem1 ← getSemantic i;
    sem2 ← getSemantic newChunk;
    setSemantic i sem2;;
    setSemantic newChunk sem1;;
    relink sem1 newChunk;;
    relink sem2 i
  end.

Fixpoint insertAfter_all (m : ChunkMutator) (newPoint : option ptr) (toBeInserted : list ptr) : M unit :=
  match toBeInserted with
  | [] => mret tt
  | c :: l => insertAfter m newPoint c;; insertAfter_all m (Some c) l
  end.
Definition insertBefore_all (m : ChunkMutator) (insertPoint : option ptr) (toBeInserted : list ptr)
    (beforeJumpTo : bool) : M unit :=
  if beforeJumpTo then for_each (reverse toBeInserted) (insertBeforeJumpTo m insertPoint)
  else for_each toBeInserted (insertBefore m insertPoint).

(** *** Removing children *)
Definition shrink (start : ptr) (amount : M Z) : M unit :=
  ancestors start (up_to_module (fun c =>
    n ← getSize c;
    if negb (n =? 0) then s ← amount; addToSize c (swrap 64 (u64 (- s))) else mret tt)).

Definition remove (m : ChunkMutator) (child : ptr) : M unit :=
  q ← getPreviousSibling child;
  n ← getNextSibling child;
  (match q with Some q => setNextSibling q n | None => mret tt end);;
  (match n with Some n => setPreviousSibling n q | None => mret tt end);;
  genericRemove (chunk m) child;;
  shrink (chunk m) (getSize child);;
  updateGenerationCounts (chunk m).

Fixpoint removeLast_loop (m : ChunkMutator) (n : nat) (removedSize : Z) : M Z :=
  match n with
  | O => mret removedSize
  | S n =>
    last ← genericGetLast (chunk m); last ← deref last;
    q ← getPreviousSibling last;
    (match q with Some q => ChunkImpl.setNextSibling q None | None => mret tt end);;
    s ← getSize last;
    genericRemoveLast (chunk m);;
    removeLast_loop m n (add64 removedSize s)
  end.
Definition removeLast (m : ChunkMutator) (n : Z) : M unit :=
  removedSize ← removeLast_loop m (Z.to_nat n) 0;
  shrink (chunk m) (mret removedSize);;
  updateGenerationCounts (chunk m).

(** *** Splitting *)
Definition empty_chunk (t : ChunkType) (name : string) : Chunk :=
  mkChunk t None None None POSITION_OLD None None 0 ChunkList.empty None name.
(** [dynamic_cast<T *>] *)
Definition cast (t : ChunkType) (c : option ptr) : M (option ptr) :=
  match c with
  | None => mret None
  | Some c => x ← chunk_at c; mret (if bool_decide (ctype x = t) then Some c else None)
  end.

Definition detach (instr : ptr) : M unit :=
  ChunkImpl.setPreviousSibling instr None;;
  ChunkImpl.setNextSibling instr None;;
  setParent instr None;;
  p ← getPosition instr; delete_position p;;
  setPosition instr None.

Definition splitBlockBefore (m : ChunkMutator) (point : ptr) : M unit :=
  block ← getParent point; block ← cast TBlock block; block ← deref block;
  l ← children_at block;
  let totalChildren := IterableChunkList.getCount (iterable l) in
  if totalChildren =? 0 then mret tt
  else
    newBlock ← new_chunk (empty_chunk TBlock "");
    a ← getAddress point; b ← getAddress (chunk m);
    pos ← PositionFactory.makePosition (Some block) newBlock (sub64 a b);
    setPosition newBlock (Some pos);;
    let leaveBehindCount := IterableChunkList.indexOf (iterable l) point in
    let moveInstr := drop (Z.to_nat leaveBehindCount) (iterable l) in
    temporary (mkMutator block false) (fun m =>
      removeLast m (swrap 32 (sub64 totalChildren leaveBehindCount)));;
    for_each moveInstr detach;;
    temporary (mkMutator newBlock false) (fun m =>
      for_each moveInstr (fun instr => append m instr;; makePositionFor m instr));;
    insertAfter m (Some block) newBlock.

(** The children from [point] on. *)
Fixpoint from_point (l : list ptr) (point : ptr) : list ptr :=
  match l with
  | [] => []
  | c :: l' => if c =? point then l else from_point l' point
  end.
Definition splitFunctionBefore (point : ptr) : M unit :=
  function ← getParent point; function ← cast TFunction function; function ← deref function;
  l ← children_at function;
  let moveList := from_point (iterable l) point in
  match moveList with
  | [] => fail Undefined    (* a null function would be added *)
  | _ =>
    a ← getAddress point;
    function2 ← new_chunk (empty_chunk TFunction ("fuzzyfunc-0x" +:+ hex a));
    pos ← PositionFactory.makeAbsolutePosition a;
    setPosition function2 (Some pos);;
    q ← getParent function;
    setParent function2 q;;
    for_each moveList (fun child =>
      temporary (mkMutator function true) (fun m => remove m child);;
      p ← getPosition child; delete_position p);;
    functionList ← getParent function; functionList ← cast TFunctionList functionList;
    functionList ← deref functionList;
    genericAdd functionList function2;;
    (fix move (prevChunk : ptr) (l : list ptr) : M unit :=
       match l with
       | [] => mret tt
       | child :: l =>
         p ← getPosition child;
         (match p with Some _ => delete_position p | None => mret tt end);;
         s ← getSize function2;
         pos ← PositionFactory.makePosition (Some prevChunk) child s;
         setPosition child (Some pos);;
         temporary (mkMutator function2 true) (fun m => append m child);;
         move child l
       end) function moveList
  end.

(** *** Sizes and positions *)
Definition modifiedChildSize (m : ChunkMutator) (child : ptr) (added : Z) : M unit :=
  ancestors (chunk m) (up_to_module (fun c => addToSize c added));;
  updateGenerationCounts child.
Definition setPosition (m : ChunkMutator) (address : Z) : M unit :=
  PositionManager.setAddress (chunk m) address.
End ChunkMutator.
