(* ===== verification/MutatorProofs.v ===== *)
(** * Correctness of the chunk mutator in the default position mode

    The theorems are about heaps in [MODE_OFFSET], the mode [PositionFactory]
    starts in.  [linked] says that parent, previous and next pointers agree with
    the child lists; [sized] that the size of every function and block is the sum
    of its children's; [laid_out] that the children of a chunk follow each other
    without gaps. *)

From S2P Require Import Prelude ChunkList GSTable Chunk Mutator.
Import ChunkImpl.

(** ** Running the monad *)

(** [m] returns in [h], with a result and a heap that satisfy [Q]. *)
Definition wp {A} (m : M A) (Q : A -> Heap -> Prop) (h : Heap) : Prop :=
  match m h with Ok (a, h') => Q a h' | Err _ => False end.

Lemma wp_Ok {A} (m : M A) Q h : wp m Q h <-> exists a h', m h = Ok (a, h') /\ Q a h'.
Proof. unfold wp. destruct (m h) as [[a h']|e]; naive_solver. Qed.
Lemma wp_mono {A} (m : M A) (Q Q' : A -> Heap -> Prop) h :
  (forall a h', Q a h' -> Q' a h') -> wp m Q h -> wp m Q' h.
Proof. unfold wp. destruct (m h) as [[a h']|e]; auto. Qed.
Lemma wp_bind {A B} (m : M A) (f : A -> M B) Q h :
  wp m (fun a h' => wp (f a) Q h') h -> wp (m ≫= f) Q h.
Proof. unfold wp. unfold mbind, M_bind. destruct (m h) as [[a h']|e]; auto. Qed.
Lemma wp_ret {A} (a : A) (Q : A -> Heap -> Prop) h : Q a h -> wp (mret a) Q h.
Proof. done. Qed.

Definition with_chunks (h : Heap) (m : gmap ptr Chunk) : Heap :=
  mkHeap m (positions h) (semantics h) (mode h) (gsTable h) (addrTable h) (fresh h).
Definition with_positions (h : Heap) (m : gmap ptr Position) : Heap :=
  mkHeap (chunks h) m (semantics h) (mode h) (gsTable h) (addrTable h) (fresh h).

Lemma wp_chunk_at c x (Q : Chunk -> Heap -> Prop) h :
  chunks h !! c = Some x -> Q x h -> wp (chunk_at c) Q h.
Proof. unfold wp, chunk_at. intros ->. done. Qed.
Lemma wp_position_at p x (Q : Position -> Heap -> Prop) h :
  positions h !! p = Some x -> Q x h -> wp (position_at p) Q h.
Proof. unfold wp, position_at. intros ->. done. Qed.
Lemma wp_semantic_at p x (Q : Semantic -> Heap -> Prop) h :
  semantics h !! p = Some x -> Q x h -> wp (semantic_at p) Q h.
Proof. unfold wp, semantic_at. intros ->. done. Qed.
Lemma wp_put_chunk c x (Q : unit -> Heap -> Prop) h :
  Q tt (with_chunks h (<[c := x]> (chunks h))) -> wp (put_chunk c x) Q h.
Proof. done. Qed.
Lemma wp_put_position c x (Q : unit -> Heap -> Prop) h :
  Q tt (with_positions h (<[c := x]> (positions h))) -> wp (put_position c x) Q h.
Proof. done. Qed.
Lemma wp_modify c f x (Q : unit -> Heap -> Prop) h :
  chunks h !! c = Some x -> Q tt (with_chunks h (<[c := f x]> (chunks h))) -> wp (modify c f) Q h.
Proof. intros Hx HQ. unfold modify. apply wp_bind. by eapply wp_chunk_at. Qed.
Lemma wp_deref p (Q : ptr -> Heap -> Prop) h : Q p h -> wp (deref (Some p)) Q h.
Proof. done. Qed.
Lemma wp_lift {A} (r : res A) a (Q : A -> Heap -> Prop) h : r = Ok a -> Q a h -> wp (lift r) Q h.
Proof. intros ->. done. Qed.
Lemma wp_getHeap (Q : Heap -> Heap -> Prop) h : Q h h -> wp getHeap Q h.
Proof. done. Qed.

(** Reading a field of a chunk. *)
Lemma wp_read {A} (f : Chunk -> A) c x (Q : A -> Heap -> Prop) h :
  chunks h !! c = Some x -> Q (f x) h -> wp (x ← chunk_at c; mret (f x)) Q h.
Proof. intros Hx HQ. apply wp_bind. eapply wp_chunk_at; [done|]. by apply wp_ret. Qed.

(** Symbolic execution of the straight-line parts. *)
Ltac mstep :=
  lazymatch goal with
  | |- wp (mbind _ _) _ _ => apply wp_bind
  | |- wp (mret _) _ _ => apply wp_ret
  | |- wp (deref (Some _)) _ _ => apply wp_deref
  | |- wp getHeap _ _ => apply wp_getHeap
  | |- wp (put_chunk _ _) _ _ => apply wp_put_chunk
  | |- wp (put_position _ _) _ _ => apply wp_put_position
  | |- wp (chunk_at _) _ _ => eapply wp_chunk_at
  | |- wp (position_at _) _ _ => eapply wp_position_at
  | |- wp (modify _ _) _ _ => eapply wp_modify
  | |- wp (getParent _) _ _ => eapply (wp_read parent)
  | |- wp (getPreviousSibling _) _ _ => eapply (wp_read prev)
  | |- wp (getNextSibling _) _ _ => eapply (wp_read next)
  | |- wp (getPosition _) _ _ => eapply (wp_read position_of)
  | |- wp (isModule _) _ _ => eapply (wp_read (fun x => bool_decide (ctype x = TModule)))
  end.

(** ** Links *)

(** Consecutive children of [c]: [prv] and [nxt] are the neighbours of the segment. *)
Definition head_or (nxt : option ptr) (cs : list ptr) : option ptr :=
  match cs with [] => nxt | d :: _ => Some d end.
Definition last_or (prv : option ptr) (cs : list ptr) : option ptr :=
  match last cs with None => prv | Some d => Some d end.
Fixpoint seg (m : gmap ptr Chunk) (c : ptr) (prv : option ptr) (cs : list ptr) (nxt : option ptr) : Prop :=
  match cs with
  | [] => True
  | d :: cs' =>
    (exists x, m !! d = Some x /\ parent x = Some c /\ prev x = prv /\ next x = head_or nxt cs') /\
    seg m c (Some d) cs' nxt
  end.
Definition kids (x : Chunk) : list ptr := iterable (childList x).

Record linked (m : gmap ptr Chunk) : Prop := {
  l_seg : forall c x, m !! c = Some x -> seg m c None (kids x) None;
  l_nodup : forall c x, m !! c = Some x -> NoDup (kids x) }.

(** Children have the element type of their list. *)
Definition typed (m : gmap ptr Chunk) : Prop :=
  forall c x d y, m !! c = Some x -> d ∈ kids x -> m !! d = Some y -> child_type_ok (ctype x) (ctype y) = true.

Lemma seg_parent m c prv cs nxt d :
  seg m c prv cs nxt -> d ∈ cs -> exists x, m !! d = Some x /\ parent x = Some c.
Proof.
  revert prv. induction cs as [|e cs IH]; intros prv; [set_solver|]. intros [(x&?&?&_&_) Hs].
  intros [->|Hin]%elem_of_cons; [eauto|]. by eapply IH.
Qed.

Lemma last_or_cons prv d cs : last_or prv (d :: cs) = last_or (Some d) cs.
Proof. unfold last_or. rewrite last_cons. by destruct (last cs). Qed.

Lemma seg_app m c prv cs1 cs2 nxt :
  seg m c prv (cs1 ++ cs2) nxt <->
  seg m c prv cs1 (head_or nxt cs2) /\ seg m c (last_or prv cs1) cs2 nxt.
Proof.
  revert prv. induction cs1 as [|d cs1 IH]; intros prv; cbn [app seg]; [naive_solver|].
  rewrite IH, last_or_cons.
  assert (head_or nxt (cs1 ++ cs2) = head_or (head_or nxt cs2) cs1) as -> by (by destruct cs1).
  naive_solver.
Qed.

(** A segment reads the links of its members only. *)
Definition same_links (x y : Chunk) : Prop :=
  parent y = parent x /\ prev y = prev x /\ next y = next x.
Lemma seg_frame m m' c prv cs nxt :
  (forall d x, d ∈ cs -> m !! d = Some x -> exists y, m' !! d = Some y /\ same_links x y) ->
  seg m c prv cs nxt -> seg m' c prv cs nxt.
Proof.
  revert prv. induction cs as [|d cs IH]; intros prv Hf; cbn [seg]; [done|].
  intros [(x&Hd&Hpar&Hprev&Hnext) Hs]. split; [|apply IH; [|done]; intros; apply Hf; [by right|done]].
  destruct (Hf d x) as (y&Hy&E1&E2&E3); [left|done|]. exists y. by rewrite E1, E2, E3.
Qed.

(** ** Insertion and removal of a child, as changes of the links *)

Definition with_kids (x : Chunk) (l : list ptr) : Chunk :=
  with_childList x (mkChunkList l (spatial (childList x)) (named (childList x))).

(** What inserting [d] between [pre] and [post] under [c] does to the chunk [e]. *)
Definition splice_in (c : ptr) (pre : list ptr) (d : ptr) (post : list ptr) (e : ptr) (x : Chunk) : Chunk :=
  let x := if decide (e = d)
           then with_parent (with_next (with_prev x (last pre)) (head post)) (Some c) else x in
  let x := if decide (last pre = Some e) then with_next x (Some d) else x in
  let x := if decide (head post = Some e) then with_prev x (Some d) else x in
  if decide (e = c) then with_kids x (pre ++ d :: post) else x.
(** Removing it again: [d] keeps its own pointers. *)
Definition splice_out (c : ptr) (pre : list ptr) (d : ptr) (post : list ptr) (e : ptr) (x : Chunk) : Chunk :=
  let x := if decide (last pre = Some e) then with_next x (head post) else x in
  let x := if decide (head post = Some e) then with_prev x (last pre) else x in
  if decide (e = c) then with_kids x (pre ++ post) else x.

(** Two chunks that differ in their size or their positions at most. *)
Definition sim (x y : Chunk) : Prop :=
  ctype y = ctype x /\ same_links x y /\ positionIndex y = positionIndex x /\
  childList y = childList x /\ semantic y = semantic x.
Definition spliced (f : ptr -> Chunk -> Chunk) (m m' : gmap ptr Chunk) : Prop :=
  forall e, match m !! e, m' !! e with
            | Some x, Some y => sim (f e x) y
            | None, None => True
            | _, _ => False
            end.

#[export] Instance sim_refl : Reflexive sim.
Proof. by intros x. Qed.
#[export] Instance sim_trans : Transitive sim.
Proof. intros x y z (?&(?&?&?)&?&?&?) (?&(?&?&?)&?&?&?). unfold sim, same_links. naive_solver congruence. Qed.

Lemma spliced_lookup f m m' e y :
  spliced f m m' -> m' !! e = Some y -> exists x, m !! e = Some x /\ sim (f e x) y.
Proof. intros Hs Hy. specialize (Hs e). rewrite Hy in Hs. destruct (m !! e); [eauto|done]. Qed.
Lemma spliced_lookup_l f m m' e x :
  spliced f m m' -> m !! e = Some x -> exists y, m' !! e = Some y /\ sim (f e x) y.
Proof. intros Hs Hx. specialize (Hs e). rewrite Hx in Hs. destruct (m' !! e); [eauto|done]. Qed.

(** A child is in one list only. *)
Lemma linked_unique m c x c' x' d :
  linked m -> m !! c = Some x -> m !! c' = Some x' -> d ∈ kids x -> d ∈ kids x' -> c = c'.
Proof.
  intros Hl Hx Hx' Hd Hd'.
  destruct (seg_parent _ _ _ _ _ d (l_seg _ Hl c x Hx) Hd) as (y&Hy&Hp).
  destruct (seg_parent _ _ _ _ _ d (l_seg _ Hl c' x' Hx') Hd') as (y'&Hy'&Hp'). congruence.
Qed.

Lemma last_elem {A} (l : list A) e : last l = Some e -> e ∈ l.
Proof. intros [l' ->]%last_Some. set_solver. Qed.
Lemma head_elem {A} (l : list A) e : head l = Some e -> e ∈ l.
Proof. destruct l; cbn; [done|]. intros [= ->]. left. Qed.
Lemma last_or_None cs : last_or None cs = last cs.
Proof. unfold last_or. by destruct (last cs). Qed.
Lemma head_or_None cs : head_or None cs = head cs.
Proof. by destruct cs. Qed.

(** A list splits at the first occurrence of an element in one way. *)
Lemma split_unique {A} (d : A) pre post pre' post' :
  pre ++ d :: post = pre' ++ d :: post' -> d ∉ pre -> d ∉ pre' -> pre = pre' /\ post = post'.
Proof.
  revert pre'. induction pre as [|a pre IH]; intros [|b pre'] E H1 H2; cbn in E.
  - by simplify_eq.
  - injection E as <- _. set_solver.
  - injection E as -> _. set_solver.
  - injection E as <- E. destruct (IH pre' E) as [-> ->]; set_solver.
Qed.

(** Redirecting the outer pointers of a segment. *)
Lemma seg_set_next m m' c prv cs nxt nxt' :
  NoDup cs ->
  (forall e x, e ∈ cs -> m !! e = Some x -> exists y, m' !! e = Some y /\
     parent y = parent x /\ prev y = prev x /\
     next y = if decide (last cs = Some e) then nxt' else next x) ->
  seg m c prv cs nxt -> seg m' c prv cs nxt'.
Proof.
  intros Hnd Hf Hs. destruct cs as [|q cs _] using rev_ind; [done|].
  apply NoDup_app in Hnd as (_&Hnin&_). rewrite seg_app in Hs. destruct Hs as [Hs [(x&Hq&E1&E2&E3) _]].
  apply seg_app. split.
  - eapply seg_frame; [|exact Hs]. intros d y Hd Hy. destruct (Hf d y) as (z&Hz&F1&F2&F3); [set_solver|done|].
    exists z. split; [done|]. split_and!; [done|done|]. rewrite F3, last_snoc, decide_False; [done|].
    intros [= ->]. apply (Hnin d Hd). left.
  - cbn. split; [|done]. destruct (Hf q x) as (z&Hz&F1&F2&F3); [set_solver|done|].
    exists z. rewrite F1, F2, F3, last_snoc, decide_True by done. by split_and!.
Qed.
Lemma seg_set_prev m m' c prv prv' cs nxt :
  NoDup cs ->
  (forall e x, e ∈ cs -> m !! e = Some x -> exists y, m' !! e = Some y /\
     parent y = parent x /\ next y = next x /\
     prev y = if decide (head cs = Some e) then prv' else prev x) ->
  seg m c prv cs nxt -> seg m' c prv' cs nxt.
Proof.
  intros Hnd Hf Hs. destruct cs as [|n cs]; [done|]. apply NoDup_cons in Hnd as [Hnin _].
  destruct Hs as [(x&Hn&E1&E2&E3) Hs]. split.
  - destruct (Hf n x) as (z&Hz&F1&F2&F3); [left|done|]. exists z.
    rewrite F1, F2, F3, decide_True by done. by split_and!.
  - eapply seg_frame; [|exact Hs]. intros d y Hd Hy. destruct (Hf d y) as (z&Hz&F1&F2&F3); [by right|done|].
    exists z. split; [done|]. split_and!; [done| |done]. rewrite F3, decide_False; [done|].
    cbn. intros [= ->]. done.
Qed.

(** Field-wise simplification of the updates. *)
Ltac fields :=
  repeat match goal with
  | |- context [decide ?P] => destruct (decide P)
  | H : context [decide ?P] |- _ => destruct (decide P)
  end; cbn in *.

Section splicing.
Context (m m' : gmap ptr Chunk) (c : ptr) (x : Chunk) (pre : list ptr) (d : ptr) (post : list ptr).
Context (Hl : linked m) (Hx : m !! c = Some x).

(** Members of the list of [c] are in no other list. *)
Lemma other_list c' x' e : m !! c' = Some x' -> c' <> c -> e ∈ kids x' -> e ∉ kids x.
Proof. intros Hx' Hne He He'. apply Hne. by eapply linked_unique. Qed.

Lemma inserted_linked :
  kids x = pre ++ post -> is_Some (m !! d) ->
  (forall e y, m !! e = Some y -> d ∉ kids y) ->
  spliced (splice_in c pre d post) m m' -> linked m'.
Proof.
  intros Hk [xd Hd] Hnew Hs.
  assert (d ∉ pre /\ d ∉ post) as [Hdpre Hdpost] by (specialize (Hnew c x Hx); rewrite Hk in Hnew; set_solver).
  pose proof (l_nodup _ Hl c x Hx) as Hnd. rewrite Hk in Hnd. apply NoDup_app in Hnd as (Hnd1&Hdis&Hnd2).
  assert (forall c' y, m' !! c' = Some y -> exists x', m !! c' = Some x' /\
    kids y = if decide (c' = c) then pre ++ d :: post else kids x') as Hkids.
  { intros c' y Hy. destruct (spliced_lookup _ _ _ _ _ Hs Hy) as (x'&Hx'&Hsim). exists x'. split; [done|].
    destruct Hsim as (_&_&_&Hc&_). unfold kids. rewrite Hc. unfold splice_in. by fields. }
  split; intros c' y Hy; destruct (Hkids c' y Hy) as (x'&Hx'&->); destruct (decide (c' = c)) as [->|Hne].
  - pose proof (l_seg _ Hl c x Hx) as Hseg. rewrite Hk, seg_app in Hseg. destruct Hseg as [Hs1 Hs2].
    apply seg_app. split; [|split].
    + eapply seg_set_next; [done| |exact Hs1]. intros e z He Hz.
      destruct (spliced_lookup_l _ _ _ _ _ Hs Hz) as (w&Hw&_&(E1&E2&E3)&_). exists w. split; [done|].
      rewrite E1, E2, E3. assert (e <> d) by set_solver.
      assert (head post <> Some e) by (intros Hh%head_elem; set_solver).
      unfold splice_in. rewrite (decide_False (P := e = d)), (decide_False (P := head post = Some e)) by done.
      by fields.
    + destruct (spliced_lookup_l _ _ _ _ _ Hs Hd) as (w&Hw&_&(E1&E2&E3)&_). exists w. split; [done|].
      assert (last pre <> Some d) by (intros Hh%last_elem; set_solver).
      assert (head post <> Some d) by (intros Hh%head_elem; set_solver).
      rewrite E1, E2, E3, last_or_None, head_or_None. unfold splice_in.
      rewrite (decide_True (P := d = d)), (decide_False (P := last pre = _)), (decide_False (P := head post = _)) by done.
      by fields.
    + eapply seg_set_prev; [done| |exact Hs2]. intros e z He Hz.
      destruct (spliced_lookup_l _ _ _ _ _ Hs Hz) as (w&Hw&_&(E1&E2&E3)&_). exists w. split; [done|].
      rewrite E1, E2, E3. assert (e <> d) by set_solver.
      assert (last pre <> Some e) by (intros Hh%last_elem; set_solver).
      unfold splice_in. rewrite (decide_False (P := e = d)), (decide_False (P := last pre = Some e)) by done.
      by fields.
  - eapply seg_frame; [|by apply (l_seg _ Hl)]. intros e z He Hz.
    destruct (spliced_lookup_l _ _ _ _ _ Hs Hz) as (w&Hw&_&Hlk&_). exists w. split; [done|].
    pose proof (other_list _ _ _ Hx' Hne He) as Hno. rewrite Hk in Hno.
    assert (e <> d) by (intros ->; exact (Hnew _ _ Hx' He)).
    assert (last pre <> Some e) by (intros Hh%last_elem; set_solver).
    assert (head post <> Some e) by (intros Hh%head_elem; set_solver).
    destruct Hlk as (E1&E2&E3). unfold same_links. rewrite E1, E2, E3. unfold splice_in.
    rewrite (decide_False (P := e = d)), (decide_False (P := last pre = _)), (decide_False (P := head post = _)) by done.
    by fields.
  - apply NoDup_app. split_and!; [done| |by apply NoDup_cons].
    intros e He [->|He']%elem_of_cons; [done|]. by eapply Hdis.
  - by apply (l_nodup _ Hl c').
Qed.

Lemma removed_linked :
  kids x = pre ++ d :: post ->
  spliced (splice_out c pre d post) m m' -> linked m'.
Proof.
  intros Hk Hs.
  pose proof (l_nodup _ Hl c x Hx) as Hnd. rewrite Hk in Hnd. apply NoDup_app in Hnd as (Hnd1&Hdis&Hnd2).
  apply NoDup_cons in Hnd2 as [Hdpost Hnd2].
  assert (forall c' y, m' !! c' = Some y -> exists x', m !! c' = Some x' /\
    kids y = if decide (c' = c) then pre ++ post else kids x') as Hkids.
  { intros c' y Hy. destruct (spliced_lookup _ _ _ _ _ Hs Hy) as (x'&Hx'&Hsim). exists x'. split; [done|].
    destruct Hsim as (_&_&_&Hc&_). unfold kids. rewrite Hc. unfold splice_out. by fields. }
  split; intros c' y Hy; destruct (Hkids c' y Hy) as (x'&Hx'&->); destruct (decide (c' = c)) as [->|Hne].
  - pose proof (l_seg _ Hl c x Hx) as Hseg. rewrite Hk, seg_app in Hseg. destruct Hseg as [Hs1 [_ Hs2]].
    apply seg_app. split.
    + eapply seg_set_next; [done| |exact Hs1]. intros e z He Hz.
      destruct (spliced_lookup_l _ _ _ _ _ Hs Hz) as (w&Hw&_&(E1&E2&E3)&_). exists w. split; [done|].
      rewrite E1, E2, E3, head_or_None.
      assert (head post <> Some e) by (intros Hh%head_elem; set_solver).
      unfold splice_out. rewrite (decide_False (P := head post = Some e)) by done. by fields.
    + eapply seg_set_prev; [done| |exact Hs2]. intros e z He Hz.
      destruct (spliced_lookup_l _ _ _ _ _ Hs Hz) as (w&Hw&_&(E1&E2&E3)&_). exists w. split; [done|].
      rewrite E1, E2, E3, last_or_None.
      assert (last pre <> Some e) by (intros Hh%last_elem; set_solver).
      unfold splice_out. rewrite (decide_False (P := last pre = Some e)) by done. by fields.
  - eapply seg_frame; [|by apply (l_seg _ Hl)]. intros e z He Hz.
    destruct (spliced_lookup_l _ _ _ _ _ Hs Hz) as (w&Hw&_&Hlk&_). exists w. split; [done|].
    pose proof (other_list _ _ _ Hx' Hne He) as Hno. rewrite Hk in Hno.
    assert (last pre <> Some e) by (intros Hh%last_elem; set_solver).
    assert (head post <> Some e) by (intros Hh%head_elem; set_solver).
    destruct Hlk as (E1&E2&E3). unfold same_links. rewrite E1, E2, E3. unfold splice_out.
    rewrite (decide_False (P := last pre = _)), (decide_False (P := head post = _)) by done.
    by fields.
  - apply NoDup_app. split_and!; [done| |done]. intros e He He'. eapply Hdis; [done|by right].
  - by apply (l_nodup _ Hl c').
Qed.
End splicing.

(** ** Symbolic heaps *)

(** The chunks [k] are those of [m] with [f] applied to each. *)
Definition tracked (f : ptr -> Chunk -> Chunk) (m k : gmap ptr Chunk) : Prop :=
  forall e, k !! e = f e <$> m !! e.
Definition upd (f : ptr -> Chunk -> Chunk) (c : ptr) (g : Chunk -> Chunk) (e : ptr) (x : Chunk) : Chunk :=
  if decide (e = c) then g (f e x) else f e x.

Lemma tracked_id m : tracked (fun _ x => x) m m.
Proof. intros e. by destruct (m !! e). Qed.
Lemma tracked_lookup f m k e x : tracked f m k -> m !! e = Some x -> k !! e = Some (f e x).
Proof. intros Ht Hx. by rewrite Ht, Hx. Qed.
Lemma tracked_upd f m k c g x :
  tracked f m k -> m !! c = Some x -> tracked (upd f c g) m (<[c := g (f c x)]> k).
Proof.
  intros Ht Hx e. unfold upd. destruct (decide (e = c)) as [->|Hne].
  - by rewrite lookup_insert_eq, Hx.
  - by rewrite lookup_insert_ne, Ht.
Qed.
Lemma tracked_spliced f g m k :
  (forall e x, m !! e = Some x -> sim (g e x) (f e x)) -> tracked f m k -> spliced g m k.
Proof. intros Hs Ht e. rewrite Ht. destruct (m !! e) eqn:E; cbn; [|done]. by apply Hs. Qed.

(** Position objects are alive, and none is relative to a sibling. *)
Definition not_subsequent (z : Position) : Prop :=
  match pbase z with SubsequentPosition _ => False | _ => True end.
Definition pos_good (ps : gmap ptr Position) (x : Chunk) : Prop :=
  forall p, position_of x = Some p -> exists z, ps !! p = Some z /\ not_subsequent z.
Definition pos_valid (h : Heap) : Prop := forall e x, chunks h !! e = Some x -> pos_good (positions h) x.

(** Field preservation of the symbolic updates. *)
Definition preserves {A} (f : ptr -> Chunk -> Chunk) (proj : Chunk -> A) : Prop :=
  forall e x, proj (f e x) = proj x.
Lemma preserves_upd {A} (proj : Chunk -> A) f c g :
  preserves f proj -> (forall x, proj (g x) = proj x) -> preserves (upd f c g) proj.
Proof. intros Hf Hg e x. unfold upd. case_decide; [rewrite Hg|]; apply Hf. Qed.
Ltac pres := repeat (apply preserves_upd; [|reflexivity]); first [assumption | intros ??; reflexivity].

Section symbolic.
Context (h : Heap) (Hpv : pos_valid h).
Implicit Types (f : ptr -> Chunk -> Chunk) (k : gmap ptr Chunk) (c d q : ptr) (x y : Chunk).

Lemma wp_setAfterThis_if f k n x q (Q : unit -> Heap -> Prop) :
  tracked f (chunks h) k -> chunks h !! n = Some x -> preserves f position_of ->
  Q tt (with_chunks h k) ->
  wp (p ← getPosition n; Position.setAfterThis_if p q) Q (with_chunks h k).
Proof.
  intros Ht Hx Hp HQ. mstep. mstep; [by eapply tracked_lookup|]. rewrite Hp.
  destruct (position_of x) as [p|] eqn:Ep; cbn; [|done].
  destruct (Hpv n x Hx p Ep) as (z&Hz&Hns). mstep. mstep; [done|].
  unfold not_subsequent in Hns. by destruct (pbase z).
Qed.

Lemma wp_modify_tracked f k c g x (Q : unit -> Heap -> Prop) :
  tracked f (chunks h) k -> chunks h !! c = Some x ->
  (forall k', tracked (upd f c g) (chunks h) k' -> Q tt (with_chunks h k')) ->
  wp (modify c g) Q (with_chunks h k).
Proof.
  intros Ht Hx HQ. mstep; [by eapply tracked_lookup|]. apply HQ. by apply tracked_upd.
Qed.

Lemma wp_setNextSibling f k q x n (Q : unit -> Heap -> Prop) :
  tracked f (chunks h) k -> chunks h !! q = Some x -> (forall n', n = Some n' -> is_Some (chunks h !! n')) ->
  preserves f position_of ->
  (forall k', tracked (upd f q (fun x => with_next x n)) (chunks h) k' -> Q tt (with_chunks h k')) ->
  wp (ChunkMutator.setNextSibling q n) Q (with_chunks h k).
Proof.
  intros Ht Hx Hn Hp HQ. unfold ChunkMutator.setNextSibling. mstep.
  eapply wp_modify_tracked; [done..|]. intros k' Hk'. destruct n as [n|]; [|mstep; by apply HQ].
  destruct (Hn n eq_refl) as [y Hy]. eapply wp_setAfterThis_if; [done|done| |by apply HQ].
  intros e z. rewrite <- (Hp e z). unfold upd. by case_decide.
Qed.
Lemma wp_setPreviousSibling f k q x n (Q : unit -> Heap -> Prop) :
  tracked f (chunks h) k -> chunks h !! q = Some x ->
  preserves f position_of ->
  (forall k', tracked (upd f q (fun x => with_prev x n)) (chunks h) k' -> Q tt (with_chunks h k')) ->
  wp (ChunkMutator.setPreviousSibling q n) Q (with_chunks h k).
Proof.
  intros Ht Hx Hp HQ. unfold ChunkMutator.setPreviousSibling. mstep.
  eapply wp_modify_tracked; [done..|]. intros k' Hk'. destruct n as [n|]; [|mstep; by apply HQ].
  eapply wp_setAfterThis_if; [done|done| |by apply HQ].
  intros e z. rewrite <- (Hp e z). unfold upd. by case_decide.
Qed.

End symbolic.

(** The list of a chunk that has children and no maps. *)
Definition plain_list (x : Chunk) : Prop :=
  has_children (ctype x) = true /\ spatial (childList x) = None /\ named (childList x) = None.

Section symbolic_lists.
Context (h : Heap).
Implicit Types (f : ptr -> Chunk -> Chunk) (k : gmap ptr Chunk) (c d q : ptr) (x y : Chunk).

Lemma wp_children_at f k c x (Q : ChunkListImpl -> Heap -> Prop) :
  tracked f (chunks h) k -> chunks h !! c = Some x -> has_children (ctype x) = true ->
  preserves f ctype -> preserves f childList ->
  Q (childList x) (with_chunks h k) -> wp (children_at c) Q (with_chunks h k).
Proof.
  intros Ht Hx Hc Hp1 Hp2 HQ. unfold children_at, getChildren. do 2 mstep.
  mstep; [by eapply tracked_lookup|]. rewrite Hp1, Hp2, Hc. done.
Qed.

Lemma wp_genericAdd f k c x d y (Q : unit -> Heap -> Prop) :
  tracked f (chunks h) k -> chunks h !! c = Some x -> chunks h !! d = Some y -> plain_list x ->
  child_type_ok (ctype x) (ctype y) = true -> preserves f ctype -> preserves f childList ->
  (forall k', tracked (upd f c (fun x' => with_kids x' (kids x ++ [d]))) (chunks h) k' -> Q tt (with_chunks h k')) ->
  wp (genericAdd c d) Q (with_chunks h k).
Proof.
  intros Ht Hx Hy (Hc&Hsp&Hnm) Hty Hp1 Hp2 HQ. unfold genericAdd, update_children.
  mstep. mstep; [by eapply tracked_lookup|]. mstep. eapply wp_children_at; [done..|].
  mstep. mstep. mstep.
  assert (wp (if v_cast (ChunkView := heap_view (ctype (f c x)) (with_chunks h k)) d
    then touch (childList x) d else mret tt) (fun _ h' => h' = with_chunks h k) (with_chunks h k)) as Htouch.
  { case_match; [|by apply wp_ret]. unfold touch. rewrite Hsp, Hnm. done. }
  eapply wp_mono; [|exact Htouch]. intros _ h' ->. do 3 mstep.
  eapply wp_lift.
  { unfold ChunkList.genericAdd. cbn. rewrite (tracked_lookup _ _ _ _ _ Ht Hy), !Hp1, Hty.
    unfold ChunkList.add. rewrite Hsp, Hnm. done. }
  mstep. mstep; [by eapply tracked_lookup|]. mstep. apply HQ.
  replace (with_childList (f c x) _) with (with_kids (f c x) (kids x ++ [d])); [by apply (tracked_upd f _ _ c (fun x' => with_kids x' (kids x ++ [d])))|].
  unfold with_kids. by rewrite Hp2, Hsp, Hnm.
Qed.

Lemma wp_genericGetLast f k c x (Q : option ptr -> Heap -> Prop) :
  tracked f (chunks h) k -> chunks h !! c = Some x -> has_children (ctype x) = true ->
  preserves f ctype -> preserves f childList ->
  Q (last (kids x)) (with_chunks h k) -> wp (genericGetLast c) Q (with_chunks h k).
Proof. intros. unfold genericGetLast. mstep. by eapply wp_children_at. Qed.

Lemma wp_genericIndexOf f k c x i y pre post (Q : Z -> Heap -> Prop) :
  tracked f (chunks h) k -> chunks h !! c = Some x -> has_children (ctype x) = true ->
  chunks h !! i = Some y -> child_type_ok (ctype x) (ctype y) = true ->
  preserves f ctype -> preserves f childList ->
  kids x = pre ++ i :: post -> i ∉ pre -> size_ok (kids x) ->
  Q (Z.of_nat (length pre)) (with_chunks h k) -> wp (genericIndexOf c i) Q (with_chunks h k).
Proof.
  intros Ht Hx Hc Hy Hty Hp1 Hp2 Hk Hpre Hsz HQ. unfold genericIndexOf. mstep. mstep; [by eapply tracked_lookup|].
  mstep. eapply wp_children_at; [done..|]. do 3 mstep.
  unfold ChunkList.genericIndexOf. cbn. rewrite (tracked_lookup _ _ _ _ _ Ht Hy), !Hp1, Hty.
  destruct (indexOf_spec (kids x) i Hsz) as [[Hn _]|(pre'&post'&E&Hpre'&Ei)]; [rewrite Hk in Hn; set_solver|].
  unfold kids in Ei. rewrite Ei.
  rewrite Hk in E. by destruct (split_unique _ _ _ _ _ E Hpre Hpre') as [-> _].
Qed.

Lemma wp_genericInsertAt f k c x d y pre post (Q : unit -> Heap -> Prop) :
  tracked f (chunks h) k -> chunks h !! c = Some x -> chunks h !! d = Some y -> plain_list x ->
  child_type_ok (ctype x) (ctype y) = true -> preserves f ctype -> preserves f childList ->
  kids x = pre ++ post ->
  (forall k', tracked (upd f c (fun x' => with_kids x' (pre ++ d :: post))) (chunks h) k' -> Q tt (with_chunks h k')) ->
  wp (genericInsertAt c (Z.of_nat (length pre)) d) Q (with_chunks h k).
Proof.
  intros Ht Hx Hy (Hc&Hsp&Hnm) Hty Hp1 Hp2 Hk HQ. unfold genericInsertAt.
  mstep. mstep; [by eapply tracked_lookup|]. mstep. eapply wp_children_at; [done..|]. do 3 mstep.
  eapply wp_lift.
  { unfold ChunkList.genericInsertAt. cbn. rewrite (tracked_lookup _ _ _ _ _ Ht Hy), !Hp1, Hty.
    unfold IterableChunkList.insertAt. fold (kids x). rewrite Hk, length_app.
    rewrite (proj2 (Z.ltb_ge _ _)), (proj2 (Z.ltb_ge _ _)) by lia. cbn [orb mbind res_bind].
    rewrite Nat2Z.id, take_app_length, drop_app_length. done. }
  mstep. mstep; [by eapply tracked_lookup|]. mstep. apply HQ.
  replace (with_childList (f c x) _) with (with_kids (f c x) (pre ++ d :: post));
    [by apply (tracked_upd f _ _ c (fun x' => with_kids x' (pre ++ d :: post)))|].
  unfold with_kids. by rewrite Hp2.
Qed.

Lemma wp_genericRemove f k c x d y pre post (Q : unit -> Heap -> Prop) :
  tracked f (chunks h) k -> chunks h !! c = Some x -> chunks h !! d = Some y -> plain_list x ->
  child_type_ok (ctype x) (ctype y) = true -> preserves f ctype -> preserves f childList ->
  kids x = pre ++ d :: post -> d ∉ pre -> size_ok (kids x) ->
  (forall k', tracked (upd f c (fun x' => with_kids x' (pre ++ post))) (chunks h) k' -> Q tt (with_chunks h k')) ->
  wp (genericRemove c d) Q (with_chunks h k).
Proof.
  intros Ht Hx Hy (Hc&Hsp&Hnm) Hty Hp1 Hp2 Hk Hpre Hsz HQ. unfold genericRemove, update_children.
  mstep. mstep; [by eapply tracked_lookup|]. mstep. eapply wp_children_at; [done..|].
  mstep. mstep. mstep.
  assert (wp (if v_cast (ChunkView := heap_view (ctype (f c x)) (with_chunks h k)) d
    then touch (childList x) d else mret tt) (fun _ h' => h' = with_chunks h k) (with_chunks h k)) as Htouch.
  { case_match; [|by apply wp_ret]. unfold touch. rewrite Hsp, Hnm. done. }
  eapply wp_mono; [|exact Htouch]. intros _ h' ->. do 3 mstep.
  eapply wp_lift.
  { unfold ChunkList.genericRemove. cbn. rewrite (tracked_lookup _ _ _ _ _ Ht Hy), !Hp1, Hty.
    unfold ChunkList.remove. rewrite Hsp, Hnm. done. }
  mstep. mstep; [by eapply tracked_lookup|]. mstep. apply HQ.
  assert (IterableChunkList.remove (kids x) d = pre ++ post) as Er.
  { destruct (remove_spec (kids x) d Hsz) as [[Hn _]|(pre'&post'&E&Hpre'&Ei)]; [rewrite Hk in Hn; set_solver|].
    rewrite Ei. rewrite Hk in E. by destruct (split_unique _ _ _ _ _ E Hpre Hpre') as [-> ->]. }
  replace (with_childList (f c x) _) with (with_kids (f c x) (pre ++ post));
    [by apply (tracked_upd f _ _ c (fun x' => with_kids x' (pre ++ post)))|].
  unfold with_kids. by rewrite Hp2, Hsp, Hnm, <- Er.
Qed.
End symbolic_lists.

Lemma tracked_ext f g m k :
  (forall e x, m !! e = Some x -> f e x = g e x) -> tracked f m k -> tracked g m k.
Proof. intros He Ht e. rewrite Ht. destruct (m !! e) eqn:E; cbn; [|done]. by rewrite (He e). Qed.
Lemma wp_tracked {A} (m : M A) Q h : wp m Q (with_chunks h (chunks h)) -> wp m Q h.
Proof. by destruct h. Qed.

(** ** The link phase of the operations *)
Section link_phase.
Context (h : Heap) (Hpv : pos_valid h) (Hl : linked (chunks h)).
Context (mu : ChunkMutator) (x : Chunk) (Hx : chunks h !! chunk mu = Some x) (Hpl : plain_list x).
Context (Hsz : size_ok (kids x)).
Context (d : ptr) (y : Chunk) (Hy : chunks h !! d = Some y).
Context (Hty : child_type_ok (ctype x) (ctype y) = true) (Hdc : d <> chunk mu).

(** Children exist and are not their own parent. *)
Lemma kid_exists e : e ∈ kids x -> exists z, chunks h !! e = Some z /\ parent z = Some (chunk mu).
Proof. by apply (seg_parent _ _ _ _ _ e (l_seg _ Hl _ _ Hx)). Qed.

Ltac splice_cases :=
  unfold splice_in, splice_out, upd; cbn [head]; intros e z He;
  repeat match goal with
  | E : last _ = _ |- _ => rewrite E in *; clear E
  | E : head _ = _ |- _ => rewrite E in *; clear E
  end;
  repeat match goal with
  | |- context [decide ?P] => destruct (decide P)
  end; simplify_eq; try done; try (exfalso; congruence).

Section insertion.
Context (Hnew : forall e z, chunks h !! e = Some z -> d ∉ kids z).

Lemma append_links (Q : unit -> Heap -> Prop) :
  next y = None ->
  (forall k', tracked (splice_in (chunk mu) (kids x) d []) (chunks h) k' ->
     wp (ChunkMutator.ensurePosition mu d;; ChunkMutator.updateSizesAndAuthorities mu d) Q (with_chunks h k')) ->
  wp (ChunkMutator.append mu d) Q h.
Proof.
  intros Hn HQ. apply wp_tracked. unfold ChunkMutator.append. mstep.
  eapply wp_genericGetLast; [apply tracked_id|done|apply Hpl|done|done|].
  destruct (last (kids x)) as [q|] eqn:El.
  - assert (q <> d) as Hqd by (intros ->; exact (Hnew _ _ Hx (last_elem _ _ El))).
    destruct (kid_exists q) as (zq&Hzq&_); [by apply last_elem|].
    mstep. mstep. eapply wp_setPreviousSibling; [done|apply tracked_id|done|pres|]. intros k1 Ht1.
    eapply wp_setNextSibling; [done|done|done| |pres|]. { intros ? [= <-]. eauto. } intros k2 Ht2.
    mstep. eapply wp_modify_tracked; [done|done|]. intros k3 Ht3.
    mstep. eapply wp_genericAdd; [done..|pres|pres|]. intros k4 Ht4. apply HQ.
    eapply tracked_ext; [|exact Ht4]. splice_cases.
    all: unfold with_parent, with_next, with_prev; cbn; by rewrite Hn.
  - assert (kids x = []) as Ek by (by apply last_None).
    do 2 mstep. eapply wp_modify_tracked; [apply tracked_id|done|]. intros k1 Ht1.
    eapply wp_modify_tracked; [done|done|]. intros k2 Ht2.
    mstep. eapply wp_modify_tracked; [done|done|]. intros k3 Ht3.
    mstep. eapply wp_genericAdd; [done..|pres|pres|]. intros k4 Ht4. apply HQ.
    eapply tracked_ext; [|exact Ht4]. splice_cases.
Qed.

Section neighbours.
Context (pre : list ptr) (i : ptr) (post : list ptr) (Hk : kids x = pre ++ i :: post).

Lemma point_links : i ∉ pre /\ i ∉ post /\ (forall e, e ∈ pre -> e ∉ post) /\ exists z, chunks h !! i = Some z /\
  prev z = last pre /\ next z = head post.
Proof.
  pose proof (l_nodup _ Hl _ _ Hx) as Hnd. rewrite Hk in Hnd. apply NoDup_app in Hnd as (_&Hd&Hnd).
  apply NoDup_cons in Hnd as [Hi _]. pose proof (l_seg _ Hl _ _ Hx) as Hseg. rewrite Hk in Hseg.
  apply seg_app in Hseg as [_ [(z&Hz&_&Hp&Hn) _]]. rewrite last_or_None in Hp. rewrite head_or_None in Hn.
  split_and!; [intros H; by apply (Hd _ H); left|done|intros e He He'; by apply (Hd _ He); right|eauto].
Qed.
Lemma neighbour_exists e : e ∈ pre ++ i :: post ->
  (exists z, chunks h !! e = Some z) /\ e <> d.
Proof.
  intros He. destruct (kid_exists e) as (z&Hz&_); [by rewrite Hk|]. split; [eauto|].
  intros ->. apply (Hnew _ _ Hx). by rewrite Hk.
Qed.
Lemma point_type z : typed (chunks h) -> chunks h !! i = Some z -> child_type_ok (ctype x) (ctype z) = true.
Proof. intros Ht Hz. eapply (Ht (chunk mu) x i z); [done| |done]. rewrite Hk. set_solver. Qed.

Lemma insertBefore_links (Q : unit -> Heap -> Prop) :
  typed (chunks h) -> mode h = MODE_OFFSET ->
  (forall k', tracked (splice_in (chunk mu) pre d (i :: post)) (chunks h) k' ->
     wp (ChunkMutator.ensurePosition mu d) (fun _ h1 => mode h1 = MODE_OFFSET /\ is_Some (chunks h1 !! d) /\
       wp (ChunkMutator.updateSizesAndAuthorities mu d) Q h1) (with_chunks h k')) ->
  wp (ChunkMutator.insertBefore mu (Some i) d) Q h.
Proof.
  intros Htyp Hmode HQ. destruct point_links as (Hipre&Hipost&Hdis&zi&Hzi&Hprev&Hnext).
  destruct (neighbour_exists i) as [_ Hid]; [set_solver|].
  unfold ChunkMutator.insertBefore. mstep. mstep; [done|]. rewrite Hprev.
  assert (forall f k, tracked f (chunks h) k -> preserves f position_of -> preserves f ctype -> preserves f childList ->
    (forall e z, chunks h !! e = Some z -> upd (upd (upd (upd (upd f d (fun x => with_next x (Some i)))
       d (fun x => with_prev x (last pre))) i (fun x => with_prev x (Some d)))
       (chunk mu) (fun x' => with_kids x' (pre ++ d :: i :: post))) d (fun x => with_parent x (Some (chunk mu))) e z
       = splice_in (chunk mu) pre d (i :: post) e z) ->
    wp (ChunkMutator.setNextSibling d (Some i);; ChunkMutator.setPreviousSibling d (last pre);;
      ChunkMutator.setPreviousSibling i (Some d);; index ← genericIndexOf (chunk mu) i;
      genericInsertAt (chunk mu) index d;; setParent d (Some (chunk mu));; ChunkMutator.ensurePosition mu d;;
      h ← getHeap; q ← getPreviousSibling d;
      (if PositionFactory.needsSpecialCaseFirst (mode h) && negb (bool_decide (is_Some q)) then
         p ← getPosition i; delete_position p;; s ← getSize d;
         pos ← PositionFactory.makePosition (Some d) i s; setPosition i (Some pos)
       else mret tt);; ChunkMutator.updateSizesAndAuthorities mu d) Q (with_chunks h k)) as Hrest.
  { intros f k Ht P1 P2 P3 Heq.
    mstep. eapply wp_setNextSibling; [done|done|done| |pres|]. { intros ? [= <-]. eauto. } intros k1 Ht1.
    mstep. eapply wp_setPreviousSibling; [done|done|done|pres|]. intros k2 Ht2.
    mstep. eapply wp_setPreviousSibling; [done|done|done|pres|]. intros k3 Ht3.
    mstep. eapply wp_genericIndexOf; [exact Ht3|done|apply Hpl|done|by apply point_type|pres|pres|exact Hk|done|done|].
    mstep. eapply wp_genericInsertAt; [exact Ht3|done|done|done|done|pres|pres|exact Hk|]. intros k4 Ht4.
    mstep. eapply wp_modify_tracked; [exact Ht4|done|]. intros k5 Ht5.
    mstep. eapply wp_mono; [|apply (HQ k5)].
    - intros _ h1 (Hm1&[y1 Hy1]&Hw). mstep. mstep. mstep. mstep; [done|]. rewrite Hm1. cbn. exact Hw.
    - eapply tracked_ext; [|exact Ht5]. exact Heq. }
  mstep. destruct (last pre) as [q|] eqn:El.
  - destruct (neighbour_exists q) as [[zq Hzq] Hqd]; [apply last_elem in El; set_solver|].
    assert (q <> i) as Hqi by (intros ->; apply Hipre; by apply last_elem).
    apply wp_tracked. eapply wp_setNextSibling; [done|apply tracked_id|done| |pres|]. { intros ? [= <-]. eauto. }
    intros k Ht. apply (Hrest _ _ Ht); [pres..|]. splice_cases.
  - apply wp_ret, wp_tracked. apply (Hrest _ _ (tracked_id _)); [pres..|]. splice_cases.
Qed.

Lemma insertAfter_links (Q : unit -> Heap -> Prop) :
  typed (chunks h) ->
  (forall k', tracked (splice_in (chunk mu) (pre ++ [i]) d post) (chunks h) k' ->
     wp (ChunkMutator.ensurePosition mu d) (fun _ => wp (ChunkMutator.updateSizesAndAuthorities mu d)
       (fun _ => wp (ChunkMutator.renewNextPosition d) Q)) (with_chunks h k')) ->
  wp (ChunkMutator.insertAfter mu (Some i) d) Q h.
Proof.
  intros Htyp HQ. destruct point_links as (Hipre&Hipost&Hdis&zi&Hzi&Hprev&Hnext).
  destruct (neighbour_exists i) as [_ Hid]; [set_solver|].
  unfold ChunkMutator.insertAfter. apply wp_tracked.
  mstep. eapply wp_setPreviousSibling; [done|apply tracked_id|done|pres|]. intros k0 Ht0.
  mstep. mstep. mstep; [by eapply tracked_lookup|].
  assert (next (upd (fun _ x => x) d (fun x => with_prev x (Some i)) i zi) = head post) as ->.
  { unfold upd. by rewrite decide_False. }
  assert (forall f k, tracked f (chunks h) k -> preserves f position_of -> preserves f ctype -> preserves f childList ->
    (forall e z, chunks h !! e = Some z -> upd (upd (upd (upd f d (fun x => with_next x (head post)))
       i (fun x => with_next x (Some d))) (chunk mu) (fun x' => with_kids x' (pre ++ i :: d :: post)))
       d (fun x => with_parent x (Some (chunk mu))) e z
       = splice_in (chunk mu) (pre ++ [i]) d post e z) ->
    wp (ChunkMutator.setNextSibling d (head post);; ChunkMutator.setNextSibling i (Some d))
     (fun _ => wp (index ← (k ← genericIndexOf (chunk mu) i; mret (add64 k 1));
       genericInsertAt (chunk mu) index d;; setParent d (Some (chunk mu));; ChunkMutator.ensurePosition mu d;;
       ChunkMutator.updateSizesAndAuthorities mu d;; ChunkMutator.renewNextPosition d) Q) (with_chunks h k)) as Hrest.
  { intros f k Ht P1 P2 P3 Heq.
    mstep. eapply wp_setNextSibling; [done|done|done| |pres|].
    { intros n Hn%head_elem. destruct (neighbour_exists n) as [[zn Hzn] _]; [set_solver|eauto]. } intros k1 Ht1.
    eapply wp_setNextSibling; [done|done|done| |pres|]. { intros ? [= <-]. eauto. } intros k2 Ht2.
    mstep. mstep. eapply wp_genericIndexOf; [exact Ht2|done|apply Hpl|done|by apply point_type|pres|pres|exact Hk|done|done|].
    mstep. unfold size_ok in Hsz. rewrite Hk, length_app in Hsz. cbn in Hsz. change IterableChunkList.npos with (2 ^ 64 - 1) in Hsz.
    rewrite add64_small by lia.
    replace (Z.of_nat (length pre) + 1) with (Z.of_nat (length (pre ++ [i]))) by (rewrite length_app; cbn; lia).
    mstep. eapply wp_genericInsertAt; [exact Ht2|done|done|done|done|pres|pres| |]; [by rewrite Hk, <- app_assoc|].
    rewrite <- app_assoc. cbn [app]. intros k4 Ht4.
    mstep. eapply wp_modify_tracked; [exact Ht4|done|]. intros k5 Ht5.
    mstep. eapply wp_mono; [|apply (HQ k5)].
    - intros a h1 Hw. mstep. exact Hw.
    - eapply tracked_ext; [|exact Ht5]. exact Heq. }
  assert (last (pre ++ [i]) = Some i) as El by apply last_snoc.
  mstep. destruct (head post) as [n|] eqn:Eh.
  - destruct (neighbour_exists n) as [[zn Hzn] Hnd]; [apply head_elem in Eh; set_solver|].
    assert (n <> i) as Hni by (intros ->; apply Hipost; by apply head_elem).
    eapply wp_setPreviousSibling; [done|exact Ht0|done|pres|].
    intros k Ht. apply (Hrest _ _ Ht); [pres..|].  splice_cases; by rewrite <- app_assoc.
  - apply wp_ret. apply (Hrest _ _ Ht0); [pres..|]. splice_cases; by rewrite <- app_assoc.
Qed.
End neighbours.
End insertion.

(** Removing a child. *)
Lemma remove_links (Q : unit -> Heap -> Prop) pre post :
  kids x = pre ++ d :: post ->
  (forall k', tracked (splice_out (chunk mu) pre d post) (chunks h) k' ->
     wp (ChunkMutator.shrink (chunk mu) (getSize d);; ChunkMutator.updateGenerationCounts (chunk mu)) Q (with_chunks h k')) ->
  wp (ChunkMutator.remove mu d) Q h.
Proof.
  intros Hk HQ. destruct (point_links pre d post Hk) as (Hipre&Hipost&Hdis&zi&Hzi&Hprev&Hnext).
  rewrite Hy in Hzi. injection Hzi as <-.
  assert (forall e, e ∈ pre ++ post -> (exists z, chunks h !! e = Some z) /\ e <> d) as Hnb.
  { intros e He. destruct (kid_exists e) as (z&Hz&_); [rewrite Hk; set_solver|]. split; [eauto|]. set_solver. }
  assert (forall n, head post = Some n -> last pre <> Some n) as Hhl.
  { intros n Hn%head_elem Hn'%last_elem. by eapply Hdis. }
  unfold ChunkMutator.remove. apply wp_tracked. mstep. mstep; [done|]. mstep. mstep; [done|]. rewrite Hprev, Hnext.
  assert (forall f k, tracked f (chunks h) k -> preserves f position_of -> preserves f ctype -> preserves f childList ->
    (forall e z, chunks h !! e = Some z ->
       upd f (chunk mu) (fun x' => with_kids x' (pre ++ post)) e z = splice_out (chunk mu) pre d post e z) ->
    wp (genericRemove (chunk mu) d;; ChunkMutator.shrink (chunk mu) (getSize d);;
        ChunkMutator.updateGenerationCounts (chunk mu)) Q (with_chunks h k)) as Hrest.
  { intros f k Ht P1 P2 P3 Heq. mstep.
    eapply wp_genericRemove; [exact Ht|done|done|done|done|done|done|exact Hk|done|done|].
    intros k1 Ht1. apply HQ. eapply tracked_ext; [|exact Ht1]. exact Heq. }
  mstep. destruct (last pre) as [q|] eqn:El.
  - destruct (Hnb q) as [[zq Hzq] Hqd]; [apply last_elem in El; set_solver|].
    eapply wp_setNextSibling; [done|apply tracked_id|done| |pres|].
    { intros n Hn%head_elem. destruct (Hnb n) as [[zn Hzn] _]; [set_solver|eauto]. } intros k1 Ht1.
    mstep. destruct (head post) as [n|] eqn:Eh.
    + destruct (Hnb n) as [[zn Hzn] Hnd]; [apply head_elem in Eh; set_solver|]. specialize (Hhl n eq_refl).
      eapply wp_setPreviousSibling; [done|exact Ht1|done|pres|]. intros k2 Ht2.
      apply (Hrest _ _ Ht2); [pres..|]. splice_cases.
    + apply wp_ret. apply (Hrest _ _ Ht1); [pres..|]. splice_cases.
  - apply wp_ret. mstep. destruct (head post) as [n|] eqn:Eh.
    + destruct (Hnb n) as [[zn Hzn] Hnd]; [apply head_elem in Eh; set_solver|].
      eapply wp_setPreviousSibling; [done|apply tracked_id|done|pres|]. intros k2 Ht2.
      apply (Hrest _ _ Ht2); [pres..|]. splice_cases.
    + apply wp_ret. apply (Hrest _ _ (tracked_id _)); [pres..|]. splice_cases.
Qed.
End link_phase.

(** ** Addresses *)

(** The address a position gives by itself. *)
Definition fixed_address (z : Position) : option Z :=
  match z with
  | mkPosition (AbsolutePosition a) Undecorated => Some a
  | mkPosition (SlotPosition s) Undecorated => Some (slot_address s)
  | _ => None
  end.

(** The address of a chunk whose position is fixed, or an offset from its
    parent's address; with the chain of positions it is computed from. *)
Inductive addr (m : gmap ptr Chunk) (ps : gmap ptr Position) : ptr -> Z -> list ptr -> Prop :=
| addr_fixed c x p z a :
    m !! c = Some x -> positionIndex x = POSITION_OLD -> position_of x = Some p ->
    ps !! p = Some z -> fixed_address z = Some a -> addr m ps c a [p]
| addr_offset c x p o q a l :
    m !! c = Some x -> positionIndex x = POSITION_OLD -> position_of x = Some p ->
    ps !! p = Some (mkPosition (OffsetPosition (Some c) o) Undecorated) ->
    parent x = Some q -> addr m ps q a l -> addr m ps c (add64 a o) (p :: l).

Lemma addr_det m ps c a l a' l' : addr m ps c a l -> addr m ps c a' l' -> a = a' /\ l = l'.
Proof.
  intros H. revert a' l'. induction H as [c x p z a Hx Hi Hp Hz Ha|c x p o q a l Hx Hi Hp Hz Hq _ IH];
    intros a' l' H'; destruct H' as [? x' p' z' a' Hx' Hi' Hp' Hz' Ha'|? x' p' o' q' a' l' Hx' Hi' Hp' Hz' Hq' H'];
    rewrite Hx in Hx'; simplify_eq; try done.
  by destruct (IH _ _ H') as [-> ->].
Qed.

(** An offset position on the chain belongs to a chunk of the chain. *)
Lemma addr_owner m ps c a l p e o :
  addr m ps c a l -> p ∈ l -> ps !! p = Some (mkPosition (OffsetPosition (Some e) o) Undecorated) ->
  exists a' l', addr m ps e a' l' /\ (length l' <= length l)%nat.
Proof.
  induction 1 as [c x p' z a Hx Hi Hp Hz Ha|c x p' o' q a l Hx Hi Hp Hz Hq Hqa IH]; intros Hin Hpo.
  - apply list_elem_of_singleton in Hin as ->. rewrite Hpo in Hz. by simplify_eq.
  - apply elem_of_cons in Hin as [->|Hin].
    + rewrite Hpo in Hz. simplify_eq. eexists _, _. split; [by eapply addr_offset|]. done.
    + destruct (IH Hin Hpo) as (a'&l'&?&?). exists a', l'. split; [done|cbn; lia].
Qed.
Lemma addr_nodup m ps c a l : addr m ps c a l -> NoDup l /\ Forall (fun p => is_Some (ps !! p)) l.
Proof.
  induction 1 as [c x p z a Hx Hi Hp Hz Ha|c x p o q a l Hx Hi Hp Hz Hq Hqa [IH1 IH2]].
  - split; [apply NoDup_singleton|by repeat constructor].
  - split; [|by constructor]. apply NoDup_cons. split; [|done]. intros Hin.
    destruct (addr_owner _ _ _ _ _ _ _ _ Hqa Hin Hz) as (a'&l'&He&Hle).
    destruct (addr_det _ _ _ _ _ _ _ He (addr_offset _ _ _ _ _ _ _ _ _ Hx Hi Hp Hz Hq Hqa)) as [_ ->].
    cbn in Hle. lia.
Qed.
Lemma nodup_size {A} (mp : gmap ptr A) l :
  NoDup l -> Forall (fun p => is_Some (mp !! p)) l -> (length l <= size mp)%nat.
Proof.
  intros Hnd Hf. rewrite <- size_dom. rewrite <- (size_list_to_set (C := gset ptr)) by done.
  apply subseteq_size. intros p Hp%elem_of_list_to_set. apply elem_of_dom. by apply (proj1 (Forall_forall _ _) Hf).
Qed.

Lemma addr_eval h c a l fuel :
  addr (chunks h) (positions h) c a l -> (length l <= fuel)%nat ->
  Position.address (Position.get_fuel fuel) c h = Ok (a, h).
Proof.
  intros H. revert fuel. induction H as [c x p z a Hx Hi Hp Hz Ha|c x p o q a l Hx Hi Hp Hz Hq Hqa IH];
    intros fuel Hf; (destruct fuel as [|fuel]; [cbn in Hf; lia|]);
    unfold Position.address, mbind, M_bind, chunk_at; rewrite Hx, Hi, Hp; cbn [deref mret M_ret].
  - unfold mret, M_ret. cbn [Position.get_fuel]. unfold mbind, M_bind, position_at. rewrite Hz.
    destruct z as [[] []]; cbn in Ha; simplify_eq; cbn; unfold Position.base_get, mbind, M_bind, position_at;
      by rewrite Hz.
  - unfold mret, M_ret. cbn [Position.get_fuel]. unfold mbind, M_bind, position_at. rewrite Hz. cbn.
    unfold Position.base_get, mbind, M_bind, position_at. rewrite Hz. cbn.
    unfold getParent, mbind, M_bind, chunk_at. rewrite Hx. cbn. rewrite Hq.
    rewrite IH by (cbn in Hf; lia). done.
Qed.

(** The fuel of [getAddress] is enough for any address. *)
Lemma addr_getAddress h c a l : addr (chunks h) (positions h) c a l -> getAddress c h = Ok (a, h).
Proof.
  intros H. destruct (addr_nodup _ _ _ _ _ H) as [Hnd Hf].
  unfold getAddress, PositionManager.getAddress, Position.with_fuel. eapply addr_eval; [done|].
  pose proof (nodup_size _ _ Hnd Hf). lia.
Qed.

(** Addresses depend on parents and positions only. *)
Definition same_place (x y : Chunk) : Prop :=
  parent y = parent x /\ position_of y = position_of x /\ positionIndex y = positionIndex x.
Lemma addr_frame m m' ps ps' c a l :
  (forall e x, m !! e = Some x -> is_Some (position_of x) -> exists y, m' !! e = Some y /\ same_place x y) ->
  (forall p, p ∈ l -> ps' !! p = ps !! p) ->
  addr m ps c a l -> addr m' ps' c a l.
Proof.
  intros Hm Hps H. induction H as [c x p z a Hx Hi Hp Hz Ha|c x p o q a l Hx Hi Hp Hz Hq Hqa IH].
  - destruct (Hm c x Hx) as (y&Hy&E1&E2&E3); [eauto|]. 
    apply (addr_fixed _ _ c y p z a); [done|congruence|congruence|rewrite Hps; [done|left]|done].
  - destruct (Hm c x Hx) as (y&Hy&E1&E2&E3); [eauto|].
    apply (addr_offset _ _ c y p o q a l); [done|congruence|congruence|rewrite Hps; [done|left]|congruence|].
    apply IH. intros. apply Hps. by right.
Qed.

(** ** Sizes *)

(** Functions and blocks keep the sum of their children's sizes. *)
Definition keeps_size (t : ChunkType) : bool := match t with TFunction | TBlock => true | _ => false end.
Definition size_of (h : Heap) (e : ptr) : Z :=
  match chunks h !! e with
  | None => 0
  | Some x =>
    match ctype x with
    | TInstruction =>
      match semantic x with
      | Some s => match semantics h !! s with Some y => sem_size y | None => 0 end
      | None => 0
      end
    | TFunctionList => 0
    | _ => csize x
    end
  end.
Definition has_size (h : Heap) (e : ptr) : Prop :=
  exists x, chunks h !! e = Some x /\
    (ctype x = TInstruction -> exists s y, semantic x = Some s /\ semantics h !! s = Some y).
Fixpoint total (g : ptr -> Z) (l : list ptr) : Z := match l with [] => 0 | e :: l => g e + total g l end.
Definition sized (h : Heap) : Prop :=
  forall e x, chunks h !! e = Some x -> keeps_size (ctype x) = true -> csize x = total (size_of h) (kids x).

Lemma wp_eq {A} (m : M A) a (Q : A -> Heap -> Prop) h h' : m h = Ok (a, h') -> Q a h' -> wp m Q h.
Proof. unfold wp. by intros ->. Qed.
Lemma getSize_spec h e : has_size h e -> getSize e h = Ok (size_of h e, h).
Proof.
  intros (x&Hx&Hi). unfold getSize, size_of, mbind, M_bind, chunk_at. rewrite Hx.
  destruct (ctype x) eqn:E; try done. destruct (Hi eq_refl) as (s&y&Hs&Hy).
  rewrite Hs. cbn. unfold semantic_at. by rewrite Hy.
Qed.

Lemma total_ext g g' l : (forall e, e ∈ l -> g' e = g e) -> total g' l = total g l.
Proof.
  induction l as [|a l IH]; intros H; cbn; [done|]. rewrite H by left. rewrite IH; [done|]. intros. apply H. by right.
Qed.
Lemma total_app g l1 l2 : total g (l1 ++ l2) = total g l1 + total g l2.
Proof. induction l1; cbn; lia. Qed.
Lemma total_nonneg g l : (forall e, e ∈ l -> 0 <= g e) -> 0 <= total g l.
Proof.
  induction l as [|a l IH]; intros H; cbn; [lia|]. assert (0 <= g a) by (apply H; left).
  assert (0 <= total g l) by (apply IH; intros; apply H; by right). lia.
Qed.
(** One member of a list changes by [s]. *)
Lemma total_change g g' l e s :
  NoDup l -> e ∈ l -> g' e = g e + s -> (forall e', e' ∈ l -> e' <> e -> g' e' = g e') ->
  total g' l = total g l + s.
Proof.
  intros Hnd He Hs Ho. apply list_elem_of_split in He as (l1&l2&->).
  apply NoDup_app in Hnd as (_&Hd&Hnd). apply NoDup_cons in Hnd as [Hn _].
  rewrite !total_app. cbn. rewrite (total_ext g g' l1), (total_ext g g' l2); [lia|..].
  - intros e' He'. apply Ho; set_solver.
  - intros e' He'. apply Ho; [set_solver|]. intros ->. apply (Hd e He'). left.
Qed.

(** The chunks from [c] up to, and without, the module. *)
Inductive path (m : gmap ptr Chunk) : ptr -> list ptr -> Prop :=
| path_module c x : m !! c = Some x -> ctype x = TModule -> path m c []
| path_top c x : m !! c = Some x -> ctype x <> TModule -> has_children (ctype x) = true ->
    parent x = None -> path m c [c]
| path_step c x q l : m !! c = Some x -> ctype x <> TModule -> has_children (ctype x) = true ->
    parent x = Some q -> path m q l -> path m c (c :: l).

Lemma path_det m c l l' : path m c l -> path m c l' -> l = l'.
Proof.
  intros H. revert l'. induction H as [c x Hx Ht|c x Hx Ht Hc Hp|c x q l Hx Ht Hc Hp Hl IH];
    intros l' H'; destruct H' as [? x' Hx' Ht'|? x' Hx' Ht' Hc' Hp'|? x' q' l' Hx' Ht' Hc' Hp' Hl'];
    rewrite Hx in Hx'; simplify_eq; try done. by rewrite (IH l' Hl').
Qed.
Lemma path_suffix m c l e : path m c l -> e ∈ l -> exists l', path m e l' /\ (length l' <= length l)%nat.
Proof.
  induction 1 as [c x Hx Ht|c x Hx Ht Hc Hp|c x q l Hx Ht Hc Hp Hl IH]; intros He; [set_solver|..].
  - apply list_elem_of_singleton in He as ->. exists [c]. split; [by eapply path_top|done].
  - apply elem_of_cons in He as [->|He]; [exists (c :: l); split; [by eapply path_step|done]|].
    destruct (IH He) as (l'&?&?). exists l'. split; [done|cbn; lia].
Qed.
Lemma path_elem m c l e :
  path m c l -> e ∈ l -> exists x, m !! e = Some x /\ ctype x <> TModule /\ has_children (ctype x) = true.
Proof.
  induction 1 as [c x Hx Ht|c x Hx Ht Hc Hp|c x q l Hx Ht Hc Hp Hl IH]; intros He; [set_solver|..].
  - apply list_elem_of_singleton in He as ->. eauto.
  - apply elem_of_cons in He as [->|He]; eauto.
Qed.
Lemma path_nodup m c l : path m c l -> NoDup l.
Proof.
  induction 1 as [c x Hx Ht|c x Hx Ht Hc Hp|c x q l Hx Ht Hc Hp Hl IH]; [constructor|apply NoDup_singleton|].
  apply NoDup_cons. split; [|done]. intros Hin. destruct (path_suffix _ _ _ _ Hl Hin) as (l'&Hl'&Hle).
  rewrite (path_det _ _ _ _ Hl' (path_step _ _ _ _ _ Hx Ht Hc Hp Hl)) in Hle. cbn in Hle. lia.
Qed.
(** The parent of a member is a member, or the module. *)
Lemma path_parent m c l e x q :
  path m c l -> e ∈ l -> m !! e = Some x -> parent x = Some q ->
  q ∈ l \/ exists y, m !! q = Some y /\ ctype y = TModule.
Proof.
  induction 1 as [c' x' Hx' Ht|c' x' Hx' Ht Hc Hp|c' x' q' l Hx' Ht Hc Hp Hl IH]; intros He Hx Hq; [set_solver|..].
  - apply list_elem_of_singleton in He as ->. congruence.
  - apply elem_of_cons in He as [->|He].
    + rewrite Hx in Hx'. simplify_eq. inversion Hl; subst; [right; eauto|left..]; set_solver.
    + destruct (IH He Hx Hq) as [|]; [left; by right|by right].
Qed.
Lemma path_frame m m' c l :
  (forall e x, m !! e = Some x -> e ∈ l \/ ctype x = TModule ->
     exists y, m' !! e = Some y /\ ctype y = ctype x /\ (e ∈ l -> parent y = parent x)) ->
  path m c l -> path m' c l.
Proof.
  intros Hf H. induction H as [c x Hx Ht|c x Hx Ht Hc Hp|c x q l Hx Ht Hc Hp Hl IH].
  - destruct (Hf c x Hx) as (y&Hy&E1&E2); [by right|]. eapply path_module; [done|congruence].
  - destruct (Hf c x Hx) as (y&Hy&E1&E2); [set_solver|]. specialize (E2 ltac:(left)).
    apply (path_top _ c y); congruence.
  - destruct (Hf c x Hx) as (y&Hy&E1&E2); [set_solver|]. specialize (E2 ltac:(left)).
    apply (path_step _ c y q); [done|congruence..|]. apply IH. intros e z Hz Hin.
    destruct (Hf e z Hz) as (w&?&?&Hw); [destruct Hin; [left; by right|by right]|].
    exists w. split_and!; [done|done|]. intros. apply Hw. by right.
Qed.

(** Adding [s] to the sizes of the chunks of a path. *)
Definition bump (s : Z) (x : Chunk) : Chunk :=
  if keeps_size (ctype x) then with_csize x (csize x + s) else x.
Definition grow (l : list ptr) (s : Z) (e : ptr) (x : Chunk) : Chunk :=
  if decide (e ∈ l) then bump s x else x.

Lemma bump_fields s x :
  ctype (bump s x) = ctype x /\ parent (bump s x) = parent x /\ sim x (bump s x) /\ position_of (bump s x) = position_of x.
Proof. unfold bump. by destruct (keeps_size (ctype x)). Qed.

Lemma wp_heap {A} (f : Heap -> M A) Q h : wp (f h) Q h -> wp (fun h => f h h) Q h.
Proof. done. Qed.

Section ancestors.
Context (h : Heap) (L : list ptr) (s : Z) (body : ptr -> M unit).
Context (HL : forall e, e ∈ L -> exists x, chunks h !! e = Some x /\ ctype x <> TModule).
Context (Hbody : forall e x k, e ∈ L -> chunks h !! e = Some x -> k !! e = Some x ->
  (forall e', e' ∉ L -> k !! e' = chunks h !! e') ->
  wp (body e) (fun _ h' => h' = with_chunks h (<[e := bump s x]> k)) (with_chunks h k)).

Lemma ancestors_loop c l fuel k :
  path (chunks h) c l -> (length l < fuel)%nat -> (forall e, e ∈ l -> e ∈ L) ->
  (forall e, e ∈ l -> k !! e = chunks h !! e) -> (forall e, e ∉ L -> k !! e = chunks h !! e) ->
  wp (ChunkMutator.ancestors_fuel fuel (Some c) (ChunkMutator.up_to_module body))
    (fun _ h' => exists k', h' = with_chunks h k' /\
       forall e, k' !! e = if decide (e ∈ l) then bump s <$> chunks h !! e else k !! e) (with_chunks h k).
Proof.
  intros Hp. revert fuel k. induction Hp as [c x Hx Ht|c x Hx Ht Hc Hpar|c x q l Hx Ht Hc Hpar Hp IH];
    intros fuel k Hf HlL Hkl HkL; (destruct fuel as [|fuel]; [cbn in Hf; lia|]);
    cbn [ChunkMutator.ancestors_fuel]; unfold ChunkMutator.up_to_module; mstep; mstep.
  - mstep.
    { cbn. rewrite HkL; [done|]. intros Hin. destruct (HL c Hin) as (x'&Hx'&?). congruence. }
    rewrite bool_decide_eq_true_2 by done. mstep. mstep. exists k. split; [done|]. intros e.
    by rewrite decide_False by set_solver.
  - mstep; [cbn; rewrite Hkl; [done|set_solver]|]. rewrite bool_decide_eq_false_2 by done.
    mstep. eapply wp_mono; [|apply (Hbody c x k); [set_solver|done|rewrite Hkl; [done|set_solver]|done]].
    intros _ h' ->. mstep. mstep. mstep; [apply lookup_insert_eq|].
    destruct (bump_fields s x) as (_&->&_). rewrite Hpar. destruct fuel; cbn; (eexists; split; [done|]); intros e;
      (destruct (decide (e = c)) as [->|Hne];
      [rewrite lookup_insert_eq, decide_True, Hx by set_solver; done
      |rewrite lookup_insert_ne, decide_False by set_solver; done]).
  - pose proof (path_nodup _ _ _ (path_step _ _ _ _ _ Hx Ht Hc Hpar Hp)) as [Hcl _]%NoDup_cons.
    mstep; [cbn; rewrite Hkl; [done|set_solver]|]. rewrite bool_decide_eq_false_2 by done.
    mstep. eapply wp_mono; [|apply (Hbody c x k); [set_solver|done|rewrite Hkl; [done|set_solver]|done]].
    intros _ h' ->. mstep. mstep. mstep; [apply lookup_insert_eq|].
    destruct (bump_fields s x) as (_&->&_). rewrite Hpar.
    eapply wp_mono; [|apply IH; [cbn in Hf; lia|set_solver|..]].
    + intros _ h' (k'&->&Hk'). exists k'. split; [done|]. intros e. rewrite Hk'.
      destruct (decide (e = c)) as [->|Hne].
      * rewrite decide_False, lookup_insert_eq, decide_True, Hx by set_solver. done.
      * rewrite lookup_insert_ne by done. destruct (decide (e ∈ l)).
        -- by rewrite decide_True by set_solver.
        -- by rewrite decide_False by set_solver.
    + intros e He. rewrite lookup_insert_ne by set_solver. apply Hkl. by right.
    + intros e He. rewrite lookup_insert_ne; [by apply HkL|]. intros ->. apply He, HlL. left.
Qed.
End ancestors.

Lemma wp_ancestors h c l s body :
  path (chunks h) c l ->
  (forall e x k, e ∈ l -> chunks h !! e = Some x -> k !! e = Some x ->
     (forall e', e' ∉ l -> k !! e' = chunks h !! e') ->
     wp (body e) (fun _ h' => h' = with_chunks h (<[e := bump s x]> k)) (with_chunks h k)) ->
  wp (ChunkMutator.ancestors c (ChunkMutator.up_to_module body))
    (fun _ h' => exists k', h' = with_chunks h k' /\ tracked (grow l s) (chunks h) k') h.
Proof.
  intros Hp Hbody. unfold ChunkMutator.ancestors.
  pose proof (path_nodup _ _ _ Hp) as Hnd.
  assert (length l <= size (chunks h))%nat.
  { apply nodup_size; [done|]. apply Forall_forall. intros e He. destruct (path_elem _ _ _ _ Hp He) as (x&->&_). eauto. }
  apply (wp_heap (fun h => ChunkMutator.ancestors_fuel (S (size (chunks h))) (Some c)
    (ChunkMutator.up_to_module body))). apply wp_tracked.
  eapply wp_mono; [|eapply (ancestors_loop h l s); [|exact Hbody|exact Hp|lia|done|done|done]].
  - intros _ h' (k'&->&Hk'). exists k'. split; [done|]. intros e. rewrite Hk'. unfold grow.
    case_decide; destruct (chunks h !! e); done.
  - intros e He. destruct (path_elem _ _ _ _ Hp He) as (x&?&?&_). eauto.
Qed.

Lemma swrap_small x : - 2 ^ 63 <= x < 2 ^ 63 -> swrap 64 x = x.
Proof. intros. unfold swrap. rewrite Z.mod_small; change (64 - 1) with 63; lia. Qed.
Lemma swrap_wrap x : swrap 64 (u64 x) = swrap 64 x.
Proof.
  unfold swrap, wrap. rewrite Z.add_mod_idemp_l by lia. done.
Qed.

Lemma adjustBy_ok size s : 0 <= size + s < 2 ^ 63 -> adjustBy size s = Ok (size + s).
Proof.
  intros. unfold adjustBy. rewrite swrap_wrap, swrap_small, wrap_small, (proj2 (Z.leb_le _ _)) by lia. done.
Qed.
Lemma wp_addToSize h k e x s :
  k !! e = Some x -> has_children (ctype x) = true ->
  (keeps_size (ctype x) = true -> 0 <= csize x + s < 2 ^ 63) ->
  wp (addToSize e s) (fun _ h' => h' = with_chunks h (<[e := bump s x]> k)) (with_chunks h k).
Proof.
  intros Hx Hc Hs. unfold addToSize, bump. mstep. mstep; [done|].
  destruct (ctype x); cbn [keeps_size has_children] in *; try done.
  1,2: apply wp_ret; by rewrite insert_id.
  all: apply wp_bind; eapply wp_lift; [by apply adjustBy_ok, Hs|]; by apply wp_put_chunk.
Qed.

Lemma size_of_frame h h' d :
  chunks h' !! d = chunks h !! d -> semantics h' = semantics h -> size_of h' d = size_of h d.
Proof. unfold size_of. by intros -> ->. Qed.
Lemma has_size_frame h h' d :
  chunks h' !! d = chunks h !! d -> semantics h' = semantics h -> has_size h d -> has_size h' d.
Proof. unfold has_size. by intros -> ->. Qed.

(** The sizes the ancestors will have fit a signed 64-bit number. *)
Definition fits (h : Heap) (l : list ptr) (s : Z) : Prop :=
  forall e x, e ∈ l -> chunks h !! e = Some x -> keeps_size (ctype x) = true -> 0 <= csize x + s < 2 ^ 63.

Lemma wp_updateSizes h mu d l :
  mode h = MODE_OFFSET -> path (chunks h) (chunk mu) l -> d ∉ l -> has_size h d ->
  0 <= size_of h d < 2 ^ 63 -> fits h l (size_of h d) ->
  wp (ChunkMutator.updateSizesAndAuthorities mu d)
    (fun _ h' => exists k', h' = with_chunks h k' /\ tracked (grow l (size_of h d)) (chunks h) k') h.
Proof.
  intros Hm Hp Hd Hs Hr Hf. unfold ChunkMutator.updateSizesAndAuthorities. mstep.
  eapply wp_mono; [|apply (wp_ancestors _ _ l (size_of h d) _ Hp)].
  - intros _ h' (k'&->&Hk'). unfold ChunkMutator.updateGenerationCounts. mstep. mstep. cbn [mode with_chunks]. rewrite Hm.
    apply wp_ret. eauto.
  - intros e x k He Hx Hkx Hk. mstep.
    eapply wp_eq; [apply getSize_spec; apply (has_size_frame h (with_chunks h k) d); [by apply Hk|done|exact Hs]|].
    rewrite (size_of_frame h (with_chunks h k) d) by (try apply Hk; done). rewrite swrap_small by lia.
    destruct (path_elem _ _ _ _ Hp He) as (x'&Hx'&_&Hc). rewrite Hx in Hx'. injection Hx' as <-.
    apply wp_addToSize; [done|done|]. by apply (Hf e).
Qed.

Lemma wp_shrink h c l amount s :
  path (chunks h) c l -> 0 <= s < 2 ^ 63 -> fits h l (- s) -> fits h l 0 ->
  (forall k, (forall e', e' ∉ l -> k !! e' = chunks h !! e') ->
     wp amount (fun a h' => a = s /\ h' = with_chunks h k) (with_chunks h k)) ->
  wp (ChunkMutator.shrink c amount)
    (fun _ h' => exists k', h' = with_chunks h k' /\ tracked (grow l (- s)) (chunks h) k') h.
Proof.
  intros Hp Hr Hf Hf0 Ha. unfold ChunkMutator.shrink. apply wp_ancestors; [done|].
  intros e x k He Hx Hkx Hk. destruct (path_elem _ _ _ _ Hp He) as (x'&Hx'&_&Hc).
  rewrite Hx in Hx'. injection Hx' as <-. mstep.
  eapply wp_eq. { apply getSize_spec. exists x. split; [done|]. by intros E; rewrite E in Hc. }
  unfold size_of. cbn. rewrite Hkx.
  destruct (Z.eqb_spec (match ctype x with TFunctionList => 0 | _ => csize x end) 0) as [E|E].
  - assert (bump (- s) x = x) as Eb.
    { unfold bump. destruct (keeps_size (ctype x)) eqn:Ek; [|done].
      assert (csize x = 0) as E0 by (by destruct (ctype x)).
      pose proof (Hf e x He Hx Ek). rewrite E0 in *. replace (0 + - s) with 0 by lia.
      destruct x; cbn in *; by subst. }
    assert ((match ctype x with
      | TInstruction => match semantic x with
         | Some s => match semantics h !! s with Some y => sem_size y | None => 0 end | None => 0 end
      | TFunctionList => 0 | _ => csize x end) = 0) as -> by (by destruct (ctype x)).
    apply wp_ret. by rewrite Eb, insert_id.
  - assert ((match ctype x with
      | TInstruction => match semantic x with
         | Some s => match semantics h !! s with Some y => sem_size y | None => 0 end | None => 0 end
      | TFunctionList => 0 | _ => csize x end) = csize x /\ csize x <> 0) as [-> E'] by (by destruct (ctype x)).
    rewrite (proj2 (Z.eqb_neq _ _)) by done. apply wp_bind.
    eapply wp_mono; [|apply (Ha k Hk)]. intros a h' [-> ->]. rewrite swrap_wrap, swrap_small by lia.
    apply wp_addToSize; [done|done|]. by apply (Hf e).
Qed.

(** ** Sizes after a change of a child list *)

(** The chunks of a path are children of their parents, as far as these keep sizes. *)
Definition attached (m : gmap ptr Chunk) (l : list ptr) : Prop :=
  forall e x q y, e ∈ l -> m !! e = Some x -> parent x = Some q -> m !! q = Some y ->
    keeps_size (ctype y) = true -> e ∈ kids y.

Lemma path_inj m c l e e' x x' q :
  path m c l -> e ∈ l -> e' ∈ l -> m !! e = Some x -> m !! e' = Some x' ->
  parent x = Some q -> parent x' = Some q -> e = e'.
Proof.
  induction 1 as [c z Hz Ht|c z Hz Ht Hc Hp|c z q' l Hz Ht Hc Hp Hl IH]; intros He He' Hx Hx' Hq Hq'; [set_solver|set_solver|].
  assert (forall e x, e ∈ l -> m !! e = Some x -> parent x = Some q' -> False) as Hno.
  { intros e0 x0 He0 Hx0 Hq0. destruct (path_suffix _ _ _ _ Hl He0) as (l0&Hl0&Hle).
    destruct (path_elem _ _ _ _ Hl He0) as (x1&Hx1&?&?). rewrite Hx0 in Hx1. injection Hx1 as <-.
    rewrite (path_det _ _ _ _ Hl0 (path_step _ _ _ _ _ Hx0 ltac:(done) ltac:(done) Hq0 Hl)) in Hle. cbn in Hle. lia. }
  apply elem_of_cons in He as [->|He], He' as [->|He']; [done| | |by apply IH].
  - rewrite Hz in Hx. simplify_eq. by destruct (Hno e' x').
  - rewrite Hz in Hx'. simplify_eq. by destruct (Hno e x).
Qed.
Lemma path_pred m c l e :
  path m c l -> e ∈ l -> e <> c -> exists e' x', e' ∈ l /\ m !! e' = Some x' /\ parent x' = Some e.
Proof.
  induction 1 as [c z Hz Ht|c z Hz Ht Hc Hp|c z q' l Hz Ht Hc Hp Hl IH]; intros He Hne; [set_solver|set_solver|].
  apply elem_of_cons in He as [->|He]; [done|].
  destruct (decide (e = q')) as [->|Hq]; [exists c, z; split; [left|done]|].
  destruct (IH He Hq) as (e'&x'&?&?&?). exists e', x'. split; [by right|done].
Qed.
Lemma path_head m c l x : path m c l -> m !! c = Some x -> ctype x <> TModule -> c ∈ l.
Proof. destruct 1; intros; [congruence|left..]. Qed.

Section resize.
Context (h h' : Heap) (c : ptr) (xc : Chunk) (l : list ptr) (s : Z) (newk : list ptr).
Context (Hl : linked (chunks h)) (Ht : typed (chunks h)) (Hs : sized h).
Context (Hp : path (chunks h) c l) (Hat : attached (chunks h) l) (Hxc : chunks h !! c = Some xc).
Context (Hsem : semantics h' = semantics h).
Context (Hch : forall e, match chunks h !! e, chunks h' !! e with
   | Some x, Some y => ctype y = ctype x /\ semantic y = semantic x /\ csize y = csize (grow l s e x) /\
       kids y = if decide (e = c) then newk else kids x
   | None, None => True
   | _, _ => False
   end).

Lemma resize_lookup e y : chunks h' !! e = Some y -> exists x, chunks h !! e = Some x /\
  ctype y = ctype x /\ semantic y = semantic x /\ csize y = csize (grow l s e x) /\
  kids y = if decide (e = c) then newk else kids x.
Proof. intros Hy. specialize (Hch e). rewrite Hy in Hch. destruct (chunks h !! e); [eauto|done]. Qed.

Lemma resize_in e x :
  chunks h !! e = Some x -> e ∈ l -> keeps_size (ctype x) = true -> size_of h' e = size_of h e + s.
Proof.
  intros Hx He Hk. specialize (Hch e). unfold size_of. rewrite Hx in *.
  destruct (chunks h' !! e) as [y|]; [|done]. destruct Hch as (->&_&->&_).
  unfold grow, bump. rewrite decide_True, Hk by done. by destruct (ctype x).
Qed.
Lemma resize_out e : e ∉ l -> size_of h' e = size_of h e.
Proof.
  intros He. specialize (Hch e). unfold size_of. rewrite Hsem.
  destruct (chunks h !! e) as [x|], (chunks h' !! e) as [y|]; try done.
  destruct Hch as (->&->&->&_). unfold grow. by rewrite decide_False.
Qed.

Lemma resize_sized :
  (keeps_size (ctype xc) = true -> total (size_of h') newk = total (size_of h) (kids xc) + s) -> sized h'.
Proof.
  intros Hnew e y Hy Hky. destruct (resize_lookup e y Hy) as (x&Hx&Ety&_&->&->). rewrite Ety in Hky.
  pose proof (Hs e x Hx Hky) as Hsx. unfold grow, bump. rewrite Hky.
  destruct (decide (e = c)) as [->|Hne].
  - rewrite Hxc in Hx. injection Hx as ->. rewrite decide_True; [cbn; rewrite Hsx, Hnew; [lia|done]|].
    eapply path_head; [done..|]. by destruct (ctype x).
  - case_decide as Hel.
    + destruct (path_pred _ _ _ _ Hp Hel Hne) as (e'&x'&Hel'&Hx'&Hpar).
      pose proof (Hat e' x' e x Hel' Hx' Hpar Hx Hky) as Hkid.
      destruct (path_elem _ _ _ _ Hp Hel') as (x1&Hx1&_&Hc'). rewrite Hx' in Hx1. injection Hx1 as <-.
      assert (keeps_size (ctype x') = true) as Hk'.
      { pose proof (Ht e x e' x' Hx Hkid Hx'). by destruct (ctype x), (ctype x'). }
      rewrite (total_change (size_of h) (size_of h') (kids x) e' s); [cbn; lia|by apply (l_nodup _ Hl e)|done|by eapply resize_in|].
      intros e'' Hk'' Hne''. apply resize_out. intros Hel''. apply Hne''.
      destruct (seg_parent _ _ _ _ _ e'' (l_seg _ Hl e x Hx) Hk'') as (x''&Hx''&Hpar'').
      by eapply path_inj.
    + rewrite (total_ext (size_of h)); [done|]. intros e' Hk'. apply resize_out. intros Hel'. apply Hel.
      destruct (seg_parent _ _ _ _ _ e' (l_seg _ Hl e x Hx) Hk') as (x'&Hx'&Hpar').
      destruct (path_parent _ _ _ _ _ _ Hp Hel' Hx' Hpar') as [|(z&Hz&Hm)]; [done|].
      rewrite Hx in Hz. injection Hz as <-. by rewrite Hm in Hky.
Qed.
End resize.

(** ** Giving a new child a position *)

(** [d] had a position, or gets a fresh offset position of its own, with an offset in [P]. *)
Definition ensured (P : Z -> Prop) (h : Heap) (d : ptr) (h' : Heap) : Prop :=
  (h' = h /\ exists x, chunks h !! d = Some x /\ is_Some (position_of x)) \/
  (exists x o, P o /\ chunks h !! d = Some x /\ position_of x = None /\ ctype x <> TFunctionList /\
     h' = mkHeap (<[d := with_position x (Some (fresh h))]> (chunks h))
            (<[fresh h := mkPosition (OffsetPosition (Some d) o) Undecorated]> (positions h))
            (semantics h) (mode h) (gsTable h) (addrTable h) (fresh h + 1)).

Section positioning.
Context (h : Heap) (mu : ChunkMutator) (d : ptr) (xc xd : Chunk) (pre post : list ptr).
Context (Hm : mode h = MODE_OFFSET) (Hxc : chunks h !! chunk mu = Some xc) (Hc : has_children (ctype xc) = true).
Context (Hk : kids xc = pre ++ d :: post) (Hpre : d ∉ pre) (Hsz : size_ok (kids xc)).
Context (Hxd : chunks h !! d = Some xd) (Hty : child_type_ok (ctype xc) (ctype xd) = true).
Context (Hnl : ctype xd <> TFunctionList).

Lemma children_of_mu : getChildren (chunk mu) h = Ok (Some (childList xc), h).
Proof. unfold getChildren, mbind, M_bind, chunk_at. by rewrite Hxc, Hc. Qed.

Lemma cursor_of_child :
  ChunkCursor.of_child (chunk mu) d h = Ok (ChunkCursor.mkCursor (chunk mu) (Z.of_nat (length pre)), h).
Proof.
  assert (wp (genericIndexOf (chunk mu) d) (fun i h' => i = Z.of_nat (length pre) /\ h' = h) h) as Hi.
  { apply wp_tracked. eapply wp_genericIndexOf; [apply tracked_id|done..|]. by destruct h. }
  unfold ChunkCursor.of_child, mbind, M_bind. rewrite children_of_mu.
  unfold wp in Hi. destruct (genericIndexOf (chunk mu) d h) as [[i h']|]; [|done]. destruct Hi as [-> ->].
  unfold size_ok in Hsz. rewrite Hk, length_app in Hsz. cbn in Hsz.
  unfold lift, cassert. rewrite (proj2 (Z.eqb_neq _ _)) by lia. done.
Qed.

Lemma cursor_get q : last pre = Some q ->
  ChunkCursor.get (ChunkCursor.mkCursor (chunk mu) (Z.of_nat (length pre) - 1)) h = Ok (Some q, h).
Proof.
  intros [pre' ->]%last_Some. rewrite length_app. cbn [length].
  assert (children_at (chunk mu) h = Ok (childList xc, h)) as E.
  { unfold children_at, mbind, M_bind. by rewrite children_of_mu. }
  unfold ChunkCursor.get, genericGetSize, mbind, M_bind. cbn [ChunkCursor.list ChunkCursor.index]. rewrite E.
  unfold mret, M_ret, ChunkList.genericGetSize, IterableChunkList.getCount. fold (kids xc).
  rewrite Hk, !length_app. cbn [length]. rewrite (proj2 (Z.ltb_lt _ _)) by lia.
  unfold genericGetAt, mbind, M_bind. rewrite E. unfold ChunkList.genericGetAt, IterableChunkList.get. fold (kids xc).
  rewrite Hk, <- app_assoc. cbn [app].
  replace (Z.of_nat (length pre' + 1) - 1) with (Z.of_nat (length pre')) by lia. by rewrite load_app.
Qed.

Lemma makePosition_offset prv o (Q : ptr -> Heap -> Prop) :
  Q (fresh h) (mkHeap (chunks h) (<[fresh h := mkPosition (OffsetPosition (Some d) o) Undecorated]> (positions h))
                 (semantics h) (mode h) (gsTable h) (addrTable h) (fresh h + 1)) ->
  wp (PositionFactory.makePosition prv d o) Q h.
Proof.
  intros HQ. unfold PositionFactory.makePosition. mstep. mstep. rewrite Hm. destruct prv; exact HQ.
Qed.

(** The offset of a new position: the start of the child in front of it, or 0. *)
Definition offset_in (P : Z -> Prop) : Prop :=
  match last pre with
  | Some q => exists a l b lb, addr (chunks h) (positions h) q a l /\ addr (chunks h) (positions h) (chunk mu) b lb /\ P (sub64 a b)
  | None => P 0
  end.

Lemma wp_makePositionFor P (Q : unit -> Heap -> Prop) :
  position_of xd = None -> offset_in P -> (forall h', ensured P h d h' -> Q tt h') ->
  wp (ChunkMutator.makePositionFor mu d) Q h.
Proof.
  intros Hno Haddr HQ. unfold ChunkMutator.makePositionFor. mstep. eapply wp_eq; [apply cursor_of_child|].
  assert (forall o prv, P o -> wp (PositionFactory.makePosition prv d o) (fun pos h' => wp (p ← getPosition d;
    (match p with Some _ => delete_position p | None => mret tt end);; setPosition d (Some pos)) Q h') h) as Hrest.
  { intros o prv HP. apply makePosition_offset. mstep. mstep; [done|]. rewrite Hno. mstep. apply wp_ret.
    unfold setPosition. mstep. mstep; [done|].
    assert (position xd = None) as Hpd by (unfold position_of in Hno; by repeat case_match).
    rewrite Hpd.
    assert (wp (put_chunk d (with_position xd (Some (fresh h)))) Q
      (mkHeap (chunks h) (<[fresh h := mkPosition (OffsetPosition (Some d) o) Undecorated]> (positions h))
         (semantics h) (mode h) (gsTable h) (addrTable h) (fresh h + 1))) as Hput.
    { mstep. apply HQ. right. by exists xd, o. }
    by destruct (ctype xd). }
  unfold ChunkCursor.prev. cbn [ChunkCursor.index ChunkCursor.list]. unfold offset_in in Haddr.
  destruct (Z.ltb_spec 0 (Z.of_nat (length pre))) as [Hpos|Hpos].
  - destruct (last pre) as [q|] eqn:El; [|apply last_None in El; rewrite El in Hpos; cbn in Hpos; lia].
    destruct Haddr as (a&l&b&lb&Ha&Hb&HP).
    mstep. mstep. eapply wp_eq; [by apply cursor_get|]. mstep. mstep. mstep.
    eapply wp_eq; [by eapply addr_getAddress|]. mstep. eapply wp_eq; [by eapply addr_getAddress|].
    by apply Hrest.
  - mstep. apply Hrest. destruct pre; [done|cbn in Hpos; lia].
Qed.

Lemma wp_ensurePosition P (Q : unit -> Heap -> Prop) :
  (position_of xd = None -> offset_in P) -> (forall h', ensured P h d h' -> Q tt h') ->
  wp (ChunkMutator.ensurePosition mu d) Q h.
Proof.
  intros Haddr HQ. unfold ChunkMutator.ensurePosition. mstep. mstep; [done|].
  destruct (position_of xd) as [p|] eqn:Ep; [|eapply wp_makePositionFor; eauto].
  apply wp_ret, HQ. left. split; [done|]. exists xd. rewrite Ep. eauto.
Qed.
End positioning.

(** ** The invariant of the hierarchy *)

(** A position object belongs to one chunk. *)
Definition pos_unique (m : gmap ptr Chunk) : Prop :=
  forall e x e' x' p, m !! e = Some x -> m !! e' = Some x' ->
    position_of x = Some p -> position_of x' = Some p -> e = e'.
Lemma pos_unique_sub f m m' :
  pos_unique m -> tracked f m m' -> (forall e x, position_of (f e x) = position_of x) -> pos_unique m'.
Proof.
  intros Hu Ht Hf e y e' y' p Hy Hy' Hp Hp'. rewrite Ht in Hy, Hy'.
  destruct (m !! e) as [x|] eqn:Hx, (m !! e') as [x'|] eqn:Hx'; try done. injection Hy as <-. injection Hy' as <-.
  rewrite Hf in Hp, Hp'. by eapply Hu.
Qed.

Record tree_ok (h : Heap) : Prop := {
  t_mode : mode h = MODE_OFFSET;
  t_linked : linked (chunks h);
  t_typed : typed (chunks h);
  t_sized : sized h;
  t_pos : pos_valid h;
  t_unique : pos_unique (chunks h);
  t_fresh : forall p, is_Some (positions h !! p) -> p < fresh h }.

(** [d] can become a child of [c]: it is in no list and is not an ancestor of
    [c], its type is that of the list, and the sizes of the ancestors [l] of [c]
    stay below 2^63.  If it has no position, the addresses of [c] and of its
    children are defined. *)
Record addable (h : Heap) (c d : ptr) (xc xd : Chunk) (l : list ptr) : Prop := {
  a_parent : chunks h !! c = Some xc;
  a_child : chunks h !! d = Some xd;
  a_list : plain_list xc;
  a_length : size_ok (d :: kids xc);
  a_type : child_type_ok (ctype xc) (ctype xd) = true;
  a_nolist : ctype xd <> TFunctionList;
  a_new : forall e y, chunks h !! e = Some y -> d ∉ kids y;
  a_path : path (chunks h) c l;
  a_attached : attached (chunks h) l;
  a_above : d ∉ l /\ d <> c;
  a_size : has_size h d /\ 0 <= size_of h d < 2 ^ 63;
  a_fits : fits h l (size_of h d);
  a_addr : position_of xd = None ->
    (exists a l, addr (chunks h) (positions h) c a l) /\
    forall q, q ∈ kids xc -> exists a l, addr (chunks h) (positions h) q a l }.

(** A chunk keeps its position, with the value it has. *)
Definition kept (h h' : Heap) (e : ptr) : Prop := forall x, chunks h !! e = Some x ->
  exists y, chunks h' !! e = Some y /\ position_of y = position_of x /\
    forall p, position_of x = Some p -> positions h' !! p = positions h !! p.
Lemma kept_refl h e : kept h h e.
Proof. intros x Hx. by exists x. Qed.
Lemma kept_trans h1 h2 h3 e : kept h1 h2 e -> kept h2 h3 e -> kept h1 h3 e.
Proof.
  intros H1 H2 x Hx. destruct (H1 x Hx) as (y&Hy&E1&P1), (H2 y Hy) as (z&Hz&E2&P2). exists z.
  split_and!; [done|congruence|]. intros p Hp. rewrite P2 by congruence. by apply P1.
Qed.
(** A chunk has an offset position of its own. *)
Definition offset_given (h : Heap) (e : ptr) (o : Z) : Prop := exists y p, chunks h !! e = Some y /\ position_of y = Some p /\
  positions h !! p = Some (mkPosition (OffsetPosition (Some e) o) Undecorated).
Lemma offset_given_kept h h' e o : offset_given h e o -> kept h h' e -> offset_given h' e o.
Proof.
  intros (y&p&Hy&Hp&Hz) Hk. destruct (Hk y Hy) as (y'&Hy'&E&Hps). exists y', p. split_and!; [done|congruence|]. by rewrite Hps.
Qed.
(** The offset an insertion gives a chunk without a position: where the child in front of it starts. *)
Definition start_offset (h : Heap) (c : ptr) (pre : list ptr) (o : Z) : Prop :=
  match last pre with
  | Some q => exists a l b lb, addr (chunks h) (positions h) q a l /\ addr (chunks h) (positions h) c b lb /\ o = sub64 a b
  | None => o = 0
  end.
Definition positioned (h : Heap) (c : ptr) (pre : list ptr) (d : ptr) (h' : Heap) : Prop :=
  forall x, chunks h !! d = Some x ->
    match position_of x with
    | Some _ => kept h h' d
    | None => exists o, start_offset h c pre o /\ offset_given h' d o
    end.

(** The result of an insertion: the pointers of [splice_in], the invariant, a position for the
    new child, and those of the other chunks as they were. *)
Definition inserted (h : Heap) (c : ptr) (pre : list ptr) (d : ptr) (post : list ptr) (h' : Heap) : Prop :=
  tree_ok h' /\ spliced (splice_in c pre d post) (chunks h) (chunks h') /\
  (forall e, e <> d -> kept h h' e) /\ positioned h c pre d h'.

Lemma tracked_compose f g m k k' :
  tracked f m k -> tracked g k k' -> tracked (fun e x => g e (f e x)) m k'.
Proof. intros Hf Hg e. rewrite Hg, Hf. by destruct (m !! e). Qed.

Lemma splice_in_fields c pre d post e x :
  let y := splice_in c pre d post e x in
  ctype y = ctype x /\ semantic y = semantic x /\ csize y = csize x /\ position_of y = position_of x /\
  positionIndex y = positionIndex x /\ (e <> d -> parent y = parent x) /\
  kids y = if decide (e = c) then pre ++ d :: post else kids x.
Proof. unfold splice_in. fields; by split_and!. Qed.

Lemma ensured_tracked P h d h' :
  ensured P h d h' -> (forall p, is_Some (positions h !! p) -> p < fresh h) ->
  exists g, tracked g (chunks h) (chunks h') /\
    (forall e x, sim x (g e x) /\ csize (g e x) = csize x /\ (e <> d -> g e x = x)) /\
    semantics h' = semantics h /\ mode h' = mode h /\
    (pos_valid h -> pos_valid h') /\ (pos_valid h -> pos_unique (chunks h) -> pos_unique (chunks h')) /\
    (forall p, is_Some (positions h' !! p) -> p < fresh h') /\
    (pos_valid h -> forall e, e <> d -> kept h h' e) /\
    exists x, chunks h !! d = Some x /\
      match position_of x with Some _ => kept h h' d | None => exists o, P o /\ offset_given h' d o end.
Proof.
  intros [[-> (x&Hx&p&Hpos)]|(x&o&HP&Hx&Hno&Hnl&->)] Hfr.
  - exists (fun _ x => x). split_and!; try done; [apply tracked_id|intros; apply kept_refl|].
    exists x. rewrite Hpos. split; [done|apply kept_refl].
  - exists (fun e x => if decide (e = d) then with_position x (Some (fresh h)) else x). cbn. split_and!; try done.
    + intros e. destruct (decide (e = d)) as [->|]; [by rewrite lookup_insert_eq, Hx|].
      rewrite lookup_insert_ne by done. by destruct (chunks h !! e).
    + intros e z. case_decide; by split_and!.
    + intros Hpv e z. cbn. intros Hz p Hp.
      destruct (decide (p = fresh h)) as [->|Hne]; [rewrite lookup_insert_eq; by eexists|].
      rewrite lookup_insert_ne by done. apply lookup_insert_Some in Hz as [[<- <-]|[_ Hz]]; [|by eapply Hpv].
      apply (Hpv d x Hx p). unfold position_of in *. cbn in Hp.
      destruct (ctype x), (slotPosition x); congruence.
    + intros Hpv Hu.
      assert (forall e z p, chunks h !! e = Some z -> position_of z = Some p -> p <> fresh h) as Hold.
      { intros e z p Hz Hp ->. destruct (Hpv e z Hz _ Hp) as (w&Hw&_). specialize (Hfr (fresh h)). rewrite Hw in Hfr.
        assert (fresh h < fresh h); [eauto|lia]. }
      assert (position_of (with_position x (Some (fresh h))) = Some (fresh h)) as Hnp.
      { unfold position_of in *. cbn. destruct (ctype x), (slotPosition x); congruence. }
      intros e z e' z' p Hz Hz' Hp Hp'. apply lookup_insert_Some in Hz as [[<- <-]|[He Hz]],
        Hz' as [[<- <-]|[He' Hz']]; [done|..|by eapply Hu]; rewrite Hnp in *; simplify_eq;
        exfalso; by eapply Hold.
    + intros p. cbn. destruct (decide (p = fresh h)) as [->|Hne]; [lia|].
      rewrite lookup_insert_ne by done. intros Hp%Hfr. lia.
    + intros Hpv e He z Hz. exists z. cbn. rewrite lookup_insert_ne by done. split_and!; [done|done|].
      intros p Hp. apply lookup_insert_ne. intros <-. destruct (Hpv e z Hz _ Hp) as (w&Hw&_).
      specialize (Hfr (fresh h)). rewrite Hw in Hfr. assert (fresh h < fresh h); [eauto|lia].
    + exists x. rewrite Hno. split; [done|]. exists o. split; [done|]. eexists _, (fresh h). cbn.
      rewrite !lookup_insert_eq. split_and!; [done| |done]. unfold position_of in *. cbn in *.
      destruct (ctype x), (slotPosition x); by eauto.
Qed.

(** Chunks changed by [f] as far as sizes are concerned, and then grown along [l]. *)
Definition relisted (f : ptr -> Chunk -> Chunk) (c : ptr) (newk : list ptr) : Prop :=
  forall e x, ctype (f e x) = ctype x /\ semantic (f e x) = semantic x /\ csize (f e x) = csize x /\
    kids (f e x) = if decide (e = c) then newk else kids x.

Lemma kid_not_above m c x l e : linked m -> m !! c = Some x -> path m c l -> e ∈ kids x -> e ∉ l.
Proof.
  intros Hl Hx Hp He Hin. destruct (path_suffix _ _ _ _ Hp Hin) as (l'&Hl'&Hle).
  destruct (path_elem _ _ _ _ Hp Hin) as (x1&Hx1&Hm1&Hc1).
  destruct (seg_parent _ _ _ _ _ e (l_seg _ Hl _ _ Hx) He) as (x2&Hx2&Hpar). rewrite Hx1 in Hx2. injection Hx2 as <-.
  rewrite (path_det _ _ _ _ Hl' (path_step _ _ _ _ _ Hx1 Hm1 Hc1 Hpar Hp)) in Hle. cbn in Hle. lia.
Qed.

Lemma relisted_sized h h' c xc l s newk f :
  tree_ok h -> chunks h !! c = Some xc -> path (chunks h) c l -> attached (chunks h) l ->
  relisted f c newk -> tracked (fun e x => grow l s e (f e x)) (chunks h) (chunks h') ->
  semantics h' = semantics h -> (forall e, e ∈ newk -> e ∉ l) ->
  total (size_of h) newk = total (size_of h) (kids xc) + s -> sized h'.
Proof.
  intros Hok Hxc Hp Hat Hf Ht Hsem Hnl Htot.
  assert (forall e, match chunks h !! e, chunks h' !! e with
   | Some x, Some y => ctype y = ctype x /\ semantic y = semantic x /\ csize y = csize (grow l s e x) /\
       kids y = if decide (e = c) then newk else kids x
   | None, None => True
   | _, _ => False
   end) as Hch.
  { intros e. rewrite Ht. destruct (chunks h !! e) as [x|]; cbn; [|done]. destruct (Hf e x) as (E1&E2&E3&E5).
    unfold grow, bump. rewrite E1. destruct (decide (e ∈ l)); [|by split_and!].
    destruct (keeps_size (ctype x)); cbn; (split_and!; [exact E1|exact E2|congruence|exact E5]). }
  eapply (resize_sized h h' c xc l s newk); try done; try apply Hok. intros _. rewrite <- Htot.
  apply total_ext. intros e He. eapply resize_out; [done|exact Hch|by apply Hnl].
Qed.

Lemma inserted_typed m m' c x pre d xd post :
  typed m -> m !! c = Some x -> kids x = pre ++ post -> m !! d = Some xd ->
  child_type_ok (ctype x) (ctype xd) = true -> spliced (splice_in c pre d post) m m' -> typed m'.
Proof.
  intros Ht Hx Hk Hd Hty Hs c' x' e y Hcx Hke Hey.
  destruct (spliced_lookup _ _ _ _ _ Hs Hcx) as (x0&Hx0&Ex&_&_&Ek&_).
  destruct (spliced_lookup _ _ _ _ _ Hs Hey) as (y0&Hy0&Ey&_).
  destruct (splice_in_fields c pre d post c' x0) as (E1&_&_&_&_&_&E7).
  destruct (splice_in_fields c pre d post e y0) as (F1&_).
  unfold kids in Hke, E7. rewrite Ek, E7 in Hke. rewrite Ex, Ey, E1, F1.
  destruct (decide (c' = c)) as [->|]; [|by eapply Ht]. rewrite Hx in Hx0. injection Hx0 as <-.
  destruct (decide (e = d)) as [->|]; [rewrite Hd in Hy0; by injection Hy0 as <-|].
  eapply Ht; [exact Hx| |exact Hy0]. rewrite Hk. set_solver.
Qed.

Lemma grow_pos_valid h l s k :
  tracked (grow l s) (chunks h) k -> pos_valid h -> pos_valid (with_chunks h k).
Proof.
  intros Ht Hpv e y Hy p Hpy. cbn in Hy. rewrite Ht in Hy. destruct (chunks h !! e) as [x|] eqn:Hx; [|done].
  injection Hy as <-. apply (Hpv e x Hx p). unfold grow in Hpy.
  case_decide; [by rewrite (proj2 (proj2 (proj2 (bump_fields _ _)))) in Hpy|done].
Qed.

Section finish.
Context (h : Heap) (Hok : tree_ok h) (mu : ChunkMutator) (d : ptr) (xc xd : Chunk) (l : list ptr).
Context (Ha : addable h (chunk mu) d xc xd l) (pre post : list ptr) (Hk : kids xc = pre ++ post).
Context (k : gmap ptr Chunk) (Hs : tracked (splice_in (chunk mu) pre d post) (chunks h) k).

Lemma d_not_kid : d ∉ pre /\ d ∉ post.
Proof using Ha Hk. clear Hok Hs. pose proof (a_new _ _ _ _ _ _ Ha _ _ (a_parent _ _ _ _ _ _ Ha)) as H. rewrite Hk in H. set_solver. Qed.

Lemma splice_frame e x : chunks h !! e = Some x -> is_Some (position_of x) -> position_of xd = None ->
  exists y, k !! e = Some y /\ same_place x y.
Proof.
  intros Hx Hp Hno. exists (splice_in (chunk mu) pre d post e x). split; [by eapply tracked_lookup|].
  destruct (splice_in_fields (chunk mu) pre d post e x) as (_&_&_&E1&E2&E3&_). split_and!; [|done|done].
  apply E3. intros ->. pose proof (a_child _ _ _ _ _ _ Ha) as Hd. rewrite Hx in Hd. injection Hd as ->.
  rewrite Hno in Hp. by destruct Hp.
Qed.

Lemma splice_addr c a la : position_of xd = None -> addr (chunks h) (positions h) c a la -> addr k (positions h) c a la.
Proof. intros Hno. apply addr_frame; [|done]. intros. by apply splice_frame. Qed.

Lemma splice_pos_valid : pos_valid (with_chunks h k).
Proof.
  intros e y Hy. cbn in Hy. rewrite Hs in Hy. destruct (chunks h !! e) as [x|] eqn:Hx; [|done]. injection Hy as <-.
  intros p Hp. destruct (splice_in_fields (chunk mu) pre d post e x) as (_&_&_&E&_). rewrite E in Hp.
  by apply (t_pos _ Hok e x Hx).
Qed.

Lemma splice_pos_unique : pos_unique (chunks (with_chunks h k)).
Proof.
  eapply pos_unique_sub; [apply Hok|exact Hs|]. intros e x.
  by destruct (splice_in_fields (chunk mu) pre d post e x) as (_&_&_&E&_).
Qed.

(** The splice changes no position. *)
Lemma splice_kept e : kept h (with_chunks h k) e.
Proof.
  intros x Hx. exists (splice_in (chunk mu) pre d post e x). split; [by eapply tracked_lookup|].
  by destruct (splice_in_fields (chunk mu) pre d post e x) as (_&_&_&E&_).
Qed.
Lemma grow_kept (h1 : Heap) l1 s k1 e : tracked (grow l1 s) (chunks h1) k1 -> kept h1 (with_chunks h1 k1) e.
Proof.
  intros Ht x Hx. exists (grow l1 s e x). split; [by eapply tracked_lookup|]. split; [|done].
  unfold grow. case_decide; [apply bump_fields|done].
Qed.

(** What the heap is after the position phase. *)
Lemma after_position (h1 : Heap) :
  ensured (start_offset h (chunk mu) pre) (with_chunks h k) d h1 ->
  mode h1 = MODE_OFFSET /\ is_Some (chunks h1 !! d) /\
  wp (ChunkMutator.updateSizesAndAuthorities mu d) (fun _ => inserted h (chunk mu) pre d post) h1.
Proof.
  intros He. destruct (ensured_tracked _ _ _ _ He (t_fresh _ Hok)) as (g&Hg&Hgf&Hsem&Hm&Hpv&Huq&Hfr&Hkept&Hpos).
  destruct Ha as [Hxc Hxd Hpl Hlen Hty Hnl Hnew Hp Hat [Hdl Hdc] [Hsz Hrg] Hfit _]. cbn in *.
  pose proof (tracked_compose _ _ _ _ _ Hs Hg) as Ht1. rewrite (t_mode _ Hok) in Hm.
  set (f1 := fun e x => g e (splice_in (chunk mu) pre d post e x)) in *.
  assert (forall e x, let y := f1 e x in ctype y = ctype x /\ semantic y = semantic x /\ csize y = csize x /\
    (e <> d -> parent y = parent x /\ position_of y = position_of x) /\
    kids y = if decide (e = chunk mu) then pre ++ d :: post else kids x) as Hf1.
  { intros e x. destruct (splice_in_fields (chunk mu) pre d post e x) as (E1&E2&E3&E4&E5&E6&E7).
    destruct (Hgf e (splice_in (chunk mu) pre d post e x)) as ((F1&(F2&F3&F4)&F5&F6&F7)&F8&F9).
    unfold f1. split_and!; [congruence..| |].
    - intros Hne. rewrite F9 by done. auto.
    - unfold kids in *. by rewrite F6. }
  assert (forall e x, sim (splice_in (chunk mu) pre d post e x) (f1 e x)) as Hsim by (intros; apply Hgf).
  clearbody f1.
  assert (forall e x, chunks h !! e = Some x -> chunks h1 !! e = Some (f1 e x)) as Hlk
    by (intros; by eapply tracked_lookup).
  assert (size_of h1 d = size_of h d) as Hsd.
  { unfold size_of. rewrite (Hlk d xd Hxd), Hxd, Hsem. by destruct (Hf1 d xd) as (->&->&->&_). }
  split_and!; [done|eexists; by apply Hlk|].
  eapply wp_mono; [|apply (wp_updateSizes h1 mu d l Hm); [| |..]].
  - intros _ h2 (k2&->&Ht2). pose proof (tracked_compose _ _ _ _ _ Ht1 Ht2) as Ht.
    assert (spliced (splice_in (chunk mu) pre d post) (chunks h) k2) as Hspl.
    { eapply tracked_spliced; [|exact Ht]. intros e x Hx. etrans; [apply Hsim|].
      unfold grow. case_decide; [apply bump_fields|done]. }
    assert (forall e, kept h1 (with_chunks h1 k2) e) as Hg2 by (intros; by eapply grow_kept).
    split; [|split; [exact Hspl|split]].
    + split.
      * done.
      * eapply inserted_linked; [apply Hok|exact Hxc|exact Hk|by eauto|exact Hnew|exact Hspl].
      * eapply inserted_typed; [apply Hok|exact Hxc|exact Hk|exact Hxd|exact Hty|exact Hspl].
      * eapply (relisted_sized h _ (chunk mu) xc l (size_of h1 d) (pre ++ d :: post) f1); try done.
        -- intros e x. destruct (Hf1 e x) as (?&?&?&_&?). by split_and!.
        -- intros e [Hin|[->|Hin]%elem_of_cons]%elem_of_app; [|done|];
             (eapply kid_not_above; [apply Hok|exact Hxc|done|]; rewrite Hk; set_solver).
        -- rewrite Hsd, Hk, !total_app. cbn. lia.
      * apply (grow_pos_valid _ _ _ _ Ht2), Hpv, splice_pos_valid.
      * eapply (pos_unique_sub _ _ _ (Huq splice_pos_valid splice_pos_unique) Ht2).
        intros e x. unfold grow. case_decide; [apply bump_fields|done].
      * exact Hfr.
    + intros e Hne. eapply kept_trans; [apply splice_kept|]. eapply kept_trans; [|apply Hg2]. by apply (Hkept splice_pos_valid).
    + intros x Hx. destruct Hpos as (x'&Hx'&Hpos). cbn in Hx'. destruct (splice_kept d x Hx) as (y&Hy&Ey&_).
      cbn in Hy. rewrite Hy in Hx'. injection Hx' as ->. rewrite Ey in Hpos. destruct (position_of x).
      * eapply kept_trans; [apply splice_kept|]. by eapply kept_trans.
      * destruct Hpos as (o&Ho&Hgv). exists o. split; [done|]. by eapply offset_given_kept.
  - eapply path_frame; [|exact Hp]. intros e x Hx _. exists (f1 e x). split; [by apply Hlk|].
    destruct (Hf1 e x) as (E1&_&_&E4&_). split; [done|]. intros Hin. apply E4. by intros ->.
  - done.
  - destruct Hsz as (x&Hx&Hi). exists (f1 d x). split; [by apply Hlk|].
    destruct (Hf1 d x) as (->&->&_). by rewrite Hsem.
  - by rewrite Hsd.
  - intros e x Hin Hx Hks. rewrite Ht1 in Hx. destruct (chunks h !! e) as [x0|] eqn:Hx0; [|done]. injection Hx as <-.
    destruct (Hf1 e x0) as (E1&_&E3&_). rewrite Hsd, E3. rewrite E1 in Hks. by apply (Hfit e).
Qed.

Lemma wp_finish :
  wp (ChunkMutator.ensurePosition mu d) (fun _ h1 => mode h1 = MODE_OFFSET /\ is_Some (chunks h1 !! d) /\
    wp (ChunkMutator.updateSizesAndAuthorities mu d) (fun _ => inserted h (chunk mu) pre d post) h1) (with_chunks h k).
Proof.
  pose proof Ha as [Hxc Hxd Hpl Hlen Hty Hnl Hnew Hp Hat [Hdl Hdc] _ _ Haddr].
  destruct (splice_in_fields (chunk mu) pre d post (chunk mu) xc) as (E1&_&_&_&_&_&E7).
  rewrite decide_True in E7 by done.
  destruct (splice_in_fields (chunk mu) pre d post d xd) as (F1&_&_&F4&_).
  eapply (wp_ensurePosition (with_chunks h k) mu d (splice_in (chunk mu) pre d post (chunk mu) xc)
    (splice_in (chunk mu) pre d post d xd) pre post) with (P := start_offset h (chunk mu) pre).
  - apply Hok.
  - by apply (tracked_lookup _ _ _ _ _ Hs).
  - rewrite E1. apply Hpl.
  - exact E7.
  - apply d_not_kid.
  - rewrite E7. unfold size_ok in *. rewrite Hk in Hlen. cbn in Hlen. rewrite length_app in *. cbn. lia.
  - by apply (tracked_lookup _ _ _ _ _ Hs).
  - by rewrite E1, F1.
  - by rewrite F1.
  - rewrite F4. intros Hno. unfold offset_in, start_offset. destruct (last pre) as [q|] eqn:Hq; [|done].
    apply last_elem in Hq. destruct (Haddr Hno) as [(b&lb&Hb) Hkids].
    destruct (Hkids q) as (a&la&Hqa); [rewrite Hk; set_solver|]. exists a, la, b, lb.
    split_and!; [by apply splice_addr|by apply splice_addr|]. by exists a, la, b, lb.
  - apply after_position.
Qed.
End finish.

Lemma addable_length h c d xc xd l : addable h c d xc xd l -> size_ok (kids xc).
Proof. intros Ha. pose proof (a_length _ _ _ _ _ _ Ha) as H. unfold size_ok in *. cbn in H. lia. Qed.

(** Appending: the chunk becomes the last child. *)
Lemma append_inserted h mu d xc xd l :
  tree_ok h -> addable h (chunk mu) d xc xd l -> next xd = None ->
  wp (ChunkMutator.append mu d) (fun _ => inserted h (chunk mu) (kids xc) d []) h.
Proof.
  intros Hok Ha Hn. pose proof (addable_length _ _ _ _ _ _ Ha) as Hsz.
  pose proof Ha as [Hxc Hxd Hpl Hlen Hty Hnl Hnew Hp Hat [Hdl Hdc] _ _ Haddr].
  eapply (append_links h (t_pos _ Hok) (t_linked _ Hok) mu xc Hxc Hpl d xd Hxd Hty Hdc Hnew _ Hn).
  intros k Hk. mstep. eapply wp_mono; [|eapply (wp_finish h Hok mu d xc xd l Ha (kids xc) []); [by rewrite app_nil_r|exact Hk]].
  by intros _ h1 (_&_&Hw).
Qed.

Lemma insertBefore_inserted h mu d xc xd l pre i post :
  tree_ok h -> addable h (chunk mu) d xc xd l -> kids xc = pre ++ i :: post ->
  wp (ChunkMutator.insertBefore mu (Some i) d) (fun _ => inserted h (chunk mu) pre d (i :: post)) h.
Proof.
  intros Hok Ha Hk. pose proof (addable_length _ _ _ _ _ _ Ha) as Hsz.
  pose proof Ha as [Hxc Hxd Hpl Hlen Hty Hnl Hnew Hp Hat [Hdl Hdc] _ _ Haddr].
  eapply (insertBefore_links h (t_pos _ Hok) (t_linked _ Hok) mu xc Hxc Hpl Hsz d xd Hxd Hty Hdc Hnew pre i post Hk _
    (t_typed _ Hok) (t_mode _ Hok)).
  intros k Htk. by eapply (wp_finish h Hok mu d xc xd l Ha pre (i :: post)).
Qed.

(** Prepending: the chunk becomes the first child. *)
Lemma prepend_inserted h mu d xc xd l :
  tree_ok h -> addable h (chunk mu) d xc xd l -> (kids xc = [] -> next xd = None) ->
  wp (ChunkMutator.prepend mu d) (fun _ => inserted h (chunk mu) [] d (kids xc)) h.
Proof.
  intros Hok Ha Hn. pose proof (a_parent _ _ _ _ _ _ Ha) as Hxc. destruct (a_list _ _ _ _ _ _ Ha) as [Hc _].
  assert (children_at (chunk mu) h = Ok (childList xc, h)) as E.
  { unfold children_at, getChildren, mbind, M_bind, chunk_at. by rewrite Hxc, Hc. }
  assert (genericGetSize (chunk mu) h = Ok (Z.of_nat (length (kids xc)), h)) as Es.
  { unfold genericGetSize, mbind, M_bind. by rewrite E. }
  unfold ChunkMutator.prepend. mstep. eapply wp_eq; [exact Es|]. destruct (kids xc) as [|i post] eqn:Ek.
  - pose proof (append_inserted h mu d xc xd l Hok Ha (Hn eq_refl)) as Hw. by rewrite Ek in Hw.
  - rewrite (proj2 (Z.eqb_neq _ _)) by (cbn; lia). mstep.
    assert (genericGetAt (chunk mu) 0 h = Ok (i, h)) as Eg.
    { unfold genericGetAt, mbind, M_bind. rewrite E. unfold lift, ChunkList.genericGetAt, IterableChunkList.get.
      fold (kids xc). by rewrite Ek. }
    eapply wp_eq; [exact Eg|]. by apply (insertBefore_inserted h mu d xc xd l [] i post Hok Ha).
Qed.

(** ** Changes of positions only *)

Definition repositioned (f : ptr -> Chunk -> Chunk) : Prop :=
  forall e x, sim x (f e x) /\ csize (f e x) = csize x.

Lemma repositioned_ok h h' f :
  tree_ok h -> repositioned f -> tracked f (chunks h) (chunks h') -> semantics h' = semantics h ->
  mode h' = mode h -> pos_valid h' -> pos_unique (chunks h') ->
  (forall p, is_Some (positions h' !! p) -> p < fresh h') -> tree_ok h'.
Proof.
  intros Hok Hf Ht Hsem Hm Hpv Hu Hfr.
  assert (forall e y, chunks h' !! e = Some y -> exists x, chunks h !! e = Some x /\ y = f e x) as Hlk.
  { intros e y. rewrite Ht. destruct (chunks h !! e) as [x|]; [|done]. intros [= <-]. eauto. }
  assert (forall e x, kids (f e x) = kids x) as Hkids.
  { intros e x. destruct (Hf e x) as [(_&_&_&E&_) _]. unfold kids. by rewrite E. }
  split; [by rewrite Hm; apply Hok| | | |done|done|done].
  - split; intros c y Hy; destruct (Hlk c y Hy) as (x&Hx&->); rewrite Hkids; [|by eapply (l_nodup _ (t_linked _ Hok))].
    eapply seg_frame; [|by apply (l_seg _ (t_linked _ Hok))]. intros e z _ Hz. exists (f e z).
    split; [by eapply tracked_lookup|]. apply Hf.
  - intros c y e z Hc Hke He. destruct (Hlk c y Hc) as (x&Hx&->), (Hlk e z He) as (x'&Hx'&->).
    rewrite Hkids in Hke. destruct (Hf c x) as [(->&_) _], (Hf e x') as [(->&_) _]. by eapply (t_typed _ Hok).
  - intros e y Hy Hk. destruct (Hlk e y Hy) as (x&Hx&->). destruct (Hf e x) as [(E1&_) E2].
    rewrite Hkids, E2. rewrite E1 in Hk. rewrite (t_sized _ Hok e x Hx Hk).
    apply total_ext. intros e' _. unfold size_of. rewrite Ht, Hsem. destruct (chunks h !! e') as [x'|]; [|done].
    cbn. destruct (Hf e' x') as [(->&_&_&_&->) ->]. done.
Qed.

(** Deleting the position of a block or an instruction. *)
Lemma delete_own_position h e x (Q : unit -> Heap -> Prop) :
  tree_ok h -> chunks h !! e = Some x -> ctype x = TBlock \/ ctype x = TInstruction ->
  (forall h', tree_ok h' -> tracked (upd (fun _ x => x) e (fun x => with_position x None)) (chunks h) (chunks h') ->
    (forall e', e' <> e -> kept h h' e') -> Q tt h') ->
  wp (p ← getPosition e; delete_position p;; setPosition e None) Q h.
Proof.
  intros Hok Hx Hty HQ. mstep. mstep; [done|]. set (f := upd (fun _ x => x) e (fun x => with_position x None)).
  assert (forall ps, (forall e' x' p, e' <> e -> chunks h !! e' = Some x' -> position_of x' = Some p ->
      ps !! p = positions h !! p) -> (forall p, is_Some (ps !! p) -> is_Some (positions h !! p)) ->
    wp (setPosition e None) Q (with_positions h ps)) as Hrest.
  { intros ps Hps Hsub. unfold setPosition. mstep. mstep; [done|].
    assert (Q tt (with_chunks (with_positions h ps) (<[e := with_position x None]> (chunks h)))) as HQ'.
    { assert (tracked f (chunks h) (<[e := with_position x None]> (chunks h))) as Htr.
      { by apply (tracked_upd (fun _ x => x) _ _ e (fun x => with_position x None) x (tracked_id _)). }
      assert (forall e' y p, <[e := with_position x None]> (chunks h) !! e' = Some y -> position_of y = Some p ->
        e' <> e /\ chunks h !! e' = Some y) as Hold.
      { intros e' y p [[<- <-]|[? ?]]%lookup_insert_Some Hp; [|done]. unfold position_of in Hp. cbn in Hp.
        by destruct Hty as [E|E]; rewrite E in Hp. }
      apply HQ; [|done|].
      2: { intros e' Hne x' Hx'. exists x'. cbn. rewrite lookup_insert_ne by done. split_and!; [done|done|].
           intros p Hp. by eapply Hps. }
      eapply (repositioned_ok h _ f Hok); [|done|done|done| | |]; cbn.
      - intros e' y. unfold f, upd. by case_decide.
      - intros e' y Hy p Hp. destruct (Hold e' y p Hy Hp) as [Hne Hy']. cbn.
        rewrite (Hps e' y p Hne Hy' Hp). by apply (t_pos _ Hok e' y).
      - intros e1 y1 e2 y2 p H1 H2 Hp1 Hp2. destruct (Hold _ _ _ H1 Hp1) as [_ H1'], (Hold _ _ _ H2 Hp2) as [_ H2'].
        by eapply (t_unique _ Hok).
      - intros p Hp%Hsub. by apply (t_fresh _ Hok). }
    destruct Hty as [E|E]; rewrite E; exact HQ'. }
  destruct (position_of x) as [p|] eqn:Ep.
  - destruct (t_pos _ Hok e x Hx p Ep) as (z&Hz&_). mstep. unfold wp, delete_position. rewrite Hz.
    apply (Hrest (delete p (positions h))).
    + intros e' x' p' Hne Hx' Hp'. rewrite lookup_delete_ne; [done|]. intros <-. apply Hne.
      by eapply (t_unique _ Hok).
    + intros p'. rewrite lookup_delete_is_Some. by intros [_ ?].
  - mstep. unfold wp, delete_position. specialize (Hrest (positions h)). unfold wp in Hrest.
    destruct h. apply Hrest; done.
Qed.

Lemma ensured_ok P h d h' :
  tree_ok h -> ensured P h d h' -> tree_ok h' /\ (exists g, repositioned g /\ tracked g (chunks h) (chunks h')) /\
    (forall e, e <> d -> kept h h' e) /\
    exists x, chunks h !! d = Some x /\
      match position_of x with Some _ => kept h h' d | None => exists o, P o /\ offset_given h' d o end.
Proof.
  intros Hok He. destruct (ensured_tracked _ _ _ _ He (t_fresh _ Hok)) as (g&Hg&Hgf&Hsem&Hm&Hpv&Huq&Hfr&Hkept&Hpos).
  assert (repositioned g) as Hr by (intros e x; by destruct (Hgf e x) as (?&?&_)).
  split_and!; [|by eexists|apply Hkept, Hok|done].
  eapply (repositioned_ok h h' g); [done..|apply Hpv, Hok|apply Huq; apply Hok|done].
Qed.

Lemma wp_seq_assoc {A} (a : M A) (b : A -> M unit) (c d : M unit) Q h :
  wp (p ← a; b p;; c) (fun _ => wp d Q) h -> wp (p ← a; b p;; c;; d) Q h.
Proof.
  unfold wp, mbind, M_bind. destruct (a h) as [[x h1]|]; [|done].
  destruct (b x h1) as [[? h2]|]; [|done]. by destruct (c h2) as [[? h3]|].
Qed.

(** The last part of [insertAfter] changes one position only, that of the first child of the next
    sibling, which is at its start. *)
Definition first_child (h : Heap) (n : option ptr) (e : ptr) : Prop := exists c z, n = Some c /\ chunks h !! c = Some z /\
  has_children (ctype z) = true /\ head (kids z) = Some e.
Definition renewed (h : Heap) (n : option ptr) (h' : Heap) : Prop := tree_ok h' /\
  (exists g, repositioned g /\ tracked g (chunks h) (chunks h')) /\
  (forall e, ~ first_child h n e -> kept h h' e) /\ forall e, first_child h n e -> offset_given h' e 0.
Lemma renew_ok h d y :
  tree_ok h -> chunks h !! d = Some y ->
  (forall n, next y = Some n -> exists z, chunks h !! n = Some z /\ size_ok (kids z) /\
     (ctype z = TFunction \/ ctype z = TBlock \/ ctype z = TInstruction)) ->
  wp (ChunkMutator.renewNextPosition d)
    (fun _ => renewed h (next y)) h.
Proof.
  intros Hok Hy Hn.
  assert ((forall e, ~ first_child h (next y) e) -> renewed h (next y) h) as Hid.
  { intros Hnone. split_and!; [done| |intros; apply kept_refl|by intros e ?%Hnone].
    exists (fun _ x => x). split; [by intros e x|apply tracked_id]. }
  unfold ChunkMutator.renewNextPosition. mstep. mstep; [done|].
  destruct (next y) as [n|] eqn:En; [|apply wp_ret, Hid; by intros e (c&z&?&_)].
  destruct (Hn n eq_refl) as (z&Hz&Hsz&Hzt). mstep. unfold getChildren. mstep. mstep; [done|]. mstep.
  assert (forall e, first_child h (Some n) e -> has_children (ctype z) = true /\ head (kids z) = Some e) as Hfc.
  { intros e (c&z'&[= <-]&Hz'&?&?). rewrite Hz in Hz'. by injection Hz' as <-. }
  destruct (has_children (ctype z)) eqn:Hc; [|apply wp_ret, Hid; by intros e [? _]%Hfc].
  destruct (Z.ltb_spec 0 (ChunkList.genericGetSize (childList z))) as [Hpos|Hpos].
  2: { apply wp_ret, Hid. intros e [_ He]%Hfc. unfold ChunkList.genericGetSize, IterableChunkList.getCount in Hpos.
       fold (kids z) in Hpos. destruct (kids z); [done|cbn in Hpos; lia]. }
  unfold ChunkList.genericGetSize, IterableChunkList.getCount in Hpos.
  destruct (kids z) as [|nc rest] eqn:Ek; unfold kids in Ek; rewrite Ek in Hpos; [cbn in Hpos; lia|]. fold (kids z) in Ek.
  destruct (seg_parent _ _ _ _ _ nc (l_seg _ (t_linked _ Hok) n z Hz)) as (w&Hw&_); [rewrite Ek; left|].
  pose proof (t_typed _ Hok n z nc w Hz ltac:(rewrite Ek; left) Hw) as Hty.
  assert (ctype w = TBlock \/ ctype w = TInstruction) as Hwt.
  { destruct Hzt as [E|[E|E]]; rewrite E in *; destruct (ctype w); auto; done. }
  mstep. eapply wp_lift.
  { unfold ChunkList.genericGetAt, IterableChunkList.get. unfold kids in Ek. rewrite Ek. apply (load_app [] nc rest). }
  assert (wp (p ← getPosition nc; delete_position p;; setPosition nc None) (fun _ h1 =>
    wp (ChunkMutator.temporary (mkMutator n false) (fun m => ChunkMutator.makePositionFor m nc))
      (fun _ => renewed h (Some n)) h1) h) as Hmain;
    [|by apply wp_seq_assoc].
  apply (delete_own_position h nc w _ Hok Hw Hwt). intros h1 Hok1 Ht1 Hkept1.
  set (f := upd (fun _ x => x) nc (fun x => with_position x None)) in *.
  unfold ChunkMutator.temporary. mstep.
  assert (nc <> n) as Hne by (intros ->; rewrite Hz in Hw; injection Hw as <-;
    destruct Hzt as [E|[E|E]]; by rewrite E in Hty).
  assert (chunks h1 !! n = Some z) as Hz1 by (rewrite (tracked_lookup _ _ _ _ _ Ht1 Hz); unfold f, upd; by rewrite decide_False).
  assert (chunks h1 !! nc = Some (with_position w None)) as Hw1
    by (rewrite (tracked_lookup _ _ _ _ _ Ht1 Hw); unfold f, upd; by rewrite decide_True).
  eapply (wp_makePositionFor h1 (mkMutator n false) nc z (with_position w None) [] rest) with (P := eq 0); cbn [chunk app].
  - apply Hok1.
  - done.
  - done.
  - done.
  - apply not_elem_of_nil.
  - by rewrite Ek.
  - done.
  - done.
  - cbn; by destruct Hwt as [-> | ->].
  - unfold position_of. cbn. by destruct Hwt as [-> | ->].
  - done.
  - intros h2 He. change (wp (mret tt) (fun _ => renewed h (Some n)) h2).
    apply wp_ret. destruct (ensured_ok _ h1 nc h2 Hok1 He) as (Hok2&(g&Hg&Ht2)&Hkept2&(w'&Hw'&Hpos2)).
    rewrite Hw1 in Hw'. injection Hw' as <-.
    replace (position_of (with_position w None)) with (@None ptr) in Hpos2 by (unfold position_of; cbn; by destruct Hwt as [-> | ->]).
    assert (forall e, first_child h (Some n) e <-> e = nc) as Hfc'.
    { intros e. split; [intros [_ [= <-]]%Hfc; done|intros ->]. exists n, z. by rewrite Ek. }
    split_and!; [done| |intros e Hn'%(not_iff_compat (Hfc' e)); by eapply kept_trans; [apply Hkept1|apply Hkept2]|].
    2: { intros e ->%Hfc'. destruct Hpos2 as (o&<-&?). done. }
    exists (fun e x => g e (f e x)). split; [|by eapply tracked_compose].
    intros e x. destruct (Hg e (f e x)) as [Hs Hcs]. rewrite Hcs. unfold f, upd in *. case_decide; [|done].
    split; [etrans; [|exact Hs]; done|done].
Qed.

Lemma spliced_tracked f g m k k' :
  spliced f m k -> repositioned g -> tracked g k k' -> spliced f m k'.
Proof.
  intros Hs Hg Ht e. specialize (Hs e). rewrite Ht. destruct (m !! e), (k !! e) as [y|]; try done. cbn.
  etrans; [exact Hs|]. apply Hg.
Qed.

(** Inserting after a child. *)
Lemma insertAfter_inserted h mu d xc xd l pre i post :
  tree_ok h -> addable h (chunk mu) d xc xd l -> kids xc = pre ++ i :: post -> ctype xc <> TModule ->
  (forall e z, e ∈ post -> chunks h !! e = Some z -> size_ok (kids z)) ->
  wp (ChunkMutator.insertAfter mu (Some i) d) (fun _ h' => tree_ok h' /\
    spliced (splice_in (chunk mu) (pre ++ [i]) d post) (chunks h) (chunks h') /\
    (forall e, e <> d -> ~ first_child h (head post) e -> kept h h' e) /\
    (forall e, first_child h (head post) e -> offset_given h' e 0) /\ positioned h (chunk mu) (pre ++ [i]) d h') h.
Proof.
  intros Hok Ha Hk Hmod Hlens. pose proof (addable_length _ _ _ _ _ _ Ha) as Hsz.
  pose proof Ha as [Hxc Hxd Hpl Hlen Hty Hnl Hnew Hp Hat [Hdl Hdc] _ _ Haddr].
  eapply (insertAfter_links h (t_pos _ Hok) (t_linked _ Hok) mu xc Hxc Hpl Hsz d xd Hxd Hty Hdc Hnew pre i post Hk _
    (t_typed _ Hok)).
  assert (kids xc = (pre ++ [i]) ++ post) as Hk' by (by rewrite <- app_assoc).
  intros k Htk. eapply wp_mono; [|by eapply (wp_finish h Hok mu d xc xd l Ha (pre ++ [i]) post Hk')].
  intros _ h1 (_&_&Hw). eapply wp_mono; [|exact Hw]. intros _ h2 (Hok2&Hspl&Hkept&Hposd).
  destruct (spliced_lookup_l _ _ _ _ _ Hspl Hxd) as (y&Hy&_).
  assert (next y = head post) as E.
  { destruct (spliced_lookup_l _ _ _ _ _ Hspl Hxd) as (y'&Hy'&_&(_&_&E)&_). rewrite Hy in Hy'. injection Hy' as <-.
    rewrite E. destruct (d_not_kid h mu d xc xd l Ha (pre ++ [i]) post Hk') as [H1 H2]. unfold splice_in.
    rewrite (decide_True (P := d = d)), (decide_False (P := last (pre ++ [i]) = Some d)),
      (decide_False (P := head post = Some d)), (decide_False (P := d = chunk mu)); [done|done|..|done].
    + by intros ?%head_elem.
    + by intros ?%last_elem. }
  assert (forall n, head post = Some n -> exists z w, chunks h !! n = Some z /\ chunks h2 !! n = Some w /\ ctype w = ctype z /\
    kids w = kids z /\ size_ok (kids z) /\ (ctype z = TFunction \/ ctype z = TBlock \/ ctype z = TInstruction)) as Hnext.
  { intros n Hn%head_elem. assert (n ∈ kids xc) as Hnk by (rewrite Hk'; set_solver).
    destruct (seg_parent _ _ _ _ _ n (l_seg _ (t_linked _ Hok) _ _ Hxc) Hnk) as (z&Hz&_).
    destruct (spliced_lookup_l _ _ _ _ _ Hspl Hz) as (w&Hw2&Ew&_&_&Ek&_).
    destruct (splice_in_fields (chunk mu) (pre ++ [i]) d post n z) as (F1&_&_&_&_&_&F7).
    pose proof (t_typed _ Hok _ _ _ _ Hxc Hnk Hz) as Htn.
    assert (n <> chunk mu) as Hnc by (intros ->; rewrite Hxc in Hz; injection Hz as <-; by destruct (ctype xc)).
    exists z, w. split_and!; [done|done|congruence| |by eapply Hlens|destruct (ctype xc), (ctype z); auto; done].
    unfold kids at 1. rewrite Ek. unfold kids in F7. by rewrite F7, decide_False. }
  assert (forall e, first_child h2 (head post) e <-> first_child h (head post) e) as Hfc.
  { intros e. split; intros (c&z'&Hc&Hz'&Hch&Hhd); destruct (Hnext c Hc) as (z&w&Hz&Hw2&E1&E2&_);
      [assert (z' = w) as -> by congruence; exists c, z|assert (z' = z) as -> by congruence; exists c, w]; by rewrite ?E1, ?E2 in *. }
  assert (~ first_child h (head post) d) as Hd.
  { intros (c&z&_&Hz&_&Hhd%head_elem). by apply (Hnew c z Hz). }
  eapply wp_mono; [|apply (renew_ok h2 d y Hok2 Hy)]; rewrite E.
  - intros _ h3 (Hok3&(g&Hg&Ht3)&Hkept3&Hgiven3). split_and!; [done|by eapply spliced_tracked| | |].
    + intros e Hne Hf. eapply kept_trans; [by apply Hkept|]. apply Hkept3. by rewrite Hfc.
    + intros e Hf. apply Hgiven3. by rewrite Hfc.
    + intros x Hx. specialize (Hposd x Hx). destruct (position_of x).
      * eapply kept_trans; [exact Hposd|]. apply Hkept3. by rewrite Hfc.
      * destruct Hposd as (o&Ho&Hgv). exists o. split; [done|]. eapply offset_given_kept; [exact Hgv|]. apply Hkept3. by rewrite Hfc.
  - intros n Hn. destruct (Hnext n Hn) as (z&w&Hz&Hw2&E1&E2&Hs&Ht). exists w. by rewrite E1, E2.
Qed.

(** ** Removal *)

Record removable (h : Heap) (c d : ptr) (xc xd : Chunk) (l pre post : list ptr) : Prop := {
  r_parent : chunks h !! c = Some xc;
  r_child : chunks h !! d = Some xd;
  r_list : plain_list xc;
  r_kids : kids xc = pre ++ d :: post;
  r_self : d <> c;
  r_length : size_ok (kids xc);
  r_path : path (chunks h) c l;
  r_attached : attached (chunks h) l;
  r_size : has_size h d /\ size_of h d < 2 ^ 63;
  r_nonneg : forall e, 0 <= size_of h e;
  r_fits : fits h l 0 }.

(** The sizes of the ancestors include the size of a child. *)
Lemma ancestor_sizes h c l s :
  typed (chunks h) -> sized h -> (forall e, 0 <= size_of h e) -> path (chunks h) c l -> attached (chunks h) l ->
  (forall x, chunks h !! c = Some x -> keeps_size (ctype x) = true -> s <= csize x) ->
  forall e x, e ∈ l -> chunks h !! e = Some x -> keeps_size (ctype x) = true -> s <= csize x.
Proof.
  intros Hty0 Hsz Hnn Hp. induction Hp as [c z Hz Ht|c z Hz Ht Hc Hpar|c z q l Hz Ht Hc Hpar Hp IH]; intros Hat Hbase e x He Hx Hk.
  - set_solver.
  - apply list_elem_of_singleton in He as ->. by apply Hbase.
  - apply elem_of_cons in He as [->|He]; [by apply Hbase|].
    apply (IH) with (e := e); try done.
    + intros e' x' q' y' He'. apply Hat. by right.
    + intros y Hy Hky. pose proof (Hat c z q y ltac:(left) Hz Hpar Hy Hky) as Hin.
      pose proof (Hty0 q y c z Hy Hin Hz) as Hty.
      assert (keeps_size (ctype z) = true) as Hkz by (by destruct (ctype y), (ctype z)).
      specialize (Hbase z Hz Hkz). rewrite (Hsz q y Hy Hky).
      apply list_elem_of_split in Hin as (l1&l2&E). rewrite E, total_app. cbn.
      assert (size_of h c = csize z) by (unfold size_of; rewrite Hz; by destruct (ctype z)).
      pose proof (total_nonneg (size_of h) l1 ltac:(auto)). pose proof (total_nonneg (size_of h) l2 ltac:(auto)). lia.
Qed.

Lemma splice_out_fields c pre d post e x :
  let y := splice_out c pre d post e x in
  ctype y = ctype x /\ semantic y = semantic x /\ csize y = csize x /\ position_of y = position_of x /\
  positionIndex y = positionIndex x /\ parent y = parent x /\
  kids y = if decide (e = c) then pre ++ post else kids x.
Proof. unfold splice_out. fields; by split_and!. Qed.

Lemma removed_typed m m' c x pre d post :
  typed m -> m !! c = Some x -> kids x = pre ++ d :: post -> spliced (splice_out c pre d post) m m' -> typed m'.
Proof.
  intros Ht Hx Hk Hs c' x' e y Hcx Hke Hey.
  destruct (spliced_lookup _ _ _ _ _ Hs Hcx) as (x0&Hx0&Ex&_&_&Ek&_).
  destruct (spliced_lookup _ _ _ _ _ Hs Hey) as (y0&Hy0&Ey&_).
  destruct (splice_out_fields c pre d post c' x0) as (E1&_&_&_&_&_&E7).
  destruct (splice_out_fields c pre d post e y0) as (F1&_).
  unfold kids in Hke, E7. rewrite Ek, E7 in Hke. rewrite Ex, Ey, E1, F1.
  destruct (decide (c' = c)) as [->|]; [|by eapply Ht]. rewrite Hx in Hx0. injection Hx0 as <-.
  eapply Ht; [exact Hx| |exact Hy0]. rewrite Hk. set_solver.
Qed.

Lemma remove_removed h mu d xc xd l pre post :
  tree_ok h -> removable h (chunk mu) d xc xd l pre post ->
  wp (ChunkMutator.remove mu d) (fun _ h' => tree_ok h' /\
    spliced (splice_out (chunk mu) pre d post) (chunks h) (chunks h')) h.
Proof.
  intros Hok Hr. pose proof Hr as [Hxc Hxd Hpl Hk Hdc Hsz Hp Hat [Hds Hdb] Hnn Hf0].
  assert (d ∈ kids xc) as Hdk by (rewrite Hk; set_solver).
  pose proof (t_typed _ Hok _ _ _ _ Hxc Hdk Hxd) as Hty.
  eapply (remove_links h (t_pos _ Hok) (t_linked _ Hok) mu xc Hxc Hpl Hsz d xd Hxd Hty Hdc _ pre post Hk).
  intros k Ht. pose proof (splice_out_fields (chunk mu) pre d post) as Hf. set (s := size_of h d).
  assert (d ∉ l) as Hdl by (eapply kid_not_above; [apply Hok|exact Hxc|exact Hp|exact Hdk]).
  assert (total (size_of h) (kids xc) = total (size_of h) (pre ++ post) + s) as Htot.
  { rewrite Hk, !total_app. cbn. fold s. lia. }
  assert (forall e x, e ∈ l -> chunks h !! e = Some x -> keeps_size (ctype x) = true -> s <= csize x) as Hbig.
  { apply (ancestor_sizes h (chunk mu) l s (t_typed _ Hok) (t_sized _ Hok) Hnn Hp Hat). intros x Hx Hkx. rewrite Hxc in Hx. injection Hx as <-.
    rewrite (t_sized _ Hok _ _ Hxc Hkx), Htot. pose proof (total_nonneg (size_of h) (pre ++ post) ltac:(auto)). lia. }
  assert (forall e x, chunks h !! e = Some x -> k !! e = Some (splice_out (chunk mu) pre d post e x)) as Hlk
    by (intros; by eapply tracked_lookup).
  assert (forall t, (forall e x, e ∈ l -> chunks h !! e = Some x -> keeps_size (ctype x) = true -> 0 <= csize x + t < 2 ^ 63) ->
    fits (with_chunks h k) l t) as Hfits.
  { intros t Hh e x He Hx Hks. cbn in Hx. rewrite Ht in Hx. destruct (chunks h !! e) as [x0|] eqn:Hx0; [|done].
    injection Hx as <-. destruct (Hf e x0) as (E1&_&E3&_). rewrite E3. rewrite E1 in Hks. by apply (Hh e). }
  assert (forall k2, (forall e', e' ∉ l -> k2 !! e' = k !! e') ->
    has_size (with_chunks (with_chunks h k) k2) d /\ size_of (with_chunks (with_chunks h k) k2) d = s) as Hamount.
  { intros k2 Hk2. destruct Hds as (x&Hx&Hi). destruct (Hf d x) as (E1&E2&E3&_).
    split.
    - exists (splice_out (chunk mu) pre d post d x). cbn. rewrite Hk2 by done. split; [by apply Hlk|].
      by rewrite E1, E2.
    - unfold s, size_of. cbn. rewrite Hk2, (Hlk d x Hx), Hx by done. by rewrite E1, E2, E3. }
  mstep. eapply wp_mono; [|apply (wp_shrink (with_chunks h k) (chunk mu) l (getSize d) s)].
  - intros _ h2 (k2&->&Ht2). cbn in Ht2. pose proof (tracked_compose _ _ _ _ _ Ht Ht2) as Ht3.
    unfold ChunkMutator.updateGenerationCounts. mstep. mstep. cbn [mode with_chunks]. rewrite (t_mode _ Hok).
    apply wp_ret.
    assert (spliced (splice_out (chunk mu) pre d post) (chunks h) k2) as Hspl.
    { eapply tracked_spliced; [|exact Ht3]. intros e x _. unfold grow. case_decide; [apply bump_fields|done]. }
    split; [|exact Hspl]. split.
    + apply Hok.
    + eapply removed_linked; [apply Hok|exact Hxc|exact Hk|exact Hspl].
    + eapply removed_typed; [apply Hok|exact Hxc|exact Hk|exact Hspl].
    + eapply (relisted_sized h _ (chunk mu) xc l (- s) (pre ++ post)); try done.
      * intros e x. destruct (Hf e x) as (?&?&?&_&_&_&?). by split_and!.
      * intros e He. eapply kid_not_above; [apply Hok|exact Hxc|exact Hp|]. rewrite Hk. set_solver.
      * lia.
    + apply (grow_pos_valid (with_chunks h k) l (- s) k2 Ht2). intros e y Hy p Hpy. cbn in Hy. rewrite Ht in Hy.
      destruct (chunks h !! e) as [x|] eqn:Hx; [|done]. injection Hy as <-.
      destruct (Hf e x) as (_&_&_&E&_). rewrite E in Hpy. by apply (t_pos _ Hok e x Hx).
    + eapply (pos_unique_sub _ _ _ (t_unique _ Hok) Ht3). intros e x. destruct (Hf e x) as (_&_&_&E&_). rewrite <- E.
      unfold grow. case_decide; [apply bump_fields|done].
    + apply Hok.
  - eapply path_frame; [|exact Hp]. intros e x Hx _. eexists. split; [by apply Hlk|].
    destruct (Hf e x) as (E1&_&_&_&_&E6&_). by split.
  - unfold s. specialize (Hnn d). lia.
  - apply Hfits. intros e x He Hx Hks. pose proof (Hbig e x He Hx Hks). pose proof (Hf0 e x He Hx Hks).
    specialize (Hnn d). fold s in Hnn. lia.
  - apply Hfits. intros e x He Hx Hks. apply (Hf0 e x He Hx Hks).
  - intros k2 Hk2. destruct (Hamount k2 Hk2) as [H1 H2]. eapply wp_eq; [by apply getSize_spec|]. done.
Qed.

(** ** The theorems *)


(** C27: removing a child keeps the hierarchy consistent: [remove] returns, takes
    the child out of the list and out of the sibling chain, changes no other
    pointer, subtracts its size from all ancestors, and re-establishes the
    invariant. *)
Theorem remove_keeps_tree h mu d xc xd l pre post :
  tree_ok h -> removable h (chunk mu) d xc xd l pre post ->
  exists h', ChunkMutator.remove mu d h = Ok (tt, h') /\ tree_ok h' /\
    spliced (splice_out (chunk mu) pre d post) (chunks h) (chunks h').
Proof.
  intros Hok Hr.
  destruct (proj1 (wp_Ok _ _ _) (remove_removed h mu d xc xd l pre post Hok Hr)) as ([]&h'&E&?&?). eauto.
Qed.

(** ** A small program *)
Module MutatorExamples.
Definition instruction (s : ptr) : Chunk :=
  mkChunk TInstruction None None None POSITION_OLD None None 0 ChunkList.empty (Some s) "".
(** A function at 4096 in a function list, two blocks, five instructions. *)
Definition program (m : Mode) : Heap := mkHeap
  (list_to_map [(5, mkChunk TFunctionList None None None POSITION_OLD None None 0 (mkChunkList [10] None None) None "");
    (10, mkChunk TFunction (Some 5) None None POSITION_OLD (Some 100) None 0 ChunkList.empty None "f");
    (20, ChunkMutator.empty_chunk TBlock ""); (21, ChunkMutator.empty_chunk TBlock "");
    (30, instruction 40); (31, instruction 41); (32, instruction 42); (33, instruction 43); (34, instruction 44)])
  (list_to_map [(100, mkPosition (AbsolutePosition 4096)
    (if PositionFactory.needsGenerationTracking m then TrackedPositionDecorator 0 else Undecorated))])
  (list_to_map [(40, mkSemantic 4 None None); (41, mkSemantic 5 None None); (42, mkSemantic 6 (Some (Some 32)) None);
    (43, mkSemantic 7 None (Some (Some 33))); (44, mkSemantic 1 None None)]) m None [] 1000.
Definition build : M unit :=
  ChunkMutator.temporary (mkMutator 10 true) (fun m => ChunkMutator.append m 20;; ChunkMutator.append m 21);;
  ChunkMutator.temporary (mkMutator 20 true) (fun m => ChunkMutator.append m 30;; ChunkMutator.append m 31);;
  ChunkMutator.temporary (mkMutator 21 true) (fun m => ChunkMutator.append m 32;; ChunkMutator.append m 33).
Definition run {A} (k : M A) (h : Heap) : res A := match k h with Ok (a, _) => Ok a | Err e => Err e end.
Fixpoint addresses (l : list ptr) : M (list Z) :=
  match l with [] => mret [] | c :: l => a ← getAddress c; r ← addresses l; mret (a :: r) end.
Definition children_of (c : ptr) : M (list ptr) := l ← children_at c; mret (iterable l).

(** All six position modes give the same addresses. *)
Example modes_agree :
  map (fun m => run (build;; addresses [10; 20; 21; 30; 31; 32; 33]) (program m))
    [MODE_OFFSET; MODE_CACHED_OFFSET; MODE_SUBSEQUENT; MODE_CACHED_SUBSEQUENT;
     MODE_GENERATION_OFFSET; MODE_GENERATION_SUBSEQUENT]
  = repeat (Ok [4096; 4096; 4105; 4096; 4100; 4105; 4111]) 6.
Proof. vm_compute. reflexivity. Qed.

(** Splitting a block moves its tail to a new block and changes no address. *)
Example split_block :
  run (build;; ChunkMutator.temporary (mkMutator 10 true) (fun m => ChunkMutator.splitBlockBefore m 31);;
    a ← children_of 10; b ← children_of 20; c ← children_of 1006; x ← addresses [20; 1006; 21; 30; 31; 32; 33];
    mret (a, b, c, x)) (program MODE_OFFSET)
  = Ok ([20; 1006; 21], [30], [31], [4096; 4100; 4105; 4096; 4100; 4105; 4111]).
Proof. vm_compute. reflexivity. Qed.

(** Inserting before a jump target swaps the semantics, so that jumps reach the
    new instruction. *)
Example insert_before_jump :
  run (build;; ChunkMutator.temporary (mkMutator 21 true) (fun m => ChunkMutator.insertBeforeJumpTo m (Some 33) 34);;
    l ← children_of 21; x ← chunk_at 33; y ← chunk_at 34; s ← semantic_at 43;
    mret (l, semantic x, semantic y, sem_source s)) (program MODE_OFFSET)
  = Ok ([32; 33; 34], Some 44, Some 43, Some (Some 34)).
Proof. vm_compute. reflexivity. Qed.

(** A block of two instructions in a function, and a detached instruction. *)
Definition code (ty : ChunkType) (par prv nxt pos : option ptr) (sz : Z) (ks : list ptr) (sem : option ptr) : Chunk :=
  mkChunk ty par prv nxt POSITION_OLD pos None sz (mkChunkList ks None None) sem "".
Definition small : Heap := mkHeap
  (list_to_map [(5, code TFunctionList None None None None 0 [10] None);
    (10, code TFunction (Some 5) None None (Some 100) 9 [20] None);
    (20, code TBlock (Some 10) None None (Some 101) 9 [30; 31] None);
    (30, code TInstruction (Some 20) None (Some 31) (Some 102) 0 [] (Some 40));
    (31, code TInstruction (Some 20) (Some 30) None (Some 103) 0 [] (Some 41));
    (34, code TInstruction None None None None 0 [] (Some 44))])
  (list_to_map [(100, mkPosition (AbsolutePosition 4096) Undecorated);
    (101, mkPosition (OffsetPosition (Some 20) 0) Undecorated);
    (102, mkPosition (OffsetPosition (Some 30) 0) Undecorated);
    (103, mkPosition (OffsetPosition (Some 31) 0) Undecorated)])
  (list_to_map [(40, mkSemantic 4 None None); (41, mkSemantic 5 None None); (44, mkSemantic 1 None None)])
  MODE_OFFSET None [] 1000.

(** Case analysis on the objects of a concrete heap. *)
Ltac objects H :=
  apply elem_of_list_to_map_2 in H;
  repeat (apply elem_of_cons in H as [H|H]; [injection H as -> ->|]); try (by apply elem_of_nil in H).
Lemma small_linked : linked (chunks small).
Proof.
  split; intros c x H; objects H; cbn;
    try (repeat (split; [eexists; split; [reflexivity|done]|]); done);
    apply (bool_decide_unpack (NoDup _)); vm_compute; done.
Qed.
Lemma small_typed : typed (chunks small).
Proof. intros c x d y H Hd Hy. objects H; members Hd; vm_compute in Hy; injection Hy as <-; done. Qed.
Lemma small_unique : pos_unique (chunks small).
Proof.
  intros e x e' x' p H H' Hp Hp'. objects H; cbn in Hp; simplify_eq; objects H'; cbn in Hp'; simplify_eq; done.
Qed.
Lemma small_ok : tree_ok small.
Proof.
  split; [done|apply small_linked|apply small_typed| | |apply small_unique|].
  - intros e x H Hk. objects H; cbn in Hk; try done; vm_compute; done.
  - intros e x H p Hp. objects H; cbn in Hp; simplify_eq; (eexists; split; [reflexivity|done]).
  - intros p [z H]. objects H; cbn; lia.
Qed.
Lemma small_path : path (chunks small) 20 [20; 10; 5].
Proof.
  eapply path_step; [reflexivity|done|done|reflexivity|].
  eapply path_step; [reflexivity|done|done|reflexivity|]. by eapply path_top.
Qed.
Lemma small_attached : attached (chunks small) [20; 10; 5].
Proof.
  intros e x q y He Hx Hq Hy Hk. members He; vm_compute in Hx; injection Hx as <-; cbn in Hq; simplify_eq;
    vm_compute in Hy; injection Hy as <-; cbn in Hk; try done; set_solver.
Qed.
Lemma small_fits s : 0 <= s < 100 -> fits small [20; 10; 5] s.
Proof. intros Hs e x He Hx Hk. members He; vm_compute in Hx; injection Hx as <-; cbn in *; try done; lia. Qed.
Lemma small_addr : addr (chunks small) (positions small) 20 4096 [101; 100] /\
  addr (chunks small) (positions small) 30 4096 [102; 101; 100] /\
  addr (chunks small) (positions small) 31 4096 [103; 101; 100].
Proof.
  assert (addr (chunks small) (positions small) 10 4096 [100]) as H10 by (by eapply addr_fixed).
  assert (addr (chunks small) (positions small) 20 4096 [101; 100]) as H20
    by (eapply (addr_offset _ _ 20 _ 101 0 10 4096); done).
  split_and!; [done|..].
  - by eapply (addr_offset _ _ 30 _ 102 0 20 4096).
  - by eapply (addr_offset _ _ 31 _ 103 0 20 4096).
Qed.

Definition x20 : Chunk := code TBlock (Some 10) None None (Some 101) 9 [30; 31] None.
Definition x34 : Chunk := code TInstruction None None None None 0 [] (Some 44).
Definition x30 : Chunk := code TInstruction (Some 20) None (Some 31) (Some 102) 0 [] (Some 40).

Lemma small_addable : addable small 20 34 x20 x34 [20; 10; 5].
Proof.
  split; try done; [..|apply small_path|apply small_attached| | | |].
  - intros e y H. objects H; cbn; set_solver.
  - split; [set_solver|done].
  - split; [|vm_compute; done]. exists x34. split; [done|]. intros _. by eexists _, _.
  - apply (small_fits 1). lia.
  - intros _. destruct small_addr as (H20&H30&H31). split; [eauto|]. intros q Hq. members Hq; eauto.
Qed.
Lemma small_removable : removable small 20 30 x20 x30 [20; 10; 5] [] [31].
Proof.
  split; try done; [apply small_path|apply small_attached| | |apply (small_fits 0); lia].
  - split; [|vm_compute; done]. exists x30. split; [done|]. intros _. by eexists _, _.
  - intros e. unfold size_of. destruct (chunks small !! e) as [x|] eqn:H; [|done].
    objects H; vm_compute; done.
Qed.

Lemma remove_keeps_tree_witness :
  exists h', ChunkMutator.remove (mkMutator 20 true) 30 small = Ok (tt, h') /\ tree_ok h' /\
    spliced (splice_out 20 [] 30 [31]) (chunks small) (chunks h').
Proof.
  apply (remove_keeps_tree small (mkMutator 20 true) 30 x20 x30 [20; 10; 5] [] [31] small_ok small_removable).
Defined.

(** inserting after a null insert point corrupts the layout.  The chunk
    becomes the first of the list, as the interface says, but the old first
    child keeps no link to it, so that after the update of positions both start
    at the same address. *)
Theorem insertAfter_null_overlaps :
  run (build;; ChunkMutator.temporary (mkMutator 20 true) (fun m => ChunkMutator.insertAfter m None 34);;
    l ← children_of 20; q ← getPreviousSibling 30; n ← getNextSibling 34; x ← addresses [34; 30; 31];
    mret (l, q, n, x)) (program MODE_OFFSET)
  = Ok ([34; 30; 31], None, None, [4096; 4096; 4100]).
Proof. vm_compute. reflexivity. Qed.

(** splitting a function deletes the positions of the moved blocks twice: the
    operation ends in undefined behaviour in every position mode. *)
Theorem splitFunction_deletes_twice :
  map (fun m => run (build;; ChunkMutator.splitFunctionBefore 21) (program m))
    [MODE_OFFSET; MODE_CACHED_OFFSET; MODE_SUBSEQUENT; MODE_CACHED_SUBSEQUENT;
     MODE_GENERATION_OFFSET; MODE_GENERATION_SUBSEQUENT] = repeat (Err Undefined) 6.
Proof. vm_compute. reflexivity. Qed.
End MutatorExamples.
