(* ===== verification/Layout.v ===== *)
(** * The layout computed by the mutator's position updates

    [ChunkMutator::updatePositions] walks down from a chunk with a fixed address
    and recomputes the offset of every chunk below it.  This file shows that the
    result is a layout without gaps: the offset of a child is the sum of the
    sizes of the children before it, at every level. *)

From S2P Require Import Prelude ChunkList GSTable Chunk Mutator MutatorProofs.
Import ChunkImpl.

(** ** Descendants *)

Inductive below (m : gmap ptr Chunk) (c : ptr) : ptr -> Prop :=
| below_kid x e : m !! c = Some x -> e ∈ kids x -> below m c e
| below_step x e e' : below m c e -> m !! e = Some x -> e' ∈ kids x -> below m c e'.

Definition rank (t : ChunkType) : nat :=
  match t with TModule => 4 | TFunctionList => 3 | TFunction => 2 | TBlock => 1 | TInstruction => 0 end.
Definition rank_of (m : gmap ptr Chunk) (e : ptr) : nat :=
  match m !! e with Some x => rank (ctype x) | None => 0 end.

Section descendants.
Context (m : gmap ptr Chunk) (Hl : linked m) (Ht : typed m).

Lemma kid_lookup c x e : m !! c = Some x -> e ∈ kids x -> exists y, m !! e = Some y /\ parent y = Some c /\
  child_type_ok (ctype x) (ctype y) = true.
Proof.
  intros Hx He. destruct (seg_parent _ _ _ _ _ e (l_seg _ Hl c x Hx) He) as (y&Hy&Hp).
  exists y. split_and!; [done|done|by eapply Ht].
Qed.
Lemma child_rank t t' : child_type_ok t t' = true -> t <> TModule -> (rank t' < rank t)%nat /\ t' <> TModule.
Proof. destruct t, t'; cbn; try done; intros; split; lia || done. Qed.

(** Descendants have a lower rank. *)
Lemma below_rank c x e :
  m !! c = Some x -> ctype x <> TModule -> below m c e ->
  exists y, m !! e = Some y /\ (rank (ctype y) < rank (ctype x))%nat /\ ctype y <> TModule.
Proof.
  intros Hx Hm. induction 1 as [x' e Hx' He|x' e e' Hb IH Hx' He].
  - rewrite Hx in Hx'. injection Hx' as <-. destruct (kid_lookup c x e Hx He) as (y&Hy&_&Hty).
    exists y. split; [done|]. by apply child_rank.
  - destruct IH as (y&Hy&Hr&Hm'). rewrite Hy in Hx'. injection Hx' as <-.
    destruct (kid_lookup e y e' Hy He) as (z&Hz&_&Hty). exists z. split; [done|].
    destruct (child_rank _ _ Hty Hm'). split; [lia|done].
Qed.
Lemma not_below_self c x : m !! c = Some x -> ctype x <> TModule -> ~ below m c c.
Proof. intros Hx Hm Hb. destruct (below_rank c x c Hx Hm Hb) as (y&Hy&Hr&_). rewrite Hx in Hy. simplify_eq. lia. Qed.

Lemma below_kids c x e e' : m !! c = Some x -> e ∈ kids x -> below m e e' -> below m c e'.
Proof.
  intros Hx He. induction 1 as [y e' Hy He'|y e' e'' Hb IH Hy He''].
  - eapply below_step; [by eapply below_kid|done|done].
  - by eapply below_step.
Qed.

(** The parent of a descendant is the root or a descendant. *)
Lemma below_parent c e z y :
  below m c e -> m !! z = Some y -> e ∈ kids y -> z = c \/ below m c z.
Proof.
  intros Hb Hy He. destruct Hb as [x e Hx He'|x e' e Hb Hx He'].
  - left. by eapply linked_unique.
  - right. assert (z = e') as ->; [|done]. by eapply linked_unique.
Qed.

(** Children of a function or block have the same rank, so that none is below another. *)
Lemma siblings_apart c x e e' :
  m !! c = Some x -> keeps_size (ctype x) = true -> e ∈ kids x -> e' ∈ kids x -> ~ below m e e'.
Proof.
  intros Hx Hk He He' Hb. destruct (kid_lookup c x e Hx He) as (y&Hy&_&Hty).
  destruct (kid_lookup c x e' Hx He') as (y'&Hy'&_&Hty').
  destruct (below_rank e y e' Hy) as (z&Hz&Hr&_); [|done|].
  - intros E. rewrite E in Hty. by destruct (ctype x).
  - rewrite Hy' in Hz. injection Hz as <-. destruct (ctype x), (ctype y), (ctype y'); cbn in *; try done; lia.
Qed.

(** The subtrees of two children are disjoint. *)
Lemma subtrees_apart c x e e' z :
  m !! c = Some x -> keeps_size (ctype x) = true -> e ∈ kids x -> e' ∈ kids x -> e <> e' ->
  below m e z -> (z = e' \/ below m e' z) -> False.
Proof.
  intros Hx Hk He He' Hne Hb. induction Hb as [y z Hy Hz|y w z Hb IH Hy Hz]; intros Hz'.
  - destruct Hz' as [->|Hz']; [eapply (siblings_apart c x e e'); eauto using below_kid|].
    destruct (below_parent e' z e y Hz' Hy Hz) as [?|?]; [done|by eapply (siblings_apart c x e' e)].
  - destruct Hz' as [->|Hz'].
    + eapply (siblings_apart c x e e'); [done..|]. by eapply below_step.
    + apply IH. by eapply below_parent.
Qed.
End descendants.

(** ** Layouts *)

(** The position of [e] is an offset of its own from its parent. *)
Definition own_offset (m : gmap ptr Chunk) (ps : gmap ptr Position) (e : ptr) (o : Z) : Prop :=
  exists y p, m !! e = Some y /\ positionIndex y = POSITION_OLD /\ position_of y = Some p /\
    ps !! p = Some (mkPosition (OffsetPosition (Some e) o) Undecorated).
(** So it is for every child of a function or block. *)
Definition shaped (m : gmap ptr Chunk) (ps : gmap ptr Position) : Prop :=
  forall c x e, m !! c = Some x -> keeps_size (ctype x) = true -> e ∈ kids x -> exists o, own_offset m ps e o.

(** The children of [c] follow each other without gaps; and so do the children of
    every function or block below. *)
Definition laid_at (m : gmap ptr Chunk) (sz : ptr -> Z) (ps : gmap ptr Position) (c : ptr) : Prop :=
  forall x i e, m !! c = Some x -> keeps_size (ctype x) = true -> kids x !! i = Some e ->
    own_offset m ps e (u64 (total sz (take i (kids x)))).
Definition laid (m : gmap ptr Chunk) (sz : ptr -> Z) (ps : gmap ptr Position) (c : ptr) : Prop :=
  forall e, e = c \/ below m c e -> laid_at m sz ps e.

(** Positions of chunks that are not below [c] are unchanged. *)
Definition same_out (m : gmap ptr Chunk) (c : ptr) (ps ps' : gmap ptr Position) : Prop :=
  forall e y q, m !! e = Some y -> position_of y = Some q -> ~ below m c e -> ps' !! q = ps !! q.

Lemma own_offset_addr m ps e o c y a la :
  own_offset m ps e o -> m !! e = Some y -> parent y = Some c -> addr m ps c a la ->
  exists p, position_of y = Some p /\ addr m ps e (add64 a o) (p :: la).
Proof.
  intros (y'&p&Hy'&Hi&Hp&Hps) Hy Hpar Ha. rewrite Hy in Hy'. injection Hy' as <-. exists p. split; [done|].
  by apply (addr_offset _ _ e y p o c a la).
Qed.

Lemma add_sub64 a o s : add64 (sub64 (add64 a (u64 o)) a) s = u64 (o + s).
Proof.
  unfold add64, sub64, wrap. rewrite Z.add_mod_idemp_l by lia.
  rewrite <- (Z.add_mod_idemp_l (_ - a)) by lia.
  rewrite Zminus_mod_idemp_l. rewrite <- (Zminus_mod_idemp_l (a + o mod 2 ^ 64)), Z.add_mod_idemp_r, Zminus_mod_idemp_l by lia.
  rewrite Z.add_mod_idemp_l by lia. f_equal. lia.
Qed.

(** Recalculating the position of a child whose predecessor is in place. *)
Lemma wp_recalculate_child h c x pre e y p post a la o (Q : unit -> Heap -> Prop) :
  linked (chunks h) -> chunks h !! c = Some x -> kids x = pre ++ e :: post ->
  addr (chunks h) (positions h) c a la -> own_offset (chunks h) (positions h) e o ->
  chunks h !! e = Some y -> position_of y = Some p ->
  (forall pre' s, pre = pre' ++ [s] -> has_size h s /\
     own_offset (chunks h) (positions h) s (u64 (total (size_of h) pre'))) ->
  Q tt (with_positions h (<[p := mkPosition (OffsetPosition (Some e) (u64 (total (size_of h) pre))) Undecorated]> (positions h))) ->
  wp (Position.recalculate p) Q h.
Proof.
  intros Hl Hx Hk Ha (y'&p'&Hy'&Hi&Hp'&Hps) Hy Hp Hprev HQ. rewrite Hy in Hy'. injection Hy' as <-.
  rewrite Hp in Hp'. injection Hp' as <-.
  pose proof (l_seg _ Hl c x Hx) as Hseg. rewrite Hk in Hseg.
  apply seg_app in Hseg as [Hseg1 [(y'&Hy'&Hpar&Hpr&_) _]]. rewrite Hy in Hy'. injection Hy' as <-.
  rewrite last_or_None in Hpr.
  assert (forall v, v = u64 (total (size_of h) pre) -> wp (Position.setOffset p v) (fun _ h1 =>
    wp (x ← position_at p; match deco x with
        | CachedPositionDecorator _ | GenerationalPositionDecorator _ _ _ =>
          v ← Position.base_get (Position.get_fuel (S (size (positions h)))) p; Position.set_cache p v
        | _ => mret tt end) Q h1) h) as Hset.
  { intros v ->. unfold Position.setOffset. mstep. mstep; [done|]. cbn [pbase deco]. mstep. mstep. mstep.
    { cbn. apply lookup_insert_eq. } exact HQ. }
  unfold Position.recalculate, Position.with_fuel. apply (wp_heap (fun h => Position.recalculate_with
    (Position.get_fuel (S (size (positions h)))) p)).
  unfold Position.recalculate_with. mstep. unfold Position.base_recalculate. mstep. mstep; [done|]. cbn [pbase].
  mstep. mstep. mstep. mstep; [done|]. rewrite Hpar. mstep. mstep; [done|]. rewrite Hpr.
  destruct pre as [|s pre' _] using rev_ind; [cbn [last]; by apply Hset|].
  rewrite last_snoc. destruct (Hprev pre' s eq_refl) as [Hsz Hos].
  apply seg_app in Hseg1 as [_ [(ys&Hys&Hpars&_) _]].
  destruct (own_offset_addr _ _ _ _ _ _ _ _ Hos Hys Hpars Ha) as (ps&_&Has).
  assert (forall c' a' l', addr (chunks h) (positions h) c' a' l' ->
    Position.address (Position.get_fuel (S (size (positions h)))) c' h = Ok (a', h)) as Haddr.
  { intros c' a' l' H. eapply addr_eval; [done|]. destruct (addr_nodup _ _ _ _ _ H) as [Hnd Hf].
    pose proof (nodup_size _ _ Hnd Hf). lia. }
  mstep. eapply wp_eq; [by eapply Haddr|]. mstep. eapply wp_eq; [by eapply Haddr|].
  mstep. eapply wp_eq; [by apply getSize_spec|]. apply Hset.
  rewrite add_sub64, total_app. cbn. f_equal. lia.
Qed.

(** ** The recursive update *)

Section update.
Context (h : Heap).
Abbreviation m := (chunks h).
Abbreviation sz := (size_of h).
Context (Hl : linked m) (Ht : typed m) (Hu : pos_unique m).
Context (Hsz : forall c x e, m !! c = Some x -> keeps_size (ctype x) = true -> e ∈ kids x -> has_size h e).

Lemma below_inv c x e : m !! c = Some x -> below m c e -> exists k, k ∈ kids x /\ (e = k \/ below m k e).
Proof.
  intros Hx. induction 1 as [y e Hy He|y e e' Hb (k&Hk&IH) Hy He'].
  - rewrite Hx in Hy. injection Hy as <-. eauto.
  - exists k. split; [done|]. right. destruct IH as [->|IH]; [by eapply below_kid|by eapply below_step].
Qed.

(** Positions of chunks other than [e] and those below it are unchanged. *)
Definition same_but (e : ptr) (ps ps' : gmap ptr Position) : Prop :=
  forall e0 y q, m !! e0 = Some y -> position_of y = Some q -> e0 <> e -> ~ below m e e0 -> ps' !! q = ps !! q.

Lemma own_offset_but e ps ps' k o :
  same_but e ps ps' -> k <> e -> ~ below m e k -> own_offset m ps k o -> own_offset m ps' k o.
Proof.
  intros Hs Hne Hnb (y&p&Hy&Hi&Hp&Hps). exists y, p. split_and!; [done..|]. by rewrite (Hs k y p).
Qed.

(** The positions an address depends on belong to chunks that are not below [c]. *)
Definition chain_out (c : ptr) (la : list ptr) : Prop :=
  forall p, p ∈ la -> exists e y, m !! e = Some y /\ position_of y = Some p /\ ~ below m c e.

Lemma addr_but c x e ps ps' a la :
  m !! c = Some x -> e ∈ kids x -> chain_out c la -> same_but e ps ps' -> addr m ps c a la -> addr m ps' c a la.
Proof.
  intros Hx He Hc Hs. apply addr_frame.
  - intros e0 y Hy _. by exists y.
  - intros p Hp. destruct (Hc p Hp) as (e0&y&Hy&Hpy&Hnb). apply (Hs e0 y p Hy Hpy).
    + intros ->. apply Hnb. by eapply below_kid.
    + intros Hb. apply Hnb. by eapply below_kids.
Qed.

Lemma laid_but c x e e' ps ps' :
  m !! c = Some x -> keeps_size (ctype x) = true -> e ∈ kids x -> e' ∈ kids x -> e' <> e ->
  same_but e ps ps' -> laid m sz ps e' -> laid m sz ps' e'.
Proof.
  intros Hx Hk He He' Hne Hs Hlaid z Hz y i k Hy Hky Hki.
  assert (below m e' k) as Hbk.
  { apply list_elem_of_lookup_2 in Hki. destruct Hz as [->|Hz]; [by eapply below_kid|by eapply below_step]. }
  eapply (own_offset_but e); [exact Hs| | |by eapply Hlaid].
  - intros ->. by eapply (siblings_apart m Hl Ht c x e' e).
  - intros Hb. eapply (subtrees_apart m Hl Ht c x e e' k); eauto.
Qed.

(** Only the offsets of offset positions change. *)
Definition only_offsets (ps ps' : gmap ptr Position) : Prop :=
  forall p, ps' !! p = ps !! p \/ exists e o o',
    ps !! p = Some (mkPosition (OffsetPosition (Some e) o) Undecorated) /\
    ps' !! p = Some (mkPosition (OffsetPosition (Some e) o') Undecorated).
Lemma only_offsets_refl ps : only_offsets ps ps.
Proof. intros p. by left. Qed.
Lemma only_offsets_trans ps1 ps2 ps3 : only_offsets ps1 ps2 -> only_offsets ps2 ps3 -> only_offsets ps1 ps3.
Proof.
  intros H1 H2 p. destruct (H1 p) as [E1|(e&o&o'&E1&E1')], (H2 p) as [E2|(e2&o2&o2'&E2&E2')].
  - left. congruence.
  - right. exists e2, o2, o2'. by rewrite <- E1.
  - right. exists e, o, o'. by rewrite E2.
  - right. exists e, o, o2'. rewrite E1' in E2. by simplify_eq.
Qed.
Lemma shaped_only_offsets ps ps' : only_offsets ps ps' -> shaped m ps -> shaped m ps'.
Proof.
  intros Ho Hs c x e Hx Hk He. destruct (Hs c x e Hx Hk He) as (o&y&p&Hy&Hi&Hp&Hps).
  destruct (Ho p) as [E|(e'&o1&o2&E&E')].
  - exists o, y, p. split_and!; [done..|]. congruence.
  - rewrite Hps in E. simplify_eq. by exists o2, y, p.
Qed.

(** What an update of the chunks below [c] leaves. *)
Definition updated (c : ptr) (ps : gmap ptr Position) (h' : Heap) : Prop :=
  exists ps', h' = with_positions h ps' /\ only_offsets ps ps' /\ same_out m c ps ps' /\ laid m sz ps' c.

Definition loop_spec (n : nat) : Prop :=
  forall c x ps a la, m !! c = Some x -> keeps_size (ctype x) = true -> (rank (ctype x) <= n)%nat ->
    addr m ps c a la -> chain_out c la -> shaped m ps ->
    wp (ChunkMutator.for_each (kids x) (ChunkMutator.updatePositionHelper_fuel n))
      (fun _ => updated c ps) (with_positions h ps).

(** One child: its own position, then the chunks below it. *)
Lemma child_ok n c x ps a la pre e post :
  loop_spec n -> m !! c = Some x -> keeps_size (ctype x) = true -> (rank (ctype x) <= S n)%nat ->
  addr m ps c a la -> chain_out c la -> shaped m ps -> kids x = pre ++ e :: post ->
  (forall pre' s, pre = pre' ++ [s] -> own_offset m ps s (u64 (total sz pre'))) ->
  wp (ChunkMutator.updatePositionHelper_fuel (S n) e) (fun _ h' => exists ps', h' = with_positions h ps' /\
    only_offsets ps ps' /\ same_but e ps ps' /\ own_offset m ps' e (u64 (total sz pre)) /\ laid m sz ps' e)
    (with_positions h ps).
Proof.
  intros IH Hx Hk Hr Ha Hc Hsh Hkids Hprev.
  assert (e ∈ kids x) as He by (rewrite Hkids; set_solver).
  destruct (kid_lookup m Hl Ht c x e Hx He) as (y&Hy&Hpar&Hty).
  destruct (Hsh c x e Hx Hk He) as (o&Ho). pose proof Ho as (y'&p&Hy'&Hi&Hp&Hps). rewrite Hy in Hy'. injection Hy' as <-.
  assert (ctype y <> TModule) as Hym by (intros E; rewrite E in Hty; by destruct (ctype x)).
  cbn [ChunkMutator.updatePositionHelper_fuel]. mstep. mstep; [exact Hy|]. rewrite Hp. mstep.
  eapply (wp_recalculate_child (with_positions h ps) c x pre e y p post a la o); [done..| |].
  { intros pre' s ->. split; [|by apply Hprev]. apply (Hsz c x); [done|done|]. rewrite Hkids. set_solver. }
  cbn. set (ps1 := <[p := _]> ps).
  assert (same_but e ps ps1) as Hb1.
  { intros e0 y0 q Hy0 Hq Hne _. unfold ps1. rewrite lookup_insert_ne; [done|]. intros <-. apply Hne. by eapply Hu. }
  assert (own_offset m ps1 e (u64 (total sz pre))) as Ho1.
  { exists y, p. split_and!; [done..|]. apply lookup_insert_eq. }
  assert (only_offsets ps ps1) as Hoo.
  { intros q. unfold ps1. destruct (decide (q = p)) as [->|]; [|left; by rewrite lookup_insert_ne].
    right. rewrite lookup_insert_eq, Hps. by eexists _, _, _. }
  unfold getChildren. mstep. mstep. mstep; [exact Hy|]. mstep.
  destruct (has_children (ctype y)) eqn:Hch.
  - assert (keeps_size (ctype y) = true) as Hky by (by destruct (ctype x), (ctype y)).
    destruct (own_offset_addr _ _ _ _ _ _ _ _ Ho1 Hy Hpar (addr_but c x e _ _ _ _ Hx He Hc Hb1 Ha)) as (p'&Hp'&Hae).
    rewrite Hp in Hp'. injection Hp' as <-.
    eapply wp_mono; [|eapply (IH e y ps1 _ (p :: la) Hy Hky); [|exact Hae| |by eapply shaped_only_offsets]].
    + intros _ h' (ps2&->&Hoo2&Hs2&Hlaid). exists ps2.
      assert (same_but e ps ps2) as Hb2.
      { intros e0 y0 q Hy0 Hq Hne Hnb. rewrite (Hs2 e0 y0 q Hy0 Hq Hnb). by eapply Hb1. }
      split_and!; [done|by eapply only_offsets_trans|done| |done].
      destruct Ho1 as (y1&p1&Hy1&Hi1&Hp1&Hps1). exists y1, p1. split_and!; [done..|].
      rewrite (Hs2 e y1 p1 Hy1 Hp1); [done|]. exact (not_below_self m Hl Ht e y Hy Hym).
    + destruct (child_rank _ _ Hty); [by destruct (ctype x)|lia].
    + intros q [->|Hq]%elem_of_cons; [exists e, y; split_and!; [done..|exact (not_below_self m Hl Ht e y Hy Hym)]|].
      destruct (Hc q Hq) as (e0&y0&Hy0&Hq0&Hnb). exists e0, y0. split_and!; [done..|].
      intros Hb. apply Hnb. by eapply below_kids.
  - apply wp_ret. exists ps1. split_and!; [done..|].
    assert (forall k, k ∈ kids y -> False) as Hnok.
    { intros k Hkk. destruct (kid_lookup m Hl Ht e y k Hy Hkk) as (w&_&_&Hw). by destruct (ctype y). }
    intros z [->|Hz].
    + intros w i k Hw _ Hki. rewrite Hy in Hw. injection Hw as <-.
      apply list_elem_of_lookup_2 in Hki. by destruct (Hnok k).
    + destruct (below_inv e y z Hy Hz) as (k&Hkk&_). by destruct (Hnok k).
Qed.

(** The children that remain, when those of [pre] are in place. *)
Lemma rest_ok n c x a la :
  loop_spec n -> m !! c = Some x -> keeps_size (ctype x) = true -> (rank (ctype x) <= S n)%nat -> chain_out c la ->
  forall post pre ps, kids x = pre ++ post -> addr m ps c a la -> shaped m ps ->
  (forall i e, pre !! i = Some e -> own_offset m ps e (u64 (total sz (take i pre)))) ->
  (forall e, e ∈ pre -> laid m sz ps e) ->
  wp (ChunkMutator.for_each post (ChunkMutator.updatePositionHelper_fuel (S n)))
    (fun _ => updated c ps) (with_positions h ps).
Proof.
  intros IH Hx Hk Hr Hc. induction post as [|e post IHpost]; intros pre ps Hkids Ha Hsh Hoff Hlaid;
    cbn [ChunkMutator.for_each].
  - apply wp_ret. exists ps. split_and!; [done|apply only_offsets_refl|done|].
    rewrite app_nil_r in Hkids. intros z [->|Hz].
    + intros y i e Hy _ Hi. rewrite Hx in Hy. injection Hy as <-. rewrite Hkids in *. by apply Hoff.
    + destruct (below_inv c x z Hx Hz) as (k&Hkk&Hz'). rewrite Hkids in Hkk. by apply (Hlaid k).
  - mstep. assert (e ∈ kids x) as He by (rewrite Hkids; set_solver).
    assert (e ∉ pre) as Hepre.
    { pose proof (l_nodup _ Hl c x Hx) as Hnd. rewrite Hkids in Hnd. apply NoDup_app in Hnd as (_&Hd&_).
      intros Hin. apply (Hd e Hin). left. }
    assert (forall e', e' ∈ pre -> e' ∈ kids x) as Hsub by (intros; rewrite Hkids; set_solver).
    eapply wp_mono; [|eapply (child_ok n c x ps a la pre e post); try done].
    + intros _ h' (ps1&->&Hoo&Hb&Hoe&Hle).
      assert (shaped m ps1) as Hsh1 by (by eapply shaped_only_offsets).
      eapply wp_mono; [|apply (IHpost (pre ++ [e]) ps1); [by rewrite <- app_assoc|by eapply addr_but|done|..]].
      * intros _ h2 (ps2&->&Hoo2&Hs2&Hl2). exists ps2. split_and!; [done|by eapply only_offsets_trans| |done].
        intros e0 y q Hy Hq Hnb. rewrite (Hs2 e0 y q Hy Hq Hnb). apply (Hb e0 y q Hy Hq).
        -- intros ->. apply Hnb. by eapply below_kid.
        -- intros Hb'. apply Hnb. by eapply below_kids.
      * intros i k Hi. apply lookup_app_Some in Hi as [Hi|[Hge Hi]].
        -- rewrite take_app_le by (apply lookup_lt_Some in Hi; lia). apply list_elem_of_lookup_2 in Hi as Hin.
           eapply (own_offset_but e); [done|set_solver| |by apply Hoff].
           eapply (siblings_apart m Hl Ht c x); [done|done|done|by apply Hsub].
        -- apply list_lookup_singleton_Some in Hi as [Hi <-].
           replace i with (length pre) by lia. by rewrite take_app_length.
      * intros k [Hin| ->%list_elem_of_singleton]%elem_of_app; [|done].
        eapply (laid_but c x e k); [done|done|done|by apply Hsub|set_solver|done|by apply Hlaid].
    + intros pre' s ->. specialize (Hoff (length pre') s). rewrite lookup_app_r, Nat.sub_diag in Hoff by lia.
      rewrite take_app_length in Hoff. by apply Hoff.
Qed.

Lemma loop_ok n : loop_spec n.
Proof.
  induction n as [|n IH]; intros c x ps a la Hx Hk Hr Ha Hc Hsh.
  - by destruct (ctype x); cbn in *; try lia.
  - apply (rest_ok n c x a la IH Hx Hk Hr Hc (kids x) [] ps); [done..| |].
    + intros i e Hi. by rewrite lookup_nil in Hi.
    + intros e He. by apply elem_of_nil in He.
Qed.
End update.

(** ** [updatePositions] *)

(** A chunk and its ancestors. *)
Inductive up (m : gmap ptr Chunk) : ptr -> list ptr -> Prop :=
| up_top c x : m !! c = Some x -> parent x = None -> up m c [c]
| up_step c x q l : m !! c = Some x -> parent x = Some q -> up m q l -> up m c (c :: l).

Lemma up_det m c l l' : up m c l -> up m c l' -> l = l'.
Proof.
  intros H. revert l'. induction H as [c x Hx Hp|c x q l Hx Hp Hl IH];
    intros l' H'; destruct H' as [? x' Hx' Hp'|? x' q' l' Hx' Hp' Hl']; rewrite Hx in Hx'; simplify_eq; [done|].
  by rewrite (IH l' Hl').
Qed.
Lemma up_suffix m c l e : up m c l -> e ∈ l -> exists x l', m !! e = Some x /\ up m e l' /\ (length l' <= length l)%nat.
Proof.
  induction 1 as [c x Hx Hp|c x q l Hx Hp Hl IH]; intros He.
  - apply list_elem_of_singleton in He as ->. exists x, [c]. split_and!; [done|by eapply up_top|done].
  - apply elem_of_cons in He as [->|He]; [exists x, (c :: l); split_and!; [done|by eapply up_step|done]|].
    destruct (IH He) as (y&l'&?&?&?). exists y, l'. split_and!; [done|done|cbn; lia].
Qed.
Lemma up_size m c l : up m c l -> (length l <= size m)%nat.
Proof.
  intros H. apply nodup_size.
  - induction H as [c x Hx Hp|c x q l Hx Hp Hl IH]; [apply NoDup_singleton|]. apply NoDup_cons. split; [|done].
    intros Hin. destruct (up_suffix _ _ _ _ Hl Hin) as (y&l'&_&Hl'&Hle).
    rewrite (up_det _ _ _ _ Hl' (up_step _ _ _ _ _ Hx Hp Hl)) in Hle. cbn in Hle. lia.
  - apply Forall_forall. intros e He. destruct (up_suffix _ _ _ _ H He) as (y&_&->&_). eauto.
Qed.

(** The chunk has no position, or one that is not absolute. *)
Definition not_absolute (m : gmap ptr Chunk) (ps : gmap ptr Position) (e : ptr) : Prop :=
  exists y, m !! e = Some y /\ forall p, position_of y = Some p ->
    exists z, ps !! p = Some z /\ match pbase z with AbsolutePosition _ => False | _ => True end.

Lemma wp_same_positions {A} (k : M A) Q h : wp k Q (with_positions h (positions h)) <-> wp k Q h.
Proof. by destruct h. Qed.

Section passes.
Context (h : Heap).
Abbreviation body := (fun c => p ← getPosition c; abs ← Position.isAbsolute p;
  (if abs : bool then ChunkMutator.updatePositionHelper c else mret tt);; mret true).

Lemma pass_skip ps c (Q : bool -> Heap -> Prop) :
  not_absolute (chunks h) ps c -> Q true (with_positions h ps) -> wp (body c) Q (with_positions h ps).
Proof.
  intros (y&Hy&Hna) HQ. mstep. mstep; [exact Hy|]. mstep. unfold Position.isAbsolute.
  destruct (position_of y) as [p|]; [|apply wp_ret; mstep; apply wp_ret, wp_ret, HQ].
  destruct (Hna p eq_refl) as (z&Hz&Hbase). mstep. mstep; [exact Hz|].
  destruct (pbase z); try done; mstep; mstep; apply wp_ret, wp_ret, HQ.
Qed.

(** Ancestors without an absolute position are passed by. *)
Lemma passes_skip c l fuel ps :
  up (chunks h) c l -> (length l <= fuel)%nat -> (forall e, e ∈ l -> not_absolute (chunks h) ps e) ->
  wp (ChunkMutator.ancestors_fuel fuel (Some c) body) (fun _ h' => h' = with_positions h ps) (with_positions h ps).
Proof.
  intros Hup. revert fuel. induction Hup as [c x Hx Hp|c x q l Hx Hp Hl IH]; intros fuel Hf Hna;
    (destruct fuel as [|fuel]; [cbn in Hf; lia|]); cbn [ChunkMutator.ancestors_fuel]; mstep;
    (apply pass_skip; [apply Hna; left|]); mstep; mstep; try exact Hx; rewrite Hp.
  - by destruct fuel.
  - apply IH; [cbn in Hf; lia|]. intros e He. apply Hna. by right.
Qed.

(** The pass over the one ancestor with an absolute position. *)
Lemma passes_at f (P : Heap -> Prop) c l1 l2 fuel ps :
  up (chunks h) c (l1 ++ f :: l2) -> (length (l1 ++ f :: l2) <= fuel)%nat ->
  (forall e, e ∈ l1 -> not_absolute (chunks h) ps e) ->
  wp (body f) (fun b h' => b = true /\ P h' /\ exists ps', h' = with_positions h ps' /\
    forall e, e ∈ l2 -> not_absolute (chunks h) ps' e) (with_positions h ps) ->
  wp (ChunkMutator.ancestors_fuel fuel (Some c) body) (fun _ h' => P h') (with_positions h ps).
Proof.
  intros Hup. remember (l1 ++ f :: l2) as l eqn:El. revert l1 El fuel.
  induction Hup as [c x Hx Hp|c x q l Hx Hp Hl IH]; intros l1 El fuel Hf Hna Hbody;
    (destruct fuel as [|fuel]; [cbn in Hf; lia|]); cbn [ChunkMutator.ancestors_fuel].
  - destruct l1 as [|c' l1]; [|destruct l1; simplify_eq]. simplify_eq/=. mstep.
    eapply wp_mono; [|exact Hbody]. intros b h' (->&HP&ps'&->&_). mstep. mstep; [exact Hx|]. rewrite Hp. by destruct fuel.
  - destruct l1 as [|c' l1]; simplify_eq/=.
    + mstep. eapply wp_mono; [|exact Hbody]. intros b h' (->&HP&ps'&->&Hna2). mstep. mstep; [exact Hx|]. rewrite Hp.
      eapply wp_mono; [|apply (passes_skip q l2 fuel ps' Hl); [lia|done]]. by intros _ h' ->.
    + mstep. apply pass_skip; [apply Hna; left|]. mstep. mstep; [exact Hx|]. rewrite Hp.
      apply (IH l1 eq_refl); [lia| |done]. intros e He. apply Hna. by right.
Qed.
End passes.

(** The children of [c] start where the previous ones end: the address of the
    i-th is the address of [c] plus the sizes of the first i. *)
Definition contiguous (h : Heap) (c : ptr) : Prop :=
  forall x i e, chunks h !! c = Some x -> keeps_size (ctype x) = true -> kids x !! i = Some e ->
    exists b, getAddress c h = Ok (b, h) /\
      getAddress e h = Ok (add64 b (total (size_of h) (take i (kids x))), h).

(** A hierarchy whose positions can be updated. *)
Record updatable (h : Heap) : Prop := {
  u_mode : mode h = MODE_OFFSET;
  u_linked : linked (chunks h);
  u_typed : typed (chunks h);
  u_unique : pos_unique (chunks h);
  u_shaped : shaped (chunks h) (positions h);
  u_sizes : forall c x e, chunks h !! c = Some x -> keeps_size (ctype x) = true -> e ∈ kids x -> has_size h e }.

(** A function at an absolute address. *)
Record function_at (h : Heap) (f : ptr) (x : Chunk) (a : Z) : Prop := {
  f_chunk : chunks h !! f = Some x;
  f_type : ctype x = TFunction;
  f_index : positionIndex x = POSITION_OLD;
  f_position : exists p, position_of x = Some p /\
    positions h !! p = Some (mkPosition (AbsolutePosition a) Undecorated) }.

Section theorem.
Context (h : Heap) (Hu : updatable h) (f : ptr) (x : Chunk) (a : Z) (Hf : function_at h f x a).

Lemma function_not_below : ~ below (chunks h) f f.
Proof.
  apply (not_below_self _ (u_linked _ Hu) (u_typed _ Hu) f x (f_chunk _ _ _ _ Hf)).
  by rewrite (f_type _ _ _ _ Hf).
Qed.

Lemma function_addr : exists p, position_of x = Some p /\ addr (chunks h) (positions h) f a [p] /\ chain_out h f [p].
Proof.
  destruct Hf as [Hx Ht Hi (p&Hp&Hz)]. exists p. split_and!; [done|by eapply addr_fixed|].
  intros q ->%list_elem_of_singleton. exists f, x. split_and!; [done..|apply function_not_below].
Qed.

(** The recursive update of the function. *)
Lemma helper_ok : wp (ChunkMutator.updatePositionHelper f) (fun _ => updated h f (positions h)) h.
Proof.
  destruct function_addr as (p&Hp&Ha&Hc). destruct Hf as [Hx Hty Hi (p'&Hp'&Hz)].
  rewrite Hp in Hp'. injection Hp' as <-.
  apply (wp_heap (fun h => ChunkMutator.updatePositionHelper_fuel (S (size (chunks h))) f)).
  cbn [ChunkMutator.updatePositionHelper_fuel]. mstep. mstep; [done|]. rewrite Hp. mstep.
  unfold Position.recalculate, Position.with_fuel. apply (wp_heap (fun h => Position.recalculate_with (Position.get_fuel (S (size (positions h)))) p)).
  unfold Position.recalculate_with. mstep. unfold Position.base_recalculate. mstep. mstep; [done|]. cbn [pbase].
  apply wp_ret. mstep. mstep; [done|]. cbn [deco]. apply wp_ret.
  unfold getChildren. mstep. mstep. mstep; [done|]. mstep. rewrite Hty. cbn [has_children]. fold (kids x).
  assert (keeps_size (ctype x) = true) as Hk by (by rewrite Hty).
  destruct (kids x) as [|b bs] eqn:Ek.
  - apply wp_ret. exists (positions h). split_and!; [by destruct h|apply only_offsets_refl|done|].
    intros z [->|Hz'].
    + intros y i e Hy _ He. rewrite Hx in Hy. injection Hy as <-. by rewrite Ek in He.
    + destruct (below_inv h f x z Hx Hz') as (k&Hkk&_). rewrite Ek in Hkk. by apply elem_of_nil in Hkk.
  - assert (2 <= size (chunks h))%nat as Hsz.
    { apply (nodup_size (chunks h) [f; b]).
      - apply NoDup_cons. split; [|apply NoDup_singleton]. intros <-%list_elem_of_singleton.
        apply function_not_below. eapply below_kid; [done|]. rewrite Ek. left.
      - destruct (kid_lookup _ (u_linked _ Hu) (u_typed _ Hu) f x b Hx) as (y&Hy&_); [rewrite Ek; left|].
        repeat constructor; eauto. }
    assert (wp (ChunkMutator.for_each (kids x) (ChunkMutator.updatePositionHelper_fuel (size (chunks h))))
      (fun _ => updated h f (positions h)) (with_positions h (positions h))) as Hloop.
    { eapply (loop_ok h (u_linked _ Hu) (u_typed _ Hu) (u_unique _ Hu) (u_sizes _ Hu)); try done; [|apply Hu].
      rewrite Hty. cbn. lia. }
    rewrite Ek in Hloop. by destruct h.
Qed.

(** Every chunk of the function has an address afterwards. *)
Lemma addresses ps' c :
  laid (chunks h) (size_of h) ps' f -> same_out (chunks h) f (positions h) ps' ->
  c = f \/ below (chunks h) f c -> exists b l, addr (chunks h) ps' c b l.
Proof.
  intros Hlaid Hs. destruct function_addr as (p&Hp&Ha&Hc).
  assert (addr (chunks h) ps' f a [p]) as Ha'.
  { eapply addr_frame; [intros e0 y0 Hy0 _; by exists y0| |exact Ha]. intros q ->%list_elem_of_singleton.
    eapply Hs; [apply Hf|done|apply function_not_below]. }
  assert (forall z y i e, chunks h !! z = Some y -> (z = f \/ below (chunks h) f z) -> kids y !! i = Some e ->
    (exists b l, addr (chunks h) ps' z b l) -> exists b l, addr (chunks h) ps' e b l) as Hstep.
  { intros z y i e Hy Hz Hi (b&l&Hb). assert (e ∈ kids y) as He by (by eapply list_elem_of_lookup_2).
    destruct (kid_lookup _ (u_linked _ Hu) (u_typed _ Hu) z y e Hy He) as (w&Hw&Hpar&Hty).
    assert (keeps_size (ctype y) = true) as Hky.
    { pose proof (f_type _ _ _ _ Hf) as Hft. destruct Hz as [->|Hz].
      - pose proof (f_chunk _ _ _ _ Hf) as Hx. rewrite Hx in Hy. injection Hy as <-. by rewrite Hft.
      - destruct (below_rank _ (u_linked _ Hu) (u_typed _ Hu) f x z (f_chunk _ _ _ _ Hf)) as (y'&Hy'&Hr&_);
          [by rewrite Hft|done|]. rewrite Hy in Hy'. injection Hy' as <-. rewrite Hft in Hr.
        destruct (ctype y); cbn in *; try done; lia. }
    destruct (own_offset_addr _ _ _ _ _ _ _ _ (Hlaid z Hz y i e Hy Hky Hi) Hw Hpar Hb) as (q&_&Hq). eauto. }
  intros [->|Hb]; [eauto|]. induction Hb as [y e Hy He|y e e' Hb IH Hy He'].
  - apply list_elem_of_lookup_1 in He as [i Hi]. eapply (Hstep f); eauto.
  - apply list_elem_of_lookup_1 in He' as [i Hi]. eapply (Hstep e); eauto.
Qed.

Lemma laid_contiguous ps' c :
  laid (chunks h) (size_of h) ps' f -> same_out (chunks h) f (positions h) ps' ->
  c = f \/ below (chunks h) f c -> contiguous (with_positions h ps') c.
Proof.
  intros Hlaid Hs Hc y i e Hy Hk Hi. cbn in Hy.
  destruct (addresses ps' c Hlaid Hs Hc) as (b&l&Hb). exists b. split; [by apply (addr_getAddress (with_positions h ps') c b l)|].
  assert (e ∈ kids y) as He by (by eapply list_elem_of_lookup_2).
  destruct (kid_lookup _ (u_linked _ Hu) (u_typed _ Hu) c y e Hy He) as (w&Hw&Hpar&_).
  destruct (own_offset_addr _ _ _ _ _ _ _ _ (Hlaid c Hc y i e Hy Hk Hi) Hw Hpar Hb) as (q&_&Hq).
  pose proof (addr_getAddress (with_positions h ps') e _ _ Hq) as E. rewrite E. do 2 f_equal.
  unfold add64, wrap. by rewrite Z.add_mod_idemp_r by lia.
Qed.
End theorem.

Lemma updatePositions_updated h mu f x a l1 l2 :
  updatable h -> function_at h f x a -> allowUpdates mu = true ->
  up (chunks h) (chunk mu) (l1 ++ f :: l2) ->
  (forall e, e ∈ l1 ++ l2 -> not_absolute (chunks h) (positions h) e) ->
  wp (ChunkMutator.updatePositions mu) (fun _ => updated h f (positions h)) h.
Proof.
  intros Hu Hf Hall Hup Hna.
  unfold ChunkMutator.updatePositions. rewrite Hall. mstep. mstep. rewrite (u_mode _ Hu). cbn [PositionFactory.needsUpdatePasses].
  unfold ChunkMutator.ancestors. pose proof (up_size _ _ _ Hup) as Hsz.
  apply (wp_heap (fun h => ChunkMutator.ancestors_fuel (S (size (chunks h))) (Some (chunk mu)) (fun c =>
    p ← getPosition c; abs ← Position.isAbsolute p;
    (if abs : bool then ChunkMutator.updatePositionHelper c else mret tt);; mret true))).
  apply wp_same_positions.
  apply (passes_at h f (updated h f (positions h)) (chunk mu) l1 l2 _ (positions h) Hup); [lia|intros; apply Hna; set_solver|].
  apply wp_same_positions. destruct (f_position _ _ _ _ Hf) as (p&Hp&Hz).
  mstep. mstep; [apply Hf|]. rewrite Hp. mstep. unfold Position.isAbsolute. mstep. mstep; [exact Hz|]. cbn [pbase].
  mstep. mstep. eapply wp_mono; [|apply (helper_ok h Hu f x a Hf)]. intros u h' Hup'. mstep.
  split_and!; [done|done|]. destruct Hup' as (ps'&->&Hoo&Hs&_). exists ps'. split; [done|].
  intros e He. destruct (Hna e) as (y&Hy&Hya); [set_solver|]. exists y. split; [done|]. intros q Hq.
  destruct (Hya q Hq) as (z&Hzq&Hzb). destruct (Hoo q) as [E|(e'&o&o'&_&E)]; rewrite E; [eauto|by eexists].
Qed.

(** C2: updating positions lays code out without gaps.  In the default mode, when
    the destructor of a mutator runs and exactly one chunk on the way up, the
    function [f], has an absolute address, the update returns, changes nothing
    but offsets of chunks below [f], and afterwards the function keeps its
    address and the children of the function and of each of its blocks start at
    the address of their parent plus the sizes of the children before them. *)
Theorem updatePositions_contiguous h mu f x a l1 l2 :
  updatable h -> function_at h f x a -> allowUpdates mu = true ->
  up (chunks h) (chunk mu) (l1 ++ f :: l2) ->
  (forall e, e ∈ l1 ++ l2 -> not_absolute (chunks h) (positions h) e) ->
  exists ps', ChunkMutator.updatePositions mu h = Ok (tt, with_positions h ps') /\
    same_out (chunks h) f (positions h) ps' /\
    getAddress f (with_positions h ps') = Ok (a, with_positions h ps') /\
    forall c, c = f \/ below (chunks h) f c -> contiguous (with_positions h ps') c.
Proof.
  intros Hu Hf Hall Hup Hna. pose proof (updatePositions_updated h mu f x a l1 l2 Hu Hf Hall Hup Hna) as Hw.
  apply wp_Ok in Hw as (b&h'&Hrun&ps'&->&_&Hs&Hlaid). destruct b. exists ps'. split_and!; [done|done| |].
  - destruct (function_addr h Hu f x a Hf) as (p&Hp&Ha&_). apply (addr_getAddress (with_positions h ps') f a [p]).
    eapply addr_frame; [intros e0 y0 Hy0 _; by exists y0| |exact Ha]. intros q ->%list_elem_of_singleton.
    eapply Hs; [apply Hf|done|by eapply function_not_below].
  - intros c Hc. by eapply (laid_contiguous h Hu f x a Hf).
Qed.

Import MutatorExamples.

Lemma small_shaped : shaped (chunks small) (positions small).
Proof.
  intros c x e H Hk He. objects H; cbn in Hk; try done; members He; eexists _, _, _; by split_and!.
Qed.
Lemma small_updatable : updatable small.
Proof.
  split; [done|apply small_linked|apply small_typed|apply small_unique|apply small_shaped|].
  intros c x e H Hk He. objects H; cbn in Hk; try done; members He;
    (eexists; split; [reflexivity|]; intros E; vm_compute in E; try done; by eexists _, _).
Qed.

Lemma updatePositions_contiguous_witness :
  exists ps', ChunkMutator.updatePositions (mkMutator 20 true) small = Ok (tt, with_positions small ps') /\
    getAddress 31 (with_positions small ps') = Ok (4100, with_positions small ps').
Proof.
  destruct (updatePositions_contiguous small (mkMutator 20 true) 10
    (code TFunction (Some 5) None None (Some 100) 9 [20] None) 4096 [20] [5]) as (ps'&Hrun&_&H10&Hc).
  - apply small_updatable.
  - split; try done. by exists 100.
  - done.
  - eapply up_step; [reflexivity|reflexivity|]. eapply up_step; [reflexivity|reflexivity|]. by eapply up_top.
  - intros e He. members He; (eexists; split; [reflexivity|]; intros p Hp; cbn in Hp; simplify_eq; by eexists).
  - exists ps'. split; [exact Hrun|].
    destruct (Hc 20 ltac:(right; eapply below_kid; [reflexivity|left]) x20 1%nat 31) as (b&Hb&H31); [done..|].
    destruct (Hc 10 ltac:(by left) (code TFunction (Some 5) None None (Some 100) 9 [20] None) 0%nat 20) as (b'&Hb'&H20); [done..|].
    rewrite H10 in Hb'. injection Hb' as <-. rewrite H20 in Hb. injection Hb as <-. rewrite H31. done.
Defined.
