(* ===== verification/Sandbox.v ===== *)
(** * Sandboxes: src/transform/sandbox.h, sandbox.cpp, slot.h, and the assignment of
      addresses to functions in src/transform/generator.cpp

    New code is placed in a sandbox: a backing (a range of memory or a buffer) and
    an allocator that hands out slots of it.  [Generator] allocates a slot for
    each function.  What an allocator promises is the class [SandboxLaws]; the
    generator is verified against it. *)

From S2P Require Import Prelude Range ChunkList GSTable Chunk Mutator MutatorProofs.
Import ChunkImpl.

Definition bad_alloc : fault := Throw "std::bad_alloc".

(** ** Backings *)

Definition PROT_READ : Z := 1.
Definition PROT_WRITE : Z := 2.
Definition PROT_EXEC : Z := 4.

Record MemoryBacking := mkMemory { mbase : Z; msize : Z; mprot : Z; memory : list Z }.
Record MemoryBufferBacking := mkBuffer { bbase : Z; bsize : Z; bbuffer : list Z }.

(** What the allocators and [SandboxImpl] use of a backing. *)
Class SandboxBacking (B : Type) := {
  getBase : B -> Z;
  getSize : B -> Z;
  supportsDirectWrites : B -> bool;
  finalize : B -> B;
  reopen : B -> bool * B;
  recreate : B -> res B
}.

Module MemoryBacking.
(** The constructor; [mmap] is the address the kernel picks, or -1. *)
Definition new (mmap : Z -> Z -> Z) (address size : Z) : res MemoryBacking :=
  let base := u64 (mmap address size) in
  if base =? u64 (-1) then Err bad_alloc
  else if negb (base =? address) then Err (Throw "Sandbox: Overlapping with other regions?")
  else Ok (mkMemory base size (Z.lor PROT_READ PROT_WRITE) (replicate (Z.to_nat size) 0)).
Definition finalize (b : MemoryBacking) : MemoryBacking :=
  mkMemory (mbase b) (msize b) (Z.lor PROT_READ PROT_EXEC) (memory b).
Definition reopen (b : MemoryBacking) : bool * MemoryBacking :=
  (true, mkMemory (mbase b) (msize b) (Z.lor PROT_READ PROT_WRITE) (memory b)).
(** [memset] of memory that is not writable is a fault. *)
Definition recreate (b : MemoryBacking) : res MemoryBacking :=
  if Z.land (mprot b) PROT_WRITE =? 0 then Err Undefined
  else Ok (mkMemory (mbase b) (msize b) (mprot b) (replicate (Z.to_nat (msize b)) 0)).
End MemoryBacking.

Module MemoryBufferBacking.
Definition new (address size : Z) : MemoryBufferBacking := mkBuffer address size [].
Definition recreate (b : MemoryBufferBacking) : res MemoryBufferBacking :=
  Ok (mkBuffer (bbase b) (bsize b) []).
End MemoryBufferBacking.

#[export] Instance memory_backing : SandboxBacking MemoryBacking := {|
  getBase := mbase; getSize := msize; supportsDirectWrites _ := true;
  finalize := MemoryBacking.finalize; reopen := MemoryBacking.reopen; recreate := MemoryBacking.recreate |}.
#[export] Instance buffer_backing : SandboxBacking MemoryBufferBacking := {|
  getBase := bbase; getSize := bsize; supportsDirectWrites _ := false;
  finalize b := b; reopen b := (true, b); recreate := MemoryBufferBacking.recreate |}.

(** ** Allocators *)

(** An allocator of type [A] over a backing of type [B], which it points to. *)
Class SandboxAllocator (A B : Type) := {
  new_allocator : B -> A;
  allocate_in : B -> A -> Z -> res (Slot * A);
  getCurrent : A -> Z;
  reset : A -> A
}.

Record WatermarkAllocator := mkWatermark { wbase : Z; watermark : Z }.
Record AlignedWatermarkAllocator := mkAligned { abase : Z; awatermark : Z; alignment : Z }.

Section allocators.
Context {B : Type} `{SandboxBacking B}.

Definition watermark_allocate (b : B) (a : WatermarkAllocator) (request : Z)
  : res (Slot * WatermarkAllocator) :=
  let max := add64 (getBase b) (getSize b) in
  if max <? add64 (watermark a) request then Err bad_alloc
  else Ok (mkSlot (watermark a) request, mkWatermark (wbase a) (add64 (watermark a) request)).

Definition aligned_allocate (b : B) (a : AlignedWatermarkAllocator) (request : Z)
  : res (Slot * AlignedWatermarkAllocator) :=
  let request := Z.land (u64 (request + alignment a - 1)) (u64 (Z.lnot (u64 (alignment a - 1)))) in
  let max := add64 (getBase b) (getSize b) in
  if max <? add64 (awatermark a) request then Err bad_alloc
  else Ok (mkSlot (awatermark a) request,
           mkAligned (abase a) (add64 (awatermark a) request) (alignment a)).
End allocators.

#[export] Instance watermark_allocator {B} `{SandboxBacking B} : SandboxAllocator WatermarkAllocator B := {|
  new_allocator b := mkWatermark (getBase b) (getBase b);
  allocate_in := watermark_allocate;
  getCurrent := watermark;
  reset a := mkWatermark (wbase a) (wbase a) |}.
(** The default alignment on x86-64. *)
#[export] Instance aligned_allocator {B} `{SandboxBacking B} : SandboxAllocator AlignedWatermarkAllocator B := {|
  new_allocator b := mkAligned (getBase b) (getBase b) 2;
  allocate_in := aligned_allocate;
  getCurrent := awatermark;
  reset a := mkAligned (abase a) (abase a) (alignment a) |}.

(** ** Sandboxes *)

Class SandboxOps (S : Type) := { allocate : S -> Z -> res (Slot * S) }.

Record SandboxImpl (B A : Type) := mkSandbox { backing : B; alloc : A }.
Arguments mkSandbox {B A}.
Arguments backing {B A}.
Arguments alloc {B A}.

Module SandboxImpl.
Section impl.
Context {B A : Type} `{SandboxBacking B} `{SandboxAllocator A B}.

Definition new (b : B) : SandboxImpl B A := mkSandbox b (new_allocator b).
Definition allocate (s : SandboxImpl B A) (request : Z) : res (Slot * SandboxImpl B A) :=
  '(slot, a) ← allocate_in (backing s) (alloc s) request; Ok (slot, mkSandbox (backing s) a).
Definition finalize (s : SandboxImpl B A) : SandboxImpl B A := mkSandbox (finalize (backing s)) (alloc s).
Definition reopen (s : SandboxImpl B A) : bool * SandboxImpl B A :=
  let '(r, b) := reopen (backing s) in (r, mkSandbox b (alloc s)).
End impl.
(** [recreate] is defined for memory backings only. *)
Definition recreate {A} `{SandboxAllocator A MemoryBacking} (s : SandboxImpl MemoryBacking A)
  : res (SandboxImpl MemoryBacking A) :=
  b ← recreate (backing s); Ok (mkSandbox b (reset (B := MemoryBacking) (alloc s))).
End SandboxImpl.

#[export] Instance sandbox_ops {B A} `{SandboxBacking B} `{SandboxAllocator A B} : SandboxOps (SandboxImpl B A) :=
  {| allocate := SandboxImpl.allocate |}.

(** Two sandboxes, of which one is in use. *)
Record DualSandbox (S : Type) := mkDual { sandbox0 : S; sandbox1 : S; dual_i : Z }.
Arguments mkDual {S}.
Arguments sandbox0 {S}.
Arguments sandbox1 {S}.
Arguments dual_i {S}.

Module DualSandbox.
Section dual.
Context {S : Type}.
Definition new (one other : S) : DualSandbox S := mkDual one other 0.
Definition flip (d : DualSandbox S) : DualSandbox S := mkDual (sandbox0 d) (sandbox1 d) (Z.lxor (dual_i d) 1).
(** [sandbox[i]->op] *)
Definition current (d : DualSandbox S) : S := if dual_i d =? 0 then sandbox0 d else sandbox1 d.
Definition with_current (d : DualSandbox S) (s : S) : DualSandbox S :=
  if dual_i d =? 0 then mkDual s (sandbox1 d) (dual_i d) else mkDual (sandbox0 d) s (dual_i d).
Definition allocate `{SandboxOps S} (d : DualSandbox S) (request : Z) : res (Slot * DualSandbox S) :=
  '(slot, s) ← allocate (current d) request; Ok (slot, with_current d s).
End dual.
Section dual_impl.
Context {B A : Type} `{SandboxBacking B} `{SandboxAllocator A B}.
Definition finalize (d : DualSandbox (SandboxImpl B A)) : DualSandbox (SandboxImpl B A) :=
  with_current d (SandboxImpl.finalize (current d)).
Definition reopen (d : DualSandbox (SandboxImpl B A)) : bool * DualSandbox (SandboxImpl B A) :=
  let '(r, s) := SandboxImpl.reopen (current d) in (r, with_current d s).
End dual_impl.
Definition recreate {A} `{SandboxAllocator A MemoryBacking} (d : DualSandbox (SandboxImpl MemoryBacking A))
  : res (DualSandbox (SandboxImpl MemoryBacking A)) :=
  s ← SandboxImpl.recreate (current d); Ok (with_current d s).
End DualSandbox.
#[export] Instance dual_ops {S} `{SandboxOps S} : SandboxOps (DualSandbox S) := {| allocate := DualSandbox.allocate |}.

(** ** Assigning addresses to functions *)
Module Generator.

(** [GeneratorHelper::assignAddress] *)
Definition assignAddress (c : ptr) (slot : Slot) : M unit :=
  v ← getAssignedPosition c;
  match v with
  | Some p => Position.set_slot p slot
  | None =>
    p ← new_position (mkPosition (SlotPosition slot) Undecorated);
    setAssignedPosition c (Some p)
  end.

Section generator.
Context {S : Type} `{SandboxOps S}.

Definition assignAddressForFunction (sandbox : S) (function : ptr) : M S :=
  size ← ChunkImpl.getSize function;
  '(slot, sandbox) ← lift (allocate sandbox size);
  assignAddress function slot;;
  mret sandbox.
(** The loop of [assignAddresses] over the functions. *)
Fixpoint assign_functions (sandbox : S) (order : list ptr) : M S :=
  match order with
  | [] => mret sandbox
  | f :: order => sandbox ← assignAddressForFunction sandbox f; assign_functions sandbox order
  end.
(** Used when functions are shuffled at run time. *)
Definition pickFunctionAddressInSandbox (sandbox : S) (function : ptr) : M S :=
  size ← ChunkImpl.getSize function;
  '(slot, sandbox) ← lift (allocate sandbox size);
  PositionManager.setAddress function (slot_address slot);;
  mret sandbox.
End generator.
End Generator.

(** ** What an allocator promises *)

(** Slots are handed out one after the other, below a limit. *)
Class SandboxLaws (S : Type) `{SandboxOps S} := {
  sb_valid : S -> Prop;
  sb_current : S -> Z;
  sb_limit : S -> Z;
  sb_round : S -> Z -> Z;         (* the size given for a request *)
  round_ge : forall s n, sb_valid s -> 0 <= n -> n <= sb_round s n;
  valid_range : forall s, sb_valid s -> 0 <= sb_current s <= sb_limit s /\ sb_limit s < 2 ^ 64;
  allocate_fits : forall s n, sb_valid s -> 0 <= n -> sb_current s + sb_round s n <= sb_limit s ->
    exists s', allocate s n = Ok (mkSlot (sb_current s) (sb_round s n), s') /\ sb_valid s' /\
      sb_current s' = sb_current s + sb_round s n /\ sb_limit s' = sb_limit s /\
      (forall m, sb_round s' m = sb_round s m);
  allocate_full : forall s n, sb_valid s -> 0 <= n -> sb_limit s < sb_current s + sb_round s n ->
    sb_current s + sb_round s n < 2 ^ 64 -> allocate s n = Err bad_alloc
}.

(** *** The plain allocator *)
Section watermark.
Context {B : Type} `{SandboxBacking B}.

Definition watermark_valid (s : SandboxImpl B WatermarkAllocator) : Prop :=
  0 <= getBase (backing s) <= watermark (alloc s) /\ 0 <= getSize (backing s) /\
  watermark (alloc s) <= getBase (backing s) + getSize (backing s) < 2 ^ 64.

#[export] Program Instance watermark_laws : SandboxLaws (SandboxImpl B WatermarkAllocator) := {|
  sb_valid := watermark_valid;
  sb_current s := watermark (alloc s);
  sb_limit s := getBase (backing s) + getSize (backing s);
  sb_round s n := n
|}.
Next Obligation. done. Qed.
Next Obligation. unfold watermark_valid. cbn. intros. lia. Qed.
Next Obligation.
  intros [b a] n (Hb & Hs & Hw) Hn Hfit. cbn in *.
  eexists. unfold SandboxImpl.allocate. cbn. unfold watermark_allocate.
  rewrite !add64_small by lia. rewrite (proj2 (Z.ltb_ge _ _)) by lia.
  split; [done|]. unfold watermark_valid. cbn. split_and!; auto; lia.
Qed.
Next Obligation.
  intros [b a] n (Hb & Hs & Hw) Hn Hfull Hno. cbn in *.
  unfold SandboxImpl.allocate. cbn. unfold watermark_allocate.
  rewrite !add64_small by lia. by rewrite (proj2 (Z.ltb_lt _ _)) by lia.
Qed.
End watermark.

(** *** The aligned allocator *)

(** Masking rounds up to a multiple of a power of two. *)
Definition round_up (a n : Z) : Z := (n + a - 1) / a * a.

Lemma round_up_spec a n : 0 < a -> 0 <= n -> n <= round_up a n < n + a /\ (a | round_up a n).
Proof.
  intros Ha Hn. unfold round_up. pose proof (Z.div_mod (n + a - 1) a).
  pose proof (Z.mod_pos_bound (n + a - 1) a). split; [nia|]. by apply Z.divide_factor_r.
Qed.

Lemma align_mask k n : 0 <= k < 64 -> 0 <= n -> n + 2 ^ k <= 2 ^ 64 ->
  Z.land (u64 (n + 2 ^ k - 1)) (u64 (Z.lnot (u64 (2 ^ k - 1)))) = round_up (2 ^ k) n.
Proof.
  intros Hk Hn Hb. assert (0 < 2 ^ k) by lia.
  rewrite (wrap_small 64 (n + 2 ^ k - 1)), (wrap_small 64 (2 ^ k - 1)) by lia.
  assert (2 ^ k - 1 = Z.ones k) as E by (by rewrite Z.ones_equiv, Z.sub_1_r).
  unfold round_up. apply Z.bits_inj'. intros i Hi.
  rewrite Z.land_spec, Z.mul_pow2_bits, E by lia. unfold wrap.
  destruct (Z.lt_ge_cases i k).
  { rewrite Z.mod_pow2_bits_low, Z.lnot_spec, Z.ones_spec_low by lia.
    rewrite (Z.testbit_neg_r _ (i - k)) by lia. apply andb_false_r. }
  rewrite Z.div_pow2_bits, Z.sub_add by lia. destruct (Z.lt_ge_cases i 64).
  - rewrite Z.mod_pow2_bits_low, Z.lnot_spec, Z.ones_spec_high by lia. by rewrite andb_true_r.
  - by rewrite (testbit_high 64) by lia.
Qed.

Section aligned.
Context {B : Type} `{SandboxBacking B}.

(** The alignment is a power of two, and leaves room above the limit. *)
Definition aligned_valid (s : SandboxImpl B AlignedWatermarkAllocator) : Prop :=
  (exists k, 0 <= k < 64 /\ alignment (alloc s) = 2 ^ k) /\
  0 <= getBase (backing s) <= awatermark (alloc s) /\ 0 <= getSize (backing s) /\
  awatermark (alloc s) <= getBase (backing s) + getSize (backing s) /\
  getBase (backing s) + getSize (backing s) + alignment (alloc s) <= 2 ^ 64.

#[export] Program Instance aligned_laws : SandboxLaws (SandboxImpl B AlignedWatermarkAllocator) := {|
  sb_valid := aligned_valid;
  sb_current s := awatermark (alloc s);
  sb_limit s := getBase (backing s) + getSize (backing s);
  sb_round s n := round_up (alignment (alloc s)) n
|}.
Next Obligation.
  intros s n ((k & Hk & ->) & _) Hn. apply round_up_spec; lia.
Qed.
Next Obligation. intros s ((k & Hk & E) & ?). cbn. rewrite E in *. lia. Qed.
Next Obligation.
  intros [b a] n (Hk & Hb & Hs & Hw & Hr) Hn Hfit. cbn in *. pose proof Hk as (k & Hk' & E).
  pose proof (round_up_spec (alignment a) n) as Hu. rewrite E in Hu, Hfit, Hr.
  eexists. unfold SandboxImpl.allocate. cbn. unfold aligned_allocate. rewrite E, align_mask by lia.
  rewrite !add64_small by lia. rewrite (proj2 (Z.ltb_ge _ _)) by lia.
  split; [done|]. unfold aligned_valid. cbn. rewrite ?E. split_and!; eauto; lia.
Qed.
Next Obligation.
  intros [b a] n (Hk & Hb & Hs & Hw & Hr) Hn Hfull Hno. cbn in *. pose proof Hk as (k & Hk' & E).
  pose proof (round_up_spec (alignment a) n) as Hu. rewrite E in Hu, Hfull, Hno, Hr.
  unfold SandboxImpl.allocate. cbn. unfold aligned_allocate. rewrite E.
  destruct (Z.le_gt_cases (n + 2 ^ k) (2 ^ 64)).
  - rewrite align_mask by lia. rewrite !add64_small by lia. by rewrite (proj2 (Z.ltb_lt _ _)) by lia.
  - exfalso. destruct Hu as [Hu [m Hm]]; [lia..|].
    assert (2 ^ 64 = 2 ^ (64 - k) * 2 ^ k) as E64 by (rewrite <- Z.pow_add_r by lia; f_equal; lia).
    assert (m < 2 ^ (64 - k)) by (apply (Z.mul_lt_mono_pos_r (2 ^ k)); lia).
    assert ((m + 1) * 2 ^ k <= 2 ^ (64 - k) * 2 ^ k) by (apply Z.mul_le_mono_nonneg_r; lia). lia.
Qed.
End aligned.

(** ** Functions in a sandbox *)

Section assign.
Context {S : Type} `{SandboxLaws S}.

Definition slot_position (slot : Slot) : Position := mkPosition (SlotPosition slot) Undecorated.

(** Functions whose assigned positions, if any, are slots of their own. *)
Record ready (h : Heap) (l : list ptr) : Prop := {
  r_fun : forall f, f ∈ l -> exists x, chunks h !! f = Some x /\ ctype x = TFunction /\
    positionIndex x = POSITION_OLD /\
    forall p, slotPosition x = Some p -> exists s, positions h !! p = Some (slot_position s);
  r_own : forall f g x y p, f ∈ l -> g ∈ l -> chunks h !! f = Some x -> chunks h !! g = Some y ->
    slotPosition x = Some p -> slotPosition y = Some p -> f = g;
  r_fresh : forall p, fresh h <= p -> positions h !! p = None
}.
Definition placed (h : Heap) (f : ptr) (slot : Slot) : Prop :=
  exists x p, chunks h !! f = Some x /\ ctype x = TFunction /\ positionIndex x = POSITION_OLD /\
    slotPosition x = Some p /\ positions h !! p = Some (slot_position slot).
(** The size field of a function. *)
Definition size_at (h : Heap) (f : ptr) : Z := match chunks h !! f with Some x => csize x | None => 0 end.

Lemma placed_address h f slot : placed h f slot -> getAddress f h = Ok (slot_address slot, h).
Proof.
  intros (x & p & Hx & Ht & Hi & Hp & Hz). eapply addr_getAddress, addr_fixed; [done|done| |done|done].
  unfold position_of. by rewrite Ht, Hp.
Qed.

(** The heap after a slot was assigned to the function [f]. *)
Definition assigned (h : Heap) (f : ptr) (x : Chunk) (p : ptr) (slot : Slot) (fr : ptr) : Heap :=
  mkHeap (<[f := with_slotPosition x (Some p)]> (chunks h)) (<[p := slot_position slot]> (positions h))
    (semantics h) (mode h) (gsTable h) (addrTable h) fr.

Lemma assignAddress_spec h l f slot : ready h l -> f ∈ l -> exists x p fr,
  Generator.assignAddress f slot h = Ok (tt, assigned h f x p slot fr) /\
  chunks h !! f = Some x /\
  (slotPosition x = Some p /\ fr = fresh h \/ slotPosition x = None /\ p = fresh h /\ fr = fresh h + 1).
Proof.
  intros [Hf Ho Hfr] Hin. destruct (Hf f Hin) as (x & Hx & Ht & Hi & Hp).
  destruct (slotPosition x) as [p|] eqn:E.
  - destruct (Hp p eq_refl) as [s Hs]. exists x, p, (fresh h). split_and!; [|done|by left].
    unfold Generator.assignAddress, getAssignedPosition, chunk_at, Position.set_slot, position_at, put_position,
      mbind, M_bind, mret, M_ret.
    rewrite Hx, Ht, E, Hs. cbn [pbase slot_position deco]. unfold assigned.
    rewrite (insert_id (chunks h)); [done|]. rewrite Hx. f_equal. destruct x; cbn in *. by subst.
  - exists x, (fresh h), (fresh h + 1). split_and!; [|done|by right].
    unfold Generator.assignAddress, getAssignedPosition, chunk_at, new_position, setAssignedPosition, modify,
      put_chunk, chunk_at, mbind, M_bind, mret, M_ret.
    rewrite Hx, Ht, E. cbn [chunks positions]. by rewrite Hx.
Qed.

Lemma assigned_facts h l f x p slot fr : ready h l -> f ∈ l -> chunks h !! f = Some x ->
  (slotPosition x = Some p /\ fr = fresh h \/ slotPosition x = None /\ p = fresh h /\ fr = fresh h + 1) ->
  let h' := assigned h f x p slot fr in
  ready h' l /\ placed h' f slot /\
  (forall g s, g ∈ l -> g <> f -> placed h g s -> placed h' g s) /\
  (forall g, size_at h' g = size_at h g).
Proof.
  intros Hr Hf Hx Hp h'. pose proof Hr as [Hfun Hown Hfresh].
  destruct (Hfun f Hf) as (x0 & Hx0 & Ht & Hi & Hs). simplify_eq.
  assert (forall g y q, g ∈ l -> g <> f -> chunks h !! g = Some y -> slotPosition y = Some q -> q <> p) as Hne.
  { intros g y q Hg Hgf Hy Hq ->. destruct Hp as [[Hp ->]|(Hp & -> & ->)].
    - destruct Hgf. by eapply Hown.
    - destruct (Hfun g Hg) as (y' & Hy' & _ & _ & Hq'). simplify_eq.
      destruct (Hq' _ Hq) as [s Hs']. rewrite Hfresh in Hs' by lia. done. }
  assert (chunks h' !! f = Some (with_slotPosition x (Some p))) as Hf' by apply lookup_insert_eq.
  assert (positions h' !! p = Some (slot_position slot)) as Hp' by apply lookup_insert_eq.
  assert (forall g, g <> f -> chunks h' !! g = chunks h !! g) as Hg' by (intros; by apply lookup_insert_ne).
  assert (forall q, q <> p -> positions h' !! q = positions h !! q) as Hq' by (intros; by apply lookup_insert_ne).
  split_and!.
  - split.
    + intros g Hg. destruct (decide (g = f)) as [->|Hgf].
      * eexists. split; [exact Hf'|]. split_and!; [done..|]. intros q [= <-]. eauto.
      * destruct (Hfun g Hg) as (y & Hy & Ht' & Hi' & Hs'). exists y. rewrite Hg' by done.
        split_and!; [done..|]. intros q Hq. rewrite Hq' by (by eapply Hne). by apply Hs'.
    + intros g1 g2 y1 y2 q H1 H2 Hy1 Hy2 Hq1 Hq2.
      destruct (decide (g1 = f)) as [->|N1], (decide (g2 = f)) as [->|N2]; [done| | |].
      * rewrite Hf' in Hy1. rewrite Hg' in Hy2 by done. simplify_eq. cbn in Hq1. simplify_eq.
        exfalso. by eapply (Hne g2).
      * rewrite Hf' in Hy2. rewrite Hg' in Hy1 by done. simplify_eq. cbn in Hq2. simplify_eq.
        exfalso. by eapply (Hne g1).
      * rewrite Hg' in Hy1, Hy2 by done. by eapply Hown.
    + intros q Hq. assert (fresh h' = fr) as Ef by done. rewrite Ef in Hq.
      destruct Hp as [[Hp ->]|(Hp & -> & ->)].
      * destruct (Hs p Hp) as [s Hps]. rewrite Hq'; [by apply Hfresh|].
        intros ->. rewrite Hfresh in Hps by done. done.
      * rewrite Hq' by lia. apply Hfresh. lia.
  - exists (with_slotPosition x (Some p)), p. done.
  - intros g s Hg Hgf (y & q & Hy & Ht' & Hi' & Hq & Hz). exists y, q.
    rewrite Hg', Hq' by (done || by eapply Hne). done.
  - intros g. unfold size_at. destruct (decide (g = f)) as [->|]; [by rewrite Hf', Hx|by rewrite Hg'].
Qed.

(** Slots one after the other. *)
Fixpoint slots_from (a : Z) (sizes : list Z) : list Slot :=
  match sizes with [] => [] | n :: sizes => mkSlot a n :: slots_from (a + n) sizes end.
Definition total (sizes : list Z) : Z := foldr Z.add 0 sizes.

Lemma getSize_function h l f : ready h l -> f ∈ l -> ChunkImpl.getSize f h = Ok (size_at h f, h).
Proof.
  intros [Hf _ _] Hin. destruct (Hf f Hin) as (x & Hx & Ht & _).
  unfold ChunkImpl.getSize, chunk_at, size_at, mbind, M_bind. by rewrite Hx, Ht.
Qed.

Lemma assignAddressForFunction_spec sb h l f : sb_valid sb -> ready h l -> f ∈ l -> 0 <= size_at h f ->
  sb_current sb + sb_round sb (size_at h f) <= sb_limit sb ->
  exists sb' h', Generator.assignAddressForFunction sb f h = Ok (sb', h') /\
    (sb_valid sb' /\ sb_current sb' = sb_current sb + sb_round sb (size_at h f) /\
     sb_limit sb' = sb_limit sb /\ forall m, sb_round sb' m = sb_round sb m) /\
    ready h' l /\ placed h' f (mkSlot (sb_current sb) (sb_round sb (size_at h f))) /\
    (forall g s, g ∈ l -> g <> f -> placed h g s -> placed h' g s) /\
    (forall g, size_at h' g = size_at h g).
Proof.
  intros Hsb Hr Hf Hn Hfit. destruct (allocate_fits sb _ Hsb Hn Hfit) as (sb' & Ea & Hsb').
  destruct (assignAddress_spec h l f (mkSlot (sb_current sb) (sb_round sb (size_at h f))) Hr Hf)
    as (x & p & fr & Eh & Hx & Hp).
  eexists sb', _. split; [|split; [exact Hsb'|by eapply assigned_facts]].
  unfold Generator.assignAddressForFunction, mbind, M_bind, lift, mret, M_ret.
  rewrite (getSize_function h l f) by done. cbn beta iota. rewrite Ea. cbn beta iota. by rewrite Eh.
Qed.

Lemma assign_functions_fits l order : forall sb h, sb_valid sb -> ready h l -> NoDup order -> order ⊆ l ->
  Forall (fun f => 0 <= size_at h f) order ->
  sb_current sb + total (sb_round sb ∘ size_at h <$> order) <= sb_limit sb ->
  exists sb' h', Generator.assign_functions sb order h = Ok (sb', h') /\ ready h' l /\
    Forall2 (placed h') order (slots_from (sb_current sb) (sb_round sb ∘ size_at h <$> order)) /\
    (forall g s, g ∈ l -> g ∉ order -> placed h g s -> placed h' g s) /\
    (forall g, size_at h' g = size_at h g).
Proof.
  induction order as [|f order IH]; intros sb h Hsb Hr Hnd Hsub Hpos Hfit.
  { exists sb, h. cbn. split_and!; auto. }
  apply NoDup_cons in Hnd as [Hnf Hnd]. apply Forall_cons in Hpos as [Hn Hpos].
  rewrite fmap_cons in Hfit |- *. cbn [total foldr compose] in Hfit.
  assert (f ∈ l) as Hf by set_solver.
  assert (0 <= total (sb_round sb ∘ size_at h <$> order)) as Htot.
  { clear -Hpos Hsb. induction Hpos as [|g order Hg _ IHp]; [done|]. rewrite fmap_cons. cbn.
    pose proof (round_ge sb _ Hsb Hg). unfold total in IHp. lia. }
  destruct (assignAddressForFunction_spec sb h l f) as (sb1 & h1 & E1 & (Hv1 & Hc1 & Hl1 & Hr1) & Hready1 & Hp1 & Hk1 & Hs1);
    [done..|unfold total in *; lia|].
  assert ((sb_round sb1 ∘ size_at h1 <$> order) = (sb_round sb ∘ size_at h <$> order)) as Em.
  { apply list_fmap_ext. intros i g _. cbn. by rewrite Hs1, Hr1. }
  destruct (IH sb1 h1) as (sb2 & h2 & E2 & Hready2 & Hp2 & Hk2 & Hs2); [done|done|done|set_solver| | |].
  { eapply Forall_impl; [exact Hpos|]. intros g. by rewrite Hs1. }
  { rewrite Em, Hc1, Hl1. unfold total in *. lia. }
  exists sb2, h2. cbn [Generator.assign_functions]. unfold mbind, M_bind. rewrite E1, E2.
  split_and!; [done|done| | |].
  - cbn [slots_from compose]. constructor; [by apply Hk2|]. by rewrite Em, Hc1 in Hp2.
  - intros g s Hg [Hgf Hgo]%not_elem_of_cons Hpl. apply Hk2; [done|done|]. by apply Hk1.
  - intros g. by rewrite Hs2, Hs1.
Qed.

Lemma assign_functions_full l order : forall sb h, sb_valid sb -> ready h l -> order ⊆ l ->
  Forall (fun f => 0 <= size_at h f /\ sb_limit sb + sb_round sb (size_at h f) < 2 ^ 64) order ->
  sb_limit sb < sb_current sb + total (sb_round sb ∘ size_at h <$> order) ->
  Generator.assign_functions sb order h = Err bad_alloc.
Proof.
  induction order as [|f order IH]; intros sb h Hsb Hr Hsub Hpos Hfull.
  { cbn in Hfull. pose proof (valid_range sb Hsb). lia. }
  apply Forall_cons in Hpos as [[Hn Hb] Hpos]. rewrite fmap_cons in Hfull. cbn [total foldr compose] in Hfull.
  assert (f ∈ l) as Hf by set_solver. cbn [Generator.assign_functions].
  destruct (Z.le_gt_cases (sb_current sb + sb_round sb (size_at h f)) (sb_limit sb)) as [Hfit|Hno].
  - destruct (assignAddressForFunction_spec sb h l f) as (sb1 & h1 & E1 & (Hv1 & Hc1 & Hl1 & Hr1) & Hready1 & _ & _ & Hs1); [done..|].
    unfold mbind, M_bind. rewrite E1. apply IH; [done|done|set_solver| |].
    + eapply Forall_impl; [exact Hpos|]. intros g. by rewrite Hs1, Hl1, Hr1.
    + rewrite Hc1, Hl1. replace (sb_round sb1 ∘ size_at h1 <$> order) with (sb_round sb ∘ size_at h <$> order).
      { unfold total. lia. }
      apply list_fmap_ext. intros i g _. cbn. by rewrite Hs1, Hr1.
  - unfold Generator.assignAddressForFunction, mbind, M_bind, lift. rewrite (getSize_function h l f) by done.
    cbn beta iota. pose proof (valid_range sb Hsb). rewrite allocate_full; [done|done|done|done|lia].
Qed.

(** The slots are in order, inside what was free. *)
Lemma slots_from_bounds sizes : forall a i s, Forall (Z.le 0) sizes -> slots_from a sizes !! i = Some s ->
  a <= slot_address s /\ 0 <= slot_size s /\ slot_address s + slot_size s <= a + total sizes.
Proof.
  induction sizes as [|n sizes IH]; intros a i s [Hn Hs]%Forall_cons_1 Hi || intros a i s _ Hi; [done|].
  assert (0 <= total sizes) by (clear -Hs; induction Hs; cbn; unfold total in *; lia).
  destruct i as [|i]; cbn in Hi; [simplify_eq; cbn; unfold total in *; lia|].
  apply IH in Hi; [|done]. cbn. unfold total in *. lia.
Qed.
Lemma slots_from_disjoint sizes : forall a i j s t, Forall (Z.le 0) sizes -> (i < j)%nat ->
  slots_from a sizes !! i = Some s -> slots_from a sizes !! j = Some t ->
  slot_address s + slot_size s <= slot_address t.
Proof.
  induction sizes as [|n sizes IH]; intros a i j s t Hs Hij Hi Hj; [done|].
  apply Forall_cons in Hs as [Hn Hs]. destruct j as [|j]; [lia|]. destruct i as [|i]; cbn in Hi, Hj.
  - simplify_eq. cbn. by apply slots_from_bounds in Hj as [? _].
  - eapply IH; [done| |done|done]. lia.
Qed.

(** C36: [assignAddresses] of a list of functions either succeeds, and then every
    function starts at an address of the sandbox where it fits, the functions
    are in the given order and do not overlap; or the sandbox does not have room
    for all of them, and it throws [std::bad_alloc]. *)
Theorem assign_functions_correct sb h order :
  sb_valid sb -> ready h order -> NoDup order ->
  Forall (fun f => 0 <= size_at h f /\ sb_limit sb + sb_round sb (size_at h f) < 2 ^ 64) order ->
  if sb_current sb + total (sb_round sb ∘ size_at h <$> order) <=? sb_limit sb then
    exists sb' h', Generator.assign_functions sb order h = Ok (sb', h') /\
    exists addresses, Forall2 (fun f a => getAddress f h' = Ok (a, h') /\
        sb_current sb <= a /\ a + size_at h f <= sb_limit sb) order addresses /\
      forall i j f a b, (i < j)%nat -> order !! i = Some f -> addresses !! i = Some a -> addresses !! j = Some b ->
        a + size_at h f <= b
  else Generator.assign_functions sb order h = Err bad_alloc.
Proof.
  intros Hsb Hr Hnd Hpos. destruct (Z.leb_spec (sb_current sb + total (sb_round sb ∘ size_at h <$> order)) (sb_limit sb)) as [Hfit|Hfull].
  2: by eapply assign_functions_full.
  destruct (assign_functions_fits order order sb h Hsb Hr Hnd) as (sb' & h' & E & _ & Hp & _ & _); [done| |done|].
  { eapply Forall_impl; [exact Hpos|]. by intros g []. }
  set (sizes := sb_round sb ∘ size_at h <$> order) in *.
  assert (Forall (Z.le 0) sizes) as Hsz.
  { apply Forall_fmap. eapply Forall_impl; [exact Hpos|]. intros g [Hg _]. cbn. pose proof (round_ge sb _ Hsb Hg). lia. }
  assert (forall i f s, order !! i = Some f -> slots_from (sb_current sb) sizes !! i = Some s ->
    slot_size s = sb_round sb (size_at h f) /\ size_at h f <= slot_size s) as Hfits.
  { intros i f s Hi Hs. assert (slot_size s = sb_round sb (size_at h f)) as Es.
    { assert (sizes !! i = Some (slot_size s)) as Hsi.
      { clear -Hs. revert i Hs. generalize (sb_current sb). induction sizes as [|n ns IH]; intros a [|i] Hs; cbn in Hs;
          simplify_eq; [done|]. by eapply IH. }
      unfold sizes in Hsi. rewrite list_lookup_fmap, Hi in Hsi. cbn in Hsi. congruence. }
    rewrite Es. split; [done|]. apply round_ge; [done|]. by apply (Forall_lookup_1 _ _ _ _ Hpos Hi). }
  exists sb', h'. split; [done|]. exists (slot_address <$> slots_from (sb_current sb) sizes). split.
  - apply Forall2_fmap_r, Forall2_same_length_lookup. split; [by eapply Forall2_length|]. intros i f s Hi Hs.
    pose proof (Forall2_lookup_lr _ _ _ _ _ _ Hp Hi Hs) as Hpl.
    destruct (slots_from_bounds _ _ _ _ Hsz Hs) as (B1 & B2 & B3). destruct (Hfits i f s Hi Hs) as [_ Hle].
    split; [by apply placed_address|]. lia.
  - intros i j f a b Hij Hi Ha Hb. rewrite list_lookup_fmap in Ha, Hb.
    apply fmap_Some in Ha as (s & Hs & ->). apply fmap_Some in Hb as (t & Ht & ->).
    pose proof (slots_from_disjoint _ _ _ _ _ _ Hsz Hij Hs Ht). destruct (Hfits i f s Hi Hs). lia.
Qed.
End assign.

(** ** Examples *)
Module SandboxExamples.

Definition box : SandboxImpl MemoryBufferBacking AlignedWatermarkAllocator :=
  SandboxImpl.new (MemoryBufferBacking.new 0x40000000 0x1000).

(** Two functions, the second with a slot already. *)
Definition heap : Heap := mkHeap
  (list_to_map [(10, with_csize (ChunkMutator.empty_chunk TFunction "f") 31);
                (11, with_slotPosition (with_csize (ChunkMutator.empty_chunk TFunction "g") 8) (Some 100))])
  (list_to_map [(100, slot_position (mkSlot 0 8))]) ∅ MODE_OFFSET None [] 101.

Lemma heap_ready : ready heap [11; 10].
Proof.
  split.
  - intros f Hf. members Hf; (eexists; split; [reflexivity|]; split_and!; try reflexivity; intros p Hp; cbn in Hp).
    + simplify_eq. eexists. reflexivity.
    + discriminate Hp.
  - intros f g x y p Hf Hg. members Hf; members Hg; try done; intros Hx Hy Hpx Hpy;
      vm_compute in Hx, Hy; simplify_eq; discriminate.
  - intros p Hp. cbn in Hp. unfold heap. cbn [positions].
    apply not_elem_of_list_to_map_1. cbn. rewrite list_elem_of_singleton. lia.
Qed.

Lemma assign_functions_correct_witness : exists sb' h',
  Generator.assign_functions box [11; 10] heap = Ok (sb', h') /\
  exists addresses, Forall2 (fun f a => getAddress f h' = Ok (a, h') /\ 0x40000000 <= a /\
    a + size_at heap f <= 0x40001000) [11; 10] addresses.
Proof.
  pose proof (assign_functions_correct box heap [11; 10]) as T.
  assert (sb_valid box) as Hv by (split; [exists 1; done|]; vm_compute; intuition congruence).
  specialize (T Hv heap_ready ltac:(apply (bool_decide_unpack _); vm_compute; exact I)).
  assert (Forall (fun f => 0 <= size_at heap f /\ sb_limit box + sb_round box (size_at heap f) < 2 ^ 64) [11; 10]) as Hs
    by (repeat constructor; vm_compute; congruence).
  specialize (T Hs). change (sb_current box + total (sb_round box ∘ size_at heap <$> [11; 10]) <=? sb_limit box) with true in T.
  destruct T as (sb' & h' & E & addresses & F & _). exists sb', h'. split; [exact E|]. exists addresses. exact F.
Defined.

(** A request near the largest size wraps around: it is granted, and the next slot
    starts below the sandbox. *)
Example watermark_wraps :
  let s0 : SandboxImpl MemoryBufferBacking WatermarkAllocator :=
    SandboxImpl.new (MemoryBufferBacking.new 0x40000000 0x1000) in
  exists s1 s2, allocate s0 (2 ^ 64 - 0x100) = Ok (mkSlot 0x40000000 (2 ^ 64 - 0x100), s1) /\
    allocate s1 0x10 = Ok (mkSlot 0x3fffff00 0x10, s2).
Proof.
  exists (mkSandbox (mkBuffer 0x40000000 0x1000 []) (mkWatermark 0x40000000 0x3fffff00)),
    (mkSandbox (mkBuffer 0x40000000 0x1000 []) (mkWatermark 0x40000000 0x3fffff10)).
  split; vm_compute; reflexivity.
Qed.
End SandboxExamples.
