(* ===== verification/Archive.v ===== *)
(** * Chunk archives: src/archive/stream.h, stream.cpp, flatchunk.h, flatchunk.cpp,
      chunktypes.h, chunktypes.cpp, archive.h, archive.cpp, writer.h, writer.cpp,
      reader.h, reader.cpp, operations.h, and [ChunkSerializer::instantiate] of
      src/chunk/serializer.cpp

    An archive is a vector of flat chunks (type, number, data) that is written to
    a file and read back.  A file is the list of its bytes; an input stream keeps
    the bytes left and the state bits of [std::istream]. *)

From S2P Require Import Prelude.

(** ** Streams of the C++ library *)

Record istream := mkI { ibytes : list Z; eofbit : bool; failbit : bool }.
Definition good (s : istream) : bool := negb (eofbit s) && negb (failbit s).
(** [std::istream::operator bool] *)
Definition ok (s : istream) : bool := negb (failbit s).
(** [std::istream::read] of [n] characters: those that were there. *)
Definition sread (s : istream) (n : nat) : list Z * istream :=
  if good s then
    if (length (ibytes s) <? n)%nat then (ibytes s, mkI [] true true)
    else (take n (ibytes s), mkI (drop n (ibytes s)) false false)
  else ([], mkI (ibytes s) (eofbit s) true).
(** [std::getline(stream, value, 0)] *)
Fixpoint until_nul (l : list Z) : list Z * option (list Z) :=
  match l with
  | [] => ([], None)
  | b :: l => if b =? 0 then ([], Some l)
              else let '(t, r) := until_nul l in (b :: t, r)
  end.
Definition sgetline (s : istream) : list Z * istream :=
  if good s then
    match until_nul (ibytes s) with
    | (t, Some r) => (t, mkI r false false)
    | (t, None) => (t, mkI [] true (match t with [] => true | _ => false end))
    end
  else ([], mkI (ibytes s) (eofbit s) true).

(** An output stream writes at its position, over what is there. *)
Record ostream := mkO { obuf : list Z; opos : nat }.
Definition swrite (o : ostream) (l : list Z) : ostream :=
  mkO (take (opos o) (obuf o) ++ l ++ drop (opos o + length l) (obuf o)) (opos o + length l).

(** The characters of a C string in memory. *)
Definition c_text (l : list Z) : list Z := (until_nul l).1.

(** The destination of a read keeps the bytes that are not stored to. *)
Definition overlay (old got : list Z) : list Z := got ++ drop (length got) old.

(** ** src/archive/stream.cpp *)
Module ArchiveStreamReader.

(** [readInto] of an unsigned integer of [n] bytes that has the value [old]. *)
Definition readInto (n : nat) (old : Z) (s : istream) : bool * Z * istream :=
  let '(got, s) := sread s n in (ok s, le_value (overlay (le_bytes n old) got), s).
(** [readInto(bool &)]: the byte has no value when nothing was read. *)
Definition readInto_bool (s : istream) : res (bool * bool * istream) :=
  let '(got, s) := sread s 1 in
  match got with [] => Err Undefined | b :: _ => Ok (ok s, b =? 49, s) end.
Definition read (n : nat) (s : istream) : Z * istream :=
  let '(_, v, s) := readInto n 0 s in (v, s).
Definition readID (s : istream) : Z * istream := read 4 s.
Definition readString (s : istream) : list Z * istream := sgetline s.
Definition readFixedLengthBytes (n : Z) (s : istream) : list Z * istream :=
  let '(got, s) := sread s (Z.to_nat n) in (overlay (replicate (Z.to_nat n) 0) got, s).
Definition readBytes (n : nat) (s : istream) : list Z * istream :=
  let '(length, s) := read n s in readFixedLengthBytes length s.
Definition stillGood (s : istream) : bool := good s.
End ArchiveStreamReader.

Module ArchiveStreamWriter.

(** [writeValue] of an unsigned integer of [n] bytes. *)
Definition writeValue (n : nat) (v : Z) (o : ostream) : ostream := swrite o (le_bytes n v).
Definition writeValue_bool (flag : bool) (o : ostream) : ostream := writeValue 1 (if flag then 49 else 48) o.
Definition writeID (id : Z) (o : ostream) : ostream := writeValue 4 id o.
(** [writeString] of a C string and of a [std::string] *)
Definition writeString_c (value : list Z) (o : ostream) : ostream := swrite o (c_text value ++ [0]).
Definition writeString (value : list Z) (o : ostream) : ostream := swrite o (value ++ [0]).
Definition writeFixedLengthBytes (value : list Z) (n : Z) (o : ostream) : ostream :=
  swrite o (take (Z.to_nat n) value).
(** [writeFixedLengthBytes] of a C string *)
Definition writeFixedLengthBytes_c (value : list Z) (o : ostream) : ostream := swrite o (c_text value).
Definition writeBytes (n : nat) (value : list Z) (o : ostream) : ostream :=
  writeFixedLengthBytes value (Z.of_nat (length value)) (writeValue n (Z.of_nat (length value)) o).
End ArchiveStreamWriter.

(** ** src/archive/flatchunk.h, flatchunk.cpp *)

Record FlatChunk := mkFlat {
  ftype : Z;            (* FlatType, 16 bits *)
  fid : Z;              (* IDType, 32 bits *)
  foffset : Z;          (* OffsetType, 32 bits *)
  fdata : list Z;
  finstance : option Z  (* the chunk created for it *)
}.
Definition NoneID : Z := u32 (-1).

Module FlatChunk.
Definition new (type id : Z) (data : list Z) : FlatChunk := mkFlat type id 0 data None.
Definition getSize (f : FlatChunk) : Z := u32 (Z.of_nat (length (fdata f))).
Definition appendData (f : FlatChunk) (newData : list Z) : FlatChunk :=
  mkFlat (ftype f) (fid f) (foffset f) (fdata f ++ newData) (finstance f).
Definition setOffset (f : FlatChunk) (offset : Z) : FlatChunk :=
  mkFlat (ftype f) (fid f) offset (fdata f) (finstance f).
Definition setInstance (f : FlatChunk) (instance : option Z) : FlatChunk :=
  mkFlat (ftype f) (fid f) (foffset f) (fdata f) instance.
End FlatChunk.

(** A writer into a flat chunk, whose data is what the stream starts with. *)
Record BufferedStreamWriter := mkBuffered { bflat : FlatChunk; bstream : ostream }.
Module BufferedStreamWriter.
Definition new (f : FlatChunk) : BufferedStreamWriter := mkBuffered f (mkO (fdata f) 0).
Definition write (w : BufferedStreamWriter) (op : ostream -> ostream) : BufferedStreamWriter :=
  mkBuffered (bflat w) (op (bstream w)).
Definition flush (w : BufferedStreamWriter) : BufferedStreamWriter :=
  mkBuffered (FlatChunk.appendData (bflat w) (obuf (bstream w))) (mkO [] 0).
(** The destructor: what the flat chunk ends up with. *)
Definition destroy (w : BufferedStreamWriter) : FlatChunk :=
  match obuf (bstream w) with [] => bflat w | l => FlatChunk.appendData (bflat w) l end.
End BufferedStreamWriter.

(** [InMemoryStreamReader]: a reader of the data of a flat chunk. *)
Definition InMemoryStreamReader (f : FlatChunk) : istream := mkI (fdata f) false false.

Record FlatChunkList := mkFlatList { flatList : list (option FlatChunk); nextID : Z }.
Module FlatChunkList.
Definition empty : FlatChunkList := mkFlatList [] 0.
Definition getNextID (l : FlatChunkList) : Z * FlatChunkList :=
  (nextID l, mkFlatList (flatList l) (u32 (nextID l + 1))).
Definition getCount (l : FlatChunkList) : Z := Z.of_nat (length (flatList l)).
Definition addFlatChunk (l : FlatChunkList) (f : FlatChunk) : res FlatChunkList :=
  let v := if getCount l <? u32 (fid f + 1) then resize (Z.to_nat (u32 (fid f + 1))) None (flatList l)
           else flatList l in
  v ← store v (fid f) (Some f);
  Ok (mkFlatList v (nextID l)).
Definition newFlatChunk_id (l : FlatChunkList) (type id : Z) : res FlatChunkList :=
  addFlatChunk l (FlatChunk.new type id []).
Definition newFlatChunk (l : FlatChunkList) (type : Z) : res (Z * FlatChunkList) :=
  let '(id, l) := getNextID l in l ← newFlatChunk_id l type id; Ok (id, l).
Definition get (l : FlatChunkList) (i : Z) : res (option FlatChunk) :=
  cassert (i <? getCount l);; load (flatList l) i.
End FlatChunkList.

(** ** src/archive/chunktypes.h, chunktypes.cpp *)

Inductive EgalitoChunkType :=
| TYPE_UNKNOWN | TYPE_Program | TYPE_Module | TYPE_FunctionList | TYPE_PLTList | TYPE_JumpTableList
| TYPE_DataRegionList | TYPE_InitFunctionList | TYPE_ExternalSymbolList | TYPE_LibraryList
| TYPE_VTableList | TYPE_Function | TYPE_Block | TYPE_Instruction | TYPE_PLTTrampoline
| TYPE_JumpTable | TYPE_JumpTableEntry | TYPE_DataRegion | TYPE_TLSDataRegion | TYPE_DataSection
| TYPE_DataVariable | TYPE_GlobalVariable | TYPE_MarkerList | TYPE_Marker | TYPE_VTable
| TYPE_VTableEntry | TYPE_InitFunction | TYPE_ExternalSymbol | TYPE_Library | TYPE_TOTAL.

#[export] Instance EgalitoChunkType_eq_dec : EqDecision EgalitoChunkType.
Proof. solve_decision. Defined.

(** The numbers of the enumeration. *)
Definition chunk_types : list EgalitoChunkType :=
  [TYPE_UNKNOWN; TYPE_Program; TYPE_Module; TYPE_FunctionList; TYPE_PLTList; TYPE_JumpTableList;
   TYPE_DataRegionList; TYPE_InitFunctionList; TYPE_ExternalSymbolList; TYPE_LibraryList;
   TYPE_VTableList; TYPE_Function; TYPE_Block; TYPE_Instruction; TYPE_PLTTrampoline;
   TYPE_JumpTable; TYPE_JumpTableEntry; TYPE_DataRegion; TYPE_TLSDataRegion; TYPE_DataSection;
   TYPE_DataVariable; TYPE_GlobalVariable; TYPE_MarkerList; TYPE_Marker; TYPE_VTable;
   TYPE_VTableEntry; TYPE_InitFunction; TYPE_ExternalSymbol; TYPE_Library; TYPE_TOTAL].
Definition type_num (t : EgalitoChunkType) : Z :=
  match t with
  | TYPE_UNKNOWN => 0 | TYPE_Program => 1 | TYPE_Module => 2 | TYPE_FunctionList => 3
  | TYPE_PLTList => 4 | TYPE_JumpTableList => 5 | TYPE_DataRegionList => 6
  | TYPE_InitFunctionList => 7 | TYPE_ExternalSymbolList => 8 | TYPE_LibraryList => 9
  | TYPE_VTableList => 10 | TYPE_Function => 11 | TYPE_Block => 12 | TYPE_Instruction => 13
  | TYPE_PLTTrampoline => 14 | TYPE_JumpTable => 15 | TYPE_JumpTableEntry => 16
  | TYPE_DataRegion => 17 | TYPE_TLSDataRegion => 18 | TYPE_DataSection => 19
  | TYPE_DataVariable => 20 | TYPE_GlobalVariable => 21 | TYPE_MarkerList => 22
  | TYPE_Marker => 23 | TYPE_VTable => 24 | TYPE_VTableEntry => 25 | TYPE_InitFunction => 26
  | TYPE_ExternalSymbol => 27 | TYPE_Library => 28 | TYPE_TOTAL => 29
  end.

(** The table [encode] of [encodeChunkType]. *)
Definition encode : list Z := chars "?PMFZTRSLQfbizJjD:dvAaVpsl".
Definition encodeChunkType (type : Z) : res Z := load encode type.
Definition decodeChunkType (encoded : Z) : EgalitoChunkType :=
  switch encoded
    (zip (chars "?PMFZTRSLQfbizJjD:dvAaVpsl")
      [TYPE_UNKNOWN; TYPE_Program; TYPE_Module; TYPE_FunctionList; TYPE_PLTList; TYPE_JumpTableList;
       TYPE_DataRegionList; TYPE_ExternalSymbolList; TYPE_LibraryList; TYPE_VTableList;
       TYPE_Function; TYPE_Block; TYPE_Instruction; TYPE_PLTTrampoline; TYPE_JumpTable;
       TYPE_JumpTableEntry; TYPE_DataRegion; TYPE_TLSDataRegion; TYPE_DataSection; TYPE_DataVariable;
       TYPE_MarkerList; TYPE_Marker; TYPE_VTable; TYPE_VTableEntry; TYPE_ExternalSymbol; TYPE_Library])
    TYPE_UNKNOWN.
Definition getChunkTypeName (type : EgalitoChunkType) : string :=
  match type with
  | TYPE_UNKNOWN => "UNKNOWN" | TYPE_Program => "Program" | TYPE_Module => "Module"
  | TYPE_FunctionList => "FunctionList" | TYPE_PLTList => "PLTList" | TYPE_JumpTableList => "JumpTableList"
  | TYPE_DataRegionList => "DataRegionList" | TYPE_InitFunctionList => "InitFunctionList"
  | TYPE_ExternalSymbolList => "ExternalSymbolList" | TYPE_LibraryList => "LibraryList"
  | TYPE_VTableList => "VTableList" | TYPE_Function => "Function" | TYPE_Block => "Block"
  | TYPE_Instruction => "Instruction" | TYPE_PLTTrampoline => "PLTTrampoline" | TYPE_JumpTable => "JumpTable"
  | TYPE_JumpTableEntry => "JumpTableEntry" | TYPE_DataRegion => "DataRegion"
  | TYPE_TLSDataRegion => "TLSDataRegion" | TYPE_DataSection => "DataSection"
  | TYPE_DataVariable => "DataVariable" | TYPE_GlobalVariable => "GlobalVariable"
  | TYPE_MarkerList => "MarkerList" | TYPE_Marker => "Marker" | TYPE_VTable => "VTable"
  | TYPE_VTableEntry => "VTableEntry" | TYPE_InitFunction => "InitFunction"
  | TYPE_ExternalSymbol => "ExternalSymbol" | TYPE_Library => "Library" | TYPE_TOTAL => "TOTAL"
  end.

(** [ChunkSerializer::instantiate]: the class of the object the constructor at
    index [type] of the table creates, if it creates one. *)
Definition constructor : list (option EgalitoChunkType) :=
  [None; Some TYPE_Program; Some TYPE_Module; Some TYPE_FunctionList; Some TYPE_PLTList;
   Some TYPE_JumpTableList; Some TYPE_DataRegionList; Some TYPE_ExternalSymbolList;
   Some TYPE_LibraryList; Some TYPE_VTableList; Some TYPE_Function; Some TYPE_Block;
   Some TYPE_Instruction; Some TYPE_PLTTrampoline; Some TYPE_JumpTable; Some TYPE_JumpTableEntry;
   Some TYPE_DataRegion; Some TYPE_TLSDataRegion; Some TYPE_DataSection; Some TYPE_DataVariable;
   None; None; Some TYPE_VTable; Some TYPE_VTableEntry; Some TYPE_ExternalSymbol; Some TYPE_Library].
Definition instantiate (flat : option FlatChunk) : res (option EgalitoChunkType) :=
  match flat with
  | None => Err AssertFail
  | Some flat =>
    cassert (ftype flat <? Z.of_nat (length constructor));;
    load constructor (ftype flat)
  end.

(** ** src/archive/archive.h *)

Record EgalitoArchive := mkArchive { aflats : FlatChunkList; sourceFilename : string; version : Z }.
Definition SIGNATURE : list Z := chars "egalito" ++ [196].
Definition VERSION : Z := 24.
Definition new_archive : EgalitoArchive := mkArchive FlatChunkList.empty "(in-memory)" VERSION.

(** ** src/archive/writer.cpp *)
Module EgalitoArchiveWriter.

Fixpoint offsets_loop (l : list (option FlatChunk)) (totalSize : Z) : res (list (option FlatChunk)) :=
  match l with
  | [] => Ok []
  | None :: _ => Err NullDeref
  | Some flat :: l =>
    l ← offsets_loop l (u32 (totalSize + (2 + 4 * 3 + FlatChunk.getSize flat)));
    Ok (Some (FlatChunk.setOffset flat totalSize) :: l)
  end.
Definition assignOffsets (a : EgalitoArchive) : res EgalitoArchive :=
  let totalSize := u32 (Z.of_nat (length SIGNATURE)) in
  let totalSize := u32 (totalSize + 4) in
  let totalSize := u32 (totalSize + 4) in
  l ← offsets_loop (flatList (aflats a)) totalSize;
  Ok (mkArchive (mkFlatList l (nextID (aflats a))) (sourceFilename a) (version a)).

Definition write_flat (flat : FlatChunk) (file : ostream) : res ostream :=
  t ← encodeChunkType (ftype flat);
  let file := ArchiveStreamWriter.writeValue 1 t file in
  let file := ArchiveStreamWriter.writeValue 4 (fid flat) file in
  let file := ArchiveStreamWriter.writeValue 4 (foffset flat) file in
  let file := ArchiveStreamWriter.writeValue 4 (FlatChunk.getSize flat) file in
  Ok (ArchiveStreamWriter.writeFixedLengthBytes (fdata flat) (FlatChunk.getSize flat) file).
Fixpoint write_flats (l : list (option FlatChunk)) (file : ostream) : res ostream :=
  match l with
  | [] => Ok file
  | None :: _ => Err NullDeref
  | Some flat :: l => file ← write_flat flat file; write_flats l file
  end.
(** The contents of the file. *)
Definition writeData (a : EgalitoArchive) : res (list Z) :=
  let file := mkO [] 0 in
  let file := ArchiveStreamWriter.writeFixedLengthBytes_c (SIGNATURE ++ [0]) file in
  let file := ArchiveStreamWriter.writeValue 4 VERSION file in
  let file := ArchiveStreamWriter.writeValue 4 (FlatChunkList.getCount (aflats a)) file in
  file ← write_flats (flatList (aflats a)) file;
  Ok (obuf file).
Definition write (a : EgalitoArchive) : res (list Z * EgalitoArchive) :=
  a ← assignOffsets a; file ← writeData a; Ok (file, a).
End EgalitoArchiveWriter.

(** ** src/archive/reader.cpp *)
Module EgalitoArchiveReader.

(** The number of flat chunks, which is left without a value when the file ends
    before it, and the version; [None] when the header is refused. *)
Definition readHeader (s : istream) : option (option Z * Z) * istream :=
  let '(line, s) := ArchiveStreamReader.readFixedLengthBytes (Z.of_nat (length (c_text (SIGNATURE ++ [0])))) s in
  if negb (ArchiveStreamReader.stillGood s) || negb (bool_decide (line = SIGNATURE)) then (None, s)
  else
    let '(success, version, s) := ArchiveStreamReader.readInto 4 0 s in
    if negb success then (None, s)
    else if VERSION <? version then (None, s)
    else
      let '(success, flatCount, s) := ArchiveStreamReader.readInto 4 0 s in
      (Some (if success : bool then Some flatCount else None, version), s).

Definition read_flat (s : istream) : FlatChunk * istream :=
  let '(t, s) := ArchiveStreamReader.read 1 s in
  let type := decodeChunkType t in
  let '(id, s) := ArchiveStreamReader.read 4 s in
  let '(offset, s) := ArchiveStreamReader.read 4 s in
  let '(size, s) := ArchiveStreamReader.read 4 s in
  let '(data, s) := ArchiveStreamReader.readFixedLengthBytes size s in
  (FlatChunk.setOffset (FlatChunk.new (type_num type) id data) offset, s).
Fixpoint read_loop (n : nat) (l : FlatChunkList) (s : istream) : res (option FlatChunkList) :=
  match n with
  | O => Ok (Some l)
  | S n =>
    let '(flat, s) := read_flat s in
    if negb (ok s) then Ok None
    else l ← FlatChunkList.addFlatChunk l flat; read_loop n l s
  end.
(** [None] stands for a file that cannot be opened, and for a null result. *)
Definition read (filename : string) (file : option (list Z)) : res (option EgalitoArchive) :=
  let s := match file with Some l => mkI l false false | None => mkI [] false true end in
  match readHeader s with
  | (None, _) => Ok None
  | (Some (None, _), _) => Err Undefined
  | (Some (Some flatCount, version), s) =>
    l ← read_loop (Z.to_nat flatCount) FlatChunkList.empty s;
    match l with
    | None => Ok None
    | Some l => Ok (Some (mkArchive l filename version))
    end
  end.
(** [read(filename, libraryList)] over the files of a file system. *)
Fixpoint read_paths (fs : string -> option (list Z)) (paths : list string) (filename : string)
  : res (option EgalitoArchive) :=
  match paths with
  | [] => read filename (fs filename)
  | path :: paths =>
    let name := path +:+ "/" +:+ filename in
    archive ← read name (fs name);
    match archive with Some a => Ok (Some a) | None => read_paths fs paths filename end
  end.
End EgalitoArchiveReader.

(** ** src/archive/operations.h *)

Record ArchiveIDOperations := mkOps { oarchive : EgalitoArchive; assignment : gmap Z Z }.
Module ArchiveIDOperations.
Definition new (a : EgalitoArchive) : ArchiveIDOperations := mkOps a ∅.
Definition assign (op : ArchiveIDOperations) (object : option Z) : Z * ArchiveIDOperations :=
  match object with
  | None => (NoneID, op)
  | Some o =>
    match assignment op !! o with
    | Some id => (id, op)
    | None =>
      let a := oarchive op in
      let '(id, l) := FlatChunkList.getNextID (aflats a) in
      (id, mkOps (mkArchive l (sourceFilename a) (version a)) (<[o := id]> (assignment op)))
    end
  end.
Definition fetch (op : ArchiveIDOperations) (object : Z) : option Z := assignment op !! object.
Definition lookupFlat (op : ArchiveIDOperations) (id : Z) : res (option FlatChunk) :=
  if id =? NoneID then Ok None else FlatChunkList.get (aflats (oarchive op)) id.
Definition lookup (op : ArchiveIDOperations) (id : Z) : res (option Z) :=
  if id =? NoneID then Ok None
  else f ← FlatChunkList.get (aflats (oarchive op)) id;
       match f with None => Err NullDeref | Some f => Ok (finstance f) end.
End ArchiveIDOperations.

(** ** Streams: lemmas *)

(** A stream over the first [k] bytes of a file. *)
Definition upto (k : nat) (l : list Z) : istream := mkI (take k l) false false.

Lemma sread_upto k n a b : length a = n ->
  sread (upto k (a ++ b)) n =
    if (n <=? k)%nat then (a, upto (k - n) b) else (take k a, mkI [] true true).
Proof.
  intros <-. unfold sread, upto, good. cbn [eofbit failbit negb andb ibytes].
  rewrite length_take, length_app, take_app.
  destruct (Nat.leb_spec (length a) k).
  - rewrite (proj2 (Nat.ltb_ge _ _)) by lia. rewrite (take_ge a k) by lia.
    by rewrite take_app_length, drop_app_length.
  - rewrite (proj2 (Nat.ltb_lt _ _)) by lia.
    replace (k - length a)%nat with O by lia. by rewrite app_nil_r.
Qed.

(** Reads from a stream that has failed fail. *)
Lemma sread_failed s n : failbit s = true -> failbit (sread s n).2 = true.
Proof. intros H. unfold sread, good. rewrite H, andb_false_r. done. Qed.

Lemma overlay_full old got : length old = length got -> overlay old got = got.
Proof. intros H. unfold overlay. by rewrite <- H, drop_all, app_nil_r. Qed.

(** A field that is there in full. *)
Lemma read_upto k n v b : 0 <= v < 256 ^ Z.of_nat n -> (n <= k)%nat ->
  ArchiveStreamReader.read n (upto k (le_bytes n v ++ b)) = (v, upto (k - n) b).
Proof.
  intros Hv Hk. unfold ArchiveStreamReader.read, ArchiveStreamReader.readInto.
  rewrite sread_upto by apply le_bytes_length. rewrite (proj2 (Nat.leb_le _ _)) by done.
  rewrite overlay_full, le_value_bytes by (rewrite ?le_bytes_length; done). done.
Qed.
Lemma readBytes_upto k v b : (length v <= k)%nat ->
  ArchiveStreamReader.readFixedLengthBytes (Z.of_nat (length v)) (upto k (v ++ b)) = (v, upto (k - length v) b).
Proof.
  intros Hk. unfold ArchiveStreamReader.readFixedLengthBytes. rewrite Nat2Z.id, sread_upto by done.
  rewrite (proj2 (Nat.leb_le _ _)) by done. rewrite overlay_full by (by rewrite length_replicate). done.
Qed.
(** A field that is cut. *)
Lemma read_upto_short k n v b : (k < n)%nat ->
  failbit (ArchiveStreamReader.read n (upto k (le_bytes n v ++ b))).2 = true.
Proof.
  intros Hk. unfold ArchiveStreamReader.read, ArchiveStreamReader.readInto.
  rewrite sread_upto by apply le_bytes_length. by rewrite (proj2 (Nat.leb_gt _ _)) by done.
Qed.
Lemma readBytes_upto_short k v b : (k < length v)%nat ->
  failbit (ArchiveStreamReader.readFixedLengthBytes (Z.of_nat (length v)) (upto k (v ++ b))).2 = true.
Proof.
  intros Hk. unfold ArchiveStreamReader.readFixedLengthBytes. rewrite Nat2Z.id, sread_upto by done.
  by rewrite (proj2 (Nat.leb_gt _ _)) by done.
Qed.
Lemma read_failed n s : failbit s = true -> failbit (ArchiveStreamReader.read n s).2 = true.
Proof.
  intros H. unfold ArchiveStreamReader.read, ArchiveStreamReader.readInto.
  pose proof (sread_failed s n H). by destruct (sread s n).
Qed.
Lemma readBytes_failed n s : failbit s = true ->
  failbit (ArchiveStreamReader.readFixedLengthBytes n s).2 = true.
Proof.
  intros H. unfold ArchiveStreamReader.readFixedLengthBytes.
  pose proof (sread_failed s (Z.to_nat n) H). by destruct (sread s (Z.to_nat n)).
Qed.
#[export] Hint Resolve read_failed readBytes_failed read_upto_short readBytes_upto_short : egalito.

(** Writing at the end of a stream appends. *)
Lemma swrite_end b l : swrite (mkO b (length b)) l = mkO (b ++ l) (length (b ++ l)).
Proof.
  unfold swrite. cbn [obuf opos].
  by rewrite take_ge, drop_ge, app_nil_r, length_app by (rewrite ?length_app; lia).
Qed.

(** ** The format of a flat chunk *)

(** The type a chunk of type [t] has after it was written and read back. *)
Definition stored_type (t : Z) : Z :=
  match encodeChunkType t with Ok c => type_num (decodeChunkType c) | Err _ => 0 end.
Definition reload (f : FlatChunk) : FlatChunk :=
  mkFlat (stored_type (ftype f)) (fid f) (foffset f) (fdata f) None.

Definition flat_bytes (f : FlatChunk) : list Z :=
  le_bytes 1 (default 0 (encode !! Z.to_nat (ftype f))) ++ le_bytes 4 (fid f) ++ le_bytes 4 (foffset f) ++
  le_bytes 4 (Z.of_nat (length (fdata f))) ++ fdata f.

Record flat_ok (f : FlatChunk) : Prop := {
  ok_type : 0 <= ftype f < Z.of_nat (length encode);
  ok_id : is_u 32 (fid f);
  ok_offset : is_u 32 (foffset f);
  ok_data : Z.of_nat (length (fdata f)) < 2 ^ 32
}.

Lemma flat_bytes_length f : length (flat_bytes f) = (13 + length (fdata f))%nat.
Proof. unfold flat_bytes. rewrite !length_app, !le_bytes_length. lia. Qed.

Lemma encode_bytes : Forall (fun c => 0 <= c < 256) encode.
Proof. apply (bool_decide_unpack _). vm_compute. done. Qed.

Lemma encode_lookup t : 0 <= t < Z.of_nat (length encode) ->
  exists c, encode !! Z.to_nat t = Some c /\ encodeChunkType t = Ok c /\ 0 <= c < 256.
Proof.
  intros Ht. destruct (lookup_lt_is_Some_2 encode (Z.to_nat t)) as [c Hc]; [lia|].
  exists c. split_and!; [done| |eapply (Forall_lookup_1 _ _ _ _ encode_bytes Hc)..].
  apply load_lookup. split; [lia|done].
Qed.

Lemma getSize_small f : Z.of_nat (length (fdata f)) < 2 ^ 32 ->
  FlatChunk.getSize f = Z.of_nat (length (fdata f)).
Proof. intros H. apply wrap_small. lia. Qed.

Lemma write_flat_spec f b : flat_ok f ->
  EgalitoArchiveWriter.write_flat f (mkO b (length b)) =
    Ok (mkO (b ++ flat_bytes f) (length (b ++ flat_bytes f))).
Proof.
  intros [Ht Hi Ho Hd]. destruct (encode_lookup _ Ht) as (c & Hl & He & Hc).
  unfold EgalitoArchiveWriter.write_flat, flat_bytes. rewrite He, Hl. cbn [mbind res_bind default].
  unfold ArchiveStreamWriter.writeValue, ArchiveStreamWriter.writeFixedLengthBytes.
  rewrite getSize_small, Nat2Z.id, firstn_all by done.
  rewrite !swrite_end, <- !app_assoc. done.
Qed.

(** Reading a flat chunk from the first [k] bytes. *)
Lemma read_flat_full f k b : flat_ok f -> (length (flat_bytes f) <= k)%nat ->
  EgalitoArchiveReader.read_flat (upto k (flat_bytes f ++ b)) =
    (reload f, upto (k - length (flat_bytes f)) b).
Proof.
  intros [Ht Hi Ho Hd] Hk. destruct (encode_lookup _ Ht) as (c & Hl & He & Hc).
  rewrite flat_bytes_length in *. unfold EgalitoArchiveReader.read_flat, flat_bytes, is_u in *.
  rewrite Hl, <- !app_assoc. cbn [default].
  rewrite read_upto, read_upto, read_upto, read_upto by (cbn; lia). rewrite readBytes_upto by lia.
  unfold reload, stored_type. rewrite He. unfold FlatChunk.setOffset, FlatChunk.new. cbn.
  do 2 f_equal. lia.
Qed.

(** Whether the next field is cut, and what follows a field that was. *)
Ltac cut_field k n :=
  destruct (Nat.lt_ge_cases k n);
  [ match goal with |- context [ArchiveStreamReader.read ?m ?s] =>
      let F := fresh "F" in
      assert (failbit (ArchiveStreamReader.read m s).2 = true) as F by (apply read_upto_short; lia);
      destruct (ArchiveStreamReader.read m s); cbn in F
    end
  | rewrite read_upto by (cbn; lia) ].
Ltac fail_field :=
  match goal with
  | F : failbit ?s = true |- context [ArchiveStreamReader.read ?m ?s] =>
    pose proof (read_failed m s F); destruct (ArchiveStreamReader.read m s); cbn [snd] in *
  | F : failbit ?s = true |- context [ArchiveStreamReader.readFixedLengthBytes ?m ?s] =>
    pose proof (readBytes_failed m s F); destruct (ArchiveStreamReader.readFixedLengthBytes m s);
    cbn [snd] in *
  end.

Lemma read_flat_short f k b : flat_ok f -> (k < length (flat_bytes f))%nat ->
  failbit (EgalitoArchiveReader.read_flat (upto k (flat_bytes f ++ b))).2 = true.
Proof.
  intros [Ht Hi Ho Hd] Hk. destruct (encode_lookup _ Ht) as (c & Hl & He & Hc).
  rewrite flat_bytes_length in *. unfold EgalitoArchiveReader.read_flat, flat_bytes, is_u in *.
  rewrite Hl, <- !app_assoc. cbn [default].
  cut_field k 1%nat; [repeat fail_field; done|].
  cut_field (k - 1)%nat 4%nat; [repeat fail_field; done|].
  cut_field (k - 1 - 4)%nat 4%nat; [repeat fail_field; done|].
  cut_field (k - 1 - 4 - 4)%nat 4%nat; [repeat fail_field; done|].
  pose proof (readBytes_upto_short (k - 1 - 4 - 4 - 4) (fdata f) b) as F.
  destruct (ArchiveStreamReader.readFixedLengthBytes _ _). apply F. lia.
Qed.

(** ** Files *)

(** Flat chunks numbered from [n] on. *)
Definition numbered (n : nat) (l : list FlatChunk) : Prop :=
  Forall flat_ok l /\ forall i f, l !! i = Some f -> fid f = Z.of_nat (n + i).

Lemma numbered_cons n f l : numbered n (f :: l) ->
  flat_ok f /\ fid f = Z.of_nat n /\ numbered (S n) l.
Proof.
  intros [[Hf Hl]%Forall_cons Hi]. split_and!; [done| |split; [done|]].
  - specialize (Hi O f eq_refl). by rewrite Nat.add_0_r in Hi.
  - intros i g Hg. specialize (Hi (S i) g Hg). by rewrite <- Nat.add_succ_comm in Hi.
Qed.

Definition body (l : list FlatChunk) : list Z := concat (flat_bytes <$> l).

Lemma write_flats_spec l b : Forall flat_ok l ->
  EgalitoArchiveWriter.write_flats (Some <$> l) (mkO b (length b)) =
    Ok (mkO (b ++ body l) (length (b ++ body l))).
Proof.
  intros H. revert b. induction H as [|f l Hf _ IH]; intros b; cbn [fmap list_fmap EgalitoArchiveWriter.write_flats].
  - by rewrite app_nil_r.
  - rewrite write_flat_spec by done. cbn [mbind res_bind]. rewrite IH, <- app_assoc. done.
Qed.

Lemma addFlatChunk_next l n f : fid f = Z.of_nat (length l) -> fid f + 1 < 2 ^ 32 ->
  FlatChunkList.addFlatChunk (mkFlatList l n) f = Ok (mkFlatList (l ++ [Some f]) n).
Proof.
  intros Hi Hb. unfold FlatChunkList.addFlatChunk, FlatChunkList.getCount. cbn [flatList nextID].
  rewrite (wrap_small 32 (fid f + 1)) by lia. rewrite (proj2 (Z.ltb_lt _ _)) by lia.
  replace (Z.to_nat (fid f + 1)) with (length l + 1)%nat by lia.
  rewrite resize_ge by lia. replace (length l + 1 - length l)%nat with 1%nat by lia.
  rewrite Hi. cbn [replicate]. by rewrite store_app.
Qed.

(** The loop of the reader accepts exactly a file that holds all its chunks. *)
Lemma read_loop_spec l acc k : numbered (length acc) l ->
  Z.of_nat (length acc + length l) < 2 ^ 32 ->
  EgalitoArchiveReader.read_loop (length l) (mkFlatList acc 0) (upto k (body l)) =
    Ok (if (length (body l) <=? k)%nat then Some (mkFlatList (acc ++ (Some ∘ reload <$> l)) 0) else None).
Proof.
  revert acc k. induction l as [|f l IH]; intros acc k Hl Hb.
  { cbn. by rewrite app_nil_r. }
  apply numbered_cons in Hl as (Hf & Hi & Hl). cbn [length] in *.
  cbn [EgalitoArchiveReader.read_loop]. unfold body in *. cbn [fmap list_fmap concat].
  fold (body l) in *. rewrite length_app. destruct (Nat.lt_ge_cases k (length (flat_bytes f))) as [Hk|Hk].
  - pose proof (read_flat_short f k (body l) Hf Hk) as F.
    destruct (EgalitoArchiveReader.read_flat _) as [g s]. unfold ok. cbn in F. rewrite F. cbn [negb].
    by rewrite (proj2 (Nat.leb_gt _ _)) by lia.
  - rewrite read_flat_full by done. cbn [ok upto failbit negb].
    rewrite (addFlatChunk_next acc 0 (reload f)) by (cbn; lia). cbn [mbind res_bind].
    rewrite IH by (rewrite length_app; cbn [length]; rewrite ?Nat.add_1_r; first [done|lia]).
    rewrite <- app_assoc. cbn [app].
    destruct (Nat.leb_spec (length (body l)) (k - length (flat_bytes f)));
      destruct (Nat.leb_spec (length (flat_bytes f) + length (body l)) k); done || lia.
Qed.

(** The offsets are 32-bit numbers and nothing else changes. *)
Lemma offsets_loop_spec l t : is_u 32 t -> exists l',
  EgalitoArchiveWriter.offsets_loop (Some <$> l) t = Ok (Some <$> l') /\
  Forall2 (fun f f' => exists o, is_u 32 o /\ f' = FlatChunk.setOffset f o) l l'.
Proof.
  revert t. induction l as [|f l IH]; intros t Ht.
  { exists []. done. }
  destruct (IH (u32 (t + (2 + 4 * 3 + FlatChunk.getSize f)))) as (l' & E & H).
  { apply wrap_range; lia. }
  exists (FlatChunk.setOffset f t :: l'). rewrite fmap_cons. cbn [EgalitoArchiveWriter.offsets_loop].
  rewrite E. split; [done|]. constructor; [eauto|done].
Qed.

(** An archive whose flat chunks can be stored. *)
Record writable (a : EgalitoArchive) (l : list FlatChunk) : Prop := {
  w_flats : flatList (aflats a) = Some <$> l;
  w_ids : forall i f, l !! i = Some f -> fid f = Z.of_nat i;
  w_types : Forall (fun f => 0 <= ftype f < Z.of_nat (length encode)) l;
  w_sizes : Forall (fun f => Z.of_nat (length (fdata f)) < 2 ^ 32) l;
  w_count : Z.of_nat (length l) < 2 ^ 32
}.
Definition same_contents (f g : FlatChunk) : Prop :=
  ftype g = ftype f /\ fid g = fid f /\ fdata g = fdata f /\ finstance g = finstance f.

Definition header (l : list FlatChunk) : list Z :=
  SIGNATURE ++ le_bytes 4 VERSION ++ le_bytes 4 (Z.of_nat (length l)).

Lemma header_length l : length (header l) = 16%nat.
Proof. unfold header. by rewrite !length_app, !le_bytes_length. Qed.

(** What [write] does: the chunks keep their contents, and the file is the
    header and the chunks one after the other. *)
Lemma write_spec a l : writable a l -> exists l',
  EgalitoArchiveWriter.write a =
    Ok (header l ++ body l', mkArchive (mkFlatList (Some <$> l') (nextID (aflats a))) (sourceFilename a) (version a)) /\
  Forall2 same_contents l l' /\ numbered 0 l' /\ length l' = length l.
Proof.
  intros [Hl Hi Ht Hs Hc].
  destruct (offsets_loop_spec l (u32 (u32 (u32 (Z.of_nat (length SIGNATURE)) + 4) + 4))) as (l' & E & H).
  { apply wrap_range; lia. }
  assert (length l' = length l) as Hlen by (symmetry; by eapply Forall2_length).
  assert (Forall2 same_contents l l') as Hsame.
  { eapply Forall2_impl; [exact H|]. intros f f' (o & _ & ->). done. }
  assert (numbered 0 l') as Hnum.
  { assert (forall i f', l' !! i = Some f' -> flat_ok f' /\ fid f' = Z.of_nat i) as Hall.
    { intros i f' Hf'. destruct (Forall2_lookup_r _ _ _ _ _ H Hf') as (f & Hf & o & Ho & ->).
      pose proof (lookup_lt_Some _ _ _ Hf). rewrite Forall_lookup in Ht, Hs.
      specialize (Hi _ _ Hf). split; [|done].
      split; cbn; [by eapply Ht|unfold is_u; lia|done|by eapply Hs]. }
    split; [apply Forall_lookup; intros; by eapply Hall|]. intros i f' Hf'. by apply Hall. }
  exists l'. split_and!; [|done..].
  unfold EgalitoArchiveWriter.write, EgalitoArchiveWriter.assignOffsets. rewrite Hl, E. cbn [mbind res_bind].
  unfold EgalitoArchiveWriter.writeData. cbn [aflats flatList FlatChunkList.getCount].
  change (mkO [] 0) with (mkO [] (length (@nil Z))).
  unfold ArchiveStreamWriter.writeFixedLengthBytes_c, ArchiveStreamWriter.writeValue.
  rewrite !swrite_end, write_flats_spec by apply Hnum. cbn [mbind res_bind obuf].
  unfold FlatChunkList.getCount, header. cbn [flatList]. rewrite length_fmap, Hlen, <- !app_assoc. done.
Qed.

(** The header of a file cut after [k] bytes. *)
Lemma readHeader_spec l b k : Z.of_nat (length l) < 2 ^ 32 ->
  (EgalitoArchiveReader.readHeader (upto k (header l ++ b))).1 =
    (if (k <? 12)%nat then None
     else if (k <? 16)%nat then Some (None, VERSION) else Some (Some (Z.of_nat (length l)), VERSION)) /\
  ((16 <= k)%nat -> (EgalitoArchiveReader.readHeader (upto k (header l ++ b))).2 = upto (k - 16) b).
Proof.
  intros Hl. unfold EgalitoArchiveReader.readHeader, header. rewrite <- !app_assoc.
  change (length (c_text (SIGNATURE ++ [0]))) with (length SIGNATURE).
  destruct (Nat.lt_ge_cases k 8).
  { rewrite (proj2 (Nat.ltb_lt k 12)) by lia. split; [|lia].
    pose proof (readBytes_upto_short k SIGNATURE (le_bytes 4 VERSION ++ le_bytes 4 (Z.of_nat (length l)) ++ b)) as F.
    destruct (ArchiveStreamReader.readFixedLengthBytes _ _) as [line s]. cbn in F.
    unfold ArchiveStreamReader.stillGood, good. rewrite F by lia. by rewrite andb_false_r. }
  rewrite readBytes_upto by done. cbn [ArchiveStreamReader.stillGood good upto eofbit failbit negb andb orb].
  rewrite bool_decide_true by done. cbn [negb].
  unfold ArchiveStreamReader.readInto. rewrite sread_upto by apply le_bytes_length.
  change (length SIGNATURE) with 8%nat.
  destruct (Nat.leb_spec 4 (k - 8)).
  2:{ rewrite (proj2 (Nat.ltb_lt k 12)) by lia. cbn. split; [done|lia]. }
  rewrite (proj2 (Nat.ltb_ge k 12)) by lia. cbn [ok upto failbit negb].
  rewrite overlay_full by (by rewrite !le_bytes_length).
  change (le_value (le_bytes 4 VERSION)) with VERSION. rewrite Z.ltb_irrefl.
  rewrite sread_upto by apply le_bytes_length. destruct (Nat.leb_spec 4 (k - 8 - 4)).
  - rewrite (proj2 (Nat.ltb_ge k 16)) by lia. rewrite overlay_full by (by rewrite !le_bytes_length).
    rewrite le_value_bytes by (cbn; lia). split; [done|]. intros _. cbn [snd].
    f_equal. lia.
  - rewrite (proj2 (Nat.ltb_lt k 16)) by lia. split; [done|lia].
Qed.

(** What [read] makes of the first [k] bytes of a file. *)
Lemma read_cut name l k : numbered 0 l -> Z.of_nat (length l) < 2 ^ 32 ->
  EgalitoArchiveReader.read name (Some (take k (header l ++ body l))) =
    (if (k <? 12)%nat then Ok None
     else if (k <? 16)%nat then Err Undefined
     else if (k <? 16 + length (body l))%nat then Ok None
     else Ok (Some (mkArchive (mkFlatList (Some ∘ reload <$> l) 0) name VERSION))).
Proof.
  intros Hl Hb. destruct (readHeader_spec l (body l) k Hb) as [H1 H2].
  unfold EgalitoArchiveReader.read. fold (upto k (header l ++ body l)).
  destruct (EgalitoArchiveReader.readHeader _) as [r s]. cbn [fst snd] in *.
  destruct (Nat.ltb_spec k 12); [by subst|]. destruct (Nat.ltb_spec k 16); [by subst|].
  rewrite H1, H2 by lia. rewrite Nat2Z.id.
  unfold FlatChunkList.empty. rewrite (read_loop_spec l [] (k - 16)) by (done || (cbn; lia)). cbn [mbind res_bind app].
  destruct (Nat.leb_spec (length (body l)) (k - 16)), (Nat.ltb_spec k (16 + length (body l))); done || lia.
Qed.

(** ** Properties *)

(** C37: writing an archive whose chunks are numbered by their place, with types
    the table [encode] has an entry for, and reading the file back gives the
    same chunks: number, offset and data are kept, and so are the types up to
    [TYPE_DataRegionList]; the other types become [stored_type]. *)
Theorem archive_roundtrip a l name : writable a l ->
  exists file l',
    EgalitoArchiveWriter.write a =
      Ok (file, mkArchive (mkFlatList (Some <$> l') (nextID (aflats a))) (sourceFilename a) (version a)) /\
    Forall2 same_contents l l' /\
    EgalitoArchiveReader.read name (Some file) =
      Ok (Some (mkArchive (mkFlatList (Some ∘ reload <$> l') 0) name VERSION)) /\
    (forall t, 0 <= t <= type_num TYPE_DataRegionList -> stored_type t = t).
Proof.
  intros Ha. destruct (write_spec a l Ha) as (l' & Hw & Hsame & Hnum & Hlen).
  exists (header l ++ body l'), l'. split_and!; [done..| |].
  - pose proof (read_cut name l' (length (header l' ++ body l')) Hnum) as R.
    rewrite Hlen in R. specialize (R (w_count _ _ Ha)). rewrite firstn_all in R.
    replace (header l') with (header l) in * by (unfold header; by rewrite Hlen).
    rewrite length_app, header_length, !(proj2 (Nat.ltb_ge _ _)) in R by lia. done.
  - intros t Ht. cbn in Ht.
    assert (t = 0 \/ t = 1 \/ t = 2 \/ t = 3 \/ t = 4 \/ t = 5 \/ t = 6) by lia. destruct_or?; by subst.
Qed.

(** C38: a file that was cut is refused: reading a proper prefix of an archive
    returns null, except when the cut is inside the number of chunks, which is
    then used without having a value. *)
Theorem archive_truncated a l name file a' k : writable a l ->
  EgalitoArchiveWriter.write a = Ok (file, a') -> (k < length file)%nat ->
  EgalitoArchiveReader.read name (Some (take k file)) =
    if (12 <=? k)%nat && (k <? 16)%nat then Err Undefined else Ok None.
Proof.
  intros Ha Hw Hk. destruct (write_spec a l Ha) as (l' & Hw' & _ & Hnum & Hlen).
  assert (file = header l ++ body l') as -> by congruence. clear Hw Hw'.
  replace (header l) with (header l') in * by (unfold header; by rewrite Hlen).
  rewrite length_app, header_length in Hk. rewrite read_cut by (rewrite ?Hlen; apply Hnum || apply Ha).
  destruct (Nat.ltb_spec k 12), (Nat.leb_spec 12 k); try lia; [done|]. cbn [andb].
  destruct (Nat.ltb_spec k 16); [done|]. by rewrite (proj2 (Nat.ltb_lt _ _)) by lia.
Qed.

(** The types from [TYPE_InitFunctionList] on that the table has an entry for
    come back as another type, and the last ones are outside the table. *)
Lemma stored_type_wrong t : type_num TYPE_InitFunctionList <= type_num t ->
  (type_num t < Z.of_nat (length encode) -> stored_type (type_num t) <> type_num t) /\
  (Z.of_nat (length encode) <= type_num t -> encodeChunkType (type_num t) = Err OutOfBounds).
Proof. destruct t; cbn; intros; split; intros; try lia; done. Qed.

Definition one_flat (t : EgalitoChunkType) : EgalitoArchive :=
  mkArchive (mkFlatList [Some (FlatChunk.new (type_num t) 0 [1; 2; 3])] 1) "(in-memory)" VERSION.
Definition reread (t : EgalitoChunkType) : res (option EgalitoChunkType) :=
  '(file, _) ← EgalitoArchiveWriter.write (one_flat t);
  a ← EgalitoArchiveReader.read "f" (Some file);
  match a with None => Err NullDeref | Some a => f ← FlatChunkList.get (aflats a) 0; instantiate f end.

(** the tables of [encodeChunkType] and of [instantiate] lack the entries of
    three types of the enumeration, so that a function that is written to an
    archive is created again as an instruction, a block as a PLT trampoline, an
    external symbol list as a vtable list, and a library cannot be written. *)
Theorem archive_confuses_types :
  reread TYPE_FunctionList = Ok (Some TYPE_FunctionList) /\
  reread TYPE_Function = Ok (Some TYPE_Instruction) /\
  reread TYPE_Block = Ok (Some TYPE_PLTTrampoline) /\
  reread TYPE_ExternalSymbolList = Ok (Some TYPE_VTableList) /\
  reread TYPE_Library = Err OutOfBounds.
Proof. vm_compute. done. Qed.

(** *** Offsets *)

(** [assignOffsets] counts two bytes for the type and [writeData] writes one: the
    chunk of number [i] starts [i] bytes before its offset. *)
Example offsets_drift :
  forall file a, EgalitoArchiveWriter.write (mkArchive (mkFlatList
    [Some (FlatChunk.new 1 0 []); Some (FlatChunk.new 2 1 []); Some (FlatChunk.new 3 2 [])] 3) "f" 24)
    = Ok (file, a) ->
  foffset <$> omap id (flatList (aflats a)) = [16; 30; 44] /\
  take 1 (drop 16 file) = chars "P" /\ take 1 (drop (30 - 1) file) = chars "M" /\
  take 1 (drop (44 - 2) file) = chars "F".
Proof. intros file a H. vm_compute in H. simplify_eq. done. Qed.

(** ** Numbers of chunks *)

Section ids.
Import ArchiveIDOperations.

(** Assigned numbers are different, and below the next one. *)
Definition ids_ok (op : ArchiveIDOperations) : Prop :=
  nextID (aflats (oarchive op)) = Z.of_nat (size (assignment op)) /\
  (forall o id, assignment op !! o = Some id -> 0 <= id < nextID (aflats (oarchive op))) /\
  (forall o1 o2 id, assignment op !! o1 = Some id -> assignment op !! o2 = Some id -> o1 = o2).

(** A sequence of requests, and the numbers it gets. *)
Fixpoint assign_all (op : ArchiveIDOperations) (l : list (option Z)) : list Z * ArchiveIDOperations :=
  match l with
  | [] => ([], op)
  | o :: l => let '(id, op) := assign op o in
              let '(ids, op) := assign_all op l in (id :: ids, op)
  end.
Definition room (op : ArchiveIDOperations) (n : nat) : Prop :=
  Z.of_nat (size (assignment op) + n) <= NoneID.

Lemma assign_spec op o : ids_ok op -> room op 1 ->
  let '(id, op') := assign op (Some o) in
  ids_ok op' /\ assignment op ⊆ assignment op' /\ assignment op' !! o = Some id /\
  0 <= id < NoneID /\ (size (assignment op') <= size (assignment op) + 1)%nat.
Proof.
  intros (Hn & Hr & Hi) Hb. unfold room in Hb. unfold assign. destruct (assignment op !! o) as [id|] eqn:E.
  { pose proof (Hr _ _ E). split_and!; try done; lia. }
  cbn [FlatChunkList.getNextID].
  assert (NoneID = 2 ^ 32 - 1) as HN by done.
  assert (size (<[o:=nextID (aflats (oarchive op))]> (assignment op)) = S (size (assignment op))) as Hsz
    by (by apply map_size_insert_None).
  split_and!; cbn [assignment oarchive aflats nextID]; [|by apply insert_subseteq|by rewrite lookup_insert_eq|lia..].
  unfold ids_ok. cbn [assignment oarchive aflats nextID].
  rewrite Hsz, (wrap_small 32) by lia. split_and!; [lia| |].
  - intros o' id'. rewrite lookup_insert_Some. intros [[<- <-]|[_ H]]; [lia|]. apply Hr in H. lia.
  - intros o1 o2 id'. rewrite !lookup_insert_Some.
    intros [[<- <-]|[_ H1]] [[<- E2]|[_ H2]]; try done; [apply Hr in H2; lia|apply Hr in H1; lia|by eapply Hi].
Qed.

Lemma assign_all_spec l op : ids_ok op -> room op (length l) ->
  let '(ids, op') := assign_all op l in
  ids_ok op' /\ assignment op ⊆ assignment op' /\
  Forall2 (fun o id => match o with Some o => assignment op' !! o = Some id /\ id <> NoneID
                       | None => id = NoneID end) l ids.
Proof.
  revert op. induction l as [|o l IH]; intros op Hop Hb; cbn [assign_all].
  { split_and!; done. }
  cbn [length] in Hb. destruct o as [o|].
  - pose proof (assign_spec op o Hop) as H. destruct (assign op (Some o)) as [id op1].
    destruct H as (Hop1 & Hs1 & Ho & Hid & Hsz); [unfold room in *; lia|].
    specialize (IH op1 Hop1). destruct (assign_all op1 l) as [ids op2].
    destruct IH as (Hop2 & Hs2 & Hf); [unfold room in *; lia|].
    split_and!; [done|by etrans|]. constructor; [|done]. split; [|lia].
    by eapply lookup_weaken.
  - cbn [assign]. specialize (IH op Hop). destruct (assign_all op l) as [ids op2].
    destruct IH as (Hop2 & Hs2 & Hf); [unfold room in *; lia|]. split_and!; [done..|]. by constructor.
Qed.

(** along any sequence of requests that is not longer than the range of
    numbers, [assign] gives null objects [NoneID], the same number for the same
    object and different numbers for different objects. *)
Theorem assign_injective a l :
  nextID (aflats a) = 0 -> Z.of_nat (length l) <= NoneID ->
  let ids := (assign_all (new a) l).1 in
  length ids = length l /\
  forall i j oi oj, l !! i = Some oi -> l !! j = Some oj ->
    (ids !! i = ids !! j <-> oi = oj) /\ (ids !! i = Some NoneID <-> oi = None).
Proof.
  intros Ha Hb. pose proof (assign_all_spec l (new a)) as H. destruct (assign_all (new a) l) as [ids op].
  destruct H as ((_ & _ & Hi) & _ & Hf).
  { split_and!; cbn; [by rewrite Ha, map_size_empty|intros *; by rewrite lookup_empty..]. }
  { unfold room. cbn. rewrite map_size_empty. lia. }
  cbn [fst]. split; [symmetry; by eapply Forall2_length|]. intros i j oi oj Hli Hlj.
  destruct (Forall2_lookup_l _ _ _ _ _ Hf Hli) as (xi & Hxi & Pi).
  destruct (Forall2_lookup_l _ _ _ _ _ Hf Hlj) as (xj & Hxj & Pj). rewrite Hxi, Hxj.
  destruct oi, oj; destruct_and?; split; split; intros; simplify_eq; try done.
  f_equal. by eapply Hi.
Qed.
End ids.

(** ** Examples *)
Module ArchiveExamples.
Definition three : list FlatChunk :=
  [FlatChunk.new 1 0 [7; 0; 255]; FlatChunk.new 2 1 []; FlatChunk.new 11 2 (chars "main")].
Definition archive : EgalitoArchive := mkArchive (mkFlatList (Some <$> three) 3) "(in-memory)" VERSION.

Lemma archive_writable : writable archive three.
Proof.
  split; [done| |repeat constructor; vm_compute; done..|done].
  intros [|[|[|i]]] f H; cbn in H; by simplify_eq.
Qed.

Lemma archive_roundtrip_witness : exists file l',
  EgalitoArchiveWriter.write archive =
    Ok (file, mkArchive (mkFlatList (Some <$> l') 3) "(in-memory)" VERSION) /\
  EgalitoArchiveReader.read "f" (Some file) =
    Ok (Some (mkArchive (mkFlatList (Some ∘ reload <$> l') 0) "f" VERSION)).
Proof.
  destruct (archive_roundtrip archive three "f" archive_writable) as (file & l' & H1 & _ & H2 & _).
  exists file, l'. split; [exact H1|exact H2].
Defined.

Lemma archive_truncated_witness : exists file a',
  EgalitoArchiveWriter.write archive = Ok (file, a') /\
  EgalitoArchiveReader.read "f" (Some (take 40 file)) = Ok None /\
  EgalitoArchiveReader.read "f" (Some (take 13 file)) = Err Undefined.
Proof.
  destruct (EgalitoArchiveWriter.write archive) as [[file a']|e] eqn:E; [|vm_compute in E; discriminate E].
  exists file, a'. split; [reflexivity|].
  assert (length file = 62%nat) as Hl by (vm_compute in E; injection E as <- <-; reflexivity).
  split.
  - exact (archive_truncated archive three "f" file a' 40 archive_writable E ltac:(lia)).
  - exact (archive_truncated archive three "f" file a' 13 archive_writable E ltac:(lia)).
Defined.

Lemma assign_injective_witness :
  (assign_all (ArchiveIDOperations.new new_archive) [Some 5; None; Some 6; Some 5]).1 = [0; NoneID; 1; 0] /\
  length (assign_all (ArchiveIDOperations.new new_archive) [Some 5; None; Some 6; Some 5]).1 = 4%nat.
Proof.
  split; [reflexivity|].
  exact (proj1 (assign_injective new_archive [Some 5; None; Some 6; Some 5] eq_refl ltac:(vm_compute; congruence))).
Defined.
End ArchiveExamples.
