(* ===== verification/RegBits.v ===== *)
(** * Register fields of AArch64 instructions: src/disasm/aarch64-regbits.h and
      aarch64-regbits.cpp

    [AARCH64RegBits] finds the register fields an instruction word reads and
    writes, from its encoding class, and replaces one register by another. *)

From Stdlib Require Import Ascii.
From S2P Require Import Prelude.

(** ** The code *)

(** Positions of the fields that are read and that are written. *)
Abbreviation RegPositionsList := (list Z * list Z)%type.

Record AARCH64RegBits := mkRegBits { bin : Z; cached : bool; rlist : RegPositionsList }.

Module AARCH64RegBits.
Definition regMask : Z := 0x1F.

(** [(bin & mask) == value] *)
Definition masked (b mask value : Z) : bool := Z.land b mask =? value.

Definition makeDPImm_RegPositionList (b : Z) : RegPositionsList :=
  if masked b 0x1F000000 0x11000000 || masked b 0x1F800000 0x13000000 || masked b 0x1F800000 0x12000000
  then ([5], [0])
  else if masked b 0x1F800000 0x13800000 then ([5; 16], [0])
  else if masked b 0x1F800000 0x12800000 || masked b 0x1F000000 0x10000000 then ([], [0])
  else ([], []).

Definition makeBranch_RegPositionList (b : Z) : RegPositionsList :=
  if masked b 0xFE000000 0x34000000 || masked b 0x7E000000 0x36000000 then ([0], [])
  else if masked b 0xFFC00000 0xD5000000 then
    let L := Z.land (Z.shiftr b 21) 1 in
    let op0 := Z.land (Z.shiftr b 19) 3 in
    if L =? 0 then if (op0 =? 1) || (Z.land op0 3 =? 3) then ([0], []) else ([], [])
    else if L =? 1 then ([], [0]) else ([], [])
  else if masked b 0xFE000000 0xD6000000 then ([5], [])
  else ([], []).

(** [(bin & 0x04000000 >> (26 - 2)) | (bin & 0x00C00000 >> 22)]: the shifts bind
    tighter than the masks. *)
Definition ldst_kind (b : Z) : Z :=
  Z.lor (Z.land b (Z.shiftr 0x04000000 (26 - 2))) (Z.land b (Z.shiftr 0x00C00000 22)).
Definition is_load (kind : Z) : bool := existsb (Z.eqb kind) [1; 2; 3; 5; 7].
Definition is_store (kind : Z) : bool := existsb (Z.eqb kind) [0; 4; 6].

(** The immediate forms of loads and stores of one register. *)
Definition ldst_immediate (b : Z) : bool :=
  masked b 0x3B200C00 0x38000400 || masked b 0x3B200C00 0x38000C00 || masked b 0x3B200C00 0x38000800 ||
  masked b 0x3B200C00 0x38000000 || masked b 0x3B000C00 0x39000000.
Definition ldst_register (b : Z) : bool := masked b 0x3B200C00 0x38200800.
Definition ldst_pair (b : Z) : bool :=
  masked b 0x3BC00000 0x28000000 || masked b 0x3B800000 0x29000000 || masked b 0x3B800000 0x28800000 ||
  masked b 0x3B800000 0x29800000.

(** [None]: the early return, which leaves the list as it was. *)
Definition makeLDST_RegPositionList (b : Z) : option RegPositionsList :=
  if Z.land (Z.shiftr b 28) 3 =? 0 then None
  else Some (
    if masked b 0x3B000000 0x18000000 then ([], [0])
    else if ldst_immediate b then
      let writeback := negb (Z.land (Z.shiftr b 10) 1 =? 0) in
      if is_load (ldst_kind b) then ([5], if writeback then [0; 5] else [0])
      else if is_store (ldst_kind b) then ([0; 5], if writeback then [5] else [])
      else ([], [])
    else if ldst_register b then
      if is_load (ldst_kind b) then ([5; 16], [0])
      else if is_store (ldst_kind b) then ([0; 5; 16], [])
      else ([], [])
    else if ldst_pair b then
      let writeback := negb (Z.land (Z.shiftr b 23) 1 =? 0) in
      if negb (Z.land (Z.shiftr b 22) 1 =? 0) then ([5], if writeback then [0; 10; 5] else [0; 10])
      else ([0; 5; 10], if writeback then [5] else [])
    else ([], [])).

Definition makeDPIReg_RegPositionList (b : Z) : RegPositionsList :=
  if masked b 0x1F200000 0x0B200000 || masked b 0x1F200000 0x0B000000 || masked b 0x1FE00000 0x1A000000 ||
     masked b 0x1FE00800 0x1A400000 || masked b 0x3FE00000 0x1AC00000 || masked b 0x1F000000 0x0A000000
  then ([5; 16], [0])
  else if masked b 0x1FE00800 0x1A400800 then ([5], [])
  else if masked b 0x1FE00000 0x1A800000 then ([5; 16], [0])
  else if masked b 0x3FE00000 0x3AC00000 then ([5], [0])
  else if masked b 0x1F000000 0x1A000000 then ([5; 10; 16], [0])
  else ([], []).

(** The categories of [getRegPositionList], in the order of the tests. *)
Inductive category := DPImm | Branch | LDST | DPReg | Unhandled.
Definition category_of (b : Z) : category :=
  let op0 := Z.land (Z.shiftr b 25) 0xF in
  if Z.land op0 14 =? 8 then DPImm
  else if Z.land op0 10 =? 10 then Branch
  else if Z.land op0 5 =? 4 then LDST
  else if Z.land op0 7 =? 5 then DPReg
  else Unhandled.

Definition invalidateCache (r : AARCH64RegBits) : AARCH64RegBits := mkRegBits (bin r) false ([], []).

Definition getRegPositionList (r : AARCH64RegBits) : RegPositionsList * AARCH64RegBits :=
  if cached r then (rlist r, r)
  else
    let set l := (l, mkRegBits (bin r) true l) in
    match category_of (bin r) with
    | DPImm => set (makeDPImm_RegPositionList (bin r))
    | Branch => set (makeBranch_RegPositionList (bin r))
    | LDST => set (match makeLDST_RegPositionList (bin r) with Some l => l | None => rlist r end)
    | DPReg => set (makeDPIReg_RegPositionList (bin r))
    | Unhandled => (rlist r, r)
    end.

(** [decode] of a buffer of unsigned characters. *)
Definition decode (r : AARCH64RegBits) (bytes : list Z) : res AARCH64RegBits :=
  b3 ← load bytes 3; b2 ← load bytes 2; b1 ← load bytes 1; b0 ← load bytes 0;
  let b := Z.lor (Z.lor (Z.lor (Z.shiftl b3 24) (Z.shiftl b2 16)) (Z.shiftl b1 8)) b0 in
  Ok (invalidateCache (mkRegBits (u32 b) (cached r) (rlist r))).
Definition encode (r : AARCH64RegBits) (bytes : list Z) : res (list Z) :=
  bytes ← store bytes 0 (Z.land (Z.shiftr (bin r) 0) 0xFF);
  bytes ← store bytes 1 (Z.land (Z.shiftr (bin r) 8) 0xFF);
  bytes ← store bytes 2 (Z.land (Z.shiftr (bin r) 16) 0xFF);
  store bytes 3 (Z.land (Z.shiftr (bin r) 24) 0xFF).

(** [bin >> pos & regMask] *)
Definition field (b pos : Z) : Z := Z.land (Z.shiftr b pos) regMask.
(** Registers are given by their encoding. *)
Definition isReading (r : AARCH64RegBits) (reg : Z) : bool * AARCH64RegBits :=
  let '(l, r) := getRegPositionList r in (existsb (fun rpos => field (bin r) rpos =? reg) l.1, r).
Definition isWriting (r : AARCH64RegBits) (reg : Z) : bool * AARCH64RegBits :=
  let '(l, r) := getRegPositionList r in (existsb (fun wpos => field (bin r) wpos =? reg) l.2, r).

(** The body and the loop of [replaceRegister]. *)
Definition replace_at (oldReg newReg b pos : Z) : Z :=
  if field b pos =? oldReg
  then Z.lor (Z.land b (u32 (Z.lnot (u32 (Z.shiftl regMask pos))))) (u32 (Z.shiftl newReg pos))
  else b.
Fixpoint replace_loop (oldReg newReg : Z) (l : list Z) (b : Z) : Z :=
  match l with [] => b | pos :: l => replace_loop oldReg newReg l (replace_at oldReg newReg b pos) end.
Definition replaceRegister (r : AARCH64RegBits) (oldReg newReg : Z) : AARCH64RegBits :=
  let '(l, r) := getRegPositionList r in
  let b := replace_loop oldReg newReg l.1 (bin r) in
  let b := replace_loop oldReg newReg l.2 b in
  invalidateCache (mkRegBits b (cached r) (rlist r)).
End AARCH64RegBits.
Import AARCH64RegBits.

#[export] Instance category_eq_dec : EqDecision category.
Proof. solve_decision. Defined.

(** ** Fields *)

(** The positions of an instruction word. *)
Definition positions (b : Z) : RegPositionsList :=
  match category_of b with
  | DPImm => makeDPImm_RegPositionList b
  | Branch => makeBranch_RegPositionList b
  | LDST => match makeLDST_RegPositionList b with Some l => l | None => ([], []) end
  | DPReg => makeDPIReg_RegPositionList b
  | Unhandled => ([], [])
  end.
(** A decoder whose cache, if filled, is that of its word. *)
Definition coherent (r : AARCH64RegBits) : Prop :=
  rlist r = if cached r then positions (bin r) else ([], []).

Lemma getRegPositionList_spec r : coherent r ->
  (getRegPositionList r).1 = positions (bin r) /\ coherent (getRegPositionList r).2 /\
  bin (getRegPositionList r).2 = bin r.
Proof.
  unfold coherent, getRegPositionList, positions. destruct r as [b [] l]; cbn; [done|].
  intros ->. destruct (category_of b) eqn:E; cbn; rewrite ?E; done.
Qed.

Abbreviation field_positions := [0; 5; 10; 16].

Lemma positions_fields b : Forall (.∈ field_positions) ((positions b).1 ++ (positions b).2).
Proof.
  unfold positions, makeDPImm_RegPositionList, makeBranch_RegPositionList, makeLDST_RegPositionList,
    makeDPIReg_RegPositionList.
  repeat case_match; simplify_eq; apply (bool_decide_unpack _); exact I.
Qed.

Lemma field_bits b p i : 0 <= p -> 0 <= i -> Z.testbit (field b p) i = Z.testbit b (i + p) && (i <? 5).
Proof.
  intros Hp Hi. unfold field, regMask. change 0x1F with (Z.ones 5).
  rewrite Z.land_spec, Z.shiftr_spec by lia. f_equal.
  destruct (Z.ltb_spec i 5); [by apply Z.ones_spec_low|apply Z.ones_spec_high; lia].
Qed.

Lemma field_range b p : 0 <= field b p < 32.
Proof.
  unfold field, regMask. change 0x1F with (Z.ones 5). rewrite Z.land_ones by lia.
  apply Z.mod_pos_bound. lia.
Qed.

(** The bits after one replacement. *)
Lemma replace_at_bits old new b p i : is_u 32 b -> 0 <= new < 32 -> p ∈ field_positions -> 0 <= i ->
  Z.testbit (replace_at old new b p) i =
    if (field b p =? old) && (p <=? i) && (i <? p + 5) then Z.testbit new (i - p) else Z.testbit b i.
Proof.
  intros Hb Hn Hp Hi. assert (0 <= p <= 16) as Hpr by (members Hp; lia).
  unfold replace_at. destruct (field b p =? old); cbn [andb]; [|done].
  assert (forall j, 0 <= j -> Z.testbit (u32 (Z.shiftl new p)) j = (p <=? j) && Z.testbit new (j - p)) as Hs.
  { intros j Hj. rewrite wrap_small.
    2:{ rewrite Z.shiftl_mul_pow2 by lia. assert (2 ^ p <= 2 ^ 16) by (apply Z.pow_le_mono_r; lia). nia. }
    rewrite Z.shiftl_spec by lia. destruct (Z.leb_spec p j); [done|]. by rewrite Z.testbit_neg_r by lia. }
  assert (forall j, 0 <= j < 32 -> Z.testbit (u32 (Z.lnot (u32 (Z.shiftl regMask p)))) j =
    negb ((p <=? j) && (j <? p + 5))) as Hm.
  { intros j Hj. unfold wrap at 1. rewrite Z.mod_pow2_bits_low, Z.lnot_spec by lia. f_equal.
    unfold wrap. rewrite Z.mod_pow2_bits_low, Z.shiftl_spec by lia. unfold regMask. change 0x1F with (Z.ones 5).
    destruct (Z.leb_spec p j); [|by rewrite Z.testbit_neg_r by lia]. cbn [andb].
    destruct (Z.ltb_spec j (p + 5)); [apply Z.ones_spec_low; lia|apply Z.ones_spec_high; lia]. }
  rewrite Z.lor_spec, Z.land_spec, Hs by lia. destruct (Z.lt_ge_cases i 32).
  - rewrite Hm by lia. destruct (Z.leb_spec p i), (Z.ltb_spec i (p + 5)); cbn [andb negb].
    + by rewrite andb_false_r.
    + rewrite andb_true_r, (testbit_high 5 new) by lia. apply orb_false_r.
    + by rewrite andb_true_r, orb_false_r.
    + by rewrite andb_true_r, orb_false_r.
  - rewrite (testbit_high 32 b), (testbit_high 5 new) by (unfold is_u in *; lia). rewrite andb_false_r. cbn.
    by destruct ((p <=? i) && (i <? p + 5)).
Qed.

Lemma replace_at_u32 old new b p : is_u 32 b -> 0 <= new < 32 -> p ∈ field_positions ->
  is_u 32 (replace_at old new b p).
Proof.
  intros Hb Hn Hp. assert (0 <= replace_at old new b p) as H0.
  { unfold replace_at. destruct (_ =? _); [|apply Hb]. apply Z.lor_nonneg. split.
    - apply Z.land_nonneg. left. apply Hb.
    - apply wrap_range. lia. }
  split; [done|]. apply bits_small; [lia| |done]. intros i Hi.
  rewrite replace_at_bits by (done || lia). assert (0 <= p <= 16) by (members Hp; lia).
  rewrite (proj2 (Z.ltb_ge i (p + 5))) by lia. rewrite andb_false_r. apply (testbit_high 32); done || lia.
Qed.

(** What a replacement does to a register number. *)
Definition renamed (old new r : Z) : Z := if r =? old then new else r.

Lemma field_replace_at old new b p q : is_u 32 b -> 0 <= new < 32 -> p ∈ field_positions -> q ∈ field_positions ->
  field (replace_at old new b p) q = if q =? p then renamed old new (field b q) else field b q.
Proof.
  intros Hb Hn Hp Hq. assert (0 <= q <= 16) by (members Hq; lia).
  apply Z.bits_inj'. intros i Hi. rewrite field_bits, replace_at_bits by (done || lia).
  unfold renamed. destruct (Z.eqb_spec q p) as [->|Hne].
  - destruct (field b p =? old) eqn:E; cbn [andb]; [|by rewrite field_bits by lia].
    rewrite (proj2 (Z.leb_le p (i + p))) by lia. cbn [andb]. rewrite Z.add_simpl_r.
    destruct (Z.ltb_spec (i + p) (p + 5)), (Z.ltb_spec i 5); try lia.
    + apply andb_true_r.
    + by rewrite andb_false_r, (testbit_high 5 new) by lia.
  - rewrite field_bits by lia. destruct (Z.ltb_spec i 5); [|by rewrite !andb_false_r]. rewrite !andb_true_r.
    destruct (Z.leb_spec p (i + q)), (Z.ltb_spec (i + q) (p + 5)); rewrite ?andb_false_r; try done.
    exfalso. members Hp; members Hq; lia.
Qed.

(** The loop over a list of positions. *)
Lemma replace_loop_spec old new l : forall b, is_u 32 b -> 0 <= new < 32 -> Forall (.∈ field_positions) l ->
  is_u 32 (replace_loop old new l b) /\
  (forall q, q ∈ field_positions ->
     field (replace_loop old new l b) q = if bool_decide (q ∈ l) then renamed old new (field b q) else field b q) /\
  (forall i, 0 <= i -> (forall p, p ∈ l -> ~ p <= i < p + 5) -> Z.testbit (replace_loop old new l b) i = Z.testbit b i).
Proof.
  induction l as [|p l IH]; intros b Hb Hn Hl; cbn [replace_loop].
  { split_and!; [done|by intros|by intros]. }
  apply Forall_cons in Hl as [Hp Hl]. pose proof (replace_at_u32 old new b p Hb Hn Hp) as Hb'.
  destruct (IH _ Hb' Hn Hl) as (H1 & H2 & H3). split_and!; [done| |].
  - intros q Hq. rewrite H2, field_replace_at by done. unfold renamed.
    destruct (Z.eqb_spec q p) as [->|Hne].
    + rewrite (bool_decide_true (p ∈ p :: l)) by set_solver. destruct (bool_decide (p ∈ l)); [|done].
      destruct (field b p =? old) eqn:E; [by destruct (new =? old)|by rewrite E].
    + by rewrite (bool_decide_ext (q ∈ p :: l) (q ∈ l)) by set_solver.
  - intros i Hi Hout. rewrite H3 by (done || set_solver). rewrite replace_at_bits by done.
    specialize (Hout p). destruct (Z.leb_spec p i), (Z.ltb_spec i (p + 5)); rewrite ?andb_false_r; try done.
    exfalso. apply Hout; [set_solver|lia].
Qed.

(** ** Stability of the positions *)

(** Words that agree on the bits of a mask. *)
Definition agree (K b b' : Z) : Prop := Z.land b K = Z.land b' K.

Lemma agree_on_bits K b b' : 0 <= b -> 0 <= b' ->
  (forall i, 0 <= i -> Z.testbit K i = true -> Z.testbit b i = Z.testbit b' i) -> agree K b b'.
Proof.
  intros _ _ H. unfold agree. apply Z.bits_inj'. intros i Hi. rewrite !Z.land_spec.
  destruct (Z.testbit K i) eqn:E; [by rewrite H|by rewrite !andb_false_r].
Qed.
Lemma agree_land K b b' m : agree K b b' -> Z.land K m = m -> Z.land b m = Z.land b' m.
Proof. intros H E. by rewrite <- E, !Z.land_assoc, H. Qed.
Lemma agree_shift K b b' s m : agree K b b' -> Z.land (Z.shiftr K s) m = m ->
  Z.land (Z.shiftr b s) m = Z.land (Z.shiftr b' s) m.
Proof. intros H E. by rewrite <- E, !Z.land_assoc, <- !Z.shiftr_land, H. Qed.
Lemma agree_masked K b b' m v : agree K b b' -> Z.land K m = m -> masked b m v = masked b' m v.
Proof. intros H E. unfold masked. by rewrite (agree_land K b b' m). Qed.

(** Rewrites every test on the first word into the test on the second. *)
Ltac agreeing H :=
  repeat first
  [ erewrite (agree_masked _ _ _ _ _ H) by reflexivity
  | erewrite (agree_shift _ _ _ _ _ H) by reflexivity ].

(** The bits outside the fields at 0 and 5, at 0, 5 and 16, and outside all fields. *)
Definition KB : Z := Z.ldiff (Z.ones 32) (0x1F + 0x3E0).
Definition K0 : Z := Z.ldiff (Z.ones 32) (0x1F + 0x3E0 + 0x1F0000).
Definition K1 : Z := Z.ldiff K0 0x7C00.

(** A test that fails on part of its mask fails. *)
Lemma masked_part b m v k w : masked b m v = true -> Z.land b (Z.land m k) = w -> Z.land v k = w.
Proof. unfold masked. intros H E. zbool. by rewrite <- H, <- Z.land_assoc. Qed.

(** Loads and stores of one register, where the kind is read from the wrong bits. *)
Definition ldst_single (b : Z) : bool :=
  match category_of b with LDST => ldst_immediate b || ldst_register b | _ => false end.

Lemma category_agree K b b' : agree K b b' -> Z.land (Z.shiftr K 25) 0xF = 0xF ->
  category_of b = category_of b'.
Proof. intros H E. unfold category_of. by rewrite (agree_shift K b b' 25 0xF). Qed.

Lemma positions_agreeB b b' : agree KB b b' -> category_of b = Branch -> positions b = positions b'.
Proof.
  intros H Hc. pose proof Hc as Hc'. rewrite (category_agree KB b b') in Hc' by done.
  unfold positions. rewrite Hc, Hc'. unfold makeBranch_RegPositionList. by agreeing H.
Qed.

Lemma positions_agree0 b b' : agree K0 b b' -> category_of b <> Branch -> ldst_single b = false ->
  positions b = positions b'.
Proof.
  intros H Hc Hs. unfold ldst_single in Hs. unfold positions.
  rewrite (category_agree K0 b b') in * by done.
  destruct (category_of b'); unfold makeDPImm_RegPositionList, makeDPIReg_RegPositionList, makeLDST_RegPositionList;
    [by agreeing H|done| |by agreeing H|done].
  apply orb_false_iff in Hs as [Hi Hr].
  assert (ldst_immediate b' = false /\ ldst_register b' = false) as [-> ->].
  { split; [rewrite <- Hi|rewrite <- Hr]; unfold ldst_immediate, ldst_register; by agreeing H. }
  rewrite Hi, Hr. unfold ldst_pair. by agreeing H.
Qed.

Lemma masked_bit b m v k : masked b m v = true -> 0 <= k -> Z.testbit m k = true -> Z.testbit b k = Z.testbit v k.
Proof.
  intros H Hk Hm. unfold masked in H. zbool. rewrite <- H, Z.land_spec, Hm. by rewrite andb_true_r.
Qed.
Lemma masked_not b m v k c : Z.testbit b k = c -> 0 <= k -> Z.testbit m k = true -> Z.testbit v k = negb c ->
  masked b m v = false.
Proof.
  intros H Hk Hm Hv. destruct (masked b m v) eqn:E; [|done].
  apply (masked_bit b m v k) in E; [|done..]. rewrite H, Hv in E. by destruct c.
Qed.

Lemma pair_not_single b : ldst_pair b = true -> ldst_immediate b = false /\ ldst_register b = false.
Proof.
  intros H. assert (Z.testbit b 28 = false) as H28.
  { unfold ldst_pair in H. repeat (apply orb_true_iff in H as [H|H]);
      eapply masked_bit with (k := 28) in H; (reflexivity || done || exact H). }
  unfold ldst_immediate, ldst_register.
  by rewrite !(fun m v => masked_not b m v 28 false H28).
Qed.

(** A mask with one more bit. *)
Lemma masked_split b m v k : 0 <= k -> Z.testbit m k = false -> Z.testbit v k = false ->
  masked b m v = masked b (Z.lor m (2 ^ k)) v || masked b (Z.lor m (2 ^ k)) (Z.lor v (2 ^ k)).
Proof.
  intros Hk Hm Hv. unfold masked. rewrite Z.land_lor_distr_r.
  assert (Z.land b (2 ^ k) = if Z.testbit b k then 2 ^ k else 0) as ->.
  { apply Z.bits_inj'. intros i Hi. rewrite Z.land_spec, Z.pow2_bits_eqb by lia.
    destruct (Z.eqb_spec k i) as [<-|].
    - rewrite andb_true_r. destruct (Z.testbit b k); [by rewrite Z.pow2_bits_true|by rewrite Z.bits_0].
    - rewrite andb_false_r. destruct (Z.testbit b k); [by rewrite Z.pow2_bits_false by lia|by rewrite Z.bits_0]. }
  assert (Z.testbit (Z.land b m) k = false) as Hk0 by (by rewrite Z.land_spec, Hm, andb_false_r).
  assert (forall x, Z.testbit x k = false -> Z.testbit (Z.lor x (2 ^ k)) k = true) as Hset
    by (intros; by rewrite Z.lor_spec, Z.pow2_bits_true, orb_true_r by lia).
  destruct (Z.testbit b k).
  - assert ((Z.lor (Z.land b m) (2 ^ k) =? v) = false) as ->.
    { apply Z.eqb_neq. intros E. specialize (Hset _ Hk0). rewrite E, Hv in Hset. done. }
    cbn [orb]. apply eq_bool_prop_intro. rewrite !Is_true_true, !Z.eqb_eq. split; [by intros ->|].
    intros E. apply Z.bits_inj'. intros i Hi. assert (Z.testbit (Z.lor (Z.land b m) (2 ^ k)) i = Z.testbit (Z.lor v (2 ^ k)) i) as Ei by (by rewrite E).
    rewrite !Z.lor_spec in Ei. destruct (Z.eq_dec i k) as [->|]; [by rewrite Hk0, Hv|].
    by rewrite Z.pow2_bits_false, !orb_false_r in Ei by lia.
  - rewrite Z.lor_0_r. assert ((Z.land b m =? Z.lor v (2 ^ k)) = false) as ->; [|by rewrite orb_false_r].
    apply Z.eqb_neq. intros E. specialize (Hset v Hv). rewrite <- E, Hk0 in Hset. done.
Qed.

Ltac not_in Hin := apply (bool_decide_pack _) in Hin; vm_compute in Hin; exact Hin.

Lemma positions_agree1 b b' : agree K1 b b' -> 10 ∈ (positions b).1 ++ (positions b).2 -> positions b = positions b'.
Proof.
  intros H. unfold positions. rewrite (category_agree K1 b b') by done.
  destruct (category_of b').
  - unfold makeDPImm_RegPositionList. intros Hin. exfalso. repeat case_match; not_in Hin.
  - unfold makeBranch_RegPositionList. intros Hin. exfalso. repeat case_match; not_in Hin.
  - assert (ldst_pair b = ldst_pair b') as Hp by (unfold ldst_pair; by agreeing H).
    unfold makeLDST_RegPositionList. rewrite (agree_shift K1 b b' 28 3), (agree_shift K1 b b' 23 1),
      (agree_shift K1 b b' 22 1), (agree_masked K1 b b' 0x3B000000 0x18000000), Hp by done.
    case_if; [intros Hin; by apply elem_of_nil in Hin|]. case_if; [done|]. intros Hin.
    destruct (ldst_pair b') eqn:E2.
    + destruct (pair_not_single b Hp) as [-> ->]. by destruct (pair_not_single b' E2) as [-> ->].
    + exfalso. revert Hin. repeat case_if; intros Hin; not_in Hin.
  - pose proof (masked_split b 0x1FE00000 0x1A400000 11 ltac:(lia) eq_refl eq_refl) as S1.
    pose proof (masked_split b' 0x1FE00000 0x1A400000 11 ltac:(lia) eq_refl eq_refl) as S2.
    change (Z.lor 0x1FE00000 (2 ^ 11)) with 0x1FE00800 in *. change (Z.lor 0x1A400000 (2 ^ 11)) with 0x1A400800 in *.
    rewrite (agree_masked K1 b b') in S1 by done. unfold makeDPIReg_RegPositionList.
    rewrite !(agree_masked K1 b b' 0x1F200000), !(agree_masked K1 b b' 0x1FE00000), !(agree_masked K1 b b' 0x3FE00000),
      !(agree_masked K1 b b' 0x1F000000) by done.
    destruct (masked b' 0x1FE00000 0x1A400000).
    + intros Hin. exfalso. symmetry in S1. apply orb_true_iff in S1 as [E|E]; rewrite E in Hin;
        revert Hin; rewrite ?orb_true_r; cbn [orb]; repeat case_if; intros Hin; not_in Hin.
    + symmetry in S1, S2. apply orb_false_iff in S1 as [-> ->], S2 as [-> ->]. done.
  - intros Hin. by apply elem_of_nil in Hin.
Qed.

(** Every bit of the mask [K] is outside the fields at the positions [l]. *)
Definition outside (K : Z) (l : list Z) : bool :=
  forallb (fun i => negb (Z.testbit K i) || forallb (fun p => negb ((p <=? i) && (i <? p + 5))) l) (seqZ 0 32).

Lemma outside_agree K l (used : list Z) b b' : is_u 32 K -> is_u 32 b -> is_u 32 b' -> outside K l = true ->
  (forall p, p ∈ used -> p ∈ l) ->
  (forall i, 0 <= i -> (forall p, p ∈ used -> ~ p <= i < p + 5) -> Z.testbit b' i = Z.testbit b i) ->
  agree K b b'.
Proof.
  intros HK [Hb _] [Hb' _] Ho Hsub Hbits. apply agree_on_bits; [done..|]. intros i Hi Hki. symmetry. apply Hbits; [done|].
  assert (i < 32) as Hi32.
  { destruct (Z.lt_ge_cases i 32); [done|]. rewrite (testbit_high 32 K) in Hki by (done || lia). done. }
  unfold outside in Ho. rewrite forallb_forall in Ho. specialize (Ho i). rewrite Hki in Ho. cbn [negb orb] in Ho.
  intros p Hp Hpi. assert (forallb (fun p => negb ((p <=? i) && (i <? p + 5))) l = true) as Hl.
  { apply Ho, list_elem_of_In, elem_of_seqZ. lia. }
  rewrite forallb_forall in Hl. specialize (Hl p (proj1 (list_elem_of_In _ _) (Hsub p Hp))).
  rewrite (proj2 (Z.leb_le p i)), (proj2 (Z.ltb_lt i (p + 5))) in Hl by lia. done.
Qed.

Lemma branch_fields b p : category_of b = Branch -> p ∈ (positions b).1 ++ (positions b).2 -> p ∈ [0; 5].
Proof.
  intros Hc. unfold positions. rewrite Hc. unfold makeBranch_RegPositionList.
  repeat case_match; cbn; rewrite ?elem_of_cons, ?elem_of_nil; tauto.
Qed.

(** The positions depend on no bit of the fields they name. *)
Lemma positions_stable b b' : is_u 32 b -> is_u 32 b' -> ldst_single b = false ->
  (forall i, 0 <= i -> (forall p, p ∈ (positions b).1 ++ (positions b).2 -> ~ p <= i < p + 5) ->
     Z.testbit b' i = Z.testbit b i) ->
  positions b = positions b'.
Proof.
  intros Hb Hb' Hs Hbits. pose proof (positions_fields b) as Hpos. rewrite Forall_forall in Hpos.
  assert (forall K l, is_u 32 K -> outside K l = true -> (forall p, p ∈ (positions b).1 ++ (positions b).2 -> p ∈ l) ->
    agree K b b') as Hagree by (intros; by eapply outside_agree).
  destruct (decide (category_of b = Branch)) as [Hc|Hc].
  { apply positions_agreeB; [|done]. apply (Hagree KB [0; 5]); [done|done|]. intros p. by apply branch_fields. }
  destruct (decide (10 ∈ (positions b).1 ++ (positions b).2)) as [H10|H10].
  - apply positions_agree1; [|done]. apply (Hagree K1 field_positions); [done|done|]. apply Hpos.
  - apply positions_agree0; [|done|done]. apply (Hagree K0 [0; 5; 16]); [done|done|]. intros p Hp.
    assert (p <> 10) by (by intros ->). apply Hpos in Hp.
    clear -Hp H. members Hp; rewrite !elem_of_cons; naive_solver.
Qed.

(** ** Reading and writing *)

Lemma isReading_spec r reg : coherent r ->
  (isReading r reg).1 = existsb (fun p => field (bin r) p =? reg) (positions (bin r)).1.
Proof.
  intros Hr. destruct (getRegPositionList_spec r Hr) as (El & _ & Eb). unfold isReading.
  destruct (getRegPositionList r) as [l r1]. cbn in *. by subst l; rewrite Eb.
Qed.
Lemma isWriting_spec r reg : coherent r ->
  (isWriting r reg).1 = existsb (fun p => field (bin r) p =? reg) (positions (bin r)).2.
Proof.
  intros Hr. destruct (getRegPositionList_spec r Hr) as (El & _ & Eb). unfold isWriting.
  destruct (getRegPositionList r) as [l r1]. cbn in *. by subst l; rewrite Eb.
Qed.

Lemma existsb_renamed (f f' : Z -> Z) old new l : old <> new ->
  (forall p, p ∈ l -> f' p = renamed old new (f p)) ->
  existsb (fun p => f' p =? old) l = false /\
  existsb (fun p => f' p =? new) l = existsb (fun p => f p =? new) l || existsb (fun p => f p =? old) l.
Proof.
  intros Hne. induction l as [|p l IH]; intros H; [done|]. cbn [existsb].
  destruct IH as [-> ->]; [intros q Hq; apply H; by right|]. rewrite H by (by left). unfold renamed.
  destruct (Z.eqb_spec (f p) old) as [->|Ho].
  - rewrite (proj2 (Z.eqb_neq new old)), !Z.eqb_refl, (proj2 (Z.eqb_neq old new)) by done. cbn [orb].
    split; [done|]. by rewrite orb_true_r.
  - rewrite (proj2 (Z.eqb_neq _ _) Ho). split; [done|]. by rewrite orb_assoc.
Qed.

Lemma replace_loop_app old new l1 l2 b :
  replace_loop old new (l1 ++ l2) b = replace_loop old new l2 (replace_loop old new l1 b).
Proof. revert b. induction l1; intros b; cbn; auto. Qed.

Lemma replaceRegister_bin r old new : coherent r -> replaceRegister r old new =
  mkRegBits (replace_loop old new ((positions (bin r)).1 ++ (positions (bin r)).2) (bin r)) false ([], []).
Proof.
  intros Hr. destruct (getRegPositionList_spec r Hr) as (El & _ & Eb). unfold replaceRegister.
  destruct (getRegPositionList r) as [l r1]. cbn in El, Eb. subst l. unfold invalidateCache. cbn. rewrite Eb.
  by rewrite replace_loop_app.
Qed.

(** ** What replacement does to any word

    The old register is renamed at the positions of the word and no other bit changes; and unless the instruction
    is a load or store of one register, the word then neither reads nor writes the old register at its positions. *)
Lemma replaceRegister_spec r old new : coherent r -> is_u 32 (bin r) -> 0 <= new < 32 -> old <> new ->
  let r' := replaceRegister r old new in
  let used := (positions (bin r)).1 ++ (positions (bin r)).2 in
  coherent r' /\ is_u 32 (bin r') /\
  (forall p, p ∈ used -> field (bin r') p = renamed old new (field (bin r) p)) /\
  (forall i, 0 <= i -> (forall p, p ∈ used -> ~ p <= i < p + 5) -> Z.testbit (bin r') i = Z.testbit (bin r) i) /\
  (ldst_single (bin r) = false ->
   ((isReading r' old).1 = false /\ (isReading r' new).1 = (isReading r new).1 || (isReading r old).1) /\
   ((isWriting r' old).1 = false /\ (isWriting r' new).1 = (isWriting r new).1 || (isWriting r old).1)).
Proof.
  intros Hr Hb Hn Hne. cbn zeta. rewrite replaceRegister_bin by done.
  pose proof (positions_fields (bin r)) as Hpos.
  destruct (replace_loop_spec old new _ (bin r) Hb Hn Hpos) as (U & F & B).
  set (b' := replace_loop _ _ _ _) in *. cbn [bin].
  assert (forall p, p ∈ (positions (bin r)).1 ++ (positions (bin r)).2 -> field b' p = renamed old new (field (bin r) p)) as HF.
  { intros p Hp. rewrite F by (by eapply (proj1 (Forall_forall _ _) Hpos)). by rewrite bool_decide_true. }
  split_and!; [done|exact U|done|done|]. intros Hs.
  assert (coherent (mkRegBits b' false ([], []))) as Hc by done.
  rewrite !isReading_spec, !isWriting_spec by done. cbn [bin].
  rewrite <- (positions_stable (bin r) b') by done.
  split; apply existsb_renamed; [done| |done|]; intros p Hp; apply HF, elem_of_app; auto.
Qed.

(** ** The instructions of the architecture

    An instruction class of the manual (C4.1): its 32 bits from the highest on, with the digits of the encoding, letters for the register
    operands and points for anything else, and the operands that it reads and writes. *)
Record class := mkClass { bits : string; reads : string; writes : string }.

(** The classes for which the code has the right positions.  The others are: compare and branch of 64 bits, moves that keep a
    part of the destination (MOVK, BFM), conditional comparisons of registers, instructions of one and of three operands, loads of pairs without allocation, and loads and
    stores of one register; see below. *)
Definition isa : list class :=
  [ (* add and subtract (immediate) *)       mkClass "...10001..............nnnnnddddd" "n" "d";
    (* logical (immediate) *)                mkClass "...100100.............nnnnnddddd" "n" "d";
    (* SBFM, UBFM *)                         mkClass ".00100110.............nnnnnddddd" "n" "d";
                                             mkClass ".10100110.............nnnnnddddd" "n" "d";
    (* extract *)                            mkClass ".00100111.0mmmmm......nnnnnddddd" "nm" "d";
    (* MOVN, MOVZ *)                         mkClass ".00100101..................ddddd" "" "d";
                                             mkClass ".10100101..................ddddd" "" "d";
    (* ADR, ADRP *)                          mkClass "...10000...................ddddd" "" "d";
    (* CBZ, CBNZ of 32 bits *)               mkClass "0011010....................ttttt" "t" "";
    (* TBZ, TBNZ *)                          mkClass ".011011....................ttttt" "t" "";
    (* SYS, MSR *)                           mkClass "1101010100001..............ttttt" "t" "";
                                             mkClass "1101010100011..............ttttt" "t" "";
    (* SYSL, MRS *)                          mkClass "1101010100101..............ttttt" "" "t";
                                             mkClass "110101010011...............ttttt" "" "t";
    (* BR, RET *)                            mkClass "1101011000011111000000nnnnn00000" "n" "";
                                             mkClass "1101011001011111000000nnnnn00000" "n" "";
    (* LDR (literal) *)                      mkClass "0.011000...................ttttt" "" "t";
                                             mkClass "10011000...................ttttt" "" "t";
    (* STNP *)                               mkClass ".010100000.......uuuuunnnnnttttt" "tnu" "";
    (* STP, LDP, LDPSW (offset) *)           mkClass "..10100100.......uuuuunnnnnttttt" "tnu" "";
                                             mkClass "..10100101.......uuuuunnnnnttttt" "n" "tu";
    (* STP, LDP, LDPSW (post-indexed) *)     mkClass "..10100010.......uuuuunnnnnttttt" "tnu" "n";
                                             mkClass "..10100011.......uuuuunnnnnttttt" "n" "tun";
    (* STP, LDP, LDPSW (pre-indexed) *)      mkClass "..10100110.......uuuuunnnnnttttt" "tnu" "n";
                                             mkClass "..10100111.......uuuuunnnnnttttt" "n" "tun";
    (* add and subtract (extended) *)        mkClass "...01011001mmmmm......nnnnnddddd" "nm" "d";
    (* add and subtract (shifted) *)         mkClass "...01011..0mmmmm......nnnnnddddd" "nm" "d";
    (* logical (shifted) *)                  mkClass "...01010...mmmmm......nnnnnddddd" "nm" "d";
    (* add and subtract with carry *)        mkClass "...11010000mmmmm000000nnnnnddddd" "nm" "d";
    (* conditional comparison (immediate) *) mkClass "..111010010.........10nnnnn0...." "n" "";
    (* conditional selection *)              mkClass "..011010100mmmmm......nnnnnddddd" "nm" "d";
    (* two operands *)                       mkClass ".0011010110mmmmm......nnnnnddddd" "nm" "d" ]%string.

(** The fixed bits of a class and their values *)
Fixpoint mask_of (s : string) : Z :=
  match s with
  | EmptyString => 0
  | String c s => (if Ascii.eqb c "0" || Ascii.eqb c "1" then 2 ^ Z.of_nat (String.length s) else 0) + mask_of s
  end.
Fixpoint value_of (s : string) : Z :=
  match s with
  | EmptyString => 0
  | String c s => (if Ascii.eqb c "1" then 2 ^ Z.of_nat (String.length s) else 0) + value_of s
  end.
Definition belongs (b : Z) (cl : class) : Prop := Z.land b (mask_of (bits cl)) = value_of (bits cl).
(** The lowest bit of the operand [x] *)
Fixpoint place (x : ascii) (s : string) : option Z :=
  match s with
  | EmptyString => None
  | String c s => match place x s with Some p => Some p | None => if Ascii.eqb c x then Some (Z.of_nat (String.length s)) else None end
  end.
Definition places (cl : class) (xs : string) : list Z := omap (fun x => place x (bits cl)) (String.list_ascii_of_string xs).
(** The registers that an instruction of the class reads and writes *)
Definition number_at (b p : Z) : Z := (b / 2 ^ p) mod 32.
Definition registers (b : Z) (cl : class) (xs : string) : list Z := map (number_at b) (places cl xs).

(** The table is one of words of 32 bits, with fields of five bits and fixed bits outside of them. *)
Definition of_letter (x : ascii) (s : string) : nat := length (filter (fun c => c = x) (String.list_ascii_of_string s)).
Example isa_words : Forall (fun cl => String.length (bits cl) = 32%nat /\
    Forall (fun x => of_letter x (bits cl) = 5%nat) (String.list_ascii_of_string (reads cl ++ writes cl)%string)) isa.
Proof. apply (bool_decide_unpack _). vm_compute. exact I. Qed.

(** *** The positions of the code are those of the table *)
Lemma masked_true b M V m v : Z.land b M = V -> Z.land m M = m -> Z.land V m = v -> masked b m v = true.
Proof. intros <- Hm <-. unfold masked. apply Z.eqb_eq. rewrite <- Z.land_assoc, (Z.land_comm M), Hm. done. Qed.
Lemma masked_false b M V m v : Z.land b M = V -> (Z.land V m =? Z.land v M) = false -> masked b m v = false.
Proof.
  intros <- H. unfold masked. apply Z.eqb_neq. intros <-. apply Z.eqb_neq in H. apply H.
  rewrite <- !Z.land_assoc. f_equal. apply Z.land_comm.
Qed.
Lemma shift_known b M V n m : Z.land b M = V -> Z.land (Z.shiftr M n) m = m -> Z.land (Z.shiftr b n) m = Z.land (Z.shiftr V n) m.
Proof. intros <- H. by rewrite Z.shiftr_land, <- Z.land_assoc, H. Qed.

Ltac known H := repeat match goal with
  | |- context [masked ?b ?m ?v] => first [rewrite (masked_true b _ _ m v H) by reflexivity | rewrite (masked_false b _ _ m v H) by reflexivity]
  | |- context [Z.land (Z.shiftr ?b ?n) ?m] => is_var b; rewrite (shift_known b _ _ n m H) by reflexivity
  end.
Lemma category_known b M V : Z.land b M = V -> Z.land (Z.shiftr M 25) 0xF = 0xF -> category_of b = category_of V.
Proof. intros H HM. unfold category_of. by rewrite (shift_known b M V 25 0xF H HM). Qed.
Lemma class_positions b cl : cl ∈ isa -> belongs b cl -> positions b = (places cl (reads cl), places cl (writes cl)).
Proof.
  intros Hcl. unfold isa in Hcl. unfold belongs, positions.
  repeat (apply elem_of_cons in Hcl as [->|Hcl]); [..|by apply elem_of_nil in Hcl];
    match goal with |- Z.land b ?m = ?v -> _ =>
      let M := eval vm_compute in m in let V := eval vm_compute in v in
      intros H; change (Z.land b M = V) in H;
      rewrite (category_known b M V H) by reflexivity;
      let C := eval vm_compute in (category_of V) in change (category_of V) with C; cbv iota end;
    unfold makeDPImm_RegPositionList, makeBranch_RegPositionList, makeLDST_RegPositionList, makeDPIReg_RegPositionList, ldst_immediate, ldst_register, ldst_pair;
    cbv zeta; known H; reflexivity.
Qed.

(** The fixed bits of a class are outside its register fields. *)
Lemma isa_outside cl : cl ∈ isa -> is_u 32 (mask_of (bits cl)) /\ outside (mask_of (bits cl)) (places cl (reads cl) ++ places cl (writes cl)) = true /\
  Forall (fun p => 0 <= p) (places cl (reads cl) ++ places cl (writes cl)).
Proof.
  assert (H : forallb (fun cl => (0 <=? mask_of (bits cl)) && (mask_of (bits cl) <? 2 ^ 32) && outside (mask_of (bits cl)) (places cl (reads cl) ++ places cl (writes cl)) &&
    forallb (Z.leb 0) (places cl (reads cl) ++ places cl (writes cl))) isa = true) by (vm_compute; reflexivity).
  intros Hcl%list_elem_of_In. rewrite forallb_forall in H. apply H in Hcl. zbool. rewrite forallb_forall in *.
  split; [done|]. split; [done|]. apply Forall_forall. intros p Hp%list_elem_of_In. apply Z.leb_le. auto.
Qed.
Lemma field_number b p : 0 <= p -> field b p = number_at b p.
Proof. intros Hp. unfold field, number_at, regMask. change 0x1F with (Z.ones 5). by rewrite Z.land_ones, Z.shiftr_div_pow2 by lia. Qed.
Lemma existsb_number b l reg : Forall (fun p => 0 <= p) l -> existsb (fun p => field b p =? reg) l = true <-> reg ∈ map (number_at b) l.
Proof.
  intros Hl. rewrite existsb_exists, list_elem_of_fmap. rewrite Forall_forall in Hl. split.
  - intros (p&Hp%list_elem_of_In&E%Z.eqb_eq). exists p. by rewrite <- field_number by auto.
  - intros (p&->&Hp). exists p. split; [by apply list_elem_of_In|]. rewrite field_number by auto. apply Z.eqb_refl.
Qed.
(** The code reads and writes the registers that the instruction does. *)
Lemma class_registers r cl reg : coherent r -> cl ∈ isa -> belongs (bin r) cl ->
  ((isReading r reg).1 = true <-> reg ∈ registers (bin r) cl (reads cl)) /\
  ((isWriting r reg).1 = true <-> reg ∈ registers (bin r) cl (writes cl)).
Proof.
  intros Hr Hcl Hb. destruct (isa_outside cl Hcl) as (_&_&[H1 H2]%Forall_app).
  rewrite isReading_spec, isWriting_spec, (class_positions _ cl Hcl Hb) by done. by split; apply existsb_number.
Qed.

(** C39: for the instructions of [isa], [isReading] and [isWriting] say which registers the instruction reads and writes, and
    [replaceRegister] makes it the same instruction on renamed registers: the old register is renamed in every operand, no other bit
    changes, and the result neither reads nor writes the old register. *)
Theorem replaceRegister_correct r cl old new : coherent r -> is_u 32 (bin r) -> cl ∈ isa -> belongs (bin r) cl -> 0 <= new < 32 -> old <> new ->
  (forall reg, ((isReading r reg).1 = true <-> reg ∈ registers (bin r) cl (reads cl)) /\
               ((isWriting r reg).1 = true <-> reg ∈ registers (bin r) cl (writes cl))) /\
  let r' := replaceRegister r old new in
  coherent r' /\ is_u 32 (bin r') /\ belongs (bin r') cl /\
  registers (bin r') cl (reads cl) = map (renamed old new) (registers (bin r) cl (reads cl)) /\
  registers (bin r') cl (writes cl) = map (renamed old new) (registers (bin r) cl (writes cl)) /\
  (isReading r' old).1 = false /\ (isWriting r' old).1 = false /\
  (forall i, 0 <= i -> (forall p, p ∈ places cl (reads cl) ++ places cl (writes cl) -> ~ p <= i < p + 5) ->
     Z.testbit (bin r') i = Z.testbit (bin r) i).
Proof.
  intros Hr Hb Hcl Hbel Hn Hne. split; [intros reg; by apply class_registers|]. intros r'.
  destruct (replaceRegister_spec r old new Hr Hb Hn Hne) as (Hr'&Hb'&HF&HB&_). fold r' in Hr', Hb', HF, HB.
  rewrite (class_positions _ cl Hcl Hbel) in HF, HB. cbn [fst snd] in HF, HB.
  destruct (isa_outside cl Hcl) as (HK&Hout&Hpos). rewrite Forall_forall in Hpos.
  assert (Hbel' : belongs (bin r') cl).
  { unfold belongs in *. rewrite <- Hbel. symmetry. eapply (outside_agree _ _ _ (bin r) (bin r') HK Hb Hb' Hout); [|exact HB]. done. }
  assert (Hmap : forall xs, places cl xs ⊆ places cl (reads cl) ++ places cl (writes cl) ->
    registers (bin r') cl xs = map (renamed old new) (registers (bin r) cl xs)).
  { intros xs Hxs. unfold registers. rewrite map_map. apply map_ext_in. intros p Hp%list_elem_of_In%Hxs.
    by rewrite <- !field_number by auto; apply HF. }
  assert (Hold : forall l, old ∉ map (renamed old new) l).
  { intros l (x&Hx&_)%list_elem_of_fmap. unfold renamed in Hx. destruct (Z.eqb_spec x old); congruence. }
  destruct (class_registers r' cl old Hr' Hcl Hbel') as [H1 H2]. 
  assert (HR : registers (bin r') cl (reads cl) = map (renamed old new) (registers (bin r) cl (reads cl))) by (apply Hmap; intros p Hp; apply elem_of_app; by left).
  assert (HW : registers (bin r') cl (writes cl) = map (renamed old new) (registers (bin r) cl (writes cl))) by (apply Hmap; intros p Hp; apply elem_of_app; by right).
  rewrite HR in H1. rewrite HW in H2.
  split_and!; [done|exact Hb'|done|done|done| | |exact HB].
  - apply not_true_iff_false. rewrite H1. apply Hold.
  - apply not_true_iff_false. rewrite H2. apply Hold.
Qed.

(** *** Bytes *)

(** Reading the four bytes of a word and writing them back. *)
Lemma decode_bits r b0 b1 b2 b3 : is_u 8 b0 -> is_u 8 b1 -> is_u 8 b2 -> is_u 8 b3 -> exists r',
  decode r [b0; b1; b2; b3] = Ok r' /\ coherent r' /\ is_u 32 (bin r') /\
  bin r' = b0 + 2 ^ 8 * b1 + 2 ^ 16 * b2 + 2 ^ 24 * b3.
Proof.
  unfold is_u. intros H0 H1 H2 H3. eexists. split; [reflexivity|].
  assert (forall a c k, 0 <= k -> 0 <= c < 2 ^ k -> Z.lor (Z.shiftl a k) c = 2 ^ k * a + c) as Hcat.
  { intros a c k Hk Hc. pose proof (Z.add_lor_land (Z.shiftl a k) c) as E. rewrite Z.shiftl_mul_pow2 in * by lia.
    assert (Z.land (a * 2 ^ k) c = 0) as E0; [|lia].
    apply Z.bits_inj'. intros i Hi. rewrite Z.land_spec, Z.bits_0, Z.mul_pow2_bits by lia.
    destruct (Z.lt_ge_cases i k); [by rewrite Z.testbit_neg_r by lia|]. rewrite (testbit_high k c) by lia.
    apply andb_false_r. }
  assert (Z.lor (Z.lor (Z.lor (Z.shiftl b3 24) (Z.shiftl b2 16)) (Z.shiftl b1 8)) b0 =
    b0 + 2 ^ 8 * b1 + 2 ^ 16 * b2 + 2 ^ 24 * b3) as E.
  { rewrite <- !Z.lor_assoc, (Hcat b1 b0 8), (Hcat b2), (Hcat b3) by (cbn; lia). cbn. lia. }
  cbn [bin invalidateCache]. rewrite E, wrap_small by (cbn; lia). split_and!; [done|cbn; lia..].
Qed.

Lemma encode_decode r b0 b1 b2 b3 r' : is_u 8 b0 -> is_u 8 b1 -> is_u 8 b2 -> is_u 8 b3 ->
  decode r [b0; b1; b2; b3] = Ok r' -> forall c0 c1 c2 c3, encode r' [c0; c1; c2; c3] = Ok [b0; b1; b2; b3].
Proof.
  intros H0 H1 H2 H3 E c0 c1 c2 c3. destruct (decode_bits r b0 b1 b2 b3) as (r1 & E1 & _ & _ & Hb); [done..|].
  assert (r1 = r') by congruence. subst r1. unfold encode, is_u in *. rewrite !Z.shiftr_div_pow2 by lia. change 0xFF with (Z.ones 8).
  rewrite !Z.land_ones by lia. rewrite Hb. cbn -[Z.div Z.modulo Z.add Z.mul Z.pow].
  change (2 ^ 0) with 1; change (2 ^ 8) with 256 in *; change (2 ^ 16) with 65536; change (2 ^ 24) with 16777216.
  set (w := b0 + 256 * b1 + 65536 * b2 + 16777216 * b3).
  assert (w / 1 mod 256 = b0 /\ w / 256 mod 256 = b1 /\ w / 65536 mod 256 = b2 /\ w / 16777216 mod 256 = b3)
    as (-> & -> & -> & ->) by (unfold w; split_and!; zdiv). done.
Qed.

(** ** Loads and stores of one register *)

(** The kind is read from the lowest three bits of the word, which are those of the
    transferred register, and not from the bits 22, 23 and 26. *)
Lemma ldst_kind_low b : ldst_kind b = Z.land b 7.
Proof. unfold ldst_kind. by rewrite <- Z.land_lor_distr_r. Qed.

Definition of_word (b : Z) : AARCH64RegBits := mkRegBits b false ([], []).

(** the load [ldr x0, [x1]] is taken for a store, which reads its destination and
    writes nothing, and the store [str x1, [x2]] for a load that writes [x1]; and
    replacing [x0] by [x1] in [ldr x0, [x2]] turns the one into the other. *)
Theorem ldst_misread :
  let ldr := of_word 0xF9400020 in let str := of_word 0xF9000041 in
  (isReading ldr 0).1 = true /\ (isWriting ldr 0).1 = false /\
  (isReading str 1).1 = false /\ (isWriting str 1).1 = true /\
  positions (bin (replaceRegister (of_word 0xF9400040) 0 1)) <> positions 0xF9400040.
Proof. vm_compute. split_and!; try done. Qed.

(** Other instructions with wrong positions: [madd x0, x1, x2, x3] (the mask of the class is wrong), [cbz x1] of 64 bits and [ldnp x0, x2, [x1]] get no
    fields; [movk x0, #1] and [bfm x0, x1, #0, #0], which keep a part of [x0], are said not to read it. *)
Theorem fields_missed :
  positions 0x9B020C20 = ([], []) /\ positions 0xB4000001 = ([], []) /\ positions 0xA8400820 = ([], []) /\
  (isReading (of_word 0xF2800020) 0).1 = false /\ (isReading (of_word 0xB3400020) 0).1 = false.
Proof. vm_compute. split_and!; done. Qed.
(** The flags of [ccmp x1, x2, #0, eq] are taken for a destination and the operation of [clz x1, x2] for a source: replacing [x0] by [x3]
    gives other flags, and another operation. *)
Theorem fields_made_up :
  bin (replaceRegister (of_word 0xFA420020) 0 3) = 0xFA420023 /\ bin (replaceRegister (of_word 0xDAC01041) 0 3) = 0xDAC31041.
Proof. vm_compute. done. Qed.

(** ** Examples *)
Module RegBitsExamples.
(** [add x3, x5, x5] with [x5] replaced by [x9] *)
Definition add_shifted : class := mkClass "...01011..0mmmmm......nnnnnddddd" "nm" "d".
Lemma replaceRegister_correct_witness :
  let r := of_word 0x8B0500A3 in
  bin (replaceRegister r 5 9) = 0x8B090123 /\ registers (bin r) add_shifted "nm" = [5; 5] /\
  registers (bin (replaceRegister r 5 9)) add_shifted "nm" = [9; 9] /\
  (isReading (replaceRegister r 5 9) 5).1 = false.
Proof.
  cbn zeta. split; [reflexivity|]. split; [reflexivity|].
  destruct (replaceRegister_correct (of_word 0x8B0500A3) add_shifted 5 9) as (_&_&_&_&H1&_&H2&_);
    [reflexivity|vm_compute; intuition congruence| |reflexivity|lia|lia|].
  - apply (list_elem_of_lookup_2 _ 26). reflexivity.
  - split; [|exact H2]. exact H1.
Defined.
End RegBitsExamples.
