(* ===== verification/Dwarf.v ===== *)
(** * Call frame information: src/dwarf/cursor.h, cursor.cpp, defines.h, state.h,
      state.cpp, entry.h, entry.cpp, parser.h and parser.cpp

    [DwarfParser] reads the .eh_frame section of a program: common information
    entries (CIE), which it decodes with a stack of register rules, and frame
    description entries (FDE), from which Egalito takes the bounds of functions.
    All reads go through a cursor over memory; a read outside of the mapped
    memory is a fault.  Messages of the log are left out. *)

From S2P Require Import Prelude.

(** ** Memory *)

(** The mapped memory: consecutive bytes at an address. *)
Record memory := mkMemory { mem_base : Z; mem_bytes : list Z }.

(** [*reinterpret_cast<T *>(address)] for an unsigned type of [n] bytes. *)
Definition peek (m : memory) (n : nat) (address : Z) : res Z :=
  let i := address - mem_base m in
  if (i <? 0) || (Z.of_nat (length (mem_bytes m)) <? i + Z.of_nat n) then Err OutOfBounds
  else Ok (le_value (take n (drop (Z.to_nat i) (mem_bytes m)))).

(** ** Constants (defines.h) *)

Definition DW_EH_PE_ptr := 0x00.
Definition DW_EH_PE_uleb128 := 0x01.
Definition DW_EH_PE_udata2 := 0x02.
Definition DW_EH_PE_udata4 := 0x03.
Definition DW_EH_PE_udata8 := 0x04.
Definition DW_EH_PE_sleb128 := 0x09.
Definition DW_EH_PE_sdata2 := 0x0a.
Definition DW_EH_PE_sdata4 := 0x0b.
Definition DW_EH_PE_sdata8 := 0x0c.
Definition DW_EH_PE_absptr := 0x00.
Definition DW_EH_PE_pcrel := 0x10.
Definition DW_EH_PE_omit := 0xff.

Definition DW_CFA_advance_loc := 0x40.
Definition DW_CFA_offset := 0x80.
Definition DW_CFA_restore := 0xc0.
Definition DW_CFA_nop := 0x00.
Definition DW_CFA_set_loc := 0x01.
Definition DW_CFA_advance_loc1 := 0x02.
Definition DW_CFA_advance_loc2 := 0x03.
Definition DW_CFA_advance_loc4 := 0x04.
Definition DW_CFA_offset_extended := 0x05.
Definition DW_CFA_restore_extended := 0x06.
Definition DW_CFA_undefined := 0x07.
Definition DW_CFA_same_value := 0x08.
Definition DW_CFA_register := 0x09.
Definition DW_CFA_remember_state := 0x0a.
Definition DW_CFA_restore_state := 0x0b.
Definition DW_CFA_def_cfa := 0x0c.
Definition DW_CFA_def_cfa_register := 0x0d.
Definition DW_CFA_def_cfa_offset := 0x0e.
Definition DW_CFA_def_cfa_expression := 0x0f.
Definition DW_CFA_expression := 0x10.
Definition DW_CFA_offset_extended_sf := 0x11.
Definition DW_CFA_def_cfa_sf := 0x12.
Definition DW_CFA_def_cfa_offset_sf := 0x13.
Definition DW_CFA_val_offset := 0x14.
Definition DW_CFA_val_offset_sf := 0x15.
Definition DW_CFA_val_expression := 0x16.
Definition DW_CFA_MIPS_advance_loc8 := 0x1d.
Definition DW_CFA_GNU_window_save := 0x2d.
Definition DW_CFA_GNU_args_size := 0x2e.
Definition DW_CFA_GNU_negative_offset_extended := 0x2f.

Definition DW_OP_addr := 0x03.
Definition DW_OP_deref := 0x06.
Definition DW_OP_const1u := 0x08.
Definition DW_OP_const1s := 0x09.
Definition DW_OP_const2u := 0x0a.
Definition DW_OP_const2s := 0x0b.
Definition DW_OP_const4u := 0x0c.
Definition DW_OP_const4s := 0x0d.
Definition DW_OP_const8u := 0x0e.
Definition DW_OP_const8s := 0x0f.
Definition DW_OP_constu := 0x10.
Definition DW_OP_consts := 0x11.
Definition DW_OP_dup := 0x12.
Definition DW_OP_drop := 0x13.
Definition DW_OP_over := 0x14.
Definition DW_OP_pick := 0x15.
Definition DW_OP_swap := 0x16.
Definition DW_OP_rot := 0x17.
Definition DW_OP_xderef := 0x18.
Definition DW_OP_abs := 0x19.
Definition DW_OP_and := 0x1a.
Definition DW_OP_div := 0x1b.
Definition DW_OP_minus := 0x1c.
Definition DW_OP_mod := 0x1d.
Definition DW_OP_mul := 0x1e.
Definition DW_OP_neg := 0x1f.
Definition DW_OP_not := 0x20.
Definition DW_OP_or := 0x21.
Definition DW_OP_plus := 0x22.
Definition DW_OP_plus_uconst := 0x23.
Definition DW_OP_shl := 0x24.
Definition DW_OP_shr := 0x25.
Definition DW_OP_shra := 0x26.
Definition DW_OP_xor := 0x27.
Definition DW_OP_skip := 0x2f.
Definition DW_OP_bra := 0x28.
Definition DW_OP_eq := 0x29.
Definition DW_OP_ge := 0x2a.
Definition DW_OP_gt := 0x2b.
Definition DW_OP_le := 0x2c.
Definition DW_OP_lt := 0x2d.
Definition DW_OP_ne := 0x2e.
Definition DW_OP_lit0 := 0x30.
Definition DW_OP_reg0 := 0x50.
Definition DW_OP_breg0 := 0x70.
Definition DW_OP_regx := 0x90.
Definition DW_OP_bregx := 0x92.
Definition DW_OP_deref_size := 0x94.

(** ** The cursor *)

Record DwarfCursor := mkCursor { cstart : Z; cursor : Z }.

(** Operations that read at the cursor and move it. *)
Definition reader (A : Type) : Type := memory -> DwarfCursor -> res (A * DwarfCursor).
#[export] Instance reader_ret : MRet reader := fun A a m c => Ok (a, c).
#[export] Instance reader_bind : MBind reader := fun A B f r m c =>
  match r m c with Ok (a, c) => f a m c | Err e => Err e end.

Module DwarfCursor.
Definition new (start : Z) : DwarfCursor := mkCursor start start.
Definition getStart (c : DwarfCursor) : Z := cstart c.
Definition getCursor (c : DwarfCursor) : Z := cursor c.
Definition getOffset (c : DwarfCursor) : Z := sub64 (cursor c) (cstart c).
Definition skip (bytes : Z) : reader unit := fun m c =>
  Ok (tt, mkCursor (cstart c) (add64 (cursor c) bytes)).
Definition lt (c other : DwarfCursor) : bool := cursor c <? cursor other.
Definition here : reader Z := fun m c => Ok (cursor c, c).
Definition fail {A} (e : fault) : reader A := fun m c => Err e.

(** [get] and [next] for the unsigned type of [n] bytes. *)
Definition get (n : nat) : reader Z := fun m c =>
  v ← peek m n (cursor c); Ok (v, c).
Definition next (n : nat) : reader Z :=
  e ← get n; _ ← skip (Z.of_nat n); mret e.
(** [next] for the signed type of [n] bytes. *)
Definition next_s (n : nat) : reader Z :=
  e ← next n; mret (swrap (8 * Z.of_nat n) e).

(** The common loop of [nextUleb128] and [nextSleb128].  The seven bits of a byte
    are shifted as an [int] of 32 bits: the value wraps, and a shift by 32 or more
    is undefined, so the loop goes around at most six times. *)
Fixpoint leb128_loop (fuel : nat) (result shift : Z) : reader (Z * Z * Z) :=
  match fuel with
  | O => fail OutOfFuel
  | S fuel =>
    byte ← next 1;
    if 32 <=? shift then fail Undefined
    else
      let result := Z.lor result (swrap 32 (Z.shiftl (Z.land byte 0x7f) shift)) in
      let shift := shift + 7 in
      if Z.land byte 0x80 =? 0 then mret (result, shift, byte)
      else leb128_loop fuel result shift
  end.

Definition nextSleb128 : reader Z :=
  '(result, shift, byte) ← leb128_loop 6 0 0;
  mret (if negb (Z.land byte 0x40 =? 0) && (shift <? 128)
        then Z.lor result (swrap 64 (Z.shiftl (2 ^ 63 - 1) shift)) else result).

Definition nextUleb128 : reader Z :=
  '(result, shift, byte) ← leb128_loop 6 0 0; mret (u64 result).

Fixpoint string_loop (fuel : nat) : reader unit :=
  match fuel with
  | O => fail OutOfFuel
  | S fuel => b ← next 1; if b =? 0 then mret tt else string_loop fuel
  end.
(** The result is the address of the string; the loop ends at the latest when it
    leaves the memory. *)
Definition nextString : reader Z := fun m c =>
  '(_, c') ← string_loop (S (length (mem_bytes m))) m c; Ok (cursor c, c').

(** A signed sum of 64 bits that overflows is undefined. *)
Definition sadd64 (a b : Z) : reader Z :=
  if (- 2 ^ 63 <=? a + b) && (a + b <? 2 ^ 63) then mret (a + b) else fail Undefined.

Definition parseNextEncodedPointer (encoding : Z) : reader Z :=
  if encoding =? DW_EH_PE_omit then mret 0
  else
    base ← here;
    let result := if Z.land encoding 0x70 =? DW_EH_PE_pcrel then swrap 64 base else 0 in
    let unsigned (r : reader Z) := v ← r; mret (swrap 64 (result + v)) in
    let signed (r : reader Z) := v ← r; sadd64 result v in
    switch (Z.land encoding 0x0f)
      [(DW_EH_PE_ptr, unsigned (next 8)); (DW_EH_PE_udata8, unsigned (next 8));
       (DW_EH_PE_uleb128, unsigned nextUleb128); (DW_EH_PE_udata2, unsigned (next 2));
       (DW_EH_PE_udata4, unsigned (next 4)); (DW_EH_PE_sleb128, signed nextSleb128);
       (DW_EH_PE_sdata2, signed (next_s 2)); (DW_EH_PE_sdata4, signed (next_s 4));
       (DW_EH_PE_sdata8, signed (next_s 8))] (mret result).
End DwarfCursor.

(** ** Register rules (state.h, state.cpp) *)

Inductive Arch := ARCH_X86_64 | ARCH_AARCH64 | ARCH_RISCV.

Record DwarfRegisterData := mkRegister { rtype : Z; roffset : Z }.

Definition NUM_REGISTERS (arch : Arch) : nat :=
  match arch with ARCH_X86_64 => 17 | ARCH_AARCH64 => 32 | ARCH_RISCV => 256 end.

(** The pointer [next] of a remembered state is the rest of the decoder's list; the
    pointer of the other states is copied but never followed. *)
Record DwarfState := mkState {
  registers : list DwarfRegisterData;
  cfaRegister : Z;
  cfaOffset : Z;
  cfaExpression : Z;
  cfaExpressionLength : Z }.

Module DwarfState.
Definition new (arch : Arch) : DwarfState :=
  mkState (replicate (NUM_REGISTERS arch) (mkRegister 0 0)) 0 0 0 0.
Definition get (reg : Z) (s : DwarfState) : res DwarfRegisterData := load (registers s) reg.
Definition set (reg : Z) (d : DwarfRegisterData) (s : DwarfState) : res DwarfState :=
  r ← store (registers s) reg d;
  Ok (mkState r (cfaRegister s) (cfaOffset s) (cfaExpression s) (cfaExpressionLength s)).
Definition setCfaRegister (r : Z) (s : DwarfState) : DwarfState :=
  mkState (registers s) r (cfaOffset s) (cfaExpression s) (cfaExpressionLength s).
Definition setCfaOffset (o : Z) (s : DwarfState) : DwarfState :=
  mkState (registers s) (cfaRegister s) o (cfaExpression s) (cfaExpressionLength s).
Definition setCfaExpression (e : Z) (s : DwarfState) : DwarfState :=
  mkState (registers s) (cfaRegister s) (cfaOffset s) e (cfaExpressionLength s).
Definition setCfaExpressionLength (l : Z) (s : DwarfState) : DwarfState :=
  mkState (registers s) (cfaRegister s) (cfaOffset s) (cfaExpression s) l.
End DwarfState.

(** ** Entries (entry.h, entry.cpp) *)

Record CIEAugmentation := mkAug {
  personalityEncoding : Z;
  personalityEncodingRoutine : Z;
  codeEnc : Z;
  lsdaEnc : Z;
  isSignal : bool }.

Module CIEAugmentation.
Definition new : CIEAugmentation := mkAug 0 0 0 DW_EH_PE_omit false.
Definition setPersonalityEncoding v a :=
  mkAug v (personalityEncodingRoutine a) (codeEnc a) (lsdaEnc a) (isSignal a).
Definition setPersonalityEncodingRoutine v a :=
  mkAug (personalityEncoding a) v (codeEnc a) (lsdaEnc a) (isSignal a).
Definition setCodeEnc v a :=
  mkAug (personalityEncoding a) (personalityEncodingRoutine a) v (lsdaEnc a) (isSignal a).
Definition setLsdaEnc v a :=
  mkAug (personalityEncoding a) (personalityEncodingRoutine a) (codeEnc a) v (isSignal a).
Definition setIsSignal v a :=
  mkAug (personalityEncoding a) (personalityEncodingRoutine a) (codeEnc a) (lsdaEnc a) v.
End CIEAugmentation.

(** The constructor of [DwarfCIE] leaves [augmentation] uninitialised; the outer
    option is [None] until the pointer is set. *)
Record DwarfCIE := mkCIE {
  cie_startAddress : Z;
  cie_length : Z;
  cie_state : option DwarfState;
  cie_index : Z;
  codeAlignFactor : Z;
  dataAlignFactor : Z;
  retAddressReg : Z;
  cie_augmentation : option (option CIEAugmentation) }.

Module DwarfCIE.
Definition new (startAddress length index : Z) : DwarfCIE :=
  mkCIE startAddress length None index 0 0 0 None.
Definition setState v c := mkCIE (cie_startAddress c) (cie_length c) v (cie_index c)
  (codeAlignFactor c) (dataAlignFactor c) (retAddressReg c) (cie_augmentation c).
Definition setCodeAlignFactor v c := mkCIE (cie_startAddress c) (cie_length c) (cie_state c)
  (cie_index c) v (dataAlignFactor c) (retAddressReg c) (cie_augmentation c).
Definition setDataAlignFactor v c := mkCIE (cie_startAddress c) (cie_length c) (cie_state c)
  (cie_index c) (codeAlignFactor c) v (retAddressReg c) (cie_augmentation c).
Definition setRetAddressReg v c := mkCIE (cie_startAddress c) (cie_length c) (cie_state c)
  (cie_index c) (codeAlignFactor c) (dataAlignFactor c) v (cie_augmentation c).
Definition setAugmentation v c := mkCIE (cie_startAddress c) (cie_length c) (cie_state c)
  (cie_index c) (codeAlignFactor c) (dataAlignFactor c) (retAddressReg c) (Some v).
Definition getAugmentation (c : DwarfCIE) : res (option CIEAugmentation) :=
  match cie_augmentation c with Some a => Ok a | None => Err Undefined end.
End DwarfCIE.

(** [fde_augmentation] is the pointer to the LSDA of [DwarfFDE::Augmentation]; like
    that of a CIE the member is uninitialised until it is set. *)
Record DwarfFDE := mkFDE {
  fde_startAddress : Z;
  fde_length : Z;
  fde_state : option DwarfState;
  fde_cieIndex : Z;
  ciePointer : Z;
  pcBegin : Z;
  pcRange : Z;
  fde_augmentation : option Z }.

Module DwarfFDE.
Definition new (startAddress length cieIndex : Z) : DwarfFDE :=
  mkFDE startAddress length None cieIndex 0 0 0 None.
Definition setCiePointer v f := mkFDE (fde_startAddress f) (fde_length f) (fde_state f)
  (fde_cieIndex f) v (pcBegin f) (pcRange f) (fde_augmentation f).
Definition setPcBegin v f := mkFDE (fde_startAddress f) (fde_length f) (fde_state f)
  (fde_cieIndex f) (ciePointer f) v (pcRange f) (fde_augmentation f).
Definition setPcRange v f := mkFDE (fde_startAddress f) (fde_length f) (fde_state f)
  (fde_cieIndex f) (ciePointer f) (pcBegin f) v (fde_augmentation f).
Definition setAugmentation v f := mkFDE (fde_startAddress f) (fde_length f) (fde_state f)
  (fde_cieIndex f) (ciePointer f) (pcBegin f) (pcRange f) (Some v).
End DwarfFDE.

Record DwarfUnwindInfo := mkInfo {
  cieList : list DwarfCIE;
  fdeList : list DwarfFDE;
  cieMap : gmap Z Z }.

Module DwarfUnwindInfo.
Definition new : DwarfUnwindInfo := mkInfo [] [] ∅.
(** The argument is a pointer; the null pointer is dereferenced. *)
Definition addCIE (cie : option DwarfCIE) (i : DwarfUnwindInfo) : res DwarfUnwindInfo :=
  match cie with
  | None => Err NullDeref
  | Some c => Ok (mkInfo (cieList i ++ [c]) (fdeList i)
                         (<[cie_startAddress c := cie_index c]> (cieMap i)))
  end.
Definition addFDE (fde : DwarfFDE) (i : DwarfUnwindInfo) : DwarfUnwindInfo :=
  mkInfo (cieList i) (fdeList i ++ [fde]) (cieMap i).
Definition getCIECount (i : DwarfUnwindInfo) : Z := Z.of_nat (length (cieList i)).
Definition findCIE (address : Z) (i : DwarfUnwindInfo) : option Z := cieMap i !! address.
Definition getCIE (cieIndex : Z) (i : DwarfUnwindInfo) : res DwarfCIE :=
  _ ← cassert (cieIndex <? getCIECount i); load (cieList i) cieIndex.
End DwarfUnwindInfo.

(** ** Expressions *)

(** Results of other operations in a reader. *)
Definition lift {A} (r : res A) : reader A := fun m c => a ← r; Ok (a, c).

Module DwarfExpressionDecoder.
Import DwarfCursor.

(** The evaluation stack, [evalStack.back()] first. *)
Abbreviation stack := (list Z).

Definition dereferencePointer (pointer : Z) : reader Z := fun m c =>
  v ← peek m 8 pointer; Ok (v, c).

Definition back (st : stack) : reader Z :=
  match st with v :: _ => mret v | [] => fail OutOfBounds end.
Definition pop (st : stack) : reader (Z * stack) :=
  match st with v :: st => mret (v, st) | [] => fail OutOfBounds end.
Definition at_back (f : Z -> reader Z) (st : stack) : reader stack :=
  '(v, st) ← pop st; w ← f v; mret (w :: st).
(** [evalStack[evalStack.size() - 1 - i]] *)
Definition nth_back (i : Z) (st : stack) : reader Z := lift (load st i).
Definition set_nth_back (i v : Z) (st : stack) : reader stack := lift (store st i v).

Definition decodeConstant (value : reader Z) (st : stack) : reader stack :=
  v ← value; mret (u64 v :: st).

(** [value = pop(); back() = f(back(), value)] *)
Definition binary (f : Z -> Z -> reader Z) (st : stack) : reader stack :=
  '(value, st) ← pop st; at_back (fun b => f b value) st.

Definition shift_ok (value : Z) (r : Z) : reader Z :=
  if value <? 64 then mret r else fail Undefined.
Definition flag (b : bool) : reader Z := mret (if b then 1 else 0).

(** One operation: the cases of the [switch] of [decode]. *)
Definition operation (state : DwarfState) (opcode : Z) (st : stack) : reader stack :=
  let offset_of reg := lift (DwarfState.get reg state) in
  if (DW_OP_lit0 <=? opcode) && (opcode <? DW_OP_lit0 + 32) then mret (opcode - DW_OP_lit0 :: st)
  else if (DW_OP_reg0 <=? opcode) && (opcode <? DW_OP_reg0 + 32) then
    r ← offset_of (opcode - DW_OP_reg0); mret (roffset r :: st)
  else if (DW_OP_breg0 <=? opcode) && (opcode <? DW_OP_breg0 + 32) then
    svalue ← nextSleb128; r ← offset_of (opcode - DW_OP_breg0);
    mret (add64 (roffset r) svalue :: st)
  else switch opcode
    [(DW_OP_addr, value ← next 8; mret (value :: st));
     (DW_OP_deref, '(value, st) ← pop st; v ← dereferencePointer value; mret (v :: st));
     (DW_OP_xderef, '(value, st) ← pop st; v ← dereferencePointer value; mret (v :: st));
     (DW_OP_const1u, decodeConstant (next 1) st);
     (DW_OP_const1s, decodeConstant (next_s 1) st);
     (DW_OP_const2u, decodeConstant (next 2) st);
     (DW_OP_const2s, decodeConstant (next_s 2) st);
     (DW_OP_const4u, decodeConstant (next 4) st);
     (DW_OP_const4s, decodeConstant (next_s 4) st);
     (DW_OP_const8u, decodeConstant (next 8) st);
     (DW_OP_const8s, decodeConstant (next_s 8) st);
     (DW_OP_constu, value ← nextUleb128; mret (value :: st));
     (DW_OP_consts, svalue ← nextSleb128; mret (u64 svalue :: st));
     (DW_OP_dup, value ← back st; mret (value :: st));
     (DW_OP_drop, '(_, st) ← pop st; mret st);
     (DW_OP_over, value ← nth_back 1 st; mret (value :: st));
     (DW_OP_pick, reg ← next 1; value ← nth_back reg st; mret (value :: st));
     (DW_OP_swap, value ← nth_back 0 st; below ← nth_back 1 st;
                  st ← set_nth_back 0 below st; set_nth_back 1 value st);
     (DW_OP_rot, value ← nth_back 0 st; second ← nth_back 1 st; st ← set_nth_back 0 second st;
                 third ← nth_back 2 st; st ← set_nth_back 1 third st; set_nth_back 2 value st);
     (DW_OP_abs, at_back (fun b => let svalue := swrap 64 b in
                  if svalue =? - 2 ^ 63 then fail Undefined
                  else mret (if svalue <? 0 then u64 (- svalue) else b)) st);
     (DW_OP_neg, at_back (fun b => mret (u64 (- b))) st);
     (DW_OP_not, at_back (fun b => mret (u64 (Z.lnot b))) st);
     (DW_OP_and, binary (fun b v => mret (Z.land b v)) st);
     (DW_OP_or, binary (fun b v => mret (Z.lor b v)) st);
     (DW_OP_xor, binary (fun b v => mret (Z.lxor b v)) st);
     (DW_OP_div, binary (fun b v => if v =? 0 then fail Undefined else mret (b / v)) st);
     (DW_OP_minus, binary (fun b v => mret (sub64 b v)) st);
     (DW_OP_mod, binary (fun b v => if v =? 0 then fail Undefined else mret (b mod v)) st);
     (DW_OP_mul, binary (fun b v => mret (u64 (b * v))) st);
     (DW_OP_plus, binary (fun b v => mret (add64 b v)) st);
     (DW_OP_plus_uconst, value ← nextUleb128; at_back (fun b => mret (add64 b value)) st);
     (DW_OP_shl, binary (fun b v => shift_ok v (u64 (Z.shiftl b v))) st);
     (DW_OP_shr, binary (fun b v => shift_ok v (Z.shiftr b v)) st);
     (DW_OP_shra, binary (fun b v => shift_ok v (u64 (Z.shiftr (swrap 64 b) v))) st);
     (DW_OP_skip, svalue ← next_s 2; _ ← skip svalue; mret st);
     (DW_OP_bra, svalue ← next_s 2;
                 match st with [] => mret [] | _ :: st => _ ← skip svalue; mret st end);
     (DW_OP_eq, binary (fun b v => flag (b =? v)) st);
     (DW_OP_ge, binary (fun b v => flag (v <=? b)) st);
     (DW_OP_gt, binary (fun b v => flag (v <? b)) st);
     (DW_OP_le, binary (fun b v => flag (b <=? v)) st);
     (DW_OP_lt, binary (fun b v => flag (b <? v)) st);
     (DW_OP_ne, binary (fun b v => flag (negb (b =? v))) st);
     (DW_OP_regx, reg ← nextUleb128; r ← offset_of reg; mret (roffset r :: st));
     (DW_OP_bregx, reg ← nextUleb128; svalue ← nextSleb128; r ← offset_of reg;
                   mret (add64 (roffset r) svalue :: st));
     (DW_OP_deref_size,
        '(value, st) ← pop st; size ← next 1;
        value ← switch size [(1, next 1); (2, next 2); (4, next 4); (8, next 8)] (mret value);
        mret (value :: st))]
    (mret st).

Fixpoint loop (fuel : nat) (end_ : DwarfCursor) (state : DwarfState) (st : stack)
  : reader stack := fun m c =>
  if negb (lt c end_) then Ok (st, c)
  else match fuel with
  | O => Err OutOfFuel
  | S fuel =>
    (opcode ← next 1; st ← operation state opcode st; loop fuel end_ state st) m c
  end.

(** [DwarfExpressionDecoder(start, state).decode()] *)
Definition decode (fuel : nat) (state : DwarfState) (start : DwarfCursor) (m : memory) : res Z :=
  '(length, start) ← nextUleb128 m start;
  '(_, end_) ← skip length m start;
  '(st, _) ← loop fuel end_ state [] m start;
  '(v, _) ← back st m start;
  Ok v.
End DwarfExpressionDecoder.

(** ** Call frame instructions *)

(** The members of [DwarfInstructionDecoder] that change; [rememberedState] is the
    list of remembered states, the last one first. *)
Record DwarfInstructionDecoder := mkDecoder {
  cfaIp : Z;
  dstate : DwarfState;
  rememberedState : list DwarfState }.

Module DwarfInstructionDecoder.
Import DwarfCursor.

Definition setIp ip (d : DwarfInstructionDecoder) := mkDecoder ip (dstate d) (rememberedState d).
Definition setState s (d : DwarfInstructionDecoder) := mkDecoder (cfaIp d) s (rememberedState d).

(** [state->set(reg, type, offset)] *)
Definition set_rule (reg type offset : Z) (d : DwarfInstructionDecoder)
  : reader DwarfInstructionDecoder :=
  s ← lift (DwarfState.set reg (mkRegister type offset) (dstate d)); mret (setState s d).

(** [state->set(reg, cie->getState()->get(reg))] *)
Definition restore_rule (cie : DwarfCIE) (reg : Z) (d : DwarfInstructionDecoder)
  : reader DwarfInstructionDecoder :=
  match cie_state cie with
  | None => fail NullDeref
  | Some initial =>
    r ← lift (DwarfState.get reg initial);
    s ← lift (DwarfState.set reg r (dstate d)); mret (setState s d)
  end.

Definition advance (cie : DwarfCIE) (ofs : Z) (d : DwarfInstructionDecoder)
  : reader DwarfInstructionDecoder :=
  mret (setIp (add64 (cfaIp d) (u64 (ofs * codeAlignFactor cie))) d).
Definition parseAdvanceLocN (cie : DwarfCIE) (n : nat) (d : DwarfInstructionDecoder)
  : reader DwarfInstructionDecoder := ofs ← next n; advance cie ofs d.

(** A product of two [int64_t]: an overflow is undefined. *)
Definition smul64 (a b : Z) : reader Z :=
  if (- 2 ^ 63 <=? a * b) && (a * b <? 2 ^ 63) then mret (a * b) else fail Undefined.

(** [DwarfExpressionDecoder(start, state).decode()] on a copy of the cursor. *)
Definition try_expression (fuel : nat) (s : DwarfState) : reader unit := fun m c =>
  _ ← DwarfExpressionDecoder.decode fuel s c m; Ok (tt, c).

Section step.
Variable fuel : nat.
Variable cie : DwarfCIE.
Variable end_ : DwarfCursor.

(** One instruction: the cases of the [switch], [op] being the low six bits. *)
Definition instruction (opcode op : Z) (d : DwarfInstructionDecoder)
  : reader DwarfInstructionDecoder :=
  let caf := codeAlignFactor cie in
  let daf := dataAlignFactor cie in
  let s := dstate d in
  switch opcode
    [(DW_CFA_advance_loc, advance cie op d);
     (DW_CFA_offset, o ← nextUleb128; set_rule op DW_CFA_offset (u64 (o * daf)) d);
     (DW_CFA_restore, restore_rule cie op d);
     (DW_CFA_set_loc,
        a ← lift (DwarfCIE.getAugmentation cie);
        match a with
        | Some a => ip ← parseNextEncodedPointer (codeEnc a); mret (setIp (u64 ip) d)
        | None => mret d
        end);
     (DW_CFA_advance_loc1, parseAdvanceLocN cie 1 d);
     (DW_CFA_advance_loc2, parseAdvanceLocN cie 2 d);
     (DW_CFA_advance_loc4, parseAdvanceLocN cie 4 d);
     (DW_CFA_offset_extended,
        reg ← nextUleb128; o ← nextUleb128; set_rule reg DW_CFA_offset (u64 (o * daf)) d);
     (DW_CFA_val_offset,
        reg ← nextUleb128; o ← nextUleb128; set_rule reg DW_CFA_val_offset (u64 (o * daf)) d);
     (DW_CFA_restore_extended, reg ← nextUleb128; restore_rule cie reg d);
     (DW_CFA_undefined, reg ← nextUleb128; set_rule reg DW_CFA_undefined 0 d);
     (DW_CFA_same_value, reg ← nextUleb128; set_rule reg DW_CFA_same_value 0 d);
     (DW_CFA_register,
        reg ← nextUleb128; o ← nextUleb128; set_rule reg DW_CFA_register o d);
     (DW_CFA_remember_state, mret (mkDecoder (cfaIp d) s (s :: rememberedState d)));
     (DW_CFA_restore_state,
        mret match rememberedState d with
             | t :: rest => mkDecoder (cfaIp d) t rest
             | [] => d
             end);
     (DW_CFA_def_cfa,
        r ← nextUleb128; o ← nextUleb128;
        mret (setState (DwarfState.setCfaExpression 0
               (DwarfState.setCfaOffset (swrap 64 o) (DwarfState.setCfaRegister r s))) d));
     (DW_CFA_def_cfa_register,
        r ← nextUleb128;
        mret (setState (DwarfState.setCfaExpression 0 (DwarfState.setCfaRegister r s)) d));
     (DW_CFA_def_cfa_offset,
        o ← nextUleb128; mret (setState (DwarfState.setCfaOffset (swrap 64 o) s) d));
     (DW_CFA_nop, mret d);
     (DW_CFA_def_cfa_expression,
        _ ← try_expression fuel s; e ← here; ul ← nextUleb128; _ ← skip ul;
        mret (setState (DwarfState.setCfaExpression e s) d));
     (DW_CFA_expression,
        reg ← nextUleb128; e ← here; d ← set_rule reg DW_CFA_expression e d;
        _ ← try_expression fuel (dstate d); ul ← nextUleb128; _ ← skip ul; mret d);
     (DW_CFA_val_expression,
        reg ← nextUleb128; _ ← try_expression fuel s; ul ← nextUleb128;
        old ← lift (DwarfState.get reg s);
        d ← set_rule reg DW_CFA_val_expression (roffset old) d; _ ← skip ul; mret d);
     (DW_CFA_offset_extended_sf,
        reg ← nextUleb128; l ← nextSleb128; o ← smul64 l daf;
        set_rule reg DW_CFA_offset (u64 o) d);
     (DW_CFA_val_offset_sf,
        reg ← nextUleb128; l ← nextSleb128; o ← smul64 l daf;
        set_rule reg DW_CFA_val_offset (u64 o) d);
     (DW_CFA_def_cfa_sf,
        r ← nextUleb128; l ← nextSleb128; o ← smul64 l daf;
        mret (setState (DwarfState.setCfaExpression 0
               (DwarfState.setCfaOffset o (DwarfState.setCfaRegister r s))) d));
     (DW_CFA_def_cfa_offset_sf,
        l ← nextSleb128; o ← smul64 l daf;
        mret (setState (DwarfState.setCfaOffset o s) d));
     (DW_CFA_MIPS_advance_loc8, ofs ← next 8; advance cie ofs d);
     (DW_CFA_GNU_window_save, mret d);
     (DW_CFA_GNU_args_size, _ ← nextUleb128; mret d);
     (DW_CFA_GNU_negative_offset_extended,
        reg ← nextUleb128; u ← nextUleb128; o ← smul64 (swrap 64 (- u)) daf;
        set_rule reg DW_CFA_offset (u64 o) d)]
    (fun m c => Ok (d, end_)).

Definition step (d : DwarfInstructionDecoder) : reader DwarfInstructionDecoder :=
  opcode ← next 1;
  let op := Z.land opcode 0x3f in
  instruction (if Z.land opcode 0xc0 =? 0 then opcode else Z.land opcode 0xc0) op d.

Fixpoint loop (n : nat) (d : DwarfInstructionDecoder) : reader DwarfInstructionDecoder :=
  fun m c =>
  if negb (lt c end_) then Ok (d, c)
  else match n with
  | O => Err OutOfFuel
  | S n => (d ← step d; loop n d) m c
  end.
End step.

Definition initial (arch : Arch) (cie : DwarfCIE) : DwarfState :=
  match cie_state cie with Some s => s | None => DwarfState.new arch end.

Definition parseInstructions (arch : Arch) (fuel : nat) (start end_ : DwarfCursor)
    (cie : DwarfCIE) (ip : Z) (m : memory) : res DwarfState :=
  '(d, _) ← loop fuel cie end_ fuel (mkDecoder ip (initial arch cie) []) m start;
  Ok (dstate d).
End DwarfInstructionDecoder.

(** ** The parser *)

(** [readAddress] and [virtualAddress] of the section; [pinfo] is [info]. *)
Record DwarfParser := mkParser {
  readAddress : Z;
  virtualAddress : Z;
  pinfo : option DwarfUnwindInfo }.

Module DwarfParser.
Import DwarfCursor.

Section parser.
Variable arch : Arch.
Variable fuel : nat.

(** The letters of the augmentation string, read at [ptr]. *)
Fixpoint augmentation_loop (n : nat) (ptr : Z) (a : CIEAugmentation) : reader CIEAugmentation :=
  match n with
  | O => fail OutOfFuel
  | S n =>
    letter ← (fun m c => v ← peek m 1 ptr; Ok (v, c));
    if letter =? 0 then mret a
    else
      a ← switch letter
        [(80 (* P *), e ← next 1; let a := CIEAugmentation.setPersonalityEncoding e a in
                      r ← parseNextEncodedPointer (personalityEncoding a);
                      mret (CIEAugmentation.setPersonalityEncodingRoutine (u64 r) a));
         (82 (* R *), e ← next 1; mret (CIEAugmentation.setCodeEnc e a));
         (76 (* L *), e ← next 1; mret (CIEAugmentation.setLsdaEnc e a));
         (83 (* S *), mret (CIEAugmentation.setIsSignal true a))] (mret a);
      augmentation_loop n (ptr + 1) a
  end.

Definition read_augmentation (str : Z) : reader CIEAugmentation := fun m =>
  augmentation_loop (S (length (mem_bytes m))) (str + 1) CIEAugmentation.new m.

(** The rest of [parseCIE] once the fields of the entry are read. *)
Definition decode_rules (end_ : DwarfCursor) (cie : DwarfCIE) : reader (option DwarfCIE) :=
  fun m c =>
  s ← DwarfInstructionDecoder.parseInstructions arch fuel c end_ cie 0 m;
  Ok (Some (DwarfCIE.setState (Some s) cie), c).

(** The body of [parseCIE], from the version on. *)
Definition cie_fields (end_ : DwarfCursor) (cie : DwarfCIE) : reader (option DwarfCIE) :=
  version ← next 1;
  if negb (version =? 1) && negb (version =? 3) then mret None
  else
    str ← nextString;
    caf ← nextUleb128; let cie := DwarfCIE.setCodeAlignFactor caf cie in
    daf ← nextSleb128; let cie := DwarfCIE.setDataAlignFactor daf cie in
    reg ← nextUleb128; let cie := DwarfCIE.setRetAddressReg reg cie in
    letter ← (fun m c => v ← peek m 1 str; Ok (v, c));
    if letter =? 0 then decode_rules end_ cie
    else if negb (letter =? 122 (* z *)) then mret None
    else
      _ ← nextUleb128;
      a ← read_augmentation str;
      decode_rules end_ (DwarfCIE.setAugmentation (Some a) cie).

(** The result is a pointer, null when the entry is rejected. *)
Definition parseCIE (start end_ : DwarfCursor) (length index : Z) (m : memory)
  : res (option DwarfCIE) :=
  '(r, _) ← cie_fields end_ (DwarfCIE.new (getStart start) length index) m start;
  Ok r.

(** The body of [parseFDE]: bounds and augmentation of the entry. *)
Definition fde_fields (p : DwarfParser) (aug : option CIEAugmentation) (fde : DwarfFDE)
  : reader DwarfFDE :=
  let enc := match aug with Some a => codeEnc a | None => 0 end in
  begin ← parseNextEncodedPointer enc;
  let fde := DwarfFDE.setPcBegin (swrap 64 (begin + virtualAddress p - readAddress p)) fde in
  range ← parseNextEncodedPointer (Z.land enc 0x0f);
  let fde := DwarfFDE.setPcRange (u64 range) fde in
  match aug with
  | Some a =>
    _ ← nextUleb128;
    lsda ← parseNextEncodedPointer (lsdaEnc a);
    mret (DwarfFDE.setAugmentation (u64 lsda) fde)
  | None => mret fde
  end.

Definition parseFDE (p : DwarfParser) (info : DwarfUnwindInfo) (start : DwarfCursor)
    (length cieIndex entryID : Z) (m : memory) : res DwarfFDE :=
  cie ← DwarfUnwindInfo.getCIE cieIndex info;
  let fde := DwarfFDE.setCiePointer entryID (DwarfFDE.new (getStart start) length cieIndex) in
  aug ← DwarfCIE.getAugmentation cie;
  '(fde, _) ← fde_fields p aug fde m start;
  Ok fde.

(** One iteration of the loop of [parse]: [None] when the terminator is found. *)
Definition parse_entry (p : DwarfParser) (info : DwarfUnwindInfo) (start : DwarfCursor)
    (m : memory) : res (option (DwarfUnwindInfo * DwarfCursor)) :=
  '(length, start) ← next 4 m start;
  '(length, entryLength, start) ←
    (if length =? 0xffffffff then
       '(length, start) ← next 8 m start; Ok (length, add64 length 8, start)
     else Ok (length, length + 4, start));
  if length =? 0 then Ok None
  else
    let startOfEntry := new (getCursor start) in
    let endOfEntry := new (add64 (getStart start) entryLength) in
    '(entryID, start) ← next 4 m start;
    info ←
      (if entryID =? 0 then
         cie ← parseCIE start endOfEntry length (DwarfUnwindInfo.getCIECount info) m;
         DwarfUnwindInfo.addCIE cie info
       else match DwarfUnwindInfo.findCIE (sub64 (getCursor startOfEntry) entryID) info with
            | Some cieIndex =>
              fde ← parseFDE p info start length cieIndex entryID m;
              Ok (DwarfUnwindInfo.addFDE fde info)
            | None => Ok info
            end);
    Ok (Some (info, endOfEntry)).

Fixpoint parse_loop (n : nat) (p : DwarfParser) (info : DwarfUnwindInfo)
    (start end_ : DwarfCursor) (m : memory) : res DwarfUnwindInfo :=
  if negb (lt start end_) then Ok info
  else match n with
  | O => Err OutOfFuel
  | S n =>
    r ← parse_entry p info start m;
    match r with
    | None => Ok info
    | Some (info, start) => parse_loop n p info start end_ m
    end
  end.

Definition parse (virtualSize : Z) (p : DwarfParser) (m : memory) : res DwarfParser :=
  info ← parse_loop fuel p DwarfUnwindInfo.new (new (readAddress p))
           (new (add64 (readAddress p) virtualSize)) m;
  Ok (mkParser (readAddress p) (virtualAddress p) (Some info)).

(** The constructor, given the read address, the virtual address and the size of the
    section .eh_frame, if there is one. *)
Definition build (section : option (Z * Z * Z)) (m : memory) : res DwarfParser :=
  match section with
  | Some (r, v, size) => parse size (mkParser r v None) m
  | None => Ok (mkParser 0 0 None)
  end.
End parser.
End DwarfParser.
