(* ===== verification/DwarfProofs.v ===== *)
(** * Correctness of the .eh_frame parser

    Reading is described by the bytes at the cursor: [reads r a bs v] says that the
    reader [r] at address [a] consumes the bytes [bs] and returns [v].  The file
    characterises the variable-length integers, shows that the decoder of call
    frame instructions implements the rule table of the DWARF standard, and that
    the parser finds the entries of an encoded section. *)

From S2P Require Import Prelude Dwarf.
Import DwarfCursor.

(** ** Bytes at an address *)

(** [bs] is stored at address [a]. *)
Definition at_mem (m : memory) (a : Z) (bs : list Z) : Prop :=
  exists pre post, mem_bytes m = pre ++ bs ++ post /\ a = mem_base m + Z.of_nat (length pre).

(** The memory lies in the lower half of the address space. *)
Definition mem_ok (m : memory) : Prop :=
  0 <= mem_base m /\ mem_base m + Z.of_nat (length (mem_bytes m)) < 2 ^ 63.

Lemma at_mem_app m a bs1 bs2 :
  at_mem m a (bs1 ++ bs2) <-> at_mem m a bs1 /\ at_mem m (a + Z.of_nat (length bs1)) bs2.
Proof.
  split.
  - intros (pre&post&E&->). split.
    + exists pre, (bs2 ++ post). by rewrite E, <- !app_assoc.
    + exists (pre ++ bs1), post. rewrite E, <- !app_assoc, length_app. split; [done|lia].
  - intros [(pre&post&E&->) (pre2&post2&E2&Ha)].
    exists pre, post2. split; [|done]. rewrite <- app_assoc.
    assert (Hp : pre2 = pre ++ bs1).
    { apply (f_equal (take (length pre2))) in E2 as E3. rewrite take_app_length in E3.
      rewrite <- E3, E, app_assoc. rewrite take_app_le by (rewrite length_app; lia).
      rewrite take_ge; [done|rewrite length_app; lia]. }
    by rewrite E2, Hp, <- app_assoc.
Qed.

Lemma at_mem_nil m a bs : at_mem m a bs -> at_mem m a [].
Proof. intros H. rewrite <- (app_nil_l bs) in H. by apply at_mem_app in H as [? _]. Qed.

Lemma at_mem_bounds m a bs : mem_ok m -> at_mem m a bs ->
  0 <= a /\ a + Z.of_nat (length bs) < 2 ^ 63.
Proof.
  intros [Hb Hl] (pre&post&E&->). rewrite E, !length_app in Hl. lia.
Qed.

(** ** Readers *)

Section readers.
Context {m : memory} (Hm : mem_ok m).

Definition reads {A} (r : reader A) (a : Z) (bs : list Z) (v : A) : Prop :=
  at_mem m a bs -> forall s, r m (mkCursor s a) = Ok (v, mkCursor s (a + Z.of_nat (length bs))).

Lemma reads_ret {A} (v : A) a : reads (mret v) a [] v.
Proof. intros _ s. unfold mret, reader_ret. cbn. by rewrite Z.add_0_r. Qed.

Lemma reads_ret_eq {A} (v w : A) a : v = w -> reads (mret v) a [] w.
Proof. intros <-. apply reads_ret. Qed.

Lemma reads_bind {A B} (r : reader A) (k : A -> reader B) a bs1 bs2 v w :
  reads r a bs1 v -> reads (k v) (a + Z.of_nat (length bs1)) bs2 w ->
  reads (r ≫= k) a (bs1 ++ bs2) w.
Proof.
  intros H1 H2 Hat s. apply at_mem_app in Hat as [Ha Hb].
  unfold mbind, reader_bind. rewrite H1 by done. rewrite H2 by done.
  do 3 f_equal. rewrite length_app. lia.
Qed.

(** The rest of the reader consumes nothing, or the first part does. *)
Lemma reads_last {A B} (r : reader A) (k : A -> reader B) a bs v w :
  reads r a bs v -> reads (k v) (a + Z.of_nat (length bs)) [] w -> reads (r ≫= k) a bs w.
Proof. intros H1 H2. rewrite <- (app_nil_r bs). by eapply reads_bind. Qed.

Lemma reads_first {A B} (r : reader A) (k : A -> reader B) a bs v w :
  reads r a [] v -> reads (k v) a bs w -> reads (r ≫= k) a bs w.
Proof.
  intros H1 H2. change bs with ([] ++ bs). eapply reads_bind; [done|].
  cbn. by rewrite Z.add_0_r.
Qed.

(** A reader that ends with a pure step. *)
Lemma reads_map {A B} (r : reader A) (f : A -> B) a bs v :
  reads r a bs v -> reads (r ≫= fun x => mret (f x)) a bs (f v).
Proof. intros H. eapply reads_last; [done|apply reads_ret]. Qed.

Lemma reads_here a : reads here a [] a.
Proof. intros _ s. unfold here. cbn. by rewrite Z.add_0_r. Qed.

Lemma reads_lift {A} (r : res A) a v : r = Ok v -> reads (lift r) a [] v.
Proof. intros -> _ s. unfold lift. cbn. by rewrite Z.add_0_r. Qed.

Lemma peek_at n a bs : length bs = n -> at_mem m a bs -> peek m n a = Ok (le_value bs).
Proof.
  intros Hl (pre&post&E&->). unfold peek. rewrite E, !length_app.
  rewrite (proj2 (Z.ltb_ge _ _)), (proj2 (Z.ltb_ge _ _)) by lia. cbn [orb].
  rewrite Z.add_simpl_l, Nat2Z.id, drop_app_length, <- Hl, take_app_length. done.
Qed.

Lemma reads_next n a bs : length bs = n -> reads (next n) a bs (le_value bs).
Proof.
  intros Hl Hat s. unfold next, mbind, reader_bind, get, mret, reader_ret. cbn [cursor].
  rewrite (peek_at n a bs) by done. cbn. unfold add64.
  rewrite wrap_small, Hl; [done|]. apply at_mem_bounds in Hat; [|done]. lia.
Qed.

Lemma reads_unsigned n a v : 0 <= v < 256 ^ Z.of_nat n -> reads (next n) a (le_bytes n v) v.
Proof.
  intros Hv. rewrite <- (le_value_bytes n v) at 2 by done. apply reads_next, le_bytes_length.
Qed.

Lemma reads_byte a b : reads (next 1) a [b] b.
Proof. pose proof (reads_next 1 a [b] eq_refl) as H. cbn in H. by rewrite Z.add_0_r in H. Qed.
End readers.
Arguments reads m {A} r a bs v.

(** ** Variable-length integers *)

(** A LEB128 number: all bytes but the last have the high bit set. *)
Fixpoint leb_form (bs : list Z) : Prop :=
  match bs with
  | [] => False
  | [b] => 0 <= b < 128
  | b :: bs => 128 <= b < 256 /\ leb_form bs
  end.

(** Its value: the low seven bits of the bytes, least significant first. *)
Fixpoint uleb_value (bs : list Z) : Z :=
  match bs with [] => 0 | b :: bs => b mod 128 + 128 * uleb_value bs end.
(** Its value as a signed number: bit 6 of the last byte is the sign. *)
Definition sleb_value (bs : list Z) : Z :=
  uleb_value bs - (if 64 <=? List.last bs 0 then 128 ^ Z.of_nat (length bs) else 0).

Lemma leb_form_cons b bs : leb_form (b :: bs) ->
  (bs = [] /\ 0 <= b < 128) \/ (leb_form bs /\ 128 <= b < 256).
Proof. destruct bs; cbn; naive_solver. Qed.

Lemma low7 b : Z.land b 0x7f = b mod 128.
Proof. change 0x7f with (Z.ones 7). by rewrite Z.land_ones. Qed.

Lemma bit_test b i : 0 <= i -> (Z.land b (2 ^ i) =? 0) = negb (Z.testbit b i).
Proof.
  intros Hi. apply eq_true_iff_eq. rewrite Z.eqb_eq, negb_true_iff. split.
  - intros E. pose proof (Z.land_spec b (2 ^ i) i) as H. rewrite E, Z.bits_0, Z.pow2_bits_true in H by done.
    by rewrite andb_true_r in H.
  - intros E. apply Z.bits_inj'. intros j Hj. rewrite Z.land_spec, Z.bits_0, Z.pow2_bits_eqb by done.
    destruct (Z.eqb_spec i j); [subst; by rewrite E|apply andb_false_r].
Qed.

Lemma high_bit b : 0 <= b < 256 -> (Z.land b 0x80 =? 0) = (b <? 128).
Proof.
  intros Hb. change 0x80 with (2 ^ 7). rewrite bit_test by lia.
  rewrite Z.testbit_odd, Z.shiftr_div_pow2 by lia. change (2 ^ 7) with 128.
  destruct (Z.ltb_spec b 128).
  - by rewrite Z.div_small by lia.
  - by replace (b / 128) with 1 by zdiv.
Qed.

Lemma sign_bit b : 0 <= b < 128 -> (Z.land b 0x40 =? 0) = (b <? 64).
Proof.
  intros Hb. change 0x40 with (2 ^ 6). rewrite bit_test by lia.
  rewrite Z.testbit_odd, Z.shiftr_div_pow2 by lia. change (2 ^ 6) with 64.
  destruct (Z.ltb_spec b 64).
  - by rewrite Z.div_small by lia.
  - by replace (b / 64) with 1 by zdiv.
Qed.

(** The sum of numbers without common bits. *)
Lemma lor_low r x k : 0 <= k -> 0 <= r < 2 ^ k -> Z.lor r (x * 2 ^ k) = r + x * 2 ^ k.
Proof.
  intros Hk Hr. assert (E : Z.land r (x * 2 ^ k) = 0).
  { apply Z.bits_inj'. intros i Hi. rewrite Z.land_spec, Z.bits_0.
    destruct (Z.lt_ge_cases i k); [rewrite (Z.mul_pow2_bits_low x) by done; apply andb_false_r|].
    by rewrite (testbit_high k r) by lia. }
  by rewrite <- Z.lxor_lor, Z.add_nocarry_lxor.
Qed.

Definition group (k : Z) : Prop := k ∈ [0; 7; 14; 21; 28].

Lemma swrap_group k x : group k -> exists y, swrap 32 (x * 2 ^ k) = y * 2 ^ k.
Proof.
  intros Hk. exists (x - (x * 2 ^ k + 2 ^ 31) / 2 ^ 32 * 2 ^ (32 - k)). unfold swrap.
  unfold group in Hk. members Hk; cbn -[Z.div Z.modulo]; zdiv.
Qed.

Lemma lor_group k r b : group k -> 0 <= r < 2 ^ k -> 0 <= b < 128 ->
  Z.lor r (swrap 32 (Z.shiftl b k)) = swrap 32 (r + b * 2 ^ k).
Proof.
  intros Hk Hr Hb. assert (0 <= k) by (unfold group in Hk; members Hk; lia).
  rewrite Z.shiftl_mul_pow2 by done.
  destruct (swrap_group k b Hk) as [y E]. rewrite E, lor_low, <- E by done. unfold swrap.
  unfold group in Hk. members Hk; cbn -[Z.div Z.modulo] in *; zdiv.
Qed.

Lemma swrap_group_small k x : group k -> k <> 28 -> 0 <= x < 2 ^ k * 128 -> swrap 32 x = x.
Proof.
  intros Hk Hne Hx. unfold swrap. unfold group in Hk.
  members Hk; try done; cbn -[Z.modulo] in *; rewrite Z.mod_small; lia.
Qed.

Lemma swrap32_small x : - 2 ^ 31 <= x < 2 ^ 31 -> swrap 32 x = x.
Proof. intros H. unfold swrap. rewrite Z.mod_small; lia. Qed.

(** The sign extension of [nextSleb128]. *)
Lemma negative_sleb n u : (n <= 5)%nat -> n <> 0%nat -> 0 <= u < 128 ^ Z.of_nat n ->
  - 2 ^ 31 <= u - 128 ^ Z.of_nat n < 2 ^ 31 ->
  Z.lor (swrap 32 u) (swrap 64 (Z.shiftl (2 ^ 63 - 1) (7 * Z.of_nat n))) = u - 128 ^ Z.of_nat n.
Proof.
  intros Hn Hz Hu Hv.
  assert (E : swrap 64 (Z.shiftl (2 ^ 63 - 1) (7 * Z.of_nat n)) = -1 * 2 ^ (7 * Z.of_nat n)).
  { do 6 (destruct n as [|n]; [done || vm_compute; done|]). lia. }
  rewrite E. assert (E2 : 128 ^ Z.of_nat n = 2 ^ (7 * Z.of_nat n)) by (rewrite Z.pow_mul_r by lia; done).
  rewrite E2 in *. destruct (decide (n = 5%nat)) as [->|].
  - change (2 ^ (7 * Z.of_nat 5)) with (2 ^ 35) in *.
    replace (swrap 32 u) with (u - 2 ^ 35) by (unfold swrap; cbn -[Z.modulo] in *; zdiv).
    apply Z.bits_inj'. intros i Hi. rewrite Z.lor_spec.
    destruct (Z.lt_ge_cases i 35); [by rewrite Z.mul_pow2_bits_low, orb_false_r by done|].
    rewrite (Z.mul_pow2_bits (-1)), Z.bits_m1, orb_true_r by lia. symmetry.
    rewrite <- (Z.lnot_involutive (u - 2 ^ 35)), Z.lnot_spec by done. apply negb_true_iff.
    apply (testbit_high 35); unfold Z.lnot, Z.pred in *; cbn in *; lia.
  - assert (2 ^ (7 * Z.of_nat n) <= 2 ^ 28) by (apply Z.pow_le_mono_r; lia).
    rewrite swrap32_small by (cbn in *; lia). rewrite lor_low by lia. lia.
Qed.

Section leb128.
Context {m : memory} (Hm : mem_ok m).

(** The loop on a number of at most five bytes. *)
Lemma leb128_loop_reads k r bs a : leb_form bs -> (k + length bs <= 5)%nat ->
  0 <= r < 2 ^ (7 * Z.of_nat k) ->
  reads m (leb128_loop (6 - k) r (7 * Z.of_nat k)) a bs
    (swrap 32 (r + uleb_value bs * 2 ^ (7 * Z.of_nat k)),
     7 * Z.of_nat (k + length bs), List.last bs 0).
Proof.
  revert k r a. induction bs as [|b bs IH]; intros k r a Hf Hk Hr; [done|].
  assert (Hg : group (7 * Z.of_nat k)).
  { unfold group. cbn in Hk. do 5 (destruct k as [|k]; [cbn; set_solver|]). lia. }
  cbn [length] in Hk. replace (6 - k)%nat with (S (5 - k)) by lia. cbn [leb128_loop].
  change (b :: bs) with ([b] ++ bs). eapply reads_bind; [by apply reads_byte|].
  rewrite (proj2 (Z.leb_gt _ _)) by lia. rewrite low7, lor_group by (done || apply Z.mod_pos_bound; lia).
  apply leb_form_cons in Hf as [[-> Hb]|[Hf Hb]].
  - rewrite high_bit, (proj2 (Z.ltb_lt _ _)) by lia. cbn [app List.last length uleb_value].
    rewrite Z.mul_0_r, Z.add_0_r. replace (7 * Z.of_nat k + 7) with (7 * Z.of_nat (k + 1)) by lia.
    apply reads_ret.
  - rewrite high_bit, (proj2 (Z.ltb_ge _ _)) by lia.
    assert (Hne : (1 <= length bs)%nat) by (destruct bs; cbn in *; [done|lia]).
    specialize (IH (S k) (r + b mod 128 * 2 ^ (7 * Z.of_nat k)) (a + Z.of_nat (length [b])) Hf).
    replace (7 * Z.of_nat (S k)) with (7 * Z.of_nat k + 7) in IH by lia.
    rewrite Z.pow_add_r in IH by lia. change (2 ^ 7) with 128 in IH.
    assert (Hs : swrap 32 (r + b mod 128 * 2 ^ (7 * Z.of_nat k)) = r + b mod 128 * 2 ^ (7 * Z.of_nat k)).
    { apply (swrap_group_small (7 * Z.of_nat k)); [done|lia|].
      pose proof (Z.mod_pos_bound b 128). nia. }
    rewrite Hs. replace (6 - S k)%nat with (5 - k)%nat in IH by lia.
    cbn [app uleb_value]. change (b :: bs) with ([b] ++ bs). replace (List.last ([b] ++ bs) 0) with (List.last bs 0) by (by destruct bs).
    replace (k + length ([b] ++ bs))%nat with (S k + length bs)%nat by (cbn; lia).
    replace (r + (b mod 128 + 128 * uleb_value bs) * 2 ^ (7 * Z.of_nat k)) with
      (r + b mod 128 * 2 ^ (7 * Z.of_nat k) + uleb_value bs * (2 ^ (7 * Z.of_nat k) * 128)) by lia.
    apply IH; [lia|]. pose proof (Z.mod_pos_bound b 128). nia.
Qed.

(** The loop on a longer number. *)
Lemma leb128_loop_long k r bs a s : leb_form bs -> (k <= 5)%nat -> (5 < k + length bs)%nat ->
  at_mem m a bs -> leb128_loop (6 - k) r (7 * Z.of_nat k) m (mkCursor s a) = Err Undefined.
Proof.
  revert k r a. induction bs as [|b bs IH]; intros k r a Hf Hk Hl Hat; [done|].
  replace (6 - k)%nat with (S (5 - k)) by lia. cbn [leb128_loop].
  change (b :: bs) with ([b] ++ bs) in Hat. apply at_mem_app in Hat as [Hb Hbs].
  unfold mbind, reader_bind at 1. rewrite (reads_byte Hm a b Hb s).
  destruct (Z.leb_spec 32 (7 * Z.of_nat k)); [done|].
  apply leb_form_cons in Hf as [[-> ?]|[Hf ?]]; [cbn in Hl; lia|].
  rewrite high_bit, (proj2 (Z.ltb_ge _ _)) by lia.
  replace (7 * Z.of_nat k + 7) with (7 * Z.of_nat (S k)) by lia.
  replace (5 - k)%nat with (6 - S k)%nat by lia. apply IH; [done|lia|cbn in Hl; lia|done].
Qed.

Lemma uleb_value_bound bs : 0 <= uleb_value bs < 128 ^ Z.of_nat (length bs).
Proof.
  induction bs as [|b bs IH]; [done|]. cbn [uleb_value length].
  rewrite Nat2Z.inj_succ, Z.pow_succ_r by lia. pose proof (Z.mod_pos_bound b 128). lia.
Qed.

Lemma reads_uleb_any bs a : leb_form bs -> (length bs <= 5)%nat ->
  reads m nextUleb128 a bs (u64 (swrap 32 (uleb_value bs))).
Proof.
  intros Hf Hl. unfold nextUleb128.
  eapply reads_last; [apply (leb128_loop_reads 0 0 bs a); [done|lia|done]|].
  change (2 ^ (7 * Z.of_nat 0)) with 1. rewrite Z.mul_1_r. apply reads_ret.
Qed.

Lemma reads_uleb bs a : leb_form bs -> (length bs <= 5)%nat -> uleb_value bs < 2 ^ 31 ->
  reads m nextUleb128 a bs (uleb_value bs).
Proof.
  intros Hf Hl Hv. pose proof (uleb_value_bound bs).
  pose proof (reads_uleb_any bs a Hf Hl) as Hr.
  by rewrite swrap32_small, wrap_small in Hr by lia.
Qed.

Lemma last_byte bs : leb_form bs -> 0 <= List.last bs 0 < 128.
Proof.
  induction bs as [|b bs IH]; [done|]. intros [[-> ?]|[Hf ?]]%leb_form_cons; [done|].
  destruct bs; [done|]. by apply IH.
Qed.

Lemma reads_sleb bs a : leb_form bs -> (length bs <= 5)%nat -> - 2 ^ 31 <= sleb_value bs < 2 ^ 31 ->
  reads m nextSleb128 a bs (sleb_value bs).
Proof.
  intros Hf Hl Hv. unfold nextSleb128.
  eapply reads_last; [apply (leb128_loop_reads 0 0 bs a); [done|lia|done]|].
  change (2 ^ (7 * Z.of_nat 0)) with 1. rewrite Z.mul_1_r, Z.add_0_l, Nat.add_0_l.
  pose proof (last_byte bs Hf) as Hb. rewrite sign_bit by done.
  rewrite (proj2 (Z.ltb_lt (7 * _) 128)) by lia. unfold sleb_value in *.
  pose proof (uleb_value_bound bs) as Hu.
  destruct (Z.ltb_spec (List.last bs 0) 64); cbn [negb andb].
  - rewrite (proj2 (Z.leb_gt _ _)) in * by lia. rewrite Z.sub_0_r in *.
    rewrite swrap32_small by lia. apply reads_ret.
  - rewrite (proj2 (Z.leb_le _ _)) in * by lia.
    replace (Z.lor _ _) with (uleb_value bs - 128 ^ Z.of_nat (length bs)); [apply reads_ret|].
    symmetry. apply negative_sleb; [done|by destruct bs|done|lia].
Qed.
End leb128.
Arguments reads_uleb {m} Hm bs a.
Arguments reads_sleb {m} Hm bs a.

(** The shortest encodings, as the assembler emits them. *)
Fixpoint uleb_encode (n : nat) (v : Z) : list Z :=
  match n with
  | O => []
  | S n => if v <? 128 then [v] else v mod 128 + 128 :: uleb_encode n (v / 128)
  end.
Definition uleb128 (v : Z) : list Z := uleb_encode 5 v.

Fixpoint sleb_encode (n : nat) (v : Z) : list Z :=
  match n with
  | O => []
  | S n => if (- 64 <=? v) && (v <? 64) then [v mod 128]
           else v mod 128 + 128 :: sleb_encode n (v / 128)
  end.
Definition sleb128 (v : Z) : list Z := sleb_encode 5 v.

Lemma uleb_encode_ok n v : 0 <= v < 128 ^ Z.of_nat (S n) ->
  leb_form (uleb_encode (S n) v) /\ (length (uleb_encode (S n) v) <= S n)%nat /\
  uleb_value (uleb_encode (S n) v) = v.
Proof.
  revert v. induction n as [|n IH]; intros v Hv; cbn [uleb_encode];
    (destruct (Z.ltb_spec v 128); [cbn -[Z.modulo]; rewrite Z.mod_small; lia|]).
  - cbn in Hv. lia.
  - rewrite Nat2Z.inj_succ, Z.pow_succ_r in Hv by lia.
    destruct (IH (v / 128)) as (Hf&Hl&Hu); [zdiv|]. cbn [uleb_encode] in *.
    pose proof (Z.mod_pos_bound v 128). split_and!.
    + destruct (v / 128 <? 128); cbn -[Z.modulo Z.div] in *; split; auto; lia.
    + cbn [length]. lia.
    + cbn [uleb_value]. rewrite Hu. zdiv.
Qed.

Lemma sleb_short v : - 64 <= v < 64 -> sleb_value [v mod 128] = v.
Proof.
  intros Hv. unfold sleb_value. cbn -[Z.modulo Z.leb]. rewrite Z.mod_mod by lia.
  destruct (Z.leb_spec 64 (v mod 128)); zdiv.
Qed.

Lemma sleb_value_cons b bs : bs <> [] -> sleb_value (b :: bs) = b mod 128 + 128 * sleb_value bs.
Proof.
  intros Hb. unfold sleb_value. destruct bs as [|b' bs]; [done|].
  change (List.last (b :: b' :: bs) 0) with (List.last (b' :: bs) 0).
  cbn [length uleb_value]. rewrite (Nat2Z.inj_succ (S _)), Z.pow_succ_r by lia.
  case_if; lia.
Qed.

Lemma sleb_encode_ok n v : - 64 * 128 ^ Z.of_nat n <= v < 64 * 128 ^ Z.of_nat n ->
  leb_form (sleb_encode (S n) v) /\ (length (sleb_encode (S n) v) <= S n)%nat /\
  sleb_value (sleb_encode (S n) v) = v.
Proof.
  assert (step : forall n, sleb_encode (S n) v = if (- 64 <=? v) && (v <? 64) then [v mod 128]
    else v mod 128 + 128 :: sleb_encode n (v / 128)) by done.
  revert v step. induction n as [|n IH]; intros v step Hv; rewrite step;
    destruct ((- 64 <=? v) && (v <? 64)) eqn:E;
    try (zbool; rewrite sleb_short by lia; cbn -[Z.modulo]; pose proof (Z.mod_pos_bound v 128); lia).
  - apply andb_false_iff in E. cbn in Hv. destruct E; zbool; lia.
  - rewrite Nat2Z.inj_succ, Z.pow_succ_r in Hv by lia.
    destruct (IH (v / 128)) as (Hf&Hl&Hu); [done|zdiv|].
    set (bs := sleb_encode (S n) (v / 128)) in *. assert (bs <> []) by (by intros F; rewrite F in Hf).
    pose proof (Z.mod_pos_bound v 128). split_and!.
    + destruct bs; [done|]. split; [lia|done].
    + cbn [length]. lia.
    + rewrite sleb_value_cons, Hu by done. zdiv.
Qed.

Section encoded.
Context {m : memory} (Hm : mem_ok m).

Lemma reads_uleb128 v a : 0 <= v < 2 ^ 31 -> reads m nextUleb128 a (uleb128 v) v.
Proof.
  intros Hv. destruct (uleb_encode_ok 4 v) as (Hf&Hl&Hu); [cbn; lia|].
  rewrite <- Hu at 2. apply reads_uleb; [done..|]. unfold uleb128 in *. lia.
Qed.

Lemma reads_sleb128 v a : - 2 ^ 31 <= v < 2 ^ 31 -> reads m nextSleb128 a (sleb128 v) v.
Proof.
  intros Hv. destruct (sleb_encode_ok 4 v) as (Hf&Hl&Hu); [cbn; lia|].
  rewrite <- Hu at 2. apply reads_sleb; [done..|]. unfold sleb128 in *. lia.
Qed.

Lemma reads_signed n a v : (0 < n)%nat ->
  - 2 ^ (8 * Z.of_nat n - 1) <= v < 2 ^ (8 * Z.of_nat n - 1) ->
  reads m (next_s n) a (le_bytes n v) v.
Proof.
  intros Hn Hv. unfold next_s. rewrite <- (swrap_mod (8 * Z.of_nat n) v) at 2 by lia.
  apply (reads_map _ (swrap (8 * Z.of_nat n))).
  rewrite (Z.pow_mul_r 2 8) by lia. change (2 ^ 8) with 256. rewrite <- le_value_mod.
  apply reads_next; [done|]. apply le_bytes_length.
Qed.

(** ** Encoded pointers *)

(** The bytes of a pointer to [v] in a field at address [a]. *)
Definition ptr_field (enc a v : Z) : Z :=
  if Z.land enc 0x70 =? DW_EH_PE_pcrel then v - a else v.
Definition ptr_bytes (enc a v : Z) : list Z :=
  let x := ptr_field enc a v in
  if enc =? DW_EH_PE_omit then []
  else switch (Z.land enc 0x0f)
    [(DW_EH_PE_ptr, le_bytes 8 x); (DW_EH_PE_udata8, le_bytes 8 x);
     (DW_EH_PE_uleb128, uleb128 x); (DW_EH_PE_udata2, le_bytes 2 x);
     (DW_EH_PE_udata4, le_bytes 4 x); (DW_EH_PE_sleb128, sleb128 x);
     (DW_EH_PE_sdata2, le_bytes 2 x); (DW_EH_PE_sdata4, le_bytes 4 x);
     (DW_EH_PE_sdata8, le_bytes 8 x)] [].

(** The values a field of the encoding can hold; an omitted pointer is null. *)
Definition ptr_fits (enc a v : Z) : Prop :=
  - 2 ^ 63 <= v < 2 ^ 63 /\
  if enc =? DW_EH_PE_omit then v = 0
  else let x := ptr_field enc a v in
    switch (Z.land enc 0x0f)
    [(DW_EH_PE_ptr, True); (DW_EH_PE_udata8, True);
     (DW_EH_PE_uleb128, 0 <= x < 2 ^ 31); (DW_EH_PE_udata2, 0 <= x < 2 ^ 16);
     (DW_EH_PE_udata4, 0 <= x < 2 ^ 32); (DW_EH_PE_sleb128, - 2 ^ 31 <= x < 2 ^ 31);
     (DW_EH_PE_sdata2, - 2 ^ 15 <= x < 2 ^ 15); (DW_EH_PE_sdata4, - 2 ^ 31 <= x < 2 ^ 31);
     (DW_EH_PE_sdata8, - 2 ^ 63 <= x < 2 ^ 63)] False.

Lemma swrap64_small x : - 2 ^ 63 <= x < 2 ^ 63 -> swrap 64 x = x.
Proof. intros H. unfold swrap. rewrite Z.mod_small; lia. Qed.

Lemma reads_unsigned_pointer (r : reader Z) base v x a bs : - 2 ^ 63 <= v < 2 ^ 63 ->
  reads m r a bs x -> (base + x - v) mod 2 ^ 64 = 0 ->
  reads m (x ← r; mret (swrap 64 (base + x))) a bs v.
Proof.
  intros Hv Hr Hx. replace v with (swrap 64 (base + x)).
  - by apply (reads_map r (fun x => swrap 64 (base + x))).
  - unfold swrap. cbn -[Z.modulo] in *. zdiv.
Qed.

Lemma reads_signed_pointer (r : reader Z) base v x a bs : - 2 ^ 63 <= v < 2 ^ 63 ->
  reads m r a bs x -> base + x = v ->
  reads m (x ← r; sadd64 base x) a bs v.
Proof.
  intros Hv Hr Hx. eapply reads_last; [done|]. unfold sadd64.
  rewrite Hx, (proj2 (Z.leb_le _ _)), (proj2 (Z.ltb_lt _ _)) by lia. apply reads_ret.
Qed.

Lemma next8_mod a x : reads m (next 8) a (le_bytes 8 x) (x mod 2 ^ 64).
Proof. change (2 ^ 64) with (256 ^ Z.of_nat 8). rewrite <- le_value_mod. apply reads_next; [done|]. apply le_bytes_length. Qed.

Lemma reads_pointer enc a v : 0 <= a < 2 ^ 63 -> ptr_fits enc a v ->
  reads m (parseNextEncodedPointer enc) a (ptr_bytes enc a v) v.
Proof.
  intros Ha [Hv Hfit]. unfold parseNextEncodedPointer, ptr_bytes in *.
  destruct (enc =? DW_EH_PE_omit); [subst; apply reads_ret|].
  eapply reads_first; [apply reads_here|].
  set (base := if Z.land enc 0x70 =? DW_EH_PE_pcrel then swrap 64 a else 0).
  assert (Hb : base + ptr_field enc a v = v).
  { unfold base, ptr_field. destruct (_ =? DW_EH_PE_pcrel); rewrite ?swrap64_small; lia. }
  set (x := ptr_field enc a v) in *. clearbody x base. cbn [switch] in *.
  repeat match goal with |- context [Z.land enc 15 =? ?c] => destruct (Z.land enc 15 =? c) end;
    try done;
    first [eapply reads_signed_pointer; [done| |exact Hb]
          |eapply reads_unsigned_pointer; [done| |]];
    first [by apply reads_uleb128 | by apply reads_sleb128 | by apply next8_mod
          | by apply reads_signed; [lia|cbn; lia] | by apply (reads_unsigned Hm); cbn; lia
          | cbn -[Z.modulo] in *; zdiv].
Qed.
End encoded.

(** ** Call frame instructions *)

(** The rule table of the DWARF standard (section 6.4.1): how to recover a register,
    one rule per column; the CFA is a register and an offset. *)
Inductive rule :=
| Unspecified
| UndefinedValue
| SameValue
| AtOffset (offset : Z)
| IsOffset (offset : Z)
| InRegister (reg : Z).

Record row := mkRow { rules : list rule; cfa : Z * Z }.
Record machine := mkMachine { loc : Z; current : row; saved : list row }.

(** The instructions without location expressions; the operands of the [_sf] forms
    and of the plain forms are factored by the data alignment. *)
Inductive cfi :=
| SetLoc (address : Z)
| Advance (delta : Z)
| AdvanceN (n : nat) (delta : Z)
| SetOffset (reg n : Z)
| SetOffsetExtended (reg n : Z)
| SetOffsetSf (reg n : Z)
| NegativeOffset (reg n : Z)
| SetValOffset (reg n : Z)
| SetValOffsetSf (reg n : Z)
| SetUndefined (reg : Z)
| SetSameValue (reg : Z)
| SetRegister (reg r : Z)
| Restore (reg : Z)
| RestoreExtended (reg : Z)
| RememberState
| RestoreState
| DefCfa (reg n : Z)
| DefCfaRegister (reg : Z)
| DefCfaOffset (n : Z)
| DefCfaSf (reg n : Z)
| DefCfaOffsetSf (n : Z)
| ArgsSize (n : Z)
| WindowSave
| Nop.

Section exec.
Variables (initial : option row) (caf daf : Z).

Definition set_column (reg : Z) (r : rule) (M : machine) : option machine :=
  if (0 <=? reg) && (reg <? Z.of_nat (length (rules (current M)))) then
    Some (mkMachine (loc M) (mkRow (<[Z.to_nat reg := r]> (rules (current M))) (cfa (current M))) (saved M))
  else None.
Definition set_cfa (c : Z * Z) (M : machine) : machine :=
  mkMachine (loc M) (mkRow (rules (current M)) c) (saved M).
Definition restore_column (reg : Z) (M : machine) : option machine :=
  i ← initial; r ← rules i !! Z.to_nat reg; set_column reg r M.
Definition advance_to (delta : Z) (M : machine) : machine :=
  mkMachine (u64 (loc M + delta * caf)) (current M) (saved M).

(** What an instruction does to the table; [None] where the standard gives it no
    meaning, and for a column that the table does not have: the standard has columns for the vector registers,
    which the array of the decoder has no room for. *)
Definition exec (i : cfi) (M : machine) : option machine :=
  let '(r, o) := cfa (current M) in
  match i with
  | SetLoc v => Some (mkMachine (u64 v) (current M) (saved M))
  | Advance d | AdvanceN _ d => Some (advance_to d M)
  | SetOffset reg n | SetOffsetExtended reg n | SetOffsetSf reg n =>
    set_column reg (AtOffset (n * daf)) M
  | NegativeOffset reg n => set_column reg (AtOffset (- n * daf)) M
  | SetValOffset reg n | SetValOffsetSf reg n => set_column reg (IsOffset (n * daf)) M
  | SetUndefined reg => set_column reg UndefinedValue M
  | SetSameValue reg => set_column reg SameValue M
  | SetRegister reg r => set_column reg (InRegister r) M
  | Restore reg | RestoreExtended reg => restore_column reg M
  | RememberState => Some (mkMachine (loc M) (current M) (current M :: saved M))
  | RestoreState =>
    match saved M with [] => None | s :: rest => Some (mkMachine (loc M) s rest) end
  | DefCfa r n => Some (set_cfa (r, n) M)
  | DefCfaRegister r => Some (set_cfa (r, o) M)
  | DefCfaOffset n => Some (set_cfa (r, n) M)
  | DefCfaSf r n => Some (set_cfa (r, n * daf) M)
  | DefCfaOffsetSf n => Some (set_cfa (r, n * daf) M)
  | ArgsSize _ | WindowSave | Nop => Some M
  end.

Fixpoint exec_all (is_ : list cfi) (M : machine) : option machine :=
  match is_ with [] => Some M | i :: rest => M ← exec i M; exec_all rest M end.
End exec.

(** The encoding of the instructions (DWARF, section 7.23); an address is an absolute one of eight bytes. *)
Definition cfi_bytes (i : cfi) : list Z :=
  match i with
  | SetLoc v => DW_CFA_set_loc :: le_bytes 8 v
  | Advance d => [DW_CFA_advance_loc + d]
  | AdvanceN 1 d => DW_CFA_advance_loc1 :: le_bytes 1 d
  | AdvanceN 2 d => DW_CFA_advance_loc2 :: le_bytes 2 d
  | AdvanceN 4 d => DW_CFA_advance_loc4 :: le_bytes 4 d
  | AdvanceN n d => DW_CFA_MIPS_advance_loc8 :: le_bytes 8 d
  | SetOffset reg n => [DW_CFA_offset + reg] ++ uleb128 n
  | SetOffsetExtended reg n => [DW_CFA_offset_extended] ++ uleb128 reg ++ uleb128 n
  | SetOffsetSf reg n => [DW_CFA_offset_extended_sf] ++ uleb128 reg ++ sleb128 n
  | NegativeOffset reg n => [DW_CFA_GNU_negative_offset_extended] ++ uleb128 reg ++ uleb128 n
  | SetValOffset reg n => [DW_CFA_val_offset] ++ uleb128 reg ++ uleb128 n
  | SetValOffsetSf reg n => [DW_CFA_val_offset_sf] ++ uleb128 reg ++ sleb128 n
  | SetUndefined reg => [DW_CFA_undefined] ++ uleb128 reg
  | SetSameValue reg => [DW_CFA_same_value] ++ uleb128 reg
  | SetRegister reg r => [DW_CFA_register] ++ uleb128 reg ++ uleb128 r
  | Restore reg => [DW_CFA_restore + reg]
  | RestoreExtended reg => [DW_CFA_restore_extended] ++ uleb128 reg
  | RememberState => [DW_CFA_remember_state]
  | RestoreState => [DW_CFA_restore_state]
  | DefCfa reg n => [DW_CFA_def_cfa] ++ uleb128 reg ++ uleb128 n
  | DefCfaRegister reg => [DW_CFA_def_cfa_register] ++ uleb128 reg
  | DefCfaOffset n => [DW_CFA_def_cfa_offset] ++ uleb128 n
  | DefCfaSf reg n => [DW_CFA_def_cfa_sf] ++ uleb128 reg ++ sleb128 n
  | DefCfaOffsetSf n => [DW_CFA_def_cfa_offset_sf] ++ sleb128 n
  | ArgsSize n => [DW_CFA_GNU_args_size] ++ uleb128 n
  | WindowSave => [DW_CFA_GNU_window_save]
  | Nop => [DW_CFA_nop]
  end.

(** Operands the decoder reads correctly. *)
Definition u31 (v : Z) : Prop := 0 <= v < 2 ^ 31.
Definition s32 (v : Z) : Prop := - 2 ^ 31 <= v < 2 ^ 31.
Definition cfi_ok (i : cfi) : Prop :=
  match i with
  | SetLoc v => - 2 ^ 63 <= v < 2 ^ 63
  | Advance d | Restore d => 0 <= d < 64
  | AdvanceN n d => n ∈ [1; 2; 4; 8]%nat /\ 0 <= d < 256 ^ Z.of_nat n
  | SetOffset reg n => 0 <= reg < 64 /\ u31 n
  | SetOffsetExtended reg n | NegativeOffset reg n | SetValOffset reg n | SetRegister reg n
  | DefCfa reg n => u31 reg /\ u31 n
  | SetOffsetSf reg n | SetValOffsetSf reg n | DefCfaSf reg n => u31 reg /\ s32 n
  | SetUndefined n | SetSameValue n | RestoreExtended n | DefCfaRegister n | DefCfaOffset n
  | ArgsSize n => u31 n
  | DefCfaOffsetSf n => s32 n
  | RememberState | RestoreState | WindowSave | Nop => True
  end.

(** The decoder reads the address of DW_CFA_set_loc as a pointer in the encoding of the augmentation, and without one it does not
    read it; see [set_loc_not_read]. *)
Definition set_loc_ok (cie : DwarfCIE) (i : cfi) : Prop :=
  match i with
  | SetLoc _ => exists a, cie_augmentation cie = Some (Some a) /\ codeEnc a = DW_EH_PE_ptr
  | _ => True
  end.
Definition no_set_loc (i : cfi) : Prop := match i with SetLoc _ => False | _ => True end.
Lemma no_set_loc_ok cie code : Forall no_set_loc code -> Forall (set_loc_ok cie) code.
Proof. intros H. eapply Forall_impl; [exact H|]. by intros []. Qed.

(** How the decoder represents the table. *)
Definition rule_data (r : rule) : DwarfRegisterData :=
  match r with
  | Unspecified => mkRegister 0 0
  | UndefinedValue => mkRegister DW_CFA_undefined 0
  | SameValue => mkRegister DW_CFA_same_value 0
  | AtOffset o => mkRegister DW_CFA_offset (u64 o)
  | IsOffset o => mkRegister DW_CFA_val_offset (u64 o)
  | InRegister r => mkRegister DW_CFA_register r
  end.
Definition state_of (r : row) : DwarfState :=
  mkState (rule_data <$> rules r) (cfa r).1 (cfa r).2 0 0.
Definition decoder_of (M : machine) : DwarfInstructionDecoder :=
  mkDecoder (loc M) (state_of (current M)) (state_of <$> saved M).

Lemma set_column_state reg r M M' : set_column reg r M = Some M' ->
  DwarfState.set reg (rule_data r) (state_of (current M)) = Ok (state_of (current M')) /\
  loc M' = loc M /\ saved M' = saved M.
Proof.
  unfold set_column. destruct (_ && _) eqn:E; [|done]. intros [= <-]. zbool.
  unfold DwarfState.set, store. cbn [registers state_of]. rewrite length_fmap.
  rewrite (proj2 (Z.ltb_ge _ _)), (proj2 (Z.leb_gt _ _)) by done. cbn [orb].
  unfold state_of, mbind, res_bind. cbn [current rules cfa loc saved].
  by rewrite list_fmap_insert.
Qed.

Lemma split_opcode q x : q ∈ [0x40; 0x80; 0xc0] -> 0 <= x < 64 ->
  Z.land (q + x) 0xc0 = q /\ Z.land (q + x) 0x3f = x.
Proof.
  intros Hq Hx.
  assert (H : forallb (fun y => (Z.land (q + y) 0xc0 =? q) && (Z.land (q + y) 0x3f =? y)) (seqZ 0 64) = true)
    by (members Hq; vm_compute; done).
  rewrite forallb_forall in H. specialize (H x).
  rewrite <- list_elem_of_In, elem_of_seqZ in H. specialize (H ltac:(lia)). zbool. done.
Qed.

Section decoder.
Context {m : memory} (Hm : mem_ok m).
Context (fuel : nat) (cie : DwarfCIE) (end_ : DwarfCursor) (initial : option row).
Context (Hinit : cie_state cie = state_of <$> initial) (Hdaf : s32 (dataAlignFactor cie)).
Import DwarfInstructionDecoder.

Lemma reads_set_rule a reg type offset r M M' : rule_data r = mkRegister type offset ->
  set_column reg r M = Some M' ->
  reads m (set_rule reg type offset (decoder_of M)) a [] (decoder_of M').
Proof.
  intros Hr (Hs&El&Es)%set_column_state. unfold set_rule. cbn [dstate decoder_of].
  rewrite <- Hr, Hs. eapply reads_first; [by apply reads_lift|].
  unfold decoder_of, setState. cbn. rewrite El, Es. apply reads_ret.
Qed.

Lemma reads_restore_rule a reg M M' : 0 <= reg -> restore_column initial reg M = Some M' ->
  reads m (restore_rule cie reg (decoder_of M)) a [] (decoder_of M').
Proof.
  unfold restore_column, restore_rule. intros Hreg. rewrite Hinit. destruct initial as [i|]; [|done].
  cbn. destruct (rules i !! Z.to_nat reg) as [r|] eqn:Er; [|done]. cbn. intros Hset.
  eapply reads_first.
  { apply reads_lift. unfold DwarfState.get. apply load_lookup. split; [done|].
    cbn [registers state_of]. by rewrite list_lookup_fmap, Er. }
  apply set_column_state in Hset as (Hs&El&Es). rewrite Hs.
  eapply reads_first; [by apply reads_lift|].
  unfold decoder_of, setState. cbn. rewrite El, Es. apply reads_ret.
Qed.

Lemma reads_smul a x y : s32 x -> s32 y -> reads m (smul64 x y) a [] (x * y).
Proof.
  intros Hx Hy. unfold smul64, s32 in *.
  rewrite (proj2 (Z.leb_le _ _)), (proj2 (Z.ltb_lt _ _)) by nia. apply reads_ret.
Qed.

Lemma reads_advance a d M : reads m (advance cie d (decoder_of M)) a []
  (decoder_of (advance_to (codeAlignFactor cie) d M)).
Proof.
  unfold advance, setIp, decoder_of, advance_to. cbn [cfaIp dstate rememberedState loc current saved].
  unfold add64, wrap. rewrite Zplus_mod_idemp_r. apply reads_ret.
Qed.

(** An instruction whose opcode byte selects the case [op]. *)
Lemma reads_step a b q x bs d d' :
  (if Z.land b 0xc0 =? 0 then b else Z.land b 0xc0) = q -> Z.land b 0x3f = x ->
  reads m (instruction fuel cie end_ q x d) (a + 1) bs d' ->
  reads m (step fuel cie end_ d) a (b :: bs) d'.
Proof.
  intros Hq Hx H. change (b :: bs) with ([b] ++ bs). unfold step.
  eapply reads_bind; [by apply reads_byte|]. rewrite Hq, Hx. exact H.
Qed.

Lemma reads_packed a q x bs d d' : q ∈ [0x40; 0x80; 0xc0] -> 0 <= x < 64 ->
  reads m (instruction fuel cie end_ q x d) (a + 1) bs d' ->
  reads m (step fuel cie end_ d) a (q + x :: bs) d'.
Proof.
  intros Hq Hx. destruct (split_opcode q x Hq Hx) as [E1 E2]. apply reads_step; [|done].
  rewrite E1. by members Hq.
Qed.

Lemma reads_plain a b bs d d' : Z.land b 0xc0 = 0 ->
  reads m (instruction fuel cie end_ b (Z.land b 0x3f) d) (a + 1) bs d' ->
  reads m (step fuel cie end_ d) a (b :: bs) d'.
Proof. intros E. apply reads_step; [|done]. by rewrite E. Qed.

(** Reads the operands of an instruction, one by one. *)
Ltac operands :=
  cbv zeta;
  repeat first
    [ apply reads_ret
    | eapply reads_first; [by apply reads_smul|]
    | eapply reads_last; [apply (reads_uleb128 Hm); assumption|]
    | eapply reads_last; [apply (reads_sleb128 Hm); assumption|]
    | eapply reads_bind; [apply (reads_uleb128 Hm); assumption|]
    | eapply reads_bind; [apply (reads_sleb128 Hm); assumption|] ].

Ltac select_case :=
  cbv beta iota delta [instruction switch Z.eqb Pos.eqb
    DW_CFA_advance_loc DW_CFA_offset DW_CFA_restore DW_CFA_nop DW_CFA_set_loc
    DW_CFA_advance_loc1 DW_CFA_advance_loc2 DW_CFA_advance_loc4 DW_CFA_offset_extended
    DW_CFA_restore_extended DW_CFA_undefined DW_CFA_same_value DW_CFA_register
    DW_CFA_remember_state DW_CFA_restore_state DW_CFA_def_cfa DW_CFA_def_cfa_register
    DW_CFA_def_cfa_offset DW_CFA_def_cfa_expression DW_CFA_expression
    DW_CFA_offset_extended_sf DW_CFA_def_cfa_sf DW_CFA_def_cfa_offset_sf DW_CFA_val_offset
    DW_CFA_val_offset_sf DW_CFA_val_expression DW_CFA_MIPS_advance_loc8
    DW_CFA_GNU_window_save DW_CFA_GNU_args_size DW_CFA_GNU_negative_offset_extended].

Lemma reads_advance_n a n d M : n ∈ [1; 2; 4; 8]%nat -> 0 <= d < 256 ^ Z.of_nat n ->
  reads m (step fuel cie end_ (decoder_of M)) a (cfi_bytes (AdvanceN n d))
    (decoder_of (advance_to (codeAlignFactor cie) d M)).
Proof.
  intros Hn Hd. members Hn; (apply reads_plain; [reflexivity|]; select_case; cbv zeta);
    (eapply reads_last; [by apply (reads_unsigned Hm)|apply reads_advance]).
Qed.

Lemma reads_set_loc a v : - 2 ^ 63 <= v < 2 ^ 63 -> reads m (parseNextEncodedPointer DW_EH_PE_ptr) a (le_bytes 8 v) v.
Proof.
  intros Hv. unfold parseNextEncodedPointer. change (DW_EH_PE_ptr =? DW_EH_PE_omit) with false. cbv beta iota.
  eapply reads_first; [apply reads_here|]. change (Z.land DW_EH_PE_ptr 0x70 =? DW_EH_PE_pcrel) with false. cbn [switch Z.eqb Z.land DW_EH_PE_ptr].
  eapply reads_unsigned_pointer; [done|by apply next8_mod|]. cbn -[Z.modulo]. zdiv.
Qed.
Lemma reads_cfi a i M M' : cfi_ok i -> set_loc_ok cie i ->
  exec initial (codeAlignFactor cie) (dataAlignFactor cie) i M = Some M' ->
  reads m (step fuel cie end_ (decoder_of M)) a (cfi_bytes i) (decoder_of M').
Proof.
  intros Hok Hset. unfold exec. destruct (cfa (current M)) as [r o] eqn:Ecfa.
  destruct i as [v| | | | | | | | | | | | | | | | | | | | | | |]; [|clear Hset..].
  { intros [= <-]. destruct Hset as (aug&Haug&Henc). apply reads_plain; [reflexivity|]. select_case.
    eapply reads_first; [apply reads_lift; unfold DwarfCIE.getAugmentation; by rewrite Haug|]. cbv beta iota. rewrite Henc.
    eapply reads_last; [by apply reads_set_loc|]. apply reads_ret. }
  all: cbn [cfi_ok] in Hok; destruct_and?; intros Hex.
  all: try (apply reads_packed; [set_solver|done|]; select_case; operands).
  all: try (apply reads_plain; [reflexivity|]; select_case; operands).
  all: try (by eapply reads_set_rule; [|eassumption]).
  all: try (by apply reads_restore_rule; unfold u31 in *; [lia|]).
  all: try (injection Hex as <-).
  all: try apply reads_advance.
  all: try (apply reads_ret_eq; unfold decoder_of, state_of, setState, set_cfa, u31 in *; cbn;
            rewrite ?Ecfa, ?swrap64_small by lia; done).
  - by apply reads_advance_n.
  - unfold u31 in *. rewrite swrap64_small by lia.
    eapply reads_first; [apply reads_smul; unfold s32 in *; [lia|done]|].
    by eapply reads_set_rule; [|eassumption].
  - destruct (saved M) as [|s rest] eqn:Es; [done|]. injection Hex as <-.
    apply reads_ret_eq. unfold decoder_of. cbn. by rewrite Es.
Qed.

Lemma cfi_bytes_nonempty (i : cfi) : (1 <= length (cfi_bytes i))%nat.
Proof. destruct i as [| |[|[|[|[|[]]]]]| | | | | | | | | | | | | | | | | | | | |]; cbn; lia. Qed.

(** The loop of the decoder on a sequence of instructions. *)
Lemma reads_loop is_ a M M' n : Forall cfi_ok is_ -> Forall (set_loc_ok cie) is_ ->
  exec_all initial (codeAlignFactor cie) (dataAlignFactor cie) is_ M = Some M' ->
  cursor end_ = a + Z.of_nat (length (concat (cfi_bytes <$> is_))) ->
  (length (concat (cfi_bytes <$> is_)) <= n)%nat ->
  reads m (loop fuel cie end_ n (decoder_of M)) a (concat (cfi_bytes <$> is_)) (decoder_of M').
Proof.
  revert a M n. induction is_ as [|i is_ IH]; intros a M n Hok Hset Hex Hend Hn Hat s.
  - injection Hex as <-. cbn in Hend. rewrite Z.add_0_r in *.
    destruct n; cbn [loop]; unfold lt; cbn [cursor]; rewrite Hend, Z.ltb_irrefl; done.
  - apply Forall_cons in Hok as [Hi Hok]. apply Forall_cons in Hset as [Hi' Hset]. cbn [exec_all] in Hex.
    destruct (exec _ _ _ i M) as [M1|] eqn:Ei; [|done]. cbn in Hex.
    rewrite fmap_cons, concat_cons, length_app in *. pose proof (cfi_bytes_nonempty i).
    destruct n as [|n]; [lia|]. cbn [loop]. unfold lt at 1. cbn [cursor].
    rewrite Hend, (proj2 (Z.ltb_lt _ _)) by lia. cbn [negb].
    rewrite <- length_app. revert Hat s. apply (reads_bind _ _ a _ _ (decoder_of M1)).
    + by apply reads_cfi.
    + apply IH; [done..|lia|lia].
Qed.

End decoder.

(** ** Sections *)

(** The fields of a CIE; [aug_length] is the length of the augmentation data, which
    the parser skips. *)
Inductive aug_item := AugP (enc ptr : Z) | AugR (enc : Z) | AugL (enc : Z) | AugS.

Record cie_spec := mkCieSpec {
  cs_version : Z;
  cs_aug : option (Z * list aug_item);
  cs_caf : Z;
  cs_daf : Z;
  cs_ra : Z;
  cs_code : list cfi }.

(** An FDE: the number of its CIE, the function's bounds, the pointer to the LSDA,
    and the instructions, which the parser does not decode. *)
Record fde_spec := mkFdeSpec {
  fs_cie : nat;
  fs_begin : Z;
  fs_range : Z;
  fs_aug_length : Z;
  fs_lsda : Z;
  fs_code : list Z }.

Inductive entry := CIE (c : cie_spec) | FDE (f : fde_spec).

(** A section is laid out for its virtual addresses and read [d] bytes above them. *)
Definition pcrel (enc : Z) : bool := Z.land enc 0x70 =? DW_EH_PE_pcrel.
(** The pointer to [p] as it is found at the place the section is read. *)
Definition seen (d enc p : Z) : Z := if pcrel enc then p + d else p.

Definition aug_letter (i : aug_item) : Z :=
  match i with AugP _ _ => 80 | AugR _ => 82 | AugL _ => 76 | AugS => 83 end.
Definition aug_field (w : Z) (i : aug_item) : list Z :=
  match i with
  | AugP enc p => enc :: ptr_bytes enc (w + 1) p
  | AugR enc | AugL enc => [enc]
  | AugS => []
  end.
Fixpoint aug_bytes (w : Z) (l : list aug_item) : list Z :=
  match l with
  | [] => []
  | i :: l => aug_field w i ++ aug_bytes (w + Z.of_nat (length (aug_field w i))) l
  end.
Definition aug_apply (d : Z) (i : aug_item) (a : CIEAugmentation) : CIEAugmentation :=
  match i with
  | AugP enc p => CIEAugmentation.setPersonalityEncodingRoutine (u64 (seen d enc p))
                    (CIEAugmentation.setPersonalityEncoding enc a)
  | AugR enc => CIEAugmentation.setCodeEnc enc a
  | AugL enc => CIEAugmentation.setLsdaEnc enc a
  | AugS => CIEAugmentation.setIsSignal true a
  end.
Fixpoint aug_of (d : Z) (l : list aug_item) (a : CIEAugmentation) : CIEAugmentation :=
  match l with [] => a | i :: l => aug_of d l (aug_apply d i a) end.
Fixpoint aug_ok (w d : Z) (l : list aug_item) : Prop :=
  match l with
  | [] => True
  | i :: l => match i with
              | AugP enc p => ptr_fits enc (w + 1 + d) (seen d enc p)
              | _ => True
              end /\ aug_ok (w + Z.of_nat (length (aug_field w i))) d l
  end.

Lemma ptr_bytes_seen d enc w p : ptr_bytes enc w p = ptr_bytes enc (w + d) (seen d enc p).
Proof.
  unfold ptr_bytes. assert (E : ptr_field enc w p = ptr_field enc (w + d) (seen d enc p)).
  { unfold ptr_field, seen, pcrel. destruct (_ =? _); lia. }
  by rewrite E.
Qed.

Section augmentation.
Context {m : memory} (Hm : mem_ok m).

Lemma string_loop_reads str a n : Forall (fun c => c <> 0) str -> (length str < n)%nat ->
  reads m (string_loop n) a (str ++ [0]) tt.
Proof.
  intros Hs. revert a n. induction Hs as [|c str Hc Hs IH]; intros a n Hn;
    (destruct n as [|n]; [cbn in Hn; lia|]); cbn [string_loop app].
  - eapply reads_last; [by apply reads_byte|apply reads_ret].
  - change (c :: str ++ [0]) with ([c] ++ (str ++ [0])).
    eapply reads_bind; [by apply reads_byte|]. rewrite (proj2 (Z.eqb_neq _ _)) by done.
    apply IH. cbn in Hn. lia.
Qed.

Lemma at_mem_length a bs : at_mem m a bs -> (length bs <= length (mem_bytes m))%nat.
Proof. intros (pre&post&E&_). rewrite E, !length_app. lia. Qed.

Lemma reads_string str a : Forall (fun c => c <> 0) str -> reads m nextString a (str ++ [0]) a.
Proof.
  intros Hs Hat s. unfold nextString. pose proof (at_mem_length _ _ Hat) as Hl.
  rewrite length_app in Hl. cbn [length] in Hl.
  rewrite (string_loop_reads str a) by (done || lia). done.
Qed.

Lemma reads_peek a b (ptr : Z) bs : at_mem m ptr (b :: bs) ->
  reads m (fun m c => v ← peek m 1 ptr; Ok (v, c)) a [] b.
Proof.
  intros H _ s. change (b :: bs) with ([b] ++ bs) in H. apply at_mem_app in H as [H _].
  rewrite (peek_at 1 ptr [b]) by done. cbn. by rewrite !Z.add_0_r.
Qed.

Lemma aug_letter_ok i : aug_letter i <> 0.
Proof. by destruct i. Qed.

Lemma reads_aug_item d w i a0 :
  0 <= w + d -> w + d + Z.of_nat (length (aug_field w i)) < 2 ^ 63 ->
  aug_ok w d [i] ->
  reads m (switch (aug_letter i)
    [(80, e ← next 1; let a := CIEAugmentation.setPersonalityEncoding e a0 in
          r ← parseNextEncodedPointer (personalityEncoding a);
          mret (CIEAugmentation.setPersonalityEncodingRoutine (u64 r) a));
     (82, e ← next 1; mret (CIEAugmentation.setCodeEnc e a0));
     (76, e ← next 1; mret (CIEAugmentation.setLsdaEnc e a0));
     (83, mret (CIEAugmentation.setIsSignal true a0))] (mret a0))
    (w + d) (aug_field w i) (aug_apply d i a0).
Proof.
  intros H0 Ha [Hi _]. destruct i as [enc p|enc|enc|]; cbn [aug_letter switch Z.eqb Pos.eqb aug_field aug_apply].
  - change (enc :: ptr_bytes enc (w + 1) p) with ([enc] ++ ptr_bytes enc (w + 1) p).
    eapply reads_bind; [by apply reads_byte|]. cbn [personalityEncoding CIEAugmentation.setPersonalityEncoding].
    rewrite (ptr_bytes_seen d). replace (w + 1 + d) with (w + d + Z.of_nat (length [enc])) in * by (cbn; lia).
    eapply reads_last; [apply (reads_pointer Hm); [cbn [length aug_field] in *; lia|done]|]. apply reads_ret.
  - eapply reads_last; [by apply reads_byte|apply reads_ret].
  - eapply reads_last; [by apply reads_byte|apply reads_ret].
  - apply reads_ret.
Qed.

Lemma reads_augmentation d l w ptr n a0 : aug_ok w d l ->
  at_mem m ptr ((aug_letter <$> l) ++ [0]) -> (length l < n)%nat -> 0 <= w + d -> 
  w + d + Z.of_nat (length (aug_bytes w l)) < 2 ^ 63 ->
  reads m (DwarfParser.augmentation_loop n ptr a0) (w + d) (aug_bytes w l) (aug_of d l a0).
Proof.
  revert w ptr n a0. induction l as [|i l IH]; intros w ptr n a0 Hok Hptr Hn H0 Hb;
    (destruct n as [|n]; [cbn in Hn; lia|]); cbn [DwarfParser.augmentation_loop aug_bytes aug_of] in *.
  - eapply reads_first; [eapply reads_peek, Hptr|]. apply reads_ret.
  - rewrite fmap_cons in Hptr. rewrite length_app in Hb.
    eapply reads_first; [eapply reads_peek, Hptr|].
    rewrite (proj2 (Z.eqb_neq _ _)) by apply aug_letter_ok. destruct Hok as [Hi Hok].
    eapply reads_bind; [apply reads_aug_item; [lia|lia|by split]|].
    replace (w + d + Z.of_nat (length (aug_field w i))) with
      (w + Z.of_nat (length (aug_field w i)) + d) by lia.
    change ((aug_letter i :: (aug_letter <$> l)) ++ [0]) with ([aug_letter i] ++ ((aug_letter <$> l) ++ [0])) in Hptr.
    apply at_mem_app in Hptr as [_ Hptr]. cbn in Hn. apply IH; [done..|lia|lia|lia].
Qed.

Lemma reads_read_augmentation d l w str : aug_ok w d l ->
  at_mem m (str + 1) ((aug_letter <$> l) ++ [0]) -> 0 <= w + d ->
  w + d + Z.of_nat (length (aug_bytes w l)) < 2 ^ 63 ->
  reads m (DwarfParser.read_augmentation str) (w + d) (aug_bytes w l)
    (aug_of d l CIEAugmentation.new).
Proof.
  intros Hok Hs H0 Hb. pose proof (at_mem_length _ _ Hs) as Hl.
  rewrite length_app, length_fmap in Hl. cbn in Hl. unfold DwarfParser.read_augmentation.
  apply reads_augmentation; [done..|lia|done|done].
Qed.
End augmentation.

(** The table before the first instruction of a CIE. *)
Definition blank (arch : Arch) : row := mkRow (replicate (NUM_REGISTERS arch) Unspecified) (0, 0).

Lemma state_of_blank arch : state_of (blank arch) = DwarfState.new arch.
Proof. unfold state_of, blank, DwarfState.new. cbn [rules]. by rewrite fmap_replicate. Qed.

Definition code_bytes (l : list cfi) : list Z := concat (cfi_bytes <$> l).

Lemma parseInstructions_ok arch fuel m cie (initial : option row) code a s e ip M' :
  mem_ok m -> cie_state cie = state_of <$> initial -> s32 (dataAlignFactor cie) ->
  Forall cfi_ok code -> Forall (set_loc_ok cie) code -> at_mem m a (code_bytes code) -> (length (code_bytes code) <= fuel)%nat ->
  exec_all initial (codeAlignFactor cie) (dataAlignFactor cie) code
    (mkMachine ip (default (blank arch) initial) []) = Some M' ->
  DwarfInstructionDecoder.parseInstructions arch fuel (mkCursor s a)
    (mkCursor e (a + Z.of_nat (length (code_bytes code)))) cie ip m = Ok (state_of (current M')).
Proof.
  intros Hm Hst Hdaf Hok Hset Hat Hf Hex. unfold DwarfInstructionDecoder.parseInstructions.
  replace (mkDecoder ip (DwarfInstructionDecoder.initial arch cie) []) with
    (decoder_of (mkMachine ip (default (blank arch) initial) [])).
  - erewrite (reads_loop Hm fuel cie _ initial Hst Hdaf code a _ M'); done.
  - unfold decoder_of, DwarfInstructionDecoder.initial. rewrite Hst. destruct initial; cbn [default loc current saved fmap option_fmap option_map]; [done|].
    by rewrite state_of_blank.
Qed.

(** The layout of a CIE after its identifier, at virtual address [w]. *)
Definition cie_string (c : cie_spec) : list Z :=
  match cs_aug c with None => [] | Some (_, l) => 122 :: (aug_letter <$> l) end.
Definition cie_head (c : cie_spec) : list Z :=
  [cs_version c] ++ (cie_string c ++ [0]) ++ uleb128 (cs_caf c) ++ sleb128 (cs_daf c) ++
  uleb128 (cs_ra c).
Definition cie_aug (w : Z) (c : cie_spec) : list Z :=
  match cs_aug c with
  | None => []
  | Some (n, l) => uleb128 n ++ aug_bytes (w + Z.of_nat (length (uleb128 n))) l
  end.
Definition after_head (w : Z) (c : cie_spec) : Z := w + Z.of_nat (length (cie_head c)).
Definition cie_content (w : Z) (c : cie_spec) : list Z :=
  cie_head c ++ cie_aug (after_head w c) c ++ code_bytes (cs_code c).

Definition cie_row (arch : Arch) (c : cie_spec) : option row :=
  current <$> exec_all None (cs_caf c) (cs_daf c) (cs_code c) (mkMachine 0 (blank arch) []).

(** The object the parser makes of it. *)
Definition cie_object (arch : Arch) (start length d index : Z) (c : cie_spec) : DwarfCIE :=
  mkCIE start length (state_of <$> cie_row arch c) index (cs_caf c) (cs_daf c) (cs_ra c)
    (match cs_aug c with
     | None => None
     | Some (_, l) => Some (Some (aug_of d l CIEAugmentation.new))
     end).

Definition cie_ok (arch : Arch) (w d : Z) (c : cie_spec) : Prop :=
  (cs_version c = 1 \/ cs_version c = 3) /\ u31 (cs_caf c) /\ s32 (cs_daf c) /\ u31 (cs_ra c) /\
  (Forall cfi_ok (cs_code c) /\ Forall no_set_loc (cs_code c)) /\ is_Some (cie_row arch c) /\
  match cs_aug c with
  | None => True
  | Some (n, l) => u31 n /\ aug_ok (after_head w c + Z.of_nat (length (uleb128 n))) d l
  end.

Section cie.
Context {m : memory} (Hm : mem_ok m) (arch : Arch) (fuel : nat).
Context (Hfuel : (length (mem_bytes m) <= fuel)%nat).

Lemma cie_string_nonzero c : Forall (fun b => b <> 0) (cie_string c).
Proof.
  unfold cie_string. destruct (cs_aug c) as [[n l]|]; [|done].
  apply Forall_cons. split; [done|]. apply Forall_fmap, Forall_true. intros. apply aug_letter_ok.
Qed.

Lemma reads_rules c cie a s : cie_state cie = None -> codeAlignFactor cie = cs_caf c ->
  dataAlignFactor cie = cs_daf c -> s32 (cs_daf c) -> Forall cfi_ok (cs_code c) /\ Forall no_set_loc (cs_code c) ->
  is_Some (cie_row arch c) -> at_mem m a (code_bytes (cs_code c)) ->
  reads m (DwarfParser.decode_rules arch fuel
             (mkCursor s (a + Z.of_nat (length (code_bytes (cs_code c))))) cie) a []
    (Some (DwarfCIE.setState (state_of <$> cie_row arch c) cie)).
Proof.
  intros Hst Ec Ed Hd [Hok Hno] [r Hr] Hat _ s0. unfold DwarfParser.decode_rules.
  unfold cie_row in *. destruct (exec_all _ _ _ _ _) as [M'|] eqn:Hex; [|done].
  rewrite (parseInstructions_ok arch fuel m cie None (cs_code c) a s0 s 0 M');
    rewrite ?Ec, ?Ed; try done.
  - cbn. by rewrite Z.add_0_r.
  - by apply no_set_loc_ok.
  - apply at_mem_length in Hat. lia.
Qed.

(** The augmentation data and the rules. *)
Lemma reads_cie_rest c w d str e index len : 
  let cie := DwarfCIE.setRetAddressReg (cs_ra c) (DwarfCIE.setDataAlignFactor (cs_daf c)
    (DwarfCIE.setCodeAlignFactor (cs_caf c) (DwarfCIE.new str len index))) in
  let end_ := mkCursor e (w + d + Z.of_nat (length (cie_aug w c ++ code_bytes (cs_code c)))) in
  s32 (cs_daf c) -> Forall cfi_ok (cs_code c) /\ Forall no_set_loc (cs_code c) -> is_Some (cie_row arch c) ->
  match cs_aug c with
  | None => True
  | Some (n, l) => u31 n /\ aug_ok (w + Z.of_nat (length (uleb128 n))) d l
  end ->
  at_mem m (str + 9) (cie_string c ++ [0]) ->
  at_mem m (w + d) (cie_aug w c ++ code_bytes (cs_code c)) ->
  reads m
    (letter ← (fun m c => v ← peek m 1 (str + 9); Ok (v, c));
     if letter =? 0 then DwarfParser.decode_rules arch fuel end_ cie
     else if negb (letter =? 122) then mret None
     else
       _ ← nextUleb128;
       a ← DwarfParser.read_augmentation (str + 9);
       DwarfParser.decode_rules arch fuel end_ (DwarfCIE.setAugmentation (Some a) cie))
    (w + d) (cie_aug w c) (Some (cie_object arch str len d index c)).
Proof.
  intros cie end_ Hdaf Hcode Hrow Haug Hs Hat. pose proof (at_mem_bounds _ _ _ Hm Hat) as Hbnd.
  apply at_mem_app in Hat as [Ha Hcd]. subst end_. rewrite length_app in *.
  unfold cie_string, cie_aug, cie_object in *. destruct (cs_aug c) as [[n l]|].
  - destruct Haug as [Hn Hl]. eapply reads_first; [eapply reads_peek, Hs|]. cbn [Z.eqb Pos.eqb negb].
    rewrite length_app in *. eapply reads_bind; [by apply (reads_uleb128 Hm)|].
    change ((122 :: (aug_letter <$> l)) ++ [0]) with ([122] ++ ((aug_letter <$> l) ++ [0])) in Hs.
    apply at_mem_app in Hs as [_ Hs]. rewrite Nat2Z.inj_add in Hcd.
    replace (w + d + Z.of_nat (length (uleb128 n))) with (w + Z.of_nat (length (uleb128 n)) + d) by lia.
    eapply reads_last; [apply (reads_read_augmentation Hm); [done|done|lia|lia]|].
    replace (w + d + Z.of_nat (_ + _ + _)) with (w + Z.of_nat (length (uleb128 n)) + d +
      Z.of_nat (length (aug_bytes (w + Z.of_nat (length (uleb128 n))) l)) +
      Z.of_nat (length (code_bytes (cs_code c)))) by lia.
    apply (reads_rules c); try done. by replace (w + Z.of_nat (length (uleb128 n)) + d + _) with
      (w + d + (Z.of_nat (length (uleb128 n)) +
       Z.of_nat (length (aug_bytes (w + Z.of_nat (length (uleb128 n))) l)))) by lia.
  - eapply reads_first; [eapply reads_peek, Hs|]. cbn [Z.eqb].
    cbn [length Nat.add] in *. rewrite Z.add_0_r in Hcd. by apply (reads_rules c).
Qed.

Lemma cie_parsed c w d index len e : cie_ok arch (w + 8) d c ->
  at_mem m (w + 8 + d) (cie_content (w + 8) c) ->
  DwarfParser.parseCIE arch fuel (mkCursor (w + d) (w + 8 + d))
    (mkCursor e (w + 8 + d + Z.of_nat (length (cie_content (w + 8) c)))) len index m
  = Ok (Some (cie_object arch (w + d) len d index c)).
Proof.
  intros (Hv&Hcaf&Hdaf&Hra&Hcode&Hrow&Haug) Hat. pose proof (at_mem_bounds _ _ _ Hm Hat) as Hbnd.
  unfold DwarfParser.parseCIE. cbn [getStart cstart].
  set (end_ := mkCursor _ _). set (base := DwarfCIE.new (w + d) len index).
  unfold cie_content in Hat. apply at_mem_app in Hat as [Hhead Hat]. apply at_mem_app in Hat as [Ha Hcd].
  assert (Hs : at_mem m (w + 8 + d + 1) (cie_string c ++ [0])).
  { unfold cie_head in Hhead. apply at_mem_app in Hhead as [_ Hh]. by apply at_mem_app in Hh as [Hh _]. }
  assert (Hr : reads m (DwarfParser.cie_fields arch fuel end_ base) (w + 8 + d)
    (cie_head c ++ cie_aug (after_head (w + 8) c) c) (Some (cie_object arch (w + d) len d index c))).
  2:{ rewrite Hr; [done|]. by apply at_mem_app. }
  unfold cie_head, DwarfParser.cie_fields. rewrite <- !(app_assoc _ _ (cie_aug _ _)).
  eapply reads_bind; [by apply reads_byte|]. cbn [length Z.of_nat Pos.of_succ_nat].
  replace (negb _ && negb _) with false by (destruct Hv as [-> | ->]; done).
  eapply reads_bind; [apply (reads_string Hm), cie_string_nonzero|].
  eapply reads_bind; [by apply (reads_uleb128 Hm)|].
  eapply reads_bind; [by apply (reads_sleb128 Hm)|].
  eapply reads_bind; [by apply (reads_uleb128 Hm)|].
  replace (w + 8 + d + _ + _ + _ + _ + _) with (after_head (w + 8) c + d)
    by (unfold after_head, cie_head; rewrite !length_app; cbn [length]; lia).
  replace end_ with (mkCursor e (after_head (w + 8) c + d +
    Z.of_nat (length (cie_aug (after_head (w + 8) c) c ++ code_bytes (cs_code c)))))
    by (unfold end_, cie_content, after_head; rewrite !length_app; f_equal; lia).
  replace (w + 8 + d + 1) with (w + d + 9) in Hs by lia.
  replace (w + 8 + d + Z.of_nat 1) with (w + d + 9) by lia.
  apply reads_cie_rest; try done.
  apply at_mem_app. unfold after_head in *. by rewrite <- !(Z.add_assoc (w + 8)), (Z.add_comm _ d), !Z.add_assoc.
Qed.
End cie.

(** The layout of an FDE after its CIE pointer, at virtual address [w]; [enc] and
    [lsda_enc] are the encodings its CIE asks for. *)
Definition fde_begin (w enc : Z) (f : fde_spec) : list Z :=
  ptr_bytes enc w (fs_begin f) ++ ptr_bytes (Z.land enc 0x0f) 0 (fs_range f) ++
  uleb128 (fs_aug_length f).
Definition fde_content (w enc lsda_enc : Z) (f : fde_spec) : list Z :=
  fde_begin w enc f ++
  ptr_bytes lsda_enc (w + Z.of_nat (length (fde_begin w enc f))) (fs_lsda f) ++ fs_code f.

Definition fde_object (start length d index ptr lsda_enc : Z) (f : fde_spec) : DwarfFDE :=
  mkFDE start length None index ptr (fs_begin f) (fs_range f)
    (Some (u64 (seen d lsda_enc (fs_lsda f)))).

(** The parser relocates the begin of a function as if it were relative to its
    field, so the encoding has to be. *)
Definition fde_ok (w d enc lsda_enc : Z) (f : fde_spec) : Prop :=
  pcrel enc = true /\ - 2 ^ 63 <= fs_begin f < 2 ^ 63 /\
  ptr_fits enc (w + d) (fs_begin f + d) /\
  ptr_fits (Z.land enc 0x0f) 0 (fs_range f) /\ 0 <= fs_range f /\
  u31 (fs_aug_length f) /\
  ptr_fits lsda_enc (w + Z.of_nat (length (fde_begin w enc f)) + d) (seen d lsda_enc (fs_lsda f)).

Lemma pcrel_format enc : pcrel (Z.land enc 0x0f) = false.
Proof.
  unfold pcrel. replace (Z.land (Z.land enc 15) 112) with 0; [done|].
  by rewrite <- Z.land_assoc, Z.land_0_r.
Qed.

Lemma ptr_fits_abs enc a b v : pcrel enc = false -> ptr_fits enc a v -> ptr_fits enc b v.
Proof. unfold ptr_fits, ptr_field, pcrel. by intros ->. Qed.

Lemma ptr_bytes_abs enc a b v : pcrel enc = false -> ptr_bytes enc a v = ptr_bytes enc b v.
Proof. unfold ptr_bytes, ptr_field, pcrel. by intros ->. Qed.

Section fde.
Context {m : memory} (Hm : mem_ok m).

Lemma reads_fde f a w d r v fde : fde_ok w d (codeEnc a) (lsdaEnc a) f -> r - v = d ->
  at_mem m (w + d) (fde_content w (codeEnc a) (lsdaEnc a) f) ->
  reads m (DwarfParser.fde_fields (mkParser r v None) (Some a) fde) (w + d)
    (fde_begin w (codeEnc a) f ++
     ptr_bytes (lsdaEnc a) (w + Z.of_nat (length (fde_begin w (codeEnc a) f))) (fs_lsda f))
    (mkFDE (fde_startAddress fde) (fde_length fde) (fde_state fde) (fde_cieIndex fde) (ciePointer fde)
       (fs_begin f) (fs_range f) (Some (u64 (seen d (lsdaEnc a) (fs_lsda f))))).
Proof.
  intros (Hrel&Hb&Hfb&Hfr&Hr&Hn&Hl) <- Hat. pose proof (at_mem_bounds _ _ _ Hm Hat) as Hbnd.
  unfold fde_content in *. rewrite length_app in *. set (enc := codeEnc a) in *.
  set (n0 := length (fde_begin w enc f)) in *.
  assert (El : n0 = length (fde_begin w enc f)) by done. clearbody n0.
  unfold DwarfParser.fde_fields, fde_begin in *. rewrite <- !app_assoc, !length_app in *.
  fold enc. cbn [virtualAddress readAddress].
  rewrite (ptr_bytes_seen (r - v) enc w). unfold seen at 1. rewrite Hrel.
  eapply reads_bind; [apply (reads_pointer Hm); [lia|done]|].
  replace (swrap 64 _) with (fs_begin f) by (rewrite swrap64_small; lia).
  eapply reads_bind.
  { rewrite (ptr_bytes_abs _ 0 (w + (r - v) + Z.of_nat (length (ptr_bytes enc (w + (r - v)) (fs_begin f + (r - v))))))
      by apply pcrel_format.
    apply (reads_pointer Hm); [|by eapply ptr_fits_abs; [apply pcrel_format|]].
    rewrite (ptr_bytes_seen (r - v) enc w) in El. unfold seen in El. rewrite Hrel in El. lia. }
  eapply reads_bind; [by apply (reads_uleb128 Hm)|].
  rewrite (ptr_bytes_seen (r - v) (lsdaEnc a)).
  rewrite (ptr_bytes_seen (r - v) enc w) in El. unfold seen in El at 1. rewrite Hrel in El.
  replace (w + (r - v) + _ + _ + _) with (w + Z.of_nat n0 + (r - v)) by lia.
  eapply reads_last; [apply (reads_pointer Hm); [lia|done]|].
  apply reads_ret_eq. unfold DwarfFDE.setAugmentation, DwarfFDE.setPcRange, DwarfFDE.setPcBegin. cbn.
  rewrite wrap_small; [done|]. destruct Hfr as [? _]. lia.
Qed.
End fde.

(** The CIEs laid out so far, with their virtual addresses. *)
Abbreviation known := (list (Z * cie_spec)).

Definition aug_spec (d : Z) (c : cie_spec) : CIEAugmentation :=
  match cs_aug c with
  | Some (_, l) => aug_of d l CIEAugmentation.new
  | None => CIEAugmentation.new
  end.

Definition entry_content (w : Z) (cies : known) (e : entry) : list Z :=
  match e with
  | CIE c => le_bytes 4 0 ++ cie_content (w + 8) c
  | FDE f =>
    match cies !! fs_cie f with
    | Some (cw, c) => le_bytes 4 (w + 4 - cw) ++
        fde_content (w + 8) (codeEnc (aug_spec 0 c)) (lsdaEnc (aug_spec 0 c)) f
    | None => []
    end
  end.
Definition entry_bytes (w : Z) (cies : known) (e : entry) : list Z :=
  le_bytes 4 (Z.of_nat (length (entry_content w cies e))) ++ entry_content w cies e.
Definition next_known (w : Z) (cies : known) (e : entry) : known :=
  match e with CIE c => cies ++ [(w, c)] | FDE _ => cies end.

(** A section at virtual address [w]. *)
Fixpoint section_bytes (w : Z) (cies : known) (es : list entry) : list Z :=
  match es with
  | [] => []
  | e :: es => entry_bytes w cies e ++
      section_bytes (w + Z.of_nat (length (entry_bytes w cies e))) (next_known w cies e) es
  end.

Definition entry_ok (arch : Arch) (w d : Z) (cies : known) (e : entry) : Prop :=
  Z.of_nat (length (entry_content w cies e)) < 0xffffffff /\
  match e with
  | CIE c => cie_ok arch (w + 8) d c
  | FDE f => exists cw c, cies !! fs_cie f = Some (cw, c) /\ is_Some (cs_aug c) /\
      w + 4 - cw < 2 ^ 32 /\
      fde_ok (w + 8) d (codeEnc (aug_spec 0 c)) (lsdaEnc (aug_spec 0 c)) f
  end.
Fixpoint section_ok (arch : Arch) (w d : Z) (cies : known) (es : list entry) : Prop :=
  match es with
  | [] => True
  | e :: es => entry_ok arch w d cies e /\
      section_ok arch (w + Z.of_nat (length (entry_bytes w cies e))) d (next_known w cies e) es
  end.

(** What the parser records of an entry and of a section. *)
Definition entry_info (arch : Arch) (w d : Z) (cies : known) (e : entry) (i : DwarfUnwindInfo)
  : DwarfUnwindInfo :=
  let len := Z.of_nat (length (entry_content w cies e)) in
  match e with
  | CIE c =>
    mkInfo (cieList i ++ [cie_object arch (w + d) len d (Z.of_nat (length cies)) c]) (fdeList i)
      (<[w + d := Z.of_nat (length cies)]> (cieMap i))
  | FDE f =>
    match cies !! fs_cie f with
    | Some (cw, c) =>
      DwarfUnwindInfo.addFDE (fde_object (w + d) len d (Z.of_nat (fs_cie f)) (w + 4 - cw)
                                (lsdaEnc (aug_spec 0 c)) f) i
    | None => i
    end
  end.
Fixpoint section_info (arch : Arch) (w d : Z) (cies : known) (es : list entry)
    (i : DwarfUnwindInfo) : DwarfUnwindInfo :=
  match es with
  | [] => i
  | e :: es => section_info arch (w + Z.of_nat (length (entry_bytes w cies e))) d
                 (next_known w cies e) es (entry_info arch w d cies e i)
  end.

(** The encodings do not depend on where the section is read. *)
Lemma aug_of_enc d l a a' : codeEnc a = codeEnc a' -> lsdaEnc a = lsdaEnc a' ->
  codeEnc (aug_of d l a) = codeEnc (aug_of 0 l a') /\ lsdaEnc (aug_of d l a) = lsdaEnc (aug_of 0 l a').
Proof.
  revert a a'. induction l as [|[] l IH]; intros a a' Hc Hl; [done|..]; apply IH; done.
Qed.
Lemma aug_spec_enc d c : codeEnc (aug_spec d c) = codeEnc (aug_spec 0 c) /\
  lsdaEnc (aug_spec d c) = lsdaEnc (aug_spec 0 c).
Proof. unfold aug_spec. destruct (cs_aug c) as [[n l]|]; [|done]. by apply aug_of_enc. Qed.

(** The parser knows the CIEs laid out so far. *)
Definition knows (w d : Z) (cies : known) (i : DwarfUnwindInfo) : Prop :=
  length (cieList i) = length cies /\
  forall k cw c, cies !! k = Some (cw, c) ->
    0 <= cw + d /\ cw < w /\ cieMap i !! (cw + d) = Some (Z.of_nat k) /\
    exists o, cieList i !! k = Some o /\
      cie_augmentation o = match cs_aug c with None => None | Some _ => Some (Some (aug_spec d c)) end.

Lemma knows_next arch w w' d cies e i : knows w d cies i -> 0 <= w + d -> w < w' ->
  knows w' d (next_known w cies e) (entry_info arch w d cies e i).
Proof.
  intros [Hl Hk] H0 Hw. destruct e as [c|f]; cbn [next_known entry_info].
  - split; [cbn; rewrite !length_app, Hl; done|]. intros k cw c' Hc'. cbn [cieMap cieList].
    destruct (decide (k = length cies)) as [->|Hne].
    + rewrite list_lookup_middle in Hc' by done. injection Hc' as <- <-.
      split_and!; [done..|by rewrite lookup_insert_eq|].
      eexists. split; [apply list_lookup_middle; by rewrite Hl|].
      unfold cie_object, aug_spec. cbn. by destruct (cs_aug c) as [[]|].
    + assert (Hlt : (k < length cies)%nat).
      { apply lookup_lt_Some in Hc'. rewrite length_app in Hc'. cbn in Hc'. lia. }
      rewrite lookup_app_l in Hc' by done. destruct (Hk _ _ _ Hc') as (?&?&?&o&Ho&Ha).
      rewrite lookup_insert_ne by lia. split_and!; [done|lia|done|].
      exists o. by rewrite lookup_app_l by lia.
  - assert (Hmap : forall (i' : DwarfUnwindInfo), cieList i' = cieList i -> cieMap i' = cieMap i -> knows w' d cies i').
    { intros i' E1 E2. unfold knows. rewrite E1, E2. split; [done|]. intros k cw c Hc.
      destruct (Hk _ _ _ Hc) as (?&?&?&?). split_and!; auto. lia. }
    destruct (cies !! fs_cie f) as [[cw c]|]; by apply Hmap.
Qed.

Section section_proof.
Context {m : memory} (Hm : mem_ok m) (arch : Arch) (fuel : nat).
Context (Hfuel : (length (mem_bytes m) <= fuel)%nat).
Context (r v d : Z) (Hd : r - v = d).
Abbreviation p := (mkParser r v None).

Lemma fde_entry_parsed w cies f info start : entry_ok arch w d cies (FDE f) ->
  knows w d cies info -> at_mem m (w + d) (entry_bytes w cies (FDE f)) ->
  start = mkCursor (w + d) (w + 8 + d) ->
  exists cw, 0 < w + 4 - cw < 2 ^ 32 /\ 0 <= cw + d /\
    entry_content w cies (FDE f) = le_bytes 4 (w + 4 - cw) ++ drop 4 (entry_content w cies (FDE f)) /\
    DwarfUnwindInfo.findCIE (cw + d) info = Some (Z.of_nat (fs_cie f)) /\
    exists fde,
      DwarfParser.parseFDE p info start (Z.of_nat (length (entry_content w cies (FDE f))))
        (Z.of_nat (fs_cie f)) (w + 4 - cw) m = Ok fde /\
      DwarfUnwindInfo.addFDE fde info = entry_info arch w d cies (FDE f) info.
Proof.
  intros (Hlen&cw&c&Hc&[na Haug]&Hdist&Hok) [Hl Hk] Hat ->.
  destruct (Hk _ _ _ Hc) as (H0&Hlt&Hmap&o&Ho&Ha).
  exists cw. unfold entry_bytes, entry_content, entry_info in *. rewrite Hc in *.
  split_and!; [lia..| | |].
  { rewrite drop_app_le, drop_ge by (rewrite le_bytes_length; lia). done. }
  { done. }
  set (len := Z.of_nat _). eexists. split; [|reflexivity].
  unfold DwarfParser.parseFDE, DwarfUnwindInfo.getCIE, DwarfUnwindInfo.getCIECount.
  rewrite (proj2 (Z.ltb_lt _ _)) by (apply lookup_lt_Some in Ho; lia).
  unfold cassert, DwarfCIE.getAugmentation. cbn [mbind res_bind].
  rewrite (proj2 (load_lookup _ _ o)) by (rewrite Nat2Z.id; split; [lia|done]). cbn [mbind res_bind].
  rewrite Ha, Haug. cbn [mbind res_bind getStart cstart].
  apply at_mem_app in Hat as [_ Hat]. apply at_mem_app in Hat as [_ Hat].
  rewrite !le_bytes_length in Hat. replace (w + d + Z.of_nat 4 + Z.of_nat 4) with (w + 8 + d) in Hat by lia.
  destruct (aug_spec_enc d c) as [Ec El]. rewrite <- Ec, <- El in Hok, Hat.
  rewrite (reads_fde Hm f (aug_spec d c) (w + 8) d r v _ Hok Hd Hat).
  - unfold fde_object, entry_content. rewrite Hc, El. done.
  - unfold fde_content in Hat. rewrite app_assoc in Hat. by apply at_mem_app in Hat as [? _].
Qed.

Lemma next_at n a s x : 0 <= x < 256 ^ Z.of_nat n -> at_mem m a (le_bytes n x) ->
  next n m (mkCursor s a) = Ok (x, mkCursor s (a + Z.of_nat n)).
Proof. intros Hx Hat. rewrite (reads_unsigned Hm n a x Hx Hat). by rewrite le_bytes_length. Qed.

Lemma entry_content_length w cies e : entry_ok arch w d cies e ->
  (4 <= length (entry_content w cies e))%nat.
Proof.
  intros [_ H]. destruct e as [c|f]; cbn [entry_content].
  - rewrite length_app, le_bytes_length. lia.
  - destruct H as (cw&c&->&_). rewrite length_app, le_bytes_length. lia.
Qed.

Lemma entry_parsed w cies e info : entry_ok arch w d cies e -> knows w d cies info ->
  at_mem m (w + d) (entry_bytes w cies e) ->
  DwarfParser.parse_entry arch fuel p info (new (w + d)) m =
    Ok (Some (entry_info arch w d cies e info,
              new (w + Z.of_nat (length (entry_bytes w cies e)) + d))).
Proof.
  intros Hok Hkn Hat. pose proof (entry_content_length _ _ _ Hok) as Hc4.
  pose proof (at_mem_bounds _ _ _ Hm Hat) as Hbnd. pose proof (proj1 Hok) as Hlen.
  unfold entry_bytes in *. rewrite length_app, le_bytes_length in *.
  pose proof Hat as Hall. apply at_mem_app in Hat as [Hl Hat]. rewrite le_bytes_length in Hat.
  set (len := length (entry_content w cies e)) in *.
  unfold DwarfParser.parse_entry. change (new (w + d)) with (mkCursor (w + d) (w + d)).
  rewrite (next_at 4 (w + d) (w + d) (Z.of_nat len)) by (done || cbn; lia).
  cbn [mbind res_bind]. rewrite (proj2 (Z.eqb_neq _ _)) by lia. cbn [mbind res_bind].
  rewrite (proj2 (Z.eqb_neq _ _)) by lia. cbn [getStart cstart getCursor cursor].
  rewrite add64_small by lia.
  replace (w + d + (Z.of_nat len + 4)) with (w + Z.of_nat (4 + len) + d) by lia.
  destruct e as [c|f].
  - cbn [entry_content] in Hat. apply at_mem_app in Hat as [Hid Hat].
    rewrite (next_at 4 _ _ 0) by done. cbn [mbind res_bind Z.eqb]. rewrite le_bytes_length in Hat.
    replace (w + d + Z.of_nat 4 + Z.of_nat 4) with (w + 8 + d) in * by lia.
    replace (w + Z.of_nat (4 + len) + d) with (w + 8 + d + Z.of_nat (length (cie_content (w + 8) c)))
      by (unfold len; cbn [entry_content]; rewrite length_app, le_bytes_length; lia).
    unfold new. rewrite (cie_parsed Hm arch fuel Hfuel c w d) by (done || apply Hok).
    destruct Hkn as [Hn _]. unfold DwarfUnwindInfo.getCIECount. by rewrite Hn.
  - destruct (fde_entry_parsed w cies f info (mkCursor (w + d) (w + 8 + d)) Hok Hkn Hall eq_refl)
      as (cw&Hcw&H0&E&Hfind&fde&Hp&Hadd).
    rewrite E in Hat. apply at_mem_app in Hat as [Hid _].
    rewrite (next_at 4 _ _ (w + 4 - cw)) by (done || cbn; lia). cbn [mbind res_bind].
    rewrite (proj2 (Z.eqb_neq _ _)) by lia.
    cbn [new getCursor cursor]. rewrite sub64_small by lia. replace (w + d + Z.of_nat 4 - (w + 4 - cw)) with (cw + d) by lia.
    rewrite Hfind. replace (w + d + Z.of_nat 4 + Z.of_nat 4) with (w + 8 + d) by lia.
    unfold len. rewrite Hp. cbn [mbind res_bind]. by rewrite Hadd.
Qed.

(** What may follow the entries: nothing, or the terminator and anything. *)
Definition section_tail (tail : list Z) : Prop := tail = [] \/ exists rest, tail = le_bytes 4 0 ++ rest.

Lemma section_parsed es tail w cies info n end_ : section_ok arch w d cies es ->
  section_tail tail -> knows w d cies info -> 0 <= w + d ->
  at_mem m (w + d) (section_bytes w cies es ++ tail) ->
  cursor end_ = w + d + Z.of_nat (length (section_bytes w cies es ++ tail)) ->
  (length (section_bytes w cies es ++ tail) <= n)%nat ->
  DwarfParser.parse_loop arch fuel n p info (new (w + d)) end_ m =
    Ok (section_info arch w d cies es info).
Proof.
  intros Hok Htail. revert w cies info n Hok.
  induction es as [|e es IH]; intros w cies info n Hok Hkn H0 Hat Hend Hn; cbn [section_bytes section_info app] in *.
  - destruct Htail as [-> | [rest ->]].
    + destruct n; cbn [DwarfParser.parse_loop]; unfold lt; cbn [new cursor];
        rewrite Hend; cbn; by rewrite Z.add_0_r, Z.ltb_irrefl.
    + rewrite length_app, le_bytes_length in *. destruct n as [|n]; [lia|].
      cbn [DwarfParser.parse_loop]. unfold lt. cbn [new cursor].
      rewrite Hend, (proj2 (Z.ltb_lt _ _)) by lia. cbn [negb].
      apply at_mem_app in Hat as [Hat _]. unfold DwarfParser.parse_entry, new.
      by rewrite (next_at 4 _ _ 0) by done.
  - destruct Hok as [He Hok]. pose proof (entry_content_length _ _ _ He) as Hc4.
    rewrite <- app_assoc in *. rewrite length_app in Hend, Hn. apply at_mem_app in Hat as [Hat Hrest].
    assert (8 <= length (entry_bytes w cies e))%nat
      by (unfold entry_bytes; rewrite length_app, le_bytes_length; lia).
    destruct n as [|n]; [lia|]. cbn [DwarfParser.parse_loop]. unfold lt at 1. cbn [new cursor].
    rewrite Hend, (proj2 (Z.ltb_lt _ _)) by lia. cbn [negb].
    change (mkCursor (w + d) (w + d)) with (new (w + d)). rewrite (entry_parsed w cies e) by done. cbn [mbind res_bind].
    apply IH; [done| |lia| |lia|lia].
    + apply knows_next; [done..|lia].
    + by replace (w + Z.of_nat (length (entry_bytes w cies e)) + d) with
        (w + d + Z.of_nat (length (entry_bytes w cies e))) by lia.
Qed.
End section_proof.

(** The bounds of the functions the entries describe. *)
Definition function_bounds (e : entry) : option (Z * Z) :=
  match e with CIE _ => None | FDE f => Some (fs_begin f, fs_range f) end.

Lemma section_info_bounds arch w d cies es i : section_ok arch w d cies es ->
  (fun f => (pcBegin f, pcRange f)) <$> fdeList (section_info arch w d cies es i) =
  ((fun f => (pcBegin f, pcRange f)) <$> fdeList i) ++ omap function_bounds es.
Proof.
  revert w cies i. induction es as [|e es IH]; intros w cies i Hok; cbn [section_info].
  - by rewrite app_nil_r.
  - destruct Hok as [He Hok]. rewrite IH by done. destruct e as [c|f]; [done|].
    destruct He as (_&cw&c&Hc&_). unfold entry_info. rewrite Hc.
    unfold DwarfUnwindInfo.addFDE. cbn [fdeList]. rewrite fmap_app, <- app_assoc. done.
Qed.

(** C40: The variable-length integers of the cursor.  A number of at most five bytes
    (any encoding, padded or not) is decoded, and the cursor moved past it, if its
    value is below 2^31, or between -2^31 and 2^31 for the signed form.  An unsigned number of
    five bytes with a larger value comes out as its low 32 bits, sign extended; a
    longer number shifts an [int] by more than its width. *)
Theorem leb128_correct m a s bs :
  mem_ok m -> leb_form bs -> at_mem m a bs ->
  let c := mkCursor s a in
  let c' := mkCursor s (a + Z.of_nat (length bs)) in
  ((length bs <= 5)%nat -> uleb_value bs < 2 ^ 31 -> nextUleb128 m c = Ok (uleb_value bs, c')) /\
  ((length bs <= 5)%nat -> - 2 ^ 31 <= sleb_value bs < 2 ^ 31 ->
     nextSleb128 m c = Ok (sleb_value bs, c')) /\
  ((length bs <= 5)%nat -> nextUleb128 m c = Ok (u64 (swrap 32 (uleb_value bs)), c')) /\
  ((5 < length bs)%nat -> nextUleb128 m c = Err Undefined /\ nextSleb128 m c = Err Undefined).
Proof.
  intros Hm Hf Hat c c'. split_and!; intros.
  - by apply (reads_uleb Hm).
  - by apply (reads_sleb Hm).
  - by apply (reads_uleb_any Hm).
  - unfold nextUleb128, nextSleb128, mbind, reader_bind.
    pose proof (leb128_loop_long Hm 0 0 bs a s Hf ltac:(lia) ltac:(lia) Hat) as E.
    change (leb128_loop 6 0 0 m c = Err Undefined) in E. by rewrite E.
Qed.

(** C34: The decoder of call frame instructions implements the rule table of the DWARF
    standard: on the encoding of any sequence of instructions without location
    expressions, with operands below 2^31 in magnitude and addresses encoded as the augmentation says, that the table of the general registers gives a meaning, it ends in the state that represents
    the table, for the rules a CIE starts from or for those it inherits.  The
    fuel of the loop is the number of bytes. *)
Theorem cfa_rules_correct arch fuel m cie initial code a s e ip M' :
  mem_ok m -> cie_state cie = state_of <$> initial -> s32 (dataAlignFactor cie) ->
  Forall cfi_ok code -> Forall (set_loc_ok cie) code -> at_mem m a (code_bytes code) -> (length (code_bytes code) <= fuel)%nat ->
  exec_all initial (codeAlignFactor cie) (dataAlignFactor cie) code
    (mkMachine ip (default (blank arch) initial) []) = Some M' ->
  DwarfInstructionDecoder.parseInstructions arch fuel (mkCursor s a)
    (mkCursor e (a + Z.of_nat (length (code_bytes code)))) cie ip m = Ok (state_of (current M')).
Proof. apply parseInstructions_ok. Qed.

(** C9: The parser reads back a section.  For a section of CIEs and FDEs laid out at a
    virtual address and read at another one, whose FDEs belong to CIEs with
    augmentation data and give the begin of their function relative to the field, the
    constructor terminates without fault, records exactly these entries, and the
    bounds of the functions are those of the program. *)
Theorem eh_frame_parsed arch fuel m w r es tail :
  mem_ok m -> (length (mem_bytes m) <= fuel)%nat ->
  at_mem m r (section_bytes w [] es ++ tail) ->
  section_ok arch w (r - w) [] es -> section_tail tail ->
  exists info,
    DwarfParser.build arch fuel
      (Some (r, w, Z.of_nat (length (section_bytes w [] es ++ tail)))) m =
      Ok (mkParser r w (Some info)) /\
    info = section_info arch w (r - w) [] es DwarfUnwindInfo.new /\
    (fun f => (pcBegin f, pcRange f)) <$> fdeList info = omap function_bounds es.
Proof.
  intros Hm Hf Hat Hok Htail. exists (section_info arch w (r - w) [] es DwarfUnwindInfo.new).
  split_and!; [|done|by rewrite section_info_bounds].
  pose proof (at_mem_bounds _ _ _ Hm Hat) as Hbnd.
  unfold DwarfParser.build, DwarfParser.parse. cbn [readAddress virtualAddress].
  replace (new r) with (new (w + (r - w))) by (f_equal; lia).
  rewrite (section_parsed Hm arch fuel Hf r w (r - w) eq_refl es tail w []); try done.
  - lia.
  - by replace (w + (r - w)) with r by lia.
  - cbn [new cursor]. rewrite add64_small by lia. lia.
  - apply at_mem_length in Hat. lia.
Qed.

Module DwarfExamples.

(** What gcc emits for x86-64: a CIE with the augmentation zR and one function. *)
Definition gcc_cie : cie_spec :=
  mkCieSpec 1 (Some (1, [AugR 0x1b])) 1 (-8) 16 [DefCfa 7 8; SetOffset 16 1; Nop; Nop].
Definition gcc_fde : fde_spec := mkFdeSpec 0 0x1060 0x26 0 0 [0x44; 0x07; 0x10; 0; 0; 0; 0].
Definition gcc_section : list entry := [CIE gcc_cie; FDE gcc_fde].

(** The bytes as the linker writes them at 0x2000, and the memory they are read from. *)
Definition gcc_bytes : list Z := section_bytes 0x2000 [] gcc_section ++ [0; 0; 0; 0].
Definition gcc_memory : memory := mkMemory 0x50000 gcc_bytes.

Example gcc_bytes_written : gcc_bytes =
  [0x14; 0; 0; 0; 0; 0; 0; 0; 0x01; 0x7a; 0x52; 0; 0x01; 0x78; 0x10; 0x01; 0x1b;
   0x0c; 0x07; 0x08; 0x90; 0x01; 0; 0;
   0x14; 0; 0; 0; 0x1c; 0; 0; 0; 0x40; 0xf0; 0xff; 0xff; 0x26; 0; 0; 0; 0;
   0x44; 0x07; 0x10; 0; 0; 0; 0; 0; 0; 0; 0].
Proof. reflexivity. Qed.

Lemma gcc_memory_ok : mem_ok gcc_memory.
Proof. vm_compute. split; congruence. Qed.
Lemma gcc_memory_at : at_mem gcc_memory 0x50000 gcc_bytes.
Proof. exists [], []. split; reflexivity. Qed.
Lemma gcc_section_ok : section_ok ARCH_X86_64 0x2000 (0x50000 - 0x2000) [] gcc_section.
Proof.
  split; [|split; [|done]].
  - split; [reflexivity|]. split_and!; [by left|done|done|done| | | |split; [done|split; done]].
    + repeat (apply Forall_cons; split; [done|]). by apply Forall_nil.
    + repeat (apply Forall_cons; split; [done|]). by apply Forall_nil.
    + by eexists.
  - split; [reflexivity|]. exists 0x2000, gcc_cie.
    split_and!; [done|by eexists|done|]. by split_and!.
Qed.

Lemma leb128_correct_witness :
  let m := mkMemory 0x1000 [0xe5; 0x8e; 0x26] in
  nextUleb128 m (mkCursor 0x1000 0x1000) = Ok (624485, mkCursor 0x1000 0x1003).
Proof.
  intros m. destruct (leb128_correct m 0x1000 0x1000 [0xe5; 0x8e; 0x26]) as (H&_).
  - vm_compute. split; congruence.
  - cbn. lia.
  - exists [], []. split; reflexivity.
  - apply H; [cbn; lia|reflexivity].
Defined.

Lemma cfa_rules_correct_witness :
  let code := [DefCfa 7 8; SetOffset 16 1; RememberState; SetLoc 0x401000; DefCfaOffset 16; RestoreState] in
  let m := mkMemory 0x1000 (code_bytes code) in
  let cie := DwarfCIE.setAugmentation (Some CIEAugmentation.new) (DwarfCIE.setDataAlignFactor (-8) (DwarfCIE.setCodeAlignFactor 1 (DwarfCIE.new 0 0 0))) in
  exists row,
    DwarfInstructionDecoder.parseInstructions ARCH_X86_64 100 (mkCursor 0x1000 0x1000)
      (mkCursor 0x1000 (0x1000 + Z.of_nat (length (code_bytes code)))) cie 0 m = Ok (state_of row) /\
    cfa row = (7, 8) /\ rules row !! 16%nat = Some (AtOffset (-8)).
Proof.
  intros code m cie. eexists. split.
  - apply (cfa_rules_correct ARCH_X86_64 100 m cie None code 0x1000 0x1000 0x1000 0
      (mkMachine 0x401000 (mkRow (replicate 16 Unspecified ++ [AtOffset (-8)]) (7, 8)) [])).
    + vm_compute. split; congruence.
    + reflexivity.
    + vm_compute. split; congruence.
    + repeat (apply Forall_cons; split; [done|]). by apply Forall_nil.
    + repeat (apply Forall_cons; split; [first [exact I|by eexists]|]). by apply Forall_nil.
    + exists [], []. split; reflexivity.
    + vm_compute. lia.
    + reflexivity.
  - split; reflexivity.
Defined.

(** Without augmentation the operand of DW_CFA_set_loc is not read: the bytes of the address 0x100e are taken for DW_CFA_def_cfa_offset 16. *)
Theorem set_loc_not_read :
  let code := [DefCfa 7 8; SetLoc 0x100e] in
  let m := mkMemory 0x1000 (code_bytes code) in
  let cie := DwarfCIE.setAugmentation None (DwarfCIE.setDataAlignFactor (-8) (DwarfCIE.setCodeAlignFactor 1 (DwarfCIE.new 0 0 0))) in
  (cfa <$> (current <$> exec_all None 1 (-8) code (mkMachine 0 (blank ARCH_X86_64) []))) = Some (7, 8) /\
  match DwarfInstructionDecoder.parseInstructions ARCH_X86_64 100 (mkCursor 0x1000 0x1000)
      (mkCursor 0x1000 (0x1000 + Z.of_nat (length (code_bytes code)))) cie 0 m with
  | Ok s => cfaRegister s = 7 /\ cfaOffset s = 16
  | Err _ => False
  end.
Proof. vm_compute. auto. Qed.

Lemma eh_frame_parsed_witness :
  exists info,
    DwarfParser.build ARCH_X86_64 100 (Some (0x50000, 0x2000, Z.of_nat (length gcc_bytes))) gcc_memory =
      Ok (mkParser 0x50000 0x2000 (Some info)) /\
    (fun f => (pcBegin f, pcRange f)) <$> fdeList info = [(0x1060, 0x26)].
Proof.
  destruct (eh_frame_parsed ARCH_X86_64 100 gcc_memory 0x2000 0x50000 gcc_section [0; 0; 0; 0])
    as (info&H&_&Hb).
  - apply gcc_memory_ok.
  - vm_compute. lia.
  - apply gcc_memory_at.
  - apply gcc_section_ok.
  - right. by exists [].
  - exists info. by split.
Defined.

(** *** Defects *)

Definition built (w r : Z) (bytes : list Z) : res DwarfParser :=
  DwarfParser.build ARCH_X86_64 200 (Some (r, w, Z.of_nat (length bytes))) (mkMemory r bytes).
Definition begins (b : res DwarfParser) : option (list Z) :=
  match b with
  | Ok p => (fun i => pcBegin <$> fdeList i) <$> pinfo p
  | Err _ => None
  end.

(** The begin of a function given as an absolute address is relocated nevertheless. *)
Definition absolute_section : list entry :=
  [CIE (mkCieSpec 1 (Some (1, [AugR 0x00])) 1 (-8) 16 []); FDE gcc_fde].
Example absolute_begin_shifted :
  begins (built 0x2000 0x50000 (section_bytes 0x2000 [] absolute_section)) =
    Some [0x1060 - (0x50000 - 0x2000)].
Proof. vm_compute. reflexivity. Qed.

(** Without augmentation data the FDE's parser reads an uninitialised pointer. *)
Definition plain_section : list entry := [CIE (mkCieSpec 1 None 1 (-8) 16 []); FDE gcc_fde].
Example no_augmentation_undefined :
  built 0x2000 0x50000 (section_bytes 0x2000 [] plain_section) = Err Undefined.
Proof. vm_compute. reflexivity. Qed.

(** A CIE of another version is rejected by [parseCIE], whose null result is
    dereferenced. *)
Example version_null :
  built 0x2000 0x50000 (section_bytes 0x2000 [] [CIE (mkCieSpec 4 None 1 (-8) 16 [])]) =
    Err NullDeref.
Proof. vm_compute. reflexivity. Qed.

(** A rule for a register beyond the 17 of x86-64 (xmm0 is number 17) is stored
    outside of the array. *)
Example vector_register_out_of_bounds :
  built 0x2000 0x50000
    (section_bytes 0x2000 [] [CIE (mkCieSpec 1 None 1 (-8) 16 [SetOffset 17 2])]) = Err OutOfBounds.
Proof. vm_compute. reflexivity. Qed.

(** The end of an entry with a 64-bit length is taken four bytes too early. *)
Example extended_length_short :
  let bytes := le_bytes 4 0xffffffff ++ le_bytes 8 8 ++ le_bytes 4 0x77 ++ le_bytes 4 0 in
  DwarfParser.parse_entry ARCH_X86_64 200 (mkParser 0x50000 0x2000 None) DwarfUnwindInfo.new
    (new 0x50000) (mkMemory 0x50000 bytes) =
    Ok (Some (DwarfUnwindInfo.new, new (0x50000 + Z.of_nat (length bytes) - 4))).
Proof. vm_compute. reflexivity. Qed.

(** A 64-bit length of 2^64 - 8 makes the entry its own successor: the loop does not
    end, whatever the fuel. *)
Definition looping : memory :=
  mkMemory 0x50000 (le_bytes 4 0xffffffff ++ le_bytes 8 (2 ^ 64 - 8) ++ le_bytes 4 0x77).
Lemma extended_length_loops arch fuel n :
  DwarfParser.parse_loop arch fuel n (mkParser 0x50000 0x2000 None) DwarfUnwindInfo.new
    (new 0x50000) (new (0x50000 + 16)) looping = Err OutOfFuel.
Proof. induction n as [|n IH]; [reflexivity|]. exact IH. Qed.

(** [DW_OP_bra] branches whatever it pops. *)
Lemma bra_unconditional m state c st v :
  DwarfExpressionDecoder.operation state DW_OP_bra (v :: st) m c =
  DwarfExpressionDecoder.operation state DW_OP_bra (0 :: st) m c.
Proof. reflexivity. Qed.

(** [DW_OP_lt] compares without sign: -1 is not below 1. *)
Example lt_unsigned m state c :
  DwarfExpressionDecoder.operation state DW_OP_lt [1; 2 ^ 64 - 1] m c = Ok ([0], c).
Proof. reflexivity. Qed.
End DwarfExamples.
