(* ===== verification/UnionFind.v ===== *)
(** * Union-find: src/elf/unionfind.h and unionfind.cpp

    Disjoint sets of the numbers below a count, as a vector of parents.  [setEdge],
    which links two roots, is virtual: what it promises is the class [EdgeLaws], and
    [join] and [find] are verified against it.  The abstract state is the
    equivalence closure of the joined pairs. *)

From S2P Require Import Prelude.

(** The member [parent]. *)
Abbreviation parents := (list nat).

(** An access outside of the vector is a fault. *)
Definition parent_at (parent : parents) (x : nat) : res nat :=
  match parent !! x with Some y => Ok y | None => Err OutOfBounds end.
Definition set_parent (parent : parents) (x y : nat) : res parents :=
  if (x <? length parent)%nat then Ok (<[x := y]> parent) else Err OutOfBounds.

(** The virtual method. *)
Class EdgeRule := setEdge : parents -> nat -> nat -> res parents.

Module UnionFind.
Definition new (count : nat) : parents := seq 0 count.

(** [while(parent[x] != x) x = parent[x]]; a walk visits every number at most once. *)
Fixpoint find_loop (fuel : nat) (parent : parents) (x : nat) : res nat :=
  match fuel with
  | O => Err OutOfFuel
  | S fuel =>
    y ← parent_at parent x;
    if (y =? x)%nat then Ok x else find_loop fuel parent y
  end.

Definition find (x : nat) (parent : parents) : res (nat * parents) :=
  x ← find_loop (S (length parent)) parent x;
  parent ← set_parent parent x x;
  Ok (x, parent).

Definition join `{EdgeRule} (x1 x2 : nat) (parent : parents) : res parents :=
  '(p1, parent) ← find x1 parent;
  '(p2, parent) ← find x2 parent;
  setEdge parent p1 p2.

(** A sequence of calls of [join]. *)
Fixpoint join_all `{EdgeRule} (pairs : list (nat * nat)) (parent : parents) : res parents :=
  match pairs with
  | [] => Ok parent
  | (x1, x2) :: pairs => parent ← join x1 x2 parent; join_all pairs parent
  end.

(** [UnionFind::setEdge]: the smaller number becomes the parent. *)
Definition setEdge_default (parent : parents) (x1 x2 : nat) : res parents :=
  parent ← (if (x1 <? x2)%nat then set_parent parent x2 x1 else Ok parent);
  if (x2 <? x1)%nat then set_parent parent x1 x2 else Ok parent.
End UnionFind.
Import UnionFind.

#[export] Instance default_rule : EdgeRule := UnionFind.setEdge_default.

(** ** What [setEdge] promises *)

(** It links two different roots one way or the other, and changes nothing if they are
    the same. *)
Class EdgeLaws (count : nat) (rule : EdgeRule) : Prop := {
  edge_link parent x1 x2 : length parent = count -> (x1 < count)%nat -> (x2 < count)%nat ->
    x1 <> x2 -> setEdge parent x1 x2 = Ok (<[x1 := x2]> parent) \/
                setEdge parent x1 x2 = Ok (<[x2 := x1]> parent);
  edge_same parent x : length parent = count -> parent !! x = Some x ->
    setEdge parent x x = Ok parent }.

#[export] Instance default_laws count : EdgeLaws count default_rule.
Proof.
  split; unfold setEdge, default_rule, setEdge_default, set_parent.
  - intros parent x1 x2 Hl H1 H2 Hne.
    destruct (Nat.ltb_spec x1 x2), (Nat.ltb_spec x2 x1); try lia; unfold mbind, res_bind.
    + right. by rewrite Hl, (proj2 (Nat.ltb_lt _ _) H2).
    + left. by rewrite Hl, (proj2 (Nat.ltb_lt _ _) H1).
  - intros parent x _ _. by rewrite Nat.ltb_irrefl.
Qed.

(** ** Walks to a root *)

(** [walk parent x k r]: from [x], [k] steps lead to the root [r]. *)
Inductive walk (parent : parents) : nat -> nat -> nat -> Prop :=
| walk_root x : parent !! x = Some x -> walk parent x 0 x
| walk_step x y k r : parent !! x = Some y -> y <> x -> walk parent y k r -> walk parent x (S k) r.

Lemma walk_det parent x k r k' r' : walk parent x k r -> walk parent x k' r' -> k = k' /\ r = r'.
Proof.
  intros H. revert k' r'. induction H as [x Hx|x y k r Hx Hne Hw IH]; intros k' r' H'.
  - inversion H'; by simplify_eq.
  - inversion H'; simplify_eq. edestruct IH as [-> ->]; [eassumption|done].
Qed.

Lemma walk_end parent x k r : walk parent x k r -> parent !! r = Some r.
Proof. by induction 1. Qed.

Lemma walk_lt parent x k r : walk parent x k r -> (x < length parent)%nat.
Proof. destruct 1; by eapply lookup_lt_Some. Qed.

(** The numbers of a walk are different, so it is short. *)
Lemma walk_nodes parent x k r : walk parent x k r ->
  exists l, length l = S k /\ NoDup l /\
    forall y, y ∈ l -> (y < length parent)%nat /\ exists k', (k' <= k)%nat /\ walk parent y k' r.
Proof.
  induction 1 as [x Hx|x y k r Hx Hne Hw (l&Hl&Hd&Hy)].
  - exists [x]. split_and!; [done|by apply NoDup_singleton|]. intros y ->%list_elem_of_singleton.
    split; [by eapply lookup_lt_Some|]. exists 0%nat. split; [lia|by constructor].
  - assert (Hwx : walk parent x (S k) r) by by econstructor.
    exists (x :: l). split_and!; [cbn; lia| |].
    + apply NoDup_cons. split; [|done]. intros Hin. destruct (Hy _ Hin) as (_&k'&Hk&Hw').
      destruct (walk_det _ _ _ _ _ _ Hwx Hw'). lia.
    + intros z [->|Hz]%elem_of_cons; [split; [by eapply lookup_lt_Some|]; by exists (S k)|].
      destruct (Hy _ Hz) as (?&k'&?&?). split; [done|]. exists k'. split; [lia|done].
Qed.

Lemma walk_short parent x k r : walk parent x k r -> (k < length parent)%nat.
Proof.
  intros (l&Hl&Hd&Hy)%walk_nodes.
  assert (Hsub : l ⊆+ seq 0 (length parent)).
  { apply NoDup_submseteq; [done|]. intros z [Hz _]%Hy. apply elem_of_seq. lia. }
  apply submseteq_length in Hsub. rewrite length_seq in Hsub. lia.
Qed.

Lemma find_loop_walk parent x k r n : walk parent x k r -> (k < n)%nat ->
  find_loop n parent x = Ok r.
Proof.
  intros H. revert n. induction H as [x Hx|x y k r Hx Hne Hw IH]; intros n Hn;
    (destruct n as [|n]; [lia|]); cbn [find_loop]; unfold parent_at; rewrite Hx; cbn.
  - by rewrite Nat.eqb_refl.
  - rewrite (proj2 (Nat.eqb_neq _ _)) by done. apply IH. lia.
Qed.

(** The assignment that follows the loop of [find] has no effect. *)
Lemma find_walk parent x k r : walk parent x k r -> find x parent = Ok (r, parent).
Proof.
  intros H. unfold find. pose proof (walk_short _ _ _ _ H).
  rewrite (find_loop_walk parent x k r) by (done || lia). unfold mbind, res_bind, set_parent.
  pose proof (walk_end _ _ _ _ H) as Hr. pose proof (lookup_lt_Some _ _ _ Hr).
  rewrite (proj2 (Nat.ltb_lt _ _)) by done. by rewrite list_insert_id.
Qed.

(** A new edge from the root [a] to the root [b]. *)
Lemma walk_link parent a b x k r : parent !! a = Some a -> parent !! b = Some b -> a <> b ->
  walk parent x k r ->
  walk (<[a := b]> parent) x (if decide (r = a) then S k else k) (if decide (r = a) then b else r).
Proof.
  intros Ha Hb Hne. pose proof (lookup_lt_Some _ _ _ Ha) as Hl.
  induction 1 as [x Hx|x y k r Hx Hyx Hw IH].
  - destruct (decide (x = a)) as [->|Hxa].
    + apply walk_step with b; [by apply list_lookup_insert_eq|done|].
      constructor. by rewrite list_lookup_insert_ne.
    + constructor. by rewrite list_lookup_insert_ne by done.
  - assert (x <> a) by (intros ->; by simplify_eq).
    destruct (decide (r = a)); (apply walk_step with y; [by rewrite list_lookup_insert_ne|done|done]).
Qed.

(** ** Refinement *)

(** The vector represents the partition generated by the pairs: every number has a
    root, joined numbers have the same one, and a root is connected to its numbers. *)
Definition joined (pairs : list (nat * nat)) (x y : nat) : Prop := (x, y) ∈ pairs.

Record represents (count : nat) (pairs : list (nat * nat)) (parent : parents) : Prop := {
  rep_length : length parent = count;
  rep_walk x : (x < count)%nat -> exists k r, walk parent x k r;
  rep_pairs x y : (x, y) ∈ pairs -> exists k k' r, walk parent x k r /\ walk parent y k' r;
  rep_sound x k r : walk parent x k r -> rtsc (joined pairs) x r }.

Lemma represents_new count : represents count [] (new count).
Proof.
  unfold new. split.
  - apply length_seq.
  - intros x Hx. exists 0%nat, x. constructor. by apply lookup_seq.
  - by intros x y ?%elem_of_nil.
  - intros x k r H. destruct H as [x Hx|x y k r Hx Hne _]; [done|].
    apply lookup_seq in Hx as [-> _]. done.
Qed.

Lemma rtsc_mono (pairs pairs' : list (nat * nat)) x y : pairs ⊆ pairs' ->
  rtsc (joined pairs) x y -> rtsc (joined pairs') x y.
Proof.
  intros Hsub. induction 1 as [|x y z [H|H] _ IH]; [done|..].
  - eapply rtc_l; [left; by apply Hsub|done].
  - eapply rtc_l; [right; by apply Hsub|done].
Qed.

Lemma rtsc_sym (R : nat -> nat -> Prop) x y : rtsc R x y -> rtsc R y x.
Proof. intros. by symmetry. Qed.

Lemma represents_link count pairs parent x1 x2 k1 k2 a b : represents count pairs parent ->
  walk parent x1 k1 a -> walk parent x2 k2 b -> a <> b ->
  represents count (pairs ++ [(x1, x2)]) (<[a := b]> parent) /\
  represents count (pairs ++ [(x2, x1)]) (<[a := b]> parent).
Proof.
  intros [Hl Hw Hp Hs] H1 H2 Hne.
  pose proof (walk_end _ _ _ _ H1) as Ha. pose proof (walk_end _ _ _ _ H2) as Hb.
  assert (Hgen : forall u v, (u, v) = (x1, x2) \/ (u, v) = (x2, x1) ->
    represents count (pairs ++ [(u, v)]) (<[a := b]> parent)).
  2:{ split; apply Hgen; auto. }
  intros u v Huv.
  assert (Hx : exists k k' r, walk (<[a := b]> parent) u k r /\ walk (<[a := b]> parent) v k' r).
  { apply (walk_link parent a b) in H1, H2; try done.
    destruct (decide (a = a)); [|done]. destruct (decide (b = a)); [by subst|].
    destruct Huv as [[= -> ->]|[= -> ->]]; eauto 10. }
  assert (Hab : rtsc (joined (pairs ++ [(u, v)])) a b).
  { assert (Hx1 : rtsc (joined (pairs ++ [(u, v)])) x1 x2).
    { destruct Huv as [[= -> ->]|[= -> ->]]; [|apply rtsc_sym]; apply rtc_once; left;
        unfold joined; set_solver. }
    transitivity x1; [apply rtsc_sym|transitivity x2; [done|]];
      (eapply rtsc_mono; [|by eapply Hs]); set_solver. }
  split.
  - by rewrite length_insert.
  - intros x Hlt. destruct (Hw x Hlt) as (k&r&H). eauto using walk_link.
  - intros x y [Hin|Hin]%elem_of_app.
    + destruct (Hp _ _ Hin) as (k&k'&r&Hx'&Hy'). eauto 10 using walk_link.
    + apply list_elem_of_singleton in Hin as [= -> ->]. done.
  - intros x k r H. assert (Hlt : (x < count)%nat) by (apply walk_lt in H; by rewrite length_insert, Hl in H).
    destruct (Hw x Hlt) as (k0&r0&H0). pose proof (walk_link parent a b x k0 r0 Ha Hb Hne H0) as H0'.
    destruct (walk_det _ _ _ _ _ _ H H0') as [_ ->].
    assert (rtsc (joined (pairs ++ [(u, v)])) x r0) by (eapply rtsc_mono; [|by eapply Hs]; set_solver).
    destruct (decide (r0 = a)) as [->|]; [by transitivity a|done].
Qed.

Lemma represents_known count pairs parent x y k k' r : represents count pairs parent ->
  walk parent x k r -> walk parent y k' r -> represents count (pairs ++ [(x, y)]) parent.
Proof.
  intros [Hl Hw Hp Hs] Hx Hy. split; [done|done|..].
  - intros u v [Hin|Hin]%elem_of_app; [by apply Hp|].
    apply list_elem_of_singleton in Hin as [= -> ->]. eauto 10.
  - intros u n s H. eapply rtsc_mono; [|by eapply Hs]. set_solver.
Qed.

Section refinement.
Context (count : nat) (rule : EdgeRule) (laws : EdgeLaws count rule).

Lemma join_represents pairs parent x1 x2 : represents count pairs parent ->
  (x1 < count)%nat -> (x2 < count)%nat ->
  exists parent', join x1 x2 parent = Ok parent' /\ represents count (pairs ++ [(x1, x2)]) parent'.
Proof.
  intros Hr H1 H2. destruct (rep_walk _ _ _ Hr x1 H1) as (k1&a&W1).
  destruct (rep_walk _ _ _ Hr x2 H2) as (k2&b&W2). pose proof (rep_length _ _ _ Hr) as Hl.
  unfold join, mbind, res_bind. rewrite (find_walk _ _ _ _ W1). cbv beta iota.
  rewrite (find_walk _ _ _ _ W2). cbv beta iota.
  destruct (decide (a = b)) as [<-|Hne].
  - exists parent. rewrite edge_same by (done || by eapply walk_end).
    split; [done|]. by eapply represents_known.
  - assert (a < count)%nat by (rewrite <- Hl; eapply lookup_lt_Some, walk_end, W1).
    assert (b < count)%nat by (rewrite <- Hl; eapply lookup_lt_Some, walk_end, W2).
    destruct (edge_link parent a b) as [-> | ->]; try done; eexists; (split; [done|]).
    + by apply (represents_link _ _ _ x1 x2 k1 k2 a b).
    + apply (represents_link _ _ _ x2 x1 k2 k1 b a); by auto.
Qed.

Lemma join_all_represents pairs done_ parent : represents count done_ parent ->
  Forall (fun q => (q.1 < count)%nat /\ (q.2 < count)%nat) pairs ->
  exists parent', join_all pairs parent = Ok parent' /\ represents count (done_ ++ pairs) parent'.
Proof.
  intros Hr Hin. revert done_ parent Hr.
  induction Hin as [|[x1 x2] pairs [H1 H2] _ IH]; intros done_ parent Hr; cbn [join_all].
  - exists parent. by rewrite app_nil_r.
  - destruct (join_represents _ _ x1 x2 Hr H1 H2) as (parent'&->&Hr'). cbn.
    destruct (IH _ _ Hr') as (p&E&Hp). exists p. by rewrite <- app_assoc in Hp.
Qed.

Lemma join_all_app pairs pairs' parent :
  join_all (pairs ++ pairs') parent = (parent ← join_all pairs parent; join_all pairs' parent).
Proof.
  revert parent. induction pairs as [|[x1 x2] pairs IH]; intros parent; [done|].
  cbn [join_all app]. unfold mbind, res_bind. destruct (join x1 x2 parent); [apply IH|done].
Qed.

Lemma find_same pairs parent x y : represents count pairs parent ->
  (x < count)%nat -> (y < count)%nat ->
  exists rx ry, find x parent = Ok (rx, parent) /\ find y parent = Ok (ry, parent) /\
    (rx = ry <-> rtsc (joined pairs) x y).
Proof.
  intros Hr Hx Hy. destruct (rep_walk _ _ _ Hr x Hx) as (k&rx&Wx).
  destruct (rep_walk _ _ _ Hr y Hy) as (k'&ry&Wy). exists rx, ry.
  split_and!; [by eapply find_walk|by eapply find_walk|]. split.
  - intros <-. transitivity rx; [by eapply rep_sound|apply rtsc_sym; by eapply rep_sound].
  - intros H. revert k rx Wx. clear Hx. induction H as [y|x z y Hxz _ IH]; intros k rx Wx.
    + by destruct (walk_det _ _ _ _ _ _ Wx Wy).
    + destruct Hxz as [Hxz|Hxz]; destruct (rep_pairs _ _ _ Hr _ _ Hxz) as (n&n'&r&Wu&Wv).
      * destruct (walk_det _ _ _ _ _ _ Wx Wu) as [_ ->]. by eapply (IH Hy Wy).
      * destruct (walk_det _ _ _ _ _ _ Wx Wv) as [_ ->]. by eapply (IH Hy Wy).
Qed.
End refinement.

(** Union-find computes the partition generated by the joined pairs.  For any
    [setEdge] that keeps the interface, any sequence of [join]s of numbers below the count ends without
    fault, and then [find] terminates, returns the same number for two numbers exactly
    when they are connected by joined pairs, and leaves the vector as it is. *)
Theorem unionfind_partition count (rule : EdgeRule) (laws : EdgeLaws count rule) pairs :
  Forall (fun q => (q.1 < count)%nat /\ (q.2 < count)%nat) pairs ->
  exists parent, join_all pairs (new count) = Ok parent /\
    forall x y, (x < count)%nat -> (y < count)%nat ->
      exists rx ry, find x parent = Ok (rx, parent) /\ find y parent = Ok (ry, parent) /\
        (rx = ry <-> rtsc (joined pairs) x y).
Proof.
  intros Hin. destruct (join_all_represents count rule laws pairs [] (new count)) as (parent&E&Hr);
    [apply represents_new|done|].
  exists parent. split; [done|]. intros x y Hx Hy. by apply (find_same count pairs).
Qed.

Module UnionFindExamples.
Lemma unionfind_partition_witness :
  exists parent, join_all [(0, 3); (3, 4); (1, 2)]%nat (new 5) = Ok parent /\
    find 4%nat parent = Ok (0%nat, parent) /\ rtsc (joined [(0, 3); (3, 4); (1, 2)]%nat) 4%nat 0%nat.
Proof.
  destruct (unionfind_partition 5 default_rule (default_laws 5) [(0, 3); (3, 4); (1, 2)]%nat)
    as (parent&E&H).
  - repeat (apply Forall_cons; split; [cbn; lia|]). by apply Forall_nil.
  - exists parent. split; [done|]. vm_compute in E. injection E as <-. split; [reflexivity|].
    destruct (H 4%nat 0%nat) as (rx&ry&Hx&Hy&Hxy); [lia|lia|]. apply Hxy.
    vm_compute in Hx, Hy. congruence.
Defined.

(** The assignment commented as path compression does not shorten anything: after a
    [find] of the last element of a chain of links, the chain is as long as before. *)
Example find_does_not_compress :
  find 3%nat [0; 0; 1; 2]%nat = Ok (0%nat, [0; 0; 1; 2]%nat).
Proof. reflexivity. Qed.
End UnionFindExamples.
