(* ===== verification/Symbols.v ===== *)
(** * Symbols of an ELF file: src/elf/symbol.h and symbol.cpp

    A symbol table is read into a list of symbols with maps by index, name and
    address.  Symbols at the same place become aliases of one of them, chosen with a
    union-find whose edges prefer one symbol to another.  Symbols are objects shared
    by all these structures: a pointer is a position in the heap of symbols.  What is
    read from the ELF file (entries of the table, sections) is an argument. *)

From Stdlib Require Import Ascii.
From S2P Require Import Prelude ChunkList UnionFind.
Import UnionFind.

(** ** Symbols *)

Inductive SymbolType :=
| TYPE_FUNC | TYPE_IFUNC | TYPE_OBJECT | TYPE_SECTION | TYPE_FILE | TYPE_TLS
| TYPE_NOTYPE | TYPE_UNKNOWN.
Inductive BindingType := BIND_LOCAL | BIND_GLOBAL | BIND_WEAK.
#[export] Instance SymbolType_eq_dec : EqDecision SymbolType.
Proof. solve_decision. Defined.
#[export] Instance BindingType_eq_dec : EqDecision BindingType.
Proof. solve_decision. Defined.

Record SymbolVersion := mkVersion { version_name : string; hidden : bool }.

Abbreviation pointer := nat.

Record Symbol := mkSymbol {
  address : Z;
  ssize : Z;
  name : string;
  version : option SymbolVersion;
  aliasFor : option pointer;
  aliasList : list pointer;
  symbolType : SymbolType;
  bindingType : BindingType;
  sindex : Z;
  shndx : Z }.

(** The objects, and operations on them. *)
Abbreviation heap := (list Symbol).
Definition symM (A : Type) : Type := heap -> res (A * heap).
#[export] Instance symM_ret : MRet symM := fun A a h => Ok (a, h).
#[export] Instance symM_bind : MBind symM := fun A B f r h =>
  match r h with Ok (a, h) => f a h | Err e => Err e end.

Definition deref (h : heap) (p : pointer) : res Symbol :=
  match h !! p with Some s => Ok s | None => Err OutOfBounds end.
(** An operation that only reads the objects. *)
Definition reading {A} (f : heap -> res A) : symM A := fun h => a ← f h; Ok (a, h).
Definition symbol_at (p : pointer) : symM Symbol := reading (fun h => deref h p).
Definition update (p : pointer) (f : Symbol -> Symbol) : symM unit := fun h =>
  s ← deref h p; Ok (tt, <[p := f s]> h).
Definition allocate (s : Symbol) : symM pointer := fun h => Ok (length h, h ++ [s]).

Module Symbol.
Definition new (address size : Z) (name : string) (type : SymbolType) (bind : BindingType)
    (index shndx : Z) : Symbol :=
  mkSymbol address size name None None [] type bind index shndx.
Definition setName n s := mkSymbol (address s) (ssize s) n (version s) (aliasFor s) (aliasList s)
  (symbolType s) (bindingType s) (sindex s) (shndx s).
Definition setSize n s := mkSymbol (address s) n (name s) (version s) (aliasFor s) (aliasList s)
  (symbolType s) (bindingType s) (sindex s) (shndx s).
Definition setVersion v s := mkSymbol (address s) (ssize s) (name s) (Some v) (aliasFor s) (aliasList s)
  (symbolType s) (bindingType s) (sindex s) (shndx s).
Definition setAliasFor (p : pointer) s := mkSymbol (address s) (ssize s) (name s) (version s) (Some p)
  (aliasList s) (symbolType s) (bindingType s) (sindex s) (shndx s).
Definition setType t s := mkSymbol (address s) (ssize s) (name s) (version s) (aliasFor s) (aliasList s)
  t (bindingType s) (sindex s) (shndx s).
Definition addAlias (p : pointer) s := mkSymbol (address s) (ssize s) (name s) (version s) (aliasFor s)
  (aliasList s ++ [p]) (symbolType s) (bindingType s) (sindex s) (shndx s).

Definition isFunction (s : Symbol) : bool :=
  match symbolType s with
  | TYPE_FUNC | TYPE_IFUNC =>
    (0 <? ssize s) && (0 <? shndx s) && match aliasFor s with None => true | Some _ => false end
  | _ => false
  end.
Definition isMarker (s : Symbol) : bool :=
  bool_decide (symbolType s = TYPE_NOTYPE) && bool_decide (bindingType s = BIND_GLOBAL) &&
  (0 <? shndx s).

(** Constants of the ELF format: STT_NOTYPE 0, STT_OBJECT 1, STT_FUNC 2, STT_SECTION 3,
    STT_FILE 4, STT_TLS 6, STT_GNU_IFUNC 10; STB_LOCAL 0, STB_GLOBAL 1, STB_WEAK 2. *)
Definition typeFromInternalToElf (t : SymbolType) : Z :=
  match t with
  | TYPE_FUNC => 2 | TYPE_IFUNC => 10 | TYPE_OBJECT => 1 | TYPE_SECTION => 3
  | TYPE_FILE => 4 | TYPE_TLS => 6 | _ => 0
  end.
(** [ELFXX_ST_TYPE] is the low half of the byte, [ELFXX_ST_BIND] the high half. *)
Definition typeFromElfToInternal (info : Z) : SymbolType :=
  switch (Z.land info 0xf)
    [(2, TYPE_FUNC); (10, TYPE_IFUNC); (1, TYPE_OBJECT); (3, TYPE_SECTION); (4, TYPE_FILE);
     (6, TYPE_TLS); (0, TYPE_NOTYPE)] TYPE_UNKNOWN.
Definition bindFromInternalToElf (b : BindingType) : Z :=
  match b with BIND_LOCAL => 0 | BIND_GLOBAL => 1 | BIND_WEAK => 2 end.
Definition bindFromElfToInternal (info : Z) : BindingType :=
  switch (Z.shiftr info 4) [(0, BIND_LOCAL); (1, BIND_GLOBAL)] BIND_WEAK.
End Symbol.

(** ** C strings *)

Definition first_char (s : string) : option Ascii.ascii :=
  match s with String c _ => Some c | EmptyString => None end.
Definition dollar (s : string) : bool := bool_decide (first_char s = Some "$"%char).
(** [strstr(hay, needle) != nullptr] *)
Fixpoint strstr (hay needle : string) : bool :=
  String.prefix needle hay || match hay with String _ hay => strstr hay needle | EmptyString => false end.

(** ** Symbol lists *)

Record SymbolList := mkList {
  symbolList : list pointer;
  indexMap : list (option pointer);
  symbolMap : gmap string pointer;
  spaceMap : list (Z * pointer);
  sortedMappingList : list pointer }.

(** [std::sort] by address: the order of symbols at the same address is not
    specified. *)
Definition by_address (h : heap) (p q : pointer) : Prop :=
  exists s t, h !! p = Some s /\ h !! q = Some t /\ address s <= address t.
Class StdSort := std_sort : heap -> list pointer -> list pointer.
Class SortLaws (sort : StdSort) : Prop := {
  sort_perm h l : std_sort h l ≡ₚ l;
  sort_sorted h l : Forall (fun p => is_Some (h !! p)) l -> StronglySorted (by_address h) (std_sort h l) }.

Module SymbolList.
Definition new : SymbolList := mkList [] [] ∅ [] [].

(** [indexMap.resize] if needed, then the assignment. *)
Definition set_index (index : Z) (p : pointer) (m : list (option pointer)) : list (option pointer) :=
  let n := Z.to_nat index in
  <[n := Some p]> (if (length m <=? n)%nat then m ++ replicate (S n - length m) None else m).

Definition add (p : pointer) (index : Z) (l : SymbolList) : symM (bool * SymbolList) :=
  s ← symbol_at p;
  let names := match symbolMap l !! name s with
               | None => <[name s := p]> (symbolMap l)
               | Some _ => symbolMap l
               end in
  let space := if negb (bool_decide (symbolType s = TYPE_SECTION)) && negb (dollar (name s))
               then OrderedMap.insert (address s) p (spaceMap l) else spaceMap l in
  mret (true, mkList (symbolList l ++ [p]) (set_index index p (indexMap l)) names space
                (sortedMappingList l)).

Definition addAlias (p : pointer) (otherIndex : Z) (l : SymbolList) : SymbolList :=
  mkList (symbolList l) (set_index otherIndex p (indexMap l)) (symbolMap l) (spaceMap l)
    (sortedMappingList l).
Definition get (index : Z) (l : SymbolList) : option pointer :=
  if Z.of_nat (length (indexMap l)) <=? index then None
  else match indexMap l !! Z.to_nat index with Some p => p | None => None end.

(** One step of the alias chain. *)
Definition canonical (p : pointer) : symM pointer :=
  s ← symbol_at p; mret match aliasFor s with Some q => q | None => p end.
Definition find_name (n : string) (l : SymbolList) : symM (option pointer) :=
  match symbolMap l !! n with
  | Some p => q ← canonical p; mret (Some q)
  | None => mret None
  end.
Definition find_address (a : Z) (l : SymbolList) : symM (option pointer) :=
  match OrderedMap.find a (spaceMap l) with
  | Some p => q ← canonical p; mret (Some q)
  | None => mret None
  end.
Definition getCount (l : SymbolList) : nat := length (symbolList l).

Fixpoint estimate_loop (s : Symbol) (it : list (Z * pointer)) : symM Z :=
  match it with
  | [] => mret 0
  | (_, p) :: it =>
    other ← symbol_at p;
    if bool_decide (name other = "$d") then estimate_loop s it
    else mret (if shndx other =? shndx s then sub64 (address other) (address s) else 0)
  end.
Definition estimateSizeOf (p : pointer) (l : SymbolList) : symM Z :=
  s ← symbol_at p; estimate_loop s (OrderedMap.upper_bound (address s) (spaceMap l)).2.

Definition findSizeZero (l : SymbolList) (n : string) : symM (option pointer) :=
  o ← find_name n l;
  match o with
  | Some p => s ← symbol_at p; mret (if ssize s =? 0 then Some p else None)
  | None => mret None
  end.
End SymbolList.

(** ** Mapping symbols (AArch64 and ARM) *)

Module SymbolListWithMapping.
Fixpoint mapping_symbols (h : heap) (l : list pointer) : res (list pointer) :=
  match l with
  | [] => Ok []
  | p :: l => s ← deref h p; l' ← mapping_symbols h l; Ok (if dollar (name s) then p :: l' else l')
  end.
Definition buildMappingList `{StdSort} (l : SymbolList) (h : heap) : res SymbolList :=
  mapping ← mapping_symbols h (symbolList l);
  Ok (mkList (symbolList l) (indexMap l) (symbolMap l) (spaceMap l) (std_sort h mapping)).

(** The prefix of the sorted list for which the test of [std::lower_bound] or
    [std::upper_bound] holds, and the rest. *)
Fixpoint split_while (h : heap) (f : Symbol -> bool) (l : list pointer)
  : res (list pointer * list pointer) :=
  match l with
  | [] => Ok ([], [])
  | p :: l' =>
    s ← deref h p;
    if f s then '(b, a) ← split_while h f l'; Ok (p :: b, a) else Ok ([], l)
  end.

(** The first pointer with the section index; the loops compare the section only. *)
Fixpoint first_in_section (h : heap) (section : Z) (l : list pointer) : res (option pointer) :=
  match l with
  | [] => Ok None
  | p :: l => s ← deref h p;
              if shndx s =? section then Ok (Some p) else first_in_section h section l
  end.

Definition findMappingBelowOrAt (p : pointer) (l : SymbolList) (h : heap) : res (option pointer) :=
  s ← deref h p;
  '(before, after) ← split_while h (fun t => address t <? address s) (sortedMappingList l);
  exact ← match after with
          | [] => Ok None
          | q :: _ => t ← deref h q;
            Ok (if (address t =? address s) && (shndx t =? shndx s) then Some q else None)
          end;
  match exact with
  | Some q => Ok (Some q)
  | None =>
    (* [while(--it != begin())]: backwards, without the first element *)
    first_in_section h (shndx s) (reverse (tail before))
  end.

Definition findMappingAbove (p : pointer) (l : SymbolList) (h : heap) : res (option pointer) :=
  s ← deref h p;
  '(_, after) ← split_while h (fun t => address t <=? address s) (sortedMappingList l);
  first_in_section h (shndx s) after.
End SymbolListWithMapping.

(** ** Aliases *)

Module SymbolAliasFinder.

(** The cases of [edgeComparator], in order: the first test that holds decides. *)
Fixpoint first_rule (rules : list (bool * Z)) (default : Z) : Z :=
  match rules with
  | [] => default
  | (b, c) :: rules => if b then c else first_rule rules default
  end.
Definition is_type (s : Symbol) (t : SymbolType) : bool := bool_decide (symbolType s = t).
Definition is_bind (s : Symbol) (b : BindingType) : bool := bool_decide (bindingType s = b).

Definition edgeComparator (s1 s2 : Symbol) : Z :=
  let types := negb (bool_decide (symbolType s1 = symbolType s2)) in
  let binds := negb (bool_decide (bindingType s1 = bindingType s2)) in
  let sizes := negb (ssize s1 =? ssize s2) in
  first_rule
    [(types && is_type s1 TYPE_SECTION, -1);
     (types && is_type s2 TYPE_SECTION, 1);
     (types && is_type s1 TYPE_FILE, -1);
     (types && is_type s2 TYPE_FILE, 1);
     (is_bind s1 BIND_LOCAL && dollar (name s1), -1);
     (is_bind s2 BIND_LOCAL && dollar (name s2), 1);
     (strstr (name s1) (name s2), -1);
     (strstr (name s2) (name s1), 1);
     (strstr (name s1) "@@", 1);
     (strstr (name s2) "@@", -1);
     (strstr (name s1) "@", -1);
     (strstr (name s2) "@", 1);
     (binds && is_bind s1 BIND_LOCAL, -1);
     (binds && is_bind s2 BIND_LOCAL, 1);
     (binds && is_bind s1 BIND_GLOBAL, 1);
     (binds && is_bind s2 BIND_GLOBAL, -1);
     (binds && is_bind s1 BIND_WEAK, 1);
     (binds && is_bind s2 BIND_WEAK, -1);
     (sizes && (ssize s1 =? 0), -1);
     (sizes && (ssize s2 =? 0), 1)] (-1).

Definition sorted_at (sortedList : list pointer) (h : heap) (i : nat) : res Symbol :=
  match sortedList !! i with Some p => deref h p | None => Err OutOfBounds end.

(** The override of [UnionFind::setEdge]. *)
Definition alias_edge (sortedList : list pointer) (h : heap) (parent : parents) (x1 x2 : nat)
  : res parents :=
  s1 ← sorted_at sortedList h x1;
  s2 ← sorted_at sortedList h x2;
  let comparator := edgeComparator s1 s2 in
  if comparator <? 0 then set_parent parent x1 x2
  else if 0 <? comparator then set_parent parent x2 x1
  else Ok parent.

Definition is_file (s : Symbol) : bool := bool_decide (symbolType s = TYPE_FILE).

Section construct.
Context (sortedList : list pointer) (h : heap).
Instance alias_rule : EdgeRule := alias_edge sortedList h.

(** The inner loop, over the pointers from position [j] on. *)
Fixpoint inner_loop (i : nat) (sym : Symbol) (j : nat) (rest : list pointer) (parent : parents)
  : res parents :=
  match rest with
  | [] => Ok parent
  | q :: rest =>
    sym2 ← deref h q;
    if negb (address sym =? address sym2) then Ok parent
    else if is_file sym2 then inner_loop i sym (S j) rest parent
    else if shndx sym =? shndx sym2 then
      parent ← join i j parent; inner_loop i sym (S j) rest parent
    else inner_loop i sym (S j) rest parent
  end.

Fixpoint outer_loop (i : nat) (rest : list pointer) (parent : parents) : res parents :=
  match rest with
  | [] => Ok parent
  | p :: rest =>
    sym ← deref h p;
    parent ← (if is_file sym then Ok parent else inner_loop i sym (S i) rest parent);
    outer_loop (S i) rest parent
  end.

Definition constructByAddress (parent : parents) : res parents := outer_loop 0 sortedList parent.
End construct.

(** [getRepresentativeIndex] and the loop of [buildSymbolList] that records the
    aliases. *)
Fixpoint alias_loop (sortedList : list pointer) (is_ : list nat) (parent : parents) : symM parents :=
  match is_ with
  | [] => mret parent
  | i :: is_ =>
    '(rep, parent) ← reading (fun _ => find i parent);
    _ ← (if (rep =? i)%nat then mret tt
         else match sortedList !! i, sortedList !! rep with
              | Some sym, Some repSym =>
                _ ← update sym (Symbol.setAliasFor repSym); update repSym (Symbol.addAlias sym)
              | _, _ => reading (fun _ => Err OutOfBounds)
              end);
    alias_loop sortedList is_ parent
  end.

Definition find_aliases `{StdSort} (l : SymbolList) : symM unit := fun h =>
  let sortedList := std_sort h (symbolList l) in
  parent ← constructByAddress sortedList h (new (SymbolList.getCount l));
  '(_, h) ← alias_loop sortedList (seq 0 (SymbolList.getCount l)) parent h;
  Ok (tt, h).
End SymbolAliasFinder.

(** ** Reading the tables of an ELF file *)

(** An entry of a symbol table; [st_name] is the string at its offset in the string
    table. *)
Record ElfSym := mkElfSym {
  st_name : string;
  st_info : Z;
  st_shndx : Z;
  st_value : Z;
  st_size : Z }.

(** What the lists are built from: the symbol tables if the file has them, whether it
    is an object file, the virtual address and the flags of a section, the sizes of
    .init and .fini, and the version table. *)
Record ElfView := mkElf {
  e_symtab : option (list ElfSym);
  e_dynsym : option (list ElfSym);
  e_object : bool;
  e_section : Z -> option (Z * Z);
  e_init : option Z;
  e_fini : option Z;
  e_versions : list Z;
  e_version_names : gmap Z string }.

(** ARCH_X86_64, ARCH_AARCH64 or ARCH_ARM, ARCH_RISCV *)
Inductive Target := X86_64 | ARM | RISCV.

Module SymbolVersionList.
(** [verList.at] throws outside of the list; the subscript operator faults. *)
Definition isHidden (versions : list Z) (symbolIndex : Z) : res bool :=
  match versions with
  | [] => Ok false
  | _ => v ← load versions symbolIndex; Ok (negb (Z.land v 0x8000 =? 0))
  end.
Definition getVersionIndex (versions : list Z) (symbolIndex : Z) : res Z :=
  match versions !! Z.to_nat symbolIndex with
  | Some v => Ok (Z.ldiff v 0x8000)
  | None => Err (Throw "out_of_range")
  end.
Definition getVersionName (versions : list Z) (names : gmap Z string) (symbolIndex : Z)
  : res string :=
  match versions with
  | [] => Ok ""%string
  | _ => i ← getVersionIndex versions symbolIndex; Ok (default ""%string (names !! i))
  end.
End SymbolVersionList.

Section build.
Context `{StdSort} (target : Target) (elf : ElfView).

(** The loop over the entries: [j] is the number of the entry. *)
Fixpoint read_symbols (j : Z) (entries : list ElfSym) (l : SymbolList) : symM SymbolList :=
  match entries with
  | [] => mret l
  | e :: entries =>
    let a := if e_object elf then
               match e_section elf (st_shndx e) with
               | Some (v, _) => add64 (st_value e) v
               | None => st_value e
               end
             else st_value e in
    p ← allocate (Symbol.new a (st_size e) (st_name e) (Symbol.typeFromElfToInternal (st_info e))
                    (Symbol.bindFromElfToInternal (st_info e)) j (st_shndx e));
    '(_, l) ← SymbolList.add p j l;
    read_symbols (j + 1) entries l
  end.

Definition buildAnySymbolList (entries : option (list ElfSym)) : symM SymbolList :=
  match entries with
  | None => mret SymbolList.new
  | Some entries =>
    l ← read_symbols 0 entries SymbolList.new;
    match target with
    | ARM => reading (SymbolListWithMapping.buildMappingList l)
    | _ => mret l
    end
  end.

(** [for(auto sym : *list)] *)
Fixpoint for_symbols (f : pointer -> symM unit) (l : list pointer) : symM unit :=
  match l with
  | [] => mret tt
  | p :: l => _ ← f p; for_symbols f l
  end.
(** [if(auto s = list->find(name))] *)
Definition if_found (l : SymbolList) (n : string) (f : pointer -> symM unit) : symM unit :=
  o ← SymbolList.find_name n l;
  match o with Some p => f p | None => mret tt end.

(** SHF_EXECINSTR is 4. *)
Definition fixFunctionTypes (l : SymbolList) : symM unit :=
  match target with
  | X86_64 =>
    for_symbols (fun p =>
      s ← symbol_at p;
      if bool_decide (symbolType s = TYPE_NOTYPE) then
        match e_section elf (shndx s) with
        | Some (_, flags) =>
          if Z.land flags 4 =? 0 then mret tt else update p (Symbol.setType TYPE_FUNC)
        | None => mret tt
        end
      else mret tt) (symbolList l)
  | _ => mret tt
  end.

Definition set_size_of (l : SymbolList) (n : string) (size : option Z) : symM unit :=
  if_found l n (fun p => match size with Some z => update p (Symbol.setSize z) | None => mret tt end).

(** The corrections by name. *)
Definition fix_known_symbols (l : SymbolList) : symM unit :=
  o ← SymbolList.findSizeZero l "_start";
  _ ← match o with Some p => update p (Symbol.setType TYPE_FUNC) | None => mret tt end;
  _ ← match target with RISCV => set_size_of l "_start" (Some 54) | _ => mret tt end;
  _ ← set_size_of l "_init" (e_init elf);
  _ ← set_size_of l "_fini" (e_fini elf);
  let marker n := if_found l n (fun p => _ ← update p (Symbol.setType TYPE_OBJECT);
                                          update p (Symbol.setSize 8)) in
  _ ← marker "__init_array_begin"%string;
  _ ← marker "__init_array_end"%string;
  _ ← if_found l "_dl_starting_up" (fun p => update p (Symbol.setType TYPE_OBJECT));
  set_size_of l "buildsig" (Some 0x24).

(** Later symbols with the name of an earlier one. *)
Fixpoint same_name_loop (seen : gmap string pointer) (l : list pointer) : symM unit :=
  match l with
  | [] => mret tt
  | p :: l =>
    s ← symbol_at p;
    if bool_decide (name s = "") || bool_decide (bindingType s = BIND_LOCAL) ||
       bool_decide (symbolType s = TYPE_SECTION) || bool_decide (symbolType s = TYPE_FILE)
    then same_name_loop seen l
    else match seen !! name s with
         | Some prev =>
           _ ← match aliasFor s with
               | None => update p (Symbol.setAliasFor prev)
               | Some _ => mret tt
               end;
           _ ← update prev (Symbol.addAlias p);
           same_name_loop seen l
         | None => same_name_loop (<[name s := p]> seen) l
         end
  end.

Definition estimate_sizes (l : SymbolList) : symM unit :=
  for_symbols (fun p =>
    s ← symbol_at p;
    if (ssize s =? 0) && (0 <? address s) then
      n ← SymbolList.estimateSizeOf p l; update p (Symbol.setSize n)
    else mret tt) (symbolList l).

(** [buildSymbolList(elfMap)]: a null list if there is no symbol table. *)
Definition buildSymbolList : symM (option SymbolList) :=
  match e_symtab elf with
  | None => mret None
  | Some entries =>
    l ← buildAnySymbolList (Some entries);
    _ ← fixFunctionTypes l;
    _ ← fix_known_symbols l;
    _ ← SymbolAliasFinder.find_aliases l;
    _ ← same_name_loop ∅ (symbolList l);
    _ ← estimate_sizes l;
    mret (Some l)
  end.

Definition set_versions (l : SymbolList) : symM unit :=
  for_symbols (fun p =>
    s ← symbol_at p;
    n ← reading (fun _ =>
          SymbolVersionList.getVersionName (e_versions elf) (e_version_names elf) (sindex s));
    b ← reading (fun _ => SymbolVersionList.isHidden (e_versions elf) (sindex s));
    update p (Symbol.setVersion (mkVersion n b))) (symbolList l).

Definition buildDynamicSymbolList : symM SymbolList :=
  l ← buildAnySymbolList (e_dynsym elf);
  _ ← set_size_of l "_init" (e_init elf);
  _ ← set_size_of l "_fini" (e_fini elf);
  _ ← set_versions l;
  _ ← SymbolAliasFinder.find_aliases l;
  mret l.
End build.

(** ** Which symbols are aliases *)

(** Two symbols other than files at the same address of the same section. *)
Definition same_place (s t : Symbol) : Prop :=
  symbolType s <> TYPE_FILE /\ symbolType t <> TYPE_FILE /\ address s = address t /\
  shndx s = shndx t.

Lemma same_place_sym s t : same_place s t -> same_place t s.
Proof. unfold same_place. naive_solver. Qed.
Lemma same_place_trans s t u : same_place s t -> same_place t u -> same_place s u.
Proof. unfold same_place. intros (?&?&?&?) (?&?&?&?). split_and!; congruence. Qed.

(** The pairs the loops of [constructByAddress] join. *)
Fixpoint inner_pairs (i : nat) (s : Symbol) (j : nat) (l : list Symbol) : list (nat * nat) :=
  match l with
  | [] => []
  | t :: l =>
    if negb (address s =? address t) then []
    else if SymbolAliasFinder.is_file t then inner_pairs i s (S j) l
    else if shndx s =? shndx t then (i, j) :: inner_pairs i s (S j) l
    else inner_pairs i s (S j) l
  end.
Fixpoint outer_pairs (i : nat) (l : list Symbol) : list (nat * nat) :=
  match l with
  | [] => []
  | s :: l => (if SymbolAliasFinder.is_file s then [] else inner_pairs i s (S i) l) ++
              outer_pairs (S i) l
  end.

Definition points_to (h : heap) (p : pointer) (s : Symbol) : Prop := h !! p = Some s.
Definition ascending (l : list Symbol) : Prop := StronglySorted (fun s t => address s <= address t) l.

Lemma inner_pairs_elem i s j l x y : symbolType s <> TYPE_FILE ->
  Forall (fun t => address s <= address t) l -> ascending l ->
  (x, y) ∈ inner_pairs i s j l <->
  x = i /\ exists b t, y = (j + b)%nat /\ l !! b = Some t /\ same_place s t.
Proof.
  intros Hs. revert j. induction l as [|t l IH]; intros j Hle Hasc; cbn [inner_pairs].
  { rewrite elem_of_nil. split; [done|]. intros (_&b&t&_&Hb&_). by rewrite lookup_nil in Hb. }
  apply Forall_cons in Hle as [Ht Hle]. apply StronglySorted_inv in Hasc as [Hasc Hall].
  specialize (IH (S j) Hle Hasc).
  assert (Hshift : (x = i /\ exists b u, y = (j + b)%nat /\ (t :: l) !! b = Some u /\ same_place s u) <->
    ((x, y) = (i, j) /\ same_place s t) \/
    (x = i /\ exists b u, y = (S j + b)%nat /\ l !! b = Some u /\ same_place s u)).
  { split.
    - intros (->&[|b]&u&->&Hb&Hu); cbn in Hb.
      + left. injection Hb as ->. by rewrite Nat.add_0_r.
      + right. split; [done|]. exists b, u. split; [lia|done].
    - intros [[[= -> ->] Hp]|(->&b&u&->&Hb&Hu)].
      + split; [done|]. exists 0%nat, t. split; [lia|done].
      + split; [done|]. exists (S b), u. split; [lia|done]. }
  rewrite Hshift. unfold SymbolAliasFinder.is_file. destruct (Z.eqb_spec (address s) (address t)) as [Ea|Ea]; cbn [negb].
  - case_bool_decide as Hf; [rewrite IH; unfold same_place; naive_solver|].
    destruct (Z.eqb_spec (shndx s) (shndx t)) as [Es|Es].
    + rewrite elem_of_cons, IH. unfold same_place. naive_solver.
    + rewrite IH. unfold same_place. naive_solver.
  - rewrite elem_of_nil. split; [done|]. intros [[_ Hp]|(->&b&u&_&Hb&Hu)].
    + by destruct Hp as (_&_&?&_).
    + apply list_elem_of_lookup_2 in Hb. rewrite Forall_forall in Hall. specialize (Hall _ Hb).
      destruct Hu as (_&_&?&_). cbn in Hall. lia.
Qed.

Lemma outer_pairs_elem i l x y : ascending l ->
  (x, y) ∈ outer_pairs i l <->
  exists a b s t, x = (i + a)%nat /\ y = (i + b)%nat /\ (a < b)%nat /\
    l !! a = Some s /\ l !! b = Some t /\ same_place s t.
Proof.
  revert i. induction l as [|s l IH]; intros i Hasc; cbn [outer_pairs].
  { rewrite elem_of_nil. split; [done|]. intros (a&b&s&t&_&_&_&Ha&_). by rewrite lookup_nil in Ha. }
  apply StronglySorted_inv in Hasc as [Hasc Hall]. rewrite elem_of_app, (IH (S i) Hasc).
  assert (Hin : (x, y) ∈ (if SymbolAliasFinder.is_file s then [] else inner_pairs i s (S i) l) <->
    x = i /\ exists b t, y = (S i + b)%nat /\ l !! b = Some t /\ same_place s t).
  { unfold SymbolAliasFinder.is_file. case_bool_decide as Hf.
    - rewrite elem_of_nil. unfold same_place. naive_solver.
    - by apply inner_pairs_elem. }
  rewrite Hin. split.
  - intros [(->&b&t&->&Hb&Hp)|(a&b&u&t&->&->&Hab&Ha&Hb&Hp)].
    + exists 0%nat, (S b), s, t. split_and!; (done || lia).
    + exists (S a), (S b), u, t. split_and!; (done || lia).
  - intros ([|a]&[|b]&u&t&->&->&Hab&Ha&Hb&Hp); try lia; cbn in Ha, Hb.
    + left. injection Ha as <-. split; [lia|]. exists b, t. split; [lia|done].
    + right. exists a, b, u, t. split_and!; (done || lia).
Qed.

(** The partition generated by the pairs: symbols of the same place. *)
Lemma pairs_partition l x y : ascending l -> (x < length l)%nat ->
  rtsc (joined (outer_pairs 0 l)) x y <->
  x = y \/ exists s t, l !! x = Some s /\ l !! y = Some t /\ same_place s t.
Proof.
  intros Hasc Hx. split.
  - induction 1 as [|x z y Hxz _ IH]; [by left|].
    assert (Hstep : exists s t, l !! x = Some s /\ l !! z = Some t /\ same_place s t).
    { destruct Hxz as [Hj|Hj]; apply outer_pairs_elem in Hj as (a&b&s&t&Ea&Eb&_&Ha&Hb&Hp); try done;
        cbn in Ea, Eb; rewrite Ea, Eb; [by exists s, t|exists t, s; eauto using same_place_sym]. }
    destruct Hstep as (s&t&Hs&Ht&Hst). right. destruct IH as [->|(t'&u&Ht'&Hu&Htu)].
    + by eapply lookup_lt_Some.
    + by exists s, t.
    + simplify_eq. exists s, u. eauto using same_place_trans.
  - intros [->|(s&t&Hs&Ht&Hst)]; [done|].
    assert (Hgen : forall a b u v, (a < b)%nat -> l !! a = Some u -> l !! b = Some v -> same_place u v ->
      rtsc (joined (outer_pairs 0 l)) a b).
    { intros a b u v Hab Hu Hv Huv. apply rtc_once. left. apply outer_pairs_elem; [done|].
      exists a, b, u, v. split_and!; done. }
    destruct (Nat.lt_total x y) as [?|[->|?]]; [by eapply Hgen|done|].
    apply rtsc_sym. eapply Hgen; eauto using same_place_sym.
Qed.

Section aliases.
Context (sortedList : list pointer) (h : heap) (syms : list Symbol).
Context (Hsyms : Forall2 (points_to h) sortedList syms).
Abbreviation rule := (SymbolAliasFinder.alias_rule sortedList h).
Abbreviation count := (length sortedList).

Lemma sorted_lookup i : (i < count)%nat ->
  exists p s, sortedList !! i = Some p /\ syms !! i = Some s /\ h !! p = Some s.
Proof.
  intros Hi. destruct (lookup_lt_is_Some_2 sortedList i Hi) as [p Hp].
  destruct (Forall2_lookup_l _ _ _ _ _ Hsyms Hp) as (s&Hs&Hps). eauto.
Qed.

(** Every comparison decides. *)
Lemma first_rule_nonzero rules d : d <> 0 -> Forall (fun r => r.2 <> 0) rules ->
  SymbolAliasFinder.first_rule rules d <> 0.
Proof. intros Hd. induction 1 as [|[[] c] rules Hc _ IH]; cbn in *; auto. Qed.
Lemma edgeComparator_nonzero s t : SymbolAliasFinder.edgeComparator s t <> 0.
Proof. apply first_rule_nonzero; [done|]. repeat (apply Forall_cons; split; [done|]). by apply Forall_nil. Qed.

Lemma alias_laws : EdgeLaws count rule.
Proof.
  split; unfold setEdge, SymbolAliasFinder.alias_rule, SymbolAliasFinder.alias_edge, SymbolAliasFinder.sorted_at.
  - intros parent x1 x2 Hl H1 H2 _.
    destruct (sorted_lookup x1 H1) as (p&s&Hp&_&Hs), (sorted_lookup x2 H2) as (q&t&Hq&_&Ht).
    unfold deref. rewrite Hp, Hq, Hs, Ht. cbn [mbind res_bind]. unfold set_parent.
    rewrite Hl, (proj2 (Nat.ltb_lt _ _) H1), (proj2 (Nat.ltb_lt _ _) H2).
    pose proof (edgeComparator_nonzero s t).
    destruct (Z.ltb_spec (SymbolAliasFinder.edgeComparator s t) 0); [by left|].
    destruct (Z.ltb_spec 0 (SymbolAliasFinder.edgeComparator s t)); [by right|lia].
  - intros parent x Hl Hx. assert (Hlt : (x < count)%nat) by (rewrite <- Hl; by eapply lookup_lt_Some).
    destruct (sorted_lookup x Hlt) as (p&s&Hp&_&Hs).
    unfold deref. rewrite Hp, Hs. cbn [mbind res_bind]. unfold set_parent.
    rewrite Hl, (proj2 (Nat.ltb_lt _ _) Hlt), list_insert_id by done. by repeat case_if.
Qed.

Lemma inner_loop_pairs i s j ptrs ss parent : Forall2 (points_to h) ptrs ss ->
  SymbolAliasFinder.inner_loop sortedList h i s j ptrs parent =
  @join_all rule (inner_pairs i s j ss) parent.
Proof.
  intros H2. revert j parent. induction H2 as [|p t ptrs ss Hp _ IH]; intros j parent; [done|].
  cbn [SymbolAliasFinder.inner_loop inner_pairs]. unfold deref. rewrite Hp.
  unfold mbind, res_bind. destruct (address s =? address t); cbn [negb]; [|done].
  destruct (SymbolAliasFinder.is_file t); [apply IH|]. destruct (shndx s =? shndx t); [|apply IH].
  cbn [join_all]. unfold mbind, res_bind. destruct (join i j parent); [apply IH|done].
Qed.

Lemma outer_loop_pairs i ptrs ss parent : Forall2 (points_to h) ptrs ss ->
  SymbolAliasFinder.outer_loop sortedList h i ptrs parent = @join_all rule (outer_pairs i ss) parent.
Proof.
  intros H2. revert i parent. induction H2 as [|p t ptrs ss Hp H2 IH]; intros i parent; [done|].
  cbn [SymbolAliasFinder.outer_loop outer_pairs]. unfold deref. rewrite Hp, (join_all_app rule).
  unfold mbind, res_bind. destruct (SymbolAliasFinder.is_file t).
  - apply IH.
  - rewrite (inner_loop_pairs i t (S i) ptrs ss) by done.
    destruct (join_all (inner_pairs i t (S i) ss) parent); [apply IH|done].
Qed.

Lemma construct_represents : ascending syms ->
  exists parent, SymbolAliasFinder.constructByAddress sortedList h (new count) = Ok parent /\
    represents count (outer_pairs 0 syms) parent.
Proof.
  intros Hasc. unfold SymbolAliasFinder.constructByAddress. rewrite (outer_loop_pairs 0 _ syms) by done.
  apply (join_all_represents count rule alias_laws _ [] (new count)); [apply represents_new|].
  apply Forall_forall. intros [x y] Hxy. apply outer_pairs_elem in Hxy as (a&b&s&t&->&->&_&Ha&Hb&_); [|done].
  apply lookup_lt_Some in Ha, Hb. rewrite (Forall2_length _ _ _ Hsyms). cbn. lia.
Qed.
End aliases.

(** ** Recording the aliases *)

(** A symbol without its alias links, which [alias_loop] leaves alone. *)
Definition core (s : Symbol) : Symbol :=
  mkSymbol (address s) (ssize s) (name s) (version s) None [] (symbolType s) (bindingType s)
    (sindex s) (shndx s).

(** [h'] differs from [h] in alias links only, and in [aliasFor] as [f] says. *)
Definition relinked (h h' : heap) (f : pointer -> option pointer -> option pointer) : Prop :=
  forall p s, h !! p = Some s ->
    exists s', h' !! p = Some s' /\ core s' = core s /\ aliasFor s' = f p (aliasFor s).

Lemma relinked_refl h : relinked h h (fun _ a => a).
Proof. intros p s Hp. by exists s. Qed.
Lemma relinked_trans h1 h2 h3 f g k : relinked h1 h2 f -> relinked h2 h3 g ->
  (forall p a, g p (f p a) = k p a) -> relinked h1 h3 k.
Proof.
  intros H12 H23 Hk p s Hp. destruct (H12 _ _ Hp) as (s2&Hp2&Hc2&Ha2).
  destruct (H23 _ _ Hp2) as (s3&Hp3&Hc3&Ha3). exists s3. split_and!; [done|congruence|].
  by rewrite Ha3, Ha2.
Qed.

Lemma update_links h p u : is_Some (h !! p) ->
  (forall s, core (u s) = core s) ->
  exists h', update p u h = Ok (tt, h') /\
    forall f, (forall s, aliasFor (u s) = f p (aliasFor s)) -> (forall q a, q <> p -> f q a = a) ->
      relinked h h' f.
Proof.
  intros [s Hs] Hu. unfold update, deref. rewrite Hs. cbn [mbind res_bind]. eexists. split; [done|].
  intros f Hf Hne q t Hq. destruct (decide (q = p)) as [->|Hqp].
  - rewrite Hs in Hq. injection Hq as <-. exists (u s). rewrite list_lookup_insert_eq by (by eapply lookup_lt_Some). auto.
  - exists t. rewrite list_lookup_insert_ne by done. by rewrite Hne.
Qed.

(** One iteration: the symbol [p] becomes an alias of [q]. *)
Lemma link_pair h p q : is_Some (h !! p) -> is_Some (h !! q) ->
  exists h', (_ ← update p (Symbol.setAliasFor q); update q (Symbol.addAlias p)) h = Ok (tt, h') /\
    relinked h h' (fun r a => if decide (r = p) then Some q else a).
Proof.
  intros Hp Hq. destruct (update_links h p (Symbol.setAliasFor q) Hp) as (h1&E1&R1); [done|].
  specialize (R1 (fun r a => if decide (r = p) then Some q else a)).
  assert (Hr1 : relinked h h1 (fun r a => if decide (r = p) then Some q else a)).
  { apply R1; [intros s; by rewrite decide_True|intros; by rewrite decide_False]. }
  assert (Hq1 : is_Some (h1 !! q)) by (destruct Hq as [t Ht]; destruct (Hr1 _ _ Ht) as (?&?&_); eauto).
  destruct (update_links h1 q (Symbol.addAlias p) Hq1) as (h2&E2&R2); [done|].
  exists h2. unfold mbind, symM_bind. rewrite E1. split; [done|].
  eapply relinked_trans; [done|by apply (R2 (fun _ a => a))|done].
Qed.

Section recording.
Context (sortedList : list pointer) (Hnodup : NoDup sortedList).
Context (pairs : list (nat * nat)) (parent : parents).
Context (Hrep : represents (length sortedList) pairs parent).

(** The representative's pointer. *)
Definition rep_of (i : nat) : option nat := match find i parent with Ok (r, _) => Some r | Err _ => None end.
Definition alias_of (is_ : list nat) (p : pointer) (a : option pointer) : option pointer :=
  match list_find (fun i => sortedList !! i = Some p) is_ with
  | Some (_, i) =>
    match rep_of i with
    | Some r => if decide (r = i) then a else sortedList !! r
    | None => a
    end
  | None => a
  end.

Lemma alias_of_skip i is_ p a : sortedList !! i <> Some p -> alias_of (i :: is_) p a = alias_of is_ p a.
Proof.
  intros Hi. unfold alias_of. cbn. rewrite decide_False by done.
  by destruct (list_find _ is_) as [[]|].
Qed.

Lemma alias_of_out is_ p a : (forall i, i ∈ is_ -> sortedList !! i <> Some p) -> alias_of is_ p a = a.
Proof.
  intros Hout. unfold alias_of. destruct (list_find _ is_) as [[k i]|] eqn:E; [|done].
  apply list_find_Some in E as (Hi&Hp&_). exfalso. eapply Hout; [by eapply list_elem_of_lookup_2|done].
Qed.

Lemma find_rep i : (i < length sortedList)%nat ->
  exists r p q, find i parent = Ok (r, parent) /\ (r < length sortedList)%nat /\
    sortedList !! i = Some p /\ sortedList !! r = Some q.
Proof.
  intros Hi. destruct (rep_walk _ _ _ Hrep i Hi) as (k&r&Hw). pose proof (walk_end _ _ _ _ Hw) as Hr.
  apply lookup_lt_Some in Hr. rewrite (rep_length _ _ _ Hrep) in Hr.
  destruct (lookup_lt_is_Some_2 sortedList i Hi) as [p Hp], (lookup_lt_is_Some_2 sortedList r Hr) as [q Hq].
  exists r, p, q. split_and!; [by eapply find_walk|done..].
Qed.

Lemma alias_loop_links is_ h : NoDup is_ -> Forall (fun i => (i < length sortedList)%nat) is_ ->
  Forall (fun p => is_Some (h !! p)) sortedList ->
  exists h', SymbolAliasFinder.alias_loop sortedList is_ parent h = Ok (parent, h') /\
    relinked h h' (alias_of is_).
Proof.
  intros Hnd Hin. revert h. induction is_ as [|i is_ IH]; intros h Hval; cbn [SymbolAliasFinder.alias_loop].
  { exists h. split; [done|]. apply relinked_refl. }
  apply NoDup_cons in Hnd as [Hni Hnd]. apply Forall_cons in Hin as [Hi Hin].
  destruct (find_rep i Hi) as (r&p&q&Hf&Hr&Hp&Hq).
  assert (Hvp : is_Some (h !! p)) by (rewrite Forall_forall in Hval; apply Hval; by eapply list_elem_of_lookup_2).
  assert (Hvq : is_Some (h !! q)) by (rewrite Forall_forall in Hval; apply Hval; by eapply list_elem_of_lookup_2).
  assert (Hout : forall a, alias_of is_ p a = a).
  { intros a. apply alias_of_out. intros j Hj Hjp. by rewrite (NoDup_lookup _ _ _ _ Hnodup Hjp Hp) in Hj. }
  assert (Hhd : forall a, alias_of (i :: is_) p a = if decide (r = i) then a else Some q).
  { intros a. unfold alias_of. cbn. rewrite decide_True by done. unfold rep_of. by rewrite Hf, Hq. }
  unfold mbind, symM_bind, reading. rewrite Hf. cbn [mbind res_bind].
  destruct (Nat.eqb_spec r i) as [->|Hne].
  - unfold mret, symM_ret. destruct (IH Hnd Hin h Hval) as (h'&->&Hrel). exists h'. split; [done|].
    intros u s Hu. destruct (Hrel u s Hu) as (s'&Hs'&Hc&Ha). exists s'. split_and!; [done..|].
    rewrite Ha. destruct (decide (u = p)) as [->|Hup]; [by rewrite Hout, Hhd, decide_True|].
    rewrite alias_of_skip; [done|congruence].
  - rewrite Hp, Hq. destruct (link_pair h p q Hvp Hvq) as (h1&E1&R1).
    unfold mbind, symM_bind in E1. rewrite E1.
    destruct (IH Hnd Hin h1) as (h'&->&Hrel).
    { eapply Forall_impl; [done|]. intros u [s Hu]. destruct (R1 u s Hu) as (?&?&_). eauto. }
    exists h'. split; [done|]. eapply relinked_trans; [done..|]. intros u a. cbn.
    destruct (decide (u = p)) as [->|Hup]; [by rewrite Hout, Hhd, decide_False|].
    rewrite alias_of_skip; [done|congruence].
Qed.
End recording.

(** ** Insertion sort, one of the possible results of [std::sort] *)

Definition address_of (h : heap) (p : pointer) : Z := from_option address 0 (h !! p).
Fixpoint insert_by_address (h : heap) (p : pointer) (l : list pointer) : list pointer :=
  match l with
  | [] => [p]
  | q :: l' => if address_of h p <=? address_of h q then p :: l else q :: insert_by_address h p l'
  end.
Definition insertion_sort : StdSort := fun h l => foldr (insert_by_address h) [] l.

Lemma insert_by_address_perm h p l : insert_by_address h p l ≡ₚ p :: l.
Proof.
  induction l as [|q l IH]; cbn; [done|]. case_if; [done|]. rewrite IH. apply Permutation_swap.
Qed.

Lemma by_address_iff h p q s t : h !! p = Some s -> h !! q = Some t ->
  by_address h p q <-> address_of h p <= address_of h q.
Proof.
  intros Hp Hq. unfold by_address, address_of. rewrite Hp, Hq. cbn. split; [naive_solver|eauto].
Qed.

Lemma insert_by_address_sorted h p l : Forall (fun q => is_Some (h !! q)) (p :: l) ->
  StronglySorted (by_address h) l -> StronglySorted (by_address h) (insert_by_address h p l).
Proof.
  intros [[s Hp] Hval]%Forall_cons Hs. induction Hs as [|q l Hs IH Hall]; cbn; [by repeat constructor|].
  apply Forall_cons in Hval as [[t Hq] Hval].
  destruct (Z.leb_spec (address_of h p) (address_of h q)) as [Hle|Hlt].
  - constructor; [by constructor|]. apply Forall_cons. split; [by rewrite by_address_iff|].
    rewrite Forall_forall in Hall, Hval. apply Forall_forall. intros u Hu.
    destruct (Hval _ Hu) as [v Hv]. rewrite by_address_iff by done. specialize (Hall _ Hu).
    rewrite by_address_iff in Hall by done. lia.
  - constructor; [by apply IH|]. rewrite insert_by_address_perm. apply Forall_cons. split; [|done].
    rewrite by_address_iff by done. lia.
Qed.

#[export] Instance insertion_sort_laws : SortLaws insertion_sort.
Proof.
  split; intros h l; unfold std_sort, insertion_sort.
  - induction l as [|p l IH]; cbn; [done|]. by rewrite insert_by_address_perm, IH.
  - induction 1 as [|p l Hp Hval IH]; cbn; [constructor|].
    apply insert_by_address_sorted; [|done]. apply Forall_cons. split; [done|].
    assert (Hperm : foldr (insert_by_address h) [] l ≡ₚ l).
    { clear. induction l as [|p l IH]; cbn; [done|]. by rewrite insert_by_address_perm, IH. }
    by rewrite Hperm.
Qed.

(** ** Aliases by address *)

Section by_address_proof.
Context (sort : StdSort) (laws : SortLaws sort) (l : SymbolList) (h : heap).
Context (Hval : Forall (fun p => is_Some (h !! p)) (symbolList l)) (Hnd : NoDup (symbolList l)).
Abbreviation sorted := (std_sort h (symbolList l)).

Lemma sorted_nodup : NoDup sorted.
Proof. by rewrite sort_perm. Qed.
Lemma sorted_valid : Forall (fun p => is_Some (h !! p)) sorted.
Proof. by rewrite sort_perm. Qed.
Lemma sorted_count : SymbolList.getCount l = length sorted.
Proof. unfold SymbolList.getCount. by rewrite sort_perm. Qed.

Lemma valid_symbols ptrs : Forall (fun p => is_Some (h !! p)) ptrs ->
  exists syms, Forall2 (points_to h) ptrs syms.
Proof. induction 1 as [|p ptrs [s Hs] _ [ss IH]]; [by exists []|]. exists (s :: ss). by constructor. Qed.

Lemma symbols_ascending ptrs syms : Forall2 (points_to h) ptrs syms ->
  StronglySorted (by_address h) ptrs -> ascending syms.
Proof.
  induction 1 as [|p s ptrs syms Hp H2 IH]; intros Hs; [constructor|].
  apply StronglySorted_inv in Hs as [Hs Hall]. constructor; [by apply IH|].
  apply Forall_forall. intros t Ht. apply list_elem_of_lookup_1 in Ht as [i Ht].
  destruct (Forall2_lookup_r _ _ _ _ _ H2 Ht) as (q&Hq&Hqt). rewrite Forall_forall in Hall.
  destruct (Hall q) as (u&v&Hu&Hv&Huv); [by eapply list_elem_of_lookup_2|].
  unfold points_to in *. by simplify_eq.
Qed.

(** After [find_aliases] a symbol refers to the representative of its set. *)
Lemma aliases_recorded : exists syms pairs parent h',
  Forall2 (points_to h) sorted syms /\ ascending syms /\ pairs = outer_pairs 0 syms /\
  represents (length sorted) pairs parent /\
  SymbolAliasFinder.find_aliases l h = Ok (tt, h') /\
  relinked h h' (alias_of sorted parent (seq 0 (length sorted))).
Proof.
  destruct (valid_symbols sorted sorted_valid) as [syms H2].
  assert (Hasc : ascending syms) by (eapply symbols_ascending; [done|by apply sort_sorted]).
  destruct (construct_represents sorted h syms H2 Hasc) as (parent&Ec&Hr).
  destruct (alias_loop_links sorted sorted_nodup (outer_pairs 0 syms) parent Hr (seq 0 (length sorted)) h)
    as (h'&El&Hrel).
  - apply NoDup_seq.
  - apply Forall_forall. intros i Hi%elem_of_seq. lia.
  - apply sorted_valid.
  - exists syms, (outer_pairs 0 syms), parent, h'. split_and!; try done.
    unfold SymbolAliasFinder.find_aliases. rewrite sorted_count. unfold mbind, res_bind.
    rewrite Ec. by rewrite El.
Qed.

Lemma alias_of_index parent i p r a : sorted !! i = Some p ->
  find i parent = Ok (r, parent) ->
  alias_of sorted parent (seq 0 (length sorted)) p a = if decide (r = i) then a else sorted !! r.
Proof.
  intros Hp Hf. unfold alias_of. destruct (list_find _ _) as [[k j]|] eqn:E.
  - apply list_find_Some in E as (_&Hj&_). rewrite (NoDup_lookup _ _ _ _ sorted_nodup Hj Hp).
    unfold rep_of. by rewrite Hf.
  - apply list_find_None in E. rewrite Forall_forall in E. exfalso. apply (E i); [|done].
    apply elem_of_seq. apply lookup_lt_Some in Hp. lia.
Qed.

Lemma sorted_index p : p ∈ symbolList l -> exists i, sorted !! i = Some p.
Proof. intros Hp. apply list_elem_of_lookup_1. by rewrite sort_perm. Qed.

(** What is known of a symbol [p] of the list: its position [i], its representative's
    position [r] and pointer [q]. *)
Definition recorded (syms : list Symbol) (parent : parents) (h' : heap) (p : pointer)
    (i r : nat) (s : Symbol) (q : pointer) (s' : Symbol) : Prop :=
  sorted !! i = Some p /\ h !! p = Some s /\ syms !! i = Some s /\
  find i parent = Ok (r, parent) /\ find r parent = Ok (r, parent) /\ sorted !! r = Some q /\
  h' !! p = Some s' /\ core s' = core s /\
  aliasFor s' = if decide (r = i) then aliasFor s else Some q.

Lemma symbol_recorded syms pairs parent h' p : Forall2 (points_to h) sorted syms ->
  represents (length sorted) pairs parent ->
  relinked h h' (alias_of sorted parent (seq 0 (length sorted))) -> p ∈ symbolList l ->
  exists i r s q s', recorded syms parent h' p i r s q s'.
Proof.
  intros H2 Hr Hrel Hp. destruct (sorted_index p Hp) as [i Hi].
  destruct (Forall2_lookup_l _ _ _ _ _ H2 Hi) as (s&Hs&Hps). destruct (Hrel _ _ Hps) as (s'&Hs'&Hc&Ha).
  destruct (rep_walk _ _ _ Hr i) as (k&r&Hw); [by eapply lookup_lt_Some|].
  pose proof (walk_end _ _ _ _ Hw) as Hrr.
  assert (Hlt : (r < length sorted)%nat) by (apply lookup_lt_Some in Hrr; by rewrite (rep_length _ _ _ Hr) in Hrr).
  destruct (lookup_lt_is_Some_2 sorted r Hlt) as [q Hq].
  exists i, r, s, q, s'. pose proof (find_walk _ _ _ _ Hw) as Hf.
  rewrite (alias_of_index parent i p r _ Hi Hf), Hq in Ha.
  split_and!; try done. eapply find_walk. by constructor.
Qed.

Lemma recorded_unique syms parent h' p i r s q s' i2 r2 s2 q2 s2' :
  recorded syms parent h' p i r s q s' -> recorded syms parent h' p i2 r2 s2 q2 s2' ->
  i2 = i /\ r2 = r /\ s2 = s /\ q2 = q /\ s2' = s'.
Proof.
  intros (Hi&Hp&_&Hf&_&Hq&Hs&_) (Hi2&Hp2&_&Hf2&_&Hq2&Hs2&_).
  assert (i2 = i) as -> by by eapply NoDup_lookup; [apply sorted_nodup|..].
  rewrite Hf in Hf2. by simplify_eq.
Qed.

(** The canonical symbol is the representative. *)
Lemma recorded_canonical syms parent h' p i r s q s' : aliasFor s = None ->
  recorded syms parent h' p i r s q s' -> SymbolList.canonical p h' = Ok (q, h').
Proof.
  intros Hn (Hi&_&_&_&_&Hq&Hs'&_&Ha). unfold SymbolList.canonical, symbol_at, reading, deref.
  unfold mbind, symM_bind. rewrite Hs'. cbn. rewrite Ha. destruct (decide (r = i)) as [->|]; [|done].
  rewrite Hn. by simplify_eq.
Qed.

(** Representatives are the same for symbols of the same place. *)
Lemma recorded_same syms parent h' p i r s q s' p2 i2 r2 s2 q2 s2' : ascending syms ->
  Forall2 (points_to h) sorted syms -> represents (length sorted) (outer_pairs 0 syms) parent ->
  recorded syms parent h' p i r s q s' -> recorded syms parent h' p2 i2 r2 s2 q2 s2' ->
  r = r2 <-> p = p2 \/ same_place s s2.
Proof.
  intros Hasc H2 Hr (Hi&Hp&Hs&Hf&_) (Hi2&Hp2&Hs2&Hf2&_).
  destruct (find_same _ _ _ i i2 Hr) as (x&y&Hx&Hy&Hxy); [by eapply lookup_lt_Some..|].
  rewrite Hf in Hx. rewrite Hf2 in Hy. injection Hx as <-. injection Hy as <-.
  rewrite Hxy, pairs_partition by (done || by eapply lookup_lt_Some). split.
  - intros [->|(u&v&Hu&Hv&Huv)]; [left; congruence|right; by simplify_eq].
  - intros [->|Hsame]; [left; by eapply NoDup_lookup; [apply sorted_nodup|..]|right; eauto].
Qed.
End by_address_proof.

(** C26: The aliases of a symbol table.  However the symbols at one address are ordered,
    [find_aliases] ends without fault and changes the alias links only; a
    symbol becomes an alias only of a symbol of the list at the same address and section that is not itself
    an alias, so that following one link is enough; and two symbols then have the
    same canonical symbol exactly when they are at the same address of the same section and
    neither is a file. *)
Theorem aliases_by_address (sort : StdSort) (laws : SortLaws sort) l h :
  Forall (fun p => is_Some (h !! p)) (symbolList l) -> NoDup (symbolList l) ->
  (forall p s, h !! p = Some s -> aliasFor s = None) ->
  exists h', SymbolAliasFinder.find_aliases l h = Ok (tt, h') /\
    (forall p s, p ∈ symbolList l -> h !! p = Some s ->
       exists s', h' !! p = Some s' /\ core s' = core s /\
         forall q, aliasFor s' = Some q -> q ∈ symbolList l /\
           exists t t', h !! q = Some t /\ same_place s t /\ h' !! q = Some t' /\ aliasFor t' = None) /\
    (forall p q s t, p ∈ symbolList l -> q ∈ symbolList l -> h !! p = Some s -> h !! q = Some t ->
       exists cp cq, SymbolList.canonical p h' = Ok (cp, h') /\ SymbolList.canonical q h' = Ok (cq, h') /\
         (cp = cq <-> p = q \/ same_place s t)).
Proof.
  intros Hval Hnd Hnone.
  destruct (aliases_recorded sort laws l h Hval Hnd) as (syms&pairs&parent&h'&H2&Hasc&->&Hr&Hf&Hrel).
  exists h'. split; [done|]. set (sorted := std_sort h (symbolList l)) in *.
  assert (Hrec := fun p => symbol_recorded sort laws l h Hnd syms _ parent h' p H2 Hr Hrel).
  split.
  - intros p s Hp Hs. destruct (Hrec p Hp) as (i&r&s0&q&s'&R). pose proof R as (Hi&Hs0&Hsi&Hfi&Hfr&Hq&Hs'&Hc&Ha).
    rewrite Hs in Hs0. injection Hs0 as <-. exists s'. split_and!; [done..|].
    rewrite (Hnone _ _ Hs) in Ha. rewrite Ha. destruct (decide (r = i)) as [|Hne]; [done|]. intros q' [= <-].
    assert (Hql : q ∈ symbolList l) by (rewrite <- (sort_perm h); by eapply list_elem_of_lookup_2).
    split; [done|]. destruct (Hrec q Hql) as (i2&r2&t&q2&t'&R2). pose proof R2 as (Hi2&Ht&_&Hf2&_&_&Ht'&_&Ha2).
    assert (i2 = r) as -> by by eapply NoDup_lookup; [apply (sorted_nodup sort laws l h)|..].
    rewrite Hfr in Hf2. injection Hf2 as <-. exists t, t'. split_and!; [done| |done|].
    + destruct (proj1 (recorded_same sort laws l h Hnd syms parent h' _ _ _ _ _ _ _ _ _ _ _ _ Hasc H2 Hr R R2) eq_refl)
        as [->|]; [|done]. exfalso. apply Hne. by eapply NoDup_lookup; [apply (sorted_nodup sort laws l h)|..].
    + rewrite Ha2, decide_True by done. by apply (Hnone q).
  - intros p q s t Hp Hq Hs Ht. destruct (Hrec p Hp) as (i&r&s0&cp&s'&R), (Hrec q Hq) as (j&r2&t0&cq&t'&R2).
    assert (s0 = s /\ t0 = t) as [-> ->] by (destruct R as (_&E&_), R2 as (_&E2&_); split; congruence).
    exists cp, cq. split_and!;
      [eapply recorded_canonical, R; by apply (Hnone p)|eapply recorded_canonical, R2; by apply (Hnone q)|].
    rewrite <- (recorded_same sort laws l h Hnd syms parent h' _ _ _ _ _ _ _ _ _ _ _ _ Hasc H2 Hr R R2).
    destruct R as (_&_&_&_&_&Hcp&_), R2 as (_&_&_&_&_&Hcq&_).
    split; [|congruence]. intros ->. by eapply NoDup_lookup; [apply (sorted_nodup sort laws l h)|..].
Qed.

(** The type and the binding of a symbol survive the encoding as an st_info byte. *)
Lemma symbol_info_roundtrip t b : t <> TYPE_UNKNOWN ->
  let info := Z.shiftl (Symbol.bindFromInternalToElf b) 4 + Z.land (Symbol.typeFromInternalToElf t) 0xf in
  Symbol.typeFromElfToInternal info = t /\ Symbol.bindFromElfToInternal info = b.
Proof. by destruct t, b. Qed.

Module SymbolExamples.

(** Four symbols: two names of a function, its section symbol, and another function. *)
Definition entries : list ElfSym :=
  [mkElfSym "" 0x03 1 0x1000 0; mkElfSym "memcpy" 0x12 1 0x1000 64;
   mkElfSym "__memcpy" 0x22 1 0x1000 64; mkElfSym "main" 0x12 1 0x1040 0].
Definition sample_elf : ElfView :=
  mkElf (Some entries) None false (fun i => if i =? 1 then Some (0x1000, 6) else None)
    None None [] ∅.

Definition sample : option (SymbolList * heap) :=
  match buildAnySymbolList (H := insertion_sort) X86_64 sample_elf (Some entries) [] with
  | Ok r => Some r
  | Err _ => None
  end.
Definition sample_list : SymbolList := from_option fst SymbolList.new sample.
Definition sample_heap : heap := from_option snd [] sample.

Lemma sample_unaliased p s : sample_heap !! p = Some s -> aliasFor s = None.
Proof. intros Hp. do 4 (destruct p as [|p]; [by injection Hp as <-|]). done. Qed.

Lemma aliases_by_address_witness :
  exists h', SymbolAliasFinder.find_aliases (H := insertion_sort) sample_list sample_heap = Ok (tt, h') /\
    exists c, SymbolList.canonical 1 h' = Ok (c, h') /\ SymbolList.canonical 2 h' = Ok (c, h').
Proof.
  destruct (aliases_by_address insertion_sort insertion_sort_laws sample_list sample_heap)
    as (h'&E&_&H).
  - repeat (apply Forall_cons; split; [by eexists|]). by apply Forall_nil.
  - change (NoDup [0; 1; 2; 3]%nat). apply (NoDup_seq 0 4).
  - apply sample_unaliased.
  - exists h'. split; [done|].
    assert (Hin : forall i, (i < 4)%nat -> i ∈ symbolList sample_list).
    { intros i Hi. change (i ∈ seq 0 4). apply elem_of_seq. lia. }
    assert (exists s t, sample_heap !! 1%nat = Some s /\ sample_heap !! 2%nat = Some t /\ same_place s t)
      as (s&t&Hs&Ht&Hst) by (vm_compute; eexists _, _; repeat split; done).
    destruct (H 1%nat 2%nat s t (Hin 1%nat ltac:(lia)) (Hin 2%nat ltac:(lia)) Hs Ht) as (cp&cq&Hp&Hq&Hpq).
    exists cp. split; [done|]. rewrite (proj2 Hpq); [done|]. by right.
Defined.

(** The whole table: the section symbol and the internal name are aliases of memcpy,
    and the size of main is estimated. *)
Example sample_built :
  match buildSymbolList (H := insertion_sort) X86_64 sample_elf [] with
  | Ok (Some _, h) => (fun s => (name s, aliasFor s, ssize s)) <$> h
  | _ => []
  end = [(""%string, Some 1%nat, 0x40); ("memcpy"%string, None, 64);
         ("__memcpy"%string, Some 1%nat, 64); ("main"%string, None, 0)].
Proof. vm_compute. reflexivity. Qed.

(** The first mapping symbol is not found from below: the backward loop stops before
    the first element. *)
Definition mapping_heap : heap :=
  [Symbol.new 0x1000 0 "$x" TYPE_NOTYPE BIND_LOCAL 0 1; Symbol.new 0x1010 4 "f" TYPE_FUNC BIND_GLOBAL 1 1].
Example first_mapping_missed :
  SymbolListWithMapping.findMappingBelowOrAt 1
    (mkList [0; 1]%nat [] ∅ [] [0%nat]) mapping_heap = Ok None.
Proof. reflexivity. Qed.

(** Two symbols of the same name, the first of which is an alias: the second refers to
    a symbol that is not canonical, and following one link does not reach it. *)
Definition chain_entries : list ElfSym :=
  [mkElfSym "foo@V1" 0x12 1 0x1000 8; mkElfSym "foo" 0x12 1 0x1000 8; mkElfSym "foo@V1" 0x12 1 0x2000 8].
Example same_name_chain :
  match buildSymbolList (H := insertion_sort) X86_64
          (mkElf (Some chain_entries) None false (fun _ => None) None None [] ∅) [] with
  | Ok (Some _, h) => aliasFor <$> h
  | _ => []
  end = [Some 1%nat; None; Some 0%nat].
Proof. vm_compute. reflexivity. Qed.
End SymbolExamples.
