(* ===== verification/Graph.v ===== *)
(** * Graphs and their walks: src/analysis/graph.h and walker.h

    A graph is what the interface [GraphBase] gives: a number of nodes, and for each
    node and direction the targets of its links.  The walker is a depth-first search
    that calls a visitor; the collectors are visitors that gather nodes in an order.
    The theory of the search is in GraphProofs. *)

From S2P Require Import Prelude.

(** A vector indexed by node numbers: an access outside of it is a fault. *)
Definition vec_at {A} (l : list A) (i : nat) : res A :=
  match l !! i with Some x => Ok x | None => Err OutOfBounds end.
Definition vec_set {A} (l : list A) (i : nat) (x : A) : res (list A) :=
  if (i <? length l)%nat then Ok (<[i := x]> l) else Err OutOfBounds.

Lemma vec_at_Some {A} (l : list A) i x : l !! i = Some x -> vec_at l i = Ok x.
Proof. unfold vec_at. by intros ->. Qed.
Lemma vec_set_lt {A} (l : list A) i x : (i < length l)%nat -> vec_set l i x = Ok (<[i := x]> l).
Proof. unfold vec_set. by intros ->%Nat.ltb_lt. Qed.

(** ** graph.h *)

(** [getLinks] is [get(id)->getLinks(direction)]; the walkers use of a link only its
    target.  Node numbers are not negative. *)
Class GraphBase (G : Type) := {
  getCount : G -> nat;
  getLinks : G -> nat -> Z -> res (list nat) }.

(** ** DFSWalkerBase *)

(** The methods of the derived class, on its state. *)
Class Walker (S : Type) := {
  w_reset : S -> S;
  w_tick : S -> S;
  w_preVisit : nat -> S -> res S;
  w_postVisit : list nat -> nat -> S -> res S;  (* with the links of the node *)
  w_lateVisit : nat -> nat -> S -> res S;
  w_finish : S -> res S }.

Module DFSWalkerBase.
Section DFS.
Context {G S : Type} `{GraphBase G} `{Walker S}.
Variable graph : G.
Variable dir : Z.

(** [visited] and the state of the derived class. *)
Abbreviation state := (list bool * S)%type.

(** The loop over the links of [id]; [walk] is the recursive call. *)
Fixpoint walkLinks (walk : nat -> state -> res state) (id : nat) (links : list nat)
    (st : state) : res state :=
  match links with
  | [] => Ok st
  | n :: links =>
    match st.1 !! n with
    | None => Err OutOfBounds
    | Some false => st ← walk n st; walkLinks walk id links st
    | Some true => s ← w_lateVisit id n st.2; walkLinks walk id links (st.1, s)
    end
  end.

Fixpoint walkHelper (fuel : nat) (id : nat) (st : state) : res state :=
  match fuel with
  | O => Err OutOfFuel
  | Datatypes.S fuel =>
    if (id <? length st.1)%nat then
      s ← w_preVisit id st.2;
      links ← getLinks graph id dir;
      st ← walkLinks (walkHelper fuel) id links (<[id := true]> st.1, s);
      s ← w_postVisit links id st.2;
      Ok (st.1, s)
    else Err OutOfBounds
  end.

(** The recursion visits a new node at each level. *)
Definition fuel : nat := Datatypes.S (getCount graph).

Definition start (s : S) : state := (replicate (getCount graph) false, w_reset s).

Definition walk (id : nat) (s : S) : res S :=
  st ← walkHelper fuel id (start s);
  w_finish st.2.

(** The loop over the nodes that no walk has visited yet. *)
Fixpoint walkRest (ids : list nat) (st : state) : res state :=
  match ids with
  | [] => Ok st
  | i :: ids =>
    match st.1 !! i with
    | None => Err OutOfBounds
    | Some true => walkRest ids st
    | Some false => st ← walkHelper fuel i (st.1, w_tick st.2); walkRest ids st
    end
  end.

Definition walkAll (id : nat) (s : S) : res S :=
  st ← walkHelper fuel id (start s);
  st ← walkRest (seq 1 (getCount graph - 1)) st;
  w_finish st.2.
End DFS.
End DFSWalkerBase.

(** ** Visit and finish policies *)

Record VisitType := mkVisit {
  preVisit : list nat -> nat -> list nat;
  postVisit : list nat -> nat -> list nat }.

Definition PreorderVisitor : VisitType := mkVisit (fun order id => order ++ [id]) (fun order _ => order).
Definition PostorderVisitor : VisitType := mkVisit (fun order _ => order) (fun order id => order ++ [id]).
Definition PrePostorderVisitor : VisitType :=
  mkVisit (fun order id => order ++ [id]) (fun order id => order ++ [id]).

(** [finish] is a template: it works for any vector. *)
Class FinishType := finish : forall {A : Type}, list A -> list A.
Definition EmptyFinisher : FinishType := fun _ order => order.
Definition ReverseFinisher : FinishType := fun _ order => rev order.

(** ** NodeCollection *)

Module NodeCollection.
Record t := mk { order : list (list nat); lap : nat }.

Definition new (count : nat) : t := mk (replicate count []) 0.

(** A member function applied to [order[lap]]. *)
Definition at_lap (f : list nat -> list nat) (c : t) : res t :=
  match order c !! lap c with
  | Some o => Ok (mk (<[lap c := f o]> (order c)) (lap c))
  | None => Err OutOfBounds
  end.

Definition reset (c : t) : t := mk [[]] 0.
Definition tick (c : t) : t := mk (order c ++ [[]]) (lap c + 1).
Definition pre_visit (v : VisitType) (id : nat) (c : t) : res t :=
  at_lap (fun o => preVisit v o id) c.
Definition post_visit (v : VisitType) (id : nat) (c : t) : res t :=
  at_lap (fun o => postVisit v o id) c.
Definition late_visit (from target : nat) (c : t) : res t := Ok c.
Definition finish_all (f : FinishType) (c : t) : res t :=
  Ok (mk (map (@finish f nat) (order c)) (lap c)).
Definition get (c : t) : list (list nat) := order c.

Definition walker (v : VisitType) (f : FinishType) : Walker t := {|
  w_reset := reset; w_tick := tick;
  w_preVisit := pre_visit v; w_postVisit := fun _ => post_visit v;
  w_lateVisit := late_visit; w_finish := finish_all f |}.
End NodeCollection.

(** ** SccCollection *)

Module SccCollection.
Record t := mk {
  scc : nat; disc : nat;
  discovery : list nat; lowLink : list nat; onStack : list bool;
  stack : list nat; poStack : list nat; sccOrder : list (list nat) }.

Definition new (count : nat) : t :=
  mk 0 0 (replicate count 0%nat) (replicate count 0%nat) (replicate count false) [] [] [].

(** [reset] leaves the vectors and the two stacks as they are. *)
Definition reset (c : t) : t :=
  mk 0 0 (discovery c) (lowLink c) (onStack c) (stack c) (poStack c) [[]].
Definition tick (c : t) : t := c.

Definition pre_visit (id : nat) (c : t) : res t :=
  discovery' ← vec_set (discovery c) id (disc c);
  lowLink' ← vec_set (lowLink c) id (disc c);
  onStack' ← vec_set (onStack c) id true;
  Ok (mk (scc c) (disc c + 1) discovery' lowLink' onStack' (stack c ++ [id]) (poStack c) (sccOrder c)).

(** The loop over the links of the node. *)
Fixpoint relax (id : nat) (links : list nat) (discovery lowLink : list nat) : res (list nat) :=
  match links with
  | [] => Ok lowLink
  | n :: links =>
    d ← vec_at discovery id; dn ← vec_at discovery n;
    lowLink ← (if (d <? dn)%nat then
                 l ← vec_at lowLink id; ln ← vec_at lowLink n; vec_set lowLink id (Nat.min l ln)
               else Ok lowLink);
    relax id links discovery lowLink
  end.

(** The [do ... while], which looks for [id], from the end of the stack ([l] is the stack
    reversed): how many elements it passes, and the flags it clears. *)
Fixpoint unwind (id : nat) (l : list nat) (onStack : list bool) : res (nat * list bool) :=
  match l with
  | [] => Err OutOfBounds
  | x :: l =>
    onStack ← vec_set onStack x false;
    if (x =? id)%nat then Ok (1%nat, onStack)
    else '(k, onStack) ← unwind id l onStack; Ok (S k, onStack)
  end.

Definition post_visit (f : FinishType) (links : list nat) (id : nat) (c : t) : res t :=
  lowLink' ← relax id links (discovery c) (lowLink c);
  let po := poStack c ++ [id] in
  d ← vec_at (discovery c) id; l ← vec_at lowLink' id;
  if (d =? l)%nat then
    '(k, onStack') ← unwind id (rev (stack c)) (onStack c);
    if (length po <? k)%nat then Err OutOfBounds
    else
      let keep := (length (stack c) - k)%nat in
      let pkeep := (length po - k)%nat in
      o ← vec_at (sccOrder c) (scc c);
      order' ← vec_set (sccOrder c) (scc c) (@finish f nat (o ++ drop pkeep po));
      Ok (mk (scc c + 1) (disc c) (discovery c) lowLink' onStack' (take keep (stack c))
             (take pkeep po) (order' ++ [[]]))
  else Ok (mk (scc c) (disc c) (discovery c) lowLink' (onStack c) (stack c) po (sccOrder c)).

Definition late_visit (from target : nat) (c : t) : res t :=
  on ← vec_at (onStack c) target;
  if (on : bool) then
    l ← vec_at (lowLink c) from; d ← vec_at (discovery c) target;
    lowLink' ← vec_set (lowLink c) from (Nat.min l d);
    Ok (mk (scc c) (disc c) (discovery c) lowLink' (onStack c) (stack c) (poStack c) (sccOrder c))
  else Ok c.

(** [pop_back] of an empty vector is undefined. *)
Definition finish_all (f : FinishType) (c : t) : res t :=
  match sccOrder c with
  | [] => Err Undefined
  | _ => Ok (mk (scc c) (disc c) (discovery c) (lowLink c) (onStack c) (stack c) (poStack c)
                (@finish f (list nat) (removelast (sccOrder c))))
  end.
Definition get (c : t) : list (list nat) := sccOrder c.

Definition walker (f : FinishType) : Walker t := {|
  w_reset := reset; w_tick := tick;
  w_preVisit := pre_visit; w_postVisit := post_visit f;
  w_lateVisit := late_visit; w_finish := finish_all f |}.
End SccCollection.

(** ** OrderOnCFG *)

Section Orders.
Context {G : Type} `{GraphBase G}.
Variable graph : G.

(** An object [OrderOnCFG<Direction, ..., CollectType>] on which [gen(id)] or
    [genFull(id)] has been called: the result of [get()]. *)
Definition gen_nodes (dir : Z) (v : VisitType) (f : FinishType) (id : nat) : res (list (list nat)) :=
  NodeCollection.get <$>
    @DFSWalkerBase.walk _ _ _ (NodeCollection.walker v f) graph dir id
      (NodeCollection.new (getCount graph)).
Definition genFull_nodes (dir : Z) (v : VisitType) (f : FinishType) (id : nat) : res (list (list nat)) :=
  NodeCollection.get <$>
    @DFSWalkerBase.walkAll _ _ _ (NodeCollection.walker v f) graph dir id
      (NodeCollection.new (getCount graph)).
Definition gen_scc (dir : Z) (f : FinishType) (id : nat) : res (list (list nat)) :=
  SccCollection.get <$>
    @DFSWalkerBase.walk _ _ _ (SccCollection.walker f) graph dir id
      (SccCollection.new (getCount graph)).
Definition genFull_scc (dir : Z) (f : FinishType) (id : nat) : res (list (list nat)) :=
  SccCollection.get <$>
    @DFSWalkerBase.walkAll _ _ _ (SccCollection.walker f) graph dir id
      (SccCollection.new (getCount graph)).

Definition Preorder := gen_nodes 1 PreorderVisitor EmptyFinisher.
Definition Postorder := gen_nodes 1 PostorderVisitor EmptyFinisher.
Definition ReversePostorder := gen_nodes 1 PostorderVisitor ReverseFinisher.
Definition ReverseReversePostorder := gen_nodes (-1) PostorderVisitor ReverseFinisher.
Definition PrePostOrder := gen_nodes 1 PrePostorderVisitor EmptyFinisher.
Definition SccOrder := gen_scc 1 ReverseFinisher.
Definition ReverseSccOrder := gen_scc (-1) ReverseFinisher.

(** [get()[0]] *)
Definition first_order (orders : list (list nat)) : res (list nat) :=
  match orders with o :: _ => Ok o | [] => Err OutOfBounds end.

(** [isReachable<OrderType>] *)
Fixpoint search (dest : nat) (l : list nat) : bool :=
  match l with
  | [] => false
  | n :: l => if (n =? dest)%nat then true else search dest l
  end.
Definition isReachable (OrderType : nat -> res (list (list nat))) (src dest : nat) : res bool :=
  orders ← OrderType src;
  o ← first_order orders;
  Ok (search dest o).

(** [isReachable] with a predicate that says which subtrees to skip; [pruneRoot] is
    [None] while [pruning] is false. *)
Fixpoint search_pruned (prune : nat -> nat -> nat -> bool) (src dest : nat)
    (pruneRoot : option nat) (l : list nat) : bool :=
  match l with
  | [] => false
  | n :: l =>
    match pruneRoot with
    | Some r => search_pruned prune src dest (if (n =? r)%nat then None else Some r) l
    | None =>
      if (n =? dest)%nat then true
      else search_pruned prune src dest (if prune n src dest then Some n else None) l
    end
  end.
Definition isReachablePruned (prune : nat -> nat -> nat -> bool) (src dest : nat) : res bool :=
  orders ← PrePostOrder src;
  o ← first_order orders;
  Ok (search_pruned prune src dest None o).
End Orders.
