(* ===== verification/GraphProofs.v ===== *)
(** * Depth-first search: the theory of the walks of Graph

    The events of a walk (visits before, after and instead of the recursive call) are
    described by a rule-based relation on the vector of visited nodes; a walker runs its
    visitor over exactly these events. *)

From stdpp Require Import relations.
From S2P Require Import Prelude Graph.

(** ** What a graph promises to its clients *)

Class GraphLaws {G : Type} `{GraphBase G} (graph : G) : Prop := {
  links_ok dir x : (x < getCount graph)%nat ->
    exists l, getLinks graph x dir = Ok l /\ Forall (fun y => y < getCount graph)%nat l;
  links_sym x y lx ly : getLinks graph x 1 = Ok lx -> getLinks graph y (-1) = Ok ly ->
    y ∈ lx <-> x ∈ ly }.

(** The links of a node, none for a number that is not a node. *)
Definition links {G} `{GraphBase G} (graph : G) (dir : Z) (x : nat) : list nat :=
  match getLinks graph x dir with Ok l => l | Err _ => [] end.
Definition edge {G} `{GraphBase G} (graph : G) (dir : Z) (x y : nat) : Prop :=
  y ∈ links graph dir x.

(** ** Events *)

Inductive event := Pre (x : nat) | Post (x : nat) | Late (x y : nat).

Definition pres (es : list event) : list nat :=
  omap (fun e => match e with Pre x => Some x | _ => None end) es.
Definition posts (es : list event) : list nat :=
  omap (fun e => match e with Post x => Some x | _ => None end) es.
(** Both visits of a node. *)
Definition visits (es : list event) : list nat :=
  omap (fun e => match e with Pre x | Post x => Some x | Late _ _ => None end) es.

Lemma pres_app es es' : pres (es ++ es') = pres es ++ pres es'.
Proof. apply omap_app. Qed.
Lemma posts_app es es' : posts (es ++ es') = posts es ++ posts es'.
Proof. apply omap_app. Qed.
Lemma visits_app es es' : visits (es ++ es') = visits es ++ visits es'.
Proof. apply omap_app. Qed.
#[export] Hint Rewrite pres_app posts_app visits_app : egalito.

Section Search.
Variable ls : nat -> list nat.

(** [dfs visited u l visited' es]: looking at the links [l] of [u] makes [visited] into
    [visited'], with the events [es]. *)
Inductive dfs : list bool -> nat -> list nat -> list bool -> list event -> Prop :=
| dfs_nil V u : dfs V u [] V []
| dfs_tree V u n l V1 V2 es1 es2 :
    V !! n = Some false -> dfs (<[n := true]> V) n (ls n) V1 es1 -> dfs V1 u l V2 es2 ->
    dfs V u (n :: l) V2 (Pre n :: es1 ++ Post n :: es2)
| dfs_late V u n l V2 es2 :
    V !! n = Some true -> dfs V u l V2 es2 -> dfs V u (n :: l) V2 (Late u n :: es2).

Abbreviation marked V x := (V !! x = Some true) (only parsing).
Definition step (x y : nat) : Prop := y ∈ ls x.

Lemma dfs_length V u l V' es : dfs V u l V' es -> length V' = length V.
Proof. induction 1; [done| |done]. by rewrite IHdfs2, IHdfs1, length_insert. Qed.

(** The marked nodes afterwards are those before and those with a [Post] event. *)
Lemma dfs_marked V u l V' es : dfs V u l V' es ->
  forall x, marked V' x <-> marked V x \/ x ∈ posts es.
Proof.
  induction 1 as [V u|V u n l V1 V2 es1 es2 Hn _ IH1 _ IH2|V u n l V2 es2 Hn _ IH]; intros x.
  - cbn. rewrite elem_of_nil. tauto.
  - rewrite IH2, IH1. cbn. rewrite posts_app. cbn. rewrite elem_of_app, elem_of_cons.
    destruct (decide (x = n)) as [->|Hx].
    + rewrite list_lookup_insert_eq by by eapply lookup_lt_Some. tauto.
    + rewrite list_lookup_insert_ne by done. tauto.
  - rewrite IH. done.
Qed.

(** The nodes of the events are new, each is visited once, and as often before as
    after. *)
Lemma dfs_fresh V u l V' es : dfs V u l V' es ->
  NoDup (posts es) /\ (forall x, x ∈ posts es -> V !! x = Some false) /\
  Permutation (pres es) (posts es).
Proof.
  induction 1 as [V u|V u n l V1 V2 es1 es2 Hn H1 (Hd1&Hf1&Hp1) H2 (Hd2&Hf2&Hp2)|V u n l V2 es2 Hn _ IH].
  - cbn. split_and!; [apply NoDup_nil_2|by intros x ?%elem_of_nil|done].
  - assert (Hins : (<[n := true]> V) !! n = Some true)
      by (apply list_lookup_insert_eq; by eapply lookup_lt_Some).
    assert (Hn1 : n ∉ posts es1) by (intros Hx%Hf1; congruence).
    assert (Hold : forall x, x ∈ posts es2 -> x ∉ posts es1 /\ x <> n).
    { intros x Hx%Hf2. split; intros Hy.
      - assert (V1 !! x = Some true) by (apply (dfs_marked _ _ _ _ _ H1); by right). congruence.
      - subst x. assert (V1 !! n = Some true) by (apply (dfs_marked _ _ _ _ _ H1); by left).
        congruence. }
    cbn. rewrite posts_app, pres_app. cbn. split_and!.
    + apply NoDup_app. split_and!; [done| |].
      * intros x Hx [->|Hx2]%elem_of_cons; [done|]. by apply Hold in Hx2 as [??].
      * apply NoDup_cons. split; [|done]. intros Hx. by apply Hold in Hx as [??].
    + intros x [Hx|[->|Hx]%elem_of_cons]%elem_of_app; [|done|].
      * pose proof (Hf1 _ Hx) as Hy.
        destruct (decide (x = n)) as [->|Hne]; [congruence|]. by rewrite list_lookup_insert_ne in Hy.
      * pose proof (Hf2 _ Hx) as Hy. apply Hold in Hx as [Hx1 Hxn].
        destruct (V !! x) as [[]|] eqn:E; [|done|].
        -- assert (V1 !! x = Some true); [|congruence].
           apply (dfs_marked _ _ _ _ _ H1). left. by rewrite list_lookup_insert_ne by done.
        -- apply lookup_ge_None in E. apply lookup_lt_Some in Hy.
           rewrite (dfs_length _ _ _ _ _ H1), length_insert in Hy. lia.
    + rewrite Hp1, Hp2. apply Permutation_middle.
  - done.
Qed.

(** The links that were looked at lead to marked nodes, and so do all links of the new
    nodes. *)
Lemma dfs_closed V u l V' es : dfs V u l V' es ->
  (forall y, y ∈ l -> marked V' y) /\
  (forall x y, x ∈ posts es -> step x y -> marked V' y).
Proof.
  induction 1 as [V u|V u n l V1 V2 es1 es2 Hn H1 [Hl1 Hc1] H2 [Hl2 Hc2]|V u n l V2 es2 Hn H2 [Hl Hc]].
  - split; [by intros y ?%elem_of_nil|]. by intros x y ?%elem_of_nil.
  - assert (Hup : forall y, V1 !! y = Some true -> V2 !! y = Some true)
      by (intros y Hy; apply (dfs_marked _ _ _ _ _ H2); by left).
    split.
    + intros y [->|Hy]%elem_of_cons; [|by apply Hl2]. apply Hup, (dfs_marked _ _ _ _ _ H1). left.
      apply list_lookup_insert_eq. by eapply lookup_lt_Some.
    + cbn. rewrite posts_app. intros x y [Hx|[->|Hx]%elem_of_cons]%elem_of_app Hs.
      * by eapply Hup, Hc1.
      * by apply Hup, Hl1.
      * by eapply Hc2.
  - split; [|done]. intros y [->|Hy]%elem_of_cons; [|by apply Hl].
    apply (dfs_marked _ _ _ _ _ H2). by left.
Qed.

(** Every new node is reached from a link. *)
Lemma dfs_reach V u l V' es : dfs V u l V' es ->
  forall x, x ∈ posts es -> exists n, n ∈ l /\ rtc step n x.
Proof.
  induction 1 as [V u|V u n l V1 V2 es1 es2 Hn H1 IH1 H2 IH2|V u n l V2 es2 Hn H2 IH]; intros x; cbn.
  - by intros ?%elem_of_nil.
  - rewrite posts_app. intros [Hx|[->|Hx]%elem_of_cons]%elem_of_app.
    + destruct (IH1 _ Hx) as (m&Hm&Hr). exists n. split; [by left|]. by eapply rtc_l.
    + exists n. split; [by left|done].
    + destruct (IH2 _ Hx) as (m&Hm&Hr). exists m. split; [by right|done].
  - intros Hx. destruct (IH _ Hx) as (m&Hm&Hr). exists m. split; [by right|done].
Qed.

(** A new node is a link of [u], or a link of a node that is finished later. *)
Lemma dfs_parent V u l V' es : dfs V u l V' es ->
  forall a x b, posts es = a ++ x :: b -> x ∈ l \/ exists p, p ∈ b /\ step p x.
Proof.
  induction 1 as [V u|V u n l V1 V2 es1 es2 Hn H1 IH1 H2 IH2|V u n l V2 es2 Hn H2 IH]; intros a x b; cbn.
  - by destruct a.
  - rewrite posts_app. cbn. intros E.
    apply app_eq_inv in E as [(k&E1&E2)|(k&E1&E2)].
    + destruct k as [|y k]; cbn in E2; simplify_eq; [left; by left|].
      destruct (IH1 _ _ _ E1) as [?|(p&Hp&Hs)].
      * right. exists n. split; [|done]. apply elem_of_app. right. by left.
      * right. exists p. split; [|done]. apply elem_of_app. by left.
    + destruct k as [|y k]; cbn in E2; injection E2 as <- E2; [left; by left|].
      destruct (IH2 _ _ _ E2) as [?|?]; [left; by right|by right].
  - intros E. destruct (IH _ _ _ E) as [?|?]; [left; by right|by right].
Qed.

(** Before a node is finished all its links are, except those that lead back to a node
    that was marked before or to one from which the node itself is reached. *)
Lemma dfs_finished V u l V' es : dfs V u l V' es ->
  forall a x b y, posts es = a ++ x :: b -> step x y ->
  marked V y \/ y ∈ a \/ rtc step y x.
Proof.
  induction 1 as [V u|V u n l V1 V2 es1 es2 Hn H1 IH1 H2 IH2|V u n l V2 es2 Hn H2 IH]; intros a x b y; cbn.
  - by destruct a.
  - rewrite posts_app. cbn. intros E Hs.
    assert (Hone : (<[n := true]> V) !! y = Some true -> V !! y = Some true \/ y = n).
    { destruct (decide (y = n)); [by right|]. rewrite list_lookup_insert_ne by done. by left. }
    assert (Hx1 : forall x0 a0 b0, posts es1 = a0 ++ x0 :: b0 -> rtc step n x0).
    { intros x0 a0 b0 E0. destruct (dfs_reach _ _ _ _ _ H1 x0) as (m&Hm&Hr); [|by eapply rtc_l].
      rewrite E0. apply elem_of_app. right. by left. }
    apply app_eq_inv in E as [(k&E1&E2)|(k&E1&E2)].
    + destruct k as [|z k]; cbn in E2; simplify_eq.
      * rewrite app_nil_r in E1. subst a.
        pose proof (proj1 (dfs_closed _ _ _ _ _ H1) y Hs) as Hy.
        apply (dfs_marked _ _ _ _ _ H1) in Hy as [[?| ->]%Hone|Hy]; auto using rtc_refl.
      * destruct (IH1 _ _ _ y E1 Hs) as [[?| ->]%Hone|[?|?]]; eauto.
    + destruct k as [|z k]; cbn in E2; injection E2 as <- E2; subst a.
      * rewrite app_nil_r.
        pose proof (proj1 (dfs_closed _ _ _ _ _ H1) y Hs) as Hy.
        apply (dfs_marked _ _ _ _ _ H1) in Hy as [[?| ->]%Hone|Hy]; auto using rtc_refl.
      * destruct (IH2 _ _ _ y E2 Hs) as [Hy|[Hy|Hy]].
        -- apply (dfs_marked _ _ _ _ _ H1) in Hy as [[?| ->]%Hone|Hy];
             [by left|right; left..]; rewrite elem_of_app; [right; by left|by left].
        -- right; left. rewrite elem_of_app. right. by right.
        -- auto.
  - eauto.
Qed.

End Search.

(** ** The walkers run their visitor over the events of a search *)

Fixpoint unvisited (V : list bool) : nat :=
  match V with [] => 0 | b :: V => (if b then 0 else 1) + unvisited V end%nat.

Lemma unvisited_insert V n : V !! n = Some false -> S (unvisited (<[n := true]> V)) = unvisited V.
Proof.
  revert n. induction V as [|b V IH]; intros [|n] H; cbn in *; simplify_eq; [done|].
  rewrite <- (IH n H). by destruct b.
Qed.

Lemma unvisited_length V : (unvisited V <= length V)%nat.
Proof. induction V as [|[] V]; cbn; lia. Qed.

Lemma dfs_unvisited ls V u l V' es : dfs ls V u l V' es -> (unvisited V' <= unvisited V)%nat.
Proof.
  induction 1 as [|V u n l V1 V2 es1 es2 Hn _ IH1 _ IH2|]; [done| |done].
  apply unvisited_insert in Hn. lia.
Qed.

Section Walk.
Context {G : Type} `{GraphBase G} (graph : G) `{!GraphLaws graph}.
Variable dir : Z.

Definition on_event {S} `{Walker S} (e : event) (s : S) : res S :=
  match e with
  | Pre x => w_preVisit x s
  | Post x => w_postVisit (links graph dir x) x s
  | Late x y => w_lateVisit x y s
  end.

Fixpoint run {S} `{Walker S} (es : list event) (s : S) : res S :=
  match es with [] => Ok s | e :: es => s ← on_event e s; run es s end.

Lemma run_app {S} `{Walker S} es es' s : run (es ++ es') s = (s ← run es s; run es' s).
Proof.
  revert s. induction es as [|e es IH]; intros s; [done|]. cbn [app run].
  destruct (on_event e s); [apply IH|done].
Qed.

Lemma links_lt x : (x < getCount graph)%nat ->
  getLinks graph x dir = Ok (links graph dir x) /\
  Forall (fun y => y < getCount graph)%nat (links graph dir x).
Proof. intros (l&E&Hl)%(links_ok dir). unfold links. by rewrite E. Qed.

(** What a search does to a walker in any state. *)
Definition walks_as (V : list bool) (V' : list bool) (es : list event)
    (go : forall S, Walker S -> list bool * S -> res (list bool * S)) : Prop :=
  forall S (W : Walker S) (s : S), go S W (V, s) = (s ← run es s; Ok (V', s)).

Lemma walkLinks_events fuel id l V :
  length V = getCount graph -> Forall (fun y => y < getCount graph)%nat l ->
  (unvisited V <= fuel)%nat ->
  exists V' es, dfs (links graph dir) V id l V' es /\
    walks_as V V' es (fun S W =>
      DFSWalkerBase.walkLinks (DFSWalkerBase.walkHelper graph dir fuel) id l).
Proof.
  revert id l V. induction fuel as [|fuel IHf]; intros id l V HV Hl; revert V HV;
    (induction Hl as [|n l Hn Hl IH]; intros V HV Hf; [by exists V, []; split; [constructor|]|]).
  all: destruct (lookup_lt_is_Some_2 V n) as [[] EV]; [lia|..].
  all: try (destruct (IH V HV Hf) as (V'&es&Hd&Hw);
    exists V', (Late id n :: es); split; [by constructor|];
    intros S W s; cbn [DFSWalkerBase.walkLinks run on_event fst snd]; rewrite EV;
    destruct (w_lateVisit id n s); [apply Hw|done]).
  { apply unvisited_insert in EV. lia. }
  pose proof (unvisited_insert _ _ EV) as Hu. destruct (links_lt n Hn) as [El Hll].
  destruct (IHf n (links graph dir n) (<[n := true]> V)) as (V1&es1&Hd1&Hw1);
    [by rewrite length_insert|done|lia|].
  pose proof (dfs_unvisited _ _ _ _ _ _ Hd1). pose proof (dfs_length _ _ _ _ _ _ Hd1) as HL.
  rewrite length_insert in HL.
  destruct (IH V1) as (V2&es2&Hd2&Hw2); [congruence|lia|].
  exists V2, (Pre n :: es1 ++ Post n :: es2). split; [by econstructor|].
  intros S W s. cbn [DFSWalkerBase.walkLinks DFSWalkerBase.walkHelper run on_event fst snd].
  rewrite EV, (proj2 (Nat.ltb_lt _ _)) by lia.
  destruct (w_preVisit n s) as [s1|]; [|done]. cbn [mbind res_bind]. rewrite El, run_app.
  cbn [mbind res_bind]. rewrite (Hw1 S W s1). destruct (run es1 s1) as [s2|]; [|done].
  cbn [mbind res_bind fst snd run on_event].
  destruct (w_postVisit (links graph dir n) n s2) as [s3|]; [|done]. apply (Hw2 S W s3).
Qed.

(** A walk from a node that is not visited yet. *)
Lemma walkHelper_events id V : length V = getCount graph -> V !! id = Some false ->
  exists V' es, dfs (links graph dir) V id [id] V' es /\
    walks_as V V' es (fun S W => DFSWalkerBase.walkHelper graph dir (DFSWalkerBase.fuel graph) id).
Proof.
  intros HV EV. pose proof (lookup_lt_Some _ _ _ EV) as Hid.
  pose proof (unvisited_length V). pose proof (unvisited_insert _ _ EV).
  destruct (walkLinks_events (DFSWalkerBase.fuel graph) id [id] V HV) as (V'&es&Hd&Hw);
    [by repeat constructor; lia|unfold DFSWalkerBase.fuel; lia|].
  exists V', es. split; [done|]. intros S W s. rewrite <- (Hw S W s).
  cbn [DFSWalkerBase.walkLinks fst]. rewrite EV. by destruct (DFSWalkerBase.walkHelper _ _ _ _ _).
Qed.
End Walk.

(** ** Searches that start with no node visited *)

Section Fresh.
Variable ls : nat -> list nat.
Variable count : nat.
Variables (r : nat) (V' : list bool) (es : list event).
Hypothesis Hd : dfs ls (replicate count false) r [r] V' es.

Lemma fresh_unmarked x : replicate count false !! x <> Some true.
Proof. intros [? _]%lookup_replicate. done. Qed.

Lemma fresh_reach x : x ∈ posts es <-> rtc (step ls) r x.
Proof.
  split.
  - intros (n & ->%list_elem_of_singleton & Hr)%(dfs_reach _ _ _ _ _ _ Hd). done.
  - destruct (dfs_closed _ _ _ _ _ _ Hd) as [Hl Hc].
    assert (Hm : forall y, V' !! y = Some true -> y ∈ posts es).
    { intros y [Hy|Hy]%(dfs_marked _ _ _ _ _ _ Hd); [|done]. by apply fresh_unmarked in Hy. }
    assert (Hr : r ∈ posts es) by (apply Hm, Hl; by left).
    assert (Hcl : forall a b, rtc (step ls) a b -> a ∈ posts es -> b ∈ posts es).
    { induction 1 as [|a b c Hs _ IH]; [done|]. intros Ha. by eapply IH, Hm, Hc. }
    eauto.
Qed.

Lemma fresh_NoDup : NoDup (posts es).
Proof. by apply (dfs_fresh _ _ _ _ _ _ Hd). Qed.

Lemma fresh_lt x : x ∈ posts es -> (x < count)%nat.
Proof.
  intros Hx%(proj1 (proj2 (dfs_fresh _ _ _ _ _ _ Hd))). apply lookup_lt_Some in Hx.
  by rewrite length_replicate in Hx.
Qed.

(** The first node is finished last. *)
Lemma fresh_shape : exists es1, es = Pre r :: es1 ++ [Post r].
Proof.
  inversion Hd as [|V u n l V1 V2 es1 es2 Hn H1 H2|V u n l V2 es2 Hn]; subst.
  - inversion H2; subst. by exists es1.
  - by apply fresh_unmarked in Hn.
Qed.

Lemma fresh_parent a x b : posts es = a ++ x :: b -> x = r \/ exists p, p ∈ b /\ step ls p x.
Proof. intros [->%list_elem_of_singleton|?]%(dfs_parent _ _ _ _ _ _ Hd); auto. Qed.

Lemma fresh_finished a x b y : posts es = a ++ x :: b -> step ls x y ->
  y ∈ a \/ rtc (step ls) y x.
Proof.
  intros E Hs. destruct (dfs_finished _ _ _ _ _ _ Hd _ _ _ _ E Hs) as [Hy|Hy]; [|done].
  by apply fresh_unmarked in Hy.
Qed.
End Fresh.

(** ** The orders *)

Section NodeOrders.
Context {G : Type} `{GraphBase G} (graph : G) `{!GraphLaws graph}.
Variable dir : Z.

Definition collect (v : VisitType) (o : list nat) (e : event) : list nat :=
  match e with Pre x => preVisit v o x | Post x => postVisit v o x | Late _ _ => o end.

Lemma run_nodes v f es done o :
  @run _ _ graph dir _ (NodeCollection.walker v f) es (NodeCollection.mk (done ++ [o]) (length done))
  = Ok (NodeCollection.mk (done ++ [foldl (collect v) o es]) (length done)).
Proof.
  assert (Hlap : forall o g, NodeCollection.at_lap g (NodeCollection.mk (done ++ [o]) (length done))
    = Ok (NodeCollection.mk (done ++ [g o]) (length done))).
  { intros o' g. unfold NodeCollection.at_lap. cbn.
    by rewrite list_lookup_middle, insert_app_r_alt, Nat.sub_diag by done. }
  revert o. induction es as [|[x|x|x y] es IH]; intros o; [done|..];
    cbn [run on_event foldl collect NodeCollection.walker w_preVisit w_postVisit w_lateVisit];
    unfold NodeCollection.pre_visit, NodeCollection.post_visit, NodeCollection.late_visit;
    rewrite ?Hlap; apply IH.
Qed.

Lemma gen_nodes_dfs id : (id < getCount graph)%nat -> exists V' es,
  dfs (links graph dir) (replicate (getCount graph) false) id [id] V' es /\
  forall v f, gen_nodes graph dir v f id = Ok [@finish f nat (foldl (collect v) [] es)].
Proof.
  intros Hid.
  destruct (walkHelper_events graph dir id (replicate (getCount graph) false)) as (V'&es&Hd&Hw);
    [apply length_replicate|by apply lookup_replicate_2|].
  exists V', es. split; [done|]. intros v f.
  unfold gen_nodes, DFSWalkerBase.walk, DFSWalkerBase.start.
  rewrite (Hw _ (NodeCollection.walker v f)).
  change (w_reset _) with (NodeCollection.mk ([] ++ [[]]) (length (@nil (list nat)))).
  by rewrite run_nodes.
Qed.

Lemma collect_pre es o : foldl (collect PreorderVisitor) o es = o ++ pres es.
Proof.
  revert o. induction es as [|[] es IH]; intros o; cbn; rewrite ?app_nil_r, ?IH; [done|..];
    by rewrite <- ?app_assoc.
Qed.
Lemma collect_post es o : foldl (collect PostorderVisitor) o es = o ++ posts es.
Proof.
  revert o. induction es as [|[] es IH]; intros o; cbn; rewrite ?app_nil_r, ?IH; [done|..];
    by rewrite <- ?app_assoc.
Qed.
Lemma collect_prepost es o : foldl (collect PrePostorderVisitor) o es = o ++ visits es.
Proof.
  revert o. induction es as [|[] es IH]; intros o; cbn; rewrite ?app_nil_r, ?IH; [done|..];
    by rewrite <- ?app_assoc.
Qed.
End NodeOrders.

Lemma search_spec dest l : search dest l = true <-> dest ∈ l.
Proof.
  induction l as [|n l IH]; cbn; [by rewrite elem_of_nil|]. rewrite elem_of_cons.
  destruct (Nat.eqb_spec n dest) as [->|Hne]; [tauto|]. rewrite IH. intuition congruence.
Qed.
