(* ===== verification/ControlFlow.v ===== *)
(** * Control flow graphs: src/analysis/controlflow.h and controlflow.cpp

    One node per block of a function; the links of a block come from its last
    instruction (a jump, a jump table) and from falling through to the next block.  Every
    link is recorded at both ends.  The graph implements the interface [GraphBase] and
    satisfies its laws, so the walks and the dominators apply to it. *)

From S2P Require Import Prelude ChunkList Graph GraphProofs.

(** The build-time choice of an architecture. *)
Inductive Arch := ARCH_X86_64 | ARCH_AARCH64 | ARCH_RISCV.

(** ** What the construction asks of a function *)

(** The target of a link: a block, an instruction with its parent ([None] when that is
    not a block), or another chunk. *)
Inductive TargetView :=
| TargetBlock (block : ptr)
| TargetInstruction (parent : option ptr)
| TargetOther.
Record LinkView := mkLinkView {
  getTarget : option TargetView;
  getTargetAddress : Z }.

(** The classes of instruction semantics that the construction tells apart.  A jump table
    is the list of the links of its entries, [None] for one that is not a [NormalLink]. *)
Inductive SemanticView :=
| ControlFlowInstruction (mnemonic : string) (returns : bool)
| IndirectJumpInstruction (mnemonic : string) (jumpTables : list (list (option LinkView)))
| ReturnInstruction
| BreakInstruction
| OtherSemantic.

Record InstructionView := mkInstructionView {
  i_semantic : SemanticView;
  i_link : option LinkView;
  i_address : Z }.

(** A block: its address and its last instruction, if it has one. *)
Record BlockView := mkBlockView {
  b_block : ptr;
  b_address : Z;
  b_last : option InstructionView }.
Abbreviation FunctionView := (list BlockView).

(** ** Nodes and links *)

Record ControlFlowLink := mkLink {
  getTargetID : nat;
  getOffset : Z;          (* an [int] *)
  getFollowJump : bool }.

Record ControlFlowNode := mkNode {
  getID : nat;
  getBlock : ptr;
  forwardLinks : list ControlFlowLink;
  backwardLinks : list ControlFlowLink }.

Record ControlFlowGraph := mkGraph {
  graph : list ControlFlowNode;
  blockMapping : gmap ptr nat }.

Definition addLink (link : ControlFlowLink) (n : ControlFlowNode) : ControlFlowNode :=
  mkNode (getID n) (getBlock n) (forwardLinks n ++ [link]) (backwardLinks n).
Definition addReverseLink (link : ControlFlowLink) (n : ControlFlowNode) : ControlFlowNode :=
  mkNode (getID n) (getBlock n) (forwardLinks n) (backwardLinks n ++ [link]).
Definition node_links (n : ControlFlowNode) (direction : Z) : list ControlFlowLink :=
  if 0 <? direction then forwardLinks n else backwardLinks n.

#[export] Instance cfg_base : GraphBase ControlFlowGraph := {|
  Graph.getCount g := length (graph g);
  getLinks g id direction :=
    n ← vec_at (graph g) id; Ok (map getTargetID (node_links n direction)) |}.

(** An address difference as the [int] that a link stores. *)
Definition offset_of (a b : Z) : Z := swrap 32 (sub64 a b).

Section Construct.
Variable arch : Arch.
Variable function : FunctionView.

(** [graph[id].method(link)] *)
Definition at_node (id : nat) (f : ControlFlowNode -> ControlFlowNode) (g : ControlFlowGraph) :
    res ControlFlowGraph :=
  n ← vec_at (graph g) id;
  Ok (mkGraph (<[id := f n]> (graph g)) (blockMapping g)).

(** A link from [id] to [other] and its reverse, which holds the offset of the last
    instruction [i] in its block. *)
Definition add_links (b : BlockView) (i : InstructionView) (id other : nat) (offset : Z)
    (followJump : bool) (g : ControlFlowGraph) : res ControlFlowGraph :=
  g ← at_node id (addLink (mkLink other offset followJump)) g;
  at_node other (addReverseLink (mkLink id (offset_of (i_address i) (b_address b)) followJump)) g.

Definition mnemonic_in (m : string) (l : list string) : bool := bool_decide (m ∈ l).

(** Does a [ControlFlowInstruction] fall through? *)
Definition falls_through (m : string) (returns : bool) : bool :=
  match arch with
  | ARCH_X86_64 =>
    if mnemonic_in m ["callq"] && negb returns then false else negb (mnemonic_in m ["jmp"])
  | ARCH_AARCH64 =>
    if mnemonic_in m ["bl"] && negb returns then false else negb (mnemonic_in m ["b"])
  | ARCH_RISCV =>
    if mnemonic_in m ["j"; "jr"; "c.j"; "c.jr"] then false
    else if mnemonic_in m ["jal"; "jalr"; "c.jal"; "c.jalr"] then returns
    else true
  end%string.
Definition is_call (m : string) : bool :=
  match arch with
  | ARCH_X86_64 => mnemonic_in m ["callq"]
  | ARCH_AARCH64 => mnemonic_in m ["bl"]
  | ARCH_RISCV => mnemonic_in m ["jalr"; "jal"]
  end%string.
Definition is_indirect_call (m : string) : bool :=
  match arch with
  | ARCH_X86_64 => mnemonic_in m ["callq"]
  | ARCH_AARCH64 => mnemonic_in m ["blr"]
  | ARCH_RISCV => mnemonic_in m ["jalr"]
  end%string.

Definition block_address (block : ptr) : res Z :=
  match list_find (fun b => b_block b = block) function with
  | Some (_, b) => Ok (b_address b)
  | None => Err Undefined
  end.

(** A link to an instruction, if its block is in this function. *)
Definition link_to_instruction (b : BlockView) (i : InstructionView) (id : nat) (link : LinkView)
    (parent : option ptr) (g : ControlFlowGraph) : res ControlFlowGraph :=
  match parent with
  | None => Ok g
  | Some p =>
    match blockMapping g !! p with
    | None => Ok g
    | Some parentID =>
      a ← block_address p;
      add_links b i id parentID (offset_of (getTargetAddress link) a) true g
    end
  end.

Definition jump_link (b : BlockView) (i : InstructionView) (id : nat) (link : LinkView)
    (g : ControlFlowGraph) : res ControlFlowGraph :=
  match getTarget link with
  | Some (TargetBlock v) =>
    match blockMapping g !! v with
    | None => Err AssertFail
    | Some other =>
      g ← add_links b i id other 0 true g;
      match arch with
      | ARCH_AARCH64 => Err (Throw "this case breaks splitbasicblock pass")
      | _ => Ok g
      end
    end
  | Some (TargetInstruction parent) => link_to_instruction b i id link parent g
  | Some TargetOther | None => Ok g
  end.

(** The entries of a jump table; [added] holds the target addresses seen so far. *)
Fixpoint table_links (b : BlockView) (i : InstructionView) (id : nat)
    (entries : list (option LinkView)) (added : gset Z) (g : ControlFlowGraph) :
    res ControlFlowGraph :=
  match entries with
  | [] => Ok g
  | entry :: entries =>
    match entry with
    | None => table_links b i id entries added g
    | Some link =>
      match getTarget link with
      | None => table_links b i id entries added g
      | Some target =>
        if decide (getTargetAddress link ∈ added) then table_links b i id entries added g
        else
          g ← (match target with
               | TargetInstruction parent => link_to_instruction b i id link parent g
               | _ => Ok g
               end);
          table_links b i id entries ({[getTargetAddress link]} ∪ added) g
      end
    end
  end.

Fixpoint tables_links (b : BlockView) (i : InstructionView) (id : nat)
    (tables : list (list (option LinkView))) (g : ControlFlowGraph) : res ControlFlowGraph :=
  match tables with
  | [] => Ok g
  | jt :: tables => g ← table_links b i id jt ∅ g; tables_links b i id tables g
  end.

(** The link to the next block. *)
Definition fall_link (b : BlockView) (i : InstructionView) (id : nat) (g : ControlFlowGraph) :
    res ControlFlowGraph :=
  let list := map b_block function in
  let index := IterableChunkList.indexOf list (b_block b) in
  if add64 index 1 <? IterableChunkList.getCount list then
    next ← IterableChunkList.get list (add64 index 1);
    match blockMapping g !! next with
    | None => Err AssertFail
    | Some other => add_links b i id other 0 false g
    end
  else Ok g.

(** The links that the last instruction makes, and whether control falls through. *)
Definition instruction_links (b : BlockView) (i : InstructionView) (id : nat)
    (g : ControlFlowGraph) : res (bool * ControlFlowGraph) :=
  match i_semantic i with
  | ControlFlowInstruction m returns =>
    g ← (match i_link i with
         | Some link => if is_call m then Ok g else jump_link b i id link g
         | None => Ok g
         end);
    Ok (falls_through m returns, g)
  | IndirectJumpInstruction m tables =>
    if is_indirect_call m then Ok (true, g)
    else g ← tables_links b i id tables g; Ok (false, g)
  | ReturnInstruction | BreakInstruction => Ok (false, g)
  | OtherSemantic => Ok (true, g)
  end.

(** [ControlFlowGraph::construct] of a block. *)
Definition construct_block (b : BlockView) (g : ControlFlowGraph) : res ControlFlowGraph :=
  match blockMapping g !! b_block b with
  | None => Err AssertFail
  | Some id =>
    match b_last b with
    | None => Err NullDeref
    | Some i =>
      '(fallThrough, g) ← instruction_links b i id g;
      if (fallThrough : bool) then fall_link b i id g else Ok g
    end
  end.

Fixpoint construct_blocks (bs : list BlockView) (g : ControlFlowGraph) : res ControlFlowGraph :=
  match bs with
  | [] => Ok g
  | b :: bs => g ← construct_block b g; construct_blocks bs g
  end.

(** The first loop: a node and a number for every block. *)
Fixpoint number_blocks (bs : list BlockView) (g : ControlFlowGraph) : ControlFlowGraph :=
  match bs with
  | [] => g
  | b :: bs =>
    let count := length (graph g) in
    number_blocks bs (mkGraph (graph g ++ [mkNode count (b_block b) [] []])
                              (<[b_block b := count]> (blockMapping g)))
  end.

Definition construct : res ControlFlowGraph :=
  construct_blocks function (number_blocks function (mkGraph [] ∅)).

(** [blockMapping[block]] enters the number 0 for a block that is not in the map. *)
Definition getIDFor (g : ControlFlowGraph) (block : ptr) : nat * ControlFlowGraph :=
  match blockMapping g !! block with
  | Some id => (id, g)
  | None => (0%nat, mkGraph (graph g) (<[block := 0%nat]> (blockMapping g)))
  end.
End Construct.
