(* ===== verification/ControlFlowProofs.v ===== *)
(** * Correctness of the control flow graphs of ControlFlow

    The construction succeeds on every function without empty blocks whose jumps to
    blocks stay in the function; its links are exactly the successors of the blocks, and
    every link is recorded at both ends. *)

From S2P Require Import Prelude ChunkList Graph GraphProofs ControlFlow.

(** ** The targets of the links of a node *)

Definition out (g : ControlFlowGraph) (x : nat) : list nat :=
  match graph g !! x with Some n => map getTargetID (forwardLinks n) | None => [] end.
Definition inn (g : ControlFlowGraph) (x : nat) : list nat :=
  match graph g !! x with Some n => map getTargetID (backwardLinks n) | None => [] end.

(** [g'] is [g] with links from [id] to [es], recorded at both ends. *)
Record extends (id : nat) (g g' : ControlFlowGraph) (es : list nat) : Prop := {
  ext_length : length (graph g') = length (graph g);
  ext_mapping : blockMapping g' = blockMapping g;
  ext_range : Forall (fun y => y < length (graph g))%nat es;
  ext_out x : out g' x = if decide (x = id) then out g x ++ es else out g x;
  ext_inn x : inn g' x = inn g x ++ replicate (count_occ Nat.eq_dec es x) id }.

Lemma extends_nil id g : extends id g g [].
Proof. split; try done. - intros x. rewrite app_nil_r. by case_decide. - intros x. by rewrite app_nil_r. Qed.

Lemma extends_app id g g1 g2 es1 es2 : extends id g g1 es1 -> extends id g1 g2 es2 ->
  extends id g g2 (es1 ++ es2).
Proof.
  intros [L1 M1 R1 O1 I1] [L2 M2 R2 O2 I2]. split.
  - congruence.
  - congruence.
  - rewrite L1 in R2. by apply Forall_app.
  - intros x. rewrite O2, O1. case_decide; [by rewrite app_assoc|done].
  - intros x. rewrite I2, I1, count_occ_app, replicate_add. by rewrite app_assoc.
Qed.

Lemma out_insert g id n x : (id < length (graph g))%nat ->
  out (mkGraph (<[id := n]> (graph g)) (blockMapping g)) x =
    if decide (x = id) then map getTargetID (forwardLinks n) else out g x.
Proof.
  intros Hid. unfold out. cbn. destruct (decide (x = id)) as [->|Hne].
  - by rewrite list_lookup_insert_eq.
  - by rewrite list_lookup_insert_ne.
Qed.

Lemma inn_insert g id n x : (id < length (graph g))%nat ->
  inn (mkGraph (<[id := n]> (graph g)) (blockMapping g)) x =
    if decide (x = id) then map getTargetID (backwardLinks n) else inn g x.
Proof.
  intros Hid. unfold inn. cbn. destruct (decide (x = id)) as [->|Hne].
  - by rewrite list_lookup_insert_eq.
  - by rewrite list_lookup_insert_ne.
Qed.

Lemma add_links_extends b i id other offset follow g :
  (id < length (graph g))%nat -> (other < length (graph g))%nat ->
  exists g', add_links b i id other offset follow g = Ok g' /\ extends id g g' [other].
Proof.
  intros Hid Hother. unfold add_links, at_node.
  destruct (lookup_lt_is_Some_2 _ _ Hid) as [n En]. rewrite (vec_at_Some _ _ _ En).
  cbn [mbind res_bind]. set (g1 := mkGraph _ _).
  assert (Hl1 : length (graph g1) = length (graph g)) by apply length_insert.
  assert (Ho1 : forall x, out g1 x = if decide (x = id) then out g x ++ [other] else out g x).
  { intros x. unfold g1. rewrite out_insert by done. case_decide; [|done]. subst x.
    unfold out. rewrite En. cbn. by rewrite map_app. }
  assert (Hi1 : forall x, inn g1 x = inn g x).
  { intros x. unfold g1. rewrite inn_insert by done. case_decide; [|done]. subst x.
    unfold inn. by rewrite En. }
  destruct (lookup_lt_is_Some_2 (graph g1) other) as [n' En']; [by rewrite Hl1|].
  rewrite (vec_at_Some _ _ _ En'). cbn [mbind res_bind]. eexists. split; [done|].
  assert (Hot : (other < length (graph g1))%nat) by by rewrite Hl1.
  split.
  - cbn. by rewrite length_insert.
  - done.
  - by repeat constructor.
  - intros x. rewrite out_insert, <- Ho1 by done. case_decide; [|done]. subst x.
    unfold out at 1. by rewrite En'.
  - intros x. rewrite inn_insert, <- Hi1 by done. cbn. destruct (decide (x = other)) as [->|Hne].
    + unfold inn at 1. rewrite En'. cbn. rewrite map_app.
      by destruct (Nat.eq_dec other other).
    + destruct (Nat.eq_dec other x); [by subst|]. by rewrite app_nil_r.
Qed.

(** ** The specification *)

Section Function.
Variable arch : Arch.
Variable function : FunctionView.

(** The number of a block. *)
Definition position (p : ptr) : option nat :=
  fst <$> list_find (fun b => b_block b = p) function.

Definition target_position (t : TargetView) : option nat :=
  match t with
  | TargetBlock v => position v
  | TargetInstruction (Some p) => position p
  | _ => None
  end.

(** The control may pass to the block that comes next. *)
Definition falls (i : InstructionView) : bool :=
  match i_semantic i with
  | ControlFlowInstruction m returns => falls_through arch m returns
  | IndirectJumpInstruction m _ => is_indirect_call arch m
  | ReturnInstruction | BreakInstruction => false
  | OtherSemantic => true
  end.

(** The entry [k] of a jump table is the first with its target address. *)
Definition first_entry (entries : list (option LinkView)) (k : nat) (link : LinkView) : Prop :=
  entries !! k = Some (Some link) /\
  forall k' link', (k' < k)%nat -> entries !! k' = Some (Some link') -> getTarget link' <> None ->
    getTargetAddress link' <> getTargetAddress link.

Inductive successor (n : nat) (b : BlockView) (j : nat) : Prop :=
| succ_jump i m returns link t : b_last b = Some i ->
    i_semantic i = ControlFlowInstruction m returns -> is_call arch m = false ->
    i_link i = Some link -> getTarget link = Some t -> target_position t = Some j -> successor n b j
| succ_table i m tables entries k link p : b_last b = Some i ->
    i_semantic i = IndirectJumpInstruction m tables -> is_indirect_call arch m = false ->
    entries ∈ tables -> first_entry entries k link ->
    getTarget link = Some (TargetInstruction (Some p)) -> position p = Some j -> successor n b j
| succ_fall i : b_last b = Some i -> falls i = true -> (S n < length function)%nat -> j = S n ->
    successor n b j.

(** What the assertions of the code ask of a block. *)
Definition constructible (b : BlockView) : Prop := exists i, b_last b = Some i /\
  forall m returns link v, i_semantic i = ControlFlowInstruction m returns -> is_call arch m = false ->
    i_link i = Some link -> getTarget link = Some (TargetBlock v) ->
    is_Some (position v) /\ arch <> ARCH_AARCH64.

Hypothesis Hdistinct : NoDup (map b_block function).
Hypothesis Hsize : size_ok (map b_block function).

Lemma position_spec p j : position p = Some j <->
  exists b, function !! j = Some b /\ b_block b = p.
Proof.
  unfold position. split.
  - destruct (list_find _ function) as [[k b]|] eqn:E; [|done]. cbn. intros [= <-].
    apply list_find_Some in E as (Hk&Hb&_). eauto.
  - intros (b&Hj&Hb). destruct (list_find _ function) as [[k b']|] eqn:E; cbn.
    + apply list_find_Some in E as (Hk&Hb'&_). f_equal.
      eapply (NoDup_lookup _ _ _ p Hdistinct); rewrite list_lookup_fmap; [rewrite Hk|rewrite Hj]; cbn; congruence.
    + apply list_find_None in E. rewrite Forall_forall in E. exfalso. apply (E b); [|done].
      by eapply list_elem_of_lookup_2.
Qed.

Lemma position_lt p j : position p = Some j -> (j < length function)%nat.
Proof. rewrite position_spec. intros (b&Hj&_). by eapply lookup_lt_Some. Qed.

Lemma block_address_Ok p j : position p = Some j -> exists a, block_address function p = Ok a.
Proof.
  unfold position, block_address. destruct (list_find _ function) as [[k b]|]; [|done]. eauto.
Qed.

(** A graph on the way: a node for every block, found by the map. *)
Definition numbered_graph (g : ControlFlowGraph) : Prop :=
  length (graph g) = length function /\ forall p, blockMapping g !! p = position p.

Lemma extends_numbered id g g' es : numbered_graph g -> extends id g g' es -> numbered_graph g'.
Proof. intros [Hl Hm] HE. split; [by rewrite (ext_length _ _ _ _ HE)|]. by rewrite (ext_mapping _ _ _ _ HE). Qed.

(** ** The operations *)

Lemma link_to_instruction_extends b i id link parent g : numbered_graph g ->
  (id < length function)%nat ->
  exists g' es, link_to_instruction function b i id link parent g = Ok g' /\ extends id g g' es /\
    forall j, j ∈ es <-> exists p, parent = Some p /\ position p = Some j.
Proof.
  intros [Hl Hm] Hid. unfold link_to_instruction. destruct parent as [p|].
  2:{ exists g, []. split_and!; [done|apply extends_nil|]. intros j.
      split; [by intros ?%elem_of_nil|naive_solver]. }
  rewrite Hm. destruct (position p) as [k|] eqn:Ep.
  2:{ exists g, []. split_and!; [done|apply extends_nil|]. intros j.
      split; [by intros ?%elem_of_nil|naive_solver]. }
  destruct (block_address_Ok p k Ep) as [a ->]. cbn [mbind res_bind].
  destruct (add_links_extends b i id k (offset_of (getTargetAddress link) a) true g) as (g'&Eg&HE);
    [by rewrite Hl|rewrite Hl; by eapply position_lt|].
  exists g', [k]. split_and!; [done..|]. intros j. rewrite list_elem_of_singleton. naive_solver.
Qed.

Lemma jump_link_extends b i id link g : numbered_graph g -> (id < length function)%nat ->
  (forall v, getTarget link = Some (TargetBlock v) -> is_Some (position v) /\ arch <> ARCH_AARCH64) ->
  exists g' es, jump_link arch function b i id link g = Ok g' /\ extends id g g' es /\
    forall j, j ∈ es <-> exists t, getTarget link = Some t /\ target_position t = Some j.
Proof.
  intros Hg Hid Hb. unfold jump_link. destruct (getTarget link) as [[v|parent|]|].
  - destruct (Hb v eq_refl) as [[k Hk] Ha]. rewrite (proj2 Hg), Hk.
    destruct (add_links_extends b i id k 0 true g) as (g'&->&HE);
      [by rewrite (proj1 Hg)|rewrite (proj1 Hg); by eapply position_lt|].
    cbn [mbind res_bind]. exists g', [k]. split_and!; [by destruct arch|done|].
    intros j. rewrite list_elem_of_singleton. cbn. naive_solver.
  - destruct (link_to_instruction_extends b i id link parent g Hg Hid) as (g'&es&E&HE&Hes).
    exists g', es. split_and!; [done..|]. intros j. rewrite Hes.
    split; [intros (p&->&?); eauto|intros (t&[= <-]&?); destruct parent; naive_solver].
  - exists g, []. split_and!; [done|apply extends_nil|]. intros j.
    split; [by intros ?%elem_of_nil|naive_solver].
  - exists g, []. split_and!; [done|apply extends_nil|]. intros j.
    split; [by intros ?%elem_of_nil|naive_solver].
Qed.

(** The entries of a table that are not skipped, given the addresses seen before. *)
Definition fresh_entry (added : gset Z) (entries : list (option LinkView)) (k : nat) (link : LinkView) : Prop :=
  first_entry entries k link /\ getTargetAddress link ∉ added.

Lemma fresh_entry_cons added e entries k link : fresh_entry added (e :: entries) k link <->
  match k with
  | O => e = Some link /\ getTargetAddress link ∉ added
  | S k => fresh_entry added entries k link /\
           forall link', e = Some link' -> getTarget link' <> None ->
             getTargetAddress link' <> getTargetAddress link
  end.
Proof.
  unfold fresh_entry, first_entry. destruct k as [|k]; cbn.
  - split; [naive_solver|]. intros [-> ?]. split_and!; [done| |done]. intros k' link' ?. lia.
  - split.
    + intros [[Hk Hf] Ha]. split; [split_and!; [done| |done]|].
      * intros k' link' Hlt. apply (Hf (S k')). lia.
      * intros link' -> Ht. by apply (Hf 0%nat link'); [lia| |].
    + intros [[[Hk Hf] Ha] He]. split_and!; [done| |done]. intros [|k'] link' Hlt; cbn.
      * intros [= ->]. by apply He.
      * apply Hf. lia.
Qed.

Lemma table_links_extends b i id entries added g : numbered_graph g -> (id < length function)%nat ->
  exists g' es, table_links function b i id entries added g = Ok g' /\ extends id g g' es /\
    forall j, j ∈ es <-> exists k link p, fresh_entry added entries k link /\
      getTarget link = Some (TargetInstruction (Some p)) /\ position p = Some j.
Proof.
  revert added g. induction entries as [|e entries IH]; intros added g Hg Hid; cbn [table_links].
  { exists g, []. split_and!; [done|apply extends_nil|]. intros j.
    split; [by intros ?%elem_of_nil|]. intros (k&link&p&[[Hk _] _]&_). done. }
  assert (Hskip : (forall link, e = Some link -> getTarget link = None \/ getTargetAddress link ∈ added) ->
    exists g' es, table_links function b i id entries added g = Ok g' /\ extends id g g' es /\
    forall j, j ∈ es <-> exists k link p, fresh_entry added (e :: entries) k link /\
      getTarget link = Some (TargetInstruction (Some p)) /\ position p = Some j).
  { intros Hs. destruct (IH added g Hg Hid) as (g'&es&E&HE&Hes). exists g', es.
    split_and!; [done..|]. intros j. rewrite Hes. split.
    - intros (k&link&p&Hf&Hp). exists (S k), link, p. split; [|done]. apply fresh_entry_cons.
      split; [done|]. intros link' He Ht Heq. destruct (Hs link' He) as [|Ha]; [done|].
      destruct Hf as [_ Hf]. congruence.
    - intros ([|k]&link&p&Hf&Ht&Hp); apply fresh_entry_cons in Hf as [Hf Hr].
      + destruct (Hs link Hf); [congruence|done].
      + by exists k, link, p. }
  destruct e as [link|]; [|by apply Hskip].
  destruct (getTarget link) as [t|] eqn:Et; [|apply Hskip; naive_solver].
  destruct (decide (getTargetAddress link ∈ added)) as [Ha|Ha]; [apply Hskip; naive_solver|].
  clear Hskip.
  assert (Hone : exists g1 es1, (match t with
      | TargetInstruction parent => link_to_instruction function b i id link parent g
      | _ => Ok g end) = Ok g1 /\ extends id g g1 es1 /\
      forall j, j ∈ es1 <-> exists p, t = TargetInstruction (Some p) /\ position p = Some j).
  { destruct t as [v|parent|]; [|destruct (link_to_instruction_extends b i id link parent g Hg Hid)
      as (g'&es&E&HE&Hes); exists g', es; split_and!; [done..|]; intros j; rewrite Hes; naive_solver|];
      (exists g, []; split_and!; [done|apply extends_nil|]; intros j;
       split; [by intros ?%elem_of_nil|naive_solver]). }
  destruct Hone as (g1&es1&->&HE1&Hes1). cbn [mbind res_bind].
  destruct (IH ({[getTargetAddress link]} ∪ added) g1) as (g2&es2&E2&HE2&Hes2);
    [by eapply extends_numbered|done|].
  exists g2, (es1 ++ es2). split_and!; [done|by eapply extends_app|].
  intros j. rewrite elem_of_app, Hes1, Hes2. split.
  - intros [(p&->&Hp)|(k&link'&p&[Hf Hn]&Ht&Hp)].
    + exists 0%nat, link, p. by rewrite fresh_entry_cons.
    + exists (S k), link', p. rewrite fresh_entry_cons.
      apply not_elem_of_union in Hn as [Hn1 Hn2]. rewrite not_elem_of_singleton in Hn1.
      split_and!; [by split|naive_solver|done..].
  - intros ([|k]&link'&p&Hf&Ht&Hp); apply fresh_entry_cons in Hf as [Hf Hr].
    + simplify_eq. left. eauto.
    + right. exists k, link', p. split; [|done]. destruct Hf as [Hf Hn]. split; [done|].
      apply not_elem_of_union. split; [|done]. rewrite not_elem_of_singleton.
      intros Heq. eapply Hr; [done| |by symmetry]. by rewrite Et.
Qed.

Lemma tables_links_extends b i id tables g : numbered_graph g -> (id < length function)%nat ->
  exists g' es, tables_links function b i id tables g = Ok g' /\ extends id g g' es /\
    forall j, j ∈ es <-> exists entries k link p, entries ∈ tables /\ first_entry entries k link /\
      getTarget link = Some (TargetInstruction (Some p)) /\ position p = Some j.
Proof.
  revert g. induction tables as [|jt tables IH]; intros g Hg Hid; cbn [tables_links].
  { exists g, []. split_and!; [done|apply extends_nil|]. intros j.
    split; [by intros ?%elem_of_nil|]. intros (entries&k&link&p&?%elem_of_nil&_). done. }
  destruct (table_links_extends b i id jt ∅ g Hg Hid) as (g1&es1&->&HE1&Hes1). cbn [mbind res_bind].
  destruct (IH g1) as (g2&es2&E2&HE2&Hes2); [by eapply extends_numbered|done|].
  exists g2, (es1 ++ es2). split_and!; [done|by eapply extends_app|].
  intros j. rewrite elem_of_app, Hes1, Hes2. split.
  - intros [(k&link&p&[Hf _]&?)|(entries&k&link&p&Hin&?)].
    + exists jt, k, link, p. split; [by left|done].
    + exists entries, k, link, p. split; [by right|done].
  - intros (entries&k&link&p&[->|Hin]%elem_of_cons&Hf&Ht).
    + left. exists k, link, p. split; [|done]. split; [done|apply not_elem_of_empty].
    + right. by exists entries, k, link, p.
Qed.

Lemma fall_link_extends b i n g : numbered_graph g -> function !! n = Some b ->
  exists g' es, fall_link function b i n g = Ok g' /\ extends n g g' es /\
    forall j, j ∈ es <-> (S n < length function)%nat /\ j = S n.
Proof.
  intros Hg Hn. unfold fall_link.
  assert (Hnp : map b_block function !! n = Some (b_block b)) by (rewrite list_lookup_fmap; by rewrite Hn).
  pose proof (lookup_lt_Some _ _ _ Hn) as Hlt.
  assert (Hix : IterableChunkList.indexOf (map b_block function) (b_block b) = Z.of_nat n).
  { destruct (indexOf_spec _ (b_block b) Hsize) as [[Hno _]|(pre&post&E&_&->)].
    - destruct Hno. by eapply list_elem_of_lookup_2.
    - f_equal. eapply (NoDup_lookup _ _ _ (b_block b) Hdistinct); [|done]. by rewrite E, list_lookup_middle. }
  unfold size_ok in Hsize. rewrite length_map in Hsize.
  assert (Hnp64 : IterableChunkList.npos = 2 ^ 64 - 1) by done.
  rewrite Hix. unfold IterableChunkList.getCount. rewrite add64_small, length_map by lia.
  destruct (Z.ltb_spec (Z.of_nat n + 1) (Z.of_nat (length function))) as [Hl|Hl].
  - destruct (lookup_lt_is_Some_2 function (S n)) as [b' Hb']; [lia|].
    assert (Hp : position (b_block b') = Some (S n)) by (apply position_spec; eauto).
    assert (Hget : IterableChunkList.get (map b_block function) (Z.of_nat n + 1) = Ok (b_block b')).
    { apply load_lookup. split; [lia|]. replace (Z.to_nat (Z.of_nat n + 1)) with (S n) by lia.
      rewrite list_lookup_fmap. by rewrite Hb'. }
    rewrite Hget. cbn [mbind res_bind]. rewrite (proj2 Hg), Hp.
    destruct (add_links_extends b i n (S n) 0 false g) as (g'&->&HE);
      [rewrite (proj1 Hg); lia|rewrite (proj1 Hg); lia|].
    exists g', [S n]. split_and!; [done..|]. intros j. rewrite list_elem_of_singleton. naive_solver lia.
  - exists g, []. split_and!; [done|apply extends_nil|]. intros j.
    split; [by intros ?%elem_of_nil|]. lia.
Qed.

(** The links of a block that its last instruction makes. *)
Definition jumps (b : BlockView) (i : InstructionView) (j : nat) : Prop :=
  match i_semantic i with
  | ControlFlowInstruction m _ => is_call arch m = false /\ exists link t,
      i_link i = Some link /\ getTarget link = Some t /\ target_position t = Some j
  | IndirectJumpInstruction m tables => is_indirect_call arch m = false /\
      exists entries k link p, entries ∈ tables /\ first_entry entries k link /\
        getTarget link = Some (TargetInstruction (Some p)) /\ position p = Some j
  | _ => False
  end.

Lemma successor_cases n b i j : b_last b = Some i ->
  successor n b j <-> jumps b i j \/ (falls i = true /\ (S n < length function)%nat /\ j = S n).
Proof.
  intros Hi. unfold jumps. split.
  - intros [i' m r link t Hl Es|i' m tables entries k link q Hl Es|i' Hl]; rewrite Hi in Hl; simplify_eq;
      [left; rewrite Es; by eauto 10|left; rewrite Es; by eauto 20|by right].
  - intros [Hj|(?&?&?)]; [|by eapply succ_fall].
    destruct (i_semantic i) as [m r|m tables| | |] eqn:Es; [..|done|done|done].
    + destruct Hj as (?&link&t&?&?&?). by eapply succ_jump.
    + destruct Hj as (?&entries&k&link&q&?&?&?&?). by eapply succ_table.
Qed.

Lemma instruction_links_extends b i n g : numbered_graph g -> (n < length function)%nat ->
  b_last b = Some i -> constructible b ->
  exists g' es, instruction_links arch function b i n g = Ok (falls i, g') /\ extends n g g' es /\
    forall j, j ∈ es <-> jumps b i j.
Proof.
  intros Hg Hlt Hi (i'&Hi'&Hc). rewrite Hi in Hi'. injection Hi' as <-.
  unfold instruction_links, falls, jumps.
  assert (Hnone : forall Q : nat -> Prop, (forall j, ~ Q j) -> exists g' es,
    g = g' /\ extends n g g' es /\ forall j, j ∈ es <-> Q j).
  { intros Q HQ. exists g, []. split_and!; [done|apply extends_nil|]. intros j.
    split; [by intros ?%elem_of_nil|by intros ?%HQ]. }
  destruct (i_semantic i) as [m r|m tables| | |] eqn:Es.
  - destruct (i_link i) as [link|] eqn:El; [destruct (is_call arch m) eqn:Ec|].
    + destruct (Hnone (fun _ => False)) as (g'&es&<-&HE&Hes); [tauto|]. exists g, es.
      split_and!; [done..|]. intros j. rewrite Hes. naive_solver.
    + destruct (jump_link_extends b i n link g Hg Hlt) as (g1&es1&->&HE1&Hes); [by eauto|].
      exists g1, es1. split_and!; [done..|]. intros j. rewrite Hes.
      split; [intros (t&?&?); split; [done|]; by exists link, t|intros (_&link'&t&[= <-]&?&?); by exists t].
    + destruct (Hnone (fun _ => False)) as (g'&es&<-&HE&Hes); [tauto|]. exists g, es.
      split_and!; [done..|]. intros j. rewrite Hes. naive_solver.
  - destruct (is_indirect_call arch m) eqn:Ec.
    + destruct (Hnone (fun _ => False)) as (g'&es&<-&HE&Hes); [tauto|]. exists g, es.
      split_and!; [done..|]. intros j. rewrite Hes. naive_solver.
    + destruct (tables_links_extends b i n tables g Hg Hlt) as (g1&es1&->&HE1&Hes).
      exists g1, es1. split_and!; [done..|]. intros j. rewrite Hes. tauto.
  - destruct (Hnone (fun _ => False)) as (g'&es&<-&?); [tauto|]. by exists g, es.
  - destruct (Hnone (fun _ => False)) as (g'&es&<-&?); [tauto|]. by exists g, es.
  - destruct (Hnone (fun _ => False)) as (g'&es&<-&?); [tauto|]. by exists g, es.
Qed.

Lemma construct_block_extends b n g : numbered_graph g -> function !! n = Some b -> constructible b ->
  exists g' es, construct_block arch function b g = Ok g' /\ extends n g g' es /\
    forall j, j ∈ es <-> successor n b j.
Proof.
  intros Hg Hn Hc. pose proof (lookup_lt_Some _ _ _ Hn) as Hlt.
  assert (Hp : position (b_block b) = Some n) by (apply position_spec; eauto).
  pose proof Hc as (i&Hi&_). unfold construct_block. rewrite (proj2 Hg), Hp, Hi.
  destruct (instruction_links_extends b i n g Hg Hlt Hi Hc) as (g1&es1&->&HE1&Hs).
  cbn [mbind res_bind]. destruct (falls i) eqn:Ef.
  - destruct (fall_link_extends b i n g1) as (g2&es2&->&HE2&Hes); [by eapply extends_numbered|done|].
    exists g2, (es1 ++ es2). split_and!; [done|by eapply extends_app|].
    intros j. rewrite elem_of_app, Hes, Hs, (successor_cases n b i) by done. rewrite Ef. tauto.
  - exists g1, es1. split_and!; [done..|]. intros j. rewrite Hs, (successor_cases n b i) by done.
    rewrite Ef. intuition congruence.
Qed.

(** ** The whole construction *)

Lemma number_blocks_spec bs done g : function = done ++ bs ->
  length (graph g) = length done ->
  (forall p, blockMapping g !! p = fst <$> list_find (fun b => b_block b = p) done) ->
  (forall x, out g x = [] /\ inn g x = []) ->
  numbered_graph (number_blocks bs g) /\
  forall x, out (number_blocks bs g) x = [] /\ inn (number_blocks bs g) x = [].
Proof.
  revert done g. induction bs as [|b bs IH]; intros done g E Hl Hm He; cbn [number_blocks].
  - rewrite app_nil_r in E. subst done. by split.
  - apply (IH (done ++ [b])); [by rewrite <- app_assoc|cbn; rewrite !length_app; cbn; lia| |].
    + intros p. cbn [blockMapping]. rewrite Hl.
      assert (Hb : b_block b ∉ map b_block done).
      { rewrite E, map_app in Hdistinct. apply NoDup_app in Hdistinct as (_&Hd&_).
        intros Hin. apply (Hd _ Hin). by left. }
      destruct (decide (p = b_block b)) as [->|Hne].
      * rewrite lookup_insert_eq. symmetry. rewrite list_find_app_r; cbn.
        -- rewrite decide_True by done. cbn. f_equal; lia.
        -- apply list_find_None, Forall_forall. intros b' Hb' Heq. apply Hb. rewrite <- Heq.
           by apply list_elem_of_fmap_2.
      * rewrite lookup_insert_ne, Hm by done.
        destruct (list_find (fun b0 => b_block b0 = p) done) as [[k b']|] eqn:Ef.
        -- by rewrite (list_find_app_l _ _ _ _ _ Ef).
        -- rewrite list_find_app_r by done. cbn. by rewrite decide_False.
    + intros x. unfold out, inn. cbn [graph]. destruct (He x) as [Ho Hi]. unfold out, inn in Ho, Hi.
      destruct (graph g !! x) as [n|] eqn:En; [by rewrite (lookup_app_l_Some _ _ _ _ En)|].
      destruct ((graph g ++ [mkNode (length (graph g)) (b_block b) [] []]) !! x) as [n|] eqn:En'; [|done].
      apply lookup_app_Some in En' as [?|[_ [_ <-]%list_lookup_singleton_Some]]; [congruence|done].
Qed.

(** The first [k] blocks have their links. *)
Record built (k : nat) (g : ControlFlowGraph) : Prop := {
  bu_numbered : numbered_graph g;
  bu_done n b j : (n < k)%nat -> function !! n = Some b -> j ∈ out g n <-> successor n b j;
  bu_todo n : (k <= n)%nat -> out g n = [];
  bu_range n : Forall (fun y => y < length function)%nat (out g n);
  bu_sym x y : count_occ Nat.eq_dec (out g x) y = count_occ Nat.eq_dec (inn g y) x }.

Lemma count_occ_replicate n (id x : nat) :
  count_occ Nat.eq_dec (replicate n id) x = if decide (x = id) then n else 0%nat.
Proof.
  induction n as [|n IH]; cbn; [by case_decide|]. rewrite IH.
  destruct (Nat.eq_dec id x), (decide (x = id)); congruence.
Qed.

Lemma built_step k b g g' es : function !! k = Some b -> built k g -> extends k g g' es ->
  (forall j, j ∈ es <-> successor k b j) -> built (S k) g'.
Proof.
  intros Hk [Hg Hd Ht Hr Hs] HE Hes. split.
  - by eapply extends_numbered.
  - intros n b' j Hn Hb'. rewrite (ext_out _ _ _ _ HE). case_decide as Hnk.
    + subst n. rewrite Ht by lia. cbn. by simplify_eq.
    + apply Hd; [lia|done].
  - intros n Hn. rewrite (ext_out _ _ _ _ HE), decide_False by lia. apply Ht. lia.
  - intros n. rewrite (ext_out _ _ _ _ HE). case_decide; [|done]. apply Forall_app. split; [done|].
    rewrite <- (proj1 Hg). apply HE.
  - intros x y. rewrite (ext_out _ _ _ _ HE), (ext_inn _ _ _ _ HE), count_occ_app, count_occ_replicate.
    rewrite <- Hs. case_decide; [by rewrite count_occ_app|lia].
Qed.

Lemma construct_blocks_built bs k g : drop k function = bs -> built k g -> Forall constructible bs ->
  exists g', construct_blocks arch function bs g = Ok g' /\ built (length function) g'.
Proof.
  revert k g. induction bs as [|b bs IH]; intros k g E Hb Hc; cbn [construct_blocks].
  - exists g. split; [done|]. destruct Hb as [Hg Hd Ht Hr Hs].
    assert (Hlk : (length function <= k)%nat).
    { apply (f_equal length) in E. rewrite length_drop in E. cbn in E. lia. }
    split; [done| | |done..].
    + intros n b' j Hn Hb'. apply Hd; [lia|done].
    + intros n Hn. unfold out. by rewrite (proj2 (lookup_ge_None _ _)) by (rewrite (proj1 Hg); lia).
  - apply Forall_cons in Hc as [Hcb Hc].
    assert (Hk : function !! k = Some b).
    { rewrite <- (Nat.add_0_r k), <- lookup_drop, E. done. }
    destruct (construct_block_extends b k g (bu_numbered _ _ Hb) Hk Hcb) as (g1&es&->&HE&Hes).
    cbn [mbind res_bind]. apply (IH (S k)); [|by eapply built_step|done].
    replace (S k) with (k + 1)%nat by lia. by rewrite <- drop_drop, E.
Qed.

Lemma construct_built : Forall constructible function ->
  exists g, construct arch function = Ok g /\ built (length function) g.
Proof.
  intros Hc. unfold construct.
  destruct (number_blocks_spec function [] (mkGraph [] ∅)) as [Hg He]; [done..|].
  apply (construct_blocks_built _ 0%nat); [done| |done]. split; [done|lia| | |].
  - intros n _. apply He.
  - intros n. by rewrite (proj1 (He n)).
  - intros x y. by rewrite (proj1 (He x)), (proj2 (He y)).
Qed.

(** ** The graph implements the interface *)

Lemma getLinks_cfg g x direction : (x < length (graph g))%nat ->
  getLinks g x direction = Ok (if 0 <? direction then out g x else inn g x).
Proof.
  intros Hx. cbn. destruct (lookup_lt_is_Some_2 _ _ Hx) as [n En]. rewrite (vec_at_Some _ _ _ En).
  cbn. unfold node_links, out, inn. rewrite En. by destruct (0 <? direction).
Qed.

Lemma built_laws g : built (length function) g -> GraphLaws g.
Proof.
  intros [[Hl _] Hd Ht Hr Hs].
  assert (Hmem : forall x y, y ∈ out g x <-> x ∈ inn g y).
  { intros x y. rewrite !list_elem_of_In, !(count_occ_In Nat.eq_dec), Hs. done. }
  assert (Hout : forall x y, y ∈ out g x -> (x < length function)%nat /\ (y < length function)%nat).
  { intros x y Hy. split.
    - destruct (decide (x < length function)%nat); [done|]. rewrite Ht in Hy by lia.
      by apply elem_of_nil in Hy.
    - specialize (Hr x). rewrite Forall_forall in Hr. by apply Hr. }
  split.
  - intros dir x Hx. exists (if 0 <? dir then out g x else inn g x). split; [by apply getLinks_cfg|].
    apply Forall_forall. intros y Hy. cbn. rewrite Hl. destruct (0 <? dir); [apply (proj2 (Hout x y Hy))|].
    apply Hmem in Hy. apply (proj1 (Hout y x Hy)).
  - intros x y lx ly Ex Ey.
    assert (Hx : (x < length (graph g))%nat).
    { destruct (decide (x < length (graph g))%nat) as [|Hn]; [done|]. cbn in Ex. unfold vec_at in Ex.
      by rewrite (proj2 (lookup_ge_None _ _)) in Ex by lia. }
    assert (Hy : (y < length (graph g))%nat).
    { destruct (decide (y < length (graph g))%nat) as [|Hn]; [done|]. cbn in Ey. unfold vec_at in Ey.
      by rewrite (proj2 (lookup_ge_None _ _)) in Ey by lia. }
    rewrite getLinks_cfg in Ex, Ey by done. injection Ex as <-. injection Ey as <-. apply Hmem.
Qed.
End Function.

Lemma cfg_spec arch function :
  NoDup (map b_block function) -> size_ok (map b_block function) ->
  Forall (constructible arch function) function ->
  exists g, construct arch function = Ok g /\ GraphLaws g /\
    Graph.getCount g = length function /\
    (forall p, blockMapping g !! p = position function p) /\
    (forall n b, function !! n = Some b -> forall j, edge g 1 n j <-> successor arch function n b j) /\
    forall x y, count_occ Nat.eq_dec (links g 1 x) y = count_occ Nat.eq_dec (links g (-1) y) x.
Proof.
  intros Hd Hs Hc. destruct (construct_built arch function Hd Hs Hc) as (g&E&Hb).
  assert (Hlinks : forall x dir, links g dir x = if 0 <? dir then out g x else inn g x).
  { intros x dir. unfold links. destruct (decide (x < length (graph g))%nat) as [Hx|Hx];
      [by rewrite getLinks_cfg|].
    unfold out, inn. cbn. unfold vec_at. rewrite (proj2 (lookup_ge_None _ _)) by lia. by destruct (0 <? dir). }
  exists g. split_and!; [done|by eapply built_laws|apply (bu_numbered _ _ _ _ Hb)|apply (bu_numbered _ _ _ _ Hb)| |].
  - intros n b Hn j. unfold edge. rewrite Hlinks. apply (bu_done _ _ _ _ Hb); [by eapply lookup_lt_Some|done].
  - intros x y. rewrite !Hlinks. apply (bu_sym _ _ _ _ Hb).
Qed.


(** ** An example *)

Module CfgExamples.
(** A conditional jump over a block, a loop, a jump table and a block that nothing
    reaches. *)
Definition link_to (p a : Z) : LinkView := mkLinkView (Some (TargetInstruction (Some p))) a.
Definition blocks : FunctionView :=
  [ mkBlockView 100 4096 (Some (mkInstructionView (ControlFlowInstruction "jne" true)
                                  (Some (link_to 300 4128)) 4100));
    mkBlockView 200 4112 (Some (mkInstructionView (ControlFlowInstruction "jmp" true)
                                  (Some (link_to 400 4144)) 4116));
    mkBlockView 300 4128 (Some (mkInstructionView OtherSemantic None 4132));
    mkBlockView 400 4144 (Some (mkInstructionView (IndirectJumpInstruction "jmpq"
                                  [[Some (link_to 300 4128); None; Some (link_to 300 4128);
                                    Some (link_to 500 4160)]]) None 4148));
    mkBlockView 500 4160 (Some (mkInstructionView ReturnInstruction None 4164));
    mkBlockView 600 4176 (Some (mkInstructionView (ControlFlowInstruction "jmp" true)
                                  (Some (link_to 500 4160)) 4180)) ].

Lemma blocks_distinct : NoDup (map b_block blocks).
Proof. by apply (bool_decide_unpack _). Qed.
Lemma blocks_size : size_ok (map b_block blocks).
Proof. done. Qed.
Lemma blocks_constructible : Forall (constructible ARCH_X86_64 blocks) blocks.
Proof. repeat constructor; eexists; (split; [done|]); cbn; intros; simplify_eq/=. Qed.

Definition cfg : ControlFlowGraph :=
  match construct ARCH_X86_64 blocks with Ok g => g | Err _ => mkGraph [] ∅ end.

#[export] Instance cfg_laws : GraphLaws cfg.
Proof.
  destruct (construct_built _ _ blocks_distinct blocks_size blocks_constructible) as (g&E&Hb).
  unfold cfg. rewrite E. by eapply built_laws, Hb.
Qed.


(** A jump to a block of another function fails the assertion; an empty block has no last
    instruction. *)
Example jump_out_fails : construct ARCH_X86_64
  [mkBlockView 1 0 (Some (mkInstructionView (ControlFlowInstruction "jmp" true)
     (Some (mkLinkView (Some (TargetBlock 2)) 64)) 0))] = Err AssertFail.
Proof. reflexivity. Qed.
Example empty_block_fails : construct ARCH_X86_64 [mkBlockView 1 0 None] = Err NullDeref.
Proof. reflexivity. Qed.
End CfgExamples.
