(* ===== verification/SccProofs.v ===== *)
(** * Strongly connected components: the correctness of SccCollection of Graph

    The collector is Tarjan's algorithm.  Its invariant speaks of the frames of the walk:
    the nodes that are being visited, oldest first, each with the links it has already
    looked at. *)

From stdpp Require Import relations.
From S2P Require Import Prelude Graph GraphProofs.
Import SccCollection.

Abbreviation frames := (list (nat * list nat)).

Section Tarjan.
Variable ls : nat -> list nat.
Variable count : nat.
Abbreviation edge := (step ls).
Abbreviation reach := (rtc (step ls)).

(** The vectors, as functions. *)
Definition dn (c : t) (x : nat) : nat := default 0%nat (discovery c !! x).
Definition lw (c : t) (x : nat) : nat := default 0%nat (lowLink c !! x).
Abbreviation vis V x := (V !! x = Some true) (only parsing).
Abbreviation gray F x := (x ∈ F.*1).

(** A component: the nodes that reach each other. *)
Definition is_scc (C : list nat) : Prop :=
  C <> [] /\ forall x, x ∈ C -> forall y, y ∈ C <-> reach x y /\ reach y x.

(** The components so far: they partition the nodes [P], and no link leads from a
    component to a later one. *)
Record components (P : nat -> Prop) (comps : list (list nat)) : Prop := {
  cp_nodes x : P x <-> x ∈ concat comps;
  cp_nodup : NoDup (concat comps);
  cp_scc : Forall is_scc comps;
  cp_order i j C D x y : comps !! i = Some C -> comps !! j = Some D -> x ∈ C -> y ∈ D ->
    edge x y -> (j <= i)%nat }.

(** The vectors and the stack: what is visited, in which order, and what is open. *)
Record vectors (F : frames) (V : list bool) (c : t) : Prop := {
  si_disc_len : length (discovery c) = count;
  si_low_len : length (lowLink c) = count;
  si_flag_len : length (onStack c) = count;
  si_vis_len : length V = count;
  si_flags x : onStack c !! x = Some true <-> x ∈ stack c;
  si_vis x : x ∈ stack c -> vis V x;
  si_disc x : vis V x -> (dn c x < disc c)%nat;
  si_inj x y : vis V x -> vis V y -> dn c x = dn c y -> x = y;
  si_sorted : StronglySorted (fun x y => dn c x < dn c y)%nat (stack c);
  si_gray x : gray F x -> x ∈ stack c;
  si_gsorted : StronglySorted (fun x y => dn c x < dn c y)%nat F.*1 }.

(** What the search has seen: all links of the nodes that are left, and how the nodes of
    the stack reach each other. *)
Record searched (F : frames) (V : list bool) (c : t) : Prop := {
  si_done g d n : (g, d) ∈ F -> n ∈ d -> vis V n;
  si_closed x y : vis V x -> ~ gray F x -> edge x y -> vis V y;
  si_out x y : vis V x -> x ∉ stack c -> edge x y -> vis V y /\ y ∉ stack c;
  si_reach x y : x ∈ stack c -> y ∈ stack c -> (dn c x <= dn c y)%nat -> reach x y;
  si_back y : y ∈ stack c -> exists g, gray F g /\ (dn c g <= dn c y)%nat /\ reach y g }.

(** The low links. *)
Record lows (F : frames) (V : list bool) (c : t) : Prop := {
  si_low x : x ∈ stack c -> (lw c x <= dn c x)%nat /\
    exists y, y ∈ stack c /\ reach x y /\ lw c x = dn c y;
  si_cross x y : x ∈ stack c -> ~ gray F x -> edge x y -> y ∈ stack c ->
    (dn c y < dn c x)%nat -> (lw c x <= dn c y)%nat;
  si_gcross g d y : (g, d) ∈ F -> y ∈ d -> y ∈ stack c -> (dn c y < dn c g)%nat ->
    (lw c g <= dn c y)%nat;
  si_child g d x : (g, d) ∈ F -> x ∈ stack c -> (dn c g < dn c x)%nat ->
    (forall g', gray F g' -> (dn c g' <= dn c x)%nat -> (dn c g' <= dn c g)%nat) ->
    exists n, n ∈ d /\ (dn c g < dn c n)%nat /\ (lw c n <= lw c x)%nat;
  si_popped m g : vis V m -> m ∉ stack c -> gray F g -> (dn c g < dn c m)%nat ->
    (dn c g < lw c m)%nat }.

(** The second stack and the components so far. *)
Record output (F : frames) (V : list bool) (c : t) : Prop := {
  si_post_nodup : NoDup (poStack c);
  si_post x : x ∈ poStack c <-> x ∈ stack c /\ ~ gray F x;
  si_split g : gray F g -> exists A B, poStack c = A ++ B /\
    (forall x, x ∈ A -> (dn c x < dn c g)%nat) /\ (forall x, x ∈ B -> (dn c g < dn c x)%nat);
  si_comps : exists comps, sccOrder c = comps ++ [[]] /\ scc c = length comps /\
    components (fun x => vis V x /\ x ∉ stack c) comps }.

Record inv (F : frames) (V : list bool) (c : t) : Prop := {
  si_vectors :> vectors F V c;
  si_searched :> searched F V c;
  si_lows :> lows F V c;
  si_output :> output F V c }.

Lemma gray_frame (F : frames) x : gray F x <-> exists d, (x, d) ∈ F.
Proof. rewrite list_elem_of_fmap. split; [intros ([g d]&->&?); eauto|intros [d ?]; by exists (x, d)]. Qed.

(** ** Changes of the ghost frames and of a low link *)

(** A frame has looked at one more link. *)
Lemma inv_link F1 u d F2 n V c : inv (F1 ++ (u, d) :: F2) V c -> vis V n ->
  (n ∈ stack c -> (dn c n < dn c u)%nat -> (lw c u <= dn c n)%nat) ->
  inv (F1 ++ (u, d ++ [n]) :: F2) V c.
Proof.
  intros HI Hn Hlow.
  assert (Eg : (F1 ++ (u, d ++ [n]) :: F2).*1 = (F1 ++ (u, d) :: F2).*1)
    by by rewrite !fmap_app.
  assert (Hf : forall g d', (g, d') ∈ F1 ++ (u, d ++ [n]) :: F2 -> exists d0,
    (g, d0) ∈ F1 ++ (u, d) :: F2 /\ (d' = d0 \/ g = u /\ d0 = d /\ d' = d ++ [n])).
  { intros g d'. rewrite elem_of_app, elem_of_cons. intros [?|[?|?]]; simplify_eq.
    - exists d'. split; [|by left]. apply elem_of_app. by left.
    - exists d. split; [|by right]. apply elem_of_app. right. by left.
    - exists d'. split; [|by left]. apply elem_of_app. right. by right. }
  destruct HI as [[] [] [] []]. split; split; try rewrite Eg; try done.
  - intros g d' m (d0&Hg&[->|(->&->&->)])%Hf; [by apply (si_done0 g)|].
    intros [?| ->%list_elem_of_singleton]%elem_of_app; [by apply (si_done0 u d)|done].
  - intros g d' m (d0&Hg&[->|(->&->&->)])%Hf; [by apply (si_gcross0 g)|].
    intros [?| ->%list_elem_of_singleton]%elem_of_app; [by apply (si_gcross0 u d)|by apply Hlow].
  - intros g d' m (d0&Hg&[->|(->&->&->)])%Hf Hm Hlt Hmax; [by apply si_child0|].
    destruct (si_child0 u d m Hg Hm Hlt Hmax) as (k&Hk&?). exists k. split; [|done].
    apply elem_of_app. by left.
Qed.

(** The low link of an open node falls. *)
Definition with_low (c : t) (low : list nat) : t :=
  mk (scc c) (disc c) (discovery c) low (onStack c) (stack c) (poStack c) (sccOrder c).

Lemma lw_insert c u v x : (u < length (lowLink c))%nat ->
  lw (with_low c (<[u := v]> (lowLink c))) x = if decide (x = u) then v else lw c x.
Proof.
  intros Hu. unfold lw. cbn. destruct (decide (x = u)) as [->|Hne].
  - by rewrite list_lookup_insert_eq.
  - by rewrite list_lookup_insert_ne.
Qed.

Lemma stack_lt F V c x : inv F V c -> x ∈ stack c -> (x < count)%nat.
Proof.
  intros HI Hx%(si_vis _ _ _ HI). apply lookup_lt_Some in Hx. by rewrite (si_vis_len _ _ _ HI) in Hx.
Qed.

Lemma inv_lower F V c u v : inv F V c -> gray F u -> (v <= lw c u)%nat ->
  (exists y, y ∈ stack c /\ reach u y /\ v = dn c y) ->
  inv F V (with_low c (<[u := v]> (lowLink c))).
Proof.
  intros HI Hu Hv Hy. pose proof (si_gray _ _ _ HI u Hu) as Hus.
  assert (Hlt : (u < length (lowLink c))%nat)
    by (rewrite (si_low_len _ _ _ HI); by eapply stack_lt).
  assert (El := fun x => lw_insert c u v x Hlt).
  assert (Hle : forall x, (lw (with_low c (<[u := v]> (lowLink c))) x <= lw c x)%nat).
  { intros x. rewrite El. case_decide; [by subst|done]. }
  destruct HI as [[] [] [] []]. split; split; try done.
  - cbn. by rewrite length_insert.
  - intros x Hx. destruct (si_low0 x Hx) as [Hlx Hex]. split; [etrans; [apply Hle|done]|].
    rewrite El. case_decide; [by subst|done].
  - intros x y Hx Hg He Hys Hd. etrans; [apply Hle|by apply si_cross0].
  - intros g d y Hg Hyd Hys Hd. etrans; [apply Hle|by apply (si_gcross0 g d)].
  - intros g d x Hg Hx Hd Hmax. destruct (si_child0 g d x Hg Hx Hd Hmax) as (n&Hn&Hdn&Hln).
    exists n. split_and!; [done..|]. etrans; [apply Hle|]. rewrite El.
    case_decide; [|done]. subst x. exfalso. specialize (Hmax u Hu).
    change (dn (with_low c _)) with (dn c) in *. lia.
  - intros m g Hm Hms Hg Hd. rewrite El. case_decide; [by subst|]. by apply si_popped0.
Qed.

(** ** The order of the open nodes *)

Lemma sorted_ext (R R' : nat -> nat -> Prop) l : (forall x y, x ∈ l -> y ∈ l -> R x y -> R' x y) ->
  StronglySorted R l -> StronglySorted R' l.
Proof.
  intros HR. induction 1 as [|x l Hl IH Hx]; constructor.
  - apply IH. intros y z ??. apply HR; by right.
  - rewrite Forall_forall in Hx |- *. intros y Hy. apply HR; [by left|by right|auto].
Qed.

Lemma gray_top F u d V c g : inv (F ++ [(u, d)]) V c -> gray (F ++ [(u, d)]) g ->
  g = u \/ gray F g /\ (dn c g < dn c u)%nat.
Proof.
  intros HI. rewrite fmap_app, elem_of_app. intros [Hg| ->%list_elem_of_singleton]; [right|by left].
  split; [done|]. pose proof (si_gsorted _ _ _ HI) as Hs. rewrite fmap_app in Hs.
  apply (StronglySorted_app_1_elem_of _ _ _ g u Hs); [done|by left].
Qed.

Lemma top_gray (F : frames) u d : gray (F ++ [(u, d)]) u.
Proof. rewrite fmap_app, elem_of_app. right. by left. Qed.

Lemma gray_top_le F u d V c g : inv (F ++ [(u, d)]) V c -> gray (F ++ [(u, d)]) g ->
  (dn c g <= dn c u)%nat.
Proof. intros HI Hg. destruct (gray_top _ _ _ _ _ _ HI Hg) as [->|[_ ?]]; lia. Qed.

(** All nodes on the stack reach the newest open node. *)
Lemma reach_top F u d V c x : inv (F ++ [(u, d)]) V c -> x ∈ stack c -> reach x u.
Proof.
  intros HI Hx. destruct (si_back _ _ _ HI x Hx) as (g&Hg&_&Hr). etrans; [done|].
  apply (si_reach _ _ _ HI); [by apply (si_gray _ _ _ HI)|apply (si_gray _ _ _ HI), top_gray|by eapply gray_top_le].
Qed.

Lemma stack_empty V c : inv [] V c -> stack c = [].
Proof.
  intros HI. destruct (stack c) as [|x l] eqn:E; [done|].
  destruct (si_back _ _ _ HI x) as (g&Hg&_); [rewrite E; by left|]. by apply elem_of_nil in Hg.
Qed.

(** ** The visits *)

(** A node is entered. *)
Section Enter.
Variables (F : frames) (V : list bool) (c : t) (n : nat).
Hypothesis HI : inv F V c.
Hypothesis Hn : V !! n = Some false.
Hypothesis Hfrom : forall F0 u d, F = F0 ++ [(u, d)] -> edge u n.

Definition entered : t :=
  mk (scc c) (disc c + 1) (<[n := disc c]> (discovery c)) (<[n := disc c]> (lowLink c))
     (<[n := true]> (onStack c)) (stack c ++ [n]) (poStack c) (sccOrder c).
Abbreviation F' := (F ++ [(n, [])]).
Abbreviation V' := (<[n := true]> V).

Lemma enter_lt : (n < count)%nat.
Proof. pose proof (lookup_lt_Some _ _ _ Hn) as Hlt. by rewrite (si_vis_len _ _ _ HI) in Hlt. Qed.

Lemma pre_visit_entered : pre_visit n c = Ok entered.
Proof.
  pose proof enter_lt. unfold pre_visit.
  by rewrite !vec_set_lt by (rewrite ?(si_disc_len _ _ _ HI), ?(si_low_len _ _ _ HI), ?(si_flag_len _ _ _ HI); done).
Qed.

Lemma enter_new x : vis V x -> x <> n.
Proof. intros Hx ->. congruence. Qed.

Lemma enter_dn_new : dn entered n = disc c.
Proof.
  unfold dn. cbn. by rewrite list_lookup_insert_eq by (rewrite (si_disc_len _ _ _ HI); apply enter_lt).
Qed.

Lemma enter_lw_new : lw entered n = disc c.
Proof.
  unfold lw. cbn. by rewrite list_lookup_insert_eq by (rewrite (si_low_len _ _ _ HI); apply enter_lt).
Qed.

Lemma enter_dn x : vis V x -> dn entered x = dn c x.
Proof. intros Hx%enter_new. unfold dn. cbn. by rewrite list_lookup_insert_ne. Qed.

Lemma enter_lw x : vis V x -> lw entered x = lw c x.
Proof. intros Hx%enter_new. unfold lw. cbn. by rewrite list_lookup_insert_ne. Qed.

Lemma enter_dn_stack x : x ∈ stack c -> dn entered x = dn c x.
Proof. intros Hx. by apply enter_dn, (si_vis _ _ _ HI). Qed.

Lemma enter_dn_lt x : x ∈ stack c -> (dn entered x < dn entered n)%nat.
Proof.
  intros Hx. rewrite enter_dn_new, enter_dn_stack by done. by apply (si_disc _ _ _ HI), (si_vis _ _ _ HI).
Qed.

Lemma enter_vis x : vis V' x <-> vis V x \/ x = n.
Proof.
  destruct (decide (x = n)) as [->|Hx].
  - rewrite list_lookup_insert_eq by by eapply lookup_lt_Some. tauto.
  - rewrite list_lookup_insert_ne by done. tauto.
Qed.

Lemma enter_stack x : x ∈ stack entered <-> x ∈ stack c \/ x = n.
Proof. cbn. by rewrite elem_of_app, list_elem_of_singleton. Qed.

Lemma enter_gray x : gray F' x <-> gray F x \/ x = n.
Proof. rewrite fmap_app, elem_of_app. cbn. by rewrite list_elem_of_singleton. Qed.

Lemma enter_frame g d : (g, d) ∈ F' -> (g, d) ∈ F /\ g ∈ stack c \/ g = n /\ d = [].
Proof.
  intros [Hg|?%list_elem_of_singleton]%elem_of_app; simplify_eq; [left|by right].
  split; [done|]. apply (si_gray _ _ _ HI), gray_frame. by eexists.
Qed.

Lemma enter_out x : vis V' x -> x ∉ stack entered -> vis V x /\ x ∉ stack c.
Proof.
  intros [Hx| ->]%enter_vis Hs; [|destruct Hs; apply enter_stack; auto].
  split; [done|]. intros ?. apply Hs, enter_stack. auto.
Qed.

Lemma enter_reach x : x ∈ stack c -> reach x n.
Proof.
  intros Hx. revert HI Hfrom. destruct F as [|[u d] F0 _] using rev_ind; intros HI' Hfrom'.
  - rewrite (stack_empty V c HI') in Hx. by apply elem_of_nil in Hx.
  - eapply rtc_r; [by eapply reach_top|]. by eapply Hfrom'.
Qed.

Lemma enter_vectors : vectors F' V' entered.
Proof.
  assert (Hgs : forall g, gray F g -> g ∈ stack c) by (intros g; apply (si_gray _ _ _ HI)).
  split; cbn [entered discovery lowLink onStack disc]; rewrite ?length_insert; try apply HI.
  - intros x. rewrite enter_stack, <- (si_flags _ _ _ HI). destruct (decide (x = n)) as [->|Hx].
    + rewrite list_lookup_insert_eq by (rewrite (si_flag_len _ _ _ HI); apply enter_lt). tauto.
    + rewrite list_lookup_insert_ne by done. tauto.
  - intros x [Hx| ->]%enter_stack; apply enter_vis; [left; by apply (si_vis _ _ _ HI)|by right].
  - intros x [Hx| ->]%enter_vis; [rewrite enter_dn by done|rewrite enter_dn_new; lia].
    apply (si_disc _ _ _ HI) in Hx. lia.
  - intros x y [Hx| ->]%enter_vis [Hy| ->]%enter_vis; rewrite ?enter_dn_new, ?enter_dn by done;
      [by apply (si_inj _ _ _ HI)| | |done];
      intros E; [apply (si_disc _ _ _ HI) in Hx|apply (si_disc _ _ _ HI) in Hy]; lia.
  - apply StronglySorted_app_2; [|eapply sorted_ext, (si_sorted _ _ _ HI)|by repeat constructor].
    + intros x1 x2 Hx ->%list_elem_of_singleton. by apply enter_dn_lt.
    + intros x y Hx Hy. by rewrite !enter_dn_stack.
  - intros x [Hx| ->]%enter_gray; apply enter_stack; [left; by apply Hgs|by right].
  - rewrite fmap_app.
    apply StronglySorted_app_2; [|eapply sorted_ext, (si_gsorted _ _ _ HI)|by repeat constructor].
    + intros x1 x2 Hx ->%list_elem_of_singleton. by apply enter_dn_lt, Hgs.
    + intros x y Hx Hy. by rewrite !enter_dn_stack by by apply Hgs.
Qed.

Lemma enter_searched : searched F' V' entered.
Proof.
  split.
  - intros g d m [[Hg _]|[-> ->]]%enter_frame Hm; [|by apply elem_of_nil in Hm].
    apply enter_vis. left. by eapply (si_done _ _ _ HI).
  - intros x y Hx Hg He. rewrite enter_gray in Hg. apply enter_vis in Hx as [Hx| ->]; [|tauto].
    apply enter_vis. left. eapply (si_closed _ _ _ HI x); [done| |done]. tauto.
  - intros x y Hx Hs He. destruct (enter_out x Hx Hs) as [Hx' Hs'].
    destruct (si_out _ _ _ HI x y Hx' Hs' He) as [Hy Hys].
    rewrite enter_vis, enter_stack. split; [by left|]. intros [?| ->]; [done|]. by apply enter_new in Hy.
  - intros x y [Hx| ->]%enter_stack [Hy| ->]%enter_stack Hle; [|by apply enter_reach| |done].
    + rewrite !enter_dn_stack in Hle by done. by apply (si_reach _ _ _ HI).
    + apply enter_dn_lt in Hy. lia.
  - intros y [Hy| ->]%enter_stack.
    + destruct (si_back _ _ _ HI y Hy) as (g&Hg&Hle&Hr). exists g.
      rewrite enter_gray, !enter_dn_stack by (done || by apply (si_gray _ _ _ HI)). auto.
    + exists n. rewrite enter_gray. auto using rtc_refl.
Qed.

Lemma enter_lows : lows F' V' entered.
Proof.
  split.
  - intros x [Hx| ->]%enter_stack.
    + rewrite enter_lw, enter_dn_stack by (done || by apply (si_vis _ _ _ HI)).
      destruct (si_low _ _ _ HI x Hx) as (Hle&y&Hy&Hr&E). split; [done|]. exists y.
      rewrite enter_stack, enter_dn_stack by done. auto.
    + rewrite enter_lw_new, enter_dn_new. split; [done|]. exists n. rewrite enter_stack.
      auto using rtc_refl, enter_dn_new.
  - intros x y [Hx| ->]%enter_stack Hg He; rewrite enter_gray in Hg; [|tauto].
    intros [Hy| ->]%enter_stack Hd; [|apply enter_dn_lt in Hx; lia].
    rewrite !enter_dn_stack in * by done. rewrite enter_lw by by apply (si_vis _ _ _ HI).
    eapply (si_cross _ _ _ HI); eauto.
  - intros g d y [[Hg Hgs]|[-> ->]]%enter_frame Hyd; [|by apply elem_of_nil in Hyd].
    intros [Hy| ->]%enter_stack Hd; [|apply enter_dn_lt in Hgs; lia].
    rewrite !enter_dn_stack in * by done. rewrite enter_lw by by apply (si_vis _ _ _ HI).
    by eapply (si_gcross _ _ _ HI).
  - intros g d x [[Hg Hgs]|[-> ->]]%enter_frame [Hx| ->]%enter_stack Hd Hmax.
    + rewrite !enter_dn_stack in Hd by done.
      destruct (si_child _ _ _ HI g d x Hg Hx Hd) as (k&Hk&Hdk&Hlk).
      { intros g' Hg' Hle. specialize (Hmax g').
        rewrite enter_gray, !enter_dn_stack in Hmax by (done || by apply (si_gray _ _ _ HI)). auto. }
      assert (Hvk : vis V k) by by eapply (si_done _ _ _ HI).
      exists k. split; [done|].
      rewrite enter_dn_stack, enter_dn, !enter_lw by (done || by apply (si_vis _ _ _ HI)). done.
    + specialize (Hmax n). rewrite enter_gray in Hmax. lia.
    + apply enter_dn_lt in Hx. lia.
    + lia.
  - intros m g Hm Hs Hg Hd. destruct (enter_out m Hm Hs) as [Hm' Hs'].
    rewrite (enter_dn m Hm') in Hd. rewrite (enter_lw m Hm').
    apply enter_gray in Hg as [Hg| ->].
    + rewrite enter_dn_stack in * by by apply (si_gray _ _ _ HI). by apply (si_popped _ _ _ HI).
    + rewrite enter_dn_new in Hd. apply (si_disc _ _ _ HI) in Hm'. lia.
Qed.

Lemma enter_output : output F' V' entered.
Proof.
  assert (Hps : forall x, x ∈ poStack c -> x ∈ stack c) by (intros x [? _]%(si_post _ _ _ HI); done).
  split.
  - apply (si_post_nodup _ _ _ HI).
  - intros x. rewrite enter_stack, enter_gray. cbn. rewrite (si_post _ _ _ HI).
    assert (x ∈ stack c -> x <> n) by (intros Hx; by apply enter_new, (si_vis _ _ _ HI)). tauto.
  - intros g [Hg| ->]%enter_gray.
    + destruct (si_split _ _ _ HI g Hg) as (A&B&E&HA&HB). exists A, B. split; [done|].
      rewrite (enter_dn_stack g) by by apply (si_gray _ _ _ HI).
      split; intros x Hx; (rewrite enter_dn_stack; [by auto|apply Hps; rewrite E; apply elem_of_app; by auto]).
    + exists (poStack c), []. split; [by rewrite app_nil_r|]. split; [|by intros x ?%elem_of_nil].
      intros x Hx. by apply enter_dn_lt, Hps.
  - destruct (si_comps _ _ _ HI) as (comps&E1&E2&[Hn1 Hn2 Hn3 Hn4]). exists comps.
    split_and!; [done..|]. split; [|done..]. intros x. rewrite <- Hn1. split.
    + intros []. by apply enter_out.
    + intros [Hx Hs]. rewrite enter_vis, enter_stack. split; [by left|].
      intros [?| ->]; [done|]. by apply enter_new in Hx.
Qed.

Lemma inv_enter : inv F' V' entered.
Proof. split; [apply enter_vectors|apply enter_searched|apply enter_lows|apply enter_output]. Qed.
End Enter.

Lemma vec_at_dn F V c x : inv F V c -> (x < count)%nat -> vec_at (discovery c) x = Ok (dn c x).
Proof.
  intros HI Hx. rewrite <- (si_disc_len _ _ _ HI) in Hx. unfold vec_at, dn.
  by destruct (lookup_lt_is_Some_2 _ _ Hx) as [v ->].
Qed.

Lemma vec_at_lw F V c x : inv F V c -> (x < count)%nat -> vec_at (lowLink c) x = Ok (lw c x).
Proof.
  intros HI Hx. rewrite <- (si_low_len _ _ _ HI) in Hx. unfold vec_at, lw.
  by destruct (lookup_lt_is_Some_2 _ _ Hx) as [v ->].
Qed.

Lemma vis_lt F V c x : inv F V c -> vis V x -> (x < count)%nat.
Proof. intros HI Hx. apply lookup_lt_Some in Hx. by rewrite (si_vis_len _ _ _ HI) in Hx. Qed.

Lemma inv_late F V c u d n : inv (F ++ [(u, d)]) V c -> vis V n -> edge u n ->
  exists c', late_visit u n c = Ok c' /\ inv (F ++ [(u, d ++ [n])]) V c'.
Proof.
  intros HI Hn He. pose proof (si_gray _ _ _ HI u (top_gray F u d)) as Hu.
  pose proof (vis_lt _ _ _ _ HI Hn) as Hnc. pose proof (stack_lt _ _ _ _ HI Hu) as Huc.
  unfold late_visit.
  destruct (lookup_lt_is_Some_2 (onStack c) n) as [b Eb]; [by rewrite (si_flag_len _ _ _ HI)|].
  rewrite (vec_at_Some _ _ _ Eb). cbn [mbind res_bind]. destruct b.
  - rewrite (vec_at_lw _ _ _ _ HI Huc), (vec_at_dn _ _ _ _ HI Hnc). cbn [mbind res_bind].
    rewrite vec_set_lt by by rewrite (si_low_len _ _ _ HI). cbn [mbind res_bind].
    eexists. split; [done|]. apply (si_flags _ _ _ HI) in Eb.
    change (mk _ _ _ ?l _ _ _ _) with (with_low c l).
    assert (HI' : inv (F ++ [(u, d)]) V (with_low c (<[u := Nat.min (lw c u) (dn c n)]> (lowLink c)))).
    { apply inv_lower; [done|apply top_gray|lia|].
      destruct (Nat.min_spec (lw c u) (dn c n)) as [[_ ->]|[_ ->]].
      - apply (si_low _ _ _ HI u Hu).
      - exists n. split_and!; [done|by apply rtc_once|done]. }
    apply inv_link; [done..|]. intros _ _. rewrite lw_insert, decide_True by
      (done || by rewrite (si_low_len _ _ _ HI)). change (dn (with_low c _) n) with (dn c n). lia.
  - exists c. split; [done|]. apply inv_link; [done..|]. intros Hs%(si_flags _ _ _ HI). congruence.
Qed.

(** The loop over the links of a node that is left. *)
Lemma relax_spec F V c u l low : inv F V c -> (u < count)%nat -> Forall (fun n => n < count)%nat l ->
  length low = count ->
  exists v, relax u l (discovery c) low = Ok (<[u := v]> low) /\
    (v <= default 0 (low !! u))%nat /\
    (forall n, n ∈ l -> (dn c u < dn c n)%nat -> (v <= default 0 (low !! n))%nat) /\
    (v = default 0%nat (low !! u) \/ exists n, n ∈ l /\ (dn c u < dn c n)%nat /\ v = default 0%nat (low !! n)).
Proof.
  intros HI Hu Hl. revert low. induction Hl as [|n l Hn Hl IH]; intros low Hlen; cbn [relax].
  - destruct (lookup_lt_is_Some_2 low u) as [w Ew]; [by rewrite Hlen|].
    exists w. rewrite Ew, list_insert_id by done. split_and!; [done|done| |by left].
    by intros m ?%elem_of_nil.
  - rewrite (vec_at_dn _ _ _ u HI Hu), (vec_at_dn _ _ _ n HI Hn). cbn [mbind res_bind].
    destruct (Nat.ltb_spec (dn c u) (dn c n)) as [Hlt|Hge].
    + assert (Hne : u <> n) by (intros ->; lia).
      destruct (lookup_lt_is_Some_2 low u) as [w Ew]; [by rewrite Hlen|].
      destruct (lookup_lt_is_Some_2 low n) as [wn En]; [by rewrite Hlen|].
      rewrite (vec_at_Some _ _ _ Ew), (vec_at_Some _ _ _ En). cbn [mbind res_bind].
      rewrite vec_set_lt by by rewrite Hlen. cbn [mbind res_bind].
      destruct (IH (<[u := Nat.min w wn]> low)) as (v&->&Hv&Hvl&Hve); [by rewrite length_insert|].
      rewrite list_lookup_insert_eq in Hv, Hve by by rewrite Hlen. cbn in Hv, Hve.
      exists v. rewrite list_insert_insert, decide_True by done. rewrite Ew. cbn.
      assert (Hoth : forall m, (dn c u < dn c m)%nat -> (<[u := Nat.min w wn]> low) !! m = low !! m).
      { intros m Hm. rewrite list_lookup_insert_ne; [done|]. intros ->. lia. }
      split_and!; [done|lia| |].
      * intros m [->|Hm]%elem_of_cons Hlm; [rewrite En; cbn; lia|]. rewrite <- Hoth by done. by apply Hvl.
      * destruct Hve as [->|(m&Hm&Hdm&->)].
        -- destruct (Nat.min_spec w wn) as [[_ ->]|[_ ->]]; [by left|right].
           exists n. split_and!; [by left|done|by rewrite En].
        -- right. exists m. rewrite Hoth by done. split_and!; [by right|done..].
    + cbn [mbind res_bind]. destruct (IH low Hlen) as (v&->&Hv&Hvl&Hve). exists v. split_and!; [done|done| |].
      * intros m [->|Hm]%elem_of_cons Hlm; [lia|by apply Hvl].
      * destruct Hve as [->|(m&Hm&?)]; [by left|right]. exists m. split; [by right|done].
Qed.

(** After it, the low link of the node is a bound for all nodes above it on the stack. *)
Lemma inv_relax F V c u d : inv (F ++ [(u, d)]) V c -> (forall n, n ∈ ls u <-> n ∈ d) ->
  exists low', relax u (ls u) (discovery c) (lowLink c) = Ok low' /\
    inv (F ++ [(u, d)]) V (with_low c low') /\
    forall x, x ∈ stack c -> (dn c u <= dn c x)%nat ->
      (lw (with_low c low') u <= lw (with_low c low') x)%nat.
Proof.
  intros HI Hd. pose proof (si_gray _ _ _ HI u (top_gray F u d)) as Hu.
  pose proof (stack_lt _ _ _ _ HI Hu) as Huc.
  assert (Hud : (u, d) ∈ F ++ [(u, d)]) by (apply elem_of_app; right; by left).
  assert (Hvn : forall n, n ∈ ls u -> vis V n) by (intros n Hn%Hd; by apply (si_done _ _ _ HI u d)).
  destruct (relax_spec _ _ _ u (ls u) (lowLink c) HI Huc) as (v&->&Hv&Hvl&Hve).
  { apply Forall_forall. intros n Hn. by eapply vis_lt, Hvn. }
  { apply HI. }
  fold (lw c u) in Hv, Hve. eexists. split; [done|].
  destruct (si_low _ _ _ HI u Hu) as (Hlu&y0&Hy0).
  assert (HI' : inv (F ++ [(u, d)]) V (with_low c (<[u := v]> (lowLink c)))).
  { apply inv_lower; [done|apply top_gray|done|].
    destruct Hve as [->|(n&Hn&Hdn&->)]; [by exists y0|]. fold (lw c n) in *.
    destruct (decide (n ∈ stack c)) as [Hs|Hs].
    - destruct (si_low _ _ _ HI n Hs) as (_&y&Hy&Hr&E). exists y. split_and!; [done| |done].
      by eapply rtc_l.
    - pose proof (si_popped _ _ _ HI n u (Hvn n Hn) Hs (top_gray F u d) Hdn). lia. }
  split; [done|]. intros x Hx Hle.
  assert (Hul : (u < length (lowLink c))%nat) by by rewrite (si_low_len _ _ _ HI).
  rewrite !lw_insert, decide_True by done. case_decide as Hxu; [done|].
  destruct (si_child _ _ _ HI u d x Hud Hx) as (n&Hn&Hdn&Hln).
  - assert (dn c u <> dn c x); [|lia]. intros E. apply Hxu. symmetry.
    apply (si_inj _ _ _ HI); [by apply (si_vis _ _ _ HI)..|done].
  - intros g Hg _. by eapply gray_top_le.
  - etrans; [|exact Hln]. apply Hvl; [by apply Hd|done].
Qed.

(** A node that is left and whose component is not complete. *)
Section Keep.
Variables (F : frames) (V : list bool) (c : t) (u : nat) (d : list nat).
Hypothesis HI : inv (F ++ [(u, d)]) V c.
Hypothesis Hd : forall n, n ∈ ls u <-> n ∈ d.
Hypothesis Hbound : forall x, x ∈ stack c -> (dn c u <= dn c x)%nat -> (lw c u <= lw c x)%nat.
Hypothesis Hpar : forall F0 p dp, F = F0 ++ [(p, dp)] -> u ∈ dp.

Lemma gray_split x : gray (F ++ [(u, d)]) x <-> gray F x \/ x = u.
Proof. rewrite fmap_app, elem_of_app. cbn. by rewrite list_elem_of_singleton. Qed.

Lemma gray_below g : gray F g -> (dn c g < dn c u)%nat.
Proof.
  intros Hg. pose proof (si_gsorted _ _ _ HI) as Hs. rewrite fmap_app in Hs.
  apply (StronglySorted_app_1_elem_of _ _ _ g u Hs); [done|by left].
Qed.

Lemma gray_sorted : StronglySorted (fun x y => dn c x < dn c y)%nat F.*1.
Proof.
  pose proof (si_gsorted _ _ _ HI) as Hs. rewrite fmap_app in Hs. by apply StronglySorted_app_1_l in Hs.
Qed.

Lemma top_stack : u ∈ stack c.
Proof. apply (si_gray _ _ _ HI), top_gray. Qed.

Lemma top_frame : (u, d) ∈ F ++ [(u, d)].
Proof. apply elem_of_app. right. by left. Qed.

Lemma frame_in g d' : (g, d') ∈ F -> (g, d') ∈ F ++ [(u, d)].
Proof. intros. apply elem_of_app. by left. Qed.

Lemma top_links y : edge u y -> vis V y.
Proof. intros Hy%Hd. eapply (si_done _ _ _ HI), Hy. apply top_frame. Qed.

Lemma closed_links x y : vis V x -> ~ gray F x -> edge x y -> vis V y.
Proof.
  intros Hx Hg He. destruct (decide (x = u)) as [->|Hne]; [by apply top_links|].
  eapply (si_closed _ _ _ HI); [done| |done]. rewrite gray_split. tauto.
Qed.

Definition kept : t :=
  mk (scc c) (disc c) (discovery c) (lowLink c) (onStack c) (stack c) (poStack c ++ [u]) (sccOrder c).

Lemma inv_keep : lw c u <> dn c u -> inv F V kept.
Proof.
  intros Hlow. pose proof top_stack as Hu. pose proof top_frame as Hf.
  destruct (si_low _ _ _ HI u Hu) as (Hle&y0&Hy0&Hr0&E0).
  pose proof gray_below as Hgb. pose proof gray_split as Hgs. pose proof gray_sorted as Hso.
  split; split; cbn [kept discovery lowLink onStack stack poStack sccOrder scc disc];
    change (dn kept) with (dn c); change (lw kept) with (lw c); try apply HI.
  - intros x Hx. apply (si_gray _ _ _ HI), Hgs. by left.
  - done.
  - intros g d' n Hg. eapply (si_done _ _ _ HI); [by apply frame_in].
  - apply closed_links.
  - intros y Hy. destruct (si_back _ _ _ HI y Hy) as (g&Hg&Hdg&Hr).
    apply Hgs in Hg as [Hg| ->]; [by exists g|].
    destruct (si_back _ _ _ HI y0 Hy0) as (g&Hg&Hdg'&Hr').
    exists g. apply Hgs in Hg as [Hg| ->]; [|lia]. split_and!; [done|lia|]. by do 2 (etrans; [done|]).
  - intros x y Hx Hg He Hy Hdy. destruct (decide (x = u)) as [->|Hne].
    + eapply (si_gcross _ _ _ HI); [done|by apply Hd|done..].
    + eapply (si_cross _ _ _ HI); [done|rewrite Hgs; tauto|done..].
  - intros g d' y Hg. eapply (si_gcross _ _ _ HI); [by apply frame_in].
  - intros g d' x Hg Hx Hdx Hmax. destruct (decide (dn c u <= dn c x)%nat) as [Hux|Hux].
    + destruct F as [|[p dp] F0 _] eqn:EF using rev_ind; [by apply elem_of_nil in Hg|].
      assert (Hpg : (dn c p <= dn c g)%nat).
      { apply Hmax; [apply top_gray|]. pose proof (Hgb p (top_gray _ _ _)). lia. }
      exists u. split_and!; [|apply Hgb, gray_frame; by eexists|by apply Hbound].
      apply elem_of_app in Hg as [Hg|Hg%list_elem_of_singleton]; [|simplify_eq; by eapply Hpar].
      rewrite fmap_app in Hso.
      assert (dn c g < dn c p)%nat; [|lia]. apply (StronglySorted_app_1_elem_of _ _ _ g p Hso); [|by left].
      apply gray_frame. by eexists.
    + eapply (si_child _ _ _ HI); [by apply frame_in|done..|].
      intros g' [Hg'| ->]%Hgs Hdg; [by apply Hmax|lia].
  - intros m g Hm Hs Hg. eapply (si_popped _ _ _ HI); [done..|]. apply Hgs. by left.
  - apply NoDup_app. split_and!; [apply HI| |apply NoDup_singleton].
    intros x [_ Hx]%(si_post _ _ _ HI) ->%list_elem_of_singleton. apply Hx, Hgs. by right.
  - intros x. rewrite elem_of_app, list_elem_of_singleton, (si_post _ _ _ HI), Hgs.
    destruct (decide (x = u)) as [->|Hne]; [|tauto]. split; [|by right]. intros _. split; [done|].
    intros Hx%Hgb. lia.
  - intros g Hg. destruct (si_split _ _ _ HI g) as (A&B&E&HA&HB); [apply Hgs; by left|].
    exists A, (B ++ [u]). rewrite E, app_assoc. split_and!; [done..|].
    intros x [Hx| ->%list_elem_of_singleton]%elem_of_app; [by apply HB|by apply Hgb].
Qed.

(** The component is complete: it is the top of the stack. *)
Section Pop.
Hypothesis Hroot : lw c u = dn c u.
Variables (K T : list nat).
Hypothesis Hst : stack c = K ++ u :: T.

Lemma stack_sides : (forall x, x ∈ K -> (dn c x < dn c u)%nat) /\
  (forall x, x ∈ u :: T -> (dn c u <= dn c x)%nat).
Proof.
  pose proof (si_sorted _ _ _ HI) as Hs. rewrite Hst in Hs. split.
  - intros x Hx. apply (StronglySorted_app_1_elem_of _ _ _ x u Hs); [done|by left].
  - apply StronglySorted_app_1_r in Hs. apply StronglySorted_cons in Hs as [Hs _].
    rewrite Forall_forall in Hs. intros x [->|Hx%Hs]%elem_of_cons; lia.
Qed.

Lemma above_lt x : x ∈ T -> (dn c u < dn c x)%nat.
Proof.
  pose proof (si_sorted _ _ _ HI) as Hs. rewrite Hst in Hs. apply StronglySorted_app_1_r in Hs.
  apply StronglySorted_cons in Hs as [Hs _]. rewrite Forall_forall in Hs. apply Hs.
Qed.

Lemma stack_split x : x ∈ stack c <-> x ∈ K \/ x ∈ u :: T.
Proof. by rewrite Hst, elem_of_app. Qed.

Lemma split_disjoint x : x ∈ K -> x ∉ u :: T.
Proof. intros Hx%(proj1 stack_sides) Hy%(proj2 stack_sides). lia. Qed.

Lemma above_closed x : x ∈ T -> ~ gray F x.
Proof. intros Hx%above_lt Hg%gray_below. lia. Qed.

(** No link leaves the component, except to a component that is complete. *)
Lemma comp_closed x y : x ∈ u :: T -> edge x y -> vis V y /\ y ∉ K.
Proof.
  intros Hx He. pose proof (proj2 stack_sides x Hx) as Hux.
  assert (Hxs : x ∈ stack c) by (apply stack_split; by right).
  assert (Hxg : ~ gray F x) by (apply elem_of_cons in Hx as [->|Hx]; [intros Hg%gray_below; lia|by apply above_closed]).
  split; [eapply closed_links; [by apply (si_vis _ _ _ HI)|done..]|].
  intros Hy. pose proof (proj1 stack_sides y Hy) as Hyu.
  assert (Hys : y ∈ stack c) by (apply stack_split; by left).
  assert (lw c x <= dn c y)%nat; [|pose proof (Hbound x Hxs Hux); lia].
  destruct (decide (x = u)) as [->|Hne].
  - eapply (si_gcross _ _ _ HI); [apply top_frame|by apply Hd|done..].
  - eapply (si_cross _ _ _ HI); [done|rewrite gray_split; tauto|done..|lia].
Qed.

Lemma complete_closed x y : vis V x -> x ∉ K -> reach x y -> vis V y /\ y ∉ K.
Proof.
  intros Hx Hk. induction 1 as [|x y z He _ IH]; [done|].
  assert (vis V y /\ y ∉ K) as [??]; [|by apply IH].
  destruct (decide (x ∈ u :: T)) as [Ht|Ht]; [by eapply comp_closed|].
  destruct (si_out _ _ _ HI x y) as [Hy Hys]; [done|rewrite stack_split; tauto|done|].
  split; [done|]. intros ?. apply Hys, stack_split. by left.
Qed.

Lemma complete_old x y : vis V x -> x ∉ stack c -> reach x y -> y ∉ stack c.
Proof.
  intros Hx Hs Hr. revert Hx Hs. induction Hr as [|x y z He _ IH]; [done|]. intros Hx Hs.
  destruct (si_out _ _ _ HI x y) as [Hy Hys]; auto.
Qed.

Lemma comp_is_scc C : C ≡ₚ u :: T -> is_scc C.
Proof.
  intros HC. split; [intros ->; by apply Permutation_nil_cons in HC|].
  assert (Hup : forall x, x ∈ u :: T -> reach x u /\ reach u x).
  { intros x Hx. pose proof (proj2 stack_sides x Hx).
    assert (Hxs : x ∈ stack c) by (apply stack_split; by right).
    split; [by eapply reach_top|]. apply (si_reach _ _ _ HI); [apply top_stack|done..]. }
  intros x Hx y. rewrite HC in Hx |- *. split.
  - intros Hy. destruct (Hup x Hx), (Hup y Hy). split; by etrans.
  - intros [Hxy Hyx].
    assert (Hxs : x ∈ stack c) by (apply stack_split; by right).
    destruct (complete_closed x y) as [Hy Hk]; [by apply (si_vis _ _ _ HI)|
      intros Hk; by apply (split_disjoint x) |done|].
    destruct (decide (y ∈ u :: T)) as [|Ht]; [done|].
    exfalso. eapply (complete_old y x); [done|rewrite stack_split; tauto|done..].
Qed.

Lemma split_post : exists A B, poStack c = A ++ B /\ B ++ [u] ≡ₚ u :: T /\
  (forall x, x ∈ A <-> x ∈ K /\ ~ gray F x).
Proof.
  destruct (si_split _ _ _ HI u (top_gray F u d)) as (A&B&E&HA&HB). exists A, B.
  pose proof (si_post_nodup _ _ _ HI) as Hnd. rewrite E in Hnd.
  apply NoDup_app in Hnd as (HndA&Hdis&HndB).
  assert (Hpo : forall x, x ∈ A \/ x ∈ B <-> (x ∈ K \/ x ∈ u :: T) /\ ~ (gray F x \/ x = u)).
  { intros x. by rewrite <- elem_of_app, <- E, (si_post _ _ _ HI), stack_split, gray_split. }
  assert (HndT : NoDup (u :: T)).
  { pose proof (si_sorted _ _ _ HI) as Hs. rewrite Hst in Hs. apply StronglySorted_app_1_r in Hs.
    clear -Hs. induction Hs as [|x l _ IH Hx]; constructor; [|done]. intros Hin.
    rewrite Forall_forall in Hx. specialize (Hx x Hin). lia. }
  assert (HndT' := HndT). apply NoDup_cons in HndT' as [HuT HndT1].
  split_and!; [done| |].
  - rewrite (Permutation_app_comm B [u]). cbn. constructor.
    apply NoDup_Permutation; [done..|]. intros x. split.
    + intros Hx. specialize (HB x Hx). destruct (proj1 (Hpo x) (or_intror Hx)) as [[Hk|Ht] Hn].
      * apply (proj1 stack_sides) in Hk. lia.
      * apply elem_of_cons in Ht as [->|]; [lia|done].
    + intros Hx. assert (Hxu : x <> u) by (intros ->; done).
      destruct (proj2 (Hpo x)) as [Ha|]; [| |done].
      * split; [right; by right|]. intros [Hg| ->]; [by apply (above_closed x)|done].
      * apply HA in Ha. apply above_lt in Hx. lia.
  - intros x. split.
    + intros Hx. specialize (HA x Hx). destruct (proj1 (Hpo x) (or_introl Hx)) as [[Hk|Ht] Hn].
      * split; [done|tauto].
      * apply (proj2 stack_sides) in Ht. lia.
    + intros [Hk Hg]. assert (x <> u) by (intros ->; apply (split_disjoint _ Hk); by left).
      destruct (proj2 (Hpo x)) as [|Hb]; [tauto|done|].
      apply HB in Hb. apply (proj1 stack_sides) in Hk. lia.
Qed.

Variables (flags : list bool) (A C : list nat) (comps : list (list nat)).
Hypothesis Hflen : length flags = count.
Hypothesis Hflags : forall x, flags !! x = Some true <-> x ∈ K.
Hypothesis HA : exists B, poStack c = A ++ B.
Hypothesis HA' : forall x, x ∈ A <-> x ∈ K /\ ~ gray F x.
Hypothesis HC : C ≡ₚ u :: T.
Hypothesis Hcomps : components (fun x => vis V x /\ x ∉ stack c) comps.

Definition popped : t :=
  mk (length comps + 1) (disc c) (discovery c) (lowLink c) flags K A ((comps ++ [C]) ++ [[]]).

Lemma comps_pop : components (fun x => vis V x /\ x ∉ K) (comps ++ [C]).
Proof.
  destruct Hcomps as [Hn Hnd Hs Ho].
  assert (Hcs : forall x, x ∈ u :: T -> vis V x /\ x ∈ stack c).
  { intros x Hx. assert (Hxs : x ∈ stack c) by (apply stack_split; by right).
    split; [by apply (si_vis _ _ _ HI)|done]. }
  split.
  - intros x. rewrite concat_app, elem_of_app, <- Hn. cbn. rewrite app_nil_r, HC, stack_split.
    pose proof (split_disjoint x). pose proof (Hcs x). destruct (decide (x ∈ u :: T)); tauto.
  - rewrite concat_app. cbn. rewrite app_nil_r. apply NoDup_app. split_and!; [done| |].
    + intros x [_ Hx]%Hn Hc. rewrite HC in Hc. by apply Hcs in Hc as [??].
    + rewrite HC. pose proof (si_sorted _ _ _ HI) as Hso. rewrite Hst in Hso.
      apply StronglySorted_app_1_r in Hso.
      clear -Hso. induction Hso as [|x l _ IH Hx]; constructor; [|done]. intros Hin.
      rewrite Forall_forall in Hx. specialize (Hx x Hin). lia.
  - apply Forall_app. split; [done|]. constructor; [|done]. by apply comp_is_scc.
  - intros i j X Y x y HX HY Hx Hy He.
    apply lookup_app_Some in HX as [HX|[Hi HX]].
    + apply lookup_app_Some in HY as [HY|[Hj HY]]; [by eapply Ho|].
      apply list_lookup_singleton_Some in HY as [_ <-]. rewrite HC in Hy.
      assert (Hxd : vis V x /\ x ∉ stack c).
      { apply Hn, list_elem_of_In, in_concat. exists X.
        split; apply list_elem_of_In; [by eapply list_elem_of_lookup_2|done]. }
      destruct (si_out _ _ _ HI x y (proj1 Hxd) (proj2 Hxd) He) as [_ Hys].
      by apply Hcs in Hy as [??].
    + apply list_lookup_singleton_Some in HX as [Hi' <-].
      apply lookup_lt_Some in HY. rewrite length_app in HY. cbn in HY. lia.
Qed.

Lemma inv_pop : inv F V popped.
Proof.
  pose proof gray_below as Hgb. pose proof gray_split as Hgs.
  pose proof (proj1 stack_sides) as HK.
  assert (Hks : forall x, x ∈ K -> x ∈ stack c) by (intros x Hx; apply stack_split; by left).
  assert (Hgk : forall g, gray F g -> g ∈ K).
  { intros g Hg. pose proof (Hgb g Hg). assert (Hs : g ∈ stack c).
    { apply (si_gray _ _ _ HI), Hgs. by left. }
    apply stack_split in Hs as [|Hs]; [done|]. apply (proj2 stack_sides) in Hs. lia. }
  assert (Hmid : forall x, x ∉ K -> x ∉ stack c \/ x ∈ u :: T).
  { intros x Hx. destruct (decide (x ∈ u :: T)); [by right|left]. rewrite stack_split. tauto. }
  split; split; cbn [popped discovery lowLink onStack stack poStack sccOrder scc disc];
    change (dn popped) with (dn c); change (lw popped) with (lw c); try done; try apply HI.
  - intros x Hx. apply (si_vis _ _ _ HI). auto.
  - pose proof (si_sorted _ _ _ HI) as Hs. rewrite Hst in Hs. by apply StronglySorted_app_1_l in Hs.
  - apply gray_sorted.
  - intros g d' n Hg. eapply (si_done _ _ _ HI); [by apply frame_in].
  - apply closed_links.
  - intros x y Hx Hxk He. eapply complete_closed; [done..|]. by apply rtc_once.
  - intros x y Hx Hy. apply (si_reach _ _ _ HI); auto.
  - intros y Hy. destruct (si_back _ _ _ HI y) as (g&Hg&Hdg&Hr); [auto|].
    apply Hgs in Hg as [Hg| ->]; [by exists g|]. apply HK in Hy. lia.
  - intros x Hx. destruct (si_low _ _ _ HI x) as (Hle&y&Hy&Hr&E); [auto|]. split; [done|].
    exists y. split_and!; [|done..]. apply stack_split in Hy as [|Hy]; [done|].
    apply (proj2 stack_sides) in Hy. apply HK in Hx. lia.
  - intros x y Hx Hg He Hy. apply (si_cross _ _ _ HI); [auto| |done|auto]. rewrite Hgs.
    intros [?| ->]; [done|]. apply HK in Hx. lia.
  - intros g d' y Hg Hy Hk. eapply (si_gcross _ _ _ HI); [by apply frame_in|done|auto].
  - intros g d' x Hg Hx Hdx Hmax. eapply (si_child _ _ _ HI); [by apply frame_in|auto|done|].
    intros g' [Hg'| ->]%Hgs Hdg; [by apply Hmax|]. apply HK in Hx. lia.
  - intros m g Hm [Hs|Hs]%Hmid Hg Hlt.
    + eapply (si_popped _ _ _ HI); [done..| |done]. apply Hgs. by left.
    + pose proof (proj2 stack_sides m Hs). pose proof (Hgb g Hg).
      assert (lw c u <= lw c m)%nat; [|lia]. apply Hbound; [|done]. apply stack_split. by right.
  - destruct HA as [B E]. pose proof (si_post_nodup _ _ _ HI) as Hnd. rewrite E in Hnd.
    by apply NoDup_app in Hnd as (?&_).
  - intros g Hg. destruct HA as [B E].
    destruct (si_split _ _ _ HI g) as (A1&B1&E1&HA1&HB1); [apply Hgs; by left|].
    rewrite E in E1. apply app_eq_inv in E1 as [(k&->&->)|(k&->&->)].
    + exists A1, k. split_and!; [done..|]. intros x Hx. apply HB1, elem_of_app. by left.
    + exists A, []. rewrite app_nil_r. split_and!; [done| |by intros x ?%elem_of_nil].
      intros x Hx. apply HA1, elem_of_app. by left.
  - exists (comps ++ [C]). rewrite length_app. split_and!; [done..|]. apply comps_pop.
Qed.
End Pop.
End Keep.

Lemma unwind_spec u l r fl : u ∉ l -> Forall (fun x => x < length fl)%nat (l ++ [u]) ->
  exists fl', unwind u (l ++ u :: r) fl = Ok (S (length l), fl') /\ length fl' = length fl /\
    forall x, fl' !! x = Some true <-> fl !! x = Some true /\ x ∉ l ++ [u].
Proof.
  revert fl. induction l as [|y l IH]; intros fl Hu Hlt; cbn [app unwind length].
  - rewrite vec_set_lt by (by apply Forall_cons in Hlt as [? _]). cbn [mbind res_bind].
    rewrite Nat.eqb_refl. eexists. split; [done|]. rewrite length_insert. split; [done|]. intros x.
    cbn. rewrite list_elem_of_singleton. destruct (decide (x = u)) as [->|Hne].
    + rewrite list_lookup_insert_eq by (by apply Forall_cons in Hlt as [? _]). naive_solver.
    + rewrite list_lookup_insert_ne by done. naive_solver.
  - apply not_elem_of_cons in Hu as [Huy Hu]. cbn in Hlt. apply Forall_cons in Hlt as [Hy Hlt].
    rewrite vec_set_lt by done. cbn [mbind res_bind].
    rewrite (proj2 (Nat.eqb_neq y u)) by done.
    destruct (IH (<[y := false]> fl) Hu) as (fl'&->&Hlen&Hfl); [by rewrite length_insert|].
    exists fl'. rewrite length_insert in Hlen. split_and!; [done..|]. intros x. rewrite Hfl.
    cbn. rewrite elem_of_cons. destruct (decide (x = y)) as [->|Hne].
    + rewrite list_lookup_insert_eq by done. naive_solver.
    + rewrite list_lookup_insert_ne by done. naive_solver.
Qed.

Section Post.
Variable f : FinishType.
Hypothesis Hf : forall l : list nat, @finish f nat l ≡ₚ l.

Lemma inv_post F V c u d : inv (F ++ [(u, d)]) V c -> (forall n, n ∈ ls u <-> n ∈ d) ->
  (forall F0 p dp, F = F0 ++ [(p, dp)] -> u ∈ dp) ->
  exists c', post_visit f (ls u) u c = Ok c' /\ inv F V c'.
Proof.
  intros HI0 Hd Hpar. destruct (inv_relax F V c u d HI0 Hd) as (low&El&HI&Hbound).
  change (dn c) with (dn (with_low c low)) in Hbound.
  change (stack c) with (stack (with_low c low)) in Hbound.
  pose proof (top_stack _ _ _ _ _ HI) as Hu. pose proof (stack_lt _ _ _ _ HI Hu) as Huc.
  unfold post_visit. rewrite El. cbn [mbind res_bind].
  rewrite (vec_at_dn _ _ _ _ HI0 Huc). cbn [mbind res_bind].
  assert (El' : vec_at low u = Ok (lw (with_low c low) u)) by apply (vec_at_lw _ _ _ _ HI Huc).
  rewrite El'. cbn [mbind res_bind].
  destruct (Nat.eqb_spec (dn c u) (lw (with_low c low) u)) as [E|Hne].
  2:{ eexists. split; [done|].
      exact (inv_keep F V (with_low c low) u d HI Hd Hbound Hpar (not_eq_sym Hne)). }
  destruct (list_elem_of_split _ _ Hu) as (K&T&Est).
  destruct (split_post _ _ _ _ _ HI (eq_sym E) K T Est) as (A&B&Epo&HB&HA).
  assert (HT : u ∉ T) by (intros Hin; apply (above_lt _ _ _ _ _ HI K T Est) in Hin; lia).
  destruct (si_comps _ _ _ HI) as (comps&Eo&Es&Hc).
  cbn [stack poStack sccOrder scc with_low] in Est, Epo, Eo, Es.
  rewrite Est, rev_app_distr. cbn [rev]. rewrite <- (app_assoc (rev T)). cbn [app].
  destruct (unwind_spec u (rev T) (rev K) (onStack c)) as (fl&Efl&Hflen&Hfl).
  { by rewrite <- Permutation_rev. }
  { rewrite (si_flag_len _ _ _ HI0). apply Forall_forall. intros x Hx.
    apply (stack_lt _ _ _ _ HI0). rewrite Est. rewrite elem_of_app, <- Permutation_rev in Hx.
    apply elem_of_app. right. apply elem_of_cons. rewrite list_elem_of_singleton in Hx. tauto. }
  rewrite Efl. cbn [mbind res_bind]. rewrite length_rev, Epo.
  assert (HBlen : length B = length T) by (apply Permutation_length in HB; rewrite length_app in HB; cbn in HB; lia).
  rewrite !length_app. cbn [length]. rewrite (proj2 (Nat.ltb_ge _ _)) by lia.
  rewrite Eo, Es, (vec_at_Some _ _ []) by by rewrite list_lookup_middle. cbn [mbind res_bind].
  rewrite vec_set_lt by (rewrite length_app; cbn; lia). cbn [mbind res_bind].
  rewrite insert_app_r_alt, Nat.sub_diag by done. cbn [insert list_insert].
  replace (length K + S (length T) - S (length T))%nat with (length K) by lia.
  replace (length A + length B + 1 - S (length T))%nat with (length A) by lia.
  rewrite take_app_length, <- app_assoc, take_app_length, drop_app_length.
  eexists. split; [done|].
  apply (inv_pop F V (with_low c low) u d HI Hd Hbound (eq_sym E) K T Est fl A _ comps).
  - by rewrite Hflen, (si_flag_len _ _ _ HI0).
  - intros x. rewrite Hfl, (si_flags _ _ _ HI0). rewrite elem_of_app, <- Permutation_rev.
    change (stack c) with (stack (with_low c low)). rewrite (stack_split (with_low c low) u K T Est).
    pose proof (split_disjoint _ _ _ _ _ HI (eq_sym E) K T Est x) as Hdis.
    rewrite list_elem_of_singleton. rewrite elem_of_cons in *. tauto.
  - by exists B.
  - done.
  - by rewrite Hf.
  - done.
Qed.
End Post.
End Tarjan.

(** ** The components of a graph *)

Section Components.
Context {G : Type} `{GraphBase G} (graph : G) `{!GraphLaws graph}.
Variable dir : Z.
Variable f : FinishType.
Hypothesis Hf : forall l : list nat, @finish f nat l ≡ₚ l.
Abbreviation ls := (links graph dir).
Abbreviation count := (getCount graph).
#[local] Instance scc_walker : Walker t := SccCollection.walker f.

Lemma scc_events V u l V' es : dfs ls V u l V' es -> forall F d c,
  ls u = d ++ l -> inv ls count (F ++ [(u, d)]) V c ->
  exists c', run graph dir es c = Ok c' /\ inv ls count (F ++ [(u, ls u)]) V' c'.
Proof.
  induction 1 as [V u|V u n l V1 V2 es1 es2 Hn H1 IH1 H2 IH2|V u n l V2 es2 Hn H2 IH];
    intros F d c E HI.
  - exists c. rewrite E, app_nil_r. done.
  - assert (He : step ls u n) by (unfold step; rewrite E; apply elem_of_app; right; by left).
    assert (HI1 : inv ls count ((F ++ [(u, d)]) ++ [(n, [])]) (<[n := true]> V) (entered c n)).
    { apply inv_enter; [done..|]. intros F0 u' d' Eq. by apply app_inj_tail in Eq as [_ [= -> ->]]. }
    assert (Hu : V !! u = Some true) by (apply (si_vis _ _ _ _ HI), (si_gray _ _ _ _ HI), top_gray).
    rewrite <- app_assoc in HI1. cbn [app] in HI1. apply (inv_link _ _ F u d [(n, [])] n) in HI1.
    2:{ apply list_lookup_insert_eq. by eapply lookup_lt_Some. }
    2:{ intros _ Hlt. erewrite enter_dn_new, enter_dn in Hlt by done.
        pose proof (si_disc _ _ _ _ HI u Hu). lia. }
    replace (F ++ (u, d ++ [n]) :: [(n, [])]) with ((F ++ [(u, d ++ [n])]) ++ [(n, [])]) in HI1
      by by rewrite <- app_assoc.
    destruct (IH1 _ [] _ eq_refl HI1) as (c2&E2&HI2).
    destruct (inv_post _ _ f Hf (F ++ [(u, d ++ [n])]) V1 c2 n (ls n) HI2) as (c3&E3&HI3); [done| |].
    { intros F0 p dp Eq. apply app_inj_tail in Eq as [_ [= <- <-]]. apply elem_of_app. right. by left. }
    destruct (IH2 F (d ++ [n]) c3) as (c4&E4&HI4); [by rewrite <- app_assoc|done|].
    exists c4. split; [|done]. cbn [run on_event scc_walker SccCollection.walker w_preVisit].
    erewrite pre_visit_entered by done. cbn [mbind res_bind]. rewrite run_app, E2.
    cbn [mbind res_bind run on_event scc_walker SccCollection.walker w_postVisit]. by rewrite E3.
  - assert (He : step ls u n) by (unfold step; rewrite E; apply elem_of_app; right; by left).
    destruct (inv_late _ _ F V c u d n HI Hn He) as (c1&E1&HI1).
    destruct (IH F (d ++ [n]) c1) as (c2&E2&HI2); [by rewrite <- app_assoc|done|].
    exists c2. split; [|done]. cbn [run on_event scc_walker SccCollection.walker w_lateVisit].
    by rewrite E1.
Qed.

(** A walk from a new node completes all the components it opens. *)
Lemma scc_walk V r V' es c : dfs ls V r [r] V' es -> V !! r = Some false -> inv ls count [] V c ->
  exists c', run graph dir es c = Ok c' /\ inv ls count [] V' c'.
Proof.
  intros Hd Hr HI. inversion Hd as [|? ? n l V1 V2 es1 es2 Hn H1 H2|? ? n l V2 es2 Hn]; subst;
    [|congruence]. inversion H2; subst.
  assert (HI1 : inv ls count ([] ++ [(r, [])]) (<[r := true]> V) (entered c r))
    by (apply inv_enter; [done..|by intros []]).
  destruct (scc_events _ _ _ _ _ H1 [] [] _ eq_refl HI1) as (c2&E2&HI2).
  destruct (inv_post _ _ f Hf [] V' c2 r (ls r) HI2) as (c3&E3&HI3); [done|by intros []|].
  exists c3. split; [|done]. cbn [run on_event scc_walker SccCollection.walker w_preVisit].
  erewrite pre_visit_entered by done. cbn [mbind res_bind]. rewrite run_app, E2.
  cbn [mbind res_bind run on_event scc_walker SccCollection.walker w_postVisit]. by rewrite E3.
Qed.

Lemma inv_start : inv ls count [] (replicate count false) (reset (new count)).
Proof.
  assert (Hv : forall x, replicate count false !! x <> Some true)
    by (intros x [? _]%lookup_replicate; done).
  split; split; cbn; rewrite ?length_replicate; try done; try (by intros; exfalso; eapply Hv);
    try (by intros ? ?%elem_of_nil); try (by intros ? ? ?%elem_of_nil);
    try (by intros ? ? ? ?%elem_of_nil); try constructor.
  - by intros ?%Hv.
  - by intros ?%elem_of_nil.
  - by intros ?%elem_of_nil.
  - by intros [?%elem_of_nil _].
  - exists []. split_and!; [done..|]. split; [|constructor|constructor|by intros []].
    intros x. split; [by intros [?%Hv _]|by intros ?%elem_of_nil].
Qed.

(** The nodes that have been left are the visited ones. *)
Lemma inv_finished V c : inv ls count [] V c ->
  exists comps, sccOrder c = comps ++ [[]] /\ components ls (fun x => V !! x = Some true) comps.
Proof.
  intros HI. destruct (si_comps _ _ _ _ HI) as (comps&E&_&[Hn ???]). exists comps. split; [done|].
  split; [|done..]. intros x. rewrite <- Hn, (stack_empty _ _ _ _ HI). split; [|tauto].
  intros ?. split; [done|apply not_elem_of_nil].
Qed.

(** The rounds of [walkAll] over the nodes not visited yet. *)
Lemma scc_rest ids V c : inv ls count [] V c -> Forall (fun x => x < count)%nat ids ->
  exists V' c', DFSWalkerBase.walkRest graph dir ids (V, c) = Ok (V', c') /\
    inv ls count [] V' c' /\
    (forall x, V !! x = Some true -> V' !! x = Some true) /\
    (forall x, x ∈ ids -> V' !! x = Some true).
Proof.
  intros HI Hids. revert V c HI. induction Hids as [|i ids Hi _ IH]; intros V c HI; cbn [DFSWalkerBase.walkRest].
  - exists V, c. split_and!; [done..|]. by intros x ?%elem_of_nil.
  - destruct (lookup_lt_is_Some_2 V i) as [b Eb]; [by rewrite (si_vis_len _ _ _ _ HI)|].
    cbn [fst snd]. rewrite Eb. destruct b.
    + destruct (IH V c HI) as (V'&c'&E&HI'&Hm&Hx). exists V', c'. split_and!; [done..|].
      intros x [->|?]%elem_of_cons; auto.
    + destruct (walkHelper_events graph dir i V) as (V1&es&Hd&Hw);
        [by rewrite (si_vis_len _ _ _ _ HI)|done|].
      destruct (scc_walk V i V1 es c Hd Eb HI) as (c1&Er&HI1).
      assert (E1 : DFSWalkerBase.walkHelper graph dir (DFSWalkerBase.fuel graph) i (V, w_tick c) = Ok (V1, c1)).
      { rewrite (Hw t scc_walker). change (w_tick c) with c. by rewrite Er. }
      rewrite E1. cbn [mbind res_bind].
      destruct (IH V1 c1 HI1) as (V'&c'&E&HI'&Hm&Hx). exists V', c'. split_and!; [done..| |].
      * intros x Hx'. apply Hm, (dfs_marked _ _ _ _ _ _ Hd). by left.
      * intros x [->|?]%elem_of_cons; [|auto]. apply Hm, (dfs_closed _ _ _ _ _ _ Hd). by left.
Qed.
End Components.

(** ** The result *)

(** [SccOrder]: lists of nodes such that every node of [P] is in exactly one, each list
    is a strongly connected component, and no link leads to an earlier list. *)
Record scc_order {G} `{GraphBase G} (graph : G) (dir : Z) (P : nat -> Prop)
    (orders : list (list nat)) : Prop := {
  so_nodes x : P x <-> x ∈ concat orders;
  so_nodup : NoDup (concat orders);
  so_scc C x y : C ∈ orders -> x ∈ C ->
    (y ∈ C <-> rtc (edge graph dir) x y /\ rtc (edge graph dir) y x);
  so_nonempty C : C ∈ orders -> C <> [];
  so_order i j C D x y : orders !! i = Some C -> orders !! j = Some D -> x ∈ C -> y ∈ D ->
    edge graph dir x y -> (i <= j)%nat }.

Lemma concat_rev_perm {A} (l : list (list A)) : concat (rev l) ≡ₚ concat l.
Proof. by rewrite <- Permutation_rev. Qed.

Lemma rev_lookup {A} (l : list A) i x : rev l !! i = Some x ->
  l !! (length l - S i)%nat = Some x /\ (i < length l)%nat.
Proof.
  intros Hi. pose proof (lookup_lt_Some _ _ _ Hi) as Hl. rewrite length_rev in Hl.
  change (rev l) with (rev l) in Hi. rewrite rev_alt in Hi. change (rev_append l []) with (reverse l) in Hi.
  by rewrite reverse_lookup in Hi.
Qed.

Lemma components_order {G} `{GraphBase G} (graph : G) dir P comps :
  components (links graph dir) P comps -> scc_order graph dir P (rev comps).
Proof.
  intros [Hn Hnd Hs Ho]. rewrite Forall_forall in Hs. split.
  - intros x. by rewrite concat_rev_perm.
  - by rewrite concat_rev_perm.
  - intros C x y HC Hx. rewrite <- Permutation_rev in HC. by apply (Hs C HC).
  - intros C HC. rewrite <- Permutation_rev in HC. by apply (Hs C HC).
  - intros i j C D x y [HC Hi]%rev_lookup [HD Hj]%rev_lookup Hx Hy He.
    pose proof (Ho _ _ _ _ _ _ HC HD Hx Hy He). lia.
Qed.

Section Results.
Context {G : Type} `{GraphBase G} (graph : G) `{!GraphLaws graph}.
Variable dir : Z.

Lemma reverse_perm (l : list nat) : @finish ReverseFinisher nat l ≡ₚ l.
Proof. symmetry. apply Permutation_rev. Qed.

Lemma finish_comps c comps : sccOrder c = comps ++ [[]] ->
  get <$> finish_all ReverseFinisher c = Ok (rev comps).
Proof.
  intros E. unfold finish_all. rewrite E. destruct (comps ++ [[]]) eqn:E'; [by destruct comps|].
  rewrite <- E', removelast_last. done.
Qed.

Lemma gen_scc_correct id : (id < getCount graph)%nat -> exists orders,
  gen_scc graph dir ReverseFinisher id = Ok orders /\
  scc_order graph dir (rtc (edge graph dir) id) orders.
Proof.
  intros Hid.
  destruct (walkHelper_events graph dir id (replicate (getCount graph) false)) as (V'&es&Hd&Hw);
    [apply length_replicate|by apply lookup_replicate_2|].
  destruct (scc_walk graph dir ReverseFinisher reverse_perm _ _ _ _ _ Hd (lookup_replicate_2 _ _ _ Hid)
    (inv_start graph dir)) as (c&Er&HI).
  destruct (inv_finished _ _ _ _ HI) as (comps&Eo&Hc). exists (rev comps). split.
  - unfold gen_scc, DFSWalkerBase.walk, DFSWalkerBase.start.
    rewrite (Hw _ (SccCollection.walker ReverseFinisher)). change (w_reset _) with (reset (new (getCount graph))).
    unfold scc_walker in Er. rewrite Er. cbn [mbind res_bind snd]. by apply finish_comps.
  - apply components_order. destruct Hc as [Hn ???]. split; [|done..].
    intros x. rewrite <- Hn, (dfs_marked _ _ _ _ _ _ Hd), (fresh_reach _ _ _ _ _ Hd).
    split; [by right|]. intros [Hx|]; [|done]. by apply fresh_unmarked in Hx.
Qed.

Lemma genFull_scc_correct id : (id < getCount graph)%nat -> id = 0%nat -> exists orders,
  genFull_scc graph dir ReverseFinisher id = Ok orders /\
  scc_order graph dir (fun x => x < getCount graph)%nat orders.
Proof.
  intros Hid E0.
  destruct (walkHelper_events graph dir id (replicate (getCount graph) false)) as (V'&es&Hd&Hw);
    [apply length_replicate|by apply lookup_replicate_2|].
  destruct (scc_walk graph dir ReverseFinisher reverse_perm _ _ _ _ _ Hd (lookup_replicate_2 _ _ _ Hid)
    (inv_start graph dir)) as (c&Er&HI).
  destruct (scc_rest graph dir ReverseFinisher reverse_perm (seq 1 (getCount graph - 1)) V' c HI)
    as (W&c'&Ew&HI'&Hm&Hx).
  { apply Forall_forall. intros x Hx%elem_of_seq. lia. }
  destruct (inv_finished _ _ _ _ HI') as (comps&Eo&Hc). exists (rev comps). split.
  - unfold genFull_scc, DFSWalkerBase.walkAll, DFSWalkerBase.start.
    rewrite (Hw _ (SccCollection.walker ReverseFinisher)). change (w_reset _) with (reset (new (getCount graph))).
    unfold scc_walker in Er, Ew. rewrite Er. cbn [mbind res_bind].
    rewrite Ew. cbn [mbind res_bind snd]. by apply finish_comps.
  - apply components_order. destruct Hc as [Hn ???]. split; [|done..].
    intros x. rewrite <- Hn. split.
    + intros Hxc. destruct (decide (x = id)) as [->|Hne].
      * apply Hm, (dfs_closed _ _ _ _ _ _ Hd). by left.
      * apply Hx, elem_of_seq. lia.
    + intros Hv%lookup_lt_Some. by rewrite (si_vis_len _ _ _ _ HI') in Hv.
Qed.
End Results.
