(* ===== verification/Dominance.v ===== *)
(** * Dominators: src/analysis/dominance.h and dominance.cpp

    The immediate dominators of the nodes that are reached from node 0, by the iterative
    algorithm of Cooper, Harvey and Kennedy on a reverse postorder, and the queries on
    them.  The theorems are in DominanceProofs. *)

From S2P Require Import Prelude Graph.

(** [None] is the number -1: no dominator is known yet. *)
Record Dominance := mkDominance {
  idoms : list (option nat);
  idMap : list Z }.

Module Dom.
Section Intersect.
Variables (idoms : list (option nat)) (idMap : list Z).

(** [while(idoms[finger] != -1 && idMap[finger] > idMap[other]) finger = idoms[finger];] *)
Fixpoint climb (fuel : nat) (finger other : nat) : res nat :=
  match fuel with
  | O => Err OutOfFuel
  | S fuel =>
    up ← vec_at idoms finger;
    match up with
    | None => Ok finger
    | Some next =>
      m ← vec_at idMap finger; m' ← vec_at idMap other;
      if m' <? m then climb fuel next other else Ok finger
    end
  end.

Fixpoint intersect_loop (fuel : nat) (finger1 finger2 : nat) : res nat :=
  match fuel with
  | O => Err OutOfFuel
  | S fuel' =>
    if (finger1 =? finger2)%nat then Ok finger1
    else
      up1 ← vec_at idoms finger1;
      match up1 with
      | None => Ok finger2
      | Some _ =>
        up2 ← vec_at idoms finger2;
        match up2 with
        | None => Ok finger1
        | Some _ =>
          finger1 ← climb fuel finger1 finger2;
          finger2 ← climb fuel finger2 finger1;
          intersect_loop fuel' finger1 finger2
        end
      end
  end.

(** Every round moves a finger up, and there are no more positions than nodes. *)
Definition intersect (i1 i2 : nat) : res nat :=
  intersect_loop (S (2 * length idoms)) i1 i2.

(** The loop over the backward links of a node; [idom] is [None] as long as [first]. *)
Fixpoint common (preds : list nat) (idom : option nat) : res (option nat) :=
  match preds with
  | [] => Ok idom
  | pred :: preds =>
    up ← vec_at idoms pred;
    match up with
    | None => common preds idom
    | Some _ =>
      match idom with
      | None => common preds (Some pred)
      | Some i => i ← intersect pred i; common preds (Some i)
      end
    end
  end.
End Intersect.

Section Construct.
Context {G : Type} `{GraphBase G}.
Variable cfg : G.
Variable idMap : list Z.

(** The body of the loop over [order]. *)
Definition update (id : nat) (st : list (option nat) * bool) : res (list (option nat) * bool) :=
  let '(idoms, changed) := st in
  if (id =? 0)%nat then
    idoms ← vec_set idoms 0 (Some 0%nat); Ok (idoms, changed)
  else
    preds ← getLinks cfg id (-1);
    idom ← common idoms idMap preds None;
    old ← vec_at idoms id;
    if decide (old = idom) then Ok (idoms, changed)
    else idoms ← vec_set idoms id idom; Ok (idoms, true).

Fixpoint pass (order : list nat) (st : list (option nat) * bool) : res (list (option nat) * bool) :=
  match order with
  | [] => Ok st
  | id :: order => st ← update id st; pass order st
  end.

(** [while(changed)] *)
Fixpoint iterate (fuel : nat) (order : list nat) (idoms : list (option nat)) : res (list (option nat)) :=
  match fuel with
  | O => Err OutOfFuel
  | S fuel =>
    '(idoms, changed) ← pass order (idoms, false);
    if (changed : bool) then iterate fuel order idoms else Ok idoms
  end.
End Construct.

(** [for(size_t i = 0; i < order.size(); i++) idMap[order[i]] = i;] *)
Fixpoint number (order : list nat) (i : Z) (idMap : list Z) : res (list Z) :=
  match order with
  | [] => Ok idMap
  | id :: order => idMap ← vec_set idMap id i; number order (i + 1) idMap
  end.

Section Queries.
Context {G : Type} `{GraphBase G}.
Variable cfg : G.

(** The constructor.  The strongly connected components are computed for the log only. *)
Definition new : res Dominance :=
  _ ← SccOrder cfg 0;
  rpo ← ReversePostorder cfg 0;
  order ← first_order rpo;
  idMap ← number order 0 (replicate (getCount cfg) (-1));
  idoms ← iterate cfg idMap (S (S (getCount cfg * getCount cfg))) order
            (replicate (getCount cfg) None);
  Ok (mkDominance idoms idMap).

(** [while(id != 0)]; a walk over the number -1 leaves the vector. *)
Fixpoint dominators_loop (fuel : nat) (idoms : list (option nat)) (id : nat) : res (list nat) :=
  match fuel with
  | O => Err OutOfFuel
  | S fuel =>
    if (id =? 0)%nat then Ok [0%nat]
    else
      up ← vec_at idoms id;
      match up with
      | None => Err OutOfBounds
      | Some next => doms ← dominators_loop fuel idoms next; Ok (id :: doms)
      end
  end.
Definition getDominators (d : Dominance) (id : nat) : res (list nat) :=
  dominators_loop (S (length (idoms d))) (idoms d) id.

(** [std::set_intersection] *)
Fixpoint set_intersection (v1 v2 : list nat) : list nat :=
  let fix go (v2 : list nat) : list nat :=
    match v1, v2 with
    | x :: v1', y :: v2' =>
      if (x <? y)%nat then set_intersection v1' v2
      else if (y <? x)%nat then go v2'
      else x :: set_intersection v1' v2'
    | _, _ => []
    end in
  go v2.

Definition sort (v : list nat) : list nat := merge_sort le v.

(** The nodes of [order] without forward links. *)
Fixpoint exit_nodes (order : list nat) : res (list nat) :=
  match order with
  | [] => Ok []
  | nid :: order =>
    links ← getLinks cfg nid 1;
    rest ← exit_nodes order;
    Ok (match links with [] => nid :: rest | _ => rest end)
  end.

Fixpoint cap_all (d : Dominance) (exits : list nat) (pdom : list nat) : res (list nat) :=
  match exits with
  | [] => Ok pdom
  | e :: exits =>
    pdom2 ← getDominators d e;
    let pdom := set_intersection pdom (sort pdom2) in
    match pdom with [] => Ok pdom | _ => cap_all d exits pdom end
  end.

(** The argument is not used, and the map of the object is changed. *)
Definition getPostDominators (d : Dominance) (id : nat) : res (list nat * Dominance) :=
  po ← Preorder cfg 0;
  order ← first_order po;
  idMap ← number order 0 (idMap d);
  let d := mkDominance (idoms d) idMap in
  exitNodes ← exit_nodes order;
  match exitNodes with
  | [] => Ok ([], d)
  | e :: exits =>
    pdom ← getDominators d e;
    pdom ← cap_all d exits pdom;
    Ok (pdom, d)
  end.
End Queries.
End Dom.
