(* ===== verification/DominanceProofs.v ===== *)
(** * Correctness of the dominators of Dominance

    The constructor ends, and the list that [getDominators] gives for a node that is
    reached from node 0 holds exactly its dominators, from the node up to node 0. *)

From stdpp Require Import relations.
From S2P Require Import Prelude Graph GraphProofs Dominance.
Import Dom.

(** ** Dominance *)

Section Paths.
Context {G : Type} `{GraphBase G} (cfg : G).

(** A path from node 0, last node first. *)
Inductive path : list nat -> nat -> Prop :=
| path_start : path [0%nat] 0
| path_edge l p x : path l p -> edge cfg 1 p x -> path (x :: l) x.

(** Every path to [x] goes through [d]. *)
Definition dominates (d x : nat) : Prop := forall l, path l x -> d ∈ l.

Lemma dominates_refl x : dominates x x.
Proof. intros l Hl. destruct Hl; by left. Qed.

Lemma dominates_zero d : dominates d 0 -> d = 0%nat.
Proof. intros Hd. by apply list_elem_of_singleton, Hd, path_start. Qed.

Lemma dominates_pred d p x : dominates d x -> d <> x -> edge cfg 1 p x -> dominates d p.
Proof.
  intros Hd Hne He l Hl. specialize (Hd (x :: l) (path_edge _ _ _ Hl He)).
  by apply elem_of_cons in Hd as [->|].
Qed.

Lemma path_reach l x : path l x -> rtc (edge cfg 1) 0%nat x.
Proof. induction 1 as [|l p x _ IH He]; [done|]. by eapply rtc_r. Qed.
End Paths.

(** ** The state of the iteration *)

Lemma number_spec order i M : NoDup order -> Forall (fun x => x < length M)%nat order ->
  exists m, number order i M = Ok m /\ length m = length M /\
    (forall k x, order !! k = Some x -> m !! x = Some (i + Z.of_nat k)) /\
    (forall x, x ∉ order -> m !! x = M !! x).
Proof.
  intros Hnd Hlt. revert i M Hlt. induction Hnd as [|x order Hx Hnd IH]; intros i M Hlt.
  - by exists M.
  - apply Forall_cons in Hlt as [Hx1 Hlt]. cbn [number]. rewrite vec_set_lt by done.
    destruct (IH (i + 1) (<[x := i]> M)) as (m&E&Hl&Hk&Ho); [by rewrite length_insert|].
    exists m. split; [done|]. rewrite length_insert in Hl. split_and!; [done|..].
    + intros [|k] y Hy; cbn in Hy; simplify_eq.
      * rewrite Ho, list_lookup_insert_eq by done. f_equal. lia.
      * rewrite (Hk k y Hy). f_equal. lia.
    + intros y Hy. apply not_elem_of_cons in Hy as [Hne Hy].
      by rewrite Ho, list_lookup_insert_ne by done.
Qed.

Section Iteration.
Context {G : Type} `{GraphBase G} (cfg : G) `{!GraphLaws cfg}.
Variable order : list nat.
Variable idMap : list Z.

(** What the constructor knows of the reverse postorder and its numbering. *)
Record numbered : Prop := {
  num_reach x : x ∈ order <-> rtc (edge cfg 1) 0%nat x;
  num_lt x : x ∈ order -> (x < getCount cfg)%nat;
  num_parent a x b : order = a ++ x :: b -> x <> 0%nat -> exists p, p ∈ a /\ edge cfg 1 p x;
  num_map k x : order !! k = Some x -> idMap !! x = Some (Z.of_nat k);
  num_nodup : NoDup order;
  num_zero : order !! 0%nat = Some 0%nat;
  num_short : (length order <= getCount cfg)%nat }.
Hypothesis Hnum : numbered.

(** The position of a node. *)
Definition pos (x : nat) : nat := Z.to_nat (default 0 (idMap !! x)).

Lemma pos_map x : x ∈ order -> idMap !! x = Some (Z.of_nat (pos x)) /\ order !! pos x = Some x.
Proof.
  intros [k Hk]%list_elem_of_lookup. unfold pos. rewrite (num_map Hnum _ _ Hk). cbn.
  by rewrite Nat2Z.id.
Qed.

Lemma pos_inj x y : x ∈ order -> y ∈ order -> pos x = pos y -> x = y.
Proof. intros [_ Hx]%pos_map [_ Hy]%pos_map E. rewrite E in Hx. congruence. Qed.

Lemma pos_zero : pos 0 = 0%nat.
Proof. unfold pos. by rewrite (num_map Hnum _ _ (num_zero Hnum)). Qed.

Lemma pos_lt x : x ∈ order -> (pos x < getCount cfg)%nat.
Proof.
  intros [_ Hx]%pos_map. apply lookup_lt_Some in Hx. pose proof (num_short Hnum). lia.
Qed.

Lemma zero_in : 0%nat ∈ order.
Proof. eapply list_elem_of_lookup_2, num_zero, Hnum. Qed.

(** The immediate dominator recorded for a node, and the nodes above it. *)
Definition up (I : list (option nat)) (x : nat) : option nat := mjoin (I !! x).
Abbreviation known I x := (is_Some (up I x)).
Definition parent (I : list (option nat)) (x y : nat) : Prop := x <> 0%nat /\ up I x = Some y.
Abbreviation above I := (rtc (parent I)).

Record tree (I : list (option nat)) : Prop := {
  tree_length : length I = getCount cfg;
  tree_zero : up I 0 = Some 0%nat;
  tree_in x y : up I x = Some y -> x ∈ order;
  tree_up x y : up I x = Some y -> x <> 0%nat -> known I y /\ (pos y < pos x)%nat;
  tree_dom x y d : up I x = Some y -> x <> 0%nat -> d <> x -> dominates cfg d x ->
    dominates cfg d y }.

Section Tree.
Variable I : list (option nat).
Hypothesis HI : tree I.

Lemma known_in x : known I x -> x ∈ order.
Proof. intros [y Hy]. by eapply tree_in. Qed.

Lemma above_known x y : above I x y -> known I x -> known I y.
Proof.
  induction 1 as [|x y z [H0 Hu] _ IH]; [done|]. intros _. apply IH. by eapply tree_up.
Qed.

Lemma above_pos x y : above I x y -> x = y \/ (pos y < pos x)%nat.
Proof.
  induction 1 as [|x y z [H0 Hu] _ IH]; [by left|]. right.
  destruct (tree_up _ HI x y Hu H0) as [_ ?]. destruct IH as [->|]; lia.
Qed.

Lemma above_le x y : above I x y -> (pos y <= pos x)%nat.
Proof. intros [->|?]%above_pos; lia. Qed.

(** A node above [x] other than [x] is above its parent. *)
Lemma above_next x y z : up I x = Some y -> above I x z -> x <> z -> above I y z.
Proof. intros Hu Hz Hne. inversion Hz as [|? y' ? [_ Hu'] ?]; simplify_eq; done. Qed.

Lemma above_zero z : above I 0%nat z -> z = 0%nat.
Proof. inversion 1 as [|? ? ? [Hz _]]; [done|done]. Qed.

(** All dominators of a node are above it. *)
Lemma dominates_above d x : known I x -> dominates cfg d x -> above I x d.
Proof.
  intros Hx. remember (pos x) as n eqn:En. revert x Hx En.
  induction n as [n IH] using lt_wf_ind. intros x [y Hy] -> Hd.
  destruct (decide (d = x)) as [->|Hne]; [done|].
  destruct (decide (x = 0%nat)) as [->|H0]; [by apply dominates_zero in Hd|].
  destruct (tree_up _ HI x y Hy H0) as [Hk Hp]. eapply rtc_l; [by split|].
  eapply (IH (pos y)); [done..|]. by eapply tree_dom.
Qed.

(** A dominator of a node dominates the nodes on the way up to it. *)
Lemma dominates_up d x y : above I x y -> dominates cfg d x -> (pos d <= pos y)%nat ->
  dominates cfg d y.
Proof.
  induction 1 as [|x y z [H0 Hu] Hyz IH]; [done|]. intros Hd Hp. apply IH; [|done].
  eapply tree_dom; [done..| |done]. intros ->.
  destruct (tree_up _ HI x y Hu H0). pose proof (above_le _ _ Hyz). lia.
Qed.

(** ** Common ancestors *)

Definition common_above (x y z : nat) : Prop :=
  above I x z /\ above I y z /\ known I z /\
  forall d, above I x d -> above I y d -> above I z d.

Lemma vec_at_up x y : up I x = Some y -> vec_at I x = Ok (Some y).
Proof. unfold up, vec_at. by destruct (I !! x) as [[]|]; intros; simplify_eq/=. Qed.

Lemma vec_at_map x : known I x -> vec_at idMap x = Ok (Z.of_nat (pos x)).
Proof. intros Hx%known_in. apply vec_at_Some. by apply pos_map. Qed.

Lemma climb_spec fuel x o : known I x -> known I o -> (pos x < fuel)%nat ->
  exists y, climb I idMap fuel x o = Ok y /\ above I x y /\ known I y /\ (pos y <= pos o)%nat /\
    ((pos x <= pos o)%nat -> y = x) /\
    forall d, above I x d -> above I o d -> above I y d.
Proof.
  revert x. induction fuel as [|fuel IH]; intros x Hx Ho Hf; [lia|].
  destruct Hx as [y Hy]. cbn [climb]. rewrite (vec_at_up _ _ Hy). cbn [mbind res_bind].
  rewrite !vec_at_map by (done || by eexists). cbn [mbind res_bind].
  destruct (Z.ltb_spec (Z.of_nat (pos o)) (Z.of_nat (pos x))) as [Hlt|Hge].
  - assert (H0 : x <> 0%nat) by (intros ->; rewrite pos_zero in Hlt; lia).
    destruct (tree_up _ HI x y Hy H0) as [Hk Hp].
    destruct (IH y Hk Ho) as (z&E&Hz&Hkz&Hpz&_&Hd); [lia|].
    exists z. split; [done|]. split; [by eapply rtc_l|]. split_and!; [done..|lia|].
    intros d Hxd Hod. apply Hd; [|done]. eapply above_next; [done..|].
    intros ->. apply above_le in Hod. lia.
  - exists x. split; [done|]. split; [done|]. split_and!; [by eexists|lia|done|done].
Qed.

Lemma intersect_loop_spec fuel x y : known I x -> known I y ->
  (pos x + pos y < fuel)%nat -> exists z, intersect_loop I idMap fuel x y = Ok z /\ common_above x y z.
Proof.
  revert x y. induction fuel as [|fuel IH]; intros x y Hx Hy Hf; [lia|]. cbn [intersect_loop].
  destruct (Nat.eqb_spec x y) as [->|Hne]; [by exists y|].
  pose proof Hx as [ux Ex]. pose proof Hy as [uy Ey].
  rewrite (vec_at_up _ _ Ex), (vec_at_up _ _ Ey). cbn [mbind res_bind].
  assert (Hpne : pos x <> pos y) by (intros E; by apply pos_inj in E; [|by apply known_in..]).
  destruct (climb_spec (S fuel) x y Hx Hy) as (x'&E1&Hx'&Hk1&Hp1&Hs1&Hd1); [lia|].
  destruct (climb_spec (S fuel) y x' Hy Hk1) as (y'&E2&Hy'&Hk2&Hp2&Hs2&Hd2); [lia|].
  rewrite E1. cbn [mbind res_bind]. rewrite E2. cbn [mbind res_bind].
  pose proof (above_le _ _ Hx'). pose proof (above_le _ _ Hy').
  destruct (IH x' y' Hk1 Hk2) as (z&E&Hz1&Hz2&Hkz&Hd).
  { destruct (decide (pos x < pos y)%nat) as [Hlt|Hlt]; [rewrite (Hs1 ltac:(lia)) in *; lia|lia]. }
  exists z. split; [done|]. split_and!; [by etrans|by etrans|done|]. intros d Hxd Hyd.
  apply Hd; [by apply Hd1|]. apply Hd2; [done|]. by apply Hd1.
Qed.

Lemma intersect_spec x y : known I x -> known I y ->
  exists z, intersect I idMap x y = Ok z /\ common_above x y z.
Proof.
  intros Hx Hy. apply intersect_loop_spec; [done..|]. rewrite (tree_length _ HI).
  pose proof (pos_lt _ (known_in _ Hx)). pose proof (pos_lt _ (known_in _ Hy)). lia.
Qed.

(** The loop over the predecessors. *)
Lemma common_from preds i : known I i -> Forall (fun p => p < getCount cfg)%nat preds ->
  exists c, common I idMap preds (Some i) = Ok (Some c) /\ above I i c /\ known I c /\
    (forall p, p ∈ preds -> known I p -> above I p c) /\
    forall d, above I i d -> (forall p, p ∈ preds -> known I p -> above I p d) -> above I c d.
Proof.
  intros Hi Hlt. revert i Hi. induction Hlt as [|p preds Hp Hlt IH]; intros i Hi; cbn [common].
  - exists i. split_and!; [done..| |auto]. by intros p ?%elem_of_nil.
  - destruct (lookup_lt_is_Some_2 I p) as [o Eo]; [by rewrite (tree_length _ HI)|].
    rewrite (vec_at_Some _ _ _ Eo). cbn [mbind res_bind].
    assert (Hup : up I p = o) by (unfold up; by rewrite Eo).
    destruct o as [u|].
    + destruct (intersect_spec p i) as (z&->&Hz1&Hz2&Hkz&Hd); [by rewrite Hup|done|].
      cbn [mbind res_bind]. destruct (IH z Hkz) as (c&->&Hzc&Hkc&Hpc&Hdc).
      exists c. split_and!; [done|by etrans|done|..].
      * intros q [->|Hq]%elem_of_cons Hkq; [by etrans|by apply Hpc].
      * intros d Hid Hpd. apply Hdc; [apply Hd; [apply Hpd; [by left|by rewrite Hup]|done]|].
        intros q Hq. apply Hpd. by right.
    + destruct (IH i Hi) as (c&->&Hzc&Hkc&Hpc&Hdc). exists c. split_and!; [done..| |].
      * intros q [->|Hq]%elem_of_cons Hkq; [|by apply Hpc]. rewrite Hup in Hkq. by destruct Hkq.
      * intros d Hid Hpd. apply Hdc; [done|]. intros q Hq. apply Hpd. by right.
Qed.

Lemma common_spec preds : Forall (fun p => p < getCount cfg)%nat preds ->
  (exists p, p ∈ preds /\ known I p) ->
  exists c, common I idMap preds None = Ok (Some c) /\ known I c /\
    (forall p, p ∈ preds -> known I p -> above I p c) /\
    forall d, (forall p, p ∈ preds -> known I p -> above I p d) -> above I c d.
Proof.
  induction 1 as [|p preds Hp Hlt IH]; intros (q&Hq&Hkq); [by apply elem_of_nil in Hq|].
  destruct (lookup_lt_is_Some_2 I p) as [o Eo]; [by rewrite (tree_length _ HI)|].
  assert (Hup : up I p = o) by (unfold up; by rewrite Eo).
  cbn [common]. rewrite (vec_at_Some _ _ _ Eo). cbn [mbind res_bind]. destruct o as [u|].
  - assert (Hkp : known I p) by by rewrite Hup.
    destruct (common_from preds p Hkp Hlt) as (c&->&Hpc&Hkc&Hc&Hd). exists c. split_and!; [done..| |].
    + intros r [->|Hr]%elem_of_cons Hkr; [done|by apply Hc].
    + intros d Hpd. apply Hd; [apply Hpd; [by left|done]|]. intros r Hr. apply Hpd. by right.
  - assert (Hp0 : ~ known I p) by (rewrite Hup; by intros []).
    destruct IH as (c&->&Hkc&Hc&Hd).
    { apply elem_of_cons in Hq as [->|Hq]; [done|by exists q]. }
    exists c. split_and!; [done..| |].
    + intros r [->|Hr]%elem_of_cons Hkr; [done|by apply Hc].
    + intros d Hpd. apply Hd. intros r Hr. apply Hpd. by right.
Qed.
End Tree.

(** ** Why the iteration ends

    A decreasing family of sets [U] accompanies the iteration: it is what the data-flow
    equations of dominance give for the predecessors known so far.  The nodes above a
    node are always in its set. *)

Definition nodes : gset nat := list_to_set order.
Definition preds (x : nat) : list nat := links cfg (-1) x.

Definition flow (I : list (option nat)) (U : nat -> gset nat) (x : nat) : gset nat :=
  filter (fun z => z = x \/ Forall (fun p => known I p -> z ∈ U p) (preds x)) nodes.

Record family (I : list (option nat)) (U : nat -> gset nat) : Prop := {
  fam_sub x : U x ⊆ nodes;
  fam_zero : U 0%nat = {[0%nat]};
  fam_refl x : x ∈ order -> x ∈ U x;
  fam_trans x y : y ∈ U x -> U y ⊆ U x;
  fam_up x y : up I x = Some y -> y ∈ U x;
  fam_flow x : x ∈ order -> x <> 0%nat -> flow I U x ⊆ U x }.

Lemma elem_of_flow I U x z : z ∈ flow I U x <->
  (z = x \/ forall p, p ∈ preds x -> known I p -> z ∈ U p) /\ z ∈ order.
Proof. unfold flow, nodes. rewrite elem_of_filter, elem_of_list_to_set, Forall_forall. done. Qed.

Lemma family_above I U x z : family I U -> above I x z -> x ∈ order -> z ∈ U x.
Proof.
  intros HU. induction 1 as [x|x y z [H0 Hu] _ IH]; intros Hx; [by eapply fam_refl|].
  pose proof (fam_up _ _ HU x y Hu) as Hy. apply (fam_trans _ _ HU x y Hy), IH.
  apply (fam_sub _ _ HU) in Hy. by apply elem_of_list_to_set in Hy.
Qed.

(** The links of a graph are known in both directions. *)
Lemma preds_edge p x : x ∈ order -> p ∈ order -> p ∈ preds x <-> edge cfg 1 p x.
Proof.
  intros Hx%(num_lt Hnum) Hp%(num_lt Hnum).
  destruct (links_lt cfg (-1) x Hx) as [Ex _]. destruct (links_lt cfg 1 p Hp) as [Ep _].
  unfold preds, edge. symmetry. by eapply links_sym.
Qed.

Lemma preds_lt x : x ∈ order -> getLinks cfg x (-1) = Ok (preds x) /\ Forall (fun p => p < getCount cfg)%nat (preds x).
Proof. intros Hx%(num_lt Hnum). by apply links_lt. Qed.

Definition grow (U : nat -> gset nat) (x : nat) (s : gset nat) : nat -> gset nat :=
  fun z => if decide (z = x) then s else U z.

(** A step that records [c] for the node [x]. *)
Section Step.
Variables (I : list (option nat)) (U : nat -> gset nat) (x c : nat).
Hypothesis HI : tree I.
Hypothesis HU : family I U.
Hypothesis Hx : x ∈ order.
Hypothesis H0 : x <> 0%nat.
Hypothesis Hkc : known I c.
Hypothesis Hc : forall p, p ∈ preds x -> known I p -> above I p c.
Hypothesis Hd : forall d, (forall p, p ∈ preds x -> known I p -> above I p d) -> above I c d.
Hypothesis Hp : exists p, p ∈ preds x /\ known I p /\ (pos p < pos x)%nat.

Abbreviation I' := (<[x := Some c]> I).
Abbreviation U' := (grow U x (flow I U x)).

Lemma step_lt : (x < length I)%nat.
Proof. rewrite (tree_length _ HI). by apply (num_lt Hnum). Qed.

Lemma step_up z : up I' z = if decide (z = x) then Some c else up I z.
Proof.
  pose proof step_lt. unfold up. destruct (decide (z = x)) as [->|Hne].
  - by rewrite list_lookup_insert_eq.
  - by rewrite list_lookup_insert_ne.
Qed.

Lemma step_known z : known I z -> known I' z.
Proof. rewrite step_up. destruct (decide (z = x)); [by eexists|done]. Qed.

Lemma step_pos : (pos c < pos x)%nat.
Proof. destruct Hp as (p&Hin&Hk&Hlt). pose proof (above_le _ HI _ _ (Hc p Hin Hk)). lia. Qed.

Lemma step_tree : tree I'.
Proof.
  split.
  - rewrite length_insert. apply HI.
  - rewrite step_up, decide_False by done. apply HI.
  - intros z y. rewrite step_up. destruct (decide (z = x)) as [->|]; [done|apply HI].
  - intros z y. rewrite step_up. destruct (decide (z = x)) as [->|Hne].
    + intros [= <-] _. split; [by apply step_known|apply step_pos].
    + intros Hu Hz. destruct (tree_up _ HI z y Hu Hz). split; [by apply step_known|done].
  - intros z y d. rewrite step_up. destruct (decide (z = x)) as [->|Hne]; [|apply HI].
    intros [= <-] _ Hdx Hdom.
    assert (Hall : forall p, p ∈ preds x -> known I p -> dominates cfg d p).
    { intros p Hin Hk. eapply dominates_pred; [done..|]. apply preds_edge; [done| |done].
      by eapply known_in. }
    assert (Hcd : above I c d).
    { apply Hd. intros p Hin Hk. eapply dominates_above; [done..|by apply Hall]. }
    destruct Hp as (p&Hin&Hk&_). eapply dominates_up; [done|by apply Hc|by apply Hall|].
    by eapply above_le.
Qed.

Lemma grow_sub z : U' z ⊆ U z.
Proof. unfold grow. destruct (decide (z = x)) as [->|]; [by apply HU|done]. Qed.

Lemma step_family : family I' U'.
Proof.
  assert (Hsub := grow_sub).
  assert (Hflow : forall z, flow I' U' z ⊆ flow I U z).
  { intros z w. rewrite !elem_of_flow. intros [[->|Hw] Hwo]; (split; [|done]); [by left|right].
    intros p Hin Hk. by apply Hsub, Hw; [|apply step_known]. }
  split.
  - intros z. etrans; [apply Hsub|apply HU].
  - unfold grow. rewrite decide_False by done. apply HU.
  - intros z Hz. unfold grow. destruct (decide (z = x)) as [->|]; [|by apply HU].
    apply elem_of_flow. auto.
  - intros z y Hy. destruct (decide (z = x)) as [->|Hzx].
    + unfold grow in Hy at 1. rewrite decide_True in Hy by done.
      destruct (decide (y = x)) as [->|Hyx]; [done|].
      apply elem_of_flow in Hy as [[->|Hy] Hyo]; [done|].
      intros w Hw. unfold grow in Hw |- *. rewrite decide_False in Hw by done.
      rewrite decide_True by done. apply elem_of_flow. split.
      * right. intros p Hin Hk. by apply (fam_trans _ _ HU p y (Hy p Hin Hk)).
      * apply (fam_sub _ _ HU) in Hw. by apply elem_of_list_to_set in Hw.
    + unfold grow in Hy at 1. rewrite decide_False in Hy by done.
      unfold grow at 2. rewrite decide_False by done.
      etrans; [apply Hsub|]. by apply (fam_trans _ _ HU).
  - intros z y. rewrite step_up. unfold grow. destruct (decide (z = x)) as [->|]; [|apply HU].
    intros [= <-]. apply elem_of_flow. split; [|by eapply known_in].
    right. intros p Hin Hk. eapply family_above; [done|by apply Hc|by eapply known_in].
  - intros z Hz Hz0. unfold grow at 2. destruct (decide (z = x)) as [->|]; [apply Hflow|].
    etrans; [apply Hflow|]. by apply HU.
Qed.
End Step.

(** ** Steps and passes *)

Lemma known_earlier I a x b : tree I -> order = a ++ x :: b -> x <> 0%nat ->
  (forall y, y ∈ a -> known I y) ->
  exists p, p ∈ preds x /\ known I p /\ (pos p < pos x)%nat.
Proof.
  intros HI E H0 Ha. destruct (num_parent Hnum a x b E H0) as (p&Hp&He).
  assert (Hx : order !! length a = Some x) by by rewrite E, list_lookup_middle.
  pose proof (list_elem_of_lookup_2 _ _ _ Hx) as Hxo.
  pose proof (known_in _ HI p (Ha p Hp)) as Hpo.
  exists p. split_and!; [by apply preds_edge|by apply Ha|].
  apply list_elem_of_lookup in Hp as [k Hk]. pose proof (lookup_lt_Some _ _ _ Hk).
  assert (Hk' : order !! k = Some p) by by rewrite E, lookup_app_l.
  unfold pos. rewrite (num_map Hnum _ _ Hk'), (num_map Hnum _ _ Hx). cbn. lia.
Qed.

Lemma update_spec I ch x : tree I -> x ∈ order -> x <> 0%nat ->
  (exists p, p ∈ preds x /\ known I p /\ (pos p < pos x)%nat) ->
  exists c, update cfg idMap x (I, ch) =
      Ok (<[x := Some c]> I, if decide (up I x = Some c) then ch else true) /\
    common I idMap (preds x) None = Ok (Some c) /\ known I c /\
    (forall p, p ∈ preds x -> known I p -> above I p c) /\
    forall d, (forall p, p ∈ preds x -> known I p -> above I p d) -> above I c d.
Proof.
  intros HI Hx H0 (p&Hp&Hk&_). destruct (preds_lt x Hx) as [El Hlt].
  destruct (common_spec _ HI (preds x) Hlt) as (c&Ec&Hc); [by exists p|].
  exists c. split; [|done]. unfold update. rewrite (proj2 (Nat.eqb_neq _ _) H0), El.
  cbn [mbind res_bind]. rewrite Ec. cbn [mbind res_bind].
  pose proof (step_lt I x HI Hx) as Hl. destruct (lookup_lt_is_Some_2 I x Hl) as [o Eo].
  rewrite (vec_at_Some _ _ _ Eo). cbn [mbind res_bind]. unfold up. rewrite Eo. cbn [mjoin option_join].
  destruct (decide (o = Some c)) as [->|Hne]; [by rewrite list_insert_id|].
  by rewrite vec_set_lt.
Qed.

Lemma update_zero I ch : tree I -> update cfg idMap 0 (I, ch) = Ok (I, ch).
Proof.
  intros HI. unfold update. cbn [Nat.eqb].
  pose proof (step_lt I 0%nat HI zero_in) as Hl. rewrite vec_set_lt by done. cbn [mbind res_bind].
  pose proof (tree_zero _ HI) as Hz. unfold up in Hz.
  destruct (I !! 0%nat) as [[]|] eqn:E; simplify_eq/=. by rewrite list_insert_id.
Qed.

Lemma flow_ext I U J W x : (forall p, known I p <-> known J p) ->
  (forall p, known I p -> U p = W p) -> flow I U x = flow J W x.
Proof.
  intros HK HU. apply set_eq. intros z. rewrite !elem_of_flow.
  apply and_iff_compat_r, or_iff_compat_l. split; intros Hz p Hp Hk.
  - apply HK in Hk as Hk'. rewrite <- HU by done. by apply Hz.
  - apply HK in Hk as Hk'. rewrite HU by done. by apply Hz.
Qed.

(** What a pass over the rest [o] of the order does. *)
Record passed (o : list nat) (I : list (option nat)) (ch : bool) (U : nat -> gset nat)
    (J : list (option nat)) (ch' : bool) (W : nat -> gset nat) : Prop := {
  pas_tree : tree J;
  pas_fam : family J W;
  pas_known x : known I x \/ x ∈ o -> known J x;
  pas_sub x : W x ⊆ U x;
  pas_same : ch' = false -> J = I /\ ch = false /\
    forall x, x ∈ o -> x <> 0%nat -> common I idMap (preds x) None = Ok (up I x);
  pas_flow : (forall x, x ∈ order -> known I x) -> (forall x, x ∈ order -> W x = U x) ->
    forall x, x ∈ o -> x <> 0%nat -> flow I U x = U x }.

Lemma pass_spec o a I ch U : order = a ++ o -> tree I -> family I U ->
  (forall x, x ∈ a -> known I x) ->
  exists J ch' W, pass cfg idMap o (I, ch) = Ok (J, ch') /\ passed o I ch U J ch' W.
Proof.
  revert a I ch U. induction o as [|x o IH]; intros a I ch U E HI HU Ha; cbn [pass].
  - exists I, ch, U. split; [done|]. split; [done..| |done| |].
    + intros x [?|?%elem_of_nil]; done.
    + intros ->. split_and!; [done..|]. by intros x ?%elem_of_nil.
    + by intros _ _ x ?%elem_of_nil.
  - assert (Hx : x ∈ order) by (rewrite E; apply elem_of_app; right; by left).
    assert (E' : order = (a ++ [x]) ++ o) by by rewrite <- app_assoc.
    destruct (decide (x = 0%nat)) as [->|H0].
    { rewrite update_zero by done. cbn [mbind res_bind].
      assert (Hk0 : known I 0%nat) by (rewrite (tree_zero _ HI); by eexists).
      destruct (IH (a ++ [0%nat]) I ch U E' HI HU) as (J&ch'&W&Ep&[]).
      { intros y [?| ->%list_elem_of_singleton]%elem_of_app; auto. }
      exists J, ch', W. split; [done|]. split; [done..| |done| |].
      - intros y [?|[->|?]%elem_of_cons]; auto.
      - intros Hf. destruct (pas_same0 Hf) as (?&?&Hc). split_and!; [done..|].
        intros y [->|?]%elem_of_cons ?; auto; done.
      - intros H1 H2 y [->|?]%elem_of_cons ?; auto; done. }
    pose proof (known_earlier I a x o HI E H0 Ha) as Hp.
    destruct (update_spec I ch x HI Hx H0 Hp) as (c&Eu&Ec&Hkc&Hc&Hd).
    rewrite Eu. cbn [mbind res_bind].
    pose proof (step_tree I x c HI Hx H0 Hkc Hc Hd Hp) as HI1.
    pose proof (step_family I U x c HI HU Hx H0 Hkc Hc) as HU1.
    pose proof (grow_sub I U x HU Hx H0) as HS.
    assert (Hk1 : forall y, known I y -> known (<[x := Some c]> I) y)
      by (intros y; by apply step_known).
    assert (Hkx : known (<[x := Some c]> I) x)
      by (rewrite step_up, decide_True by done; by eexists).
    destruct (IH (a ++ [x]) _ (if decide (up I x = Some c) then ch else true) _ E' HI1 HU1)
      as (J&ch'&W&Ep&[]).
    { intros y [?| ->%list_elem_of_singleton]%elem_of_app; auto. }
    exists J, ch', W. split; [done|]. split; [done..| | | |].
    + intros y [?|[->|?]%elem_of_cons]; auto.
    + intros y. etrans; [apply pas_sub0|apply HS].
    + intros Hf. destruct (pas_same0 Hf) as (HJ&Hch&Hcs).
      destruct (decide (up I x = Some c)) as [Hup|]; [|done].
      assert (HII : <[x := Some c]> I = I).
      { apply list_insert_id. unfold up in Hup. by destruct (I !! x) as [[]|] eqn:?; simplify_eq/=. }
      rewrite HII in HJ, Hcs. split_and!; [done..|]. intros y [->|?]%elem_of_cons ?; auto. congruence.
    + intros Hall HW.
      assert (Hmid : forall y, y ∈ order -> grow U x (flow I U x) y = U y).
      { intros y Hy. apply set_eq. intros z. split; [apply HS|]. rewrite <- HW by done. apply pas_sub0. }
      assert (Hfx : flow I U x = U x).
      { pose proof (Hmid x Hx) as Hm. unfold grow in Hm. by rewrite decide_True in Hm. }
      intros y [->|Hy]%elem_of_cons Hy0; [done|].
      assert (Hyo : y ∈ order) by (rewrite E; apply elem_of_app; right; by right).
      rewrite <- (Hmid y Hyo), <- pas_flow0; [|by auto|intros z Hz; by rewrite HW, Hmid|done..].
      apply flow_ext.
      * intros q. split; [apply Hk1|]. intros Hq. apply Hall. apply (known_in _ HI1 _ Hq).
      * intros q Hq. symmetry. apply Hmid. apply (known_in _ HI _ Hq).
Qed.

(** Where the sets satisfy the data-flow equations, they are the dominators. *)
Definition stable (I : list (option nat)) (U : nat -> gset nat) : Prop :=
  forall x, x ∈ order -> x <> 0%nat -> flow I U x = U x.

Lemma path_in l x : path cfg l x -> x ∈ order.
Proof. intros Hl%path_reach. by apply (num_reach Hnum). Qed.

Lemma stable_dominates I U x z : family I U -> (forall x, x ∈ order -> known I x) -> stable I U ->
  z ∈ U x -> dominates cfg z x.
Proof.
  intros HU Hall Hs Hz l Hl. revert z Hz. induction Hl as [|l p x Hl IH He]; intros z Hz.
  - rewrite (fam_zero _ _ HU) in Hz. apply elem_of_singleton in Hz as ->. by left.
  - pose proof (path_in _ _ Hl) as Hp. pose proof (path_in _ _ (path_edge _ _ _ _ Hl He)) as Hx.
    destruct (decide (x = 0%nat)) as [->|H0].
    { rewrite (fam_zero _ _ HU) in Hz. apply elem_of_singleton in Hz as ->. by left. }
    rewrite <- (Hs x) in Hz by done. apply elem_of_flow in Hz as [[->|Hz] _]; [by left|].
    right. apply IH, Hz; [by apply preds_edge|by apply Hall].
Qed.

Lemma update_stable I U ch x : tree I -> family I U -> (forall x, x ∈ order -> known I x) ->
  stable I U -> x ∈ order -> x <> 0%nat ->
  (exists p, p ∈ preds x /\ known I p /\ (pos p < pos x)%nat) ->
  update cfg idMap x (I, ch) = Ok (I, ch).
Proof.
  intros HI HU Hall Hs Hx H0 Hp. destruct (update_spec I ch x HI Hx H0 Hp) as (c&Eu&_&Hkc&Hc&Hd).
  rewrite Eu. clear Eu. destruct (Hall x Hx) as [y Hy].
  destruct (tree_up _ HI x y Hy H0) as [Hky Hpy].
  assert (Hcx : c ∈ U x).
  { rewrite <- Hs by done. apply elem_of_flow. split; [|by eapply known_in]. right.
    intros p Hin Hk. eapply family_above; [done|by apply Hc|by eapply known_in]. }
  pose proof (step_pos I x c HI H0 Hc Hp) as Hpc.
  assert (Hle1 : (pos c <= pos y)%nat).
  { eapply above_le; [done|]. eapply above_next; [done| |intros ->; lia].
    eapply dominates_above; [done|by apply Hall|]. by eapply stable_dominates. }
  assert (Hyx : y ∈ U x) by by apply HU.
  assert (Hle2 : (pos y <= pos c)%nat).
  { eapply above_le; [done|]. apply Hd. intros p Hin Hk. eapply dominates_above; [done..|].
    eapply dominates_pred; [by eapply stable_dominates|intros ->; lia|].
    apply preds_edge; [done|by eapply known_in|done]. }
  assert (y = c) as -> by (apply pos_inj; [by eapply known_in..|lia]).
  rewrite decide_True by done. do 2 f_equal. apply list_insert_id.
  unfold up in Hy. by destruct (I !! x) as [[]|] eqn:?; simplify_eq/=.
Qed.

Lemma pass_stable I U o a ch : order = a ++ o -> tree I -> family I U ->
  (forall x, x ∈ order -> known I x) -> stable I U -> pass cfg idMap o (I, ch) = Ok (I, ch).
Proof.
  intros E HI HU Hall Hs. revert a E. induction o as [|x o IH]; intros a E; [done|]. cbn [pass].
  assert (Hx : x ∈ order) by (rewrite E; apply elem_of_app; right; by left).
  assert (E' : order = (a ++ [x]) ++ o) by by rewrite <- app_assoc.
  destruct (decide (x = 0%nat)) as [->|H0].
  - rewrite update_zero by done. by apply (IH (a ++ [0%nat])).
  - rewrite (update_stable I U) by (done || (eapply known_earlier; [done..|];
      intros y Hy; apply Hall; rewrite E; apply elem_of_app; by left)).
    by apply (IH (a ++ [x])).
Qed.

(** ** The whole iteration *)

Definition measure (U : nat -> gset nat) : nat := sum_list_with (fun x => size (U x)) order.

Lemma measure_le (U W : nat -> gset nat) : (forall x, W x ⊆ U x) ->
  (measure W < measure U)%nat \/ forall x, x ∈ order -> W x = U x.
Proof.
  intros Hsub. unfold measure. induction order as [|x o IH]; [right; by intros x ?%elem_of_nil|].
  cbn. pose proof (subseteq_size _ _ (Hsub x)) as Hx.
  destruct (decide (size (W x) = size (U x))) as [Heq|Hne].
  - assert (Ex : W x = U x) by (apply leibniz_equiv, set_subseteq_size_equiv; [done|lia]).
    destruct IH as [Hlt|Hall]; [left; lia|]. right. intros y [->|Hy]%elem_of_cons; auto.
  - left. destruct IH as [Hlt|Hall]; [lia|].
    assert (E : sum_list_with (fun x => size (W x)) o = sum_list_with (fun x => size (U x)) o); [|lia].
    clear -Hall. induction o as [|y o IH]; [done|]. cbn. rewrite (Hall y) by by left.
    f_equal. apply IH. intros z Hz. apply Hall. by right.
Qed.

(** No update changes anything. *)
Definition fixpoint (I : list (option nat)) : Prop :=
  tree I /\ (forall x, x ∈ order -> known I x) /\
  forall x, x ∈ order -> x <> 0%nat -> common I idMap (preds x) None = Ok (up I x).

Lemma iterate_spec fuel I U : tree I -> family I U -> (forall x, x ∈ order -> known I x) ->
  (measure U < fuel)%nat -> exists J, iterate cfg idMap fuel order I = Ok J /\ fixpoint J.
Proof.
  revert I U. induction fuel as [|fuel IH]; intros I U HI HU Hall Hf; [lia|]. cbn [iterate].
  destruct (pass_spec order [] I false U eq_refl HI HU) as (J&ch&W&E&HP);
    [by intros x ?%elem_of_nil|].
  destruct ch.
  - destruct (measure_le U W (pas_sub _ _ _ _ _ _ _ HP)) as [Hlt|Heq].
    + rewrite E. cbn [mbind res_bind]. apply (IH J W); [apply HP|apply HP| |lia].
      intros x Hx. apply (pas_known _ _ _ _ _ _ _ HP). by right.
    + rewrite (pass_stable I U order []) in E; [done|done..|].
      intros x Hx Hx0. by apply (pas_flow _ _ _ _ _ _ _ HP).
  - rewrite E. cbn [mbind res_bind]. exists J. split; [done|].
    destruct (pas_same _ _ _ _ _ _ _ HP eq_refl) as (->&_&Hfix). done.
Qed.

(** The vector before the first pass, and node 0 in it. *)
Lemma start_tree : tree (<[0%nat := Some 0%nat]> (replicate (getCount cfg) None)).
Proof.
  pose proof (num_lt Hnum _ zero_in) as Hc.
  assert (Hup : forall x, up (<[0%nat := Some 0%nat]> (replicate (getCount cfg) None)) x =
                          if decide (x = 0%nat) then Some 0%nat else None).
  { intros x. unfold up. destruct (decide (x = 0%nat)) as [->|Hne].
    - by rewrite list_lookup_insert_eq by by rewrite length_replicate.
    - rewrite list_lookup_insert_ne by done. by destruct (replicate _ _ !! x) eqn:E;
        [apply lookup_replicate in E as [-> _]|]. }
  split.
  - by rewrite length_insert, length_replicate.
  - by rewrite Hup.
  - intros x y. rewrite Hup. case_decide as Hx; [|done]. subst x. intros _. apply zero_in.
  - intros x y. rewrite Hup. by case_decide.
  - intros x y d. rewrite Hup. by case_decide.
Qed.

Lemma start_family : family (<[0%nat := Some 0%nat]> (replicate (getCount cfg) None))
  (grow (fun _ => nodes) 0 {[0%nat]}).
Proof.
  assert (H0 : {[0%nat]} ⊆ nodes).
  { intros z ->%elem_of_singleton. apply elem_of_list_to_set, zero_in. }
  unfold grow. split.
  - intros x. by case_decide.
  - done.
  - intros x Hx. case_decide; [by apply elem_of_singleton|by apply elem_of_list_to_set].
  - intros x y. destruct (decide (x = 0%nat)) as [->|Hx]; [|intros _; by case_decide].
    by intros ->%elem_of_singleton.
  - intros x y Hu. pose proof (tree_in _ start_tree x y Hu) as Hx.
    destruct (decide (x = 0%nat)) as [->|Hne].
    + rewrite (tree_zero _ start_tree) in Hu. simplify_eq. by apply elem_of_singleton.
    + unfold up in Hu. rewrite list_lookup_insert_ne in Hu by done.
      destruct (replicate _ _ !! x) eqn:E; [apply lookup_replicate in E as [-> _]|]; done.
  - intros x Hx Hx0. rewrite decide_False by done. intros z [_ Hz]%elem_of_flow.
    by apply elem_of_list_to_set.
Qed.

Lemma measure_small I U : family I U -> (measure U <= getCount cfg * getCount cfg)%nat.
Proof.
  intros HU. pose proof (num_short Hnum) as Hs.
  assert (Hone : forall x, (size (U x) <= getCount cfg)%nat).
  { intros x. etrans; [apply subseteq_size, (fam_sub _ _ HU)|]. unfold nodes.
    rewrite size_list_to_set by apply Hnum. done. }
  unfold measure. revert Hs. generalize (getCount cfg) at 1 2 as k. induction order as [|x o IH]; intros k Hk; cbn; [lia|].
  cbn in Hk. destruct k as [|k]; [lia|]. specialize (IH k). specialize (Hone x). nia.
Qed.

Lemma iterate_start : exists J,
  iterate cfg idMap (S (S (getCount cfg * getCount cfg))) order (replicate (getCount cfg) None) = Ok J /\
  fixpoint J.
Proof.
  pose proof (num_lt Hnum _ zero_in) as Hc.
  assert (exists o, order = 0%nat :: o) as [o Eo].
  { pose proof (num_zero Hnum) as Hz. destruct order as [|x o]; simplify_eq/=. by exists o. }
  destruct (pass_spec o [0%nat] _ false _ Eo start_tree start_family) as (J&ch&W&E&HP).
  { intros x ->%list_elem_of_singleton. rewrite (tree_zero _ start_tree). by eexists. }
  assert (Hall : forall x, x ∈ order -> known J x).
  { intros x Hx. apply (pas_known _ _ _ _ _ _ _ HP). rewrite Eo in Hx.
    apply elem_of_cons in Hx as [->|Hx]; [left|by right].
    rewrite (tree_zero _ start_tree). by eexists. }
  assert (Ep : pass cfg idMap order (replicate (getCount cfg) None, false) = Ok (J, ch)).
  { rewrite Eo. cbn [pass]. unfold update at 1. cbn [Nat.eqb].
    by rewrite vec_set_lt by by rewrite length_replicate. }
  remember (S (getCount cfg * getCount cfg)) as fuel eqn:Ef.
  cbn [iterate]. rewrite Ep. cbn [mbind res_bind]. destruct ch.
  - pose proof (measure_small _ _ (pas_fam _ _ _ _ _ _ _ HP)).
    apply (iterate_spec fuel J W); [apply HP|apply HP|done|lia].
  - exists J. split; [done|]. split_and!; [apply HP|done|].
    destruct (pas_same _ _ _ _ _ _ _ HP eq_refl) as (->&_&Hfix).
    intros x Hx Hx0. apply Hfix; [|done]. rewrite Eo in Hx. by apply elem_of_cons in Hx as [->|].
Qed.

(** At a fixpoint the nodes above a node are its dominators. *)
Lemma fixpoint_above I x z : fixpoint I -> x ∈ order -> above I x z <-> dominates cfg z x.
Proof.
  intros (HI&Hall&Hfix) Hx. split; [|by apply dominates_above; [done|apply Hall]].
  intros Hz l Hl. revert z Hz Hx. induction Hl as [|l p x Hl IH He]; intros z Hz Hx.
  - apply above_zero in Hz as ->. by left.
  - destruct (decide (x = 0%nat)) as [->|H0]; [apply above_zero in Hz as ->; by left|].
    destruct (decide (z = x)) as [->|Hne]; [by left|]. right.
    pose proof (path_in _ _ Hl) as Hp. assert (Hin : p ∈ preds x) by by apply preds_edge.
    destruct (preds_lt x Hx) as [_ Hlt].
    destruct (common_spec _ HI (preds x) Hlt) as (c&Ec&Hkc&Hc&_); [exists p; auto|].
    rewrite (Hfix x Hx H0) in Ec. injection Ec as Ec.
    apply IH; [|done]. etrans; [by apply Hc, Hall|]. by eapply above_next.
Qed.

(** [getDominators] follows the tree. *)
Lemma dominators_loop_spec I fuel x : fixpoint I -> x ∈ order -> (pos x < fuel)%nat ->
  exists l, dominators_loop fuel I x = Ok (x :: l) /\ (forall z, z ∈ x :: l <-> above I x z) /\
    StronglySorted (fun u v => above I u v /\ u <> v) (x :: l).
Proof.
  intros (HI&Hall&Hfix). revert x. induction fuel as [|fuel IH]; intros x Hx Hf; [lia|].
  cbn [dominators_loop]. destruct (Nat.eqb_spec x 0) as [->|H0].
  - exists []. split_and!; [done| |by repeat constructor]. intros z.
    rewrite list_elem_of_singleton. split; [by intros ->|by intros ->%above_zero].
  - destruct (Hall x Hx) as [y Hy]. rewrite (vec_at_up _ _ _ Hy). cbn [mbind res_bind].
    destruct (tree_up _ HI x y Hy H0) as [Hky Hpy].
    destruct (IH y) as (l&->&Hl&Hs); [by eapply known_in|lia|]. cbn [mbind res_bind].
    assert (Habove : forall z, above I y z -> above I x z /\ x <> z).
    { intros z Hz. split; [by eapply rtc_l|]. intros ->. apply (above_le _ HI) in Hz. lia. }
    exists (y :: l). split_and!; [done| |].
    + intros z. rewrite elem_of_cons, Hl. split.
      * intros [->|Hz]; [done|]. by apply Habove.
      * intros Hz. destruct (decide (x = z)) as [->|Hne]; [by left|right]. by eapply above_next.
    + constructor; [done|]. apply Forall_forall. intros z Hz%Hl. by apply Habove.
Qed.
End Iteration.

(** The last node of the list is node 0. *)
Lemma dominators_last fuel I x l : dominators_loop fuel I x = Ok l -> last l = Some 0%nat.
Proof.
  revert x l. induction fuel as [|fuel IH]; intros x l; cbn [dominators_loop]; [done|].
  destruct (Nat.eqb_spec x 0) as [->|H0]; [by intros [= <-]|].
  destruct (vec_at I x) as [[y|]|]; cbn [mbind res_bind]; [|done..].
  destruct (dominators_loop fuel I y) as [l'|] eqn:E; cbn [mbind res_bind]; [|done].
  intros [= <-]. rewrite last_cons, (IH _ _ E). done.
Qed.

(** ** The numbering of the constructor *)

Lemma rpo_numbered {G} `{GraphBase G} (cfg : G) `{!GraphLaws cfg} : (0 < getCount cfg)%nat ->
  exists order idMap, ReversePostorder cfg 0 = Ok [order] /\
    number order 0 (replicate (getCount cfg) (-1)) = Ok idMap /\
    length idMap = getCount cfg /\ numbered cfg order idMap.
Proof.
  intros Hc. destruct (gen_nodes_dfs cfg 1 0 Hc) as (V'&es&Hd&Hg).
  set (order := rev (posts es)).
  assert (Hnd : NoDup order) by (unfold order; rewrite <- Permutation_rev; by eapply fresh_NoDup).
  assert (Hin : forall x, x ∈ order <-> x ∈ posts es).
  { intros x. unfold order. by rewrite <- Permutation_rev. }
  assert (Hlt : forall x, x ∈ order -> (x < getCount cfg)%nat) by (intros x Hx%Hin; by eapply fresh_lt).
  destruct (number_spec order 0 (replicate (getCount cfg) (-1)) Hnd) as (m&Em&Hlen&Hk&_).
  { apply Forall_forall. rewrite length_replicate. done. }
  rewrite length_replicate in Hlen. exists order, m. split_and!; [|done..|].
  { unfold ReversePostorder. rewrite Hg, collect_post. done. }
  destruct (fresh_shape _ _ _ _ _ Hd) as [es1 ->].
  assert (Ep : posts (Pre 0 :: es1 ++ [Post 0]) = posts es1 ++ [0%nat]) by (cbn; by rewrite posts_app).
  split.
  - intros x. rewrite Hin. by eapply fresh_reach.
  - done.
  - intros a x b E Hx. unfold order in E.
    assert (E' : posts (Pre 0 :: es1 ++ [Post 0]) = rev b ++ x :: rev a).
    { rewrite <- (rev_involutive (posts _)), E, rev_app_distr. cbn. by rewrite <- app_assoc. }
    destruct (fresh_parent _ _ _ _ _ Hd _ _ _ E') as [->|(p&Hp&Hs)]; [done|].
    exists p. split; [|done]. by rewrite <- Permutation_rev in Hp.
  - done.
  - done.
  - unfold order. rewrite Ep, rev_app_distr. done.
  - rewrite <- (length_seq (getCount cfg) 0). apply submseteq_length, NoDup_submseteq; [done|].
    intros x Hx%Hlt. apply elem_of_seq. lia.
Qed.

(** ** Postdominators *)

Lemma set_intersection_cons x v1 y v2 : set_intersection (x :: v1) (y :: v2) =
  if (x <? y)%nat then set_intersection v1 (y :: v2)
  else if (y <? x)%nat then set_intersection (x :: v1) v2
  else x :: set_intersection v1 v2.
Proof. done. Qed.

Lemma set_intersection_sub v1 v2 z : z ∈ set_intersection v1 v2 -> z ∈ v1 /\ z ∈ v2.
Proof.
  revert v2. induction v1 as [|x v1 IH1]; intros v2; [destruct v2; by intros ?%elem_of_nil|].
  induction v2 as [|y v2 IH2]; [by intros ?%elem_of_nil|]. rewrite set_intersection_cons.
  destruct (Nat.ltb_spec x y) as [Hlt|Hge].
  - intros [Hz1 Hz2]%IH1. split; [by right|done].
  - destruct (Nat.ltb_spec y x) as [Hlt|Hle].
    + intros [Hz1 Hz2]%IH2. split; [done|by right].
    + assert (x = y) as -> by lia. intros [->|[Hz1 Hz2]%IH1]%elem_of_cons; split; by (left || right).
Qed.

Lemma sort_elem v z : z ∈ sort v <-> z ∈ v.
Proof. unfold sort. by rewrite merge_sort_Permutation. Qed.

Lemma exit_nodes_spec {G} `{GraphBase G} (cfg : G) `{!GraphLaws cfg} order :
  Forall (fun x => x < getCount cfg)%nat order -> NoDup order ->
  exists exits, exit_nodes cfg order = Ok exits /\ NoDup exits /\
    forall e, e ∈ exits <-> e ∈ order /\ links cfg 1 e = [].
Proof.
  intros Hlt Hnd. induction Hnd as [|x order Hx Hnd IH]; cbn [exit_nodes].
  - exists []. split_and!; [done|constructor|]. intros e. rewrite elem_of_nil. tauto.
  - apply Forall_cons in Hlt as [Hxc Hlt]. destruct (links_lt cfg 1 x Hxc) as [El _].
    destruct (IH Hlt) as (exits&Ee&Hne&He).
    rewrite El. cbn [mbind res_bind]. rewrite Ee. cbn [mbind res_bind].
    destruct (links cfg 1 x) as [|y l] eqn:E.
    + exists (x :: exits). split_and!; [done|constructor; [|done]; rewrite He; tauto|].
      intros e. rewrite !elem_of_cons, He. intuition congruence.
    + exists exits. split_and!; [done..|]. intros e. rewrite elem_of_cons, He. intuition congruence.
Qed.

Lemma cap_all_spec d exits pdom : (forall e, e ∈ exits -> exists l, getDominators d e = Ok l) ->
  exists pdom', cap_all d exits pdom = Ok pdom' /\ (exits = [] -> pdom' = pdom) /\
    forall z, z ∈ pdom' -> z ∈ pdom /\ forall e l, e ∈ exits -> getDominators d e = Ok l -> z ∈ l.
Proof.
  revert pdom. induction exits as [|e exits IH]; intros pdom He; cbn [cap_all].
  - exists pdom. split_and!; [done..|]. intros z Hz. split; [done|]. by intros e l ?%elem_of_nil.
  - destruct (He e) as [l El]; [by left|]. rewrite El. cbn [mbind res_bind].
    set (p1 := set_intersection pdom (sort l)).
    assert (Hp1 : forall z, z ∈ p1 -> z ∈ pdom /\ z ∈ l).
    { intros z [Hz1 Hz2]%set_intersection_sub. by rewrite sort_elem in Hz2. }
    destruct p1 as [|x p1].
    + exists []. split_and!; [done..|]. by intros z ?%elem_of_nil.
    + destruct (IH (x :: p1)) as (p'&E&_&Hz); [intros e' He'; apply He; by right|].
      exists p'. split_and!; [done..|]. intros z [Hz1 Hz2]%Hz. apply Hp1 in Hz1 as [??].
      split; [done|]. intros e' l' [->|He']%elem_of_cons El'; [rewrite El in El'; by injection El' as <-|by eapply Hz2].
Qed.
