(* ===== verification/GraphTheorems.v ===== *)
(** * The analyses of graphs: reachability, orders, components and dominators

    The theorems on the walks of Graph and on Dominance, for every graph that satisfies
    the laws of the interface; a control flow graph is one (ControlFlowProofs). *)

From stdpp Require Import relations.
From S2P Require Import Prelude Graph GraphProofs ControlFlow ControlFlowProofs SccProofs Dominance DominanceProofs.

Section Theorems.
Context {G : Type} `{GraphBase G} (graph : G) `{!GraphLaws graph}.

(** A preorder lists the nodes that are reached. *)
Lemma preorder_reaches src : (src < getCount graph)%nat ->
  exists o, Preorder graph src = Ok [o] /\ forall x, x ∈ o <-> rtc (edge graph 1) src x.
Proof.
  intros Hs. destruct (gen_nodes_dfs graph 1 src Hs) as (V'&es&Hd&Hg).
  exists (pres es). unfold Preorder. rewrite Hg, collect_pre. split; [done|]. intros x.
  rewrite (proj2 (proj2 (dfs_fresh _ _ _ _ _ _ Hd))). by eapply fresh_reach.
Qed.

(** C31: [isReachable] on a preorder answers, for every node, whether there is a path to
    the destination. *)
Theorem isReachable_correct src dest : (src < getCount graph)%nat ->
  exists b, isReachable (Preorder graph) src dest = Ok b /\
    (b = true <-> rtc (edge graph 1) src dest).
Proof.
  intros Hs. destruct (preorder_reaches src Hs) as (o&E&Ho). unfold isReachable. rewrite E.
  exists (search dest o). split; [done|]. by rewrite search_spec.
Qed.

(** C30: a reverse postorder lists every node that is reached from the first one exactly
    once and starts with that node; a link goes forward in the list, unless its target
    leads back to its source; and every other node has a predecessor earlier in the
    list. *)
Theorem reverse_postorder_correct id : (id < getCount graph)%nat ->
  exists order, ReversePostorder graph id = Ok [order] /\ NoDup order /\
    (forall x, x ∈ order <-> rtc (edge graph 1) id x) /\
    order !! 0%nat = Some id /\
    (forall a x b y, order = a ++ x :: b -> edge graph 1 x y -> y ∈ b \/ rtc (edge graph 1) y x) /\
    (forall a x b, order = a ++ x :: b -> x <> id -> exists p, p ∈ a /\ edge graph 1 p x).
Proof.
  intros Hid. destruct (gen_nodes_dfs graph 1 id Hid) as (V'&es&Hd&Hg).
  exists (rev (posts es)). split; [unfold ReversePostorder; by rewrite Hg, collect_post|].
  assert (Hrev : forall a x b, rev (posts es) = a ++ x :: b -> posts es = rev b ++ x :: rev a).
  { intros a x b E. rewrite <- (rev_involutive (posts es)), E, rev_app_distr. cbn. by rewrite <- app_assoc. }
  split_and!.
  - rewrite <- Permutation_rev. by eapply fresh_NoDup.
  - intros x. rewrite <- Permutation_rev. by eapply fresh_reach.
  - destruct (fresh_shape _ _ _ _ _ Hd) as [es1 ->]. cbn. by rewrite posts_app, rev_app_distr.
  - intros a x b y E He. destruct (fresh_finished _ _ _ _ _ Hd _ _ _ y (Hrev _ _ _ E) He) as [Hy|]; [left|by right].
    by rewrite <- Permutation_rev in Hy.
  - intros a x b E Hx. destruct (fresh_parent _ _ _ _ _ Hd _ _ _ (Hrev _ _ _ E)) as [|(p&Hp&He)]; [done|].
    exists p. split; [|done]. by rewrite <- Permutation_rev in Hp.
Qed.

(** C7: [SccOrder] and [ReverseSccOrder] return for every graph, from a node ([gen]) and
    from node 0 over the whole graph ([genFull]): the lists are exactly the strongly
    connected components, every node is in one of them, and no link leads from a list to
    an earlier one. *)
Theorem scc_order_correct dir :
  (forall id, (id < getCount graph)%nat -> exists orders,
     gen_scc graph dir ReverseFinisher id = Ok orders /\
     scc_order graph dir (rtc (edge graph dir) id) orders) /\
  ((0 < getCount graph)%nat -> exists orders,
     genFull_scc graph dir ReverseFinisher 0 = Ok orders /\
     scc_order graph dir (fun x => x < getCount graph)%nat orders).
Proof.
  split; [by intros; apply gen_scc_correct|]. intros Hc. by apply genFull_scc_correct.
Qed.

(** What the constructor of [Dominance] builds. *)
Lemma dominance_built : (0 < getCount graph)%nat ->
  exists d, Dom.new graph = Ok d /\ length (idMap d) = getCount graph /\
    forall x, rtc (edge graph 1) 0%nat x -> exists doms,
      Dom.getDominators d x = Ok doms /\
      (forall z, z ∈ doms <-> dominates graph z x) /\
      head doms = Some x /\ last doms = Some 0%nat /\
      StronglySorted (fun u v => u <> v /\ dominates graph v u) doms.
Proof.
  intros Hc. destruct (gen_scc_correct graph 1 0 Hc) as (sccs&Escc&_).
  destruct (rpo_numbered graph Hc) as (order&idMap&Erpo&Em&Hlen&Hnum).
  destruct (iterate_start graph order idMap Hnum) as (I&EI&Hfix).
  exists (mkDominance I idMap). split_and!; [|done|].
  { unfold Dom.new, SccOrder. rewrite Escc. cbn [mbind res_bind]. rewrite Erpo. cbn [mbind res_bind first_order].
    rewrite Em. cbn [mbind res_bind]. by rewrite EI. }
  intros x Hx%(num_reach _ _ _ Hnum).
  destruct (dominators_loop_spec graph order idMap I (S (length I)) x Hfix Hx) as (l&El&Hl&Hs).
  { rewrite (tree_length _ _ _ _ (proj1 Hfix)). pose proof (pos_lt graph order idMap Hnum x Hx). lia. }
  assert (Habove : forall u z, u ∈ order -> rtc (parent I) u z <-> dominates graph z u)
    by (intros u z Hu; by eapply fixpoint_above).
  assert (Hin : forall u, u ∈ x :: l -> u ∈ order).
  { intros u Hu%Hl. eapply known_in; [apply Hfix|]. eapply above_known; [apply Hfix|done|]. by apply Hfix. }
  exists (x :: l). split_and!; [done| |done| |].
  - intros z. by rewrite Hl, Habove.
  - apply dominators_last in El. exact El.
  - eapply SccProofs.sorted_ext; [|exact Hs]. intros u v Hu Hv [Huv Hne]. split; [done|].
    apply Habove; [by apply Hin|done].
Qed.

(** C8: the constructor of [Dominance] ends on every graph, and for every node that is
    reached from node 0, [getDominators] returns exactly the nodes that are on all paths
    to it: first the node, last node 0, and each dominated by those after it. *)
Theorem dominators_correct : (0 < getCount graph)%nat ->
  exists d, Dom.new graph = Ok d /\
    forall x, rtc (edge graph 1) 0%nat x -> exists doms,
      Dom.getDominators d x = Ok doms /\
      (forall z, z ∈ doms <-> dominates graph z x) /\
      head doms = Some x /\ last doms = Some 0%nat /\
      StronglySorted (fun u v => u <> v /\ dominates graph v u) doms.
Proof. intros Hc. destruct (dominance_built Hc) as (d&E&_&Hd). by exists d. Qed.

(** A [Dominance] whose immediate dominators are those of the graph; the queries keep that. *)
Definition dom_ok (d : Dominance) : Prop := length (idMap d) = getCount graph /\
  forall x, rtc (edge graph 1) 0%nat x -> exists doms, Dom.getDominators d x = Ok doms /\
    forall z, z ∈ doms <-> dominates graph z x.
Lemma new_dom_ok : (0 < getCount graph)%nat -> exists d, Dom.new graph = Ok d /\ dom_ok d.
Proof.
  intros Hc. destruct (dominance_built Hc) as (d&E&Hl&Hd). exists d. split; [done|]. split; [done|].
  intros x Hx. destruct (Hd x Hx) as (l&El&Hz&_). by exists l.
Qed.

Lemma postdominators_of d id : (0 < getCount graph)%nat -> dom_ok d ->
  exists pdom d', Dom.getPostDominators graph d id = Ok (pdom, d') /\ dom_ok d' /\
    (forall z e, z ∈ pdom -> rtc (edge graph 1) 0%nat e -> links graph 1 e = [] -> dominates graph z e) /\
    (forall e z, rtc (edge graph 1) 0%nat e -> links graph 1 e = [] ->
       (forall e', rtc (edge graph 1) 0%nat e' -> links graph 1 e' = [] -> e' = e) ->
       dominates graph z e -> z ∈ pdom).
Proof.
  intros Hc [Hlen Hdom].
  destruct (gen_nodes_dfs graph 1 0 Hc) as (V'&es&Hd&Hg).
  assert (Hin : forall x, x ∈ pres es <-> rtc (edge graph 1) 0%nat x).
  { intros x. rewrite (proj2 (proj2 (dfs_fresh _ _ _ _ _ _ Hd))). by eapply fresh_reach. }
  assert (Hlt : Forall (fun x => x < getCount graph)%nat (pres es)).
  { apply Forall_forall. intros x Hx. rewrite (proj2 (proj2 (dfs_fresh _ _ _ _ _ _ Hd))) in Hx.
    by eapply fresh_lt. }
  assert (Hnd : NoDup (pres es)).
  { rewrite (proj2 (proj2 (dfs_fresh _ _ _ _ _ _ Hd))). by eapply fresh_NoDup. }
  destruct (number_spec (pres es) 0 (idMap d) Hnd) as (m&Em&Hm&_); [by rewrite Hlen|].
  destruct (exit_nodes_spec graph (pres es) Hlt Hnd) as (exits&Ee&Hne&He).
  assert (Hex : forall e, e ∈ exits <-> rtc (edge graph 1) 0%nat e /\ links graph 1 e = [])
    by (intros e; by rewrite He, Hin).
  set (d1 := mkDominance (idoms d) m).
  assert (Hdom1 : forall x, rtc (edge graph 1) 0%nat x -> exists l,
    Dom.getDominators d1 x = Ok l /\ forall z, z ∈ l <-> dominates graph z x).
  { intros x Hx. exact (Hdom x Hx). }
  assert (Hok1 : dom_ok d1) by (split; [cbn; by rewrite Hm|exact Hdom1]). unfold Dom.getPostDominators, Preorder.
  rewrite Hg, collect_pre. cbn [mbind res_bind first_order app finish EmptyFinisher]. rewrite Em.
  cbn [mbind res_bind]. rewrite Ee. cbn [mbind res_bind]. fold d1.
  destruct exits as [|e exits].
  { exists [], d1. split_and!; [done|done|by intros z e ?%elem_of_nil|].
    intros e z Hr Hno. assert (e ∈ (@nil nat)) as ?%elem_of_nil by by apply Hex. done. }
  destruct (proj1 (Hex e)) as [Her Hel]; [by left|]. destruct (Hdom1 e Her) as (l&El&Hl).
  rewrite El. cbn [mbind res_bind].
  destruct (cap_all_spec d1 exits l) as (pd&Epd&Hnil&Hpd).
  { intros e' He'. destruct (proj1 (Hex e')) as [Hr' _]; [by right|].
    destruct (Hdom1 e' Hr') as (l'&E'&_). by exists l'. }
  rewrite Epd. cbn [mbind res_bind]. exists pd, d1. split_and!; [done..| |].
  - intros z e' [Hz1 Hz2]%Hpd Hr' Hno. pose proof (proj2 (Hex e') (conj Hr' Hno)) as Hin'.
    apply elem_of_cons in Hin' as [->|Hin']; [by apply Hl|].
    destruct (Hdom1 e' Hr') as (l'&E'&Hl'). apply Hl'. by eapply Hz2.
  - intros e' z Hr' Hno Hone Hz.
    assert (e' = e) as -> by (symmetry; by apply Hone).
    rewrite Hnil; [by apply Hl|]. destruct exits as [|e1 exits]; [done|].
    destruct (proj1 (Hex e1)) as [Hr1 Hn1]; [right; by left|].
    apply NoDup_cons in Hne as [Hne _]. rewrite (Hone e1 Hr1 Hn1) in Hne. destruct Hne. by left.
Qed.
(** C32: [getPostDominators] returns for every graph, and each node of its result is on
    all paths from node 0 to every exit that is reached from node 0 (whatever node it is
    asked for); if there is one such exit, the result is exactly these nodes. *)
Theorem postdominators_entry id : (0 < getCount graph)%nat ->
  exists d pdom d', Dom.new graph = Ok d /\ Dom.getPostDominators graph d id = Ok (pdom, d') /\
    (forall z e, z ∈ pdom -> rtc (edge graph 1) 0%nat e -> links graph 1 e = [] -> dominates graph z e) /\
    (forall e z, rtc (edge graph 1) 0%nat e -> links graph 1 e = [] ->
       (forall e', rtc (edge graph 1) 0%nat e' -> links graph 1 e' = [] -> e' = e) ->
       dominates graph z e -> z ∈ pdom).
Proof.
  intros Hc. destruct (new_dom_ok Hc) as (d&E&Hd). destruct (postdominators_of d id Hc Hd) as (pdom&d'&Ep&_&H1).
  by exists d, pdom, d'.
Qed.
End Theorems.

(** ** Witnesses and counterexamples *)

Module GraphExamples.
Import CfgExamples.

Lemma isReachable_witness :
  (0 < getCount cfg)%nat /\ isReachable (Preorder cfg) 0 4 = Ok true /\
  isReachable (Preorder cfg) 0 5 = Ok false /\
  exists b, isReachable (Preorder cfg) 0 4 = Ok b /\ (b = true <-> rtc (edge cfg 1) 0%nat 4%nat).
Proof.
  assert (Hc : (0 < getCount cfg)%nat) by (vm_compute; lia).
  split; [exact Hc|]. split; [vm_compute; reflexivity|]. split; [vm_compute; reflexivity|].
  exact (isReachable_correct cfg 0 4 Hc).
Defined.

Lemma reverse_postorder_witness : (0 < getCount cfg)%nat /\
  ReversePostorder cfg 0 = Ok [[0; 1; 2; 3; 4]]%nat /\
  exists order, ReversePostorder cfg 0 = Ok [order] /\ NoDup order /\
    (forall x, x ∈ order <-> rtc (edge cfg 1) 0%nat x) /\
    order !! 0%nat = Some 0%nat /\
    (forall a x b y, order = a ++ x :: b -> edge cfg 1 x y -> y ∈ b \/ rtc (edge cfg 1) y x) /\
    (forall a x b, order = a ++ x :: b -> x <> 0%nat -> exists p, p ∈ a /\ edge cfg 1 p x).
Proof.
  assert (Hc : (0 < getCount cfg)%nat) by (vm_compute; lia).
  split; [exact Hc|]. split; [vm_compute; reflexivity|]. exact (reverse_postorder_correct cfg 0 Hc).
Defined.

Lemma scc_order_witness :
  genFull_scc cfg 1 ReverseFinisher 0 = Ok [[5]; [0]; [1]; [2; 3]; [4]]%nat /\
  (forall id, (id < getCount cfg)%nat -> exists orders,
     gen_scc cfg 1 ReverseFinisher id = Ok orders /\
     scc_order cfg 1 (rtc (edge cfg 1) id) orders) /\
  ((0 < getCount cfg)%nat -> exists orders,
     genFull_scc cfg 1 ReverseFinisher 0 = Ok orders /\
     scc_order cfg 1 (fun x => x < getCount cfg)%nat orders).
Proof. split; [vm_compute; reflexivity|]. exact (scc_order_correct cfg 1). Defined.

Definition dom : Dominance :=
  match Dom.new cfg with Ok d => d | Err _ => mkDominance [] [] end.

Lemma dominators_witness : (0 < getCount cfg)%nat /\
  Dom.getDominators dom 4 = Ok [4; 3; 0]%nat /\
  exists d, Dom.new cfg = Ok d /\
    forall x, rtc (edge cfg 1) 0%nat x -> exists doms,
      Dom.getDominators d x = Ok doms /\
      (forall z, z ∈ doms <-> dominates cfg z x) /\
      head doms = Some x /\ last doms = Some 0%nat /\
      StronglySorted (fun u v => u <> v /\ dominates cfg v u) doms.
Proof.
  assert (Hc : (0 < getCount cfg)%nat) by (vm_compute; lia).
  split; [exact Hc|]. split; [vm_compute; reflexivity|]. exact (dominators_correct cfg Hc).
Defined.

Lemma postdominators_witness : (0 < getCount cfg)%nat /\
  fst <$> Dom.getPostDominators cfg dom 0 = Ok [4; 3; 0]%nat /\
  exists d pdom d', Dom.new cfg = Ok d /\ Dom.getPostDominators cfg d 0 = Ok (pdom, d') /\
    (forall z e, z ∈ pdom -> rtc (edge cfg 1) 0%nat e -> links cfg 1 e = [] -> dominates cfg z e) /\
    (forall e z, rtc (edge cfg 1) 0%nat e -> links cfg 1 e = [] ->
       (forall e', rtc (edge cfg 1) 0%nat e' -> links cfg 1 e' = [] -> e' = e) ->
       dominates cfg z e -> z ∈ pdom).
Proof.
  assert (Hc : (0 < getCount cfg)%nat) by (vm_compute; lia).
  split; [exact Hc|]. split; [vm_compute; reflexivity|]. exact (postdominators_entry cfg 0 Hc).
Defined.

(** For a node that node 0 does not reach, [getDominators] reads the vector at -1. *)
Example unreachable_dominators : Dom.getDominators dom 5 = Err OutOfBounds.
Proof. vm_compute. reflexivity. Qed.

(** [getPostDominators] does not look at its argument: what it returns is about node 0.
    For node 2 it has node 0 among the results, which is on no path from node 2. *)
Example postdominators_are_dominators :
  fst <$> Dom.getPostDominators cfg dom 2 = Ok [4; 3; 0]%nat /\ ~ rtc (edge cfg 1) 2%nat 0%nat.
Proof.
  split; [vm_compute; reflexivity|].
  destruct (gen_nodes_dfs cfg 1 2) as (V'&es&Hd&Hg); [vm_compute; lia|].
  rewrite <- (fresh_reach _ _ _ _ _ Hd). specialize (Hg PostorderVisitor EmptyFinisher).
  rewrite collect_post in Hg. cbn [app] in Hg.
  assert (E : gen_nodes cfg 1 PostorderVisitor EmptyFinisher 2 = Ok [[4; 3; 2]]%nat) by (vm_compute; reflexivity).
  rewrite E in Hg. injection Hg as Hg. unfold finish, EmptyFinisher in Hg. rewrite <- Hg.
  rewrite !elem_of_cons, elem_of_nil. lia.
Qed.

(** With two exits the list of the first one, which is not sorted, is intersected as if it
    were: nodes 0 and 1 dominate both exits, and the result is empty. *)
Definition fork : ControlFlowGraph :=
  match construct ARCH_X86_64
    [ mkBlockView 100 0 (Some (mkInstructionView OtherSemantic None 4));
      mkBlockView 200 8 (Some (mkInstructionView (ControlFlowInstruction "jne" true)
                                 (Some (link_to 400 24)) 12));
      mkBlockView 300 16 (Some (mkInstructionView ReturnInstruction None 20));
      mkBlockView 400 24 (Some (mkInstructionView ReturnInstruction None 28)) ]
  with Ok g => g | Err _ => mkGraph [] ∅ end.

Example postdominators_unsorted :
  (d ← Dom.new fork; a ← Dom.getDominators d 2; b ← Dom.getDominators d 3;
   pd ← Dom.getPostDominators fork d 0; Ok (a, b, fst pd)) = Ok ([2; 1; 0], [3; 1; 0], [])%nat.
Proof. vm_compute. reflexivity. Qed.

(** The search that skips subtrees misses a node that was first found below a skipped one,
    although a link leads to it from the source. *)
Definition triangle : ControlFlowGraph :=
  match construct ARCH_X86_64
    [ mkBlockView 100 0 (Some (mkInstructionView (IndirectJumpInstruction "jmpq"
                                 [[Some (link_to 200 8); Some (link_to 300 16)]]) None 4));
      mkBlockView 200 8 (Some (mkInstructionView OtherSemantic None 12));
      mkBlockView 300 16 (Some (mkInstructionView ReturnInstruction None 20)) ]
  with Ok g => g | Err _ => mkGraph [] ∅ end.

Example pruned_search_incomplete :
  links triangle 1 0 = [1; 2]%nat /\
  isReachablePruned triangle (fun n _ _ => (n =? 1)%nat) 0 2 = Ok false.
Proof. split; vm_compute; reflexivity. Qed.
End GraphExamples.
