(* ===== verification/Link.v ===== *)
(** * Links: src/chunk/link.h, link.cpp

    A link is what a chunk, usually an instruction, refers to.  Most links name a chunk of
    the heap and follow it when it moves; the others keep an address. *)

From S2P Require Import Prelude ChunkList GSTable Chunk.

(** ** Scopes *)
Module LinkScope.
Definition SCOPE_UNKNOWN : Z := 0.
Definition SCOPE_WITHIN_FUNCTION : Z := Z.shiftl 1 0.
Definition SCOPE_WITHIN_SECTION : Z := Z.shiftl 1 1.
Definition SCOPE_WITHIN_MODULE : Z := Z.shiftl 1 2.
Definition SCOPE_INTERNAL_JUMP : Z :=
  Z.lor (Z.lor SCOPE_WITHIN_FUNCTION SCOPE_WITHIN_SECTION) SCOPE_WITHIN_MODULE.
Definition SCOPE_EXTERNAL_JUMP : Z := Z.lor SCOPE_WITHIN_SECTION SCOPE_WITHIN_MODULE.
Definition SCOPE_INTERNAL_DATA : Z := SCOPE_WITHIN_MODULE.
Definition SCOPE_EXTERNAL_DATA : Z := 0.
Definition SCOPE_EXTERNAL_CODE : Z := 0.

Definition matches (scope s : Z) : bool := Z.land scope s =? s.
End LinkScope.
Import LinkScope.

(** ** The classes *)
Inductive Link :=
| NormalLink (target : option ptr) (scope : Z)
| AbsoluteNormalLink (target : option ptr) (scope : Z)
| OffsetLink (target : option ptr) (offset : Z) (scope : Z)
| PLTLink (originalAddress : Z) (pltTrampoline : option ptr)
| ExternalSymbolLink (externalSymbol : ptr) (offset : Z)
| CopyRelocLink (externalSymbol : ptr)
| JumpTableLink (jumpTable : option ptr)
| SymbolOnlyLink (target : Z)
| EgalitoLoaderLink (targetName : string)
| LDSOLoaderLink (targetName : string)
| StackLink (targetAddress : Z)
| MarkerLink (marker : option ptr)
| AbsoluteMarkerLink (marker : option ptr)
| GSTableLink (entry : GSTableEntry)
| DistanceLink (base target : option ptr)
| DataOffsetLink (section : option ptr) (target addend scope : Z)
| AbsoluteDataLink (section : option ptr) (target addend scope : Z)
| InternalAndExternalDataLink (externalSymbol : ptr) (section : option ptr) (target addend scope : Z)
| TLSDataOffsetLink (tls : option ptr) (target : Z)
| UnresolvedLink (target : Z)
| UnresolvedRelativeLink (target : Z)
| ImmAndDispLink (immLink dispLink : Link).

(** What links ask of the rest of the program: what an external symbol is resolved to, the
    address of a function of the loader, the offset of a thread-local region. *)
Record LinkEnv := mkLinkEnv {
  getResolved : ptr -> option ptr;
  loader_address : string -> Z;
  getTLSOffset : ptr -> Z }.

Module Link.

Definition not_handled {A} : res A := Err (Throw "ImmAndDispLink not handled").

Definition getScope (k : Link) : res Z :=
  match k with
  | NormalLink _ s | AbsoluteNormalLink _ s | OffsetLink _ _ s => Ok s
  | DataOffsetLink _ _ _ s | AbsoluteDataLink _ _ _ s | InternalAndExternalDataLink _ _ _ _ s => Ok s
  | PLTLink _ _ | JumpTableLink _ | SymbolOnlyLink _ | TLSDataOffsetLink _ _ => Ok SCOPE_WITHIN_MODULE
  | ExternalSymbolLink _ _ | CopyRelocLink _ => Ok SCOPE_EXTERNAL_DATA
  | EgalitoLoaderLink _ | LDSOLoaderLink _ => Ok SCOPE_EXTERNAL_CODE
  | StackLink _ | MarkerLink _ | AbsoluteMarkerLink _ | GSTableLink _ | DistanceLink _ _
  | UnresolvedLink _ | UnresolvedRelativeLink _ => Ok SCOPE_UNKNOWN
  | ImmAndDispLink _ _ => not_handled
  end.
Definition isExternalJump (k : Link) : res bool :=
  s ← getScope k; Ok (negb (matches s SCOPE_WITHIN_FUNCTION)).
Definition isWithinModule (k : Link) : res bool :=
  s ← getScope k; Ok (matches s SCOPE_WITHIN_MODULE).

Definition isAbsolute (k : Link) : bool :=
  match k with
  | AbsoluteNormalLink _ _ | AbsoluteMarkerLink _ | AbsoluteDataLink _ _ _ _
  | InternalAndExternalDataLink _ _ _ _ _ => true
  | _ => false
  end.
Definition isRIPRelative (k : Link) : bool :=
  match k with
  | NormalLink _ _ | OffsetLink _ _ _ | PLTLink _ _ | JumpTableLink _ | SymbolOnlyLink _
  | EgalitoLoaderLink _ | LDSOLoaderLink _ | MarkerLink _ | DataOffsetLink _ _ _ _
  | UnresolvedRelativeLink _ => true
  | _ => false
  end.

Definition getTarget (E : LinkEnv) (k : Link) : res (option ptr) :=
  match k with
  | NormalLink t _ | AbsoluteNormalLink t _ | OffsetLink t _ _ => Ok t
  | PLTLink _ t | JumpTableLink t => Ok t
  | ExternalSymbolLink s _ | CopyRelocLink s => Ok (getResolved E s)
  | GSTableLink e => Ok (Some (GSTableEntry.getTarget e))
  | DistanceLink _ t => Ok t
  | DataOffsetLink s _ _ _ | AbsoluteDataLink s _ _ _ | InternalAndExternalDataLink _ s _ _ _ => Ok s
  | TLSDataOffsetLink t _ => Ok t
  | ImmAndDispLink _ _ => not_handled
  | _ => Ok None
  end.

(** The address of a chunk through a pointer that must not be null, plus a number. *)
Definition address_plus (c : option ptr) (n : Z) : M Z := c ← deref c; a ← getAddress c; mret (add64 a n).

Definition getTargetAddress (E : LinkEnv) (k : Link) : M Z :=
  match k with
  | NormalLink t _ | AbsoluteNormalLink t _ | PLTLink _ t | JumpTableLink t
  | MarkerLink t | AbsoluteMarkerLink t => c ← deref t; getAddress c
  | OffsetLink t n _ => address_plus t n
  | ExternalSymbolLink s n =>
    match getResolved E s with Some c => address_plus (Some c) n | None => mret 0 end
  | CopyRelocLink s => match getResolved E s with Some c => getAddress c | None => mret 0 end
  | SymbolOnlyLink a | StackLink a | UnresolvedLink a | UnresolvedRelativeLink a => mret a
  | EgalitoLoaderLink n => mret (loader_address E n)
  | LDSOLoaderLink _ => mret 0
  | GSTableLink e => mret (GSTableEntry.getOffset e)
  | DistanceLink b t =>
    t ← deref t; a ← getAddress t; s ← ChunkImpl.getSize t;
    b ← deref b; c ← getAddress b; mret (sub64 (add64 a s) c)
  | DataOffsetLink s t n _ | AbsoluteDataLink s t n _ | InternalAndExternalDataLink _ s t n _ =>
    address_plus s (add64 t n)
  | TLSDataOffsetLink t n => match t with Some t => mret (add64 (getTLSOffset E t) n) | None => mret 0 end
  | ImmAndDispLink _ _ => lift not_handled
  end.

(** [LinkFactory::makeNormalLink] *)
Definition makeNormalLink (target : option ptr) (isRelative isExternal : bool) : Link :=
  let scope := if isExternal then SCOPE_EXTERNAL_JUMP else SCOPE_INTERNAL_JUMP in
  if isRelative then NormalLink target scope else AbsoluteNormalLink target scope.
End Link.
