(* ===== verification/Linked.v ===== *)
(** * Linked instructions: src/instr/linked-aarch64.{h,cpp}, linked-x86_64.{h,cpp},
      src/pass/promotejumps.{h,cpp}

    An instruction with a link is written out again whenever it or its target has moved:
    on AArch64 the immediate fields of the word are recomputed, on x86-64 the displacement
    bytes.  The theorems (LinkedProofs) say that the machine, decoding what is written,
    computes the target of the link.  The pass that widens short jumps is at the end. *)

From S2P Require Import Prelude.

Abbreviation s64 := (swrap 64).

(** ** AArch64 *)

Module AArch64.

(** [LinkedInstruction::Mode] *)
Inductive Mode :=
| ADRP | ADR | ADDIMM | LDRIMM | LDRH | LDRB | LDRSW | LDRSH | LDRSB | LDRLIT | MOV | MOVK
| STR | STRH | STRB | BL | B | BCOND | CBZ | CBNZ | TBZ | TBNZ.

#[export] Instance Mode_eq_dec : EqDecision Mode.
Proof. solve_decision. Defined.

(** The complement of a 32-bit mask. *)
Definition not32 (m : Z) : Z := Z.lxor m 0xFFFFFFFF.

(** The table [AARCH64_ImInfo]: the bits that stay, the immediate as a function of the
    target, the address of the instruction and the bits that stay, and the index of the
    operand.  The displacement [disp] is a signed number of 64 bits, [imm] an unsigned
    number of 32. *)
Definition fixedMask (m : Mode) : Z :=
  match m with
  | ADRP => 0x9000001F
  | ADR => 0x9F00001F
  | ADDIMM => 0xFFC003FF
  | LDRIMM | LDRH | LDRB | LDRSW | LDRSH | LDRSB | STR | STRH | STRB => 0xFFE003FF
  | LDRLIT | BCOND | CBZ | CBNZ => 0xFF00001F
  | MOV | MOVK => 0xFFE0001F
  | BL | B => 0xFC000000
  | TBZ | TBNZ => 0xFFF8001F
  end.

(** ADRP and ADR: two bits at 29, nineteen at 5. *)
Definition split_imm (imm : Z) : Z :=
  u32 (Z.lor (u32 (Z.shiftl (Z.land imm 0x3) 29)) (u32 (Z.shiftl (Z.land imm 0x1FFFFC) 3))).

(** The low twelve bits of the target, in units of [2 ^ scale]. *)
Definition low12_imm (mask dest scale : Z) : Z :=
  let disp := Z.land dest 0xFFF in
  Z.land (u32 (Z.shiftl (Z.shiftr disp scale) 10)) (not32 mask).

(** A branch displacement in words, at bit [pos]. *)
Definition branch_imm (mask dest src pos : Z) : Z :=
  let disp := s64 (dest - src) in
  let imm := u32 (Z.shiftr disp 2) in
  Z.land (u32 (Z.shiftl imm pos)) (not32 mask).

Definition makeImm (m : Mode) (dest src fixed : Z) : Z :=
  match m with
  | ADRP =>
    let disp := s64 (dest - Z.land src (u64 (Z.lnot 0xFFF))) in
    split_imm (u32 (Z.shiftr disp 12))
  | ADR => split_imm (u32 (s64 (dest - src)))
  | ADDIMM => low12_imm 0xFFC003FF dest 0
  | LDRIMM =>
    low12_imm 0xFFE003FF dest (Z.lor (Z.shiftr (Z.land fixed 0x00800000) 21) (Z.shiftr fixed 30))
  | LDRH | LDRSH | STRH => low12_imm 0xFFE003FF dest 1
  | LDRB | LDRSB | STRB => low12_imm 0xFFE003FF dest 0
  | LDRSW => low12_imm 0xFFE003FF dest 2
  | LDRLIT =>
    let disp := Z.land (u64 (dest - src)) 0x7FFFF in
    Z.land (u32 (Z.shiftl (Z.shiftr disp 2) 5)) (not32 0xFF00001F)
  | MOV => Z.land (u32 (Z.shiftl (Z.land dest 0xFFFF) 5)) (not32 0xFFE0001F)
  | MOVK =>
    let hw := Z.land (Z.shiftr fixed 21) 0x3 in
    let disp := Z.land (Z.shiftr dest (Z.shiftl hw 4)) 0xFFFF in
    Z.land (u32 (Z.shiftl disp 5)) (not32 0xFFE0001F)
  | STR => low12_imm 0xFFE003FF dest (Z.shiftr fixed 30)
  | BL | B => branch_imm 0xFC000000 dest src 0
  | BCOND | CBZ | CBNZ => branch_imm 0xFF00001F dest src 5
  | TBZ | TBNZ => branch_imm 0xFFF8001F dest src 5
  end.

Definition immediateIndex (m : Mode) : Z :=
  match m with
  | BL | B | BCOND => 0
  | ADDIMM | TBZ | TBNZ => 2
  | _ => 1
  end.

(** [LinkedInstruction::rebuild] of the word that is stored. *)
Definition rebuild_word (m : Mode) (word dest src : Z) : Z :=
  let fixedBytes := Z.land word (fixedMask m) in
  Z.lor fixedBytes (makeImm m dest src fixedBytes).

(** The object: its bytes, its mode (null before [setAssembly]), the address of its
    instruction and the target of its link, if there is one. *)
Record LinkedInstruction := mkLinked {
  data : list Z;
  modeInfo : option Mode;
  source_address : Z;
  target_address : option Z }.

(** [memcpy(&word, data, 4)] *)
Definition load_word (bytes : list Z) : res Z :=
  if (length bytes <? 4)%nat then Err OutOfBounds else Ok (le_value (take 4 bytes)).

Definition rebuild (l : LinkedInstruction) : res Z :=
  word ← load_word (data l);
  match modeInfo l, target_address l with
  | Some m, Some dest => Ok (rebuild_word m word dest (source_address l))
  | _, _ => Err NullDeref
  end.

(** [target.append(reinterpret_cast<const char *>(&word), size)] *)
Definition append_word (target : list Z) (word : Z) (size : nat) : res (list Z) :=
  if (4 <? size)%nat then Err OutOfBounds else Ok (target ++ take size (le_bytes 4 word)).

Definition writeTo (l : LinkedInstruction) (target : list Z) : res (list Z) :=
  word ← rebuild l; append_word target word (length (data l)).

Definition check (l : LinkedInstruction) : res bool :=
  original ← load_word (data l);
  rebuilt ← rebuild l;
  if original =? rebuilt then Ok true else Err AssertFail.

(** The mnemonics that can be linked, as the disassembler numbers them. *)
Inductive InsId :=
| INS_B | INS_BL | INS_CBZ | INS_CBNZ | INS_TBZ | INS_TBNZ | INS_ADRP | INS_ADR | INS_ADD
| INS_LDR | INS_LDRH | INS_LDRB | INS_LDRSB | INS_LDRSW | INS_LDRSH | INS_MOV | INS_MOVK
| INS_STR | INS_STRH | INS_STRB | INS_OTHER (mnemonic : string).

Definition flag (b mask : Z) : bool := negb (Z.land b mask =? 0).

Definition getMode (id : InsId) (bytes : list Z) : res Mode :=
  match id with
  | INS_B => b3 ← load bytes 3; Ok (if b3 =? 0x54 then BCOND else B)
  | INS_BL => Ok BL
  | INS_CBZ => Ok CBZ
  | INS_CBNZ => Ok CBNZ
  | INS_TBZ => Ok TBZ
  | INS_TBNZ => Ok TBNZ
  | INS_ADRP => Ok ADRP
  | INS_ADR => Ok ADR
  | INS_ADD => Ok ADDIMM
  | INS_LDR =>
    b3 ← load bytes 3;
    if flag b3 (if flag b3 0x04 then 0x20 else 0x80) then
      if flag b3 0x01 then Ok LDRIMM else Err AssertFail
    else Ok LDRLIT
  | INS_LDRH => Ok LDRH
  | INS_LDRB => Ok LDRB
  | INS_LDRSB => Ok LDRSB
  | INS_LDRSW => Ok LDRSW
  | INS_LDRSH => Ok LDRSH
  | INS_MOV => Ok MOV
  | INS_MOVK => Ok MOVK
  | INS_STR => Ok STR
  | INS_STRH => Ok STRH
  | INS_STRB => Ok STRB
  | INS_OTHER mnemonic =>
    Err (Throw ("mnemonic " ++ mnemonic ++ " not yet implemented in LinkedInstruction")%string)
  end.

Definition setAssembly (l : LinkedInstruction) (id : InsId) (bytes : list Z) : res LinkedInstruction :=
  m ← getMode id bytes;
  Ok (mkLinked (match data l with [] => bytes | _ => data l end) (Some m)
        (source_address l) (target_address l)).

(** [regenerateAssembly]; what the disassembler makes of the new bytes is [id]. *)
Definition regenerateAssembly (id : InsId) (l : LinkedInstruction) : res LinkedInstruction :=
  bytes ← writeTo l [];
  setAssembly (mkLinked bytes (modeInfo l) (source_address l) (target_address l)) id bytes.

(** [LinkedLiteralInstruction]: the address of the target as data. *)
Definition relocate (target_address : option Z) : res Z :=
  match target_address with Some a => Ok (u32 a) | None => Err NullDeref end.
Definition literal_writeTo (bytes : list Z) (target_address : option Z) (target : list Z) : res (list Z) :=
  word ← relocate target_address; append_word target word (length bytes).
End AArch64.

(** ** x86-64 *)

Module X86.

(** A link as an instruction uses it: the address of its target, and whether it is
    relative to the instruction pointer. *)
Record LinkView := mkLinkView { getTargetAddress : Z; isRIPRelative : bool }.

(** What is subtracted from the target is the address of the next instruction. *)
Definition displacement (link : LinkView) (address size : Z) : Z :=
  if isRIPRelative link then sub64 (getTargetAddress link) (add64 address size) else getTargetAddress link.

(** [target.append(bytes, n)] from a buffer *)
Definition append (target bytes : list Z) (n : nat) : res (list Z) :=
  if (length bytes <? n)%nat then Err OutOfBounds else Ok (target ++ take n bytes).

(** *** [LinkedInstructionBase]: [bytes] are those of the assembly, [data] the raw data of
    the storage, whose length is the size of the instruction. *)
Record LinkedInstructionBase := mkLinkedBase {
  address : Z;
  data : list Z;
  bytes : list Z;
  opIndex : Z;
  displacementSize : nat;
  displacementOffset : nat;
  link : option LinkView }.

Definition new (address : Z) : LinkedInstructionBase := mkLinkedBase address [] [] (-1) 0 0 None.

(** [InstructionStorage::setAssembly]: raw data that is there stays. *)
Definition setAssembly (l : LinkedInstructionBase) (b : list Z) : LinkedInstructionBase :=
  mkLinkedBase (address l) (match data l with [] => b | d => d end) b (opIndex l)
    (displacementSize l) (displacementOffset l) (link l).
Definition setIndex (l : LinkedInstructionBase) (index : Z) (size offset : nat) : LinkedInstructionBase :=
  mkLinkedBase (address l) (data l) (bytes l) index size offset (link l).
Definition setLink (l : LinkedInstructionBase) (k : option LinkView) : LinkedInstructionBase :=
  mkLinkedBase (address l) (data l) (bytes l) (opIndex l) (displacementSize l) (displacementOffset l) k.

Definition calculateDisplacement (l : LinkedInstructionBase) : Z :=
  match link l with
  | None => 0
  | Some k => displacement k (address l) (Z.of_nat (length (data l)))
  end.

(** The new displacement is an [unsigned long] of eight bytes.  A displacement that ends
    after the instruction makes the last size wrap around, which [append] refuses. *)
Definition writeTo (l : LinkedInstructionBase) (target : list Z) (useDisp : bool) : res (list Z) :=
  let newDisp := if useDisp then calculateDisplacement l else 0 in
  let used := (displacementOffset l + displacementSize l)%nat in
  target ← append target (bytes l) (displacementOffset l);
  target ← append target (le_bytes 8 newDisp) (displacementSize l);
  if (length (bytes l) <? used)%nat then Err (Throw "basic_string::append")
  else Ok (target ++ drop used (bytes l)).

(** [build] is what the disassembler returns for the bytes at an address. *)
Definition regenerateAssembly (build : list Z -> Z -> list Z) (l : LinkedInstructionBase) : res LinkedInstructionBase :=
  b ← writeTo l [] true;
  Ok (setAssembly (mkLinkedBase (address l) b (bytes l) (opIndex l) (displacementSize l) (displacementOffset l) (link l))
        (build b (address l))).

(** [DataLinkedControlFlowInstruction] of an opcode and a displacement to be filled. *)
Definition newDataLinked (address : Z) (opcode : list Z) (size : nat) : LinkedInstructionBase :=
  let b := opcode ++ replicate size 0 in
  mkLinkedBase address b b (-1) 0 0 None.

(** *** Where the displacement is: src/disasm/makesemantic.cpp

    [dispSize] is what the second disassembler says of the operand. *)
Inductive Operand := OP_MEM (disp : Z) | OP_IMM (imm : Z) | OP_REG.

Fixpoint find_disp (b : list Z) (disp : list Z) (offset : nat) : nat :=
  match offset with
  | O => O
  | S n => if bool_decide (take (length disp) (drop offset b) = disp) then offset else find_disp b disp n
  end.
Definition getDispOffset (b : list Z) (op : Operand) (dispSize : nat) : res Z :=
  match op with
  | OP_MEM v | OP_IMM v =>
    let offset := Z.of_nat (length b) - Z.of_nat dispSize in
    if offset <=? 0 then Ok offset
    else if (8 <? dispSize)%nat then Err OutOfBounds
    else Ok (Z.of_nat (find_disp b (le_bytes dispSize (u64 v)) (Z.to_nat offset)))
  | OP_REG => Ok 0
  end.
Fixpoint getOpIndex (b : list Z) (ops : list (Operand * nat)) (i offset : Z) : res Z :=
  match ops with
  | [] => Ok (-1)
  | (op, dispSize) :: ops =>
    o ← getDispOffset b op dispSize;
    if offset =? u64 o then Ok i else getOpIndex b ops (i + 1) offset
  end.
(** [setIndex(index)], which computes the place of the displacement. *)
Definition makeDisplacementInfo (l : LinkedInstructionBase) (index : Z) (op : Operand) (dispSize : nat) :
    res LinkedInstructionBase :=
  cassert (negb (index =? -1));;
  o ← getDispOffset (bytes l) op dispSize;
  Ok (setIndex l index dispSize (Z.to_nat (u64 o))).

(** *** [ControlFlowInstructionBase] *)
Record ControlFlowInstruction := mkCFI {
  id : Z;
  opcode : list Z;
  dispSize : nat;
  nonreturn : bool;
  cfi_link : option LinkView }.

Definition getSize (v : ControlFlowInstruction) : Z := Z.of_nat (length (opcode v) + dispSize v).
Definition setSize (v : ControlFlowInstruction) (value : nat) : res ControlFlowInstruction :=
  let disp := Z.of_nat value - Z.of_nat (length (opcode v)) in
  cassert (0 <=? disp);;
  cassert ((disp =? 1) || (disp =? 2) || (disp =? 4));;
  Ok (mkCFI (id v) (opcode v) (Z.to_nat disp) (nonreturn v) (cfi_link v)).
Definition cfi_displacement (v : ControlFlowInstruction) (source : Z) : res Z :=
  match cfi_link v with
  | None => Err NullDeref
  | Some k => Ok (displacement k source (getSize v))
  end.
Definition cfi_writeTo (v : ControlFlowInstruction) (source : Z) (target : list Z) (useDisp : bool) : res (list Z) :=
  disp ← (if useDisp then cfi_displacement v source else Ok 0);
  append (target ++ opcode v) (le_bytes 8 disp) (dispSize v).

(** *** [StackFrameInstruction] *)
Record StackFrameInstruction := mkSFI {
  sfi_data : list Z;
  opCodeSize : nat;
  sfi_dispSize : nat;
  sfi_displacement : Z }.

(** The string made of a C string: up to the first zero byte, which must exist. *)
Fixpoint c_string (b : list Z) : res (list Z) :=
  match b with
  | [] => Err OutOfBounds
  | x :: b => if x =? 0 then Ok [] else s ← c_string b; Ok (x :: s)
  end.
Definition sfi_determineDisplacementSize (mov_or_lea : bool) (b : list Z) : res nat :=
  if mov_or_lea && (length b =? 5)%nat then Ok 1%nat
  else Err (Throw "don't know how to determined displacement size").
(** [disp] is the displacement of the operand that is based on RSP. *)
Definition sfi_new (mov_or_lea : bool) (b : list Z) (disp : Z) : res StackFrameInstruction :=
  d ← c_string b;
  n ← sfi_determineDisplacementSize mov_or_lea b;
  Ok (mkSFI d (length b - n) n disp).
(** A signed [long]: overflow is undefined. *)
Definition addToDisplacementValue (s : StackFrameInstruction) (add : Z) : res StackFrameInstruction :=
  let d := sfi_displacement s + add in
  if (- 2 ^ 63 <=? d) && (d <? 2 ^ 63) then Ok (mkSFI (sfi_data s) (opCodeSize s) (sfi_dispSize s) d) else Err Undefined.
Definition sfi_writeTo (s : StackFrameInstruction) (target : list Z) : res (list Z) :=
  append (target ++ take (opCodeSize s) (sfi_data s)) (le_bytes 8 (sfi_displacement s)) (sfi_dispSize s).
End X86.
