(* ===== verification/LinkedProofs.v ===== *)
(** * What linked instructions mean to the machine

    The fields of an AArch64 instruction word as the architecture defines them, and the
    proof that [LinkedInstruction::rebuild] puts the target of the link into them. *)

From S2P Require Import Prelude Linked.

(** ** Fields of a word *)

(** The [n] bits of [w] from bit [lo]. *)
Definition bitfield (w lo n : Z) : Z := Z.land (Z.shiftr w lo) (Z.ones n).

Lemma bitfield_mod w lo n : 0 <= lo -> 0 <= n -> bitfield w lo n = (w / 2 ^ lo) mod 2 ^ n.
Proof. intros. unfold bitfield. by rewrite Z.land_ones, Z.shiftr_div_pow2 by lia. Qed.

Lemma testbit_bitfield w lo n i : 0 <= lo -> 0 <= n -> 0 <= i ->
  Z.testbit (bitfield w lo n) i = (i <? n) && Z.testbit w (i + lo).
Proof.
  intros. unfold bitfield. rewrite Z.land_spec, Z.shiftr_spec, Z.testbit_ones_nonneg by lia.
  apply andb_comm.
Qed.

Lemma bitfield_range w lo n : 0 <= n -> 0 <= bitfield w lo n < 2 ^ n.
Proof. intros. unfold bitfield. rewrite Z.land_ones by lia. apply Z.mod_pos_bound, Z.pow_pos_nonneg; lia. Qed.

Lemma bitfield_zero m lo n i : 0 <= lo -> 0 <= n -> 0 <= i < n -> bitfield m lo n = 0 -> Z.testbit m (i + lo) = false.
Proof.
  intros ??[? Hi] Hm. pose proof (testbit_bitfield m lo n i) as E. rewrite Hm, Z.bits_0 in E.
  apply Z.ltb_lt in Hi. rewrite Hi in E. symmetry. by apply E.
Qed.

(** Fields are compared bit by bit. *)
Ltac bitwise i Hi := apply Z.bits_inj'; intros i Hi.

Lemma insert_field w m x lo n : 0 <= lo -> 0 <= n -> bitfield m lo n = 0 ->
  bitfield (Z.lor (Z.land w m) x) lo n = bitfield x lo n.
Proof.
  intros ?? Hm. bitwise i Hi. rewrite !testbit_bitfield, Z.lor_spec, Z.land_spec by lia.
  destruct (Z.ltb_spec i n); [|done]. by rewrite (bitfield_zero m lo n i), andb_false_r by lia.
Qed.

Lemma insert_fixed w m x : Z.land x m = 0 -> Z.land (Z.lor (Z.land w m) x) m = Z.land w m.
Proof. intros E. by rewrite Z.land_lor_distr_l, E, Z.lor_0_r, <- Z.land_assoc, Z.land_diag. Qed.

(** A field that is kept. *)
Lemma kept_field w w' m lo n : 0 <= lo -> 0 <= n -> Z.land w' m = Z.land w m -> bitfield m lo n = Z.ones n ->
  bitfield w' lo n = bitfield w lo n.
Proof.
  intros ?? E Hm. bitwise i Hi. rewrite !testbit_bitfield by lia. destruct (Z.ltb_spec i n); [|done]. cbn [andb].
  assert (Z.testbit m (i + lo) = true) as Hb.
  { pose proof (testbit_bitfield m lo n i) as F. rewrite Hm, Z.testbit_ones_nonneg in F by lia.
    rewrite (proj2 (Z.ltb_lt i n)) in F by lia. symmetry. by apply F. }
  assert (Z.testbit (Z.land w' m) (i + lo) = Z.testbit (Z.land w m) (i + lo)) as G by by rewrite E.
  by rewrite !Z.land_spec, Hb, !andb_true_r in G.
Qed.

Lemma testbit_not32 m i : 0 <= i -> Z.testbit (AArch64.not32 m) i = xorb (Z.testbit m i) (i <? 32).
Proof.
  intros. unfold AArch64.not32. change 0xFFFFFFFF with (Z.ones 32).
  by rewrite Z.lxor_spec, Z.testbit_ones_nonneg by lia.
Qed.

(** What is masked with the complement of the mask. *)
Lemma placed_fixed v m : 0 <= v < 2 ^ 32 -> Z.land (Z.land v (AArch64.not32 m)) m = 0.
Proof.
  intros Hv. bitwise i Hi. rewrite !Z.land_spec, testbit_not32, Z.bits_0 by lia.
  destruct (Z.ltb_spec i 32); [|by rewrite (testbit_high 32 v) by lia].
  by destruct (Z.testbit v i), (Z.testbit m i).
Qed.

Lemma placed_field v m lo n : 0 <= lo -> 0 <= n -> lo + n <= 32 -> bitfield m lo n = 0 ->
  bitfield (Z.land (u32 (Z.shiftl v lo)) (AArch64.not32 m)) lo n = v mod 2 ^ n.
Proof.
  intros ??? Hm. bitwise i Hi.
  rewrite testbit_bitfield, Z.land_spec, testbit_not32, testbit_wrap, Z.testbit_mod_pow2 by lia.
  destruct (Z.ltb_spec i n); [|done].
  rewrite Z.shiftl_spec, (bitfield_zero m lo n i), (proj2 (Z.ltb_lt _ _)) by lia.
  rewrite Z.add_simpl_r, xorb_false_l. by destruct (Z.testbit v i).
Qed.

Lemma land_range w a b : 0 <= w -> 0 <= a < 2 ^ w -> 0 <= Z.land a b < 2 ^ w.
Proof.
  intros Hw Ha. assert (0 <= Z.land a b) by (apply Z.land_nonneg; lia). split; [done|].
  apply bits_small; [done| |done]. intros i Hi. by rewrite Z.land_spec, (testbit_high w a) by lia.
Qed.

(** ** The architecture's view of the instructions *)
Module Machine.
Import AArch64.

Definition sext (n v : Z) : Z := swrap n v.
Definition page (a : Z) : Z := a / 4096 * 4096.

(** The byte count of a load or store, as a power of two: the size field, with the upper
    bit of the operation field in front of it for the vector registers. *)
Definition access_scale (w : Z) : Z :=
  bitfield w 30 2 + (if Z.testbit w 26 && Z.testbit w 23 then 4 else 0).
Definition adr_imm (w : Z) : Z := sext 21 (4 * bitfield w 5 19 + bitfield w 29 2).

(** What an instruction word at address [src] computes from its immediate: the address a
    branch or an ADR goes to, the page of an ADRP, the offset a load, store or addition
    adds to the page, the half word a move sets. *)
Definition operand (m : Mode) (w src : Z) : Z :=
  match m with
  | ADRP => page src + 4096 * adr_imm w
  | ADR => src + adr_imm w
  | ADDIMM => bitfield w 10 12
  | LDRIMM | STR => bitfield w 10 12 * 2 ^ access_scale w
  | LDRH | LDRSH | STRH => bitfield w 10 12 * 2
  | LDRB | LDRSB | STRB => bitfield w 10 12
  | LDRSW => bitfield w 10 12 * 4
  | LDRLIT | BCOND | CBZ | CBNZ => src + 4 * sext 19 (bitfield w 5 19)
  | MOV | MOVK => Z.shiftl (bitfield w 5 16) (16 * bitfield w 21 2)
  | BL | B => src + 4 * sext 26 (bitfield w 0 26)
  | TBZ | TBNZ => src + 4 * sext 14 (bitfield w 5 14)
  end.

(** What the link asks for. *)
Definition wanted (m : Mode) (w dest : Z) : Z :=
  match m with
  | ADRP => page dest
  | ADDIMM | LDRIMM | LDRH | LDRB | LDRSW | LDRSH | LDRSB | STR | STRH | STRB => dest mod 4096
  | MOV | MOVK => Z.shiftl ((dest / 2 ^ (16 * bitfield w 21 2)) mod 2 ^ 16) (16 * bitfield w 21 2)
  | _ => dest
  end.

Definition word_distance (bits src dest : Z) : Prop :=
  (dest - src) mod 4 = 0 /\ - 2 ^ (bits + 1) <= dest - src < 2 ^ (bits + 1).
(** The sizes of loads and stores: only vector registers have sixteen bytes. *)
Definition sized_access (word : Z) : Prop := (Z.testbit word 23 = true -> Z.testbit word 26 = true) /\ access_scale word <= 4.

(** The targets that the instruction can reach on the machine: a distance that fits the field,
    an offset that is aligned. *)
Definition reaches (m : Mode) (word src dest : Z) : Prop :=
  match m with
  | ADRP => - 2 ^ 32 <= page dest - page src < 2 ^ 32
  | ADR => - 2 ^ 20 <= dest - src < 2 ^ 20
  | ADDIMM | MOV | MOVK => True
  | LDRIMM | STR => sized_access word /\ dest mod 2 ^ access_scale word = 0
  | LDRH | LDRSH | STRH => dest mod 2 ^ 1 = 0
  | LDRB | LDRSB | STRB => True
  | LDRSW => dest mod 2 ^ 2 = 0
  | LDRLIT | BCOND | CBZ | CBNZ => word_distance 19 src dest
  | BL | B => word_distance 26 src dest
  | TBZ | TBNZ => word_distance 14 src dest
  end.

(** *** What the code makes of them *)

(** The upper bit of the offset field, which the mask keeps, is already the right one. *)
Definition offset_kept (word dest scale : Z) : Prop := Z.testbit word 21 = Z.testbit (dest mod 4096 / 2 ^ scale) 11.
(** The targets for which the immediate is computed and stored without loss *)
Definition preserved (m : Mode) (word src dest : Z) : Prop :=
  match m with
  | LDRIMM => offset_kept word dest (access_scale word)
  | STR => if Z.testbit word 26 && Z.testbit word 23 then dest mod 4096 = 0 /\ Z.testbit word 21 = false
           else offset_kept word dest (access_scale word)
  | LDRH | LDRSH | STRH => offset_kept word dest 1
  | LDRB | LDRSB | STRB => offset_kept word dest 0
  | LDRSW => offset_kept word dest 2
  | LDRLIT => 0 <= dest - src < 2 ^ 19
  | MOV => dest mod 2 ^ 16 = (dest / 2 ^ (16 * bitfield word 21 2)) mod 2 ^ 16
  | _ => True
  end.
End Machine.

Import AArch64 Machine.

(** ** Immediates *)

Lemma s64_id x : - 2 ^ 63 <= x < 2 ^ 63 -> s64 x = x.
Proof. intros. unfold swrap. rewrite Z.mod_small; lia. Qed.

Lemma word_step n src dest : 0 < n -> word_distance n src dest ->
  src + 4 * sext n ((dest - src) / 4 mod 2 ^ n) = dest.
Proof.
  intros Hn [Hd Hr]. unfold sext.
  assert (2 ^ (n + 1) = 4 * 2 ^ (n - 1)) as E.
  { replace (n + 1) with (2 + (n - 1)) by lia. rewrite Z.pow_add_r by lia. done. }
  rewrite swrap_mod; [zdiv|done|zdiv].
Qed.

Lemma branch_field m word dest src pos n w : 0 <= pos -> 0 < n <= 26 -> pos + n <= 32 ->
  bitfield m pos n = 0 -> word_distance n src dest ->
  w = Z.lor (Z.land word m) (branch_imm m dest src pos) ->
  src + 4 * sext n (bitfield w pos n) = dest.
Proof.
  intros Hp Hn ? Hm Hr ->. rewrite insert_field by (done || lia). unfold branch_imm.
  rewrite placed_field, wrap_mod by (done || lia).
  assert (2 ^ (n + 1) <= 2 ^ 27) by (apply Z.pow_le_mono_r; lia).
  rewrite s64_id, Z.shiftr_div_pow2 by (destruct Hr; lia). apply word_step; [lia|done].
Qed.

Lemma land_low v n : 0 <= n -> Z.land v (Z.ones n) = v mod 2 ^ n.
Proof. intros. by rewrite Z.land_ones. Qed.

Lemma low12_field word dest scale w : 0 <= dest -> 0 <= scale <= 7 -> offset_kept word dest scale ->
  w = Z.lor (Z.land word 0xFFE003FF) (low12_imm 0xFFE003FF dest scale) ->
  bitfield w 10 12 = dest mod 4096 / 2 ^ scale.
Proof.
  intros Hd Hs H21 ->. unfold offset_kept in H21. unfold low12_imm. change 0xFFF with (Z.ones 12). rewrite land_low, Z.shiftr_div_pow2 by lia.
  change (2 ^ 12) with 4096. set (v := dest mod 4096 / 2 ^ scale) in *.
  assert (0 <= v < 2 ^ 12) as Hv.
  { assert (0 <= dest mod 4096 < 4096) by (apply Z.mod_pos_bound; lia).
    pose proof (Z.pow_pos_nonneg 2 scale). split; [apply Z.div_pos; lia|].
    apply Z.div_lt_upper_bound; nia. }
  bitwise i Hi. rewrite testbit_bitfield by lia. destruct (Z.ltb_spec i 12); [|by rewrite (testbit_high 12 v) by lia].
  rewrite Z.lor_spec, !Z.land_spec, testbit_not32, testbit_wrap by lia.
  rewrite Z.shiftl_spec, Z.add_simpl_r, (proj2 (Z.ltb_lt (i + 10) 32)) by lia. cbn [andb].
  destruct (decide (i = 11)) as [->|].
  - change (11 + 10) with 21. rewrite H21. change (Z.testbit 0xFFE003FF 21) with true.
    cbn [xorb]. by rewrite andb_true_r, andb_false_r, orb_false_r.
  - rewrite (bitfield_zero 0xFFE003FF 10 11) by (done || lia). cbn [xorb]. by rewrite andb_false_r, andb_true_r.
Qed.

Lemma scaled_offset dest scale : 0 <= dest -> 0 <= scale <= 12 -> dest mod 2 ^ scale = 0 ->
  dest mod 4096 / 2 ^ scale * 2 ^ scale = dest mod 4096.
Proof.
  intros Hd Hs E. pose proof (Z.pow_pos_nonneg 2 scale ltac:(lia) ltac:(lia)).
  pose proof (Z.div_mod (dest mod 4096) (2 ^ scale) ltac:(lia)) as F.
  assert ((dest mod 2 ^ 12) mod 2 ^ scale = 0) as G.
  { rewrite <- E. bitwise i Hi. rewrite !Z.testbit_mod_pow2 by lia.
    destruct (Z.ltb_spec i scale); [|done]. by rewrite (proj2 (Z.ltb_lt i 12)) by lia. }
  change (2 ^ 12) with 4096 in G. lia.
Qed.

Lemma testbit_split imm i : 0 <= imm < 2 ^ 32 -> 0 <= i ->
  Z.testbit (split_imm imm) i =
  if (29 <=? i) && (i <? 31) then Z.testbit imm (i - 29)
  else if (5 <=? i) && (i <? 24) then Z.testbit imm (i - 3) else false.
Proof.
  intros Himm Hi. unfold split_imm.
  rewrite !testbit_wrap, Z.lor_spec, !testbit_wrap, !Z.shiftl_spec, !Z.land_spec by lia.
  change (Z.testbit 0x3) with (Z.testbit (Z.ones 2)). change 0x1FFFFC with (Z.shiftl (Z.ones 19) 2).
  destruct (Z.ltb_spec i 32); cbn [andb].
  2: { rewrite (proj2 (Z.ltb_ge i 31)), (proj2 (Z.ltb_ge i 24)), !andb_false_r by lia. done. }
  assert (Z.testbit (Z.ones 2) (i - 29) = (29 <=? i) && (i <? 31)) as ->.
  { destruct (Z.leb_spec 29 i); [|by rewrite Z.testbit_neg_r by lia].
    rewrite Z.testbit_ones_nonneg by lia. cbn [andb]. destruct (Z.ltb_spec i 31), (Z.ltb_spec (i - 29) 2); lia. }
  assert (Z.testbit (Z.shiftl (Z.ones 19) 2) (i - 3) = (5 <=? i) && (i <? 24)) as ->.
  { destruct (Z.leb_spec 5 i).
    - rewrite Z.shiftl_spec, Z.testbit_ones_nonneg by lia. cbn [andb].
      destruct (Z.ltb_spec i 24), (Z.ltb_spec (i - 3 - 2) 19); lia.
    - destruct (Z.leb_spec 3 i); [|by rewrite Z.testbit_neg_r by lia].
      rewrite Z.shiftl_spec, Z.testbit_neg_r by lia. done. }
  destruct (Z.leb_spec 29 i), (Z.ltb_spec i 31), (Z.leb_spec 5 i), (Z.ltb_spec i 24); cbn [andb orb];
    rewrite ?andb_true_r, ?andb_false_r, ?orb_false_r; (done || lia).
Qed.

Lemma split_range imm : 0 <= split_imm imm < 2 ^ 32.
Proof. unfold split_imm. apply wrap_range. lia. Qed.

Lemma split_fields imm : 0 <= imm < 2 ^ 32 ->
  bitfield (split_imm imm) 29 2 = imm mod 4 /\ bitfield (split_imm imm) 5 19 = imm / 4 mod 2 ^ 19.
Proof.
  intros Himm. split; bitwise i Hi; rewrite testbit_bitfield, testbit_split by lia.
  - change 4 with (2 ^ 2). rewrite Z.testbit_mod_pow2 by lia. destruct (Z.ltb_spec i 2); [|done].
    rewrite (proj2 (Z.leb_le _ _)), (proj2 (Z.ltb_lt _ _)), Z.add_simpl_r by lia. done.
  - rewrite Z.testbit_mod_pow2 by lia. destruct (Z.ltb_spec i 19); [|done]. cbn [andb].
    rewrite (proj2 (Z.leb_gt _ _)), (proj2 (Z.leb_le 5 _)), (proj2 (Z.ltb_lt (i + 5) 24)) by lia. cbn [andb].
    change (imm / 4) with (imm / 2 ^ 2). rewrite <- (Z.shiftr_div_pow2 imm 2), Z.shiftr_spec by lia. f_equal. lia.
Qed.

Lemma split_fixed m imm : 0 <= imm < 2 ^ 32 -> bitfield m 29 2 = 0 -> bitfield m 5 19 = 0 ->
  Z.land (split_imm imm) m = 0.
Proof.
  intros Himm H1 H2. bitwise i Hi. rewrite Z.land_spec, testbit_split, Z.bits_0 by lia.
  destruct (Z.leb_spec 29 i), (Z.ltb_spec i 31); cbn [andb];
    try (destruct (Z.leb_spec 5 i), (Z.ltb_spec i 24); cbn [andb]; (done || lia || idtac)).
  - replace i with (i - 29 + 29) by lia. rewrite (bitfield_zero m 29 2) by (done || lia). apply andb_false_r.
  - replace i with (i - 5 + 5) by lia. rewrite (bitfield_zero m 5 19) by (done || lia). apply andb_false_r.
Qed.

Lemma adr_field m word d w : bitfield m 29 2 = 0 -> bitfield m 5 19 = 0 -> - 2 ^ 20 <= d < 2 ^ 20 ->
  w = Z.lor (Z.land word m) (split_imm (u32 d)) -> adr_imm w = d.
Proof.
  intros H1 H2 Hd ->. unfold adr_imm, sext. rewrite !insert_field by (done || lia).
  destruct (split_fields (u32 d)) as [-> ->]; [by apply wrap_range|].
  replace (4 * (u32 d / 4 mod 2 ^ 19) + u32 d mod 4) with (d mod 2 ^ 21).
  - apply swrap_mod; lia.
  - rewrite <- (wrap_mod 32 21 d) by lia. set (x := u32 d). zdiv.
Qed.

(** ** The rebuilt word *)

Lemma makeImm_fixed m dest src fixed : Z.land (makeImm m dest src fixed) (fixedMask m) = 0.
Proof.
  destruct m; cbn [makeImm fixedMask]; unfold low12_imm, branch_imm;
    first [apply split_fixed; [by apply wrap_range|done..] | apply placed_fixed; by apply wrap_range].
Qed.

Lemma makeImm_range m dest src fixed : 0 <= makeImm m dest src fixed < 2 ^ 32.
Proof.
  destruct m; cbn [makeImm]; unfold low12_imm, branch_imm;
    first [apply split_range | apply land_range; [lia|by apply wrap_range]].
Qed.

Lemma rebuild_fixed m word dest src :
  Z.land (rebuild_word m word dest src) (fixedMask m) = Z.land word (fixedMask m).
Proof. apply insert_fixed, makeImm_fixed. Qed.

Lemma rebuild_range m word dest src : is_u 32 word -> is_u 32 (rebuild_word m word dest src).
Proof. intros Hw. apply lor_range; [by apply land_range|apply makeImm_range|lia]. Qed.

(** Rebuilding twice is rebuilding once. *)
Lemma rebuild_idem m word dest src :
  rebuild_word m (rebuild_word m word dest src) dest src = rebuild_word m word dest src.
Proof. unfold rebuild_word at 1. by rewrite rebuild_fixed. Qed.

(** A field of the word that the mask keeps. *)
Lemma rebuild_field m word dest src lo n : 0 <= lo -> 0 <= n -> bitfield (fixedMask m) lo n = Z.ones n ->
  bitfield (rebuild_word m word dest src) lo n = bitfield word lo n.
Proof. intros ?? H. apply (kept_field _ _ (fixedMask m)); [done..| |done]. apply rebuild_fixed. Qed.

Lemma testbit_field w i : 0 <= i -> Z.testbit w i = (bitfield w i 1 =? 1).
Proof.
  intros. pose proof (testbit_bitfield w i 1 0 ltac:(lia) ltac:(lia) ltac:(lia)) as E. cbn [andb Z.ltb] in E.
  pose proof (bitfield_range w i 1 ltac:(lia)) as R. rewrite Z.add_0_l in E. cbn in E. rewrite <- E.
  destruct (Z.eqb_spec (bitfield w i 1) 1) as [->|]; [done|]. replace (bitfield w i 1) with 0 by lia. done.
Qed.

Lemma rebuild_testbit m word dest src i : 0 <= i -> bitfield (fixedMask m) i 1 = 1 ->
  Z.testbit (rebuild_word m word dest src) i = Z.testbit word i.
Proof. intros. rewrite !testbit_field by done. by rewrite rebuild_field by done. Qed.

Lemma rebuild_scale m word dest src : fixedMask m = 0xFFE003FF ->
  access_scale (rebuild_word m word dest src) = access_scale word.
Proof. intros E. unfold access_scale. by rewrite rebuild_field, !rebuild_testbit by (rewrite ?E; done). Qed.

Lemma masked_field word m lo n : 0 <= lo -> 0 <= n -> bitfield m lo n = Z.ones n ->
  bitfield (Z.land word m) lo n = bitfield word lo n.
Proof. intros ?? H. apply (kept_field _ _ m); [done..| |done]. by rewrite <- Z.land_assoc, Z.land_diag. Qed.

Lemma top_field word : is_u 32 word -> Z.shiftr word 30 = bitfield word 30 2.
Proof.
  intros Hw. bitwise i Hi. rewrite testbit_bitfield, Z.shiftr_spec by lia.
  destruct (Z.ltb_spec i 2); [done|]. by rewrite (testbit_high 32) by (done || lia).
Qed.

(** The scales the loads and stores of general size compute. *)
Lemma top_scale word : is_u 32 word -> Z.shiftr (Z.land word 0xFFE003FF) 30 = bitfield word 30 2.
Proof. intros Hw. rewrite top_field by by apply land_range. by apply masked_field. Qed.

Lemma ldr_scale word : is_u 32 word -> (Z.testbit word 23 = true -> Z.testbit word 26 = true) ->
  Z.lor (Z.shiftr (Z.land (Z.land word 0xFFE003FF) 0x00800000) 21) (Z.shiftr (Z.land word 0xFFE003FF) 30)
  = access_scale word.
Proof.
  intros Hw Hv. rewrite top_scale, <- Z.land_assoc by done. unfold access_scale.
  change (Z.land 0xFFE003FF 0x00800000) with (2 ^ 23).
  replace (Z.land word (2 ^ 23)) with (if Z.testbit word 23 then 2 ^ 23 else 0).
  2: { bitwise i Hi. rewrite Z.land_spec, Z.pow2_bits_eqb by lia.
       destruct (Z.eqb_spec 23 i) as [<-|]; [|rewrite andb_false_r; destruct (Z.testbit word 23)].
       - destruct (Z.testbit word 23); done.
       - by rewrite Z.pow2_bits_false by lia.
       - apply Z.bits_0. }
  pose proof (bitfield_range word 30 2 ltac:(lia)) as R. set (s := bitfield word 30 2) in *.
  assert (s = 0 \/ s = 1 \/ s = 2 \/ s = 3) as Hs by lia.
  destruct (Z.testbit word 23); [rewrite Hv by done|rewrite andb_false_r]; cbn [andb];
    destruct Hs as [-> | [-> | [-> | ->]]]; done.
Qed.

(** ** The operand the machine sees *)

Lemma access_scale_nonneg w : 0 <= access_scale w.
Proof. pose proof (bitfield_range w 30 2). unfold access_scale. destruct (_ && _); lia. Qed.

Lemma page_step src dest d : d = dest / 4096 - src / 4096 -> page src + 4096 * d = page dest.
Proof. unfold page. lia. Qed.

Lemma adrp_displacement dest src : is_u64 dest -> is_u64 src -> - 2 ^ 32 <= page dest - page src < 2 ^ 32 ->
  Z.shiftr (s64 (dest - Z.land src (u64 (Z.lnot 0xFFF)))) 12 = dest / 4096 - src / 4096.
Proof.
  intros Hd Hs Hr. replace (Z.land src (u64 (Z.lnot 0xFFF))) with (page src).
  - unfold page in *. rewrite s64_id by zdiv. rewrite Z.shiftr_div_pow2 by lia. zdiv.
  - unfold page. change 4096 with (2 ^ 12).
    rewrite <- Z.shiftr_div_pow2, <- Z.shiftl_mul_pow2, <- Z.ldiff_ones_r, Z.ldiff_land by lia.
    bitwise i Hi. rewrite !Z.land_spec. change 0xFFF with (Z.ones 12).
    rewrite testbit_wrap by lia. destruct (Z.ltb_spec i 64); [done|].
    by rewrite (testbit_high 64 src) by (done || lia).
Qed.

(** The literal forms keep nineteen bits of the distance, without its sign. *)
Lemma literal_field word dest src w : word_distance 19 src dest ->
  w = rebuild_word LDRLIT word dest src -> src + 4 * sext 19 (bitfield w 5 19) = src + (dest - src) mod 2 ^ 19.
Proof.
  intros [Hm Hr] ->. unfold rebuild_word. cbn [makeImm fixedMask]. rewrite insert_field, placed_field by (done || lia).
  change 0x7FFFF with (Z.ones 19). rewrite land_low, (wrap_mod 64 19) by lia. rewrite Z.shiftr_div_pow2 by lia.
  set (d := dest - src) in *. f_equal. unfold sext.
  assert (0 <= d mod 2 ^ 19 < 2 ^ 19) by (apply Z.mod_pos_bound; lia).
  assert ((d mod 2 ^ 19) mod 4 = 0) as E.
  { change (2 ^ 19) with (4 * 131072). rewrite Z.rem_mul_r by lia. rewrite Hm. change (0 + 4 * (d / 4 mod 131072)) with (4 * (d / 4 mod 131072)).
    rewrite Z.mul_comm. apply Z.mod_mul. lia. }
  rewrite swrap_mod by zdiv. change (2 ^ 2) with 4. zdiv.
Qed.

Lemma half_field m word dest src v : m = MOV \/ m = MOVK ->
  makeImm m dest src (Z.land word (fixedMask m)) = Z.land (u32 (Z.shiftl v 5)) (not32 0xFFE0001F) ->
  bitfield (rebuild_word m word dest src) 5 16 = v mod 2 ^ 16.
Proof.
  intros Hm E. unfold rebuild_word. rewrite E.
  rewrite insert_field by (try done; by destruct Hm as [-> | ->]). by apply placed_field.
Qed.

Section rebuilt.
Context (word dest src : Z) (Hword : is_u 32 word) (Hdest : is_u64 dest) (Hsrc : is_u64 src).

Section scaled.
Context (m : Mode) (scale : Z) (Hm : fixedMask m = 0xFFE003FF) (Hs : 0 <= scale <= 7).
Context (Hi : makeImm m dest src (Z.land word 0xFFE003FF) = low12_imm 0xFFE003FF dest scale).
Let w := rebuild_word m word dest src.
Lemma offset_bit : Z.testbit (bitfield w 10 12) 11 = Z.testbit word 21.
Proof using Hm. rewrite testbit_bitfield by lia. unfold w. cbn [Z.ltb andb Z.compare Pos.compare Pos.compare_cont]. by rewrite rebuild_testbit by (rewrite ?Hm; done). Qed.
Lemma offset_low : bitfield w 10 12 mod 2 ^ 11 = (dest mod 4096 / 2 ^ scale) mod 2 ^ 11.
Proof using Hm Hi Hs.
  assert (bitfield w 10 12 mod 2 ^ 11 = bitfield w 10 11) as ->.
  { bitwise i Hi'. rewrite Z.testbit_mod_pow2, !testbit_bitfield by lia. destruct (Z.ltb_spec i 11); [|done].
    by rewrite (proj2 (Z.ltb_lt i 12)) by lia. }
  unfold w, rebuild_word. rewrite Hm, Hi, insert_field by (done || lia). unfold low12_imm. rewrite placed_field by (done || lia).
  change 0xFFF with (Z.ones 12). by rewrite land_low, Z.shiftr_div_pow2 by lia.
Qed.
Lemma scaled_operand : dest mod 2 ^ scale = 0 -> bitfield w 10 12 * 2 ^ scale = dest mod 4096 <-> offset_kept word dest scale.
Proof using Hm Hi Hs Hdest.
  intros Ho. rewrite <- (scaled_offset dest scale) by (try apply Hdest; done || lia).
  pose proof (Z.pow_pos_nonneg 2 scale ltac:(lia) ltac:(lia)). rewrite Z.mul_cancel_r by lia. split.
  - intros E. unfold offset_kept. by rewrite <- E, offset_bit.
  - intros Hk. apply (low12_field word dest scale); [apply Hdest|done|done|]. unfold w, rebuild_word. by rewrite Hm, Hi.
Qed.
End scaled.
(** A store of sixteen bytes is scaled as one of a single byte. *)
Lemma quad_operand : dest mod 2 ^ 4 = 0 -> bitfield word 30 2 = 0 ->
  bitfield (rebuild_word STR word dest src) 10 12 * 2 ^ 4 = dest mod 4096 <-> dest mod 4096 = 0 /\ Z.testbit word 21 = false.
Proof.
  intros Ho Hz.
  assert (makeImm STR dest src (Z.land word 0xFFE003FF) = low12_imm 0xFFE003FF dest 0) as Hi by (cbn [makeImm]; by rewrite top_scale, Hz).
  pose proof (offset_bit STR eq_refl) as Hb. pose proof (offset_low STR 0 eq_refl ltac:(lia) Hi) as Hl.
  set (f := bitfield _ 10 12) in *. assert (0 <= f < 2 ^ 12) as Hf by (apply bitfield_range; lia).
  assert (0 <= dest mod 4096 < 4096) as Hd by (apply Z.mod_pos_bound; lia).
  change (2 ^ 0) with 1 in Hl. rewrite Z.div_1_r in Hl. set (d := dest mod 4096) in *. split.
  - intros E. assert (f < 256) by lia. rewrite Z.mod_small in Hl by lia. rewrite (testbit_high 11 f) in Hb by lia. split; [zdiv|done].
  - intros [E H21]. rewrite H21 in Hb. rewrite E in Hl. change (0 mod 2 ^ 11) with 0 in Hl.
    assert (f = 0) as ->; [|lia]. apply Z.bits_inj'. intros i Hi'. rewrite Z.bits_0. destruct (Z.ltb_spec i 11).
    + assert (Z.testbit (f mod 2 ^ 11) i = false) as E' by by rewrite Hl, Z.bits_0.
      rewrite Z.testbit_mod_pow2 in E' by lia. by rewrite (proj2 (Z.ltb_lt i 11)) in E' by lia.
    + destruct (Z.eqb_spec i 11) as [->|]; [done|]. apply (testbit_high 12); lia.
Qed.

Lemma rebuild_operand m : reaches m word src dest ->
  operand m (rebuild_word m word dest src) src = wanted m word dest <-> preserved m word src dest.
Proof.
  intros Hr. assert (forall P Q : Prop, P -> Q -> (P <-> Q)) as both by tauto.
  destruct m; cbn [operand wanted reaches preserved] in *;
    try (apply both; [by eapply branch_field; [| | | |exact Hr|reflexivity]; (done || lia)|done]).
  - apply both; [|done]. apply page_step. eapply (adr_field 0x9000001F); [done..| |].
    2: { unfold rebuild_word. cbn [fixedMask makeImm]. do 3 f_equal. by apply adrp_displacement. }
    unfold page in Hr. lia.
  - apply both; [|done]. rewrite (adr_field 0x9F00001F word (dest - src)); [lia|done..|].
    unfold rebuild_word. cbn [fixedMask makeImm]. rewrite s64_id; [done|]. unfold is_u in *. lia.
  - apply both; [|done]. unfold rebuild_word. cbn [fixedMask makeImm]. unfold low12_imm. rewrite insert_field, placed_field by (done || lia).
    change 0xFFF with (Z.ones 12). rewrite land_low, Z.shiftr_0_r, Z.mod_mod by lia. done.
  - destruct Hr as [[Hv Hs] Ho]. rewrite rebuild_scale by done. pose proof (access_scale_nonneg word).
    apply scaled_operand; [done|lia| |done]. cbn [makeImm]. by rewrite ldr_scale.
  - by apply (scaled_operand LDRH 1).
  - rewrite <- (scaled_operand LDRB 0); [by rewrite Z.mul_1_r|done|lia|done|apply Z.mod_1_r].
  - by apply (scaled_operand LDRSW 2).
  - by apply (scaled_operand LDRSH 1).
  - rewrite <- (scaled_operand LDRSB 0); [by rewrite Z.mul_1_r|done|lia|done|apply Z.mod_1_r].
  - rewrite (literal_field word dest src _ Hr eq_refl).
    assert (0 <= (dest - src) mod 2 ^ 19 < 2 ^ 19) by (apply Z.mod_pos_bound; lia). split; intros H'; [lia|]. rewrite Z.mod_small; lia.
  - rewrite (rebuild_field MOV _ _ _ 21 2) by done. rewrite (half_field MOV word dest src (Z.land dest 0xFFFF)) by auto.
    change 0xFFFF with (Z.ones 16). rewrite land_low, Z.mod_mod by lia. pose proof (bitfield_range word 21 2 ltac:(lia)).
    rewrite !Z.shiftl_mul_pow2 by lia. apply Z.mul_cancel_r. assert (0 < 2 ^ (16 * bitfield word 21 2)) by (apply Z.pow_pos_nonneg; lia). lia.
  - apply both; [|done]. rewrite (rebuild_field MOVK _ _ _ 21 2) by done.
    rewrite (half_field MOVK word dest src ((dest / 2 ^ (16 * bitfield word 21 2)) mod 2 ^ 16)), Z.mod_mod; [done|lia|auto|].
    cbn [makeImm fixedMask]. change 0x3 with (Z.ones 2). change 0xFFFF with (Z.ones 16).
    change (Z.land (Z.shiftr (Z.land word 0xFFE0001F) 21) (Z.ones 2)) with (bitfield (Z.land word 0xFFE0001F) 21 2).
    pose proof (bitfield_range word 21 2).
    rewrite masked_field by done. rewrite land_low by lia.
    rewrite (Z.shiftl_mul_pow2 (bitfield word 21 2)) by lia. rewrite (Z.mul_comm (bitfield word 21 2)).
    by rewrite (Z.shiftr_div_pow2 dest) by lia.
  - destruct Hr as [[Hv Hs] Ho]. rewrite rebuild_scale by done. pose proof (bitfield_range word 30 2 ltac:(lia)).
    unfold access_scale in *. destruct (Z.testbit word 26 && Z.testbit word 23).
    + assert (bitfield word 30 2 = 0) as Hz by lia. rewrite Hz in *. by apply quad_operand.
    + rewrite Z.add_0_r in *. apply scaled_operand; [done|lia| |done]. cbn [makeImm]. by rewrite top_scale.
  - by apply (scaled_operand STRH 1).
  - rewrite <- (scaled_operand STRB 0); [by rewrite Z.mul_1_r|done|lia|done|apply Z.mod_1_r].
Qed.
End rebuilt.

(** ** The object *)

Lemma writeTo_bytes l m word dest out : is_u 32 word -> data l = le_bytes 4 word -> modeInfo l = Some m ->
  target_address l = Some dest ->
  writeTo l out = Ok (out ++ le_bytes 4 (rebuild_word m word dest (source_address l))).
Proof.
  intros Hw Hd Hm Ht. unfold writeTo, rebuild, load_word. rewrite Hd, Hm, Ht.
  change ((length (le_bytes 4 word) <? 4)%nat) with false. cbn [mbind res_bind].
  rewrite take_ge by by rewrite le_bytes_length. rewrite le_value_bytes by done. done.
Qed.


Module AArch64Examples.
(** A call that has been moved 4 KB further from its target. *)
Definition call : LinkedInstruction := mkLinked (le_bytes 4 0x94000001) (Some BL) 0x402000 (Some 0x400FFC).


(** A literal load whose pool lies before it: the sign of the distance is lost. *)
Example ldr_literal_backward :
  operand LDRLIT (rebuild_word LDRLIT 0x58000000 0x1000 0x2000) 0x2000 = 0x81000.
Proof. reflexivity. Qed.

(** An offset of half a page or more in a byte access: the upper bit of the field is kept
    from the old word. *)
Example ldrb_upper_half : operand LDRB (rebuild_word LDRB 0x39400000 0x1800 0x2000) 0x2000 = 0.
Proof. reflexivity. Qed.
Example ldrb_stale_bit : operand LDRB (rebuild_word LDRB 0x39600000 0x1010 0x2000) 0x2000 = 0x810.
Proof. reflexivity. Qed.

(** A store of a vector register of sixteen bytes is scaled as one of a byte. *)
Example str_quad : operand STR (rebuild_word STR 0x3D800000 0x1010 0x2000) 0x2000 = 0x100.
Proof. reflexivity. Qed.

(** A literal of eight bytes is written from a variable of four. *)
Example literal_of_address_size : literal_writeTo (replicate 8 0) (Some 0x400000) [] = Err OutOfBounds.
Proof. reflexivity. Qed.
(** A literal of four bytes loses the upper half of the address. *)
Example literal_truncated : literal_writeTo (replicate 4 0) (Some 0x7FFF00400000) [] = Ok (le_bytes 4 0x00400000).
Proof. reflexivity. Qed.

(** The literal and the offset forms of LDR are told apart by the top byte; the forms
    with write back are refused. *)
Example ldr_forms :
  map (fun b3 => getMode INS_LDR [0; 0; 0; b3]) [0x18; 0x58; 0x1C; 0x9C; 0xB9; 0xF9; 0x3D; 0xBD; 0xFD; 0xF8; 0x3C]
  = replicate 4 (Ok LDRLIT) ++ replicate 5 (Ok LDRIMM) ++ replicate 2 (Err AssertFail).
Proof. reflexivity. Qed.
End AArch64Examples.

(** ** x86-64 *)

Lemma take_le_bytes n k v : (n <= k)%nat -> take n (le_bytes k v) = le_bytes n v.
Proof.
  revert k v. induction n as [|n IH]; intros k v Hk; [done|]. destruct k as [|k]; [lia|].
  cbn. f_equal. apply IH. lia.
Qed.

Lemma pow_bytes n : 256 ^ Z.of_nat n = 2 ^ (8 * Z.of_nat n).
Proof. change 256 with (2 ^ 8). rewrite <- Z.pow_mul_r by lia. done. Qed.

(** The bytes of a displacement, extended by their sign, are added to a base. *)
Definition displaced (base : Z) (disp : list Z) : Z :=
  add64 base (swrap (8 * Z.of_nat (length disp)) (le_value disp)).

(** A displacement fits in [n] bytes. *)
Definition fits_bytes (n : nat) (d : Z) : Prop :=
  - 2 ^ (8 * Z.of_nat n - 1) <= s64 d < 2 ^ (8 * Z.of_nat n - 1).

Lemma displaced_target n base target : (0 < n <= 8)%nat -> is_u64 target ->
  fits_bytes n (sub64 target base) -> displaced base (le_bytes n (sub64 target base)) = target.
Proof.
  intros Hn Ht Hf. unfold displaced. rewrite le_bytes_length, le_value_mod, pow_bytes.
  set (d := sub64 target base) in *.
  assert (u64 (s64 d) = d) as E.
  { unfold wrap, swrap. rewrite Zminus_mod_idemp_l, Z.add_simpl_r. apply (wrap_small 64), wrap_range. lia. }
  rewrite <- E, wrap_mod by lia. rewrite swrap_mod by (done || lia).
  unfold add64, wrap in *. rewrite <- Zplus_mod_idemp_r, E. unfold d, sub64, wrap.
  rewrite Zplus_mod_idemp_r. replace (base + (target - base)) with target by lia. by apply Z.mod_small.
Qed.

Module X86Proofs.
Import X86.

(** What the machine adds a displacement to. *)
Definition base (k : LinkView) (next : Z) : Z := if isRIPRelative k then next else 0.

Lemma displacement_sub k a size : is_u64 (getTargetAddress k) ->
  displacement k a size = sub64 (getTargetAddress k) (base k (add64 a size)).
Proof.
  intros Hk. unfold displacement, base. destruct (isRIPRelative k); [done|].
  unfold sub64. rewrite Z.sub_0_r. symmetry. by apply wrap_small.
Qed.

(** What a link asks for: the displacement [disp] after which the next instruction is at
    [next] designates the target. *)
Definition designates (k : LinkView) (next : Z) (disp : list Z) : Prop :=
  displaced (base k next) disp = getTargetAddress k.

Lemma displacement_designates k a size n : (0 < n <= 8)%nat -> is_u64 (getTargetAddress k) ->
  fits_bytes n (displacement k a size) ->
  designates k (add64 a size) (take n (le_bytes 8 (displacement k a size))).
Proof.
  intros Hn Hk Hf. unfold designates. rewrite take_le_bytes by lia. rewrite displacement_sub in * by done.
  by apply displaced_target.
Qed.

Section linked.
Context (l : LinkedInstructionBase) (pre old post : list Z) (k : LinkView).
Context (Hb : bytes l = pre ++ old ++ post) (Ho : displacementOffset l = length pre)
  (Hs : displacementSize l = length old) (Hn : (0 < length old <= 8)%nat) (Hl : link l = Some k).
Let next := add64 (address l) (Z.of_nat (length (data l))).
Let disp := take (length old) (le_bytes 8 (calculateDisplacement l)).

Lemma writeTo_parts out : writeTo l out true = Ok (out ++ pre ++ disp ++ post).
Proof.
  unfold writeTo, append. rewrite Ho, Hs, Hb, le_bytes_length, !length_app.
  rewrite (proj2 (Nat.ltb_ge _ _)) by lia. cbn [mbind res_bind].
  rewrite (proj2 (Nat.ltb_ge _ _)) by lia. cbn [mbind res_bind].
  rewrite (proj2 (Nat.ltb_ge _ _)) by lia.
  rewrite take_app_le, firstn_all by lia. cbn [mbind res_bind].
  rewrite (assoc_L (++) pre old post), <- (length_app pre old), drop_app_length. by rewrite <- !(assoc_L (++)).
Qed.

Lemma disp_designates : is_u64 (getTargetAddress k) -> fits_bytes (length old) (calculateDisplacement l) ->
  designates k next disp.
Proof.
  unfold disp, next, calculateDisplacement. rewrite Hl. intros Ht Hf. by apply displacement_designates.
Qed.
End linked.

(** C12: [LinkedInstructionBase::writeTo] on x86-64: the displacement bytes are replaced,
    everything around them is kept, and the machine, adding the new displacement to the
    address of the next instruction (or to zero, for an absolute operand), gets the target
    of the link, whenever the distance fits in the bytes there are.  Regenerating the
    assembly keeps the size and the result. *)
Theorem linked_x86_correct l pre old post k out build :
  bytes l = pre ++ old ++ post -> displacementOffset l = length pre -> displacementSize l = length old ->
  (0 < length old <= 8)%nat -> length (data l) = length (bytes l) ->
  link l = Some k -> is_u64 (getTargetAddress k) -> fits_bytes (length old) (calculateDisplacement l) ->
  (forall b a, build b a = b) ->
  exists disp l', writeTo l out true = Ok (out ++ pre ++ disp ++ post) /\ length disp = length old /\
    designates k (add64 (address l) (Z.of_nat (length (data l)))) disp /\
    regenerateAssembly build l = Ok l' /\ bytes l' = pre ++ disp ++ post /\
    writeTo l' out true = Ok (out ++ pre ++ disp ++ post).
Proof.
  intros Hb Ho Hs Hn Hd Hl Ht Hf Hbuild.
  set (disp := take (length old) (le_bytes 8 (calculateDisplacement l))).
  assert (length disp = length old) as Hlen by (unfold disp; rewrite length_take, le_bytes_length; lia).
  assert (length (pre ++ disp ++ post) = length (data l)) as Hsize.
  { rewrite Hd, Hb, !length_app. by rewrite Hlen. }
  exists disp, (mkLinkedBase (address l) (pre ++ disp ++ post) (pre ++ disp ++ post) (opIndex l)
                  (displacementSize l) (displacementOffset l) (link l)).
  split; [by apply writeTo_parts|]. split; [done|]. split; [by apply (disp_designates l old k)|].
  split; [|split; [done|]].
  - unfold regenerateAssembly. rewrite (writeTo_parts l pre old post) by done. cbn [mbind res_bind app].
    unfold setAssembly. cbn [address data bytes opIndex displacementSize displacementOffset link]. rewrite Hbuild.
    fold disp. by destruct (pre ++ disp ++ post).
  - match goal with |- writeTo ?x _ _ = _ => set (l' := x) end.
    assert (calculateDisplacement l' = calculateDisplacement l) as E.
    { unfold calculateDisplacement, l'. cbn [link data address]. by rewrite Hsize. }
    rewrite (writeTo_parts l' pre disp post), Hlen, E by (rewrite ?Hlen; done). done.
Qed.

(** A jump is written with a displacement that designates its target. *)
Lemma cfi_write v source k out : cfi_link v = Some k -> (0 < dispSize v <= 8)%nat -> is_u64 (getTargetAddress k) ->
  fits_bytes (dispSize v) (displacement k source (getSize v)) ->
  exists disp, cfi_writeTo v source out true = Ok (out ++ opcode v ++ disp) /\ length disp = dispSize v /\
    designates k (add64 source (getSize v)) disp.
Proof.
  intros Hl Hn Ht Hf. exists (take (dispSize v) (le_bytes 8 (displacement k source (getSize v)))).
  split; [|split; [rewrite length_take, le_bytes_length; lia|by apply displacement_designates]].
  unfold cfi_writeTo, cfi_displacement, append. rewrite Hl. cbn [mbind res_bind]. rewrite le_bytes_length.
  rewrite (proj2 (Nat.ltb_ge _ _)) by lia. by rewrite <- (assoc_L (++)).
Qed.

(** The search for a displacement: the last place where its bytes are. *)
Lemma find_disp_spec b d n : let o := find_disp b d n in
  (o <= n)%nat /\ (o <> 0%nat -> take (length d) (drop o b) = d) /\
  (forall j, (o < j <= n)%nat -> take (length d) (drop j b) <> d).
Proof.
  induction n as [|n IH]; cbn [find_disp]; [repeat split; [lia|done|lia]|].
  destruct (bool_decide_reflect (take (length d) (drop (S n) b) = d)); [repeat split; [lia|done|lia]|].
  destruct IH as (H1&H2&H3). repeat split; [lia|done|]. intros j Hj.
  destruct (decide (j = S n)) as [->|]; [done|]. apply H3. lia.
Qed.
End X86Proofs.

Module X86Examples.
Import X86 X86Proofs.
(** [lea 0x2008(%rip), %rax], which has moved. *)
Definition lea : LinkedInstructionBase :=
  mkLinkedBase 0x401000 [0x48; 0x8D; 0x05; 0x08; 0x20; 0; 0] [0x48; 0x8D; 0x05; 0x08; 0x20; 0; 0] 1 4 3
    (Some (mkLinkView 0x400FF0 true)).

Lemma linked_x86_correct_witness : exists disp l',
  writeTo lea [] true = Ok ([] ++ [0x48; 0x8D; 0x05] ++ disp ++ []) /\ length disp = 4%nat /\
  designates (mkLinkView 0x400FF0 true) (add64 (address lea) (Z.of_nat (length (data lea)))) disp /\
  regenerateAssembly (fun b _ => b) lea = Ok l' /\ bytes l' = [0x48; 0x8D; 0x05] ++ disp ++ [] /\
  writeTo l' [] true = Ok ([] ++ [0x48; 0x8D; 0x05] ++ disp ++ []).
Proof.
  apply (linked_x86_correct lea [0x48; 0x8D; 0x05] [0x08; 0x20; 0; 0] [] (mkLinkView 0x400FF0 true) [] (fun b _ => b));
    try reflexivity; try (split; cbn; lia).
  change (- 2 ^ 31 <= -23 < 2 ^ 31). lia.
Defined.

(** [movl $0x2008, 0x2008(%rip)]: the search from the end finds the immediate. *)
Example disp_offset_finds_immediate :
  getDispOffset [0xC7; 0x05; 0x08; 0x20; 0; 0; 0x08; 0x20; 0; 0] (OP_MEM 0x2008) 4 = Ok 6.
Proof. reflexivity. Qed.

(** [movb $0, 8(%rsp)] with its frame extended by 16 becomes [movb $24, 8(%rsp)]: the
    displacement is taken to be at the end of any instruction of five bytes. *)
Example stack_frame_overwrites_immediate :
  (s ← sfi_new true [0xC6; 0x44; 0x24; 0x08; 0x00] 8; s ← addToDisplacementValue s 16; sfi_writeTo s [])
  = Ok [0xC6; 0x44; 0x24; 0x08; 24].
Proof. reflexivity. Qed.
(** Without a zero byte the constructor reads past the end of the instruction. *)
Example stack_frame_unterminated : sfi_new true [0x48; 0x89; 0x44; 0x24; 0x08] 8 = Err OutOfBounds.
Proof. reflexivity. Qed.
End X86Examples.
