(* ===== verification/PromoteJumps.v ===== *)
(** * Widening short jumps: src/pass/promotejumps.h, promotejumps.cpp

    Code that has been inserted may have pushed the target of a jump out of the reach of a
    displacement of one byte.  The pass gives such jumps the long form, which moves more
    code, and repeats until nothing changes. *)

From S2P Require Import Prelude ChunkList GSTable Chunk Mutator Link Linked.
Import ChunkImpl.

(** ** State *)

(** A [ControlFlowInstruction]: the fields of the class, with the link object itself. *)
Record Jump := mkJump { jid : Z; jopcode : list Z; jdisp : nat; jlink : option Link }.

Definition jump_size (v : Jump) : Z := Z.of_nat (length (jopcode v) + jdisp v).

(** The heap, the semantic objects of the heap that are control flow instructions, and the
    member [changed] of the pass. *)
Record State := mkState { heap : Heap; jumps : gmap ptr Jump; changed : bool }.

Definition P (A : Type) : Type := State -> res (A * State).
#[export] Instance P_ret : MRet P := fun A a s => Ok (a, s).
#[export] Instance P_bind : MBind P := fun A B f m s =>
  match m s with Ok (a, s) => f a s | Err e => Err e end.
Definition pfail {A} (e : fault) : P A := fun _ => Err e.
(** An operation on the hierarchy. *)
Definition on_heap {A} (m : M A) : P A := fun s =>
  match m (heap s) with Ok (a, h) => Ok (a, mkState h (jumps s) (changed s)) | Err e => Err e end.
Definition plift {A} (r : res A) : P A := fun s => match r with Ok a => Ok (a, s) | Err e => Err e end.
Definition set_changed (b : bool) : P unit := fun s => Ok (tt, mkState (heap s) (jumps s) b).
Definition get_changed : P bool := fun s => Ok (changed s, s).
Definition jump_at (s : ptr) : P (option Jump) := fun st => Ok (jumps st !! s, st).
Definition put_jump (s : ptr) (v : Jump) : P unit := fun st =>
  Ok (tt, mkState (heap st) (<[s := v]> (jumps st)) (changed st)).

Module PromoteJumps.
Section pass.
Context (E : LinkEnv).

(** The instruction identifiers of the disassembler that are jumps. *)
Section ids.
Context (X86_INS : string -> Z).

Definition wider_table : list (string * list Z) :=
  [("JMP", [0xe9]); ("JA", [0x0f; 0x87]); ("JAE", [0x0f; 0x83]); ("JB", [0x0f; 0x82]);
   ("JBE", [0x0f; 0x86]); ("JG", [0x0f; 0x8f]); ("JGE", [0x0f; 0x8d]); ("JL", [0x0f; 0x8c]);
   ("JLE", [0x0f; 0x8e]); ("JNO", [0x0f; 0x81]); ("JNP", [0x0f; 0x8b]); ("JNS", [0x0f; 0x89]);
   ("JO", [0x0f; 0x80]); ("JP", [0x0f; 0x8a]); ("JS", [0x0f; 0x88]); ("JE", [0x0f; 0x84]);
   ("JNE", [0x0f; 0x85]); ("JCXZ", []); ("JRCXZ", []); ("JECXZ", [])]%string.
Definition getWiderOpcode (id : Z) : list Z :=
  switch id (map (fun c => (X86_INS c.1, c.2)) wider_table) [].
End ids.
Context (X86_INS : string -> Z).

(** [fitsIn<NarrowType>] for a signed type of [w] bits. *)
Definition fitsIn (w address : Z) : bool := swrap w address =? swrap 64 address.

(** The size of a control flow instruction is computed from its fields; the semantic
    object of the heap records it for the chunks. *)
Definition set_jump (s : ptr) (v : Jump) : P unit :=
  x ← on_heap (semantic_at s);
  on_heap (put_semantic s (mkSemantic (jump_size v) (sem_instruction x) (sem_source x)));;
  put_jump s v.
Definition setOpcode (v : Jump) (opcode : list Z) : Jump := mkJump (jid v) opcode (jdisp v) (jlink v).
Definition setDisplacementSize (v : Jump) (ds : nat) : Jump := mkJump (jid v) (jopcode v) ds (jlink v).

(** [ControlFlowInstructionBase::calculateDisplacement] *)
Definition calculateDisplacement (s : ptr) (v : Jump) : P Z :=
  match jlink v with
  | None => pfail NullDeref
  | Some k =>
    target ← on_heap (Link.getTargetAddress E k);
    if Link.isRIPRelative k then
      x ← on_heap (semantic_at s);
      source ← on_heap (deref (from_option id None (sem_source x)));
      a ← on_heap (getAddress source);
      mret (sub64 target (add64 a (jump_size v)))
    else mret target
  end.

Definition promote (i s : ptr) (v : Jump) : P unit :=
  set_changed true;;
  let v' := setDisplacementSize (setOpcode v (getWiderOpcode X86_INS (jid v))) 4 in
  set_jump s v';;
  on_heap (q ← getParent i; q ← deref q;
           ChunkMutator.temporary (mkMutator q true) (fun m =>
             ChunkMutator.modifiedChildSize m i (swrap 64 (sub64 (jump_size v') (jump_size v))))).

Definition visit_Instruction (i : ptr) : P unit :=
  s ← on_heap (ChunkMutator.getSemantic i);
  match s with
  | None => mret tt
  | Some s =>
    v ← jump_at s;
    match v with
    | None => mret tt
    | Some v =>
      match jlink v with
      | None => mret tt
      | Some k =>
        disp ← calculateDisplacement s v;
        (if (jdisp v =? 1)%nat then
           if negb (fitsIn 8 disp) then promote i s v
           else e ← plift (Link.isExternalJump k); if e : bool then promote i s v else mret tt
         else mret tt);;
        if fitsIn 32 disp then mret tt else pfail Aborted
      end
    end
  end.

(** [ChunkPass::recurse]: the children are visited in order. *)
Fixpoint visit_all (visit : ptr -> P unit) (l : list ptr) : P unit :=
  match l with [] => mret tt | c :: l => visit c;; visit_all visit l end.
Definition children (c : ptr) : P (list ptr) :=
  l ← on_heap (getChildren c);
  match l with Some l => mret (iterable l) | None => pfail NullDeref end.
Definition recurse (visit : ptr -> P unit) (c : ptr) : P unit := l ← children c; visit_all visit l.
Definition visit_Block (b : ptr) : P unit := recurse visit_Instruction b.
Definition round (f : ptr) : P unit := set_changed false;; recurse visit_Block f.

(** [while(changed)]; the fuel bounds the number of rounds. *)
Fixpoint visit_Function_fuel (fuel : nat) (f : ptr) : P unit :=
  round f;;
  c ← get_changed;
  if c : bool then match fuel with O => pfail OutOfFuel | S fuel => visit_Function_fuel fuel f end else mret tt.

(** The jumps that can still be widened. *)
Definition shorts (js : gmap ptr Jump) : nat := size (filter (fun p => jdisp p.2 = 1%nat) js).
Definition visit_Function (f : ptr) : P unit := fun s => visit_Function_fuel (shorts (jumps s)) f s.
(** A module is visited through its functions. *)
Definition visit_FunctionList (l : ptr) : P unit := recurse visit_Function l.
End pass.
End PromoteJumps.
