(* ===== verification/PromoteJumpsProofs.v ===== *)
(** * Widening short jumps: the pass ends, and every jump then reaches its target *)

From S2P Require Import Prelude ChunkList GSTable Chunk Mutator Link Linked LinkedProofs PromoteJumps.
Import ChunkImpl.

(** ** Heaps whose positions are not tracked by generations

    In these (MODE_OFFSET, the default, among them) asking for an address changes nothing. *)

Definition generational (x : Position) : bool :=
  match deco x with GenerationalPositionDecorator _ _ _ => true | _ => false end.
Record plain (h : Heap) : Prop := {
  plain_mode : PositionFactory.needsGenerationTracking (mode h) = false;
  plain_positions : forall p x, positions h !! p = Some x -> generational x = false }.

(** An operation that only reads, and one after which the heap is still plain. *)
Definition pure {A} (m : M A) : Prop := forall h a h', plain h -> m h = Ok (a, h') -> h' = h.
Definition keeps {A} (m : M A) : Prop := forall h a h', plain h -> m h = Ok (a, h') -> plain h'.

Create HintDb plain.

Lemma pure_keeps {A} (m : M A) : pure m -> keeps m.
Proof. intros H h a h' Hp E. by rewrite (H h a h' Hp E). Qed.
Lemma M_bind_Ok {A B} (m : M A) (f : A -> M B) h b h' :
  (m ≫= f) h = Ok (b, h') <-> exists a h1, m h = Ok (a, h1) /\ f a h1 = Ok (b, h').
Proof. unfold mbind, M_bind. destruct (m h) as [[a h1]|e]; naive_solver. Qed.
Lemma pure_bind {A B} (m : M A) (f : A -> M B) : pure m -> (forall a, pure (f a)) -> pure (m ≫= f).
Proof.
  intros Hm Hf h b h' Hp (a&h1&E1&E2)%M_bind_Ok. apply Hm in E1 as ->; [|done]. by eapply Hf.
Qed.
Lemma keeps_bind {A B} (m : M A) (f : A -> M B) : keeps m -> (forall a, keeps (f a)) -> keeps (m ≫= f).
Proof. intros Hm Hf h b h' Hp (a&h1&E1&E2)%M_bind_Ok. eapply Hf; [|done]. by eapply Hm. Qed.

Lemma pure_ret {A} (a : A) : pure (mret a).
Proof. intros h b h' _ E. by injection E as _ <-. Qed.
Lemma pure_fail {A} e : pure (@fail A e).
Proof. intros h b h' _ E. discriminate. Qed.
Lemma pure_lift {A} (r : res A) : pure (lift r).
Proof. intros h b h' _ E. unfold lift in E. by destruct r; simplify_eq/=. Qed.
Lemma pure_getHeap : pure getHeap.
Proof. intros h b h' _ E. by injection E as _ <-. Qed.
Lemma pure_deref p : pure (deref p).
Proof. destruct p; [apply pure_ret|apply pure_fail]. Qed.
Lemma pure_chunk_at c : pure (chunk_at c).
Proof. intros h b h' _ E. unfold chunk_at in E. by destruct (chunks h !! c); simplify_eq/=. Qed.
Lemma pure_position_at c : pure (position_at c).
Proof. intros h b h' _ E. unfold position_at in E. by destruct (positions h !! c); simplify_eq/=. Qed.
Lemma pure_semantic_at c : pure (semantic_at c).
Proof. intros h b h' _ E. unfold semantic_at in E. by destruct (semantics h !! c); simplify_eq/=. Qed.
#[export] Hint Resolve pure_ret pure_fail pure_lift pure_getHeap pure_deref pure_chunk_at pure_position_at
  pure_semantic_at : plain.

(** Takes an operation apart at its binds and matches. *)
Ltac parts :=
  repeat first
    [ progress intros
    | solve [eauto with plain nocore]
    | apply pure_bind | apply keeps_bind
    | match goal with
      | |- pure (match ?x with _ => _ end) => destruct x
      | |- keeps (match ?x with _ => _ end) => destruct x
      end
    | solve [apply pure_keeps; eauto with plain nocore] ].

Lemma pure_getParent c : pure (getParent c).
Proof. unfold getParent. parts. Qed.
Lemma pure_getPreviousSibling c : pure (getPreviousSibling c).
Proof. unfold getPreviousSibling. parts. Qed.
Lemma pure_getPosition c : pure (getPosition c).
Proof. unfold getPosition. parts. Qed.
Lemma pure_getChildren c : pure (getChildren c).
Proof. unfold getChildren. parts. Qed.
Lemma pure_getSize c : pure (getSize c).
Proof. unfold getSize. parts. Qed.
Lemma pure_isModule c : pure (isModule c).
Proof. unfold isModule. parts. Qed.
Lemma pure_isAbsolute c : pure (Position.isAbsolute c).
Proof. unfold Position.isAbsolute. parts. Qed.
Lemma pure_getSemantic c : pure (ChunkMutator.getSemantic c).
Proof. unfold ChunkMutator.getSemantic. parts. Qed.
#[export] Hint Resolve pure_getParent pure_getPreviousSibling pure_getPosition pure_getChildren pure_getSize
  pure_isModule pure_isAbsolute pure_getSemantic : plain.

(** *** Addresses *)
Lemma pure_address get c : (forall p, pure (get p)) -> pure (Position.address get c).
Proof. intros Hg. unfold Position.address. parts. Qed.
#[export] Hint Resolve pure_address : plain.
Lemma pure_base_get get p : (forall q, pure (get q)) -> pure (Position.base_get get p).
Proof. intros Hg. unfold Position.base_get. parts. Qed.
#[export] Hint Resolve pure_base_get : plain.

Lemma pure_get_fuel fuel p : pure (Position.get_fuel fuel p).
Proof.
  revert p. induction fuel as [|fuel IH]; intros p; cbn [Position.get_fuel]; [parts|].
  intros h a h' Hp (x&h1&E1&E2)%M_bind_Ok. pose proof (pure_position_at p h x h1 Hp E1) as ->.
  unfold position_at in E1. destruct (positions h !! p) as [y|] eqn:Ey; simplify_eq/=.
  apply (plain_positions h Hp) in Ey. unfold generational in Ey.
  destruct (deco x); [by eapply (pure_base_get _ p IH)|by injection E2 as _ <-|by eapply (pure_base_get _ p IH)|done].
Qed.
#[export] Hint Resolve pure_get_fuel : plain.

Lemma pure_with_fuel {A} (f : nat -> M A) : (forall n, pure (f n)) -> pure (Position.with_fuel f).
Proof. intros H h a h' Hp E. by eapply H. Qed.
Lemma keeps_with_fuel {A} (f : nat -> M A) : (forall n, keeps (f n)) -> keeps (Position.with_fuel f).
Proof. intros H h a h' Hp E. by eapply H. Qed.
Lemma pure_getAddress c : pure (getAddress c).
Proof. apply pure_with_fuel. parts. Qed.
#[export] Hint Resolve pure_getAddress : plain.
Lemma pure_getTargetAddress E k : pure (Link.getTargetAddress E k).
Proof. destruct k; cbn [Link.getTargetAddress]; unfold Link.address_plus; parts. Qed.
#[export] Hint Resolve pure_getTargetAddress : plain.

(** *** Updates *)
Lemma keeps_put_chunk c x : keeps (put_chunk c x).
Proof. intros h a h' [Hm Hp] E. injection E as _ <-. by split. Qed.
Lemma keeps_put_semantic c x : keeps (put_semantic c x).
Proof. intros h a h' [Hm Hp] E. injection E as _ <-. by split. Qed.
Lemma keeps_put_position p x : generational x = false -> keeps (put_position p x).
Proof.
  intros Hx h a h' [Hm Hp] E. injection E as _ <-. split; cbn; [done|].
  intros q y [[<- <-]|[_ Hy]]%lookup_insert_Some; [done|by eapply Hp].
Qed.
#[export] Hint Resolve keeps_put_chunk keeps_put_semantic : plain.

(** Rewriting a position that is there. *)
Lemma keeps_position p (f : Position -> M unit) :
  (forall x, generational x = false -> keeps (f x)) -> keeps (x ← position_at p; f x).
Proof.
  intros Hf h a h' Hp (x&h1&E1&E2)%M_bind_Ok. pose proof (pure_position_at p h x h1 Hp E1) as ->.
  unfold position_at in E1. destruct (positions h !! p) as [y|] eqn:Ey; [|done]. injection E1 as ->.
  eapply Hf; [|exact Hp|exact E2]. by eapply plain_positions.
Qed.
Lemma keeps_setOffset p o : keeps (Position.setOffset p o).
Proof.
  apply keeps_position. intros x Hx. destruct (pbase x); parts; by apply keeps_put_position.
Qed.
Lemma keeps_set_cache p v : keeps (Position.set_cache p v).
Proof.
  apply keeps_position. intros [b d] Hx. destruct d; cbn in Hx |- *; parts; try done. by apply keeps_put_position.
Qed.
#[export] Hint Resolve keeps_setOffset keeps_set_cache : plain.

Lemma keeps_base_recalculate get p : (forall q, pure (get q)) -> keeps (Position.base_recalculate get p).
Proof. intros Hg. unfold Position.base_recalculate. parts. Qed.
#[export] Hint Resolve keeps_base_recalculate : plain.
Lemma keeps_recalculate p : keeps (Position.recalculate p).
Proof. apply keeps_with_fuel. intros n. unfold Position.recalculate_with. parts. Qed.
#[export] Hint Resolve keeps_recalculate : plain.

Lemma keeps_for_each l body : (forall c, keeps (body c)) -> keeps (ChunkMutator.for_each l body).
Proof. intros Hb. induction l; cbn [ChunkMutator.for_each]; parts. Qed.
#[export] Hint Resolve keeps_for_each : plain.
Lemma keeps_updatePositionHelper c : keeps (ChunkMutator.updatePositionHelper c).
Proof.
  assert (forall fuel c, keeps (ChunkMutator.updatePositionHelper_fuel fuel c)) as H.
  { induction fuel as [|fuel IH]; intros d; cbn [ChunkMutator.updatePositionHelper_fuel]; parts. }
  intros h a h' Hp E. by eapply H.
Qed.
#[export] Hint Resolve keeps_updatePositionHelper : plain.

Lemma keeps_ancestors c body : (forall c, keeps (body c)) -> keeps (ChunkMutator.ancestors c body).
Proof.
  intros Hb. assert (forall fuel c, keeps (ChunkMutator.ancestors_fuel fuel c body)) as H.
  { induction fuel as [|fuel IH]; intros d; destruct d; cbn [ChunkMutator.ancestors_fuel]; parts. }
  intros h a h' Hp E. by eapply H.
Qed.
Lemma keeps_addToSize c n : keeps (addToSize c n).
Proof. unfold addToSize. parts. Qed.
#[export] Hint Resolve keeps_addToSize : plain.

(** Without generations there is nothing to count. *)
Lemma keeps_updateGenerationCounts c : keeps (ChunkMutator.updateGenerationCounts c).
Proof.
  intros h a h' Hp (h0&h1&E1&E2)%M_bind_Ok. injection E1 as <- <-.
  rewrite (plain_mode h Hp) in E2. by injection E2 as _ <-.
Qed.
#[export] Hint Resolve keeps_updateGenerationCounts : plain.
Lemma keeps_modifiedChildSize m c n : keeps (ChunkMutator.modifiedChildSize m c n).
Proof.
  apply keeps_bind; [|parts]. apply keeps_ancestors. intros d. unfold ChunkMutator.up_to_module. parts.
Qed.
Lemma keeps_updatePositions m : keeps (ChunkMutator.updatePositions m).
Proof.
  unfold ChunkMutator.updatePositions. destruct (allowUpdates m); [|parts]. apply keeps_bind; [parts|]. intros h0.
  destruct (PositionFactory.needsUpdatePasses _); [|parts]. apply keeps_ancestors. parts.
Qed.
#[export] Hint Resolve keeps_modifiedChildSize keeps_updatePositions : plain.

(** ** Rounds *)

Lemma P_bind_Ok {A B} (m : P A) (f : A -> P B) s b s' :
  (m ≫= f) s = Ok (b, s') <-> exists a s1, m s = Ok (a, s1) /\ f a s1 = Ok (b, s').
Proof. unfold mbind, P_bind. destruct (m s) as [[a s1]|e]; naive_solver. Qed.
Lemma on_heap_Ok {A} (m : M A) s a s' :
  on_heap m s = Ok (a, s') <-> exists h, m (heap s) = Ok (a, h) /\ s' = mkState h (jumps s) (changed s).
Proof. unfold on_heap. destruct (m (heap s)) as [[b h]|e]; naive_solver. Qed.

Import PromoteJumps.

Lemma shorts_widen (js : gmap ptr Jump) p v v' : js !! p = Some v -> jdisp v = 1%nat -> jdisp v' <> 1%nat ->
  (shorts (<[p := v']> js) < shorts js)%nat.
Proof.
  intros Hv H1 H4. unfold shorts. rewrite map_filter_insert_False by done.
  rewrite <- (insert_delete_id js p v) at 2 by done. rewrite map_filter_insert_True by done.
  rewrite map_size_insert_None by (rewrite map_lookup_filter_None; left; by rewrite lookup_delete_eq).
  lia.
Qed.

Lemma keeps_resize i n : keeps (q ← getParent i; q ← deref q;
  ChunkMutator.temporary (mkMutator q true) (fun m => ChunkMutator.modifiedChildSize m i n)).
Proof. unfold ChunkMutator.temporary. parts. Qed.

Section pass.
Context (E : LinkEnv) (X : string -> Z).

(** A jump of one byte may get its long form; nothing else about a jump changes. *)
Definition widened (v v' : Jump) : Prop :=
  v' = v \/ (jdisp v = 1%nat /\ v' = mkJump (jid v) (getWiderOpcode X (jid v)) 4 (jlink v)).
Definition all_widened (js js' : gmap ptr Jump) : Prop :=
  forall p v', js' !! p = Some v' -> exists v, js !! p = Some v /\ widened v v'.

Lemma all_widened_refl js : all_widened js js.
Proof. intros p v Hv. exists v. split; [done|by left]. Qed.
Lemma all_widened_trans js1 js2 js3 : all_widened js1 js2 -> all_widened js2 js3 -> all_widened js1 js3.
Proof.
  intros H1 H2 p v3 Hv3. destruct (H2 p v3 Hv3) as (v2&Hv2&W2). destruct (H1 p v2 Hv2) as (v1&Hv1&W1).
  exists v1. split; [done|]. destruct W2 as [->|[Hd ->]]; [done|]. destruct W1 as [->|[_ ->]]; [by right|done].
Qed.

(** What a part of a round does: jumps are only widened, this is what [changed] records,
    and without it nothing happens at all. *)
Record step (s s' : State) : Prop := {
  step_shorts : (shorts (jumps s') <= shorts (jumps s))%nat;
  step_changed : changed s' = true -> changed s = true \/ (shorts (jumps s') < shorts (jumps s))%nat;
  step_mono : changed s = true -> changed s' = true;
  step_widened : all_widened (jumps s) (jumps s');
  step_plain : plain (heap s) -> plain (heap s');
  step_quiet : plain (heap s) -> changed s' = false -> s' = s }.

#[local] Instance step_refl : Reflexive step.
Proof. intros s. split; auto using all_widened_refl with lia. Qed.
#[local] Instance step_trans : Transitive step.
Proof.
  intros s1 s2 s3 [A1 A2 A3 A6 A4 A5] [B1 B2 B3 B6 B4 B5]. split; [lia| |auto|by eapply all_widened_trans|auto|].
  - intros H. destruct (B2 H) as [H'|]; [destruct (A2 H'); [by left|right; lia]|right; lia].
  - intros Hp H. pose proof (B5 (A4 Hp) H) as ->. auto.
Qed.

Definition steps {A} (m : P A) : Prop := forall s a s', m s = Ok (a, s') -> step s s'.
Lemma steps_bind {A B} (m : P A) (f : A -> P B) : steps m -> (forall a, steps (f a)) -> steps (m ≫= f).
Proof. intros Hm Hf s b s' (a&s1&E1&E2)%P_bind_Ok. transitivity s1; [by eapply Hm|by eapply Hf]. Qed.
Lemma steps_ret {A} (a : A) : steps (mret a).
Proof. intros s b s' He. by injection He as _ <-. Qed.
Lemma steps_fail {A} e : steps (@pfail A e).
Proof. intros s b s' He. discriminate. Qed.
Lemma steps_plift {A} (r : res A) : steps (plift r).
Proof. intros s b s' He. destruct r; [by injection He as _ <-|discriminate]. Qed.
Lemma steps_jump_at p : steps (jump_at p).
Proof. intros s b s' He. by injection He as _ <-. Qed.
Lemma steps_pure {A} (m : M A) : pure m -> steps (on_heap m).
Proof.
  intros Hm s a s' (h&He&->)%on_heap_Ok. split; cbn; [lia|auto|auto|apply all_widened_refl| |].
  - intros Hp. by rewrite (Hm _ _ _ Hp He).
  - intros Hp _. rewrite (Hm _ _ _ Hp He). by destruct s.
Qed.
#[local] Hint Resolve steps_ret steps_fail steps_plift steps_jump_at steps_pure : plain.

Lemma steps_calculateDisplacement p v : steps (calculateDisplacement E p v).
Proof.
  unfold calculateDisplacement. destruct (jlink v) as [k|]; [|apply steps_fail].
  apply steps_bind; [auto with plain|]. intros t. destruct (Link.isRIPRelative k); [|apply steps_ret].
  repeat (apply steps_bind; [by apply steps_pure; auto with plain|intros ?]). apply steps_ret.
Qed.

Lemma calculate_jumps p v s d s' : calculateDisplacement E p v s = Ok (d, s') -> jumps s' = jumps s.
Proof.
  unfold calculateDisplacement. destruct (jlink v) as [k|]; [|done].
  intros (t&s1&(h1&_&->)%on_heap_Ok&E2)%P_bind_Ok. destruct (Link.isRIPRelative k); [|by injection E2 as _ <-].
  apply P_bind_Ok in E2 as (x&s2&(h2&_&->)%on_heap_Ok&E3). apply P_bind_Ok in E3 as (c&s3&(h3&_&->)%on_heap_Ok&E4).
  apply P_bind_Ok in E4 as (a&s4&(h4&_&->)%on_heap_Ok&E5). by injection E5 as _ <-.
Qed.

Lemma promote_effect i p v s a s' : promote X i p v s = Ok (a, s') ->
  jumps s' = <[p := mkJump (jid v) (getWiderOpcode X (jid v)) 4 (jlink v)]> (jumps s) /\ changed s' = true /\
  (plain (heap s) -> plain (heap s')).
Proof.
  intros (?&s1&E1&E2)%P_bind_Ok. injection E1 as _ <-.
  apply P_bind_Ok in E2 as (?&s2&E2&E3). apply P_bind_Ok in E2 as (y&s3&E2&E4).
  apply on_heap_Ok in E2 as (h3&E2&->). apply P_bind_Ok in E4 as (?&s4&E4&E5).
  apply on_heap_Ok in E4 as (h4&E4&->). injection E5 as _ <-.
  apply on_heap_Ok in E3 as (h5&E3&->). cbn [heap jumps changed] in *.
  split; [done|]. split; [done|]. intros Hp.
  apply pure_semantic_at in E2 as ->; [|done]. apply keeps_put_semantic in E4; [|done].
  by apply keeps_resize in E3.
Qed.

Lemma steps_promote i p v s a s' : jumps s !! p = Some v -> jdisp v = 1%nat ->
  promote X i p v s = Ok (a, s') -> step s s'.
Proof.
  intros Hv H1 (Hj&Hc&Hp)%promote_effect.
  assert (shorts (jumps s') < shorts (jumps s))%nat by (rewrite Hj; by eapply shorts_widen).
  split; [lia|auto|auto| |auto|intros _ Hf; congruence].
  intros q w. rewrite Hj. intros [[<- <-]|[_ Hw]]%lookup_insert_Some; [|by apply all_widened_refl].
  exists v. split; [done|by right].
Qed.

(** A jump is reached by a displacement of its size; a short one stays in its function. *)
Definition settled (s : State) (p : ptr) (v : Jump) (k : Link) : Prop :=
  exists d, calculateDisplacement E p v s = Ok (d, s) /\ fitsIn 32 d = true /\
    (jdisp v = 1%nat -> fitsIn 8 d = true /\ Link.isExternalJump k = Ok false).

(** The decision of a visit, after the displacement is known. *)
Definition decide_jump (i p : ptr) (v : Jump) (k : Link) (disp : Z) : P unit :=
  (if (jdisp v =? 1)%nat then
     if negb (fitsIn 8 disp) then promote X i p v
     else e ← plift (Link.isExternalJump k); if e : bool then promote X i p v else mret tt
   else mret tt);;
  if fitsIn 32 disp then mret tt else pfail Aborted.

Lemma decide_step i p v k d s u s' : jumps s !! p = Some v -> decide_jump i p v k d s = Ok (u, s') -> step s s'.
Proof.
  intros Hv (?&s1&E1&E2)%P_bind_Ok. transitivity s1.
  - destruct (Nat.eqb_spec (jdisp v) 1); [|by eapply steps_ret].
    destruct (negb _); [by eapply steps_promote|].
    apply P_bind_Ok in E1 as (b&s2&E1&E3). unfold plift in E1. destruct (Link.isExternalJump k) as [b'|]; [|done].
    injection E1 as <- <-. destruct b'; [by eapply steps_promote|by eapply steps_ret].
  - destruct (fitsIn 32 d); [by eapply steps_ret|by eapply steps_fail].
Qed.

Lemma decide_quiet i p v k d s u s' : decide_jump i p v k d s = Ok (u, s') -> changed s' = false ->
  fitsIn 32 d = true /\ (jdisp v = 1%nat -> fitsIn 8 d = true /\ Link.isExternalJump k = Ok false).
Proof.
  intros (?&s1&E1&E2)%P_bind_Ok Hc. destruct (fitsIn 32 d); [|done]. injection E2 as <-. split; [done|]. intros H1.
  rewrite H1 in E1. cbn [Nat.eqb] in E1. destruct (fitsIn 8 d); cbn [negb] in E1; [split; [done|]|].
  - apply P_bind_Ok in E1 as (b&s2&E1&E3). unfold plift in E1. destruct (Link.isExternalJump k) as [b'|]; [|done].
    injection E1 as <- <-. destruct b'; [|done]. apply promote_effect in E3 as (_&?&_). congruence.
  - apply promote_effect in E1 as (_&?&_). congruence.
Qed.

(** What a visit is, for an instruction whose semantic is a jump with a link. *)
Lemma visit_Instruction_jump i p v k s : ChunkMutator.getSemantic i (heap s) = Ok (Some p, heap s) ->
  jumps s !! p = Some v -> jlink v = Some k ->
  visit_Instruction E X i s = (d ← calculateDisplacement E p v; decide_jump i p v k d) s.
Proof.
  intros Hi Hv Hk. unfold visit_Instruction, on_heap, mbind at 1, P_bind at 1. rewrite Hi.
  unfold jump_at, mbind at 1, P_bind at 1. cbn [jumps]. rewrite Hv, Hk. by destruct s.
Qed.

Lemma steps_visit_Instruction i : steps (visit_Instruction E X i).
Proof.
  intros s a s' (p&s1&E1&E2)%P_bind_Ok. transitivity s1; [eapply steps_pure; [apply pure_getSemantic|done]|].
  destruct p as [p|]; [|by eapply steps_ret].
  apply P_bind_Ok in E2 as (v&s2&E2&E3). injection E2 as <- <-.
  destruct (jumps s1 !! p) as [v|] eqn:Hv; [|by eapply steps_ret].
  destruct (jlink v) as [k|]; [|by eapply steps_ret].
  apply P_bind_Ok in E3 as (d&s2&E2&E3). pose proof (calculate_jumps p v _ _ _ E2) as Hj.
  transitivity s2; [by eapply steps_calculateDisplacement|].
  eapply decide_step; [|exact E3]. by rewrite Hj.
Qed.

Lemma visit_Instruction_settled i p v k s s' : plain (heap s) ->
  visit_Instruction E X i s = Ok (tt, s') -> changed s' = false ->
  ChunkMutator.getSemantic i (heap s) = Ok (Some p, heap s) -> jumps s !! p = Some v -> jlink v = Some k ->
  settled s p v k.
Proof.
  intros Hp Ev Hc Hi Hv Hk. rewrite (visit_Instruction_jump i p v k) in Ev by done.
  apply P_bind_Ok in Ev as (d&s1&E1&E2). pose proof (steps_calculateDisplacement p v _ _ _ E1) as S1.
  assert (jumps s1 !! p = Some v) as Hv1 by by rewrite (calculate_jumps p v _ _ _ E1).
  pose proof (decide_step _ _ _ _ _ _ _ _ Hv1 E2) as S2.
  assert (changed s1 = false) as Hc1.
  { destruct (changed s1) eqn:F; [|done]. by rewrite (step_mono _ _ S2 F) in Hc. }
  exists d. pose proof (step_quiet _ _ S1 Hp Hc1) as ->. split; [done|]. by eapply decide_quiet.
Qed.

(** *** The children of a chunk *)
Definition child_of (h : Heap) (c d : ptr) : Prop :=
  exists l, getChildren c h = Ok (Some l, h) /\ d ∈ iterable l.

Lemma steps_visit_all visit l : (forall c, steps (visit c)) -> steps (visit_all visit l).
Proof.
  intros Hv. induction l as [|c l IH]; cbn [visit_all]; [apply steps_ret|by apply steps_bind].
Qed.
Lemma steps_recurse visit c : (forall d, steps (visit d)) -> steps (recurse visit c).
Proof.
  intros Hv. apply steps_bind; [|intros l; by apply steps_visit_all].
  apply steps_bind; [auto with plain|]. intros [l|]; auto with plain.
Qed.
Lemma steps_visit_Block b : steps (visit_Block E X b).
Proof. apply steps_recurse, steps_visit_Instruction. Qed.

(** A round in which nothing has changed has visited every child in the same state. *)
Lemma visit_all_quiet visit l s s' : (forall c, steps (visit c)) -> plain (heap s) ->
  visit_all visit l s = Ok (tt, s') -> changed s' = false -> forall c, c ∈ l -> visit c s = Ok (tt, s).
Proof.
  intros Hv Hp. induction l as [|c l IH]; intros Ev Hc d Hd; [by apply elem_of_nil in Hd|].
  apply P_bind_Ok in Ev as ([]&s1&E1&E2). pose proof (Hv _ _ _ _ E1) as S1.
  pose proof (steps_visit_all visit l Hv _ _ _ E2) as S2.
  assert (changed s1 = false) as Hc1.
  { destruct (changed s1) eqn:F; [|done]. by rewrite (step_mono _ _ S2 F) in Hc. }
  pose proof (step_quiet _ _ S1 Hp Hc1) as ->.
  apply elem_of_cons in Hd as [->|Hd]; [done|by apply IH].
Qed.
Lemma recurse_quiet visit c s s' : (forall d, steps (visit d)) -> plain (heap s) ->
  recurse visit c s = Ok (tt, s') -> changed s' = false ->
  s' = s /\ forall d, child_of (heap s) c d -> visit d s = Ok (tt, s).
Proof.
  intros Hv Hp Er Hc. pose proof (step_quiet _ _ (steps_recurse visit c Hv _ _ _ Er) Hp Hc) as ->. split; [done|].
  intros d (l&El&Hd). apply P_bind_Ok in Er as (l'&s1&E1&E2).
  apply P_bind_Ok in E1 as (o&s2&(h&E1&->)%on_heap_Ok&E3). rewrite El in E1. injection E1 as <- <-. injection E3 as <- <-.
  assert (mkState (heap s) (jumps s) (changed s) = s) as Es by by destruct s. rewrite Es in E2.
  by eapply visit_all_quiet.
Qed.

(** *** The loop *)
Lemma round_step f s u s' : round E X f s = Ok (u, s') -> step (mkState (heap s) (jumps s) false) s'.
Proof. intros (?&s1&E1&E2)%P_bind_Ok. injection E1 as _ <-. by eapply steps_recurse; [apply steps_visit_Block|]. Qed.

Lemma round_less f s u s' : round E X f s = Ok (u, s') -> changed s' = true ->
  (shorts (jumps s') < shorts (jumps s))%nat.
Proof. intros Er Hc. apply round_step in Er. by destruct (step_changed _ _ Er Hc). Qed.

Lemma fuel_enough f n fuel s : (shorts (jumps s) <= n)%nat -> (shorts (jumps s) <= fuel)%nat ->
  visit_Function_fuel E X n f s = visit_Function_fuel E X fuel f s.
Proof.
  revert fuel s. induction n as [|n IH]; intros fuel s Hn Hf; destruct fuel as [|fuel]; cbn [visit_Function_fuel];
    unfold mbind, P_bind; destruct (round E X f s) as [[u s1]|e] eqn:Er; try done; cbn [get_changed];
    destruct (changed s1) eqn:Hc; try done; pose proof (round_less _ _ _ _ Er Hc); try lia.
  apply IH; lia.
Qed.

(** The states in front of the rounds. *)
Inductive rounds (f : ptr) (s : State) : State -> Prop :=
| rounds_start : rounds f s s
| rounds_next s1 s2 : rounds f s s1 -> round E X f s1 = Ok (tt, s2) -> changed s2 = true -> rounds f s s2.

Lemma rounds_front f s s1 s2 : round E X f s = Ok (tt, s1) -> changed s1 = true -> rounds f s1 s2 -> rounds f s s2.
Proof. intros H1 H2 H. induction H; [eapply rounds_next; [apply rounds_start|done..]|by eapply rounds_next]. Qed.

Lemma fuel_error f n s e : (shorts (jumps s) <= n)%nat -> visit_Function_fuel E X n f s = Err e ->
  exists s0, rounds f s s0 /\ round E X f s0 = Err e.
Proof.
  revert s. induction n as [|n IH]; intros s Hn; cbn [visit_Function_fuel]; unfold mbind, P_bind;
    destruct (round E X f s) as [[[] s1]|e'] eqn:Er; cbn [get_changed].
  - destruct (changed s1) eqn:Hc; [|done]. pose proof (round_less _ _ _ _ Er Hc). lia.
  - intros [= ->]. exists s. split; [constructor|done].
  - destruct (changed s1) eqn:Hc; [|done]. intros He. pose proof (round_less _ _ _ _ Er Hc).
    destruct (IH s1) as (s0&?&?); [lia|done|]. exists s0. split; [by eapply rounds_front|done].
  - intros [= ->]. exists s. split; [constructor|done].
Qed.

Lemma fuel_quiet f n s s' : plain (heap s) -> visit_Function_fuel E X n f s = Ok (tt, s') ->
  plain (heap s') /\ changed s' = false /\ recurse (visit_Block E X) f s' = Ok (tt, s').
Proof.
  revert s. induction n as [|n IH]; intros s Hp; cbn [visit_Function_fuel]; unfold mbind, P_bind;
    destruct (round E X f s) as [[[] s1]|e'] eqn:Er; try done; cbn [get_changed].
  all: pose proof (round_step _ _ _ _ Er) as S1; destruct (changed s1) eqn:Hc; try done.
  2: { apply IH. by apply (step_plain _ _ S1). }
  all: intros [= <-]; apply P_bind_Ok in Er as (?&s2&E1&E2); injection E1 as _ <-.
  all: pose proof (step_quiet _ _ S1 Hp Hc) as ->; done.
Qed.

(** *** What the machine does with a jump *)

(** The address of the instruction a control flow instruction belongs to. *)
Definition source_address (s : State) (p : ptr) (a : Z) : Prop :=
  exists x c, semantics (heap s) !! p = Some x /\ sem_source x = Some (Some c) /\ getAddress c (heap s) = Ok (a, heap s).

Definition view (v : Jump) (k : Link) (target : Z) : X86.ControlFlowInstruction :=
  X86.mkCFI (jid v) (jopcode v) (jdisp v) false (Some (X86.mkLinkView target (Link.isRIPRelative k))).

(** The jump, written out, has the machine go to the target of its link. *)
Definition arrives (s : State) (p : ptr) (v : Jump) (k : Link) : Prop :=
  exists target source, Link.getTargetAddress E k (heap s) = Ok (target, heap s) /\
    (Link.isRIPRelative k = true -> source_address s p source) /\
    (is_u64 target -> exists disp,
       X86.cfi_writeTo (view v k target) source [] true = Ok (jopcode v ++ disp) /\ length disp = jdisp v /\
       X86Proofs.designates (X86.mkLinkView target (Link.isRIPRelative k)) (add64 source (jump_size v)) disp).

Lemma calculate_spec p v k s d : plain (heap s) -> jlink v = Some k -> calculateDisplacement E p v s = Ok (d, s) ->
  exists target source, Link.getTargetAddress E k (heap s) = Ok (target, heap s) /\
    (Link.isRIPRelative k = true -> source_address s p source) /\
    d = X86.displacement (X86.mkLinkView target (Link.isRIPRelative k)) source (jump_size v).
Proof.
  intros Hp Hk. unfold calculateDisplacement. rewrite Hk.
  intros (t&s1&(h1&E1&->)%on_heap_Ok&E2)%P_bind_Ok.
  pose proof (pure_getTargetAddress E k _ _ _ Hp E1) as ->. unfold X86.displacement. cbn [X86.isRIPRelative X86.getTargetAddress].
  destruct (Link.isRIPRelative k).
  - apply P_bind_Ok in E2 as (x&s2&(h2&E2&->)%on_heap_Ok&E3). cbn [heap jumps changed] in *.
    pose proof (pure_semantic_at p _ _ _ Hp E2) as ->.
    apply P_bind_Ok in E3 as (c&s3&(h3&E3&->)%on_heap_Ok&E4). cbn [heap jumps changed] in *.
    pose proof (pure_deref _ _ _ _ Hp E3) as ->.
    apply P_bind_Ok in E4 as (a&s4&(h4&E4&->)%on_heap_Ok&E5). cbn [heap jumps changed] in *.
    pose proof (pure_getAddress c _ _ _ Hp E4) as ->. injection E5 as <- _.
    exists t, a. split; [done|]. split; [|done]. intros _. exists x, c.
    unfold semantic_at in E2. destruct (semantics (heap s) !! p); [|done]. injection E2 as ->.
    split; [done|]. split; [|done]. by destruct (sem_source x) as [[y|]|]; [injection E3 as ->| |].
  - injection E2 as <- _. by exists t, 0.
Qed.

Lemma fitsIn_bytes n d : (0 < n)%nat -> fitsIn (8 * Z.of_nat n) d = true -> fits_bytes n d.
Proof.
  intros Hn H%Z.eqb_eq. unfold fits_bytes. rewrite <- H. unfold swrap.
  pose proof (Z.mod_pos_bound (d + 2 ^ (8 * Z.of_nat n - 1)) (2 ^ (8 * Z.of_nat n)) ltac:(apply Z.pow_pos_nonneg; lia)).
  assert (2 ^ (8 * Z.of_nat n) = 2 * 2 ^ (8 * Z.of_nat n - 1)) by (rewrite <- Z.pow_succ_r by lia; f_equal; lia).
  lia.
Qed.

Lemma settled_arrives s p v k : plain (heap s) -> jlink v = Some k -> jdisp v ∈ [1; 4]%nat ->
  settled s p v k -> arrives s p v k.
Proof.
  intros Hp Hk Hd (d&Ed&H32&H8). destruct (calculate_spec p v k s d) as (t&a&Ht&Hs&Hdisp); [done..|].
  assert (jdisp v = 1%nat \/ jdisp v = 4%nat) as Hn by set_solver.
  exists t, a. split; [done|]. split; [done|]. intros Hu.
  destruct (X86Proofs.cfi_write (view v k t) a (X86.mkLinkView t (Link.isRIPRelative k)) []) as (disp&Hw&Hl&Hdes);
    [done|cbn; lia|done| |by exists disp].
  change (fits_bytes (jdisp v) (X86.displacement (X86.mkLinkView t (Link.isRIPRelative k)) a (jump_size v))).
  rewrite <- Hdisp. apply fitsIn_bytes; [lia|]. destruct Hn as [Hn|Hn]; rewrite Hn; [by apply H8|done].
Qed.

Lemma fuel_widened f n s s' : visit_Function_fuel E X n f s = Ok (tt, s') -> all_widened (jumps s) (jumps s').
Proof.
  revert s. induction n as [|n IH]; intros s; cbn [visit_Function_fuel]; unfold mbind, P_bind;
    destruct (round E X f s) as [[[] s1]|e'] eqn:Er; try done; cbn [get_changed].
  all: pose proof (step_widened _ _ (round_step _ _ _ _ Er)) as W; destruct (changed s1); try done.
  2: { intros H. eapply all_widened_trans; [exact W|]. by apply IH. }
  all: by intros [= <-].
Qed.

(** The jumps with a link among the instructions of a function. *)
Definition jump_of (s : State) (f p : ptr) (v : Jump) (k : Link) : Prop :=
  exists b i, child_of (heap s) f b /\ child_of (heap s) b i /\
    ChunkMutator.getSemantic i (heap s) = Ok (Some p, heap s) /\ jumps s !! p = Some v /\ jlink v = Some k.

Lemma visit_Function_settled f n s s' p v k : plain (heap s) -> visit_Function_fuel E X n f s = Ok (tt, s') ->
  jump_of s' f p v k -> plain (heap s') /\ settled s' p v k.
Proof.
  intros Hp Ev (b&i&Hb&Hi&Hsem&Hv&Hk). destruct (fuel_quiet f n s s' Hp Ev) as (Hp'&Hc&Er).
  split; [done|].
  destruct (recurse_quiet _ _ _ _ steps_visit_Block Hp' Er Hc) as [_ Hblocks].
  destruct (recurse_quiet _ _ _ _ steps_visit_Instruction Hp' (Hblocks b Hb) Hc) as [_ Hins].
  by eapply visit_Instruction_settled; [|apply (Hins i Hi)|..].
Qed.

(** C25: [PromoteJumpsPass::visit(Function)] ends: no more rounds are needed than there are
    short jumps, plus one, and the only failures are those of a round. *)
Theorem promote_jumps_terminates f s :
  (forall fuel, (shorts (jumps s) <= fuel)%nat ->
     visit_Function_fuel E X fuel f s = visit_Function E X f s) /\
  (forall e, visit_Function E X f s = Err e -> exists s0, rounds f s s0 /\ round E X f s0 = Err e).
Proof.
  split; [intros fuel Hf; by apply fuel_enough|]. intros e. by apply fuel_error.
Qed.

(** *** Jumps of the machine, after the manual of the architecture *)
Inductive Condition := Always | If (code : Z).
(** The condition and the size of the displacement that an opcode stands for: EB and E9 are
    unconditional, 70 to 7F and 0F 80 to 0F 8F have the condition in the low four bits. *)
Definition decode_opcode (op : list Z) : option (Condition * nat) :=
  match op with
  | [b] => if b =? 0xEB then Some (Always, 1%nat) else if b =? 0xE9 then Some (Always, 4%nat)
           else if (0x70 <=? b) && (b <=? 0x7F) then Some (If (b - 0x70), 1%nat) else None
  | [e; b] => if (e =? 0x0F) && (0x80 <=? b) && (b <=? 0x8F) then Some (If (b - 0x80), 4%nat) else None
  | _ => None
  end.
Definition mnemonics : list (string * Condition) :=
  [("JMP", Always); ("JO", If 0); ("JNO", If 1); ("JB", If 2); ("JAE", If 3); ("JE", If 4); ("JNE", If 5); ("JBE", If 6); ("JA", If 7);
   ("JS", If 8); ("JNS", If 9); ("JP", If 10); ("JNP", If 11); ("JL", If 12); ("JGE", If 13); ("JLE", If 14); ("JG", If 15)]%string.
Definition jump_names : list string := mnemonics.*1 ++ ["JCXZ"; "JRCXZ"; "JECXZ"]%string.
(** A jump whose opcode, size and identifier agree *)
Definition is_jump (v : Jump) (c : Condition) : Prop :=
  (exists name, (name, c) ∈ mnemonics /\ jid v = X name) /\ decode_opcode (jopcode v) = Some (c, jdisp v).

Section table.
Context (Hids : NoDup (X <$> jump_names)).
Lemma ids_inj a b : a ∈ jump_names -> b ∈ jump_names -> X a = X b -> a = b.
Proof using Hids.
  intros [i Hi]%list_elem_of_lookup [j Hj]%list_elem_of_lookup Eab.
  assert (i = j) as ->; [|congruence]. apply (NoDup_lookup _ i j (X a) Hids); rewrite list_lookup_fmap, ?Hi, ?Hj; cbn; congruence.
Qed.
(** The table of the pass has the long opcode of every condition. *)
Lemma wider_decodes name c : (name, c) ∈ mnemonics -> decode_opcode (getWiderOpcode X (X name)) = Some (c, 4%nat).
Proof using Hids.
  assert (forall a b, bool_decide (a ∈ jump_names) = true -> bool_decide (b ∈ jump_names) = true -> bool_decide (a = b) = false -> (X a =? X b) = false) as Hne.
  { intros a b Ha%bool_decide_eq_true Hb%bool_decide_eq_true Hab%bool_decide_eq_false. apply Z.eqb_neq. intros Eab. by apply Hab, ids_inj. }
  intros H. unfold mnemonics in H. unfold getWiderOpcode, wider_table. cbn [map switch fst snd].
  repeat (apply elem_of_cons in H as [[= -> ->]|H];
    [repeat first [rewrite Z.eqb_refl | rewrite Hne by reflexivity]; reflexivity|]). by apply elem_of_nil in H.
Qed.
Lemma widened_is_jump v v' c : widened v v' -> is_jump v c -> is_jump v' c.
Proof using Hids.
  intros [->|[Hd ->]] [(name&Hn&Hi) Ho]; [split; [by exists name|done]|]. split; [by exists name|]. cbn. rewrite Hi. by apply wider_decodes.
Qed.
End table.

(** C10: when [PromoteJumpsPass::visit(Function)] returns, every jump of the function that has a link,
    written out with the size it has then, takes the machine to the target of the link, and
    a jump that is still short stays in its function.  If the short jumps are those of the
    architecture with a long form (all but JCXZ, JECXZ, JRCXZ) and their identifiers are
    distinct, then a jump either is unchanged, or was short and has become a long jump with the
    same condition and link. *)
Theorem promote_jumps_correct f s s' :
  plain (heap s) -> visit_Function E X f s = Ok (tt, s') -> NoDup (X <$> jump_names) ->
  (forall p v, jumps s !! p = Some v -> jdisp v = 1%nat -> exists c, is_jump v c) ->
  (forall p v', jumps s' !! p = Some v' -> exists v, jumps s !! p = Some v /\
     (v' = v \/ exists c, is_jump v c /\ is_jump v' c /\ jdisp v = 1%nat /\ jdisp v' = 4%nat /\ jlink v' = jlink v)) /\
  forall p v k, jump_of s' f p v k ->
    (jdisp v ∈ [1; 4]%nat -> arrives s' p v k) /\ (jdisp v = 1%nat -> Link.isExternalJump k = Ok false).
Proof.
  intros Hp Ev Hids Hshort. split.
  - intros p v' Hv'. destruct (fuel_widened _ _ _ _ Ev p v' Hv') as (v&Hv&Hw). exists v. split; [done|].
    destruct Hw as [->|[Hd ->]]; [by left|right]. destruct (Hshort p v Hv Hd) as [c Hc]. exists c.
    split_and!; [done| |done|done|done]. eapply widened_is_jump; [done|by right|done].
  - intros p v k Hj. destruct (visit_Function_settled f _ s s' p v k Hp Ev Hj) as [Hp' Hs].
    assert (jlink v = Some k) as Hk by (by destruct Hj as (?&?&_&_&_&_&?)).
    split; [intros Hd; by apply settled_arrives|]. intros Hd. destruct Hs as (d&_&_&H8). by apply H8.
Qed.
End pass.

(** ** A cascade *)
Module PromoteExamples.
Definition code (ty : ChunkType) (par prv nxt pos : option ptr) (sz : Z) (ks : list ptr) (sem : option ptr) : Chunk :=
  mkChunk ty par prv nxt POSITION_OLD pos None sz (mkChunkList ks None None) sem "".
Definition offset (c o : Z) : Position := mkPosition (OffsetPosition (Some c) o) Undecorated.
(** A function of one block: a short jump to the return, 125 bytes, a short jump out of the
    function, the return. *)
Definition function : Heap := mkHeap
  (list_to_map [(5, code TFunctionList None None None None 0 [10] None);
    (10, code TFunction (Some 5) None None (Some 100) 130 [20] None);
    (20, code TBlock (Some 10) None None (Some 101) 130 [30; 31; 32; 33] None);
    (30, code TInstruction (Some 20) None (Some 31) (Some 102) 0 [] (Some 40));
    (31, code TInstruction (Some 20) (Some 30) (Some 32) (Some 103) 0 [] (Some 41));
    (32, code TInstruction (Some 20) (Some 31) (Some 33) (Some 104) 0 [] (Some 42));
    (33, code TInstruction (Some 20) (Some 32) None (Some 105) 0 [] (Some 43))])
  (list_to_map [(100, mkPosition (AbsolutePosition 4096) Undecorated); (101, offset 20 0);
    (102, offset 30 0); (103, offset 31 2); (104, offset 32 127); (105, offset 33 129)])
  (list_to_map [(40, mkSemantic 2 None (Some (Some 30))); (41, mkSemantic 125 None None);
    (42, mkSemantic 2 None (Some (Some 32))); (43, mkSemantic 1 None None)])
  MODE_OFFSET None [] 1000.
Definition ids (name : string) : Z := 268 + Z.of_nat (from_option fst 99%nat (list_find (eq name) jump_names)).
Definition env : LinkEnv := mkLinkEnv (fun _ => None) (fun _ => 0) (fun _ => 0).
Definition start : State := mkState function
  (list_to_map [(40, mkJump 268 [0xEB] 1 (Some (Link.makeNormalLink (Some 33) true false)));
    (42, mkJump 268 [0xEB] 1 (Some (SymbolOnlyLink 4200)))]) false.
Definition finish : State := from_option snd start
  (match visit_Function env ids 10 start with Ok r => Some r | Err _ => None end).

(** The jump out of the function is widened in the first round, which puts the return out
    of the reach of the other one, which is widened in the second. *)
Example cascade :
  visit_Function env ids 10 start = Ok (tt, finish) /\
  jumps finish = list_to_map
    [(40, mkJump 268 [0xE9] 4 (Some (Link.makeNormalLink (Some 33) true false)));
     (42, mkJump 268 [0xE9] 4 (Some (SymbolOnlyLink 4200)))] /\
  (forall h, getAddress 33 (heap finish) = Ok (4096 + 5 + 125 + 5, h) -> h = heap finish) /\
  option_map csize (chunks (heap finish) !! 10) = Some 136 /\
  visit_Function_fuel env ids 1 10 start = Err OutOfFuel.
Proof. vm_compute. repeat split. by intros h [=]. Qed.

Lemma start_plain : plain (heap start).
Proof.
  split; [done|]. intros p x H. change (positions (heap start) !! p = Some x) in H.
  apply elem_of_list_to_map_2 in H. cbn in H.
  repeat (apply elem_of_cons in H as [H|H]; [by injection H as -> ->|]). by apply elem_of_nil in H.
Qed.

Lemma promote_jumps_correct_witness :
  (exists v, jumps start !! 40 = Some v /\ exists c, is_jump ids v c /\ is_jump ids (mkJump 268 [0xE9] 4 (Some (Link.makeNormalLink (Some 33) true false))) c) /\
  (forall p v k, jump_of finish 10 p v k ->
    (jdisp v ∈ [1; 4]%nat -> arrives env finish p v k) /\ (jdisp v = 1%nat -> Link.isExternalJump k = Ok false)).
Proof.
  destruct (promote_jumps_correct env ids 10 start finish) as [Hw Ha].
  - apply start_plain.
  - vm_compute. reflexivity.
  - apply (bool_decide_unpack (NoDup _)). vm_compute. done.
  - intros p v Hv Hd. exists Always. apply elem_of_list_to_map_2 in Hv. cbn in Hv.
    repeat (apply elem_of_cons in Hv as [Hv|Hv]; [injection Hv as -> ->; split; [exists "JMP"%string; split; [left|]; reflexivity|reflexivity]|]).
    by apply elem_of_nil in Hv.
  - split; [|exact Ha]. destruct (Hw 40 (mkJump 268 [0xE9] 4 (Some (Link.makeNormalLink (Some 33) true false)))) as (v&Hv&[<-|(c&H1&H2&_)]).
    + vm_compute. reflexivity.
    + vm_compute in Hv. discriminate.
    + exists v. split; [exact Hv|]. by exists c.
Defined.

Lemma promote_jumps_terminates_witness : (shorts (jumps start) <= 7)%nat /\
  visit_Function_fuel env ids 7 10 start = visit_Function env ids 10 start.
Proof. split; [vm_compute; lia|]. apply (promote_jumps_terminates env ids 10 start). vm_compute. lia. Defined.

(** JRCXZ has no long form: a jump that is too short becomes four bytes without an opcode. *)
Example jrcxz_loses_opcode :
  (s ← (match visit_Function env ids 10 (mkState function (<[42 := mkJump (ids "JRCXZ") [0xE3] 1 (Some (SymbolOnlyLink 4400))]> (jumps start)) false) with
        | Ok (_, s) => Ok s | Err e => Err e end);
   Ok (jumps s !! 42)) = Ok (Some (mkJump (ids "JRCXZ") [] 4 (Some (SymbolOnlyLink 4400)))).
Proof. vm_compute. reflexivity. Qed.
End PromoteExamples.
