(* ===== verification/Deferred.v ===== *)
(** * Deferred values of the output file: src/generate/deferred.{h,cpp}, integerdeferred.{h,cpp}

    The sections of a generated ELF file are values that are completed when they are
    written: single structures, lists of structures with an index, lists that are also maps
    and can be kept sorted by their key, and tables of strings. *)

From Stdlib Require Import Sorting.Sorted.
From S2P Require Import Prelude ChunkList.

(** ** Single values *)

(** A structure and the functions that complete it when it is written. *)
Record DeferredValueImpl (E : Type) := mkDeferred { elfValue : E; functionList : list (E -> E) }.
Arguments mkDeferred {E}.
Arguments elfValue {E}.
Arguments functionList {E}.

Module DeferredValueImpl.
Definition new {E} (e : E) : DeferredValueImpl E := mkDeferred e [].
Definition addFunction {E} (d : DeferredValueImpl E) (f : E -> E) : DeferredValueImpl E :=
  mkDeferred (elfValue d) (functionList d ++ [f]).
(** The structure after its functions have run; its bytes are those of the structure. *)
Definition final {E} (d : DeferredValueImpl E) : E := fold_left (fun e f => f e) (functionList d) (elfValue d).
Definition writeTo {E} (encode : E -> list Z) (d : DeferredValueImpl E) (stream : list Z) : list Z :=
  stream ++ encode (final d).
End DeferredValueImpl.

(** ** Strings and integers *)

(** [DeferredStringList]: the output so far. *)
Module DeferredStringList.
Definition new : list Z := [].
(** The position of the string, and the output with it. *)
Definition add (output data : list Z) (withNull : bool) : Z * list Z :=
  (Z.of_nat (length output), output ++ data ++ (if withNull then [0] else [])).
Definition getSize (output : list Z) : Z := Z.of_nat (length output).
Definition writeTo (output stream : list Z) : list Z := stream ++ output.
End DeferredStringList.

(** The C string at a position: up to the next zero byte. *)
Fixpoint c_string (l : list Z) : list Z :=
  match l with [] => [] | b :: l => if b =? 0 then [] else b :: c_string l end.
Definition string_at (output : list Z) (i : Z) : list Z := c_string (drop (Z.to_nat i) output).

(** The string at a position of a table of strings, which ends there. *)
Definition has_string (tab : list Z) (i : Z) (name : list Z) : Prop :=
  string_at tab i = name /\ 0 ∈ drop (Z.to_nat i) tab.

Lemma c_string_prefix l l' : 0 ∈ l -> c_string (l ++ l') = c_string l.
Proof.
  intros H0. induction l as [|c l IH]; [by apply elem_of_nil in H0|]. cbn. destruct (Z.eqb_spec c 0); [done|].
  f_equal. apply IH. apply elem_of_cons in H0 as [?|?]; [congruence|done].
Qed.

(** What is added later does not change a string. *)
Lemma has_string_app tab l i name : has_string tab i name -> has_string (tab ++ l) i name.
Proof.
  intros [<- H0]. unfold has_string, string_at.
  assert (Z.to_nat i <= length tab)%nat.
  { destruct (decide (Z.to_nat i <= length tab)%nat); [done|]. rewrite drop_ge in H0 by lia. by apply elem_of_nil in H0. }
  rewrite drop_app_le by done. split; [by apply c_string_prefix|]. apply elem_of_app. by left.
Qed.

Lemma has_string_add tab name : Forall (fun c => 0 < c) name -> Z.of_nat (length tab) < 2 ^ 32 ->
  has_string (tab ++ name ++ [0]) (u32 (Z.of_nat (length tab))) name.
Proof.
  intros Hn Hl. unfold has_string, string_at. rewrite wrap_small by lia. rewrite Nat2Z.id, drop_app_length.
  split; [|set_solver]. induction Hn as [|c name Hc Hn IH]; cbn; [done|].
  rewrite (proj2 (Z.eqb_neq c 0)) by lia. by f_equal.
Qed.

Module DeferredIntegerList.
Definition add32 (stream : list Z) (value : Z) : list Z := stream ++ le_bytes 4 value.
Definition add64 (stream : list Z) (value : Z) : list Z := stream ++ le_bytes 8 value.
End DeferredIntegerList.

(** ** Lists that are maps *)

(** A map from the elements of a list to their positions, filled by a loop. *)
Fixpoint number {A} `{Countable A} (l : list A) (i : Z) (acc : gmap A Z) : gmap A Z :=
  match l with [] => acc | v :: l => number l (i + 1) (<[v := i]> acc) end.

(** The comparison of keys that a [std::map] and [std::upper_bound] use. *)
Class Less (K : Type) := less : K -> K -> bool.
Class LessLaws (K : Type) `{Less K} : Prop := {
  less_irrefl k : less k k = false;
  less_trans a b c : less a b = true -> less b c = true -> less a c = true;
  less_negtrans a b c : less a c = true -> less a b = true \/ less b c = true }.

(** The list of values, the map from keys in the order of the keys, the map back, and the
    positions of the values. *)
Record DeferredMap (K : Type) := mkDMap {
  valueList : list ptr;
  valueMap : list (K * option ptr);
  reverseMap : gmap ptr K;
  indexMap : gmap ptr Z }.
Arguments mkDMap {K}.
Arguments valueList {K}.
Arguments valueMap {K}.
Arguments reverseMap {K}.
Arguments indexMap {K}.

Module DeferredMap.
Section ops.
Context {K : Type} `{Less K} `{Inhabited K}.
Implicit Types (m : DeferredMap K) (k : K) (v : ptr).

Definition new : DeferredMap K := mkDMap [] [] ∅ ∅.
Definition getCount m : Z := Z.of_nat (length (valueList m)).

(** Keys neither of which is less than the other are the same key to a [std::map]. *)
Fixpoint lookup (l : list (K * option ptr)) k : option (option ptr) :=
  match l with
  | [] => None
  | (k', v) :: l => if less k k' then None else if less k' k then lookup l k else Some v
  end.
Fixpoint assign (l : list (K * option ptr)) k (v : option ptr) : list (K * option ptr) :=
  match l with
  | [] => [(k, v)]
  | (k', v') :: l' =>
    if less k k' then (k, v) :: l else if less k' k then (k', v') :: assign l' k v else (k', v) :: l'
  end.

Definition contains m k : bool := match lookup (valueMap m) k with Some _ => true | None => false end.
(** [valueMap[key]], which makes a null entry for a key that is not there. *)
Definition find m k : option ptr * DeferredMap K :=
  match lookup (valueMap m) k with
  | Some v => (v, m)
  | None => (None, mkDMap (valueList m) (assign (valueMap m) k None) (reverseMap m) (indexMap m))
  end.
(** [reverseMap[value]], the default key for a value that is not there. *)
Definition getKey m v : K := default inhabitant (reverseMap m !! v).

Definition set_maps m k v (values : list ptr) (index : gmap ptr Z) : DeferredMap K :=
  mkDMap values (assign (valueMap m) k (Some v)) (<[v := k]> (reverseMap m)) index.

Definition add m k v : DeferredMap K :=
  set_maps m k v (valueList m ++ [v]) (<[v := getCount m]> (indexMap m)).
Definition insertAt m (i : nat) k v : DeferredMap K :=
  set_maps m k v (take i (valueList m) ++ v :: drop i (valueList m)) (<[v := Z.of_nat i]> (indexMap m)).

(** [std::upper_bound]: the first value whose key is greater than the key of [v]. *)
Fixpoint upper_bound (key : ptr -> K) (l : list ptr) v : nat :=
  match l with
  | [] => O
  | w :: l => if less (key v) (key w) then O else S (upper_bound key l v)
  end.
Definition insertSorted m k v : bool * DeferredMap K :=
  if contains m k then (false, m)
  else
    let m' := set_maps m k v (valueList m) (indexMap m) in
    let i := upper_bound (getKey m') (valueList m) v in
    (true, mkDMap (take i (valueList m) ++ v :: drop i (valueList m)) (valueMap m') (reverseMap m')
             (<[v := Z.of_nat i]> (indexMap m))).

Definition indexOf m v : Z := default (2 ^ 64 - 1) (indexMap m !! v).
Definition recalculateIndices m : DeferredMap K :=
  mkDMap (valueList m) (valueMap m) (reverseMap m) (number (valueList m) 0 ∅).
Definition clearAll m : DeferredMap K := new.
End ops.
End DeferredMap.

Lemma positions_spec {A} `{Countable A} (l : list A) i acc v j : NoDup l -> (forall w, w ∈ l -> acc !! w = None) ->
  number l i acc !! v = Some j <-> acc !! v = Some j \/ (i <= j /\ l !! Z.to_nat (j - i) = Some v).
Proof.
  revert i acc. induction l as [|w l IH]; intros i acc Hd Ha; cbn [number].
  { split; [by left|]. by intros [?|[_ ?]]. }
  apply NoDup_cons in Hd as [Hw Hd]. rewrite IH; [|done|].
  2: { intros x Hx. rewrite lookup_insert_ne by (intros ->; done). apply Ha. set_solver. }
  destruct (decide (v = w)) as [->|Hne].
  - rewrite lookup_insert_eq, (Ha w) by set_solver. split.
    + intros [[= <-]|[Hj Hl]]; [right; split; [lia|]; by rewrite Z.sub_diag|].
      exfalso. apply Hw. by eapply list_elem_of_lookup_2.
    + intros [?|[Hj Hl]]; [done|]. destruct (decide (j = i)) as [->|]; [by left|]. right. split; [lia|].
      rewrite <- Hl. replace (Z.to_nat (j - i)) with (S (Z.to_nat (j - (i + 1)))) by lia. done.
  - rewrite lookup_insert_ne by congruence. split; (intros [?|[Hj Hl]]; [by left|right]).
    + split; [lia|]. rewrite <- Hl. replace (Z.to_nat (j - i)) with (S (Z.to_nat (j - (i + 1)))) by lia. done.
    + destruct (decide (j = i)) as [->|]; [rewrite Z.sub_diag in Hl; by injection Hl as ->|].
      split; [lia|]. rewrite <- Hl. replace (Z.to_nat (j - i)) with (S (Z.to_nat (j - (i + 1)))) by lia. done.
Qed.


(** ** Sorted maps *)
Section sorted.
Context {K : Type} `{LK : LessLaws K} `{IK : Inhabited K}.
Implicit Types (m : DeferredMap K) (k : K) (v : ptr).
Import DeferredMap.

Lemma less_asym k k' : less k k' = true -> less k' k = false.
Proof.
  intros Hl. destruct (less k' k) eqn:E; [|done]. pose proof (less_trans _ _ _ Hl E) as F.
  by rewrite less_irrefl in F.
Qed.

Definition increasing (l : list K) : Prop := StronglySorted (fun a b => less a b = true) l.

(** The map is in the order of its keys, the list holds its values in the same order, and
    every value leads back to its key. *)
Record coherent m : Prop := {
  co_sorted : increasing (map fst (valueMap m));
  co_values : map snd (valueMap m) = map Some (valueList m);
  co_nodup : NoDup (valueList m);
  co_reverse : forall k v, (k, Some v) ∈ valueMap m -> reverseMap m !! v = Some k }.

(** The positions are up to date. *)
Definition indexed m : Prop :=
  forall v i, indexMap m !! v = Some i <-> 0 <= i /\ valueList m !! Z.to_nat i = Some v.

Lemma coherent_new : coherent new.
Proof. split; cbn; [constructor|done|constructor|]. intros k v Hin. by apply elem_of_nil in Hin. Qed.

(** Where a new key goes. *)
Lemma assign_split l k (v : option ptr) : increasing (map fst l) -> lookup l k = None -> exists l1 l2,
  l = l1 ++ l2 /\ assign l k v = l1 ++ (k, v) :: l2 /\
  Forall (fun p => less p.1 k = true) l1 /\ Forall (fun p => less k p.1 = true) l2.
Proof.
  induction l as [|[k' v'] l IH]; intros Hs Hn; [exists [], []; auto|].
  cbn [lookup assign map fst] in *. apply StronglySorted_inv in Hs as [Hs Ha]. destruct (less k k') eqn:E1.
  - exists [], ((k', v') :: l). split; [done|]. split; [done|]. split; [done|].
    constructor; [done|]. apply Forall_map in Ha. eapply Forall_impl; [exact Ha|].
    intros p Hp. by eapply less_trans.
  - destruct (less k' k) eqn:E2; [|done]. destruct (IH Hs Hn) as (l1&l2&->&->&H1&H2).
    exists ((k', v') :: l1), l2. split; [done|]. split; [done|]. split; [by constructor|done].
Qed.

Lemma lookup_elem l k (v : option ptr) : increasing (map fst l) -> (k, v) ∈ l -> lookup l k = Some v.
Proof.
  induction l as [|[k' v'] l IH]; intros Hs Hin; [by apply elem_of_nil in Hin|].
  apply StronglySorted_inv in Hs as [Hs Ha]. cbn [lookup]. apply elem_of_cons in Hin as [[= <- <-]|Hin].
  - by rewrite less_irrefl.
  - apply Forall_map in Ha. rewrite Forall_forall in Ha. pose proof (Ha _ Hin) as Hl. cbn in Hl.
    rewrite (less_asym _ _ Hl), Hl. by apply IH.
Qed.

Lemma increasing_insert l1 l2 k : increasing (l1 ++ l2) -> Forall (fun a => less a k = true) l1 ->
  Forall (fun a => less k a = true) l2 -> increasing (l1 ++ k :: l2).
Proof.
  intros Hs H1 H2. induction l1 as [|a l1 IH]; cbn in *; [by constructor|].
  apply StronglySorted_inv in Hs as [Hs Ha]. apply Forall_cons in H1 as [Hk H1]. constructor; [by apply IH|].
  apply Forall_app in Ha as [Ha1 Ha2]. apply Forall_app. split; [done|]. by constructor.
Qed.

Lemma upper_bound_place key l1 l2 v : Forall (fun w => less (key v) (key w) = false) l1 ->
  Forall (fun w => less (key v) (key w) = true) l2 -> upper_bound key (l1 ++ l2) v = length l1.
Proof.
  intros H1 H2. induction H1 as [|w l1 Hw H1 IH]; cbn; [|by rewrite Hw, IH].
  destruct H2 as [|w l2 Hw]; [done|]. cbn. by rewrite Hw.
Qed.

Lemma co_key m k v : coherent m -> (k, Some v) ∈ valueMap m -> getKey m v = k.
Proof. intros Hc Hin. unfold getKey. by rewrite (co_reverse m Hc _ _ Hin). Qed.

Lemma co_elem m v : coherent m -> v ∈ valueList m -> exists k, (k, Some v) ∈ valueMap m.
Proof.
  intros Hc Hv. assert (Some v ∈ map snd (valueMap m)) as Hs.
  { rewrite (co_values m Hc). apply list_elem_of_fmap. eauto. }
  apply list_elem_of_fmap in Hs as ([k o]&Ho&Hin). cbn in Ho. subst. eauto.
Qed.

Lemma co_in m k v : coherent m -> (k, Some v) ∈ valueMap m -> v ∈ valueList m.
Proof.
  intros Hc Hin. assert (Some v ∈ map Some (valueList m)) as Hs
    by (rewrite <- (co_values m Hc); apply list_elem_of_fmap; by exists (k, Some v)).
  by apply list_elem_of_fmap in Hs as (?&[= ->]&?).
Qed.

Lemma lookup_value m k o : coherent m -> lookup (valueMap m) k = Some o -> exists v, o = Some v /\ v ∈ valueList m.
Proof.
  intros Hc Hl. assert (exists k', (k', o) ∈ valueMap m) as [k' Hin].
  { clear Hc. induction (valueMap m) as [|[k' o'] l IH]; cbn [lookup] in Hl; [done|].
    destruct (less k k'); [done|]. destruct (less k' k); [|injection Hl as ->; exists k'; set_solver].
    destruct (IH Hl) as [k'' Hin]. exists k''. set_solver. }
  assert (o ∈ map snd (valueMap m)) as Ho by (apply list_elem_of_fmap; by exists (k', o)).
  rewrite (co_values m Hc) in Ho. apply list_elem_of_fmap in Ho as (v&->&Hv). eauto.
Qed.

(** The insertion of a new key: both the map and the list get it at its place. *)
Lemma insertSorted_new m k v : coherent m -> contains m k = false -> v ∉ valueList m -> exists l1 l2 (v1 v2 : list ptr),
  valueMap m = l1 ++ l2 /\ valueList m = v1 ++ v2 /\ map snd l1 = map Some v1 /\ map snd l2 = map Some v2 /\
  (insertSorted m k v).1 = true /\
  valueMap (insertSorted m k v).2 = l1 ++ (k, Some v) :: l2 /\
  valueList (insertSorted m k v).2 = v1 ++ v :: v2 /\
  coherent (insertSorted m k v).2.
Proof.
  intros Hc Hn Hv. assert (lookup (valueMap m) k = None) as Hl.
  { unfold contains in Hn. by destruct (lookup (valueMap m) k). }
  destruct (assign_split (valueMap m) k (Some v) (co_sorted m Hc) Hl) as (l1&l2&El&Ea&F1&F2).
  assert (exists v1 v2 : list ptr, valueList m = v1 ++ v2 /\ map snd l1 = map Some v1 /\ map snd l2 = map Some v2)
    as (v1&v2&Ev&E1&E2).
  { pose proof (co_values m Hc) as E. rewrite El, map_app in E.
    apply symmetry, map_eq_app in E as (v1&v2&->&<-&<-). eauto. }
  set (m' := set_maps m k v (valueList m) (indexMap m)).
  assert (Hkv : getKey m' v = k) by (unfold getKey, m'; cbn; by rewrite lookup_insert_eq).
  assert (Hkey : forall k' w, (k', Some w) ∈ valueMap m -> w ∈ valueList m -> getKey m' w = k').
  { intros k' w Hin Hw. unfold getKey, m'. cbn. rewrite lookup_insert_ne by congruence.
    by rewrite (co_reverse m Hc _ _ Hin). }
  assert (Hpart : forall (b : bool) l vs, map snd l = map Some vs -> (forall p, p ∈ l -> p ∈ valueMap m) ->
    (forall w, w ∈ vs -> w ∈ valueList m) -> Forall (fun p => less k p.1 = b) l ->
    Forall (fun w => less (getKey m' v) (getKey m' w) = b) vs).
  { intros b l vs E Hin Hvs F. apply Forall_forall. intros w Hw.
    assert (Some w ∈ map snd l) as Hs by (rewrite E; apply list_elem_of_fmap; eauto).
    apply list_elem_of_fmap in Hs as ([k' o]&Ho&Hp). cbn in Ho. rewrite <- Ho in Hp.
    rewrite Hkv, (Hkey k' w) by auto. by apply (proj1 (Forall_forall _ _) F _ Hp). }
  assert (Hi : upper_bound (getKey m') (valueList m) v = length v1).
  { rewrite Ev. apply upper_bound_place.
    - apply (Hpart false l1); [done|rewrite El; set_solver|rewrite Ev; set_solver|].
      eapply Forall_impl; [exact F1|]. intros p Hp. by apply less_asym.
    - by apply (Hpart true l2); [|rewrite El; set_solver|rewrite Ev; set_solver|]. }
  exists l1, l2, v1, v2. do 4 (split; [done|]).
  unfold insertSorted. rewrite Hn. fold m'. rewrite Hi, Ev, take_app_length, drop_app_length. cbn [fst snd valueMap valueList].
  split; [done|]. split; [done|]. split; [done|].
  split; cbn [valueMap valueList reverseMap].
  - unfold m', set_maps. cbn [valueMap]. rewrite Ea, map_app. cbn. apply increasing_insert.
    + rewrite <- map_app, <- El. apply Hc.
    + by apply Forall_map.
    + by apply Forall_map.
  - unfold m', set_maps. cbn [valueMap]. rewrite Ea, !map_app. cbn. by rewrite E1, E2.
  - pose proof (co_nodup m Hc) as Hd. rewrite Ev in Hd, Hv. apply NoDup_app in Hd as (D1&D2&D3).
    apply NoDup_app. split; [done|]. split; [set_solver|]. constructor; [set_solver|done].
  - unfold m', set_maps. cbn [valueMap reverseMap]. rewrite Ea. intros k' w Hin.
    assert (Hold : (k', Some w) ∈ valueMap m -> <[v := k]> (reverseMap m) !! w = Some k').
    { intros Hin'. rewrite lookup_insert_ne; [by apply Hc|]. intros <-. apply Hv.
      by apply (co_in m k'). }
    rewrite El in Hold. apply elem_of_app in Hin as [Hin|[[= -> ->]|Hin]%elem_of_cons];
      [apply Hold; set_solver|by rewrite lookup_insert_eq|apply Hold; set_solver].
Qed.

(** *** Positions *)
Lemma recalculate_indexed m : NoDup (valueList m) -> indexed (recalculateIndices m).
Proof.
  intros Hd v i. unfold recalculateIndices. cbn [indexMap valueList].
  rewrite positions_spec by (done || intros; apply lookup_empty). rewrite lookup_empty, Z.sub_0_r. naive_solver.
Qed.
Lemma recalculate_coherent m : coherent m -> coherent (recalculateIndices m).
Proof. by intros []. Qed.
Lemma indexed_indexOf m v i : indexed m -> valueList m !! i = Some v -> indexOf m v = Z.of_nat i.
Proof.
  intros Hx Hv. unfold indexOf. rewrite (proj2 (Hx v (Z.of_nat i))); [done|].
  split; [lia|]. by rewrite Nat2Z.id.
Qed.

Lemma not_indexed m v : indexed m -> v ∉ valueList m -> indexOf m v = 2 ^ 64 - 1.
Proof.
  intros Hx Hv. unfold indexOf. destruct (indexMap m !! v) as [i|] eqn:E; [|done].
  apply Hx in E as [_ E]. destruct Hv. by eapply list_elem_of_lookup_2.
Qed.

(** *** A sequence of insertions *)
Definition insert_all (l : list (K * ptr)) m : DeferredMap K := fold_left (fun m p => (insertSorted m p.1 p.2).2) l m.
Definition equivalent k k' : bool := negb (less k k') && negb (less k' k).

Lemma equivalent_trans a b c : equivalent a b = true -> equivalent b c = true -> equivalent a c = true.
Proof.
  unfold equivalent. rewrite !andb_true_iff, !negb_true_iff. intros [H1 H2] [H3 H4]. split.
  - destruct (less a c) eqn:E; [|done]. destruct (less_negtrans a b c E); congruence.
  - destruct (less c a) eqn:E; [|done]. destruct (less_negtrans c b a E); congruence.
Qed.

Lemma insertSorted_old m k v : contains m k = true -> insertSorted m k v = (false, m).
Proof. intros Hc. unfold insertSorted. by rewrite Hc. Qed.

Lemma contains_elem m k : coherent m ->
  contains m k = true <-> exists k' v, (k', Some v) ∈ valueMap m /\ equivalent k k' = true.
Proof.
  intros Hc. unfold contains, equivalent. split.
  - assert (Hsome : Forall (fun p => exists v, p.2 = Some v) (valueMap m)).
    { apply Forall_forall. intros [k' o] Hin. assert (o ∈ map snd (valueMap m)) as Ho by (apply list_elem_of_fmap; by exists (k', o)).
      rewrite (co_values m Hc) in Ho. apply list_elem_of_fmap in Ho as (v&->&_). by exists v. }
    induction Hsome as [|[k' o] l [v Hv] _ IH]; cbn [lookup]; [done|]. cbn in Hv. subst.
    destruct (less k k') eqn:E1; [done|]. destruct (less k' k) eqn:E2.
    + intros Hl. destruct (IH Hl) as (k''&w&Hin&He). exists k'', w. split; [set_solver|done].
    + intros _. exists k', v. split; [set_solver|]. by rewrite E1, E2.
  - intros (k'&v&Hin&He). apply andb_true_iff in He as [E1%negb_true_iff E2%negb_true_iff].
    pose proof (co_sorted m Hc) as Hs. clear Hc. induction (valueMap m) as [|[k1 o] l IH]; [by apply elem_of_nil in Hin|].
    apply StronglySorted_inv in Hs as [Hs Ha]. cbn [lookup].
    apply elem_of_cons in Hin as [[= <- <-]|Hin]; [by rewrite E1, E2|].
    apply Forall_map in Ha. pose proof (proj1 (Forall_forall _ _) Ha _ Hin) as Hl. cbn in Hl.
    destruct (less_negtrans _ k _ Hl) as [Hl'|Hl']; [|congruence].
    rewrite (less_asym _ _ Hl'), Hl'. by apply IH.
Qed.

Lemma insert_all_coherent l m : coherent m -> NoDup (map snd l) -> (forall v, v ∈ map snd l -> v ∉ valueList m) ->
  coherent (insert_all l m) /\ (forall k, contains (insert_all l m) k = true <->
    contains m k = true \/ exists p, p ∈ l /\ equivalent k p.1 = true) /\
  (forall v, v ∈ valueList (insert_all l m) -> v ∈ valueList m \/ v ∈ map snd l).
Proof.
  revert m. induction l as [|[k v] l IH]; intros m Hc Hd Hf; cbn [insert_all fold_left map snd fst] in *.
  { split; [done|]. split; [|by left]. intros k. split; [by left|]. intros [?|(p&Hp&_)]; [done|]. by apply elem_of_nil in Hp. }
  apply NoDup_cons in Hd as [Hv Hd]. fold (insert_all l ((insertSorted m k v).2)).
  destruct (contains m k) eqn:Ek.
  - rewrite insertSorted_old by done. cbn [snd]. destruct (IH m Hc Hd) as (H1&H2&H3); [set_solver|].
    split; [done|]. split; [|intros w Hw; destruct (H3 w Hw); [by left|right; set_solver]].
    intros k'. rewrite H2. split; [intros [?|(p&Hp&He)]; [by left|right; exists p; split; [set_solver|done]]|].
    intros [?|(p&[->|Hp]%elem_of_cons&He)]; [by left| |right; by exists p]. left.
    apply (contains_elem m k' Hc). apply (contains_elem m k Hc) in Ek as (k1&w&Hin&Hk1). exists k1, w. split; [done|].
    by eapply equivalent_trans.
  - destruct (insertSorted_new m k v Hc Ek) as (l1&l2&v1&v2&El&Ev&_&_&_&Em&En&Hc'); [set_solver|].
    destruct (IH _ Hc' Hd) as (H1&H2&H3); [intros w Hw; rewrite En; rewrite Ev in Hf; set_solver|].
    split; [done|]. split.
    + intros k'. rewrite H2, !contains_elem, Em, El by done. split.
      * intros [(k1&w&Hin&He)|(p&Hp&He)]; [|right; exists p; split; [set_solver|done]].
        apply elem_of_app in Hin as [Hin|[[= -> ->]|Hin]%elem_of_cons]; [left; exists k1, w; set_solver| |left; exists k1, w; set_solver].
        right. exists (k, v). split; [set_solver|done].
      * intros [(k1&w&Hin&He)|(p&[->|Hp]%elem_of_cons&He)]; [left; exists k1, w; set_solver| |right; by exists p].
        left. exists k, v. split; [set_solver|done].
    + intros w Hw. destruct (H3 w Hw) as [Hw'|]; [|right; set_solver]. rewrite En in Hw'. rewrite Ev. set_solver.
Qed.

(** Values entered in any order end in the order of their keys. *)
Lemma sorted_pairs (l : list (K * option ptr)) : increasing (map fst l) ->
  StronglySorted (fun p q => less p.1 q.1 = true) l.
Proof.
  induction l as [|p l IH]; intros Hs; [constructor|]. apply StronglySorted_inv in Hs as [Hs Ha].
  constructor; [by apply IH|]. by apply Forall_map in Ha.
Qed.
Lemma sorted_apart (l l' : list (K * option ptr)) p : increasing (map fst (l ++ p :: l')) ->
  forall q, q ∈ l ++ l' -> equivalent p.1 q.1 = false.
Proof.
  intros Hs%sorted_pairs q Hq. unfold equivalent. apply andb_false_iff. rewrite !negb_false_iff.
  apply elem_of_app in Hq as [Hq|Hq].
  - right. induction l as [|r l IH]; [by apply elem_of_nil in Hq|]. cbn in Hs. apply StronglySorted_inv in Hs as [Hs Ha].
    apply elem_of_cons in Hq as [->|Hq]; [|by apply IH]. apply (proj1 (Forall_forall _ _) Ha). set_solver.
  - left. induction l as [|r l IH]; cbn in Hs; apply StronglySorted_inv in Hs as [Hs Ha]; [|by apply IH].
    by apply (proj1 (Forall_forall _ _) Ha).
Qed.
Definition entry (p : K * ptr) : K * option ptr := (p.1, Some p.2).

Lemma insert_all_perm l m target : coherent m -> increasing (map fst target) -> NoDup (map snd target) ->
  valueMap m ++ map entry l ≡ₚ target -> coherent (insert_all l m) /\ valueMap (insert_all l m) ≡ₚ target.
Proof.
  intros Hc Hs Hd. revert m Hc. induction l as [|[k v] l IH]; intros m Hc Hp.
  { split; [done|]. rewrite <- Hp. cbn. by rewrite app_nil_r. }
  cbn [insert_all fold_left fst snd]. fold (insert_all l (insertSorted m k v).2).
  assert (Hk : contains m k = false).
  { apply not_true_is_false. rewrite contains_elem by done. intros (k'&w&Hin&He).
    assert (Hkv : (k, Some v) ∈ target) by (rewrite <- Hp; cbn; set_solver).
    apply list_elem_of_split in Hkv as (t1&t2&->).
    rewrite <- Permutation_middle in Hp. cbn [map entry fst snd] in Hp. rewrite <- Permutation_middle in Hp.
    apply Permutation_cons_inv in Hp. pose proof (sorted_apart t1 t2 _ Hs (k', Some w)) as Hq.
    rewrite <- Hp in Hq. cbn [fst] in Hq. rewrite He in Hq. discriminate Hq. set_solver. }
  assert (Hv : v ∉ valueList m).
  { intros Hin. rewrite <- Hp, map_app, (co_values m Hc) in Hd. apply NoDup_app in Hd as (_&Hd&_).
    apply (Hd (Some v)); [apply list_elem_of_fmap; eauto|]. cbn. set_solver. }
  destruct (insertSorted_new m k v Hc Hk Hv) as (l1&l2&v1&v2&El&_&_&_&_&Em&_&Hc').
  apply IH; [done|]. rewrite Em, <- Hp, El. cbn [map entry fst snd].
  rewrite <- (Permutation_middle l1 l2). cbn [app]. by rewrite <- (Permutation_middle (l1 ++ l2)).
Qed.
Lemma insert_all_sorted l target : increasing (map fst target) -> NoDup (map snd target) -> map entry l ≡ₚ target ->
  coherent (insert_all l new) /\ valueMap (insert_all l new) = target.
Proof.
  intros Hs Hd Hp. destruct (insert_all_perm l new target coherent_new Hs Hd Hp) as [Hc Hq].
  split; [done|]. eapply StronglySorted_unique_strong; [|by apply sorted_pairs, Hc|by apply sorted_pairs|done].
  intros p q _ _ Hpq%less_asym Hqp. congruence.
Qed.
End sorted.
