(* ===== verification/SymbolTable.v ===== *)
(** * Symbol tables of the output file: src/generate/concretedeferred.{h,cpp} (symbols)

    [SymbolTableContent] keeps the entries of .symtab or .dynsym sorted: local symbols first,
    as the ELF format asks, and .dynsym in the order of its hash table.  Names go to a table
    of strings. *)

From Stdlib Require Import Sorting.Sorted.
From S2P Require Import Prelude ChunkList Symbols Deferred.

(** ** Keys *)

(** [std::strcmp] on the characters of two C strings *)
Fixpoint strcmp (a b : list Z) : comparison :=
  match a, b with
  | [], [] => Eq
  | [], _ :: _ => Lt
  | _ :: _, [] => Gt
  | x :: a, y :: b => match x ?= y with Eq => strcmp a b | c => c end
  end.
Definition cname (s : Symbol) : list Z := c_string (chars (name s)).

Module SymbolInTable.
Inductive type_t := TYPE_NULL | TYPE_SECTION | TYPE_PLT | TYPE_LOCAL | TYPE_UNDEF | TYPE_GLOBAL.
Definition rank (t : type_t) : Z :=
  match t with
  | TYPE_NULL => 0 | TYPE_SECTION => 1 | TYPE_PLT => 2 | TYPE_LOCAL => 3 | TYPE_UNDEF => 4 | TYPE_GLOBAL => 5
  end.
#[export] Instance type_t_eq_dec : EqDecision type_t.
Proof. solve_decision. Defined.

Record t := mk { type : type_t; sym : option Symbol; tableIndex : Z }.
Definition new (type : type_t) (sym : option Symbol) : t := mk type sym 0.
Definition setTableIndex (k : t) (index : Z) : t := mk (type k) (sym k) index.
(** [getName] *)
Definition getName (k : t) : list Z :=
  match sym k with Some s => cname s | None => chars "(null)" end.

(** [operator <] *)
Definition lt (a b : t) : bool :=
  if tableIndex a <? tableIndex b then true
  else if tableIndex b <? tableIndex a then false
  else if rank (type a) <? rank (type b) then true
  else if rank (type b) <? rank (type a) then false
  else match sym a, sym b with
       | None, Some _ => true
       | Some _, None => false
       | None, None => false
       | Some s, Some s' =>
         match strcmp (cname s) (cname s') with
         | Lt => true
         | Gt => false
         | Eq => swrap 32 (shndx s) <? swrap 32 (shndx s')
         end
       end.
End SymbolInTable.
Import SymbolInTable.

#[export] Instance SymbolInTable_less : Less SymbolInTable.t := SymbolInTable.lt.
#[export] Instance SymbolInTable_inhabited : Inhabited SymbolInTable.t := populate (SymbolInTable.new TYPE_NULL None).

(** ** Entries *)
Record ElfSym := mkElfSym {
  st_name : Z; st_info : Z; st_other : Z; st_shndx : Z; st_value : Z; st_size : Z }.
Definition ELF_ST_INFO (bind type : Z) : Z := u8 (Z.shiftl bind 4 + Z.land type 0xf).
Definition info_of (s : Symbol) : Z :=
  ELF_ST_INFO (Symbol.bindFromInternalToElf (bindingType s)) (Symbol.typeFromInternalToElf (symbolType s)).

(** The table, with the objects it points to, the table of strings and the next pointer
    [new] returns. *)
Record SymbolTable := mkTable {
  entries : DeferredMap SymbolInTable.t;
  objects : gmap ptr (DeferredValueImpl ElfSym);
  strtab : list Z;
  sectionSymbols : list (option ptr);
  firstGlobalIndex : Z;
  fresh : ptr }.

(** A function as [addSymbol] uses it, or a PLT entry. *)
Record CodeView := mkCode { code_name : string; code_address : Z; code_size : Z }.

Module SymbolTableContent.
Definition new (strtab : list Z) : SymbolTable := mkTable DeferredMap.new ∅ strtab [] 0 1.

(** [new DeferredType(symbol)], then [insertSorted], which leaves the object out of a table
    that has the key already. *)
Definition insert (t : SymbolTable) (k : SymbolInTable.t) (e : ElfSym) (strtab' : list Z) (local : bool) : ptr * SymbolTable :=
  let v := fresh t in
  (v, mkTable (DeferredMap.insertSorted (entries t) k v).2 (<[v := DeferredValueImpl.new e]> (objects t)) strtab'
        (sectionSymbols t) (firstGlobalIndex t + (if local then 1 else 0)) (v + 1)).

Definition addNullSymbol (t : SymbolTable) : SymbolTable :=
  let '(i, tab) := DeferredStringList.add (strtab t) [] true in
  (insert t (SymbolInTable.new TYPE_NULL None) (mkElfSym (u32 i) 0 0 0 0 0) tab true).2.

Definition set_section (l : list (option ptr)) (i : nat) (v : ptr) : list (option ptr) :=
  <[i := Some v]> (if (length l <=? i)%nat then l ++ replicate (S i - length l) None else l).
Definition addSectionSymbol (t : SymbolTable) (s : Symbol) : SymbolTable :=
  let e := mkElfSym 0 (info_of s) 0 (u16 (shndx s)) 0 0 in
  let '(v, t') := insert t (SymbolInTable.new TYPE_SECTION (Some s)) e (strtab t) true in
  mkTable (entries t') (objects t') (strtab t') (set_section (sectionSymbols t') (Z.to_nat (shndx s)) v)
    (firstGlobalIndex t') (fresh t').

(** The part the other methods share: a symbol that is there already is returned, others
    are entered under their name. *)
Definition is_local (s : Symbol) : bool := bool_decide (bindingType s = BIND_LOCAL).
Definition enter (t : SymbolTable) (type : type_t) (s : Symbol) (section value size : Z) (local : bool) : ptr * SymbolTable :=
  let '(i, tab) := DeferredStringList.add (strtab t) (cname s) true in
  insert t (SymbolInTable.new type (Some s)) (mkElfSym (u32 i) (info_of s) 0 (u16 section) (u64 value) (u64 size)) tab local.
Definition find_or_enter (t : SymbolTable) (type : type_t) (s : Symbol) (section value size : Z) (local : bool) :
    option ptr * SymbolTable :=
  let k := SymbolInTable.new type (Some s) in
  if DeferredMap.contains (entries t) k then
    let '(v, m) := DeferredMap.find (entries t) k in
    (v, mkTable m (objects t) (strtab t) (sectionSymbols t) (firstGlobalIndex t) (fresh t))
  else let '(v, t') := enter t type s section value size local in (Some v, t').

Definition addSymbol (t : SymbolTable) (func : option CodeView) (s : option Symbol) : res (option ptr * SymbolTable) :=
  s ← (match s, func with
       | Some s, _ => Ok s
       | None, Some f => Ok (Symbol.new 0 0 (code_name f) TYPE_FUNC BIND_GLOBAL 0 0)
       | None, None => Err NullDeref
       end);
  let type := if is_local s then TYPE_LOCAL else if func then TYPE_GLOBAL else TYPE_UNDEF in
  Ok (find_or_enter t type s 0 (from_option code_address 0 func) (from_option code_size 0 func) (is_local s)).
Definition addVarSymbol (t : SymbolTable) (s : option Symbol) (address section size : Z) : res (option ptr * SymbolTable) :=
  match s with
  | None => Err AssertFail
  | Some s => Ok (find_or_enter t (if is_local s then TYPE_LOCAL else TYPE_GLOBAL) s section address size (is_local s))
  end.
(** [var] is the size of the variable, if there is one. *)
Definition addDataVarSymbol (t : SymbolTable) (var : option Z) (s : option Symbol) (address section : Z) :=
  addVarSymbol t s address section (default 0 var).
Definition addGlobalVarSymbol (t : SymbolTable) (s : option Symbol) (address section : Z) :=
  addVarSymbol t s address section (from_option ssize 0 s).
Definition addPLTSymbol (t : SymbolTable) (plt : option CodeView) (s : Symbol) : ptr * SymbolTable :=
  enter t TYPE_PLT s 0 (from_option code_address 0 plt) (from_option code_size 0 plt) true.
Definition addUndefinedSymbol (t : SymbolTable) (s : option Symbol) := addSymbol t None s.

Definition indexOf (t : SymbolTable) (v : ptr) : Z := DeferredMap.indexOf (entries t) v.
(** [section] is the index of the section in the section list. *)
Definition indexOfSectionSymbol (t : SymbolTable) (section : Z) : res Z :=
  v ← load (sectionSymbols t) section;
  Ok (match v with Some v => indexOf t v | None => 2 ^ 64 - 1 end).
Definition recalculateIndices (t : SymbolTable) : SymbolTable :=
  mkTable (DeferredMap.recalculateIndices (entries t)) (objects t) (strtab t) (sectionSymbols t) (firstGlobalIndex t) (fresh t).
End SymbolTableContent.

(** ** The order of the keys

    It is the lexicographic order of a code: table index, type, whether there is a symbol,
    the name with its terminator, the section. *)

Fixpoint lex (a b : list Z) : bool :=
  match a, b with
  | [], _ :: _ => true
  | x :: a, y :: b => if x <? y then true else if y <? x then false else lex a b
  | _, [] => false
  end.
Lemma lex_irrefl a : lex a a = false.
Proof. induction a; cbn; [done|]. by rewrite Z.ltb_irrefl. Qed.
Lemma lex_trans a b c : lex a b = true -> lex b c = true -> lex a c = true.
Proof.
  revert b c. induction a as [|x a IH]; intros [|y b] [|z c]; cbn; try done.
  destruct (Z.ltb_spec x y), (Z.ltb_spec y x), (Z.ltb_spec y z), (Z.ltb_spec z y), (Z.ltb_spec x z), (Z.ltb_spec z x);
    try lia; try done. apply IH.
Qed.
Lemma lex_negtrans a b c : lex a c = true -> lex a b = true \/ lex b c = true.
Proof.
  revert b c. induction a as [|x a IH]; intros [|y b] [|z c]; cbn; try done; auto.
  destruct (Z.ltb_spec x y), (Z.ltb_spec y x), (Z.ltb_spec y z), (Z.ltb_spec z y), (Z.ltb_spec x z), (Z.ltb_spec z x);
    try lia; auto.
Qed.

Definition code (k : SymbolInTable.t) : list Z :=
  tableIndex k :: rank (type k) ::
  match sym k with None => [0] | Some s => 1 :: cname s ++ [0; swrap 32 (shndx s)] end.

Lemma c_string_pos s : Forall (fun c => 0 < c) (c_string (chars s)).
Proof.
  unfold chars. induction (String.list_ascii_of_string s) as [|c l IH]; cbn; [constructor|].
  destruct (Z.eqb_spec (Z.of_N (Ascii.N_of_ascii c)) 0); [constructor|]. constructor; [lia|done].
Qed.

Lemma lex_names a b x y : Forall (fun c => 0 < c) a -> Forall (fun c => 0 < c) b ->
  lex (a ++ [0; x]) (b ++ [0; y]) = match strcmp a b with Lt => true | Gt => false | Eq => x <? y end.
Proof.
  intros Ha. revert b. induction Ha as [|c a Hc Ha IH]; intros b Hb; destruct Hb as [|d b Hd Hb]; cbn.
  - destruct (Z.ltb_spec x y), (Z.ltb_spec y x); done || lia.
  - rewrite (proj2 (Z.ltb_lt 0 d)) by lia. done.
  - rewrite (proj2 (Z.ltb_ge c 0)), (proj2 (Z.ltb_lt 0 c)) by lia. done.
  - unfold Z.ltb. rewrite (Z.compare_antisym c d). destruct (c ?= d); cbn; [by apply IH|done..].
Qed.

Lemma lt_code a b : SymbolInTable.lt a b = lex (code a) (code b).
Proof.
  unfold SymbolInTable.lt, code. cbn [lex]. destruct (tableIndex a <? tableIndex b); [done|].
  destruct (tableIndex b <? tableIndex a); [done|]. destruct (rank (type a) <? rank (type b)); [done|].
  destruct (rank (type b) <? rank (type a)); [done|]. destruct (sym a), (sym b); cbn; try done.
  symmetry. apply lex_names; apply c_string_pos.
Qed.

#[export] Instance SymbolInTable_laws : LessLaws SymbolInTable.t.
Proof.
  split; unfold less, SymbolInTable_less; intros *; rewrite !lt_code;
    [apply lex_irrefl|apply lex_trans|apply lex_negtrans].
Qed.

(** ** Tables *)

(** The types of local symbols come first. *)
Definition local_type (k : SymbolInTable.t) : bool := rank (type k) <? 4.
Definition locals (m : DeferredMap SymbolInTable.t) : list (SymbolInTable.t * option ptr) :=
  filter (fun p => local_type p.1 = true) (valueMap m).

(** An entry carries the name of its symbol. *)
Definition named (t : SymbolTable) (k : SymbolInTable.t) (v : ptr) : Prop :=
  exists d, objects t !! v = Some d /\
    match sym k with
    | Some s => type k = TYPE_SECTION \/ has_string (strtab t) (st_name (elfValue d)) (cname s)
    | None => has_string (strtab t) (st_name (elfValue d)) []
    end.

Record table_ok (t : SymbolTable) : Prop := {
  ok_coherent : coherent (entries t);
  ok_fresh : forall v, v ∈ valueList (entries t) -> v < fresh t;
  ok_named : forall k v, (k, Some v) ∈ valueMap (entries t) -> named t k v;
  ok_index : forall k v, (k, Some v) ∈ valueMap (entries t) -> tableIndex k = 0 }.

(** [firstGlobalIndex] counts the local symbols and [n] more. *)
Definition counted (n : Z) (t : SymbolTable) : Prop := firstGlobalIndex t = Z.of_nat (length (locals (entries t))) + n.

(** *** The insertion of a new key *)
Section insertion.
Context (t : SymbolTable) (k : SymbolInTable.t) (e : ElfSym) (tab : list Z).
Context (Hok : table_ok t) (Hnew : DeferredMap.contains (entries t) k = false) (Hk : tableIndex k = 0).
Let t' := (SymbolTableContent.insert t k e (strtab t ++ tab) (local_type k)).2.

Lemma fresh_out : fresh t ∉ valueList (entries t).
Proof. intros H%(ok_fresh t Hok). lia. Qed.

Lemma insert_ok : named t' k (fresh t) ->
  table_ok t' /\ (forall n, counted n t -> counted n t') /\ (forall k' v, (k', Some v) ∈ valueMap (entries t') <->
    (k', Some v) ∈ valueMap (entries t) \/ (k' = k /\ v = fresh t)).
Proof.
  intros Hnamed.
  destruct (insertSorted_new (entries t) k (fresh t) (ok_coherent t Hok) Hnew fresh_out)
    as (l1&l2&v1&v2&El&Ev&E1&E2&_&Em&En&Hc').
  assert (Hin : forall k' v, (k', Some v) ∈ valueMap (entries t') <->
    (k', Some v) ∈ valueMap (entries t) \/ (k' = k /\ v = fresh t)).
  { intros k' v. unfold t', SymbolTableContent.insert. cbn [snd entries]. rewrite Em, El, !elem_of_app, elem_of_cons.
    split; [intros [?|[[= -> ->]|?]]; auto|intros [[?|?]|[-> ->]]; auto]. }
  split; [|split; [|done]]; [split|].
  - exact Hc'.
  - intros v. unfold t', SymbolTableContent.insert. cbn [snd entries fresh]. rewrite En. intros Hv.
    assert (v = fresh t \/ v ∈ valueList (entries t)) as [->|Hv'] by (rewrite Ev; set_solver); [lia|].
    apply (ok_fresh t Hok) in Hv'. lia.
  - intros k' v [Hv|[-> ->]]%Hin; [|done]. destruct (ok_named t Hok k' v Hv) as (d&Hd&Hs).
    exists d. split.
    + unfold t', SymbolTableContent.insert. cbn [snd objects]. rewrite lookup_insert_ne; [done|].
      intros <-. apply fresh_out. by apply (co_in _ k' _ (ok_coherent t Hok)).
    + unfold t', SymbolTableContent.insert. cbn [snd strtab].
      destruct (sym k'); [destruct Hs as [?|?]; [by left|right]|]; by apply has_string_app.
  - intros k' v [Hv|[-> _]]%Hin; [by apply (ok_index t Hok k' v)|done].
  - intros n Hn. unfold counted, t', SymbolTableContent.insert. cbn [snd firstGlobalIndex entries]. rewrite Hn.
    unfold locals. rewrite Em, El, !filter_app, !length_app, filter_cons. cbn [fst].
    destruct (local_type k); [rewrite decide_True by done|rewrite decide_False by done]; cbn [length]; lia.
Qed.
End insertion.

(** The insertion of a key that is there only makes an object, and counts it. *)
Lemma insert_again t k e tab : table_ok t -> DeferredMap.contains (entries t) k = true -> local_type k = true ->
  let r := SymbolTableContent.insert t k e (strtab t ++ tab) true in
  r.1 ∉ valueList (entries t) /\ entries r.2 = entries t /\ table_ok r.2 /\ forall n, counted n t -> counted (n + 1) r.2.
Proof.
  intros Hok Hc Hl r. pose proof (fresh_out t Hok) as Hf.
  assert (entries r.2 = entries t) as He.
  { unfold r, SymbolTableContent.insert. cbn [snd entries]. unfold DeferredMap.insertSorted. by rewrite Hc. }
  split; [done|]. split; [done|]. split; [split|]; rewrite ?He.
  - apply Hok.
  - intros v Hv%(ok_fresh t Hok). unfold r, SymbolTableContent.insert. cbn [snd fresh]. lia.
  - intros k' v Hv. destruct (ok_named t Hok k' v Hv) as (d&Hd&Hs). exists d. split.
    + unfold r, SymbolTableContent.insert. cbn [snd objects]. rewrite lookup_insert_ne; [done|].
      intros <-. apply Hf. by apply (co_in _ k' _ (ok_coherent t Hok)).
    + unfold r, SymbolTableContent.insert. cbn [snd strtab].
      destruct (sym k'); [destruct Hs as [?|?]; [by left|right]|]; by apply has_string_app.
  - apply Hok.
  - intros n Hn. unfold counted in *. rewrite He. unfold r, SymbolTableContent.insert. cbn [snd firstGlobalIndex]. lia.
Qed.

(** *** Operations *)
Inductive op :=
| AddNull
| AddSection (s : Symbol)
| AddSymbol (func : option CodeView) (s : option Symbol)
| AddDataVar (var : option Z) (s : option Symbol) (address section : Z)
| AddGlobalVar (s : option Symbol) (address section : Z)
| AddPLT (plt : option CodeView) (s : Symbol)
| AddUndefined (s : option Symbol).

Import SymbolTableContent.
Definition apply_op (t : SymbolTable) (o : op) : res (option ptr * SymbolTable) :=
  match o with
  | AddNull => Ok (None, addNullSymbol t)
  | AddSection s => Ok (None, addSectionSymbol t s)
  | AddSymbol f s => addSymbol t f s
  | AddDataVar v s a n => addDataVarSymbol t v s a n
  | AddGlobalVar s a n => addGlobalVarSymbol t s a n
  | AddPLT p s => let '(v, t) := addPLTSymbol t p s in Ok (Some v, t)
  | AddUndefined s => addUndefinedSymbol t s
  end.

(** The methods that do not look for an entry first, called for a key that is there. *)
Definition repeated (t : SymbolTable) (o : op) : bool :=
  match o with
  | AddNull => DeferredMap.contains (entries t) (SymbolInTable.new TYPE_NULL None)
  | AddSection s => DeferredMap.contains (entries t) (SymbolInTable.new TYPE_SECTION (Some s))
  | AddPLT _ s => DeferredMap.contains (entries t) (SymbolInTable.new TYPE_PLT (Some s))
  | _ => false
  end.

(** The tables that sequences of operations make, with the number of repeated ones; an offset into the
    string table has 32 bits. *)
Inductive built : Z -> SymbolTable -> Prop :=
| built_new tab : built 0 (SymbolTableContent.new tab)
| built_op n t o v t' : built n t -> Z.of_nat (length (strtab t)) < 2 ^ 32 -> apply_op t o = Ok (v, t') ->
    built (n + if repeated t o then 1 else 0) t'.

Lemma new_ok tab : table_ok (SymbolTableContent.new tab).
Proof.
  split; cbn; [apply coherent_new| | |].
  all: intros * Hin; by apply elem_of_nil in Hin.
Qed.

Lemma named_insert t k e tab b : match sym k with
    | Some s => type k = TYPE_SECTION \/ has_string tab (st_name e) (cname s)
    | None => has_string tab (st_name e) [] end ->
  named (insert t k e tab b).2 k (fresh t).
Proof. intros Hs. exists (DeferredValueImpl.new e). split; [apply lookup_insert_eq|done]. Qed.

Lemma enter_ok t ty s sec value size : table_ok t -> Z.of_nat (length (strtab t)) < 2 ^ 32 ->
  DeferredMap.contains (entries t) (SymbolInTable.new ty (Some s)) = false ->
  let b := local_type (SymbolInTable.new ty (Some s)) in
  table_ok (enter t ty s sec value size b).2 /\
  (forall n, counted n t -> counted n (enter t ty s sec value size b).2) /\
  (enter t ty s sec value size b).1 ∈ valueList (entries (enter t ty s sec value size b).2).
Proof.
  intros Hok Hl Hn b. unfold enter. cbn [DeferredStringList.add].
  match goal with |- context [insert t ?k ?e ?tab b] => 
    destruct (insert_ok t k e (cname s ++ [0]) Hok Hn eq_refl) as (Hok'&Hn'&Hin); [|split; [exact Hok'|split; [exact Hn'|]]] end.
  - apply named_insert. right. apply has_string_add; [apply c_string_pos|done].
  - apply (co_in _ (SymbolInTable.new ty (Some s)) _ (ok_coherent _ Hok')). apply Hin. by right.
Qed.

Lemma find_or_enter_ok t ty s sec value size : table_ok t -> Z.of_nat (length (strtab t)) < 2 ^ 32 ->
  let b := local_type (SymbolInTable.new ty (Some s)) in
  let r := find_or_enter t ty s sec value size b in
  table_ok r.2 /\ (forall n, counted n t -> counted n r.2) /\ exists v, r.1 = Some v /\ v ∈ valueList (entries r.2).
Proof.
  intros Hok Hl b. unfold find_or_enter. destruct (DeferredMap.contains _ _) eqn:Hc.
  - pose proof Hc as Hc'. unfold DeferredMap.contains in Hc. unfold DeferredMap.find.
    destruct (DeferredMap.lookup (valueMap (entries t)) (SymbolInTable.new ty (Some s))) as [o|] eqn:El; [|done].
    cbn [fst snd]. destruct t as [m ob tab ss f fr]. split; [done|]. split; [done|]. cbn [entries] in *.
    apply lookup_value in El as (v&->&Hv); [|apply Hok]. by exists v.
  - destruct (enter_ok t ty s sec value size Hok Hl Hc) as (H1&H2&H3). fold b in H1, H2, H3.
    destruct (enter t ty s sec value size b) as [v t']. cbn [fst snd] in *. eauto.
Qed.

Lemma is_local_type ty s : (is_local s = true -> ty = TYPE_LOCAL) -> (is_local s = false -> ty = TYPE_GLOBAL \/ ty = TYPE_UNDEF) ->
  is_local s = local_type (SymbolInTable.new ty (Some s)).
Proof. intros H1 H2. destruct (is_local s); [by rewrite H1|]. by destruct H2 as [-> | ->]. Qed.

(** What every operation keeps; the result is an entry, unless a repeated operation made an object. *)
Definition outcome (t : SymbolTable) (again : bool) (v : option ptr) (t' : SymbolTable) : Prop :=
  table_ok t' /\ (forall n, counted n t -> counted (n + if again then 1 else 0) t') /\
  forall w, v = Some w -> if again then entries t' = entries t /\ w ∉ valueList (entries t) else w ∈ valueList (entries t').
Lemma outcome_new t v t' : table_ok t' -> (forall n, counted n t -> counted n t') ->
  (forall w, v = Some w -> w ∈ valueList (entries t')) -> outcome t false v t'.
Proof. intros H1 H2 H3. split; [done|]. split; [|done]. intros n. rewrite Z.add_0_r. apply H2. Qed.

Lemma addNull_ok t : table_ok t -> Z.of_nat (length (strtab t)) < 2 ^ 32 -> outcome t (repeated t AddNull) None (addNullSymbol t).
Proof.
  intros Hok Hl. unfold addNullSymbol. cbn [DeferredStringList.add repeated]. destruct (DeferredMap.contains _ _) eqn:Ha.
  - destruct (insert_again t (SymbolInTable.new TYPE_NULL None) (mkElfSym (u32 (Z.of_nat (length (strtab t)))) 0 0 0 0 0) ([] ++ [0]) Hok Ha eq_refl) as (_&_&H1&H2). by split.
  - destruct (insert_ok t (SymbolInTable.new TYPE_NULL None) (mkElfSym (u32 (Z.of_nat (length (strtab t)))) 0 0 0 0 0) ([] ++ [0]) Hok Ha eq_refl) as (H1&H2&_);
      [apply named_insert; by apply has_string_add|by apply outcome_new].
Qed.
Lemma addSection_ok t s : table_ok t -> outcome t (repeated t (AddSection s)) None (addSectionSymbol t s).
Proof.
  intros Hok. unfold addSectionSymbol. cbn [repeated]. set (e := mkElfSym 0 _ 0 _ 0 0).
  assert (forall b t1, table_ok t1 -> (forall n, counted n t -> counted (n + if b : bool then 1 else 0) t1) -> 
    forall l, outcome t b None (mkTable (entries t1) (objects t1) (strtab t1) l (firstGlobalIndex t1) (fresh t1))) as Hset.
  { intros b t1 H1 H2 l. by split; [destruct H1; split|split]. }
  destruct (DeferredMap.contains _ _) eqn:Ha.
  - destruct (insert_again t _ e [] Hok Ha eq_refl) as (_&_&H1&H2). rewrite app_nil_r in *.
    destruct (insert _ _ _ _ _) as [w t1]. by apply Hset.
  - destruct (insert_ok t _ e [] Hok Ha eq_refl) as (H1&H2&_); [apply named_insert; by left|]. rewrite app_nil_r in *.
    change (local_type _) with true in *. destruct (insert _ _ _ _ _) as [w t1]. apply Hset; [done|]. intros n. rewrite Z.add_0_r. apply H2.
Qed.
Lemma addPLT_ok t p s v t' : table_ok t -> Z.of_nat (length (strtab t)) < 2 ^ 32 -> addPLTSymbol t p s = (v, t') ->
  outcome t (repeated t (AddPLT p s)) (Some v) t'.
Proof.
  intros Hok Hl. unfold addPLTSymbol. cbn [repeated]. destruct (DeferredMap.contains _ _) eqn:Ha.
  - unfold enter. cbn [DeferredStringList.add]. set (e := mkElfSym _ _ _ _ _ _).
    destruct (insert_again t _ e (cname s ++ [0]) Hok Ha eq_refl) as (H1&H2&H3&H4).
    destruct (insert _ _ _ _ _) as [w t1]. intros [= <- <-]. split; [done|]. split; [done|]. by intros w' [= <-].
  - destruct (enter_ok t TYPE_PLT s 0 (from_option code_address 0 p) (from_option code_size 0 p) Hok Hl Ha) as (H1&H2&H3).
    change (local_type _) with true in *. destruct (enter _ _ _ _ _ _ _) as [w t1]. intros [= <- <-]. apply outcome_new; [done|done|]. by intros w' [= <-].
Qed.

Lemma apply_ok t o v t' : table_ok t -> Z.of_nat (length (strtab t)) < 2 ^ 32 -> apply_op t o = Ok (v, t') ->
  outcome t (repeated t o) v t'.
Proof.
  intros Hok Hl. assert (Hvar : forall ty s sec value size, 
    (is_local s = true -> ty = TYPE_LOCAL) -> (is_local s = false -> ty = TYPE_GLOBAL \/ ty = TYPE_UNDEF) ->
    find_or_enter t ty s sec value size (is_local s) = (v, t') -> outcome t false v t').
  { intros ty s sec value size H1 H2 E. rewrite (is_local_type ty s H1 H2) in E.
    destruct (find_or_enter_ok t ty s sec value size Hok Hl) as (H3&H4&w&Hw&Hin). rewrite E in *. cbn in *.
    apply outcome_new; [done|done|]. intros w' ->. by injection Hw as ->. }
  assert (Hsym : forall f s, addSymbol t f s = Ok (v, t') -> outcome t false v t').
  { intros f s (s'&_&E)%bind_Ok. injection E as E. eapply Hvar; [| |exact E]; intros ->; [done|destruct f; auto]. }
  destruct o; cbn [apply_op]; intros E; [| |by eapply Hsym| | | |by eapply Hsym].
  - injection E as <- <-. by apply addNull_ok.
  - injection E as <- <-. by apply addSection_ok.
  - destruct s as [s|]; [|done]. injection E as E. eapply Hvar; [| |exact E]; intros ->; auto.
  - destruct s as [s|]; [|done]. injection E as E. eapply Hvar; [| |exact E]; intros ->; auto.
  - destruct (addPLTSymbol t plt s) as [w t1] eqn:Ep. injection E as <- <-. by eapply addPLT_ok.
Qed.

Lemma built_ok n t : built n t -> table_ok t /\ counted n t.
Proof.
  induction 1 as [tab|n t o v t' _ [Hok Hn] Hl E]; [split; [apply new_ok|done]|].
  destruct (apply_ok t o v t' Hok Hl E) as (H1&H2&_). auto.
Qed.

(** Keys with one table index are ordered by type. *)
Lemma locals_first ks : increasing ks -> Forall (fun k => tableIndex k = 0) ks -> exists ls gs,
  ks = ls ++ gs /\ Forall (fun k => local_type k = true) ls /\ Forall (fun k => local_type k = false) gs.
Proof.
  intros Hs Hi. induction Hs as [|k ks Hs IH Hlt]; [by exists [], []|]. apply Forall_cons in Hi as [Hk Hi].
  destruct (IH Hi) as (ls&gs&->&H1&H2). destruct (local_type k) eqn:E.
  - exists (k :: ls), gs. split; [done|]. split; [by constructor|done].
  - exists [], (k :: ls ++ gs). split; [done|]. split; [done|]. constructor; [done|].
    apply Forall_forall. intros k' Hk'. pose proof (proj1 (Forall_forall _ _) Hlt _ Hk') as Hless.
    pose proof (proj1 (Forall_forall _ _) Hi _ Hk') as Hk0. cbn beta in Hk0.
    unfold less, SymbolInTable_less in Hless. rewrite lt_code in Hless. unfold code in Hless. cbn [lex] in Hless.
    rewrite Hk, Hk0 in Hless. cbn in Hless. unfold local_type in *.
    destruct (Z.ltb_spec (rank (type k)) (rank (type k'))); [zbool; apply Z.ltb_ge; lia|].
    destruct (Z.ltb_spec (rank (type k')) (rank (type k))); [done|]. zbool. apply Z.ltb_ge. lia.
Qed.

Lemma filter_keys (l : list (SymbolInTable.t * option ptr)) :
  filter (fun k => local_type k = true) (map fst l) = map fst (filter (fun p => local_type p.1 = true) l).
Proof.
  induction l as [|[k o] l IH]; [done|]. cbn [map fst]. rewrite !filter_cons. cbn [fst].
  destruct (decide (local_type k = true)); cbn [map fst]; by rewrite IH.
Qed.
Lemma filter_all_true (l : list SymbolInTable.t) : Forall (fun k => local_type k = true) l ->
  filter (fun k => local_type k = true) l = l.
Proof. induction 1; [done|]. rewrite filter_cons_True by done. by f_equal. Qed.
Lemma filter_all_false (l : list SymbolInTable.t) : Forall (fun k => local_type k = false) l ->
  filter (fun k => local_type k = true) l = [].
Proof. induction 1; [done|]. rewrite filter_cons_False by congruence. done. Qed.


Module SymbolTableExamples.
Definition symbol (n : string) (b : BindingType) (section : Z) : Symbol := Symbol.new 0x1000 8 n TYPE_FUNC b 0 section.
Definition code_view : CodeView := mkCode "f" 0x1000 8.
Definition ops : list op :=
  [AddNull; AddSymbol (Some code_view) (Some (symbol "main" BIND_GLOBAL 1));
   AddUndefined (Some (symbol "puts" BIND_GLOBAL 0)); AddSymbol (Some code_view) (Some (symbol "helper" BIND_LOCAL 1));
   AddSection (symbol "" BIND_LOCAL 3); AddPLT (Some code_view) (symbol "exit" BIND_GLOBAL 0)].
Fixpoint apply_all (t : SymbolTable) (l : list op) : option SymbolTable :=
  match l with
  | [] => Some t
  | o :: l => match apply_op t o with Ok (_, t) => apply_all t l | Err _ => None end
  end.
Definition table : SymbolTable := default (new []) (apply_all (new []) ops).

Fixpoint good (t : SymbolTable) (l : list op) : Prop :=
  match l with
  | [] => True
  | o :: l => repeated t o = false /\ Z.of_nat (length (strtab t)) < 2 ^ 32 /\ match apply_op t o with Ok (_, t) => good t l | Err _ => False end
  end.
Lemma good_built l t : built 0 t -> good t l -> built 0 (default (new []) (apply_all t l)).
Proof.
  revert t. induction l as [|o l IH]; intros t Hb Hg; [done|]. destruct Hg as (Hr&Ha&Hg). cbn [apply_all].
  destruct (apply_op t o) as [[v t']|e] eqn:E; [|done]. apply IH; [|done].
  replace 0 with (0 + if repeated t o then 1 else 0) by by rewrite Hr. by eapply built_op.
Qed.
Lemma table_built : built 0 table.
Proof. apply good_built; [apply built_new|]. vm_compute. repeat split; done. Qed.


(** A second PLT entry for the same name: the counter moves on although nothing is entered,
    and the entry that is returned has no index. *)
Example duplicate_plt :
  let '(v, t) := addPLTSymbol table (Some code_view) (symbol "exit" BIND_GLOBAL 0) in
  firstGlobalIndex t = firstGlobalIndex table + 1 /\ valueList (entries t) = valueList (entries table) /\
  indexOf (recalculateIndices t) v = 2 ^ 64 - 1.
Proof. vm_compute. auto. Qed.
End SymbolTableExamples.
