(* ===== verification/GnuHash.v ===== *)
(** * The hash table of dynamic symbols: [MakeDynsymHash] of src/generate/concrete.cpp

    The symbols of .dynsym from the first defined one on are put in buckets by the hash of
    their name; .gnu.hash holds the buckets and the chains, and .dynsym is sorted again so
    that the symbols of a bucket follow each other. *)

From S2P Require Import Prelude ChunkList Symbols Deferred SymbolTable.

(** ** The code *)

(** [bfd_elf_gnu_hash]: an [unsigned long] of 64 bits, cut at the end *)
Fixpoint gnu_hash_from (h : Z) (name : list Z) : Z :=
  match name with [] => h | ch :: name => gnu_hash_from (u64 (u64 (u64 (Z.shiftl h 5) + h) + ch)) name end.
Definition bfd_elf_gnu_hash (name : list Z) : Z := Z.land (gnu_hash_from 5381 name) 0xffffffff.

Definition bucket_count : nat := 1011.

Module MakeDynsymHash.

(** [bucketList[hash % size].push_back(name)] *)
Definition push (buckets : list (list (list Z))) (name : list Z) : list (list (list Z)) :=
  let b := Z.to_nat (bfd_elf_gnu_hash name mod Z.of_nat (length buckets)) in
  alter (fun l => l ++ [name]) b buckets.

(** The loop over .dynsym *)
Fixpoint scan (t : SymbolTable) (l : list ptr) (hashing : bool) (first : Z) (buckets : list (list (list Z))) :
    res (Z * list (list (list Z))) :=
  match l with
  | [] => Ok (first, buckets)
  | v :: l =>
    match objects t !! v with
    | None => Err Undefined
    | Some d =>
      let hashing := hashing || negb (st_value (elfValue d) =? 0) in
      if hashing then scan t l hashing first (push buckets (string_at (strtab t) (st_name (elfValue d))))
      else scan t l hashing (first + 1) buckets
    end
  end.

(** [indexMap]: the position of every hashed name in the order of the buckets *)
Definition number_names (buckets : list (list (list Z))) : gmap (list Z) Z := number (concat buckets) 0 ∅.

Definition bloomShift : Z := 5.
Definition bloomList : list Z := replicate 256 (2 ^ 64 - 1).

(** The entries of the bucket list *)
Fixpoint bucket_words (buckets : list (list (list Z))) (symIndex : Z) : list Z :=
  match buckets with
  | [] => []
  | b :: buckets =>
    match b with
    | [] => 0 :: bucket_words buckets symIndex
    | _ => u32 symIndex :: bucket_words buckets (symIndex + Z.of_nat (length b))
    end
  end.
(** The chain of a bucket; the last symbol is marked. *)
Definition chain_word (bucket : list (list Z)) (name : list Z) : Z :=
  u32 (u32 (Z.ldiff (bfd_elf_gnu_hash name) 1) + (if bool_decide (Some name = last bucket) then 1 else 0)).
Definition chain_words (buckets : list (list (list Z))) : list Z := flat_map (fun b => map (chain_word b) b) buckets.

Definition stream (first : Z) (buckets : list (list (list Z))) : list Z :=
  let s := fold_left DeferredIntegerList.add32
    [Z.of_nat (length buckets); u32 first; Z.of_nat (length bloomList); bloomShift] [] in
  let s := fold_left DeferredIntegerList.add64 bloomList s in
  let s := fold_left DeferredIntegerList.add32 (bucket_words buckets first) s in
  fold_left DeferredIntegerList.add32 (chain_words buckets) s.

(** [setTableIndex] for the names that are hashed *)
Definition rekey (names : gmap (list Z) Z) (k : SymbolInTable.t) : SymbolInTable.t :=
  match names !! SymbolInTable.getName k with Some i => SymbolInTable.setTableIndex k i | None => k end.
(** The sorting of .dynsym: the values are entered again under their new keys. *)
Fixpoint reinsert (names : gmap (list Z) Z) (old : list (SymbolInTable.t * option ptr)) (m : DeferredMap SymbolInTable.t) :
    res (DeferredMap SymbolInTable.t) :=
  match old with
  | [] => Ok m
  | (k, Some v) :: old => reinsert names old (DeferredMap.insertSorted m (rekey names k) v).2
  | (_, None) :: _ => Err NullDeref
  end.

(** The bytes of .gnu.hash, and the table. *)
Definition execute (t : SymbolTable) : res (list Z * SymbolTable) :=
  let t := SymbolTableContent.recalculateIndices t in
  '(first, buckets) ← scan t (valueList (entries t)) false 0 (replicate bucket_count []);
  let names := number_names buckets in
  m ← reinsert names (valueMap (entries t)) (DeferredMap.clearAll (entries t));
  Ok (stream first buckets,
      SymbolTableContent.recalculateIndices
        (mkTable m (objects t) (strtab t) (sectionSymbols t) (firstGlobalIndex t) (fresh t))).
End MakeDynsymHash.

(** ** What the dynamic linker does with it *)
Module Linker.
Section lookup.
(** The bytes of .gnu.hash, and the name of the symbol at an index of .dynsym. *)
Context (hash_section : list Z) (symbol_name : Z -> option (list Z)).

Definition word (n : nat) (offset : Z) : Z := le_value (take n (drop (Z.to_nat offset) hash_section)).
Definition nbuckets : Z := word 4 0.
Definition symoffset : Z := word 4 4.
Definition bloom_size : Z := word 4 8.
Definition bloom_shift : Z := word 4 12.
Definition bloom (i : Z) : Z := word 8 (16 + 8 * i).
Definition bucket (i : Z) : Z := word 4 (16 + 8 * bloom_size + 4 * i).
Definition chain (i : Z) : Z := word 4 (16 + 8 * bloom_size + 4 * nbuckets + 4 * i).

(** The hash of the linker, in 32 bits *)
Definition dl_new_hash (name : list Z) : Z := fold_left (fun h c => u32 (h * 33 + c)) name 5381.

Definition bloom_passes (hash : Z) : bool :=
  let w := bloom ((hash / 64) mod bloom_size) in
  Z.testbit w (hash mod 64) && Z.testbit w (Z.shiftr hash bloom_shift mod 64).

Fixpoint walk (fuel : nat) (name : list Z) (hash i : Z) : option Z :=
  match fuel with
  | O => None
  | S fuel =>
    let h := chain (i - symoffset) in
    if (Z.shiftr (Z.lxor h hash) 1 =? 0) && bool_decide (symbol_name i = Some name) then Some i
    else if Z.testbit h 0 then None
    else walk fuel name hash (i + 1)
  end.
Definition lookup (name : list Z) : option Z :=
  let hash := dl_new_hash name in
  if bloom_passes hash then
    let i := bucket (hash mod nbuckets) in
    if i =? 0 then None else walk (length hash_section) name hash i
  else None.
End lookup.
End Linker.

(** The name of a symbol of a table, by its index. *)
Definition name_at (t : SymbolTable) (i : Z) : option (list Z) :=
  if i <? 0 then None
  else v ← valueList (entries t) !! Z.to_nat i; d ← objects t !! v; Some (string_at (strtab t) (st_name (elfValue d))).
