(* ===== verification/GnuHashProofs.v ===== *)
(** * The dynamic linker finds every hashed symbol *)

From Stdlib Require Import Sorting.Sorted.
From S2P Require Import Prelude ChunkList Symbols Deferred SymbolTable GnuHash.
Import MakeDynsymHash SymbolInTable.

(** ** The hash functions agree *)

Lemma gnu_hash_mod name h h' : h mod 2 ^ 32 = h' ->
  gnu_hash_from h name mod 2 ^ 32 = fold_left (fun h c => u32 (h * 33 + c)) name h'.
Proof.
  revert h h'. induction name as [|c name IH]; intros h h' Hh; cbn [gnu_hash_from fold_left]; [done|].
  apply IH. rewrite wrap_mod by lia. unfold wrap at 3. rewrite <- Hh, Z.shiftl_mul_pow2 by lia.
  rewrite <- (Zplus_mod_idemp_l (u64 (u64 (h * 2 ^ 5) + h))), wrap_mod by lia.
  rewrite <- (Zplus_mod_idemp_l (u64 (h * 2 ^ 5))), wrap_mod by lia.
  rewrite !Zplus_mod_idemp_l, <- (Zplus_mod_idemp_l (h mod 2 ^ 32 * 33)), Zmult_mod_idemp_l, Zplus_mod_idemp_l.
  rewrite <- Z.add_assoc, Zplus_mod_idemp_l. f_equal. lia.
Qed.
Lemma hash_agrees name : bfd_elf_gnu_hash name = Linker.dl_new_hash name.
Proof.
  unfold bfd_elf_gnu_hash, Linker.dl_new_hash. change 0xffffffff with (Z.ones 32). rewrite Z.land_ones by lia.
  by apply gnu_hash_mod.
Qed.
Lemma hash_range name : 0 <= bfd_elf_gnu_hash name < 2 ^ 32.
Proof. unfold bfd_elf_gnu_hash. change 0xffffffff with (Z.ones 32). rewrite Z.land_ones by lia. apply Z.mod_pos_bound. lia. Qed.

(** ** Reading the stream *)

Definition words (n : nat) (ws : list Z) : list Z := concat (map (le_bytes n) ws).
Lemma words_length n ws : length (words n ws) = (n * length ws)%nat.
Proof.
  induction ws as [|w ws IH]; [cbn; lia|]. unfold words in *. cbn [map concat length].
  rewrite length_app, le_bytes_length, IH. lia.
Qed.
Lemma fold_add32 ws s : fold_left DeferredIntegerList.add32 ws s = s ++ words 4 ws.
Proof.
  revert s. induction ws as [|w ws IH]; intros s; cbn [fold_left]; [by rewrite app_nil_r|].
  rewrite IH. unfold DeferredIntegerList.add32. by rewrite <- (assoc_L (++)).
Qed.
Lemma fold_add64 ws s : fold_left DeferredIntegerList.add64 ws s = s ++ words 8 ws.
Proof.
  revert s. induction ws as [|w ws IH]; intros s; cbn [fold_left]; [by rewrite app_nil_r|].
  rewrite IH. unfold DeferredIntegerList.add64. by rewrite <- (assoc_L (++)).
Qed.
Lemma words_drop n ws i w rest : ws !! i = Some w ->
  take n (drop (n * i) (words n ws ++ rest)) = le_bytes n w.
Proof.
  revert i. induction ws as [|x ws IH]; intros i Hi; [done|]. unfold words. cbn [map concat]. fold (words n ws).
  destruct i as [|i]; cbn in Hi.
  - injection Hi as ->. rewrite Nat.mul_0_r, drop_0, <- (assoc_L (++)).
    rewrite take_app_le, take_ge by (rewrite le_bytes_length; lia). done.
  - replace (n * S i)%nat with (n + n * i)%nat by lia. rewrite <- drop_drop, <- (assoc_L (++)).
    rewrite (drop_app_length' (le_bytes n x)) by (by rewrite le_bytes_length). by apply IH.
Qed.

(** A word of a section that is made of a prefix, words and a rest. *)
Lemma word_read n ws i w pre rest section o : section = pre ++ words n ws ++ rest ->
  o = Z.of_nat (length pre) + Z.of_nat n * Z.of_nat i -> ws !! i = Some w -> 0 <= w < 256 ^ Z.of_nat n ->
  Linker.word section n o = w.
Proof.
  intros -> -> Hi Hw. unfold Linker.word.
  replace (Z.to_nat (Z.of_nat (length pre) + Z.of_nat n * Z.of_nat i)) with (length pre + n * i)%nat by lia.
  rewrite <- drop_drop, drop_app_length, (words_drop n ws i w) by done. by apply le_value_bytes.
Qed.

Section read.
Context (first : Z) (buckets : list (list (list Z))).
Let section := stream first buckets.
Let header := [Z.of_nat (length buckets); u32 first; Z.of_nat (length bloomList); bloomShift].

Lemma stream_parts : section = words 4 header ++ words 8 bloomList ++ words 4 (bucket_words buckets first) ++ words 4 (chain_words buckets).
Proof. unfold section, stream. rewrite fold_add32, fold_add32, fold_add64, fold_add32. cbn [app]. by rewrite <- !(assoc_L (++)). Qed.

Lemma bucket_words_length bs i : length (bucket_words bs i) = length bs.
Proof. revert i. induction bs as [|[|n b] bs IH]; intros i; cbn [bucket_words length]; [done|by rewrite IH..]. Qed.

Hypothesis Hcount : Z.of_nat (length buckets) < 2 ^ 32.

Lemma header_word i w : header !! i = Some w -> 0 <= w < 2 ^ 32 -> Linker.word section 4 (4 * Z.of_nat i) = w.
Proof. intros Hi Hw. apply (word_read 4 header i w [] _ _ _ stream_parts); [done|done|done]. Qed.
Lemma read_nbuckets : Linker.nbuckets section = Z.of_nat (length buckets).
Proof. apply (header_word 0); [done|lia]. Qed.
Lemma read_symoffset : Linker.symoffset section = u32 first.
Proof. apply (header_word 1); [done|by apply wrap_range]. Qed.
Lemma read_bloom_size : Linker.bloom_size section = 256.
Proof. apply (header_word 2); [done|lia]. Qed.
Lemma read_bloom i : 0 <= i < 256 -> Linker.bloom section i = 2 ^ 64 - 1.
Proof.
  intros Hi. unfold Linker.bloom.
  apply (word_read 8 bloomList (Z.to_nat i) _ (words 4 header) _ _ _ stream_parts).
  - rewrite words_length. cbn [length header]. lia.
  - unfold bloomList. apply lookup_replicate. split; [done|lia].
  - done.
Qed.
Lemma read_bucket i w : bucket_words buckets first !! i = Some w -> 0 <= w < 2 ^ 32 ->
  Linker.bucket section (Z.of_nat i) = w.
Proof.
  intros Hi Hw. unfold Linker.bucket. rewrite read_bloom_size.
  apply (word_read 4 (bucket_words buckets first) i w (words 4 header ++ words 8 bloomList) (words 4 (chain_words buckets)));
    [by rewrite stream_parts, <- !(assoc_L (++))| |done|done].
  rewrite length_app, !words_length. cbn [length header]. unfold bloomList. rewrite length_replicate. lia.
Qed.
Lemma read_chain i w : chain_words buckets !! i = Some w -> 0 <= w < 2 ^ 32 -> Linker.chain section (Z.of_nat i) = w.
Proof.
  intros Hi Hw. unfold Linker.chain. rewrite read_bloom_size, read_nbuckets.
  apply (word_read 4 (chain_words buckets) i w (words 4 header ++ words 8 bloomList ++ words 4 (bucket_words buckets first)) []);
    [by rewrite stream_parts, app_nil_r, <- !(assoc_L (++))| |done|done].
  rewrite !length_app, !words_length, bucket_words_length. cbn [length header]. unfold bloomList. rewrite length_replicate. lia.
Qed.
End read.

(** ** The buckets *)

Definition bucket_of (n : list Z) : nat := Z.to_nat (bfd_elf_gnu_hash n mod Z.of_nat bucket_count).
Lemma bucket_of_lt n : (bucket_of n < bucket_count)%nat.
Proof.
  unfold bucket_of. pose proof (Z.mod_pos_bound (bfd_elf_gnu_hash n) (Z.of_nat bucket_count) ltac:(done)). lia.
Qed.
Definition in_bucket (names : list (list Z)) (b : nat) : list (list Z) := filter (fun n => bucket_of n = b) names.
Definition all_buckets (names : list (list Z)) : list (list (list Z)) := map (in_bucket names) (seq 0 bucket_count).

Lemma all_buckets_length names : length (all_buckets names) = bucket_count.
Proof. unfold all_buckets. by rewrite length_map, length_seq. Qed.
Lemma alter_map_seq {A} (f : A -> A) (F : nat -> A) k i :
  alter f i (map F (seq 0 k)) = map (fun b => if decide (i = b) then f (F b) else F b) (seq 0 k).
Proof.
  apply list_eq. intros b. rewrite list_lookup_alter, !list_lookup_fmap.
  destruct (decide (i = b)) as [->|Hne]; destruct (seq 0 k !! b) as [b'|] eqn:Eb; cbn; try done.
  all: apply lookup_seq in Eb as [-> _]; cbn; by rewrite ?decide_True, ?decide_False by done.
Qed.
Lemma push_alter B n : length B = bucket_count -> push B n = alter (fun l => l ++ [n]) (bucket_of n) B.
Proof. intros Hl. unfold push, bucket_of. by rewrite Hl. Qed.
Lemma bucket_snoc names n b : in_bucket (names ++ [n]) b =
  if decide (bucket_of n = b) then in_bucket names b ++ [n] else in_bucket names b.
Proof.
  unfold in_bucket. rewrite filter_app. destruct (decide (bucket_of n = b)); [by rewrite (filter_cons_True _ n)|].
  by rewrite (filter_cons_False _ n), app_nil_r.
Qed.
Lemma push_spec names n : push (all_buckets names) n = all_buckets (names ++ [n]).
Proof.
  rewrite push_alter by apply all_buckets_length. unfold all_buckets. rewrite alter_map_seq.
  apply map_ext. intros b. by rewrite bucket_snoc.
Qed.
Lemma fold_left_snoc {A B} (f : B -> A -> B) (F : list A -> B) l l0 :
  (forall l x, f (F l) x = F (l ++ [x])) -> fold_left f l (F l0) = F (l0 ++ l).
Proof.
  intros Hf. revert l0. induction l as [|x l IH]; intros l0; cbn [fold_left]; [by rewrite app_nil_r|].
  rewrite Hf, IH. by rewrite <- (assoc_L (++)).
Qed.
Lemma push_all names names0 : fold_left push names (all_buckets names0) = all_buckets (names0 ++ names).
Proof. apply fold_left_snoc, push_spec. Qed.
Lemma no_buckets : replicate bucket_count [] = all_buckets [].
Proof.
  unfold all_buckets. generalize bucket_count, 0%nat. intros k.
  induction k as [|k IH]; intros a; cbn [replicate seq map]; [done|]. by rewrite <- IH.
Qed.

Lemma filter_split {A} (P Q R : A -> Prop) `{!forall x, Decision (P x), !forall x, Decision (Q x), !forall x, Decision (R x)} (l : list A) :
  (forall x, P x <-> Q x \/ R x) -> (forall x, Q x -> R x -> False) -> filter P l ≡ₚ filter Q l ++ filter R l.
Proof.
  intros HP HQR. induction l as [|x l IH]; [done|]. rewrite !filter_cons.
  destruct (decide (P x)) as [p|p], (decide (Q x)) as [q|q], (decide (R x)) as [r|r]; try (exfalso; specialize (HP x); specialize (HQR x); tauto).
  - cbn. by f_equiv.
  - rewrite <- Permutation_middle. by f_equiv.
  - done.
Qed.

Lemma concat_buckets names k : concat (map (in_bucket names) (seq 0 k)) ≡ₚ filter (fun n => (bucket_of n < k)%nat) names.
Proof.
  induction k as [|k IH].
  - cbn. induction names as [|n names IHn]; [done|]. rewrite filter_cons_False by lia. done.
  - rewrite seq_S, map_app, concat_app, IH. cbn [map concat plus]. rewrite app_nil_r. symmetry.
    apply filter_split; intros; lia.
Qed.
Lemma concat_all names : concat (all_buckets names) ≡ₚ names.
Proof.
  unfold all_buckets. rewrite concat_buckets. induction names as [|n names IH]; [done|].
  rewrite filter_cons_True by apply bucket_of_lt. by f_equiv.
Qed.

(** *** The scan *)
Section scan.
Context (t : SymbolTable).
Definition sym_name (v : ptr) : list Z :=
  match objects t !! v with Some d => string_at (strtab t) (st_name (elfValue d)) | None => [] end.
Definition defined (v : ptr) : bool :=
  match objects t !! v with Some d => negb (st_value (elfValue d) =? 0) | None => false end.

Lemma sym_name_at v d : objects t !! v = Some d -> sym_name v = string_at (strtab t) (st_name (elfValue d)).
Proof. intros Hd. unfold sym_name. by rewrite Hd. Qed.

Lemma scan_hashing l first buckets : Forall (fun v => is_Some (objects t !! v)) l ->
  scan t l true first buckets = Ok (first, fold_left push (map sym_name l) buckets).
Proof.
  intros Hl. revert buckets. induction Hl as [|v l [d Hd] Hl IH]; intros buckets; cbn [scan]; [done|].
  rewrite Hd. cbn [orb]. rewrite IH. cbn [map fold_left]. by rewrite (sym_name_at v d).
Qed.
Lemma scan_spec l first buckets : Forall (fun v => is_Some (objects t !! v)) l -> exists pre hashed,
  l = pre ++ hashed /\ Forall (fun v => defined v = false) pre /\
  (match hashed with [] => True | v :: _ => defined v = true end) /\
  scan t l false first buckets = Ok (first + Z.of_nat (length pre), fold_left push (map sym_name hashed) buckets).
Proof.
  intros Hl. revert first. induction Hl as [|v l [d Hd] Hl IH]; intros first; cbn [scan].
  { exists [], []. repeat split; [done|]. do 2 f_equal. cbn. lia. }
  rewrite Hd. cbn [orb]. destruct (negb (st_value (elfValue d) =? 0)) eqn:Ev.
  - exists [], (v :: l). rewrite scan_hashing by done. repeat split; [done|unfold defined; by rewrite Hd|].
    cbn [length map fold_left]. rewrite Z.add_0_r. by rewrite (sym_name_at v d).
  - destruct (IH (first + 1)) as (pre&hashed&->&H1&H2&E). exists (v :: pre), hashed.
    split; [done|]. split; [constructor; [unfold defined; by rewrite Hd|done]|]. split; [done|].
    rewrite E. do 2 f_equal. cbn [length]. lia.
Qed.
End scan.

(** ** Buckets and chains by position *)

Definition offset (buckets : list (list (list Z))) (b : nat) : nat := length (concat (take b buckets)).

Lemma bucket_words_at bs s b B : bs !! b = Some B ->
  bucket_words bs s !! b = Some (match B with [] => 0 | _ => u32 (s + Z.of_nat (offset bs b)) end).
Proof.
  revert s b. induction bs as [|B' bs IH]; intros s b Hb; [done|]. destruct b as [|b]; cbn in Hb.
  - injection Hb as ->. unfold offset. rewrite take_0. cbn [concat length]. rewrite Z.add_0_r. by destruct B.
  - assert (E : forall s', s' = s + Z.of_nat (length B') ->
      bucket_words bs s' !! b = Some (match B with [] => 0 | _ => u32 (s + Z.of_nat (offset (B' :: bs) (S b))) end)).
    { intros s' ->. rewrite IH by done. destruct B; [done|]. do 2 f_equal. unfold offset. cbn [take concat].
      rewrite length_app. lia. }
    destruct B' as [|n B']; cbn [bucket_words]; apply E; cbn [length]; lia.
Qed.

Lemma flat_map_at {A B} (f : A -> list B) (l : list A) b x j : l !! b = Some x -> (j < length (f x))%nat ->
  flat_map f l !! (length (flat_map f (take b l)) + j)%nat = f x !! j.
Proof.
  revert b. induction l as [|y l IH]; intros b Hb Hj; [done|]. destruct b as [|b]; cbn in Hb.
  - injection Hb as ->. cbn. by rewrite lookup_app_l.
  - cbn [take flat_map]. rewrite length_app, lookup_app_r by lia. rewrite <- (IH b Hb Hj). f_equal. lia.
Qed.
Lemma concat_flat {A} (l : list (list A)) : concat l = flat_map (fun x => x) l.
Proof. induction l as [|x l IH]; [done|]. cbn. by rewrite IH. Qed.
Lemma concat_at bs b B j : bs !! b = Some B -> (j < length B)%nat -> concat bs !! (offset bs b + j)%nat = B !! j.
Proof. intros Hb Hj. unfold offset. rewrite !concat_flat. by apply (flat_map_at (fun x => x) bs b B j). Qed.
Lemma chain_offset bs b : length (flat_map (fun B => map (chain_word B) B) (take b bs)) = offset bs b.
Proof.
  unfold offset. induction (take b bs) as [|B l IH]; [done|]. cbn [flat_map concat]. by rewrite !length_app, length_map, IH.
Qed.
Lemma chain_at bs b B j n : bs !! b = Some B -> B !! j = Some n ->
  chain_words bs !! (offset bs b + j)%nat = Some (chain_word B n).
Proof.
  intros Hb Hn. unfold chain_words. rewrite <- (chain_offset bs b). rewrite (flat_map_at _ bs b B j) by
    (done || rewrite length_map; by eapply lookup_lt_Some).
  by rewrite list_lookup_fmap, Hn.
Qed.
Lemma chain_length bs : length (chain_words bs) = length (concat bs).
Proof. unfold chain_words. induction bs as [|B l IH]; [done|]. cbn [flat_map concat]. by rewrite !length_app, length_map, IH. Qed.

(** *** Chain words *)
Lemma ldiff_one h : Z.ldiff h 1 = 2 * (h / 2).
Proof.
  change 1 with (Z.ones 1). rewrite Z.ldiff_ones_r by lia. rewrite Z.shiftl_mul_pow2, Z.shiftr_div_pow2 by lia. change (2 ^ 1) with 2. lia.
Qed.
Lemma half_hash n : exists q, bfd_elf_gnu_hash n / 2 = q /\ 0 <= q /\ 2 * q + 1 < 2 ^ 32.
Proof.
  pose proof (hash_range n). eexists. split; [done|]. pose proof (Z.div_mod (bfd_elf_gnu_hash n) 2 ltac:(done)).
  pose proof (Z.mod_pos_bound (bfd_elf_gnu_hash n) 2 ltac:(done)). lia.
Qed.
Lemma chain_word_eq B n : chain_word B n = 2 * (bfd_elf_gnu_hash n / 2) + (if bool_decide (Some n = last B) then 1 else 0).
Proof.
  unfold chain_word. rewrite ldiff_one. destruct (half_hash n) as (q&->&?&?). rewrite (wrap_small 32 (2 * _)) by lia.
  apply wrap_small. destruct (bool_decide _); lia.
Qed.
Lemma chain_word_range B n : 0 <= chain_word B n < 2 ^ 32.
Proof. rewrite chain_word_eq. destruct (half_hash n) as (q&->&?&?). destruct (bool_decide _); lia. Qed.
Lemma chain_word_hash B n : Z.shiftr (Z.lxor (chain_word B n) (bfd_elf_gnu_hash n)) 1 = 0.
Proof.
  rewrite Z.shiftr_lxor, !Z.shiftr_div_pow2, chain_word_eq by lia. change (2 ^ 1) with 2.
  rewrite Z.mul_comm, Z.div_add_l by lia.
  replace ((if bool_decide (Some n = last B) then 1 else 0) / 2) with 0 by (by destruct (bool_decide _)).
  rewrite Z.add_0_r. apply Z.lxor_nilpotent.
Qed.
Lemma chain_word_end B n : Z.testbit (chain_word B n) 0 = bool_decide (Some n = last B).
Proof. rewrite chain_word_eq, Z.bit0_odd. destruct (bool_decide _); rewrite Z.add_comm, Z.odd_add_mul_2; done. Qed.

Lemma last_position (B : list (list Z)) j n : NoDup B -> B !! j = Some n ->
  bool_decide (Some n = last B) = bool_decide (S j = length B).
Proof.
  intros Hd Hj. apply bool_decide_ext. rewrite last_lookup. pose proof (lookup_lt_Some _ _ _ Hj). split.
  - intros E. symmetry in E. pose proof (NoDup_lookup _ _ _ _ Hd Hj E). lia.
  - intros <-. cbn. by rewrite Hj.
Qed.

(** *** A walk along a chain *)
Section walk.
Context (section : list Z) (symbol_name : Z -> option (list Z)) (B : list (list Z)) (start : Z).
Context (Hd : NoDup B).
Context (Hchain : forall j n, B !! j = Some n ->
  Linker.chain section (start + Z.of_nat j - Linker.symoffset section) = chain_word B n).
Context (Hname : forall j n, B !! j = Some n -> symbol_name (start + Z.of_nat j) = Some n).

Lemma walk_step fuel j n m : B !! j = Some m ->
  Linker.walk section symbol_name (S fuel) n (bfd_elf_gnu_hash n) (start + Z.of_nat j) =
  if bool_decide (m = n) then Some (start + Z.of_nat j)
  else if bool_decide (S j = length B) then None
  else Linker.walk section symbol_name fuel n (bfd_elf_gnu_hash n) (start + Z.of_nat (S j)).
Proof.
  intros Hm. cbn [Linker.walk]. rewrite (Hchain j m Hm), (Hname j m Hm), chain_word_end, (last_position B j m) by done.
  replace (start + Z.of_nat (S j)) with (start + Z.of_nat j + 1) by lia.
  destruct (decide (m = n)) as [->|Hne].
  - rewrite chain_word_hash. by rewrite (bool_decide_eq_true_2 (Some n = Some n)), (bool_decide_eq_true_2 (n = n)) by done.
  - rewrite (bool_decide_eq_false_2 (Some m = Some n)), andb_false_r by congruence. by rewrite (bool_decide_eq_false_2 (m = n)).
Qed.
Lemma walk_found fuel j i n : B !! i = Some n -> (j <= i)%nat -> (i - j < fuel)%nat ->
  Linker.walk section symbol_name fuel n (bfd_elf_gnu_hash n) (start + Z.of_nat j) = Some (start + Z.of_nat i).
Proof.
  intros Hi. pose proof (lookup_lt_Some _ _ _ Hi). revert j. induction fuel as [|fuel IH]; intros j Hj Hf; [lia|].
  destruct (lookup_lt_is_Some_2 B j) as [m Hm]; [lia|]. rewrite (walk_step fuel j n m Hm). case_bool_decide as E.
  - subst m. by rewrite (NoDup_lookup _ _ _ _ Hd Hm Hi).
  - assert (i <> j) by (intros ->; congruence). rewrite bool_decide_eq_false_2 by lia. apply IH; lia.
Qed.
Lemma walk_missing fuel j n : n ∉ B -> (j < length B)%nat ->
  Linker.walk section symbol_name fuel n (bfd_elf_gnu_hash n) (start + Z.of_nat j) = None.
Proof.
  intros Hn. revert j. induction fuel as [|fuel IH]; intros j Hj; [done|].
  destruct (lookup_lt_is_Some_2 B j) as [m Hm]; [lia|]. rewrite (walk_step fuel j n m Hm).
  rewrite bool_decide_eq_false_2 by (intros ->; apply Hn; by eapply list_elem_of_lookup_2).
  case_bool_decide; [done|]. apply IH. lia.
Qed.
End walk.

(** ** Lookups in the stream *)
Section lookups.
Context (first : Z) (names : list (list Z)) (buckets : list (list (list Z))) (symbol_name : Z -> option (list Z)).
Context (Hlen : length buckets = bucket_count).
Context (Hbuckets : forall n, buckets !! bucket_of n = Some (in_bucket names (bucket_of n))).
Context (Hnames : NoDup names) (Hperm : concat buckets ≡ₚ names).
Context (Hfirst : 1 <= first) (Hsize : first + Z.of_nat (length names) < 2 ^ 32).
Context (Hsym : forall j n, concat buckets !! j = Some n -> symbol_name (first + Z.of_nat j) = Some n).
Let section := stream first buckets.

Lemma buckets_small : Z.of_nat (length buckets) < 2 ^ 32.
Proof. rewrite Hlen. done. Qed.

Lemma bloom_pass h : Linker.bloom_passes section h = true.
Proof.
  unfold Linker.bloom_passes, section. rewrite read_bloom_size.
  rewrite read_bloom by (apply Z.mod_pos_bound; lia). change (2 ^ 64 - 1) with (Z.ones 64).
  by rewrite !Z.ones_spec_low by (apply Z.mod_pos_bound; lia).
Qed.

Section bucket.
Context (n : list Z).
Let b := bucket_of n.
Let B := in_bucket names b.

Lemma bucket_nodup : NoDup B.
Proof. by apply NoDup_filter. Qed.
Lemma bucket_fits : (offset buckets b + length B <= length names)%nat.
Proof.
  rewrite <- Hperm. rewrite <- (take_drop b buckets) at 2. rewrite concat_app, length_app. fold (offset buckets b).
  rewrite (drop_S buckets (in_bucket names b) b) by apply Hbuckets. cbn [concat]. rewrite length_app. fold B. lia.
Qed.
Lemma bucket_index : Linker.bucket section (bfd_elf_gnu_hash n mod Linker.nbuckets section) =
  match B with [] => 0 | _ => first + Z.of_nat (offset buckets b) end.
Proof.
  unfold section. rewrite read_nbuckets by apply buckets_small. rewrite Hlen.
  pose proof (Z.mod_pos_bound (bfd_elf_gnu_hash n) (Z.of_nat bucket_count) ltac:(done)) as Hr.
  rewrite <- (Z2Nat.id (bfd_elf_gnu_hash n mod _)) by lia. fold (bucket_of n).
  pose proof bucket_fits as Hf. pose proof (bucket_words_at buckets first b B (Hbuckets n)) as E.
  rewrite (wrap_small 32) in E by lia.
  apply (read_bucket first buckets _ _ E). destruct B; [done|]. lia.
Qed.
Lemma bucket_chain j m : B !! j = Some m ->
  Linker.chain section (first + Z.of_nat (offset buckets b) + Z.of_nat j - Linker.symoffset section) = chain_word B m.
Proof.
  intros Hj. unfold section. rewrite read_symoffset. rewrite wrap_small by lia.
  replace (first + _ + _ - first) with (Z.of_nat (offset buckets b + j)) by lia.
  apply read_chain; [apply buckets_small|exact (chain_at buckets b B j m (Hbuckets n) Hj)|apply chain_word_range].
Qed.
Lemma bucket_name j m : B !! j = Some m -> symbol_name (first + Z.of_nat (offset buckets b) + Z.of_nat j) = Some m.
Proof.
  intros Hj. rewrite <- Hj, <- (concat_at buckets b B j (Hbuckets n)) by (by eapply lookup_lt_Some).
  replace (first + _ + _) with (first + Z.of_nat (offset buckets b + j)) by lia.
  rewrite (concat_at buckets b B j (Hbuckets n)), Hj by (by eapply lookup_lt_Some). apply Hsym.
  by rewrite (concat_at buckets b B j (Hbuckets n)) by (by eapply lookup_lt_Some).
Qed.
Lemma lookup_walk : Linker.lookup section symbol_name n =
  match B with [] => None | _ => Linker.walk section symbol_name (length section) n (bfd_elf_gnu_hash n)
    (first + Z.of_nat (offset buckets b) + Z.of_nat 0) end.
Proof.
  unfold Linker.lookup. rewrite bloom_pass, <- hash_agrees, bucket_index, Z.add_0_r.
  destruct B; [done|]. by rewrite (proj2 (Z.eqb_neq _ _)) by lia.
Qed.
Lemma section_long : (length B <= length section)%nat.
Proof.
  pose proof bucket_fits. unfold section. rewrite stream_parts, !length_app, !words_length, chain_length, Hperm. lia.
Qed.

Lemma lookup_missing : n ∉ names -> Linker.lookup section symbol_name n = None.
Proof.
  intros Hn. rewrite lookup_walk. destruct B as [|m B'] eqn:EB; [done|].
  apply (walk_missing section symbol_name B _ bucket_nodup bucket_chain bucket_name);
    [|rewrite EB; cbn; lia]. unfold B, in_bucket. rewrite list_elem_of_filter. tauto.
Qed.
Lemma lookup_found : n ∈ names -> exists i, Linker.lookup section symbol_name n = Some (first + Z.of_nat i) /\
  concat buckets !! i = Some n.
Proof.
  intros Hn. assert (Hin : n ∈ B) by (apply list_elem_of_filter; split; done).
  apply list_elem_of_lookup in Hin as [j Hj]. exists (offset buckets b + j)%nat. split.
  - rewrite lookup_walk. pose proof section_long. pose proof (lookup_lt_Some _ _ _ Hj).
    assert (B <> []) by (intros E; by rewrite E in Hj). destruct B eqn:EB; [done|]. rewrite <- EB in *.
    rewrite (walk_found section symbol_name B _ bucket_nodup bucket_chain bucket_name _ 0 j n Hj) by lia.
    f_equal. lia.
  - rewrite (concat_at buckets b B j (Hbuckets n)); [done|by eapply lookup_lt_Some].
Qed.
End bucket.
End lookups.

(** ** The sorted table *)

Lemma number_names_spec buckets n j : NoDup (concat buckets) ->
  number_names buckets !! n = Some j <-> 0 <= j /\ concat buckets !! Z.to_nat j = Some n.
Proof.
  intros Hd. unfold number_names. rewrite positions_spec by (done || intros; apply lookup_empty).
  rewrite lookup_empty, Z.sub_0_r. naive_solver.
Qed.

Lemma lt_index a b : tableIndex a < tableIndex b -> SymbolInTable.lt a b = true.
Proof. intros Hl. unfold SymbolInTable.lt. by rewrite (proj2 (Z.ltb_lt _ _) Hl). Qed.
Lemma increasing_indices l i : (forall j k, l !! j = Some k -> tableIndex k = i + Z.of_nat j) -> increasing l.
Proof.
  revert i. induction l as [|k l IH]; intros i Hi; [constructor|]. constructor.
  - apply (IH (i + 1)). intros j k' Hj. rewrite (Hi (S j) k') by done. lia.
  - apply Forall_forall. intros k' [j Hj]%list_elem_of_lookup. apply lt_index.
    rewrite (Hi 0%nat k), (Hi (S j) k') by done. lia.
Qed.
Lemma increasing_app (l l' : list SymbolInTable.t) : increasing l -> increasing l' ->
  (forall a b, a ∈ l -> b ∈ l' -> less a b = true) -> increasing (l ++ l').
Proof.
  intros Hl Hl' Hx. induction Hl as [|a l Hl IH Ha]; [done|]. cbn. constructor; [apply IH; set_solver|].
  apply Forall_app. split; [done|]. apply Forall_forall. set_solver.
Qed.
Lemma increasing_split (l l' : list SymbolInTable.t) : increasing (l ++ l') ->
  increasing l /\ increasing l' /\ (forall a b, a ∈ l -> b ∈ l' -> less a b = true).
Proof.
  induction l as [|a l IH]; intros Hs; cbn in *; [split; [constructor|]; split; [done|]; set_solver|].
  apply StronglySorted_inv in Hs as [Hs Ha]. destruct (IH Hs) as (H1&H2&H3). apply Forall_app in Ha as [Ha Hb].
  split; [by constructor|]. split; [done|]. intros x y [->|Hx]%elem_of_cons Hy; [by apply (proj1 (Forall_forall _ _) Hb)|auto].
Qed.

Lemma reinsert_spec names ps m : reinsert names (map entry ps) m =
  Ok (insert_all (map (fun p => (rekey names p.1, p.2)) ps) m).
Proof. revert m. induction ps as [|[k v] ps IH]; intros m; cbn [map entry fst snd reinsert]; [done|]. by rewrite IH. Qed.

(** Entries of a part of the table, their names in the order of the buckets. *)
Section rekeyed.
Context (L1 L2 L2' : list (SymbolInTable.t * ptr)) (buckets : list (list (list Z))).
Let gn (p : SymbolInTable.t * ptr) : list Z := getName p.1.
Let names := number_names buckets.
Context (Hold : increasing (map fst (L1 ++ L2))) (Hzero : Forall (fun p => tableIndex p.1 = 0) (L1 ++ L2)).
Context (Hnames : NoDup (map gn (L1 ++ L2))) (Hperm : L2 ≡ₚ L2') (Hconcat : concat buckets = map gn L2').

Lemma concat_nodup : NoDup (concat buckets).
Proof. rewrite Hconcat, <- Hperm. rewrite map_app in Hnames. by apply NoDup_app in Hnames as (_&_&?). Qed.
Lemma rekey_pre p : p ∈ L1 -> rekey names p.1 = p.1.
Proof.
  intros Hp. unfold rekey. destruct (names !! getName p.1) as [j|] eqn:E; [|done].
  apply number_names_spec in E as [_ E]; [|apply concat_nodup]. apply list_elem_of_lookup_2 in E.
  rewrite Hconcat, <- Hperm in E. rewrite map_app in Hnames. apply NoDup_app in Hnames as (_&Hx&_).
  destruct (Hx (gn p)); [by apply list_elem_of_fmap_2|done].
Qed.
Lemma rekey_hashed j p : L2' !! j = Some p -> rekey names p.1 = setTableIndex p.1 (Z.of_nat j).
Proof.
  intros Hp. unfold rekey, names. rewrite (proj2 (number_names_spec buckets (getName p.1) (Z.of_nat j) concat_nodup)); [done|].
  split; [lia|]. rewrite Nat2Z.id, Hconcat, list_lookup_fmap, Hp. done.
Qed.
Let rk (p : SymbolInTable.t * ptr) : SymbolInTable.t * ptr := (rekey names p.1, p.2).

Lemma rekeyed_increasing : increasing (map fst (map rk (L1 ++ L2'))).
Proof.
  rewrite map_map, map_app. rewrite map_app in Hold. apply increasing_split in Hold as (H1&H2&H3).
  apply Forall_app in Hzero as [Hz1 Hz2]. assert (E1 : map (fun p => (rk p).1) L1 = map fst L1).
  { apply map_ext_in. intros p Hp%list_elem_of_In. by apply rekey_pre. }
  rewrite E1. apply increasing_app; [done| |].
  - apply (increasing_indices _ 0). intros j k Hk. rewrite list_lookup_fmap in Hk.
    destruct (L2' !! j) as [p|] eqn:Ep; [|done]. injection Hk as <-. unfold rk. cbn [fst]. by rewrite (rekey_hashed j p Ep).
  - intros a b Ha Hb. apply list_elem_of_fmap in Ha as (p&->&Hp). apply list_elem_of_lookup in Hb as [j Hj].
    rewrite list_lookup_fmap in Hj. destruct (L2' !! j) as [q|] eqn:Eq; [|done]. injection Hj as <-.
    unfold rk. cbn [fst]. rewrite (rekey_hashed j q Eq). pose proof (proj1 (Forall_forall _ _) Hz1 p Hp) as Hp0. cbn in Hp0.
    assert (Hq : q ∈ L2) by (rewrite Hperm; by eapply list_elem_of_lookup_2).
    pose proof (proj1 (Forall_forall _ _) Hz2 q Hq) as Hq0. cbn in Hq0. destruct j as [|j].
    + replace (setTableIndex q.1 (Z.of_nat 0)) with q.1; [apply H3; by apply list_elem_of_fmap_2|].
      destruct q as [[] ?]. cbn in *. by subst.
    + apply lt_index. cbn. lia.
Qed.

Lemma rekeyed_table : NoDup (map snd (L1 ++ L2)) ->
  coherent (insert_all (map rk (L1 ++ L2)) DeferredMap.new) /\
  valueMap (insert_all (map rk (L1 ++ L2)) DeferredMap.new) = map entry (map rk (L1 ++ L2')) /\
  valueList (insert_all (map rk (L1 ++ L2)) DeferredMap.new) = map snd (L1 ++ L2').
Proof.
  intros Hd. destruct (insert_all_sorted (map rk (L1 ++ L2)) (map entry (map rk (L1 ++ L2')))) as [Hc Hm].
  - rewrite map_map. apply rekeyed_increasing.
  - rewrite !map_map. cbn. rewrite <- (map_map snd Some). apply NoDup_fmap_2; [apply _|]. by rewrite <- Hperm.
  - by rewrite Hperm.
  - split; [done|]. split; [done|]. pose proof (co_values _ Hc) as E. rewrite Hm, !map_map in E. cbn in E.
    rewrite <- (map_map snd Some) in E. apply (inj (fmap Some)). symmetry. exact E.
Qed.
End rekeyed.

(** ** The section and the table together *)

(** A .dynsym as the generator makes it: it starts with the null symbol, the other entries
    are symbols with names, all different. *)
Record dynsym_ok (t : SymbolTable) : Prop := {
  dy_ok : table_ok t;
  dy_null : exists v0 rest, valueMap (entries t) = (SymbolInTable.new TYPE_NULL None, Some v0) :: rest /\
    defined t v0 = false /\
    Forall (fun p => type p.1 <> SymbolInTable.TYPE_SECTION /\ exists s, sym p.1 = Some s) rest;
  dy_names : NoDup (map (fun p => getName p.1) (valueMap (entries t)));
  dy_count : Z.of_nat (length (valueList (entries t))) < 2 ^ 32 }.

Lemma dynsym_entries t : table_ok t -> exists ps, valueMap (entries t) = map entry ps /\ valueList (entries t) = map snd ps.
Proof.
  intros Hok. pose proof (co_values _ (ok_coherent t Hok)) as E. revert E.
  generalize (valueMap (entries t)), (valueList (entries t)). intros l. induction l as [|[k o] l IH]; intros [|v vs] E; try done.
  - by exists [].
  - injection E as -> E. destruct (IH vs E) as (ps&->&->). by exists ((k, v) :: ps).
Qed.

(** The symbols that are hashed: those at or after a symbol with an address in the order of the table. *)
Definition hashed (t : SymbolTable) (v : ptr) : Prop :=
  exists i j u, (i <= j)%nat /\ valueList (entries t) !! i = Some u /\ defined t u = true /\ valueList (entries t) !! j = Some v.
Lemma hashed_suffix t l1 l2 v : valueList (entries t) = l1 ++ l2 -> Forall (fun v => defined t v = false) l1 ->
  match l2 with [] => True | u :: _ => defined t u = true end -> hashed t v <-> v ∈ l2.
Proof.
  intros E H1 H2. unfold hashed. rewrite E. split.
  - intros (i&j&u&Hij&Hu&Hd&Hv). destruct (decide (i < length l1)%nat).
    + rewrite lookup_app_l in Hu by done. by rewrite (Forall_lookup_1 _ _ _ _ H1 Hu) in Hd.
    + rewrite lookup_app_r in Hv by lia. by eapply list_elem_of_lookup_2.
  - intros [j Hj]%list_elem_of_lookup. destruct l2 as [|u l2]; [done|].
    exists (length l1), (length l1 + j)%nat, u. split; [lia|].
    rewrite !lookup_app_r, Nat.sub_diag by lia. by replace (length l1 + j - length l1)%nat with j by lia.
Qed.

Section execute.
Context (t : SymbolTable) (Hdy : dynsym_ok t).
Let Hok : table_ok t := dy_ok t Hdy.

Lemma entry_name k v : (k, Some v) ∈ valueMap (entries t) -> type k <> SymbolInTable.TYPE_SECTION -> is_Some (sym k) ->
  exists d, objects t !! v = Some d /\ string_at (strtab t) (st_name (elfValue d)) = getName k.
Proof.
  intros Hin Ht [s Hs]. destruct (ok_named t Hok k v Hin) as (d&Hd&Hn). rewrite Hs in Hn. exists d. split; [done|].
  destruct Hn as [?|[Hn _]]; [done|]. unfold getName. by rewrite Hs, Hn.
Qed.
Lemma entry_object v : v ∈ valueList (entries t) -> is_Some (objects t !! v).
Proof.
  intros [k Hk]%(co_elem _ v (ok_coherent t Hok)). destruct (ok_named t Hok k v Hk) as (d&Hd&_). by exists d.
Qed.

(** The table is cut where the hashed symbols start; the null symbol is before that. *)
Lemma dynsym_split : exists L1 L2, valueMap (entries t) = map entry (L1 ++ L2) /\
  valueList (entries t) = map snd L1 ++ map snd L2 /\ (1 <= length L1)%nat /\
  Forall (fun p => defined t p.2 = false) L1 /\ (forall v, hashed t v <-> v ∈ map snd L2) /\
  Forall (fun p => exists d, objects t !! p.2 = Some d /\ string_at (strtab t) (st_name (elfValue d)) = getName p.1) L2 /\
  scan t (valueList (entries t)) false 0 (replicate bucket_count []) =
    Ok (Z.of_nat (length L1), all_buckets (map (fun p => getName p.1) L2)).
Proof.
  destruct (dynsym_entries t Hok) as (ps&Em&Ev). destruct (dy_null t Hdy) as (v0&rest&En&Hv0&Hrest).
  destruct (scan_spec t (valueList (entries t)) 0 (replicate bucket_count [])) as (pre&hashed&El&Hpre&Hhd&Es).
  { apply Forall_forall. apply entry_object. }
  assert (exists L1 L2, ps = L1 ++ L2 /\ map snd L1 = pre /\ map snd L2 = hashed) as (L1&L2&->&<-&<-).
  { rewrite Ev in El. apply map_eq_app in El as (L1&L2&->&<-&<-). eauto. }
  exists L1, L2. rewrite length_map in Es.
  assert (HL1 : (1 <= length L1)%nat).
  { destruct L1 as [|p L1]; [|cbn; lia]. destruct L2 as [|[k v] L2]; [by rewrite En in Em|].
    cbn in Hhd. rewrite En in Em. injection Em as _ -> _. congruence. }
  assert (HL2 : Forall (fun p => exists d, objects t !! p.2 = Some d /\
    string_at (strtab t) (st_name (elfValue d)) = getName p.1) L2).
  { apply Forall_forall. intros [k v] Hp. destruct L1 as [|[k0 w] L1]; [cbn in HL1; lia|].
    rewrite En in Em. cbn [app map entry fst snd] in Em. injection Em as <- <- Em.
    assert (Hr : (k, Some v) ∈ rest).
    { rewrite Em. apply list_elem_of_fmap. exists (k, v). split; [done|]. apply elem_of_app. by right. }
    destruct (proj1 (Forall_forall _ _) Hrest _ Hr) as [Ht Hs]. apply entry_name; [|done|done].
    rewrite En. by right. }
  split; [done|]. split; [done|]. split; [done|]. split; [by apply Forall_map in Hpre|].
  split; [intros v; by eapply hashed_suffix|]. split; [done|].
  rewrite Es, no_buckets, push_all. cbn [app]. do 3 f_equal.
  rewrite map_map. apply map_ext_in. intros p Hp%list_elem_of_In.
  destruct (proj1 (Forall_forall _ _) HL2 _ Hp) as (d&Hd&Hn). unfold sym_name. by rewrite Hd.
Qed.
Lemma scan_objects t' l h f B : objects t' = objects t -> strtab t' = strtab t -> scan t' l h f B = scan t l h f B.
Proof.
  intros Eo Es. revert h f B. induction l as [|v l IH]; intros h f B; cbn [scan]; [done|]. rewrite Eo, Es.
  destruct (objects t !! v); [|done]. by destruct (h || _).
Qed.

(** What [execute] returns. *)
Lemma execute_spec : exists (L1 L2 L2' : list (SymbolInTable.t * ptr)) m, let N := map (fun p => getName p.1) L2 in
  let t' := SymbolTableContent.recalculateIndices
    (mkTable m (objects t) (strtab t) (sectionSymbols t) (firstGlobalIndex t) (fresh t)) in
  MakeDynsymHash.execute t = Ok (stream (Z.of_nat (length L1)) (all_buckets N), t') /\
  valueList (entries t) = map snd L1 ++ map snd L2 /\ (1 <= length L1)%nat /\
  Forall (fun p => defined t p.2 = false) L1 /\ (forall v, hashed t v <-> v ∈ map snd L2) /\
  Forall (fun p => exists d, objects t !! p.2 = Some d /\ string_at (strtab t) (st_name (elfValue d)) = getName p.1) L2 /\
  NoDup N /\ L2 ≡ₚ L2' /\ concat (all_buckets N) = map (fun p => getName p.1) L2' /\
  NoDup (valueList m) /\ valueList m = map snd L1 ++ map snd L2'.
Proof.
  destruct dynsym_split as (L1&L2&Em&Ev&H1&HU&HL&HD&Es). set (N := map (fun p => getName p.1) L2).
  pose proof (ok_coherent t Hok) as Hc. pose proof (dy_names t Hdy) as Hn. rewrite Em, map_map in Hn. cbn [entry fst] in Hn.
  assert (HN : NoDup N) by (rewrite map_app in Hn; by apply NoDup_app in Hn as (_&_&?)).
  destruct (Permutation_map_inv _ _ (concat_all N)) as (L2'&EC&HP).
  assert (Hz : Forall (fun p => tableIndex p.1 = 0) (L1 ++ L2)).
  { apply Forall_forall. intros [k v] Hp. apply (ok_index t Hok k v). rewrite Em. apply list_elem_of_fmap. by exists (k, v). }
  assert (Hs : increasing (map fst (L1 ++ L2))).
  { pose proof (co_sorted _ Hc) as Hs. rewrite Em, map_map in Hs. exact Hs. }
  assert (Hdv : NoDup (map snd (L1 ++ L2))) by (rewrite map_app, <- Ev; apply Hc).
  destruct (rekeyed_table L1 L2 L2' (all_buckets N) Hs Hz Hn HP EC Hdv) as (Hc'&_&Hv').
  eexists L1, L2, L2', _. split.
  { unfold MakeDynsymHash.execute. cbn [SymbolTableContent.recalculateIndices entries DeferredMap.recalculateIndices valueList valueMap].
    rewrite scan_objects, Es by done. cbn [mbind res_bind]. rewrite Em.
    rewrite reinsert_spec. cbn [mbind res_bind objects strtab sectionSymbols firstGlobalIndex fresh]. reflexivity. }
  split; [done|]. split; [done|]. split; [done|]. split; [done|]. split; [done|]. split; [done|]. split; [done|].
  split; [done|]. split; [apply Hc'|]. rewrite <- map_app. exact Hv'.
Qed.
End execute.

Lemma all_buckets_at N n : all_buckets N !! bucket_of n = Some (in_bucket N (bucket_of n)).
Proof.
  unfold all_buckets. rewrite list_lookup_fmap. rewrite (proj2 (lookup_seq 0 bucket_count (bucket_of n) (bucket_of n))); [done|].
  split; [done|apply bucket_of_lt].
Qed.

Section finds.
Context (t : SymbolTable) (L1 L2 L2' : list (SymbolInTable.t * ptr)) (m : DeferredMap SymbolInTable.t).
Let N := map (fun p => getName p.1) L2.
Let t' := SymbolTableContent.recalculateIndices
  (mkTable m (objects t) (strtab t) (sectionSymbols t) (firstGlobalIndex t) (fresh t)).
Context (HD : Forall (fun p => exists d, objects t !! p.2 = Some d /\
  string_at (strtab t) (st_name (elfValue d)) = getName p.1) L2).
Context (HN : NoDup N) (HP : L2 ≡ₚ L2') (EC : concat (all_buckets N) = map (fun p => getName p.1) L2').
Context (Hm : valueList m = map snd L1 ++ map snd L2').

Lemma value_hashed j p : L2' !! j = Some p -> valueList m !! (length L1 + j)%nat = Some p.2.
Proof.
  intros Hj. rewrite Hm, lookup_app_r by (rewrite length_map; lia). rewrite length_map, list_lookup_fmap.
  replace (length L1 + j - length L1)%nat with j by lia. by rewrite Hj.
Qed.
Lemma name_hashed j n : concat (all_buckets N) !! j = Some n ->
  name_at t' (Z.of_nat (length L1) + Z.of_nat j) = Some n.
Proof.
  rewrite EC, list_lookup_fmap. destruct (L2' !! j) as [p|] eqn:Ep; [|done]. intros [= <-].
  unfold name_at. rewrite (proj2 (Z.ltb_ge _ _)) by lia.
  replace (Z.to_nat (Z.of_nat (length L1) + Z.of_nat j)) with (length L1 + j)%nat by lia.
  cbn [t' SymbolTableContent.recalculateIndices DeferredMap.recalculateIndices entries valueList].
  rewrite (value_hashed j p Ep). cbn [mbind option_bind].
  assert (Hp : p ∈ L2) by (rewrite HP; by eapply list_elem_of_lookup_2).
  destruct (proj1 (Forall_forall _ _) HD p Hp) as (d&Hd&Hn). change (objects t') with (objects t). change (strtab t') with (strtab t). rewrite Hd. cbn. by rewrite Hn.
Qed.
(** Entries with one name are one entry. *)
Lemma hashed_entry v j : v ∈ map snd L2 -> concat (all_buckets N) !! j = Some (sym_name t v) -> 
  valueList m !! (length L1 + j)%nat = Some v.
Proof.
  intros (p&->&Hp)%list_elem_of_fmap. destruct (proj1 (Forall_forall _ _) HD p Hp) as (d&Hd&Hn).
  unfold sym_name. rewrite Hd, Hn, EC, list_lookup_fmap.
  destruct (L2' !! j) as [q|] eqn:Eq; [|done]. intros [= Heq]. rewrite (value_hashed j q Eq). do 2 f_equal.
  rewrite HP in Hp. apply list_elem_of_lookup in Hp as [i Hi].
  assert (HN' : NoDup (map (fun p => getName p.1) L2')) by (rewrite <- HP; exact HN).
  assert (i = j) as ->; [|congruence]. eapply (NoDup_lookup _ _ _ _ HN'); rewrite list_lookup_fmap; [by rewrite Hi|].
  rewrite Eq. cbn. by rewrite Heq.
Qed.
End finds.

(** C13: the .gnu.hash section made by [MakeDynsymHash] and the .dynsym sorted with it work
    together: the pass returns on every table of named symbols and the table holds the same
    entries.  Hashed are the symbols with an address and the undefined ones that the table has after one
    of these; the lookup of the dynamic linker finds every hashed symbol, by its name,
    at the place it has in the sorted table, which is the one [indexOf] gives to the
    relocations, and it finds no name that is not that of a hashed symbol. *)
Theorem gnu_hash_lookup t : dynsym_ok t -> exists section t',
  MakeDynsymHash.execute t = Ok (section, t') /\
  valueList (entries t') ≡ₚ valueList (entries t) /\
  (forall v, hashed t v -> exists i, Linker.lookup section (name_at t') (sym_name t v) = Some i /\ 0 < i /\
     valueList (entries t') !! Z.to_nat i = Some v /\ SymbolTableContent.indexOf t' v = i) /\
  (forall n, Linker.lookup section (name_at t') n = None <-> ~ exists v, hashed t v /\ sym_name t v = n).
Proof.
  intros Hdy. destruct (execute_spec t Hdy) as (L1&L2&L2'&m&E&Ev&H1&HU&HL&HD&HN&HP&EC&Hdm&Hm).
  set (t' := SymbolTableContent.recalculateIndices _) in E. set (N := map (fun p => getName p.1) L2) in *.
  assert (Hname : map (sym_name t) (map snd L2) = N).
  { rewrite map_map. apply map_ext_in. intros p Hp%list_elem_of_In.
    destruct (proj1 (Forall_forall _ _) HD p Hp) as (d&Hd&Hn). unfold sym_name. by rewrite Hd. }
  assert (Hsize : Z.of_nat (length L1) + Z.of_nat (length N) < 2 ^ 32).
  { pose proof (dy_count t Hdy) as Hc. rewrite Ev, length_app, !length_map in Hc. unfold N. rewrite length_map. lia. }
  pose proof (name_hashed t L1 L2 L2' m HD HP EC Hm) as Hsym.
  pose proof (lookup_found (Z.of_nat (length L1)) N (all_buckets N) (name_at t') (all_buckets_length N) (all_buckets_at N)
    HN (concat_all N) ltac:(lia) Hsize Hsym) as Hfound.
  exists (stream (Z.of_nat (length L1)) (all_buckets N)), t'. split; [done|].
  assert (forall v, hashed t v -> exists i, Linker.lookup (stream (Z.of_nat (length L1)) (all_buckets N)) (name_at t') (sym_name t v) = Some i /\ 0 < i /\
     valueList (entries t') !! Z.to_nat i = Some v /\ SymbolTableContent.indexOf t' v = i) as Hall.
  { intros v Hv%HL. destruct (Hfound (sym_name t v)) as (i&El&Ei); [rewrite <- Hname; by apply list_elem_of_fmap_2|].
    pose proof (hashed_entry t L1 L2 L2' m HD HN HP EC Hm v i Hv Ei) as Hi.
    exists (Z.of_nat (length L1) + Z.of_nat i). split; [done|]. split; [lia|].
    replace (Z.to_nat (Z.of_nat (length L1) + Z.of_nat i)) with (length L1 + i)%nat by lia. split; [done|].
    rewrite <- Nat2Z.inj_add. apply (indexed_indexOf (DeferredMap.recalculateIndices m)); [by apply recalculate_indexed|done]. }
  split; [|split; [exact Hall|]].
  - rewrite Ev. cbn [t' SymbolTableContent.recalculateIndices DeferredMap.recalculateIndices entries valueList].
    rewrite Hm. by rewrite HP.
  - intros n. split; [intros Hno (v&Hv&<-); destruct (Hall v Hv) as (i&El&_); congruence|]. intros Hn.
    apply (lookup_missing (Z.of_nat (length L1)) N (all_buckets N) (name_at t') (all_buckets_length N) (all_buckets_at N)
      HN (concat_all N) ltac:(lia) Hsize Hsym). rewrite <- Hname. intros (v&->&Hv)%list_elem_of_fmap. apply Hn. exists v. by rewrite HL.
Qed.

Module GnuHashExamples.
Import SymbolTableExamples.
Definition dynsym : SymbolTable := default (SymbolTableContent.new [])
  (apply_all (SymbolTableContent.new (chars "123456" ++ [0]))
    ([AddNull; AddUndefined (Some (symbol "puts" BIND_GLOBAL 0))] ++
     map (fun n => AddSymbol (Some code_view) (Some (symbol n BIND_GLOBAL 1)))
       ["open"; "read"; "write"; "close"; "malloc"; "free"])).
Definition result : option (list Z * SymbolTable) :=
  match MakeDynsymHash.execute dynsym with Ok r => Some r | Err _ => None end.
Definition lookup (n : string) : option (option Z) :=
  match result with Some (h, t) => Some (Linker.lookup h (name_at t) (chars n)) | None => None end.

Lemma dynsym_built : built 0 dynsym.
Proof. apply good_built; [apply built_new|]. vm_compute. repeat split; done. Qed.
Lemma dynsym_is_ok : dynsym_ok dynsym.
Proof.
  split; [apply (built_ok 0), dynsym_built| | |vm_compute; done].
  - eexists _, _. split; [vm_compute; reflexivity|]. split; [vm_compute; done|].
    repeat constructor; try discriminate; eexists; reflexivity.
  - apply (bool_decide_unpack _). vm_compute. exact I.
Qed.

Lemma gnu_hash_lookup_witness : dynsym_ok dynsym /\ defined dynsym 3 = true /\ sym_name dynsym 3 = chars "open" /\
  exists section t' i, MakeDynsymHash.execute dynsym = Ok (section, t') /\
    Linker.lookup section (name_at t') (chars "open") = Some i /\ SymbolTableContent.indexOf t' 3 = i.
Proof.
  split; [exact dynsym_is_ok|]. split; [vm_compute; reflexivity|]. split; [vm_compute; reflexivity|].
  destruct (gnu_hash_lookup dynsym dynsym_is_ok) as (section&t'&E&_&Hfind&_).
  destruct (Hfind 3) as (i&Hl&_&_&Hi);
    [exists (default 0%nat (fst <$> list_find (eq 3) (valueList (entries dynsym)))), (default 0%nat (fst <$> list_find (eq 3) (valueList (entries dynsym)))), 3; split_and!; [apply Nat.le_refl|vm_compute; reflexivity..]|].
  exists section, t', i. split; [exact E|]. split; [|exact Hi].
  replace (chars "open") with (sym_name dynsym 3) by (vm_compute; reflexivity). exact Hl.
Defined.
(** The lookups, evaluated: "puts" is not defined here, and "fopen" is no symbol. *)
Example lookups : map lookup ["open"; "free"; "puts"; "fopen"] =
  [Some (Some 5); Some (Some 7); Some None; Some None].
Proof. vm_compute. reflexivity. Qed.

(** A PLT entry with an address comes before the undefined symbols in the table, and so
    they are hashed although the code means to leave them out. *)
Definition dynsym_plt : SymbolTable := default (SymbolTableContent.new [])
  (apply_all (SymbolTableContent.new (chars "123456" ++ [0]))
    [AddNull; AddUndefined (Some (symbol "puts" BIND_GLOBAL 0)); AddPLT (Some code_view) (symbol "exit" BIND_GLOBAL 0)]).
Example undefined_hashed :
  match MakeDynsymHash.execute dynsym_plt with
  | Ok (h, t) => Linker.lookup h (name_at t) (chars "puts") = Some 2 /\
      option_map (fun d => st_value (elfValue d)) (objects t !! 2) = Some 0
  | Err _ => False
  end.
Proof. vm_compute. auto. Qed.
End GnuHashExamples.
