(* ===== verification/Sections.v ===== *)
(** * Sections and segments of the output file: src/generate/section.{h,cpp}, sectionlist.{h,cpp},
      the tables of headers and the padding of concretedeferred.{h,cpp}, and the passes of
      concrete.cpp that make the section table and write the file

    The output file is the concatenation of its sections.  Their offsets are computed when
    everything has been added; then the file is written, and the headers are completed from
    the offsets and sizes while they are written. *)

From Stdlib Require Import Ascii.
From S2P Require Import Prelude ChunkList Deferred.

(** ** Data *)

(** [sectionLink] is the name that the [SectionRef] holds. *)
Record SectionHeader := mkHeader {
  address : Z; shdrType : Z; shdrFlags : Z; sectionLink : option string }.

Record ElfShdr := mkShdr {
  sh_name : Z; sh_type : Z; sh_flags : Z; sh_addr : Z; sh_offset : Z; sh_size : Z; sh_link : Z; sh_info : Z;
  sh_addralign : Z; sh_entsize : Z }.
Record ElfPhdr := mkPhdr {
  p_type : Z; p_flags : Z; p_offset : Z; p_vaddr : Z; p_paddr : Z; p_filesz : Z; p_memsz : Z; p_align : Z }.

Record SegmentInfo := mkSegment {
  seg_type : Z; seg_flags : Z; alignment : Z; additionalMemSize : Z; containsList : list ptr }.

(** The classes of contents that the section table treats in their own way. *)
Inductive Kind :=
| PlainKind
| SymbolTableKind (firstGlobalIndex : Z)
| RelocKind (targetSection : ptr)      (* RelocSectionContent2 *)
| DataRelocKind
| GnuHashKind
| TBSSKind (memSize : Z).

(** An entry of the section table: the section, the name that is set at once, and the class
    of the content when the entry was made. *)
Record ShdrEntry := mkEntry { e_section : ptr; e_name : Z; e_kind : Kind }.

(** An entry of the segment table: the segment, the address it is given, and the functions that were added to the entry,
    which change its header when it is written and can see the offsets of the sections. *)
Record PhdrEntry := mkPhdrEntry {
  e_segment : SegmentInfo; e_address : option Z; e_functions : list (gmap ptr Z -> ElfPhdr -> ElfPhdr) }.

(** Contents.  A [Data] content has a fixed size and bytes that can depend on the offsets of
    the sections, as those of the ELF header do. *)
Inductive Content :=
| Data (kind : Kind) (size : nat) (write : gmap ptr Z -> list Z)
| Strings (output : list Z)
| PagePadding (previousSection : ptr) (desiredOffset : Z) (isIsolatedPadding : bool)
| ShdrTable (l : list ShdrEntry)
| PhdrTable (l : list PhdrEntry).

Record Section := mkSection {
  name : string; offset : Z; header : option SectionHeader; content : option Content }.

Record SectionList := mkList {
  sectionMap : gmap string ptr; sectionIndexMap : gmap ptr Z; sections : list ptr; sectionCount : Z }.

(** The sections by pointer, the list and the next pointer that [new] returns. *)
Record Output := mkOut { objects : gmap ptr Section; slist : SectionList; next : ptr }.

Definition set_list (o : Output) (l : SectionList) : Output := mkOut (objects o) l (next o).
Definition get (o : Output) (p : ptr) : res Section := match objects o !! p with Some s => Ok s | None => Err NullDeref end.
Definition put (o : Output) (p : ptr) (s : Section) : Output := mkOut (<[p := s]> (objects o)) (slist o) (next o).
Definition alloc (o : Output) (s : Section) : ptr * Output := (next o, mkOut (<[next o := s]> (objects o)) (slist o) (next o + 1)).

Module Section_.
(** The two constructors *)
Definition mapped (n : string) (type flags : Z) : Section := mkSection n 0 (Some (mkHeader 0 type flags None)) None.
Definition ephemeral (n : string) (c : option Content) : Section := mkSection n 0 None c.
Definition setOffset (s : Section) (off : Z) : Section := mkSection (name s) off (header s) (content s).
Definition setContent (s : Section) (c : Content) : Section := mkSection (name s) (offset s) (header s) (Some c).
Definition setHeader (s : Section) (h : SectionHeader) : Section := mkSection (name s) (offset s) (Some h) (content s).
Definition setAddress (h : SectionHeader) (a : Z) : SectionHeader := mkHeader a (shdrType h) (shdrFlags h) (sectionLink h).
Definition setShdrFlags (h : SectionHeader) (f : Z) : SectionHeader := mkHeader (address h) (shdrType h) f (sectionLink h).
Definition setSectionLink (h : SectionHeader) (n : string) : SectionHeader := mkHeader (address h) (shdrType h) (shdrFlags h) (Some n).
Definition hasHeader (s : Section) : bool := match header s with Some _ => true | None => false end.
Definition hasContent (s : Section) : bool := match content s with Some _ => true | None => false end.
End Section_.
Import Section_.

(** ** The list of sections *)
Module SectionList.
Definition new : SectionList := mkList ∅ ∅ [] 1.
Definition isAssignedAnIndex (n : string) : bool :=
  match n with String.String c _ => negb (Ascii.eqb c "="%char) | String.EmptyString => true end.

Definition addSection (o : Output) (p : ptr) : res Output :=
  s ← get o p;
  let l := slist o in
  let '(index, count) := if isAssignedAnIndex (name s) then (<[p := sectionCount l]> (sectionIndexMap l), sectionCount l + 1)
                         else (sectionIndexMap l, sectionCount l) in
  Ok (set_list o (mkList (<[name s := p]> (sectionMap l)) index (sections l ++ [p]) count)).

(** The loop of [insert], which numbers the sections again *)
Fixpoint renumber (o : Output) (l : list ptr) (i : Z) (m : gmap ptr Z) : res (gmap ptr Z) :=
  match l with
  | [] => Ok m
  | p :: l =>
    s ← get o p;
    if isAssignedAnIndex (name s) then renumber o l (i + 1) (<[p := i]> m) else renumber o l i m
  end.
Definition insert (o : Output) (at_ : nat) (p : ptr) : res Output :=
  s ← get o p;
  let l := slist o in
  let ps := take at_ (sections l) ++ p :: drop at_ (sections l) in
  m ← renumber o ps 0 ∅;
  Ok (set_list o (mkList (<[name s := p]> (sectionMap l)) m ps (sectionCount l))).

Definition lookup (l : SectionList) (n : string) : option ptr := sectionMap l !! n.
(** [back], which is undefined on an empty vector *)
Definition back (l : SectionList) : res ptr := match last (sections l) with Some p => Ok p | None => Err Undefined end.
(** [sectionIndexMap[section]] makes an entry for a section without one; the result is an [int]. *)
Definition indexOf (l : SectionList) (p : ptr) : Z * SectionList :=
  match sectionIndexMap l !! p with
  | Some i => (swrap 32 i, l)
  | None => (0, mkList (sectionMap l) (<[p := 0]> (sectionIndexMap l)) (sections l) (sectionCount l))
  end.
Definition indexOfName (l : SectionList) (n : string) : Z * SectionList :=
  match lookup l n with Some p => indexOf l p | None => (-1, l) end.
(** [SectionRef::getIndex] *)
Definition getIndex (l : SectionList) (n : string) : Z * SectionList :=
  match lookup l n with Some p => indexOf l p | None => (-1, l) end.
End SectionList.

(** ** Sizes *)
Definition PAGE_SIZE : Z := 0x1000.

(** [PagePaddingContent::getSize], from the end of the previous section *)
Definition padding (lastByte desiredOffset : Z) (isIsolatedPadding : bool) : Z :=
  if isIsolatedPadding then
    let roundToPageBoundary := u64 (Z.ldiff (u64 (lastByte + PAGE_SIZE - 1)) (PAGE_SIZE - 1) - lastByte) in
    Z.land (u64 (roundToPageBoundary + desiredOffset)) (PAGE_SIZE - 1)
  else
    Z.land (u64 (desiredOffset - Z.land lastByte (PAGE_SIZE - 1) + PAGE_SIZE)) (PAGE_SIZE - 1).

(** The size of a padding depends on the section before it, which can be a padding itself. *)
Fixpoint content_size (fuel : nat) (o : Output) (c : Content) : res Z :=
  match c with
  | Data _ n _ => Ok (Z.of_nat n)
  | Strings output => Ok (DeferredStringList.getSize output)
  | ShdrTable l => Ok (64 * Z.of_nat (length l))
  | PhdrTable l => Ok (56 * Z.of_nat (length l))
  | PagePadding p desired isolated =>
    match fuel with
    | O => Err OutOfFuel
    | S fuel =>
      s ← get o p;
      size ← (match content s with Some c => content_size fuel o c | None => Ok 0 end);
      Ok (padding (u64 (offset s + size)) desired isolated)
    end
  end.
Definition getSize (o : Output) (c : Content) : res Z := content_size (S (length (sections (slist o)))) o c.
(** [section->getContent()->getSize()] *)
Definition size_of (o : Output) (p : ptr) : res Z :=
  s ← get o p; match content s with Some c => getSize o c | None => Err NullDeref end.

(** ** The header of a section *)
Definition with_index {A} (o : Output) (r : Z * SectionList) (f : Z -> A) : A * Output := (f (u32 r.1), set_list o r.2).

Definition set_late (h : ElfShdr) (size link info align entsize : Z) : ElfShdr :=
  mkShdr (sh_name h) (sh_type h) (sh_flags h) (sh_addr h) (sh_offset h) size link info align entsize.

(** The function that [makeShdrTable] adds for a content of some class *)
Definition late (o : Output) (k : Kind) (h : ElfShdr) : ElfShdr * Output :=
  match k with
  | PlainKind => (h, o)
  | SymbolTableKind first => (set_late h (sh_size h) (sh_link h) (u32 first) 8 24, o)
  | RelocKind target =>
    let '(i, l) := SectionList.indexOf (slist o) target in
    let '(j, l) := SectionList.indexOfName l ".symtab" in
    (set_late h (sh_size h) (u32 j) (u32 i) 8 24, set_list o l)
  | DataRelocKind => with_index o (SectionList.indexOfName (slist o) ".dynsym")
      (fun j => set_late h (sh_size h) j (sh_info h) 8 24)
  | GnuHashKind => with_index o (SectionList.indexOfName (slist o) ".dynsym")
      (fun j => set_late h (sh_size h) j (sh_info h) 8 0)
  | TBSSKind size => (set_late h (u64 size) (sh_link h) (sh_info h) (sh_addralign h) (sh_entsize h), o)
  end.

(** [ShdrTableContent::add]: the function that completes the header, and the late one after it *)
Definition generate_shdr (o : Output) (e : ShdrEntry) : res (ElfShdr * Output) :=
  s ← get o (e_section e);
  h ← (match header s with Some h => Ok h | None => Err NullDeref end);
  size ← (match content s with Some c => getSize o c | None => Ok 0 end);
  let '(link, o) := match sectionLink h with
                    | Some n => with_index o (SectionList.getIndex (slist o) n) (fun i => i)
                    | None => (0, o)
                    end in
  Ok (late o (e_kind e) (mkShdr (e_name e) (shdrType h) (shdrFlags h) (address h) (offset s) size link 0 1 0)).

(** ** The header of a segment *)
Definition LINUX_KERNEL_BASE : Z := 0.

Fixpoint total_size (o : Output) (l : list ptr) (acc : Z) : res Z :=
  match l with [] => Ok acc | p :: l => size ← size_of o p; total_size o l (u64 (acc + size)) end.
(** The addresses of the sections of a segment *)
Fixpoint assign_addresses (o : Output) (l : list ptr) (a : Z) : res Output :=
  match l with
  | [] => Ok o
  | p :: l =>
    s ← get o p;
    let o := match header s with Some h => put o p (setHeader s (setAddress h a)) | None => o end in
    size ← size_of o p;
    assign_addresses o l (u64 (a + size))
  end.
Definition make_phdr (g : SegmentInfo) (offset address fileSize : Z) : ElfPhdr :=
  mkPhdr (seg_type g) (seg_flags g) offset address
    (if Z.land address LINUX_KERNEL_BASE =? LINUX_KERNEL_BASE then u64 (address - LINUX_KERNEL_BASE) else address)
    fileSize (u64 (fileSize + additionalMemSize g)) (alignment g).

(** [PhdrTableContent::add], without and with an address *)
Definition generate_phdr (o : Output) (g : SegmentInfo) (addr : option Z) : res (ElfPhdr * Output) :=
  fileSize ← total_size o (containsList g) 0;
  first ← (match containsList g with [] => Ok None | p :: _ => s ← get o p; Ok (Some s) end);
  let off := from_option offset 0 first in
  match addr with
  | None =>
    let a := match first with Some s => from_option address 0 (header s) | None => 0 end in
    Ok (make_phdr g off a fileSize, o)
  | Some a =>
    o ← assign_addresses o (containsList g) a;
    Ok (make_phdr g off a fileSize, o)
  end.
(** The functions of the entry in order, the one of [add] first *)
Definition generate_entry (off : gmap ptr Z) (o : Output) (e : PhdrEntry) : res (ElfPhdr * Output) :=
  '(h, o) ← generate_phdr o (e_segment e) (e_address e);
  Ok (foldl (fun h f => f off h) h (e_functions e), o).
(** The function that [makePhdrTable] adds to the segments of [=phdr_table] and [.interp] *)
Definition at_image_base (p : ptr) (off : gmap ptr Z) (h : ElfPhdr) : ElfPhdr :=
  let a := u64 (0x200000 + default 0 (off !! p)) in
  mkPhdr (p_type h) (p_flags h) (p_offset h) a a (p_filesz h) (p_memsz h) (p_align h).
(** [getSection], dereferenced *)
Definition getSection (o : Output) (n : string) : res ptr :=
  match SectionList.lookup (slist o) n with Some p => Ok p | None => Err NullDeref end.
(** [phdrTable->add] and [addFunction] on what it returns *)
Definition add_phdr (o : Output) (table : ptr) (e : PhdrEntry) : res Output :=
  s ← get o table;
  match content s with Some (PhdrTable l) => Ok (put o table (setContent s (PhdrTable (l ++ [e])))) | _ => Err NullDeref end.
Definition interpreter (use_musl : bool) : string :=
  if use_musl then "/lib/ld-musl-x86_64.so.1" else "/lib64/ld-linux-x86-64.so.2".
(** [BasicElfStructure::makePhdrTable]: PT_PHDR, the content of .interp, and PT_INTERP *)
Definition makePhdrTable (use_musl : bool) (o : Output) : res Output :=
  table ← getSection o "=phdr_table";
  o ← add_phdr o table (mkPhdrEntry (mkSegment 6 (Z.lor 4 1) 8 0 [table]) None [at_image_base table]);
  interpSection ← getSection o ".interp";
  s ← get o interpSection;
  let bytes := chars (interpreter use_musl) ++ [0] in
  let o := put o interpSection (setContent s (Data PlainKind (length bytes) (fun _ => bytes))) in
  add_phdr o table (mkPhdrEntry (mkSegment 3 4 1 0 [interpSection]) None [at_image_base interpSection]).
Definition assignAddressesToSections (o : Output) (g : SegmentInfo) (a : Z) : res Output :=
  assign_addresses o (containsList g) a.

(** ** Writing *)
Definition encode_shdr (h : ElfShdr) : list Z :=
  le_bytes 4 (sh_name h) ++ le_bytes 4 (sh_type h) ++ le_bytes 8 (sh_flags h) ++ le_bytes 8 (sh_addr h) ++
  le_bytes 8 (sh_offset h) ++ le_bytes 8 (sh_size h) ++ le_bytes 4 (sh_link h) ++ le_bytes 4 (sh_info h) ++
  le_bytes 8 (sh_addralign h) ++ le_bytes 8 (sh_entsize h).
Definition encode_phdr (h : ElfPhdr) : list Z :=
  le_bytes 4 (p_type h) ++ le_bytes 4 (p_flags h) ++ le_bytes 8 (p_offset h) ++ le_bytes 8 (p_vaddr h) ++
  le_bytes 8 (p_paddr h) ++ le_bytes 8 (p_filesz h) ++ le_bytes 8 (p_memsz h) ++ le_bytes 8 (p_align h).

(** [DeferredListBase::writeTo]: the values in order, each completed when it is written *)
Fixpoint write_list {A H} (f : Output -> A -> res (H * Output)) (encode : H -> list Z) (o : Output) (l : list A) :
    res (list Z * Output) :=
  match l with
  | [] => Ok ([], o)
  | a :: l => '(h, o) ← f o a; '(b, o) ← write_list f encode o l; Ok (encode h ++ b, o)
  end.
Definition offsets (o : Output) : gmap ptr Z := offset <$> objects o.
Definition write_content (o : Output) (c : Content) : res (list Z * Output) :=
  match c with
  | Data _ _ write => Ok (write (offsets o), o)
  | Strings output => Ok (DeferredStringList.writeTo output [], o)
  | PagePadding _ _ _ => size ← getSize o c; Ok (replicate (Z.to_nat size) 0, o)
  | ShdrTable l => write_list generate_shdr encode_shdr o l
  | PhdrTable l => write_list (fun o e => generate_entry (offsets o) o e) encode_phdr o l
  end.

Module ElfFileWriter.
Fixpoint update_loop (o : Output) (l : list ptr) (off : Z) : res Output :=
  match l with
  | [] => Ok o
  | p :: l =>
    s ← get o p;
    let o := put o p (setOffset s off) in
    size ← size_of o p;
    update_loop o l (u64 (off + size))
  end.
Definition updateOffsets (o : Output) : res Output := update_loop o (sections (slist o)) 0.
(** [operator <<] on a section *)
Definition write_section (o : Output) (p : ptr) : res (list Z * Output) :=
  s ← get o p; match content s with Some c => write_content o c | None => Ok ([], o) end.
Fixpoint serialize_loop (o : Output) (l : list ptr) (fs : list Z) : res (list Z * Output) :=
  match l with
  | [] => Ok (fs, o)
  | p :: l => '(b, o) ← write_section o p; serialize_loop o l (fs ++ b)
  end.
(** No file, when it cannot be opened *)
Definition serialize (is_open : bool) (o : Output) : res (option (list Z) * Output) :=
  if is_open then '(fs, o) ← serialize_loop o (sections (slist o)) []; Ok (Some fs, o) else Ok (None, o).
Definition execute (is_open : bool) (o : Output) : res (option (list Z) * Output) :=
  o ← updateOffsets o; serialize is_open o.
End ElfFileWriter.

(** ** Passes that add sections *)
Module MakePaddingSection.
Definition execute (o : Output) (desiredAlignment : Z) (isIsolatedPadding : bool) : res Output :=
  prev ← SectionList.back (slist o);
  let '(p, o) := alloc o (ephemeral (if isIsolatedPadding then "=padding" else "=intra-padding")
    (Some (PagePadding prev desiredAlignment isIsolatedPadding))) in
  SectionList.addSection o p.
End MakePaddingSection.

Module GenerateSectionTable.
Definition kind_of (c : option Content) : Kind := match c with Some (Data k _ _) => k | _ => PlainKind end.
(** [shdrTable->add(section)] and the name, in the content of .shstrtab *)
Definition add_entry (o : Output) (strtab : ptr) (p : ptr) (kind : Kind) : res (ShdrEntry * Output) :=
  s ← get o p;
  t ← get o strtab;
  match content t with
  | Some (Strings output) =>
    let '(i, output) := DeferredStringList.add output (chars (name s)) true in
    Ok (mkEntry p (u32 i) kind, put o strtab (setContent t (Strings output)))
  | _ => Err NullDeref
  end.
Fixpoint entries (o : Output) (strtab : ptr) (l : list ptr) : res (list ShdrEntry * Output) :=
  match l with
  | [] => Ok ([], o)
  | p :: l =>
    s ← get o p;
    if hasHeader s then
      '(e, o) ← add_entry o strtab p (kind_of (content s));
      '(es, o) ← entries o strtab l;
      Ok (e :: es, o)
    else entries o strtab l
  end.
Definition makeShdrTable (o : Output) : res Output :=
  o ← MakePaddingSection.execute o 0 true;
  strtab ← (match SectionList.lookup (slist o) ".shstrtab" with Some p => Ok p | None => Err NullDeref end);
  let '(null, o) := alloc o (mapped "" 0 0) in
  '(e, o) ← add_entry o strtab null PlainKind;
  '(es, o) ← entries o strtab (sections (slist o));
  let '(p, o) := alloc o (ephemeral "=shdr_table" (Some (ShdrTable (e :: es)))) in
  SectionList.addSection o p.
End GenerateSectionTable.
