(* ===== verification/SectionsProofs.v ===== *)
(** * The layout of the output file *)

From S2P Require Import Prelude ChunkList Deferred Sections.
Import Section_.

(** ** Padding *)

Lemma page_mask x : Z.land x (PAGE_SIZE - 1) = x mod 4096.
Proof. change (PAGE_SIZE - 1) with (Z.ones 12). by rewrite Z.land_ones. Qed.
Lemma page_base x : Z.ldiff x (PAGE_SIZE - 1) = x - x mod 4096.
Proof.
  change (PAGE_SIZE - 1) with (Z.ones 12). rewrite Z.ldiff_ones_r, Z.shiftl_mul_pow2, Z.shiftr_div_pow2 by lia.
  change (2 ^ 12) with 4096. pose proof (Z.div_mod x 4096 ltac:(done)). lia.
Qed.
Lemma u64_page x : u64 x mod 4096 = x mod 4096.
Proof. change 4096 with (2 ^ 12). by apply (wrap_mod 64 12). Qed.

(** Both branches of [getSize] compute the distance from the end to the wanted offset. *)
Lemma padding_eq lastByte desired isolated : padding lastByte desired isolated = (desired - lastByte) mod 4096.
Proof.
  unfold padding. destruct isolated.
  - rewrite page_mask, u64_page, page_base. set (x := u64 (lastByte + PAGE_SIZE - 1)).
    rewrite <- (Z.add_mod_idemp_l (u64 _)), u64_page, Z.add_mod_idemp_l by done.
    replace (x - x mod 4096 - lastByte + desired) with (desired - lastByte + x / 4096 * 4096)
      by (pose proof (Z.div_mod x 4096 ltac:(done)); lia).
    by rewrite Z.mod_add.
  - rewrite !page_mask, u64_page. unfold PAGE_SIZE. replace (desired - lastByte mod 4096 + 4096) with (desired - lastByte + (lastByte / 4096 + 1) * 4096)
      by (pose proof (Z.div_mod lastByte 4096 ltac:(done)); lia).
    by rewrite Z.mod_add.
Qed.
Lemma padding_aligns lastByte desired isolated :
  0 <= padding lastByte desired isolated < 4096 /\
  (lastByte + padding lastByte desired isolated) mod 4096 = desired mod 4096.
Proof.
  rewrite padding_eq. split; [by apply Z.mod_pos_bound|]. rewrite Z.add_mod_idemp_r by done. f_equal. lia.
Qed.

(** ** Outputs that differ in offsets and addresses only *)

Definition shape (s : Section) := (name s, content s, (fun h => (shdrType h, shdrFlags h, sectionLink h)) <$> header s).
Record frame (o o' : Output) : Prop := {
  fr_shape : shape <$> objects o' = shape <$> objects o;
  fr_sections : sections (slist o') = sections (slist o) }.
#[export] Instance frame_preorder : PreOrder frame.
Proof. split; [by split|]. intros a b c [H1 H2] [H3 H4]. split; congruence. Qed.
#[export] Instance frame_symmetric : Symmetric frame.
Proof. intros a b [H1 H2]. by split. Qed.

Lemma frame_lookup o o' p s : frame o o' -> objects o !! p = Some s ->
  exists s', objects o' !! p = Some s' /\ shape s' = shape s.
Proof.
  intros [Hs _] Hp. assert (E : (shape <$> objects o') !! p = (shape <$> objects o) !! p) by congruence.
  rewrite !lookup_fmap, Hp in E. destruct (objects o' !! p) as [s'|]; [|done]. exists s'. split; [done|]. by apply (inj Some) in E.
Qed.
Lemma frame_content o o' p s : frame o o' -> objects o !! p = Some s ->
  exists s', objects o' !! p = Some s' /\ content s' = content s.
Proof. intros Hf Hp. destruct (frame_lookup _ _ _ _ Hf Hp) as (s'&Hs'&[= _ E _]). eauto. Qed.

Lemma frame_put o p s s' : objects o !! p = Some s -> shape s' = shape s -> frame o (put o p s').
Proof.
  intros Hp Hs. split; [|done]. cbn. rewrite fmap_insert, Hs. apply insert_id. by rewrite lookup_fmap, Hp.
Qed.
Lemma frame_list o l : sections l = sections (slist o) -> frame o (set_list o l).
Proof. by split. Qed.

(** ** Well-formed outputs *)

Definition content_ok (o : Output) (before : list ptr) (c : Content) : Prop :=
  match c with
  | Data _ n write => forall offs, length (write offs) = n
  | Strings _ => True
  | PagePadding p _ _ => p ∈ before
  | ShdrTable l => Forall (fun e => exists s, objects o !! e_section e = Some s /\ is_Some (header s) /\
      (content s = None \/ e_section e ∈ sections (slist o))) l
  | PhdrTable l => Forall (fun e => Forall (fun p => p ∈ sections (slist o)) (containsList (e_segment e))) l
  end.
(** Every section has a content, and a padding comes after the section it follows. *)
Fixpoint ordered (o : Output) (before l : list ptr) : Prop :=
  match l with
  | [] => True
  | p :: l => p ∉ before /\ (exists s c, objects o !! p = Some s /\ content s = Some c /\ content_ok o before c) /\
      ordered o (before ++ [p]) l
  end.
Definition max_size (c : Content) : Z :=
  match c with
  | Data _ n _ => Z.of_nat n
  | Strings output => Z.of_nat (length output)
  | PagePadding _ _ _ => 4095
  | ShdrTable l => 64 * Z.of_nat (length l)
  | PhdrTable l => 56 * Z.of_nat (length l)
  end.
Definition max_of (o : Output) (p : ptr) : Z :=
  match objects o !! p with Some s => from_option max_size 0 (content s) | None => 0 end.
Definition max_total (o : Output) (l : list ptr) : Z := foldr (fun p n => max_of o p + n) 0 l.
Definition output_ok (o : Output) : Prop :=
  ordered o [] (sections (slist o)) /\ max_total o (sections (slist o)) < 2 ^ 64.

Lemma content_ok_frame o o' before c : frame o o' -> content_ok o before c -> content_ok o' before c.
Proof.
  intros Hf. destruct c; cbn; try done.
  - intros H. eapply Forall_impl; [exact H|]. intros e (s&Hs&[h Hh]&Hc). 
    destruct (frame_lookup _ _ _ _ Hf Hs) as (s'&Hs'&E). injection E as _ Ec Eh. exists s'. split; [done|].
    rewrite Ec, (fr_sections _ _ Hf). split; [|done]. rewrite Hh in Eh. destruct (header s'); [done|discriminate Eh].
  - intros H. eapply Forall_impl; [exact H|]. intros e. by rewrite (fr_sections _ _ Hf).
Qed.
Lemma ordered_frame o o' before l : frame o o' -> ordered o before l -> ordered o' before l.
Proof.
  intros Hf. revert before. induction l as [|p l IH]; intros before; [done|]. intros (H1&(s&c&Hs&Hc&Hok)&H2). cbn.
  split; [done|]. split; [|by apply IH]. destruct (frame_content _ _ _ _ Hf Hs) as (s'&Hs'&E).
  exists s', c. split; [done|]. split; [congruence|]. by eapply content_ok_frame.
Qed.
Lemma max_of_frame o o' p : frame o o' -> max_of o' p = max_of o p.
Proof.
  intros Hf. unfold max_of. destruct (objects o !! p) as [s|] eqn:E.
  - destruct (frame_content _ _ _ _ Hf E) as (s'&->&->). done.
  - destruct (objects o' !! p) as [s'|] eqn:E'; [|done].
    destruct (frame_content o' o p s' (symmetry Hf) E') as (s''&?&_). congruence.
Qed.
Lemma max_total_frame o o' l : frame o o' -> max_total o' l = max_total o l.
Proof. intros Hf. induction l as [|p l IH]; [done|].
  change (max_of o' p + max_total o' l = max_of o p + max_total o l). by rewrite IH, (max_of_frame o o'). Qed.

(** ** Sizes *)

Lemma size_fuel f f' o c n : content_size f o c = Ok n -> (f <= f')%nat -> content_size f' o c = Ok n.
Proof.
  revert f' c n. induction f as [|f IH]; intros f' c n E Hf.
  - destruct c, f'; cbn in *; done || discriminate E.
  - destruct c; try (destruct f'; exact E). destruct f' as [|f']; [lia|]. cbn in *.
    destruct (get o previousSection) as [s|]; [|done]. cbn in *. destruct (content s) as [c|]; [|done].
    destruct (content_size f o c) as [m|] eqn:Em; [|done]. by rewrite (IH f' c m Em) by lia.
Qed.

(** The size of a content depends on the offsets of the sections before it only. *)
Definition closed (o : Output) (before : list ptr) : Prop :=
  forall q s c, q ∈ before -> objects o !! q = Some s -> content s = Some c -> content_ok o before c.
Lemma size_local f o o' before c : frame o o' -> closed o before ->
  (forall q, q ∈ before -> offsets o' !! q = offsets o !! q) -> content_ok o before c ->
  content_size f o' c = content_size f o c.
Proof.
  intros Hf Hcl Ho. revert c. induction f as [|f IH]; intros c Hc; destruct c; try done. cbn in *.
  unfold get. destruct (objects o !! previousSection) as [s|] eqn:E.
  - destruct (frame_content _ _ _ _ Hf E) as (s'&E'&Ec). rewrite E'. cbn. rewrite Ec.
    pose proof (Ho _ Hc) as Eo. unfold offsets in Eo. rewrite !lookup_fmap, E, E' in Eo. injection Eo as Eo. rewrite Eo.
    destruct (content s) as [c|] eqn:Es; [|done]. rewrite (IH c); [done|]. by eapply Hcl.
  - destruct (objects o' !! previousSection) as [s'|] eqn:E'; [|done].
    destruct (frame_content o' o _ _ (symmetry Hf) E') as (s''&?&_). congruence.
Qed.

Lemma content_ok_mono o b b' c : content_ok o b c -> (forall q, q ∈ b -> q ∈ b') -> content_ok o b' c.
Proof. destruct c; cbn; auto. Qed.
Lemma ordered_at o before l1 p l2 : ordered o before (l1 ++ p :: l2) ->
  p ∉ before ++ l1 /\ ordered o (before ++ l1 ++ [p]) l2 /\
  exists s c, objects o !! p = Some s /\ content s = Some c /\ content_ok o (before ++ l1) c.
Proof.
  revert before. induction l1 as [|q l1 IH]; intros before; cbn [app ordered].
  - rewrite app_nil_r. intros (H1&H2&H3). auto.
  - intros (_&_&H). destruct (IH _ H) as (H1&H2&H3). rewrite <- !(assoc_L (++)) in *. auto.
Qed.
Lemma ordered_closed o l1 l2 : ordered o [] (l1 ++ l2) -> closed o l1.
Proof.
  intros Ho q s c Hq Hs Hc. apply list_elem_of_split in Hq as (a&b&->). rewrite <- (assoc_L (++)) in Ho.
  apply ordered_at in Ho as (_&_&s'&c'&Hs'&Hc'&Hok). assert (c' = c) as -> by congruence.
  eapply content_ok_mono; [exact Hok|]. cbn. intros x Hx. apply elem_of_app. by left.
Qed.
Lemma ordered_nodup o before l : ordered o before l -> NoDup l /\ forall p, p ∈ l -> p ∉ before.
Proof.
  revert before. induction l as [|q l IH]; intros before; [intros _; split; [constructor|]; intros p Hp; by apply elem_of_nil in Hp|].
  intros (H1&_&H2). destruct (IH _ H2) as [Hd Hn]. split.
  - constructor; [|done]. intros Hq. apply (Hn q Hq). apply elem_of_app. right. by left.
  - intros p [->|Hp]%elem_of_cons; [done|]. intros Hb. apply (Hn p Hp). apply elem_of_app. by left.
Qed.

Lemma size_exists k o l1 p l2 s c : (length l1 <= k)%nat -> ordered o [] (l1 ++ p :: l2) -> objects o !! p = Some s ->
  content s = Some c -> exists n, content_size (S (length l1)) o c = Ok n /\ 0 <= n <= max_size c.
Proof.
  revert l1 p l2 s c. induction k as [k IH] using lt_wf_ind. intros l1 p l2 s c Hk Ho Hs Hc.
  pose proof (ordered_at _ _ _ _ _ Ho) as (_&_&s'&c'&Hs'&Hc'&Hok). assert (c' = c) as -> by congruence.
  destruct c; cbn [content_size max_size]; try (eexists; split; [reflexivity|]; unfold DeferredStringList.getSize; lia).
  cbn in Hok. apply list_elem_of_split in Hok as (a&b&Ea). subst l1. rewrite <- (assoc_L (++)) in Ho. cbn [app] in Ho.
  pose proof (ordered_at _ _ _ _ _ Ho) as (_&_&sq&cq&Hsq&Hcq&_). unfold get. rewrite Hsq. cbn [mbind res_bind].
  rewrite Hcq. rewrite length_app in *. cbn [length] in *.
  destruct (IH (length a) ltac:(lia) a _ _ sq cq ltac:(lia) Ho Hsq Hcq) as (n&En&Hn).
  rewrite (size_fuel _ (length a + S (length b)) _ _ _ En) by lia. eexists. split; [reflexivity|].
  destruct (padding_aligns (u64 (offset sq + n)) desiredOffset isIsolatedPadding). lia.
Qed.
Lemma size_of_exists o p : ordered o [] (sections (slist o)) -> p ∈ sections (slist o) ->
  exists n, size_of o p = Ok n /\ 0 <= n <= max_of o p.
Proof.
  intros Ho (l1&l2&E)%list_elem_of_split. rewrite E in Ho.
  pose proof (ordered_at _ _ _ _ _ Ho) as (_&_&s&c&Hs&Hc&_).
  destruct (size_exists _ o l1 p l2 s c (le_n _) Ho Hs Hc) as (n&En&Hn). exists n. unfold size_of, max_of, get. rewrite Hs.
  cbn [mbind res_bind]. rewrite Hc. split; [|done]. unfold getSize. apply (size_fuel _ _ _ _ _ En).
  rewrite E, length_app. cbn. lia.
Qed.

(** Sizes in two outputs with the same offsets before a section. *)
Lemma size_of_local o o' l1 p l2 : frame o o' -> ordered o [] (l1 ++ p :: l2) ->
  (forall q, q ∈ l1 -> offsets o' !! q = offsets o !! q) -> size_of o' p = size_of o p.
Proof.
  intros Hf Ho Hq. pose proof (ordered_at _ _ _ _ _ Ho) as (_&_&s&c&Hs&Hc&Hok).
  destruct (frame_content _ _ _ _ Hf Hs) as (s'&Hs'&E). unfold size_of, get. rewrite Hs, Hs'. cbn [mbind res_bind].
  rewrite E, Hc. unfold getSize. rewrite (fr_sections _ _ Hf). apply (size_local _ _ _ l1); [done| |done|done].
  by apply (ordered_closed _ _ (p :: l2)).
Qed.

(** ** Offsets *)

(** The sections follow each other from an offset on. *)
Fixpoint laid (o : Output) (l : list ptr) (off : Z) : Prop :=
  match l with
  | [] => True
  | p :: l => exists s n, objects o !! p = Some s /\ offset s = off /\ size_of o p = Ok n /\ laid o l (off + n)
  end.
Definition headers (o : Output) : gmap ptr (option SectionHeader) := header <$> objects o.

Lemma max_total_pos o l : 0 <= max_total o l.
Proof.
  induction l as [|q l IH]; [done|]. change (0 <= max_of o q + max_total o l). unfold max_of at 1.
  destruct (objects o !! q) as [s|]; [|lia]. destruct (content s) as [c|]; cbn [from_option]; [|lia]. destruct c; cbn; lia.
Qed.
Import ElfFileWriter.
Lemma update_loop_laid pre post o off : sections (slist o) = pre ++ post -> ordered o [] (pre ++ post) ->
  0 <= off -> off + max_total o post < 2 ^ 64 -> exists o',
  update_loop o post off = Ok o' /\ frame o o' /\ headers o' = headers o /\ slist o' = slist o /\
  (forall p, p ∉ post -> objects o' !! p = objects o !! p) /\ laid o' post off.
Proof.
  revert pre o off. induction post as [|p post IH]; intros pre o off Es Ho Hoff Hb.
  { exists o. cbn. repeat split; done. }
  pose proof (ordered_at _ _ _ _ _ Ho) as (_&_&s&c&Hs&Hc&_).
  set (o1 := put o p (setOffset s off)). assert (Hf1 : frame o o1) by (by apply frame_put with s).
  assert (Hh1 : headers o1 = headers o).
  { unfold headers, o1. cbn. rewrite fmap_insert. apply insert_id. by rewrite lookup_fmap, Hs. }
  destruct (size_of_exists o1 p) as (n&En&Hn).
  { rewrite (fr_sections _ _ Hf1), Es. by eapply ordered_frame. }
  { rewrite (fr_sections _ _ Hf1), Es. set_solver. }
  change (off + (max_of o p + max_total o post) < 2 ^ 64) in Hb. rewrite (max_of_frame o o1) in Hn by done.
  pose proof (max_total_pos o post).
  destruct (IH (pre ++ [p]) o1 (off + n)) as (o'&Eo&Hf'&Hh'&Hl'&Hout&Hlaid).
  { by rewrite (fr_sections _ _ Hf1), Es, <- (assoc_L (++)). }
  { rewrite <- (assoc_L (++)). by eapply ordered_frame. }
  { lia. } { rewrite (max_total_frame o o1) by done. lia. }
  pose proof (ordered_nodup _ _ _ Ho) as [Hd _]. apply NoDup_app in Hd as (_&Hpre&Hd). apply NoDup_cons in Hd as [Hp _].
  exists o'. cbn [update_loop]. unfold get. rewrite Hs. cbn [mbind res_bind]. fold o1. rewrite En. cbn [mbind res_bind].
  rewrite wrap_small by lia. split; [done|]. split; [by etrans|]. split; [congruence|]. split; [done|]. split.
  - intros q Hq. rewrite Hout by set_solver. unfold o1. cbn. rewrite lookup_insert_ne; [done|]. set_solver.
  - cbn [laid]. exists (setOffset s off), n. split; [rewrite Hout by done; unfold o1; cbn; apply lookup_insert_eq|].
    split; [done|]. split; [|done]. rewrite <- En. apply (size_of_local o1 o' pre p post); [done|by eapply ordered_frame|].
    intros q Hq. unfold offsets. rewrite !lookup_fmap, Hout; [done|]. intros Hin. apply (Hpre q Hq). by right.
Qed.

Lemma updateOffsets_laid o : output_ok o -> exists o', updateOffsets o = Ok o' /\ frame o o' /\ headers o' = headers o /\
  slist o' = slist o /\ laid o' (sections (slist o')) 0.
Proof.
  intros [Ho Hb]. destruct (update_loop_laid [] (sections (slist o)) o 0 eq_refl Ho) as (o'&E&Hf&Hh&Hl&_&Hlaid); [lia|lia|].
  exists o'. rewrite Hl. done.
Qed.

(** ** Writing *)

(** What does not change while the file is written: everything but addresses of sections
    and entries of the index map for sections without an index. *)
Record same (o o' : Output) : Prop := {
  sa_frame : frame o o';
  sa_offsets : offsets o' = offsets o;
  sa_names : sectionMap (slist o') = sectionMap (slist o);
  sa_index : forall p, (SectionList.indexOf (slist o') p).1 = (SectionList.indexOf (slist o) p).1 }.
#[export] Instance same_preorder : PreOrder same.
Proof.
  split; [by split|]. intros a b c [] []. split; [by etrans|congruence|congruence|]. intros p. congruence.
Qed.
#[export] Instance same_symmetric : Symmetric same.
Proof. intros a b []. split; [by symmetry|congruence|congruence|]. intros p. congruence. Qed.

Definition same_objects (o o' : Output) : Prop := same o o' /\ objects o' = objects o.
#[export] Instance same_objects_preorder : PreOrder same_objects.
Proof. split; [by split|]. intros a b c [] []. split; [by etrans|congruence]. Qed.

Lemma size_of_same o o' p : same o o' -> ordered o [] (sections (slist o)) -> p ∈ sections (slist o) ->
  size_of o' p = size_of o p.
Proof.
  intros [Hf Ho _ _] Hord (l1&l2&E)%list_elem_of_split. rewrite E in Hord.
  apply (size_of_local o o' l1 p l2 Hf Hord). intros q _. congruence.
Qed.
Lemma laid_same o o' l off : same o o' -> ordered o [] (sections (slist o)) -> Forall (fun p => p ∈ sections (slist o)) l ->
  laid o l off -> laid o' l off.
Proof.
  intros Hs Hord Hl. revert off. induction Hl as [|p l Hp Hl IH]; intros off; [done|]. intros (s&n&Es&Eo&En&H).
  destruct (frame_lookup _ _ _ _ (sa_frame _ _ Hs) Es) as (s'&Es'&_). exists s', n. split; [done|]. split.
  - pose proof (f_equal (fun m => m !! p) (sa_offsets _ _ Hs)) as E. unfold offsets in E. cbn in E.
    rewrite !lookup_fmap, Es, Es' in E. injection E as ->. done.
  - split; [by rewrite (size_of_same o o')|by apply IH].
Qed.
Lemma ordered_same o o' : same o o' -> ordered o [] (sections (slist o)) -> ordered o' [] (sections (slist o')).
Proof. intros [Hf _ _ _] Ho. rewrite (fr_sections _ _ Hf). by eapply ordered_frame. Qed.

(** *** Indices *)
Lemma indexOf_keeps l p : sections (SectionList.indexOf l p).2 = sections l /\
  sectionMap (SectionList.indexOf l p).2 = sectionMap l /\
  forall q, (SectionList.indexOf (SectionList.indexOf l p).2 q).1 = (SectionList.indexOf l q).1.
Proof.
  unfold SectionList.indexOf at 1 2 4. destruct (sectionIndexMap l !! p) as [i|] eqn:E; cbn [snd]; [done|].
  split; [done|]. split; [done|]. intros q. unfold SectionList.indexOf. cbn [sectionIndexMap].
  destruct (decide (q = p)) as [->|]; [rewrite lookup_insert_eq, E|rewrite lookup_insert_ne by congruence; by destruct (_ !! q)].
  reflexivity.
Qed.
Lemma same_indexOf o p : same_objects o (set_list o (SectionList.indexOf (slist o) p).2).
Proof. destruct (indexOf_keeps (slist o) p) as (H1&H2&H3). split; [split; [by apply frame_list|done|done|done]|done]. Qed.
Lemma same_indexOfName o n : same_objects o (set_list o (SectionList.indexOfName (slist o) n).2).
Proof. unfold SectionList.indexOfName. destruct (SectionList.lookup _ n); [apply same_indexOf|]. by destruct o. Qed.

Lemma late_same o k h : same_objects o (late o k h).2.
Proof.
  destruct k; cbn [late]; try done; try apply same_indexOfName.
  pose proof (same_indexOf o targetSection) as H1. destruct (SectionList.indexOf (slist o) targetSection) as [i l1].
  pose proof (same_indexOfName (set_list o l1) ".symtab") as H2. cbn [snd slist set_list] in H2.
  destruct (SectionList.indexOfName l1 ".symtab") as [j l2]. cbn [snd] in *. by etrans.
Qed.

(** What the header of a section says. *)
Definition shdr_describes (o : Output) (e : ShdrEntry) (h : ElfShdr) : Prop :=
  exists s hd, objects o !! e_section e = Some s /\ header s = Some hd /\
    sh_name h = e_name e /\ sh_type h = shdrType hd /\ sh_flags h = shdrFlags hd /\ sh_addr h = address hd /\
    sh_offset h = offset s /\
    match e_kind e with
    | TBSSKind m => sh_size h = u64 m
    | _ => match content s with Some _ => size_of o (e_section e) = Ok (sh_size h) | None => sh_size h = 0 end
    end /\
    match e_kind e with
    | PlainKind | SymbolTableKind _ => sh_link h =
        match sectionLink hd with Some n => u32 (SectionList.getIndex (slist o) n).1 | None => 0 end
    | RelocKind target => sh_link h = u32 (SectionList.getIndex (slist o) ".symtab").1 /\
        sh_info h = u32 (SectionList.indexOf (slist o) target).1
    | DataRelocKind | GnuHashKind => sh_link h = u32 (SectionList.getIndex (slist o) ".dynsym").1
    | TBSSKind _ => True
    end.

Lemma getIndex_same o o' n : same o o' -> (SectionList.getIndex (slist o') n).1 = (SectionList.getIndex (slist o) n).1.
Proof.
  intros Hs. unfold SectionList.getIndex, SectionList.lookup. rewrite (sa_names _ _ Hs).
  destruct (sectionMap _ !! n); [apply (sa_index _ _ Hs)|done].
Qed.
Lemma shdr_describes_objects o o' e h : same_objects o o' -> shdr_describes o' e h -> shdr_describes o e h.
Proof.
  intros [Hs Ho] (s&hd&E&Ehd&H1&H2&H3&H4&H5&H6&H7). exists s, hd. rewrite <- Ho. repeat (split; [done|]).
  assert (Hsz : size_of o' (e_section e) = size_of o (e_section e)).
  { unfold size_of, get. rewrite Ho. destruct (objects o !! e_section e) as [s'|]; [|done]. cbn [mbind res_bind].
    destruct (content s') as [c|]; [|done]. unfold getSize. rewrite (fr_sections _ _ (sa_frame _ _ Hs)).
    generalize (S (length (sections (slist o)))). intros f. revert c. induction f as [|f IH]; intros c; destruct c; try done. cbn.
    unfold get. rewrite Ho. destruct (objects o !! previousSection); [|done]. cbn. destruct (content s0); [by rewrite IH|done]. }
  split; [rewrite <- Hsz; exact H6|].
  destruct (e_kind e); rewrite <- ?(getIndex_same o o') by done; try done.
  - destruct (sectionLink hd); [|done]. by rewrite <- (getIndex_same o o').
  - destruct (sectionLink hd); [|done]. by rewrite <- (getIndex_same o o').
  - by rewrite <- (sa_index _ _ Hs).
Qed.

Lemma generate_shdr_ok o e : ordered o [] (sections (slist o)) ->
  (exists s, objects o !! e_section e = Some s /\ is_Some (header s) /\ (content s = None \/ e_section e ∈ sections (slist o))) ->
  exists h o', generate_shdr o e = Ok (h, o') /\ same_objects o o' /\ shdr_describes o e h.
Proof.
  intros Hord (s&Es&[hd Ehd]&Hc). unfold generate_shdr, get. rewrite Es. cbn [mbind res_bind]. rewrite Ehd. cbn [mbind res_bind].
  assert (exists n, match content s with Some c => getSize o c | None => Ok 0 end = Ok n /\
    match content s with Some _ => size_of o (e_section e) = Ok n | None => n = 0 end) as (n&En&Hn).
  { destruct (content s) as [c|] eqn:Ec; [|by exists 0]. destruct Hc as [?|Hin]; [done|].
    destruct (size_of_exists o _ Hord Hin) as (n&En&_). exists n. split; [|done]. unfold size_of, get in En.
    rewrite Es in En. cbn [mbind res_bind] in En. by rewrite Ec in En. }
  rewrite En. cbn [mbind res_bind].
  set (r := match sectionLink hd with Some _ => _ | None => _ end).
  assert (Hr : same_objects o r.2 /\ r.1 = match sectionLink hd with Some n => u32 (SectionList.getIndex (slist o) n).1 | None => 0 end).
  { unfold r. destruct (sectionLink hd) as [nm|]; [|done]. split; [apply same_indexOfName|done]. }
  destruct r as [link o1]. cbn [fst snd] in Hr. destruct Hr as [Hr ->].
  set (h0 := mkShdr _ _ _ _ _ _ _ _ _ _). pose proof (late_same o1 (e_kind e) h0) as Hl.
  destruct (late o1 (e_kind e) h0) as [h o2] eqn:El. exists h, o2. cbn [snd] in Hl.
  split; [done|]. split; [by etrans|]. exists s, hd. split; [done|]. split; [done|].
  destruct (e_kind e); cbn [late with_index] in El.
  - injection El as <- _. repeat split; done.
  - injection El as <- _. repeat split; done.
  - pose proof (indexOf_keeps (slist o1) targetSection) as (K1&K2&K3).
    destruct (SectionList.indexOf (slist o1) targetSection) as [i l1] eqn:E1.
    destruct (SectionList.indexOfName l1 ".symtab") as [j l2] eqn:E2. injection El as <- _. cbn [snd] in K2, K3.
    repeat split; try done; cbn [set_late sh_link sh_info].
    + rewrite <- (getIndex_same o o1) by apply Hr. unfold SectionList.getIndex, SectionList.indexOfName, SectionList.lookup in *.
      rewrite K2 in E2. destruct (sectionMap (slist o1) !! _); [rewrite <- K3, E2; done|by injection E2 as <- _].
    + rewrite <- (sa_index _ _ (proj1 Hr)), E1. done.
  - injection El as <- _. repeat split; try done. cbn [set_late sh_link].
    by rewrite <- (getIndex_same o o1) by apply Hr.
  - injection El as <- _. repeat split; try done. cbn [set_late sh_link].
    by rewrite <- (getIndex_same o o1) by apply Hr.
  - injection El as <- _. repeat split; done.
Qed.

(** *** Lists of headers *)
Lemma write_list_ok {A H} (R : Output -> Output -> Prop) `{!PreOrder R} (f : Output -> A -> res (H * Output))
    (encode : H -> list Z) (D : Output -> A -> H -> Prop) (k : nat) o l :
  (forall h, length (encode h) = k) ->
  (forall o1 a, R o o1 -> a ∈ l -> exists h o2, f o1 a = Ok (h, o2) /\ R o1 o2 /\ D o1 a h) ->
  exists hs o', write_list f encode o l = Ok (concat (map encode hs), o') /\ R o o' /\
    length (concat (map encode hs)) = (k * length l)%nat /\ Forall2 (fun a h => exists o1, R o o1 /\ D o1 a h) l hs.
Proof.
  intros Hk. revert o. induction l as [|a l IH]; intros o Hf.
  { exists [], o. split; [done|]. split; [done|]. split; [cbn; lia|constructor]. }
  destruct (Hf o a) as (h&o1&E&Hr&Hd); [done|by left|].
  destruct (IH o1) as (hs&o'&E'&Hr'&Hl&HF). { intros o2 b Hr2 Hb. apply Hf; [by etrans|by right]. }
  exists (h :: hs), o'. cbn [write_list]. rewrite E. cbn [mbind res_bind]. rewrite E'. cbn [mbind res_bind map concat].
  split; [done|]. split; [by etrans|]. rewrite length_app, Hk, Hl. split; [cbn; lia|]. constructor; [by exists o|].
  eapply Forall2_impl; [exact HF|]. intros b h' (o2&Hr2&Hd2). exists o2. split; [by etrans|done].
Qed.
Lemma encode_shdr_length h : length (encode_shdr h) = 64%nat.
Proof. unfold encode_shdr. by rewrite !length_app, !le_bytes_length. Qed.
Lemma encode_phdr_length h : length (encode_phdr h) = 56%nat.
Proof. unfold encode_phdr. by rewrite !length_app, !le_bytes_length. Qed.

(** *** Segments *)
Lemma total_size_ok o l acc : ordered o [] (sections (slist o)) -> Forall (fun p => p ∈ sections (slist o)) l ->
  exists n, total_size o l acc = Ok n.
Proof.
  intros Ho Hl. revert acc. induction Hl as [|p l Hp Hl IH]; intros acc; cbn [total_size]; [eauto|].
  destruct (size_of_exists o p Ho Hp) as (n&->&_). apply IH.
Qed.
Lemma put_address_same o p s h a : objects o !! p = Some s -> header s = Some h ->
  same o (put o p (setHeader s (setAddress h a))).
Proof.
  intros Hs Hh. split; [| |done|done].
  - apply frame_put with s; [done|]. unfold shape. cbn. by rewrite Hh.
  - unfold offsets. cbn. rewrite fmap_insert. apply insert_id. by rewrite lookup_fmap, Hs.
Qed.
Lemma sections_in_objects o p : ordered o [] (sections (slist o)) -> p ∈ sections (slist o) -> is_Some (objects o !! p).
Proof.
  intros Ho (l1&l2&E)%list_elem_of_split. rewrite E in Ho. apply ordered_at in Ho as (_&_&s&c&Hs&_). by exists s.
Qed.

(** One step of the assignment of addresses. *)
Definition place (o : Output) (p : ptr) (a : Z) : Output :=
  match objects o !! p with
  | Some s => match header s with Some h => put o p (setHeader s (setAddress h a)) | None => o end
  | None => o
  end.
Lemma place_same o p a : same o (place o p a).
Proof.
  unfold place. destruct (objects o !! p) as [s|] eqn:Es; [|done]. destruct (header s) as [h|] eqn:Eh; [|done].
  by apply put_address_same.
Qed.
Lemma assign_step o p l a n : size_of (place o p a) p = Ok n -> is_Some (objects o !! p) ->
  assign_addresses o (p :: l) a = assign_addresses (place o p a) l (u64 (a + n)).
Proof.
  intros En [s Es]. unfold place in *. rewrite Es in *. cbn [assign_addresses]. unfold get. rewrite Es. cbn [mbind res_bind].
  destruct (header s); rewrite En; done.
Qed.
Lemma assign_same o l a : ordered o [] (sections (slist o)) -> Forall (fun p => p ∈ sections (slist o)) l ->
  exists o', assign_addresses o l a = Ok o' /\ same o o'.
Proof.
  intros Ho Hl. revert o a Ho Hl. induction l as [|p l IH]; intros o a Ho Hl; [by exists o|]. apply Forall_cons in Hl as [Hp Hl].
  pose proof (place_same o p a) as Hs. pose proof (fr_sections _ _ (sa_frame _ _ Hs)) as Es.
  destruct (size_of_exists (place o p a) p) as (n&En&_); [by eapply ordered_same|by rewrite Es|].
  rewrite (assign_step o p l a n En) by (by apply sections_in_objects).
  destruct (IH (place o p a) (u64 (a + n))) as (o'&E&Hs'); [by eapply ordered_same|by rewrite Es|].
  exists o'. split; [done|]. by etrans.
Qed.

(** What the header of a segment says. *)
Definition phdr_describes (o : Output) (e : SegmentInfo * option Z) (h : ElfPhdr) : Prop :=
  p_type h = seg_type e.1 /\ p_flags h = seg_flags e.1 /\ p_align h = alignment e.1 /\
  total_size o (containsList e.1) 0 = Ok (p_filesz h) /\ p_memsz h = u64 (p_filesz h + additionalMemSize e.1) /\
  let first := match containsList e.1 with [] => None | p :: _ => objects o !! p end in
  p_offset h = from_option offset 0 first /\
  p_vaddr h = match e.2 with
              | Some a => a
              | None => match first with Some s => from_option address 0 (header s) | None => 0 end
              end.
Lemma generate_phdr_ok o e : ordered o [] (sections (slist o)) -> Forall (fun p => p ∈ sections (slist o)) (containsList e.1) ->
  exists h o', generate_phdr o e.1 e.2 = Ok (h, o') /\ same o o' /\ phdr_describes o e h /\
    match e.2 with Some a => assign_addresses o (containsList e.1) a = Ok o' | None => o' = o end.
Proof.
  intros Ho Hl. destruct e as [g addr]. cbn [fst snd] in *. unfold generate_phdr.
  destruct (total_size_ok o (containsList g) 0 Ho Hl) as [n En]. rewrite En. cbn [mbind res_bind].
  set (first := match containsList g with [] => None | p :: _ => objects o !! p end).
  assert (Ef : match containsList g with [] => Ok None | p :: _ => s ← get o p; Ok (Some s) end = Ok first).
  { unfold first. destruct Hl as [|p l Hp Hl]; [done|]. destruct (sections_in_objects o p Ho Hp) as [s Es].
    unfold get. by rewrite Es. }
  rewrite Ef. cbn [mbind res_bind]. destruct addr as [a|].
  - destruct (assign_same o (containsList g) a Ho Hl) as (o'&E&Hs). rewrite E. cbn [mbind res_bind].
    eexists _, o'. split; [reflexivity|]. split; [done|]. split; [|done]. by repeat split.
  - eexists _, o. split; [reflexivity|]. split; [done|]. split; [|done]. by repeat split.
Qed.

(** The header of an entry: that of the segment, changed by the functions of the entry *)
Definition entry_describes (o : Output) (e : PhdrEntry) (h : ElfPhdr) : Prop :=
  exists h0, phdr_describes o (e_segment e, e_address e) h0 /\ h = foldl (fun h f => f (offsets o) h) h0 (e_functions e).

(** *** Sections *)

(** The bytes of a section in the file. *)
Definition section_written (o : Output) (p : ptr) (b : list Z) : Prop :=
  exists s c, objects o !! p = Some s /\ content s = Some c /\
    match c with
    | Data _ _ write => b = write (offsets o)
    | Strings output => b = output
    | PagePadding _ _ _ => b = replicate (length b) 0
    | ShdrTable l => exists hs, b = concat (map encode_shdr hs) /\ Forall2 (shdr_describes o) l hs
    | PhdrTable l => exists hs, b = concat (map encode_phdr hs) /\
        Forall2 (fun e h => exists o1, same o o1 /\ entry_describes o1 e h) l hs
    end.
Definition is_phdr (o : Output) (p : ptr) : bool :=
  match objects o !! p with Some s => match content s with Some (PhdrTable _) => true | _ => false end | None => false end.

Lemma write_section_ok o p : ordered o [] (sections (slist o)) -> p ∈ sections (slist o) ->
  exists b o', write_section o p = Ok (b, o') /\ same o o' /\ (is_phdr o p = false -> objects o' = objects o) /\
    size_of o p = Ok (Z.of_nat (length b)) /\ section_written o p b.
Proof.
  intros Ho Hp. destruct (size_of_exists o p Ho Hp) as (n&En&Hn).
  pose proof Hp as (l1&l2&E)%list_elem_of_split. pose proof Ho as Ho'. rewrite E in Ho'.
  apply ordered_at in Ho' as (_&_&s&c&Hs&Hc&Hok). unfold write_section, is_phdr, section_written, get. rewrite Hs.
  cbn [mbind res_bind]. rewrite Hc. cbn [write_content].
  assert (Eg : getSize o c = Ok n). { unfold size_of, get in En. rewrite Hs in En. cbn [mbind res_bind] in En. by rewrite Hc in En. }
  destruct c; cbn [content_ok write_content] in *.
  - eexists _, o. split; [reflexivity|]. split; [done|]. split; [done|]. split; [|by eexists _, _].
    rewrite Hok. rewrite En, <- Eg. done.
  - eexists _, o. split; [reflexivity|]. split; [done|]. split; [done|]. split; [by rewrite En, <- Eg|by eexists _, _].
  - rewrite Eg. cbn [mbind res_bind]. eexists _, o. split; [reflexivity|]. split; [done|]. split; [done|].
    rewrite length_replicate. split; [rewrite En; f_equal; lia|]. by eexists _, _.
  - destruct (write_list_ok same_objects generate_shdr encode_shdr shdr_describes 64 o l) as (hs&o'&Ew&[Hr1 Hr2]&Hl&HF).
    { apply encode_shdr_length. }
    { intros o1 e [H1 H2] He. destruct (generate_shdr_ok o1 e) as (h&o2&?&?&?).
      - by eapply ordered_same. - rewrite H2, (fr_sections _ _ (sa_frame _ _ H1)).
        by apply (proj1 (Forall_forall _ _) Hok).
      - by exists h, o2. }
    eexists _, o'. split; [done|]. split; [done|]. split; [done|]. split; [rewrite En, <- Eg, Hl; cbn; f_equal; lia|].
    exists s, (ShdrTable l). split; [done|]. split; [done|]. exists hs. split; [done|]. eapply Forall2_impl; [exact HF|].
    intros e h (o1&H1&H2). by eapply shdr_describes_objects.
  - destruct (write_list_ok same (fun o e => generate_entry (offsets o) o e) encode_phdr entry_describes 56 o l) as (hs&o'&Ew&Hr&Hl&HF).
    { apply encode_phdr_length. }
    { intros o1 e H1 He. destruct (generate_phdr_ok o1 (e_segment e, e_address e)) as (h&o2&E2&?&?&_).
      - by eapply ordered_same. - rewrite (fr_sections _ _ (sa_frame _ _ H1)).
        by apply (proj1 (Forall_forall _ _) Hok).
      - unfold generate_entry. cbn [fst snd] in E2. rewrite E2. cbn [mbind res_bind]. eexists _, o2. split; [done|]. split; [done|]. by exists h. }
    eexists _, o'. split; [done|]. split; [done|]. split; [done|]. split; [rewrite En, <- Eg, Hl; cbn; f_equal; lia|].
    exists s, (PhdrTable l). split; [done|]. split; [done|]. by exists hs.
Qed.

Lemma is_phdr_frame o o' p : frame o o' -> is_phdr o' p = is_phdr o p.
Proof.
  intros Hf. unfold is_phdr. destruct (objects o !! p) as [s|] eqn:E.
  - by destruct (frame_content _ _ _ _ Hf E) as (s'&->&->).
  - destruct (objects o' !! p) as [s'|] eqn:E'; [|done].
    destruct (frame_content o' o p s' (symmetry Hf) E') as (s''&?&_). congruence.
Qed.

(** The loop of [serialize] over a part of the list: what is written, in pieces. *)
Lemma serialize_loop_ok l o fs : ordered o [] (sections (slist o)) -> Forall (fun p => p ∈ sections (slist o)) l ->
  exists bs o', serialize_loop o l fs = Ok (fs ++ concat bs, o') /\ same o o' /\
    (Forall (fun p => is_phdr o p = false) l -> objects o' = objects o) /\
    Forall2 (fun p b => size_of o p = Ok (Z.of_nat (length b))) l bs /\
    (forall l1 p l2, l = l1 ++ p :: l2 -> exists o1 b, bs !! length l1 = Some b /\ same o o1 /\ section_written o1 p b /\
      (Forall (fun p => is_phdr o p = false) (p :: l2) -> objects o' = objects o1)).
Proof.
  revert o fs. induction l as [|p l IH]; intros o fs Ho Hl.
  { exists [], o. cbn. rewrite app_nil_r. repeat split; try done. intros l1 p l2 E. by destruct l1. }
  apply Forall_cons in Hl as [Hp Hl].
  destruct (write_section_ok o p Ho Hp) as (b&o1&E&Hs&Hobj&Hsz&Hw). pose proof (fr_sections _ _ (sa_frame _ _ Hs)) as Es.
  destruct (IH o1 (fs ++ b)) as (bs&o'&E'&Hs'&Hobj'&Hsz'&Hw'); [by eapply ordered_same|by rewrite Es|].
  assert (Hph : forall l', Forall (fun p => is_phdr o p = false) l' -> Forall (fun p => is_phdr o1 p = false) l').
  { intros l' H. eapply Forall_impl; [exact H|]. intros q Hq. by rewrite (is_phdr_frame o o1) by apply Hs. }
  exists (b :: bs), o'. cbn [serialize_loop concat]. rewrite E. cbn [mbind res_bind]. rewrite E', <- (assoc_L (++)).
  split; [done|]. split; [by etrans|]. split; [|split].
  - intros [H1 H2]%Forall_cons. rewrite Hobj' by auto. auto.
  - constructor; [done|]. clear -Hsz' Hs Ho Hl. induction Hsz' as [|q c l bs Hq _ IH]; [constructor|].
    apply Forall_cons in Hl as [Hin Hl]. constructor; [by rewrite <- (size_of_same o o1)|by apply IH].
  - intros l1 q l2 El. destruct l1 as [|q' l1]; cbn in El; injection El as <- ->.
    + exists o, b. split; [done|]. split; [done|]. split; [done|]. intros [H1 H2]%Forall_cons. rewrite Hobj' by auto. auto.
    + destruct (Hw' l1 q l2 eq_refl) as (o2&c&Hc&Hs2&Hw2&Ho2). exists o2, c. split; [done|]. split; [by etrans|].
      split; [done|]. auto.
Qed.

Lemma laid_piece o l off (bs : list (list Z)) l1 p l2 : laid o l off -> Forall2 (fun p b => size_of o p = Ok (Z.of_nat (length b))) l bs ->
  l = l1 ++ p :: l2 -> exists s b, objects o !! p = Some s /\ bs !! length l1 = Some b /\
    offset s = off + Z.of_nat (length (concat (take (length l1) bs))).
Proof.
  intros Hlaid HF. revert l1 off Hlaid. induction HF as [|q b l bs Hq HF IH]; intros l1 off Hlaid El; [by destruct l1|].
  destruct Hlaid as (s&n&Es&Eo&En&Hlaid). destruct l1 as [|q' l1]; cbn in El; injection El as -> ->.
  - exists s, b. cbn. split; [done|]. split; [done|]. lia.
  - destruct (IH l1 _ Hlaid eq_refl) as (s'&b'&Es'&Eb'&Eo'). exists s', b'. split; [done|]. split; [done|]. rewrite Eo'.
    cbn [length take concat]. rewrite length_app. assert (n = Z.of_nat (length b)) by congruence. lia.
Qed.
Lemma concat_piece {A} (bs : list (list A)) i b : bs !! i = Some b ->
  take (length b) (drop (length (concat (take i bs))) (concat bs)) = b.
Proof.
  intros Hb. rewrite <- (take_drop_middle bs i b Hb) at 2. rewrite concat_app, drop_app_length. cbn [concat].
  by rewrite take_app_length.
Qed.

Lemma laid_next o l off l1 p q l2 : laid o l off -> l = l1 ++ p :: q :: l2 -> exists s s' n,
  objects o !! p = Some s /\ objects o !! q = Some s' /\ size_of o p = Ok n /\ offset s' = offset s + n.
Proof.
  revert l off. induction l1 as [|x l1 IH]; intros l off Hl ->; cbn [app laid] in Hl.
  - destruct Hl as (s&n&Es&Eo&En&s'&n'&Es'&Eo'&_). exists s, s', n. split; [done|]. split; [done|]. split; [done|]. lia.
  - destruct Hl as (s&n&_&_&_&Hl). by apply (IH _ _ Hl).
Qed.

(** A padding leads to the wanted place in a page. *)
Lemma padding_end o l off l1 p q l2 s desired isolated n : laid o l off -> l = l1 ++ p :: q :: l2 ->
  objects o !! q = Some s -> content s = Some (PagePadding p desired isolated) -> size_of o q = Ok n ->
  (offset s + n) mod 4096 = desired mod 4096.
Proof.
  intros Hl El Es Ec En. destruct (laid_next _ _ _ _ _ _ _ Hl El) as (sp&s'&m&Ep&Es'&Em&Eo).
  assert (s' = s) as -> by congruence. unfold size_of, get in En, Em. rewrite Es in En. rewrite Ep in Em.
  cbn [mbind res_bind] in En, Em. rewrite Ec in En. unfold getSize in En, Em. cbn [content_size] in En. unfold get in En.
  rewrite Ep in En. cbn [mbind res_bind] in En. destruct (content sp) as [c|]; [|done].
  destruct (content_size (length (sections (slist o))) o c) as [m'|] eqn:E'; [|done]. injection En as <-.
  rewrite (size_fuel _ _ _ _ _ E') in Em by lia. injection Em as ->. rewrite Eo.
  destruct (padding_aligns (u64 (offset sp + m)) desired isolated) as [_ H]. rewrite <- H.
  rewrite <- (Z.add_mod_idemp_l (u64 _)), u64_page, Z.add_mod_idemp_l by done. done.
Qed.


(** ** Segments *)

Lemma total_size_same o o' l acc : same o o' -> ordered o [] (sections (slist o)) ->
  Forall (fun p => p ∈ sections (slist o)) l -> total_size o' l acc = total_size o l acc.
Proof.
  intros Hs Ho Hl. revert acc. induction Hl as [|p l Hp Hl IH]; intros acc; cbn [total_size]; [done|].
  rewrite (size_of_same o o') by done. destruct (size_of o p); [apply IH|done].
Qed.
Lemma place_other o p a q : q <> p -> objects (place o p a) !! q = objects o !! q.
Proof.
  intros Hq. unfold place. destruct (objects o !! p) as [s|]; [|done]. destruct (header s); [|done]. cbn.
  by rewrite lookup_insert_ne.
Qed.

(** Sections that follow each other in the file follow each other in memory. *)
Lemma laid_run l o off a : ordered o [] (sections (slist o)) -> Forall (fun p => p ∈ sections (slist o)) l -> NoDup l ->
  laid o l off -> 0 <= a -> a + max_total o l < 2 ^ 64 -> exists N o',
  0 <= N <= max_total o l /\
  (forall acc, 0 <= acc -> acc + max_total o l < 2 ^ 64 -> total_size o l acc = Ok (acc + N)) /\
  assign_addresses o l a = Ok o' /\ same o o' /\
  (forall q, q ∉ l -> objects o' !! q = objects o !! q) /\
  (forall p, p ∈ l -> exists s n, objects o !! p = Some s /\ size_of o p = Ok n /\ off <= offset s /\ offset s + n <= off + N /\
     forall h, header s = Some h -> exists s', objects o' !! p = Some s' /\
       header s' = Some (setAddress h (a + (offset s - off)))).
Proof.
  revert o off a. induction l as [|p l IH]; intros o off a Ho Hl Hd Hlaid Ha Hb.
  { exists 0, o. cbn. split; [done|]. split; [intros; f_equal; lia|]. repeat split; try done. intros p Hp. by apply elem_of_nil in Hp. }
  apply Forall_cons in Hl as [Hp Hl]. apply NoDup_cons in Hd as [Hn Hd]. destruct Hlaid as (s&n&Es&Eo&En&Hlaid).
  destruct (size_of_exists o p Ho Hp) as (n'&En'&Hn'). assert (n' = n) as -> by congruence.
  change (a + (max_of o p + max_total o l) < 2 ^ 64) in Hb. change (max_total o (p :: l)) with (max_of o p + max_total o l).
  pose proof (max_total_pos o l). pose proof (place_same o p a) as Hs1. set (o1 := place o p a) in *.
  pose proof (fr_sections _ _ (sa_frame _ _ Hs1)) as Esec. pose proof (ordered_same _ _ Hs1 Ho) as Ho1.
  destruct (IH o1 (off + n) (a + n)) as (N&o'&HN&Ht&Ea&Hs'&Hout&Hin); [done|by rewrite Esec|done| |lia| |].
  { by apply (laid_same o o1). }
  { rewrite (max_total_frame o o1) by apply Hs1. lia. }
  rewrite (max_total_frame o o1) in HN by apply Hs1.
  assert (En1 : size_of o1 p = Ok n) by (by rewrite (size_of_same o o1)).
  exists (n + N), o'. split; [lia|]. split.
  { intros acc Hacc Hacc'. cbn [total_size]. rewrite En. cbn [mbind res_bind]. rewrite wrap_small by lia.
    rewrite <- (total_size_same o o1) by done. rewrite Ht; [f_equal; lia|lia|]. rewrite (max_total_frame o o1) by apply Hs1. lia. }
  split. { rewrite (assign_step o p l a n En1) by (by exists s). rewrite wrap_small by lia. done. }
  split; [by etrans|]. split.
  { intros q Hq. rewrite Hout by set_solver. apply place_other. set_solver. }
  intros q [->|Hq]%elem_of_cons.
  - exists s, n. split; [done|]. split; [done|]. split; [lia|]. split; [lia|]. intros h Eh. rewrite Hout by done.
    unfold o1, place. rewrite Es, Eh. cbn. rewrite lookup_insert_eq. eexists. split; [done|]. cbn. do 2 f_equal. lia.
  - destruct (Hin q Hq) as (sq&m&Eq&Em&H1&H2&H3). unfold o1 in Eq. rewrite place_other in Eq by (intros ->; done).
    exists sq, m. split; [done|]. split; [rewrite <- Em; symmetry; apply (size_of_same o o1); [done|done|]|].
    { by apply (proj1 (Forall_forall _ _) Hl). }
    split; [lia|]. split; [lia|]. intros h Eh. destruct (H3 h Eh) as (s'&Es'&Eh'). exists s'. split; [done|].
    rewrite Eh'. do 2 f_equal. lia.
Qed.

Lemma laid_suffix o l1 l2 off : laid o (l1 ++ l2) off -> exists off', laid o l2 off' /\
  match l2 with [] => True | p :: _ => exists s, objects o !! p = Some s /\ offset s = off' end.
Proof.
  revert off. induction l1 as [|p l1 IH]; intros off Hl; cbn [app] in Hl.
  - exists off. split; [done|]. destruct l2; [done|]. destruct Hl as (s&n&Es&Eo&_). by exists s.
  - destruct Hl as (s&n&_&_&_&Hl). by apply (IH (off + n)).
Qed.
Lemma laid_prefix o l1 l2 off : laid o (l1 ++ l2) off -> laid o l1 off.
Proof.
  revert off. induction l1 as [|p l1 IH]; intros off Hl; [done|]. destruct Hl as (s&n&Es&Eo&En&Hl).
  exists s, n. split; [done|]. split; [done|]. split; [done|]. by apply IH.
Qed.

(** C16: a segment that is given an address and holds sections that follow each other in the
    list is mapped as its sections are: [generate_phdr] returns, the file range of the header
    holds the sections, and the address of every section differs from its offset as the
    address of the segment does, so that a loader that maps the segment puts every section
    at the address its header says.  Nothing else changes. *)
Theorem segment_mapped o g a l1 l2 first rest : output_ok o -> laid o (sections (slist o)) 0 ->
  sections (slist o) = l1 ++ containsList g ++ l2 -> containsList g = first :: rest ->
  0 <= a -> a + max_total o (containsList g) < 2 ^ 64 -> exists h o',
  generate_phdr o g (Some a) = Ok (h, o') /\ p_vaddr h = a /\ same o o' /\
  (forall q, q ∉ containsList g -> objects o' !! q = objects o !! q) /\
  (forall p, p ∈ containsList g -> exists s n, objects o !! p = Some s /\ size_of o p = Ok n /\
     p_offset h <= offset s /\ offset s + n <= p_offset h + p_filesz h /\
     forall hd, header s = Some hd -> exists s' hd', objects o' !! p = Some s' /\ header s' = Some hd' /\
       address hd' - p_vaddr h = offset s - p_offset h).
Proof.
  intros [Ho Hb] Hlaid El Eg Ha Hbound.
  assert (Hin : Forall (fun p => p ∈ sections (slist o)) (containsList g)) by (apply Forall_forall; rewrite El; set_solver).
  rewrite El in Hlaid. destruct (laid_suffix _ _ _ _ Hlaid) as (off&Hl&Hfirst). apply laid_prefix in Hl.
  assert (Hd : NoDup (containsList g)).
  { pose proof (ordered_nodup _ _ _ Ho) as [Hd _]. rewrite El in Hd. apply NoDup_app in Hd as (_&_&Hd). by apply NoDup_app in Hd as (?&_&_). }
  destruct (laid_run _ o off a Ho Hin Hd Hl Ha Hbound) as (N&o1&HN&Ht&Ea&Hs&Hout&Hsec).
  destruct (generate_phdr_ok o (g, Some a) Ho Hin) as (h&o'&E&_&(_&_&_&Hfs&_&Hoff&Hva)&Eas). cbn [fst snd] in *.
  assert (o' = o1) as -> by congruence. rewrite (Ht 0) in Hfs by lia. injection Hfs as Hfs.
  rewrite Eg in Hfirst. cbn [app] in Hfirst. destruct Hfirst as (s0&Es0&Eo0). rewrite Eg in Hoff. rewrite Es0 in Hoff. cbn in Hoff.
  exists h, o1. split; [done|]. split; [done|]. split; [done|]. split; [done|].
  intros p Hp. destruct (Hsec p Hp) as (s&n&Es&En&H1&H2&H3). exists s, n. split; [done|]. split; [done|].
  split; [lia|]. split; [lia|]. intros hd Ehd. destruct (H3 hd Ehd) as (s'&Es'&Eh'). exists s'. eexists. split; [done|].
  split; [done|]. cbn [setAddress address]. lia.
Qed.

(** ** The section table *)

Definition numbered (o : Output) (p : ptr) : bool :=
  match objects o !! p with Some s => SectionList.isAssignedAnIndex (name s) | None => false end.
Definition assigned (o : Output) (l : list ptr) : list ptr := filter (fun p => numbered o p = true) l.

(** Outputs as the passes make them. *)
Inductive listed : Output -> Prop :=
| listed_new : listed (mkOut ∅ SectionList.new 1)
| listed_alloc o s : listed o -> listed (alloc o s).2
| listed_put o p s s' : listed o -> objects o !! p = Some s -> name s' = name s -> listed (put o p s')
| listed_add o p o' : listed o -> p ∉ sections (slist o) -> SectionList.addSection o p = Ok o' -> listed o'.

Record list_ok (o : Output) : Prop := {
  lk_fresh : forall p, is_Some (objects o !! p) -> p < next o;
  lk_in : forall p, p ∈ sections (slist o) -> is_Some (objects o !! p);
  lk_nodup : NoDup (sections (slist o));
  lk_count : sectionCount (slist o) = 1 + Z.of_nat (length (assigned o (sections (slist o))));
  lk_index : forall p i, sectionIndexMap (slist o) !! p = Some i <->
    1 <= i /\ assigned o (sections (slist o)) !! Z.to_nat (i - 1) = Some p;
  lk_names : forall p s, p ∈ sections (slist o) -> objects o !! p = Some s -> exists q s',
    sectionMap (slist o) !! name s = Some q /\ q ∈ sections (slist o) /\ objects o !! q = Some s' /\ name s' = name s;
  lk_map : forall n p, sectionMap (slist o) !! n = Some p -> p ∈ sections (slist o) }.

Lemma assigned_ext o o' l : (forall p, p ∈ l -> numbered o' p = numbered o p) -> assigned o' l = assigned o l.
Proof.
  unfold assigned. induction l as [|p l IH]; intros H; [done|]. rewrite !filter_cons, (H p) by set_solver.
  rewrite IH by set_solver. done.
Qed.
Lemma numbered_eq o p s : objects o !! p = Some s -> numbered o p = SectionList.isAssignedAnIndex (name s).
Proof. unfold numbered. by intros ->. Qed.

(** The names of the listed sections stay. *)
Definition keeps_names (o : Output) (objs : gmap ptr Section) : Prop :=
  forall p s, p ∈ sections (slist o) -> objects o !! p = Some s -> exists s', objs !! p = Some s' /\ name s' = name s.
Lemma keeps_assigned o objs n : list_ok o -> keeps_names o objs ->
  assigned (mkOut objs (slist o) n) (sections (slist o)) = assigned o (sections (slist o)).
Proof.
  intros Hok Hn. apply assigned_ext. intros p Hp. destruct (lk_in o Hok p Hp) as [s Hs]. destruct (Hn p s Hp Hs) as (s'&Hs'&E).
  by rewrite (numbered_eq (mkOut objs (slist o) n) p s' Hs'), (numbered_eq o p s Hs), E.
Qed.
Lemma list_ok_objects o objs n : list_ok o -> (forall p, is_Some (objs !! p) -> p < n) -> keeps_names o objs ->
  list_ok (mkOut objs (slist o) n).
Proof.
  intros Hok Hf Hn. pose proof (keeps_assigned o objs n Hok Hn) as E. destruct Hok as [H1 H2 H3 H4 H5 H6 H7].
  split; cbn [objects slist next]; rewrite ?E; try done.
  - intros p Hp. destruct (H2 p Hp) as [s Hs]. by destruct (Hn p s Hp Hs) as (s'&->&_).
  - intros p s Hp Hs. destruct (H2 p Hp) as [s0 Hs0]. destruct (Hn p s0 Hp Hs0) as (s1&Hs1&E1).
    assert (s1 = s) as -> by congruence. destruct (H6 p s0 Hp Hs0) as (q&sq&Hq&Hin&Hsq&Eq).
    destruct (Hn q sq Hin Hsq) as (s'&Hs'&E'). exists q, s'. rewrite E1. split; [done|]. split; [done|]. split; [done|]. congruence.
Qed.
Lemma alloc_keeps o s : list_ok o -> keeps_names o (objects (alloc o s).2).
Proof.
  intros Hok p s0 Hp Hs0. exists s0. cbn. rewrite lookup_insert_ne; [done|]. intros <-.
  pose proof (lk_fresh o Hok (next o) ltac:(by exists s0)). lia.
Qed.
Lemma list_ok_alloc o s : list_ok o -> list_ok (alloc o s).2.
Proof.
  intros Hok. apply (list_ok_objects o (<[next o := s]> (objects o)) (next o + 1)); [done| |by apply alloc_keeps].
  intros p Hp. destruct (decide (p = next o)) as [->|Hne]; [lia|]. rewrite lookup_insert_ne in Hp by congruence.
  pose proof (lk_fresh o Hok p Hp). lia.
Qed.
Lemma put_keeps o p s s' : objects o !! p = Some s -> name s' = name s -> keeps_names o (objects (put o p s')).
Proof.
  intros Hp Hn q sq _ Hq. cbn. destruct (decide (q = p)) as [->|Hne].
  - exists s'. rewrite lookup_insert_eq. split; [done|]. congruence.
  - exists sq. by rewrite lookup_insert_ne.
Qed.
Lemma list_ok_put o p s s' : list_ok o -> objects o !! p = Some s -> name s' = name s -> list_ok (put o p s').
Proof.
  intros Hok Hp Hn. apply (list_ok_objects o (<[p := s']> (objects o)) (next o)); [done| |by eapply put_keeps].
  intros q Hq. apply (lk_fresh o Hok). destruct (decide (q = p)) as [->|Hne]; [by exists s|]. by rewrite lookup_insert_ne in Hq.
Qed.

(** A new section at the end of the list. *)
Lemma add_spec o p s : objects o !! p = Some s -> exists o', SectionList.addSection o p = Ok o' /\
  objects o' = objects o /\ next o' = next o /\ sections (slist o') = sections (slist o) ++ [p] /\
  sectionMap (slist o') = <[name s := p]> (sectionMap (slist o)) /\
  (if SectionList.isAssignedAnIndex (name s)
   then sectionIndexMap (slist o') = <[p := sectionCount (slist o)]> (sectionIndexMap (slist o)) /\ sectionCount (slist o') = sectionCount (slist o) + 1
   else sectionIndexMap (slist o') = sectionIndexMap (slist o) /\ sectionCount (slist o') = sectionCount (slist o)).
Proof.
  intros Hs. unfold SectionList.addSection, get. rewrite Hs. cbn [mbind res_bind].
  destruct (SectionList.isAssignedAnIndex (name s)); eexists; (split; [reflexivity|]); cbn; auto 8.
Qed.
Lemma list_ok_add o p o' : list_ok o -> p ∉ sections (slist o) -> SectionList.addSection o p = Ok o' -> list_ok o'.
Proof.
  intros Hok Hp E. destruct (objects o !! p) as [s|] eqn:Hs.
  2: { unfold SectionList.addSection, get in E. rewrite Hs in E. discriminate E. }
  destruct (add_spec o p s Hs) as (o1&E1&Eo&En&Es&Em&Ei). assert (o1 = o') as -> by congruence. clear E E1.
  assert (Ea : assigned o' (sections (slist o')) = assigned o (sections (slist o)) ++ if SectionList.isAssignedAnIndex (name s) then [p] else []).
  { rewrite Es. unfold assigned. rewrite filter_app. f_equal; [apply (assigned_ext o o'); intros q _; unfold numbered; by rewrite Eo|].
    rewrite filter_cons, (numbered_eq o' p s) by (by rewrite Eo). by destruct (SectionList.isAssignedAnIndex (name s)). }
  destruct Hok as [H1 H2 H3 H4 H5 H6 H7].
  assert (Hout : forall i, sectionIndexMap (slist o) !! p = Some i -> False).
  { intros i [_ Hi]%H5. apply Hp. apply list_elem_of_lookup_2, list_elem_of_filter in Hi. apply Hi. }
  split; rewrite ?Eo, ?En, ?Ea.
  - done.
  - rewrite Es. intros q [Hq|Hq]%elem_of_app; [by apply H2|]. apply list_elem_of_singleton in Hq as ->. by exists s.
  - rewrite Es. apply NoDup_app. split; [done|]. split; [|apply NoDup_singleton]. intros q Hq ->%list_elem_of_singleton. done.
  - rewrite length_app. destruct (SectionList.isAssignedAnIndex (name s)); destruct Ei as [_ ->]; cbn [length]; lia.
  - intros q i. destruct (SectionList.isAssignedAnIndex (name s)); destruct Ei as [-> _]; [|by rewrite app_nil_r].
    destruct (decide (q = p)) as [->|Hne].
    + rewrite lookup_insert_eq, H4. split.
      * intros [= <-]. split; [lia|]. rewrite lookup_app_r by lia.
        by replace (_ - _)%nat with 0%nat by lia.
      * intros [Hi Hl]. apply lookup_app_Some in Hl as [Hl|[Hl1 Hl2]].
        { exfalso. apply (Hout i). apply H5. done. }
        apply list_lookup_singleton_Some in Hl2 as [Hl2 _]. f_equal. lia.
    + rewrite lookup_insert_ne by congruence. rewrite H5. split; (intros [Hi Hl]; split; [done|]).
      * by apply lookup_app_l_Some.
      * apply lookup_app_Some in Hl as [Hl|[_ Hl]]; [done|]. by apply list_lookup_singleton_Some in Hl as [_ ->].
  - rewrite Es, Em. intros q sq Hq Hsq. destruct (decide (name sq = name s)) as [En'|Hne].
    + exists p, s. rewrite En', lookup_insert_eq. split; [done|]. split; [set_solver|]. done.
    + rewrite lookup_insert_ne by congruence. apply elem_of_app in Hq as [Hq|Hq]; [|apply list_elem_of_singleton in Hq as ->; congruence].
      destruct (H6 q sq Hq Hsq) as (r&sr&?&?&?&?). exists r, sr. split; [done|]. split; [set_solver|]. done.
  - rewrite Es, Em. intros n q. destruct (decide (n = name s)) as [->|Hne].
    + rewrite lookup_insert_eq. intros [= <-]. set_solver.
    + rewrite lookup_insert_ne by congruence. intros Hq%H7. set_solver.
Qed.
Lemma listed_ok o : listed o -> list_ok o.
Proof.
  induction 1; [|by apply list_ok_alloc|by eapply list_ok_put|by eapply list_ok_add].
  split; cbn; try (intros * Hp; by apply elem_of_nil in Hp).
  - intros p [s Hs]. by rewrite lookup_empty in Hs.
  - constructor.
  - done.
  - intros p i. rewrite lookup_empty. split; [done|]. by intros [_ ?].
  - intros n p. by rewrite lookup_empty.
Qed.

(** *** Entries *)
Import GenerateSectionTable.
Definition name_of (o : Output) (p : ptr) : string := from_option name "" (objects o !! p).
Definition headed (o : Output) (p : ptr) : bool := from_option hasHeader false (objects o !! p).
(** Room for the names in the table of strings *)
Definition names_size (o : Output) (l : list ptr) : Z :=
  foldr (fun p n => Z.of_nat (length (chars (name_of o p))) + 1 + n) 0 l.
Definition good_name (o : Output) (p : ptr) : Prop := Forall (fun c => 0 < c) (chars (name_of o p)).

(** The table of strings grows; names and headers stay. *)
Record grows (o o' : Output) (strtab : ptr) (out out' : list Z) : Prop := {
  gr_view : (fun s => (name s, header s)) <$> objects o' = (fun s => (name s, header s)) <$> objects o;
  gr_list : slist o' = slist o;
  gr_next : next o' = next o;
  gr_strtab : exists t, objects o' !! strtab = Some t /\ content t = Some (Strings out');
  gr_out : exists tail, out' = out ++ tail;
  gr_other : forall q, q <> strtab -> objects o' !! q = objects o !! q }.
Lemma grows_view o o' strtab out out' p : grows o o' strtab out out' -> name_of o' p = name_of o p /\ headed o' p = headed o p.
Proof.
  intros Hg. pose proof (f_equal (fun m => m !! p) (gr_view _ _ _ _ _ Hg)) as E. cbn in E. rewrite !lookup_fmap in E.
  unfold name_of, headed, hasHeader. destruct (objects o' !! p), (objects o !! p); try done. injection E as E1 E2. cbn. by rewrite E1, E2.
Qed.
Lemma grows_lookup o o' strtab out out' p s : grows o o' strtab out out' -> objects o !! p = Some s ->
  exists s', objects o' !! p = Some s' /\ name s' = name s.
Proof.
  intros Hg Hs. pose proof (f_equal (fun m => m !! p) (gr_view _ _ _ _ _ Hg)) as E. cbn beta in E.
  rewrite !lookup_fmap, Hs in E. destruct (objects o' !! p) as [s'|]; [|done]. injection E as E _. by exists s'.
Qed.
Lemma grows_back o o' strtab out out' p : grows o o' strtab out out' -> is_Some (objects o' !! p) -> is_Some (objects o !! p).
Proof.
  intros Hg [s Hs]. pose proof (f_equal (fun m => m !! p) (gr_view _ _ _ _ _ Hg)) as E. cbn beta in E.
  rewrite !lookup_fmap, Hs in E. by destruct (objects o !! p).
Qed.
Lemma grows_list_ok o o' strtab out out' : list_ok o -> grows o o' strtab out out' -> list_ok o'.
Proof.
  intros Hok Hg. destruct o' as [objs sl nx]. pose proof (gr_list _ _ _ _ _ Hg) as El. pose proof (gr_next _ _ _ _ _ Hg) as Ex.
  cbn in El, Ex. subst sl nx. apply list_ok_objects; [done| |].
  - intros p Hp. apply (lk_fresh o Hok). by eapply (grows_back _ (mkOut objs (slist o) (next o))).
  - intros p s _ Hs. exact (grows_lookup _ _ _ _ _ p s Hg Hs).
Qed.
Lemma grows_trans o1 o2 o3 st a b c : grows o1 o2 st a b -> grows o2 o3 st b c -> grows o1 o3 st a c.
Proof.
  intros [H1 H2 H3 H4 [t1 H5] H6] [K1 K2 K3 K4 [t2 K5] K6].
  split; [congruence|congruence|congruence|done|exists (t1 ++ t2); subst; by rewrite (assoc_L (++))|].
  intros q Hq. rewrite K6 by done. by apply H6.
Qed.

Lemma add_entry_ok o strtab t out p k : objects o !! strtab = Some t -> content t = Some (Strings out) ->
  is_Some (objects o !! p) -> good_name o p -> Z.of_nat (length out) < 2 ^ 32 -> exists e o',
  add_entry o strtab p k = Ok (e, o') /\ e_section e = p /\ e_kind e = k /\
  grows o o' strtab out (out ++ chars (name_of o p) ++ [0]) /\
  has_string (out ++ chars (name_of o p) ++ [0]) (e_name e) (chars (name_of o p)).
Proof.
  intros Ht Hc [s Hs] Hg Hl. unfold add_entry, get. rewrite Hs, Ht. cbn [mbind res_bind]. rewrite Hc.
  unfold good_name, name_of in *. rewrite Hs in *. cbn [from_option DeferredStringList.add] in *.
  eexists _, _. split; [reflexivity|]. split; [done|]. split; [done|]. split; [|by apply has_string_add]. split; try done.
  - cbn. rewrite fmap_insert. apply insert_id. by rewrite lookup_fmap, Ht.
  - eexists. cbn. rewrite lookup_insert_eq. done.
  - by eexists.
  - intros q Hq. cbn. by rewrite lookup_insert_ne.
Qed.

Lemma names_size_pos o l : 0 <= names_size o l.
Proof. induction l as [|p l IH]; [done|]. change (0 <= Z.of_nat (length (chars (name_of o p))) + 1 + names_size o l). lia. Qed.
Lemma names_size_ext o o' l : (forall p, name_of o' p = name_of o p) -> names_size o' l = names_size o l.
Proof.
  intros H. induction l as [|p l IH]; [done|].
  change (Z.of_nat (length (chars (name_of o' p))) + 1 + names_size o' l = Z.of_nat (length (chars (name_of o p))) + 1 + names_size o l).
  by rewrite H, IH.
Qed.

Lemma entries_ok l o strtab t out : objects o !! strtab = Some t -> content t = Some (Strings out) ->
  Forall (fun p => is_Some (objects o !! p) /\ good_name o p) l -> Z.of_nat (length out) + names_size o l < 2 ^ 32 ->
  exists es o' out', entries o strtab l = Ok (es, o') /\ grows o o' strtab out out' /\
  map e_section es = filter (fun p => headed o p = true) l /\
  Forall (fun e => has_string out' (e_name e) (chars (name_of o (e_section e)))) es.
Proof.
  revert o t out. induction l as [|p l IH]; intros o t out Ht Hc Hl Hb.
  { exists [], o, out. split; [done|]. split; [|done]. split; try done; [by exists t|exists []; by rewrite app_nil_r]. }
  apply Forall_cons in Hl as [[Hp Hg] Hl].
  change (Z.of_nat (length out) + (Z.of_nat (length (chars (name_of o p))) + 1 + names_size o l) < 2 ^ 32) in Hb.
  pose proof (names_size_pos o l). pose proof Hp as [s Hs]. cbn [entries]. unfold get. rewrite Hs. cbn [mbind res_bind].
  assert (Eh : headed o p = hasHeader s) by (unfold headed; by rewrite Hs). destruct (hasHeader s).
  2: { rewrite filter_cons_False by congruence. destruct (IH o t out Ht Hc Hl ltac:(lia)) as (es&o'&out'&H1&H2&H3&H4). by exists es, o', out'. }
  destruct (add_entry_ok o strtab t out p (kind_of (content s)) Ht Hc Hp Hg ltac:(lia)) as (e&o1&E&Ee&_&Hgr&Hstr).
  pose proof (fun q => grows_view _ _ _ _ _ q Hgr) as Hv. destruct (gr_strtab _ _ _ _ _ Hgr) as (t1&Ht1&Hc1).
  destruct (IH o1 t1 _ Ht1 Hc1) as (es&o'&out'&E'&Hgr'&Hes&Hn).
  { eapply Forall_impl; [exact Hl|]. intros q [[sq Hq] Hgq]. split; [|unfold good_name; by rewrite (proj1 (Hv q))].
    destruct (grows_lookup _ _ _ _ _ q sq Hgr Hq) as (s'&?&_). by exists s'. }
  { rewrite (names_size_ext o o1) by apply Hv. rewrite !length_app. cbn [length]. lia. }
  exists (e :: es), o', out'. rewrite E. cbn [mbind res_bind]. rewrite E'. cbn [mbind res_bind].
  split; [done|]. split; [by eapply grows_trans|]. cbn [map]. rewrite Ee, Hes, filter_cons_True by done. split.
  - f_equal. clear -Hv. induction l as [|q l IHl]; [done|].
    rewrite !filter_cons, (proj2 (Hv q)), IHl. done.
  - constructor.
    + rewrite Ee. destruct (gr_out _ _ _ _ _ Hgr') as [tail ->]. by apply has_string_app.
    + eapply Forall_impl; [exact Hn|]. intros e'. cbn beta. by rewrite (proj1 (Hv _)).
Qed.

(** What [makeShdrTable] needs: a table of strings for the names, and that the sections with
    a header are those that are numbered. *)
Record table_ready (o : Output) (strtab : ptr) (out : list Z) : Prop := {
  tr_listed : listed o;
  tr_strtab : SectionList.lookup (slist o) ".shstrtab" = Some strtab;
  tr_content : exists t, objects o !! strtab = Some t /\ content t = Some (Strings out);
  tr_sections : Forall (fun p => headed o p = numbered o p /\ good_name o p) (sections (slist o));
  tr_room : Z.of_nat (length out) + names_size o (sections (slist o)) + 10 < 2 ^ 32;
  tr_count : Z.of_nat (length (sections (slist o))) < 2 ^ 31 - 1 }.

(** A new section without an index at the end of the list. *)
Lemma append_unnumbered o s : list_ok o -> SectionList.isAssignedAnIndex (name s) = false -> exists o',
  SectionList.addSection (alloc o s).2 (next o) = Ok o' /\ list_ok o' /\ objects o' = <[next o := s]> (objects o) /\
  next o' = next o + 1 /\ sections (slist o') = sections (slist o) ++ [next o] /\
  sectionMap (slist o') = <[name s := next o]> (sectionMap (slist o)) /\ sectionIndexMap (slist o') = sectionIndexMap (slist o).
Proof.
  intros Hok Hn. pose proof (list_ok_alloc o s Hok) as Hok1.
  destruct (add_spec (alloc o s).2 (next o) s) as (o'&E&Eo&En&Es&Em&Ei); [cbn; by rewrite lookup_insert_eq|].
  exists o'. split; [done|]. split.
  - eapply list_ok_add; [exact Hok1| |exact E]. cbn. intros Hin.
    pose proof (lk_fresh o Hok _ (lk_in o Hok _ Hin)). lia.
  - rewrite Hn in Ei. destruct Ei as [Ei _]. done.
Qed.

Section table.
Context (o : Output) (strtab : ptr) (out : list Z) (Hr : table_ready o strtab out).
Let Hok : list_ok o := listed_ok o (tr_listed _ _ _ Hr).

Lemma old_fresh p : p ∈ sections (slist o) -> p < next o.
Proof. intros Hp. apply (lk_fresh o Hok), (lk_in o Hok), Hp. Qed.
Lemma strtab_in : strtab ∈ sections (slist o).
Proof. apply (lk_map o Hok ".shstrtab"), (tr_strtab _ _ _ Hr). Qed.

Lemma holds_filter o' : (forall p, p ∈ sections (slist o) -> headed o' p = headed o p) ->
  filter (fun p => headed o' p = true) (sections (slist o)) = assigned o (sections (slist o)).
Proof.
  pose proof (tr_sections _ _ _ Hr) as HF. unfold assigned. induction HF as [|p l [Hp _] HF IH]; intros Hh; [done|].
  rewrite !filter_cons, (Hh p) by set_solver. rewrite Hp, IH by set_solver. done.
Qed.

(** The output after the padding, the null section and its entry *)
Record prepared (o3 : Output) (t3 : Section) : Prop := {
  pr_ok : list_ok o3;
  pr_next : next o3 = next o + 2;
  pr_index : sectionIndexMap (slist o3) = sectionIndexMap (slist o);
  pr_map : sectionMap (slist o3) = <["=padding" := next o]> (sectionMap (slist o));
  pr_strtab : objects o3 !! strtab = Some t3 /\ content t3 = Some (Strings (out ++ [0]));
  pr_old : forall p, p ∈ sections (slist o) -> is_Some (objects o3 !! p) /\ name_of o3 p = name_of o p /\ headed o3 p = headed o p;
  pr_pad : is_Some (objects o3 !! next o) /\ name_of o3 (next o) = "=padding" /\ headed o3 (next o) = false }.

Lemma prepare_ok : exists o3 t3 e0, prepared o3 t3 /\ makeShdrTable o =
  ('(es, o4) ← entries o3 strtab (sections (slist o) ++ [next o]);
   SectionList.addSection (alloc o4 (ephemeral "=shdr_table" (Some (ShdrTable (e0 :: es))))).2 (next o4)).
Proof.
  pose proof (old_fresh _ strtab_in) as Hst. destruct (tr_content _ _ _ Hr) as (t&Ht&Hc).
  assert (exists b, last (sections (slist o)) = Some b) as [b Eb].
  { pose proof strtab_in as Hin. destruct (last (sections (slist o))) as [b|] eqn:El; [by exists b|].
    apply last_None in El. rewrite El in Hin. by apply elem_of_nil in Hin. }
  set (pad := ephemeral "=padding" (Some (PagePadding b 0 true))).
  destruct (append_unnumbered o pad Hok eq_refl) as (o1&E1&Hok1&Eo1&En1&Es1&Em1&Ei1). change (name pad) with "=padding" in Em1.
  set (null := mapped "" 0 0). set (o2 := (alloc o1 null).2).
  assert (Hlook : forall p, p < next o -> objects o2 !! p = objects o !! p).
  { intros p Hp. unfold o2. cbn. rewrite lookup_insert_ne, Eo1, lookup_insert_ne by lia. done. }
  assert (Hpad : objects o2 !! next o = Some pad).
  { unfold o2. cbn. rewrite lookup_insert_ne, Eo1, lookup_insert_eq by lia. done. }
  assert (Hnull : objects o2 !! next o1 = Some null) by (unfold o2; cbn; apply lookup_insert_eq).
  pose proof (tr_room _ _ _ Hr) as Hroom. pose proof (names_size_pos o (sections (slist o))).
  destruct (add_entry_ok o2 strtab t out (next o1) PlainKind) as (e0&o3&E3&_&_&Hg3&_);
    [by rewrite Hlook|done|by exists null|unfold good_name, name_of; rewrite Hnull; constructor|lia|].
  assert (En : name_of o2 (next o1) = "") by (unfold name_of; by rewrite Hnull). rewrite En in Hg3. cbn [chars app] in Hg3.
  destruct (gr_strtab _ _ _ _ _ Hg3) as (t3&Ht3&Hc3). pose proof (fun q => grows_view _ _ _ _ _ q Hg3) as Hv3.
  exists o3, t3, e0. split.
  - split; rewrite ?(gr_list _ _ _ _ _ Hg3); try done.
    + eapply grows_list_ok, Hg3. by apply list_ok_alloc.
    + rewrite (gr_next _ _ _ _ _ Hg3). cbn. lia.
    + intros p Hp. rewrite (proj1 (Hv3 p)), (proj2 (Hv3 p)). pose proof (lk_in o Hok p Hp) as [s Hs].
      rewrite <- Hlook in Hs by (by apply old_fresh). destruct (grows_lookup _ _ _ _ _ p s Hg3 Hs) as (s'&?&_).
      split; [by exists s'|]. unfold name_of, headed. by rewrite Hlook by (by apply old_fresh).
    + rewrite (proj1 (Hv3 _)), (proj2 (Hv3 _)). destruct (grows_lookup _ _ _ _ _ _ pad Hg3 Hpad) as (s'&?&_).
      split; [by exists s'|]. unfold name_of, headed. by rewrite Hpad.
  - unfold makeShdrTable, MakePaddingSection.execute, SectionList.back. rewrite Eb. cbn [mbind res_bind alloc]. fold pad.
    change (mkOut (<[next o := pad]> (objects o)) (slist o) (next o + 1)) with (alloc o pad).2. rewrite E1. cbn [mbind res_bind].
    unfold SectionList.lookup. rewrite Em1, lookup_insert_ne by done.
    pose proof (tr_strtab _ _ _ Hr) as Hl. unfold SectionList.lookup in Hl. rewrite Hl. cbn [mbind res_bind]. fold null.
    change (mkOut (<[next o1 := null]> (objects o1)) (slist o1) (next o1 + 1)) with o2. rewrite E3. cbn [mbind res_bind].
    rewrite (gr_list _ _ _ _ _ Hg3). change (slist o2) with (slist o1). by rewrite Es1.
Qed.

Lemma prepared_names o3 t3 : prepared o3 t3 ->
  names_size o3 (sections (slist o) ++ [next o]) = names_size o (sections (slist o)) + 9.
Proof.
  intros Hp. unfold names_size. rewrite foldr_app. cbn [foldr]. rewrite (proj1 (proj2 (pr_pad _ _ Hp))).
  change (Z.of_nat (length (chars "=padding")) + 1 + 0) with 9. pose proof (pr_old _ _ Hp) as Hn.
  induction (sections (slist o)) as [|p l IH]; [done|]. cbn [foldr]. rewrite IH by (intros q Hq; apply Hn; by right).
  destruct (Hn p ltac:(by left)) as (_&->&_). lia.
Qed.

Lemma makeShdrTable_ok : exists o' es e0 out' st,
  makeShdrTable o = Ok o' /\ last (sections (slist o')) = Some (next o + 2) /\
  objects o' !! (next o + 2) = Some st /\ content st = Some (ShdrTable (e0 :: es)) /\
  (exists t, objects o' !! strtab = Some t /\ content t = Some (Strings out')) /\
  map e_section es = assigned o (sections (slist o)) /\
  Forall (fun e => has_string out' (e_name e) (chars (name_of o (e_section e)))) es /\
  sectionIndexMap (slist o') = sectionIndexMap (slist o) /\
  sectionMap (slist o') = <["=shdr_table" := next o + 2]> (<["=padding" := next o]> (sectionMap (slist o))).
Proof.
  destruct prepare_ok as (o3&t3&e0&Hp&E). destruct (pr_strtab _ _ Hp) as [Ht3 Hc3]. pose proof (pr_pad _ _ Hp) as (Hpad&Hpn&Hph).
  pose proof (tr_room _ _ _ Hr) as Hroom. pose proof (old_fresh _ strtab_in) as Hst.
  destruct (entries_ok (sections (slist o) ++ [next o]) o3 strtab t3 (out ++ [0]) Ht3 Hc3) as (es&o4&out'&E4&Hg4&Hes&Hstr).
  { apply Forall_app. split; [|constructor; [|constructor]].
    - apply Forall_forall. intros p Hin. destruct (pr_old _ _ Hp p Hin) as (Hs&En&_). split; [done|].
      unfold good_name. rewrite En. apply (proj1 (Forall_forall _ _) (tr_sections _ _ _ Hr) p Hin).
    - split; [done|]. unfold good_name. rewrite Hpn. repeat constructor. }
  { rewrite (prepared_names o3 t3 Hp), length_app. cbn [length]. lia. }
  pose proof (grows_list_ok _ _ _ _ _ (pr_ok _ _ Hp) Hg4) as Hok4. rewrite E4 in E. cbn [mbind res_bind] in E.
  set (tab := ephemeral "=shdr_table" (Some (ShdrTable (e0 :: es)))) in *.
  destruct (append_unnumbered o4 tab Hok4 eq_refl) as (o5&E5&_&Eo5&_&Es5&Em5&Ei5). change (name tab) with "=shdr_table" in Em5.
  pose proof (gr_list _ _ _ _ _ Hg4) as El4.
  assert (En4 : next o4 = next o + 2) by (by rewrite (gr_next _ _ _ _ _ Hg4), (pr_next _ _ Hp)). rewrite En4 in *.
  exists o5, es, e0, out', tab. split; [congruence|].
  split; [by rewrite Es5, last_snoc|]. split; [by rewrite Eo5, lookup_insert_eq|]. split; [done|]. split.
  { destruct (gr_strtab _ _ _ _ _ Hg4) as (t4&Ht4&Hc4). exists t4. rewrite Eo5, lookup_insert_ne by lia. done. }
  split.
  { rewrite Hes, filter_app, (filter_cons_False _ (next o)), app_nil_r by (by rewrite Hph). apply holds_filter.
    intros p Hin. by destruct (pr_old _ _ Hp p Hin) as (_&_&?). }
  split; [|by rewrite Ei5, El4, (pr_index _ _ Hp), Em5, El4, (pr_map _ _ Hp)].
  apply Forall_forall. intros e He. pose proof (proj1 (Forall_forall _ _) Hstr e He) as H1. cbn beta in H1.
  assert (Hin : e_section e ∈ map e_section es) by (by apply list_elem_of_fmap_2).
  rewrite Hes in Hin. apply list_elem_of_filter in Hin as [Hh Hin]. apply elem_of_app in Hin as [Hin|Hin].
  - by destruct (pr_old _ _ Hp _ Hin) as (_&<-&_).
  - apply list_elem_of_singleton in Hin. rewrite Hin, Hph in Hh. done.
Qed.
End table.

Lemma not_numbered_name n : SectionList.isAssignedAnIndex n = true -> n <> "=padding" /\ n <> "=shdr_table".
Proof. intros H. split; intros ->; discriminate H. Qed.

(** C17: [makeShdrTable] returns on every list of sections in which those with a header are
    those that [SectionList] numbers, and the two agree: the table holds the header of a
    section at the index that [indexOf] gives for it, under the name that .shstrtab has for
    the entry, and a reference by name leads to that index when the name is unique. *)
Theorem section_table_indices o strtab out : table_ready o strtab out -> exists o' table st es out' t,
  makeShdrTable o = Ok o' /\ last (sections (slist o')) = Some table /\ objects o' !! table = Some st /\
  content st = Some (ShdrTable es) /\ objects o' !! strtab = Some t /\ content t = Some (Strings out') /\
  (forall p, p ∈ sections (slist o) -> headed o p = true -> exists e,
     let i := (SectionList.indexOf (slist o') p).1 in
     0 < i /\ es !! Z.to_nat i = Some e /\ e_section e = p /\ has_string out' (e_name e) (chars (name_of o p)) /\
     ((forall q, q ∈ sections (slist o) -> name_of o q = name_of o p -> q = p) ->
      (SectionList.getIndex (slist o') (name_of o p)).1 = i)) /\
  length es = S (length (filter (fun p => headed o p = true) (sections (slist o)))).
Proof.
  intros Hr. pose proof (listed_ok o (tr_listed _ _ _ Hr)) as Hok.
  destruct (makeShdrTable_ok o strtab out Hr) as (o'&es&e0&out'&st&E&El&Est&Ec&(t&Et&Ect)&Hes&Hstr&Ei&Em).
  exists o', (next o + 2), st, (e0 :: es), out', t. do 6 (split; [done|]). split.
  2: { cbn [length]. f_equal. rewrite (holds_filter o strtab out Hr) by done. by rewrite <- Hes, length_map. }
  intros p Hp Hh. destruct (proj1 (Forall_forall _ _) (tr_sections _ _ _ Hr) p Hp) as [Hnum _].
  assert (Ha : p ∈ assigned o (sections (slist o))) by (apply list_elem_of_filter; split; congruence).
  apply list_elem_of_lookup in Ha as [j Hj]. pose proof (lookup_lt_Some _ _ _ Hj) as Hlt.
  assert (Hjlt : (j < length (sections (slist o)))%nat).
  { eapply Nat.lt_le_trans; [exact Hlt|]. unfold assigned. apply length_filter. }
  pose proof (tr_count _ _ _ Hr) as Hcount.
  assert (Hindex : (SectionList.indexOf (slist o') p).1 = Z.of_nat j + 1).
  { unfold SectionList.indexOf. rewrite Ei, (proj2 (lk_index o Hok p (Z.of_nat j + 1))).
    - cbn [fst]. unfold swrap. rewrite Z.mod_small; lia.
    - split; [lia|]. by replace (Z.to_nat (Z.of_nat j + 1 - 1)) with j by lia. }
  rewrite <- Hes, list_lookup_fmap in Hj. destruct (es !! j) as [e|] eqn:Ee; [|done]. injection Hj as Hj.
  exists e. cbn zeta. rewrite Hindex. split; [lia|]. replace (Z.to_nat (Z.of_nat j + 1)) with (S j) by lia.
  split; [done|]. split; [done|]. split.
  { pose proof (proj1 (Forall_forall _ _) Hstr e ltac:(by eapply list_elem_of_lookup_2)) as Hn. cbn beta in Hn. by rewrite Hj in Hn. }
  intros Huniq. rewrite <- Hindex. unfold SectionList.getIndex, SectionList.lookup. rewrite Em.
  pose proof (lk_in o Hok p Hp) as [s Hs]. rewrite Hh, (numbered_eq o p s Hs) in Hnum. symmetry in Hnum.
  assert (En : name_of o p = name s) by (unfold name_of; by rewrite Hs). rewrite En in *.
  destruct (not_numbered_name _ Hnum) as [N1 N2]. rewrite !lookup_insert_ne by congruence.
  destruct (lk_names o Hok p s Hp Hs) as (q&sq&Hq&Hin&Hsq&Enq). rewrite Hq.
  assert (q = p) as ->; [|done]. apply Huniq; [done|]. unfold name_of. by rewrite Hsq.
Qed.

Module SectionsExamples.
Definition add_new (o : Output) (s : Section) : Output :=
  match SectionList.addSection (alloc o s).2 (next o) with Ok o' => o' | Err _ => o end.
Lemma listed_add_new o s : listed o -> listed (add_new o s).
Proof.
  intros Hl. unfold add_new. destruct (SectionList.addSection (alloc o s).2 (next o)) as [o'|] eqn:E; [|done].
  eapply listed_add; [by apply listed_alloc| |exact E]. intros Hin. pose proof (listed_ok o Hl) as Hok.
  pose proof (lk_fresh o Hok _ (lk_in o Hok _ Hin)). lia.
Qed.
Definition with_content (s : Section) (c : Content) : Section := setContent s c.

(** A header of 64 bytes, the segment table, the names, and code that is mapped after a padding. *)
Definition segment : SegmentInfo := mkSegment 1 5 0x1000 0 [5; 6].
Definition basic : Output := foldl add_new (mkOut ∅ SectionList.new 1)
  [ephemeral "=elfheader" (Some (Data PlainKind 64 (fun _ => repeat 0x7f 64)));
   ephemeral "=phdr_table" (Some (PhdrTable [mkPhdrEntry segment (Some 0x401234) []]));
   with_content (mapped ".shstrtab" 3 0) (Strings []);
   ephemeral "=padding" (Some (PagePadding 3 0x234 true));
   with_content (mapped ".text" 1 6) (Data PlainKind 10 (fun _ => repeat 0x90 10));
   with_content (mapped ".init_array" 14 3) (Data PlainKind 8 (fun _ => repeat 1 8))].
(** The two segments that [makePhdrTable] adds: their addresses are the image base plus the offsets of the sections, and
    .interp holds the name of the interpreter. *)
Definition interpreted : Output := foldl add_new (mkOut ∅ SectionList.new 1)
  [ephemeral "=elfheader" (Some (Data PlainKind 64 (fun _ => repeat 0x7f 64)));
   ephemeral "=phdr_table" (Some (PhdrTable []));
   mapped ".interp" 1 2].
Definition words_at (file : list Z) (l : list Z) : list (list Z) := map (fun a => take 8 (drop (Z.to_nat a) file)) l.
Example phdr_at_image_base :
  (o ← makePhdrTable false interpreted; '(file, _) ← ElfFileWriter.execute true o;
   Ok (words_at (default [] file) [64 + 16; 64 + 24; 120 + 16; 120 + 24; 176])) =
  Ok [le_bytes 8 0x200040; le_bytes 8 0x200040; le_bytes 8 0x2000b0; le_bytes 8 0x2000b0; take 8 (chars "/lib64/ld-linux-x86-64.so.2")].
Proof. vm_compute. reflexivity. Qed.

Definition complete : Output := match makeShdrTable basic with Ok o => o | Err _ => basic end.

Lemma basic_listed : listed basic.
Proof. unfold basic. cbn [foldl]. repeat apply listed_add_new. apply listed_new. Qed.
Lemma basic_ready : table_ready basic 3 [].
Proof.
  split; [exact basic_listed|vm_compute; reflexivity| | |vm_compute; reflexivity|vm_compute; reflexivity].
  - eexists. split; [vm_compute; reflexivity|reflexivity].
  - vm_compute. repeat constructor.
Qed.

(** Checks that can be evaluated *)
Definition get_content (o : Output) (p : ptr) : option Content := objects o !! p ≫= content.
Definition entry_ok (o : Output) (e : ShdrEntry) : bool :=
  match objects o !! e_section e with
  | Some s => hasHeader s && (negb (hasContent s) || bool_decide (e_section e ∈ sections (slist o)))
  | None => false
  end.
Lemma entries_checked o before l : forallb (entry_ok o) l = true -> content_ok o before (ShdrTable l).
Proof.
  intros H. cbn. apply Forall_forall. intros e He%list_elem_of_In. pose proof (proj1 (forallb_forall _ _) H e He) as Hb.
  unfold entry_ok in Hb. destruct (objects o !! e_section e) as [s|]; [|done]. exists s. split; [done|].
  apply andb_true_iff in Hb as [H1 H2]. unfold hasHeader, hasContent in *. destruct (header s); [|done]. split; [by eexists|].
  destruct (content s); [right|by left]. by apply bool_decide_eq_true_1 in H2.
Qed.
Fixpoint contents_ok (o : Output) (before l : list ptr) (cs : list Content) : Prop :=
  match l, cs with
  | p :: l, c :: cs => p ∉ before /\ content_ok o before c /\ contents_ok o (before ++ [p]) l cs
  | _, _ => True
  end.
Lemma ordered_contents o before l cs : map (get_content o) l = map Some cs -> contents_ok o before l cs -> ordered o before l.
Proof.
  revert before cs. induction l as [|p l IH]; intros before [|c cs] E Hok; try done. injection E as Ep E.
  destruct Hok as (H1&H2&H3). split; [done|]. split; [|by apply (IH _ cs)]. unfold get_content in Ep.
  destruct (objects o !! p) as [s|]; [|done]. by exists s, c.
Qed.
Definition listed_contents (o : Output) : list Content := omap (get_content o) (sections (slist o)).
Lemma complete_ok : output_ok complete.
Proof.
  split; [|vm_compute; reflexivity]. apply (ordered_contents _ _ _ (listed_contents complete)); [vm_compute; reflexivity|].
  let v := eval vm_compute in (listed_contents complete) in change (listed_contents complete) with v.
  let v := eval vm_compute in (sections (slist complete)) in change (sections (slist complete)) with v.
  cbn [contents_ok].
  repeat match goal with |- _ /\ _ => split end; try exact I;
    match goal with
    | |- not _ => apply (bool_decide_unpack _); vm_compute; exact I
    | |- content_ok _ _ (Data _ _ _) => intros offs; reflexivity
    | |- content_ok _ _ (Strings _) => exact I
    | |- content_ok _ _ (PagePadding _ _ _) => cbn [content_ok]; apply (bool_decide_unpack _); vm_compute; exact I
    | |- content_ok _ _ (PhdrTable _) => cbn [content_ok]; repeat (apply Forall_cons; split); try apply Forall_nil_2;
        apply (bool_decide_unpack _); vm_compute; exact I
    | |- content_ok _ _ (ShdrTable _) => apply entries_checked; vm_compute; reflexivity
    end.
Qed.


Lemma output_ok_frame o o' : frame o o' -> output_ok o -> output_ok o'.
Proof.
  intros Hf [Ho Hb]. split; rewrite (fr_sections _ _ Hf); [by eapply ordered_frame|]. by rewrite (max_total_frame o o').
Qed.
Definition offsets_or (o : Output) : Output := match ElfFileWriter.updateOffsets o with Ok o' => o' | Err _ => o end.
Lemma offsets_or_ok o : output_ok o -> output_ok (offsets_or o) /\ laid (offsets_or o) (sections (slist (offsets_or o))) 0.
Proof.
  intros Hok. destruct (updateOffsets_laid o Hok) as (o'&E&Hf&_&_&Hl). unfold offsets_or. rewrite E.
  split; [by eapply output_ok_frame|exact Hl].
Qed.
Definition laid_out : Output := offsets_or complete.
Lemma laid_out_ok : output_ok laid_out /\ laid laid_out (sections (slist laid_out)) 0.
Proof. exact (offsets_or_ok complete complete_ok). Qed.
Lemma segment_mapped_witness : output_ok laid_out /\ laid laid_out (sections (slist laid_out)) 0 /\
  sections (slist laid_out) = [1; 2; 3; 4] ++ containsList segment ++ [7; 9] /\
  exists h o', generate_phdr laid_out segment (Some 0x401234) = Ok (h, o') /\ p_vaddr h = 0x401234.
Proof.
  split; [exact (proj1 laid_out_ok)|]. split; [exact (proj2 laid_out_ok)|]. split; [vm_compute; reflexivity|].
  destruct (segment_mapped laid_out segment 0x401234 [1; 2; 3; 4] [7; 9] 5 [6]) as (h&o'&E&Hv&_).
  - exact (proj1 laid_out_ok).
  - exact (proj2 laid_out_ok).
  - vm_compute; reflexivity.
  - reflexivity.
  - lia.
  - vm_compute; reflexivity.
  - exists h, o'. split; [exact E|exact Hv].
Defined.
(** The header of the segment and the addresses of its sections, evaluated *)
Example segment_header : match generate_phdr laid_out segment (Some 0x401234) with
  | Ok (h, o') => (p_offset h, p_filesz h, map (fun p => option_map address (objects o' !! p ≫= header)) [5; 6])
  | Err _ => (0, 0, [])
  end = (0x234, 18, [Some 0x401234; Some 0x40123e]).
Proof. vm_compute. reflexivity. Qed.

Lemma section_table_indices_witness : table_ready basic 3 [] /\ exists o' i, makeShdrTable basic = Ok o' /\
  (SectionList.indexOf (slist o') 5).1 = i /\ (SectionList.getIndex (slist o') ".text").1 = i.
Proof.
  split; [exact basic_ready|].
  destruct (section_table_indices basic 3 [] basic_ready) as (o'&table&st&es&out'&t&E&_&_&_&_&_&Hi&_).
  destruct (Hi 5) as (e&Hpos&_&_&_&Hname); [apply (bool_decide_unpack _); vm_compute; exact I|vm_compute; reflexivity|].
  exists o', (SectionList.indexOf (slist o') 5).1. split; [exact E|]. split; [reflexivity|].
  change ".text" with (name_of basic 5). apply Hname. change (sections (slist basic)) with [1; 2; 3; 4; 5; 6].
  intros q Hq. repeat (apply elem_of_cons in Hq as [->|Hq]; [vm_compute; intros Hn; first [reflexivity|discriminate Hn]|]).
  exfalso. exact (not_elem_of_nil _ Hq).
Defined.

(** Both kinds of padding have one size: an isolated padding does not keep the sections
    around it on different pages. *)
Example isolated_padding_same lastByte desired : padding lastByte desired true = padding lastByte desired false.
Proof. by rewrite !padding_eq. Qed.
(** A section with a header whose name starts with the mark of sections without an index, or
    one without a header and without the mark, shifts the indices. *)
Example headless_section_shifts :
  match makeShdrTable (foldl add_new (mkOut ∅ SectionList.new 1)
      [ephemeral ".elfheader" (Some (Data PlainKind 64 (fun _ => repeat 0 64)));
       with_content (mapped ".shstrtab" 3 0) (Strings [])]) with
  | Ok o => ((SectionList.getIndex (slist o) ".shstrtab").1,
             match last (sections (slist o)) ≫= get_content o with Some (ShdrTable l) => map e_section l | _ => [] end)
  | Err _ => (0, [])
  end = (2, [4; 2]).
Proof. vm_compute. reflexivity. Qed.
(** [insert] numbers the sections from 0, although index 0 is the null section. *)
Example insert_numbers_from_zero :
  let o := (alloc basic (mapped ".new" 1 0)).2 in
  match SectionList.insert o 6 (next basic) with
  | Ok o' => map (fun l => (SectionList.indexOf l 3).1) [slist o; slist o'] = [1; 0]
  | Err _ => False
  end.
Proof. vm_compute. reflexivity. Qed.
End SectionsExamples.
