(* ===== verification/NonReturn.v ===== *)
(** * Functions that never return: src/pass/nonreturn.{h,cpp}

    The pass marks the calls of functions that are known not to return, and a function all of
    whose paths to an exit go through a marked instruction, until a round marks no further
    function.  A mark changes the control flow graph of the function that holds it, and what
    is known about its callers. *)

From S2P Require Import Prelude ChunkList Graph ControlFlow Dominance.

(** ** What the pass sees of a program *)

(** The classes of links that the pass tells apart, with what the control flow graph sees. *)
Inductive LinkTo :=
| PLTLink (externalName : string)
| ToFunction (target : ptr)
| ToOther.
Record CfiLink := mkCfiLink { l_view : LinkView; l_to : LinkTo }.

(** An instruction: a [ControlFlowInstruction] with its mark, or another one as the control
    flow graph sees it. *)
Inductive Semantic :=
| Cfi (mnemonic : string) (nonreturn : bool) (link : option CfiLink)
| NotCfi (semantic : SemanticView) (link : option LinkView).
Record Instr := mkInstr { i_ptr : ptr; address : Z; semantic : Semantic }.
Record Blk := mkBlk { blk : ptr; blk_address : Z; instrs : list Instr }.

(** A function: its name, the name and the aliases of its symbol if it has one, its mark and
    its blocks. *)
Record Func := mkFunc {
  f_name : string; f_symbol : option (string * list string); f_nonreturn : bool; blocks : list Blk }.

(** The functions of the program and the member of the pass. *)
Record State := mkState { functions : gmap ptr Func; nonReturnList : gset ptr }.

(** The function as [ControlFlowGraph] sees it. *)
Definition view_instr (i : Instr) : InstructionView :=
  match semantic i with
  | Cfi m nonreturn link => mkInstructionView (ControlFlowInstruction m (negb nonreturn)) (l_view <$> link) (address i)
  | NotCfi s link => mkInstructionView s link (address i)
  end.
Definition view_block (b : Blk) : BlockView := mkBlockView (blk b) (blk_address b) (view_instr <$> last (instrs b)).
Definition view (f : Func) : FunctionView := map view_block (blocks f).

(** [Function::hasName] *)
Definition hasName (f : Func) (n : string) : bool :=
  bool_decide (f_name f = n) ||
  match f_symbol f with Some (s, aliases) => bool_decide (s = n) || bool_decide (n ∈ aliases) | None => false end.
Definition setNonreturn (f : Func) : Func := mkFunc (f_name f) (f_symbol f) true (blocks f).
Definition set_blocks (f : Func) (bs : list Blk) : Func := mkFunc (f_name f) (f_symbol f) (f_nonreturn f) bs.
(** [cfi->setNonreturn()] *)
Definition mark (i : Instr) : Instr :=
  match semantic i with Cfi m _ link => mkInstr (i_ptr i) (address i) (Cfi m true link) | NotCfi _ _ => i end.

Module NonReturnFunction.
Definition knownList : list string :=
  ["exit"; "_exit"; "abort"; "__libc_fatal"; "__assert_fail"; "__stack_chk_fail"; "__malloc_assert"; "_dl_signal_error";
   "__cxa_throw"; "_ZSt20__throw_out_of_rangePKc"; "_ZSt19__throw_logic_errorPKc"; "_ZSt17__throw_bad_allocv";
   "_ZSt24__throw_invalid_argumentPKc"].

Definition inList (s : State) (f : ptr) : bool := bool_decide (f ∈ nonReturnList s).

(** [cfi->getLink()->...] of a missing link; the function of a link is one of the program. *)
Definition link_of (link : option CfiLink) : res LinkTo := match link with Some l => Ok (l_to l) | None => Err NullDeref end.
Definition function_of (s : State) (f : ptr) : res Func := match functions s !! f with Some F => Ok F | None => Err Undefined end.

Definition hasLinkToNeverReturn (s : State) (link : option CfiLink) : res bool :=
  l ← link_of link;
  match l with
  | PLTLink n => Ok (bool_decide (n ∈ knownList))
  | ToFunction f =>
    F ← function_of s f;
    Ok (f_nonreturn F || inList s f || existsb (hasName F) knownList)
  | ToOther => Ok false
  end.
Definition hasLinkToGNUError (s : State) (link : option CfiLink) : res bool :=
  l ← link_of link;
  match l with
  | PLTLink n => Ok (bool_decide (n = "error"))
  | ToFunction f => F ← function_of s f; Ok (hasName F "error")
  | ToOther => Ok false
  end.

(** *** The status of error() *)

(** The trees that the pass tells apart: a constant, with its [long] value, and others. *)
Inductive TreeNode := TreeNodeConstant (value : Z) | TreeNodeOther.
Definition dynamic_cast_Constant (t : TreeNode) : option Z := match t with TreeNodeConstant v => Some v | TreeNodeOther => None end.
(** [TreePatternCapture<TreePatternTerminal<TreeNodeConstant>>]: the tree itself is captured. *)
Definition ConstantForm_matches (t : TreeNode) : option (list TreeNode) :=
  match dynamic_cast_Constant t with Some _ => Some [t] | None => None end.

(** [FlowUtil::searchUpDef]: over the states that [getRegRef(reg)] lists, with the tree that each
    gives for the register; the action, on what it changes, says whether to stop. *)
Fixpoint searchUpDef {A} (matches : TreeNode -> option (list TreeNode)) (fn : list TreeNode -> A -> bool * A)
    (refs : list (option TreeNode)) (a : A) : A :=
  match refs with
  | [] => a
  | None :: refs => searchUpDef matches fn refs a
  | Some def :: refs =>
    match matches def with
    | Some cap => let '(stop, a) := fn cap a in if (stop : bool) then a else searchUpDef matches fn refs a
    | None => searchUpDef matches fn refs a
    end
  end.

(** The register that is looked at: [X86Register::R5], [AARCH64GPRegister::R0], none on RISC-V. *)
Definition arg0_register (arch : Arch) : option Z :=
  match arch with ARCH_X86_64 => Some 5 | ARCH_AARCH64 => Some 0 | _ => None end.
(** The predicate: the value is stored to an [int]. *)
Definition arg0_pred (cap : list TreeNode) (_ : bool * Z) : bool * (bool * Z) :=
  match cap with
  | TreeNodeConstant v :: _ => (true, (true, swrap 32 v))
  | _ => (false, (false, 0))
  end.
Definition getArg0Value (arch : Arch) (getRegRef : Z -> list (option TreeNode)) : bool * Z :=
  match arg0_register arch with
  | Some reg => searchUpDef ConstantForm_matches arg0_pred (getRegRef reg) (false, 0)
  | None => (false, 0)
  end.

Section pass.
Variable arch : Arch.
(** The use-def analysis of a function: at an instruction, for every state that [getRegRef] lists
    for a register, what its [getRegDef] says. *)
Variable getRegRef : Func -> ptr -> Z -> list (option TreeNode).

(** The first loop, on an instruction: the instruction, and whether it is collected. *)
Definition mark_instr (s : State) (i : Instr) : res (Instr * bool) :=
  match semantic i with
  | Cfi _ false link =>
    never ← hasLinkToNeverReturn s link;
    if never : bool then Ok (mark i, false)
    else error ← hasLinkToGNUError s link; Ok (i, error)
  | _ => Ok (i, false)
  end.
Fixpoint mark_instrs (s : State) (l : list Instr) : res (list Instr * list ptr) :=
  match l with
  | [] => Ok ([], [])
  | i :: l =>
    '(i', error) ← mark_instr s i;
    '(l, calls) ← mark_instrs s l;
    Ok (i' :: l, if (error : bool) then i_ptr i :: calls else calls)
  end.
Fixpoint mark_blocks (s : State) (bs : list Blk) : res (list Blk * list ptr) :=
  match bs with
  | [] => Ok ([], [])
  | b :: bs =>
    '(l, calls) ← mark_instrs s (instrs b);
    '(bs, calls') ← mark_blocks s bs;
    Ok (mkBlk (blk b) (blk_address b) l :: bs, calls ++ calls')
  end.

(** The calls of error() with a status that is not 0 *)
Definition fatal (f : Func) (p : ptr) : bool :=
  let '(found, value) := getArg0Value arch (getRegRef f p) in found && negb (value =? 0).
Definition mark_calls (f : Func) (calls : list ptr) : Func :=
  set_blocks f (map (fun b => mkBlk (blk b) (blk_address b)
    (map (fun i => if bool_decide (i_ptr i ∈ calls) && fatal f (i_ptr i) then mark i else i) (instrs b))) (blocks f)).
Definition mark_errors (f : Func) (calls : list ptr) : res Func :=
  match calls with
  | [] => Ok f
  | _ => _ ← construct arch (view f); Ok (mark_calls f calls)
  end.

(** [neverReturns]: the graph and the dominators are made once, at the first marked
    instruction. *)
Definition cfg_dom (f : Func) (made : option (ControlFlowGraph * Dominance)) : res (ControlFlowGraph * Dominance) :=
  match made with
  | Some r => Ok r
  | None => g ← construct arch (view f); d ← Dom.new g; Ok (g, d)
  end.
Definition never_at (f : Func) (b : Blk) (made : option (ControlFlowGraph * Dominance)) :
    res (bool * (ControlFlowGraph * Dominance)) :=
  '(g, d) ← cfg_dom f made;
  '(pdom, d) ← Dom.getPostDominators g d 0;
  let '(nid, g) := getIDFor g (blk b) in
  Ok (bool_decide (nid ∈ pdom), (g, d)).
Definition marked (i : Instr) : bool := match semantic i with Cfi _ true _ => true | _ => false end.
Fixpoint never_instrs (f : Func) (b : Blk) (l : list Instr) (made : option (ControlFlowGraph * Dominance)) :
    res (bool * option (ControlFlowGraph * Dominance)) :=
  match l with
  | [] => Ok (false, made)
  | i :: l =>
    if marked i then
      '(found, made) ← never_at f b made;
      if (found : bool) then Ok (true, Some made) else never_instrs f b l (Some made)
    else never_instrs f b l made
  end.
Fixpoint never_blocks (f : Func) (bs : list Blk) (made : option (ControlFlowGraph * Dominance)) : res bool :=
  match bs with
  | [] => Ok false
  | b :: bs =>
    '(found, made) ← never_instrs f b (instrs b) made;
    if (found : bool) then Ok true else never_blocks f bs made
  end.
Definition neverReturns (f : Func) : res bool := never_blocks f (blocks f) None.

(** [visit] of a function *)
Definition visit_Function (s : State) (p : ptr) : res State :=
  f ← function_of s p;
  if f_nonreturn f then Ok s
  else
    '(bs, calls) ← mark_blocks s (blocks f);
    f ← mark_errors (set_blocks f bs) calls;
    never ← neverReturns f;
    Ok (if (never : bool)
        then mkState (<[p := setNonreturn f]> (functions s)) ({[p]} ∪ nonReturnList s)
        else mkState (<[p := f]> (functions s)) (nonReturnList s)).

Fixpoint recurse (s : State) (list : list ptr) : res State :=
  match list with
  | [] => Ok s
  | p :: list => s ← visit_Function s p; recurse s list
  end.
(** [visit] of the function list: rounds until the number of marked functions stays *)
Fixpoint visit_fuel (fuel : nat) (s : State) (list : list ptr) : res State :=
  match fuel with
  | O => Err OutOfFuel
  | S fuel =>
    s' ← recurse s list;
    if bool_decide (size (nonReturnList s') = size (nonReturnList s)) then Ok s' else visit_fuel fuel s' list
  end.
Definition visit_FunctionList (s : State) (list : list ptr) : res State := visit_fuel (S (S (length list))) s list.
End pass.
End NonReturnFunction.
