(* ===== verification/NonReturnProofs.v ===== *)
(** * The functions that the pass marks do not return *)

From stdpp Require Import relations.
From S2P Require Import Prelude ChunkList Graph GraphProofs ControlFlow ControlFlowProofs Dominance DominanceProofs GraphTheorems NonReturn.
Import NonReturnFunction.

(** ** Marks and control flow graphs *)

Section views.
Variable arch : Arch.

(** Two functions with the same blocks whose instructions differ in marks that the second
    one has. *)
Definition same_instr (i0 i : Instr) : Prop := i = i0 \/ i = mark i0.
Record same_block (b0 b : Blk) : Prop := {
  sb_blk : blk b = blk b0;
  sb_address : blk_address b = blk_address b0;
  sb_instrs : Forall2 same_instr (instrs b0) (instrs b) }.

Lemma mark_twice i : mark (mark i) = mark i.
Proof. unfold mark. by destruct i as [p a []]. Qed.
Lemma same_instr_trans i1 i2 i3 : same_instr i1 i2 -> same_instr i2 i3 -> same_instr i1 i3.
Proof. unfold same_instr. intros [-> | ->] [-> | ->]; rewrite ?mark_twice; auto. Qed.
Lemma same_instr_ptr i0 i : same_instr i0 i -> i_ptr i = i_ptr i0.
Proof. intros [-> | ->]; [done|]. unfold mark. by destruct (semantic i0). Qed.

(** A marked call or jump can fall through only if it does so without the mark. *)
Lemma falls_through_mono m : falls_through arch m false = true -> falls_through arch m true = true.
Proof.
  unfold falls_through. destruct arch;
    repeat match goal with |- context [mnemonic_in m ?l] => destruct (mnemonic_in m l) end; done.
Qed.
Lemma view_instr_same i0 i : same_instr i0 i -> i_link (view_instr i) = i_link (view_instr i0) /\
  i_address (view_instr i) = i_address (view_instr i0) /\
  (i_semantic (view_instr i) = i_semantic (view_instr i0) \/ exists m r k, semantic i0 = Cfi m r k /\
     i_semantic (view_instr i) = ControlFlowInstruction m false /\ i_semantic (view_instr i0) = ControlFlowInstruction m (negb r)).
Proof.
  intros [-> | ->]; [by split_and!; [..|left]|]. unfold mark, view_instr. destruct i0 as [p a [m r k|s k]]; cbn.
  - split_and!; [done..|]. right. by exists m, r, k.
  - split_and!; [done..|]. by left.
Qed.

Lemma last_same b0 b : same_block b0 b -> match last (instrs b0), last (instrs b) with
  | Some i0, Some i => same_instr i0 i
  | None, None => True
  | _, _ => False end.
Proof.
  intros [_ _ H]. rewrite !last_lookup, <- (Forall2_length _ _ _ H). set (k := pred _).
  destruct (instrs b0 !! k) as [i0|] eqn:E0.
  - by destruct (Forall2_lookup_l _ _ _ _ _ H E0) as (i&->&Hi).
  - destruct (instrs b !! k) as [i|] eqn:E; [|done]. destruct (Forall2_lookup_r _ _ _ _ _ H E) as (i0&?&_). congruence.
Qed.

Definition same_blocks (bs0 bs : list Blk) : Prop := Forall2 same_block bs0 bs.
Lemma view_blocks f0 f : same_blocks (blocks f0) (blocks f) -> map b_block (view f) = map b_block (view f0).
Proof.
  unfold view. rewrite !map_map. intros H. induction H as [|b0 b l0 l [Hb _ _] _ IH]; [done|]. cbn [map].
  f_equal; [exact Hb|exact IH].
Qed.
Lemma position_blocks (v v' : FunctionView) p : map b_block v = map b_block v' -> position v p = position v' p.
Proof.
  assert (E : forall v : FunctionView, position v p = fst <$> list_find (fun q => q = p) (map b_block v)).
  { intros u. unfold position. rewrite list_find_fmap. by destruct (list_find _ u) as [[]|]. }
  intros H. by rewrite !E, H.
Qed.
Lemma target_blocks (v v' : FunctionView) t : map b_block v = map b_block v' -> target_position v t = target_position v' t.
Proof. intros H. destruct t as [|[]|]; cbn; try done; by apply position_blocks. Qed.

Section same.
Context (f0 f : Func) (Hf : same_blocks (blocks f0) (blocks f)).

Lemma view_lookup n b0 : blocks f0 !! n = Some b0 -> exists b, blocks f !! n = Some b /\ same_block b0 b.
Proof. intros Hb. destruct (Forall2_lookup_l _ _ _ _ _ Hf Hb) as (b&?&?). by exists b. Qed.

(** The graph of the marked function has no other links. *)
Lemma successor_back n b0 b j : same_block b0 b -> successor arch (view f) n (view_block b) j ->
  successor arch (view f0) n (view_block b0) j.
Proof.
  intros Hb Hs. pose proof (last_same _ _ Hb) as Hl. pose proof (view_blocks _ _ Hf) as Ev.
  pose proof (f_equal length Ev) as El. rewrite !length_map in El.
  destruct (last (instrs b0)) as [i0|] eqn:E0, (last (instrs b)) as [i|] eqn:E1; try done.
  2: { destruct Hs as [i m r link t Hi|i m tb e k link p Hi|i Hi]; cbn in Hi; by rewrite E1 in Hi. }
  destruct (view_instr_same _ _ Hl) as (Hlink&_&Hsem).
  destruct Hs as [i' m r link t Hi Hm Hc Hk Ht Hp|i' m tb e k link p Hi Hm Hc He Hfst Ht Hp|i' Hi Hfalls Hn Hj];
    cbn in Hi; rewrite E1 in Hi; injection Hi as <-.
  - destruct Hsem as [Hsem|(m'&r'&k'&_&Hs1&Hs2)].
    + eapply succ_jump; [cbn; by rewrite E0|by rewrite <- Hsem|done|by rewrite <- Hlink|done|by rewrite <- (target_blocks (view f))].
    + rewrite Hs1 in Hm. injection Hm as <- <-.
      eapply succ_jump; [cbn; by rewrite E0|done|done|by rewrite <- Hlink|done|by rewrite <- (target_blocks (view f))].
  - destruct Hsem as [Hsem|(m'&r'&k'&_&Hs1&_)]; [|congruence].
    eapply succ_table; [cbn; by rewrite E0|by rewrite <- Hsem|done|done|done|done|by rewrite <- (position_blocks (view f))].
  - eapply succ_fall; [cbn; by rewrite E0| |lia|done]. unfold falls in *.
    destruct Hsem as [<-|(m'&r'&k'&_&Hs1&Hs2)]; [done|]. rewrite Hs1 in Hfalls. rewrite Hs2.
    destruct r'; [done|]. by apply falls_through_mono.
Qed.
(** Where the last instruction has the mark in both or in none, it has the same links. *)
Lemma successor_forth n b0 b j : same_block b0 b -> last (instrs b) = last (instrs b0) ->
  successor arch (view f0) n (view_block b0) j -> successor arch (view f) n (view_block b) j.
Proof.
  intros Hb Hl Hs. pose proof (view_blocks _ _ Hf) as Ev. pose proof (f_equal length Ev) as El. rewrite !length_map in El.
  destruct Hs as [i m r link t Hi Hm Hc Hk Ht Hp|i m tb e k link p Hi Hm Hc He Hfst Ht Hp|i Hi Hfalls Hn Hj];
    cbn in Hi; rewrite <- Hl in Hi.
  - eapply succ_jump; try done. by rewrite (target_blocks _ (view f0)).
  - eapply succ_table; try done. by rewrite (position_blocks _ (view f0)).
  - eapply succ_fall; try done. lia.
Qed.
Lemma constructible_same : Forall (constructible arch (view f0)) (view f0) -> Forall (constructible arch (view f)) (view f).
Proof.
  intros H. apply Forall_lookup_2. intros n b Hb. unfold view in Hb. apply list_lookup_fmap_Some in Hb as (b1&->&Hb1).
  destruct (Forall2_lookup_r _ _ _ _ _ Hf Hb1) as (b0&Hb0&Hsame).
  assert (H0 : view f0 !! n = Some (view_block b0)) by (unfold view; by rewrite list_lookup_fmap, Hb0).
  destruct (Forall_lookup_1 _ _ _ _ H H0) as (i&Hi&Hc). cbn in Hi. pose proof (last_same _ _ Hsame) as Hl.
  destruct (last (instrs b0)) as [i0|]; [|done]. injection Hi as <-.
  destruct (last (instrs b1)) as [i1|] eqn:E1; [|done]. exists (view_instr i1). split; [cbn; by rewrite E1|].
  destruct (view_instr_same _ _ Hl) as (Hlink&_&Hsem). intros m r link v Hm Hcall Hk Ht. rewrite Hlink in Hk.
  rewrite (position_blocks _ (view f0)) by (by apply view_blocks).
  destruct Hsem as [Hsem|(m'&r'&k'&_&Hs1&Hs2)].
  - rewrite Hsem in Hm. by eapply Hc.
  - rewrite Hs1 in Hm. injection Hm as <- <-. by eapply Hc.
Qed.
End same.
End views.

(** ** What it means to return

    A run of a function is a path through its blocks, as they are before the pass, from the
    first to one without a successor.  A function may return if it has a run on which every
    call and every unconditional jump to a function comes back. *)
Section semantics.
Variable arch : Arch.
Variable getRegRef : Func -> ptr -> Z -> list (option TreeNode).
(** The calls of error() that come back, those with the status 0.  No definition that the use-def analysis
    lists there for the register that is looked at is a constant other than 0; see [error_rbp] and
    [error_ambiguous] for calls of which this does not hold. *)
Variable error_returns : ptr -> Prop.
Hypothesis no_status : forall F p reg v, error_returns p -> arg0_register arch = Some reg ->
  Some (TreeNodeConstant v) ∈ getRegRef F p reg -> swrap 32 v = 0.
Variable s0 : State.

(** A call or an unconditional jump *)
Definition always (m : string) : bool := is_call arch m || negb (falls_through arch m true).

Inductive run (F : Func) : list nat -> nat -> Prop :=
| run_start : run F [0%nat] 0
| run_step l n b j : run F l n -> view F !! n = Some b -> successor arch (view F) n b j -> run F (j :: l) j.
Definition run_end (F : Func) (n : nat) : Prop := forall b j, view F !! n = Some b -> ~ successor arch (view F) n b j.
Definition known (F : Func) : Prop := exists n, n ∈ knownList /\ hasName F n = true.

Inductive may_return : ptr -> Prop :=
| may_return_run f F l e : functions s0 !! f = Some F -> f_nonreturn F = false -> run F l e -> run_end F e ->
    (forall n b i, n ∈ l -> blocks F !! n = Some b -> i ∈ instrs b -> passes i) -> may_return f
with passes : Instr -> Prop :=
| passes_other i s k : semantic i = NotCfi s k -> passes i
| passes_conditional i m r k : semantic i = Cfi m r k -> always m = false -> passes i
| passes_elsewhere i m k : semantic i = Cfi m false (Some k) -> l_to k = ToOther -> passes i
| passes_plt i m k n : semantic i = Cfi m false (Some k) -> l_to k = PLTLink n -> n ∉ knownList ->
    (n = "error"%string -> error_returns (i_ptr i)) -> passes i
| passes_function i m k g G : semantic i = Cfi m false (Some k) -> l_to k = ToFunction g ->
    functions s0 !! g = Some G -> ~ known G -> (hasName G "error" = true -> error_returns (i_ptr i)) ->
    may_return g -> passes i.

(** The value that is found is that of one of the definitions. *)
Lemma searchUpDef_found refs v : searchUpDef ConstantForm_matches arg0_pred refs (false, 0) = (true, v) ->
  exists w, Some (TreeNodeConstant w) ∈ refs /\ v = swrap 32 w.
Proof.
  induction refs as [|[[w|]|] refs IH]; cbn; [done| |intros (w&?&?)%IH..]; [|exists w; by split; [right|]..].
  intros [= <-]. exists w. split; [left|done].
Qed.
Lemma returning_not_fatal F p : error_returns p -> fatal arch getRegRef F p = false.
Proof.
  intros Hp. unfold fatal, getArg0Value. destruct (arg0_register arch) as [reg|] eqn:Er; [|done].
  destruct (searchUpDef _ _ _ _) as [[] v] eqn:E; [|done]. apply searchUpDef_found in E as (w&Hw&->).
  by rewrite (no_status F p reg w Hp eq_refl Hw).
Qed.

(** ** Programs that the pass can work on *)
Record well_formed (F : Func) : Prop := {
  wf_blocks : NoDup (map blk (blocks F)) /\ size_ok (map b_block (view F));
  wf_constructible : Forall (constructible arch (view F)) (view F);
  wf_ptrs : NoDup (map i_ptr (concat (map instrs (blocks F))));
  wf_links : forall b i m k, b ∈ blocks F -> i ∈ instrs b -> semantic i = Cfi m false k ->
    exists l, k = Some l /\ forall g, l_to l = ToFunction g -> is_Some (functions s0 !! g);
  (** No conditional jump to a function, or with a mark *)
  wf_always : forall b i m r k, b ∈ blocks F -> i ∈ instrs b -> semantic i = Cfi m r k ->
    r = true \/ (exists l, k = Some l /\ l_to l <> ToOther) -> always m = true }.

(** ** The invariant *)

(** An instruction and what the pass made of it *)
Definition tracks_instr (i0 i : Instr) : Prop := i = i0 \/ (i = mark i0 /\ marked i = true /\ ~ passes i0).
Definition tracks_block (b0 b : Blk) : Prop :=
  blk b = blk b0 /\ blk_address b = blk_address b0 /\ Forall2 tracks_instr (instrs b0) (instrs b).
Record tracks (p : ptr) (F0 F : Func) : Prop := {
  tr_name : f_name F = f_name F0;
  tr_symbol : f_symbol F = f_symbol F0;
  tr_blocks : Forall2 tracks_block (blocks F0) (blocks F);
  tr_mark : f_nonreturn F = true -> ~ may_return p }.
Record inv (s : State) : Prop := {
  in_functions : forall p F, functions s !! p = Some F -> exists F0, functions s0 !! p = Some F0 /\ tracks p F0 F;
  in_domain : forall p, is_Some (functions s0 !! p) -> is_Some (functions s !! p);
  in_list : forall p, p ∈ nonReturnList s -> ~ may_return p /\ exists F, functions s !! p = Some F /\ f_nonreturn F = true }.

Lemma tracks_same_instr i0 i : tracks_instr i0 i -> same_instr i0 i.
Proof. intros [->|[-> _]]; [by left|by right]. Qed.
Lemma tracks_same_block b0 b : tracks_block b0 b -> same_block b0 b.
Proof. intros (H1&H2&H3). split; [done|done|]. eapply Forall2_impl; [exact H3|apply tracks_same_instr]. Qed.
Lemma tracks_same p F0 F : tracks p F0 F -> same_blocks (blocks F0) (blocks F).
Proof. intros [_ _ H _]. eapply Forall2_impl; [exact H|apply tracks_same_block]. Qed.
Lemma tracks_hasName p F0 F n : tracks p F0 F -> hasName F n = hasName F0 n.
Proof. intros [H1 H2 _ _]. unfold hasName. by rewrite H1, H2. Qed.

Lemma tracks_existsb p F0 F l : tracks p F0 F -> existsb (hasName F) l = existsb (hasName F0) l.
Proof. intros H. induction l as [|n l IH]; [done|]. cbn [existsb]. by rewrite (tracks_hasName _ _ _ n H), IH. Qed.

Lemma known_exists F : existsb (hasName F) knownList = true <-> known F.
Proof.
  unfold known. rewrite existsb_exists. split; intros (n&Hn&Hh); exists n; split; try done; by apply list_elem_of_In.
Qed.

(** Every marked instruction is one that control does not pass. *)
Lemma marked_stops F0 b0 i0 i : well_formed F0 -> b0 ∈ blocks F0 -> i0 ∈ instrs b0 -> tracks_instr i0 i ->
  marked i = true -> ~ passes i0.
Proof.
  intros Hwf Hb Hi [->|(_&_&H)] Hm; [|done]. unfold marked in Hm. destruct (semantic i0) as [m [] k|] eqn:E; try done.
  pose proof (wf_always F0 Hwf b0 i0 m true k Hb Hi E ltac:(by left)) as Ha.
  intros Hp. destruct Hp; congruence.
Qed.

(** *** The first loop *)
Lemma never_link s i0 m k b : inv s -> semantic i0 = Cfi m false k -> (forall l, k = Some l -> l_to l <> ToOther -> always m = true) ->
  hasLinkToNeverReturn s k = Ok b -> b = true -> ~ passes i0.
Proof.
  intros Hinv Ei Ha E -> Hp. unfold hasLinkToNeverReturn, link_of in E. destruct k as [l|]; [|done]. cbn [mbind res_bind] in E.
  pose proof (Ha l eq_refl) as Hal. destruct (l_to l) as [n|g|] eqn:El; [| |done].
  - injection E as E%bool_decide_eq_true_1. specialize (Hal ltac:(done)). destruct Hp; congruence.
  - specialize (Hal ltac:(done)). unfold function_of in E. destruct (functions s !! g) as [G|] eqn:EG; [|done].
    cbn [mbind res_bind] in E. injection E as E. destruct (in_functions s Hinv g G EG) as (G0&EG0&Htr).
    assert (Hnot : ~ may_return g \/ known G0).
    { apply orb_true_iff in E as [[E|E]%orb_true_iff|E].
      - left. by apply (tr_mark _ _ _ Htr).
      - left. apply bool_decide_eq_true_1 in E. apply (in_list s Hinv g E).
      - right. apply known_exists. by rewrite <- (tracks_existsb _ _ _ knownList Htr). }
    destruct Hp as [? ? ? ?|? ? ? ? ? ?|? ? ? ? ?|? ? ? ? ? ? ? ?|i' m' k' g' G' Hi' Hk' HG' Hkn' ? Hr']; try congruence.
    rewrite Ei in Hi'. injection Hi' as <- <-. rewrite El in Hk'. injection Hk' as <-. assert (G' = G0) as -> by congruence.
    by destruct Hnot.
Qed.
Lemma error_link s i0 m k : inv s -> semantic i0 = Cfi m false k -> (forall l, k = Some l -> l_to l <> ToOther -> always m = true) ->
  hasLinkToGNUError s k = Ok true -> ~ error_returns (i_ptr i0) -> ~ passes i0.
Proof.
  intros Hinv Ei Ha E Hz Hp. unfold hasLinkToGNUError, link_of in E. destruct k as [l|]; [|done]. cbn [mbind res_bind] in E.
  pose proof (Ha l eq_refl) as Hal. destruct (l_to l) as [n|g|] eqn:El; [| |done].
  - injection E as E%bool_decide_eq_true_1. specialize (Hal ltac:(done)).
    destruct Hp as [? ? ? ?|? ? ? ? ? ?|? ? ? ? ?|i' m' k' n' Hi' Hk' ? Hz'|? ? ? ? ? ? ? ? ? ?]; try congruence.
    rewrite Ei in Hi'. injection Hi' as <- <-. rewrite El in Hk'. injection Hk' as <-. by apply Hz, Hz'.
  - specialize (Hal ltac:(done)). unfold function_of in E. destruct (functions s !! g) as [G|] eqn:EG; [|done].
    cbn [mbind res_bind] in E. injection E as E. destruct (in_functions s Hinv g G EG) as (G0&EG0&Htr).
    rewrite (tracks_hasName _ _ _ _ Htr) in E.
    destruct Hp as [? ? ? ?|? ? ? ? ? ?|? ? ? ? ?|? ? ? ? ? ? ? ?|i' m' k' g' G' Hi' Hk' HG' Hkn' Hz' Hr']; try congruence.
    rewrite Ei in Hi'. injection Hi' as <- <-. rewrite El in Hk'. injection Hk' as <-. assert (G' = G0) as -> by congruence.
    by apply Hz, Hz'.
Qed.

Lemma links_return s l : inv s -> (forall g, l_to l = ToFunction g -> is_Some (functions s0 !! g)) ->
  (exists b, hasLinkToNeverReturn s (Some l) = Ok b) /\ exists b, hasLinkToGNUError s (Some l) = Ok b.
Proof.
  intros Hinv Hg. unfold hasLinkToNeverReturn, hasLinkToGNUError, link_of, function_of. cbn [mbind res_bind].
  destruct (l_to l) as [n|g|] eqn:E; [by split; eexists| |by split; eexists].
  destruct (in_domain s Hinv g (Hg g eq_refl)) as [G ->]. cbn [mbind res_bind]. by split; eexists.
Qed.

Section marking.
Context (s : State) (Hinv : inv s) (F0 : Func) (Hwf : well_formed F0).

(** An instruction that the first loop collects: it does not come back if its status is not 0. *)
Definition collected (p : ptr) : Prop := exists b0 i0, b0 ∈ blocks F0 /\ i0 ∈ instrs b0 /\ i_ptr i0 = p /\
  (exists m k, semantic i0 = Cfi m false k) /\ (~ error_returns p -> ~ passes i0).

Lemma mark_instr_tracks b0 i0 i : b0 ∈ blocks F0 -> i0 ∈ instrs b0 -> tracks_instr i0 i ->
  exists i' e, mark_instr s i = Ok (i', e) /\ tracks_instr i0 i' /\ i_ptr i' = i_ptr i /\ (e = true -> collected (i_ptr i)).
Proof.
  intros Hb Hi Ht. unfold mark_instr. destruct (semantic i) as [m r k|sm k] eqn:E; [|by exists i, false].
  destruct r; [by exists i, false|]. destruct Ht as [->|(_&Hm&_)]; [|unfold marked in Hm; by rewrite E in Hm].
  destruct (wf_links F0 Hwf b0 i0 m k Hb Hi E) as (l&->&Hg).
  assert (Ha : forall l', Some l = Some l' -> l_to l' <> ToOther -> always m = true).
  { intros l' [= <-] Hto. eapply (wf_always F0 Hwf); [done..|]. right. by exists l. }
  destruct (links_return s l Hinv Hg) as [[never En] [error Ee]]. rewrite En, Ee. cbn [mbind res_bind]. destruct never.
  - exists (mark i0), false. split_and!; [done| | |done].
    + right. split_and!; [done|unfold marked, mark; by rewrite E|]. by eapply never_link.
    + apply same_instr_ptr. by right.
  - exists i0, error. split_and!; [done|by left|done|]. intros ->. exists b0, i0. split_and!; [done..|by eexists _, _|].
    by eapply error_link.
Qed.

Lemma mark_instrs_tracks b0 l0 l : b0 ∈ blocks F0 -> l0 ⊆ instrs b0 -> Forall2 tracks_instr l0 l ->
  exists l' calls, mark_instrs s l = Ok (l', calls) /\ Forall2 tracks_instr l0 l' /\ Forall collected calls.
Proof.
  intros Hb Hl Ht. induction Ht as [|i0 i l0 l Hi _ IH]; [by exists [], []|].
  destruct (mark_instr_tracks b0 i0 i Hb (Hl i0 ltac:(left)) Hi) as (i'&e&Ei&Hi'&_&He).
  destruct IH as (l'&calls&El&Hl'&Hc); [intros x Hx; apply Hl; by right|].
  cbn [mark_instrs]. rewrite Ei. cbn [mbind res_bind]. rewrite El. cbn [mbind res_bind].
  eexists _, _. split_and!; [done|by constructor|]. destruct e; [constructor; auto|done].
Qed.

Lemma mark_blocks_tracks bs0 bs : bs0 ⊆ blocks F0 -> Forall2 tracks_block bs0 bs ->
  exists bs' calls, mark_blocks s bs = Ok (bs', calls) /\ Forall2 tracks_block bs0 bs' /\ Forall collected calls.
Proof.
  intros Hs Ht. induction Ht as [|b0 b bs0 bs (Hb1&Hb2&Hb3) _ IH]; [by exists [], []|].
  destruct (mark_instrs_tracks b0 (instrs b0) (instrs b) (Hs b0 ltac:(left)) ltac:(done) Hb3) as (l'&calls&El&Hl'&Hc).
  destruct IH as (bs'&calls'&Eb&Hb'&Hc'); [intros x Hx; apply Hs; by right|].
  cbn [mark_blocks]. rewrite El. cbn [mbind res_bind]. rewrite Eb. cbn [mbind res_bind].
  eexists _, _. split_and!; [done|by constructor|by apply Forall_app].
Qed.

Lemma ptr_inj b0 i0 b1 i1 : b0 ∈ blocks F0 -> i0 ∈ instrs b0 -> b1 ∈ blocks F0 -> i1 ∈ instrs b1 ->
  i_ptr i0 = i_ptr i1 -> i0 = i1.
Proof.
  intros Hb0 Hi0 Hb1 Hi1 E. pose proof (wf_ptrs F0 Hwf) as Hd.
  assert (Hin : forall b i, b ∈ blocks F0 -> i ∈ instrs b -> i ∈ concat (map instrs (blocks F0))).
  { intros b i Hb Hi. apply list_elem_of_In, in_concat. exists (instrs b). split; [apply in_map|]; by apply list_elem_of_In. }
  apply Hin in Hi0 as [n0 H0]%list_elem_of_lookup; [|done]. apply Hin in Hi1 as [n1 H1]%list_elem_of_lookup; [|done].
  assert (n0 = n1) as ->; [|congruence].
  eapply (NoDup_lookup _ _ _ (i_ptr i0) Hd); rewrite list_lookup_fmap; [by rewrite H0|by rewrite H1, E].
Qed.

(** *** The calls of error() *)
Lemma mark_call_tracks F calls b0 i0 i : Forall collected calls -> b0 ∈ blocks F0 -> i0 ∈ instrs b0 -> tracks_instr i0 i ->
  tracks_instr i0 (if bool_decide (i_ptr i ∈ calls) && fatal arch getRegRef F (i_ptr i) then mark i else i).
Proof.
  intros Hc Hb Hi Ht. destruct (bool_decide _ && _) eqn:E; [|done]. apply andb_true_iff in E as [E%bool_decide_eq_true_1 Ef].
  rewrite Forall_forall in Hc. destruct (Hc _ E) as (b1&i1&Hb1&Hi1&Hp&(m&k&Em)&Hn).
  rewrite (same_instr_ptr _ _ (tracks_same_instr _ _ Ht)) in *. rewrite (ptr_inj b1 i1 b0 i0) in * by done.
  destruct Ht as [->|(->&Hm&Hp0)]; right; [|by rewrite mark_twice].
  split_and!; [done|unfold marked, mark; by rewrite Em|]. apply Hn. intros Hz. by rewrite returning_not_fatal in Ef.
Qed.
Lemma mark_calls_tracks F calls : Forall collected calls -> Forall2 tracks_block (blocks F0) (blocks F) ->
  Forall2 tracks_block (blocks F0) (blocks (mark_calls arch getRegRef F calls)).
Proof.
  intros Hc. cbn [mark_calls set_blocks blocks]. assert (Hs : blocks F0 ⊆ blocks F0) by done. revert Hs.
  generalize (blocks F0) at 1 3 4 as bs0. generalize (blocks F) as bs. intros bs bs0 Hs Ht.
  induction Ht as [|b0 b bs0 bs (H1&H2&H3) _ IH]; [constructor|]. cbn [map].
  constructor; [|apply IH; intros x Hx; apply Hs; by right]. split_and!; [done..|]. cbn [instrs].
  assert (Hb : b0 ∈ blocks F0) by (apply Hs; left). assert (Hl : instrs b0 ⊆ instrs b0) by done. revert Hl H3.
  generalize (instrs b0) at 1 3 4 as l0. intros l0 Hl H3. induction H3 as [|i0 i l0 l Hi _ IHl]; [constructor|].
  constructor; [|apply IHl; intros x Hx; apply Hl; by right].
  eapply mark_call_tracks; [done..|apply Hl; left|done].
Qed.
End marking.

(** *** Functions without a way around a marked instruction *)
Section never.
Context (F : Func) (g : ControlFlowGraph) (Hlaws : GraphLaws g).
Hypothesis Hbuilt : construct arch (view F) = Ok g.
Hypothesis Hcount : Graph.getCount g = length (view F).
Hypothesis Hdistinct : NoDup (map blk (blocks F)).
Hypothesis Hmapping : forall p, blockMapping g !! p = position (view F) p.

Definition made_ok (made : option (ControlFlowGraph * Dominance)) : Prop :=
  forall r, made = Some r -> exists d, r = (g, d) /\ dom_ok g d.
(** Every path to an exit goes through the block. *)
Definition around (n : nat) : Prop := forall e, rtc (edge g 1) 0%nat e -> links g 1 e = [] -> dominates g n e.

Lemma never_at_spec n b made : blocks F !! n = Some b -> made_ok made ->
  exists found made', never_at arch F b made = Ok (found, made') /\ made_ok (Some made') /\ (found = true -> around n).
Proof.
  intros Hb Hm. assert (Hn : (n < length (blocks F))%nat) by by eapply lookup_lt_Some.
  assert (Hc : (0 < Graph.getCount g)%nat) by (rewrite Hcount; unfold view; rewrite length_map; lia).
  assert (Ec : exists d, cfg_dom arch F made = Ok (g, d) /\ dom_ok g d).
  { destruct made as [r|]; cbn [cfg_dom].
    - destruct (Hm r eq_refl) as (d&->&Hd). by exists d.
    - rewrite Hbuilt. cbn [mbind res_bind]. destruct (new_dom_ok g Hc) as (d&E&Hd).
      exists d. rewrite E. done. }
  destruct Ec as (d&E&Hd). unfold never_at. rewrite E. cbn [mbind res_bind].
  destruct (postdominators_of g d 0 Hc Hd) as (pdom&d'&Ep&Hd'&Hp&_). rewrite Ep. cbn [mbind res_bind].
  unfold getIDFor. assert (Hpos : position (view F) (blk b) = Some n).
  { apply position_spec.
    - unfold view. rewrite map_map. exact Hdistinct.
    - exists (view_block b). split; [|done]. unfold view. by rewrite list_lookup_fmap, Hb. }
  rewrite Hmapping, Hpos. eexists _, _. split_and!; [done| |].
  - intros r [= <-]. by exists d'.
  - intros Hin%bool_decide_eq_true_1 e Hr He. by apply Hp.
Qed.

(** A block with a marked instruction that nothing goes around *)
Definition blocked : Prop := exists n b i, blocks F !! n = Some b /\ i ∈ instrs b /\ marked i = true /\ around n.

Lemma never_instrs_spec n b l made : blocks F !! n = Some b -> l ⊆ instrs b -> made_ok made ->
  exists found made', never_instrs arch F b l made = Ok (found, made') /\ made_ok made' /\ (found = true -> blocked).
Proof.
  intros Hb. revert made. induction l as [|i l IH]; intros made Hl Hm; [by exists false, made|]. cbn [never_instrs].
  assert (Hl' : l ⊆ instrs b) by (intros x Hx; apply Hl; by right).
  destruct (marked i) eqn:Ei; [|by apply IH].
  destruct (never_at_spec n b made Hb Hm) as (found&made'&E&Hm'&Hf). rewrite E. cbn [mbind res_bind].
  destruct found; [|by apply IH]. exists true, (Some made'). split_and!; [done..|]. intros _.
  exists n, b, i. split_and!; [done|apply Hl; left|done|by apply Hf].
Qed.
Lemma never_blocks_spec k made : made_ok made ->
  exists found, never_blocks arch F (drop k (blocks F)) made = Ok found /\ (found = true -> blocked).
Proof.
  remember (length (blocks F) - k)%nat as m eqn:Em. revert k made Em. induction m as [|m IH]; intros k made Em Hm.
  { rewrite drop_ge by lia. by exists false. }
  destruct (lookup_lt_is_Some_2 (blocks F) k) as [b Hb]; [lia|]. rewrite (drop_S _ _ _ Hb). cbn [never_blocks].
  destruct (never_instrs_spec k b (instrs b) made Hb ltac:(done) Hm) as (found&made'&E&Hm'&Hf). rewrite E.
  cbn [mbind res_bind]. destruct found; [by exists true; split; [|by intros _; apply Hf]|]. apply IH; [lia|done].
Qed.
End never.

Section one_function.
Context (F0 : Func) (Hwf : well_formed F0) (F : Func) (Ht : Forall2 tracks_block (blocks F0) (blocks F)).

Lemma all_same : same_blocks (blocks F0) (blocks F).
Proof. eapply Forall2_impl; [exact Ht|apply tracks_same_block]. Qed.

Lemma run_head l n : run F0 l n -> n ∈ l.
Proof. intros []; left. Qed.
Lemma in_view n b : view F0 !! n = Some b -> exists b0, blocks F0 !! n = Some b0 /\ b = view_block b0.
Proof. unfold view. intros (b0&->&H)%list_lookup_fmap_Some. by exists b0. Qed.

(** A block whose instructions control passes has no marks. *)
Lemma passing_unmarked n b0 b i : blocks F0 !! n = Some b0 -> blocks F !! n = Some b ->
  (forall i0, i0 ∈ instrs b0 -> passes i0) -> i ∈ instrs b -> marked i = false.
Proof.
  intros H0 H1 Hp Hi. destruct (marked i) eqn:Em; [|done]. exfalso.
  destruct (Forall2_lookup_lr _ _ _ _ _ _ Ht H0 H1) as (_&_&Hl).
  apply list_elem_of_lookup in Hi as [k Hk]. destruct (Forall2_lookup_r _ _ _ _ _ Hl Hk) as (i0&Hk0&Hi0).
  pose proof (list_elem_of_lookup_2 _ _ _ Hk0) as Hin.
  exact (marked_stops F0 b0 i0 i Hwf (list_elem_of_lookup_2 _ _ _ H0) Hin Hi0 Em (Hp i0 Hin)).
Qed.
Lemma passing_last n b0 b : blocks F0 !! n = Some b0 -> blocks F !! n = Some b ->
  (forall i0, i0 ∈ instrs b0 -> passes i0) -> last (instrs b) = last (instrs b0).
Proof.
  intros H0 H1 Hp. destruct (Forall2_lookup_lr _ _ _ _ _ _ Ht H0 H1) as (_&_&Hl).
  rewrite !last_lookup, <- (Forall2_length _ _ _ Hl). set (k := pred _).
  destruct (instrs b !! k) as [i|] eqn:E.
  - destruct (Forall2_lookup_r _ _ _ _ _ Hl E) as (i0&->&Hi).
    pose proof (passing_unmarked n b0 b i H0 H1 Hp (list_elem_of_lookup_2 _ _ _ E)) as Hm.
    destruct Hi as [->|(_&Hi&_)]; [done|congruence].
  - destruct (instrs b0 !! k) as [i0|] eqn:E0; [|done].
    destruct (Forall2_lookup_l _ _ _ _ _ Hl E0) as (i&?&_). congruence.
Qed.

Context (g : ControlFlowGraph).
Hypothesis Hcount : Graph.getCount g = length (view F).
Hypothesis Hedge : forall n b, view F !! n = Some b -> forall j, edge g 1 n j <-> successor arch (view F) n b j.

(** A run whose blocks control passes is a path of the graph with the marks. *)
Lemma run_path l n : run F0 l n ->
  (forall k b i, k ∈ l -> blocks F0 !! k = Some b -> i ∈ instrs b -> passes i) -> path g l n.
Proof.
  intros Hr. induction Hr as [|l n b j Hr IH Hb Hs]; intros Hp; [constructor|].
  econstructor; [apply IH; intros k b' i Hk; apply Hp; by right|].
  destruct (in_view n b Hb) as (b0&H0&->). destruct (view_lookup F0 F all_same n b0 H0) as (b1&H1&Hsame).
  assert (Hv : view F !! n = Some (view_block b1)) by (unfold view; by rewrite list_lookup_fmap, H1).
  apply (Hedge n _ Hv). eapply successor_forth; [apply all_same|done| |done]. eapply passing_last; [done..|].
  intros i0. apply (Hp n b0); [right; by apply run_head|done].
Qed.
Lemma run_end_exit e : run_end F0 e -> links g 1 e = [].
Proof.
  intros He. destruct (view F !! e) as [b|] eqn:Eb.
  - destruct (links g 1 e) as [|j l] eqn:El; [done|]. exfalso.
    assert (Hj : edge g 1 e j) by (unfold edge; rewrite El; left).
    apply (Hedge e b Eb) in Hj. unfold view in Eb. apply list_lookup_fmap_Some in Eb as (b1&->&H1).
    destruct (Forall2_lookup_r _ _ _ _ _ all_same H1) as (b0&H0&Hsame).
    apply (He (view_block b0) j); [unfold view; by rewrite list_lookup_fmap, H0|].
    eapply successor_back; [apply all_same|done|done].
  - apply lookup_ge_None in Eb. rewrite <- Hcount in Eb. unfold links. cbn. unfold vec_at.
    rewrite (proj2 (lookup_ge_None _ _)) by exact Eb. done.
Qed.
Lemma path_reaches l n : path g l n -> rtc (edge g 1) 0%nat n.
Proof. induction 1 as [|l p x _ IH He]; [done|]. by eapply rtc_r. Qed.

Lemma blocked_no_return p : functions s0 !! p = Some F0 -> blocked F g -> ~ may_return p.
Proof.
  intros HF (n&b&i&Hb&Hi&Hm&Ha) Hr. destruct Hr as [p F1 l e HF1 _ Hrun He Hp]. rewrite HF in HF1. injection HF1 as <-.
  pose proof (run_path l e Hrun Hp) as Hpath.
  pose proof (Ha e (path_reaches l e Hpath) (run_end_exit e He) l Hpath) as Hn.
  destruct (Forall2_lookup_r _ _ _ _ _ all_same Hb) as (b0&H0&_).
  assert (marked i = false); [|congruence]. eapply passing_unmarked; [done..| |done].
  intros i0. by apply (Hp n b0).
Qed.
End one_function.

Lemma neverReturns_spec p F0 F : well_formed F0 -> functions s0 !! p = Some F0 ->
  Forall2 tracks_block (blocks F0) (blocks F) ->
  (exists g, construct arch (view F) = Ok g) /\
  exists never, neverReturns arch F = Ok never /\ (never = true -> ~ may_return p).
Proof.
  intros Hwf HF Ht. pose proof (all_same F0 F Ht) as Hsame. pose proof (view_blocks _ _ Hsame) as Ev.
  assert (Hd : NoDup (map b_block (view F))).
  { rewrite Ev. unfold view. rewrite map_map. exact (proj1 (wf_blocks F0 Hwf)). }
  destruct (cfg_spec arch (view F)) as (g&E&Hlaws&Hc&Hmap&Hedge&_); [done| |by eapply constructible_same, wf_constructible|].
  { rewrite Ev. exact (proj2 (wf_blocks F0 Hwf)). }
  split; [by exists g|]. unfold neverReturns.
  destruct (never_blocks_spec F g Hlaws E Hc) with (k := 0%nat) (made := @None (ControlFlowGraph * Dominance)) as (found&Ef&Hf).
  - unfold view in Hd. by rewrite map_map in Hd.
  - done.
  - done.
  - exists found. split; [done|]. intros Hb%Hf. by eapply blocked_no_return.
Qed.

(** ** The rounds *)
Section rounds.
Hypothesis Hwf : forall p F0, functions s0 !! p = Some F0 -> well_formed F0.

Lemma visit_Function_spec s p : inv s -> is_Some (functions s0 !! p) ->
  exists s', visit_Function arch getRegRef s p = Ok s' /\ inv s' /\
    nonReturnList s ⊆ nonReturnList s' /\ nonReturnList s' ⊆ {[p]} ∪ nonReturnList s.
Proof.
  intros Hinv [F0 HF0]. destruct (in_domain s Hinv p (ex_intro _ F0 HF0)) as [F HF].
  destruct (in_functions s Hinv p F HF) as (F0'&HF0'&Htr). assert (F0' = F0) as -> by congruence.
  unfold visit_Function, function_of. rewrite HF. cbn [mbind res_bind].
  destruct (f_nonreturn F) eqn:Em; [exists s; split_and!; [done|done|done|set_solver]|].
  destruct (mark_blocks_tracks s Hinv F0 (Hwf p F0 HF0) (blocks F0) (blocks F) ltac:(done) (tr_blocks _ _ _ Htr))
    as (bs&calls&Eb&Hbs&Hcalls).
  rewrite Eb. cbn [mbind res_bind].
  assert (Herr : exists F', mark_errors arch getRegRef (set_blocks F bs) calls = Ok F' /\
    f_name F' = f_name F /\ f_symbol F' = f_symbol F /\ f_nonreturn F' = false /\ Forall2 tracks_block (blocks F0) (blocks F')).
  { destruct (neverReturns_spec p F0 (set_blocks F bs) (Hwf p F0 HF0) HF0 Hbs) as [[g Eg] _]. unfold mark_errors.
    destruct calls as [|c calls]; [by eexists|]. rewrite Eg. cbn [mbind res_bind]. eexists. split_and!; [done..|].
    eapply mark_calls_tracks; [by eapply Hwf|done|done]. }
  destruct Herr as (F'&E&Hn&Hs&Hr&Hb). rewrite E. cbn [mbind res_bind].
  destruct (neverReturns_spec p F0 F' (Hwf p F0 HF0) HF0 Hb) as [_ (never&En&Hnever)]. rewrite En. cbn [mbind res_bind].
  destruct Htr as [H1 H2 _ _].
  assert (Hins : forall F1, tracks p F0 F1 -> (forall q G, <[p := F1]> (functions s) !! q = Some G ->
      exists G0, functions s0 !! q = Some G0 /\ tracks q G0 G) /\
    (forall q, is_Some (functions s0 !! q) -> is_Some (<[p := F1]> (functions s) !! q))).
  { intros F1 HT. split.
    - intros q G HG. destruct (decide (p = q)) as [<-|Hne].
      + rewrite lookup_insert_eq in HG. injection HG as <-. by exists F0.
      + rewrite lookup_insert_ne in HG by done. by apply (in_functions s Hinv).
    - intros q Hq. destruct (decide (p = q)) as [<-|Hne]; [by rewrite lookup_insert_eq; eexists|].
      rewrite lookup_insert_ne by done. by apply (in_domain s Hinv). }
  destruct never.
  - destruct (Hins (setNonreturn F')) as [I1 I2].
    { split; [cbn; congruence|cbn; congruence|done|]. intros _. by apply Hnever. }
    eexists. split_and!; [done|split; [exact I1|exact I2|]| |]; cbn [nonReturnList functions]; [|set_solver..].
    intros q Hq. destruct (decide (p = q)) as [<-|Hne].
    + split; [by apply Hnever|]. exists (setNonreturn F'). by rewrite lookup_insert_eq.
    + rewrite lookup_insert_ne by done. apply (in_list s Hinv). set_solver.
  - destruct (Hins F') as [I1 I2]; [split; congruence|].
    eexists. split_and!; [done|split; [exact I1|exact I2|]| |]; cbn [nonReturnList functions]; [|set_solver..].
    intros q Hq. destruct (in_list s Hinv q Hq) as [Hq1 (G&HG&HGm)]. split; [done|].
    assert (p <> q) by congruence. rewrite lookup_insert_ne by done. by exists G.
Qed.

Lemma recurse_spec list : Forall (fun p => is_Some (functions s0 !! p)) list -> forall s, inv s ->
  exists s', recurse arch getRegRef s list = Ok s' /\ inv s' /\
    nonReturnList s ⊆ nonReturnList s' /\ nonReturnList s' ⊆ list_to_set list ∪ nonReturnList s.
Proof.
  induction 1 as [|p list Hp _ IH]; intros s Hinv; [exists s; split_and!; [done|done|done|set_solver]|]. cbn [recurse].
  destruct (visit_Function_spec s p Hinv Hp) as (s1&E1&Hi1&Ha1&Hb1). rewrite E1. cbn [mbind res_bind].
  destruct (IH s1 Hi1) as (s2&E2&Hi2&Ha2&Hb2). exists s2. split_and!; [done|done|set_solver|].
  intros x Hx%Hb2. rewrite list_to_set_cons. set_solver.
Qed.

Lemma size_of_list (list : list ptr) : (size (list_to_set (C := gset ptr) list) <= length list)%nat.
Proof.
  induction list as [|p list IH]; [by rewrite list_to_set_nil, size_empty|]. rewrite list_to_set_cons. cbn [length].
  rewrite size_union_alt, size_singleton. apply le_n_S. etransitivity; [|exact IH]. apply subseteq_size. set_solver.
Qed.
Lemma visit_fuel_spec list : Forall (fun p => is_Some (functions s0 !! p)) list -> forall fuel s, inv s ->
  nonReturnList s ⊆ list_to_set list -> (length list + 1 < fuel + size (nonReturnList s))%nat ->
  exists s', visit_fuel arch getRegRef fuel s list = Ok s' /\ inv s'.
Proof.
  intros Hl. induction fuel as [|fuel IH]; intros s Hinv Hsub Hfuel.
  - exfalso. pose proof (subseteq_size _ _ Hsub). pose proof (size_of_list list). lia.
  - cbn [visit_fuel]. destruct (recurse_spec list Hl s Hinv) as (s1&E1&Hi1&Ha1&Hb1). rewrite E1. cbn [mbind res_bind].
    case_bool_decide as Hsize; [by exists s1|]. apply IH; [done|set_solver|].
    pose proof (subseteq_size _ _ Ha1). lia.
Qed.

Lemma inv_before : nonReturnList s0 = ∅ -> inv s0.
Proof.
  intros He. split; [|done|by rewrite He; intros p ?%not_elem_of_empty].
  intros p F HF. exists F. split; [done|]. split; [done..| |].
  - apply Forall2_same_length_lookup_2; [done|]. intros n b b' Hb Hb'. assert (b' = b) as -> by congruence.
    split_and!; [done..|]. apply Forall2_same_length_lookup_2; [done|]. intros k i i' Hi Hi'. left. congruence.
  - intros Hm Hr. destruct Hr. congruence.
Qed.
End rounds.

(** C19: on programs without conditional jumps to functions, and where [getArg0Value] has no constant other than
    0 among the definitions of its register at a call of error() with the status 0, the pass ends without a failed assertion; it changes functions only by marks on
    instructions and functions; an instruction that it marks is one that control does not
    pass, and a function that it marks, all of those in its list among them, does not return: none
    of its runs from the first block to a block without a successor comes back from all its
    calls. *)
Theorem nonreturn_sound list :
  nonReturnList s0 = ∅ -> (forall p F0, functions s0 !! p = Some F0 -> well_formed F0) ->
  Forall (fun p => is_Some (functions s0 !! p)) list ->
  exists s, visit_FunctionList arch getRegRef s0 list = Ok s /\
    (forall p F0, functions s0 !! p = Some F0 -> exists F, functions s !! p = Some F /\ tracks p F0 F) /\
    (forall p, p ∈ nonReturnList s -> ~ may_return p /\ exists F, functions s !! p = Some F /\ f_nonreturn F = true).
Proof.
  intros He Hwf Hl. unfold visit_FunctionList.
  destruct (visit_fuel_spec Hwf list Hl (S (S (length list))) s0 (inv_before He)) as (s&E&Hinv).
  - rewrite He. apply empty_subseteq.
  - lia.
  - exists s. split_and!; [done| |apply (in_list s Hinv)]. intros p F0 HF0.
    destruct (in_domain s Hinv p (ex_intro _ F0 HF0)) as [F HF]. destruct (in_functions s Hinv p F HF) as (F0'&HF0'&Ht).
    exists F. split; [done|]. congruence.
Qed.
End semantics.

(** ** Examples *)

Module NonReturnExamples.
Local Definition to_fn (f : ptr) : option CfiLink := Some (mkCfiLink (mkLinkView (Some TargetOther) 0) (ToFunction f)).
Local Definition plt (n : string) : option CfiLink := Some (mkCfiLink (mkLinkView (Some TargetOther) 0) (PLTLink n)).
Local Definition cond_to (b : ptr) (a : Z) : option CfiLink :=
  Some (mkCfiLink (mkLinkView (Some (TargetInstruction (Some b))) a) ToOther).
Local Definition call (p a : Z) (k : option CfiLink) : Instr := mkInstr p a (Cfi "bl" false k).
Local Definition jcc (p a : Z) (k : option CfiLink) : Instr := mkInstr p a (Cfi "b.eq" false k).
Local Definition other (p a : Z) : Instr := mkInstr p a (NotCfi OtherSemantic None).
Local Definition ret (p a : Z) : Instr := mkInstr p a (NotCfi ReturnInstruction None).

(** [usage] (1) calls [die] (2) on its only path; [die] ends with error(1); [work] (3)
    calls [die] on one of two paths, and error(0) on the other. *)
Definition usage : Func := mkFunc "usage" None false [mkBlk 10 4096 [other 101 4096; call 102 4100 (to_fn 2)]; mkBlk 11 4105 [ret 111 4105]].
Definition die : Func := mkFunc "die" None false
  [mkBlk 20 4112 [other 201 4112; jcc 202 4116 (cond_to 22 4128)]; mkBlk 21 4118 [call 211 4118 (plt "puts")];
   mkBlk 22 4128 [call 221 4128 (plt "error")]; mkBlk 23 4133 [ret 231 4133]].
Definition work : Func := mkFunc "work" (Some ("work", ["do_work"])) false
  [mkBlk 30 4144 [jcc 301 4144 (cond_to 32 4160)]; mkBlk 31 4146 [call 311 4146 (to_fn 2)];
   mkBlk 32 4160 [call 321 4160 (plt "error")]; mkBlk 33 4165 [ret 331 4165]].
Definition program : State := mkState (list_to_map [(1, usage); (2, die); (3, work)]) ∅.
(** The analysis finds the status 1 at the call in [die], 0 at that in [work], on AArch64. *)
Definition arg0 (f : Func) (p : ptr) (reg : Z) : list (option TreeNode) :=
  if (p =? 221) && (reg =? 0) then [Some (TreeNodeConstant 1)] else if (p =? 321) && (reg =? 0) then [None; Some (TreeNodeConstant 0)] else [].

Local Ltac each H := repeat match type of H with
  | _ ∈ [] => by apply not_elem_of_nil in H
  | _ ∈ _ :: _ => apply elem_of_cons in H as [->|H]
  end.
Lemma program_well_formed p F0 : functions program !! p = Some F0 -> well_formed ARCH_AARCH64 program F0.
Proof.
  intros H. unfold program in H. cbn [functions] in H. apply elem_of_list_to_map_2 in H.
  repeat (apply elem_of_cons in H as [[= -> ->]|H]); [..|by apply not_elem_of_nil in H].
  all: split; [by split; [apply (bool_decide_unpack _)|]|
    repeat constructor; eexists; (split; [done|]); cbn; intros; simplify_eq/=|by apply (bool_decide_unpack _)| |].
  all: intros b i m; intros; repeat match goal with H : _ ∈ blocks _ |- _ => cbn [blocks usage die work] in H; each H end.
  all: repeat match goal with H : _ ∈ instrs _ |- _ => cbn [instrs] in H; each H end; simplify_eq/=; try done.
  all: try (by eexists; split; [done|]; cbn; intros g; intros; simplify_eq; eexists).
  all: match goal with H : _ \/ _ |- _ => destruct H as [?|(l&Hl&Hto)] end; [done|]; injection Hl as <-; by destruct Hto.
Qed.
(** [die] and [usage] never return; [work] does, and its call of [die] is marked. *)
Definition marks (s : State) : list (option (bool * list (list bool))) :=
  map (fun p => (fun F => (f_nonreturn F, map (map marked ∘ instrs) (blocks F))) <$> functions s !! p) [1; 2; 3].
Lemma nonreturn_sound_witness :
  (marks <$> match visit_FunctionList ARCH_AARCH64 arg0 program [1; 2; 3] with Ok s => Some s | Err _ => None end) = Some
    [Some (true, [[false; true]; [false]]); Some (true, [[false; false]; [false]; [true]; [false]]);
     Some (false, [[false]; [true]; [false]; [false]])] /\
  exists s, visit_FunctionList ARCH_AARCH64 arg0 program [1; 2; 3] = Ok s /\
    (forall p F0, functions program !! p = Some F0 ->
       exists F, functions s !! p = Some F /\ tracks ARCH_AARCH64 (fun p => p = 321) program p F0 F) /\
    (forall p, p ∈ nonReturnList s -> ~ may_return ARCH_AARCH64 (fun p => p = 321) program p /\
       exists F, functions s !! p = Some F /\ f_nonreturn F = true).
Proof.
  split; [vm_compute; reflexivity|]. apply nonreturn_sound.
  - intros F p reg v -> [= <-] H. unfold arg0 in H. cbn in H. apply elem_of_cons in H as [?|H]; [done|].
    apply list_elem_of_singleton in H. by injection H as ->.
  - done.
  - apply program_well_formed.
  - repeat constructor; by eexists.
Defined.

(** A conditional jump to exit() is marked like a call of it: a function that returns when the jump
    is not taken is said to never return. *)
Definition maybe_exit : Func := mkFunc "maybe_exit" None false [mkBlk 40 4192 [jcc 401 4192 (to_fn 5)]; mkBlk 41 4198 [ret 411 4198]].
Definition exit_fn : Func := mkFunc "exit" None false [mkBlk 50 4208 [other 501 4208]].
Definition conditional : State := mkState (list_to_map [(4, maybe_exit); (5, exit_fn)]) ∅.
Lemma conditional_jump_marked :
  may_return ARCH_AARCH64 (fun _ => False) conditional 4 /\
  exists s, visit_FunctionList ARCH_AARCH64 arg0 conditional [4; 5] = Ok s /\ 4 ∈ nonReturnList s.
Proof.
  assert (Hs : successor ARCH_AARCH64 (view maybe_exit) 0 (view_block (mkBlk 40 4192 [jcc 401 4192 (to_fn 5)])) 1).
  { eapply succ_fall; [done|done|cbn; lia|done]. }
  split.
  - eapply (may_return_run _ _ _ 4 maybe_exit [1%nat; 0%nat] 1%nat); [done|done| | |].
    + by eapply run_step; [constructor|done|exact Hs].
    + intros b j [= <-] Hj. destruct Hj as [? ? ? ? ? Hl|? ? ? ? ? ? ? Hl|? Hl]; cbn in Hl; by injection Hl as <-.
    + intros n b i Hn Hb Hi. apply elem_of_cons in Hn as [->|Hn]; [|apply list_elem_of_singleton in Hn as ->];
        injection Hb as <-; apply list_elem_of_singleton in Hi as ->; [by eapply passes_other|by eapply passes_conditional].
  - eexists. split; [vm_compute; reflexivity|]. by apply (bool_decide_unpack _).
Qed.
(** A function that calls error() with the status 0 and returns *)
Definition warns (m : string) : Func := mkFunc "warns" None false
  [mkBlk 60 4224 [mkInstr 601 4224 (Cfi m false (plt "error"))]; mkBlk 61 4229 [ret 611 4229]].
Definition warning (m : string) : State := mkState (list_to_map [(6, warns m)]) ∅.
Lemma warns_returns arch m : falls_through arch m true = true -> may_return arch (fun p => p = 601) (warning m) 6.
Proof.
  intros Hm. eapply (may_return_run _ _ _ 6 (warns m) [1%nat; 0%nat] 1%nat); [done|done| | |].
  - eapply run_step; [constructor|done|]. eapply succ_fall; [done|exact Hm|cbn; lia|done].
  - intros b j [= <-] Hj. destruct Hj as [? ? ? ? ? Hl|? ? ? ? ? ? ? Hl|? Hl]; cbn in Hl; by injection Hl as <-.
  - intros n b i Hn Hb Hi. apply elem_of_cons in Hn as [->|Hn]; [|apply list_elem_of_singleton in Hn as ->];
      injection Hb as <-; apply list_elem_of_singleton in Hi as ->; [by eapply passes_other|].
    eapply passes_plt; [done|done| |done]. by apply (bool_decide_unpack _).
Qed.
(** On x86-64 the first argument is in RDI (R7), but [getArg0Value] looks at R5, which is RBP: the call of error() with
    RDI = 0 is marked for the constant in RBP, and its function is said to never return. *)
Definition rbp_is_1 (_ : Func) (_ : ptr) (reg : Z) : list (option TreeNode) :=
  if reg =? 5 then [Some (TreeNodeConstant 1)] else if reg =? 7 then [Some (TreeNodeConstant 0)] else [].
Lemma error_rbp : may_return ARCH_X86_64 (fun p => p = 601) (warning "callq") 6 /\
  exists s, visit_FunctionList ARCH_X86_64 rbp_is_1 (warning "callq") [6] = Ok s /\ 6 ∈ nonReturnList s.
Proof. split; [by apply warns_returns|]. eexists. split; [vm_compute; reflexivity|]. by apply (bool_decide_unpack _). Qed.
(** Of several definitions that reach the call the first constant is taken: a call with the status 1 on one path
    and 0 on another one is marked. *)
Definition one_or_zero (_ : Func) (_ : ptr) (reg : Z) : list (option TreeNode) :=
  if reg =? 0 then [Some (TreeNodeConstant 1); Some (TreeNodeConstant 0)] else [].
Lemma error_ambiguous : may_return ARCH_AARCH64 (fun p => p = 601) (warning "bl") 6 /\
  exists s, visit_FunctionList ARCH_AARCH64 one_or_zero (warning "bl") [6] = Ok s /\ 6 ∈ nonReturnList s.
Proof. split; [by apply warns_returns|]. eexists. split; [vm_compute; reflexivity|]. by apply (bool_decide_unpack _). Qed.

(** [work] returns: it has a way around [die]. *)
Lemma work_returns : may_return ARCH_AARCH64 (fun p => p = 321) program 3.
Proof.
  eapply (may_return_run _ _ _ 3 work [3%nat; 2%nat; 0%nat] 3%nat); [done|done| | |].
  - eapply run_step; [eapply run_step; [constructor|done|]|done|].
    + by eapply succ_jump.
    + eapply succ_fall; [done|done|cbn; lia|done].
  - intros b j [= <-] Hj. destruct Hj as [? ? ? ? ? Hl|? ? ? ? ? ? ? Hl|? Hl]; cbn in Hl; by injection Hl as <-.
  - intros n b i Hn Hb Hi. repeat (apply elem_of_cons in Hn as [->|Hn]); [..|by apply not_elem_of_nil in Hn];
      injection Hb as <-; apply list_elem_of_singleton in Hi as ->.
    + by eapply passes_other.
    + eapply passes_plt; [done|done| |done]. by apply (bool_decide_unpack _).
    + by eapply passes_conditional.
Qed.
End NonReturnExamples.
