(* ===== verification/Call.v ===== *)
(** * The call graph: src/analysis/call.{h,cpp}

    The graph of the functions of a program: a link for every direct call or jump to a
    function, and for one to a PLT entry that is resolved to a function.  The functions that
    may be called indirectly are those whose address is in a variable of a data section. *)

From S2P Require Import Prelude Range ChunkList Graph GraphProofs.

(** ** What the analysis sees of a program *)

(** The target of a link: a function, an instruction (with the function that holds it), a
    PLT entry (with its target, and whether that is a function), or another chunk. *)
Record TrampolineTarget := mkTarget { t_chunk : ptr; t_function : bool }.
Inductive LinkTarget :=
| ToFunction (f : ptr)
| ToInstruction (f : option ptr)
| ToPLT (target : option TrampolineTarget)
| ToOther.

(** An instruction: is it a [ControlFlowInstruction], a [LinkedLiteralInstruction], and its
    link. *)
Record InstrView := mkInstrView { is_cfi : bool; is_literal : bool; i_link : option LinkTarget }.
Record FunctionView := mkFunctionView {
  function : ptr; names : list string; range : Range; blocks : list (list InstrView) }.
(** A data section: its name, and the link of each variable. *)
Record DataSectionView := mkSectionView { s_name : string; variables : list (option LinkTarget) }.
(** A relocation: its addend, and the address of its symbol. *)
Record RelocView := mkReloc { r_addend : Z; r_symbol : option Z }.
Record ModuleView := mkModuleView {
  functions : list FunctionView;
  regions : list (list DataSectionView);
  dynamic : option (list (Z * Z));            (* tags and values of .dynamic *)
  relocList : option (gmap Z RelocView) }.
(** The modules, and the entry point if it is a function *)
Record ProgramView := mkProgram { modules : list ModuleView; entryPoint : option ptr }.

Definition all_functions (p : ProgramView) : list FunctionView := concat (map functions (modules p)).

(** ** CallGraph *)
Record CallGraphNode := mkNode { id : nat; getFunction : ptr; upLinks : list nat; downLinks : list nat }.
Record CallGraph := mkGraph { nodeList : list CallGraphNode; mapping : gmap ptr nat }.

Definition addDownLink (targetId : nat) (n : CallGraphNode) : CallGraphNode :=
  mkNode (id n) (getFunction n) (upLinks n) (downLinks n ++ [targetId]).
Definition addUpLink (targetId : nat) (n : CallGraphNode) : CallGraphNode :=
  mkNode (id n) (getFunction n) (upLinks n ++ [targetId]) (downLinks n).

#[export] Instance CallGraph_graph : GraphBase CallGraph := {
  getCount g := length (nodeList g);
  getLinks g i direction := n ← vec_at (nodeList g) i; Ok (if 0 <? direction then downLinks n else upLinks n) }.

(** [mapping[function]]: an element that is missing is made, with the number 0. *)
Definition getIDFor (g : CallGraph) (f : ptr) : nat := default 0%nat (mapping g !! f).
Definition getNode (g : CallGraph) (f : ptr) : res CallGraphNode := vec_at (nodeList g) (getIDFor g f).
Definition at_node (g : CallGraph) (f : ptr) (u : CallGraphNode -> CallGraphNode) : res CallGraph :=
  n ← getNode g f; Ok (mkGraph (<[getIDFor g f := u n]> (nodeList g)) (mapping g)).

Definition makeLinks (g : CallGraph) (caller callee : ptr) : res CallGraph :=
  node ← getNode g caller; targetNode ← getNode g callee;
  g ← at_node g caller (addDownLink (id targetNode));
  at_node g callee (addUpLink (id node)).

(** The function that a call or jump is to *)
Definition callee (i : InstrView) : option ptr :=
  if is_cfi i then
    match i_link i with
    | Some (ToFunction f) => Some f
    | Some (ToPLT (Some t)) => Some (t_chunk t)
    | _ => None
    end
  else None.

Fixpoint link_instrs (g : CallGraph) (f : ptr) (l : list InstrView) : res CallGraph :=
  match l with
  | [] => Ok g
  | i :: l => g ← (match callee i with Some t => makeLinks g f t | None => Ok g end); link_instrs g f l
  end.
Fixpoint link_blocks (g : CallGraph) (f : ptr) (bs : list (list InstrView)) : res CallGraph :=
  match bs with [] => Ok g | b :: bs => g ← link_instrs g f b; link_blocks g f bs end.
Definition makeDirectEdges (g : CallGraph) (f : FunctionView) : res CallGraph := link_blocks g (function f) (blocks f).
Fixpoint link_functions (g : CallGraph) (l : list FunctionView) : res CallGraph :=
  match l with [] => Ok g | f :: l => g ← makeDirectEdges g f; link_functions g l end.

(** The constructor: the nodes, then the links. *)
Definition number_function (g : CallGraph) (f : FunctionView) : CallGraph :=
  mkGraph (nodeList g ++ [mkNode (length (nodeList g)) (function f) [] []])
    (<[function f := length (nodeList g)]> (mapping g)).
Definition construct (p : ProgramView) : res CallGraph :=
  link_functions (foldl number_function (mkGraph [] ∅) (all_functions p)) (all_functions p).

(** ** IndirectCalleeList *)
Module IndirectCalleeList.
(** [link->getTarget()] of the link of a variable, and the functions among the targets *)
Definition target_of (link : option LinkTarget) : res (list ptr) :=
  match link with
  | None => Err NullDeref
  | Some (ToFunction f) => Ok [f]
  | Some _ => Ok []
  end.
Fixpoint targets (links : list (option LinkTarget)) : res (list ptr) :=
  match links with [] => Ok [] | k :: links => t ← target_of k; ts ← targets links; Ok (t ++ ts) end.
Definition section_links (s : DataSectionView) : list (option LinkTarget) :=
  if bool_decide (s_name s = ".got.plt"%string) then [] else variables s.
Definition literal_links (arch_aarch64 : bool) (m : ModuleView) : list (option LinkTarget) :=
  if arch_aarch64
  then map i_link (List.filter is_literal (concat (concat (map blocks (functions m)))))
  else [].
Definition makeList (arch_aarch64 : bool) (m : ModuleView) : res (list ptr) :=
  targets (concat (map section_links (concat (regions m))) ++ literal_links arch_aarch64 m).
Fixpoint make_lists (arch_aarch64 : bool) (ms : list ModuleView) : res (list ptr) :=
  match ms with [] => Ok [] | m :: ms => l ← makeList arch_aarch64 m; r ← make_lists arch_aarch64 ms; Ok (l ++ r) end.
(** The set of functions *)
Definition new (arch_aarch64 : bool) (p : ProgramView) : res (gset ptr) :=
  l ← make_lists arch_aarch64 (modules p); Ok (list_to_set l).
Definition contains (l : gset ptr) (f : ptr) : bool := bool_decide (f ∈ l).
End IndirectCalleeList.

(** ** The links of the graph *)

Definition callees (f : FunctionView) : list ptr := omap callee (concat (blocks f)).
(** A direct call of [t] in [f] *)
Definition calls (p : ProgramView) (f t : ptr) : Prop :=
  exists F, F ∈ all_functions p /\ function F = f /\ t ∈ callees F.

Section edges.
Variable fs : list ptr.
Hypothesis Hnodup : NoDup fs.

(** A graph on the way, with the calls [es] *)
Record built (g : CallGraph) (es : list (ptr * ptr)) : Prop := {
  b_count : length (nodeList g) = length fs;
  b_nodes : forall i n, nodeList g !! i = Some n -> id n = i /\ fs !! i = Some (getFunction n);
  b_mapping : forall f, mapping g !! f = fst <$> list_find (fun x => x = f) fs;
  b_down : forall i n j, nodeList g !! i = Some n ->
    j ∈ downLinks n <-> exists f t, (f, t) ∈ es /\ getIDFor g f = i /\ getIDFor g t = j;
  b_up : forall j n i, nodeList g !! j = Some n ->
    i ∈ upLinks n <-> exists f t, (f, t) ∈ es /\ getIDFor g f = i /\ getIDFor g t = j }.

Lemma id_lt g es f : built g es -> (0 < length fs)%nat -> (getIDFor g f < length (nodeList g))%nat.
Proof.
  intros Hb Hl. unfold getIDFor. rewrite (b_mapping _ _ Hb), (b_count _ _ Hb).
  destruct (list_find _ fs) as [[i x]|] eqn:E; cbn; [|done]. apply list_find_Some in E as (E&_). by eapply lookup_lt_Some.
Qed.

Lemma getNode_Ok g es f : built g es -> (0 < length fs)%nat ->
  exists n, nodeList g !! getIDFor g f = Some n /\ getNode g f = Ok n /\ id n = getIDFor g f.
Proof.
  intros Hb Hl. destruct (lookup_lt_is_Some_2 _ _ (id_lt g es f Hb Hl)) as [n En].
  exists n. unfold getNode. rewrite (vec_at_Some _ _ _ En). split_and!; [done..|]. by apply (b_nodes _ _ Hb).
Qed.

Lemma makeLinks_built g es f t : built g es -> (0 < length fs)%nat ->
  exists g', makeLinks g f t = Ok g' /\ built g' (es ++ [(f, t)]).
Proof.
  intros Hb Hl. destruct (getNode_Ok g es f Hb Hl) as (n&En&Enode&Hid). destruct (getNode_Ok g es t Hb Hl) as (n2&En2&Enode2&Hid2).
  pose proof (id_lt g es f Hb Hl) as Hf. pose proof (id_lt g es t Hb Hl) as Hlt.
  unfold makeLinks. rewrite Enode, Enode2. cbn [mbind res_bind]. unfold at_node. rewrite Enode. cbn [mbind res_bind].
  set (g1 := mkGraph _ (mapping g)). assert (Hm : forall x, getIDFor g1 x = getIDFor g x) by done.
  destruct (lookup_lt_is_Some_2 (nodeList g1) (getIDFor g1 t)) as [n3 En3]; [rewrite Hm; cbn; by rewrite length_insert|].
  unfold getNode. rewrite (vec_at_Some _ _ _ En3). cbn [mbind res_bind]. eexists. split; [done|].
  assert (H1 : forall i m, nodeList g1 !! i = Some m -> exists m0, nodeList g !! i = Some m0 /\ id m = id m0 /\
    getFunction m = getFunction m0 /\ upLinks m = upLinks m0 /\
    downLinks m = if decide (i = getIDFor g f) then downLinks m0 ++ [getIDFor g t] else downLinks m0).
  { intros i m Hi. cbn in Hi. apply list_lookup_insert_Some in Hi as [(<-&<-&_)|(Hne&Hi)].
    - exists n. rewrite decide_True by done. cbn. rewrite Hid2. by split_and!.
    - exists m. rewrite decide_False by done. by split_and!. }
  assert (H2 : forall i m, <[getIDFor g1 t := addUpLink (id n) n3]> (nodeList g1) !! i = Some m ->
    exists m0, nodeList g !! i = Some m0 /\ id m = id m0 /\ getFunction m = getFunction m0 /\
    (upLinks m = if decide (i = getIDFor g t) then upLinks m0 ++ [getIDFor g f] else upLinks m0) /\
    downLinks m = if decide (i = getIDFor g f) then downLinks m0 ++ [getIDFor g t] else downLinks m0).
  { intros i m Hi. apply list_lookup_insert_Some in Hi as [(<-&<-&_)|(Hne&Hi)].
    - destruct (H1 _ _ En3) as (m0&E0&?&?&?&?). exists m0. rewrite (decide_True (P := getIDFor g1 t = getIDFor g t)) by done.
      cbn [addUpLink id getFunction upLinks downLinks]. rewrite Hid. split_and!; [done..| |done]. congruence.
    - destruct (H1 _ _ Hi) as (m0&E0&?&?&?&?). exists m0. rewrite (decide_False (P := i = getIDFor g t)) by done. by split_and!. }
  split.
  - cbn. rewrite !length_insert. apply Hb.
  - intros i m Hi. destruct (H2 i m Hi) as (m0&E0&->&->&_). by apply (b_nodes _ _ Hb).
  - apply Hb.
  - intros i m j Hi. destruct (H2 i m Hi) as (m0&E0&_&_&_&->). pose proof (b_down _ _ Hb i m0 j E0) as Hd.
    cbn [mapping]. unfold getIDFor in *. cbn [mapping].
    setoid_rewrite elem_of_app. setoid_rewrite list_elem_of_singleton. case_decide as Hi'.
    + rewrite elem_of_app, list_elem_of_singleton, Hd. split.
      * intros [(a&b&?&?&?)| ->]; [exists a, b; auto|exists f, t; auto].
      * intros (a&b&[?|[= -> ->]]&?&?); [left; exists a, b; auto|right; congruence].
    + rewrite Hd. split.
      * intros (a&b&?&?&?). exists a, b; auto.
      * intros (a&b&[?|[= -> ->]]&?&?); [exists a, b; auto|congruence].
  - intros j m i Hi. destruct (H2 j m Hi) as (m0&E0&_&_&->&_). pose proof (b_up _ _ Hb j m0 i E0) as Hd.
    cbn [mapping]. unfold getIDFor in *. cbn [mapping].
    setoid_rewrite elem_of_app. setoid_rewrite list_elem_of_singleton. case_decide as Hi'.
    + rewrite elem_of_app, list_elem_of_singleton, Hd. split.
      * intros [(a&b&?&?&?)| ->]; [exists a, b; auto|exists f, t; auto].
      * intros (a&b&[?|[= -> ->]]&?&?); [left; exists a, b; auto|right; congruence].
    + rewrite Hd. split.
      * intros (a&b&?&?&?). exists a, b; auto.
      * intros (a&b&[?|[= -> ->]]&?&?); [exists a, b; auto|congruence].
Qed.

Lemma link_instrs_built g es f l : built g es -> (0 < length fs)%nat ->
  exists g', link_instrs g f l = Ok g' /\ built g' (es ++ map (pair f) (omap callee l)).
Proof.
  intros Hb Hl. revert g es Hb. induction l as [|i l IH]; intros g es Hb.
  { exists g. split; [done|]. cbn. by rewrite app_nil_r. }
  cbn [link_instrs omap list_omap]. destruct (callee i) as [t|] eqn:Et.
  - destruct (makeLinks_built g es f t Hb Hl) as (g1&E&Hb1). rewrite E. cbn [mbind res_bind map].
    destruct (IH g1 _ Hb1) as (g2&E2&Hb2). exists g2. split; [done|]. by rewrite <- app_assoc in Hb2.
  - cbn [mbind res_bind]. by apply IH.
Qed.
Lemma link_blocks_built g es f bs : built g es -> (0 < length fs)%nat ->
  exists g', link_blocks g f bs = Ok g' /\ built g' (es ++ map (pair f) (omap callee (concat bs))).
Proof.
  intros Hb Hl. revert g es Hb. induction bs as [|b bs IH]; intros g es Hb.
  { exists g. split; [done|]. cbn. by rewrite app_nil_r. }
  cbn [link_blocks concat]. destruct (link_instrs_built g es f b Hb Hl) as (g1&E&Hb1). rewrite E. cbn [mbind res_bind].
  destruct (IH g1 _ Hb1) as (g2&E2&Hb2). exists g2. split; [done|]. by rewrite omap_app, map_app, app_assoc.
Qed.
Definition calls_of (F : FunctionView) : list (ptr * ptr) := map (pair (function F)) (callees F).
Lemma link_functions_built g es l : built g es -> (length l <= length fs)%nat ->
  exists g', link_functions g l = Ok g' /\ built g' (es ++ concat (map calls_of l)).
Proof.
  revert g es. induction l as [|F l IH]; intros g es Hb Hl.
  { exists g. split; [done|]. cbn. by rewrite app_nil_r. }
  cbn [link_functions map concat length] in *.
  destruct (link_blocks_built g es (function F) (blocks F) Hb ltac:(lia)) as (g1&E&Hb1).
  unfold makeDirectEdges. rewrite E. cbn [mbind res_bind]. destruct (IH g1 _ Hb1 ltac:(lia)) as (g2&E2&Hb2).
  exists g2. split; [done|]. by rewrite app_assoc.
Qed.
End edges.

Lemma number_functions l : NoDup (map function l) ->
  built (map function l) (foldl number_function (mkGraph [] ∅) l) [].
Proof.
  induction l as [|F l IH] using rev_ind; intros Hd.
  - split; done.
  - rewrite map_app in Hd. apply NoDup_app in Hd as (Hd&Hn&_). specialize (IH Hd).
    rewrite foldl_snoc. set (g := foldl number_function _ l) in *. pose proof (b_count _ _ _ IH) as Hc.
    assert (Hl : length (nodeList g) = length l) by by rewrite Hc, length_map.
    assert (Hnode : forall i n, nodeList (number_function g F) !! i = Some n ->
      nodeList g !! i = Some n \/ (i = length l /\ n = mkNode (length l) (function F) [] [])).
    { intros i n Hi. cbn in Hi. apply lookup_app_Some in Hi as [Hi|[Hge Hi]]; [by left|right].
      apply list_lookup_singleton_Some in Hi as [Hi <-]. rewrite Hl in *. split; [lia|done]. }
    rewrite map_app. cbn [map]. split.
    + cbn. rewrite !length_app, Hl, length_map. done.
    + intros i n [Hi|[-> ->]]%Hnode.
      * destruct (b_nodes _ _ _ IH i n Hi) as [? Hf]. split; [done|]. by apply lookup_app_l_Some.
      * split; [done|]. cbn. rewrite lookup_app_r by by rewrite length_map. by rewrite length_map, Nat.sub_diag.
    + intros f. cbn [mapping number_function]. destruct (decide (function F = f)) as [<-|Hne].
      * assert (list_find (fun x => x = function F) (map function l) = None) as E.
        { apply list_find_None, Forall_forall. intros x Hx ->. by apply (Hn (function F)), list_elem_of_singleton. }
        rewrite lookup_insert_eq, list_find_app_r by done. cbn. rewrite decide_True by done. cbn. by rewrite Hc.
      * rewrite lookup_insert_ne, (b_mapping _ _ _ IH) by done.
        destruct (list_find _ (map function l)) as [[i x]|] eqn:E; [by rewrite (list_find_app_l _ _ _ _ _ E)|].
        rewrite list_find_app_r by done. cbn. by rewrite decide_False by done.
    + intros i n j [Hi|[-> ->]]%Hnode.
      * pose proof (b_down _ _ _ IH i n j Hi) as ->. set_solver.
      * cbn. set_solver.
    + intros i n j [Hi|[-> ->]]%Hnode.
      * pose proof (b_up _ _ _ IH i n j Hi) as ->. set_solver.
      * cbn. set_solver.
Qed.

Lemma calls_elem p f t : (f, t) ∈ concat (map calls_of (all_functions p)) <-> calls p f t.
Proof.
  unfold calls, calls_of. rewrite list_elem_of_In, in_concat. split.
  - intros (l&(F&<-&HF)%in_map_iff&(t'&[= <- <-]&Ht)%in_map_iff). exists F.
    split_and!; [by apply list_elem_of_In|done|by apply list_elem_of_In].
  - intros (F&HF&<-&Ht). exists (map (pair (function F)) (callees F)). split.
    + apply in_map_iff. exists F. split; [done|by apply list_elem_of_In].
    + apply in_map_iff. exists t. split; [done|by apply list_elem_of_In].
Qed.

(** The graph of a program, as its users see it *)
Record graph_of (p : ProgramView) (g : CallGraph) : Prop := {
  g_laws : GraphLaws g;
  g_count : getCount g = length (all_functions p);
  g_node : forall i n, nodeList g !! i = Some n -> id n = i /\ map function (all_functions p) !! i = Some (getFunction n);
  g_id : forall i f, map function (all_functions p) !! i = Some f -> getIDFor g f = i;
  g_id_lt : forall f, (0 < getCount g)%nat -> (getIDFor g f < getCount g)%nat;
  g_edge : forall i j, edge g 1 i j <-> (i < getCount g)%nat /\ exists f t, calls p f t /\ getIDFor g f = i /\ getIDFor g t = j;
  g_edge_up : forall i j, edge g (-1) j i <-> (j < getCount g)%nat /\ exists f t, calls p f t /\ getIDFor g f = i /\ getIDFor g t = j }.

Lemma construct_graph p : NoDup (map function (all_functions p)) -> exists g, construct p = Ok g /\ graph_of p g.
Proof.
  intros Hd. set (fs := map function (all_functions p)) in *.
  destruct (link_functions_built fs _ [] (all_functions p) (number_functions _ Hd)) as (g&E&Hb);
    [unfold fs; by rewrite length_map|]. cbn [app] in Hb.
  assert (Hlinks : forall i d n, nodeList g !! i = Some n -> getLinks g i d = Ok (if 0 <? d then downLinks n else upLinks n)).
  { intros i d n Hi. cbn. by rewrite (vec_at_Some _ _ _ Hi). }
  assert (Hnone : forall i d, nodeList g !! i = None -> links g d i = []).
  { intros i d Hi. unfold links. cbn. unfold vec_at. by rewrite Hi. }
  assert (Hlt : forall f t, calls p f t -> forall x, (getIDFor g x < length (nodeList g))%nat).
  { intros f t (F&HF&_&_) x. eapply id_lt; [exact Hb|]. unfold fs. rewrite length_map.
    destruct (all_functions p); [by apply elem_of_nil in HF|cbn; lia]. }
  assert (Hcount : length (nodeList g) = length (all_functions p)) by (rewrite (b_count _ _ _ Hb); unfold fs; by rewrite length_map).
  exists g. split; [exact E|]. split.
  - split.
    + intros d x Hx. destruct (lookup_lt_is_Some_2 (nodeList g) x Hx) as [n Hn]. rewrite (Hlinks x d n Hn).
      eexists. split; [done|]. apply Forall_forall. intros y Hy. destruct (0 <? d).
      * apply (b_down _ _ _ Hb x n y Hn) in Hy as (f&t&Hc&_&<-). eapply Hlt. by apply calls_elem.
      * apply (b_up _ _ _ Hb x n y Hn) in Hy as (f&t&Hc&<-&_). eapply Hlt. by apply calls_elem.
    + intros x y lx ly Ex Ey. cbn in Ex, Ey. unfold vec_at in Ex, Ey.
      destruct (nodeList g !! x) as [n|] eqn:En; [|done]. destruct (nodeList g !! y) as [m|] eqn:Em; [|done].
      cbn in Ex, Ey. injection Ex as <-. injection Ey as <-.
      by rewrite (b_down _ _ _ Hb x n y En), (b_up _ _ _ Hb y m x Em).
  - exact Hcount.
  - apply (b_nodes _ _ _ Hb).
  - intros i f Hi. unfold getIDFor. rewrite (b_mapping _ _ _ Hb).
    destruct (list_find _ _) as [[k x]|] eqn:El; cbn.
    + apply list_find_Some in El as (Hk&->&_). by eapply (NoDup_lookup fs).
    + apply list_find_None in El. rewrite Forall_forall in El. exfalso. apply (El f); [|done]. by eapply list_elem_of_lookup_2.
  - intros f Hc. eapply id_lt; [exact Hb|]. cbn in Hc. by rewrite <- (b_count _ _ _ Hb).
  - intros i j. unfold edge. destruct (nodeList g !! i) as [n|] eqn:En.
    + unfold links. rewrite (Hlinks i 1 n En). cbn [Z.ltb Z.compare]. rewrite (b_down _ _ _ Hb i n j En).
      setoid_rewrite calls_elem. pose proof (lookup_lt_Some _ _ _ En). cbn. tauto.
    + rewrite Hnone by done. split; [by intros ?%elem_of_nil|]. intros [Hi _]. apply lookup_ge_None in En. cbn in Hi. lia.
  - intros i j. unfold edge. destruct (nodeList g !! j) as [n|] eqn:En.
    + unfold links. rewrite (Hlinks j (-1) n En). cbn [Z.ltb Z.compare]. rewrite (b_up _ _ _ Hb j n i En).
      setoid_rewrite calls_elem. pose proof (lookup_lt_Some _ _ _ En). cbn. tauto.
    + rewrite Hnone by done. split; [by intros ?%elem_of_nil|]. intros [Hi _]. apply lookup_ge_None in En. cbn in Hi. lia.
Qed.
