(* ===== verification/Debloat.v ===== *)
(** * Functions that are never used: src/pass/debloat.{h,cpp}

    The constructor of the pass collects the functions that the call graph reaches from the
    initialization and finalization of the modules, the entry point, the functions whose address is
    taken, the targets of links in code, and functions with special names.  The visit of a module
    removes the other functions from its list. *)

From S2P Require Import Prelude Range ChunkList Graph Call Chunk Mutator.

Module DebloatPass.

(** ** Lookups in a module *)
Definition find_view (m : ModuleView) (f : ptr) : res FunctionView :=
  match list_find (fun F => function F = f) (functions m) with Some (_, F) => Ok F | None => Err Undefined end.
(** The functions of a module, as lists of chunks see them *)
Definition chunk_view (m : ModuleView) : ChunkView := {|
  v_address f := F ← find_view m f; Ok (_start (range F));
  v_range f := F ← find_view m f; Ok (range F);
  v_name f := match find_view m f with Ok F => hd ""%string (names F) | Err _ => ""%string end;
  v_cast _ := true |}.
(** [CIter::spatial(module->getFunctionList())->findContaining(address)] *)
Definition findContaining (m : ModuleView) (address : Z) : res (option ptr) :=
  s ← ChunkList.add_all (chunk_view m) [] (map function (functions m));
  SpatialChunkList.findContaining (chunk_view m) s address.
Definition hasName (F : FunctionView) (n : string) : bool := bool_decide (n ∈ names F).

(** ** Marking *)
Fixpoint insert_nodes (g : CallGraph) (order : list nat) (used : gset ptr) : res (gset ptr) :=
  match order with
  | [] => Ok used
  | i :: order => n ← vec_at (nodeList g) i; insert_nodes g order ({[getFunction n]} ∪ used)
  end.
Definition markTreeAsUsed (g : CallGraph) (used : gset ptr) (root : ptr) : res (gset ptr) :=
  if bool_decide (root ∈ used) then Ok used
  else
    n ← getNode g root;
    orders ← Preorder g (id n); order ← first_order orders;
    insert_nodes g order used.
Fixpoint mark_all (g : CallGraph) (used : gset ptr) (roots : list ptr) : res (gset ptr) :=
  match roots with [] => Ok used | r :: roots => used ← markTreeAsUsed g used r; mark_all g used roots end.
(** [assert(f); markTreeAsUsed(f);] *)
Definition mark_found (g : CallGraph) (used : gset ptr) (f : option ptr) : res (gset ptr) :=
  match f with Some f => markTreeAsUsed g used f | None => Err AssertFail end.

(** *** The dynamic section *)
Definition relocated (m : ModuleView) (r : option RelocView) : res (option ptr) :=
  match r with
  | None => Err NullDeref
  | Some r =>
    if negb (r_addend r =? 0) then findContaining m (u64 (r_addend r))
    else match r_symbol r with Some a => findContaining m a | None => Ok None end
  end.
Fixpoint pointer_loop (fuel : nat) (g : CallGraph) (m : ModuleView) (l : gmap Z RelocView) (start size sz : Z)
    (used : gset ptr) : res (gset ptr) :=
  match fuel with
  | O => Err OutOfFuel
  | S fuel =>
    if sz <? size then
      f ← relocated m (l !! add64 start sz);
      used ← mark_found g used f;
      pointer_loop fuel g m l start size (add64 sz 8) used
    else Ok used
  end.
Definition useFromPointerArray (g : CallGraph) (start size : Z) (m : ModuleView) (used : gset ptr) : res (gset ptr) :=
  if (start =? 0) || (size =? 0) then Ok used
  else match relocList m with
       | None => Ok used
       | Some l => pointer_loop (S (S (Z.to_nat (size / 8)))) g m l start size 0 used
       end.

Definition DT_INIT : Z := 12.
Definition DT_FINI : Z := 13.
Definition DT_INIT_ARRAY : Z := 25.
Definition DT_FINI_ARRAY : Z := 26.
Definition DT_INIT_ARRAYSZ : Z := 27.
Definition DT_FINI_ARRAYSZ : Z := 28.
Record Arrays := mkArrays { initArray : Z; finiArray : Z; initArraySz : Z; finiArraySz : Z }.
Definition set_array (a : Arrays) (tag v : Z) : Arrays :=
  if tag =? DT_INIT_ARRAY then mkArrays v (finiArray a) (initArraySz a) (finiArraySz a)
  else if tag =? DT_FINI_ARRAY then mkArrays (initArray a) v (initArraySz a) (finiArraySz a)
  else if tag =? DT_INIT_ARRAYSZ then mkArrays (initArray a) (finiArray a) v (finiArraySz a)
  else if tag =? DT_FINI_ARRAYSZ then mkArrays (initArray a) (finiArray a) (initArraySz a) v
  else a.
Fixpoint dynamic_loop (g : CallGraph) (m : ModuleView) (dyn : list (Z * Z)) (a : Arrays) (used : gset ptr) :
    res (Arrays * gset ptr) :=
  match dyn with
  | [] => Ok (a, used)
  | (tag, v) :: dyn =>
    if tag =? 0 then Ok (a, used)
    else
      used ← (if (tag =? DT_INIT) || (tag =? DT_FINI) then f ← findContaining m v; mark_found g used f else Ok used);
      dynamic_loop g m dyn (set_array a tag v) used
  end.
Definition use_dynamic (g : CallGraph) (m : ModuleView) (used : gset ptr) : res (gset ptr) :=
  match dynamic m with
  | None => Ok used
  | Some dyn =>
    '(a, used) ← dynamic_loop g m dyn (mkArrays 0 0 0 0) used;
    used ← useFromPointerArray g (initArray a) (initArraySz a) m used;
    useFromPointerArray g (finiArray a) (finiArraySz a) m used
  end.
Fixpoint useFromDynamicInitFini (g : CallGraph) (ms : list ModuleView) (used : gset ptr) : res (gset ptr) :=
  match ms with [] => Ok used | m :: ms => used ← use_dynamic g m used; useFromDynamicInitFini g ms used end.

(** *** Entry point, indirect calls, links and names *)
Definition useFromEntry (g : CallGraph) (p : ProgramView) (used : gset ptr) : res (gset ptr) :=
  mark_found g used (entryPoint p).
(** The set is traversed in the order of the pointers. *)
Definition useFromIndirectCallee (g : CallGraph) (arch_aarch64 : bool) (p : ProgramView) (used : gset ptr) : res (gset ptr) :=
  l ← IndirectCalleeList.new arch_aarch64 p;
  mark_all g used (merge_sort Z.le (elements l)).

Definition use_link (g : CallGraph) (i : InstrView) (used : gset ptr) : res (gset ptr) :=
  match i_link i with
  | Some (ToFunction f) => markTreeAsUsed g used f
  | Some (ToInstruction f) => mark_found g used f
  | Some (ToPLT (Some t)) => if t_function t then markTreeAsUsed g used (t_chunk t) else Ok used
  | _ => Ok used
  end.
Fixpoint use_links (g : CallGraph) (l : list InstrView) (used : gset ptr) : res (gset ptr) :=
  match l with [] => Ok used | i :: l => used ← use_link g i used; use_links g l used end.
Definition code (p : ProgramView) : list InstrView := concat (concat (map blocks (all_functions p))).
Definition useFromCodeLinks (g : CallGraph) (p : ProgramView) (used : gset ptr) : res (gset ptr) :=
  use_links g (code p) used.

Definition special_names : list string := ["_start2"; "ifunc_resolver"; "egalito_runtime_init"].
Definition gs_names : list string :=
  ["egalito_pthread_create"; "egalito_sigaction"; "egalito_signal_handler"; "egalito_jit_gs_setup_thread";
   "egalito_hook_jit_fixup"; "egalito_hook_jit_fixup_return"; "egalito_hook_jit_reset_on_syscall";
   "egalito_hook_after_clone_syscall"].
Definition use_name (g : CallGraph) (use_gs : bool) (F : FunctionView) (used : gset ptr) : res (gset ptr) :=
  used ← (if existsb (hasName F) special_names then markTreeAsUsed g used (function F) else Ok used);
  if use_gs && existsb (hasName F) gs_names then markTreeAsUsed g used (function F) else Ok used.
Fixpoint useFromSpecialName (g : CallGraph) (use_gs : bool) (l : list FunctionView) (used : gset ptr) : res (gset ptr) :=
  match l with [] => Ok used | F :: l => used ← use_name g use_gs F used; useFromSpecialName g use_gs l used end.

(** The constructor; [use_gs] is [isFeatureEnabled("EGALITO_USE_GS")]. *)
Definition new (arch_aarch64 use_gs : bool) (p : ProgramView) : res (CallGraph * gset ptr) :=
  g ← construct p;
  used ← useFromDynamicInitFini g (modules p) ∅;
  used ← useFromEntry g p used;
  used ← useFromIndirectCallee g arch_aarch64 p used;
  used ← useFromCodeLinks g p used;
  used ← useFromSpecialName g use_gs (all_functions p) used;
  Ok (g, used).

(** ** The visit of a module

    The loop goes from [begin()] to the [end()] of the vector at its start; a removal moves the
    later elements and leaves the iterator where it is.  To read past the elements that are
    left is undefined. *)
Fixpoint remove_loop (used : gset ptr) (m : ChunkMutator) (n i : nat) : M unit :=
  match n with
  | O => mret tt
  | S n =>
    l ← children_at (chunk m);
    match iterable l !! i with
    | None => fail Undefined
    | Some f =>
      (if bool_decide (f ∈ used) then mret tt else ChunkMutator.remove m f);;
      remove_loop used m n (S i)
    end
  end.
Definition visit_Module (used : gset ptr) (functionList : ptr) : M unit :=
  l ← children_at functionList;
  ChunkMutator.temporary (mkMutator functionList true) (fun m => remove_loop used m (length (iterable l)) 0).
End DebloatPass.
