(* ===== verification/DebloatProofs.v ===== *)
(** * The pass that removes unused functions: what it collects, and what it does *)

From stdpp Require Import relations.
From S2P Require Import Prelude Range ChunkList Graph GraphProofs GraphTheorems Call Chunk Mutator Debloat.
Import DebloatPass.

(** ** Operations that keep the child lists *)
Definition same (h h' : Heap) : Prop :=
  forall c, (fun x => (ctype x, childList x)) <$> chunks h' !! c = (fun x => (ctype x, childList x)) <$> chunks h !! c.
Definition stable {A} (m : M A) : Prop := forall h a h', m h = Ok (a, h') -> same h h'.

Lemma same_refl h : same h h.
Proof. done. Qed.
Lemma same_trans h1 h2 h3 : same h1 h2 -> same h2 h3 -> same h1 h3.
Proof. intros H1 H2 c. by rewrite H2, H1. Qed.
Lemma stable_ret {A} (a : A) : stable (mret a).
Proof. intros h b h' [= _ <-]. done. Qed.
Lemma stable_fail {A} e : stable (@fail A e).
Proof. by intros h b h'. Qed.
Lemma stable_bind {A B} (m : M A) (f : A -> M B) : stable m -> (forall a, stable (f a)) -> stable (m ≫= f).
Proof.
  intros Hm Hf h b h' E. unfold mbind, M_bind in E. destruct (m h) as [[a h1]|] eqn:E1; [|done].
  eapply same_trans; [by eapply Hm|by eapply Hf].
Qed.
Lemma stable_read {A} (m : M A) : (forall h a h', m h = Ok (a, h') -> h' = h) -> stable m.
Proof. intros H h a h' E. by rewrite (H h a h' E). Qed.
Lemma stable_put_position p x : stable (put_position p x).
Proof. intros h a h' [= _ <-]. done. Qed.
Lemma stable_chunk_at c : stable (chunk_at c).
Proof. apply stable_read. unfold chunk_at. intros h a h' E. by destruct (chunks h !! c); simplify_eq. Qed.
Lemma stable_position_at c : stable (position_at c).
Proof. apply stable_read. unfold position_at. intros h a h' E. by destruct (positions h !! c); simplify_eq. Qed.
Lemma stable_semantic_at c : stable (semantic_at c).
Proof. apply stable_read. unfold semantic_at. intros h a h' E. by destruct (semantics h !! c); simplify_eq. Qed.
Lemma stable_getHeap : stable getHeap.
Proof. apply stable_read. unfold getHeap. intros. by simplify_eq. Qed.
Lemma stable_lift {A} (r : res A) : stable (lift r).
Proof. apply stable_read. unfold lift. intros h a h' E. by destruct r; simplify_eq. Qed.
Lemma stable_at_heap {A} (f : Heap -> M A) : (forall h, stable (f h)) -> stable (fun h => f h h).
Proof. intros H h a h' E. by eapply H. Qed.
(** A write of a chunk that was read *)
Lemma same_put h c x y : chunks h !! c = Some x -> ctype y = ctype x -> childList y = childList x ->
  forall p s m g t f, same h (mkHeap (<[c := y]> (chunks h)) p s m g t f).
Proof.
  intros Hx Ht Hc p s m g t f e. cbn. destruct (decide (c = e)) as [<-|Hne].
  - rewrite lookup_insert_eq, Hx. cbn. by rewrite Ht, Hc.
  - by rewrite lookup_insert_ne.
Qed.
Create HintDb stable.
#[export] Hint Resolve stable_ret stable_fail stable_put_position stable_chunk_at stable_position_at stable_semantic_at
  stable_getHeap stable_lift : stable.

(** Binds, case distinctions and the operations of the database *)
Ltac keep := repeat first
  [ solve [auto with stable]
  | apply stable_bind; [|intro]
  | match goal with |- stable (match ?x with _ => _ end) => destruct x end
  | match goal with |- stable (if ?x then _ else _) => destruct x end ].

Lemma stable_deref p : stable (deref p).
Proof. unfold deref. keep. Qed.
#[export] Hint Resolve stable_deref : stable.

Lemma stable_modify c f : (forall x, ctype (f x) = ctype x) -> (forall x, childList (f x) = childList x) -> stable (modify c f).
Proof.
  intros Ht Hc h a h' E. unfold modify, mbind, M_bind, chunk_at, put_chunk in E.
  destruct (chunks h !! c) as [x|] eqn:Hx; [|done]. injection E as _ <-. by eapply same_put.
Qed.
Lemma stable_addToSize c n : stable (ChunkImpl.addToSize c n).
Proof.
  intros h a h' E. unfold ChunkImpl.addToSize in E. unfold mbind, M_bind, chunk_at in E.
  destruct (chunks h !! c) as [x|] eqn:Hx; [|done]. destruct (ctype x); try done; try (injection E as _ <-; done).
  all: unfold lift in E; destruct (ChunkImpl.adjustBy _ _); [|done]; injection E as _ <-; by eapply same_put.
Qed.
#[export] Hint Resolve stable_addToSize : stable.

Lemma stable_getParent c : stable (ChunkImpl.getParent c).
Proof. unfold ChunkImpl.getParent. keep. Qed.
Lemma stable_getPreviousSibling c : stable (ChunkImpl.getPreviousSibling c).
Proof. unfold ChunkImpl.getPreviousSibling. keep. Qed.
Lemma stable_getNextSibling c : stable (ChunkImpl.getNextSibling c).
Proof. unfold ChunkImpl.getNextSibling. keep. Qed.
Lemma stable_getPosition c : stable (ChunkImpl.getPosition c).
Proof. unfold ChunkImpl.getPosition. keep. Qed.
Lemma stable_getChildren c : stable (ChunkImpl.getChildren c).
Proof. unfold ChunkImpl.getChildren. keep. Qed.
Lemma stable_getSize c : stable (ChunkImpl.getSize c).
Proof. unfold ChunkImpl.getSize. keep. Qed.
Lemma stable_isModule c : stable (ChunkImpl.isModule c).
Proof. unfold ChunkImpl.isModule. keep. Qed.
#[export] Hint Resolve stable_getParent stable_getPreviousSibling stable_getNextSibling stable_getPosition stable_getChildren
  stable_getSize stable_isModule : stable.

(** *** Positions *)
Lemma stable_succ_int g : stable (Position.succ_int g).
Proof. unfold Position.succ_int. keep. Qed.
Lemma stable_getGeneration p : stable (Position.getGeneration p).
Proof. unfold Position.getGeneration. keep. Qed.
Lemma stable_setGeneration p g : stable (Position.setGeneration p g).
Proof. unfold Position.setGeneration. keep. Qed.
Lemma stable_set_cache p v : stable (Position.set_cache p v).
Proof. unfold Position.set_cache. keep. Qed.
Lemma stable_setOffset p o : stable (Position.setOffset p o).
Proof. unfold Position.setOffset. keep. Qed.
Lemma stable_isAbsolute p : stable (Position.isAbsolute p).
Proof. unfold Position.isAbsolute. keep. Qed.
Lemma stable_setAfterThis_if p c : stable (Position.setAfterThis_if p c).
Proof. unfold Position.setAfterThis_if. keep. Qed.
#[export] Hint Resolve stable_succ_int stable_getGeneration stable_setGeneration stable_set_cache stable_setOffset
  stable_isAbsolute stable_setAfterThis_if : stable.
Lemma stable_getAuthorityGeneration a : stable (Position.getAuthorityGeneration a).
Proof. unfold Position.getAuthorityGeneration. keep. Qed.
Lemma stable_getDependency x : stable (Position.getDependency x).
Proof. unfold Position.getDependency. keep. Qed.
#[export] Hint Resolve stable_getAuthorityGeneration stable_getDependency : stable.

Lemma stable_with_fuel {A} (f : nat -> M A) : (forall n, stable (f n)) -> stable (Position.with_fuel f).
Proof. intros H. apply (stable_at_heap (fun h => f (S (size (positions h))))). auto. Qed.

Section recursion.
Context (get : ptr -> M Z) (Hget : forall p, stable (get p)).
Hint Resolve Hget : stable.
Lemma stable_address c : stable (Position.address get c).
Proof. unfold Position.address. keep. Qed.
Hint Resolve stable_address : stable.
Lemma stable_base_get p : stable (Position.base_get get p).
Proof. unfold Position.base_get. keep. Qed.
Lemma stable_base_recalculate p : stable (Position.base_recalculate get p).
Proof. unfold Position.base_recalculate. keep. Qed.
Hint Resolve stable_base_get stable_base_recalculate : stable.
Lemma stable_recalculate_with p : stable (Position.recalculate_with get p).
Proof. unfold Position.recalculate_with. keep. Qed.
End recursion.
#[export] Hint Resolve stable_address stable_base_get stable_recalculate_with : stable.

Lemma stable_get_fuel fuel p : stable (Position.get_fuel fuel p).
Proof. revert p. induction fuel as [|fuel IH]; intros p; cbn [Position.get_fuel]; keep. Qed.
#[export] Hint Resolve stable_get_fuel : stable.
Lemma stable_getAddress c : stable (PositionManager.getAddress c).
Proof. apply stable_with_fuel. intros n. apply stable_address. auto with stable. Qed.
Lemma stable_findAuthority p : stable (Position.findAuthority p).
Proof.
  apply stable_with_fuel. intros n. revert p. induction n as [|n IH]; intros p; cbn [Position.findAuthority_fuel]; keep.
Qed.
#[export] Hint Resolve stable_getAddress stable_findAuthority : stable.
Lemma stable_updateAuthority p : stable (Position.updateAuthority p).
Proof. unfold Position.updateAuthority. keep. Qed.
#[export] Hint Resolve stable_updateAuthority : stable.

(** *** The mutator *)
Lemma stable_ancestors c body : (forall c, stable (body c)) -> stable (ChunkMutator.ancestors c body).
Proof.
  intros Hb. apply (stable_at_heap (fun h => ChunkMutator.ancestors_fuel (S (size (chunks h))) (Some c) body)).
  intros h. generalize (S (size (chunks h))) as n, (Some c) as o. intros n. induction n as [|n IH]; intros [d|];
    cbn [ChunkMutator.ancestors_fuel]; keep.
Qed.
Lemma stable_for_each l body : (forall c, stable (body c)) -> stable (ChunkMutator.for_each l body).
Proof. intros Hb. induction l as [|c l IH]; cbn [ChunkMutator.for_each]; keep. Qed.
#[export] Hint Resolve stable_for_each : stable.
Lemma stable_updateAuthorityHelper c : stable (ChunkMutator.updateAuthorityHelper c).
Proof.
  apply (stable_at_heap (fun h => ChunkMutator.updateAuthorityHelper_fuel (S (size (chunks h))) c)). intros h.
  generalize (S (size (chunks h))) as n. intros n. revert c. induction n as [|n IH]; intros c;
    cbn [ChunkMutator.updateAuthorityHelper_fuel]; keep.
Qed.
Lemma stable_max_generation n c g : stable (ChunkMutator.max_generation_fuel n c g).
Proof. revert c g. induction n as [|n IH]; intros [c|] g; cbn [ChunkMutator.max_generation_fuel]; keep. Qed.
Lemma stable_set_generations n c g : stable (ChunkMutator.set_generations_fuel n c g).
Proof. revert c g. induction n as [|n IH]; intros [c|] g; cbn [ChunkMutator.set_generations_fuel]; keep. Qed.
#[export] Hint Resolve stable_updateAuthorityHelper stable_max_generation stable_set_generations : stable.
Lemma stable_updateGenerationCounts c : stable (ChunkMutator.updateGenerationCounts c).
Proof. unfold ChunkMutator.updateGenerationCounts. keep. Qed.
Lemma stable_setNextSibling c n : stable (ChunkMutator.setNextSibling c n).
Proof. unfold ChunkMutator.setNextSibling. apply stable_bind; [by apply stable_modify|]. intros _. keep. Qed.
Lemma stable_setPreviousSibling c n : stable (ChunkMutator.setPreviousSibling c n).
Proof. unfold ChunkMutator.setPreviousSibling. apply stable_bind; [by apply stable_modify|]. intros _. keep. Qed.
Lemma stable_shrink c n : stable n -> stable (ChunkMutator.shrink c n).
Proof. intros Hn. apply stable_ancestors. intros d. unfold ChunkMutator.up_to_module. keep. Qed.
Lemma stable_getName c : stable (getName c).
Proof.
  apply (stable_at_heap (fun h => getName_fuel (S (size (chunks h))) c)). intros h. generalize (S (size (chunks h))) as n.
  intros n. revert c. induction n as [|n IH]; intros c; cbn [getName_fuel]; keep.
Qed.
#[export] Hint Resolve stable_getName : stable.
Lemma stable_touch l c : stable (touch l c).
Proof. unfold touch. keep. Qed.
#[export] Hint Resolve stable_updateGenerationCounts stable_setNextSibling stable_setPreviousSibling stable_touch : stable.

(** ** What a removal does to the lists *)
Definition shape (h : Heap) (c : ptr) : option (ChunkType * ChunkListImpl) :=
  (fun x => (ctype x, childList x)) <$> chunks h !! c.

Lemma bind_inv {A B} (m : M A) (f : A -> M B) h b h' : (m ≫= f) h = Ok (b, h') ->
  exists a h1, m h = Ok (a, h1) /\ f a h1 = Ok (b, h').
Proof. unfold mbind, M_bind. destruct (m h) as [[a h1]|]; [|done]. intros H. by exists a, h1. Qed.
Lemma chunk_at_inv c h x h' : chunk_at c h = Ok (x, h') -> chunks h !! c = Some x /\ h' = h.
Proof. unfold chunk_at. destruct (chunks h !! c); [|done]. by intros [= -> ->]. Qed.
Lemma children_at_inv c h l h' : children_at c h = Ok (l, h') ->
  h' = h /\ exists x, chunks h !! c = Some x /\ childList x = l /\ ChunkImpl.has_children (ctype x) = true.
Proof.
  intros (o&h1&(x&h2&[Hx ->]%chunk_at_inv&E)%bind_inv&E2)%bind_inv.
  injection E as <- <-. destruct (ChunkImpl.has_children (ctype x)) eqn:Hc; [|done].
  injection E2 as <- <-. split; [done|]. by exists x.
Qed.

Lemma update_children_inv c d op h h' : update_children c d op h = Ok (tt, h') ->
  exists x h1 l, chunks h !! c = Some x /\ same h h1 /\ op (heap_view (ctype x) h1) (childList x) = Ok l /\
    forall e, shape h' e = if decide (e = c) then Some (ctype x, l) else shape h e.
Proof.
  intros (x&h1&[Hx ->]%chunk_at_inv&(l&h2&[-> (x'&Hx'&<-&_)]%children_at_inv&
    (hh&h3&[= -> ->]&(u&h4&Ht&(h5&h6&[= -> ->]&(l'&h7&El&(y&h8&[Hy ->]%chunk_at_inv&E)%bind_inv)%bind_inv)%bind_inv)%bind_inv)%bind_inv)%bind_inv)%bind_inv.
  assert (x' = x) as -> by congruence.
  assert (Hs : same h3 h6).
  { destruct (v_cast d); [by eapply stable_touch|]. by injection Ht as _ <-. }
  unfold lift in El. destruct (op _ _) as [l0|] eqn:Eo; [|done]. injection El as <- <-. injection E as <-.
  exists x, h6, l0. split_and!; [done..|]. intros e. unfold shape. cbn [chunks]. pose proof (Hs c) as Hc. rewrite Hx, Hy in Hc.
  injection Hc as Hct Hcl. case_decide as He.
  - subst e. rewrite lookup_insert_eq. cbn. by rewrite Hct.
  - rewrite lookup_insert_ne by done. apply Hs.
Qed.

Lemma shape_Some h c t l : shape h c = Some (t, l) <-> exists x, chunks h !! c = Some x /\ ctype x = t /\ childList x = l.
Proof.
  unfold shape. destruct (chunks h !! c) as [x|]; cbn; split.
  - intros [= <- <-]. by exists x.
  - by intros (?&[= <-]&<-&<-).
  - done.
  - by intros (?&?&_).
Qed.

(** The list after a removal, and the other lists *)
Lemma remove_inv m d h h' : ChunkMutator.remove m d h = Ok (tt, h') ->
  exists t l0 l h1, shape h (chunk m) = Some (t, l0) /\ same h h1 /\
    ChunkList.genericRemove (heap_view t h1) l0 d = Ok l /\
    forall e, shape h' e = if decide (e = chunk m) then Some (t, l) else shape h e.
Proof.
  assert (Hk : forall q n, stable ((match q with Some q => ChunkMutator.setNextSibling q n | None => mret tt end) : M unit))
    by (intros; keep).
  assert (Hk2 : forall q n, stable ((match n with Some n => ChunkMutator.setPreviousSibling n q | None => mret tt end) : M unit))
    by (intros; keep).
  intros (q&h1&E1&(n&h2&E2&(u3&h3&E3&(u4&h4&E4&([]&h5&E5&(u6&h6&E6&E7)%bind_inv)%bind_inv)%bind_inv)%bind_inv)%bind_inv)%bind_inv.
  assert (H4 : same h h4).
  { eapply same_trans; [by eapply stable_getPreviousSibling|]. eapply same_trans; [by eapply stable_getNextSibling|].
    eapply same_trans; [by eapply Hk|by eapply Hk2]. }
  apply update_children_inv in E5 as (x&h7&l&Hx&H7&El&Hs).
  assert (H8 : same h5 h').
  { eapply same_trans; [eapply stable_shrink; [apply stable_getSize|exact E6]|by eapply stable_updateGenerationCounts]. }
  exists (ctype x), (childList x), l, h7. split_and!; [|by eapply same_trans|done|].
  - pose proof (H4 (chunk m)) as H. rewrite Hx in H. unfold shape. by rewrite <- H.
  - intros e. unfold shape. rewrite (H8 e). fold (shape h5 e). rewrite Hs. case_decide; [done|]. apply H4.
Qed.

(** ** The visit of a module

    The vector is shortened under the loop. *)
Definition listed (h : Heap) (fl : ptr) (l : ChunkListImpl) : Prop :=
  shape h fl = Some (TFunctionList, l) /\ size_ok (iterable l) /\
  forall f, f ∈ iterable l -> exists lf, shape h f = Some (TFunction, lf).

Lemma removed_listed m f l h h' : listed h (chunk m) l -> f ∈ iterable l -> ChunkMutator.remove m f h = Ok (tt, h') ->
  exists l' pre post, listed h' (chunk m) l' /\ iterable l = pre ++ f :: post /\ iterable l' = pre ++ post.
Proof.
  intros (Hfl&Hsz&Hf) Hin (t&l0&l1&h1&Hl0&Hs&Er&Hsh)%remove_inv. rewrite Hfl in Hl0. injection Hl0 as <- <-.
  destruct (Hf f Hin) as [lf Hlf].
  assert (Hc : v_cast (ChunkView := heap_view TFunctionList h1) f = true).
  { cbn. pose proof (Hs f) as H. fold (shape h f) in H. rewrite Hlf in H. destruct (chunks h1 !! f); [|done].
    by injection H as -> _. }
  unfold ChunkList.genericRemove in Er. rewrite Hc in Er. unfold ChunkList.remove in Er.
  destruct (ChunkList.on_spatial _ _) as [sp|]; [|done]. injection Er as <-.
  destruct (ChunkList.remove_spec (iterable l) f Hsz) as [[Hno _]|(pre&post&E&_&E')]; [by destruct (Hno Hin)|].
  eexists _, pre, post. split_and!; [split_and!; [by rewrite Hsh, decide_True| |]|exact E|exact E'].
  - cbn [iterable]. rewrite E'. unfold size_ok in *. rewrite E in Hsz. rewrite length_app in *. cbn in Hsz. lia.
  - cbn [iterable]. rewrite E'. intros f' Hf'. rewrite Hsh. case_decide as He.
    + subst f'. exfalso. destruct (Hf (chunk m)) as [? H]; [rewrite E; set_solver|]. congruence.
    + apply Hf. rewrite E. set_solver.
Qed.
Lemma children_at_listed h fl l : listed h fl l -> children_at fl h = Ok (l, h).
Proof.
  intros [(x&Hx&Ht&<-)%shape_Some _]. unfold children_at, ChunkImpl.getChildren, chunk_at, mbind, M_bind.
  rewrite Hx. cbn. by rewrite Ht.
Qed.

Lemma remove_loop_used used m n i l h : listed h (chunk m) l -> (n + i <= length (iterable l))%nat ->
  (forall f, f ∈ iterable l -> f ∈ used) -> remove_loop used m n i h = Ok (tt, h).
Proof.
  intros Hl Hn Hu. revert i Hn. induction n as [|n IH]; intros i Hn; [done|]. cbn [remove_loop].
  unfold mbind, M_bind at 1. rewrite (children_at_listed _ _ _ Hl).
  destruct (lookup_lt_is_Some_2 (iterable l) i) as [f Hf]; [lia|]. rewrite Hf.
  rewrite bool_decide_eq_true_2 by (by eapply Hu, list_elem_of_lookup_2). apply (IH (S i)). lia.
Qed.

(** The loop does not come back once the list is shorter than what is left of it. *)
Lemma remove_loop_past_end used m n i l h h' : listed h (chunk m) l -> (length (iterable l) < n + i)%nat ->
  remove_loop used m n i h = Ok (tt, h') -> n = 0%nat.
Proof.
  revert i l h. induction n as [|n IH]; intros i l h Hl Hlen E; [done|]. exfalso.
  apply bind_inv in E as (l0&h0&E0&E). rewrite (children_at_listed _ _ _ Hl) in E0. injection E0 as <- <-.
  destruct (iterable l !! i) as [f0|] eqn:Hf0; [|done]. apply bind_inv in E as ([]&h1&E1&E2).
  pose proof Hf0 as Hi%lookup_lt_Some. case_bool_decide.
  - injection E1 as <-. specialize (IH (S i) l h Hl ltac:(lia) E2). lia.
  - destruct (removed_listed m f0 l h h1 Hl (list_elem_of_lookup_2 _ _ _ Hf0) E1) as (l'&pre&post&Hl'&El&El').
    assert (S (length (iterable l')) = length (iterable l)) by (rewrite El, El', !length_app; cbn; lia).
    specialize (IH (S i) l' h1 Hl' ltac:(lia) E2). lia.
Qed.
Lemma remove_loop_inv used m n i l h h' : listed h (chunk m) l -> (length (iterable l) <= n + i)%nat ->
  remove_loop used m n i h = Ok (tt, h') ->
  forall j f, (i <= j)%nat -> iterable l !! j = Some f -> f ∉ used -> (S j = n + i)%nat.
Proof.
  revert i l h. induction n as [|n IH]; intros i l h Hl Hlen E j f Hj Hf Hu.
  { apply lookup_lt_Some in Hf. lia. }
  apply bind_inv in E as (l0&h0&E0&E). rewrite (children_at_listed _ _ _ Hl) in E0. injection E0 as <- <-.
  destruct (iterable l !! i) as [f0|] eqn:Hf0; [|done]. apply bind_inv in E as ([]&h1&E1&E2).
  case_bool_decide as Hu0.
  - injection E1 as <-. assert (i <> j) by congruence. rewrite (IH (S i) l h Hl ltac:(lia) E2 j f ltac:(lia) Hf Hu). lia.
  - destruct (removed_listed m f0 l h h1 Hl (list_elem_of_lookup_2 _ _ _ Hf0) E1) as (l'&pre&post&Hl'&El&El').
    assert (Hlen' : S (length (iterable l')) = length (iterable l)) by (rewrite El, El', !length_app; cbn; lia).
    apply lookup_lt_Some in Hf. destruct n as [|n]; [lia|]. exfalso.
    discriminate (remove_loop_past_end used m (S n) (S i) l' h1 h' Hl' ltac:(lia) E2).
Qed.

(** ** What is used *)

(** The entries of the dynamic section that count *)
Fixpoint before_null (dyn : list (Z * Z)) : list (Z * Z) :=
  match dyn with [] => [] | e :: dyn => if e.1 =? 0 then [] else e :: before_null dyn end.
(** The last value with a tag, 0 if there is none *)
Definition tag_value (dyn : list (Z * Z)) (tag : Z) : Z :=
  default 0 (snd <$> last (filter (fun e => e.1 = tag) (before_null dyn))).
(** The arrays of pointers: start and size *)
Definition arrays (dyn : list (Z * Z)) : list (Z * Z) :=
  [(tag_value dyn DT_INIT_ARRAY, tag_value dyn DT_INIT_ARRAYSZ); (tag_value dyn DT_FINI_ARRAY, tag_value dyn DT_FINI_ARRAYSZ)].

(** The links of variables that may hold the address of a function *)
Inductive stored (arch_aarch64 : bool) (m : ModuleView) (k : option LinkTarget) : Prop :=
| stored_variable region s : region ∈ regions m -> s ∈ region -> s_name s <> ".got.plt"%string -> k ∈ variables s ->
    stored arch_aarch64 m k
| stored_literal F b i : arch_aarch64 = true -> F ∈ functions m -> b ∈ blocks F -> i ∈ b -> is_literal i = true -> i_link i = k ->
    stored arch_aarch64 m k.

(** Where the program can start or go without a direct call *)
Inductive init_lookup (m : ModuleView) (dyn : list (Z * Z)) (o : res (option ptr)) : Prop :=
| lookup_function tag v : (tag, v) ∈ before_null dyn -> tag = DT_INIT \/ tag = DT_FINI -> o = findContaining m v -> init_lookup m dyn o
| lookup_array start size l k : (start, size) ∈ arrays dyn -> start <> 0 -> relocList m = Some l -> 0 <= k -> 8 * k < size ->
    o = relocated m (l !! add64 start (8 * k)) -> init_lookup m dyn o.
Inductive root (arch_aarch64 use_gs : bool) (p : ProgramView) (r : ptr) : Prop :=
| root_dynamic m dyn : m ∈ modules p -> dynamic m = Some dyn -> init_lookup m dyn (Ok (Some r)) -> root arch_aarch64 use_gs p r
| root_entry : entryPoint p = Some r -> root arch_aarch64 use_gs p r
| root_stored m : m ∈ modules p -> stored arch_aarch64 m (Some (ToFunction r)) -> root arch_aarch64 use_gs p r
| root_linked i : i ∈ code p -> i_link i = Some (ToFunction r) \/ i_link i = Some (ToInstruction (Some r)) \/
    (exists t, i_link i = Some (ToPLT (Some t)) /\ t_function t = true /\ t_chunk t = r) -> root arch_aarch64 use_gs p r
| root_named F n : F ∈ all_functions p -> function F = r -> hasName F n = true ->
    n ∈ special_names \/ (use_gs = true /\ n ∈ gs_names) -> root arch_aarch64 use_gs p r.

(** Programs whose links are complete: the functions are distinct, the targets of calls and the roots
    are functions of the program, and no lookup of the constructor fails. *)
Record program_ok (arch_aarch64 use_gs : bool) (p : ProgramView) : Prop := {
  ok_distinct : NoDup (map function (all_functions p));
  ok_calls : forall f t, calls p f t -> t ∈ map function (all_functions p);
  ok_roots : forall r, root arch_aarch64 use_gs p r -> r ∈ map function (all_functions p);
  ok_entry : is_Some (entryPoint p);
  ok_stored : forall m k, m ∈ modules p -> stored arch_aarch64 m k -> is_Some k;
  ok_linked : forall i, i ∈ code p -> i_link i <> Some (ToInstruction None);
  ok_sizes : forall m dyn start size, m ∈ modules p -> dynamic m = Some dyn -> (start, size) ∈ arrays dyn -> 0 <= size < 2 ^ 63;
  ok_dynamic : forall m dyn o, m ∈ modules p -> dynamic m = Some dyn -> init_lookup m dyn o -> exists r, o = Ok (Some r) }.

(** The fields that the loop over the dynamic section sets *)
Lemma set_arrays es : foldl (fun a e => set_array a e.1 e.2) (mkArrays 0 0 0 0) es =
  let value tag := default 0 (snd <$> last (filter (fun e => e.1 = tag) es)) in
  mkArrays (value DT_INIT_ARRAY) (value DT_FINI_ARRAY) (value DT_INIT_ARRAYSZ) (value DT_FINI_ARRAYSZ).
Proof.
  induction es as [|[tag v] es IH] using rev_ind; [done|]. rewrite foldl_snoc, IH. cbn [fst snd].
  assert (Hf : forall t, default 0 (snd <$> last (filter (fun e => e.1 = t) (es ++ [(tag, v)]))) =
    if decide (tag = t) then v else default 0 (snd <$> last (filter (fun e : Z * Z => e.1 = t) es))).
  { intros t. rewrite filter_app, filter_cons, filter_nil. cbn [fst]. case_decide; [by rewrite last_snoc|by rewrite app_nil_r]. }
  cbn zeta. rewrite !Hf. unfold set_array.
  destruct (Z.eqb_spec tag DT_INIT_ARRAY) as [->|]; [done|]. destruct (Z.eqb_spec tag DT_FINI_ARRAY) as [->|]; [done|].
  destruct (Z.eqb_spec tag DT_INIT_ARRAYSZ) as [->|]; [done|]. destruct (Z.eqb_spec tag DT_FINI_ARRAYSZ) as [->|]; [done|].
  by rewrite !decide_False by done.
Qed.

Section marking.
Context (p : ProgramView) (g : CallGraph) (Hg : graph_of p g).
Hypothesis Hdistinct : NoDup (map function (all_functions p)).
Hypothesis Hcount : (0 < getCount g)%nat.
Local Instance marking_laws : GraphLaws g := g_laws p g Hg.
Implicit Types (used : gset ptr).

Definition reached (r f : ptr) : Prop :=
  exists n, rtc (edge g 1) (getIDFor g r) n /\ map function (all_functions p) !! n = Some f.
Definition closed used : Prop := forall f, f ∈ used -> f ∈ map function (all_functions p) /\ forall t, reached f t -> t ∈ used.
(** [used'] is [used] and what is reached from the roots [R]. *)
Definition marks used used' (R : ptr -> Prop) : Prop :=
  closed used' /\ forall f, f ∈ used' <-> f ∈ used \/ exists r, R r /\ reached r f.

Lemma getNode_spec f : exists n, getNode g f = Ok n /\ id n = getIDFor g f.
Proof.
  destruct (lookup_lt_is_Some_2 (nodeList g) (getIDFor g f)) as [n Hn]; [by apply (g_id_lt p g Hg)|].
  exists n. unfold getNode. rewrite (vec_at_Some _ _ _ Hn). split; [done|]. by apply (g_node p g Hg).
Qed.
Lemma insert_nodes_spec order used : Forall (fun i => i < getCount g)%nat order ->
  exists used', insert_nodes g order used = Ok used' /\
    forall f, f ∈ used' <-> f ∈ used \/ exists i, i ∈ order /\ map function (all_functions p) !! i = Some f.
Proof.
  intros H. revert used. induction H as [|i order Hi _ IH]; intros used.
  { exists used. split; [done|]. intros f. set_solver. }
  destruct (lookup_lt_is_Some_2 (nodeList g) i Hi) as [n Hn]. destruct (g_node p g Hg i n Hn) as [_ Hf].
  cbn [insert_nodes]. rewrite (vec_at_Some _ _ _ Hn). cbn [mbind res_bind].
  destruct (IH ({[getFunction n]} ∪ used)) as (used'&E&Hu). exists used'. split; [done|]. intros f. rewrite Hu.
  rewrite elem_of_union, elem_of_singleton. setoid_rewrite elem_of_cons. split.
  - intros [[->|?]|(j&?&?)]; [right; exists i; auto|by left|right; exists j; auto].
  - intros [?|(j&[->|?]&Hj)]; [auto| |right; exists j; auto]. left; left. congruence.
Qed.
Lemma reached_function r f : reached r f -> f ∈ map function (all_functions p).
Proof. intros (n&_&Hn). by eapply list_elem_of_lookup_2. Qed.
Lemma reached_trans r f t : reached r f -> reached f t -> reached r t.
Proof.
  intros (n&Hn&Hf) (k&Hk&Ht). exists k. split; [|done]. rewrite (g_id p g Hg n f Hf) in Hk. by etrans.
Qed.

Lemma mark_spec used r : closed used -> exists used', markTreeAsUsed g used r = Ok used' /\ marks used used' (eq r).
Proof.
  intros Hcl. unfold markTreeAsUsed. case_bool_decide as Hr.
  - exists used. split; [done|]. split; [done|]. intros f. split; [by left|]. intros [?|(?&<-&Hf)]; [done|].
    by eapply (proj2 (Hcl r Hr)).
  - destruct (getNode_spec r) as (n&E&Hid). rewrite E. cbn [mbind res_bind].
    destruct (preorder_reaches g (id n)) as (o&Eo&Ho); [rewrite Hid; by apply (g_id_lt p g Hg)|].
    rewrite Eo. cbn [mbind res_bind first_order].
    destruct (insert_nodes_spec o used) as (used'&E'&Hu).
    { apply Forall_forall. intros x Hx%Ho. rewrite Hid in Hx. clear -Hx Hg Hcount.
      apply rtc_inv_r in Hx as [<-|(y&_&Hy)]; [by apply (g_id_lt p g Hg)|].
      apply (g_edge p g Hg) in Hy as (_&f&t&_&_&<-). by apply (g_id_lt p g Hg). }
    exists used'. split; [done|]. assert (Hin : forall f, f ∈ used' <-> f ∈ used \/ reached r f).
    { intros f. rewrite Hu. unfold reached. rewrite <- Hid. setoid_rewrite Ho. done. }
    split.
    + intros f [Hf|Hf]%Hin.
      * destruct (Hcl f Hf) as [H1 H2]. split; [done|]. intros t Ht. apply Hin. left. by apply H2.
      * split; [by eapply reached_function|]. intros t Ht. apply Hin. right. by eapply reached_trans.
    + intros f. rewrite Hin. naive_solver.
Qed.

(** *** Composition *)
Lemma marks_none used (R : ptr -> Prop) : closed used -> (forall r, ~ R r) -> marks used used R.
Proof. intros Hc Hn. split; [done|]. intros f. split; [by left|]. intros [?|(r&Hr&_)]; [done|]. by apply Hn in Hr. Qed.
Lemma marks_trans u1 u2 u3 R1 R2 (R : ptr -> Prop) : marks u1 u2 R1 -> marks u2 u3 R2 -> (forall r, R r <-> R1 r \/ R2 r) -> marks u1 u3 R.
Proof.
  intros [_ H1] [Hc H2] HR. split; [done|]. intros f. rewrite H2, H1. setoid_rewrite HR. naive_solver.
Qed.
Lemma marks_iff u u' R R' : marks u u' R -> (forall r, R r <-> R' r) -> marks u u' R'.
Proof. intros [Hc H] HR. split; [done|]. intros f. rewrite H. by setoid_rewrite HR. Qed.

(** A step that marks: it returns from a closed set, and then has marked [R]. *)
Definition marking (m : gset ptr -> res (gset ptr)) (R : ptr -> Prop) : Prop :=
  forall used, closed used -> exists used', m used = Ok used' /\ marks used used' R.
Lemma marking_one r : marking (fun used => markTreeAsUsed g used r) (eq r).
Proof. intros used Hc. by apply mark_spec. Qed.
Lemma marking_skip (R : ptr -> Prop) : (forall r, ~ R r) -> marking (fun used => Ok used) R.
Proof. intros HR used Hc. exists used. split; [done|]. by apply marks_none. Qed.
Lemma marking_iff m R R' : marking m R -> (forall r, R r <-> R' r) -> marking m R'.
Proof. intros Hm HR used Hc. destruct (Hm used Hc) as (u&?&?). exists u. split; [done|]. by eapply marks_iff. Qed.
Lemma marking_then m1 m2 R1 R2 : marking m1 R1 -> marking m2 R2 -> marking (fun used => u ← m1 used; m2 u) (fun r => R1 r \/ R2 r).
Proof.
  intros H1 H2 used Hc. destruct (H1 used Hc) as (u1&E1&M1). rewrite E1. cbn [mbind res_bind].
  destruct (H2 u1 (proj1 M1)) as (u2&E2&M2). exists u2. split; [done|]. by eapply marks_trans.
Qed.
Lemma marking_list {A} (f : A -> gset ptr -> res (gset ptr)) (loop : list A -> gset ptr -> res (gset ptr)) (R : A -> ptr -> Prop) l :
  (forall u, loop [] u = Ok u) -> (forall a l u, loop (a :: l) u = (u ← f a u; loop l u)) ->
  (forall a, a ∈ l -> marking (f a) (R a)) -> marking (loop l) (fun r => exists a, a ∈ l /\ R a r).
Proof.
  intros H0 H1 Hf. induction l as [|a l IH].
  - intros used Hc. rewrite H0. exists used. split; [done|]. apply marks_none; [done|]. by intros r (a&?%elem_of_nil&_).
  - intros used Hc. rewrite H1.
    destruct (marking_then (f a) (loop l) (R a) (fun r => exists a, a ∈ l /\ R a r)) with (used := used) as (u&E&M);
      [apply Hf; left|apply IH; intros b Hb; apply Hf; by right|done|].
    exists u. split; [done|]. eapply marks_iff; [exact M|]. intros r. setoid_rewrite elem_of_cons. naive_solver.
Qed.

(** *** The dynamic section *)
Lemma pointer_loop_marking m l start size fuel j : 0 <= j -> (0 < fuel)%nat -> size < 2 ^ 63 -> size <= 8 * (j + Z.of_nat fuel - 1) ->
  (forall k, 0 <= k -> 8 * k < size -> exists r, relocated m (l !! add64 start (8 * k)) = Ok (Some r)) ->
  marking (pointer_loop fuel g m l start size (8 * j))
    (fun r => exists k, j <= k /\ 8 * k < size /\ relocated m (l !! add64 start (8 * k)) = Ok (Some r)).
Proof.
  intros Hj Hpos Hs Hfuel Hok. revert j Hj Hpos Hfuel. induction fuel as [|fuel IH]; intros j Hj Hpos Hfuel used Hc; [lia|].
  cbn [pointer_loop]. destruct (Z.ltb_spec (8 * j) size) as [Hlt|Hge].
  - destruct (Hok j Hj Hlt) as [r Hr]. rewrite Hr. cbn [mbind res_bind mark_found].
    replace (add64 (8 * j) 8) with (8 * (j + 1)) by (unfold add64, wrap; rewrite Z.mod_small; lia).
    destruct (marking_then _ _ _ _ (marking_one r) (IH (j + 1) ltac:(lia) ltac:(lia) ltac:(lia)) used Hc) as (u&E&M).
    exists u. split; [done|]. eapply marks_iff; [exact M|]. intros x. split.
    + intros [<-|(k&?&?&?)]; [exists j; split_and!; [lia|done|done]|exists k; split_and!; [lia|done|done]].
    + intros (k&Hk&?&Hx). destruct (decide (k = j)) as [->|]; [left; congruence|right]. exists k. split_and!; [lia|done|done].
  - exists used. split; [done|]. apply marks_none; [done|]. intros r (k&?&?&_). lia.
Qed.

(** What the array [start], [size] of a module starts *)
Definition array_root (m : ModuleView) (start size : Z) (o : res (option ptr)) : Prop :=
  start <> 0 /\ exists l k, relocList m = Some l /\ 0 <= k /\ 8 * k < size /\ o = relocated m (l !! add64 start (8 * k)).
Lemma useFromPointerArray_marking m start size : 0 <= size < 2 ^ 63 ->
  (forall o, array_root m start size o -> exists r, o = Ok (Some r)) ->
  marking (useFromPointerArray g start size m) (fun r => array_root m start size (Ok (Some r))).
Proof.
  intros Hs Hok. unfold useFromPointerArray. destruct ((start =? 0) || (size =? 0)) eqn:E0.
  { apply marking_skip. intros r (Hn&l&k&_&?&?&_). apply orb_true_iff in E0 as [E0%Z.eqb_eq|E0%Z.eqb_eq]; [done|lia]. }
  apply orb_false_iff in E0 as [Hn%Z.eqb_neq _]. destruct (relocList m) as [l|] eqn:El.
  - eapply marking_iff.
    + apply (pointer_loop_marking m l start size _ 0); [lia|lia|lia| |].
      * pose proof (Z.div_mod size 8 ltac:(lia)). pose proof (Z.mod_pos_bound size 8 ltac:(lia)).
        pose proof (Z.div_pos size 8 ltac:(lia) ltac:(lia)). lia.
      * intros k Hk Hk2. apply Hok. split; [done|]. by exists l, k.
    + intros r. split.
      * intros (k&?&?&<-). split; [done|]. by exists l, k.
      * intros (_&l'&k&El'&?&?&E). assert (l' = l) as -> by congruence. exists k. by split_and!.
  - apply marking_skip. intros r (_&l&k&?&_). congruence.
Qed.

Lemma dynamic_loop_marks m dyn a used : closed used ->
  (forall tag v, (tag, v) ∈ before_null dyn -> tag = DT_INIT \/ tag = DT_FINI -> exists r, findContaining m v = Ok (Some r)) ->
  exists used', dynamic_loop g m dyn a used = Ok (foldl (fun a e => set_array a e.1 e.2) a (before_null dyn), used') /\
    marks used used' (fun r => exists tag v, (tag, v) ∈ before_null dyn /\ (tag = DT_INIT \/ tag = DT_FINI) /\
      findContaining m v = Ok (Some r)).
Proof.
  revert a used. induction dyn as [|[tag v] dyn IH]; intros a used Hc Hok; cbn [dynamic_loop before_null fst] in *.
  { exists used. split; [done|]. apply marks_none; [done|]. intros r (?&?&?%elem_of_nil&_). done. }
  destruct (Z.eqb_spec tag 0) as [->|Ht].
  { exists used. split; [done|]. apply marks_none; [done|]. intros r (?&?&?%elem_of_nil&_). done. }
  assert (Hstep : marking (fun used => if (tag =? DT_INIT) || (tag =? DT_FINI) then f ← findContaining m v; mark_found g used f else Ok used)
    (fun r => (tag = DT_INIT \/ tag = DT_FINI) /\ findContaining m v = Ok (Some r))).
  { destruct ((tag =? DT_INIT) || (tag =? DT_FINI)) eqn:E.
    - assert (Htag : tag = DT_INIT \/ tag = DT_FINI) by (apply orb_true_iff in E as [E%Z.eqb_eq|E%Z.eqb_eq]; auto).
      destruct (Hok tag v ltac:(left) Htag) as [r Hr]. rewrite Hr. eapply marking_iff; [apply (marking_one r)|].
      intros x. split; [intros <-; auto|]. intros [_ [=]]. done.
    - apply orb_false_iff in E as [E1%Z.eqb_neq E2%Z.eqb_neq]. apply marking_skip. intros r [[?|?] _]; done. }
  destruct (Hstep used Hc) as (u1&E1&M1). rewrite E1. cbn [mbind res_bind].
  destruct (IH (set_array a tag v) u1 (proj1 M1)) as (u2&E2&M2); [intros t w Hin; apply Hok; by right|].
  exists u2. split; [exact E2|]. eapply marks_trans; [exact M1|exact M2|]. intros r. setoid_rewrite elem_of_cons. split.
  - intros (t&w&[[= -> ->]|Hin]&Ht'&Hf); [by left|right; by exists t, w].
  - intros [[Ht' Hf]|(t&w&Hin&Ht'&Hf)]; [exists tag, v; auto|exists t, w; auto].
Qed.

Lemma use_dynamic_marking m : (forall dyn start size, dynamic m = Some dyn -> (start, size) ∈ arrays dyn -> 0 <= size < 2 ^ 63) ->
  (forall dyn o, dynamic m = Some dyn -> init_lookup m dyn o -> exists r, o = Ok (Some r)) ->
  marking (use_dynamic g m) (fun r => exists dyn, dynamic m = Some dyn /\ init_lookup m dyn (Ok (Some r))).
Proof.
  intros Hs Hok used Hc. unfold use_dynamic. destruct (dynamic m) as [dyn|] eqn:Ed.
  2: { exists used. split; [done|]. apply marks_none; [done|]. by intros r (?&?&_). }
  assert (Ha : forall start size, (start, size) ∈ arrays dyn -> marking (useFromPointerArray g start size m) (fun r => array_root m start size (Ok (Some r)))).
  { intros start size Hin. apply useFromPointerArray_marking; [by eapply Hs|]. intros o (Hn&l&k&?&?&?&?).
    eapply Hok; [done|]. by eapply lookup_array. }
  destruct (dynamic_loop_marks m dyn (mkArrays 0 0 0 0) used Hc) as (u1&E1&M1).
  { intros tag v Hin Ht. eapply Hok; [done|]. by eapply lookup_function. }
  rewrite E1, set_arrays. cbn [mbind res_bind initArray initArraySz finiArray finiArraySz].
  destruct (marking_then _ _ _ _ (Ha _ _ ltac:(left)) (Ha _ _ ltac:(right; left)) u1 (proj1 M1)) as (u2&E2&M2).
  exists u2. split; [exact E2|]. eapply marks_trans; [exact M1|exact M2|]. intros r. split.
  - intros (dyn'&[= <-]&Hl). destruct Hl as [tag v Hin Ht Hf|start size l k Hin Hn Hl Hk Hk2 Ho].
    + left. by exists tag, v.
    + right. unfold arrays in Hin. apply elem_of_cons in Hin as [[= -> ->]|Hin%list_elem_of_singleton]; [left|right; injection Hin as -> ->];
        (split; [done|by exists l, k]).
  - intros H. exists dyn. split; [done|]. destruct H as [(tag&v&Hin&Ht&Hf)|[(Hn&l&k&?&?&?&?)|(Hn&l&k&?&?&?&?)]].
    + by eapply lookup_function.
    + eapply lookup_array; [left|done..].
    + eapply lookup_array; [right; left|done..].
Qed.

(** *** The other roots *)
Lemma mark_all_marking roots : marking (fun used => mark_all g used roots) (fun r => r ∈ roots).
Proof.
  eapply marking_iff; [apply (marking_list (fun r used => markTreeAsUsed g used r) (fun l used => mark_all g used l) eq)|]; try done.
  - intros r _. apply marking_one.
  - intros r. split; [by intros (a&?&->)|]. intros Hr. by exists r.
Qed.

Lemma targets_spec links : (forall k, k ∈ links -> is_Some k) ->
  exists l, IndirectCalleeList.targets links = Ok l /\ forall r, r ∈ l <-> Some (ToFunction r) ∈ links.
Proof.
  induction links as [|k links IH]; intros Hk; [exists []; split; [done|]; intros r; by rewrite !elem_of_nil|].
  destruct (Hk k ltac:(left)) as [t ->]. destruct IH as (l&E&Hl); [intros k Hin; apply Hk; by right|].
  cbn [IndirectCalleeList.targets]. destruct t as [f| | |]; cbn [IndirectCalleeList.target_of mbind res_bind]; rewrite E;
    eexists; (split; [reflexivity|]); intros r; cbn [app]; rewrite ?elem_of_cons, Hl; [|naive_solver..].
  split; [intros [->|?]; auto|intros [[= ->]|?]; auto].
Qed.
Lemma elem_of_concat {A} (ll : list (list A)) x : x ∈ concat ll <-> exists l, l ∈ ll /\ x ∈ l.
Proof.
  rewrite list_elem_of_In, in_concat. split; intros (l&H1&H2); exists l; by rewrite !list_elem_of_In in *.
Qed.
Lemma stored_links arch m k : stored arch m k <->
  k ∈ concat (map IndirectCalleeList.section_links (concat (regions m))) ++ IndirectCalleeList.literal_links arch m.
Proof.
  rewrite elem_of_app, elem_of_concat. split.
  - intros [region s Hr Hs Hn Hk|F b i -> HF Hb Hi Hl Hk].
    + left. exists (variables s). split; [|done]. apply list_elem_of_fmap. exists s. split.
      * unfold IndirectCalleeList.section_links. by rewrite bool_decide_eq_false_2.
      * apply elem_of_concat. by exists region.
    + right. unfold IndirectCalleeList.literal_links. apply list_elem_of_fmap. exists i. split; [done|].
      apply list_elem_of_In, filter_In. split; [|done]. apply list_elem_of_In, elem_of_concat. exists b. split; [|done].
      apply elem_of_concat. exists (blocks F). split; [|done]. apply list_elem_of_fmap. by exists F.
  - intros [(l&(s&->&(region&Hr&Hs)%elem_of_concat)%list_elem_of_fmap&Hk)|Hk].
    + unfold IndirectCalleeList.section_links in Hk. case_bool_decide as Hn; [by apply elem_of_nil in Hk|].
      by eapply stored_variable.
    + unfold IndirectCalleeList.literal_links in Hk. destruct arch; [|by apply elem_of_nil in Hk].
      apply list_elem_of_fmap in Hk as (i&->&Hi). apply list_elem_of_In, filter_In in Hi as [Hi Hl].
      apply list_elem_of_In, elem_of_concat in Hi as (b&(bs&(F&->&HF)%list_elem_of_fmap&Hb)%elem_of_concat&Hi).
      by eapply stored_literal.
Qed.
Lemma make_lists_spec arch ms : (forall m k, m ∈ ms -> stored arch m k -> is_Some k) ->
  exists l, IndirectCalleeList.make_lists arch ms = Ok l /\
    forall r, r ∈ l <-> exists m, m ∈ ms /\ stored arch m (Some (ToFunction r)).
Proof.
  induction ms as [|m ms IH]; intros Hk.
  { exists []. split; [done|]. intros r. split; [by intros ?%elem_of_nil|]. by intros (m&?%elem_of_nil&_). }
  destruct (targets_spec (concat (map IndirectCalleeList.section_links (concat (regions m))) ++ IndirectCalleeList.literal_links arch m))
    as (l&E&Hl); [intros k Hin; apply (Hk m); [left|by apply stored_links]|].
  destruct IH as (l'&E'&Hl'); [intros m' k Hin; apply Hk; by right|].
  cbn [IndirectCalleeList.make_lists]. unfold IndirectCalleeList.makeList. rewrite E. cbn [mbind res_bind]. rewrite E'.
  exists (l ++ l'). split; [done|]. intros r. rewrite elem_of_app, Hl, Hl', <- stored_links. setoid_rewrite elem_of_cons. naive_solver.
Qed.
Lemma useFromIndirectCallee_marking arch : (forall m k, m ∈ modules p -> stored arch m k -> is_Some k) ->
  marking (useFromIndirectCallee g arch p) (fun r => exists m, m ∈ modules p /\ stored arch m (Some (ToFunction r))).
Proof.
  intros Hk. destruct (make_lists_spec arch (modules p) Hk) as (l&E&Hl). unfold useFromIndirectCallee, IndirectCalleeList.new.
  rewrite E. cbn [mbind res_bind]. eapply marking_iff; [apply mark_all_marking|]. intros r.
  cbn beta. by rewrite <- Hl, merge_sort_Permutation, elem_of_elements, elem_of_list_to_set.
Qed.

Lemma useFromCodeLinks_marking : (forall i, i ∈ code p -> i_link i <> Some (ToInstruction None)) ->
  marking (useFromCodeLinks g p) (fun r => exists i, i ∈ code p /\ (i_link i = Some (ToFunction r) \/
    i_link i = Some (ToInstruction (Some r)) \/ exists t, i_link i = Some (ToPLT (Some t)) /\ t_function t = true /\ t_chunk t = r)).
Proof.
  intros Hi. apply (marking_list (use_link g) (use_links g)); [done..|]. intros i Hin. specialize (Hi i Hin). unfold use_link.
  destruct (i_link i) as [[f|[f|]|[t|]|]|]; try done.
  - eapply marking_iff; [apply (marking_one f)|]. naive_solver.
  - eapply marking_iff; [apply (marking_one f)|]. naive_solver.
  - destruct (t_function t) eqn:Et.
    + eapply marking_iff; [apply (marking_one (t_chunk t))|]. naive_solver.
    + apply marking_skip. intros r [?|[?|(t'&?&?&?)]]; congruence.
  - apply marking_skip. intros r [?|[?|(t'&?&?&?)]]; congruence.
  - apply marking_skip. intros r [?|[?|(t'&?&?&?)]]; congruence.
  - apply marking_skip. intros r [?|[?|(t'&?&?&?)]]; congruence.
Qed.
Lemma existsb_names F l : existsb (hasName F) l = true <-> exists n, hasName F n = true /\ n ∈ l.
Proof. rewrite existsb_exists. setoid_rewrite list_elem_of_In. naive_solver. Qed.
Lemma useFromSpecialName_marking use_gs : marking (useFromSpecialName g use_gs (all_functions p))
  (fun r => exists F, F ∈ all_functions p /\ function F = r /\
     exists n, hasName F n = true /\ (n ∈ special_names \/ use_gs = true /\ n ∈ gs_names)).
Proof.
  eapply marking_iff; [apply (marking_list (use_name g use_gs) (useFromSpecialName g use_gs)
    (fun F r => function F = r /\ exists n, hasName F n = true /\ (n ∈ special_names \/ use_gs = true /\ n ∈ gs_names)))|]; try done.
  intros F _. unfold use_name.
  assert (Hb : forall b, marking (fun used => if b : bool then markTreeAsUsed g used (function F) else Ok used) (fun r => b = true /\ function F = r)).
  { intros []; [eapply marking_iff; [apply (marking_one (function F))|]; naive_solver|apply marking_skip; by intros r [? _]]. }
  eapply marking_iff; [apply (marking_then _ _ _ _ (Hb _) (Hb _))|]. intros r. cbn beta. rewrite andb_true_iff, !existsb_names. naive_solver.
Qed.

(** *** Reachability by calls *)
Lemma id_function f : f ∈ map function (all_functions p) -> map function (all_functions p) !! getIDFor g f = Some f.
Proof. intros [i Hi]%list_elem_of_lookup. by rewrite (g_id p g Hg i f Hi). Qed.
Lemma caller_function f t : calls p f t -> f ∈ map function (all_functions p).
Proof. intros (F&HF&<-&_). apply list_elem_of_fmap. by exists F. Qed.
Lemma reached_calls r f : (forall f t, calls p f t -> t ∈ map function (all_functions p)) ->
  r ∈ map function (all_functions p) -> reached r f <-> rtc (calls p) r f.
Proof.
  intros Hcalls Hr. split.
  - intros (n&Hn&Hf). revert n Hn f Hf. refine (rtc_ind_r _ _ _ _); [intros f Hf|intros y n _ He IH f Hf].
    + rewrite id_function in Hf by done. by injection Hf as <-.
    + apply (g_edge p g Hg) in He as (_&f0&t&Hc&<-&<-). rewrite id_function in Hf by (by eapply Hcalls). injection Hf as <-.
      eapply rtc_r; [apply IH, id_function; by eapply caller_function|done].
  - revert f. refine (rtc_ind_r _ _ _ _); [|intros f t _ Hc IH].
    + exists (getIDFor g r). split; [done|]. by apply id_function.
    + destruct IH as (n&Hn&Hf). exists (getIDFor g t). split; [|apply id_function; by eapply Hcalls].
      eapply rtc_r; [exact Hn|]. apply (g_edge p g Hg). rewrite <- (g_id p g Hg n f Hf). split; [by apply (g_id_lt p g Hg)|].
      by exists f, t.
Qed.
End marking.

(** C18: the constructor of the pass returns for every program whose links are complete, with the
    set of the functions that direct calls reach from the roots: the initialization and
    finalization functions and arrays of the modules, the entry point, the functions whose
    address a variable holds, the targets of links in code, and the special names. *)
Theorem debloat_used arch_aarch64 use_gs p : program_ok arch_aarch64 use_gs p ->
  exists g used, DebloatPass.new arch_aarch64 use_gs p = Ok (g, used) /\
    forall f, f ∈ used <-> exists r, root arch_aarch64 use_gs p r /\ rtc (calls p) r f.
Proof.
  intros Hok. destruct (construct_graph p (ok_distinct _ _ _ Hok)) as (g&Eg&Hg).
  destruct (ok_entry _ _ _ Hok) as [e He]. pose proof (ok_distinct _ _ _ Hok) as Hdistinct.
  assert (Hcount : (0 < getCount g)%nat).
  { rewrite (g_count p g Hg). pose proof (ok_roots _ _ _ Hok e (root_entry _ _ _ _ He)) as Hin.
    destruct (all_functions p); [by apply elem_of_nil in Hin|cbn; lia]. }
  assert (Hall : marking p g (fun used => used ← useFromDynamicInitFini g (modules p) used; used ← useFromEntry g p used;
      used ← useFromIndirectCallee g arch_aarch64 p used; used ← useFromCodeLinks g p used;
      useFromSpecialName g use_gs (all_functions p) used) (root arch_aarch64 use_gs p)).
  { eapply marking_iff; [repeat apply marking_then|].
    - apply (marking_list p g (use_dynamic g) (useFromDynamicInitFini g)
        (fun m r => exists dyn, dynamic m = Some dyn /\ init_lookup m dyn (Ok (Some r)))); [done..|].
      intros m Hm. apply use_dynamic_marking; try done.
      + intros dyn start size. by eapply (ok_sizes _ _ _ Hok).
      + intros dyn o. by eapply (ok_dynamic _ _ _ Hok).
    - unfold useFromEntry. rewrite He. by apply marking_one.
    - apply useFromIndirectCallee_marking; try done. intros m k. by eapply (ok_stored _ _ _ Hok).
    - apply useFromCodeLinks_marking; try done. by apply (ok_linked _ _ _ Hok).
    - by apply useFromSpecialName_marking.
    - intros r. split.
      + intros [(m&Hm&dyn&Hd&Hl)|[<-|[(m&Hm&Hs)|[(i&Hi&Hl)|(F&HF&Hr&n&Hn&Hs)]]]];
          [by eapply root_dynamic|by apply root_entry|by eapply root_stored|by eapply root_linked|by eapply root_named].
      + intros [m dyn Hm Hd Hl|Hr|m Hm Hs|i Hi Hl|F n HF Hr Hn Hs].
        * left. exists m. split; [done|]. by exists dyn.
        * right; left. congruence.
        * right; right; left. by exists m.
        * do 3 right; left. by exists i.
        * do 4 right. exists F. split_and!; [done|done|]. by exists n. }
  destruct (Hall ∅) as (used&E&_&Hu); [by intros f ?%not_elem_of_empty|]. exists g, used. split.
  - unfold DebloatPass.new. rewrite Eg. cbn [mbind res_bind]. cbn [mbind res_bind] in E.
    destruct (useFromDynamicInitFini _ _ _) as [u1|]; [|done]. cbn [mbind res_bind] in *.
    destruct (useFromEntry _ _ _) as [u2|]; [|done]. cbn [mbind res_bind] in *.
    destruct (useFromIndirectCallee _ _ _ _) as [u3|]; [|done]. cbn [mbind res_bind] in *.
    destruct (useFromCodeLinks _ _ _) as [u4|]; [|done]. cbn [mbind res_bind] in *. by rewrite E.
  - intros f. rewrite Hu. assert (Hrc : forall r, root arch_aarch64 use_gs p r -> reached p g r f <-> rtc (calls p) r f).
    { intros r Hr. apply reached_calls; try done; [by apply (ok_calls _ _ _ Hok)|by apply (ok_roots _ _ _ Hok)]. }
    split.
    + intros [?%not_elem_of_empty|(r&Hr&Hf)]; [done|]. exists r. split; [done|]. by apply Hrc.
    + intros (r&Hr&Hf). right. exists r. split; [done|]. by apply Hrc.
Qed.

(** The visit of a module whose functions are all used changes no list; and it returns only
    if at most the last function of the list is not used.  The loop removes functions from the
    vector that it traverses: after the removal of another one, it reads past the end. *)
Theorem debloat_visit used functionList l h : listed h functionList l ->
  ((forall f, f ∈ iterable l -> f ∈ used) ->
     visit_Module used functionList h = ChunkMutator.updatePositions (mkMutator functionList true) h) /\
  (forall h', visit_Module used functionList h = Ok (tt, h') ->
     forall j f, iterable l !! j = Some f -> f ∉ used -> S j = length (iterable l)).
Proof.
  intros Hl. unfold visit_Module, ChunkMutator.temporary. split.
  - intros Hu. unfold mbind, M_bind. rewrite (children_at_listed _ _ _ Hl). rewrite (remove_loop_used used (mkMutator functionList true) _ _ l h Hl); [done|lia|done].
  - intros h' (l0&h0&E0&([]&h1&E1&_)%bind_inv)%bind_inv j f Hf Hu. rewrite (children_at_listed _ _ _ Hl) in E0. injection E0 as <- <-.
    assert (Hn : (length (iterable l) <= length (iterable l) + 0)%nat) by lia.
    pose proof (remove_loop_inv used (mkMutator functionList true) _ 0 l h h1 Hl Hn E1 j f (Nat.le_0_l j) Hf Hu) as Hj. lia.
Qed.

(** ** Examples *)

Module DebloatExamples.
Local Definition call (t : LinkTarget) : InstrView := mkInstrView true false (Some t).
Local Definition fn (f : ptr) (n : string) (a : Z) (l : list InstrView) : FunctionView := mkFunctionView f [n] (mkRange a 16) [l].
(** [_start] calls [main], which calls [puts] through the PLT; [setup] is the entry of the
    initialization array and [_init] the initialization function; the address of [handler] is in a
    variable; nothing uses [old], which calls [puts], and [lazy], whose address is only in the
    table of the PLT. *)
Definition example : ProgramView := mkProgram
  [mkModuleView
     [fn 10 "_start" 4096 [call (ToFunction 20)]; fn 20 "main" 4112 [call (ToPLT (Some (mkTarget 30 true))); call ToOther];
      fn 30 "puts" 4128 []; fn 40 "old" 4144 [call (ToPLT (Some (mkTarget 30 true)))]; fn 50 "_init" 4160 [];
      fn 60 "setup" 4176 [call (ToPLT None)]; fn 70 "handler" 4192 []; fn 80 "lazy" 4208 []]
     [[mkSectionView ".data" [Some ToOther; Some (ToFunction 70)]; mkSectionView ".got.plt" [Some (ToFunction 80)]]]
     (Some [(DT_INIT, 4160); (DT_INIT_ARRAY, 8192); (DT_INIT_ARRAYSZ, 8); (0, 0); (DT_FINI, 1)])
     (Some {[ 8192 := mkReloc 4180 None ]})] (Some 10).

Local Ltac each H := repeat match type of H with
  | _ ∈ [] => by apply not_elem_of_nil in H
  | _ ∈ _ :: _ => apply elem_of_cons in H as [H|H]
  end.
Lemma example_lookup m dyn o : m ∈ modules example -> dynamic m = Some dyn -> init_lookup m dyn o ->
  o = Ok (Some 50) \/ o = Ok (Some 60).
Proof.
  intros Hm Hd Hl. apply list_elem_of_singleton in Hm. subst m. injection Hd as <-. destruct Hl as [tag v Hin Ht ->|start size l k Hin Hn Hl Hk Hk2 ->].
  - cbn in Hin. each Hin; injection Hin as -> ->; try (destruct Ht; done). left. vm_compute. reflexivity.
  - unfold arrays in Hin. each Hin; injection Hin as -> ->; [|done]. injection Hl as <-.
    change (tag_value _ DT_INIT_ARRAYSZ) with 8 in Hk2. assert (k = 0) as -> by lia. right. vm_compute. reflexivity.
Qed.
Lemma example_stored m k : m ∈ modules example -> stored false m k -> k = Some ToOther \/ k = Some (ToFunction 70).
Proof.
  intros Hm Hs. apply list_elem_of_singleton in Hm. subst m. destruct Hs as [region s Hr Hs Hn Hk|]; [|done].
  cbn in Hr. each Hr. subst region. each Hs; subst s; [|done]. cbn in Hk. each Hk; auto.
Qed.
Lemma example_code i : i ∈ code example -> i_link i ∈ [Some (ToFunction 20); Some (ToPLT (Some (mkTarget 30 true))); Some ToOther; Some (ToPLT None)].
Proof. intros Hi. cbn in Hi. each Hi; subst i; cbn; set_solver. Qed.
Lemma example_roots r : root false false example r -> r ∈ [50; 60; 10; 70; 20; 30].
Proof.
  intros [m dyn Hm Hd Hl|He|m Hm Hs|i Hi Hl|F n HF Hr Hn [Hs|[? _]]].
  - destruct (example_lookup _ _ _ Hm Hd Hl) as [[= ->]|[= ->]]; set_solver.
  - injection He as <-. set_solver.
  - destruct (example_stored _ _ Hm Hs) as [|[= ->]]; [done|]. set_solver.
  - apply example_code in Hi. each Hi; rewrite Hi in Hl; destruct Hl as [Hl|[Hl|(t&Hl&Ht&<-)]]; try done; injection Hl as <-; set_solver.
  - cbn in HF. each HF; subst F; apply bool_decide_eq_true_1 in Hn; cbn in Hn; each Hn; subst n; unfold special_names in Hs; each Hs; done.
  - done.
Qed.
Lemma example_ok : program_ok false false example.
Proof.
  split.
  - by apply (bool_decide_unpack _).
  - intros f t (F&HF&_&Ht). cbn in HF. each HF; subst F; cbn in Ht; each Ht; subst t; cbn; set_solver.
  - intros r Hr%example_roots. each Hr; subst r; cbn; set_solver.
  - by eexists.
  - intros m k Hm Hs. destruct (example_stored _ _ Hm Hs) as [->| ->]; by eexists.
  - intros i Hi%example_code E. rewrite E in Hi. each Hi; done.
  - intros m dyn start size Hm Hd Hin. apply list_elem_of_singleton in Hm. subst m. injection Hd as <-. unfold arrays in Hin. each Hin; injection Hin as -> ->; by vm_compute.
  - intros m dyn o Hm Hd Hl. destruct (example_lookup _ _ _ Hm Hd Hl) as [->| ->]; by eexists.
Qed.

Lemma debloat_used_witness :
  ((elements ∘ snd) <$> DebloatPass.new false false example) = Ok (elements ({[10; 20; 30; 50; 60; 70]} : gset ptr)) /\
  exists g used, DebloatPass.new false false example = Ok (g, used) /\
    forall f, f ∈ used <-> exists r, root false false example r /\ rtc (calls example) r f.
Proof. split; [vm_compute; reflexivity|]. apply debloat_used, example_ok. Defined.

(** A list of three functions *)
Local Definition func (q n : option ptr) : Chunk :=
  mkChunk TFunction (Some 5) q n POSITION_OLD None None 0 ChunkList.empty None "f".
Definition three : Heap := mkHeap
  (list_to_map [(5, mkChunk TFunctionList None None None POSITION_OLD None None 0 (mkChunkList [10; 20; 30] None None) None "");
    (10, func None (Some 20)); (20, func (Some 10) (Some 30)); (30, func (Some 20) None)]) ∅ ∅ MODE_OFFSET None [] 1000.
Lemma three_listed : listed three 5 (mkChunkList [10; 20; 30] None None).
Proof. split_and!; [done|done|]. intros f Hf. cbn in Hf. each Hf; subst f; by eexists. Qed.

(** If all are used nothing happens; if the last one is not, it is removed; if another one is
    not, the loop reads past the end. *)
Lemma debloat_visit_witness :
  (visit_Module {[10; 20; 30]} 5 three = Ok (tt, three) /\
   (fun r => (fun l => iterable l.2) <$> shape r.2 5) <$> visit_Module {[10; 20]} 5 three = Ok (Some [10; 20]) /\
   visit_Module {[10; 30]} 5 three = Err Undefined /\ visit_Module {[20; 30]} 5 three = Err Undefined) /\
  forall j f, [10; 20; 30] !! j = Some f -> f ∉ ({[10; 20]} : gset ptr) -> S j = 3%nat.
Proof.
  split; [split_and!; vm_compute; reflexivity|].
  eapply (proj2 (debloat_visit {[10; 20]} 5 _ three three_listed)). vm_compute. reflexivity.
Defined.
Theorem debloat_removal_undefined : visit_Module {[20; 30]} 5 three = Err Undefined.
Proof. vm_compute. reflexivity. Qed.
(** A call of something that is not in the program is a link to the first function. *)
Theorem unknown_callee_first : (map downLinks ∘ nodeList) <$> construct (mkProgram [mkModuleView
  [mkFunctionView 1 ["a"] (mkRange 0 4) []; mkFunctionView 2 ["b"] (mkRange 4 4) [[call (ToPLT (Some (mkTarget 9 false)))]]] [] None None] None) = Ok [[]; [0%nat]].
Proof. vm_compute. reflexivity. Qed.
End DebloatExamples.
