(* ===== verification/DataRegion.v ===== *)
(** * The data of a module: src/chunk/dataregion.{h,cpp}, src/pass/clearspatial.cpp

    The segments of an ELF file that are loaded become regions, their sections data sections
    with an offset in the region, and the places in them that point somewhere data variables
    with an offset in the section.  A region can move; sections and variables follow it. *)

From S2P Require Import Prelude Range ChunkList.
From S2P Require ControlFlow Link.

(** ** Objects *)
Inductive SectionType :=
| TYPE_UNKNOWN | TYPE_BSS | TYPE_DATA | TYPE_CODE | TYPE_INIT_ARRAY | TYPE_FINI_ARRAY | TYPE_DYNAMIC.
#[export] Instance SectionType_eq_dec : EqDecision SectionType.
Proof. solve_decision. Defined.

(** A symbol: its name and size. *)
Record SymbolView := mkSymbol { sym_name : string; sym_size : Z }.

(** The position of a variable and of a section is an [AbsoluteOffsetPosition], that of a region an
    [AbsolutePosition]. *)
Record DataVariable := mkVariable {
  dv_name : string; dv_dest : option Link.Link; dv_size : Z; dv_targetSymbol : option SymbolView; dv_isCopy : bool;
  dv_offset : Z; dv_parent : option ptr }.
Record GlobalVariable := mkGlobal {
  gv_symbol : option SymbolView; gv_dynamicSymbol : option SymbolView; gv_name : string; gv_size : Z;
  gv_offset : Z; gv_parent : option ptr }.
Record DataSection := mkSection {
  ds_name : string; ds_alignment : Z; ds_originalOffset : Z; ds_permissions : Z; ds_type : SectionType;
  ds_size : Z; ds_offset : Z; ds_parent : option ptr; ds_previous : option ptr; ds_next : option ptr;
  ds_variables : ChunkListImpl; ds_globals : list GlobalVariable }.
Record DataRegion := mkRegion {
  dr_address : Z; dr_originalAddress : Z; dr_size : Z; dr_permissions : Z; dr_alignment : Z;
  dr_bytes : list Z; dr_tlsOffset : option Z;     (* of a [TLSDataRegion] *)
  dr_sections : ChunkListImpl }.
Record DataHeap := mkDataHeap {
  d_regions : gmap ptr DataRegion; d_sections : gmap ptr DataSection; d_variables : gmap ptr DataVariable;
  d_fresh : ptr;
  d_regionMap : option SpatialChunkList.spaceMap }.    (* the address map of the list of regions *)
Record DataRegionList := mkList { regions : list ptr; tls : option ptr }.

(** ** The monad *)
Definition D (A : Type) : Type := DataHeap -> res (A * DataHeap).
#[export] Instance D_ret : MRet D := fun A a h => Ok (a, h).
#[export] Instance D_bind : MBind D := fun A B f m h => match m h with Ok (a, h) => f a h | Err e => Err e end.
Definition fail {A} (e : fault) : D A := fun _ => Err e.
Definition lift {A} (r : res A) : D A := fun h => match r with Ok a => Ok (a, h) | Err e => Err e end.
Definition getHeap : D DataHeap := fun h => Ok (h, h).
Definition region_at (r : ptr) : D DataRegion := fun h => match d_regions h !! r with Some x => Ok (x, h) | None => Err Undefined end.
Definition section_at (s : ptr) : D DataSection := fun h => match d_sections h !! s with Some x => Ok (x, h) | None => Err Undefined end.
Definition variable_at (v : ptr) : D DataVariable := fun h => match d_variables h !! v with Some x => Ok (x, h) | None => Err Undefined end.
Definition put_region (r : ptr) (x : DataRegion) : D unit := fun h =>
  Ok (tt, mkDataHeap (<[r := x]> (d_regions h)) (d_sections h) (d_variables h) (d_fresh h) (d_regionMap h)).
Definition put_section (s : ptr) (x : DataSection) : D unit := fun h =>
  Ok (tt, mkDataHeap (d_regions h) (<[s := x]> (d_sections h)) (d_variables h) (d_fresh h) (d_regionMap h)).
Definition put_variable (v : ptr) (x : DataVariable) : D unit := fun h =>
  Ok (tt, mkDataHeap (d_regions h) (d_sections h) (<[v := x]> (d_variables h)) (d_fresh h) (d_regionMap h)).
Definition new_ptr : D ptr := fun h => Ok (d_fresh h, mkDataHeap (d_regions h) (d_sections h) (d_variables h) (d_fresh h + 1) (d_regionMap h)).

Definition with_variables (x : DataSection) (l : ChunkListImpl) : DataSection :=
  mkSection (ds_name x) (ds_alignment x) (ds_originalOffset x) (ds_permissions x) (ds_type x) (ds_size x) (ds_offset x)
    (ds_parent x) (ds_previous x) (ds_next x) l (ds_globals x).
Definition with_globals (x : DataSection) (l : list GlobalVariable) : DataSection :=
  mkSection (ds_name x) (ds_alignment x) (ds_originalOffset x) (ds_permissions x) (ds_type x) (ds_size x) (ds_offset x)
    (ds_parent x) (ds_previous x) (ds_next x) (ds_variables x) l.
Definition with_links (x : DataSection) (parent previous next : option ptr) : DataSection :=
  mkSection (ds_name x) (ds_alignment x) (ds_originalOffset x) (ds_permissions x) (ds_type x) (ds_size x) (ds_offset x)
    parent previous next (ds_variables x) (ds_globals x).
Definition with_sections (x : DataRegion) (l : ChunkListImpl) : DataRegion :=
  mkRegion (dr_address x) (dr_originalAddress x) (dr_size x) (dr_permissions x) (dr_alignment x) (dr_bytes x) (dr_tlsOffset x) l.
Definition with_address (x : DataRegion) (a : Z) : DataRegion :=
  mkRegion a (dr_originalAddress x) (dr_size x) (dr_permissions x) (dr_alignment x) (dr_bytes x) (dr_tlsOffset x) (dr_sections x).
Definition with_bytes (x : DataRegion) (l : list Z) : DataRegion :=
  mkRegion (dr_address x) (dr_originalAddress x) (dr_size x) (dr_permissions x) (dr_alignment x) l (dr_tlsOffset x) (dr_sections x).

(** ** Addresses *)
Definition region_address (h : DataHeap) (r : ptr) : res Z :=
  match d_regions h !! r with Some x => Ok (dr_address x) | None => Err Undefined end.
Definition section_address (h : DataHeap) (s : ptr) : res Z :=
  match d_sections h !! s with
  | None => Err Undefined
  | Some x => match ds_parent x with None => Ok 0 | Some r => a ← region_address h r; Ok (add64 a (ds_offset x)) end
  end.
Definition variable_address (h : DataHeap) (v : ptr) : res Z :=
  match d_variables h !! v with
  | None => Err Undefined
  | Some x => match dv_parent x with None => Ok 0 | Some s => a ← section_address h s; Ok (add64 a (dv_offset x)) end
  end.
Definition section_range (h : DataHeap) (s : ptr) : res Range :=
  match d_sections h !! s with Some x => a ← section_address h s; Ok (mkRange a (ds_size x)) | None => Err Undefined end.
Definition region_range (h : DataHeap) (r : ptr) : res Range :=
  match d_regions h !! r with Some x => Ok (mkRange (dr_address x) (dr_size x)) | None => Err Undefined end.
(** What the lists of sections and of variables ask of their elements *)
Definition sections_view (h : DataHeap) : ChunkView := {|
  v_address := section_address h;
  v_range := section_range h;
  v_name s := match d_sections h !! s with Some x => ds_name x | None => ""%string end;
  v_cast _ := true |}.
Definition variables_view (h : DataHeap) : ChunkView := {|
  v_address := variable_address h;
  v_range v := match d_variables h !! v with Some x => a ← variable_address h v; Ok (mkRange a (dv_size x)) | None => Err Undefined end;
  v_name v := match d_variables h !! v with Some x => dv_name x | None => ""%string end;
  v_cast _ := true |}.

(** [DataOffsetLinkBase::getTargetAddress], for the links that [createDataLink] makes *)
Definition link_address (h : DataHeap) (k : Link.Link) : res Z :=
  match k with
  | Link.DataOffsetLink (Some s) target addend _ | Link.AbsoluteDataLink (Some s) target addend _ =>
    a ← section_address h s; Ok (add64 (add64 a target) addend)
  | _ => Err NullDeref
  end.

(** ** GlobalVariable *)
Definition getNonNullSymbol (g : GlobalVariable) : option SymbolView :=
  match gv_dynamicSymbol g with Some s => Some s | None => gv_symbol g end.
Definition add_global (section : ptr) (address : Z) (symbol : SymbolView) (make : Z -> GlobalVariable) : D GlobalVariable :=
  h ← getHeap; a ← lift (section_address h section);
  let g := make (sub64 address a) in
  x ← section_at section; put_section section (with_globals x (ds_globals x ++ [g]));; mret g.
Definition createSymtab (section : ptr) (address : Z) (symbol : SymbolView) : D GlobalVariable :=
  add_global section address symbol (fun offset =>
    mkGlobal (Some symbol) None (sym_name symbol) (sym_size symbol) offset (Some section)).
Definition createDynsym (section : ptr) (address : Z) (symbol : SymbolView) : D GlobalVariable :=
  add_global section address symbol (fun offset =>
    mkGlobal None (Some symbol) (sym_name symbol) (sym_size symbol) offset (Some section)).

(** ** DataSection *)
Module DataSection.
Definition contains (s : ptr) (address : Z) : D bool :=
  h ← getHeap; r ← lift (section_range h s); mret (Range.contains_point r address).
Definition findVariable_name (s : ptr) (name : string) : D (option ptr) :=
  x ← section_at s; h ← getHeap;
  let '(m, l) := ChunkList.getNamed (variables_view h) (ds_variables x) in
  put_section s (with_variables x l);; mret (NamedChunkList.find m name).
Definition findVariable (s : ptr) (address : Z) : D (option ptr) :=
  x ← section_at s; h ← getHeap;
  '(m, l) ← lift (ChunkList.getSpatial (variables_view h) (ds_variables x));
  put_section s (with_variables x l);; mret (SpatialChunkList.find m address).

(** A section header *)
Record Shdr := mkShdr { sh_name : string; sh_type : Z; sh_flags : Z; sh_addr : Z; sh_size : Z; sh_addralign : Z }.
Definition SHT_PROGBITS : Z := 1.
Definition SHT_DYNAMIC : Z := 6.
Definition SHT_NOBITS : Z := 8.
Definition SHT_INIT_ARRAY : Z := 14.
Definition SHT_FINI_ARRAY : Z := 15.
Definition SHF_ALLOC : Z := 2.
Definition SHF_EXECINSTR : Z := 4.
Definition SHF_TLS : Z := 1024.
Definition flag (flags f : Z) : bool := negb (Z.land flags f =? 0).
Definition data_names : list string :=
  [".data"; ".tdata"; ".rodata"; ".data.rel.ro"; ".data.rel.ro.local"; "malloc_hook"; "google_malloc"; ".got"; ".got.plt";
   ".init.data"; ".data_nosave"; ".altinstr_aux"; ".vvar"].
Definition type_of (sh : Shdr) : SectionType :=
  if sh_type sh =? SHT_NOBITS then TYPE_BSS
  else if sh_type sh =? SHT_INIT_ARRAY then TYPE_INIT_ARRAY
  else if sh_type sh =? SHT_FINI_ARRAY then TYPE_FINI_ARRAY
  else if sh_type sh =? SHT_DYNAMIC then TYPE_DYNAMIC
  else if sh_type sh =? SHT_PROGBITS then
    if bool_decide (String.substring 0 7 (sh_name sh) = "__libc_") then TYPE_DATA
    else if flag (sh_flags sh) SHF_EXECINSTR then TYPE_CODE
    else if bool_decide (sh_name sh ∈ data_names) then TYPE_DATA
    else TYPE_UNKNOWN
  else TYPE_UNKNOWN.
Definition new (segmentAddress : Z) (sh : Shdr) : DataSection :=
  let offset := sub64 (sh_addr sh) segmentAddress in
  mkSection (sh_name sh) (sh_addralign sh) offset (sh_flags sh) (type_of sh) (sh_size sh) offset None None None ChunkList.empty [].
End DataSection.

(** ** DataRegion *)
Module DataRegion.
(** A program header *)
Record Phdr := mkPhdr { p_type : Z; p_flags : Z; p_offset : Z; p_vaddr : Z; p_filesz : Z; p_memsz : Z; p_align : Z }.
(** [dataBytes.assign(charmap + offset, filesz)]: a part of the file *)
Definition file_bytes (file : list Z) (offset n : Z) : res (list Z) :=
  if Z.of_nat (length file) <? offset + n then Err Undefined else Ok (take (Z.to_nat n) (drop (Z.to_nat offset) file)).
Definition new (file : list Z) (ph : Phdr) (tlsOffset : option Z) : res DataRegion :=
  bytes ← file_bytes file (p_offset ph) (p_filesz ph);
  Ok (mkRegion (p_vaddr ph) (p_vaddr ph) (p_memsz ph) (p_flags ph) (p_align ph) bytes tlsOffset ChunkList.empty).
(** [saveDataBytes]: from the memory at the address of the region, or a string. *)
Definition saveDataBytes (memory : Z -> Z -> list Z) (r : ptr) (captureUninitializedData : bool) : D unit :=
  x ← region_at r;
  let size := if captureUninitializedData then dr_size x else Z.of_nat (length (dr_bytes x)) in
  put_region r (with_bytes x (memory (dr_address x) size)).
Definition saveDataBytes_string (r : ptr) (str : list Z) : D unit :=
  x ← region_at r; lift (cassert (Z.of_nat (length str) =? dr_size x));; put_region r (with_bytes x str).

Definition contains (r : ptr) (address : Z) : D bool :=
  h ← getHeap; g ← lift (region_range h r); mret (Range.contains_point g address).
Definition updateAddressFor (r : ptr) (baseAddress : Z) : D unit :=
  x ← region_at r; put_region r (with_address x (add64 baseAddress (dr_originalAddress x))).

(** [for(...) if(auto found = f(...)) return found;] *)
Fixpoint first (l : list ptr) (f : ptr -> D (option ptr)) : D (option ptr) :=
  match l with
  | [] => mret None
  | c :: l => o ← f c; match o with Some v => mret (Some v) | None => first l f end
  end.
Definition children (r : ptr) : D (list ptr) := x ← region_at r; mret (iterable (dr_sections x)).
Definition findVariable_name (r : ptr) (name : string) : D (option ptr) :=
  l ← children r; first l (fun s => DataSection.findVariable_name s name).
Definition findVariable (r : ptr) (address : Z) : D (option ptr) :=
  l ← children r; first l (fun s => DataSection.findVariable s address).
Definition findDataSectionContaining (r : ptr) (address : Z) : D (option ptr) :=
  l ← children r; first l (fun s => b ← DataSection.contains s address; mret (if b : bool then Some s else None)).
Definition findDataSection (r : ptr) (name : string) : D (option ptr) :=
  x ← region_at r; h ← getHeap;
  let '(m, l) := ChunkList.getNamed (sections_view h) (dr_sections x) in
  put_region r (with_sections x l);; mret (NamedChunkList.find m name).
(** [CIter::spatial(region)->findContaining(target)] *)
Definition spatial_containing (r : ptr) (address : Z) : D (option ptr) :=
  x ← region_at r; h ← getHeap;
  '(m, l) ← lift (ChunkList.getSpatial (sections_view h) (dr_sections x));
  put_region r (with_sections x l);; lift (SpatialChunkList.findContaining (sections_view h) m address).
End DataRegion.

(** ** TLSDataRegion *)
Module TLSDataRegion.
Definition setBaseAddress (r : ptr) (baseAddress : Z) : D unit := x ← region_at r; put_region r (with_address x baseAddress).
Definition containsData (r : ptr) (address : Z) : D bool :=
  x ← region_at r; mret (Range.contains_point (mkRange (dr_address x) (Z.of_nat (length (dr_bytes x)))) address).
End TLSDataRegion.

(** ** DataRegionList *)
Module DataRegionList.
Definition empty : DataRegionList := mkList [] None.
Definition findNonTLSRegionContaining (L : DataRegionList) (target : Z) : D (option ptr) :=
  DataRegion.first (regions L) (fun r =>
    if bool_decide (Some r = tls L) then mret None
    else b ← DataRegion.contains r target; mret (if b : bool then Some r else None)).
Definition findRegionContaining (L : DataRegionList) (target : Z) : D (option ptr) :=
  b ← match tls L with Some t => TLSDataRegion.containsData t target | None => mret false end;
  if b : bool then mret (tls L) else findNonTLSRegionContaining L target.
Definition findDataSectionContaining (L : DataRegionList) (address : Z) : D (option ptr) :=
  r ← findRegionContaining L address;
  match r with Some r => DataRegion.findDataSectionContaining r address | None => mret None end.
Definition findDataSection (L : DataRegionList) (name : string) : D (option ptr) :=
  DataRegion.first (regions L) (fun r => DataRegion.findDataSection r name).
Definition findVariable_name (L : DataRegionList) (name : string) : D (option ptr) :=
  DataRegion.first (regions L) (fun r => DataRegion.findVariable_name r name).
Definition findVariable (L : DataRegionList) (address : Z) : D (option ptr) :=
  r ← findRegionContaining L address;
  match r with Some r => DataRegion.findVariable r address | None => mret None end.

(** [createDataLink]; [innermost] says whether [ChunkFind] finds something in the functions of the
    module at an address. *)
Definition createDataLink (arch : ControlFlow.Arch) (innermost : Z -> bool) (L : DataRegionList) (target : Z)
    (isRelative : bool) : D (option Link.Link) :=
  region ← findRegionContaining L target;
  match region with
  | None => mret None
  | Some r =>
    dsec ← DataRegion.spatial_containing r target;
    match dsec with
    | None => mret None
    | Some s =>
      x ← section_at s;
      if bool_decide (ds_type x = TYPE_CODE) && negb (innermost target) && match arch with ControlFlow.ARCH_X86_64 => false | _ => true end
      then mret None
      else
        h ← getHeap; base ← lift (section_address h s);
        mret (Some (if isRelative
          then Link.DataOffsetLink (Some s) (sub64 target base) 0 Link.LinkScope.SCOPE_WITHIN_MODULE
          else Link.AbsoluteDataLink (Some s) (sub64 target base) 0 Link.LinkScope.SCOPE_WITHIN_MODULE))
    end
  end.

(** *** buildDataRegionList *)
Definition PT_LOAD : Z := 1.
Definition PT_TLS : Z := 7.
Definition add_region (x : DataRegion) : D ptr := r ← new_ptr; put_region r x;; mret r.
Fixpoint build_regions (file : list Z) (segments : list DataRegion.Phdr) (L : DataRegionList) : D DataRegionList :=
  match segments with
  | [] => mret L
  | ph :: segments =>
    if DataRegion.p_type ph =? PT_LOAD then
      x ← lift (DataRegion.new file ph None); r ← add_region x;
      build_regions file segments (mkList (regions L ++ [r]) (tls L))
    else if DataRegion.p_type ph =? PT_TLS then
      x ← lift (DataRegion.new file ph (Some 0)); r ← add_region x;
      build_regions file segments (mkList (regions L ++ [r]) (Some r))
    else build_regions file segments L
  end.
(** [ChunkMutator(region).append(ds)]: the section has a position, and a region ignores the
    sizes of its children. *)
Definition append_section (r s : ptr) : D unit :=
  x ← region_at r; y ← section_at s;
  let q := last (iterable (dr_sections x)) in
  match q with
  | Some q => z ← section_at q; put_section q (with_links z (ds_parent z) (ds_previous z) (Some s))
  | None => mret tt
  end;;
  put_section s (with_links y (Some r) q (match q with Some _ => ds_next y | None => None end));;
  h ← getHeap; l ← lift (ChunkList.add (sections_view h) (dr_sections x) s);
  put_region r (with_sections x l).
Fixpoint build_sections (headers : list DataSection.Shdr) (L : DataRegionList) : D unit :=
  match headers with
  | [] => mret tt
  | sh :: headers =>
    (if DataSection.flag (DataSection.sh_flags sh) DataSection.SHF_ALLOC then
       region ← (if DataSection.flag (DataSection.sh_flags sh) DataSection.SHF_TLS then mret (tls L)
                 else findNonTLSRegionContaining L (DataSection.sh_addr sh));
       match region with
       | None => fail NullDeref
       | Some r =>
         h ← getHeap; a ← lift (region_address h r);
         s ← new_ptr; put_section s (DataSection.new a sh);; append_section r s
       end
     else mret tt);;
    build_sections headers L
  end.
Definition buildDataRegionList (file : list Z) (segments : list DataRegion.Phdr) (headers : list DataSection.Shdr) :
    D DataRegionList :=
  L ← build_regions file segments empty; build_sections headers L;; mret L.
End DataRegionList.

(** ** DataVariable *)
Module DataVariable.
Definition new (section : ptr) (address : Z) (dest : option Link.Link) : D DataVariable :=
  b ← DataSection.contains section address; lift (cassert b);;
  h ← getHeap; a ← lift (section_address h section);
  mret (mkVariable "" dest 8 None false (sub64 address a) None).
Definition create (section : ptr) (address : Z) (dest : option Link.Link) (symbol : option SymbolView) : D ptr :=
  found ← DataSection.findVariable section address;
  match found with
  | Some var => mret var
  | None =>
    x ← new section address dest;
    let x := match symbol with
             | Some s => mkVariable (sym_name s) (dv_dest x) (dv_size x) (Some s) (dv_isCopy x) (dv_offset x) (dv_parent x)
             | None => x end in
    var ← new_ptr;
    put_variable var (mkVariable (dv_name x) (dv_dest x) (dv_size x) (dv_targetSymbol x) (dv_isCopy x) (dv_offset x) (Some section));;
    y ← section_at section; h ← getHeap;
    l ← lift (ChunkList.add (variables_view h) (ds_variables y) var);
    put_section section (with_variables y l);;
    again ← DataSection.findVariable section address;
    lift (cassert (bool_decide (again <> None)));; mret var
  end.
(** [create] in a module *)
Definition create_in (L : DataRegionList) (address : Z) (dest : option Link.Link) (symbol : option SymbolView) : D ptr :=
  region ← DataRegionList.findRegionContaining L address;
  match region with
  | None => fail AssertFail
  | Some r =>
    section ← DataRegion.findDataSectionContaining r address;
    match section with
    | None => fail AssertFail
    | Some s => create s address dest symbol
    end
  end.
End DataVariable.

(** ** ClearSpatialPass and the move of the regions of a module *)
Module ClearSpatialPass.
Fixpoint for_all (l : list ptr) (f : ptr -> D unit) : D unit :=
  match l with [] => mret tt | c :: l => f c;; for_all l f end.
Definition visit_DataSection (s : ptr) : D unit :=
  x ← section_at s; put_section s (with_variables x (ChunkList.clearSpatial (ds_variables x))).
Definition visit_DataRegion (r : ptr) : D unit :=
  x ← region_at r; put_region r (with_sections x (ChunkList.clearSpatial (dr_sections x)));;
  for_all (iterable (dr_sections x)) visit_DataSection.
Definition clear_regionMap : D unit := fun h => Ok (tt, mkDataHeap (d_regions h) (d_sections h) (d_variables h) (d_fresh h) None).
Definition visit_DataRegionList (L : DataRegionList) : D unit := clear_regionMap;; for_all (regions L) visit_DataRegion.
End ClearSpatialPass.
(** [ConductorSetup::setBaseAddresses], for the data of a module *)
Definition setBaseAddresses (L : DataRegionList) (baseAddress : Z) : D unit :=
  ClearSpatialPass.for_all (regions L) (fun r =>
    DataRegion.updateAddressFor r baseAddress;; ClearSpatialPass.visit_DataRegionList L).
