(* ===== verification/DataRegionProofs.v ===== *)
(** * Variables, links and moves of the data of a module *)

From S2P Require Import Prelude Range ChunkList DataRegion.
From S2P Require ControlFlow Link.

(** ** What a lookup does not change *)
Definition section_place (x : DataSection) := (ds_parent x, ds_offset x, ds_size x, ds_type x, ds_name x).
Definition region_place (x : DataRegion) :=
  (dr_address x, dr_originalAddress x, dr_size x, length (dr_bytes x), iterable (dr_sections x)).
Record places (h h' : DataHeap) : Prop := {
  pl_region : forall r, region_place <$> d_regions h' !! r = region_place <$> d_regions h !! r;
  pl_section : forall s, section_place <$> d_sections h' !! s = section_place <$> d_sections h !! s;
  pl_variable : d_variables h' = d_variables h }.
#[export] Instance places_refl : Reflexive places.
Proof. by split. Qed.
#[export] Instance places_trans : Transitive places.
Proof. intros h1 h2 h3 [A1 A2 A3] [B1 B2 B3]. split; congruence. Qed.

Lemma places_put_section h s x y : d_sections h !! s = Some x -> section_place y = section_place x ->
  places h (mkDataHeap (d_regions h) (<[s := y]> (d_sections h)) (d_variables h) (d_fresh h) (d_regionMap h)).
Proof.
  intros Hx Hy. split; [done| |done]. intros t. cbn. destruct (decide (s = t)) as [<-|].
  - by rewrite lookup_insert_eq, Hx; cbn; rewrite Hy.
  - by rewrite lookup_insert_ne.
Qed.
Lemma places_put_region h r x y : d_regions h !! r = Some x -> region_place y = region_place x ->
  places h (mkDataHeap (<[r := y]> (d_regions h)) (d_sections h) (d_variables h) (d_fresh h) (d_regionMap h)).
Proof.
  intros Hx Hy. split; [|done|done]. intros t. cbn. destruct (decide (r = t)) as [<-|].
  - by rewrite lookup_insert_eq, Hx; cbn; rewrite Hy.
  - by rewrite lookup_insert_ne.
Qed.
Section frame.
Context (h h' : DataHeap) (Hp : places h h').
Lemma places_section s x : d_sections h !! s = Some x -> exists x', d_sections h' !! s = Some x' /\ section_place x' = section_place x.
Proof. intros Hx. pose proof (pl_section _ _ Hp s) as E. rewrite Hx in E. destruct (d_sections h' !! s) as [x'|]; [|done]. cbn in E. exists x'. split; [done|congruence]. Qed.
Lemma places_region_address r : region_address h' r = region_address h r.
Proof.
  unfold region_address. pose proof (pl_region _ _ Hp r) as E.
  destruct (d_regions h !! r) as [x|], (d_regions h' !! r) as [x'|]; try done. cbn in E. unfold region_place in E.
  f_equal. congruence.
Qed.
Lemma places_section_address s : section_address h' s = section_address h s.
Proof.
  unfold section_address. pose proof (pl_section _ _ Hp s) as E.
  destruct (d_sections h !! s) as [x|], (d_sections h' !! s) as [x'|]; try done. cbn in E. unfold section_place in E.
  assert (ds_parent x' = ds_parent x /\ ds_offset x' = ds_offset x) as [-> ->] by (split; congruence).
  destruct (ds_parent x); [|done]. by rewrite places_region_address.
Qed.
Lemma places_section_range s : section_range h' s = section_range h s.
Proof.
  unfold section_range. rewrite places_section_address. pose proof (pl_section _ _ Hp s) as E.
  destruct (d_sections h !! s) as [x|], (d_sections h' !! s) as [x'|]; try done. cbn in E. unfold section_place in E.
  assert (ds_size x' = ds_size x) as -> by congruence. done.
Qed.
Lemma places_variable_address v : variable_address h' v = variable_address h v.
Proof.
  unfold variable_address. rewrite (pl_variable _ _ Hp). destruct (d_variables h !! v) as [x|]; [|done].
  destruct (dv_parent x); [|done]. by rewrite places_section_address.
Qed.
End frame.

(** ** Sections and their variables *)

(** A section of a region, and its variables: they are at different addresses, and the map of the
    addresses, when there is one, holds exactly them. *)
Record section_ok (h : DataHeap) (s : ptr) (x : DataSection) : Prop := {
  so_section : d_sections h !! s = Some x;
  so_region : exists r, ds_parent x = Some r /\ is_Some (d_regions h !! r);
  so_variables : forall v, v ∈ iterable (ds_variables x) -> exists y, d_variables h !! v = Some y /\ dv_parent y = Some s;
  so_addressed : addressed (variables_view h) (iterable (ds_variables x));
  so_spatial : match spatial (ds_variables x) with None => True | Some m => spatial_ok (variables_view h) (iterable (ds_variables x)) m end;
  so_fresh : forall v, is_Some (d_variables h !! v) -> v < d_fresh h }.

Lemma section_address_ok h s x : section_ok h s x -> exists a, section_address h s = Ok a.
Proof.
  intros [Hx (r&Hr&reg&Hreg) _ _ _ _]. unfold section_address, region_address. rewrite Hx, Hr, Hreg. cbn. by eexists.
Qed.

(** A lookup returns the variable at the address, and keeps the section. *)
Lemma findVariable_spec h s x a : section_ok h s x -> exists o x' h',
  DataSection.findVariable s a h = Ok (o, h') /\ section_ok h' s x' /\ places h h' /\ iterable (ds_variables x') = iterable (ds_variables x) /\
  d_fresh h' = d_fresh h /\
  forall v, o = Some v <-> v ∈ iterable (ds_variables x) /\ variable_address h v = Ok a.
Proof.
  intros Hok. destruct (getSpatial_addressed (variables_view h) (ds_variables x) (so_addressed _ _ _ Hok) (so_spatial _ _ _ Hok))
    as (m&l&E&[Hs Hm]&->).
  unfold DataSection.findVariable, mbind, D_bind, section_at, getHeap, lift, put_section.
  rewrite (so_section _ _ _ Hok), E. set (l := mkChunkList _ _ _).
  assert (Hp : places h (mkDataHeap (d_regions h) (<[s := with_variables x l]> (d_sections h)) (d_variables h) (d_fresh h) (d_regionMap h)))
    by (by apply (places_put_section h s x); [apply Hok|]).
  eexists _, (with_variables x l), _. split_and!; [done| |exact Hp|done|done|].
  - destruct Hok as [_ H2 H3 [H4 H5] _ H6]. split; [by apply lookup_insert_eq|done|done| | |done].
    + split.
      * intros v Hv. cbn. rewrite (places_variable_address _ _ Hp). by apply H4.
      * intros v v' b. cbn. rewrite !(places_variable_address _ _ Hp). by apply H5.
    + cbn. split; [done|]. intros b v. cbn. rewrite (places_variable_address _ _ Hp). apply Hm.
  - intros v. unfold SpatialChunkList.find. rewrite OrderedMap.find_elem by done. apply Hm.
Qed.

Lemma add64_sub64 a b : is_u64 a -> add64 b (sub64 a b) = a.
Proof.
  intros Ha. unfold add64, sub64, wrap. rewrite Zplus_mod_idemp_r. replace (b + (a - b)) with a by lia. by apply Z.mod_small.
Qed.

(** *** A new variable *)
Section create.
Context (h : DataHeap) (s : ptr) (x : DataSection) (Hok : section_ok h s x).
Context (a : Z) (Ha : is_u64 a) (y : DataVariable) (base : Z).
Hypothesis Hbase : section_address h s = Ok base.
Hypothesis Hplace : dv_parent y = Some s /\ dv_offset y = sub64 a base.
Hypothesis Hnone : forall v, ~ (v ∈ iterable (ds_variables x) /\ variable_address h v = Ok a).

Definition added : DataHeap := mkDataHeap (d_regions h) (d_sections h) (<[d_fresh h := y]> (d_variables h)) (d_fresh h + 1) (d_regionMap h).
Lemma added_new : variable_address added (d_fresh h) = Ok a.
Proof.
  destruct Hplace as [Hp Ho]. unfold variable_address. cbn. rewrite lookup_insert_eq, Hp.
  change (section_address added s) with (section_address h s). rewrite Hbase. cbn. by rewrite Ho, add64_sub64.
Qed.
Lemma old_variable v : v ∈ iterable (ds_variables x) -> v <> d_fresh h.
Proof. intros Hv ->. destruct (so_variables _ _ _ Hok _ Hv) as (z&Hz&_). pose proof (so_fresh _ _ _ Hok (d_fresh h) ltac:(by eexists)). lia. Qed.
Lemma added_old v : v <> d_fresh h -> variable_address added v = variable_address h v.
Proof. intros Hv. unfold variable_address. cbn. by rewrite lookup_insert_ne. Qed.
Lemma added_addressed : addressed (variables_view added) (iterable (ds_variables x) ++ [d_fresh h]).
Proof.
  destruct (so_addressed _ _ _ Hok) as [H1 H2]. split.
  - intros v [Hv| ->%list_elem_of_singleton]%elem_of_app; cbn; [|rewrite added_new; by eexists].
    rewrite added_old by by apply old_variable. by apply H1.
  - intros v w b [Hv| ->%list_elem_of_singleton]%elem_of_app [Hw| ->%list_elem_of_singleton]%elem_of_app; cbn; [| | |done].
    + rewrite !added_old by by apply old_variable. by apply H2.
    + rewrite added_new, added_old by by apply old_variable. intros E [= <-]. by destruct (Hnone v).
    + rewrite added_new, added_old by by apply old_variable. intros [= <-] E. by destruct (Hnone w).
Qed.
Lemma add_variable_spec : exists l, ChunkList.add (variables_view added) (ds_variables x) (d_fresh h) = Ok l /\
  iterable l = iterable (ds_variables x) ++ [d_fresh h] /\
  section_ok (mkDataHeap (d_regions h) (<[s := with_variables x l]> (d_sections h)) (d_variables added) (d_fresh added) (d_regionMap added)) s (with_variables x l).
Proof.
  assert (Hsp : exists sp, ChunkList.on_spatial (fun m => SpatialChunkList.add (variables_view added) m (d_fresh h)) (spatial (ds_variables x)) = Ok sp /\
    match sp with None => True | Some m => spatial_ok (variables_view added) (iterable (ds_variables x) ++ [d_fresh h]) m end).
  { pose proof (so_spatial _ _ _ Hok) as Hs. destruct (spatial (ds_variables x)) as [m|]; cbn [ChunkList.on_spatial]; [|by exists None].
    destruct (spatial_add_ok (variables_view added) (iterable (ds_variables x)) (d_fresh h) m added_addressed) as (m'&E&Hm').
    - destruct Hs as [Hs Hm]. split; [done|]. intros b v. rewrite Hm. split; intros [Hv Hb]; (split; [done|]); revert Hb; cbn;
        by rewrite added_old by by apply old_variable.
    - rewrite E. by exists (Some m'). }
  destruct Hsp as (sp&E&Hsp). unfold ChunkList.add. rewrite E. cbn [mbind res_bind]. eexists. split; [done|]. split; [done|].
  set (l := mkChunkList _ _ _). set (h4 := mkDataHeap _ _ _ _ _).
  assert (Hp : places added h4) by (by apply (places_put_section added s x); [apply (so_section _ _ _ Hok)|]).
  destruct added_addressed as [A1 A2]. split.
  - by apply lookup_insert_eq.
  - apply (so_region _ _ _ Hok).
  - cbn. intros v [Hv| ->%list_elem_of_singleton]%elem_of_app.
    + destruct (so_variables _ _ _ Hok v Hv) as (z&Hz&Hpz). exists z. by rewrite lookup_insert_ne by (apply not_eq_sym; by apply old_variable).
    + exists y. rewrite lookup_insert_eq. by destruct Hplace.
  - split.
    + intros v Hv. cbn. rewrite (places_variable_address _ _ Hp). by apply A1.
    + intros v w b. cbn. rewrite !(places_variable_address _ _ Hp). by apply A2.
  - cbn. destruct sp as [m|]; [|done]. destruct Hsp as [S1 S2]. split; [done|]. intros b v. cbn.
    rewrite (places_variable_address _ _ Hp). apply S2.
  - cbn. intros v [z Hz]. destruct (decide (v = d_fresh h)) as [->|]; [lia|]. rewrite lookup_insert_ne in Hz by done.
    pose proof (so_fresh _ _ _ Hok v ltac:(by eexists)). lia.
Qed.
End create.

(** The variable that [create] makes *)
Definition made (dest : option Link.Link) (symbol : option SymbolView) (offset : Z) (s : ptr) : DataVariable :=
  mkVariable (match symbol with Some n => sym_name n | None => "" end) dest 8 symbol false offset (Some s).

Lemma create_existing h s x v a dest symbol : section_ok h s x -> v ∈ iterable (ds_variables x) -> variable_address h v = Ok a ->
  exists x' h', DataVariable.create s a dest symbol h = Ok (v, h') /\ section_ok h' s x' /\ places h h' /\
    iterable (ds_variables x') = iterable (ds_variables x).
Proof.
  intros Hok Hv Ha. destruct (findVariable_spec h s x a Hok) as (o&x'&h'&E&Hok'&Hp&Hi&_&Ho).
  rewrite (proj2 (Ho v) (conj Hv Ha)) in E. unfold DataVariable.create, mbind, D_bind. rewrite E. exists x', h'. by split_and!.
Qed.

Lemma new_spec h s g a dest base : section_range h s = Ok g -> section_address h s = Ok base ->
  DataVariable.new s a dest h =
    if Range.contains_point g a then Ok (mkVariable "" dest 8 None false (sub64 a base) None, h) else Err AssertFail.
Proof.
  intros Hg Hb. unfold DataVariable.new, DataSection.contains, mbind, D_bind, getHeap, lift. rewrite Hg. cbn.
  destruct (Range.contains_point g a); cbn; [|done]. by rewrite Hb.
Qed.
Lemma create_unfold h h1 s a dest symbol offset : DataSection.findVariable s a h = Ok (None, h1) ->
  DataVariable.new s a dest h1 = Ok (mkVariable "" dest 8 None false offset None, h1) ->
  DataVariable.create s a dest symbol h =
    (var ← new_ptr; put_variable var (made dest symbol offset s);;
     y ← section_at s; h ← getHeap; l ← lift (ChunkList.add (variables_view h) (ds_variables y) var);
     put_section s (with_variables y l);;
     again ← DataSection.findVariable s a; lift (cassert (bool_decide (again <> None)));; mret var) h1.
Proof. intros E En. unfold DataVariable.create, mbind, D_bind. rewrite E. cbv beta iota. rewrite En. by destruct symbol. Qed.

Lemma create_spec h s x g a dest symbol : section_ok h s x -> is_u64 a -> section_range h s = Ok g ->
  (forall v, ~ (v ∈ iterable (ds_variables x) /\ variable_address h v = Ok a)) ->
  if Range.contains_point g a then
    exists x' h' base, DataVariable.create s a dest symbol h = Ok (d_fresh h, h') /\ section_ok h' s x' /\
      section_address h s = Ok base /\
      d_variables h' = <[d_fresh h := made dest symbol (sub64 a base) s]> (d_variables h) /\
      iterable (ds_variables x') = iterable (ds_variables x) ++ [d_fresh h] /\
      variable_address h' (d_fresh h) = Ok a /\
      forall w, w <> d_fresh h -> variable_address h' w = variable_address h w
  else DataVariable.create s a dest symbol h = Err AssertFail.
Proof.
  intros Hok Ha Hg Hnone. destruct (findVariable_spec h s x a Hok) as (o&x1&h1&E&Hok1&Hp&Hi&Hf&Ho).
  assert (o = None) as -> by (destruct o as [v|]; [destruct (Hnone v); by apply Ho|done]).
  destruct (section_address_ok h s x Hok) as [base Hbase].
  assert (Hbase1 : section_address h1 s = Ok base) by by rewrite (places_section_address _ _ Hp).
  assert (Hg1 : section_range h1 s = Ok g) by by rewrite (places_section_range _ _ Hp).
  pose proof (new_spec h1 s g a dest base Hg1 Hbase1) as En. destruct (Range.contains_point g a).
  2: { unfold DataVariable.create, mbind, D_bind. rewrite E. cbv beta iota. by rewrite En. }
  rewrite (create_unfold h h1 s a dest symbol _ E En). set (y := made _ _ _ _).
  unfold mbind, D_bind, new_ptr, put_variable, section_at at 1. cbn [d_regions d_sections d_variables d_fresh d_regionMap]. rewrite (so_section _ _ _ Hok1).
  unfold getHeap, lift at 1. rewrite Hf.
  destruct (add_variable_spec h1 s x1 Hok1 a Ha y base) as (l&El&Il&Hok2).
  { done. }
  { done. }
  { intros v. rewrite Hi, (places_variable_address _ _ Hp). apply Hnone. }
  unfold added in El. rewrite Hf in El. rewrite El. unfold put_section. cbn [d_regions d_sections d_variables d_fresh d_regionMap].
  unfold added in Hok2. rewrite Hf in Hok2. cbn [d_variables d_fresh d_regionMap] in Hok2. set (h4 := mkDataHeap (d_regions h1) (<[s := with_variables x1 l]> (d_sections h1)) (<[d_fresh h := y]> (d_variables h1)) (d_fresh h + 1) (d_regionMap h1)) in *.
  assert (Hp4 : places (added h1 y) h4).
  { unfold h4, added. rewrite Hf. apply (places_put_section (mkDataHeap _ _ _ _ _) s x1); [apply (so_section _ _ _ Hok1)|done]. }
  assert (Hnew : variable_address h4 (d_fresh h) = Ok a).
  { rewrite (places_variable_address _ _ Hp4), <- Hf. by eapply added_new. }
  destruct (findVariable_spec h4 s _ a Hok2) as (o5&x5&h5&E5&Hok5&Hp5&Hi5&Hf5&Ho5).
  rewrite (proj2 (Ho5 (d_fresh h))) in E5 by (cbn; rewrite Il, Hf; split; [set_solver|done]). rewrite E5. cbn.
  exists x5, h5, base. split_and!; [done|done|exact Hbase| | | |].
  - rewrite (pl_variable _ _ Hp5). cbn. by rewrite (pl_variable _ _ Hp).
  - rewrite Hi5. cbn. by rewrite Il, Hi, Hf.
  - by rewrite (places_variable_address _ _ Hp5).
  - intros w Hw. rewrite (places_variable_address _ _ Hp5), (places_variable_address _ _ Hp4).
    rewrite <- Hf in Hw. rewrite added_old by done. by apply places_variable_address.
Qed.

(** ** Regions *)

(** A region with its sections: they are at different addresses. *)
Record region_ok (h : DataHeap) (r : ptr) (x : DataRegion) : Prop := {
  ro_region : d_regions h !! r = Some x;
  ro_sections : forall s, s ∈ iterable (dr_sections x) -> exists y, d_sections h !! s = Some y /\ ds_parent y = Some r;
  ro_addressed : addressed (sections_view h) (iterable (dr_sections x));
  ro_spatial : match spatial (dr_sections x) with None => True | Some m => spatial_ok (sections_view h) (iterable (dr_sections x)) m end }.
Record list_ok (h : DataHeap) (L : DataRegionList) : Prop := {
  lo_regions : forall r, r ∈ regions L -> exists x, region_ok h r x;
  lo_tls : forall t, tls L = Some t -> t ∈ regions L }.

Definition in_region (h : DataHeap) (r : ptr) (a : Z) : Prop := exists g, region_range h r = Ok g /\ Range.contains_point g a = true.
Definition in_section (h : DataHeap) (s : ptr) (a : Z) : Prop := exists g, section_range h s = Ok g /\ Range.contains_point g a = true.
(** The initialized data of the thread-local region *)
Definition in_tls_data (h : DataHeap) (L : DataRegionList) (a : Z) : Prop := exists t x, tls L = Some t /\ d_regions h !! t = Some x /\
  Range.contains_point (mkRange (dr_address x) (Z.of_nat (length (dr_bytes x)))) a = true.

(** A search that only reads *)
Lemma first_spec (l : list ptr) f (P : ptr -> option ptr) h : (forall c, c ∈ l -> f c h = Ok (P c, h)) ->
  exists o, DataRegion.first l f h = Ok (o, h) /\
    match o with
    | Some v => exists pre c post, l = pre ++ c :: post /\ P c = Some v /\ forall d, d ∈ pre -> P d = None
    | None => forall c, c ∈ l -> P c = None
    end.
Proof.
  induction l as [|c l IH]; intros Hf; cbn [DataRegion.first]; [exists None; split; [done|]; by intros c ?%elem_of_nil|].
  unfold mbind, D_bind. rewrite Hf by left. destruct (P c) as [v|] eqn:E.
  - exists (Some v). split; [done|]. exists [], c, l. split_and!; [done|done|]. by intros d ?%elem_of_nil.
  - destruct IH as (o&Eo&Ho); [intros d Hd; apply Hf; by right|]. exists o. split; [exact Eo|]. destruct o as [v|].
    + destruct Ho as (pre&d&post&->&Hd&Hpre). exists (c :: pre), d, post. split_and!; [done|done|].
      intros e [->|He]%elem_of_cons; [done|by apply Hpre].
    + intros d [->|Hd]%elem_of_cons; [done|by apply Ho].
Qed.

(** The region that a lookup of an address means: the thread-local one if its initialized data
    holds the address, else the first other one that does. *)
Definition home (h : DataHeap) (L : DataRegionList) (a : Z) (r : ptr) : Prop :=
  r ∈ regions L /\ ((in_tls_data h L a /\ tls L = Some r) \/ (~ in_tls_data h L a /\ Some r <> tls L /\ in_region h r a /\
    exists pre post, regions L = pre ++ r :: post /\ forall q, q ∈ pre -> Some q <> tls L -> ~ in_region h q a)).
Definition homeless (h : DataHeap) (L : DataRegionList) (a : Z) : Prop :=
  ~ in_tls_data h L a /\ forall r, r ∈ regions L -> Some r <> tls L -> ~ in_region h r a.

Lemma findRegionContaining_spec h L a : list_ok h L -> exists o,
  DataRegionList.findRegionContaining L a h = Ok (o, h) /\ match o with Some r => home h L a r | None => homeless h L a end.
Proof.
  intros HL. unfold DataRegionList.findRegionContaining.
  set (P := fun r => if bool_decide (Some r = tls L) then None else
    match d_regions h !! r with Some x => if Range.contains_point (mkRange (dr_address x) (dr_size x)) a then Some r else None | None => None end).
  destruct (first_spec (regions L) (fun r => (if bool_decide (Some r = tls L) then mret None
    else b ← DataRegion.contains r a; mret (if b : bool then Some r else None)) : D (option ptr)) P h) as (o&Eo&Ho).
  { intros r Hr. destruct (lo_regions _ _ HL r Hr) as [x Hx]. unfold P. case_bool_decide; [done|].
    unfold DataRegion.contains, mbind, D_bind, getHeap, lift, region_range. by rewrite (ro_region _ _ _ Hx). }
  assert (HP : forall r, P r = None <-> Some r = tls L \/ ~ in_region h r a).
  { intros r. unfold P, in_region, region_range. case_bool_decide; [by split; [left|]|].
    destruct (d_regions h !! r) as [x|]; [|split; [|done]; intros _; right; by intros (g&?&_)].
    destruct (Range.contains_point _ a) eqn:E.
    - split; [done|]. intros [?|Hn]; [done|]. destruct Hn. by eexists.
    - split; [|done]. intros _. right. intros (g&[= <-]&?). congruence. }
  assert (HPs : forall r v, P r = Some v -> v = r /\ Some r <> tls L /\ in_region h r a).
  { intros r v E. unfold P in E. case_bool_decide as Ht; [done|]. unfold in_region, region_range.
    destruct (d_regions h !! r) as [x|]; [|done]. destruct (Range.contains_point _ a) eqn:Ec; [|done].
    injection E as <-. split_and!; [done|done|]. by eexists. }
  assert (Hrest : ~ in_tls_data h L a -> match o with Some r => home h L a r | None => homeless h L a end).
  { intros Hn. destruct o as [r|].
    - destruct Ho as (pre&c&post&E&(->&Ht&Hin)%HPs&Hpre). split; [rewrite E; set_solver|]. right. split_and!; [done..|].
      exists pre, post. split; [done|]. intros q Hq Hqt. by destruct (proj1 (HP q) (Hpre q Hq)).
    - split; [done|]. intros r Hr Hrt. by destruct (proj1 (HP r) (Ho r Hr)). }
  change (DataRegionList.findNonTLSRegionContaining L a h = Ok (o, h)) in Eo. clear Ho HP HPs P.
  destruct (tls L) as [t|] eqn:Et.
  - destruct (lo_regions _ _ HL t (lo_tls _ _ HL t Et)) as [x Hx]. unfold TLSDataRegion.containsData, mbind, D_bind, region_at.
    rewrite (ro_region _ _ _ Hx). cbn [mret D_ret]. destruct (Range.contains_point _ a) eqn:E.
    + exists (Some t). split; [done|]. split; [by apply (lo_tls _ _ HL)|]. left. split; [|done]. exists t, x. by split_and!; [|apply Hx|].
    + exists o. split; [exact Eo|]. apply Hrest. intros (t'&x'&Ht'&Hx'&Hc). rewrite Et in Ht'. injection Ht' as <-.
      rewrite (ro_region _ _ _ Hx) in Hx'. injection Hx' as <-. congruence.
  - exists o. split; [exact Eo|]. apply Hrest. intros (t'&x'&Ht'&_). congruence.
Qed.

(** *** Links to data *)
Lemma spatial_containing_spec h r x a : region_ok h r x -> exists o x' h',
  DataRegion.spatial_containing r a h = Ok (o, h') /\ region_ok h' r x' /\ places h h' /\
  (forall q, q <> r -> d_regions h' !! q = d_regions h !! q) /\ (forall s, d_sections h' !! s = d_sections h !! s) /\
  (ranges_ok (sections_view h) (iterable (dr_sections x)) ->
   forall s, o = Some s <-> s ∈ iterable (dr_sections x) /\ in_section h s a).
Proof.
  intros Hok. destruct (getSpatial_addressed (sections_view h) (dr_sections x) (ro_addressed _ _ _ Hok) (ro_spatial _ _ _ Hok))
    as (m&l&E&Hm&->).
  set (l := mkChunkList (iterable (dr_sections x)) (Some m) (named (dr_sections x))) in E.
  set (h' := mkDataHeap (<[r := with_sections x l]> (d_regions h)) (d_sections h) (d_variables h) (d_fresh h) (d_regionMap h)).
  assert (Hp : places h h') by (by apply (places_put_region h r x); [apply Hok|]).
  assert (Hr : exists o, SpatialChunkList.findContaining (sections_view h) m a = Ok o /\
    (ranges_ok (sections_view h) (iterable (dr_sections x)) -> forall s, o = Some s <-> s ∈ iterable (dr_sections x) /\ in_section h s a)).
  { unfold SpatialChunkList.findContaining. destruct (OrderedMap.upper_bound a m) as [before after] eqn:Eb.
    destruct (OrderedMap.upper_bound_split _ _ _ _ (proj1 Hm) Eb) as (Em&_&_).
    assert (Ho : exists o, SpatialChunkList.findContaining (sections_view h) m a = Ok o).
    { unfold SpatialChunkList.findContaining. rewrite Eb. destruct (last before) as [[b s]|] eqn:El; [|by eexists].
      apply last_Some in El as [before' ->]. assert (Hs : (b, s) ∈ m) by (rewrite Em; set_solver).
      apply Hm in Hs as [Hs _]. destruct (ro_sections _ _ _ Hok s Hs) as (y&Hy&Hpy). cbn. unfold section_range, section_address, region_address.
      rewrite Hy, Hpy, (ro_region _ _ _ Hok). by eexists. }
    destruct Ho as [o Ho]. unfold SpatialChunkList.findContaining in Ho. rewrite Eb in Ho. exists o. split; [exact Ho|]. intros Hranges s.
    destruct (findContaining_spec (sections_view h) (iterable (dr_sections x)) m a Hranges Hm) as (o'&Eo'&Ho').
    unfold SpatialChunkList.findContaining in Eo'. rewrite Eb, Ho in Eo'. injection Eo' as <-. rewrite Ho'.
    unfold covered_by, in_section. cbn. split; intros [Hs (g&Hg&Hc)]; (split; [done|]); exists g; (split; [done|]);
      destruct (ok_range _ _ Hranges s Hs) as (g'&Hg'&_&Hgok&_); cbn in Hg'; rewrite Hg in Hg'; injection Hg' as <-;
      by apply (Range.contains_point_spec g a Hgok). }
  destruct Hr as (o&Eo&Ho). exists o, (with_sections x l), h'. split_and!; [|split|exact Hp| |done|exact Ho].
  - unfold DataRegion.spatial_containing, mbind, D_bind, region_at, getHeap, lift, put_region. rewrite (ro_region _ _ _ Hok), E.
    fold l. fold h'. by rewrite Eo.
  - by apply lookup_insert_eq.
  - apply Hok.
  - destruct (ro_addressed _ _ _ Hok) as [H1 H2]. split.
    + intros s Hs. cbn. rewrite (places_section_address _ _ Hp). by apply H1.
    + intros s t b. cbn. rewrite !(places_section_address _ _ Hp). by apply H2.
  - destruct Hm as [M1 M2]. split; [done|]. intros b s. cbn. rewrite (places_section_address _ _ Hp). apply M2.
  - intros q Hq. cbn. by rewrite lookup_insert_ne.
Qed.

Lemma other_region_ok h h' q x : places h h' -> region_ok h q x -> d_regions h' !! q = d_regions h !! q ->
  (forall s, d_sections h' !! s = d_sections h !! s) -> region_ok h' q x.
Proof.
  intros Hp [H1 H2 [H3 H4] H5] Hq Hs. split; [congruence| | |].
  - intros s Hin. rewrite Hs. by apply H2.
  - split; [intros s Hin; cbn; rewrite (places_section_address _ _ Hp); by apply H3|].
    intros s t b. cbn. rewrite !(places_section_address _ _ Hp). by apply H4.
  - destruct (spatial (dr_sections x)); [|done]. destruct H5 as [M1 M2]. split; [done|].
    intros b s. cbn. rewrite (places_section_address _ _ Hp). apply M2.
Qed.
Lemma places_link_address h h' k : places h h' -> link_address h' k = link_address h k.
Proof. intros Hp. destruct k; try done; destruct section; try done; cbn; by rewrite (places_section_address _ _ Hp). Qed.

(** Code in which no function is found at the target; only x86-64 has links to it. *)
Definition stray_code (arch : ControlFlow.Arch) (innermost : Z -> bool) (target : Z) (y : DataSection) : Prop :=
  ds_type y = TYPE_CODE /\ innermost target = false /\ arch <> ControlFlow.ARCH_X86_64.

(** C23: [createDataLink] returns, and changes no place.  A link that it makes is to a section that
    holds the target, in the region of the target, and is evaluated to the target; there is none
    exactly if no region or no section of the region holds the target, or if the section is code without a function
    at the target and the architecture is not x86-64. *)
Theorem data_link_correct arch innermost L target isRelative h :
  list_ok h L -> is_u64 target ->
  (forall r x, r ∈ regions L -> d_regions h !! r = Some x -> ranges_ok (sections_view h) (iterable (dr_sections x))) ->
  exists o h', DataRegionList.createDataLink arch innermost L target isRelative h = Ok (o, h') /\ places h h' /\ list_ok h' L /\
    match o with
    | Some k => exists r x s, home h L target r /\ d_regions h !! r = Some x /\ s ∈ iterable (dr_sections x) /\ in_section h s target /\
        (exists y, d_sections h !! s = Some y /\ ~ stray_code arch innermost target y) /\ link_address h' k = Ok target /\ Link.Link.isRIPRelative k = isRelative /\
        exists offset, k = (if isRelative then Link.DataOffsetLink else Link.AbsoluteDataLink) (Some s) offset 0 Link.LinkScope.SCOPE_WITHIN_MODULE
    | None => homeless h L target \/ exists r x, home h L target r /\ d_regions h !! r = Some x /\
        ((forall s, s ∈ iterable (dr_sections x) -> ~ in_section h s target) \/
         exists s y, s ∈ iterable (dr_sections x) /\ in_section h s target /\ d_sections h !! s = Some y /\ stray_code arch innermost target y)
    end.
Proof.
  intros HL Htarget Hranges. unfold DataRegionList.createDataLink.
  destruct (findRegionContaining_spec h L target HL) as (o&Eo&Ho). unfold mbind at 1, D_bind at 1. rewrite Eo.
  destruct o as [r|]; [|exists None, h; split_and!; [done|done|done|by left]].
  destruct (lo_regions _ _ HL r (proj1 Ho)) as [x Hx].
  destruct (spatial_containing_spec h r x target Hx) as (o2&x'&h'&E2&Hx'&Hp&Hother&Hsec&Ho2).
  specialize (Ho2 (Hranges r x (proj1 Ho) (ro_region _ _ _ Hx))).
  assert (HL' : list_ok h' L).
  { split; [|apply HL]. intros q Hq. destruct (decide (q = r)) as [->|Hne]; [by eexists|].
    destruct (lo_regions _ _ HL q Hq) as [z Hz]. exists z. by apply (other_region_ok h h'); [| |apply Hother|]. }
  unfold mbind at 1, D_bind at 1. rewrite E2. destruct o2 as [s|].
  2: { exists None, h'. split_and!; [done|done|done|]. right. exists r, x. split_and!; [done|apply Hx|]. left. intros s Hs Hin.
       by pose proof (proj2 (Ho2 s) (conj Hs Hin)). }
  destruct (proj1 (Ho2 s) eq_refl) as [Hs Hin]. destruct (ro_sections _ _ _ Hx s Hs) as (y&Hy&Hpy).
  unfold mbind at 1, D_bind at 1, section_at. rewrite Hsec, Hy.
  destruct (bool_decide (ds_type y = TYPE_CODE) && negb (innermost target) && _) eqn:Eb.
  - exists None, h'. split_and!; [done|done|done|]. right. exists r, x. split_and!; [done|apply Hx|]. right. exists s, y.
    apply andb_true_iff in Eb as [[Et%bool_decide_eq_true_1 Ei%negb_true_iff]%andb_true_iff Ea].
    split_and!; [done..|]. split_and!; [done|done|by destruct arch].
  - assert (Ha : section_address h' s = Ok (add64 (dr_address x) (ds_offset y))).
    { rewrite (places_section_address _ _ Hp). unfold section_address, region_address. by rewrite Hy, Hpy, (ro_region _ _ _ Hx). }
    unfold mbind, D_bind, getHeap, lift. rewrite Ha. eexists _, h'. split_and!; [done|done|done|].
    exists r, x, s. split_and!; [done|apply Hx|done|done| | |by destruct isRelative|by destruct isRelative; eexists].
    { exists y. split; [done|]. intros (Ht&Hi&Hne). rewrite bool_decide_eq_true_2, Hi in Eb by done. by destruct arch. }
    destruct isRelative; cbn; rewrite Ha; cbn; rewrite add64_sub64 by done; unfold add64, wrap;
      by rewrite Z.add_0_r, Z.mod_small.
Qed.

(** ** The move of the regions of a module *)

(** A section, a region without its address map *)
Definition clear_section (x : DataSection) : DataSection := with_variables x (ChunkList.clearSpatial (ds_variables x)).
Definition clear_region (x : DataRegion) : DataRegion := with_sections x (ChunkList.clearSpatial (dr_sections x)).
Definition unmapped_section (h : DataHeap) (s : ptr) : Prop := forall x, d_sections h !! s = Some x -> spatial (ds_variables x) = None.
Definition unmapped_region (h : DataHeap) (r : ptr) : Prop := forall x, d_regions h !! r = Some x -> spatial (dr_sections x) = None.

(** Only address maps are cleared, and the regions [P] are at [base]. *)
Record moved (base : Z) (P : ptr -> Prop) (h h' : DataHeap) : Prop := {
  mv_sections : forall s, clear_section <$> d_sections h' !! s = clear_section <$> d_sections h !! s;
  mv_regions : forall r, (clear_region ∘ (fun x => with_address x 0)) <$> d_regions h' !! r =
    (clear_region ∘ (fun x => with_address x 0)) <$> d_regions h !! r;
  mv_variables : d_variables h' = d_variables h;
  mv_fresh : d_fresh h' = d_fresh h;
  mv_unmapped : d_regionMap h = None -> d_regionMap h' = None;
  mv_address : forall r x x', d_regions h !! r = Some x -> d_regions h' !! r = Some x' ->
    dr_address x' = dr_address x \/ (P r /\ dr_address x' = add64 base (dr_originalAddress x));
  mv_stay : forall r x x', d_regions h !! r = Some x -> d_regions h' !! r = Some x' ->
    dr_address x = add64 base (dr_originalAddress x) -> dr_address x' = add64 base (dr_originalAddress x);
  mv_unmapped_s : forall s, unmapped_section h s -> unmapped_section h' s;
  mv_unmapped_r : forall r, unmapped_region h r -> unmapped_region h' r }.

Section move.
Context (base : Z) (P : ptr -> Prop).
Lemma moved_refl h : moved base P h h.
Proof. split; try done; intros r x x' Hx Hx'; assert (x' = x) as -> by congruence; auto. Qed.
Lemma moved_region h h' r x : moved base P h h' -> d_regions h !! r = Some x ->
  exists x', d_regions h' !! r = Some x' /\ iterable (dr_sections x') = iterable (dr_sections x) /\ dr_originalAddress x' = dr_originalAddress x /\
    dr_size x' = dr_size x.
Proof.
  intros Hm Hx. pose proof (mv_regions _ _ _ _ Hm r) as E. rewrite Hx in E. destruct (d_regions h' !! r) as [x'|]; [|done].
  exists x'. cbn in E. unfold clear_region, with_sections, with_address in E. injection E as E1 E2 E3 E4 E5 E6 E7. by split_and!.
Qed.
Lemma moved_section h h' s x : moved base P h h' -> d_sections h !! s = Some x ->
  exists x', d_sections h' !! s = Some x' /\ clear_section x' = clear_section x.
Proof.
  intros Hm Hx. pose proof (mv_sections _ _ _ _ Hm s) as E. rewrite Hx in E. destruct (d_sections h' !! s) as [x'|]; [|done].
  exists x'. split; [done|]. exact (inj Some _ _ E).
Qed.
Lemma moved_trans h1 h2 h3 : moved base P h1 h2 -> moved base P h2 h3 -> moved base P h1 h3.
Proof.
  intros A B. split.
  - intros s. by rewrite (mv_sections _ _ _ _ B), (mv_sections _ _ _ _ A).
  - intros r. by rewrite (mv_regions _ _ _ _ B), (mv_regions _ _ _ _ A).
  - by rewrite (mv_variables _ _ _ _ B), (mv_variables _ _ _ _ A).
  - by rewrite (mv_fresh _ _ _ _ B), (mv_fresh _ _ _ _ A).
  - intros Hn. by apply (mv_unmapped _ _ _ _ B), (mv_unmapped _ _ _ _ A).
  - intros r x x3 Hx Hx3. destruct (moved_region _ _ _ _ A Hx) as (x2&Hx2&_&Eo&_).
    destruct (mv_address _ _ _ _ A r x x2 Hx Hx2) as [E|E], (mv_address _ _ _ _ B r x2 x3 Hx2 Hx3) as [E'|E'].
    + left. congruence.
    + right. by rewrite <- Eo.
    + right. split; [apply E|]. by rewrite E', (proj2 E).
    + right. by rewrite <- Eo.
  - intros r x x3 Hx Hx3 Ha. destruct (moved_region _ _ _ _ A Hx) as (x2&Hx2&_&Eo&_). rewrite <- Eo.
    apply (mv_stay _ _ _ _ B r x2 x3 Hx2 Hx3). rewrite Eo. by apply (mv_stay _ _ _ _ A r x x2).
  - intros s Hs. by apply (mv_unmapped_s _ _ _ _ B), (mv_unmapped_s _ _ _ _ A).
  - intros r Hr. by apply (mv_unmapped_r _ _ _ _ B), (mv_unmapped_r _ _ _ _ A).
Qed.

Lemma visit_section_spec h s x : d_sections h !! s = Some x ->
  exists h', ClearSpatialPass.visit_DataSection s h = Ok (tt, h') /\ moved base P h h' /\ unmapped_section h' s.
Proof.
  intros Hx. unfold ClearSpatialPass.visit_DataSection, mbind, D_bind, section_at, put_section. rewrite Hx. fold (clear_section x).
  eexists. split; [done|]. split.
  - split; try done.
    + intros t. cbn. destruct (decide (s = t)) as [<-|]; [by rewrite lookup_insert_eq, Hx|by rewrite lookup_insert_ne].
    + intros r y y' Hy Hy'. left. cbn in Hy'. congruence.
    + intros r y y' Hy Hy'. cbn in Hy'. congruence.
    + intros t Ht y. cbn. destruct (decide (s = t)) as [<-|]; [rewrite lookup_insert_eq; by intros [= <-]|].
      rewrite lookup_insert_ne by done. apply Ht.
  - intros y. cbn. rewrite lookup_insert_eq. by intros [= <-].
Qed.

(** A loop whose steps are moves *)
Lemma for_all_spec l (f : ptr -> D unit) (Q : DataHeap -> ptr -> Prop) h0 : (forall h h' c, moved base P h h' -> Q h c -> Q h' c) ->
  (forall h c, c ∈ l -> moved base P h0 h -> exists h', f c h = Ok (tt, h') /\ moved base P h h' /\ Q h' c) ->
  forall h, moved base P h0 h -> exists h', ClearSpatialPass.for_all l f h = Ok (tt, h') /\ moved base P h h' /\ forall c, c ∈ l -> Q h' c.
Proof.
  intros HQ Hf. induction l as [|c l IH]; intros h H0; cbn [ClearSpatialPass.for_all].
  { exists h. split_and!; [done|apply moved_refl|]. by intros c ?%elem_of_nil. }
  destruct (Hf h c ltac:(left) H0) as (h1&E1&M1&Q1). unfold mbind, D_bind. rewrite E1.
  destruct IH with (h := h1) as (h2&E2&M2&Q2); [intros h' d Hd; apply Hf; by right|by eapply moved_trans|].
  exists h2. split_and!; [exact E2|by eapply moved_trans|]. intros d [->|Hd]%elem_of_cons; [by eapply HQ|by apply Q2].
Qed.

(** A region whose maps and whose sections' maps are cleared *)
Definition cleared (h : DataHeap) (r : ptr) : Prop :=
  unmapped_region h r /\ forall x s, d_regions h !! r = Some x -> s ∈ iterable (dr_sections x) -> unmapped_section h s.
Lemma moved_back h h' r x' : moved base P h h' -> d_regions h' !! r = Some x' ->
  exists x, d_regions h !! r = Some x /\ iterable (dr_sections x') = iterable (dr_sections x) /\ dr_originalAddress x' = dr_originalAddress x.
Proof.
  intros Hm Hx. pose proof (mv_regions _ _ _ _ Hm r) as E. rewrite Hx in E. destruct (d_regions h !! r) as [x|]; [|done].
  exists x. cbn in E. unfold clear_region, with_sections, with_address in E. injection E as E1 E2 E3 E4 E5 E6 E7. by split_and!.
Qed.
Lemma cleared_moved h h' r : moved base P h h' -> cleared h r -> cleared h' r.
Proof.
  intros Hm [H1 H2]. split; [by apply (mv_unmapped_r _ _ _ _ Hm)|]. intros x' s Hx' Hs. apply (mv_unmapped_s _ _ _ _ Hm).
  destruct (moved_back _ _ _ _ Hm Hx') as (x&Hx&E&_). apply (H2 x); [done|by rewrite <- E].
Qed.
(** Every section of the region exists. *)
Definition whole (h : DataHeap) (r : ptr) : Prop :=
  exists x, d_regions h !! r = Some x /\ forall s, s ∈ iterable (dr_sections x) -> is_Some (d_sections h !! s).
Lemma whole_moved h h' r : moved base P h h' -> whole h r -> whole h' r.
Proof.
  intros Hm (x&Hx&Hs). destruct (moved_region _ _ _ _ Hm Hx) as (x'&Hx'&E&_). exists x'. split; [done|]. rewrite E. intros s Hin.
  destruct (Hs s Hin) as [y Hy]. destruct (moved_section _ _ _ _ Hm Hy) as (y'&Hy'&_). by eexists.
Qed.
Lemma visit_region_spec h r : whole h r ->
  exists h', ClearSpatialPass.visit_DataRegion r h = Ok (tt, h') /\ moved base P h h' /\ cleared h' r.
Proof.
  intros (x&Hx&Hs). unfold ClearSpatialPass.visit_DataRegion, mbind, D_bind, region_at, put_region. rewrite Hx. fold (clear_region x).
  set (h1 := mkDataHeap _ _ _ _ _).
  assert (M1 : moved base P h h1).
  { split; try done.
    - intros q. cbn. destruct (decide (r = q)) as [<-|]; [by rewrite lookup_insert_eq, Hx|by rewrite lookup_insert_ne].
    - intros q y y' Hy Hy'. left. cbn in Hy'. destruct (decide (r = q)) as [<-|].
      + rewrite lookup_insert_eq in Hy'. injection Hy' as <-. by assert (y = x) as -> by congruence.
      + rewrite lookup_insert_ne in Hy' by done. congruence.
    - intros q y y' Hy Hy' Ha. cbn in Hy'. destruct (decide (r = q)) as [<-|].
      + rewrite lookup_insert_eq in Hy'. injection Hy' as <-. by assert (y = x) as -> by congruence.
      + rewrite lookup_insert_ne in Hy' by done. congruence.
    - intros q Hq y. cbn. destruct (decide (r = q)) as [<-|]; [rewrite lookup_insert_eq; by intros [= <-]|].
      rewrite lookup_insert_ne by done. apply Hq. }
  destruct (for_all_spec (iterable (dr_sections x)) ClearSpatialPass.visit_DataSection unmapped_section h1) with (h := h1) as (h2&E2&M2&Q2).
  - intros h' h'' c Hm. apply (mv_unmapped_s _ _ _ _ Hm).
  - intros h' s Hin Hm. destruct (Hs s Hin) as [y Hy]. destruct (moved_section h1 h' s y Hm Hy) as (y'&Hy'&_).
    by eapply visit_section_spec.
  - apply moved_refl.
  - exists h2. split_and!; [exact E2|by eapply moved_trans|]. split.
    + apply (mv_unmapped_r _ _ _ _ M2). intros y. cbn. rewrite lookup_insert_eq. by intros [= <-].
    + intros y s Hy Hin. apply Q2. destruct (moved_back _ _ _ _ M2 Hy) as (z&Hz&E&_). cbn in Hz. rewrite lookup_insert_eq in Hz.
      injection Hz as <-. by rewrite E in Hin.
Qed.
Lemma visit_list_spec h L : (forall r, r ∈ regions L -> whole h r) ->
  exists h', ClearSpatialPass.visit_DataRegionList L h = Ok (tt, h') /\ moved base P h h' /\ d_regionMap h' = None /\
    forall r, r ∈ regions L -> cleared h' r.
Proof.
  intros HL. unfold ClearSpatialPass.visit_DataRegionList, ClearSpatialPass.clear_regionMap. set (h1 := mkDataHeap (d_regions h) (d_sections h) (d_variables h) (d_fresh h) None).
  assert (M1 : moved base P h h1).
  { split; try done; intros r x x' Hx Hx'; assert (x' = x) as -> by (cbn in Hx'; congruence); auto. }
  destruct (for_all_spec (regions L) ClearSpatialPass.visit_DataRegion cleared h1) with (h := h1) as (h2&E2&M2&Q2).
  - intros h' h'' c Hm. by apply cleared_moved.
  - intros h' r Hr Hm. apply visit_region_spec. eapply whole_moved; [exact Hm|]. eapply whole_moved; [exact M1|by apply HL].
  - apply moved_refl.
  - exists h2. split_and!; [exact E2|by eapply moved_trans|by apply (mv_unmapped _ _ _ _ M2)|exact Q2].
Qed.
Lemma updateAddressFor_spec h r x : P r -> d_regions h !! r = Some x ->
  exists h', DataRegion.updateAddressFor r base h = Ok (tt, h') /\ moved base P h h' /\
    exists x', d_regions h' !! r = Some x' /\ dr_address x' = add64 base (dr_originalAddress x).
Proof.
  intros HP Hx. unfold DataRegion.updateAddressFor, mbind, D_bind, region_at, put_region. rewrite Hx. eexists. split; [done|]. split.
  - split; try done.
    + intros q. cbn. destruct (decide (r = q)) as [<-|]; [by rewrite lookup_insert_eq, Hx|by rewrite lookup_insert_ne].
    + intros q y y' Hy Hy'. cbn in Hy'. destruct (decide (r = q)) as [<-|].
      * rewrite lookup_insert_eq in Hy'. injection Hy' as <-. right. by assert (y = x) as -> by congruence.
      * rewrite lookup_insert_ne in Hy' by done. left. congruence.
    + intros q y y' Hy Hy' Ha. cbn in Hy'. destruct (decide (r = q)) as [<-|].
      * rewrite lookup_insert_eq in Hy'. injection Hy' as <-. by assert (y = x) as -> by congruence.
      * rewrite lookup_insert_ne in Hy' by done. congruence.
    + intros q Hq y. cbn. destruct (decide (r = q)) as [<-|]; [rewrite lookup_insert_eq; intros [= <-]; exact (Hq x Hx)|].
      rewrite lookup_insert_ne by done. apply Hq.
  - eexists. cbn. rewrite lookup_insert_eq. by split.
Qed.
End move.

(** *** Addresses after a move *)

(** An address in a region that was at [A] and is at [B] *)
Definition shift (A B a : Z) : Z := add64 (sub64 a A) B.
Lemma shift_wrap A B a : shift A B a = wrap 64 (a - A + B).
Proof. unfold shift, add64, sub64, wrap. by rewrite Zplus_mod_idemp_l. Qed.
Lemma shift_add A B a o : add64 (shift A B a) o = shift A B (add64 a o).
Proof.
  rewrite !shift_wrap. unfold add64, wrap. rewrite Zplus_mod_idemp_l.
  replace ((a + o) mod 2 ^ 64 - A + B) with ((a + o) mod 2 ^ 64 + (B - A)) by lia. rewrite Zplus_mod_idemp_l. f_equal. lia.
Qed.
Lemma shift_base A B o : add64 B o = shift A B (add64 A o).
Proof.
  rewrite shift_wrap. unfold add64, wrap. replace ((A + o) mod 2 ^ 64 - A + B) with ((A + o) mod 2 ^ 64 + (B - A)) by lia.
  rewrite Zplus_mod_idemp_l. f_equal. lia.
Qed.
Lemma shift_inj A B a b : is_u64 a -> is_u64 b -> shift A B a = shift A B b -> a = b.
Proof.
  intros Ha Hb E.
  assert (H : forall c, is_u64 c -> add64 (shift A B c) (A - B) = c).
  { intros c Hc. rewrite shift_wrap. unfold add64, wrap. rewrite Zplus_mod_idemp_l.
    replace (c - A + B + (A - B)) with c by lia. by apply Z.mod_small. }
  by rewrite <- (H a Ha), <- (H b Hb), E.
Qed.
Lemma add64_u64 a b : is_u64 (add64 a b).
Proof. unfold is_u, add64, wrap. apply Z.mod_pos_bound. lia. Qed.

Section moved_addresses.
Context (base : Z) (P : ptr -> Prop) (h h' : DataHeap) (Hm : moved base P h h').
Context (r : ptr) (x x' : DataRegion) (Hx : d_regions h !! r = Some x) (Hx' : d_regions h' !! r = Some x').

Lemma moved_section_address s y : d_sections h !! s = Some y -> ds_parent y = Some r -> exists a, section_address h s = Ok a /\
  is_u64 a /\ section_address h' s = Ok (shift (dr_address x) (dr_address x') a).
Proof.
  intros Hy Hp. destruct (moved_section _ _ h h' s y Hm Hy) as (y'&Hy'&Ey). unfold section_address, region_address.
  rewrite Hy, Hy', Hp. unfold clear_section, with_variables in Ey. injection Ey as E1 E2 E3 E4 E5 E6 E7 E8 E9 E10 E11.
  rewrite E8, Hp, Hx, Hx', E7. cbn [mbind res_bind].
  exists (add64 (dr_address x) (ds_offset y)). split_and!; [done|apply add64_u64|]. by rewrite <- shift_base.
Qed.
Lemma moved_variable_address s y v z : d_sections h !! s = Some y -> ds_parent y = Some r -> d_variables h !! v = Some z -> dv_parent z = Some s ->
  exists a, variable_address h v = Ok a /\ is_u64 a /\ variable_address h' v = Ok (shift (dr_address x) (dr_address x') a).
Proof.
  intros Hy Hp Hz Hpz. destruct (moved_section_address s y Hy Hp) as (a&Ea&_&Ea'). unfold variable_address.
  rewrite (mv_variables _ _ _ _ Hm), Hz, Hpz, Ea, Ea'. cbn. eexists. split_and!; [done|apply add64_u64|]. by rewrite shift_add.
Qed.
Lemma moved_section_ok s y : section_ok h s y -> ds_parent y = Some r -> unmapped_section h' s ->
  exists y', section_ok h' s y' /\ iterable (ds_variables y') = iterable (ds_variables y).
Proof.
  intros Hok Hp Hu. destruct (moved_section _ _ h h' s y Hm (so_section _ _ _ Hok)) as (y'&Hy'&Ey).
  unfold clear_section, with_variables in Ey. injection Ey as E1 E2 E3 E4 E5 E6 E7 E8 E9 E10 E11 E12.
  assert (Hv : forall v, v ∈ iterable (ds_variables y) -> exists a, variable_address h v = Ok a /\ is_u64 a /\
    variable_address h' v = Ok (shift (dr_address x) (dr_address x') a)).
  { intros v Hin. destruct (so_variables _ _ _ Hok v Hin) as (z&Hz&Hpz). by eapply moved_variable_address; [apply Hok| | |]. }
  exists y'. split; [|exact E11]. split.
  - done.
  - exists r. rewrite E8. split; [done|]. by eexists.
  - intros v Hin. rewrite (mv_variables _ _ _ _ Hm). apply (so_variables _ _ _ Hok). by rewrite <- E11.
  - rewrite E11. split.
    + intros v Hin. destruct (Hv v Hin) as (a&_&_&Ha). by eexists.
    + intros v w a Hin Hin'. cbn. destruct (Hv v Hin) as (b&Hb&Hb64&->), (Hv w Hin') as (c&Hc&Hc64&->). intros [= Eb] [= Ec].
      apply (ad_inj _ _ (so_addressed _ _ _ Hok) v w b); [done|done|done|]. cbn. rewrite Hc. f_equal.
      apply (shift_inj (dr_address x) (dr_address x')); [done|done|congruence].
  - by rewrite (Hu y' Hy').
  - intros v. rewrite (mv_variables _ _ _ _ Hm), (mv_fresh _ _ _ _ Hm). apply (so_fresh _ _ _ Hok).
Qed.
Lemma moved_region_ok : region_ok h r x -> unmapped_region h' r -> region_ok h' r x'.
Proof.
  intros Hok Hu. destruct (moved_region _ _ h h' r x Hm Hx) as (x2&Hx2&Ei&_). assert (x2 = x') as -> by congruence.
  assert (Hs : forall s, s ∈ iterable (dr_sections x) -> exists a, section_address h s = Ok a /\ is_u64 a /\
    section_address h' s = Ok (shift (dr_address x) (dr_address x') a)).
  { intros s Hin. destruct (ro_sections _ _ _ Hok s Hin) as (y&Hy&Hp). by eapply moved_section_address. }
  split.
  - done.
  - rewrite Ei. intros s Hin. destruct (ro_sections _ _ _ Hok s Hin) as (y&Hy&Hp).
    destruct (moved_section _ _ h h' s y Hm Hy) as (y'&Hy'&Ey). exists y'. split; [done|].
    unfold clear_section, with_variables in Ey. injection Ey. congruence.
  - rewrite Ei. split.
    + intros s Hin. destruct (Hs s Hin) as (a&_&_&Ha). by eexists.
    + intros s t a Hin Hin'. cbn. destruct (Hs s Hin) as (b&Hb&Hb64&->), (Hs t Hin') as (c&Hc&Hc64&->). intros [= Eb] [= Ec].
      apply (ad_inj _ _ (ro_addressed _ _ _ Hok) s t b); [done|done|done|]. cbn. rewrite Hc. f_equal.
      apply (shift_inj (dr_address x) (dr_address x')); [done|done|congruence].
  - by rewrite (Hu x' Hx').
Qed.
End moved_addresses.

(** C22: [setBaseAddresses] moves the regions of a module: it returns, with every region at the
    base address plus its original address.  Sections and variables follow their region, and so
    does the target of a link to data; the lists stay consistent, so that lookups go by the new
    addresses. *)
Theorem regions_move base L h : list_ok h L ->
  exists h', setBaseAddresses L base h = Ok (tt, h') /\ list_ok h' L /\ (regions L <> [] -> d_regionMap h' = None) /\
    forall r x, r ∈ regions L -> d_regions h !! r = Some x ->
      let B := add64 base (dr_originalAddress x) in
      (exists x', d_regions h' !! r = Some x' /\ dr_address x' = B /\ iterable (dr_sections x') = iterable (dr_sections x)) /\
      forall s y, s ∈ iterable (dr_sections x) -> section_ok h s y ->
        (exists y', section_ok h' s y' /\ iterable (ds_variables y') = iterable (ds_variables y)) /\
        (forall v, v ∈ iterable (ds_variables y) -> exists a, variable_address h v = Ok a /\
           variable_address h' v = Ok (shift (dr_address x) B a)) /\
        forall n scope, exists a, link_address h (Link.DataOffsetLink (Some s) n 0 scope) = Ok a /\
          link_address h' (Link.DataOffsetLink (Some s) n 0 scope) = Ok (shift (dr_address x) B a).
Proof.
  intros HL. set (P := fun r => r ∈ regions L). unfold setBaseAddresses.
  assert (Hwhole : forall r, r ∈ regions L -> whole h r).
  { intros r Hr. destruct (lo_regions _ _ HL r Hr) as [x Hx]. exists x. split; [apply Hx|]. intros s Hs.
    destruct (ro_sections _ _ _ Hx s Hs) as (y&Hy&_). by eexists. }
  set (Q := fun h r => (exists x, d_regions h !! r = Some x /\ dr_address x = add64 base (dr_originalAddress x)) /\
    (forall q, q ∈ regions L -> cleared h q) /\ d_regionMap h = None).
  destruct (for_all_spec base P (regions L) (fun r => DataRegion.updateAddressFor r base;; ClearSpatialPass.visit_DataRegionList L) Q h)
    with (h := h) as (h'&E&Hm&HQ).
  - intros h1 h2 r Hm ((x&Hx&Ha)&Hc&Hn). destruct (moved_region _ _ h1 h2 r x Hm Hx) as (x2&Hx2&_&Eo&_). split_and!.
    + exists x2. split; [done|]. rewrite Eo. by apply (mv_stay _ _ _ _ Hm r x x2).
    + intros q Hq. by eapply cleared_moved, Hc.
    + by apply (mv_unmapped _ _ _ _ Hm).
  - intros h1 r Hr Hm. destruct (whole_moved _ _ h h1 r Hm (Hwhole r Hr)) as (x&Hx&_).
    destruct (updateAddressFor_spec base P h1 r x Hr Hx) as (h2&E2&M2&x2&Hx2&Ha2).
    destruct (visit_list_spec base P h2 L) as (h3&E3&M3&N3&C3).
    { intros q Hq. eapply whole_moved; [exact M2|]. eapply whole_moved; [exact Hm|]. by apply Hwhole. }
    exists h3. split_and!; [unfold mbind, D_bind; by rewrite E2|by eapply moved_trans|]. split; [|by split].
    destruct (moved_region _ _ h1 h2 r x M2 Hx) as (x2'&Hx2'&_&Eo&_). assert (x2' = x2) as -> by congruence.
    destruct (moved_region _ _ h2 h3 r x2 M3 Hx2) as (x3&Hx3&_&Eo3&_). exists x3. split; [done|]. rewrite Eo3.
    apply (mv_stay _ _ _ _ M3 r x2 x3 Hx2 Hx3). congruence.
  - apply moved_refl.
  - exists h'. split; [exact E|].
    assert (Hr : forall r x, r ∈ regions L -> d_regions h !! r = Some x -> exists x', d_regions h' !! r = Some x' /\
      dr_address x' = add64 base (dr_originalAddress x) /\ iterable (dr_sections x') = iterable (dr_sections x)).
    { intros r x Hr Hx. destruct (moved_region _ _ h h' r x Hm Hx) as (x'&Hx'&Ei&Eo&_). exists x'. split_and!; [done| |done].
      destruct (HQ r Hr) as [(x2&Hx2&Ha) _]. congruence. }
    split_and!.
    + split; [|apply HL]. intros r Hin. destruct (lo_regions _ _ HL r Hin) as [x Hx].
      destruct (Hr r x Hin (ro_region _ _ _ Hx)) as (x'&Hx'&_). exists x'.
      eapply moved_region_ok; [exact Hm|apply Hx|done|done|]. by apply (proj1 (proj2 (HQ r Hin))).
    + intros Hne. destruct (regions L) as [|r l]; [done|]. apply (HQ r), list_elem_of_here.
    + intros r x Hin Hx. destruct (Hr r x Hin Hx) as (x'&Hx'&Ha&Ei). split; [by exists x'|]. intros s y Hs Hok.
      destruct (lo_regions _ _ HL r Hin) as [x0 Hx0]. assert (x0 = x) as -> by (pose proof (ro_region _ _ _ Hx0); congruence).
      destruct (ro_sections _ _ _ Hx0 s Hs) as (y0&Hy0&Hp). assert (y0 = y) as -> by (pose proof (so_section _ _ _ Hok); congruence).
      rewrite <- Ha. split_and!.
      * eapply moved_section_ok; [exact Hm|done..|]. apply (proj2 (proj1 (proj2 (HQ r Hin)) r Hin) x'); [done|by rewrite Ei].
      * intros v Hv. destruct (so_variables _ _ _ Hok v Hv) as (z&Hz&Hpz).
        destruct (moved_variable_address _ _ h h' Hm r x x' Hx Hx' s y v z Hy0 Hp Hz Hpz) as (a&E1&_&E2). by exists a.
      * intros n scope. destruct (moved_section_address _ _ h h' Hm r x x' Hx Hx' s y Hy0 Hp) as (a&E1&_&E2). cbn.
        rewrite E1, E2. cbn. eexists. split; [done|]. by rewrite !shift_add.
Qed.

(** C24: [DataVariable::create] at an address of a section.  If a variable is there it is returned
    and the section keeps its variables.  Otherwise, if the section holds the address, a new
    variable with the given link and symbol is appended, it is at the address, and a lookup finds it;
    no other variable moves.  If it does not, the assertion of the constructor fails. *)
Theorem create_variable_correct h s x g a dest symbol : section_ok h s x -> is_u64 a -> section_range h s = Ok g ->
  match DataVariable.create s a dest symbol h with
  | Ok (v, h') => variable_address h' v = Ok a /\ exists x', section_ok h' s x' /\
      ((v ∈ iterable (ds_variables x) /\ variable_address h v = Ok a /\ iterable (ds_variables x') = iterable (ds_variables x) /\
          d_variables h' = d_variables h) \/
       (Range.contains_point g a = true /\ (forall w, w ∈ iterable (ds_variables x) -> variable_address h w <> Ok a) /\
          iterable (ds_variables x') = iterable (ds_variables x) ++ [v] /\
          (exists offset, d_variables h' = <[v := made dest symbol offset s]> (d_variables h)) /\
          (forall w, w <> v -> variable_address h' w = variable_address h w) /\
          exists h'', DataSection.findVariable s a h' = Ok (Some v, h'')))
  | Err e => e = AssertFail /\ Range.contains_point g a = false /\
      forall w, w ∈ iterable (ds_variables x) -> variable_address h w <> Ok a
  end.
Proof.
  intros Hok Ha Hg. destruct (findVariable_spec h s x a Hok) as (o&_&_&_&_&_&_&_&Ho). destruct o as [v|].
  - destruct (proj1 (Ho v) eq_refl) as [Hv Hva]. destruct (create_existing h s x v a dest symbol Hok Hv Hva) as (x'&h'&E&Hok'&Hp&Hi).
    rewrite E. split; [by rewrite (places_variable_address _ _ Hp)|]. exists x'. split; [done|]. left. split_and!; [done..|].
    apply (pl_variable _ _ Hp).
  - assert (Hnone : forall v, ~ (v ∈ iterable (ds_variables x) /\ variable_address h v = Ok a)) by (intros v Hv; by apply Ho in Hv).
    pose proof (create_spec h s x g a dest symbol Hok Ha Hg Hnone) as H. destruct (Range.contains_point g a) eqn:Ec.
    + destruct H as (x'&h'&base&E&Hok'&_&Hd&Hi&Hnew&Hold). rewrite E. split; [done|]. exists x'. split; [done|]. right. split_and!.
      * done.
      * intros w Hw E'. by apply (Hnone w).
      * done.
      * by eexists.
      * done.
      * destruct (findVariable_spec h' s x' a Hok') as (o&x2&h2&E2&_&_&_&_&Ho2).
        rewrite (proj2 (Ho2 (d_fresh h))) in E2 by (split; [rewrite Hi; set_solver|done]). by eexists.
    + rewrite H. split_and!; [done..|]. intros w Hw E'. by apply (Hnone w).
Qed.

(** ** Examples *)
Module DataRegionExamples.
Definition blank : DataHeap := mkDataHeap ∅ ∅ ∅ 1 None.
(** A segment of 32 bytes, 16 of them in the file, with code and data, and a thread-local one *)
Definition image : res (DataRegionList * DataHeap) :=
  DataRegionList.buildDataRegionList (replicate 32 7)
    [DataRegion.mkPhdr 6 4 0 64 8 8 8; DataRegion.mkPhdr DataRegionList.PT_LOAD 6 0 4096 16 32 4096;
     DataRegion.mkPhdr DataRegionList.PT_TLS 4 8 4104 4 8 8]
    [DataSection.mkShdr ".text" DataSection.SHT_PROGBITS 6 4096 8 8; DataSection.mkShdr ".comment" DataSection.SHT_PROGBITS 0 0 8 8;
     DataSection.mkShdr ".data" DataSection.SHT_PROGBITS 3 4108 20 8; DataSection.mkShdr ".tdata" DataSection.SHT_PROGBITS 1026 4104 4 8] blank.
Definition L : DataRegionList := Eval vm_compute in match image with Ok (L, _) => L | Err _ => DataRegionList.empty end.
Definition built : DataHeap := Eval vm_compute in match image with Ok (_, h) => h | Err _ => blank end.
Example image_built : image = Ok (L, built) /\ regions L = [1; 2] /\ tls L = Some 2 /\
  ((fun x => (iterable (dr_sections x), dr_address x)) <$> d_regions built !! 1) = Some ([3; 4], 4096) /\
  ((fun x => (ds_name x, ds_type x, ds_offset x)) <$> d_sections built !! 5) = Some (".tdata"%string, TYPE_DATA, 0).
Proof. by vm_compute. Qed.

Ltac members H := repeat (apply elem_of_cons in H as [->|H]); [..|by apply elem_of_nil in H].
Lemma image_ok : list_ok built L.
Proof.
  split; [|by intros t [= <-]; set_solver]. intros r Hr. unfold L in Hr. cbn [regions] in Hr. members Hr.
  - eexists. split; [reflexivity| | |exact I].
    + intros s Hs. cbn in Hs. members Hs; by eexists.
    + split; [intros s Hs; cbn in Hs; members Hs; by eexists|]. intros s t a Hs Ht. cbn in Hs, Ht.
      members Hs; members Ht; try done; vm_compute; congruence.
  - eexists. split; [reflexivity| | |exact I].
    + intros s Hs. cbn in Hs. members Hs; by eexists.
    + split; [intros s Hs; cbn in Hs; members Hs; by eexists|]. intros s t a Hs Ht. cbn in Hs, Ht.
      members Hs; members Ht; try done.
Qed.
Lemma built_ranges r x : r ∈ regions L -> d_regions built !! r = Some x -> ranges_ok (sections_view built) (iterable (dr_sections x)).
Proof.
  intros Hr Hx. unfold L in Hr. cbn [regions] in Hr. members Hr; injection Hx as <-; (split;
    [intros s Hs; cbn in Hs; members Hs; eexists; (split; [reflexivity|]); by vm_compute
    |intros s t g g' p Hs Ht; cbn in Hs, Ht; members Hs; members Ht; try done; intros Eg Eg'; vm_compute in Eg, Eg'; injection Eg as <-; injection Eg' as <-; unfold Range.covers; cbn; lia]).
Qed.

(** A link to data in a module, and none into code that is no function *)
Lemma data_link_correct_witness :
  (fst <$> DataRegionList.createDataLink ControlFlow.ARCH_AARCH64 (fun _ => false) L 4110 true built) =
    Ok (Some (Link.DataOffsetLink (Some 4) 2 0 Link.LinkScope.SCOPE_WITHIN_MODULE)) /\
  (fst <$> DataRegionList.createDataLink ControlFlow.ARCH_AARCH64 (fun _ => false) L 4097 true built) = Ok None /\
  (fst <$> DataRegionList.createDataLink ControlFlow.ARCH_X86_64 (fun _ => false) L 4097 false built) =
    Ok (Some (Link.AbsoluteDataLink (Some 3) 1 0 Link.LinkScope.SCOPE_WITHIN_MODULE)) /\
  exists k h', DataRegionList.createDataLink ControlFlow.ARCH_AARCH64 (fun _ => false) L 4110 true built = Ok (Some k, h') /\
    link_address h' k = Ok 4110 /\ list_ok h' L.
Proof.
  split_and!; [by vm_compute..|].
  destruct (data_link_correct ControlFlow.ARCH_AARCH64 (fun _ => false) L 4110 true built image_ok) as (o&h'&E&_&HL&Ho).
  - by vm_compute.
  - exact built_ranges.
  - destruct o as [k|]; [|exfalso].
    + exists k, h'. split_and!; [done| |done]. by destruct Ho as (r&x&s&_&_&_&_&_&Ha&_).
    + assert (E' : (fst <$> DataRegionList.createDataLink ControlFlow.ARCH_AARCH64 (fun _ => false) L 4110 true built) <> Ok None) by by vm_compute.
      by rewrite E in E'.
Defined.

Lemma data_section_ok : exists x, section_ok built 4 x /\ iterable (ds_variables x) = [].
Proof.
  eexists. split; [split; [reflexivity| | | |exact I|]|reflexivity].
  - exists 1. split; [done|]. by eexists.
  - by intros v ?%elem_of_nil.
  - split; [by intros v ?%elem_of_nil|by intros v w a ?%elem_of_nil].
  - by intros v [? ?].
Qed.
(** Two variables of a section; the first is found again, and 4128 is outside *)
Definition variables : D ptr :=
  v ← DataVariable.create 4 4112 None (Some (mkSymbol "counter" 8)); w ← DataVariable.create 4 4120 None None;
  again ← DataVariable.create 4 4112 None None; lift (cassert (bool_decide (again = v)));; mret w.
Lemma create_variable_correct_witness :
  (fst <$> variables built) = Ok 7 /\ (fst <$> DataVariable.create 4 4128 None None built) = Err AssertFail /\
  exists v h', DataVariable.create 4 4112 None None built = Ok (v, h') /\ variable_address h' v = Ok 4112.
Proof.
  split_and!; [by vm_compute..|]. destruct data_section_ok as (x&Hok&_).
  pose proof (create_variable_correct built 4 x (mkRange 4108 20) 4112 None None Hok ltac:(by vm_compute) eq_refl) as H.
  destruct (DataVariable.create 4 4112 None None built) as [[v h']|e] eqn:E.
  - exists v, h'. split; [done|]. apply H.
  - exfalso. by destruct H as (_&?&_).
Defined.

Lemma data_region : exists x, d_regions built !! 1 = Some x /\ 4 ∈ iterable (dr_sections x) /\ dr_originalAddress x = 4096.
Proof. eexists. split; [reflexivity|]. split; [right; left|done]. Qed.
Lemma regions_move_witness :
  (variables built ≫= fun r => setBaseAddresses L 65536 r.2 ≫= fun r => (fst <$> DataSection.findVariable 4 69648 r.2)) = Ok (Some 6) /\
  exists h', setBaseAddresses L 65536 built = Ok (tt, h') /\ list_ok h' L /\ region_address h' 1 = Ok 69632 /\
    link_address h' (Link.DataOffsetLink (Some 4) 2 0 Link.LinkScope.SCOPE_WITHIN_MODULE) = Ok 69646.
Proof.
  split; [by vm_compute|]. destruct (regions_move 65536 L built image_ok) as (h'&E&HL&_&Hr). exists h'.
  destruct data_region as (x&Hx&H4&Ho). destruct (Hr 1 x (list_elem_of_here _ _) Hx) as [(x'&Hx'&Ha&_) Hs].
  split; [done|]. split; [done|]. split; [unfold region_address; by rewrite Hx', Ha, Ho|].
  destruct data_section_ok as (y&Hy&_). destruct (Hs 4 y H4 Hy) as (_&_&Hl).
  destruct (Hl 2 Link.LinkScope.SCOPE_WITHIN_MODULE) as (a&Ea&->). injection Ea as <-. rewrite Ho.
  assert (dr_address x = 4096) as -> by (injection Hx as <-; reflexivity). by vm_compute.
Defined.

(** When a region is moved and the maps are kept, as for a library that is added later, a variable
    that was found is no longer found at its address, and [create] makes a second one there. *)
Theorem stale_address_map :
  match (variables;; DataRegion.updateAddressFor 1 65536) built with
  | Ok (_, h) => variable_address h 6 = Ok 69648 /\ (fst <$> DataSection.findVariable 4 69648 h) = Ok None /\
      (fst <$> DataVariable.create 4 69648 None None h) = Ok 8
  | Err _ => False
  end.
Proof. vm_compute. split_and!; reflexivity. Qed.
End DataRegionExamples.
