(* ===== verification/Assembly.v ===== *)
(** * Registers and operands of x86-64: src/instr/register.{h,cpp}, assembly.{h,cpp}

    The numbers of registers and instructions are those of capstone's x86.h. *)

From S2P Require Import Prelude.

(** ** X86Register *)
Module X86Register.
Definition X86_REG_INVALID : Z := 0.
Definition X86_REG_AH : Z := 1.
Definition X86_REG_AL : Z := 2.
Definition X86_REG_AX : Z := 3.
Definition X86_REG_BH : Z := 4.
Definition X86_REG_CH : Z := 9.
Definition X86_REG_DH : Z := 13.
Definition X86_REG_EAX : Z := 19.
Definition X86_REG_RAX : Z := 35.
Definition X86_REG_RIP : Z := 41.
Definition X86_REG_RSP : Z := 44.

Definition INVALID : Z := -1.
Definition REGISTER_NUMBER : Z := 16.
Definition BP : Z := 5.
Definition SP : Z := 4.
Definition FLAGS : Z := REGISTER_NUMBER.

Definition mappings : list (list Z) :=
  [[0; X86_REG_AL; X86_REG_AX; X86_REG_EAX; X86_REG_RAX];
   [1; 10; 12; 22; 38]; [2; 16; 18; 24; 40]; [3; 5; 8; 21; 37];
   [4; 48; 47; 30; X86_REG_RSP]; [5; 7; 6; 20; 36]; [6; 46; 45; 29; 43]; [7; 15; 14; 23; 39];
   [8; 218; 234; 226; 106]; [9; 219; 235; 227; 107]; [10; 220; 236; 228; 108]; [11; 221; 237; 229; 109];
   [12; 222; 238; 230; 110]; [13; 223; 239; 231; 111]; [14; 224; 240; 232; 112]; [15; 225; 241; 233; 113]].
Definition cell (i j : nat) : option Z := row ← mappings !! i; row !! j.

(** A guess: the row at the distance of a register from the first one of its width. *)
Definition guess (id base : Z) (column : nat) : option Z :=
  let g := wrap 32 (id - base) in
  if g <? 16 then if bool_decide (cell (Z.to_nat g) column = Some id) then cell (Z.to_nat g) 0 else None else None.
(** The search through the table *)
Definition search (id : Z) : option Z :=
  match List.find (fun row => bool_decide (id ∈ drop 1 row)) mappings with Some row => row !! 0%nat | None => None end.
Definition convertToPhysicalINT (id : Z) : Z :=
  match guess id X86_REG_AL 1 with Some r => r | None =>
  match guess id X86_REG_AX 2 with Some r => r | None =>
  match guess id X86_REG_EAX 2 with Some r => r | None =>
  match guess id X86_REG_RAX 2 with Some r => r | None =>
  match search id with Some r => r | None =>
    if id =? X86_REG_AH then 0 else if id =? X86_REG_BH then 3 else if id =? X86_REG_CH then 1
    else if id =? X86_REG_DH then 2 else INVALID
  end end end end end.
Definition convertToPhysical (id : Z) : Z := convertToPhysicalINT id.
Definition isInteger (pid : Z) : bool := (0 <=? pid) && (pid <=? 15).
End X86Register.

(** ** AssemblyOperands, Assembly *)

(** Of a memory operand the registers are kept. *)
Inductive cs_x86_op := X86_OP_INVALID | X86_OP_REG (reg : Z) | X86_OP_IMM (imm : Z) | X86_OP_MEM (base index : Z).
Inductive OperandsMode :=
| MODE_UNKNOWN | MODE_NONE | MODE_REG | MODE_IMM | MODE_MEM | MODE_REG_REG | MODE_MEM_REG | MODE_IMM_REG | MODE_IMM_MEM
| MODE_REG_REG_REG | MODE_REG_IMM | MODE_REG_MEM | MODE_REG_REG_IMM | MODE_REG_REG_MEM | MODE_REG_MEM_IMM
| MODE_REG_REG_REG_REG | MODE_REG_REG_MEM_IMM | MODE_REG_REG_IMM_IMM.
#[export] Instance OperandsMode_eq_dec : EqDecision OperandsMode.
Proof. solve_decision. Defined.
Record AssemblyOperands := mkOperands { op_count : Z; operands : list cs_x86_op }.
Record Assembly := mkAssembly { asm_id : Z; asm_operands : AssemblyOperands }.

Definition X86_INS_INVALID : Z := 0.
Definition X86_INS_ADD : Z := 8.
Definition X86_INS_AND : Z := 25.
Definition X86_INS_CMP : Z := 95.
Definition X86_INS_LEA : Z := 322.
Definition X86_INS_SUB : Z := 333.
Definition X86_INS_XOR : Z := 334.
Definition X86_INS_MOV : Z := 449.
Definition X86_INS_MOVABS : Z := 450.
Definition X86_INS_MOVSXD : Z := 478.
Definition X86_INS_MOVZX : Z := 481.
Definition X86_INS_POP : Z := 566.
Definition X86_INS_PUSH : Z := 588.

(** [AssemblyOperands::overrideCapstone] *)
Definition overrideCapstone (id : Z) (o : AssemblyOperands) : AssemblyOperands :=
  if (id =? X86_INS_CMP) && (2 <? op_count o) then
    match operands o with _ :: b :: c :: rest => mkOperands 2 (b :: c :: c :: rest) | l => mkOperands 2 l end
  else o.
Definition getMode (o : AssemblyOperands) : OperandsMode :=
  if op_count o =? 1 then
    match operands o with
    | X86_OP_REG _ :: _ => MODE_REG | X86_OP_IMM _ :: _ => MODE_IMM | X86_OP_MEM _ _ :: _ => MODE_MEM | _ => MODE_UNKNOWN
    end
  else if op_count o =? 2 then
    match operands o with
    | X86_OP_REG _ :: X86_OP_REG _ :: _ => MODE_REG_REG
    | X86_OP_MEM _ _ :: X86_OP_REG _ :: _ => MODE_MEM_REG
    | X86_OP_IMM _ :: X86_OP_REG _ :: _ => MODE_IMM_REG
    | X86_OP_IMM _ :: X86_OP_MEM _ _ :: _ => MODE_IMM_MEM
    | X86_OP_REG _ :: X86_OP_MEM _ _ :: _ => MODE_REG_MEM
    | _ => MODE_UNKNOWN
    end
  else MODE_UNKNOWN.

(** *** Lemmas *)
Lemma convertToPhysical_range id : X86Register.convertToPhysical id = X86Register.INVALID \/ 0 <= X86Register.convertToPhysical id < 16.
Proof.
  assert (Hc : forall i r, X86Register.cell i 0 = Some r -> 0 <= r < 16).
  { intros i r. unfold X86Register.cell. do 16 (destruct i as [|i]; [intros [= <-]; lia|]). done. }
  assert (Hg : forall b c r, X86Register.guess id b c = Some r -> 0 <= r < 16).
  { intros b c r. unfold X86Register.guess. destruct (_ <? _); [|done]. destruct (bool_decide _); [apply Hc|done]. }
  unfold X86Register.convertToPhysical, X86Register.convertToPhysicalINT.
  do 4 (match goal with |- context [X86Register.guess id ?b ?c] => destruct (X86Register.guess id b c) eqn:E; [right; by eapply Hg|]; clear E end).
  destruct (X86Register.search id) as [r|] eqn:E.
  - right. unfold X86Register.search in E. destruct (List.find _ _) as [row|] eqn:F; [|done]. apply find_some in F as [F _].
    apply list_elem_of_In, list_elem_of_lookup in F as [i F]. apply (Hc i). unfold X86Register.cell. by rewrite F.
  - repeat case_match; unfold X86Register.INVALID; lia.
Qed.
(** The guesses only make the search shorter: they find what the search through the table finds. *)
Lemma guess_search id base c r : (1 <= c <= 4)%nat -> X86Register.guess id base c = Some r -> X86Register.search id = Some r.
Proof.
  intros Hc. unfold X86Register.guess. destruct (_ <? _) eqn:Hg; [|done]. destruct (bool_decide _) eqn:E; [|done]. apply bool_decide_eq_true in E.
  revert E. generalize (Z.to_nat (wrap 32 (id - base))). intros i E.
  assert (c = 1 \/ c = 2 \/ c = 3 \/ c = 4)%nat as Hcs by lia. clear Hc.
  do 16 (destruct i as [|i]; [destruct Hcs as [-> | [-> | [-> | ->]]]; unfold X86Register.cell in E; cbn in E; injection E as <-; vm_compute; by intros [= <-]|]).
  by unfold X86Register.cell in E.
Qed.
Lemma convertToPhysical_search id : X86Register.convertToPhysical id =
  match X86Register.search id with
  | Some r => r
  | None => if id =? X86Register.X86_REG_AH then 0 else if id =? X86Register.X86_REG_BH then 3
            else if id =? X86Register.X86_REG_CH then 1 else if id =? X86Register.X86_REG_DH then 2 else X86Register.INVALID
  end.
Proof.
  unfold X86Register.convertToPhysical, X86Register.convertToPhysicalINT.
  do 4 (match goal with |- context [X86Register.guess id ?b ?c] => destruct (X86Register.guess id b c) eqn:E;
    [by rewrite (guess_search id b c _ ltac:(lia) E)|]; clear E end). done.
Qed.
