(* ===== verification/ReachingDef.v ===== *)
(** * Dependencies in a basic block: src/analysis/reachingdef.{h,cpp}

    The analysis of x86-64 blocks finds for every instruction the earlier ones that it must
    follow, since one of the two writes a register (or the flags, or memory) that the other
    uses.  [visitInstructionGroups] then lets a callback choose an order. *)

From S2P Require Import Prelude ChunkList Assembly.

(** What the analysis asks of an instruction: its assembly, and its identifier when it is a
    [ControlFlowInstruction]. *)
Record InstrView := mkInstrView { iv_assembly : option Assembly; iv_cfi : option Z }.

Record ReachingDef := mkReachingDef {
  killMap : gmap ptr (gset ptr);
  currentWriteMap : gmap Z ptr;
  currentReadMap : gmap Z (gset ptr);
  dependencyClosure : bool }.
Definition new : ReachingDef := mkReachingDef ∅ ∅ ∅ false.
Definition MEMORY_REG : Z := X86Register.REGISTER_NUMBER + 1.

(** ** The monad *)
Definition R (A : Type) : Type := ReachingDef -> res (A * ReachingDef).
#[export] Instance R_ret : MRet R := fun A a s => Ok (a, s).
#[export] Instance R_bind : MBind R := fun A B f m s => match m s with Ok (a, s) => f a s | Err e => Err e end.
Definition lift {A} (r : res A) : R A := fun s => match r with Ok a => Ok (a, s) | Err e => Err e end.
(** [killMap[i]], [currentReadMap[r]] *)
Definition kills (k : gmap ptr (gset ptr)) (i : ptr) : gset ptr := default ∅ (k !! i).
Definition readers (m : gmap Z (gset ptr)) (r : Z) : gset ptr := default ∅ (m !! r).
Definition add_kills (i : ptr) (d : gset ptr) (k : gmap ptr (gset ptr)) : gmap ptr (gset ptr) := <[i := kills k i ∪ d]> k.

(** ** Reads and writes *)
Definition setRegRead (reg : Z) (instr : ptr) : R unit := fun s =>
  let k := match currentWriteMap s !! reg with
           | Some w => if bool_decide (w = instr) then killMap s else add_kills instr {[w]} (killMap s)
           | None => killMap s end in
  Ok (tt, mkReachingDef k (currentWriteMap s) (<[reg := readers (currentReadMap s) reg ∪ {[instr]}]> (currentReadMap s)) (dependencyClosure s)).
Definition setRegWrite (reg : Z) (instr : ptr) : R unit := fun s =>
  let k := match currentWriteMap s !! reg with Some w => add_kills instr {[w]} (killMap s) | None => killMap s end in
  let rs := readers (currentReadMap s) reg in
  let loop := bool_decide (instr ∈ rs) in
  let k := add_kills instr (rs ∖ {[instr]}) k in
  if bool_decide (instr ∈ kills k instr) then Err AssertFail
  else Ok (tt, mkReachingDef k (<[reg := instr]> (currentWriteMap s))
                 (<[reg := (if loop then {[instr]} else ∅)]> (currentReadMap s)) (dependencyClosure s)).
(** [setBarrier]; [previous] are the instructions before it in the block. *)
Definition setBarrier (previous : list ptr) (instr : ptr) : R unit := fun s =>
  if bool_decide (instr ∈ previous) then Err AssertFail
  else Ok (tt, mkReachingDef (add_kills instr (list_to_set previous) (killMap s))
                 (foldl (fun m r => <[Z.of_nat r := instr]> m) (currentWriteMap s) (seq 0 (Z.to_nat X86Register.REGISTER_NUMBER + 2)))
                 (currentReadMap s) (dependencyClosure s)).

Definition operand (assembly : Assembly) (index : nat) : res cs_x86_op :=
  match operands (asm_operands assembly) !! index with Some o => Ok o | None => Err Undefined end.
Definition physical (reg : Z) : res Z :=
  let p := X86Register.convertToPhysical reg in cassert (negb (p =? X86Register.INVALID));; Ok p.
Definition getReg (assembly : Assembly) (index : nat) : res Z :=
  o ← operand assembly index; match o with X86_OP_REG reg => physical reg | _ => Err Undefined end.
Definition handleMem (assembly : Assembly) (index : nat) (instr : ptr) : R unit :=
  o ← lift (operand assembly index);
  match o with
  | X86_OP_MEM base idx =>
    (if idx =? X86Register.X86_REG_INVALID then mret tt else p ← lift (physical idx); setRegRead p instr);;
    if (base =? X86Register.X86_REG_INVALID) || (base =? X86Register.X86_REG_RIP) then mret tt
    else p ← lift (physical base); setRegRead p instr
  | _ => lift (Err Undefined)
  end.
Definition setMemRead (instr : ptr) : R unit := setRegRead MEMORY_REG instr.
Definition setMemWrite (instr : ptr) : R unit := setRegWrite MEMORY_REG instr.

(** ** The handlers *)
Section handlers.
Context (previous : list ptr) (instr : ptr) (assembly : Assembly).
Let mode := getMode (asm_operands assembly).
Let read (index : nat) : R unit := r ← lift (getReg assembly index); setRegRead r instr.
Let write (index : nat) : R unit := r ← lift (getReg assembly index); setRegWrite r instr.
Let flags : R unit := setRegWrite X86Register.FLAGS instr.

Definition fillAddOrSub : R unit :=
  match mode with
  | MODE_IMM_REG => read 1;; write 1;; flags
  | MODE_REG_REG => read 0;; read 1;; write 1;; flags
  | MODE_MEM_REG => handleMem assembly 0 instr;; setMemRead instr;; read 1;; write 1;; flags
  | _ => setBarrier previous instr
  end.
Definition fillAnd : R unit :=
  match mode with MODE_IMM_REG => read 1;; write 1;; flags | _ => setBarrier previous instr end.
Definition fillBsf : R unit :=
  match mode with MODE_REG_REG => read 0;; write 1;; flags | _ => setBarrier previous instr end.
Definition fillBt : R unit :=
  match mode with
  | MODE_REG_REG => read 0;; read 1;; flags
  | MODE_MEM_REG => handleMem assembly 0 instr;; setMemRead instr;; read 1;; flags
  | _ => setBarrier previous instr
  end.
Definition fillCmp : R unit :=
  match mode with
  | MODE_REG_REG => read 0;; read 1;; flags
  | MODE_IMM_REG => read 1;; flags
  | MODE_IMM_MEM => handleMem assembly 1 instr;; setMemRead instr;; flags
  | _ => setBarrier previous instr
  end.
Definition fillLea : R unit :=
  match mode with MODE_MEM_REG => handleMem assembly 0 instr;; write 1 | _ => setBarrier previous instr end.
Definition fillMov : R unit :=
  match mode with
  | MODE_IMM_REG => write 1
  | MODE_REG_MEM => read 0;; handleMem assembly 1 instr;; setMemWrite instr
  | MODE_MEM_REG => handleMem assembly 0 instr;; setMemRead instr;; write 1
  | MODE_REG_REG => read 0;; write 1
  | _ => setBarrier previous instr
  end.
Definition fillMovabs : R unit :=
  match mode with MODE_IMM_REG => write 1 | _ => lift (Err AssertFail) end.
Definition fillMovsxd : R unit := fillMov.
Definition fillMovzx : R unit := fillMov.
Definition stack : R unit := setRegRead X86Register.SP instr;; setRegWrite X86Register.SP instr.
Definition fillPush : R unit :=
  match mode with
  | MODE_REG => read 0;; setMemWrite instr;; stack
  | MODE_MEM => handleMem assembly 0 instr;; setMemWrite instr;; stack
  | _ => setBarrier previous instr
  end.
Definition fillPop : R unit :=
  match mode with
  | MODE_REG => write 0;; setMemRead instr;; stack
  | MODE_MEM => handleMem assembly 0 instr;; setMemRead instr;; stack
  | _ => setBarrier previous instr
  end.
(** [handlers], by the identifier of an instruction *)
Definition handlers (id : Z) : option (R unit) :=
  if id =? X86_INS_AND then Some fillAnd else if id =? X86_INS_ADD then Some fillAddOrSub
  else if id =? X86_INS_CMP then Some fillCmp else if id =? X86_INS_LEA then Some fillLea
  else if id =? X86_INS_MOV then Some fillMov else if id =? X86_INS_MOVABS then Some fillMovabs
  else if id =? X86_INS_MOVSXD then Some fillMovsxd else if id =? X86_INS_MOVZX then Some fillMovzx
  else if id =? X86_INS_PUSH then Some fillPush else if id =? X86_INS_POP then Some fillPop
  else if id =? X86_INS_SUB then Some fillAddOrSub else if id =? X86_INS_XOR then Some fillAddOrSub
  else None.
End handlers.

(** ** analyze *)
Section block.
Context (view : ptr -> InstrView).
Definition handle (previous : list ptr) (instr : ptr) : R unit :=
  match iv_assembly (view instr) with
  | Some assembly => match handlers previous instr assembly (asm_id assembly) with Some f => f | None => setBarrier previous instr end
  | None =>
    let id := match iv_cfi (view instr) with Some id => id | None => X86_INS_INVALID end in
    (* a handler would dereference the null assembly *)
    match handlers previous instr (mkAssembly id (mkOperands 0 [])) id with Some _ => lift (Err NullDeref) | None => setBarrier previous instr end
  end.
Fixpoint analyze_loop (previous rest : list ptr) : R unit :=
  match rest with
  | [] => mret tt
  | instr :: rest => handle previous instr;; analyze_loop (previous ++ [instr]) rest
  end.
Definition analyze (block : list ptr) : R unit := analyze_loop [] block.

(** ** The closure *)

(** [do ... while]: at most [p] iterations of a step that goes on or returns *)
Fixpoint iterate {S A} (p : positive) (step : S -> S + A) (s : S) : S + A :=
  match p with
  | xH => step s
  | xO p => match iterate p step s with inl s => iterate p step s | r => r end
  | xI p => match step s with inl s => match iterate p step s with inl s => iterate p step s | r => r end | r => r end
  end.
(** A [std::set] of pointers, in its order *)
Definition in_order (s : gset ptr) : list ptr := merge_sort Z.le (elements s).
Definition closure_step (k : gmap ptr (gset ptr)) (dest : ptr) (s : list ptr * gset ptr) : (list ptr * gset ptr) + bool :=
  match s with
  | ([], _) => inr false
  | (i :: queue, visited) =>
    let visited := visited ∪ {[i]} in
    if bool_decide (dest ∈ kills k i) then inr true
    else match queue ++ filter (fun n => n ∉ visited) (in_order (kills k i)) with
         | [] => inr false
         | queue => inl (queue, visited)
         end
  end.
(** The bound on the iterations is that of the block: [2 ^ n] for [n] instructions. *)
Definition inKillClosure (n : nat) (k : gmap ptr (gset ptr)) (source dest : ptr) : res bool :=
  match iterate (Pos.pow 2 (Pos.of_succ_nat n)) (closure_step k dest) ([source], {[source]}) with
  | inr b => Ok b
  | inl _ => Err OutOfFuel
  end.
Definition bothPushesOrPops (one two : ptr) : bool :=
  match iv_assembly (view one), iv_assembly (view two) with
  | Some asm1, Some asm2 => ((asm_id asm1 =? X86_INS_PUSH) || (asm_id asm1 =? X86_INS_POP)) && (asm_id asm1 =? asm_id asm2)
  | _, _ => false
  end.
Fixpoint closure_of (n : nat) (allowPushReordering : bool) (k : gmap ptr (gset ptr)) (source : ptr) (dests : list ptr)
    (new : gmap ptr (gset ptr)) : res (gmap ptr (gset ptr)) :=
  match dests with
  | [] => Ok new
  | dest :: dests =>
    if allowPushReordering && bothPushesOrPops source dest then closure_of n allowPushReordering k source dests new
    else b ← inKillClosure n k source dest;
         closure_of n allowPushReordering k source dests (if b : bool then add_kills source {[dest]} new else new)
  end.
Fixpoint closure_loop (n : nat) (allowPushReordering : bool) (k : gmap ptr (gset ptr)) (block sources : list ptr)
    (new : gmap ptr (gset ptr)) : res (gmap ptr (gset ptr)) :=
  match sources with
  | [] => Ok new
  | source :: sources =>
    new ← closure_of n allowPushReordering k source block new; closure_loop n allowPushReordering k block sources new
  end.
Definition computeDependencyClosure (allowPushReordering : bool) (block : list ptr) : R unit := fun s =>
  k ← closure_loop (length block) allowPushReordering (killMap s) block block ∅;
  Ok (tt, mkReachingDef k (currentWriteMap s) (currentReadMap s) true).

(** ** visitInstructionGroups *)
Fixpoint covered_fuel (fuel : nat) (s : ReachingDef) (instr : ptr) (covered : gset ptr) : res bool :=
  match fuel with
  | O => Err OutOfFuel
  | Datatypes.S fuel =>
    (fix loop (l : list ptr) : res bool :=
       match l with
       | [] => Ok true
       | d :: l =>
         if bool_decide (d ∉ covered) then Ok false
         else if dependencyClosure s then loop l
         else b ← covered_fuel fuel s d covered; if b : bool then loop l else Ok false
       end) (in_order (kills (killMap s) instr))
  end.
Definition areDependenciesCovered (s : ReachingDef) (instr : ptr) (covered : gset ptr) : res bool :=
  covered_fuel (Datatypes.S (size (killMap s))) s instr covered.
Fixpoint group_of (s : ReachingDef) (visited : gset ptr) (available : list ptr) : res (list ptr) :=
  match available with
  | [] => Ok []
  | a :: available =>
    b ← areDependenciesCovered s a visited; group ← group_of s visited available;
    Ok (if b : bool then a :: group else group)
  end.
(** The callback has a state of its own. *)
Fixpoint visit_loop {C} (fuel : nat) (s : ReachingDef) (callback : list ptr -> C -> res (ptr * C)) (available visited : gset ptr)
    (c : C) : res C :=
  match fuel with
  | O => Err OutOfFuel
  | Datatypes.S fuel =>
    group ← group_of s visited (in_order available);
    match group with
    | [] => cassert (bool_decide (available = ∅));; Ok c
    | _ =>
      '(chosen, c) ← callback group c;
      if bool_decide (chosen ∈ available) then visit_loop fuel s callback (available ∖ {[chosen]}) (visited ∪ {[chosen]}) c
      else Err Undefined
    end
  end.
Definition visitInstructionGroups {C} (block : list ptr) (s : ReachingDef) (callback : list ptr -> C -> res (ptr * C)) (c : C) : res C :=
  visit_loop (Datatypes.S (length block)) s callback (list_to_set block) ∅ c.
End block.
