(* ===== verification/ReachingDefProofs.v ===== *)
(** * Reordering the instructions of a block *)

From S2P Require Import Prelude ChunkList Assembly ReachingDef.

(** ** What an instruction accesses *)
Inductive Access := Rd (r : Z) | Wr (r : Z).
Inductive Effect := Accesses (l : list Access) | Barrier.
Definition reg_of (a : Access) : Z := match a with Rd r | Wr r => r end.
Definition everything : list Access :=
  ((fun r => Rd (Z.of_nat r)) <$> seq 0 18) ++ ((fun r => Wr (Z.of_nat r)) <$> seq 0 18).
Definition accesses (e : Effect) : list Access := match e with Accesses l => l | Barrier => everything end.

(** The table of the handlers, by identifier and mode *)
Section table.
Context (asm : Assembly).
Definition both (a b : res (list Access)) : res (list Access) := x ← a; y ← b; Ok (x ++ y).
Infix "+++" := both (at level 60, right associativity).
Definition rd (i : nat) : res (list Access) := r ← getReg asm i; Ok [Rd r].
Definition wr (i : nat) : res (list Access) := r ← getReg asm i; Ok [Wr r].
Definition address (i : nat) : res (list Access) :=
  o ← operand asm i;
  match o with
  | X86_OP_MEM base idx =>
    (if idx =? X86Register.X86_REG_INVALID then Ok [] else p ← physical idx; Ok [Rd p]) +++
    (if (base =? X86Register.X86_REG_INVALID) || (base =? X86Register.X86_REG_RIP) then Ok [] else p ← physical base; Ok [Rd p])
  | _ => Err Undefined
  end.
Definition mem_read (i : nat) : res (list Access) := address i +++ Ok [Rd MEMORY_REG].
Definition flags : res (list Access) := Ok [Wr X86Register.FLAGS].
Definition sp : res (list Access) := Ok [Rd X86Register.SP; Wr X86Register.SP].
Definition Acc (r : res (list Access)) : res Effect := l ← r; Ok (Accesses l).
Definition eff_AddOrSub (m : OperandsMode) : res Effect :=
  match m with
  | MODE_IMM_REG => Acc (rd 1 +++ wr 1 +++ flags)
  | MODE_REG_REG => Acc (rd 0 +++ rd 1 +++ wr 1 +++ flags)
  | MODE_MEM_REG => Acc (mem_read 0 +++ rd 1 +++ wr 1 +++ flags)
  | _ => Ok Barrier
  end.
Definition eff_And (m : OperandsMode) : res Effect :=
  match m with MODE_IMM_REG => Acc (rd 1 +++ wr 1 +++ flags) | _ => Ok Barrier end.
Definition eff_Cmp (m : OperandsMode) : res Effect :=
  match m with
  | MODE_REG_REG => Acc (rd 0 +++ rd 1 +++ flags) | MODE_IMM_REG => Acc (rd 1 +++ flags)
  | MODE_IMM_MEM => Acc (mem_read 1 +++ flags) | _ => Ok Barrier
  end.
Definition eff_Lea (m : OperandsMode) : res Effect :=
  match m with MODE_MEM_REG => Acc (address 0 +++ wr 1) | _ => Ok Barrier end.
Definition eff_Mov (m : OperandsMode) : res Effect :=
  match m with
  | MODE_IMM_REG => Acc (wr 1) | MODE_REG_MEM => Acc (rd 0 +++ address 1 +++ Ok [Wr MEMORY_REG])
  | MODE_MEM_REG => Acc (mem_read 0 +++ wr 1) | MODE_REG_REG => Acc (rd 0 +++ wr 1) | _ => Ok Barrier
  end.
Definition eff_Movabs (m : OperandsMode) : res Effect :=
  match m with MODE_IMM_REG => Acc (wr 1) | _ => Err AssertFail end.
Definition eff_Push (m : OperandsMode) : res Effect :=
  match m with
  | MODE_REG => Acc (rd 0 +++ Ok [Wr MEMORY_REG] +++ sp) | MODE_MEM => Acc (address 0 +++ Ok [Wr MEMORY_REG] +++ sp)
  | _ => Ok Barrier
  end.
Definition eff_Pop (m : OperandsMode) : res Effect :=
  match m with
  | MODE_REG => Acc (wr 0 +++ Ok [Rd MEMORY_REG] +++ sp) | MODE_MEM => Acc (mem_read 0 +++ sp) | _ => Ok Barrier
  end.
Definition effect : res Effect :=
  let m := getMode (asm_operands asm) in let id := asm_id asm in
  if id =? X86_INS_AND then eff_And m else if id =? X86_INS_ADD then eff_AddOrSub m
  else if id =? X86_INS_CMP then eff_Cmp m else if id =? X86_INS_LEA then eff_Lea m
  else if id =? X86_INS_MOV then eff_Mov m else if id =? X86_INS_MOVABS then eff_Movabs m
  else if id =? X86_INS_MOVSXD then eff_Mov m else if id =? X86_INS_MOVZX then eff_Mov m
  else if id =? X86_INS_PUSH then eff_Push m else if id =? X86_INS_POP then eff_Pop m
  else if id =? X86_INS_SUB then eff_AddOrSub m else if id =? X86_INS_XOR then eff_AddOrSub m
  else Ok Barrier.
End table.
(** The effect of an instruction; a [ControlFlowInstruction] without assembly is a barrier, unless
    it has the identifier of a handler. *)
Definition effect_of (v : InstrView) : res Effect :=
  match iv_assembly v with
  | Some asm => effect asm
  | None => match handlers [] 0 (mkAssembly 0 (mkOperands 0 [])) (default X86_INS_INVALID (iv_cfi v)) with
            | Some _ => Err NullDeref | None => Ok Barrier end
  end.

(** *** The handlers do what the table says. *)
Fixpoint perform (instr : ptr) (l : list Access) : R unit :=
  match l with
  | [] => mret tt
  | Rd r :: l => setRegRead r instr;; perform instr l
  | Wr r :: l => setRegWrite r instr;; perform instr l
  end.
Definition perform_effect (previous : list ptr) (instr : ptr) (e : Effect) : R unit :=
  match e with Accesses l => perform instr l | Barrier => setBarrier previous instr end.
Lemma perform_app instr l1 l2 s : perform instr (l1 ++ l2) s = (perform instr l1;; perform instr l2) s.
Proof.
  revert s. induction l1 as [|[r|r] l1 IH]; intros s; [done|cbn; unfold mbind, R_bind; cbn; apply IH|].
  cbn. unfold mbind, R_bind. destruct (setRegWrite r instr s) as [[[] s1]|]; [apply IH|done].
Qed.

Section denotes.
Context (instr : ptr) (asm : Assembly).
(** A piece of a handler performs the accesses that a piece of the table lists. *)
Definition denotes (m : R unit) (r : res (list Access)) : Prop := forall l, r = Ok l -> forall s, m s = perform instr l s.
Lemma denotes_seq m1 m2 r1 r2 : denotes m1 r1 -> denotes m2 r2 -> denotes (m1;; m2) (both r1 r2).
Proof.
  intros H1 H2 l E s. unfold both in E. destruct r1 as [l1|]; [|done]. destruct r2 as [l2|]; [|done]. injection E as <-.
  rewrite perform_app. unfold mbind, R_bind. rewrite (H1 l1 eq_refl). destruct (perform instr l1 s) as [[[] s1]|]; [by apply H2|done].
Qed.
Lemma denotes_one m l : (forall s, m s = perform instr l s) -> denotes m (Ok l).
Proof. by intros H l' [= <-]. Qed.
Lemma perform_read r s : perform instr [Rd r] s = setRegRead r instr s.
Proof. done. Qed.
Lemma perform_write r s : perform instr [Wr r] s = setRegWrite r instr s.
Proof. cbn. unfold mbind, R_bind. by destruct (setRegWrite r instr s) as [[[] s1]|]. Qed.
Lemma denotes_rd i : denotes (r ← lift (getReg asm i); setRegRead r instr) (rd asm i).
Proof. intros l E s. unfold rd in E. unfold mbind, R_bind, lift. destruct (getReg asm i) as [r|]; [|done]. by injection E as <-. Qed.
Lemma denotes_wr i : denotes (r ← lift (getReg asm i); setRegWrite r instr) (wr asm i).
Proof.
  intros l E s. unfold wr in E. unfold mbind at 1, R_bind at 1, lift. destruct (getReg asm i) as [r|]; [|done]. injection E as <-.
  by rewrite perform_write.
Qed.
Lemma denotes_address i : denotes (handleMem asm i instr) (address asm i).
Proof.
  intros l E s. unfold address in E. unfold handleMem. destruct (operand asm i) as [o|] eqn:Eo; [|done]. cbn in E.
  unfold mbind at 1, R_bind at 1, lift at 1. destruct o as [| | |base idx]; try done. revert l E s. apply denotes_seq.
  - destruct (_ =? _); [by apply denotes_one|]. intros l E s. unfold mbind, R_bind, lift. destruct (physical idx); [|done]. by injection E as <-.
  - destruct (_ || _); [by apply denotes_one|]. intros l E s. unfold mbind, R_bind, lift. destruct (physical base); [|done]. by injection E as <-.
Qed.
Lemma denotes_memory_read : denotes (setMemRead instr) (Ok [Rd MEMORY_REG]).
Proof. by apply denotes_one. Qed.
Lemma denotes_memory_write : denotes (setMemWrite instr) (Ok [Wr MEMORY_REG]).
Proof. apply denotes_one. intros s. by rewrite perform_write. Qed.
Lemma denotes_flags : denotes (setRegWrite X86Register.FLAGS instr) flags.
Proof. apply denotes_one. intros s. by rewrite perform_write. Qed.
Lemma denotes_sp : denotes (stack instr) sp.
Proof. apply denotes_one. intros s. cbn. unfold stack, mbind, R_bind. cbn. by destruct (setRegWrite _ instr _) as [[[] s1]|]. Qed.
Lemma denotes_mem_read i m r : denotes m r -> denotes (handleMem asm i instr;; setMemRead instr;; m) (both (mem_read asm i) r).
Proof.
  intros Hm l E s. unfold mem_read in E. rewrite <- (denotes_seq _ _ _ _ (denotes_seq _ _ _ _ (denotes_address i) denotes_memory_read) Hm l E).
  unfold mbind, R_bind. by destruct (handleMem asm i instr s) as [[[] s1]|].
Qed.
End denotes.
Create HintDb handlers.
#[export] Hint Resolve denotes_seq denotes_rd denotes_wr denotes_address denotes_memory_read denotes_memory_write denotes_flags
  denotes_sp denotes_mem_read : handlers.

Lemma denotes_effect previous instr m r e : denotes instr m r -> Acc r = Ok e -> forall s, m s = perform_effect previous instr e s.
Proof. intros H E s. unfold Acc in E. destruct r as [l|]; [|done]. injection E as <-. by apply H. Qed.
(** A handler, against its row of the table *)
Section handler.
Context (previous : list ptr) (instr : ptr) (asm : Assembly) (s : ReachingDef).
Definition implements (f : R unit) (r : res Effect) : Prop := forall e, r = Ok e -> f s = perform_effect previous instr e s.
Lemma implements_barrier : implements (setBarrier previous instr) (Ok Barrier).
Proof. by intros e [= <-]. Qed.
Lemma implements_acc m r : denotes instr m r -> implements m (Acc r).
Proof. intros H e E. by apply (denotes_effect _ _ _ _ _ H E). Qed.
Ltac by_mode := destruct (getMode (asm_operands asm)); first [apply implements_barrier|apply implements_acc; eauto with handlers|done].
Lemma fillAddOrSub_effect : implements (fillAddOrSub previous instr asm) (eff_AddOrSub asm (getMode (asm_operands asm))).
Proof. unfold fillAddOrSub. by_mode. Qed.
Lemma fillAnd_effect : implements (fillAnd previous instr asm) (eff_And asm (getMode (asm_operands asm))).
Proof. unfold fillAnd. by_mode. Qed.
Lemma fillCmp_effect : implements (fillCmp previous instr asm) (eff_Cmp asm (getMode (asm_operands asm))).
Proof. unfold fillCmp. by_mode. Qed.
Lemma fillLea_effect : implements (fillLea previous instr asm) (eff_Lea asm (getMode (asm_operands asm))).
Proof. unfold fillLea. by_mode. Qed.
Lemma fillMov_effect : implements (fillMov previous instr asm) (eff_Mov asm (getMode (asm_operands asm))).
Proof. unfold fillMov. by_mode. Qed.
Lemma fillMovabs_effect : implements (fillMovabs instr asm) (eff_Movabs asm (getMode (asm_operands asm))).
Proof. unfold fillMovabs. by_mode. Qed.
Lemma fillPush_effect : implements (fillPush previous instr asm) (eff_Push asm (getMode (asm_operands asm))).
Proof. unfold fillPush. by_mode. Qed.
Lemma fillPop_effect : implements (fillPop previous instr asm) (eff_Pop asm (getMode (asm_operands asm))).
Proof. unfold fillPop. by_mode. Qed.
End handler.
#[export] Hint Resolve implements_barrier fillAddOrSub_effect fillAnd_effect fillCmp_effect fillLea_effect fillMov_effect
  fillMovabs_effect fillPush_effect fillPop_effect : handlers.

Lemma handle_effect view previous instr e s : effect_of (view instr) = Ok e ->
  handle view previous instr s = perform_effect previous instr e s.
Proof.
  unfold effect_of, handle. destruct (iv_assembly (view instr)) as [asm|].
  - revert e. change (implements previous instr s (match handlers previous instr asm (asm_id asm) with
      Some f => f | None => setBarrier previous instr end) (effect asm)).
    unfold effect, handlers. repeat (destruct (_ =? _); [eauto with handlers|]). apply implements_barrier.
  - destruct (iv_cfi (view instr)) as [id|]; cbn [default]; unfold handlers; repeat (destruct (_ =? _); [done|]); by intros [= <-].
Qed.

(** ** Dependencies *)
Definition precedes (l : list ptr) (i j : ptr) : Prop := exists a b, l !! a = Some i /\ l !! b = Some j /\ (a < b)%nat.
Definition edge (k : gmap ptr (gset ptr)) (j i : ptr) : Prop := i ∈ kills k j.
(** Two accesses to a register of which one is a write *)
Definition clash (a b : Access) : Prop := match a, b with Rd _, Rd _ => False | _, _ => reg_of a = reg_of b end.

Lemma precedes_last l j i : i ∈ l -> precedes (l ++ [j]) i j.
Proof.
  intros [a Ha]%list_elem_of_lookup. exists a, (length l). pose proof (lookup_lt_Some _ _ _ Ha).
  rewrite lookup_app_l, list_lookup_middle by lia. by split_and!.
Qed.
Lemma precedes_app l l' i j : precedes l i j -> precedes (l ++ l') i j.
Proof. intros (a&b&Ha&Hb&?). exists a, b. by rewrite !(lookup_app_l_Some _ _ _ _ Ha), (lookup_app_l_Some _ _ _ _ Hb). Qed.
Lemma precedes_elem l i j : precedes l i j -> i ∈ l /\ j ∈ l.
Proof. intros (a&b&Ha&Hb&?). split; by eapply list_elem_of_lookup_2. Qed.
Lemma precedes_split l i j : precedes l i j <-> exists l1 l2, l = l1 ++ j :: l2 /\ i ∈ l1.
Proof.
  split.
  - intros (a&b&Ha&Hb&Hab). exists (take b l), (drop (S b) l). split; [by rewrite take_drop_middle|].
    apply list_elem_of_lookup. exists a. by rewrite lookup_take_lt.
  - intros (l1&l2&->&[a Ha]%list_elem_of_lookup). exists a, (length l1). pose proof (lookup_lt_Some _ _ _ Ha).
    rewrite lookup_app_l, list_lookup_middle by lia. by split_and!.
Qed.
Lemma precedes_snoc l i j x : NoDup (l ++ [x]) -> precedes (l ++ [x]) i j -> precedes l i j \/ (j = x /\ i ∈ l).
Proof.
  intros Hnd (a&b&Ha&Hb&Hab). pose proof (lookup_lt_Some _ _ _ Hb) as Hlt. rewrite length_app in Hlt. cbn in Hlt.
  rewrite lookup_app_l in Ha by lia. destruct (decide (b < length l)%nat).
  - left. exists a, b. by rewrite lookup_app_l in Hb.
  - right. assert (b = length l) as -> by lia. rewrite list_lookup_middle in Hb by lia. injection Hb as <-.
    split; [done|by eapply list_elem_of_lookup_2].
Qed.
Lemma lookup_middle_shift {A} (l1 : list A) x l2 a i : (l1 ++ l2) !! a = Some i ->
  (l1 ++ x :: l2) !! (if decide (a < length l1)%nat then a else S a) = Some i.
Proof.
  case_decide; [by rewrite !lookup_app_l|]. rewrite !lookup_app_r by lia. by replace (S a - length l1)%nat with (S (a - length l1)) by lia.
Qed.
Lemma precedes_middle l1 x l2 i j : precedes (l1 ++ l2) i j -> precedes (l1 ++ x :: l2) i j.
Proof.
  intros (a&b&Ha&Hb&Hab). eexists _, _. split_and!; [by apply lookup_middle_shift|by apply lookup_middle_shift|].
  repeat case_decide; lia.
Qed.
Lemma precedes_tail x l i j : i <> x -> precedes (x :: l) i j -> precedes l i j.
Proof.
  intros Hne ([|a]&[|b]&Ha&Hb&Hab); cbn in Ha, Hb; [lia|by injection Ha as ->|lia|]. exists a, b. split_and!; [done|done|lia].
Qed.
Lemma precedes_irrefl l i : NoDup l -> ~ precedes l i i.
Proof. intros Hnd (a&b&Ha&Hb&Hab). assert (a = b) by (by eapply NoDup_lookup). lia. Qed.
Lemma precedes_trans l i j m : NoDup l -> precedes l i j -> precedes l j m -> precedes l i m.
Proof.
  intros Hnd (a&b&Ha&Hb&Hab) (b'&c&Hb'&Hc&Hbc). assert (b = b') as <- by (by eapply NoDup_lookup).
  exists a, c. split_and!; [done|done|lia].
Qed.

Lemma kills_add k i d j : kills (add_kills i d k) j = if decide (i = j) then kills k j ∪ d else kills k j.
Proof.
  unfold kills at 1, add_kills. destruct (decide (i = j)) as [<-|]; [by rewrite lookup_insert_eq|by rewrite lookup_insert_ne].
Qed.
Lemma readers_insert m r d q : readers (<[r := d]> m) q = if decide (r = q) then d else readers m q.
Proof. unfold readers. destruct (decide (r = q)) as [<-|]; [by rewrite lookup_insert_eq|by rewrite lookup_insert_ne]. Qed.
Definition grows (k k' : gmap ptr (gset ptr)) : Prop := forall j, kills k j ⊆ kills k' j.
Lemma grows_rtc k k' j i : grows k k' -> rtc (edge k) j i -> rtc (edge k') j i.
Proof. intros Hg. apply rtc_subrel. intros a b. apply Hg. Qed.
Lemma grows_refl k : grows k k.
Proof. intros j. reflexivity. Qed.
Lemma kills_grow_trans k k' k'' : grows k k' -> grows k' k'' -> grows k k''.
Proof. intros H1 H2 j. transitivity (kills k' j); [apply H1|apply H2]. Qed.
Lemma grows_add k i d : grows k (add_kills i d k).
Proof. intros j. rewrite kills_add. case_decide; set_solver. Qed.

(** *** The invariant of [analyze]: [seen] are the instructions so far, [E] their accesses. *)
Record inv (seen : list ptr) (E : list (ptr * Access)) (s : ReachingDef) : Prop := {
  i_write : forall r w, currentWriteMap s !! r = Some w -> (w, Wr r) ∈ E;
  i_read : forall r i, i ∈ readers (currentReadMap s) r -> i ∈ seen;
  i_edge : forall j i, edge (killMap s) j i -> precedes seen i j;
  i_event : forall i a, (i, a) ∈ E -> i ∈ seen /\ 0 <= reg_of a < 18;
  i_written : forall i r, (i, Wr r) ∈ E -> exists w, currentWriteMap s !! r = Some w /\ rtc (edge (killMap s)) w i;
  i_readers : forall i r, (i, Rd r) ∈ E -> i ∈ readers (currentReadMap s) r \/
    exists w, currentWriteMap s !! r = Some w /\ rtc (edge (killMap s)) w i;
  i_clash : forall i j a b, (i, a) ∈ E -> (j, b) ∈ E -> precedes seen i j -> clash a b -> rtc (edge (killMap s)) j i }.

Section step.
Context (seen : list ptr) (j : ptr) (Hnd : NoDup (seen ++ [j])).
Lemma not_seen : j ∉ seen.
Proof. apply NoDup_app in Hnd as (_&H&_). intros Hj. by apply (H j Hj), list_elem_of_singleton. Qed.
Lemma last_precedes_none i : ~ precedes (seen ++ [j]) j i.
Proof.
  intros H. destruct (precedes_snoc _ _ _ _ Hnd H) as [Hp|[-> Hj]]; [|by apply not_seen].
  by apply not_seen, (precedes_elem _ _ _ Hp).
Qed.
Lemma seen_precedes i : i ∈ seen ++ [j] -> i <> j -> precedes (seen ++ [j]) i j.
Proof. intros [Hi| ->%list_elem_of_singleton]%elem_of_app ?; [by apply precedes_last|done]. Qed.

(** A new clash is with the last instruction. *)
Lemma clash_extend (E E' : list (ptr * Access)) k k' (new : list Access) : (forall x, x ∈ E' <-> x ∈ E \/ exists a, x = (j, a) /\ a ∈ new) ->
  (forall i a, (i, a) ∈ E -> i ∈ seen ++ [j]) -> grows k k' ->
  (forall i m a b, (i, a) ∈ E -> (m, b) ∈ E -> precedes (seen ++ [j]) i m -> clash a b -> rtc (edge k) m i) ->
  (forall i a b, (i, a) ∈ E -> b ∈ new -> i <> j -> clash a b -> rtc (edge k') j i) ->
  forall i m a b, (i, a) ∈ E' -> (m, b) ∈ E' -> precedes (seen ++ [j]) i m -> clash a b -> rtc (edge k') m i.
Proof.
  intros HE Hin Hg Hold Hnew i m a b [Hi|(a'&[= -> ->]&Ha)]%HE [Hm|(b'&[= -> ->]&Hb)]%HE Hp Hc.
  - by eapply grows_rtc, Hold.
  - destruct (decide (i = j)) as [->|Hne]; [by destruct (last_precedes_none j)|]. by eapply Hnew.
  - by destruct (last_precedes_none m).
  - by destruct (last_precedes_none j).
Qed.

Lemma read_inv E s r : inv (seen ++ [j]) E s -> 0 <= r < 18 ->
  exists s', setRegRead r j s = Ok (tt, s') /\ inv (seen ++ [j]) (E ++ [(j, Rd r)]) s' /\ dependencyClosure s' = dependencyClosure s.
Proof.
  intros [I1 I2 I3 I4 I5 I6 I7] Hr. eexists. split; [done|]. split; [|done].
  set (k := match currentWriteMap s !! r with Some w => _ | None => _ end).
  assert (Hg : grows (killMap s) k).
  { unfold k. destruct (currentWriteMap s !! r); [|apply grows_refl]. case_bool_decide; [apply grows_refl|apply grows_add]. }
  assert (Hj : j ∈ seen ++ [j]) by set_solver.
  assert (Hw : forall w, currentWriteMap s !! r = Some w -> rtc (edge k) j w).
  { intros w E'. unfold k. rewrite E'. case_bool_decide as Hne; [by subst|]. apply rtc_once. unfold edge. rewrite kills_add, decide_True by done. set_solver. }
  split; cbn [currentWriteMap currentReadMap killMap].
  - intros q w Hq. apply elem_of_app. left. by apply I1.
  - intros q i. rewrite readers_insert. case_decide as Eq; [subst q|apply I2]. intros [Hi| ->%elem_of_singleton]%elem_of_union; [by eapply I2|done].
  - intros a b. unfold edge, k. destruct (currentWriteMap s !! r) as [w|] eqn:Ew; [|apply I3].
    case_bool_decide as Hne; [apply I3|]. rewrite kills_add. case_decide as Ea; [subst a|apply I3].
    intros [Hb| ->%elem_of_singleton]%elem_of_union; [by apply I3|]. apply seen_precedes; [|done]. by apply (I4 _ _ (I1 _ _ Ew)).
  - intros i a [Hi|[= -> ->]%list_elem_of_singleton]%elem_of_app; [by apply I4|by split].
  - intros i q [Hi|[=]%list_elem_of_singleton]%elem_of_app. destruct (I5 i q Hi) as (w&Ew&Hrt). exists w. split; [done|by eapply grows_rtc].
  - intros i q Hi. rewrite readers_insert. apply elem_of_app in Hi as [Hi|[= -> ->]%list_elem_of_singleton].
    + destruct (I6 i q Hi) as [Hin|(w&Ew&Hrt)]; [left; case_decide; [subst q|]; set_solver|]. right. exists w. split; [done|by eapply grows_rtc].
    + left. rewrite decide_True by done. set_solver.
  - apply (clash_extend E _ (killMap s) k [Rd r]); [|intros i a Hi; apply (I4 _ _ Hi)|done|exact I7|].
    + intros x. rewrite elem_of_app, list_elem_of_singleton. split; [intros [?| ->]; [by left|right; eexists; split; [done|set_solver]]|].
      intros [?|(a&->&->%list_elem_of_singleton)]; auto.
    + intros i a b Hi ->%list_elem_of_singleton Hne Hc. destruct a as [q|q]; [done|]. cbn in Hc. subst q.
      destruct (I5 i r Hi) as (w&Ew&Hrt). etrans; [by apply Hw|by eapply grows_rtc].
Qed.
Lemma write_inv E s r : inv (seen ++ [j]) E s -> 0 <= r < 18 -> (j, Wr r) ∉ E ->
  exists s', setRegWrite r j s = Ok (tt, s') /\ inv (seen ++ [j]) (E ++ [(j, Wr r)]) s' /\ dependencyClosure s' = dependencyClosure s.
Proof.
  intros [I1 I2 I3 I4 I5 I6 I7] Hr Hfresh. unfold setRegWrite.
  set (k1 := match currentWriteMap s !! r with Some w => _ | None => _ end).
  set (rs := readers (currentReadMap s) r). set (k := add_kills j (rs ∖ {[j]}) k1).
  assert (Hg1 : grows (killMap s) k1) by (unfold k1; destruct (currentWriteMap s !! r); [apply grows_add|apply grows_refl]).
  assert (Hg : grows (killMap s) k) by (eapply kills_grow_trans; [exact Hg1|apply grows_add]).
  assert (Hw : forall w, currentWriteMap s !! r = Some w -> edge k j w /\ w <> j).
  { intros w Ew. split; [|intros ->; by apply Hfresh, I1]. apply (grows_add k1). unfold k1. rewrite Ew, kills_add, decide_True by done. set_solver. }
  assert (Hrs : forall i, i ∈ rs -> rtc (edge k) j i).
  { intros i Hi. destruct (decide (i = j)) as [->|Hne]; [done|]. apply rtc_once. unfold edge, k. rewrite kills_add, decide_True by done. set_solver. }
  assert (Hedge : forall a b, edge k a b -> precedes (seen ++ [j]) b a).
  { intros a b. unfold edge, k. rewrite kills_add. case_decide as Ea.
    2: { unfold k1. destruct (currentWriteMap s !! r); [rewrite kills_add, decide_False by done|]; apply I3. }
    subst a. intros [Hb|Hb]%elem_of_union.
    - unfold k1 in Hb. destruct (currentWriteMap s !! r) as [w|] eqn:Ew; [|by apply I3]. rewrite kills_add, decide_True in Hb by done.
      apply elem_of_union in Hb as [Hb| ->%elem_of_singleton]; [by apply I3|].
      apply seen_precedes; [by apply (I4 _ _ (I1 _ _ Ew))|by apply Hw].
    - apply elem_of_difference in Hb as [Hb Hne]. apply seen_precedes; [by eapply I2|set_solver]. }
  rewrite bool_decide_eq_false_2 by (intros Hjj; by apply (precedes_irrefl _ j Hnd), Hedge).
  eexists. split; [done|]. split; [|done]. set (R' := if bool_decide (j ∈ rs) then {[j]} else ∅).
  assert (HR : R' ⊆ rs) by (unfold R'; case_bool_decide; set_solver).
  split; cbn [currentWriteMap currentReadMap killMap].
  - intros q w. destruct (decide (r = q)) as [<-|]; [rewrite lookup_insert_eq; intros [= <-]; set_solver|].
    rewrite lookup_insert_ne by done. intros Hq%I1. apply elem_of_app. by left.
  - intros q i. rewrite readers_insert. case_decide as Eq; [subst q|apply I2]. intros Hi%HR. by eapply I2.
  - exact Hedge.
  - intros i a [Hi|[= -> ->]%list_elem_of_singleton]%elem_of_app; [by apply I4|]. split; [set_solver|done].
  - intros i q [Hi|[= -> ->]%list_elem_of_singleton]%elem_of_app; [|exists j; by rewrite lookup_insert_eq].
    destruct (I5 i q Hi) as (w&Ew&Hrt). destruct (decide (r = q)) as [<-|].
    + exists j. rewrite lookup_insert_eq. split; [done|]. eapply rtc_l; [by apply Hw|by eapply grows_rtc].
    + exists w. rewrite lookup_insert_ne by done. split; [done|by eapply grows_rtc].
  - intros i q [Hi|[=]%list_elem_of_singleton]%elem_of_app. rewrite readers_insert.
    destruct (decide (r = q)) as [<-|].
    + right. exists j. rewrite lookup_insert_eq. split; [done|]. destruct (I6 i r Hi) as [Hin|(w&Ew&Hrt)]; [by apply Hrs|].
      eapply rtc_l; [by apply Hw|by eapply grows_rtc].
    + rewrite lookup_insert_ne by done. destruct (I6 i q Hi) as [Hin|(w&Ew&Hrt)]; [by left|]. right. exists w. split; [done|by eapply grows_rtc].
  - apply (clash_extend E _ (killMap s) k [Wr r]); [|intros i a Hi; apply (I4 _ _ Hi)|done|exact I7|].
    + intros x. rewrite elem_of_app, list_elem_of_singleton. split; [intros [?| ->]; [by left|right; eexists; split; [done|set_solver]]|].
      intros [?|(a&->&->%list_elem_of_singleton)]; auto.
    + intros i a b Hi ->%list_elem_of_singleton Hne Hc. assert (reg_of a = r) as Ea by (by destruct a).
      destruct a as [q|q]; cbn in Ea; subst q.
      * destruct (I6 i r Hi) as [Hin|(w&Ew&Hrt)]; [by apply Hrs|]. eapply rtc_l; [by apply Hw|by eapply grows_rtc].
      * destruct (I5 i r Hi) as (w&Ew&Hrt). eapply rtc_l; [by apply Hw|by eapply grows_rtc].
Qed.

Lemma elem_everything a : a ∈ everything <-> 0 <= reg_of a < 18.
Proof.
  unfold everything. rewrite elem_of_app, !list_elem_of_fmap. split.
  - intros [(n&->&Hn%elem_of_seq)|(n&->&Hn%elem_of_seq)]; cbn; lia.
  - intros Hr. destruct a as [r|r]; [left|right]; cbn in Hr; exists (Z.to_nat r); rewrite elem_of_seq; (split; [f_equal; lia|lia]).
Qed.
Lemma barrier_writes n (m : gmap Z ptr) r :
  foldl (fun m r => <[Z.of_nat r := j]> m) m (seq 0 n) !! r = if decide (0 <= r < Z.of_nat n) then Some j else m !! r.
Proof.
  induction n as [|n IH]; [rewrite decide_False by lia; done|]. rewrite seq_S, foldl_snoc. cbn.
  destruct (decide (Z.of_nat n = r)) as [<-|]; [rewrite lookup_insert_eq, decide_True by lia; done|].
  rewrite lookup_insert_ne, IH by done. destruct (decide (0 <= r < Z.of_nat n)), (decide (0 <= r < Z.of_nat (S n))); lia || done.
Qed.
Lemma barrier_inv E s : inv (seen ++ [j]) E s -> exists s', setBarrier seen j s = Ok (tt, s') /\
  inv (seen ++ [j]) (E ++ ((fun a => (j, a)) <$> everything)) s' /\ dependencyClosure s' = dependencyClosure s.
Proof.
  intros [I1 I2 I3 I4 I5 I6 I7]. unfold setBarrier. rewrite bool_decide_eq_false_2 by apply not_seen.
  eexists. split; [done|]. split; [|done]. set (k := add_kills j (list_to_set seen) (killMap s)).
  change (Z.to_nat X86Register.REGISTER_NUMBER + 2)%nat with 18%nat.
  assert (Hg : grows (killMap s) k) by apply grows_add.
  assert (Hj : forall i, i ∈ seen ++ [j] -> rtc (edge k) j i).
  { intros i [Hi| ->%list_elem_of_singleton]%elem_of_app; [|done]. apply rtc_once. unfold edge, k. rewrite kills_add, decide_True by done. set_solver. }
  assert (HE : forall x, x ∈ E ++ ((fun a => (j, a)) <$> everything) <-> x ∈ E \/ exists a, x = (j, a) /\ a ∈ everything).
  { intros x. by rewrite elem_of_app, list_elem_of_fmap. }
  assert (Hev : forall i a, (i, a) ∈ E ++ ((fun a => (j, a)) <$> everything) -> i ∈ seen ++ [j] /\ 0 <= reg_of a < 18).
  { intros i a [Hi|(b&[= -> ->]&Hb%elem_everything)]%HE; [by apply I4|]. split; [set_solver|done]. }
  assert (Hw : forall i r, (i, Wr r) ∈ E ++ ((fun a => (j, a)) <$> everything) \/ (i, Rd r) ∈ E ++ ((fun a => (j, a)) <$> everything) ->
    foldl (fun m r => <[Z.of_nat r := j]> m) (currentWriteMap s) (seq 0 18) !! r = Some j /\ rtc (edge k) j i).
  { intros i r Hi. assert (i ∈ seen ++ [j] /\ 0 <= r < 18) as [H1 H2] by (by destruct Hi as [Hi|Hi]; apply Hev in Hi).
    rewrite barrier_writes, decide_True by lia. split; [done|by apply Hj]. }
  split; cbn [currentWriteMap currentReadMap killMap].
  - intros r w. rewrite barrier_writes. case_decide.
    + intros [= <-]. apply HE. right. eexists. split; [done|]. by apply elem_everything.
    + intros Hr%I1. apply HE. by left.
  - exact I2.
  - intros a b. unfold edge, k. rewrite kills_add. case_decide as Ea; [subst a|apply I3].
    intros [Hb|Hb%elem_of_list_to_set]%elem_of_union; [by apply I3|]. by apply precedes_last.
  - exact Hev.
  - intros i r Hi. exists j. apply Hw. by left.
  - intros i r Hi. right. exists j. apply Hw. by right.
  - apply (clash_extend E _ (killMap s) k everything); [exact HE|intros i a Hi; apply (I4 _ _ Hi)|done|exact I7|].
    intros i a b Hi _ _ _. apply Hj. by apply (I4 _ _ Hi).
Qed.
End step.

(** ** analyze *)
Definition in_range (r : res (list Access)) : Prop := forall l, r = Ok l -> Forall (fun a => 0 <= reg_of a < 18) l.
Lemma in_range_both a b : in_range a -> in_range b -> in_range (both a b).
Proof. intros Ha Hb l. unfold both. destruct a as [x|]; [|done]. destruct b as [y|]; [|done]. intros [= <-]. apply Forall_app; auto. Qed.
Lemma in_range_Ok l : Forall (fun a => 0 <= reg_of a < 18) l -> in_range (Ok l).
Proof. by intros Hl l' [= <-]. Qed.
Lemma physical_range reg p : physical reg = Ok p -> 0 <= p < 18.
Proof.
  unfold physical. destruct (convertToPhysical_range reg) as [->|Hr]; [done|]. destruct (_ =? _); [done|]. cbn. intros [= <-]. lia.
Qed.
Lemma getReg_range asm i r : getReg asm i = Ok r -> 0 <= r < 18.
Proof. unfold getReg. destruct (operand asm i) as [[| | |]|]; try done. apply physical_range. Qed.
Lemma in_range_rd asm i : in_range (rd asm i).
Proof. intros l. unfold rd. destruct (getReg asm i) as [r|] eqn:E; [|done]. intros [= <-]. constructor; [by apply getReg_range in E|done]. Qed.
Lemma in_range_wr asm i : in_range (wr asm i).
Proof. intros l. unfold wr. destruct (getReg asm i) as [r|] eqn:E; [|done]. intros [= <-]. constructor; [by apply getReg_range in E|done]. Qed.
Lemma in_range_physical (b : bool) reg : in_range (if b then Ok [] else p ← physical reg; Ok [Rd p]).
Proof.
  destruct b; [by apply in_range_Ok, Forall_nil_2|]. intros l. destruct (physical reg) as [p|] eqn:E; [|done]. intros [= <-].
  constructor; [by apply physical_range in E|done].
Qed.
Lemma in_range_address asm i : in_range (address asm i).
Proof.
  unfold address. destruct (operand asm i) as [[| | |base idx]|]; try done. apply in_range_both; apply in_range_physical.
Qed.
Create HintDb ranges.
#[export] Hint Resolve in_range_both in_range_rd in_range_wr in_range_address : ranges.
#[export] Hint Extern 1 (in_range _) => (apply in_range_Ok; by apply (bool_decide_unpack _)) : ranges.
Definition effect_range (r : res Effect) : Prop := forall l, r = Ok (Accesses l) -> Forall (fun a => 0 <= reg_of a < 18) l.
Lemma effect_range_acc r : in_range r -> effect_range (Acc r).
Proof. intros H l. unfold Acc. destruct r; [|done]. intros [= <-]. by apply H. Qed.
Lemma effect_of_range v : effect_range (effect_of v).
Proof.
  unfold effect_of. destruct (iv_assembly v) as [asm|]; [|intros l; by case_match].
  unfold effect. cbv zeta.
  assert (H : effect_range (eff_AddOrSub asm (getMode (asm_operands asm))) /\ effect_range (eff_And asm (getMode (asm_operands asm))) /\
    effect_range (eff_Cmp asm (getMode (asm_operands asm))) /\ effect_range (eff_Lea asm (getMode (asm_operands asm))) /\
    effect_range (eff_Mov asm (getMode (asm_operands asm))) /\ effect_range (eff_Movabs asm (getMode (asm_operands asm))) /\
    effect_range (eff_Push asm (getMode (asm_operands asm))) /\ effect_range (eff_Pop asm (getMode (asm_operands asm)))).
  { destruct (getMode (asm_operands asm)); cbv beta iota delta [eff_AddOrSub eff_And eff_Cmp eff_Lea eff_Mov eff_Movabs eff_Push eff_Pop];
      split_and!; first [by intros l|apply effect_range_acc; unfold mem_read, flags, sp; eauto 10 with ranges]. }
  destruct H as (?&?&?&?&?&?&?&?). repeat (destruct (_ =? _); [assumption|]). done.
Qed.

Definition writes (l : list Access) : list Z := omap (fun a => match a with Wr r => Some r | Rd _ => None end) l.
Lemma elem_writes l r : r ∈ writes l <-> Wr r ∈ l.
Proof.
  unfold writes. rewrite list_elem_of_omap. split; [|intros H; by exists (Wr r)]. intros ([q|q]&Ha&[= ->]). done.
Qed.
(** An instruction that the analysis can handle: its operands are known, and it writes no register twice *)
Definition handled (v : InstrView) : Prop :=
  match effect_of v with Ok (Accesses l) => NoDup (writes l) | Ok Barrier => True | Err _ => False end.
#[export] Instance handled_dec v : Decision (handled v).
Proof. unfold handled. destruct (effect_of v) as [[|]|]; apply _. Defined.

Section analysis.
Context (view : ptr -> InstrView).
Definition eff (i : ptr) : Effect := match effect_of (view i) with Ok e => e | Err _ => Barrier end.
Definition events (l : list ptr) : list (ptr * Access) := l ≫= fun i => (fun a => (i, a)) <$> accesses (eff i).
Lemma elem_events l i a : (i, a) ∈ events l <-> i ∈ l /\ a ∈ accesses (eff i).
Proof.
  unfold events. rewrite list_elem_of_bind. split.
  - intros (j&Hj&Hl). apply list_elem_of_fmap in Hj as (b&[= -> ->]&Hb). done.
  - intros [Hi Ha]. exists i. split; [apply list_elem_of_fmap; by exists a|done].
Qed.

Lemma perform_inv seen j l E s : NoDup (seen ++ [j]) -> inv (seen ++ [j]) E s -> Forall (fun a => 0 <= reg_of a < 18) l -> NoDup (writes l) ->
  (forall r, r ∈ writes l -> (j, Wr r) ∉ E) ->
  exists s', perform j l s = Ok (tt, s') /\ inv (seen ++ [j]) (E ++ ((fun a => (j, a)) <$> l)) s' /\ dependencyClosure s' = dependencyClosure s.
Proof.
  intros Hnd. revert E s. induction l as [|a l IH]; intros E s Hi Hr Hw HE; [exists s; cbn; by rewrite app_nil_r|].
  apply Forall_cons in Hr as [Ha Hr]. assert (Hsplit : E ++ ((fun a => (j, a)) <$> a :: l) = (E ++ [(j, a)]) ++ ((fun a => (j, a)) <$> l))
    by (by rewrite <- app_assoc). rewrite Hsplit. destruct a as [r|r]; cbn in Ha; cbn [perform]; unfold mbind, R_bind.
  - destruct (read_inv seen j Hnd E s r Hi Ha) as (s1&E1&Hi1&Hc1). rewrite E1. destruct (IH (E ++ [(j, Rd r)]) s1) as (s2&E2&Hi2&Hc2); try done.
    + intros q Hq [Hin|[=]%list_elem_of_singleton]%elem_of_app. by apply (HE q).
    + exists s2. split_and!; [done|done|congruence].
  - cbn in Hw. apply NoDup_cons in Hw as [Hn Hw].
    destruct (write_inv seen j Hnd E s r Hi Ha) as (s1&E1&Hi1&Hc1); [apply HE; left|]. rewrite E1.
    destruct (IH (E ++ [(j, Wr r)]) s1) as (s2&E2&Hi2&Hc2); try done.
    + intros q Hq [Hin|[= ->]%list_elem_of_singleton]%elem_of_app; [|done]. apply (HE q); [by right|done].
    + exists s2. split_and!; [done|done|congruence].
Qed.
Lemma inv_next seen j E s : NoDup (seen ++ [j]) -> inv seen E s -> inv (seen ++ [j]) E s.
Proof.
  intros Hnd [I1 I2 I3 I4 I5 I6 I7]. split; try done.
  - intros r i Hi%I2. set_solver.
  - intros a b Hab. by apply precedes_app, I3.
  - intros i a Hi. destruct (I4 i a Hi). split; [set_solver|done].
  - intros i m a b Hi Hm Hp Hc. destruct (precedes_snoc _ _ _ _ Hnd Hp) as [Hp'|[-> _]]; [by eapply I7|].
    apply I4 in Hm as [Hm _]. by destruct (not_seen seen j Hnd).
Qed.

Lemma analyze_inv seen rest s : NoDup (seen ++ rest) -> Forall (fun i => handled (view i)) rest -> inv seen (events seen) s ->
  exists s', analyze_loop view seen rest s = Ok (tt, s') /\ inv (seen ++ rest) (events (seen ++ rest)) s' /\ dependencyClosure s' = dependencyClosure s.
Proof.
  revert seen s. induction rest as [|j rest IH]; intros seen s Hnd Hh Hi; [exists s; by rewrite app_nil_r|].
  apply Forall_cons in Hh as [Hj Hh]. assert (Hnd' : NoDup ((seen ++ [j]) ++ rest)) by (by rewrite <- app_assoc).
  assert (Hndj : NoDup (seen ++ [j])) by (by apply NoDup_app in Hnd' as (?&_&_)).
  assert (Hev : events (seen ++ [j]) = events seen ++ ((fun a => (j, a)) <$> accesses (eff j))).
  { unfold events. by rewrite bind_app, bind_singleton. }
  assert (Hstep : exists s1, handle view seen j s = Ok (tt, s1) /\ inv (seen ++ [j]) (events (seen ++ [j])) s1 /\
    dependencyClosure s1 = dependencyClosure s).
  { unfold handled in Hj. destruct (effect_of (view j)) as [e|] eqn:Ee; [|done]. rewrite (handle_effect view seen j e s Ee), Hev.
    unfold eff. rewrite Ee. apply (inv_next seen j) in Hi; [|done]. destruct e as [l|]; cbn [perform_effect accesses].
    - apply perform_inv; [done|done|by eapply effect_of_range|done|]. intros r _ [Hin _]%elem_events. by apply (not_seen _ _ Hndj).
    - by apply barrier_inv. }
  destruct Hstep as (s1&E1&Hi1&Hc1). cbn [analyze_loop]. unfold mbind, R_bind. rewrite E1.
  destruct (IH (seen ++ [j]) s1 Hnd' Hh Hi1) as (s2&E2&Hi2&Hc2). rewrite <- app_assoc in Hi2.
  exists s2. split_and!; [done|exact Hi2|congruence].
Qed.

(** Two instructions that may not change places *)
Definition conflict (i j : ptr) : Prop := exists a b, a ∈ accesses (eff i) /\ b ∈ accesses (eff j) /\ clash a b.
Lemma rtc_tc {A} (P : A -> A -> Prop) x y : rtc P x y -> x <> y -> tc P x y.
Proof. intros H Hne. apply rtc_inv in H as [?|(z&H1&H2)]; [done|]. by eapply tc_rtc_r; [apply tc_once|]. Qed.
Lemma analyze_spec block : NoDup block -> Forall (fun i => handled (view i)) block ->
  exists s, analyze view block new = Ok (tt, s) /\ dependencyClosure s = false /\
    (forall j i, edge (killMap s) j i -> precedes block i j) /\
    (forall i j, precedes block i j -> conflict i j -> tc (edge (killMap s)) j i).
Proof.
  intros Hnd Hh. destruct (analyze_inv [] block new Hnd Hh) as (s&E&Hi&Hc).
  { split; cbn.
    - intros r w. by rewrite lookup_empty.
    - intros r i. unfold readers. rewrite lookup_empty. by intros ?%elem_of_empty.
    - intros j i. unfold edge, kills. rewrite lookup_empty. by intros ?%elem_of_empty.
    - by intros i a ?%elem_of_nil.
    - by intros i r ?%elem_of_nil.
    - by intros i r ?%elem_of_nil.
    - by intros i j a b ?%elem_of_nil. }
  exists s. split_and!; [exact E|exact Hc|apply (i_edge _ _ _ Hi)|]. intros i j Hp (a&b&Ha&Hb&Hab). apply rtc_tc.
  - apply (i_clash _ _ _ Hi i j a b); [| |done|done]; cbn; by apply elem_events; split; [apply (precedes_elem _ _ _ Hp)|].
  - intros ->. by apply (precedes_irrefl _ i Hnd).
Qed.
End analysis.

(** ** The closure *)
Lemma tc_last {A} (P : A -> A -> Prop) x z : tc P x z -> exists y, rtc P x y /\ P y z.
Proof.
  induction 1 as [x z H|x y z H _ (w&Hyw&Hwz)]; [by exists x|]. exists w. split; [by eapply rtc_l|done].
Qed.
Lemma bounded_iterate {S A} (step : S -> S + A) (I : S -> Prop) (measure : S -> Z) (Post : A -> Prop) :
  (forall s, I s -> match step s with inl s' => I s' /\ measure s' < measure s | inr a => Post a end) ->
  forall p s, I s -> match iterate p step s with inl s' => I s' /\ measure s' + Z.pos p <= measure s | inr a => Post a end.
Proof.
  intros Hstep p. induction p as [p IH|p IH|]; intros s Hs; cbn [iterate].
  - pose proof (Hstep s Hs) as H0. destruct (step s) as [s0|]; [|done]. destruct H0 as [Hs0 ?]. pose proof (IH s0 Hs0) as H1.
    destruct (iterate p step s0) as [s1|]; [|done]. destruct H1 as [Hs1 ?]. pose proof (IH s1 Hs1) as H2.
    destruct (iterate p step s1) as [s2|]; [|done]. destruct H2. split; [done|lia].
  - pose proof (IH s Hs) as H1. destruct (iterate p step s) as [s1|]; [|done]. destruct H1 as [Hs1 ?]. pose proof (IH s1 Hs1) as H2.
    destruct (iterate p step s1) as [s2|]; [|done]. destruct H2. split; [done|lia].
  - pose proof (Hstep s Hs) as H0. destruct (step s) as [s0|]; [|done]. destruct H0. split; [done|lia].
Qed.

(** Positions in the block *)
Definition index (l : list ptr) (i : ptr) : nat := default 0%nat (fst <$> list_find (i =.) l).
Lemma index_lookup l a i : NoDup l -> l !! a = Some i -> index l i = a.
Proof.
  intros Hnd Ha. unfold index. destruct (list_find (i =.) l) as [[b x]|] eqn:E; cbn.
  - apply list_find_Some in E as (Hb&<-&_). by eapply NoDup_lookup.
  - exfalso. apply list_find_None in E. rewrite Forall_forall in E. by apply (E i); [eapply list_elem_of_lookup_2|].
Qed.
Lemma precedes_index l i j : NoDup l -> precedes l i j -> (index l i < index l j)%nat.
Proof. intros Hnd (a&b&Ha&Hb&?). by rewrite (index_lookup _ _ _ Hnd Ha), (index_lookup _ _ _ Hnd Hb). Qed.
Lemma index_inj l i j : NoDup l -> i ∈ l -> j ∈ l -> index l i = index l j -> i = j.
Proof.
  intros Hnd [a Ha]%list_elem_of_lookup [b Hb]%list_elem_of_lookup. rewrite (index_lookup _ _ _ Hnd Ha), (index_lookup _ _ _ Hnd Hb).
  intros ->. congruence.
Qed.
Lemma index_lt l i : NoDup l -> i ∈ l -> (index l i < length l)%nat.
Proof. intros Hnd [a Ha]%list_elem_of_lookup. rewrite (index_lookup _ _ _ Hnd Ha). by eapply lookup_lt_Some. Qed.

Definition weight (l : list nat) : Z := foldr (fun n z => 2 ^ Z.of_nat n + z) 0 l.
Lemma weight_cons n l : weight (n :: l) = 2 ^ Z.of_nat n + weight l.
Proof. done. Qed.
Lemma weight_app l1 l2 : weight (l1 ++ l2) = weight l1 + weight l2.
Proof. induction l1 as [|n l1 IH]; [done|]. cbn [app]. rewrite !weight_cons. lia. Qed.
Lemma weight_perm l1 l2 : l1 ≡ₚ l2 -> weight l1 = weight l2.
Proof. induction 1; rewrite ?weight_cons; lia. Qed.
Lemma weight_nonneg l : 0 <= weight l.
Proof. induction l as [|n l IH]; [done|]. rewrite weight_cons. pose proof (Z.pow_nonneg 2 (Z.of_nat n) ltac:(lia)). lia. Qed.
Lemma weight_seq n : weight (seq 0 n) = 2 ^ Z.of_nat n - 1.
Proof.
  induction n as [|n IH]; [done|]. rewrite seq_S, weight_app, IH. cbn. rewrite Z.add_0_r, Nat2Z.inj_succ, Z.pow_succ_r by lia. lia.
Qed.
Lemma weight_below n l : NoDup l -> (forall m, m ∈ l -> (m < n)%nat) -> weight l < 2 ^ Z.of_nat n.
Proof.
  intros Hnd Hl. assert (Hs : l ⊆+ seq 0 n) by (apply NoDup_submseteq; [done|]; intros m Hm%Hl; apply elem_of_seq; lia).
  apply submseteq_Permutation in Hs as [k Hk]. apply weight_perm in Hk. rewrite weight_app, weight_seq in Hk. pose proof (weight_nonneg k). lia.
Qed.

Lemma elem_in_order s x : x ∈ in_order s <-> x ∈ s.
Proof. unfold in_order. by rewrite merge_sort_Permutation, elem_of_elements. Qed.
Lemma NoDup_in_order s : NoDup (in_order s).
Proof. unfold in_order. rewrite merge_sort_Permutation. apply NoDup_elements. Qed.

Section closure.
Context (block : list ptr) (Hnd : NoDup block) (k : gmap ptr (gset ptr)) (Hk : forall j i, edge k j i -> precedes block i j).
Section search.
Context (source dest : ptr) (Hsource : source ∈ block).
Record searching (s : list ptr * gset ptr) : Prop := {
  se_queue : s.1 <> []; se_block : forall q, q ∈ s.1 -> q ∈ block /\ rtc (edge k) source q;
  se_source : source ∈ s.2;
  se_visited : forall x, x ∈ s.2 -> x ∈ s.1 \/ (dest ∉ kills k x /\ forall n, n ∈ kills k x -> n ∈ s.2 \/ n ∈ s.1) }.
Lemma closure_step_spec s : searching s -> match closure_step k dest s with
  | inl s' => searching s' /\ weight (index block <$> s'.1) < weight (index block <$> s.1)
  | inr b => b = true <-> tc (edge k) source dest
  end.
Proof.
  destruct s as [[|i queue] visited]; intros [H1 H2 H3 H4]; [done|]. cbn in H1, H2, H3, H4. cbn [closure_step].
  destruct (H2 i ltac:(left)) as [Hi Hri]. case_bool_decide as Hd; [split; [intros _; by eapply tc_rtc_l, tc_once|done]|].
  set (news := filter _ _).
  assert (Hnews : forall n, n ∈ news <-> n ∈ kills k i /\ n ∉ visited ∪ {[i]}).
  { intros n. unfold news. by rewrite list_elem_of_filter, elem_in_order, (comm and). }
  assert (Hvisited : forall x, x ∈ visited ∪ {[i]} -> x ∈ queue ++ news \/
    (dest ∉ kills k x /\ forall n, n ∈ kills k x -> n ∈ visited ∪ {[i]} \/ n ∈ queue ++ news)).
  { intros x Hx. destruct (decide (x = i)) as [->|Hne].
    - right. split; [done|]. intros n Hn. destruct (decide (n ∈ visited ∪ {[i]})); [by left|]. right. apply elem_of_app. right. by apply Hnews.
    - destruct (H4 x) as [Hq|[Hdx Hn]]; [set_solver|left; apply elem_of_cons in Hq as [?|?]; [done|set_solver]|].
      right. split; [done|]. intros n [?|[->|?]%elem_of_cons]%Hn; set_solver. }
  destruct (queue ++ news) as [|q0 qs] eqn:Eq; [|rewrite <- Eq in *; split; [split; cbn|]].
  - split; [done|]. intros Ht. exfalso.
    assert (Hall : forall x, rtc (edge k) source x -> x ∈ visited ∪ {[i]}).
    { refine (rtc_ind_r (fun x => x ∈ visited ∪ {[i]}) _ _ _); [by apply elem_of_union_l|]. intros y z _ Hyz Hy.
      destruct (Hvisited y Hy) as [?%elem_of_nil|[_ Hn]]; [done|]. by destruct (Hn z Hyz) as [?|?%elem_of_nil]. }
    apply tc_last in Ht as (y&Hy&Hyd). destruct (Hvisited y (Hall y Hy)) as [?%elem_of_nil|[Hn _]]; done.
  - congruence.
  - intros q [Hq|Hq%Hnews]%elem_of_app; [apply H2; by right|]. split; [by apply (precedes_elem _ _ _ (Hk i q (proj1 Hq)))|].
    eapply rtc_r; [done|apply Hq].
  - set_solver.
  - exact Hvisited.
  - cbn [fst]. rewrite fmap_app, weight_app, fmap_cons, weight_cons.
    assert (weight (index block <$> news) < 2 ^ Z.of_nat (index block i)); [|lia]. apply weight_below.
    + apply NoDup_fmap_2_strong; [|apply NoDup_filter, NoDup_in_order]. intros x y [Hx _]%Hnews [Hy _]%Hnews. apply index_inj; [done|..].
      * by apply (precedes_elem _ _ _ (Hk i x Hx)).
      * by apply (precedes_elem _ _ _ (Hk i y Hy)).
    + intros m (n&->&[Hn _]%Hnews)%list_elem_of_fmap. by apply precedes_index, Hk.
Qed.
Lemma inKillClosure_spec : exists b, inKillClosure (length block) k source dest = Ok b /\ (b = true <-> tc (edge k) source dest).
Proof.
  unfold inKillClosure.
  pose proof (bounded_iterate (closure_step k dest) searching (fun s => weight (index block <$> s.1)) (fun b => b = true <-> tc (edge k) source dest)
    closure_step_spec (2 ^ Pos.of_succ_nat (length block))%positive ([source], {[source]})) as H.
  destruct (iterate _ _ _) as [s|b]; [exfalso|exists b; split; [done|apply H]].
  2: { split; cbn; [done|intros q ->%list_elem_of_singleton; by split|set_solver|intros x ->%elem_of_singleton; left; left]. }
  destruct H as [_ H].
  { split; cbn; [done|intros q ->%list_elem_of_singleton; by split|set_solver|intros x ->%elem_of_singleton; left; left]. }
  cbn [fst] in H. pose proof (weight_nonneg (index block <$> s.1)). pose proof (index_lt block source Hnd Hsource).
  assert (2 ^ Z.of_nat (index block source) < Z.pos (2 ^ Pos.of_succ_nat (length block))); [|rewrite fmap_cons, weight_cons in H; change (weight (index block <$> [])) with 0 in H; lia].
  rewrite Pos2Z.inj_pow. apply Z.pow_lt_mono_r; lia.
Qed.
End search.

(** The dependencies that a closure keeps *)
Definition kept (view : ptr -> InstrView) (allow : bool) (j i : ptr) : bool := negb (allow && bothPushesOrPops view j i).
Lemma closure_of_spec (view : ptr -> InstrView) (allow : bool) (source : ptr) (dests : list ptr) (new : gmap ptr (gset ptr)) : source ∈ block ->
  exists k', closure_of view (length block) allow k source dests new = Ok k' /\
    forall j i, i ∈ kills k' j <-> i ∈ kills new j \/ (j = source /\ i ∈ dests /\ kept view allow j i = true /\ tc (edge k) j i).
Proof.
  intros Hs. revert new. induction dests as [|dest dests IH]; intros new; cbn [closure_of].
  { exists new. split; [done|]. intros j i. split; [by left|]. intros [?|(_&?%elem_of_nil&_)]; done. }
  destruct (allow && bothPushesOrPops view source dest) eqn:Ek.
  - destruct (IH new) as (k'&E&Hk'). exists k'. split; [done|]. intros j i. rewrite Hk'. unfold kept.
    split; (intros [?|(->&Hi&Hb&Ht)]; [by left|]).
    + right. split_and!; [done|by right|done|done].
    + apply elem_of_cons in Hi as [->|Hi]; [by rewrite Ek in Hb|]. right. by split_and!.
  - destruct (inKillClosure_spec source dest Hs) as (b&->&Hb). cbn [mbind res_bind].
    destruct (IH (if b then add_kills source {[dest]} new else new)) as (k'&E&Hk'). exists k'. split; [done|]. intros j i. rewrite Hk'.
    assert (Hnew : i ∈ kills (if b then add_kills source {[dest]} new else new) j <-> i ∈ kills new j \/ (j = source /\ i = dest /\ b = true)).
    { destruct b; [|by split; [left|intros [?|(_&_&?)]]]. rewrite kills_add. case_decide as Ej; [subst j; set_solver|].
      split; [by left|]. intros [?|(->&_&_)]; done. }
    rewrite Hnew. split.
    + intros [[?|(->&->&Hbt)]|(->&Hi&Hkept&Ht)]; [by left|right|right].
      * split_and!; [done|by left|unfold kept; by rewrite Ek|by apply Hb].
      * split_and!; [done|by right|done|done].
    + intros [?|(->&[->|Hi]%elem_of_cons&Hkept&Ht)]; [by left; left|left; right|right; by split_and!]. split_and!; [done|done|by apply Hb].
Qed.
Lemma closure_loop_spec (view : ptr -> InstrView) (allow : bool) (sources : list ptr) (new : gmap ptr (gset ptr)) : sources ⊆ block ->
  exists k', closure_loop view (length block) allow k block sources new = Ok k' /\
    forall j i, i ∈ kills k' j <-> i ∈ kills new j \/ (j ∈ sources /\ i ∈ block /\ kept view allow j i = true /\ tc (edge k) j i).
Proof.
  revert new. induction sources as [|source sources IH]; intros new Hs; cbn [closure_loop].
  { exists new. split; [done|]. intros j i. split; [by left|]. intros [?|(?%elem_of_nil&_)]; done. }
  destruct (closure_of_spec view allow source block new) as (k1&->&Hk1); [apply Hs; left|]. cbn [mbind res_bind].
  destruct (IH k1) as (k'&E&Hk'); [set_solver|]. exists k'. split; [done|]. intros j i. rewrite Hk', Hk1, elem_of_cons. naive_solver.
Qed.
Lemma computeDependencyClosure_spec view allow s : killMap s = k -> exists s',
  computeDependencyClosure view allow block s = Ok (tt, s') /\ dependencyClosure s' = true /\
  forall j i, i ∈ kills (killMap s') j <-> j ∈ block /\ i ∈ block /\ kept view allow j i = true /\ tc (edge k) j i.
Proof.
  intros Es. unfold computeDependencyClosure. rewrite Es. destruct (closure_loop_spec view allow block ∅) as (k'&E&Hk'); [done|].
  rewrite E. cbn [mbind res_bind]. eexists. split; [done|]. split; [done|]. intros j i. cbn. rewrite Hk'. unfold kills at 1. rewrite lookup_empty. set_solver.
Qed.
Lemma tc_precedes j i : tc (edge k) j i -> precedes block i j.
Proof. induction 1 as [j i H|j m i H _ IH]; [by apply Hk|]. eapply precedes_trans; [done|exact IH|by apply Hk]. Qed.
End closure.

(** ** visitInstructionGroups *)
Section visiting.
Context (block : list ptr) (Hnd : NoDup block) (s : ReachingDef) (Hclosed : dependencyClosure s = true).
Context (Hk : forall j i, i ∈ kills (killMap s) j -> precedes block i j).
Let ready (a : ptr) (order : list ptr) : Prop := forall d, d ∈ kills (killMap s) a -> d ∈ order.

Lemma areDependenciesCovered_spec a (covered : gset ptr) :
  areDependenciesCovered s a covered = Ok (bool_decide (kills (killMap s) a ⊆ covered)).
Proof.
  unfold areDependenciesCovered. cbn [covered_fuel]. set (loop := fix loop (l : list ptr) : res bool := _).
  assert (H : forall l, loop l = Ok (bool_decide (Forall (fun d => d ∈ covered) l))).
  { induction l as [|d l IH]; [transitivity (Ok true); [done|]; by rewrite bool_decide_eq_true_2 by constructor|].
    change (loop (d :: l)) with (if bool_decide (d ∉ covered) then Ok false else if dependencyClosure s then loop l
      else (b ← covered_fuel (size (killMap s)) s d covered; if b : bool then loop l else Ok false)). rewrite Hclosed, IH.
    destruct (decide (d ∈ covered)) as [Hd|Hd].
    - rewrite bool_decide_eq_false_2 by (intros Hn; by apply Hn). f_equal. apply bool_decide_ext. rewrite Forall_cons. tauto.
    - rewrite bool_decide_eq_true_2, bool_decide_eq_false_2 by (done || by intros [? _]%Forall_cons). done. }
  rewrite H. f_equal. apply bool_decide_ext. rewrite Forall_forall. by setoid_rewrite elem_in_order.
Qed.
Lemma group_of_spec visited l : group_of s visited l = Ok (filter (fun a => kills (killMap s) a ⊆ visited) l).
Proof.
  induction l as [|a l IH]; [done|]. cbn [group_of]. rewrite areDependenciesCovered_spec, IH. cbn [mbind res_bind].
  rewrite filter_cons. by case_bool_decide as Ha; [rewrite decide_True|rewrite decide_False].
Qed.

(** What a callback keeps, with the order that it has chosen so far *)
Context {C : Type} (callback : list ptr -> C -> res (ptr * C)) (I : list ptr -> C -> Prop).
Definition chooses : Prop := forall order c group, I order c -> order ⊆ block -> group <> [] ->
  (forall a, a ∈ group <-> a ∈ block /\ a ∉ order /\ ready a order) ->
  exists a c', callback group c = Ok (a, c') /\ a ∈ group /\ I (order ++ [a]) c'.
(** Every instruction follows those it depends on. *)
Definition ordered (order : list ptr) : Prop := forall l1 a l2, order = l1 ++ a :: l2 -> ready a l1.
Lemma some_ready order : (exists a, a ∈ block /\ a ∉ order) -> exists a, a ∈ block /\ a ∉ order /\ ready a order.
Proof.
  intros (a0&Ha0&Hn0). destruct (list_find (fun a => a ∉ order) block) as [[n a]|] eqn:E.
  - apply list_find_Some in E as (Ha&Hn&Hall). exists a. split_and!; [by eapply list_elem_of_lookup_2|done|]. intros d Hd.
    destruct (Hk a d Hd) as (i&j&Hi&Hj&Hij). assert (j = n) as -> by (by eapply NoDup_lookup). apply dec_stable, (Hall i d Hi). lia.
  - apply list_find_None in E. rewrite Forall_forall in E. by destruct (E a0 Ha0).
Qed.
Lemma visit_loop_spec fuel order c : chooses -> (length block < fuel + length order)%nat -> NoDup order -> order ⊆ block -> ordered order ->
  I order c -> exists order' c',
    visit_loop fuel s callback (list_to_set block ∖ list_to_set order) (list_to_set order) c = Ok c' /\ I order' c' /\ order' ≡ₚ block /\ ordered order'.
Proof.
  intros Hcb. revert order c. induction fuel as [|fuel IH]; intros order c Hlen Ho Hsub Hord HI.
  { pose proof (submseteq_length _ _ (NoDup_submseteq _ _ Ho Hsub)). lia. }
  cbn [visit_loop]. rewrite group_of_spec. cbn [mbind res_bind]. set (group := filter _ _).
  assert (Hgroup : forall a, a ∈ group <-> a ∈ block /\ a ∉ order /\ ready a order).
  { intros a. unfold group. rewrite list_elem_of_filter, elem_in_order, elem_of_difference, !elem_of_list_to_set. unfold ready. set_solver. }
  destruct group as [|g0 gs] eqn:Eg.
  - assert (Hall : forall a, a ∈ block -> a ∈ order).
    { intros a Ha. apply dec_stable. intros Hn. destruct (some_ready order) as (b&Hb); [by exists a|]. by apply Hgroup, elem_of_nil in Hb. }
    rewrite bool_decide_eq_true_2 by set_solver. exists order, c. split_and!; [done|done| |done].
    apply NoDup_Permutation; [done|done|]. intros a. split; [apply Hsub|apply Hall].
  - destruct (Hcb order c (g0 :: gs) HI Hsub) as (a&c'&E&Ha&HI'); [done|exact Hgroup|]. rewrite E. cbn [mbind res_bind].
    apply Hgroup in Ha as (Hab&Hao&Hr). rewrite bool_decide_eq_true_2 by set_solver.
    destruct (IH (order ++ [a]) c') as (order'&c2&E2&HI2&Hp&Ho2).
    + rewrite length_app. cbn. lia.
    + apply NoDup_app. split_and!; [done| |apply NoDup_singleton]. intros x Hx ->%list_elem_of_singleton. done.
    + set_solver.
    + intros l1 b l2 Eo. destruct l2 as [|x l2 _] using rev_ind.
      * apply app_inj_tail in Eo as [-> ->]. done.
      * rewrite app_comm_cons, app_assoc in Eo. apply app_inj_tail in Eo as [-> _]. by eapply Hord.
    + done.
    + exists order', c2. split_and!; [|done..]. rewrite <- E2. f_equal; set_solver.
Qed.
Lemma visitInstructionGroups_spec c : chooses -> I [] c -> exists order c',
  visitInstructionGroups block s callback c = Ok c' /\ I order c' /\ order ≡ₚ block /\ ordered order.
Proof.
  intros Hcb HI. destruct (visit_loop_spec (S (length block)) [] c Hcb) as (order&c'&E&H); [cbn; lia|constructor|set_solver| |done|].
  - by intros [|] ? ? ?.
  - exists order, c'. split; [|done]. rewrite <- E. unfold visitInstructionGroups. f_equal. set_solver.
Qed.
End visiting.

(** ** Execution *)
Section execution.
Context {V : Type} (view : ptr -> InstrView) (exec : ptr -> (Z -> V) -> Z -> V).
Definition agree (l : list Access) (s s' : Z -> V) : Prop := forall a, a ∈ l -> s (reg_of a) = s' (reg_of a).
(** An instruction changes only what it is said to write, and the result depends only on what it
    is said to read or write; a barrier may do anything. *)
Definition honours (i : ptr) : Prop :=
  (forall s s', (forall r, s r = s' r) -> forall r, exec i s r = exec i s' r) /\
  match eff view i with
  | Barrier => True
  | Accesses l => (forall s r, r ∉ writes l -> exec i s r = s r) /\
      (forall s s', agree l s s' -> forall r, r ∈ writes l -> exec i s r = exec i s' r)
  end.
Definition run (l : list ptr) (s : Z -> V) : Z -> V := foldl (fun s i => exec i s) s l.

Lemma honours_none i s r : honours i -> eff view i = Accesses [] -> exec i s r = s r.
Proof. intros [_ Hi] E. rewrite E in Hi. apply Hi. apply not_elem_of_nil. Qed.
Lemma eff_range i l : eff view i = Accesses l -> Forall (fun a => 0 <= reg_of a < 18) l.
Proof. unfold eff. destruct (effect_of (view i)) as [e|] eqn:E; [|done]. intros ->. by apply (effect_of_range _ _ E). Qed.
Lemma barrier_conflict i a : a ∈ accesses (eff view i) -> exists b, b ∈ everything /\ clash a b /\ clash b a.
Proof.
  intros Ha. assert (Hr : 0 <= reg_of a < 18).
  { destruct (eff view i) as [l|] eqn:E; [|by apply elem_everything]. apply eff_range in E. rewrite Forall_forall in E. by apply E. }
  exists (Wr (reg_of a)). split_and!; [by apply elem_everything|by destruct a..].
Qed.
Lemma honours_swap i j s r : honours i -> honours j -> ~ conflict view i j -> exec i (exec j s) r = exec j (exec i s) r.
Proof.
  intros Hi Hj Hc.
  assert (Hnone : forall i j, honours i -> honours j -> eff view i = Accesses [] -> exec i (exec j s) r = exec j (exec i s) r).
  { clear i j Hi Hj Hc. intros i j Hi Hj E. rewrite (honours_none i _ _ Hi E). apply Hj. intros q. symmetry. by apply honours_none. }
  destruct (eff view i) as [[|a li]|] eqn:Ei; [by apply Hnone| |]; (destruct (eff view j) as [[|b lj]|] eqn:Ej; [symmetry; by apply Hnone| |]).
  2-4: exfalso; apply Hc; unfold conflict; rewrite Ei, Ej.
  - destruct Hi as [Pi Hi], Hj as [Pj Hj]. rewrite Ei in Hi. rewrite Ej in Hj. set (l := a :: li) in *. set (l' := b :: lj) in *.
    destruct Hi as [Hi1 Hi2], Hj as [Hj1 Hj2].
    assert (Hd : forall x y, x ∈ l -> y ∈ l' -> ~ clash x y).
    { intros x y Hx Hy Hxy. apply Hc. exists x, y. rewrite Ei, Ej. by split_and!. }
    assert (Hw : forall q, q ∈ writes l -> q ∉ writes l').
    { intros q Hq%elem_writes Hq'%elem_writes. by apply (Hd _ _ Hq Hq'). }
    assert (Ha : agree l (exec j s) s).
    { intros x Hx. apply Hj1. intros Hq%elem_writes. apply (Hd _ _ Hx Hq). by destruct x. }
    assert (Hb : agree l' (exec i s) s).
    { intros x Hx. apply Hi1. intros Hq%elem_writes. by apply (Hd _ _ Hq Hx). }
    destruct (decide (r ∈ writes l)) as [Hr|Hr].
    + rewrite (Hi2 _ _ Ha r Hr). symmetry. apply Hj1. by apply Hw.
    + rewrite Hi1 by done. destruct (decide (r ∈ writes l')) as [Hr'|Hr'].
      * symmetry. by apply Hj2.
      * by rewrite (Hj1 s r Hr'), (Hj1 _ r Hr'), (Hi1 s r Hr).
  - destruct (barrier_conflict i a) as (b&Hb&Hab&_); [rewrite Ei; left|]. exists a, b. split_and!; [left|done|done].
  - destruct (barrier_conflict j b) as (a&Ha&_&Hab); [rewrite Ej; left|]. exists a, b. split_and!; [done|left|done].
  - exists (Wr 0), (Wr 0). by split_and!; [apply elem_everything|apply elem_everything|].
Qed.

Lemma run_ext l s s' : Forall honours l -> (forall r, s r = s' r) -> forall r, run l s r = run l s' r.
Proof.
  intros Hl. revert s s'. induction Hl as [|i l [Hi _] _ IH]; intros s s' Hs; [done|]. cbn. apply IH. by apply Hi.
Qed.
(** An instruction that nothing before it conflicts with can be executed first. *)
Lemma run_front l1 i s : Forall honours (l1 ++ [i]) -> (forall j, j ∈ l1 -> ~ conflict view j i) -> forall r, run (l1 ++ [i]) s r = run (i :: l1) s r.
Proof.
  intros Hh Hc. apply Forall_app in Hh as [Hl [Hi _]%Forall_cons]. revert s. induction Hl as [|j l1 Hj Hl IH]; intros s r; [done|].
  cbn. change (run (l1 ++ [i]) (exec j s) r = run l1 (exec j (exec i s)) r). rewrite IH by (intros m Hm; apply Hc; by right).
  cbn. apply run_ext; [done|]. intros q. symmetry. apply honours_swap; [done|done|]. apply Hc. left.
Qed.
(** An order that keeps the conflicting instructions in their order does the same. *)
Lemma run_reordered l l' s : Forall honours l -> NoDup l -> l' ≡ₚ l ->
  (forall i j, precedes l i j -> conflict view i j -> precedes l' i j) -> forall r, run l' s r = run l s r.
Proof.
  revert l s. induction l' as [|i l' IH]; intros l s Hh Hnd Hp Hc r; [by apply Permutation_nil in Hp as ->|].
  assert (Hi : i ∈ l) by (rewrite <- Hp; left). apply list_elem_of_split in Hi as (l1&l2&->).
  assert (Hnd' : NoDup (i :: l')) by by rewrite Hp.
  rewrite (cons_middle i l1 l2), app_assoc. unfold run at 2. rewrite foldl_app. fold (run (l1 ++ [i]) s). fold (run l2 (run (l1 ++ [i]) s)).
  assert (Hh' := Hh). rewrite cons_middle, app_assoc, Forall_app in Hh'. destruct Hh' as [Hh1 Hh2].
  rewrite (run_ext l2 _ (run (i :: l1) s)); [|done|apply run_front; [done|]].
  - cbn. change (run l' (exec i s) r = run l2 (run l1 (exec i s)) r). unfold run at 2 3. rewrite <- foldl_app. fold (run (l1 ++ l2) (exec i s)).
    assert (Hp' : l' ≡ₚ l1 ++ l2) by (apply (Permutation_cons_inv (a := i)); by rewrite Hp, Permutation_middle).
    apply IH; [|by rewrite <- Hp'; apply NoDup_cons in Hnd' as [_ ?]|done|].
    + rewrite Forall_app in Hh |- *. destruct Hh as [? [_ ?]%Forall_cons]. done.
    + intros a b Hab Hconf. apply (precedes_tail i); [|by apply Hc; [apply precedes_middle|]].
      intros ->. apply NoDup_cons in Hnd' as [Hn _]. apply Hn. rewrite Hp'. by apply (precedes_elem _ _ _ Hab).
  - intros j Hj Hconf. destruct (Hc j i) as (a&b&_&Hb&Hab); [|done|].
    + apply precedes_split. by exists l1, l2.
    + assert (b = 0%nat) by (by eapply (NoDup_lookup (i :: l'))). lia.
Qed.
End execution.

(** *** The analysis with its closure *)
Lemma closure_spec view block : NoDup block -> Forall (fun i => handled (view i)) block ->
  exists s, (analyze view block;; computeDependencyClosure view false block) new = Ok (tt, s) /\ dependencyClosure s = true /\
    (forall j i, i ∈ kills (killMap s) j -> precedes block i j) /\
    (forall i j, precedes block i j -> conflict view i j -> i ∈ kills (killMap s) j).
Proof.
  intros Hnd Hh. destruct (analyze_spec view block Hnd Hh) as (s1&E1&_&Hk&Hc).
  destruct (computeDependencyClosure_spec block Hnd (killMap s1) Hk view false s1 eq_refl) as (s&E&Hcl&Hks).
  exists s. unfold mbind, R_bind. rewrite E1. split_and!; [done|done| |].
  - intros j i (_&_&_&Ht)%Hks. by eapply tc_precedes.
  - intros i j Hp Hconf. apply Hks. destruct (precedes_elem _ _ _ Hp). split_and!; [done..|]. by apply Hc.
Qed.
Lemma ordered_precedes s order i j : NoDup order -> ordered s order -> j ∈ order -> i ∈ kills (killMap s) j -> precedes order i j.
Proof.
  intros Hnd Ho (l1&l2&->)%list_elem_of_split Hi. apply precedes_split. exists l1, l2. split; [done|]. by eapply Ho.
Qed.
(** An order that respects the closure executes as the block does. *)
Lemma ordered_run {V} view (exec : ptr -> (Z -> V) -> Z -> V) block s order :
  NoDup block -> (forall i j, precedes block i j -> conflict view i j -> i ∈ kills (killMap s) j) -> order ≡ₚ block -> ordered s order ->
  Forall (honours view exec) block -> forall s0 r, run exec order s0 r = run exec block s0 r.
Proof.
  intros Hnd Hc Hp Ho Hh s0 r. apply (run_reordered view); [done|done|done|]. intros i j Hij Hconf.
  apply (ordered_precedes s); [by rewrite Hp|done| |by apply Hc]. rewrite Hp. by apply (precedes_elem _ _ _ Hij).
Qed.

(** A callback that also records what it chooses *)
Definition recording {C} (callback : list ptr -> C -> res (ptr * C)) (group : list ptr) (c : C * list ptr) : res (ptr * (C * list ptr)) :=
  '(a, c') ← callback group c.1; Ok (a, (c', c.2 ++ [a])).

(** C20: The analysis ends without a failed assertion on a block of instructions that it handles,
    and so does [visitInstructionGroups], for every callback that chooses from the groups it is
    given.  The order it chooses has every instruction of the block once, and executes as the block
    does, on any machine whose instructions use and change no more than the analysis believes. *)
Theorem reaching_def_sound {C} view block (callback : list ptr -> C -> res (ptr * C)) c :
  NoDup block -> Forall (fun i => handled (view i)) block ->
  (forall group c, group <> [] -> group ⊆ block -> exists a c', callback group c = Ok (a, c') /\ a ∈ group) ->
  exists s order c', (analyze view block;; computeDependencyClosure view false block) new = Ok (tt, s) /\
    visitInstructionGroups block s (recording callback) (c, []) = Ok (c', order) /\ order ≡ₚ block /\
    forall V (exec : ptr -> (Z -> V) -> Z -> V), Forall (honours view exec) block -> forall s0 r, run exec order s0 r = run exec block s0 r.
Proof.
  intros Hnd Hh Hcb. destruct (closure_spec view block Hnd Hh) as (s&E&Hcl&Hk&Hc).
  destruct (visitInstructionGroups_spec block Hnd s Hcl Hk (recording callback) (fun order c => c.2 = order) (c, [])) as (order&[c' o]&E2&Ho&Hp&Hord).
  - intros order c1 group Ho Hsub Hne Hg. destruct (Hcb group c1.1 Hne) as (a&c'&Ea&Ha); [by intros x [Hx _]%Hg|].
    exists a, (c', c1.2 ++ [a]). unfold recording. rewrite Ea. split_and!; [done|done|]. cbn. by rewrite Ho.
  - done.
  - cbn in Ho. subst o. exists s, order, c'. split_and!; [done|done|done|]. intros V exec Hex. by apply (ordered_run view exec block s).
Qed.

(** ** Examples *)
Module ReachingDefExamples.
Definition reg (r : Z) : cs_x86_op := X86_OP_REG r.
Definition ins (id : Z) (l : list cs_x86_op) : InstrView := mkInstrView (Some (mkAssembly id (mkOperands (Z.of_nat (length l)) l))) None.
Definition rax : Z := 35.
Definition rbx : Z := 37.
Definition rcx : Z := 38.
Definition rdx : Z := 40.
(** mov %rax, %rbx; mov %rcx, %rdx; add %rbx, %rdx; mov %rax, %rcx; a call *)
Definition program (i : ptr) : InstrView :=
  if i =? 1 then ins X86_INS_MOV [reg rax; reg rbx] else if i =? 2 then ins X86_INS_MOV [reg rcx; reg rdx]
  else if i =? 3 then ins X86_INS_ADD [reg rbx; reg rdx] else if i =? 4 then ins X86_INS_MOV [reg rax; reg rcx]
  else mkInstrView None (Some 56).
Definition last_one (group : list ptr) (c : nat) : res (ptr * nat) :=
  match last group with Some a => Ok (a, S c) | None => Err Undefined end.

Example last_order :
  (('(_, s) ← (analyze program [1; 2; 3; 4; 5];; computeDependencyClosure program false [1; 2; 3; 4; 5]) new;
    visitInstructionGroups [1; 2; 3; 4; 5] s (recording last_one) (0%nat, [])) = Ok (5%nat, [2; 4; 1; 3; 5])).
Proof. vm_compute. reflexivity. Qed.

Lemma reaching_def_sound_witness : exists s order c', (analyze program [1; 2; 3; 4; 5];; computeDependencyClosure program false [1; 2; 3; 4; 5]) new = Ok (tt, s) /\
    visitInstructionGroups [1; 2; 3; 4; 5] s (recording last_one) (0%nat, []) = Ok (c', order) /\ order ≡ₚ [1; 2; 3; 4; 5] /\
    forall V (exec : ptr -> (Z -> V) -> Z -> V), Forall (honours program exec) [1; 2; 3; 4; 5] -> forall s0 r, run exec order s0 r = run exec [1; 2; 3; 4; 5] s0 r.
Proof.
  apply (reaching_def_sound program [1; 2; 3; 4; 5] last_one 0%nat).
  - apply (bool_decide_unpack (NoDup _)). vm_compute. done.
  - apply (bool_decide_unpack (Forall _ _)). vm_compute. done.
  - intros group c Hne _. unfold last_one. destruct (last group) as [a|] eqn:E; [|by apply last_None in E].
    exists a, (S c). split; [done|]. by apply last_Some_elem_of.
Defined.

(** [pop] to memory is taken to read the memory only: a load that follows it may come first. *)
Definition popped (i : ptr) : InstrView :=
  if i =? 1 then ins X86_INS_POP [X86_OP_MEM rax 0] else ins X86_INS_MOV [X86_OP_MEM rax 0; reg rbx].
Theorem pop_to_memory_not_ordered :
  ('(_, s) ← (analyze popped [1; 2];; computeDependencyClosure popped false [1; 2]) new;
   visitInstructionGroups [1; 2] s (recording last_one) (0%nat, [])) = Ok (2%nat, [2; 1]).
Proof. vm_compute. reflexivity. Qed.
(** [pop %rsp] writes the stack pointer twice, which fails an assertion. *)
Theorem pop_rsp_fails : analyze (fun _ => ins X86_INS_POP [reg X86Register.X86_REG_RSP]) [1] new = Err AssertFail.
Proof. vm_compute. reflexivity. Qed.
(** A segment register has no physical number: the assertion in [getReg] fails. *)
Theorem segment_register_fails : analyze (fun _ => ins X86_INS_MOV [reg 32; reg rax]) [1] new = Err AssertFail.
Proof. vm_compute. reflexivity. Qed.
End ReachingDefExamples.
