(* ===== verification/ReorderPush.v ===== *)
(** * Shuffling the instructions of blocks: src/pass/reorderpush.{h,cpp}

    The pass chooses a random order of the instructions of every small block among those that
    the dependencies allow, and gives the instructions of the block the semantics in that order. *)

From S2P Require Import Prelude ChunkList GSTable Chunk Mutator Assembly.
From S2P Require ReachingDef.
Import ChunkImpl.

(** The heap, the member [pushOrder] of the pass, and the number of calls of [rand]. *)
Record State := mkState { heap : Heap; pushOrder : list Z; draws : nat }.
Definition P (A : Type) : Type := State -> res (A * State).
#[export] Instance P_ret : MRet P := fun A a s => Ok (a, s).
#[export] Instance P_bind : MBind P := fun A B f m s => match m s with Ok (a, s) => f a s | Err e => Err e end.
Definition on_heap {A} (m : M A) : P A := fun s =>
  match m (heap s) with Ok (a, h) => Ok (a, mkState h (pushOrder s) (draws s)) | Err e => Err e end.
Definition lift {A} (r : res A) : P A := fun s => match r with Ok a => Ok (a, s) | Err e => Err e end.
Definition get_state : P State := fun s => Ok (s, s).
Definition set_order (l : list Z) (n : nat) : P unit := fun s => Ok (tt, mkState (heap s) l n).
Definition set_pushOrder (l : list Z) : P unit := fun s => Ok (tt, mkState (heap s) l (draws s)).

Module ReorderPush.
Section pass.
(** What the semantic objects say of their instructions, the results of [rand], and what
    [FrameType] finds in a function: the end of the prologue and the starts of epilogues. *)
Context (assembly : ptr -> ReachingDef.InstrView) (rand : nat -> Z) (frame : ptr -> option ptr * list ptr).

(** ** pickNextInstruction *)
Section pick.
Context (view : ptr -> ReachingDef.InstrView).
(** [push] or [pop] of a register *)
Definition stack_register (id : Z) (i : ptr) : option Z :=
  match ReachingDef.iv_assembly (view i) with
  | Some asm =>
    if (asm_id asm =? id) && bool_decide (getMode (asm_operands asm) = MODE_REG) then
      match operands (asm_operands asm) with X86_OP_REG reg :: _ => Some reg | _ => None end
    else None
  | None => None
  end.
(** The pops of registers other than the one pushed last are dropped; the last pop of it is
    the ordained one. *)
Fixpoint enforce (pushOrder : list Z) (l : list ptr) (ordained : option ptr) : res (list ptr * option ptr) :=
  match l with
  | [] => Ok ([], ordained)
  | i :: l =>
    match stack_register X86_INS_POP i with
    | Some reg =>
      match last pushOrder with
      | None => Err Undefined
      | Some r => if reg =? r then '(l, o) ← enforce pushOrder l (Some i); Ok (i :: l, o) else enforce pushOrder l ordained
      end
    | None => '(l, o) ← enforce pushOrder l ordained; Ok (i :: l, o)
    end
  end.
Definition pickNextInstruction (recordPushes enforcePops : bool) (candidates : list ptr) (s : list Z * nat) : res (ptr * (list Z * nat)) :=
  let '(pushOrder, draws) := s in
  '(candidates, ordainedPop) ← (if enforcePops then '(l, o) ← enforce pushOrder candidates None; cassert (bool_decide (l <> []));; Ok (l, o)
                          else Ok (candidates, None));
  if bool_decide (candidates = []) then Err Undefined     (* a division by zero *)
  else match candidates !! Z.to_nat (rand draws mod Z.of_nat (length candidates)) with
  | None => Err Undefined
  | Some ins =>
    let pushOrder := if recordPushes then match stack_register X86_INS_PUSH ins with Some r => pushOrder ++ [r] | None => pushOrder end
                     else pushOrder in
    let pushOrder := if bool_decide (Some ins = ordainedPop) then take (length pushOrder - 1) pushOrder else pushOrder in
    Ok (ins, (pushOrder, S draws))
  end.
End pick.

(** ** A block *)
Definition semantic_of (h : Heap) (i : ptr) : option ptr := x ← chunks h !! i; semantic x.
(** The assembly of an instruction is that of its semantic. *)
Definition view_of (h : Heap) (i : ptr) : ReachingDef.InstrView :=
  match semantic_of h i with Some s => assembly s | None => ReachingDef.mkInstrView None None end.
Definition setInstruction (s i : ptr) : M unit :=
  x ← semantic_at s;
  match sem_instruction x with
  | Some _ => put_semantic s (mkSemantic (sem_size x) (Some (Some i)) (sem_source x))
  | None => mret tt
  end.
(** The instructions get the semantics of the new order. *)
Fixpoint assign (m : ChunkMutator) (instrs newOrder : list ptr) : M unit :=
  match newOrder with
  | [] => mret tt
  | s :: newOrder =>
    match instrs with
    | [] => fail Undefined
    | ins :: instrs =>
      old ← ChunkMutator.getSemantic ins;
      (if bool_decide (Some s = old) then mret tt
       else
         ChunkMutator.setSemantic ins (Some s);;
         setInstruction s ins;;
         old ← deref old; o ← semantic_at old; n ← semantic_at s;
         ChunkMutator.modifiedChildSize m ins (swrap 32 (sub64 (sem_size o) (sem_size n))));;
      assign m instrs newOrder
    end
  end.
(** The lambda: the instruction that is picked, with its semantic recorded in [newOrder] *)
Definition picked (h : Heap) (allowPushReorder enforcePopOrder : bool) (group : list ptr) (c : (list Z * nat) * list ptr) :
    res (ptr * ((list Z * nat) * list ptr)) :=
  '(ins, s) ← pickNextInstruction (view_of h) allowPushReorder enforcePopOrder group c.1;
  match semantic_of h ins with Some sem => Ok (ins, (s, c.2 ++ [sem])) | None => Err NullDeref end.
Definition all_semantics (h : Heap) (l : list ptr) : res unit :=
  if forallb (fun i => match semantic_of h i with Some _ => true | None => false end) l then Ok tt else Err NullDeref.

(** Whether pushes may be reordered in the block, and pops must be *)
Definition block_flags (reorderPushes : bool) (prologueEnd : option ptr) (epilogueStartList : list ptr) (block : ptr) : P (bool * bool) :=
  if reorderPushes then
    p ← on_heap (deref prologueEnd); q ← on_heap (getParent p); h ← on_heap getHeap;
    let allow := bool_decide (q = Some block) in
    let enforce := existsb (fun e => bool_decide ((x ← chunks h !! e; parent x) = Some block)) epilogueStartList in
    mret (if allow && enforce then (false, false) else (allow, enforce))
  else mret (false, false).
Definition visit_Block (reorderPushes : bool) (prologueEnd : option ptr) (epilogueStartList : list ptr) (realPushOrder : list Z) (block : ptr) :
    P (list Z) :=
  flags ← block_flags reorderPushes prologueEnd epilogueStartList block;
  let allowPushReorder : bool := flags.1 in let enforcePopOrder : bool := flags.2 in
  l ← on_heap (children_at block);
  let instrs := iterable l in
  if (100 <? length instrs)%nat || (length instrs =? 1)%nat then mret realPushOrder
  else
    h ← on_heap getHeap;
    lift (all_semantics h instrs);;
    '(_, reachingDef) ← lift (ReachingDef.analyze (view_of h) instrs ReachingDef.new);
    '(_, reachingDef) ← lift (ReachingDef.computeDependencyClosure (view_of h) (allowPushReorder || enforcePopOrder) instrs reachingDef);
    (if enforcePopOrder then set_pushOrder realPushOrder else mret tt);;
    s ← get_state;
    '((order, n), newOrder) ← lift (ReachingDef.visitInstructionGroups instrs reachingDef
      (picked h allowPushReorder enforcePopOrder) ((pushOrder s, draws s), []));
    set_order order n;;
    on_heap (ChunkMutator.temporary (mkMutator block true) (fun m => assign m instrs newOrder));;
    mret (if allowPushReorder then order else realPushOrder).

(** ** A function, and the functions of a module *)
Fixpoint visit_blocks (reorderPushes : bool) (prologueEnd : option ptr) (epilogueStartList : list ptr) (realPushOrder : list Z) (l : list ptr) : P unit :=
  match l with
  | [] => mret tt
  | b :: l => real ← visit_Block reorderPushes prologueEnd epilogueStartList realPushOrder b;
              visit_blocks reorderPushes prologueEnd epilogueStartList real l
  end.
Definition visit_Function (function : ptr) : P unit :=
  let '(prologueEnd, epilogueStartList) := frame function in
  let reorderPushes := bool_decide (prologueEnd <> None) && negb (bool_decide (epilogueStartList = [])) in
  let reorderPushes := false in     (* enable this for super-conservative mode *)
  l ← on_heap (children_at function);
  visit_blocks reorderPushes prologueEnd epilogueStartList [] (iterable l);;
  set_pushOrder [].
Fixpoint visit_Functions (l : list ptr) : P unit :=
  match l with [] => mret tt | f :: l => visit_Function f;; visit_Functions l end.
(** [role_main]: whether the library of the module is the program itself *)
Definition visit_Module (role_main : bool) (functionList : ptr) : P unit :=
  if role_main then l ← on_heap (children_at functionList); visit_Functions (iterable l) else mret tt.
End pass.
End ReorderPush.
