(* ===== verification/ReorderPushProofs.v ===== *)
(** * Shuffled blocks do the same

    The theorems are about heaps in [MODE_OFFSET].  A function keeps its blocks, their
    instructions and its size; the instructions of a block get its semantics in another order, which executes the
    same, and the layout is contiguous again. *)

From S2P Require Import Prelude ChunkList GSTable Chunk Mutator MutatorProofs Layout Assembly ReorderPush.
From S2P Require ReachingDef ReachingDefProofs.
Import ChunkImpl ReorderPush.

(** ** Heaps that differ in the semantics of instructions *)
Record resem (h h' : Heap) : Prop := {
  rs_chunks : forall e, (fun x => with_semantic x None) <$> chunks h' !! e = (fun x => with_semantic x None) <$> chunks h !! e;
  rs_sizes : forall s, sem_size <$> semantics h' !! s = sem_size <$> semantics h !! s;
  rs_positions : only_offsets (positions h) (positions h');
  rs_mode : mode h' = mode h }.
Lemma resem_refl h : resem h h.
Proof. split; [done|done|apply only_offsets_refl|done]. Qed.
Lemma resem_trans h1 h2 h3 : resem h1 h2 -> resem h2 h3 -> resem h1 h3.
Proof.
  intros [A1 A2 A3 A4] [B1 B2 B3 B4]. split; [intros e; by rewrite B1|intros s; by rewrite B2|by eapply only_offsets_trans|congruence].
Qed.

Section resem.
Context (h h' : Heap) (Hr : resem h h').
Lemma resem_lookup e x : chunks h !! e = Some x -> exists s, chunks h' !! e = Some (with_semantic x s).
Proof.
  intros Hx. pose proof (rs_chunks _ _ Hr e) as E. rewrite Hx in E. destruct (chunks h' !! e) as [x'|]; [|done].
  exists (semantic x'). f_equal. destruct x, x'. cbn in E. unfold with_semantic in *. cbn in *. by injection E as -> -> -> -> -> -> -> -> -> ->.
Qed.
Lemma resem_back e x' : chunks h' !! e = Some x' -> exists x s, chunks h !! e = Some x /\ x' = with_semantic x s.
Proof.
  intros Hx'. pose proof (rs_chunks _ _ Hr e) as E. rewrite Hx' in E. destruct (chunks h !! e) as [x|] eqn:Hx; [|done].
  destruct (resem_lookup e x Hx) as (s&Hs). exists x, s. split; [done|congruence].
Qed.
Lemma resem_linked : linked (chunks h) -> linked (chunks h').
Proof.
  intros [H1 H2]. split; intros c x' Hx'; destruct (resem_back c x' Hx') as (x&?&Hx&->); [|exact (H2 c x Hx)].
  eapply seg_frame; [|by apply (H1 c x)]. intros d y _ Hy. destruct (resem_lookup d y Hy) as (s&Hs). eexists. by split.
Qed.
Lemma resem_typed : typed (chunks h) -> typed (chunks h').
Proof.
  intros H c x' d y' Hx' Hd Hy'. destruct (resem_back c x' Hx') as (x&?&Hx&->), (resem_back d y' Hy') as (y&?&Hy&->). by apply (H c x d y).
Qed.
Lemma resem_unique : pos_unique (chunks h) -> pos_unique (chunks h').
Proof.
  intros H e x' d y' p Hx' Hy'. destruct (resem_back e x' Hx') as (x&?&Hx&->), (resem_back d y' Hy') as (y&?&Hy&->). by apply (H e x d y).
Qed.
Lemma resem_path c l : path (chunks h) c l -> path (chunks h') c l.
Proof.
  apply path_frame. intros e x Hx _. destruct (resem_lookup e x Hx) as (s&Hs). eexists. by split_and!.
Qed.
Lemma resem_up c l : up (chunks h) c l -> up (chunks h') c l.
Proof.
  induction 1 as [c x Hx Hp|c x q l Hx Hp _ IH]; destruct (resem_lookup c x Hx) as (s&Hs); [by eapply up_top|by eapply up_step].
Qed.
Lemma resem_attached l : attached (chunks h) l -> attached (chunks h') l.
Proof.
  intros H e x' q y' He Hx' Hq Hy'. destruct (resem_back e x' Hx') as (x&?&Hx&->), (resem_back q y' Hy') as (y&?&Hy&->).
  by apply (H e x q y).
Qed.
Lemma resem_shaped : shaped (chunks h) (positions h) -> shaped (chunks h') (positions h').
Proof.
  intros H. assert (H' : shaped (chunks h) (positions h')) by (eapply (shaped_only_offsets h); [apply Hr|done]).
  intros c x' e Hx' Hk He. destruct (resem_back c x' Hx') as (x&?&Hx&->).
  destruct (H' c x e Hx Hk He) as (o&y&p&Hy&Hi&Hp&Hps). destruct (resem_lookup e y Hy) as (s&Hs). exists o, (with_semantic y s), p. by split_and!.
Qed.
Lemma resem_not_absolute e : not_absolute (chunks h) (positions h) e -> not_absolute (chunks h') (positions h') e.
Proof.
  intros (y&Hy&Hna). destruct (resem_lookup e y Hy) as (s&Hs). exists (with_semantic y s). split; [done|]. intros p Hp.
  destruct (Hna p Hp) as (z&Hz&Hb). destruct (rs_positions _ _ Hr p) as [E|(e'&o&o'&E&E')]; [rewrite E; by exists z|].
  rewrite E'. by eexists.
Qed.
Lemma resem_function f x a : function_at h f x a -> exists x', function_at h' f x' a /\ kids x' = kids x /\ csize x' = csize x.
Proof.
  intros [H1 H2 H3 (p&Hp&Hz)]. destruct (resem_lookup f x H1) as (s&Hs). exists (with_semantic x s). split; [|done].
  split; [done|done|done|]. exists p. split; [done|].
  destruct (rs_positions _ _ Hr p) as [Ep|(e'&o&o'&Ep&_)]; congruence.
Qed.
End resem.

(** ** Giving the instructions their new semantics *)
Definition ssize (h : Heap) (s : ptr) : Z := match semantics h !! s with Some y => sem_size y | None => 0 end.
Definition small (z : Z) : Prop := 0 <= z < 2 ^ 31.
(** What [assign] changes of the heap besides chunks *)
Record aside (h h' : Heap) : Prop := {
  as_mode : mode h' = mode h; as_positions : positions h' = positions h;
  as_sizes : forall s, sem_size <$> semantics h' !! s = sem_size <$> semantics h !! s }.
Lemma aside_refl h : aside h h.
Proof. done. Qed.
Lemma aside_trans h1 h2 h3 : aside h1 h2 -> aside h2 h3 -> aside h1 h3.
Proof. intros [A1 A2 A3] [B1 B2 B3]. split; [congruence|congruence|intros s; by rewrite B3]. Qed.
Lemma aside_ssize h h' s : aside h h' -> ssize h' s = ssize h s.
Proof.
  intros Ha. pose proof (as_sizes _ _ Ha s) as E. unfold ssize. destruct (semantics h !! s), (semantics h' !! s); cbn in E; congruence.
Qed.
Lemma aside_some h h' s : aside h h' -> is_Some (semantics h !! s) -> is_Some (semantics h' !! s).
Proof. intros Ha [y Hy]. pose proof (as_sizes _ _ Ha s) as E. rewrite Hy in E. destruct (semantics h' !! s); [by eexists|done]. Qed.

Lemma int_difference a b : small a -> small b -> swrap 32 (sub64 a b) = a - b.
Proof.
  intros Ha Hb. unfold small in *. unfold swrap, sub64, wrap. change (32 - 1) with 31.
  rewrite <- (Zplus_mod_idemp_l (_ mod _)), Z.mod_mod_divide by (exists (2 ^ 32); lia).
  rewrite Zplus_mod_idemp_l, Z.mod_small; lia.
Qed.
Lemma grow_zero l e x : grow l 0 e x = x.
Proof. unfold grow, bump. case_decide; [|done]. destruct (keeps_size (ctype x)); [|done]. destruct x. unfold with_csize. cbn. by rewrite Z.add_0_r. Qed.
Lemma grow_grow l d d' e x : grow l d' e (grow l d e x) = grow l (d + d') e x.
Proof.
  unfold grow. case_decide; [|done]. unfold bump. destruct (keeps_size (ctype x)) eqn:E; cbn; [|by rewrite E].
  rewrite E. unfold with_csize. cbn. by rewrite Z.add_assoc.
Qed.
Lemma grow_instruction l d e x : ctype x = TInstruction -> grow l d e x = x.
Proof. intros E. unfold grow, bump. case_decide; [|done]. by rewrite E. Qed.
Lemma grow_fields l d e x : ctype (grow l d e x) = ctype x /\ parent (grow l d e x) = parent x /\ semantic (grow l d e x) = semantic x.
Proof. unfold grow, bump. case_decide; [|done]. by destruct (keeps_size (ctype x)). Qed.

Lemma wp_setInstruction s i h (Q : unit -> Heap -> Prop) : is_Some (semantics h !! s) ->
  (forall h', aside h h' -> chunks h' = chunks h -> Q tt h') -> wp (setInstruction s i) Q h.
Proof.
  intros [y Hy] HQ. unfold setInstruction. mstep. eapply wp_semantic_at; [done|]. destruct (sem_instruction y).
  - unfold wp, put_semantic. apply HQ; [|done]. split; [done|done|]. intros t. cbn.
    destruct (decide (s = t)) as [<-|]; [by rewrite lookup_insert_eq, Hy|by rewrite lookup_insert_ne].
  - mstep. by apply HQ.
Qed.
Lemma wp_modifiedChildSize m l i d h (Q : unit -> Heap -> Prop) : mode h = MODE_OFFSET -> path (chunks h) (chunk m) l -> fits h l d ->
  (forall h', aside h h' -> tracked (grow l d) (chunks h) (chunks h') -> Q tt h') ->
  wp (ChunkMutator.modifiedChildSize m i d) Q h.
Proof.
  intros Hm Hp Hf HQ. unfold ChunkMutator.modifiedChildSize. mstep. eapply wp_mono; [|apply (wp_ancestors h (chunk m) l d _ Hp)].
  - intros _ h' (k&->&Hk). unfold ChunkMutator.updateGenerationCounts. mstep. mstep. cbn [mode with_chunks]. rewrite Hm.
    apply wp_ret. by apply HQ.
  - intros e x k He Hx Hkx Hk. destruct (path_elem _ _ _ _ Hp He) as (x'&Hx'&_&Hc). rewrite Hx in Hx'. injection Hx' as <-.
    apply wp_addToSize; [done|done|]. by apply (Hf e).
Qed.

Definition stepped (l : list ptr) (i s : ptr) (d : Z) (e : ptr) (x : Chunk) : Chunk :=
  if decide (e = i) then with_semantic x (Some s) else grow l d e x.
Definition plain_instruction (h : Heap) (i : ptr) : Prop := exists x o, chunks h !! i = Some x /\ ctype x = TInstruction /\
  semantic x = Some o /\ is_Some (semantics h !! o) /\ small (ssize h o).
Lemma plain_size h i x o : chunks h !! i = Some x -> ctype x = TInstruction -> semantic x = Some o -> size_of h i = ssize h o.
Proof. intros Hx Ht Ho. unfold size_of, ssize. by rewrite Hx, Ht, Ho. Qed.
Lemma instruction_not_above m c l i x : path m c l -> m !! i = Some x -> ctype x = TInstruction -> i ∉ l.
Proof. intros Hp Hx Ht Hi. destruct (path_elem _ _ _ _ Hp Hi) as (y&Hy&_&Hc). rewrite Hx in Hy. injection Hy as <-. by rewrite Ht in Hc. Qed.

Lemma assign_one m l h i s : mode h = MODE_OFFSET -> path (chunks h) (chunk m) l -> plain_instruction h i ->
  is_Some (semantics h !! s) -> small (ssize h s) -> fits h l (size_of h i - ssize h s) ->
  wp (old ← ChunkMutator.getSemantic i;
      if bool_decide (Some s = old) then mret tt
      else ChunkMutator.setSemantic i (Some s);; setInstruction s i;;
           old ← deref old; o ← semantic_at old; n ← semantic_at s;
           ChunkMutator.modifiedChildSize m i (swrap 32 (sub64 (sem_size o) (sem_size n))))
     (fun _ h' => aside h h' /\ tracked (stepped l i s (size_of h i - ssize h s)) (chunks h) (chunks h')) h.
Proof.
  intros Hm Hp (x&o&Hx&Ht&Ho&Hso&Hsmall) Hs Hss Hf. pose proof (plain_size h i x o Hx Ht Ho) as Ei. rewrite Ei in Hf |- *.
  unfold ChunkMutator.getSemantic. mstep. eapply (wp_read semantic); [done|]. rewrite Ho. case_bool_decide as E.
  - injection E as ->. mstep. split; [done|]. intros e. rewrite Z.sub_diag. unfold stepped. destruct (chunks h !! e) as [y|] eqn:Ey; [|done].
    cbn. f_equal. case_decide as Ee; [subst e|by rewrite grow_zero]. assert (y = x) as -> by congruence. destruct x. cbn in Ho. by subst.
  - mstep. unfold ChunkMutator.setSemantic. mstep; [done|]. mstep.
    set (h1 := with_chunks h _). apply wp_setInstruction; [done|]. intros h2 Ha Ec. mstep. mstep.
    destruct (aside_some h1 h2 o Ha Hso) as [yo Hyo], (aside_some h1 h2 s Ha Hs) as [ys Hys].
    mstep. eapply wp_semantic_at; [done|]. mstep. eapply wp_semantic_at; [done|].
    assert (sem_size yo = ssize h o) as -> by (transitivity (ssize h2 o); [unfold ssize; by rewrite Hyo|exact (aside_ssize h1 h2 o Ha)]).
    assert (sem_size ys = ssize h s) as -> by (transitivity (ssize h2 s); [unfold ssize; by rewrite Hys|exact (aside_ssize h1 h2 s Ha)]).
    rewrite int_difference by done.
    assert (Hi : i ∉ l) by by eapply instruction_not_above.
    apply (wp_modifiedChildSize m l).
    + rewrite (as_mode _ _ Ha). done.
    + rewrite Ec. eapply path_frame; [|exact Hp]. intros e y Hy _. cbn. destruct (decide (i = e)) as [<-|].
      * rewrite lookup_insert_eq. eexists. split; [done|]. assert (y = x) as -> by congruence. by split.
      * rewrite lookup_insert_ne by done. by exists y.
    + intros e y He Hy. rewrite Ec in Hy. cbn in Hy. rewrite lookup_insert_ne in Hy by (intros ->; done). by apply (Hf e).
    + intros h3 Ha3 Htr. split; [by eapply aside_trans, Ha3; destruct Ha|]. intros e. rewrite Htr, Ec. cbn. unfold stepped.
      destruct (decide (i = e)) as [<-|].
      * rewrite lookup_insert_eq, Hx. cbn. rewrite decide_True by done. by rewrite grow_instruction.
      * rewrite lookup_insert_ne by done. destruct (chunks h !! e); [|done]. cbn. by rewrite decide_False.
Qed.

Lemma wp_then {A} (a : M A) (b : A -> M unit) (c : M unit) Q h : wp (x ← a; b x) (fun _ => wp c Q) h -> wp (x ← a; b x;; c) Q h.
Proof. unfold wp, mbind, M_bind. destruct (a h) as [[x h1]|]; [|done]. by destruct (b x h1) as [[? h2]|]. Qed.
Definition new_of (instrs newOrder : list ptr) : gmap ptr ptr := list_to_map (zip instrs newOrder).
Definition assigned (l : list ptr) (instrs newOrder : list ptr) (d : Z) (e : ptr) (x : Chunk) : Chunk :=
  match new_of instrs newOrder !! e with Some s => with_semantic x (Some s) | None => grow l d e x end.
Lemma new_of_none instrs newOrder e : e ∉ instrs -> new_of instrs newOrder !! e = None.
Proof.
  intros He. apply not_elem_of_list_to_map_1. intros Hin. apply He. apply list_elem_of_fmap in Hin as ([a b]&->&Hab).
  by apply elem_of_zip_l in Hab.
Qed.
Definition excess (h : Heap) (instrs newOrder : list ptr) : Z := total (size_of h) instrs - total (ssize h) newOrder.

Lemma assign_ok m l instrs newOrder h : mode h = MODE_OFFSET -> path (chunks h) (chunk m) l -> NoDup instrs -> length newOrder = length instrs ->
  (forall i, i ∈ instrs -> plain_instruction h i) -> (forall s, s ∈ newOrder -> is_Some (semantics h !! s) /\ small (ssize h s)) ->
  (forall j, fits h l (excess h (take j instrs) (take j newOrder))) ->
  wp (assign m instrs newOrder)
    (fun _ h' => aside h h' /\ tracked (assigned l instrs newOrder (excess h instrs newOrder)) (chunks h) (chunks h')) h.
Proof.
  revert instrs h. induction newOrder as [|s newOrder IH]; intros [|i instrs] h Hm Hp Hnd Hlen Hi Hs Hf; try done.
  { apply wp_ret. split; [done|]. intros e. unfold assigned. cbn. destruct (chunks h !! e); [|done]. cbn. by rewrite grow_zero. }
  apply NoDup_cons in Hnd as [Hn Hnd]. injection Hlen as Hlen. cbn [assign].
  destruct (Hs s ltac:(left)) as [Hss Hssm]. pose proof (Hi i ltac:(left)) as Hpi.
  set (d := size_of h i - ssize h s). apply wp_then.
  eapply wp_mono; [|apply (assign_one m l h i s); [done|done|done|done|done|]].
  2: { pose proof (Hf 1%nat) as H1. unfold excess in H1. cbn in H1. by rewrite !Z.add_0_r in H1. }
  intros _ h1 [Ha1 Ht1]. cbv beta. fold d in Ht1.
  assert (Hnone : forall e x, chunks h !! e = Some x -> e <> i -> ctype x = TInstruction -> chunks h1 !! e = Some x).
  { intros e x Hx Hne Hti. rewrite Ht1, Hx. cbn. unfold stepped. by rewrite decide_False, grow_instruction. }
  assert (Hplain : forall j, j ∈ instrs -> plain_instruction h1 j /\ size_of h1 j = size_of h j).
  { intros j Hj. destruct (Hi j ltac:(by right)) as (x&o&Hx&Hti&Ho&Hso&Hsm). assert (Hx1 : chunks h1 !! j = Some x) by (apply Hnone; [done|by intros ->|done]).
    split; [exists x, o; rewrite (aside_ssize h h1 o Ha1); split_and!; try done; by eapply aside_some|].
    by rewrite (plain_size h j x o Hx Hti Ho), (plain_size h1 j x o Hx1 Hti Ho), (aside_ssize h h1 o Ha1). }
  assert (Hexcess : forall k, excess h1 (take k instrs) (take k newOrder) = excess h (take k instrs) (take k newOrder)).
  { intros k. unfold excess. rewrite (total_ext (size_of h) (size_of h1)), (total_ext (ssize h) (ssize h1)); [done| |].
    - intros e _. by apply aside_ssize.
    - intros e He. apply Hplain. by apply (subseteq_take k). }
  assert (Hall : excess h1 instrs newOrder = excess h instrs newOrder).
  { pose proof (Hexcess (length instrs)) as E. rewrite !(take_ge instrs), !(take_ge newOrder) in E by lia. done. }
  eapply wp_mono; [|apply (IH instrs h1)].
  - intros _ h2 [Ha2 Ht2]. split; [by eapply aside_trans|]. intros e. rewrite Ht2, Ht1, Hall. destruct (chunks h !! e) as [x|] eqn:Hx; [|done].
    cbn. f_equal. unfold assigned, stepped. unfold new_of at 2. cbn [zip zip_with list_to_map foldr].
    destruct (decide (e = i)) as [->|Hne].
    + rewrite lookup_insert_eq, (new_of_none instrs newOrder i Hn). destruct Hpi as (y&o&Hy&Hti&_). apply grow_instruction.
      assert (y = x) as -> by congruence. done.
    + rewrite lookup_insert_ne by done. fold (new_of instrs newOrder). destruct (new_of instrs newOrder !! e) as [t|] eqn:Et.
      * assert (He : e ∈ instrs) by (apply dec_stable; intros He; by rewrite new_of_none in Et). destruct (Hi e ltac:(by right)) as (y&o&Hy&Hti&_).
        assert (y = x) as -> by congruence. by rewrite grow_instruction.
      * rewrite grow_grow. f_equal. unfold excess, d. cbn. lia.
  - by rewrite (as_mode _ _ Ha1).
  - eapply path_frame; [|exact Hp]. intros e x Hx _. rewrite Ht1, Hx. cbn. unfold stepped. case_decide; [by eexists|].
    eexists. split; [done|]. by destruct (grow_fields l d e x) as (->&->&_).
  - done.
  - done.
  - intros j Hj. by apply Hplain.
  - intros t Ht. rewrite (aside_ssize h h1 t Ha1). destruct (Hs t ltac:(by right)). split; [by eapply aside_some|done].
  - intros k e x' He Hx' Hk. rewrite Hexcess. rewrite Ht1 in Hx'. destruct (chunks h !! e) as [x|] eqn:Hx; [|done]. injection Hx' as <-.
    unfold stepped in *. case_decide as Ee.
    { subst e. destruct Hpi as (y&o&Hy&Hti&_). by destruct (instruction_not_above _ _ _ _ _ Hp Hy Hti). }
    assert (Hkx : keeps_size (ctype x) = true) by (by destruct (grow_fields l d e x) as (<-&_)).
    pose proof (Hf (S k) e x He Hx Hkx) as Hb. unfold grow. rewrite decide_True by done. unfold bump. rewrite Hkx. cbn.
    unfold excess in *. cbn in Hb. unfold d. lia.
Qed.

(** ** The order of a block *)
Section pass.
Context (assembly : ptr -> ReachingDef.InstrView) (rand : nat -> Z).
Import ReachingDefProofs.
Abbreviation view := (view_of assembly).

Lemma pick_total v group s : group <> [] ->
  exists i, pickNextInstruction rand v false false group s = Ok (i, (s.1, S s.2)) /\ i ∈ group.
Proof.
  intros Hne. destruct s as [po n]. unfold pickNextInstruction. cbn [mbind res_bind]. rewrite bool_decide_eq_false_2 by done.
  assert (Hlen : 0 < Z.of_nat (length group)) by (destruct group; [done|cbn; lia]).
  pose proof (Z.mod_pos_bound (rand n) _ Hlen). destruct (group !! Z.to_nat (rand n mod Z.of_nat (length group))) as [i|] eqn:E.
  - exists i. split; [|by eapply list_elem_of_lookup_2]. cbn. by rewrite bool_decide_eq_false_2.
  - apply lookup_ge_None in E. lia.
Qed.

(** Sequences of semantics that execute the same on every machine that honours the analysis *)
Definition same_effect (l l' : list ptr) : Prop := l' ≡ₚ l /\
  forall V (exec : ptr -> (Z -> V) -> Z -> V), Forall (honours assembly exec) l -> forall st r, run exec l' st r = run exec l st r.
Lemma same_effect_refl l : same_effect l l.
Proof. done. Qed.
Lemma same_effect_trans l1 l2 l3 : same_effect l1 l2 -> same_effect l2 l3 -> same_effect l1 l3.
Proof.
  intros [P1 R1] [P2 R2]. split; [by etrans|]. intros V exec Hh st r. rewrite R2 by by rewrite P1. by apply R1.
Qed.
Lemma view_of_some h i s : semantic_of h i = Some s -> view h i = assembly s.
Proof. unfold view_of. by intros ->. Qed.
Lemma eff_view h i s : semantic_of h i = Some s -> eff (view h) i = eff assembly s.
Proof. intros E. unfold eff. by rewrite (view_of_some h i s E). Qed.
(** Instructions execute as their semantics do. *)
Lemma run_semantics {V} (exec : ptr -> (Z -> V) -> Z -> V) h l sems st r : semantic_of h <$> l = Some <$> sems ->
  run (fun i => match semantic_of h i with Some s => exec s | None => fun st => st end) l st r = run exec sems st r.
Proof.
  revert sems st. induction l as [|i l IH]; intros [|s sems] st E; try done. cbn in E. injection E as Ei E. cbn. rewrite Ei. by apply IH.
Qed.
Lemma fmap_perm {A} (g : A -> option ptr) l l' s s' : l' ≡ₚ l -> g <$> l = Some <$> s -> g <$> l' = Some <$> s' -> s' ≡ₚ s.
Proof.
  intros Hp E E'. assert (H : (Some <$> s') ≡ₚ (Some <$> s)) by (rewrite <- E, <- E'; by apply fmap_Permutation).
  assert (Hid : forall k : list ptr, omap (fun x : option ptr => x) (Some <$> k) = k) by (intros k; induction k as [|x k IH]; [done|cbn; by f_equal]).
  rewrite <- (Hid s'), <- (Hid s). by rewrite H.
Qed.
Lemma order_ok h instrs sems po n : NoDup instrs -> semantic_of h <$> instrs = Some <$> sems -> Forall (fun i => handled (view h i)) instrs ->
  exists s1 s2 newOrder n', ReachingDef.analyze (view h) instrs ReachingDef.new = Ok (tt, s1) /\
    ReachingDef.computeDependencyClosure (view h) false instrs s1 = Ok (tt, s2) /\
    ReachingDef.visitInstructionGroups instrs s2 (picked assembly rand h false false) ((po, n), []) = Ok ((po, n'), newOrder) /\
    same_effect sems newOrder.
Proof.
  intros Hnd Hs Hh. destruct (closure_spec (view h) instrs Hnd Hh) as (s2&E&Hcl&Hk&Hc).
  unfold mbind, ReachingDef.R_bind in E. destruct (ReachingDef.analyze (view h) instrs ReachingDef.new) as [[[] s1]|] eqn:E1; [|done].
  destruct (visitInstructionGroups_spec instrs Hnd s2 Hcl Hk (picked assembly rand h false false)
    (fun order c => c.1.1 = po /\ semantic_of h <$> order = Some <$> c.2) ((po, n), [])) as (order&[[po' n'] newOrder]&E2&[Hpo Hord]&Hp&Ho); [|done|].
  - intros order [[p k] c] group [Hp Hc0] Hsub Hne Hg. destruct (pick_total (view h) group (p, k) Hne) as (i&Ei&Hi).
    destruct (Hg i) as [Hgi _]. destruct (Hgi Hi) as (Hin&_&_).
    assert (Hsi : exists s, semantic_of h i = Some s).
    { assert (Hin' : semantic_of h i ∈ Some <$> sems) by (rewrite <- Hs; by apply list_elem_of_fmap_2).
      apply list_elem_of_fmap in Hin' as (s&->&_). by exists s. }
    destruct Hsi as [s Hsi]. exists i, ((p, S k), c ++ [s]). unfold picked. cbn [fst snd]. rewrite Ei. cbn. rewrite Hsi. split_and!; [done|done|done|].
    cbn [snd]. rewrite !fmap_app. cbn in Hc0 |- *. by rewrite Hc0, Hsi.
  - cbn in Hpo, Hord. subst po'. exists s1, s2, newOrder, n'. split_and!; [done|done|exact E2|]. split; [by eapply (fmap_perm (semantic_of h))|].
    intros V exec Hex st r. rewrite <- (run_semantics exec h order newOrder st r Hord), <- (run_semantics exec h instrs sems st r Hs).
    apply (ordered_run (view h) _ instrs s2 order); [done|done|done|done|]. apply Forall_forall. intros i Hi.
    assert (Hin' : semantic_of h i ∈ Some <$> sems) by (rewrite <- Hs; by apply list_elem_of_fmap_2).
    apply list_elem_of_fmap in Hin' as (s&Hsi&Hin). unfold honours. rewrite (eff_view h i s Hsi), Hsi. rewrite Forall_forall in Hex. by apply Hex.
Qed.

(** ** Functions whose blocks can be shuffled *)

(** [lf] are the chunks from the function up to the module, [l2] those above the function. *)
Record function_ok (h : Heap) (f : ptr) (lf l2 : list ptr) (a : Z) : Prop := {
  fn_updatable : updatable h;
  fn_sized : sized h;
  fn_nonneg : forall e, 0 <= size_of h e;
  fn_function : exists x, function_at h f x a;
  fn_path : path (chunks h) f lf;
  fn_attached : attached (chunks h) lf;
  fn_small : forall e x, e ∈ lf -> chunks h !! e = Some x -> keeps_size (ctype x) = true -> csize x < 2 ^ 62;
  fn_up : up (chunks h) f (f :: l2);
  fn_above : forall e, e ∈ l2 -> not_absolute (chunks h) (positions h) e;
  fn_blocks : forall x b y i, chunks h !! f = Some x -> b ∈ kids x -> chunks h !! b = Some y -> i ∈ kids y ->
    plain_instruction h i /\ handled (view h i) }.

Lemma plain_sizes h l sems : Forall (plain_instruction h) l -> semantic_of h <$> l = Some <$> sems -> total (ssize h) sems = total (size_of h) l.
Proof.
  intros Hp. revert sems. induction Hp as [|i l (z&o&Hz&Ht&Ho&_) Hp IH]; intros [|s sems] E; try done. cbn in E.
  unfold semantic_of in E at 1. rewrite Hz in E. cbn in E. injection E as Es E. cbn. rewrite (IH sems E), (plain_size h i z o Hz Ht Ho). congruence.
Qed.

Section block.
Context (h : Heap) (f : ptr) (lf l2 : list ptr) (a : Z) (Hok : function_ok h f lf l2 a).
Context (x : Chunk) (Hx : chunks h !! f = Some x) (b : ptr) (Hb : b ∈ kids x).
Lemma function_type : ctype x = TFunction.
Proof. destruct (fn_function _ _ _ _ _ Hok) as [x' [Hx' Ht _ _]]. congruence. Qed.
Lemma block_chunk : exists y, chunks h !! b = Some y /\ ctype y = TBlock /\ parent y = Some f.
Proof.
  destruct (kid_lookup _ (u_linked _ (fn_updatable _ _ _ _ _ Hok)) (u_typed _ (fn_updatable _ _ _ _ _ Hok)) f x b Hx Hb) as (y&Hy&Hp&Ht).
  exists y. rewrite function_type in Ht. split_and!; [done|by destruct (ctype y)|done].
Qed.
Context (y : Chunk) (Hy : chunks h !! b = Some y).
Lemma block_type : ctype y = TBlock /\ parent y = Some f.
Proof. destruct block_chunk as (y'&Hy'&?&?). by assert (y' = y) as -> by congruence. Qed.
Lemma block_path : path (chunks h) b (b :: lf).
Proof. destruct block_type as [Ht Hp]. eapply path_step; [done|by rewrite Ht|by rewrite Ht|done|apply Hok]. Qed.
Lemma block_up : up (chunks h) b (b :: f :: l2).
Proof. destruct block_type as [_ Hp]. eapply up_step; [done|done|apply Hok]. Qed.
Lemma block_attached : attached (chunks h) (b :: lf).
Proof.
  intros e z q w [->|He]%elem_of_cons Hz Hq Hw Hk; [|by apply (fn_attached _ _ _ _ _ Hok e z q w)].
  assert (z = y) as -> by congruence. rewrite (proj2 block_type) in Hq. injection Hq as <-. by assert (w = x) as -> by congruence.
Qed.
Lemma block_size : csize y = total (size_of h) (kids y).
Proof. apply (fn_sized _ _ _ _ _ Hok b y Hy). by rewrite (proj1 block_type). Qed.
Lemma block_not_absolute : not_absolute (chunks h) (positions h) b.
Proof.
  destruct (u_shaped _ (fn_updatable _ _ _ _ _ Hok) f x b Hx) as (o&w&p&Hw&_&Hp&Hps); [by rewrite function_type|done|].
  exists w. split; [done|]. intros q Hq. assert (q = p) as -> by congruence. by eexists.
Qed.
Lemma above_sizes e z : e ∈ b :: lf -> chunks h !! e = Some z -> keeps_size (ctype z) = true -> csize y <= csize z < 2 ^ 62.
Proof.
  assert (Hge : forall e z, e ∈ b :: lf -> chunks h !! e = Some z -> keeps_size (ctype z) = true -> csize y <= csize z).
  { apply (ancestor_sizes h b (b :: lf) (csize y) (u_typed _ (fn_updatable _ _ _ _ _ Hok)) (fn_sized _ _ _ _ _ Hok) (fn_nonneg _ _ _ _ _ Hok)
      block_path block_attached). intros w Hw _. assert (w = y) as -> by congruence. done. }
  intros He Hz Hk. split; [by apply (Hge e)|]. apply elem_of_cons in He as [->|He]; [|by apply (fn_small _ _ _ _ _ Hok e)].
  assert (z = y) as -> by congruence. assert (Hf : f ∈ lf) by (apply (path_head _ _ _ x (fn_path _ _ _ _ _ Hok) Hx); by rewrite function_type).
  eapply Z.le_lt_trans; [apply (Hge f x); [by right|done|by rewrite function_type]|apply (fn_small _ _ _ _ _ Hok f x); [done|done|by rewrite function_type]].
Qed.

Context (sems newOrder : list ptr) (Hsems : semantic_of h <$> kids y = Some <$> sems) (Hperm : newOrder ≡ₚ sems).
Lemma sems_plain s : s ∈ newOrder -> is_Some (semantics h !! s) /\ small (ssize h s).
Proof.
  rewrite Hperm. intros Hs. assert (Hin : Some s ∈ semantic_of h <$> kids y) by (rewrite Hsems; by apply list_elem_of_fmap_2).
  apply list_elem_of_fmap in Hin as (i&Ei&Hi). destruct (fn_blocks _ _ _ _ _ Hok x b y i Hx Hb Hy Hi) as [(z&o&Hz&_&Ho&Hso&Hsm) _].
  unfold semantic_of in Ei. rewrite Hz in Ei. cbn in Ei. rewrite Ho in Ei. by injection Ei as ->.
Qed.
Lemma sizes_of_sems : total (ssize h) sems = total (size_of h) (kids y).
Proof.
  apply plain_sizes; [|done]. apply Forall_forall. intros i Hi. by apply (fn_blocks _ _ _ _ _ Hok x b y i Hx Hb Hy).
Qed.
Lemma total_perm (g : ptr -> Z) l l' : l' ≡ₚ l -> total g l' = total g l.
Proof. induction 1; cbn; lia. Qed.
Lemma excess_zero : excess h (kids y) newOrder = 0.
Proof. unfold excess. rewrite (total_perm (ssize h) _ _ Hperm), sizes_of_sems. lia. Qed.
Lemma total_take (g : ptr -> Z) l j : (forall e, e ∈ l -> 0 <= g e) -> 0 <= total g (take j l) <= total g l.
Proof.
  intros Hg. rewrite <- (take_drop j l) at 3. rewrite total_app.
  assert (forall e, e ∈ take j l -> 0 <= g e) by (intros e He; by apply Hg, (subseteq_take j)).
  assert (forall e, e ∈ drop j l -> 0 <= g e) by (intros e He; by apply Hg, (subseteq_drop j)).
  pose proof (total_nonneg g (take j l) ltac:(done)). pose proof (total_nonneg g (drop j l) ltac:(done)). lia.
Qed.
Lemma block_fits j : fits h (b :: lf) (excess h (take j (kids y)) (take j newOrder)).
Proof.
  intros e z He Hz Hk. destruct (above_sizes e z He Hz Hk) as [H1 H2]. unfold excess.
  pose proof (total_take (size_of h) (kids y) j ltac:(intros; apply (fn_nonneg _ _ _ _ _ Hok))).
  assert (Hn : forall s, s ∈ newOrder -> 0 <= ssize h s) by (intros s Hs; apply (sems_plain s Hs)).
  pose proof (total_take (ssize h) newOrder j Hn). pose proof excess_zero as E. unfold excess in E. pose proof block_size. lia.
Qed.

(** The heap after [assign] *)
Record permuted (h1 : Heap) : Prop := {
  pm_aside : aside h h1;
  pm_chunks : forall e, chunks h1 !! e =
    (fun z => match new_of (kids y) newOrder !! e with Some s => with_semantic z (Some s) | None => z end) <$> chunks h !! e }.
Lemma assign_permuted : wp (assign (mkMutator b true) (kids y) newOrder) (fun _ h1 => permuted h1) h.
Proof.
  assert (Hlen : length newOrder = length (kids y)).
  { rewrite Hperm. rewrite <- (length_fmap Some sems), <- Hsems. by rewrite length_fmap. }
  eapply wp_mono; [|apply (assign_ok (mkMutator b true) (b :: lf) (kids y) newOrder h)].
  - intros _ h1 [Ha Ht]. split; [done|]. intros e. rewrite Ht, excess_zero. destruct (chunks h !! e); [|done]. cbn. unfold assigned.
    destruct (new_of _ _ !! e); [done|]. by rewrite grow_zero.
  - apply (fn_updatable _ _ _ _ _ Hok).
  - apply block_path.
  - apply (l_nodup _ (u_linked _ (fn_updatable _ _ _ _ _ Hok)) b y Hy).
  - done.
  - intros i Hi. by apply (fn_blocks _ _ _ _ _ Hok x b y i Hx Hb Hy).
  - apply sems_plain.
  - apply block_fits.
Qed.
Lemma new_of_lookup j i s : kids y !! j = Some i -> newOrder !! j = Some s -> new_of (kids y) newOrder !! i = Some s.
Proof.
  intros Hi Hs. apply elem_of_list_to_map_1.
  - assert (Hlen : length newOrder = length (kids y)).
    { rewrite Hperm. rewrite <- (length_fmap Some sems), <- Hsems. by rewrite length_fmap. }
    rewrite fst_zip by lia. apply (l_nodup _ (u_linked _ (fn_updatable _ _ _ _ _ Hok)) b y Hy).
  - apply list_elem_of_lookup. exists j. by rewrite lookup_zip_with, Hi; cbn; rewrite Hs.
Qed.
Context (h1 : Heap) (Hp1 : permuted h1).
Lemma permuted_same e : e ∉ kids y -> chunks h1 !! e = chunks h !! e.
Proof. intros He. rewrite (pm_chunks _ Hp1), new_of_none by done. by destruct (chunks h !! e). Qed.
Lemma permuted_semantics : semantic_of h1 <$> kids y = Some <$> newOrder.
Proof.
  assert (Hlen : length newOrder = length (kids y)).
  { rewrite Hperm. rewrite <- (length_fmap Some sems), <- Hsems. by rewrite length_fmap. }
  apply list_eq. intros j. rewrite !list_lookup_fmap. destruct (kids y !! j) as [i|] eqn:Ei.
  - destruct (newOrder !! j) as [s|] eqn:Es; [|apply lookup_ge_None in Es; apply lookup_lt_Some in Ei; lia]. cbn. f_equal.
    assert (Hi : i ∈ kids y) by (by eapply list_elem_of_lookup_2). destruct (fn_blocks _ _ _ _ _ Hok x b y i Hx Hb Hy Hi) as [(z&o&Hz&_) _].
    unfold semantic_of. rewrite (pm_chunks _ Hp1), Hz. cbn. by rewrite (new_of_lookup j i s Ei Es).
  - destruct (newOrder !! j) as [s|] eqn:Es; [|done]. apply lookup_ge_None in Ei. apply lookup_lt_Some in Es. lia.
Qed.
Lemma permuted_resem ps : only_offsets (positions h) ps -> resem h (with_positions h1 ps).
Proof.
  intros Hps. split; [|apply (pm_aside _ Hp1)|done|apply (pm_aside _ Hp1)]. intros e. cbn. rewrite (pm_chunks _ Hp1).
  destruct (chunks h !! e); [|done]. cbn. by destruct (new_of _ _ !! e).
Qed.
End block.

(** What [function_ok] needs, in a heap that differs in semantics only *)
Lemma resem_ssize h h' s : resem h h' -> ssize h' s = ssize h s.
Proof.
  intros Hr. pose proof (rs_sizes _ _ Hr s) as E. unfold ssize. destruct (semantics h !! s), (semantics h' !! s); cbn in E; congruence.
Qed.
Lemma resem_some h h' s : resem h h' -> is_Some (semantics h !! s) -> is_Some (semantics h' !! s).
Proof. intros Hr [y Hy]. pose proof (rs_sizes _ _ Hr s) as E. rewrite Hy in E. destruct (semantics h' !! s); [by eexists|done]. Qed.
Lemma resem_same_size h h' e : resem h h' -> chunks h' !! e = chunks h !! e -> size_of h' e = size_of h e.
Proof.
  intros Hr E. unfold size_of. rewrite E. destruct (chunks h !! e) as [z|]; [|done]. destruct (ctype z); try done.
  destruct (semantic z) as [s|]; [|done]. apply (resem_ssize h h' s Hr).
Qed.
Lemma function_ok_resem h h' f lf l2 a : function_ok h f lf l2 a -> resem h h' ->
  (forall e z', chunks h' !! e = Some z' -> chunks h !! e = Some z' \/
     exists s, semantic z' = Some s /\ is_Some (semantics h !! s) /\ small (ssize h s) /\ handled (assembly s)) ->
  (forall c z, chunks h !! c = Some z -> keeps_size (ctype z) = true -> total (size_of h') (kids z) = total (size_of h) (kids z)) ->
  function_ok h' f lf l2 a.
Proof.
  intros [[U1 U2 U3 U4 U5 U6] F2 F3 [x0 F4] F5 F6 F7 F8 F9 F10] Hr Hch Htot. split.
  - split; [by rewrite (rs_mode _ _ Hr)|by eapply resem_linked|by eapply resem_typed|by eapply resem_unique|by eapply resem_shaped|].
    intros c z' e Hz' Hk He. destruct (resem_back h h' Hr c z' Hz') as (z&s&Hz&->). destruct (U6 c z e Hz Hk He) as (w&Hw&Hwi).
    destruct (resem_lookup h h' Hr e w Hw) as (t&Ht). exists (with_semantic w t). split; [done|]. cbn. intros Hti.
    destruct (Hch e _ Ht) as [Hsame|(s'&Es&Hs'&_)].
    + assert (w = with_semantic w t) as Ew by congruence. destruct (Hwi Hti) as (o&v&Ho&Hv).
      destruct (resem_some h h' o Hr) as [v' Hv']; [by eexists|]. exists o, v'. split; [|done]. rewrite Ew in Ho. done.
    + cbn in Es. destruct (resem_some h h' s' Hr Hs') as [v' Hv']. by exists s', v'.
  - intros c z' Hz' Hk. destruct (resem_back h h' Hr c z' Hz') as (z&s&Hz&->). change (csize z = total (size_of h') (kids z)).
    rewrite (Htot c z Hz Hk). by apply F2 with c.
  - intros e. destruct (chunks h' !! e) as [z'|] eqn:Hz'; [|unfold size_of; by rewrite Hz'].
    destruct (Hch e z' Hz') as [Hsame|(s&Es&_&Hsm&_)]; [rewrite (resem_same_size h h' e Hr) by congruence; apply F3|].
    destruct (resem_back h h' Hr e z' Hz') as (z&t&Hz&->). cbn in Es. subst t. pose proof (F3 e) as Hpos. unfold size_of in Hpos |- *.
    rewrite Hz in Hpos. rewrite Hz'. cbn. destruct (ctype z); try done. change (0 <= ssize h' s). rewrite (resem_ssize h h' s Hr). apply Hsm.
  - destruct (resem_function h h' Hr f x0 a F4) as (x'&Hx'&_). by exists x'.
  - by eapply resem_path.
  - by eapply resem_attached.
  - intros e z' He Hz' Hk. destruct (resem_back h h' Hr e z' Hz') as (z&s&Hz&->). by apply (F7 e z).
  - by eapply resem_up.
  - intros e He. by eapply resem_not_absolute, F9.
  - intros x' b y' i Hx' Hb Hy' Hi. destruct (resem_back h h' Hr f x' Hx') as (x&?&Hx&->), (resem_back h h' Hr b y' Hy') as (y&?&Hy&->).
    destruct (F10 x b y i Hx Hb Hy Hi) as [(z&o&Hz&Ht&Ho&Hso&Hsm) Hh]. destruct (resem_lookup h h' Hr i z Hz) as (t&Hz').
    destruct (Hch i _ Hz') as [Hsame|(s&Es&Hs&Hsms&Hhs)].
    + assert (z = with_semantic z t) as Ez by congruence. rewrite <- Ez in Hz'. split.
      * exists z, o. rewrite (resem_ssize h h' o Hr). split_and!; [done|done|done|by eapply resem_some|exact Hsm].
      * unfold view_of, semantic_of in *. rewrite Hz'. by rewrite Hz in Hh.
    + cbn in Es. subst t. split.
      * exists (with_semantic z (Some s)), s. rewrite (resem_ssize h h' s Hr). split_and!; [done|done|done|by eapply resem_some|exact Hsms].
      * unfold view_of, semantic_of. by rewrite Hz'.
Qed.

(** ** One block *)
Record visited (f : ptr) (lf l2 : list ptr) (a : Z) (h h' : Heap) (y : Chunk) : Prop := {
  vi_ok : function_ok h' f lf l2 a;
  vi_resem : resem h h';
  vi_other : forall e, e ∉ kids y -> chunks h' !! e = chunks h !! e;
  vi_sems : exists sems sems', semantic_of h <$> kids y = Some <$> sems /\ semantic_of h' <$> kids y = Some <$> sems' /\ same_effect sems sems';
  vi_layout : h' = h \/ forall c, c = f \/ below (chunks h') f c -> contiguous h' c }.

Section visit.
Context (h : Heap) (f : ptr) (lf l2 : list ptr) (a : Z) (Hok : function_ok h f lf l2 a).
Context (x : Chunk) (Hx : chunks h !! f = Some x) (b : ptr) (Hb : b ∈ kids x) (y : Chunk) (Hy : chunks h !! b = Some y).
Lemma block_semantics : exists sems, semantic_of h <$> kids y = Some <$> sems.
Proof.
  assert (Hp : Forall (plain_instruction h) (kids y)) by (apply Forall_forall; intros i Hi; by apply (fn_blocks _ _ _ _ _ Hok x b y i Hx Hb Hy)).
  induction Hp as [|i l (z&o&Hz&_&Ho&_) _ [sems IH]]; [by exists []|]. exists (o :: sems). cbn. rewrite IH. f_equal. unfold semantic_of. by rewrite Hz.
Qed.
Lemma permuted_total sems newOrder h1 c z : semantic_of h <$> kids y = Some <$> sems -> newOrder ≡ₚ sems -> permuted h y newOrder h1 ->
  chunks h !! c = Some z -> keeps_size (ctype z) = true -> total (size_of h1) (kids z) = total (size_of h) (kids z).
Proof.
  intros Hs Hp Hp1 Hz Hk. assert (Hr : resem h h1).
  { pose proof (permuted_resem h y newOrder h1 Hp1 (positions h) (only_offsets_refl _)) as [R1 R2 R3 R4]. split; [done|done| |done].
    rewrite (as_positions _ _ (pm_aside _ _ _ _ Hp1)). apply only_offsets_refl. }
  pose proof (fn_updatable _ _ _ _ _ Hok) as Hu.
  destruct (decide (c = b)) as [->|Hne].
  - assert (z = y) as -> by congruence. rewrite <- (plain_sizes h (kids y) sems), <- (total_perm (ssize h) _ _ Hp); [|..|done].
    2: { apply Forall_forall. intros i Hi. by apply (fn_blocks _ _ _ _ _ Hok x b y i Hx Hb Hy). }
    rewrite <- (plain_sizes h1 (kids y) newOrder).
    + apply total_ext. intros s _. by apply resem_ssize.
    + apply Forall_forall. intros i Hi. destruct (fn_blocks _ _ _ _ _ Hok x b y i Hx Hb Hy Hi) as [(w&o&Hw&Ht&Ho&Hso&Hsm) _].
      pose proof (permuted_semantics h f lf l2 a Hok x Hx b Hb y Hy sems newOrder Hs Hp h1 Hp1) as E.
      assert (Hin : semantic_of h1 i ∈ Some <$> newOrder) by (rewrite <- E; by apply list_elem_of_fmap_2).
      apply list_elem_of_fmap in Hin as (s&Es&Hsn). destruct (sems_plain h f lf l2 a Hok x Hx b Hb y Hy sems newOrder Hs Hp s Hsn) as [Hss Hssm].
      destruct (resem_lookup h h1 Hr i w Hw) as (t&Ht1). unfold semantic_of in Es. rewrite Ht1 in Es. cbn in Es. subst t.
      exists (with_semantic w (Some s)), s. rewrite (resem_ssize h h1 s Hr). split_and!; [done|done|done|by eapply resem_some|exact Hssm].
    + by apply (permuted_semantics h f lf l2 a Hok x Hx b Hb y Hy sems newOrder Hs Hp h1 Hp1).
  - apply total_ext. intros e He. apply resem_same_size; [done|]. apply (permuted_same h y newOrder h1 Hp1). intros He'.
    apply Hne. destruct (kid_lookup _ (u_linked _ Hu) (u_typed _ Hu) c z e Hz He) as (w&Hw&Hpw&_).
    destruct (kid_lookup _ (u_linked _ Hu) (u_typed _ Hu) b y e Hy He') as (w'&Hw'&Hpw'&_). congruence.
Qed.
Lemma shuffled_ok sems newOrder : semantic_of h <$> kids y = Some <$> sems -> same_effect sems newOrder -> exists h',
  ChunkMutator.temporary (mkMutator b true) (fun m => assign m (kids y) newOrder) h = Ok (tt, h') /\ visited f lf l2 a h h' y.
Proof.
  intros Hs He. pose proof (proj1 He) as Hp.
  pose proof (assign_permuted h f lf l2 a Hok x Hx b Hb y Hy sems newOrder Hs Hp) as Hw. apply wp_Ok in Hw as ([]&h1&E1&Hp1).
  assert (Hch : forall e z', chunks h1 !! e = Some z' -> chunks h !! e = Some z' \/
     exists s, semantic z' = Some s /\ is_Some (semantics h !! s) /\ small (ssize h s) /\ handled (assembly s)).
  { intros e z' Hz'. destruct (decide (e ∈ kids y)) as [Hin|Hn]; [right|left; by rewrite <- (permuted_same h y newOrder h1 Hp1 e Hn)].
    pose proof (permuted_semantics h f lf l2 a Hok x Hx b Hb y Hy sems newOrder Hs Hp h1 Hp1) as E.
    assert (Hin' : semantic_of h1 e ∈ Some <$> newOrder) by (rewrite <- E; by apply list_elem_of_fmap_2).
    apply list_elem_of_fmap in Hin' as (s&Es&Hsn). exists s. unfold semantic_of in Es. rewrite Hz' in Es. split; [done|].
    destruct (sems_plain h f lf l2 a Hok x Hx b Hb y Hy sems newOrder Hs Hp s Hsn) as [Hss Hsm]. split_and!; [done|exact Hsm|].
    assert (Hso : Some s ∈ semantic_of h <$> kids y) by (rewrite Hs; apply list_elem_of_fmap_2; by rewrite <- Hp).
    apply list_elem_of_fmap in Hso as (i&Ei&Hi). rewrite <- (view_of_some h i s) by done.
    by apply (fn_blocks _ _ _ _ _ Hok x b y i Hx Hb Hy). }
  assert (Hok' : forall ps, only_offsets (positions h) ps -> function_ok (with_positions h1 ps) f lf l2 a).
  { intros ps Hps. apply (function_ok_resem h); [done|by apply (permuted_resem h y newOrder)|exact Hch|].
    intros c z. exact (permuted_total sems newOrder h1 c z Hs Hp Hp1). }
  assert (E1p : with_positions h1 (positions h) = h1) by (rewrite <- (as_positions _ _ (pm_aside _ _ _ _ Hp1)); by destruct h1).
  pose proof (Hok' (positions h) (only_offsets_refl _)) as Hok1. rewrite E1p in Hok1.
  pose proof (permuted_resem h y newOrder h1 Hp1 (positions h) (only_offsets_refl _)) as Hr1. rewrite E1p in Hr1.
  destruct (fn_function _ _ _ _ _ Hok1) as (x1&Hx1).
  assert (Hu : wp (ChunkMutator.updatePositions (mkMutator b true)) (fun _ => updated h1 f (positions h1)) h1).
  { apply (updatePositions_updated h1 (mkMutator b true) f x1 a [b] l2); [apply Hok1|done|done| |].
    - by apply (resem_up h h1 Hr1), (block_up h f lf l2 a Hok x Hx b Hb y).
    - intros e [->|Hl2]%elem_of_cons; apply (resem_not_absolute h h1 Hr1).
      + by apply (block_not_absolute h f lf l2 a Hok x Hx b Hb).
      + by apply (fn_above _ _ _ _ _ Hok). }
  apply wp_Ok in Hu as ([]&h2&E2&ps&->&Hps&Hsame&Hlaid). rewrite (as_positions _ _ (pm_aside _ _ _ _ Hp1)) in Hps.
  exists (with_positions h1 ps). split; [unfold ChunkMutator.temporary, mbind, M_bind; by rewrite E1|]. split.
  - by apply Hok'.
  - by apply (permuted_resem h y newOrder).
  - apply (permuted_same h y newOrder h1 Hp1).
  - exists sems, newOrder. split_and!; [done| |done].
    by apply (permuted_semantics h f lf l2 a Hok x Hx b Hb y Hy sems newOrder Hs Hp h1 Hp1).
  - right. intros c Hc. by apply (laid_contiguous h1 (fn_updatable _ _ _ _ _ Hok1) f x1 a Hx1).
Qed.
End visit.

Lemma visit_Block_ok h f lf l2 a x b y p e real po n : function_ok h f lf l2 a -> chunks h !! f = Some x -> b ∈ kids x -> chunks h !! b = Some y ->
  exists h' n', visit_Block assembly rand false p e real b (mkState h po n) = Ok (real, mkState h' po n') /\ visited f lf l2 a h h' y.
Proof.
  intros Hok Hx Hb Hy. destruct (block_semantics h f lf l2 a Hok x Hx b Hb y Hy) as [sems Hs].
  assert (Hch : children_at b h = Ok (childList y, h)).
  { unfold children_at, getChildren, mbind, M_bind, chunk_at. rewrite Hy. cbn.
    by rewrite (proj1 (block_type h f lf l2 a Hok x Hx b Hb y Hy)). }
  unfold visit_Block, block_flags, mbind, P_bind, on_heap. cbn [mret P_ret fst snd heap pushOrder draws]. rewrite Hch. cbn [heap pushOrder draws].
  fold (kids y). destruct (_ || _).
  { exists h, n. split; [done|]. split; [done|apply resem_refl|done| |by left]. exists sems, sems. split_and!; [done|done|apply same_effect_refl]. }
  cbn [getHeap]. assert (Hall : all_semantics h (kids y) = Ok tt).
  { unfold all_semantics. rewrite (proj2 (forallb_forall _ _)); [done|]. intros i Hi%list_elem_of_In.
    assert (Hin : semantic_of h i ∈ Some <$> sems) by (rewrite <- Hs; by apply list_elem_of_fmap_2).
    by apply list_elem_of_fmap in Hin as (s&->&_). }
  cbn [heap pushOrder draws]. unfold lift at 1. rewrite Hall. destruct (order_ok h (kids y) sems po n) as (s1&s2&newOrder&n'&E1&E2&E3&He); [|done| |].
  { apply (l_nodup _ (u_linked _ (fn_updatable _ _ _ _ _ Hok)) b y Hy). }
  { apply Forall_forall. intros i Hi. by apply (fn_blocks _ _ _ _ _ Hok x b y i Hx Hb Hy). }
  unfold lift at 1. rewrite E1. unfold lift at 1. cbn [orb]. rewrite E2. unfold get_state, lift. cbn [heap pushOrder draws]. unfold set_order. rewrite E3. cbn [heap pushOrder draws].
  destruct (shuffled_ok h f lf l2 a Hok x Hx b Hb y Hy sems newOrder Hs He) as (h'&E4&Hv). rewrite E4. by exists h', n'.
Qed.

(** ** A function *)
Definition shuffled (h h' : Heap) (y : Chunk) : Prop :=
  exists sems sems', semantic_of h <$> kids y = Some <$> sems /\ semantic_of h' <$> kids y = Some <$> sems' /\ same_effect sems sems'.
Lemma visit_blocks_ok f lf l2 a p e real bs h po n : function_ok h f lf l2 a -> (forall x, chunks h !! f = Some x -> bs ⊆ kids x) -> NoDup bs ->
  exists h' n', visit_blocks assembly rand false p e real bs (mkState h po n) = Ok (tt, mkState h' po n') /\ function_ok h' f lf l2 a /\ resem h h' /\
    (forall b y, chunks h !! b = Some y -> b ∈ bs -> shuffled h h' y) /\
    (forall i, (forall b y, chunks h !! b = Some y -> b ∈ bs -> i ∉ kids y) -> chunks h' !! i = chunks h !! i) /\
    (h' = h \/ forall c, c = f \/ below (chunks h') f c -> contiguous h' c).
Proof.
  intros Hok Hbs Hnd. revert h n Hok Hbs. induction Hnd as [|b bs Hnb Hnd IH]; intros h n Hok Hbs.
  { exists h, n. split_and!; [done|done|apply resem_refl|by intros b y _ ?%elem_of_nil|done|by left]. }
  destruct (fn_function _ _ _ _ _ Hok) as [x [Hx _ _ _]]. pose proof (Hbs x Hx) as Hbx. assert (Hb : b ∈ kids x) by (apply Hbx; left).
  destruct (block_chunk h f lf l2 a Hok x Hx b Hb) as (y&Hy&_).
  destruct (visit_Block_ok h f lf l2 a x b y p e real po n Hok Hx Hb Hy) as (h1&n1&E1&[Hok1 Hr1 Ho1 Hs1 Hl1]).
  destruct (IH h1 n1 Hok1) as (h2&n2&E2&Hok2&Hr2&Hs2&Ho2&Hl2).
  { intros x1 Hx1. destruct (resem_back h h1 Hr1 f x1 Hx1) as (x'&s&Hx'&->). assert (x' = x) as -> by congruence. intros c Hc. apply Hbx. by right. }
  assert (Hapart : forall i c w, i ∈ kids y -> c ∈ bs -> chunks h !! c = Some w -> i ∉ kids w).
  { intros i c w Hi Hc Hw Hiw. pose proof (fn_updatable _ _ _ _ _ Hok) as Hu.
    destruct (kid_lookup _ (u_linked _ Hu) (u_typed _ Hu) b y i Hy Hi) as (z&Hz&Hpz&_).
    destruct (kid_lookup _ (u_linked _ Hu) (u_typed _ Hu) c w i Hw Hiw) as (z'&Hz'&Hpz'&_). apply Hnb. congruence. }
  assert (Hb1 : forall c w, chunks h1 !! c = Some w -> exists w0, chunks h !! c = Some w0 /\ kids w = kids w0).
  { intros c w Hw. destruct (resem_back h h1 Hr1 c w Hw) as (w0&s&Hw0&->). by exists w0. }
  exists h2, n2. split_and!.
  - cbn [visit_blocks]. unfold mbind, P_bind. by rewrite E1.
  - done.
  - by eapply resem_trans.
  - intros c w Hw [->|Hc]%elem_of_cons.
    + assert (w = y) as -> by congruence. destruct Hs1 as (sems&sems'&Es&Es'&He). exists sems, sems'. split_and!; [done| |done].
      rewrite <- Es'. apply list_fmap_ext. intros j i Hi. unfold semantic_of. rewrite Ho2; [done|].
      intros d v Hv Hd. destruct (Hb1 d v Hv) as (v0&Hv0&->). apply (Hapart i d v0); [by eapply list_elem_of_lookup_2|done|done].
    + destruct (resem_lookup h h1 Hr1 c w Hw) as (t&Ht). destruct (Hs2 c _ Ht Hc) as (sems&sems'&Es&Es'&He). exists sems, sems'.
      split_and!; [|exact Es'|done]. rewrite <- Es. apply list_fmap_ext. intros j i Hi. unfold semantic_of. rewrite Ho1; [done|].
      intros Hiy. apply (Hapart i c w Hiy Hc Hw). by eapply list_elem_of_lookup_2.
  - intros i Hi. rewrite Ho2, Ho1; [done| |].
    + apply (Hi b y Hy). left.
    + intros c w Hw Hc. destruct (Hb1 c w Hw) as (w0&Hw0&->). apply (Hi c w0 Hw0). by right.
  - destruct Hl2 as [->|Hl2]; [exact Hl1|by right].
Qed.

(** C21: [ReorderPush::visit] on a function whose instructions the analysis handles returns, for
    every sequence of random numbers.  Only the semantics of instructions and offsets change: every
    block keeps its instructions, which have its semantics in another order, and this order
    executes the same on any machine whose instructions use and change no more than the analysis
    believes.  The function keeps its size, and if anything changed its code is contiguous. *)
Theorem reorder_push_correct frame h f lf l2 a po n : function_ok h f lf l2 a ->
  exists h' n', visit_Function assembly rand frame f (mkState h po n) = Ok (tt, mkState h' [] n') /\ function_ok h' f lf l2 a /\
    resem h h' /\ (forall x b y, chunks h !! f = Some x -> b ∈ kids x -> chunks h !! b = Some y -> shuffled h h' y) /\
    size_of h' f = size_of h f /\ (h' = h \/ forall c, c = f \/ below (chunks h') f c -> contiguous h' c).
Proof.
  intros Hok. destruct (fn_function _ _ _ _ _ Hok) as [x [Hx Ht Hi Hp]].
  assert (Hch : children_at f h = Ok (childList x, h)).
  { unfold children_at, getChildren, mbind, M_bind, chunk_at. rewrite Hx. cbn. by rewrite Ht. }
  destruct (frame f) as [p e] eqn:Ef.
  destruct (visit_blocks_ok f lf l2 a p e [] (kids x) h po n Hok) as (h'&n'&E&Hok'&Hr&Hs&Hother&Hl).
  { intros x' Hx'. by assert (x' = x) as -> by congruence. }
  { apply (l_nodup _ (u_linked _ (fn_updatable _ _ _ _ _ Hok)) f x Hx). }
  exists h', n'. unfold visit_Function. rewrite Ef. unfold mbind, P_bind, on_heap. cbn [heap pushOrder draws]. rewrite Hch. cbn [heap pushOrder draws].
  fold (kids x). rewrite E. split_and!; [done|done|done| | |done].
  - intros x' b y Hx' Hb Hy. apply (Hs b y Hy). by assert (x' = x) as <- by congruence.
  - destruct (resem_lookup h h' Hr f x Hx) as (s&Hs'). unfold size_of. rewrite Hs', Hx. cbn. by rewrite Ht.
Qed.
End pass.

(** ** Examples *)
Module ReorderPushExamples.
Import MutatorProofs.MutatorExamples.
(** The block of the example has [mov %rax, %rbx] and [mov %rcx, %rdx]; no function has a frame. *)
Definition mov (a b : Z) : ReachingDef.InstrView :=
  ReachingDef.mkInstrView (Some (mkAssembly X86_INS_MOV (mkOperands 2 [X86_OP_REG a; X86_OP_REG b]))) None.
Definition movs (s : ptr) : ReachingDef.InstrView := if s =? 40 then mov 35 37 else mov 38 40.
Definition no_frame (f : ptr) : option ptr * list ptr := (None, []).
Definition block_after (rand : nat -> Z) : res (list (option ptr) * list Z) :=
  match visit_Function movs rand no_frame 10 (mkState small [] 0) with
  | Ok (_, s) => match addresses [30; 31] (heap s) with Ok (l, h) => Ok (semantic_of h <$> [30; 31], l) | Err e => Err e end
  | Err e => Err e
  end.
(** Another random number gives the other order; the second instruction moves with the size of the first. *)
Example both_orders : block_after (fun _ => 0) = Ok ([Some 40; Some 41], [4096; 4100]) /\ block_after (fun _ => 1) = Ok ([Some 41; Some 40], [4096; 4101]).
Proof. vm_compute. done. Qed.

(** While the semantics are assigned the block has the wrong size: the first instruction grows by 1
    and the block of 9 bytes becomes one of 8. *)
Theorem assign_negates_change : match assign (mkMutator 20 true) [30; 31] [41] small with
  | Ok (_, h) => Ok (size_of h 20, total (size_of h) [30; 31]) | Err e => Err e end = Ok (8, 10).
Proof. vm_compute. done. Qed.

Lemma small_function_ok : function_ok movs small 10 [10; 5] [5] 4096.
Proof.
  split.
  - apply small_updatable.
  - apply small_ok.
  - intros e. unfold size_of. destruct (chunks small !! e) as [x|] eqn:H; [|done]. objects H; vm_compute; done.
  - exists (code TFunction (Some 5) None None (Some 100) 9 [20] None). split; try done. by exists 100.
  - eapply path_step; [reflexivity|done|done|reflexivity|]. by eapply path_top.
  - intros e x q y He Hx Hq Hy Hk. members He; vm_compute in Hx; injection Hx as <-; cbn in Hq; simplify_eq;
      vm_compute in Hy; injection Hy as <-; cbn in Hk; try done; set_solver.
  - intros e x He Hx Hk. members He; vm_compute in Hx; injection Hx as <-; cbn in *; try done; lia.
  - eapply up_step; [reflexivity|reflexivity|]. by eapply up_top.
  - intros e He. members He; (eexists; split; [reflexivity|]; intros p Hp; cbn in Hp; simplify_eq; by eexists).
  - intros x b y i Hx Hb Hy Hi. vm_compute in Hx. injection Hx as <-. members Hb. vm_compute in Hy. injection Hy as <-.
    members Hi; (split; [eexists _, _; split_and!; [reflexivity|done|reflexivity|by eexists|vm_compute; by split]|]);
      apply (bool_decide_unpack (ReachingDefProofs.handled _)); vm_compute; done.
Qed.
Lemma reorder_push_correct_witness : exists h' n',
  visit_Function movs (fun _ => 1) no_frame 10 (mkState small [] 0) = Ok (tt, mkState h' [] n') /\ size_of h' 10 = 9 /\
  contiguous h' 20.
Proof.
  destruct (reorder_push_correct movs (fun _ => 1) no_frame small 10 [10; 5] [5] 4096 [] 0%nat small_function_ok)
    as (h'&n'&E&_&Hr&_&Hs&Hl).
  exists h', n'. split; [exact E|]. split; [exact Hs|]. destruct Hl as [->|Hl].
  - exfalso. pose proof both_orders as [_ B]. unfold block_after in B. rewrite E in B. vm_compute in B. done.
  - apply Hl. right. destruct (resem_lookup small h' Hr 10 (code TFunction (Some 5) None None (Some 100) 9 [20] None)) as (t&Ht); [done|].
    eapply below_kid; [exact Ht|left].
Defined.
End ReorderPushExamples.
